(* ===== verification/_CoqProject ===== *)
-Q . S2P
Prelude.v
CppInt.v
CppString.v
CppStream.v
CppFloat.v
FloatValid.v
SafeMath.v
Path.v
PathSpec.v
PathNormal.v
PathOps.v
JsonModel.v
JsonError.v
DepthCounter.v
JsonNumber.v
JsonReader.v
JsonParser.v
JsonWriter.v
JsonSafety.v
JsonTree.v
JsonFinite.v
JsonRender.v
JsonDigits.v
JsonLex.v
JsonRoundTrip.v
Base64.v
Ipv4Address.v
CircularBuffer.v
IntrusiveList.v
IntrusiveListSpec.v
IntrusiveListSystem.v
CircularBufferSpec.v
Serializer.v
SerializerSpec.v
SerializerRoundTrip.v
SerializerSize.v
RustStorage.v
RustQueue.v
RustQueueSpec.v
RustVec.v
Hash.v
HashCalculator.v
WordBits.v
Crc32.v
Sha256.v
Sha256Spec.v
Sha256Calculator.v
HashFactory.v
PmrMemory.v
PmrClient.v
ChunkList.v
NewDeleteResource.v
MonotonicResource.v
PoolResource.v
PoolResourceSpec.v
PoolResourceLaw.v
CallStacks.v
StopToken.v
StopTokenInv.v
StopTokenSpec.v
InterruptibleState.v
InterruptibleStateSpec.v
InterruptibleWait.v
InterruptibleWaitSpec.v
ThreadPool.v
ThreadPoolSpec.v
SynchronizedQueue.v
WaitFreeStack.v
CircularAllocator.v
SplitStringView.v
LogPayload.v
LogFormat.v
SlotHandle.v
LogRecord.v
LogConfiguration.v
LogDrainer.v
LogDrainerSpec.v
TextRecorder.v
CompositeRecorder.v
