(* ===== verification/Prelude.v ===== *)
(** * A verification of eclipse-score/baselibs

    The repository (under src/score/) holds the base libraries of a vehicle
    platform.  This development models the parts with the richest behaviour of
    their own as executable definitions and proves what they promise.

    ** Parts and files

    - The language.  Prelude: the monad [outcome] of a call that returns
      ([Ret]), aborts the program ([Aborted]) or is undefined ([Undefined]),
      and [expected], the type behind [score::Result].  CppInt: the eight
      fixed-width integer types with conversions, promotions and operators; a
      signed overflow is [Undefined], an unsigned one wraps.  CppString:
      [std::string] as a list of characters, [std::string::npos] is [None].
      CppStream: input and output string streams with their state bits.
      CppFloat: IEEE 754 numbers (Stdlib's SpecFloat), [strtoll], [strtoull]
      and [strtod]; FloatValid: rounding gives numbers of the format.
    - language/safecpp/safe_math: SafeMath, one definition per integral
      overload of the comparisons, [Abs], [Cast], [Negate], [Add], [Subtract],
      [Multiply] and [Divide].  Template parameters are arguments, overload
      resolution on signedness is a [match], and the return mode decides
      whether an error is a value or an abort.
    - filesystem/path.cpp: Path has the class with its text and its parts, all
      member functions and the iterator.  PathSpec describes a text by its
      components, the directory a path leads to, and the normal form of the
      algorithm that the source quotes, computed by a stack machine.  PathNormal and PathOps prove the operations against
      it.
    - json/internal/model: JsonModel has the tree ([Any]), numbers with the
      type they are stored in, the lossless casts, equality and copies.
    - json/internal/parser/vajson: JsonError (errors, and methods as state
      transformers with total-correctness triples), DepthCounter (the automaton
      for the nesting), JsonNumber (the text of a number), JsonReader (stream
      operations and the event parser).  The receiver of the events is a type
      class [Implementer], as it is a template parameter in the source.
    - json/json_parser.cpp: JsonParser has the tree builder, whose pointers
      into the tree are paths from the root, [FromBuffer] and [FromFile].
    - json/internal/writer and json_writer.cpp: JsonWriter has the formatting
      writer, the escapes, the serializers and [ToBuffer].
    - utils/base64.cpp: Base64, with a reference definition on rows of bits.
    - string_manipulation/split_string_view.cpp: SplitStringView.
    - network/ipv4_address.cpp and sock_async/net_endpoint.cpp: Ipv4Address, with
      the byte order of the machine as an argument.
    - language/futurecpp, circular_buffer.hpp and its iterator: CircularBuffer
      has the storage, in which a slot holds an object or none, the indices and
      all operations; CircularBufferSpec relates a buffer to a sequence.
    - containers/intrusive_list.h: IntrusiveList has elements, lists and
      iterators as nodes of a shared memory; IntrusiveListSpec relates the
      nodes of a list to a sequence, IntrusiveListSystem the memory of a
      program to the state of all its lists.
    - static_reflection_with_serialization/serialization: Serializer has the
      serialisable types, the layout of their payloads, and both directions of
      visit_serialize.h on a buffer of characters.  An object has the Rocq type
      that its C++ type computes to.  SerializerSpec says what a buffer of a
      given size can hold of an object, SerializerRoundTrip proves both
      directions, SerializerSize has visit_size.h and the logging serializer
      of for_logging.h.
    - containers_rust: RustStorage has the trait [Storage] as a type class with
      its safety contract as laws, and the heap and inline storages as
      instances; RustQueue, RustQueueSpec and RustVec have the generic queue,
      vector and string on any storage that keeps the laws.
    - hash/code: Hash has the algorithms, hashes and their texts;
      HashCalculator the interface of calculators as a type class, what a
      calculator promises, and the reading of streams; Crc32 and Sha256 the
      two calculators, with WordBits for bits of words; Sha256Spec the digest
      of FIPS 180-4 and the hash of one block, Sha256Calculator the messages;
      HashFactory the factories, and the calculator over OpenSSL with the
      functions of that library as a parameter.
    - language/futurecpp, memory_resource.hpp and the files it includes:
      PmrMemory has memory as bytes, the bit functions, the interface
      [memory_resource] as a type class and what a resource promises
      ([Lawful]); PmrClient programs that allocate, write and deallocate, for
      any lawful resource; ChunkList the chunks with their descriptors in
      memory; NewDeleteResource the resources over an allocator, which is a
      parameter; MonotonicResource the monotonic buffer; PoolResource the pools,
      with PoolResourceSpec for one pool and PoolResourceLaw for all of them.
      A resource over another one is an instance over an instance.
    - mw/log, shared by threads: WaitFreeStack and CircularAllocator have the
      calls as sequences of atomic steps, and a step relation for any number of
      threads.
    - Threads that call the library and are called back by it: CallStacks has
      what the following models share, the active calls of all threads in one
      list.
    - language/futurecpp/src/stop_token.cpp: StopToken has [stop_state] and the
      [stop_callback] objects registered with it, StopTokenInv the invariant
      and StopTokenSpec the theorems.
    - concurrency/future, the state that a promise shares with its futures:
      InterruptibleState and InterruptibleStateSpec have its setters, readers
      and continuations.
    - concurrency/condition_variable.h, and how a thread waits for such a
      state: InterruptibleWait and InterruptibleWaitSpec, on the contract of
      stop tokens.
    - concurrency/thread_pool.cpp: ThreadPool has the workers, [Enqueue] and
      [InternalShutdown] on the contract of the condition variable,
      ThreadPoolSpec the invariant and the theorems.
    - concurrency/synchronized_queue.h: SynchronizedQueue, with one reader and
      any number of senders.
    - mw/log, messages: LogPayload (verbose_payload.cpp, the bounded buffer of
      a message), LogFormat (text_format.h and .cpp, the text of a value),
      SlotHandle (slot_handle.cpp), LogRecord (log_record.cpp, identifiers,
      levels, the counter of arguments).
    - mw/log/configuration: LogConfiguration has the configuration, the search
      for files and the reader, on top of JsonParser and SplitStringView.
    - mw/log/detail/text_recorder: LogDrainer has the message builder, the
      non-blocking writer and the drainer with its queue (a CircularBuffer);
      LogDrainerSpec its invariants; TextRecorder the backend, the recorder
      and the factory for the console.
    - mw/log/recorder.h and composite_recorder.cpp: CompositeRecorder has the
      interface as a type class [Recorder], with two instances.

    The JSON parts interact as in the source: [FromBuffer] makes a document
    from a buffer, the event parser reads tokens from its stream, asks the
    depth counter whether a token may come here, and reports events, with which
    the builder stores values into the tree.  JsonSafety proves the parser
    against the promise [SafeImplementer] of its receiver; JsonTree proves that
    the tree builder keeps this promise, and JsonFinite that all numbers of the
    tree are finite.

    The logging parts interact as in the source: a recorder reserves a slot of
    the allocator, formats values into the payload of the slot, and hands the
    slot to the drainer, which builds header and payload, writes them to the
    file descriptor as far as [write] takes them, and releases the slot.

    ** What is proved

    - Arithmetic (SafeMath): for all combinations of operand and result types,
      results are the mathematical ones or an error, and no operation is
      undefined.
    - Paths (PathNormal, PathOps): normalisation refines the stack machine
      except on paths of separators only, is idempotent, has the documented shape and leads to the same directory;
      construction and operations keep the parts in step with the text;
      concatenation, decomposition, replacement of extensions, iteration and
      ordering do what they say; when [ParentPath] is undefined.
    - Reading (JsonSafety, JsonTree, DepthCounter): on every buffer the reader
      returns, and what it returns is well formed.
    - Writing (JsonRender): the writer appends exactly the text a recursive
      specification gives; an infinity or a NaN is the only error.
    - Both (JsonDigits, JsonLex, JsonRoundTrip): the reader reads what the
      writer wrote as the same tree; which strings it cannot read back.
    - Numbers and trees (JsonModel): lossless casts never change a value, and
      are undefined for a NaN only; a copy equals the original.
    - Base64 and splitting: both directions of base64 against the reference
      definition, and the round trip; the substrings a loop visits.
    - Addresses (Ipv4Address): all addresses a program can make are well formed
      and are read back from their texts, netmasks and socket addresses; their
      order is total.  Examples show where byte order and the prefix 0 fail.
    - Circular buffer (CircularBufferSpec): every operation refines that of a
      bounded sequence and keeps the lifetimes of the objects; which documented
      calls of [erase] and [push_back] are undefined.
    - Intrusive list (IntrusiveListSystem): programs that respect the
      preconditions run, and each list has the elements it should have; other
      programs abort.
    - Serialisation (SerializerRoundTrip, SerializerSize): what is written is
      read back, and what did not fit is reported; reading an arbitrary buffer
      stays within it; the computed size is the size that is used.  Where these
      fail: wide offsets, oversized strings, the flag of an optional.
    - Rust containers (RustQueueSpec, RustVec): programs get the results of a
      bounded sequence; the unsafe blocks keep their contracts.
    - Hashes (Crc32, Sha256Calculator, Hash, HashFactory): however a message is
      cut into pieces or read from a stream, SHA-256 is the digest of the
      standard, with constants that are computed from the primes, and CRC-32
      the remainder of the message's polynomial; the texts of hashes are read
      back; every failure of OpenSSL is reported, and which one loses a
      context.
    - Memory resources (MonotonicResource, PoolResourceLaw): for every program
      and every lawful upstream resource blocks are aligned and disjoint, keep
      what was written, and everything is given back on [release]; resources
      stacked on each other, down to [operator new].  Requests outside of this:
      no bytes with an extended alignment, sizes that wrap around.
    - Concurrency (WaitFreeStack, CircularAllocator): for every interleaving
      there is no data race and no slot with two owners, results are right, and
      every call returns after a bounded number of its own steps.
    - Stop tokens (StopTokenSpec): every callback is called once, also when
      callbacks construct, destroy and request stops themselves; destroyed
      objects are not used; calls wait for callbacks only.
    - Promises (InterruptibleStateSpec): one setter wins, every continuation is
      called once, calls wait for the value only; everybody gets the value,
      without data races, unless a reader takes it while there are continuations
      or other readers.
    - Waiting (InterruptibleWaitSpec): no wake-up is lost, no call blocks for
      ever once the state is ready or a stop is requested, and what the result
      of a wait means.
    - The thread pool (ThreadPoolSpec): every task is invoked once and in order,
      no wake-up is lost, and a shutdown reaches every task and every worker; a
      stop callback that a shutdown runs and that calls the pool never returns.
    - The synchronized queue (SynchronizedQueue): elements arrive in order, the
      assertion of the reader holds, the shared state outlives its users, and nobody waits while there is an element.
    - Log messages (LogFormat, SlotHandle): the text of every value, cut to
      the capacity; handles are well formed.
    - Log configuration: that every list of files is read, how files combine, which level is enabled, which
      errors are not reported.
    - The console log (TextRecorder): for every sequence of calls, unless a raw
      buffer is written past the end of its message, and every behaviour of [write], what is written is a prefix of the messages in the
      order in which they were stopped.  With more slots than the queue has
      places this fails.
    - Several recorders (CompositeRecorder): a composite is equivalent to its
      recorders side by side, but for the values it forwards in another form.

    ** Fuel and bounds

    Loops of the source are fixpoints with fuel, and running out of fuel is
    [Undefined], so that a theorem with [Ret] in its conclusion is a proof of
    termination.  Loops over a stream get the number of unread characters plus
    one (the token loop plus two), loops over an intrusive list the number of
    nodes in the memory plus one; the loop that erases pairs of path
    components gets the number of components plus one, because every round
    erases two.  [std::size_t] is 64 bits wide and wraps.  Decimal texts of the
    JSON writer get 20 digits and those of the log 22, enough for 64 bits in
    base 8.  A message has two spans, so that draining it gets four rounds; a
    cycle of the drainer handles its limit of slots plus three rounds.  The
    queue has 1024 places, as in the source; console_log_exact therefore
    assumes at most that many slots.  The walk along the callbacks of a stop
    state gets as many steps as there are objects.  The loop over a block
    gets the number of its bytes, padding 64 rounds, the size of the buffer;
    the loop over a stream that is hashed gets its unread bytes plus two.
    Addresses are below 2^62, and the loop that releases a list of chunks gets
    the number of bytes in memory.  Executions in which the 64-bit counter of
    callbacks wraps are left out; promise_safe shows that a step of a promise returns while fewer than 2^31 continuations were added.

    ** What is not modelled

    Floating-point overloads of safe_math, which read the floating-point
    environment; [ToFile].  The text of a floating-point number is a parameter
    of the JSON writer and of the log.  The operating system is a parameter:
    the content of files, the environment, the results of [write] and the
    readings of the clocks; the hypotheses on it are that [write] takes no more
    than it is given and that a formatted time has a bounded length.  The mutex
    of the drainer makes its operations atomic; the recorder is therefore
    modelled as a sequence of calls.  Atomic accesses are sequentially
    consistent.  Of mw/log the frontend (loggers, streams, runtime) and the
    remote recorders are not modelled, nor are os, the kinds of tasks, the
    handles of futures, promises and stop tokens, the other containers,
    sockets and network interfaces, the macros of the reflection library and the other Rust
    crates: most of this is glue over the operating system or
    compile-time code.  OpenSSL is a parameter with the documented behaviour
    of its contexts.  The Rust allocator is a parameter that may refuse any
    request, and so is the C++ allocator below the memory resources, whose
    blocks are aligned to its natural alignment and do not overlap. *)

From stdpp Require Export base tactics option list strings numbers sets.
From Stdlib Require Export ZArith Lia Ascii Bool.

#[global] Set Default Proof Using "Type".

(** ** Outcome of running C++ code

    [Ret a] is a normal return, [Aborted] is a call of [std::abort] (a failed
    production assertion, [std::terminate], an abort-on-error mode), and
    [Undefined] is undefined behaviour (signed overflow, an access out of
    bounds).  A theorem that an operation returns [Ret _] therefore also says
    that the operation neither aborts nor runs into undefined behaviour. *)

Inductive outcome (A : Type) : Type :=
| Ret (a : A)
| Aborted
| Undefined.
Arguments Ret {A} a.
Arguments Aborted {A}.
Arguments Undefined {A}.

#[export] Instance outcome_ret : MRet outcome := @Ret.
#[export] Instance outcome_bind : MBind outcome := λ A B f m,
  match m with Ret a => f a | Aborted => Aborted | Undefined => Undefined end.
#[export] Instance outcome_fmap : FMap outcome := λ A B f m,
  match m with Ret a => Ret (f a) | Aborted => Aborted | Undefined => Undefined end.

#[export] Instance outcome_eq_dec {A} `{EqDecision A} : EqDecision (outcome A).
Proof. solve_decision. Defined.

(** ** [score::Result<T>], i.e. [score::details::expected<T, Error>] *)

Inductive expected (E A : Type) : Type :=
| Value (a : A)
| Unexpected (e : E).
Arguments Value {E A} a.
Arguments Unexpected {E A} e.

#[export] Instance expected_eq_dec {E A} `{EqDecision E, EqDecision A} :
  EqDecision (expected E A).
Proof. solve_decision. Defined.

(** ** Automation shared by the components *)

(** [cpp] holds the lemmas that discharge side conditions on machine integers
    and buffers; the components extend it. *)
Create HintDb cpp discriminated.

(** Case analysis on every [if]/[match] of the goal or of a hypothesis, with
    boolean comparisons on [Z] and [nat] reflected into propositions. *)
Ltac reflect_bool :=
  repeat match goal with
  | H : (_ && _) = true |- _ => apply andb_true_iff in H; destruct H
  | H : (_ || _) = false |- _ => apply orb_false_iff in H; destruct H
  | H : (_ <? _)%Z = true |- _ => apply Z.ltb_lt in H
  | H : (_ <? _)%Z = false |- _ => apply Z.ltb_ge in H
  | H : (_ <=? _)%Z = true |- _ => apply Z.leb_le in H
  | H : (_ <=? _)%Z = false |- _ => apply Z.leb_gt in H
  | H : (_ =? _)%Z = true |- _ => apply Z.eqb_eq in H
  | H : (_ =? _)%Z = false |- _ => apply Z.eqb_neq in H
  | H : (_ <? _)%nat = true |- _ => apply Nat.ltb_lt in H
  | H : (_ <? _)%nat = false |- _ => apply Nat.ltb_ge in H
  | H : (_ =? _)%nat = true |- _ => apply Nat.eqb_eq in H
  | H : (_ =? _)%nat = false |- _ => apply Nat.eqb_neq in H
  | H : negb _ = true |- _ => apply negb_true_iff in H
  | H : negb _ = false |- _ => apply negb_false_iff in H
  end.

(** Splits on the first scrutinee of the goal and reflects it. *)
Ltac split_if := case_match; reflect_bool; try done; try lia.
