(* ===== verification/CppInt.v ===== *)
(** * Machine integers of C++

    The fixed-width integer types the base libraries use, the conversions
    between them ([static_cast], modulo [2^N] with two's complement, as every
    supported compiler implements it) and the built-in arithmetic operators
    with the integer promotions and the usual arithmetic conversions written
    out.  Overflow of a signed operation is [Undefined]. *)

From S2P Require Import Prelude.

Local Open Scope Z_scope.

Inductive int_type :=
| int8_t | int16_t | int32_t | int64_t
| uint8_t | uint16_t | uint32_t | uint64_t.

#[export] Instance int_type_eq_dec : EqDecision int_type.
Proof. solve_decision. Defined.

Definition is_signed (t : int_type) : bool :=
  match t with int8_t | int16_t | int32_t | int64_t => true | _ => false end.

Definition bits (t : int_type) : Z :=
  match t with
  | int8_t | uint8_t => 8
  | int16_t | uint16_t => 16
  | int32_t | uint32_t => 32
  | int64_t | uint64_t => 64
  end.

(** [std::numeric_limits<T>::digits], [::lowest()] and [::max()]. *)
Definition digits (t : int_type) : Z := if is_signed t then bits t - 1 else bits t.
Definition lowest (t : int_type) : Z := if is_signed t then - 2 ^ (bits t - 1) else 0.
Definition max (t : int_type) : Z := 2 ^ digits t - 1.

Definition make_unsigned (t : int_type) : int_type :=
  match t with
  | int8_t => uint8_t | int16_t => uint16_t | int32_t => uint32_t | int64_t => uint64_t
  | t => t
  end.

Definition make_signed (t : int_type) : int_type :=
  match t with
  | uint8_t => int8_t | uint16_t => int16_t | uint32_t => int32_t | uint64_t => int64_t
  | t => t
  end.

(** The values an object of type [t] can hold. *)
Definition in_range (t : int_type) (z : Z) : Prop := lowest t <= z <= max t.

#[export] Instance in_range_dec t z : Decision (in_range t z).
Proof. unfold in_range; apply _. Defined.

(** [static_cast<t>(z)] for an integral operand. *)
Definition static_cast (t : int_type) (z : Z) : Z :=
  let m := z mod 2 ^ bits t in
  if is_signed t && (2 ^ (bits t - 1) <=? m) then m - 2 ^ bits t else m.

(** Integer promotion and usual arithmetic conversions. *)
Definition promote (t : int_type) : int_type :=
  if bits t <? 32 then int32_t else t.

Definition usual_arith (t1 t2 : int_type) : int_type :=
  let p1 := promote t1 in
  let p2 := promote t2 in
  if Bool.eqb (is_signed p1) (is_signed p2)
  then (if bits p2 <=? bits p1 then p1 else p2)
  else
    let u := if is_signed p1 then p2 else p1 in
    let s := if is_signed p1 then p1 else p2 in
    if bits s <=? bits u then u else s.

(** The value of an arithmetic operation performed in (promoted) type [t]. *)
Definition arith (t : int_type) (z : Z) : outcome Z :=
  if is_signed t
  then (if decide (in_range t z) then Ret z else Undefined)
  else Ret (static_cast t z).

Definition c_binop (op : Z → Z → Z) (t1 t2 : int_type) (a b : Z) : outcome Z :=
  let t := usual_arith t1 t2 in
  arith t (op (static_cast t a) (static_cast t b)).

Definition c_add := c_binop Z.add.
Definition c_sub := c_binop Z.sub.
Definition c_mul := c_binop Z.mul.
Definition c_neg (t : int_type) (a : Z) : outcome Z :=
  arith (promote t) (- static_cast (promote t) a).
Definition c_div (t1 t2 : int_type) (a b : Z) : outcome Z :=
  if static_cast (usual_arith t1 t2) b =? 0 then Undefined
  else c_binop Z.quot t1 t2 a b.
Definition c_rem (t1 t2 : int_type) (a b : Z) : outcome Z :=
  if static_cast (usual_arith t1 t2) b =? 0 then Undefined
  else c_binop Z.rem t1 t2 a b.

(** ** Facts about the types *)

Lemma lowest_nonpos t : lowest t <= 0.
Proof. by destruct t. Qed.

Lemma max_lower t : 127 <= max t.
Proof. by destruct t. Qed.

Lemma lowest_lower t : - 2 ^ 63 <= lowest t.
Proof. by destruct t. Qed.

Lemma lowest_unsigned t : is_signed t = false → lowest t = 0.
Proof. by destruct t. Qed.

Lemma lowest_signed t : is_signed t = true → lowest t = - max t - 1.
Proof. by destruct t. Qed.

Lemma is_signed_make_unsigned t : is_signed (make_unsigned t) = false.
Proof. by destruct t. Qed.

Lemma is_signed_make_signed t : is_signed (make_signed t) = true.
Proof. by destruct t. Qed.

Lemma make_unsigned_unsigned t : is_signed t = false → make_unsigned t = t.
Proof. by destruct t. Qed.

Lemma make_signed_signed t : is_signed t = true → make_signed t = t.
Proof. by destruct t. Qed.

Lemma max_make_unsigned t : is_signed t = true → max (make_unsigned t) = 2 * max t + 1.
Proof. by destruct t. Qed.

Lemma max_make_signed t : is_signed t = false → max t = 2 * max (make_signed t) + 1.
Proof. by destruct t. Qed.

Lemma static_cast_range t z : in_range t (static_cast t z).
Proof.
  unfold in_range, static_cast, lowest, max, digits.
  pose proof (Z.mod_pos_bound z (2 ^ bits t) ltac:(by destruct t)) as Hb.
  destruct t; simpl in *; repeat case_match; reflect_bool; lia.
Qed.

Lemma static_cast_id t z : in_range t z → static_cast t z = z.
Proof.
  unfold in_range, static_cast, lowest, max, digits.
  intros Hr. destruct (decide (0 <= z)) as [Hz|Hz].
  - rewrite Z.mod_small by (destruct t; simpl in *; lia).
    destruct t; simpl in *; repeat case_match; reflect_bool; lia.
  - assert (Hm : z mod 2 ^ bits t = z + 2 ^ bits t).
    { symmetry. apply (Z.mod_unique_pos z (2 ^ bits t) (-1));
        destruct t; simpl in *; lia. }
    rewrite Hm. destruct t; simpl in *; repeat case_match; reflect_bool; lia.
Qed.

(** Arithmetic in [std::size_t]. *)
Definition u64 : Z → Z := static_cast uint64_t.

Lemma u64_id z : 0 <= z < 2 ^ 64 → u64 z = z.
Proof.
  intros Hz. apply static_cast_id. unfold in_range. cbv [lowest max digits is_signed bits]. lia.
Qed.

(** Promotion never loses a value: every value of [t] is one of [promote t]. *)
Lemma in_range_promote t z : in_range t z → in_range (promote t) z.
Proof.
  unfold in_range. destruct t; simpl; unfold lowest, max, digits; simpl; lia.
Qed.

Lemma usual_arith_same t : usual_arith t t = promote t.
Proof. by destruct t. Qed.

Lemma usual_arith_unsigned t1 t2 z :
  is_signed t1 = false → is_signed t2 = false →
  in_range t1 z ∨ in_range t2 z → in_range (usual_arith t1 t2) z.
Proof.
  unfold in_range. intros. destruct t1, t2; try done;
    unfold usual_arith, promote, lowest, max, digits in *; simpl in *; lia.
Qed.

Lemma arith_in_range t z : in_range t z → arith t z = Ret z.
Proof.
  intros Hr. unfold arith. destruct (is_signed t).
  - by rewrite decide_True.
  - by rewrite static_cast_id.
Qed.

(** An operation on two values of one type whose exact result is again a value
    of that type is performed exactly. *)
Lemma c_binop_exact op t a b :
  in_range t a → in_range t b → in_range t (op a b) → c_binop op t t a b = Ret (op a b).
Proof.
  intros Ha Hb Hr. unfold c_binop. rewrite usual_arith_same.
  rewrite !static_cast_id by auto using in_range_promote.
  by apply arith_in_range, in_range_promote.
Qed.

Lemma c_neg_exact t a : in_range t a → in_range t (- a) → c_neg t a = Ret (- a).
Proof.
  intros Ha Hr. unfold c_neg. rewrite static_cast_id by auto using in_range_promote.
  by apply arith_in_range, in_range_promote.
Qed.

#[export] Hint Resolve in_range_promote static_cast_range : cpp.
