(* ===== verification/CppString.v ===== *)
(** * [std::string] and [std::getline]

    A [std::string] is a list of characters.  Positions are [nat]; the value
    [std::string::npos] is [None].  Accesses that the C++ standard leaves
    undefined are [Undefined]; a thrown [std::out_of_range] is [Aborted], since
    every caller is [noexcept]. *)

From S2P Require Import Prelude.

Abbreviation str := (list ascii).

(** [s! "text"] is the [std::string] with these characters. *)
Notation "s! x" := (String.list_ascii_of_string x%string) (at level 9, x at level 0, only parsing).

Definition front {A} (l : list A) : outcome A :=
  match l with [] => Undefined | a :: _ => Ret a end.

Fixpoint back {A} (l : list A) : outcome A :=
  match l with [] => Undefined | [a] => Ret a | _ :: l => back l end.

(** [s\[pos\]]; reading at [size()] yields the terminating NUL. *)
Definition char_at (s : str) (pos : nat) : outcome ascii :=
  match s !! pos with
  | Some c => Ret c
  | None => if (pos =? length s)%nat then Ret "000"%char else Undefined
  end.

Fixpoint find_last_of (c : ascii) (s : str) : option nat :=
  match s with
  | [] => None
  | a :: s =>
      match find_last_of c s with
      | Some i => Some (S i)
      | None => if decide (a = c) then Some 0 else None
      end
  end.

Fixpoint find_first_not_of (c : ascii) (s : str) : option nat :=
  match s with
  | [] => None
  | a :: s => if decide (a = c) then S <$> find_first_not_of c s else Some 0
  end.

Definition substr (pos : nat) (s : str) : outcome str :=
  if (pos <=? length s)%nat then Ret (drop pos s) else Aborted.

Definition substr_len (pos count : nat) (s : str) : outcome str :=
  if (pos <=? length s)%nat then Ret (take count (drop pos s)) else Aborted.

(** [s.erase(pos)] and [s.erase(0, count)]. *)
Definition erase_from (pos : nat) (s : str) : outcome str :=
  if (pos <=? length s)%nat then Ret (take pos s) else Aborted.
Definition erase_prefix (count : nat) (s : str) : str := drop count s.

(** [std::getline] on the unread characters of a string stream, up to and
    including the delimiter; [None] when no character could be extracted. *)
Fixpoint split_at (delim : ascii) (s : str) : str * str :=
  match s with
  | [] => ([], [])
  | c :: s =>
      if decide (c = delim) then ([], s)
      else let '(line, rest) := split_at delim s in (c :: line, rest)
  end.

Definition getline (delim : ascii) (s : str) : option (str * str) :=
  match s with [] => None | _ => Some (split_at delim s) end.

(** [operator<] of [std::string]: characters compare as [unsigned char]. *)
Fixpoint string_lt (s1 s2 : str) : bool :=
  match s1, s2 with
  | _, [] => false
  | [], _ :: _ => true
  | c1 :: s1, c2 :: s2 =>
      if (N_of_ascii c1 <? N_of_ascii c2)%N then true
      else if (N_of_ascii c2 <? N_of_ascii c1)%N then false
      else string_lt s1 s2
  end.

(** ** Facts *)

Lemma find_last_of_None c s : find_last_of c s = None ↔ c ∉ s.
Proof.
  induction s as [|a s IH]; simpl; [set_solver|].
  rewrite not_elem_of_cons, <- IH.
  destruct (find_last_of c s); [naive_solver|]. case_decide; naive_solver.
Qed.

(** The last occurrence splits the string. *)
Lemma find_last_of_Some c s i :
  find_last_of c s = Some i ↔ ∃ s1 s2, s = s1 ++ (c :: s2) ∧ c ∉ s2 ∧ i = length s1.
Proof.
  revert i. induction s as [|a s IH]; intros i; simpl.
  { split; [done|]. by intros ([|] & ? & ? & ?). }
  destruct (find_last_of c s) as [j|] eqn:E.
  - split.
    + intros [= <-]. destruct (proj1 (IH j) eq_refl) as (s1 & s2 & -> & ? & ->).
      by exists (a :: s1), s2.
    + intros ([|b s1] & s2 & [= -> Hs] & Hn & ->).
      * apply find_last_of_None in Hn. subst s2. congruence.
      * f_equal. assert (Some j = Some (length s1)) as [= ->]; [|done].
        apply IH. eauto.
  - apply find_last_of_None in E. case_decide as Ha.
    + subst a. split.
      * intros [= <-]. by exists [], s.
      * intros ([|b s1] & s2 & Hs & Hn & ->); simplify_eq/=; [done|]. set_solver.
    + split; [done|]. intros ([|b s1] & s2 & Hs & Hn & ->); simplify_eq/=. set_solver.
Qed.

Lemma find_first_not_of_None c s : find_first_not_of c s = None ↔ Forall (.= c) s.
Proof.
  induction s as [|a s IH]; simpl; [by split|]. rewrite Forall_cons. case_decide.
  - subst. rewrite fmap_None. naive_solver.
  - naive_solver.
Qed.

Lemma back_snoc {A} (l : list A) a : back (l ++ [a]) = Ret a.
Proof. induction l as [|b [|c l] IH]; done. Qed.

Lemma back_last {A} (l : list A) a : last l = Some a → back l = Ret a.
Proof. intros [l' ->]%last_Some. apply back_snoc. Qed.

Lemma string_lt_irrefl s : string_lt s s = false.
Proof. induction s as [|c s IH]; simpl; [done|]. by rewrite N.ltb_irrefl. Qed.

Lemma string_lt_trans s1 s2 s3 : string_lt s1 s2 → string_lt s2 s3 → string_lt s1 s3.
Proof.
  revert s2 s3. induction s1 as [|c1 s1 IH]; intros [|c2 s2] [|c3 s3]; simpl; try done.
  destruct (N.ltb_spec (N_of_ascii c1) (N_of_ascii c2)), (N.ltb_spec (N_of_ascii c2) (N_of_ascii c1)),
    (N.ltb_spec (N_of_ascii c2) (N_of_ascii c3)), (N.ltb_spec (N_of_ascii c3) (N_of_ascii c2)),
    (N.ltb_spec (N_of_ascii c1) (N_of_ascii c3)), (N.ltb_spec (N_of_ascii c3) (N_of_ascii c1));
    try done; try lia; eauto.
Qed.

Lemma string_lt_total s1 s2 : string_lt s1 s2 ∨ s1 = s2 ∨ string_lt s2 s1.
Proof.
  revert s2. induction s1 as [|c1 s1 IH]; intros [|c2 s2]; simpl; auto.
  destruct (N.ltb_spec (N_of_ascii c1) (N_of_ascii c2)), (N.ltb_spec (N_of_ascii c2) (N_of_ascii c1));
    auto; try lia.
  assert (c1 = c2) as ->.
  { rewrite <- (ascii_N_embedding c1), <- (ascii_N_embedding c2). f_equal; lia. }
  destruct (IH s2) as [?|[->|?]]; auto.
Qed.
