(* ===== verification/CppStream.v ===== *)
(** * [std::istringstream] and [std::ostream]

    The stream operations the JSON reader and writer use, with the state bits
    they depend on.  Every unformatted input function starts with a sentry
    that fails, and sets [failbit], on a stream that is not good. *)

From S2P Require Import Prelude CppString.

Module Stream.

Record istream := mk_istream { data : str; pos : nat; eofbit : bool; failbit : bool }.

Definition istringstream (s : str) : istream := mk_istream s 0 false false.

Definition good (s : istream) : bool := negb (eofbit s) && negb (failbit s).
Definition fail (s : istream) : bool := failbit s.

Definition set_eof (s : istream) : istream := mk_istream (data s) (pos s) true (failbit s).
Definition set_fail (s : istream) : istream := mk_istream (data s) (pos s) (eofbit s) true.
Definition set_pos (n : nat) (s : istream) : istream := mk_istream (data s) n (eofbit s) (failbit s).

(** [None] is [std::char_traits<char>::eof()]. *)
Definition peek (s : istream) : option ascii * istream :=
  if good s then
    match data s !! pos s with
    | Some c => (Some c, s)
    | None => (None, set_eof s)
    end
  else (None, set_fail s).

Definition get (s : istream) : option ascii * istream :=
  if good s then
    match data s !! pos s with
    | Some c => (Some c, set_pos (S (pos s)) s)
    | None => (None, set_fail (set_eof s))
    end
  else (None, set_fail s).

(** [read(buffer, n)] with the characters read, i.e. [gcount()] is their number. *)
Definition read (n : nat) (s : istream) : str * istream :=
  if good s then
    let chars := take n (drop (pos s) (data s)) in
    let s := set_pos (pos s + length chars) s in
    (chars, if (length chars =? n)%nat then s else set_fail (set_eof s))
  else ([], set_fail s).

(** [seekg(off, std::ios::cur)]: clears [eofbit] first; a failed stream stays
    where it is, and so does one asked to leave the buffer. *)
Definition seekg_cur (off : Z) (s : istream) : istream :=
  let s := mk_istream (data s) (pos s) false (failbit s) in
  if failbit s then s
  else
    let target := (Z.of_nat (pos s) + off)%Z in
    if ((0 <=? target) && (target <=? Z.of_nat (length (data s))))%Z
    then set_pos (Z.to_nat target) s
    else set_fail s.

(** [seekg(0, std::ios::beg)] *)
Definition seekg_beg (s : istream) : istream :=
  let s := mk_istream (data s) (pos s) false (failbit s) in
  if failbit s then s else set_pos 0 s.

(** [clear(rdstate() & ~(failbit | eofbit))] *)
Definition clear_fail_eof (s : istream) : istream := mk_istream (data s) (pos s) false false.

(** The unread characters. *)
Definition rest (s : istream) : str := drop (pos s) (data s).

(** An output string stream with its [failbit]; a failed stream writes nothing. *)
Record ostream := mk_ostream { text : str; ofail : bool }.

Definition write (s : str) (o : ostream) : ostream :=
  if ofail o then o else mk_ostream (text o ++ s) false.
Definition put (c : ascii) (o : ostream) : ostream := write [c] o.
Definition setstate_fail (o : ostream) : ostream := mk_ostream (text o) true.

(** ** Facts *)

(** A good stream from which [r] is still to be read; [at_end] holds once a
    [peek] has hit the end. *)
Definition reading (s : istream) (r : str) : Prop :=
  eofbit s = false ∧ failbit s = false ∧ rest s = r ∧ pos s ≤ length (data s).

Lemma reading_good s r : reading s r → good s = true.
Proof. unfold reading, good. by intros (-> & -> & _). Qed.

Lemma reading_lookup s r : reading s r → data s !! pos s = head r.
Proof.
  intros (_ & _ & <- & _). unfold rest. rewrite head_lookup, lookup_drop. by rewrite Nat.add_0_r.
Qed.

Lemma peek_cons s c r : reading s (c :: r) → peek s = (Some c, s).
Proof. intros H. unfold peek. by rewrite (reading_good _ _ H), (reading_lookup _ _ H). Qed.

Lemma peek_nil s : reading s [] → peek s = (None, set_eof s).
Proof. intros H. unfold peek. by rewrite (reading_good _ _ H), (reading_lookup _ _ H). Qed.

Lemma reading_next s c r : reading s (c :: r) → reading (set_pos (S (pos s)) s) r.
Proof.
  intros (? & ? & Hr & Hl). unfold reading, rest in *. simpl. split_and!; try done.
  - rewrite <- Nat.add_1_r, <- drop_drop, Hr. done.
  - apply (f_equal length) in Hr. rewrite length_drop in Hr. simpl in Hr. lia.
Qed.

Lemma get_cons s c r : reading s (c :: r) → get s = (Some c, set_pos (S (pos s)) s).
Proof. intros H. unfold get. by rewrite (reading_good _ _ H), (reading_lookup _ _ H). Qed.

Lemma reading_rest_length s r : reading s r → length r = length (data s) - pos s.
Proof. intros (_ & _ & <- & _). apply length_drop. Qed.

Lemma seekg_next s c r : reading s (c :: r) → seekg_cur 1 s = set_pos (S (pos s)) s.
Proof.
  intros H. pose proof (reading_rest_length _ _ H) as Hl. simpl in Hl.
  destruct H as (He & Hf & _ & _). unfold seekg_cur. simpl. rewrite Hf.
  rewrite (proj2 (Z.leb_le _ _)), (proj2 (Z.leb_le _ _)) by lia. simpl.
  unfold set_pos. simpl. rewrite He, Hf. f_equal. lia.
Qed.

Lemma reading_istringstream s : reading (istringstream s) s.
Proof. unfold reading, rest. simpl. split_and!; [done|done|by rewrite drop_0|lia]. Qed.

End Stream.
