(* ===== verification/CppFloat.v ===== *)
(** * Floating point and number conversion of the C++ library

    [float] and [double] are the IEEE 754 formats of the Standard Library's
    [SpecFloat]; [strtoll], [strtoull] and [strtod] return the value, whether
    [errno] became [ERANGE], and the unparsed rest of the text. *)

From Stdlib Require Export SpecFloat.
From S2P Require Import Prelude CppInt CppString.

Module CppFloat.

Inductive float_type := float32 | float64.

#[export] Instance float_type_eq_dec : EqDecision float_type.
Proof. solve_decision. Defined.

Definition prec (t : float_type) : Z := match t with float32 => 24 | float64 => 53 end.
Definition emax (t : float_type) : Z := match t with float32 => 128 | float64 => 1024 end.

(** Conversion from an integer and between formats, rounding to nearest even. *)
Definition of_int (t : float_type) (z : Z) : spec_float := binary_normalize (prec t) (emax t) z 0 false.

Definition convert (t : float_type) (f : spec_float) : spec_float :=
  match f with
  | S754_finite s m e => binary_round (prec t) (emax t) s m e
  | _ => f
  end.

Definition isnan (f : spec_float) : bool := match f with S754_nan => true | _ => false end.

Definition isfinite (f : spec_float) : bool :=
  match f with S754_finite _ _ _ | S754_zero _ => true | _ => false end.

(** The value without its fraction. *)
Definition trunc (f : spec_float) : option Z :=
  match f with
  | S754_zero _ => Some 0%Z
  | S754_finite s m e =>
      let z := (if 0 <=? e then Zpos m * 2 ^ e else Zpos m / 2 ^ (- e))%Z in
      Some (if s then - z else z)%Z
  | _ => None
  end.

(** [static_cast] to an integer: undefined if the truncated value does not fit. *)
Definition to_int (t : int_type) (f : spec_float) : outcome Z :=
  match trunc f with
  | Some z => if decide (in_range t z) then Ret z else Undefined
  | None => Undefined
  end.

(** ** Digits *)

Definition char_code (c : ascii) : Z := Z.of_N (N_of_ascii c).

Definition digit_value (c : ascii) : option Z :=
  let n := char_code c in
  if ((48 <=? n) && (n <=? 57))%Z then Some (n - 48)%Z
  else if ((97 <=? n) && (n <=? 122))%Z then Some (n - 87)%Z
  else if ((65 <=? n) && (n <=? 90))%Z then Some (n - 55)%Z
  else None.

(** [isspace] in the C locale, and [tolower]. *)
Definition isspace (c : ascii) : bool := (((9 <=? char_code c) && (char_code c <=? 13)) || (char_code c =? 32))%Z.
Definition tolower (c : ascii) : ascii :=
  if ((65 <=? char_code c) && (char_code c <=? 90))%Z then ascii_of_N (N_of_ascii c + 32) else c.

Fixpoint skip_space (s : str) : str :=
  match s with c :: s' => if isspace c then skip_space s' else s | [] => [] end.

(** The longest prefix of digits of the base: its value (added to [acc]), the
    number of digits and what follows. *)
Fixpoint read_digits (base acc : Z) (n : nat) (s : str) : Z * nat * str :=
  match s with
  | [] => (acc, n, [])
  | c :: s' =>
      match digit_value c with
      | Some d => if (d <? base)%Z then read_digits base (acc * base + d) (S n) s' else (acc, n, s)
      | None => (acc, n, s)
      end
  end.

Definition read_sign (s : str) : bool * str :=
  match s with
  | c :: s' => if decide (c = "-"%char) then (true, s')
               else if decide (c = "+"%char) then (false, s') else (false, s)
  | [] => (false, [])
  end.

(** Whether the text starts with [0x] or [0X]. *)
Definition hex_prefix (s : str) : option str :=
  match s with
  | c0 :: c1 :: s' =>
      if bool_decide (c0 = "0"%char) && bool_decide (tolower c1 = "x"%char) then Some s' else None
  | _ => None
  end.

Definition is_hex_digit (s : str) : bool :=
  match s with
  | c :: _ => match digit_value c with Some d => (d <? 16)%Z | None => false end
  | [] => false
  end.

(** The magnitude of an integer text in base 0, i.e. with its base determined
    by the prefix; [None] if there is no digit. *)
Definition read_magnitude (s : str) : option (Z * str) :=
  let '(v, n, rest) :=
    match hex_prefix s with
    | Some s' => if is_hex_digit s' then read_digits 16 0 0 s' else read_digits 8 0 0 s
    | None =>
        match s with
        | c :: _ => if decide (c = "0"%char) then read_digits 8 0 0 s else read_digits 10 0 0 s
        | [] => (0%Z, 0, [])
        end
    end in
  if (n =? 0)%nat then None else Some (v, rest).

Record conversion (A : Type) := mkConversion { value : A; erange : bool; unparsed : str }.
Arguments mkConversion {A} value erange unparsed.
Arguments value {A} c.
Arguments erange {A} c.
Arguments unparsed {A} c.

(** [std::strtoll(s, &end, 0)] *)
Definition strtoll (s : str) : conversion Z :=
  let '(negative, digits) := read_sign (skip_space s) in
  match read_magnitude digits with
  | None => mkConversion 0%Z false s
  | Some (v, rest) =>
      let v := if negative then (- v)%Z else v in
      if (v <? lowest int64_t)%Z then mkConversion (lowest int64_t) true rest
      else if (max int64_t <? v)%Z then mkConversion (max int64_t) true rest
      else mkConversion v false rest
  end.

(** [std::strtoull(s, &end, 0)]: a sign negates in the unsigned type. *)
Definition strtoull (s : str) : conversion Z :=
  let '(negative, digits) := read_sign (skip_space s) in
  match read_magnitude digits with
  | None => mkConversion 0%Z false s
  | Some (v, rest) =>
      if (max uint64_t <? v)%Z then mkConversion (max uint64_t) true rest
      else mkConversion (if negative then (- v) mod 2 ^ 64 else v)%Z false rest
  end.

(** ** [std::strtod] *)

(** An exponent introduced by [marker], which counts only with a digit. *)
Definition read_exponent (marker : ascii) (s : str) : Z * str :=
  match s with
  | c :: s' =>
      if decide (tolower c = marker) then
        let '(negative, digits) := read_sign s' in
        let '(v, n, rest) := read_digits 10 0 0 digits in
        if (n =? 0)%nat then (0%Z, s) else ((if negative then - v else v)%Z, rest)
      else (0%Z, s)
  | [] => (0%Z, [])
  end.

(** Digits with an optional point: the digits as an integer, how many follow
    the point, and what is left; [None] without a digit. *)
Definition read_mantissa (base : Z) (s : str) : option (Z * nat * str) :=
  let '(v, n, rest) := read_digits base 0 0 s in
  let '(v, k, rest) :=
    match rest with
    | c :: rest' =>
        if decide (c = "."%char) then
          let '(v', k, rest'') := read_digits base v 0 rest' in
          if (n + k =? 0)%nat then (v, 0, rest) else (v', k, rest'')
        else (v, 0, rest)
    | [] => (v, 0, rest)
    end in
  if (n + k =? 0)%nat then None else Some (v, k, rest).

(** [v * 10 ^ e] rounded to a [double]. *)
Definition decimal (negative : bool) (v e : Z) : spec_float :=
  match v with
  | Zpos m =>
      if (0 <=? e)%Z then binary_round 53 1024 negative (m * Z.to_pos (10 ^ e)) 0
      else SFdiv 53 1024 (S754_finite negative m 0) (S754_finite false (Z.to_pos (10 ^ (- e))) 0)
  | _ => S754_zero negative
  end.

(** [v * 2 ^ e] rounded to a [double]. *)
Definition hexadecimal (negative : bool) (v e : Z) : spec_float :=
  match v with Zpos m => binary_round 53 1024 negative m e | _ => S754_zero negative end.

(** Removes a prefix, given in lower case. *)
Fixpoint strip_prefix (prefix s : str) : option str :=
  match prefix, s with
  | [], _ => Some s
  | p :: prefix, c :: s => if decide (tolower c = p) then strip_prefix prefix s else None
  | _ :: _, [] => None
  end.

(** The optional character sequence in parentheses of a NaN. *)
Fixpoint skip_nan_chars (s : str) : option str :=
  match s with
  | c :: s => if decide (c = ")"%char) then Some s
              else if bool_decide (is_Some (digit_value c)) || bool_decide (c = "_"%char)
                   then skip_nan_chars s else None
  | [] => None
  end.

Definition strtod (s : str) : spec_float * str :=
  let '(negative, body) := read_sign (skip_space s) in
  match strip_prefix (s! "inf") body with
  | Some rest =>
      (S754_infinity negative, match strip_prefix (s! "inity") rest with Some r => r | None => rest end)
  | None =>
      match strip_prefix (s! "nan") body with
      | Some rest =>
          (S754_nan,
           match rest with
           | c :: r => if decide (c = "("%char)
                       then match skip_nan_chars r with Some r => r | None => rest end else rest
           | [] => rest
           end)
      | None =>
          let hex :=
            match hex_prefix body with Some digits => read_mantissa 16 digits | None => None end in
          match hex with
          | Some (v, k, rest) =>
              let '(e, rest) := read_exponent "p" rest in
              (hexadecimal negative v (e - 4 * Z.of_nat k), rest)
          | None =>
              match read_mantissa 10 body with
              | Some (v, k, rest) =>
                  let '(e, rest) := read_exponent "e" rest in
                  (decimal negative v (e - Z.of_nat k), rest)
              | None => (S754_zero false, s)
              end
          end
      end
  end.

End CppFloat.
