(* ===== verification/FloatValid.v ===== *)
(** * Rounding gives numbers of the format

    The results of [binary_round] and of [SFdiv], and so those of [strtod], are
    [valid_binary]: their mantissa has the digits that their exponent asks for.
    With [strtod] a text never becomes a number that a [double] cannot hold. *)

From S2P Require Import Prelude CppInt CppString CppFloat.
Import CppFloat.

Module FloatValid.
Local Open Scope Z_scope.

(** ** Digits *)

Lemma digits2_pos_log2 p : Zpos (digits2_pos p) = Z.log2 (Zpos p) + 1.
Proof.
  induction p as [p IH|p IH|]; cbn [digits2_pos]; [..|done]; rewrite Pos2Z.inj_succ, IH.
  - rewrite (Pos2Z.inj_xI p), Z.log2_succ_double by lia. lia.
  - rewrite (Pos2Z.inj_xO p), Z.log2_double by lia. lia.
Qed.

Lemma Zdigits2_pos m : 0 < m → Zdigits2 m = Z.log2 m + 1.
Proof. destruct m; [lia| |lia]. intros _. apply digits2_pos_log2. Qed.

Lemma Zdigits2_nonneg m : 0 <= Zdigits2 m.
Proof. destruct m; simpl; lia. Qed.

Lemma Zdigits2_mono m n : 0 <= m <= n → Zdigits2 m <= Zdigits2 n.
Proof.
  intros [Hm Hn]. destruct (decide (m = 0)) as [->|]; [apply Zdigits2_nonneg|].
  rewrite !Zdigits2_pos by lia. pose proof (Z.log2_le_mono m n Hn). lia.
Qed.

Lemma Zdigits2_shiftl m n : 0 < m → 0 <= n → Zdigits2 (Z.shiftl m n) = Zdigits2 m + n.
Proof.
  intros Hm Hn. assert (0 < Z.shiftl m n) by (rewrite Z.shiftl_mul_pow2 by lia; pose proof (Z.pow_pos_nonneg 2 n); nia).
  rewrite !Zdigits2_pos, Z.log2_shiftl by lia. lia.
Qed.

Lemma shiftr_pos_digits m n :
  0 <= m → 0 <= n →
  if decide (Z.shiftr m n = 0) then Zdigits2 m <= n
  else 0 < Z.shiftr m n ∧ Zdigits2 (Z.shiftr m n) = Zdigits2 m - n.
Proof.
  intros Hm Hn. assert (0 <= Z.shiftr m n) by (by apply Z.shiftr_nonneg).
  destruct (decide (m = 0)) as [->|Hm0]; [rewrite Z.shiftr_0_l; simpl; lia|].
  case_decide as Hz.
  - apply Z.shiftr_eq_0_iff in Hz as [|[? Hl]]; [done|]. rewrite Zdigits2_pos by lia. lia.
  - split; [lia|]. rewrite !Zdigits2_pos by lia. rewrite Z.log2_shiftr by lia.
    assert (¬ Z.log2 m < n); [|lia]. intros Hl. apply Hz. apply Z.shiftr_eq_0_iff. right. lia.
Qed.

(** The quotient has at least the digits that the operands suggest. *)
Lemma Zdigits2_div a b : 0 < a → 0 < b → Zdigits2 a - Zdigits2 b <= Zdigits2 (a / b).
Proof.
  intros Ha Hb. destruct (decide (a < b)) as [Hlt|Hge].
  { rewrite Z.div_small by lia. pose proof (Zdigits2_mono a b). simpl. lia. }
  assert (0 < a / b) by (apply Z.div_str_pos; lia). rewrite !Zdigits2_pos by lia.
  pose proof (Z.log2_mul_above (b) (a / b + 1)) as H1. pose proof (Z.mul_succ_div_gt a b Hb) as H2.
  assert (Z.log2 a <= Z.log2 b + Z.log2 (a / b) + 1); [|lia].
  assert (a < 2 ^ (Z.log2 b + 1) * 2 ^ (Z.log2 (a / b) + 1)) as Hpow.
  { destruct (Z.log2_spec b Hb) as [_ ?], (Z.log2_spec (a / b)) as [_ ?]; [done|].
    apply Z.lt_le_trans with (b * Z.succ (a / b)); [done|]. apply Z.mul_le_mono_nonneg; lia. }
  rewrite <- Z.pow_add_r in Hpow by (pose proof (Z.log2_nonneg b); pose proof (Z.log2_nonneg (a / b)); lia).
  apply Z.log2_lt_pow2 in Hpow; lia.
Qed.

(** ** Rounding *)

Lemma shr_1_mantissa r : 0 <= shr_m r → shr_m (shr_1 r) = Z.shiftr (shr_m r) 1.
Proof. destruct r as [[|[]|] ? ?]; simpl; done. Qed.

Lemma iter_shr_1 p r : 0 <= shr_m r → shr_m (iter_pos shr_1 p r) = Z.shiftr (shr_m r) (Zpos p).
Proof.
  revert r. induction p as [p IH|p IH|]; intros r Hr; cbn [iter_pos]; [..|by apply shr_1_mantissa].
  - assert (0 <= shr_m (shr_1 r)) by (rewrite shr_1_mantissa by done; by apply Z.shiftr_nonneg).
    rewrite IH by (rewrite IH by done; by apply Z.shiftr_nonneg). rewrite IH, shr_1_mantissa by done.
    rewrite !Z.shiftr_shiftr by lia. f_equal. lia.
  - rewrite IH by (rewrite IH by done; by apply Z.shiftr_nonneg). rewrite IH by done.
    rewrite !Z.shiftr_shiftr by lia. f_equal. lia.
Qed.

Section Format.
Variables prec emax : Z.

Lemma shr_fexp_spec m e l :
  0 <= m →
  let n := Z.max 0 (fexp prec emax (Zdigits2 m + e) - e) in
  shr_m (shr_fexp prec emax m e l).1 = Z.shiftr m n ∧ (shr_fexp prec emax m e l).2 = e + n.
Proof.
  intros Hm n. assert (shr_m (shr_record_of_loc m l) = m) as Hl by (by destruct l as [|[]]).
  unfold shr_fexp, shr, n. destruct (fexp prec emax (Zdigits2 m + e) - e) as [|p|p]; cbn [fst snd].
  - rewrite Hl, Z.max_id, Z.shiftr_0_r. lia.
  - rewrite iter_shr_1 by (rewrite Hl; lia). rewrite Hl, Z.max_r by lia. done.
  - rewrite Hl, Z.max_l, Z.shiftr_0_r by lia. lia.
Qed.

Lemma round_nearest_even_ge m l : m <= round_nearest_even m l.
Proof. destruct l as [|[]]; simpl; [lia| |lia..]. destruct (Z.even m); lia. Qed.

(** Rounding a mantissa with enough digits for its exponent. *)
Lemma binary_round_aux_valid s m e l :
  0 <= m → e <= fexp prec emax (Zdigits2 m + e) →
  valid_binary prec emax (binary_round_aux prec emax s m e l) = true.
Proof.
  intros Hm He. unfold binary_round_aux. pose proof (shr_fexp_spec m e l Hm) as [E1 E2].
  destruct (shr_fexp prec emax m e l) as [r1 e1]. cbn [fst snd] in *.
  set (n1 := Z.max 0 (fexp prec emax (Zdigits2 m + e) - e)) in *.
  pose proof (round_nearest_even_ge (shr_m r1) (loc_of_shr_record r1)) as Hge.
  set (m1 := round_nearest_even (shr_m r1) (loc_of_shr_record r1)) in *.
  assert (0 <= shr_m r1) by (rewrite E1; by apply Z.shiftr_nonneg).
  pose proof (shr_fexp_spec m1 e1 loc_Exact ltac:(lia)) as [F1 F2].
  destruct (shr_fexp prec emax m1 e1 loc_Exact) as [r2 e2]. cbn [fst snd] in *.
  destruct (shr_m r2) as [|m2|] eqn:Em; [done| |done].
  destruct (e2 <=? emax - prec) eqn:Ee; [|done]. cbn [valid_binary]. unfold bounded. rewrite Ee, andb_true_r.
  apply Z.eqb_eq.
  change (Z.pos (digits2_pos m2)) with (Zdigits2 (Zpos m2)).
  pose proof (Zdigits2_mono (shr_m r1) m1 ltac:(lia)) as Hd. pose proof (Zdigits2_nonneg m1).
  pose proof (shiftr_pos_digits m n1 Hm ltac:(lia)) as Hs. rewrite <- E1 in Hs.
  assert (e1 <= fexp prec emax (Zdigits2 m1 + e1)) as He1.
  { unfold fexp in *. case_decide; [lia|]. destruct Hs as [_ Hs]. lia. }
  pose proof (shiftr_pos_digits m1 (Z.max 0 (fexp prec emax (Zdigits2 m1 + e1) - e1)) ltac:(lia) ltac:(lia)) as Ht.
  rewrite <- F1 in Ht. rewrite decide_False in Ht by done. destruct Ht as [_ ->]. unfold fexp in *. lia.
Qed.

Lemma binary_round_valid s m e : valid_binary prec emax (binary_round prec emax s m e) = true.
Proof.
  unfold binary_round, shl_align. change (Zpos (digits2_pos m)) with (Zdigits2 (Zpos m)).
  destruct (fexp prec emax (Zdigits2 (Zpos m) + e) - e) as [|d|d] eqn:E;
    [apply binary_round_aux_valid; lia..|].
  assert (Zpos (Pos.iter xO m d) = Z.shiftl (Zpos m) (Zpos d)) as Es.
  { by apply (Pos.iter_swap_gen _ _ Zpos xO (Z.mul 2)). }
  rewrite Es. apply binary_round_aux_valid; [by apply Z.shiftl_nonneg|]. rewrite Zdigits2_shiftl by lia.
  replace (Zdigits2 (Zpos m) + Zpos d + fexp prec emax (Zdigits2 (Zpos m) + e)) with (Zdigits2 (Zpos m) + e) by lia.
  lia.
Qed.

Lemma SFdiv_valid s1 m1 e1 s2 m2 e2 :
  valid_binary prec emax (SFdiv prec emax (S754_finite s1 m1 e1) (S754_finite s2 m2 e2)) = true.
Proof.
  cbn [SFdiv]. unfold SFdiv_core_binary. cbv zeta.
  set (e' := Z.min _ (e1 - e2)). set (m' := match e1 - e2 - e' with Zpos _ => _ | _ => _ end).
  assert (m' = Z.shiftl (Zpos m1) (e1 - e2 - e')) as Em.
  { unfold m'. destruct (e1 - e2 - e') eqn:E; [by rewrite Z.shiftl_0_r|done|unfold e' in *; lia]. }
  clearbody m'. subst m'. assert (0 <= e1 - e2 - e') by lia.
  assert (0 < Z.shiftl (Zpos m1) (e1 - e2 - e')) as Hpos.
  { rewrite Z.shiftl_mul_pow2 by lia. pose proof (Z.pow_pos_nonneg 2 (e1 - e2 - e')). nia. }
  pose proof (Zdigits2_div _ (Zpos m2) Hpos eq_refl) as Hd. rewrite Zdigits2_shiftl in Hd by lia. unfold Z.div in Hd.
  pose proof (Z.div_pos (Z.shiftl (Zpos m1) (e1 - e2 - e')) (Zpos m2) ltac:(lia) ltac:(lia)) as Hq. unfold Z.div in Hq.
  destruct (Z.div_eucl _ _) as [q r]. apply binary_round_aux_valid; [done|]. unfold e', fexp in *. lia.
Qed.

End Format.

(** ** [strtod] *)

Lemma strtod_valid s : valid_binary 53 1024 (strtod s).1 = true.
Proof.
  assert (∀ b v e, valid_binary 53 1024 (decimal b v e) = true) as Hd.
  { intros b [|v|v] e; cbn [decimal]; [done| |done]. destruct (0 <=? e); [apply binary_round_valid|apply SFdiv_valid]. }
  assert (∀ b v e, valid_binary 53 1024 (hexadecimal b v e) = true) as Hh.
  { intros b [|v|v] e; cbn [hexadecimal]; [done|apply binary_round_valid|done]. }
  unfold strtod. repeat case_match; simplify_eq; cbn [fst]; done.
Qed.

End FloatValid.
