(* ===== verification/SafeMath.v ===== *)
(** * score/language/safecpp/safe_math: overflow-checked integer arithmetic

    The integral overloads of [Cmp*], [Abs], [Cast], [Negate], [Add],
    [Subtract], [Multiply] and [Divide], for all eight fixed-width types as
    operand and result types and for both return modes.  A template parameter
    of the C++ code is an argument of type [int_type] or [ReturnMode] here, and
    overload resolution on signedness is the [match] of the dispatching
    definitions.  Every built-in operator the code applies is one of the
    operators of CppInt, so that undefined behaviour would be visible.

    The floating-point overloads are not modelled. *)

From S2P Require Import Prelude CppInt.

Local Open Scope Z_scope.

Module SafeMath.

(** ** Error codes, return modes and type traits *)

Inductive ErrorCode := kUnknown | kExceedsNumericLimits | kImplicitRounding | kDivideByZero.

#[export] Instance ErrorCode_eq_dec : EqDecision ErrorCode.
Proof. solve_decision. Defined.

Inductive ReturnMode := kReturnResultOnError | kAbortOnError.

Definition ModeBasedReturnType (return_mode : ReturnMode) : Type :=
  match return_mode with
  | kReturnResultOnError => expected ErrorCode Z
  | kAbortOnError => Z
  end.

(** The implicit conversion from [R] in a [return] statement. *)
Definition mode_value (return_mode : ReturnMode) (z : Z) : ModeBasedReturnType return_mode :=
  match return_mode with
  | kReturnResultOnError => Value z
  | kAbortOnError => z
  end.

Definition HandleError (return_mode : ReturnMode) (error : ErrorCode) :
    outcome (ModeBasedReturnType return_mode) :=
  match return_mode with
  | kReturnResultOnError => Ret (Unexpected error)
  | kAbortOnError => Aborted
  end.

Definition bigger_type (t1 t2 : int_type) : int_type :=
  if digits t2 <=? digits t1 then t1 else t2.

(** ** Comparison *)

Definition CmpLess_same (tl tr : int_type) (lhs rhs : Z) : bool :=
  let BiggerType := bigger_type tl tr in
  static_cast BiggerType lhs <? static_cast BiggerType rhs.

Definition CmpLess_signed_unsigned (tl tr : int_type) (lhs_signed rhs_unsigned : Z) : bool :=
  if CmpLess_same tl tl lhs_signed 0 then true
  else
    let BiggerType := bigger_type (make_unsigned tl) tr in
    static_cast BiggerType lhs_signed <? static_cast BiggerType rhs_unsigned.

Definition CmpLess_unsigned_signed (tl tr : int_type) (lhs_unsigned signed_rhs : Z) : bool :=
  if CmpLess_same tr tr signed_rhs 0 then false
  else
    let BiggerUnsignedType := bigger_type tl (make_unsigned tr) in
    static_cast BiggerUnsignedType lhs_unsigned <? static_cast BiggerUnsignedType signed_rhs.

Definition CmpLess (tl tr : int_type) (lhs rhs : Z) : bool :=
  match is_signed tl, is_signed tr with
  | true, false => CmpLess_signed_unsigned tl tr lhs rhs
  | false, true => CmpLess_unsigned_signed tl tr lhs rhs
  | _, _ => CmpLess_same tl tr lhs rhs
  end.

Definition CmpEqual_same (tl tr : int_type) (lhs rhs : Z) : bool :=
  let BiggerType := bigger_type tl tr in
  static_cast BiggerType lhs =? static_cast BiggerType rhs.

Definition CmpEqual_signed_unsigned (tl tr : int_type) (lhs_signed rhs_unsigned : Z) : bool :=
  let BiggerUnsignedType := bigger_type (make_unsigned tl) tr in
  if CmpLess tl tl lhs_signed 0 then false
  else static_cast BiggerUnsignedType lhs_signed =? static_cast BiggerUnsignedType rhs_unsigned.

Definition CmpEqual_unsigned_signed (tl tr : int_type) (lhs_unsigned rhs_signed : Z) : bool :=
  CmpEqual_signed_unsigned tr tl rhs_signed lhs_unsigned.

Definition CmpEqual (tl tr : int_type) (lhs rhs : Z) : bool :=
  match is_signed tl, is_signed tr with
  | true, false => CmpEqual_signed_unsigned tl tr lhs rhs
  | false, true => CmpEqual_unsigned_signed tl tr lhs rhs
  | _, _ => CmpEqual_same tl tr lhs rhs
  end.

Definition CmpNotEqual (tl tr : int_type) (lhs rhs : Z) : bool := negb (CmpEqual tl tr lhs rhs).
Definition CmpGreater (tl tr : int_type) (lhs rhs : Z) : bool := CmpLess tr tl rhs lhs.
Definition CmpLessEqual (tl tr : int_type) (lhs rhs : Z) : bool := negb (CmpGreater tl tr lhs rhs).
Definition CmpGreaterEqual (tl tr : int_type) (lhs rhs : Z) : bool := negb (CmpLess tl tr lhs rhs).

(** ** Absolute value *)

(** The result has type [make_unsigned t]. *)
Definition Abs_unsigned (t : int_type) (value : Z) : outcome Z := Ret value.

Definition Abs_signed (t : int_type) (value : Z) : outcome Z :=
  let Unsigned := make_unsigned t in
  if CmpEqual t t value (lowest t) then
    sum ← c_add Unsigned uint32_t (static_cast Unsigned (max t)) 1;
    Ret (static_cast Unsigned sum)
  else if CmpLess t int32_t value 0 then
    negated ← c_neg t value;
    let inverse := static_cast t negated in
    Ret (static_cast Unsigned inverse)
  else Ret (static_cast Unsigned value).

Definition Abs (t : int_type) (value : Z) : outcome Z :=
  if is_signed t then Abs_signed t value else Abs_unsigned t value.

(** ** Cast *)

Definition IsOutsideBoundsOfR (R T : int_type) (value : Z) : bool :=
  CmpLess T R value (lowest R) || CmpGreater T R value (max R).

Definition CastWithBoundsCheck (m : ReturnMode) (R T : int_type) (value : Z) :
    outcome (ModeBasedReturnType m) :=
  if IsOutsideBoundsOfR R T value
  then HandleError m kExceedsNumericLimits
  else Ret (mode_value m (static_cast R value)).

Definition Cast (m : ReturnMode) (R T : int_type) (value : Z) : outcome (ModeBasedReturnType m) :=
  CastWithBoundsCheck m R T value.

(** ** Negate *)

Definition Negate_unsigned (m : ReturnMode) (R Unsigned : int_type) (value : Z) :
    outcome (ModeBasedReturnType m) :=
  is_special_case ←
    (if is_signed R
     then abs_lowest ← Abs R (lowest R);
          Ret (CmpEqual Unsigned (make_unsigned R) value abs_lowest)
     else Ret false);
  if (is_special_case : bool)
  then Ret (mode_value m (lowest R))
  else
    let SignedR := make_signed R in
    expected_cast_value ← Cast m SignedR Unsigned value;
    match m return ModeBasedReturnType m → outcome (ModeBasedReturnType m) with
    | kReturnResultOnError => λ r,
        match r with
        | Unexpected e => Ret (Unexpected e)
        | Value v =>
            negated ← c_neg SignedR v;
            Cast kReturnResultOnError R SignedR (static_cast SignedR negated)
        end
    | kAbortOnError => λ v,
        negated ← c_neg SignedR v;
        Cast kAbortOnError R SignedR (static_cast SignedR negated)
    end expected_cast_value.

Definition Negate_signed (m : ReturnMode) (R Signed : int_type) (value : Z) :
    outcome (ModeBasedReturnType m) :=
  if CmpLess Signed int32_t value 0 then
    abs_value ← Abs Signed value;
    Cast m R (make_unsigned Signed) abs_value
  else
    negated ← c_neg Signed value;
    Cast m R Signed (static_cast Signed negated).

Definition Negate (m : ReturnMode) (R T : int_type) (value : Z) :
    outcome (ModeBasedReturnType m) :=
  if is_signed T then Negate_signed m R T value else Negate_unsigned m R T value.

(** ** Add and Subtract

    The overloads call each other; the order below follows the calls, from the
    overloads on two unsigned operands up to the ones on a signed right-hand
    side. *)

Definition Add_unsigned_unsigned (m : ReturnMode) (R tl tr : int_type)
    (lhs_unsigned rhs_unsigned : Z) : outcome (ModeBasedReturnType m) :=
  lhs_common_type ← Cast m R tl lhs_unsigned;
  rhs_common_type ← Cast m R tr rhs_unsigned;
  match m return ModeBasedReturnType m → ModeBasedReturnType m →
                 outcome (ModeBasedReturnType m) with
  | kReturnResultOnError => λ l r,
      match l, r with
      | Value lhs, Value rhs =>
          difference ← c_sub R R (max R) rhs;
          let min_allowed_value := static_cast R difference in
          if CmpGreater R R lhs min_allowed_value
          then Ret (Unexpected kExceedsNumericLimits)
          else sum ← c_add R R lhs rhs; Ret (Value (static_cast R sum))
      | _, _ => Ret (Unexpected kExceedsNumericLimits)
      end
  | kAbortOnError => λ lhs rhs,
      difference ← c_sub R R (max R) rhs;
      let min_allowed_value := static_cast R difference in
      if CmpGreater R R lhs min_allowed_value
      then Aborted
      else sum ← c_add R R lhs rhs; Ret (static_cast R sum)
  end lhs_common_type rhs_common_type.

Definition Subtract_unsigned_unsigned (m : ReturnMode) (R tl tr : int_type)
    (lhs_unsigned rhs_unsigned : Z) : outcome (ModeBasedReturnType m) :=
  if CmpLess tl tr lhs_unsigned rhs_unsigned then
    let lhs_unsigned_cast := static_cast tr lhs_unsigned in
    difference ← c_sub tr tr rhs_unsigned lhs_unsigned_cast;
    let reverse_operation_result := static_cast tr difference in
    Negate m R tr reverse_operation_result
  else
    let intermediary_type := bigger_type tl tr in
    difference ← c_sub tl tr lhs_unsigned rhs_unsigned;
    let result := static_cast intermediary_type difference in
    Cast m R intermediary_type result.

Definition Subtract_signed_unsigned (m : ReturnMode) (R tl tr : int_type)
    (lhs_signed rhs_unsigned : Z) : outcome (ModeBasedReturnType m) :=
  if CmpLess tl int32_t lhs_signed 0 then
    abs_lhs ← Abs tl lhs_signed;
    intermediate ← Add_unsigned_unsigned m uint64_t (make_unsigned tl) tr abs_lhs rhs_unsigned;
    match m return ModeBasedReturnType m → outcome (ModeBasedReturnType m) with
    | kReturnResultOnError => λ r,
        match r with
        | Unexpected e => Ret (Unexpected e)
        | Value v => Negate kReturnResultOnError R uint64_t v
        end
    | kAbortOnError => λ v, Negate kAbortOnError R uint64_t v
    end intermediate
  else
    let UnsignedLHS := make_unsigned tl in
    let lhs_unsigned := static_cast UnsignedLHS lhs_signed in
    Subtract_unsigned_unsigned m R UnsignedLHS tr lhs_unsigned rhs_unsigned.

Definition Subtract_any_unsigned (m : ReturnMode) (R tl tr : int_type) (lhs rhs : Z) :
    outcome (ModeBasedReturnType m) :=
  if is_signed tl
  then Subtract_signed_unsigned m R tl tr lhs rhs
  else Subtract_unsigned_unsigned m R tl tr lhs rhs.

(** [Add(LHS, SignedRHS)] at an unsigned [LHS]. *)
Definition Add_unsigned_signed (m : ReturnMode) (R tl tr : int_type) (lhs rhs_signed : Z) :
    outcome (ModeBasedReturnType m) :=
  if CmpLess tr int32_t rhs_signed 0 then
    abs_rhs ← Abs tr rhs_signed;
    Subtract_unsigned_unsigned m R tl (make_unsigned tr) lhs abs_rhs
  else
    let UnsignedRHS := make_unsigned tr in
    let rhs_unsigned := static_cast UnsignedRHS rhs_signed in
    Add_unsigned_unsigned m R tl UnsignedRHS lhs rhs_unsigned.

Definition Add_signed_unsigned (m : ReturnMode) (R tl tr : int_type)
    (lhs_signed rhs_unsigned : Z) : outcome (ModeBasedReturnType m) :=
  Add_unsigned_signed m R tr tl rhs_unsigned lhs_signed.

Definition Add_any_unsigned (m : ReturnMode) (R tl tr : int_type) (lhs rhs : Z) :
    outcome (ModeBasedReturnType m) :=
  if is_signed tl
  then Add_signed_unsigned m R tl tr lhs rhs
  else Add_unsigned_unsigned m R tl tr lhs rhs.

Definition Add_any_signed (m : ReturnMode) (R tl tr : int_type) (lhs rhs_signed : Z) :
    outcome (ModeBasedReturnType m) :=
  if CmpLess tr int32_t rhs_signed 0 then
    abs_rhs ← Abs tr rhs_signed;
    Subtract_any_unsigned m R tl (make_unsigned tr) lhs abs_rhs
  else
    let UnsignedRHS := make_unsigned tr in
    let rhs_unsigned := static_cast UnsignedRHS rhs_signed in
    Add_any_unsigned m R tl UnsignedRHS lhs rhs_unsigned.

Definition Subtract_any_signed (m : ReturnMode) (R tl tr : int_type) (lhs rhs_signed : Z) :
    outcome (ModeBasedReturnType m) :=
  if CmpLess tr uint32_t rhs_signed 0 then
    abs_rhs ← Abs tr rhs_signed;
    Add_any_unsigned m R tl (make_unsigned tr) lhs abs_rhs
  else
    let UnsignedRHS := make_unsigned tr in
    let rhs_unsigned := static_cast UnsignedRHS rhs_signed in
    Subtract_any_unsigned m R tl UnsignedRHS lhs rhs_unsigned.

Definition Add (m : ReturnMode) (R tl tr : int_type) (lhs rhs : Z) :
    outcome (ModeBasedReturnType m) :=
  if is_signed tr then Add_any_signed m R tl tr lhs rhs else Add_any_unsigned m R tl tr lhs rhs.

Definition Subtract (m : ReturnMode) (R tl tr : int_type) (lhs rhs : Z) :
    outcome (ModeBasedReturnType m) :=
  if is_signed tr
  then Subtract_any_signed m R tl tr lhs rhs
  else Subtract_any_unsigned m R tl tr lhs rhs.

(** ** Multiply and Divide *)

Definition Multiply (m : ReturnMode) (R tl tr : int_type) (lhs rhs : Z) :
    outcome (ModeBasedReturnType m) :=
  if CmpEqual tl int32_t lhs 0 || CmpEqual tr int32_t rhs 0 then Cast m R int32_t 0
  else
    let CommonType := bigger_type (make_unsigned tl) (make_unsigned tr) in
    abs_l ← Abs tl lhs;
    abs_r ← Abs tr rhs;
    let abs_lhs := static_cast CommonType abs_l in
    let abs_rhs := static_cast CommonType abs_r in
    quotient ← c_div CommonType CommonType (max CommonType) abs_rhs;
    let numeric_limit := static_cast CommonType quotient in
    if CmpGreater CommonType CommonType abs_lhs numeric_limit
    then HandleError m kExceedsNumericLimits
    else
      product ← c_mul CommonType CommonType abs_lhs abs_rhs;
      let result := static_cast CommonType product in
      if Bool.eqb (CmpLess tl int32_t lhs 0) (CmpLess tr int32_t rhs 0)
      then Cast m R CommonType result
      else Negate m R CommonType result.

Definition Divide (m : ReturnMode) (R tl tr : int_type) (lhs rhs : Z) :
    outcome (ModeBasedReturnType m) :=
  if CmpEqual tr int32_t rhs 0 then HandleError m kDivideByZero
  else
    let CommonType := bigger_type (make_unsigned tl) (make_unsigned tr) in
    abs_l ← Abs tl lhs;
    abs_r ← Abs tr rhs;
    let abs_lhs := static_cast CommonType abs_l in
    let abs_rhs := static_cast CommonType abs_r in
    remainder ← c_rem CommonType CommonType abs_lhs abs_rhs;
    if negb (remainder =? 0) then HandleError m kImplicitRounding
    else
      quotient ← c_div CommonType CommonType abs_lhs abs_rhs;
      let result := static_cast CommonType quotient in
      if Bool.eqb (CmpLess tl int32_t lhs 0) (CmpLess tr int32_t rhs 0)
      then Cast m R CommonType result
      else Negate m R CommonType result.

(** ** Specification: the exact result if it is a value of [R], else the error *)

Definition checked (m : ReturnMode) (R : int_type) (z : Z) : outcome (ModeBasedReturnType m) :=
  if decide (in_range R z)
  then Ret (mode_value m z)
  else HandleError m kExceedsNumericLimits.

(** ** Comparison is comparison of the mathematical values *)

Lemma bigger_type_range tl tr z :
  is_signed tl = is_signed tr → in_range tl z ∨ in_range tr z → in_range (bigger_type tl tr) z.
Proof.
  unfold in_range. intros. destruct tl, tr; try done;
    unfold bigger_type, lowest, max, digits in *; simpl in *; lia.
Qed.

Lemma is_signed_bigger_type tl tr :
  is_signed tl = is_signed tr → is_signed (bigger_type tl tr) = is_signed tl.
Proof. unfold bigger_type. case_match; congruence. Qed.

Lemma bigger_type_same t : bigger_type t t = t.
Proof. by destruct t. Qed.

(** A non-negative value of a type is a value of its unsigned counterpart. *)
Lemma in_range_make_unsigned t z : in_range t z → 0 <= z → in_range (make_unsigned t) z.
Proof. unfold in_range. intros. destruct t; unfold lowest, max, digits in *; simpl in *; lia. Qed.

Lemma zero_in_range t : in_range t 0.
Proof. pose proof (lowest_nonpos t); pose proof (max_lower t). unfold in_range; lia. Qed.

Hint Resolve zero_in_range in_range_make_unsigned is_signed_make_unsigned : cpp.

Lemma CmpLess_same_spec tl tr l r :
  is_signed tl = is_signed tr → in_range tl l → in_range tr r → CmpLess_same tl tr l r = (l <? r).
Proof.
  intros. unfold CmpLess_same. by rewrite !static_cast_id by auto using bigger_type_range.
Qed.

Lemma CmpLess_spec tl tr l r :
  in_range tl l → in_range tr r → CmpLess tl tr l r = (l <? r).
Proof.
  intros Hl Hr. unfold CmpLess.
  destruct (is_signed tl) eqn:Sl, (is_signed tr) eqn:Sr;
    try (apply CmpLess_same_spec; congruence).
  - unfold CmpLess_signed_unsigned. rewrite CmpLess_same_spec by auto with cpp.
    assert (0 <= r) by (destruct Hr; pose proof (lowest_unsigned tr Sr); lia).
    case_match; reflect_bool; [symmetry; apply Z.ltb_lt; lia|].
    rewrite !static_cast_id; auto; apply bigger_type_range;
      rewrite ?is_signed_make_unsigned; auto with cpp.
  - unfold CmpLess_unsigned_signed. rewrite CmpLess_same_spec by auto with cpp.
    assert (0 <= l) by (destruct Hl; pose proof (lowest_unsigned tl Sl); lia).
    case_match; reflect_bool; [symmetry; apply Z.ltb_ge; lia|].
    rewrite !static_cast_id; auto; apply bigger_type_range;
      rewrite ?is_signed_make_unsigned; auto with cpp.
Qed.

Lemma CmpEqual_spec tl tr l r :
  in_range tl l → in_range tr r → CmpEqual tl tr l r = (l =? r).
Proof.
  assert (HSU : ∀ ts tu s u, is_signed ts = true → is_signed tu = false →
    in_range ts s → in_range tu u → CmpEqual_signed_unsigned ts tu s u = (s =? u)).
  { intros ts tu s u Ss Su Hs Hu. unfold CmpEqual_signed_unsigned.
    rewrite CmpLess_spec by auto with cpp.
    assert (0 <= u) by (destruct Hu; pose proof (lowest_unsigned tu Su); lia).
    case_match; reflect_bool; [symmetry; apply Z.eqb_neq; lia|].
    rewrite !static_cast_id; auto; apply bigger_type_range;
      rewrite ?is_signed_make_unsigned; auto with cpp. }
  intros Hl Hr. unfold CmpEqual, CmpEqual_unsigned_signed.
  destruct (is_signed tl) eqn:Sl, (is_signed tr) eqn:Sr; auto;
    try (rewrite HSU, Z.eqb_sym; done);
    unfold CmpEqual_same; rewrite !static_cast_id; auto;
    apply bigger_type_range; auto; congruence.
Qed.

Lemma CmpGreater_spec tl tr l r :
  in_range tl l → in_range tr r → CmpGreater tl tr l r = (r <? l).
Proof. intros. by apply CmpLess_spec. Qed.

(** ** Absolute value and cast *)

Lemma Abs_range t z : in_range t z → in_range (make_unsigned t) (Z.abs z).
Proof. unfold in_range. intros. destruct t; unfold lowest, max, digits in *; simpl in *; lia. Qed.

Lemma Abs_spec t z : in_range t z → Abs t z = Ret (Z.abs z).
Proof.
  intros Hz. pose proof (Abs_range t z Hz) as Ha. unfold Abs.
  destruct (is_signed t) eqn:St; cycle 1.
  { destruct Hz as [Hz _]. rewrite (lowest_unsigned t St) in Hz.
    unfold Abs_unsigned. f_equal. lia. }
  assert (Hlow : in_range t (lowest t))
    by (pose proof (lowest_nonpos t); pose proof (max_lower t); unfold in_range; lia).
  unfold Abs_signed. rewrite CmpEqual_spec by done. case_match; reflect_bool.
  - subst z. clear Hz Hlow Ha. by destruct t.
  - rewrite CmpLess_spec by auto with cpp. case_match; reflect_bool.
    + assert (in_range t (- z)) by (pose proof (lowest_signed t St); unfold in_range in *; lia).
      rewrite c_neg_exact by done. simpl.
      rewrite (static_cast_id t) by done. replace (- z) with (Z.abs z) by lia.
      by rewrite static_cast_id.
    + rewrite static_cast_id by auto with cpp. f_equal; lia.
Qed.

Lemma Cast_spec m R T z : in_range T z → Cast m R T z = checked m R z.
Proof.
  intros Hz. unfold Cast, CastWithBoundsCheck, IsOutsideBoundsOfR, checked.
  pose proof (lowest_nonpos R); pose proof (max_lower R).
  rewrite CmpLess_spec, CmpGreater_spec by (try done; unfold in_range; lia).
  destruct (decide (in_range R z)) as [HR|HR].
  - rewrite static_cast_id by done. unfold in_range in HR.
    by rewrite (proj2 (Z.ltb_ge _ _)), (proj2 (Z.ltb_ge _ _)) by lia.
  - unfold in_range in HR.
    destruct (z <? lowest R) eqn:?, (max R <? z) eqn:?; reflect_bool; try done; lia.
Qed.

(** ** Negate, Add and Subtract compute the exact result or report the error *)

(** Every specification below is an equation [op ... = checked m R z], valid in
    both return modes. *)

Lemma checked_in m R z : in_range R z → checked m R z = Ret (mode_value m z).
Proof. intros. unfold checked. by rewrite decide_True. Qed.

Lemma checked_out m R z : ~ in_range R z → checked m R z = HandleError m kExceedsNumericLimits.
Proof. intros. unfold checked. by rewrite decide_False. Qed.

Lemma in_range_unsigned t z : is_signed t = false → in_range t z ↔ 0 <= z <= max t.
Proof. intros S. unfold in_range. by rewrite (lowest_unsigned t S). Qed.

Lemma in_range_signed t z : is_signed t = true → in_range t z ↔ - max t - 1 <= z <= max t.
Proof. intros S. unfold in_range. by rewrite (lowest_signed t S). Qed.

Lemma Negate_signed_spec m R T z :
  is_signed T = true → in_range T z → Negate_signed m R T z = checked m R (- z).
Proof.
  intros S Hz. unfold Negate_signed. rewrite CmpLess_spec by auto with cpp.
  case_match; reflect_bool.
  - rewrite Abs_spec by done. simpl. rewrite Cast_spec by auto using Abs_range.
    f_equal; lia.
  - assert (in_range T (- z)) by (rewrite in_range_signed in * by done; lia).
    rewrite c_neg_exact by done. simpl. by rewrite static_cast_id, Cast_spec by done.
Qed.

(** The common tail of [Negate(Unsigned)]: negate a value that fits [SignedR]. *)
Lemma Negate_tail m R z :
  let SignedR := make_signed R in
  0 <= z → in_range SignedR z →
  (negated ← c_neg SignedR z; Cast m R SignedR (static_cast SignedR negated)) = checked m R (- z).
Proof.
  intros SignedR H0 Hz.
  assert (in_range SignedR (- z)).
  { rewrite (in_range_signed SignedR) in * by apply is_signed_make_signed. lia. }
  rewrite c_neg_exact by done. simpl. by rewrite static_cast_id, Cast_spec by done.
Qed.

Lemma Negate_unsigned_spec m R T z :
  is_signed T = false → in_range T z → Negate_unsigned m R T z = checked m R (- z).
Proof.
  intros S Hz. assert (0 <= z) by (rewrite in_range_unsigned in Hz by done; lia).
  unfold Negate_unsigned.
  set (special := if is_signed R then _ else _).
  assert (special = Ret (is_signed R && (z =? - lowest R))) as ->.
  { subst special. destruct (is_signed R) eqn:SR; [|done].
    pose proof (lowest_nonpos R).
    assert (in_range R (lowest R)) by (pose proof (max_lower R); unfold in_range; lia).
    rewrite Abs_spec by done. simpl.
    rewrite CmpEqual_spec by auto using Abs_range. do 2 f_equal. lia. }
  simpl. case_match eqn:Hsp; reflect_bool.
  { subst z. rewrite checked_in; [f_equal; f_equal; lia|].
    pose proof (lowest_nonpos R); pose proof (max_lower R). unfold in_range; lia. }
  rewrite Cast_spec by done.
  destruct (decide (in_range (make_signed R) z)) as [Hin|Hout].
  - rewrite checked_in by done. pose proof (Negate_tail m R z ltac:(done) Hin) as Ht.
    destruct m; exact Ht.
  - rewrite checked_out by done.
    assert (~ in_range R (- z)).
    { rewrite (in_range_signed (make_signed R)) in Hout by apply is_signed_make_signed.
      destruct (is_signed R) eqn:SR; simpl in Hsp; reflect_bool.
      - rewrite (make_signed_signed R SR) in Hout. rewrite (lowest_signed R SR) in Hsp.
        rewrite in_range_signed by done. lia.
      - pose proof (max_lower (make_signed R)). rewrite in_range_unsigned by done. lia. }
    rewrite checked_out by done. by destruct m.
Qed.

Lemma Negate_spec m R T z : in_range T z → Negate m R T z = checked m R (- z).
Proof.
  intros. unfold Negate. destruct (is_signed T) eqn:S;
    auto using Negate_signed_spec, Negate_unsigned_spec.
Qed.

(** The guarded addition in type [R] that both return modes share. *)
Lemma guarded_add R l r :
  in_range R l → in_range R r → 0 <= l → 0 <= r →
  c_sub R R (max R) r = Ret (max R - r) ∧
  static_cast R (max R - r) = max R - r ∧
  CmpGreater R R l (max R - r) = (max R <? l + r) ∧
  (l + r <= max R → c_add R R l r = Ret (l + r) ∧ static_cast R (l + r) = l + r).
Proof.
  intros Hl Hr ? ?. pose proof (lowest_nonpos R); pose proof (max_lower R).
  assert (in_range R (max R)) by (unfold in_range; lia).
  assert (in_range R (max R - r)) by (unfold in_range in *; lia).
  split_and!.
  - by apply (c_binop_exact Z.sub).
  - by apply static_cast_id.
  - rewrite CmpGreater_spec by done. apply eq_iff_eq_true. rewrite !Z.ltb_lt. lia.
  - intros. assert (in_range R (l + r)) by (unfold in_range in *; lia).
    split; [by apply (c_binop_exact Z.add)|by apply static_cast_id].
Qed.

Lemma Add_unsigned_unsigned_spec m R tl tr l r :
  is_signed tl = false → is_signed tr = false → in_range tl l → in_range tr r →
  Add_unsigned_unsigned m R tl tr l r = checked m R (l + r).
Proof.
  intros Sl Sr Hl Hr. unfold Add_unsigned_unsigned. rewrite !Cast_spec by done.
  assert (0 <= l) by (rewrite in_range_unsigned in Hl by done; lia).
  assert (0 <= r) by (rewrite in_range_unsigned in Hr by done; lia).
  pose proof (lowest_nonpos R).
  destruct (decide (in_range R l)) as [Il|Ol]; cycle 1.
  { assert (~ in_range R (l + r)) by (unfold in_range in *; lia).
    rewrite (checked_out m R l), (checked_out m R (l + r)) by done. destruct m; [|done].
    simpl. unfold checked. by destruct (decide _). }
  destruct (decide (in_range R r)) as [Ir|Or]; cycle 1.
  { assert (~ in_range R (l + r)) by (unfold in_range in *; lia).
    rewrite (checked_in m R l), (checked_out m R r), (checked_out m R (l + r)) by done.
    by destruct m. }
  rewrite (checked_in m R l), (checked_in m R r) by done. simpl.
  destruct (guarded_add R l r) as (Esub & Ecast & Ecmp & Eadd); [done..|].
  destruct m; simpl; rewrite Esub; simpl; rewrite Ecast, Ecmp; case_match; reflect_bool.
  all: try (rewrite checked_out by (unfold in_range; lia); done).
  all: destruct Eadd as [Eadd Ecast']; [lia|]; rewrite Eadd; simpl; rewrite Ecast'.
  all: rewrite checked_in by (unfold in_range in *; lia); done.
Qed.

Lemma Subtract_unsigned_unsigned_spec m R tl tr l r :
  is_signed tl = false → is_signed tr = false → in_range tl l → in_range tr r →
  Subtract_unsigned_unsigned m R tl tr l r = checked m R (l - r).
Proof.
  intros Sl Sr Hl Hr. unfold Subtract_unsigned_unsigned. rewrite CmpLess_spec by done.
  pose proof Hl as Hl'. pose proof Hr as Hr'.
  rewrite in_range_unsigned in Hl', Hr' by done. case_match; reflect_bool.
  - assert (in_range tr l) by (rewrite in_range_unsigned by done; lia).
    assert (in_range tr (r - l)) by (rewrite in_range_unsigned by done; lia).
    rewrite (static_cast_id tr l) by done.
    replace (c_sub tr tr r l) with (Ret (r - l)) by (symmetry; by apply (c_binop_exact Z.sub)).
    simpl. rewrite static_cast_id, Negate_spec by done. f_equal; lia.
  - assert (in_range tl (l - r)) by (rewrite in_range_unsigned by done; lia).
    assert (in_range (bigger_type tl tr) (l - r)) by (apply bigger_type_range; [congruence|auto]).
    replace (c_sub tl tr l r) with (Ret (l - r)); cycle 1.
    { unfold c_sub, c_binop. rewrite !static_cast_id by auto using usual_arith_unsigned.
      symmetry. apply arith_in_range, usual_arith_unsigned; auto. }
    simpl. by rewrite static_cast_id, Cast_spec by done.
Qed.

Lemma Subtract_signed_unsigned_spec m R tl tr l r :
  is_signed tl = true → is_signed tr = false → in_range tl l → in_range tr r →
  Subtract_signed_unsigned m R tl tr l r = checked m R (l - r).
Proof.
  intros Sl Sr Hl Hr. unfold Subtract_signed_unsigned. rewrite CmpLess_spec by auto with cpp.
  case_match; reflect_bool; cycle 1.
  { assert (in_range (make_unsigned tl) l) by auto with cpp.
    rewrite static_cast_id by done. apply Subtract_unsigned_unsigned_spec; auto with cpp. }
  rewrite Abs_spec by done. simpl.
  rewrite Add_unsigned_unsigned_spec by auto using is_signed_make_unsigned, Abs_range.
  assert (0 <= r) by (rewrite in_range_unsigned in Hr by done; lia).
  destruct (decide (in_range uint64_t (Z.abs l + r))) as [Hin|Hout].
  - rewrite checked_in by done. pose proof (Negate_spec m R uint64_t _ Hin) as Hn.
    replace (l - r) with (- (Z.abs l + r)) by lia. destruct m; exact Hn.
  - rewrite checked_out by done.
    assert (~ in_range R (l - r)).
    { intros HR. apply Hout. pose proof (lowest_lower R).
      unfold in_range in *.
      assert (lowest uint64_t = 0 ∧ max uint64_t = 2 ^ 64 - 1) as [-> ->] by done. lia. }
    rewrite checked_out by done. by destruct m.
Qed.

Lemma Subtract_any_unsigned_spec m R tl tr l r :
  is_signed tr = false → in_range tl l → in_range tr r →
  Subtract_any_unsigned m R tl tr l r = checked m R (l - r).
Proof.
  intros. unfold Subtract_any_unsigned. case_match;
    auto using Subtract_signed_unsigned_spec, Subtract_unsigned_unsigned_spec.
Qed.

Lemma Add_unsigned_signed_spec m R tl tr l r :
  is_signed tl = false → in_range tl l → in_range tr r →
  Add_unsigned_signed m R tl tr l r = checked m R (l + r).
Proof.
  intros Sl Hl Hr. unfold Add_unsigned_signed. rewrite CmpLess_spec by auto with cpp.
  case_match; reflect_bool.
  - rewrite Abs_spec by done. simpl.
    rewrite Subtract_unsigned_unsigned_spec by auto using is_signed_make_unsigned, Abs_range.
    f_equal; lia.
  - rewrite static_cast_id by auto with cpp.
    apply Add_unsigned_unsigned_spec; auto with cpp.
Qed.

Lemma Add_any_unsigned_spec m R tl tr l r :
  is_signed tr = false → in_range tl l → in_range tr r →
  Add_any_unsigned m R tl tr l r = checked m R (l + r).
Proof.
  intros. unfold Add_any_unsigned, Add_signed_unsigned. case_match.
  - rewrite Add_unsigned_signed_spec by done. f_equal; lia.
  - by apply Add_unsigned_unsigned_spec.
Qed.

Lemma Add_spec m R tl tr l r :
  in_range tl l → in_range tr r → Add m R tl tr l r = checked m R (l + r).
Proof.
  intros Hl Hr. unfold Add, Add_any_signed. case_match; [|by apply Add_any_unsigned_spec].
  rewrite CmpLess_spec by auto with cpp. case_match; reflect_bool.
  - rewrite Abs_spec by done. simpl.
    rewrite Subtract_any_unsigned_spec by auto using is_signed_make_unsigned, Abs_range.
    f_equal; lia.
  - rewrite static_cast_id by auto with cpp. apply Add_any_unsigned_spec; auto with cpp.
Qed.

Lemma Subtract_spec m R tl tr l r :
  in_range tl l → in_range tr r → Subtract m R tl tr l r = checked m R (l - r).
Proof.
  intros Hl Hr. unfold Subtract, Subtract_any_signed.
  case_match; [|by apply Subtract_any_unsigned_spec].
  rewrite CmpLess_spec by auto with cpp. case_match; reflect_bool.
  - rewrite Abs_spec by done. simpl.
    rewrite Add_any_unsigned_spec by auto using is_signed_make_unsigned, Abs_range.
    f_equal; lia.
  - rewrite static_cast_id by auto with cpp. apply Subtract_any_unsigned_spec; auto with cpp.
Qed.

(** ** Multiply and Divide *)

(** The type the magnitudes are multiplied and divided in. *)
Definition common_unsigned (tl tr : int_type) : int_type :=
  bigger_type (make_unsigned tl) (make_unsigned tr).

Lemma is_signed_common_unsigned tl tr : is_signed (common_unsigned tl tr) = false.
Proof.
  unfold common_unsigned.
  rewrite is_signed_bigger_type; by rewrite ?is_signed_make_unsigned.
Qed.

Lemma magnitude_range tl tr z :
  in_range tl z ∨ in_range tr z → in_range (common_unsigned tl tr) (Z.abs z).
Proof.
  intros [Hz|Hz]; apply bigger_type_range; rewrite ?is_signed_make_unsigned; auto using Abs_range.
Qed.

Lemma c_div_exact t a b :
  is_signed t = false → in_range t a → in_range t b → 0 < b →
  c_div t t a b = Ret (a / b) ∧ c_rem t t a b = Ret (a mod b) ∧
  in_range t (a / b) ∧ in_range t (a mod b).
Proof.
  intros S Ha Hb Hb0. pose proof Ha as Ha'. pose proof Hb as Hb'.
  rewrite in_range_unsigned in Ha', Hb' by done.
  assert (Hq : in_range t (a / b)).
  { rewrite in_range_unsigned by done. split; [apply Z.div_pos; lia|].
    apply Z.div_le_upper_bound; nia. }
  assert (Hm : in_range t (a mod b)).
  { rewrite in_range_unsigned by done. pose proof (Z.mod_pos_bound a b Hb0). lia. }
  unfold c_div, c_rem. rewrite usual_arith_same, static_cast_id by auto with cpp.
  rewrite (proj2 (Z.eqb_neq b 0)) by lia.
  split_and!; [| |done|done].
  - rewrite <- Z.quot_div_nonneg by lia. rewrite c_binop_exact; auto.
    by rewrite Z.quot_div_nonneg by lia.
  - rewrite <- Z.rem_mod_nonneg by lia. rewrite c_binop_exact; auto.
    by rewrite Z.rem_mod_nonneg by lia.
Qed.

(** The sign-dependent tail both operations end with. *)
Lemma signed_tail m R t z neg :
  is_signed t = false → in_range t z →
  (if neg : bool then Cast m R t z else Negate m R t z) = checked m R (if neg then z else - z).
Proof. intros. destruct neg; auto using Cast_spec, Negate_spec. Qed.

Definition mul_spec (m : ReturnMode) (R tl tr : int_type) (l r : Z) :
    outcome (ModeBasedReturnType m) :=
  if decide (max (common_unsigned tl tr) < Z.abs (l * r))
  then HandleError m kExceedsNumericLimits
  else checked m R (l * r).

Lemma Multiply_mul_spec m R tl tr l r :
  in_range tl l → in_range tr r → Multiply m R tl tr l r = mul_spec m R tl tr l r.
Proof.
  intros Hl Hr. unfold Multiply, mul_spec. rewrite !CmpEqual_spec by auto with cpp.
  set (C := common_unsigned tl tr).
  change (bigger_type (make_unsigned tl) (make_unsigned tr)) with C.
  assert (SC : is_signed C = false) by apply is_signed_common_unsigned.
  pose proof (max_lower C).
  destruct ((l =? 0) || (r =? 0)) eqn:Hz.
  { assert (l * r = 0) as -> by (apply orb_true_iff in Hz as [?|?]; reflect_bool; nia).
    rewrite decide_False by lia. apply Cast_spec, zero_in_range. }
  reflect_bool. rewrite !Abs_spec by done. simpl.
  assert (HL : in_range C (Z.abs l)) by (apply magnitude_range; auto).
  assert (HR : in_range C (Z.abs r)) by (apply magnitude_range; auto).
  rewrite !static_cast_id by done.
  destruct (c_div_exact C (max C) (Z.abs r)) as (Ediv & _ & Hq & _); [done| |done|lia|].
  { rewrite in_range_unsigned by done. lia. }
  rewrite Ediv. simpl. rewrite static_cast_id by done. rewrite CmpGreater_spec by done.
  assert (Hiff : max C / Z.abs r < Z.abs l ↔ max C < Z.abs (l * r)).
  { rewrite Z.abs_mul. pose proof (Z.div_mod (max C) (Z.abs r) ltac:(lia)).
    pose proof (Z.mod_pos_bound (max C) (Z.abs r) ltac:(lia)). nia. }
  case_match; reflect_bool; [by rewrite decide_True by (by apply Hiff)|].
  rewrite decide_False by (rewrite <- Hiff; lia).
  assert (HP : in_range C (Z.abs l * Z.abs r)).
  { rewrite in_range_unsigned by done. rewrite <- Z.abs_mul. lia. }
  replace (c_mul C C (Z.abs l) (Z.abs r)) with (Ret (Z.abs l * Z.abs r))
    by (symmetry; by apply (c_binop_exact Z.mul)).
  simpl. rewrite static_cast_id by done. rewrite !CmpLess_spec by auto with cpp.
  rewrite signed_tail by done. f_equal.
  destruct (l <? 0) eqn:?, (r <? 0) eqn:?; simpl; reflect_bool; lia.
Qed.

Definition div_spec (m : ReturnMode) (R : int_type) (l r : Z) : outcome (ModeBasedReturnType m) :=
  if decide (r = 0) then HandleError m kDivideByZero
  else if decide (l mod r = 0) then checked m R (l / r)
  else HandleError m kImplicitRounding.

Lemma Divide_div_spec m R tl tr l r :
  in_range tl l → in_range tr r → Divide m R tl tr l r = div_spec m R l r.
Proof.
  intros Hl Hr. unfold Divide, div_spec. rewrite CmpEqual_spec by auto with cpp.
  case_match; reflect_bool; [by rewrite decide_True by done|]. rewrite decide_False by done.
  set (C := common_unsigned tl tr).
  change (bigger_type (make_unsigned tl) (make_unsigned tr)) with C.
  assert (SC : is_signed C = false) by apply is_signed_common_unsigned.
  rewrite !Abs_spec by done. simpl.
  assert (HL : in_range C (Z.abs l)) by (apply magnitude_range; auto).
  assert (HR : in_range C (Z.abs r)) by (apply magnitude_range; auto).
  rewrite !static_cast_id by done.
  destruct (c_div_exact C (Z.abs l) (Z.abs r)) as (Ediv & Erem & Hq & _); [done..|lia|].
  rewrite Erem, Ediv. simpl.
  assert (Hdvd : l mod r = 0 ↔ Z.abs l mod Z.abs r = 0).
  { rewrite !Z.mod_divide by lia. by rewrite Z.divide_abs_l, Z.divide_abs_r. }
  case_match; reflect_bool; [by rewrite decide_False by (rewrite Hdvd; done)|].
  assert (Hd : (r | l)) by (apply Z.mod_divide; [done|by apply Hdvd]).
  rewrite decide_True by (by apply Hdvd).
  rewrite static_cast_id by done. rewrite !CmpLess_spec by auto with cpp.
  rewrite signed_tail by done. f_equal. destruct Hd as [q ->].
  rewrite Z.div_mul, Z.abs_mul, Z.div_mul by lia.
  destruct (q * r <? 0) eqn:?, (r <? 0) eqn:?; simpl; reflect_bool; nia.
Qed.

(** ** Properties *)

(** C28: [Add] and [Subtract] compute the mathematical result for all 512
    combinations of operand and result types, without undefined behaviour:
    the result if [R] can hold it, and the error [kExceedsNumericLimits]
    (an abort, in the aborting mode) if it cannot. *)
Theorem add_subtract_exact m R tl tr lhs rhs :
  in_range tl lhs → in_range tr rhs →
  Add m R tl tr lhs rhs = checked m R (lhs + rhs) ∧
  Subtract m R tl tr lhs rhs = checked m R (lhs - rhs).
Proof. intros. by rewrite Add_spec, Subtract_spec. Qed.

Lemma add_subtract_exact_witness :
  Add kReturnResultOnError int8_t uint64_t int64_t (2 ^ 64 - 1) (- 2 ^ 63) =
    Ret (Unexpected kExceedsNumericLimits) ∧
  Subtract kReturnResultOnError uint64_t int8_t int64_t (-1) (- 2 ^ 63) = Ret (Value (2 ^ 63 - 1)).
Proof.
  split.
  - destruct (add_subtract_exact kReturnResultOnError int8_t uint64_t int64_t (2 ^ 64 - 1) (- 2 ^ 63))
      as [-> _]; [vm_compute; split; discriminate..|]. reflexivity.
  - destruct (add_subtract_exact kReturnResultOnError uint64_t int8_t int64_t (-1) (- 2 ^ 63))
      as [_ ->]; [vm_compute; split; discriminate..|]. reflexivity.
Defined.

(** [Multiply] is free of undefined behaviour and computes the
    mathematical product if [R] can hold it, provided the unsigned type of the
    wider operand can hold its magnitude; a larger product is an error even
    where [R] could hold it. *)
Theorem multiply_spec m R tl tr lhs rhs :
  in_range tl lhs → in_range tr rhs →
  Multiply m R tl tr lhs rhs =
  (if decide (Z.abs (lhs * rhs) <= max (bigger_type (make_unsigned tl) (make_unsigned tr)))
   then checked m R (lhs * rhs)
   else HandleError m kExceedsNumericLimits).
Proof.
  intros. rewrite Multiply_mul_spec by done. unfold mul_spec, common_unsigned.
  do 2 case_decide; try done; lia.
Qed.

Lemma multiply_spec_witness :
  Multiply kReturnResultOnError int64_t int8_t int8_t 100 100 = Ret (Unexpected kExceedsNumericLimits) ∧
  in_range int64_t (100 * 100).
Proof.
  split; [|vm_compute; split; discriminate].
  rewrite (multiply_spec kReturnResultOnError int64_t int8_t int8_t 100 100);
    [reflexivity|vm_compute; split; discriminate..].
Defined.

(** [Divide] is free of undefined behaviour; it reports a division by
    zero, a quotient that is not an integer, and a quotient [R] cannot hold,
    and returns the exact quotient otherwise. *)
Theorem divide_spec m R tl tr lhs rhs :
  in_range tl lhs → in_range tr rhs →
  Divide m R tl tr lhs rhs =
  (if decide (rhs = 0) then HandleError m kDivideByZero
   else if decide (lhs mod rhs = 0) then checked m R (lhs / rhs)
   else HandleError m kImplicitRounding).
Proof. intros. by rewrite Divide_div_spec. Qed.

Lemma divide_spec_witness :
  Divide kReturnResultOnError int64_t int64_t int8_t (- 2 ^ 63) (-1) =
  Ret (Unexpected kExceedsNumericLimits).
Proof.
  rewrite (divide_spec kReturnResultOnError int64_t int64_t int8_t (- 2 ^ 63) (-1));
    [reflexivity|vm_compute; split; discriminate..].
Defined.

(** The six comparisons agree with the comparison of the mathematical
    values, whatever the signedness and width of the operands. *)
Theorem comparisons_agree tl tr lhs rhs :
  in_range tl lhs → in_range tr rhs →
  CmpLess tl tr lhs rhs = bool_decide (lhs < rhs) ∧
  CmpGreater tl tr lhs rhs = bool_decide (rhs < lhs) ∧
  CmpLessEqual tl tr lhs rhs = bool_decide (lhs <= rhs) ∧
  CmpGreaterEqual tl tr lhs rhs = bool_decide (rhs <= lhs) ∧
  CmpEqual tl tr lhs rhs = bool_decide (lhs = rhs) ∧
  CmpNotEqual tl tr lhs rhs = bool_decide (lhs ≠ rhs).
Proof.
  intros. unfold CmpLessEqual, CmpGreaterEqual, CmpNotEqual.
  rewrite CmpGreater_spec, CmpLess_spec, CmpEqual_spec by done.
  split_and!; case_bool_decide; destruct (Z.ltb_spec lhs rhs), (Z.ltb_spec rhs lhs), (Z.eqb_spec lhs rhs);
    simpl; try done; lia.
Qed.

Lemma comparisons_agree_witness :
  CmpLess int8_t uint64_t (-1) (2 ^ 64 - 1) = true.
Proof.
  destruct (comparisons_agree int8_t uint64_t (-1) (2 ^ 64 - 1)) as [-> _];
    [vm_compute; split; discriminate..|reflexivity].
Defined.

(** [Cast], [Negate] and [Abs] compute the mathematical value, or report
    that [R] cannot hold it; [Abs] of the lowest value is its magnitude in the
    unsigned type. *)
Theorem cast_negate_abs_exact m R T z :
  in_range T z →
  Cast m R T z = checked m R z ∧ Negate m R T z = checked m R (- z) ∧
  Abs T z = Ret (Z.abs z) ∧ in_range (make_unsigned T) (Z.abs z).
Proof.
  intros. rewrite Cast_spec, Negate_spec, Abs_spec by done. auto using Abs_range.
Qed.

Lemma cast_negate_abs_exact_witness :
  Negate kReturnResultOnError int64_t uint64_t (2 ^ 63) = Ret (Value (- 2 ^ 63)).
Proof.
  destruct (cast_negate_abs_exact kReturnResultOnError int64_t uint64_t (2 ^ 63)) as (_ & -> & _);
    [vm_compute; split; discriminate|reflexivity].
Defined.

End SafeMath.
