(* ===== verification/Path.v ===== *)
(** * score/filesystem/path.h, path.cpp: lexical POSIX paths

    [Path] keeps its text in [native_path_] and, when the text has more than
    one component, its components in [parts_] (each of them a [Path] that was
    built without parsing).  The definitions follow path.cpp function by
    function; an operation that may read out of bounds or fail an assertion
    has type [outcome]. *)

From S2P Require Import Prelude CppString.

Module Path.

Definition preferred_separator : ascii := "/"%char.
Definition dot : str := s! ".".
Definition dotdot : str := s! "..".

Inductive Path := mkPath { native_path_ : str; parts_ : list Path }.

Definition Native (p : Path) : str := native_path_ p.
Definition Empty (p : Path) : bool := bool_decide (native_path_ p = []).

(** [Path(string_type&&, do_parsing = false)] *)
Definition unparsed (s : str) : Path := mkPath s [].

(** ** Parsing *)

(** The loop of [AddPathPartToParts]; [fuel] bounds its iterations by the
    number of unread characters, each iteration reads at least one. *)
Fixpoint AddPathPartToParts_loop (fuel : nat) (stringstream_path : str) (parts : list Path) :
    list Path :=
  match fuel with
  | O => parts
  | S fuel =>
      match getline preferred_separator stringstream_path with
      | None => parts
      | Some (path_part, rest) =>
          AddPathPartToParts_loop fuel rest
            (if decide (path_part = []) then parts else parts ++ [unparsed path_part])
      end
  end.

Definition AddPathPartToParts (stringstream_path : str) (parts : list Path) : list Path :=
  AddPathPartToParts_loop (length stringstream_path) stringstream_path parts.

(** The new value of [parts_]; the assertion after the loop is the [Aborted]. *)
Definition Parse (path : str) : outcome (list Path) :=
  if decide (path = []) then Ret []
  else
    first ← front path;
    let starts_with_separator := bool_decide (first = preferred_separator) in
    let parts := if starts_with_separator then [unparsed [preferred_separator]] else [] in
    let parts := AddPathPartToParts path parts in
    if decide (parts = []) then Aborted
    else
      let is_multipart := (1 <? length parts)%nat in
      last_char ← back path;
      let ends_with_separator := bool_decide (last_char = preferred_separator) in
      let parts := if ends_with_separator && (is_multipart || negb starts_with_separator)
                   then parts ++ [unparsed []] else parts in
      Ret (if (length parts =? 1)%nat then [] else parts).

(** [Path(const string_type&)] *)
Definition make (user_path : str) : outcome Path :=
  parts ← Parse user_path; Ret (mkPath user_path parts).

(** ** Queries, root and relative path *)

Definition IsAbsolute (p : Path) : bool :=
  match native_path_ p with
  | [] => false
  | c :: _ => bool_decide (c = preferred_separator)
  end.

Definition IsRelative (p : Path) : bool := negb (IsAbsolute p).

Definition RootName (p : Path) : Path := mkPath [] [].

Definition RootDirectory (p : Path) : outcome Path :=
  if IsAbsolute p then make [preferred_separator] else Ret (mkPath [] []).

Definition RootPath (p : Path) : outcome Path := RootDirectory p.

Definition RelativePath (p : Path) : outcome Path :=
  if IsAbsolute p then
    root ← RootPath p;
    make (erase_prefix (length (Native root)) (Native p))
  else Ret p.

Definition HasRootPath (p : Path) : outcome bool := r ← RootPath p; Ret (negb (Empty r)).
Definition HasRootName (p : Path) : bool := negb (Empty (RootName p)).
Definition HasRootDirectory (p : Path) : outcome bool := r ← RootDirectory p; Ret (negb (Empty r)).
Definition HasRelativePath (p : Path) : outcome bool :=
  r ← RootPath p; Ret (negb (bool_decide (Native p = Native r))).

(** ** Appending *)

(** [operator/=], for a [to_append] that is another object. *)
Definition append (p to_append : Path) : outcome Path :=
  if (Empty p || IsAbsolute to_append) ||
     (HasRootName to_append && negb (bool_decide (Native (RootName to_append) = Native (RootName p))))
  then make (native_path_ to_append)
  else
    last_char ← back (native_path_ p);
    let native := if decide (last_char = preferred_separator) then native_path_ p
                  else native_path_ p ++ [preferred_separator] in
    make (native ++ native_path_ to_append).

(** [p /= p]: [to_append] is a reference to the object that is being changed. *)
Definition append_self (p : Path) : outcome Path :=
  if (Empty p || IsAbsolute p) ||
     (HasRootName p && negb (bool_decide (Native (RootName p) = Native (RootName p))))
  then make (native_path_ p)
  else
    last_char ← back (native_path_ p);
    let native := if decide (last_char = preferred_separator) then native_path_ p
                  else native_path_ p ++ [preferred_separator] in
    make (native ++ native).

(** [operator/] appends to a copy of [lhs]. *)
Definition operator_div (lhs rhs : Path) : outcome Path := append lhs rhs.

Definition operator_eq (lhs rhs : Path) : bool := bool_decide (Native lhs = Native rhs).
Definition operator_ne (lhs rhs : Path) : bool := negb (bool_decide (Native lhs = Native rhs)).
Definition operator_lt (lhs rhs : Path) : bool := string_lt (Native lhs) (Native rhs).

(** ** Lexical normalisation *)

Definition RemovePotentialTrailingDirectorySeparator (new_parts : list str) : list str :=
  if (2 <=? length new_parts)%nat then
    match reverse new_parts with
    | [] :: current_part :: _ =>
        if decide (current_part = dotdot ∨ current_part = dot)
        then removelast new_parts else new_parts
    | _ => new_parts
    end
  else new_parts.

(** The [while] loop erases the dot-dots that follow the root. *)
Fixpoint erase_leading_dotdot (parts : list str) : list str :=
  match parts with
  | current_part :: rest =>
      if decide (current_part = dotdot) then erase_leading_dotdot rest else parts
  | [] => []
  end.

Definition RemovePotentialMoveUpsAndSeparatorsAfterRoot (new_parts : list str) :
    outcome (list str) :=
  first ← front new_parts;
  match first with
  | [] => Ret new_parts
  | c :: _ =>
      if decide (c = preferred_separator)
      then Ret (first :: erase_leading_dotdot (tail new_parts))
      else Ret new_parts
  end.

(** The [for] loop: finds the first name that is followed by a dot-dot and
    erases both; [before] is what was passed, in reverse. *)
Fixpoint erase_first_pair (before : list str) (previous_part : str) (parts : list str) :
    outcome (option (list str)) :=
  match parts with
  | [] => Ret None
  | current_part :: rest =>
      replace ←
        (if bool_decide (current_part = dotdot) && negb (bool_decide (previous_part = dotdot))
         then c ← front previous_part; Ret (negb (bool_decide (c = preferred_separator)))
         else Ret false);
      if (replace : bool)
      then Ret (Some (reverse before ++ rest))
      else erase_first_pair (previous_part :: before) current_part rest
  end.

(** The [while] loop; running out of [fuel] is [Undefined]. *)
Fixpoint RemoveFileNames_loop (fuel : nat) (new_parts : list str) : outcome (list str) :=
  match fuel with
  | O => Undefined
  | S fuel =>
      match new_parts with
      | [] => Ret []
      | first :: rest =>
          r ← erase_first_pair [] first rest;
          match r with
          | None => Ret new_parts
          | Some new_parts => RemoveFileNames_loop fuel new_parts
          end
      end
  end.

Definition RemovePotentialFileNamesFollowedByMoveUpsAndSeparator (new_parts : list str) :
    outcome (list str) :=
  RemoveFileNames_loop (S (length new_parts)) new_parts.

Fixpoint CreatePathString_loop (is_separator_required : bool) (normalized_path : str)
    (new_parts : list str) : str :=
  match new_parts with
  | [] => normalized_path
  | current_part :: rest =>
      let normalized_path :=
        (if is_separator_required then normalized_path ++ [preferred_separator]
         else normalized_path) ++ current_part in
      let is_separator_required :=
        match current_part with
        | [] => is_separator_required
        | c :: _ => if decide (c = preferred_separator) then is_separator_required else true
        end in
      CreatePathString_loop is_separator_required normalized_path rest
  end.

Definition CreatePathStringFromParts (new_parts : list str) : str :=
  CreatePathString_loop false [] new_parts.

Definition AddPreferredSeperatorIfNeeded (p : Path) (new_parts : list str)
    (normalized_path : str) : outcome str :=
  last_part ← back (parts_ p);
  let last_was_dot := bool_decide (Native last_part = dot) || bool_decide (Native last_part = dotdot) in
  if last_was_dot then
    last_new ← back new_parts;
    if bool_decide (last_new = dotdot) then Ret normalized_path
    else if negb (length new_parts =? 1)%nat then Ret (normalized_path ++ [preferred_separator])
    else
      c ← front (native_path_ p);
      Ret (if decide (c = preferred_separator) then normalized_path
           else normalized_path ++ [preferred_separator])
  else Ret normalized_path.

Definition LexicallyNormal (p : Path) : outcome Path :=
  if decide (parts_ p = []) then make (native_path_ p)
  else
    let new_parts := filter (λ part, part ≠ dot) (Native <$> parts_ p) in
    if decide (new_parts = []) then make dot
    else
      new_parts ← RemovePotentialFileNamesFollowedByMoveUpsAndSeparator new_parts;
      if decide (new_parts = []) then make dot
      else
        new_parts ← RemovePotentialMoveUpsAndSeparatorsAfterRoot new_parts;
        let new_parts := RemovePotentialTrailingDirectorySeparator new_parts in
        let normalized_path := CreatePathStringFromParts new_parts in
        if decide (normalized_path = []) then make dot
        else
          normalized_path ← AddPreferredSeperatorIfNeeded p new_parts normalized_path;
          make normalized_path.

(** ** Decomposition *)

(** The [while] loop of [ParentPath]; at position 0 it reads
    [parent_path\[-1\]]. *)
Fixpoint skip_separators (parent_path : str) (position_of_last_path_separator : nat) :
    outcome nat :=
  match position_of_last_path_separator with
  | O => Undefined
  | S position =>
      c ← char_at parent_path position;
      if decide (c = preferred_separator) then skip_separators parent_path position
      else Ret position_of_last_path_separator
  end.

Definition ParentPath (p : Path) : outcome Path :=
  if Empty p then Ret (mkPath [] [])
  else
    let parent_path := Native p in
    match find_first_not_of preferred_separator parent_path with
    | None => Ret p
    | Some _ =>
        match find_last_of preferred_separator parent_path with
        | Some O => make [preferred_separator]
        | None => Ret (mkPath [] [])
        | Some position_of_last_path_separator =>
            position ← skip_separators parent_path position_of_last_path_separator;
            parent ← erase_from position parent_path;
            make parent
        end
    end.

(** [None] is [npos]. *)
Definition FilenamePosition (p : Path) : option nat :=
  if Empty p then None
  else
    let position_of_filename :=
      match find_last_of preferred_separator (Native p) with
      | Some position_of_last_separator => S position_of_last_separator
      | None => O
      end in
    if (position_of_filename =? length (Native p))%nat then None else Some position_of_filename.

Definition Filename (p : Path) : outcome Path :=
  match FilenamePosition p with
  | None => Ret (mkPath [] [])
  | Some O => make (Native p)
  | Some position_of_filename => make (erase_prefix position_of_filename (Native p))
  end.

(** [ExtensionPosition(position_of_filename)] *)
Definition ExtensionPosition_from (p : Path) (position_of_filename : option nat) :
    outcome (option nat) :=
  match position_of_filename with
  | None => Ret None
  | Some position_of_filename =>
      filename ← substr position_of_filename (Native p);
      if decide (filename = dot ∨ filename = dotdot) then Ret None
      else
        rest ← substr 1 filename;
        match find_last_of "."%char rest with
        | None => Ret None
        | Some position_of_extension_separator =>
            Ret (Some (position_of_extension_separator + (position_of_filename + 1)))
        end
  end.

Definition ExtensionPosition (p : Path) : outcome (option nat) :=
  ExtensionPosition_from p (FilenamePosition p).

Definition Extension (p : Path) : outcome Path :=
  position ← ExtensionPosition p;
  match position with
  | None => Ret (mkPath [] [])
  | Some position_of_extension_separator =>
      s ← substr position_of_extension_separator (Native p); make s
  end.

Definition Stem (p : Path) : outcome Path :=
  match FilenamePosition p with
  | None => Ret (mkPath [] [])
  | Some position_of_filename =>
      position ← ExtensionPosition_from p (Some position_of_filename);
      match position with
      | None => s ← substr position_of_filename (Native p); make s
      | Some position_of_extension_separator =>
          s ← substr_len position_of_filename
                (position_of_extension_separator - position_of_filename) (Native p);
          make s
      end
  end.

(** For a [replacement] that is another object. *)
Definition ReplaceExtension (p replacement : Path) : outcome Path :=
  position ← ExtensionPosition p;
  native ← match position with
           | Some position_of_extension_separator =>
               erase_from position_of_extension_separator (native_path_ p)
           | None => Ret (native_path_ p)
           end;
  let extension := Native replacement in
  let native := match extension with
                | c :: _ => if decide (c = "."%char) then native else native ++ dot
                | [] => native
                end in
  make (native ++ extension).

Definition RemoveFilename (p : Path) : outcome Path :=
  match FilenamePosition p with
  | Some filename_position => s ← erase_from filename_position (native_path_ p); make s
  | None => Ret p
  end.

Definition HasParentPath (p : Path) : outcome bool := q ← ParentPath p; Ret (negb (Empty q)).
Definition HasFilename (p : Path) : outcome bool := q ← Filename p; Ret (negb (Empty q)).
Definition HasExtension (p : Path) : outcome bool := q ← Extension p; Ret (negb (Empty q)).

(** ** Iteration *)

(** A reference to a [Path] is the object's address with its value; [cur_] is
    the index that the vector iterator stands for. *)
Record iterator := mkIterator {
  path_ : option (nat * Path);
  cur_ : nat;
  is_at_end_ : bool;
}.

Definition default_iterator : iterator := mkIterator None 0 false.

Definition path_begin (this : nat * Path) : iterator :=
  if negb (bool_decide (parts_ this.2 = [])) then mkIterator (Some this) 0 false
  else if bool_decide (native_path_ this.2 = []) then default_iterator
  else mkIterator (Some this) 0 false.

Definition path_end (this : nat * Path) : iterator :=
  if negb (bool_decide (parts_ this.2 = [])) then mkIterator (Some this) (length (parts_ this.2)) false
  else if bool_decide (native_path_ this.2 = []) then default_iterator
  else mkIterator (Some this) 0 true.

Definition equals (l r : iterator) : bool :=
  match path_ l, path_ r with
  | None, None => true
  | Some (address_l, path), Some (address_r, _) =>
      if negb (address_l =? address_r)%nat then false
      else if decide (parts_ path = []) then Bool.eqb (is_at_end_ l) (is_at_end_ r)
      else (cur_ l =? cur_ r)%nat
  | _, _ => false
  end.

Definition iterator_next (i : iterator) : outcome iterator :=
  match path_ i with
  | None => Aborted
  | Some (address, path) =>
      if decide (parts_ path = []) then
        if is_at_end_ i then Aborted else Ret (mkIterator (path_ i) (cur_ i) true)
      else
        if (cur_ i =? length (parts_ path))%nat then Aborted
        else Ret (mkIterator (path_ i) (S (cur_ i)) (is_at_end_ i))
  end.

Definition iterator_prev (i : iterator) : outcome iterator :=
  match path_ i with
  | None => Aborted
  | Some (address, path) =>
      if decide (parts_ path = []) then
        if is_at_end_ i then Ret (mkIterator (path_ i) (cur_ i) false) else Aborted
      else
        match cur_ i with
        | O => Aborted
        | S cur => Ret (mkIterator (path_ i) cur (is_at_end_ i))
        end
  end.

(** Reading past the end of [parts_] is [Undefined]. *)
Definition iterator_deref (i : iterator) : outcome Path :=
  match path_ i with
  | None => Aborted
  | Some (address, path) =>
      if decide (parts_ path = []) then
        if is_at_end_ i then Aborted else Ret path
      else
        if (cur_ i =? length (parts_ path))%nat then Aborted
        else match parts_ path !! cur_ i with Some part => Ret part | None => Undefined end
  end.

(** [for (const auto& part : path)]: the visited components. *)
Fixpoint iterate (fuel : nat) (i stop : iterator) : outcome (list Path) :=
  match fuel with
  | O => Undefined
  | S fuel =>
      if equals i stop then Ret []
      else
        part ← iterator_deref i;
        next ← iterator_next i;
        parts ← iterate fuel next stop;
        Ret (part :: parts)
  end.

End Path.
