(* ===== verification/PathSpec.v ===== *)
(** * What a path text means, and the normal form it should have

    The reference for [Path]: the names of a path text, the components the
    parser has to find, the directory a path leads to, and the normal form as
    a one-pass stack machine.  [Parse] and [LexicallyNormal] are shown to
    implement it. *)

From S2P Require Import Prelude CppString Path.
Import Path.

Module PathSpec.

(** ** Names and components *)

Abbreviation sep := preferred_separator.

Fixpoint pieces (s : str) : list str :=
  match s with
  | [] => [[]]
  | c :: s =>
      if decide (c = sep) then [] :: pieces s
      else match pieces s with
           | p :: ps => (c :: p) :: ps
           | [] => [[c]]
           end
  end.

(** The non-empty pieces between separators. *)
Definition names (s : str) : list str := filter (λ x, x ≠ []) (pieces s).

Definition starts (s : str) : bool :=
  match s with c :: _ => bool_decide (c = sep) | [] => false end.
Definition ends (s : str) : bool :=
  match last s with Some c => bool_decide (c = sep) | None => false end.

(** The root, the names, and an empty component for a trailing separator. *)
Definition components (s : str) : list str :=
  (if starts s then [[sep]] else []) ++ names s ++
  (if ends s && negb (bool_decide (names s = [])) then [[]] else []).

(** A file name as it occurs in a path. *)
Definition proper (x : str) : Prop := x ≠ [] ∧ sep ∉ x.

Definition join (l : list str) : str :=
  match l with [] => [] | x :: l => x ++ concat ((λ y, sep :: y) <$> l) end.

(** ** The directory a path leads to, without symbolic links

    A directory is the list of the names below the root, innermost first. *)

Definition walk (dir : list str) (name : str) : list str :=
  if decide (name = dot) then dir
  else if decide (name = dotdot) then tail dir
  else name :: dir.

Definition resolve (cwd : list str) (s : str) : list str :=
  foldl walk (if starts s then [] else cwd) (names s).

(** ** The normal form *)

(** One pass over the names with a stack, innermost name on top; a dot-dot
    that has no name to cancel is dropped below the root and kept otherwise. *)
Definition step (absolute : bool) (stack : list str) (name : str) : list str :=
  if decide (name = dot) then stack
  else if decide (name = dotdot) then
    match stack with
    | [] => if absolute then [] else [dotdot]
    | top :: stack' => if decide (top = dotdot) then dotdot :: stack else stack'
    end
  else name :: stack.

Definition reduce (absolute : bool) (l : list str) : list str :=
  reverse (foldl (step absolute) [] l).

Definition last_is (l : list str) (x : str) : bool := bool_decide (last l = Some x).

Definition normal_text (absolute trailing : bool) (l : list str) : str :=
  if absolute then
    sep :: join l ++ (if trailing && negb (bool_decide (l = [])) then [sep] else [])
  else
    match l with
    | [] => dot
    | _ => join l ++ (if trailing && negb (last_is l dotdot) then [sep] else [])
    end.

(** The normal form, by the algorithm that the code quotes: that of an empty
    path is empty; repeated separators become one, and a trailing separator is
    kept, or made of a last dot or dot-dot that goes away. *)
Definition normal_form (s : str) : str :=
  if decide (s = []) then []
  else normal_text (starts s)
         (ends s || last_is (names s) dot || last_is (names s) dotdot)
         (reduce (starts s) (names s)).

(** What the code makes of a text: one with at most one component stays. *)
Definition normalised (s : str) : str :=
  if (length (components s) <=? 1)%nat then s else normal_form s.

(** ** Facts on names *)

Lemma pieces_nonempty s : pieces s ≠ [].
Proof. destruct s as [|c s]; simpl; [done|]. repeat case_match; done. Qed.

Lemma pieces_app s t : pieces (s ++ (sep :: t)) = pieces s ++ pieces t.
Proof.
  induction s as [|c s IH]; simpl.
  - done.
  - case_decide; rewrite IH; [done|].
    destruct (pieces s) as [|p ps] eqn:E; [by destruct (pieces_nonempty s)|done].
Qed.

Lemma names_app s t : names (s ++ (sep :: t)) = names s ++ names t.
Proof. unfold names. by rewrite pieces_app, filter_app. Qed.

Lemma names_sep t : names (sep :: t) = names t.
Proof. apply (names_app [] t). Qed.

Lemma names_snoc s : names (s ++ [sep]) = names s.
Proof. rewrite names_app. apply app_nil_r. Qed.

Lemma pieces_no_sep x : sep ∉ x → pieces x = [x].
Proof.
  induction x as [|c x IH]; simpl; [done|]. intros [? ?]%not_elem_of_cons.
  rewrite decide_False by done. by rewrite IH.
Qed.

Lemma names_proper x : proper x → names x = [x].
Proof. intros [? ?]. unfold names. rewrite pieces_no_sep by done. by rewrite filter_cons_True. Qed.

Lemma names_all_proper s : Forall proper (names s).
Proof.
  assert (Forall (λ x, sep ∉ x) (pieces s)) as H.
  { induction s as [|c s IH]; simpl; [repeat constructor; set_solver|].
    case_decide; [constructor; [set_solver|done]|].
    destruct (pieces s) as [|p ps]; inversion IH; subst; constructor; set_solver. }
  rewrite Forall_forall in *. unfold names, proper.
  intros x [??]%list_elem_of_filter. eauto.
Qed.

Lemma names_join l : Forall proper l → names (join l) = l.
Proof.
  destruct l as [|x l]; [done|]. intros [Hx Hl]%Forall_cons. simpl.
  revert x Hx. induction Hl as [|y l Hy Hl IH]; intros x Hx; simpl.
  - rewrite app_nil_r. by apply names_proper.
  - rewrite names_app, (names_proper x Hx). simpl. f_equal. by apply IH.
Qed.

Lemma names_nil s : names s = [] ↔ Forall (.= sep) s.
Proof.
  split.
  - induction s as [|c s IH]; [done|]. unfold names; simpl. case_decide as Hc.
    + rewrite filter_cons_False by naive_solver. intros H. constructor; [done|]. by apply IH.
    + destruct (pieces s); by rewrite filter_cons_True.
  - induction 1 as [|c s -> Hs IH]; [done|]. by rewrite names_sep.
Qed.

Lemma starts_names_nonempty s : s ≠ [] → starts s = false → names s ≠ [].
Proof.
  intros Hs Hst Hn%names_nil. by destruct Hn; subst.
Qed.

(** ** Parsing finds the components *)

Lemma split_at_length s line rest : split_at sep s = (line, rest) → s ≠ [] → length rest < length s.
Proof.
  revert line rest. induction s as [|c s IH]; intros line rest; [done|]; simpl.
  case_decide; [intros [= <- <-] _; lia|].
  destruct (split_at sep s) as [l r] eqn:E. intros [= <- <-] _.
  destruct s as [|d s]; [simpl in E; simplify_eq/=; lia|]. specialize (IH l r eq_refl). simpl in *.
  assert (length r < S (length s)) by by apply IH. lia.
Qed.

Lemma split_at_names s line rest :
  split_at sep s = (line, rest) →
  sep ∉ line ∧ names s = (if decide (line = []) then [] else [line]) ++ names rest.
Proof.
  intros E. assert (sep ∉ line ∧ (s = line ++ (sep :: rest) ∨ (s = line ∧ rest = []))) as [Hn Hs].
  { revert line rest E. induction s as [|c s IH]; intros line rest; simpl.
    - intros [= <- <-]. set_solver.
    - case_decide as Hc; [intros [= <- <-]; subst; set_solver|].
      destruct (split_at sep s) as [l r]. intros [= <- <-].
      destruct (IH l r eq_refl) as (? & [-> | [-> ->]]); split; try set_solver. }
  split; [done|]. assert (names line = if decide (line = []) then [] else [line]) as Hl.
  { case_decide; [by subst|]. by apply names_proper. }
  destruct Hs as [-> | [-> ->]]; rewrite ?names_app, Hl, ?app_nil_r; done.
Qed.

Lemma AddPathPartToParts_spec s parts :
  AddPathPartToParts s parts = parts ++ (unparsed <$> names s).
Proof.
  unfold AddPathPartToParts. assert (length s ≤ length s) as Hf by done. revert Hf.
  generalize (length s) at 2 3. intros fuel. revert s parts.
  induction fuel as [|fuel IH]; intros s parts Hf.
  { destruct s; simpl in *; [by rewrite app_nil_r|lia]. }
  destruct s as [|c s]; [simpl; by rewrite app_nil_r|].
  cbn [AddPathPartToParts_loop getline]. destruct (split_at sep (c :: s)) as [line rest] eqn:E.
  apply split_at_length in E as Hlen; [|done]. apply split_at_names in E as [_ ->].
  rewrite IH by lia. case_decide; simpl; [done|]. by rewrite <- (assoc_L (++)).
Qed.

Lemma length_components s : s ≠ [] → components s ≠ [].
Proof.
  intros Hs. unfold components. destruct (starts s) eqn:E; [done|].
  pose proof (starts_names_nonempty s Hs E). by destruct (names s).
Qed.

Lemma back_ends s : s ≠ [] → ∃ c, back s = Ret c ∧ ends s = bool_decide (c = sep).
Proof.
  intros [l [c ->]]%exists_last. exists c. rewrite back_snoc. unfold ends. by rewrite last_snoc.
Qed.

(** The parser keeps no components for a text with a single one. *)
Definition kept (l : list str) : list Path :=
  if (length l =? 1)%nat then [] else unparsed <$> l.

Lemma Parse_components s : Parse s = Ret (kept (components s)).
Proof.
  unfold Parse. case_decide as Hs; [by subst|].
  destruct (back_ends s Hs) as (c & Hback & Hends).
  destruct s as [|a s0]; [done|]. set (s := a :: s0) in *.
  assert (front s = Ret a) as -> by done. cbn [mbind outcome_bind].
  change (bool_decide (a = sep)) with (starts s). rewrite AddPathPartToParts_spec.
  pose proof (starts_names_nonempty s Hs) as Hn. rewrite Hback. cbn [mbind outcome_bind].
  rewrite <- Hends. unfold components, kept.
  destruct (starts s), (ends s), (names s) as [|n [|n' ns]]; try (by destruct Hn); try done.
  all: simpl; rewrite ?fmap_app; simpl; by rewrite ?app_nil_r.
Qed.

Lemma make_spec s : make s = Ret (mkPath s (kept (components s))).
Proof. unfold make. by rewrite Parse_components. Qed.

(** ** The invariant of a [Path] object: its parts are those of its text *)

Definition wf (p : Path) : Prop := Parse (native_path_ p) = Ret (parts_ p).

Lemma wf_parts p : wf p ↔ parts_ p = kept (components (native_path_ p)).
Proof. unfold wf. rewrite Parse_components. split; congruence. Qed.

Lemma make_wf s p : make s = Ret p → wf p ∧ native_path_ p = s.
Proof. rewrite make_spec. intros [= <-]. by rewrite wf_parts. Qed.

Lemma kept_nil s : kept (components s) = [] ↔ length (components s) ≤ 1.
Proof.
  unfold kept. destruct (components s) as [|x [|y l]]; simpl; split; try done; lia.
Qed.

Lemma kept_native l : 1 < length l → Native <$> kept l = l.
Proof.
  intros H. unfold kept. rewrite (proj2 (Nat.eqb_neq _ _)) by lia.
  rewrite <- list_fmap_compose. apply list_fmap_id.
Qed.

Lemma components_names s : 1 < length (components s) → names s ≠ [].
Proof.
  intros H Hn. unfold components in H. rewrite Hn, andb_false_r in H. destruct (starts s); simpl in H; lia.
Qed.

(** A text that has a single component and is no root is its own name. *)
Lemma single_component s : length (components s) ≤ 1 → names s ≠ [] → names s = [s] ∧ starts s = false ∧ ends s = false.
Proof.
  intros Hl Hn. unfold components in Hl. rewrite (bool_decide_false (names s = [])), andb_true_r in Hl by done.
  rewrite !length_app in Hl. destruct (starts s) eqn:Es, (ends s) eqn:Ee, (names s) as [|x [|y l]] eqn:En; simpl in Hl; try lia; try done.
  split_and!; [|done..]. destruct (decide (sep ∈ s)) as [Hin|Hin].
  - exfalso. apply list_elem_of_split in Hin as (s1 & s2 & ->). rewrite names_app in En.
    assert (names s1 ≠ []) as H1 by (destruct s1 as [|c s1]; [done|]; by apply starts_names_nonempty).
    assert (names s2 ≠ []) as H2.
    { rewrite names_nil. intros Hall. unfold ends in Ee.
      assert (last (s1 ++ sep :: s2) = Some sep) as El; [|by rewrite El in Ee].
      destruct s2 as [|c s2 _] using rev_ind; [by rewrite last_snoc|].
      apply Forall_app in Hall as [_ [-> _]%Forall_cons]. by rewrite app_comm_cons, app_assoc, last_snoc. }
    apply (f_equal length) in En. rewrite length_app in En. destruct (names s1), (names s2); simpl in En; (done || lia).
  - assert (s ≠ []) by (by intros ->). rewrite names_proper in En by done. congruence.
Qed.

(** So the code differs from the algorithm for separators only. *)
Lemma normalised_normal_form s :
  normalised s = if decide (names s = []) then s else normal_form s.
Proof.
  unfold normalised. case_decide as Hn.
  { destruct (Nat.leb_spec (length (components s)) 1) as [|Hl]; [done|]. by destruct (components_names s Hl). }
  destruct (Nat.leb_spec (length (components s)) 1) as [Hl|]; [|done].
  destruct (single_component s Hl Hn) as (E & Hs & He). unfold normal_form.
  destruct (decide (s = [])) as [->|Hne]; [done|].
  rewrite E, Hs, He. unfold last_is, reduce. cbn [last foldl]. unfold step.
  destruct (decide (s = dot)) as [->|Hd]; [done|]. destruct (decide (s = dotdot)) as [->|Hdd]; [done|].
  rewrite !bool_decide_false by congruence. cbn. by rewrite !app_nil_r.
Qed.

End PathSpec.
