(* ===== verification/PathNormal.v ===== *)
(** * [Path::LexicallyNormal] computes the normal form

    The repeated erasing of the source is the one-pass stack machine of
    [PathSpec]; the normal form is a fixed point and leads to the same
    directory as the original text. *)

From S2P Require Import Prelude CppString Path PathSpec.
Import Path PathSpec.

Module PathNormal.

(** ** Erasing names followed by dot-dots *)

(** What the [for] loop of the source erases together with a dot-dot. *)
Definition poppable (x : str) : bool :=
  negb (bool_decide (x = dotdot)) && negb (starts x).

Definition push (stack : list str) (x : str) : list str :=
  if decide (x = dotdot) then
    match stack with
    | top :: stack' => if poppable top then stack' else x :: stack
    | [] => [x]
    end
  else x :: stack.

(** No dot-dot of the stack lies on something it would erase. *)
Fixpoint stack_ok (stack : list str) : Prop :=
  match stack with
  | [] => True
  | x :: stack' => push stack' x = stack ∧ stack_ok stack'
  end.

Lemma stack_ok_foldl stack : stack_ok stack → foldl push [] (reverse stack) = stack.
Proof.
  induction stack as [|x stack IH]; [done|]. intros [Hx Hs].
  rewrite reverse_cons, foldl_app, IH by done. done.
Qed.

Lemma stack_ok_app stack l :
  stack_ok stack → foldl push [] (reverse stack ++ l) = foldl push stack l.
Proof. intros H. by rewrite foldl_app, stack_ok_foldl. Qed.

Lemma removelast_app_Forall (P : str → Prop) l1 l2 :
  Forall P l1 → Forall P (removelast l2) → Forall P (removelast (l1 ++ l2)).
Proof.
  intros H1 H2. destruct l2 as [|x l2].
  - rewrite app_nil_r. clear H2. induction H1 as [|y l ? H IH]; [done|].
    destruct l; [done|]. by constructor.
  - rewrite removelast_app by done. by apply Forall_app.
Qed.

Lemma erase_test previous current :
  previous ≠ [] →
  (if bool_decide (current = dotdot) && negb (bool_decide (previous = dotdot))
   then c ← front previous; Ret (negb (bool_decide (c = preferred_separator)))
   else Ret false) = Ret (bool_decide (current = dotdot) && poppable previous).
Proof.
  intros Hp. destruct previous as [|c previous]; [done|]. unfold poppable.
  destruct (bool_decide (current = dotdot)); [|done].
  by destruct (bool_decide (c :: previous = dotdot)).
Qed.

Lemma push_cons previous before current :
  push (previous :: before) current =
  if bool_decide (current = dotdot) && poppable previous then before
  else current :: previous :: before.
Proof.
  unfold push. destruct (decide (current = dotdot)) as [->|]; [done|]. by rewrite bool_decide_false.
Qed.

Lemma erase_first_pair_spec before previous rest :
  Forall (λ x, x ≠ []) before → Forall (λ x, x ≠ []) (removelast (previous :: rest)) →
  stack_ok (previous :: before) →
  match erase_first_pair before previous rest with
  | Ret None => foldl push (previous :: before) rest = reverse rest ++ previous :: before
  | Ret (Some l) =>
      foldl push (previous :: before) rest = foldl push [] l ∧
      length l < length before + 1 + length rest ∧ Forall (λ x, x ≠ []) (removelast l)
  | _ => False
  end.
Proof.
  revert before previous. induction rest as [|current rest IH]; intros before previous Hb Hne Hok.
  { done. }
  assert (previous ≠ [] ∧ Forall (λ x, x ≠ []) (removelast (current :: rest))) as [Hp Hne'].
  { by apply Forall_cons in Hne. }
  cbn [erase_first_pair foldl]. rewrite erase_test, push_cons by done. cbn [mbind outcome_bind].
  pose proof (push_cons previous before current) as Hpush.
  destruct (bool_decide (current = dotdot) && poppable previous).
  - destruct Hok as [_ Hok]. rewrite stack_ok_app by done.
    rewrite length_app, length_reverse. simpl. split_and!; [done|lia|].
    apply removelast_app_Forall; [by apply Forall_reverse|].
    destruct rest; [done|]. by apply Forall_cons in Hne' as [_ ?].
  - specialize (IH (previous :: before) current). cbn [length] in *.
    destruct (erase_first_pair (previous :: before) current rest) as [[l|]| |].
    + destruct IH as (-> & ? & ?); [by constructor|done|done|]. split_and!; [done|lia|done].
    + rewrite IH, reverse_cons, <- (assoc_L (++)); [done|by constructor|done|done].
    + apply IH; [by constructor|done|done].
    + apply IH; [by constructor|done|done].
Qed.

Lemma RemoveFileNames_loop_spec fuel l :
  length l < fuel → Forall (λ x, x ≠ []) (removelast l) →
  RemoveFileNames_loop fuel l = Ret (reverse (foldl push [] l)).
Proof.
  revert l. induction fuel as [|fuel IH]; intros l Hf Hne; [lia|].
  destruct l as [|x l]; [done|]. cbn [RemoveFileNames_loop].
  assert (push [] x = [x]) as Hx by (unfold push; by case_decide).
  pose proof (erase_first_pair_spec [] x l (Forall_nil_2 _) Hne) as H.
  assert (stack_ok [x]) as Hok by done. specialize (H Hok). cbn [foldl]. rewrite Hx.
  destruct (erase_first_pair [] x l) as [[l'|]| |]; [|..|done|done]; cbn [mbind outcome_bind].
  - destruct H as (-> & ? & ?). simpl in *. apply IH; [lia|done].
  - by rewrite H, reverse_app, reverse_involutive.
Qed.

Lemma RemoveFileNames_spec l :
  Forall (λ x, x ≠ []) (removelast l) →
  RemovePotentialFileNamesFollowedByMoveUpsAndSeparator l = Ret (reverse (foldl push [] l)).
Proof. intros. apply RemoveFileNames_loop_spec; [lia|done]. Qed.

(** ** From [push] to the stack machine of the specification *)

Lemma proper_starts x : proper x → starts x = false.
Proof.
  intros [Hx Hs]. destruct x as [|c x]; [done|]. simpl. apply bool_decide_false.
  set_solver.
Qed.

Lemma foldl_push_root stack l :
  foldl push (stack ++ [[sep]]) l = foldl push stack l ++ [[sep]].
Proof.
  revert stack. induction l as [|x l IH]; intros stack; [done|]. cbn [foldl].
  rewrite <- IH. f_equal. unfold push. case_decide; [|done].
  destruct stack as [|top stack]; [by subst|]. simpl. by destruct (poppable top).
Qed.

Lemma foldl_step_filter b stack l :
  foldl (step b) stack l = foldl (step b) stack (filter (λ x, x ≠ dot) l).
Proof.
  revert stack. induction l as [|x l IH]; intros stack; [done|].
  destruct (decide (x = dot)) as [->|Hx].
  - rewrite filter_cons_False by naive_solver. apply IH.
  - rewrite filter_cons_True by done. apply IH.
Qed.

(** The two kinds of stack differ in the dot-dots at the bottom. *)
Lemma push_steps l stack n :
  Forall proper stack → dotdot ∉ stack → Forall proper l → dot ∉ l →
  ∃ stack' n',
    foldl push (stack ++ replicate n dotdot) l = stack' ++ replicate n' dotdot ∧
    foldl (step false) (stack ++ replicate n dotdot) l = stack' ++ replicate n' dotdot ∧
    foldl (step true) stack l = stack' ∧
    Forall proper stack' ∧ dotdot ∉ stack'.
Proof.
  revert stack n. induction l as [|x l IH]; intros stack n Hp Hd Hl Hdot.
  { eauto 10. }
  apply Forall_cons in Hl as [Hx Hl]. apply not_elem_of_cons in Hdot as [Hxd Hdot].
  cbn [foldl]. unfold push at 2, step at 2 4. rewrite !(decide_False (P := x = dot)) by done.
  destruct (decide (x = dotdot)) as [->|Hxdd].
  - destruct stack as [|top stack]; simpl.
    + assert (match replicate n dotdot with
              | [] => [dotdot]
              | top :: stack' => if poppable top then stack' else dotdot :: replicate n dotdot
              end = replicate (S n) dotdot) as -> by by destruct n.
      assert (match replicate n dotdot with
              | [] => [dotdot]
              | top :: stack' =>
                  if decide (top = dotdot) then dotdot :: replicate n dotdot else stack'
              end = replicate (S n) dotdot) as -> by by destruct n.
      apply (IH [] (S n)); auto.
    + apply Forall_cons in Hp as [Htop Hp]. apply not_elem_of_cons in Hd as [Htd Hd].
      unfold poppable. rewrite bool_decide_false, proper_starts, !decide_False by done. simpl.
      by apply IH.
  - apply (IH (x :: stack) n); [by constructor|set_solver|done|done].
Qed.

Lemma erase_leading_dotdot_app n l t :
  dotdot ∉ l → dotdot ∉ t →
  erase_leading_dotdot (replicate n dotdot ++ l ++ t) = l ++ t.
Proof.
  intros. induction n as [|n IH]; [|done]. simpl.
  destruct (l ++ t) as [|x r] eqn:E; [done|]. simpl. rewrite decide_False; [done|].
  assert (x ∈ l ++ t) by (rewrite E; set_solver). set_solver.
Qed.

(** The reduced names, before the dot-dots below the root are erased. *)
Lemma reduce_spec l :
  Forall proper l → dot ∉ l →
  ∃ n, reverse (foldl push [] l) = reduce false l ∧
       reduce false l = replicate n dotdot ++ reduce true l ∧
       dotdot ∉ reduce true l ∧ Forall proper (reduce true l).
Proof.
  intros Hl Hd. destruct (push_steps l [] 0) as (st & n & H1 & H2 & H3 & H4 & H5); auto.
  { set_solver. }
  exists n. unfold reduce. simpl in *. rewrite H1, H2, H3.
  rewrite reverse_app, reverse_replicate. split_and!; try done.
  - by rewrite elem_of_reverse.
  - by apply Forall_reverse.
Qed.

Lemma elem_of_foldl_step b x stack l : x ∈ foldl (step b) stack l → x ∈ stack ∨ x ∈ l ∧ x ≠ dot.
Proof.
  revert stack. induction l as [|y l IH]; intros stack; simpl; [auto|].
  intros [H|H]%IH; [|set_solver]. revert H. unfold step.
  repeat case_match; set_solver.
Qed.

Lemma elem_of_reduce b x l : x ∈ reduce b l → x ∈ l ∧ x ≠ dot.
Proof. unfold reduce. rewrite elem_of_reverse. intros [?|?]%elem_of_foldl_step; set_solver. Qed.

Lemma reduce_proper b l : Forall proper l → Forall proper (reduce b l).
Proof. rewrite !Forall_forall. intros H x [? _]%elem_of_reduce. auto. Qed.

Lemma reduce_filter b l : reduce b l = reduce b (filter (λ x, x ≠ dot) l).
Proof. unfold reduce. by rewrite foldl_step_filter. Qed.

Lemma dotdot_reduce_true l : Forall proper l → dotdot ∉ reduce true l.
Proof.
  intros Hl. rewrite reduce_filter.
  destruct (reduce_spec (filter (λ x, x ≠ dot) l)) as (n & _ & _ & ? & _); [| |done].
  - rewrite Forall_forall in *. intros x [_ ?]%list_elem_of_filter. auto.
  - intros [? _]%list_elem_of_filter. done.
Qed.

(** ** The phases of [LexicallyNormal] *)

(** The root component and the empty component of a trailing separator. *)
Definition root (b : bool) : list str := if b then [[sep]] else [].
Definition trail (b : bool) : list str := if b then [[]] else [].

Lemma filter_components s :
  filter (λ x, x ≠ dot) (components s) =
  root (starts s) ++ filter (λ x, x ≠ dot) (names s) ++
  trail (ends s && negb (bool_decide (names s = []))).
Proof.
  unfold components. rewrite !filter_app. f_equal; [by destruct (starts s)|]. f_equal.
  by destruct (_ && _).
Qed.

Lemma phase5 b t l :
  Forall proper l → dot ∉ l →
  RemovePotentialFileNamesFollowedByMoveUpsAndSeparator (root b ++ l ++ trail t) =
  Ret (root b ++ reduce false l ++ trail t).
Proof.
  intros Hl Hd. rewrite RemoveFileNames_spec.
  - destruct (reduce_spec l Hl Hd) as (_ & <- & _). f_equal. rewrite (assoc_L (++)), foldl_app.
    assert (foldl push [] (root b ++ l) = foldl push [] l ++ root b) as ->.
    { destruct b; simpl; [apply (foldl_push_root [])|by rewrite app_nil_r]. }
    destruct b, t; simpl; unfold push at 1; simpl;
      by rewrite ?reverse_cons, ?app_nil_r, ?reverse_app.
  - rewrite (assoc_L (++)). apply removelast_app_Forall; [|by destruct t].
    apply Forall_app. split; [destruct b; by repeat constructor|].
    eapply Forall_impl; [done|]. by intros x [? _].
Qed.

Lemma phase6 b t l :
  Forall proper l → dot ∉ l → root b ++ reduce false l ++ trail t ≠ [] →
  RemovePotentialMoveUpsAndSeparatorsAfterRoot (root b ++ reduce false l ++ trail t) =
  Ret (root b ++ reduce b l ++ trail t).
Proof.
  intros Hl Hd Hne. destruct b; simpl in *.
  - destruct (reduce_spec l Hl Hd) as (n & _ & -> & ? & _). unfold RemovePotentialMoveUpsAndSeparatorsAfterRoot.
    simpl. rewrite <- (assoc_L (++)), erase_leading_dotdot_app; [done|done|destruct t; set_solver].
  - pose proof (reduce_proper false l Hl) as Hr.
    destruct (reduce false l) as [|x r]; [by destruct t|].
    apply Forall_cons in Hr as [Hx _]. apply proper_starts in Hx.
    unfold RemovePotentialMoveUpsAndSeparatorsAfterRoot. simpl. destruct x as [|c x]; [done|].
    simpl in Hx. apply bool_decide_eq_false in Hx. by rewrite decide_False.
Qed.

Lemma last_proper_split r :
  Forall proper r → r = [] ∨ ∃ r' x, r = r' ++ [x] ∧ proper x.
Proof.
  intros H. destruct r as [|x0 r0]; [auto|]. right.
  destruct (exists_last (l := x0 :: r0)) as (r' & x & E); [done|]. rewrite E in H |- *.
  apply Forall_app in H as [_ H]. apply Forall_cons in H as [? _]. eauto.
Qed.

Lemma phase7 b t r :
  Forall proper r → dot ∉ r →
  RemovePotentialTrailingDirectorySeparator (root b ++ r ++ trail t) =
  root b ++ r ++ trail (t && negb (last_is r dotdot)).
Proof.
  intros Hr Hd. unfold RemovePotentialTrailingDirectorySeparator.
  destruct (last_proper_split r Hr) as [-> | (r' & x & -> & Hx & _)].
  { by destruct b, t. }
  unfold last_is. rewrite last_snoc, !reverse_app. destruct t; cbn [trail andb].
  - rewrite !length_app, (proj2 (Nat.leb_le _ _)) by (simpl; lia).
    rewrite reverse_singleton. simpl.
    assert (x ≠ dot) by set_solver. destruct (decide (x = dotdot)) as [->|].
    + rewrite decide_True by auto. rewrite bool_decide_true by done. simpl.
      by rewrite app_nil_r, (assoc_L (++)), removelast_last.
    + rewrite decide_False by naive_solver. by rewrite bool_decide_false by naive_solver.
  - case_match; [|done]. simpl. by destruct x.
Qed.

Lemma CreatePathString_true acc l :
  CreatePathString_loop true acc l = acc ++ concat ((λ y, sep :: y) <$> l).
Proof.
  revert acc. induction l as [|x l IH]; intros acc; simpl; [by rewrite app_nil_r|].
  assert (match x with [] => true | c :: _ => if decide (c = sep) then true else true end = true) as ->
    by (repeat case_match; done).
  rewrite IH. by rewrite <- !(assoc_L (++)).
Qed.

Lemma phase8 b t r :
  Forall proper r →
  CreatePathStringFromParts (root b ++ r ++ trail t) =
  concat (root b) ++ join r ++ (if t && negb (bool_decide (r = [])) then [sep] else []).
Proof.
  intros Hr. unfold CreatePathStringFromParts.
  assert (∀ acc, CreatePathString_loop false acc (r ++ trail t) =
    acc ++ join r ++ (if t && negb (bool_decide (r = [])) then [sep] else [])) as H.
  { intros acc. destruct Hr as [|x r Hx Hr]; [destruct t; simpl; by rewrite ?app_nil_r|].
    apply proper_starts in Hx as Hs. destruct Hx as [Hx _]. destruct x as [|c x]; [done|].
    simpl in Hs. apply bool_decide_eq_false in Hs. simpl. rewrite decide_False by done.
    rewrite CreatePathString_true, fmap_app, concat_app. rewrite <- !(assoc_L (++)).
    rewrite andb_true_r. f_equal. simpl. f_equal. by destruct t. }
  destruct b; [apply (H [sep])|apply (H [])].
Qed.

Lemma starts_front s : s ≠ [] → ∃ c, front s = Ret c ∧ starts s = bool_decide (c = sep).
Proof. destruct s as [|c s]; [done|]. simpl. eauto. Qed.

Lemma last_component s :
  1 < length (components s) →
  last (components s) = if ends s then Some [] else last (names s).
Proof.
  intros H%components_names. unfold components. rewrite bool_decide_false, andb_true_r by done.
  destruct (ends s); [by rewrite (assoc_L (++)), last_snoc|].
  rewrite app_nil_r. rewrite last_app. by destruct (last (names s)) eqn:E; [|apply last_None in E].
Qed.

Lemma phase9 p t r text :
  wf p → 1 < length (components (native_path_ p)) → root (starts (native_path_ p)) ++ r ≠ [] →
  (starts (native_path_ p) → dotdot ∉ r) → t = ends (native_path_ p) →
  AddPreferredSeperatorIfNeeded p
    (root (starts (native_path_ p)) ++ r ++ trail (t && negb (last_is r dotdot))) text =
  Ret (text ++ if negb t && (last_is (names (native_path_ p)) dot || last_is (names (native_path_ p)) dotdot)
                 && negb (bool_decide (r = [])) && negb (last_is r dotdot)
               then [sep] else []).
Proof.
  intros Hwf Hlen Hne Hdd ->. apply wf_parts in Hwf. unfold AddPreferredSeperatorIfNeeded.
  set (s := native_path_ p) in *.
  assert (last (parts_ p) = unparsed <$> last (components s)) as Hlast.
  { rewrite Hwf. unfold kept. rewrite (proj2 (Nat.eqb_neq _ _)) by lia. apply fmap_last. }
  rewrite last_component in Hlast by done. destruct (ends s); simpl.
  { rewrite (back_last _ _ Hlast). simpl. by rewrite app_nil_r. }
  assert (names s ≠ []) as Hn by by apply components_names.
  destruct (last (names s)) as [x|] eqn:Ex; [|by apply last_None in Ex].
  rewrite (back_last _ _ Hlast). simpl. unfold last_is. rewrite Ex.
  assert (∀ y, bool_decide (x = y) = bool_decide (Some x = Some y)) as Hbd.
  { intros y. apply bool_decide_ext. naive_solver. }
  rewrite !Hbd. destruct (_ || _); [|by rewrite app_nil_r]. simpl.
  destruct (starts_front s) as (c & -> & Hst); [intros ->; simpl in Hlen; lia|]. simpl.
  destruct r as [|y0 r0].
  - destruct (starts s); [|done]. simpl. symmetry in Hst. apply bool_decide_eq_true in Hst.
    by rewrite decide_True, app_nil_r.
  - destruct (exists_last (l := y0 :: r0)) as (r' & y & ->); [done|].
    rewrite app_nil_r, last_snoc, (assoc_L (++)), back_snoc. simpl.
    rewrite (bool_decide_false (r' ++ [y] = [])) by by destruct r'. simpl.
    rewrite (bool_decide_ext (Some y = Some dotdot) (y = dotdot)) by naive_solver.
    destruct (decide (y = dotdot)) as [->|]; [by rewrite bool_decide_true, app_nil_r|].
    rewrite bool_decide_false by done. simpl. case_match eqn:Hl; [done|].
    apply negb_false_iff, Nat.eqb_eq in Hl. rewrite length_app in Hl. simpl in Hl.
    destruct (starts s); simpl in Hl; [lia|]. symmetry in Hst. apply bool_decide_eq_false in Hst.
    by rewrite decide_False.
Qed.

Lemma final_text b t d r :
  (b = false → r ≠ []) → (b → dotdot ∉ r) →
  (concat (root b) ++ join r ++
     (if t && negb (last_is r dotdot) && negb (bool_decide (r = [])) then [sep] else [])) ++
  (if negb t && d && negb (bool_decide (r = [])) && negb (last_is r dotdot) then [sep] else []) =
  normal_text b (t || d) r.
Proof.
  intros Hb Hdd. unfold normal_text. destruct r as [|x r].
  { destruct b; [|by destruct Hb]. by destruct t, d. }
  rewrite !(bool_decide_false (x :: r = [])), !andb_true_r by done.
  destruct b; cbn [root concat app].
  - assert (last_is (x :: r) dotdot = false) as ->.
    { apply bool_decide_false. intros H%last_Some_elem_of. by apply Hdd. }
    destruct t, d; cbn [negb andb orb]; by rewrite ?app_nil_r.
  - destruct t, d, (last_is (x :: r) dotdot); cbn [negb andb orb]; by rewrite ?app_nil_r.
Qed.

Lemma LexicallyNormal_make p : wf p → LexicallyNormal p = make (normalised (native_path_ p)).
Proof.
  intros Hwf. unfold LexicallyNormal, normalised, normal_form. apply wf_parts in Hwf as Hparts.
  set (s := native_path_ p) in *.
  case_decide as Hp.
  { rewrite Hp in Hparts. symmetry in Hparts. apply kept_nil in Hparts.
    by rewrite (proj2 (Nat.leb_le _ _)). }
  assert (1 < length (components s)) as Hlen.
  { apply Nat.nle_gt. rewrite <- kept_nil. congruence. }
  rewrite (proj2 (Nat.leb_gt _ _)) by done. rewrite (decide_False (P := s = [])) by (intros E; by rewrite E in Hlen; apply Nat.nlt_0_r in Hlen).
  rewrite Hparts, kept_native, filter_components by done.
  rewrite (bool_decide_false (names s = [])), andb_true_r by by apply components_names.
  set (l := filter _ (names s)). assert (Forall proper l ∧ dot ∉ l) as [Hl Hd].
  { split; [|unfold l; intros [? _]%list_elem_of_filter; done].
    pose proof (names_all_proper s) as H. rewrite Forall_forall in *.
    intros x [_ ?]%list_elem_of_filter. auto. }
  assert (reduce (starts s) (names s) = reduce (starts s) l) as -> by apply reduce_filter.
  set (b := starts s) in *. set (t := ends s) in *. set (r := reduce b l).
  assert (Forall proper r) as Hr by by apply reduce_proper.
  assert (dot ∉ r) as Hrd by (intros [_ ?]%elem_of_reduce; done).
  assert (b → dotdot ∉ r) as Hrr. { unfold r. destruct b; [|done]. intros _. by apply dotdot_reduce_true. }
  assert (∀ t' : bool, root b ++ l ++ trail t' = [] → b = false ∧ r = []) as Hempty1.
  { unfold r. intros t'. destruct b, t', l; naive_solver. }
  assert (root b ++ reduce false l ++ trail t = [] → b = false ∧ r = []) as Hempty2.
  { unfold r. destruct b, t, (reduce false l); naive_solver. }
  case_decide as H1; [by destruct (Hempty1 t H1) as [-> ->]|].
  rewrite phase5 by done. simpl. case_decide as H2; [by destruct (Hempty2 H2) as [-> ->]|].
  rewrite phase6 by done. simpl. rewrite phase7, phase8 by done.
  fold r. clearbody r. clear H1 H2 Hempty1 Hempty2.
  case_decide as H3.
  { apply app_eq_nil in H3 as [Hb [Hr0 _]%app_eq_nil]. destruct b; [done|].
    by destruct Hr as [|[|c x] r [? _] _]. }
  assert (b = false → r ≠ []) as Hne.
  { intros Hb ->. apply H3. by rewrite Hb, bool_decide_true, andb_false_r. }
  rewrite (phase9 p t r); try done.
  - simpl. f_equal. fold s b. rewrite <- orb_assoc. by apply final_text.
  - intros H. apply app_eq_nil in H as [Hb Hr0]. fold s b in Hb. destruct b; [done|]. by apply Hne.
Qed.

(** ** The normal form is reduced *)

Lemma foldl_step_plain b stack l :
  dot ∉ l → dotdot ∉ l → foldl (step b) stack l = reverse l ++ stack.
Proof.
  revert stack. induction l as [|x l IH]; intros stack Hd Hdd; [done|].
  apply not_elem_of_cons in Hd as [? ?], Hdd as [? ?]. cbn [foldl].
  rewrite IH by done. unfold step. rewrite !decide_False by done.
  by rewrite reverse_cons, <- (assoc_L (++)).
Qed.

Lemma foldl_step_dotdots n m :
  foldl (step false) (replicate m dotdot) (replicate n dotdot) = replicate (n + m) dotdot.
Proof.
  revert m. induction n as [|n IH]; intros m; [done|]. cbn [replicate foldl].
  assert (step false (replicate m dotdot) dotdot = replicate (S m) dotdot) as -> by by destruct m.
  rewrite IH. f_equal. lia.
Qed.

(** Leading dot-dots, none of them below the root, then plain names. *)
Lemma reduce_shape b l :
  Forall proper l →
  ∃ n l', reduce b l = replicate n dotdot ++ l' ∧ dot ∉ l' ∧ dotdot ∉ l' ∧ (b → n = 0).
Proof.
  intros Hl. rewrite reduce_filter. set (l0 := filter _ l).
  assert (Forall proper l0 ∧ dot ∉ l0) as [Hl0 Hd].
  { split; [|unfold l0; intros [? _]%list_elem_of_filter; done]. rewrite Forall_forall in *.
    intros x [_ ?]%list_elem_of_filter. auto. }
  destruct (reduce_spec l0 Hl0 Hd) as (n & _ & Hn & ? & _).
  assert (dot ∉ reduce true l0) by (intros [? _]%elem_of_reduce; done).
  destruct b; [exists 0|exists n]; exists (reduce true l0); by rewrite ?Hn.
Qed.

Lemma reduce_idempotent b l : Forall proper l → reduce b (reduce b l) = reduce b l.
Proof.
  intros Hl. destruct (reduce_shape b l Hl) as (n & l' & -> & ? & ? & Hb).
  unfold reduce. rewrite foldl_app. destruct b.
  - rewrite Hb by done. simpl. by rewrite foldl_step_plain, app_nil_r, reverse_involutive.
  - pose proof (foldl_step_dotdots n 0) as Hn. rewrite Nat.add_0_r in Hn. simpl in Hn.
    rewrite Hn, foldl_step_plain by done.
    by rewrite reverse_app, reverse_involutive, reverse_replicate.
Qed.

(** ** The text of the normal form *)

Lemma names_normal_text b t r :
  Forall proper r →
  names (normal_text b t r) = if bool_decide (r = []) && negb b then [dot] else r.
Proof.
  intros Hr. assert (∀ c : bool, names (join r ++ if c then [sep] else []) = r) as H.
  { intros []; rewrite ?names_snoc, ?app_nil_r; by apply names_join. }
  unfold normal_text. destruct b.
  - rewrite names_sep, H. by destruct r.
  - destruct r as [|x r]; [done|]. by rewrite H.
Qed.

Lemma starts_normal_text b t r : Forall proper r → starts (normal_text b t r) = b.
Proof.
  intros Hr. unfold normal_text. destruct b; [done|].
  destruct Hr as [|x r Hx _]; [done|]. apply proper_starts in Hx as Hs.
  destruct x as [|c x]; [by destruct Hx|]. done.
Qed.

Lemma ends_app_snoc s : ends (s ++ [sep]) = true.
Proof. unfold ends. by rewrite last_snoc. Qed.

Lemma ends_join r s : Forall proper r → r ≠ [] → ends (s ++ join r) = false.
Proof.
  intros Hr Hne. destruct (last_proper_split r Hr) as [->|(r' & x & -> & Hx & Hs)]; [done|].
  assert (∃ u, join (r' ++ [x]) = u ++ x) as [u ->].
  { destruct r' as [|y r']; simpl; [exists []; by rewrite app_nil_r|].
    rewrite fmap_app, concat_app. simpl. exists (y ++ concat ((λ y, sep :: y) <$> r') ++ [sep]).
    by rewrite app_nil_r, <- !(assoc_L (++)). }
  destruct (exists_last Hx) as (v & c & ->). unfold ends.
  rewrite !(assoc_L (++)), last_snoc. apply bool_decide_false. set_solver.
Qed.

Lemma ends_normal_text (b t : bool) r :
  Forall proper r → r ≠ [] → (b → dotdot ∉ r) →
  ends (normal_text b t r) = t && negb (last_is r dotdot).
Proof.
  intros Hr Hne Hdd. unfold normal_text. rewrite (bool_decide_false (r = [])) by done.
  rewrite andb_true_r. destruct b.
  - assert (last_is r dotdot = false) as ->.
    { apply bool_decide_false. intros H%last_Some_elem_of. by apply Hdd. }
    destruct t; simpl; [apply (ends_app_snoc (sep :: _))|].
    rewrite app_nil_r. by apply (ends_join r [sep]).
  - destruct r as [|x r]; [done|]. destruct (t && _); [apply ends_app_snoc|].
    rewrite app_nil_r. by apply (ends_join (x :: r) []).
Qed.

Lemma normalised_cases s :
  length (components s) ≤ 1 ∧ normalised s = s ∨
  ∃ t, 1 < length (components s) ∧
       normalised s = normal_text (starts s) t (reduce (starts s) (names s)).
Proof.
  unfold normalised, normal_form. destruct (Nat.leb_spec (length (components s)) 1) as [|Hl]; [eauto|].
  rewrite decide_False by (intros ->; by apply Nat.nlt_0_r in Hl). eauto.
Qed.

Lemma normal_text_fixed (b t : bool) r :
  Forall proper r → dot ∉ r → (b → dotdot ∉ r) → reduce b r = r →
  normalised (normal_text b t r) = normal_text b t r.
Proof.
  intros Hr Hd Hdd Hred. unfold normalised, normal_form. case_match; [done|]. case_decide as Hnil; [by rewrite Hnil|].
  rewrite names_normal_text, starts_normal_text by done.
  destruct r as [|x0 r0] eqn:E; rewrite <- E in *.
  { subst r. destruct b; [|done]. unfold normal_text, reduce; simpl. by rewrite !andb_false_r. }
  rewrite (bool_decide_false (r = [])) by (by subst). simpl. rewrite Hred.
  rewrite ends_normal_text by (subst; done).
  assert (last_is r dot = false) as ->.
  { apply bool_decide_false. by intros ?%last_Some_elem_of. }
  rewrite orb_false_r. unfold normal_text. destruct b.
  - assert (last_is r dotdot = false) as ->; [|by rewrite andb_true_r, orb_false_r].
    apply bool_decide_false. intros H1%last_Some_elem_of. by apply Hdd.
  - rewrite E. rewrite <- E. by destruct t, (last_is r dotdot).
Qed.

Lemma normalised_fixed s : normalised (normalised s) = normalised s.
Proof.
  destruct (normalised_cases s) as [[_ E]|(t & Hlen & E)]; [by rewrite !E|].
  pose proof (names_all_proper s). rewrite E. apply normal_text_fixed.
  - by apply reduce_proper.
  - intros [_ ?]%elem_of_reduce; done.
  - destruct (starts s); [|done]. intros _. by apply dotdot_reduce_true.
  - by apply reduce_idempotent.
Qed.

(** ** The normal form leads to the same directory *)

Lemma walk_reduce (b : bool) dir stack l :
  dot ∉ stack → (b → dir = []) →
  foldl walk dir (reverse (foldl (step b) stack l)) = foldl walk (foldl walk dir (reverse stack)) l.
Proof.
  revert stack. induction l as [|x l IH]; intros stack Hd Hb; [done|]. cbn [foldl].
  assert (foldl walk dir (reverse (step b stack x)) = walk (foldl walk dir (reverse stack)) x) as Hstep.
  { unfold step. destruct (decide (x = dot)) as [->|Hx]; [done|].
    destruct (decide (x = dotdot)) as [->|Hxx]; [|by rewrite reverse_cons, foldl_app].
    destruct stack as [|top stack]; [destruct b; [by rewrite Hb|done]|].
    destruct (decide (top = dotdot)) as [->|Ht]; [by rewrite (reverse_cons (_ :: _)), foldl_app|].
    rewrite reverse_cons, foldl_app. cbn [foldl]. apply not_elem_of_cons in Hd as [? _].
    unfold walk at 3. rewrite !decide_False by done. done. }
  rewrite IH; [by rewrite Hstep| |done].
  intros [? | [? ?]]%(elem_of_foldl_step b _ stack [x]); set_solver.
Qed.

Lemma resolve_normalised cwd s : resolve cwd (normalised s) = resolve cwd s.
Proof.
  destruct (normalised_cases s) as [[_ ->]|(t & _ & ->)]; [done|].
  pose proof (names_all_proper s) as Hp. unfold resolve.
  rewrite starts_normal_text, names_normal_text by by apply reduce_proper.
  set (dir := if starts s then [] else cwd).
  assert (foldl walk dir (reduce (starts s) (names s)) = foldl walk dir (names s)) as H.
  { apply (walk_reduce _ dir []); [set_solver|]. unfold dir. by destruct (starts s). }
  rewrite <- H. destruct (bool_decide _) eqn:E; [|done]. apply bool_decide_eq_true in E. rewrite E.
  by destruct (starts s).
Qed.

Lemma LexicallyNormal_native p q :
  wf p → LexicallyNormal p = Ret q → wf q ∧ native_path_ q = normalised (native_path_ p).
Proof. intros Hp. rewrite LexicallyNormal_make by done. apply make_wf. Qed.

(** ** Correctness of [LexicallyNormal] *)

(** C29: On every well-formed path [LexicallyNormal] returns (its loops end and
    no empty string or list is read), the returned path is well formed, and its
    text is the normal form of the algorithm that the code quotes, computed in one
    pass by a stack machine.  A path of two and more separators is the exception:
    it stays as it is, while its normal form is a single separator. *)
Theorem lexically_normal_refines p :
  wf p → ∃ q, LexicallyNormal p = Ret q ∧ wf q ∧
    (names (native_path_ p) ≠ [] ∨ length (native_path_ p) ≤ 1 → native_path_ q = normal_form (native_path_ p)) ∧
    (names (native_path_ p) = [] → native_path_ q = native_path_ p).
Proof.
  intros Hp. rewrite LexicallyNormal_make, make_spec by done. eexists. split; [done|].
  split; [by rewrite wf_parts|]. cbn [native_path_]. rewrite normalised_normal_form. case_decide as Hn; [|by split].
  split; [|done]. intros [?|Hl]; [done|]. destruct (native_path_ p) as [|c [|]]; simpl in Hl; [done| |lia].
  apply names_nil in Hn. apply Forall_cons in Hn as [-> _]. done.
Qed.

Lemma lexically_normal_refines_witness :
  ∃ p q, make (s! "hey/bla/../bla2/./../../../bla-bla/") = Ret p ∧ LexicallyNormal p = Ret q ∧
         native_path_ q = s! "../bla-bla/".
Proof.
  eexists. destruct (lexically_normal_refines
    (mkPath (s! "hey/bla/../bla2/./../../../bla-bla/")
       (kept (components (s! "hey/bla/../bla2/./../../../bla-bla/"))))) as (q & Hq & _ & Hn & _).
  { vm_compute. reflexivity. }
  exists q. split; [vm_compute; reflexivity|]. split; [exact Hq|]. rewrite Hn by (by left; vm_compute). vm_compute. reflexivity.
Defined.

(** The example of the documentation keeps the separator before a dot-dot that
    goes away, as the algorithm asks. *)
Example documented_normal_form :
  (p ← make (s! "/../../foo/./bar/hello/.."); q ← LexicallyNormal p; Ret (native_path_ q)) = Ret (s! "/foo/bar/")
  ∧ normal_form (s! "/../../foo/./bar/hello/..") = s! "/foo/bar/"
  ∧ (p ← make (s! "//"); q ← LexicallyNormal p; Ret (native_path_ q)) = Ret (s! "//")
  ∧ normal_form (s! "//") = s! "/".
Proof. by vm_compute. Qed.

(** Normalising a normalised path changes nothing. *)
Theorem lexically_normal_idempotent p q :
  wf p → LexicallyNormal p = Ret q → LexicallyNormal q = Ret q.
Proof.
  intros Hp (Hq & E)%LexicallyNormal_native; [|done].
  rewrite LexicallyNormal_make, E, normalised_fixed, <- E, make_spec by done.
  apply wf_parts in Hq. rewrite <- Hq. by destruct q.
Qed.

Lemma lexically_normal_idempotent_witness :
  ∃ q, LexicallyNormal q = Ret q ∧ native_path_ q = s! "/b/".
Proof.
  set (s := s! "/../a//../b/.").
  exists (mkPath (s! "/b/") (kept (components (s! "/b/")))). split; [|reflexivity].
  apply (lexically_normal_idempotent (mkPath s (kept (components s)))); vm_compute; reflexivity.
Defined.

(** Without symbolic links, a path and its normal form lead to the same
    directory from every working directory. *)
Theorem lexically_normal_same_directory cwd p q :
  wf p → LexicallyNormal p = Ret q →
  resolve cwd (native_path_ q) = resolve cwd (native_path_ p).
Proof. intros Hp (_ & ->)%LexicallyNormal_native; [|done]. apply resolve_normalised. Qed.

Lemma lexically_normal_same_directory_witness :
  resolve [s! "work"; s! "home"] (s! "../x/y/") = [s! "y"; s! "x"; s! "home"].
Proof.
  set (s := s! "a/../../x/./y/z/..").
  rewrite (lexically_normal_same_directory _ (mkPath s (kept (components s)))
             (mkPath (s! "../x/y/") (kept (components (s! "../x/y/")))));
    vm_compute; reflexivity.
Defined.

(** The normal form of a path with several components is a single dot, or
    its dot-dots all come first, below the root there are none, no dot is
    left, and single separators join the names. *)
Theorem lexically_normal_shape p q :
  wf p → LexicallyNormal p = Ret q → parts_ p ≠ [] →
  native_path_ q = dot ∨
  ∃ n l, names (native_path_ q) = replicate n dotdot ++ l ∧ dot ∉ l ∧ dotdot ∉ l ∧
         (IsAbsolute q = true → n = 0) ∧
         native_path_ q = (if IsAbsolute q then [sep] else []) ++ join (replicate n dotdot ++ l) ++
                          (if ends (native_path_ q) && negb (bool_decide (names (native_path_ q) = []))
                           then [sep] else []).
Proof.
  intros Hp Hq Hparts. pose proof (LexicallyNormal_native p q Hp Hq) as [_ E].
  apply wf_parts in Hp. rewrite Hp, kept_nil in Hparts.
  destruct (normalised_cases (native_path_ p)) as [[? _]|(t & _ & En)]; [done|].
  rewrite En in E. pose proof (names_all_proper (native_path_ p)) as Hn.
  destruct (reduce_shape (starts (native_path_ p)) _ Hn) as (n & l & Hr & Hd & Hdd & Hb).
  pose proof (reduce_proper (starts (native_path_ p)) _ Hn) as Hprop.
  assert (IsAbsolute q = starts (native_path_ p)) as ->.
  { change (IsAbsolute q) with (starts (native_path_ q)). rewrite E. by apply starts_normal_text. }
  set (b := starts (native_path_ p)) in *. clearbody b. rewrite Hr in *.
  destruct (bool_decide (replicate n dotdot ++ l = []) && negb b) eqn:Ed.
  { left. apply andb_true_iff in Ed as [Ed%bool_decide_eq_true Eb]. rewrite E, Ed. by destruct b. }
  right. exists n, l. rewrite E, names_normal_text, Ed by done. split_and!; [done..|naive_solver|].
  destruct (bool_decide (replicate n dotdot ++ l = [])) eqn:E0.
  { apply bool_decide_eq_true in E0. rewrite E0. destruct b; [|done]. simpl. by rewrite !andb_false_r. }
  rewrite ends_normal_text; [|done|by apply bool_decide_eq_false in E0|].
  - unfold normal_text. rewrite E0, andb_true_r. destruct b; simpl; rewrite andb_true_r.
    + assert (last_is (replicate n dotdot ++ l) dotdot = false) as ->; [|by rewrite andb_true_r].
      apply bool_decide_false. rewrite Hb by done. intros ?%last_Some_elem_of. done.
    + apply bool_decide_eq_false in E0. by destruct (replicate n dotdot ++ l).
  - intros Hbt. by rewrite Hb.
Qed.

Lemma lexically_normal_shape_witness :
  let q := mkPath (s! "../b/c") (kept (components (s! "../b/c"))) in
  native_path_ q = dot ∨
  ∃ n l, names (native_path_ q) = replicate n dotdot ++ l ∧ dot ∉ l ∧ dotdot ∉ l ∧
         (IsAbsolute q = true → n = 0) ∧
         native_path_ q = (if IsAbsolute q then [sep] else []) ++ join (replicate n dotdot ++ l) ++
                          (if ends (native_path_ q) && negb (bool_decide (names (native_path_ q) = []))
                           then [sep] else []).
Proof.
  set (s := s! "a/../../b//./c").
  apply (lexically_normal_shape (mkPath s (kept (components s)))); [vm_compute; reflexivity..|].
  vm_compute. discriminate.
Defined.

End PathNormal.
