(* ===== verification/PathOps.v ===== *)
(** * Appending, decomposing and iterating paths

    The texts that [operator/=], [Filename], [Stem], [Extension],
    [ReplaceExtension], [RemoveFilename] and [ParentPath] compute, and what a
    range-based [for] over a [Path] visits. *)

From S2P Require Import Prelude CppString Path PathSpec PathNormal.
Import Path PathSpec PathNormal.

Module PathOps.

(** ** Reference definitions *)

Definition append_text (s t : str) : str :=
  if bool_decide (s = []) || starts t then t
  else if ends s then s ++ t else s ++ (sep :: t).

(** The text up to and including the last separator, and what follows it. *)
Definition dir_part (s : str) : str :=
  match find_last_of sep s with Some i => take (S i) s | None => [] end.
Definition file_part (s : str) : str :=
  match find_last_of sep s with Some i => drop (S i) s | None => s end.

(** Where a file name's extension starts. *)
Definition ext_pos (f : str) : option nat :=
  if decide (f = dot ∨ f = dotdot) then None else S <$> find_last_of "."%char (tail f).
Definition stem_part (f : str) : str :=
  match ext_pos f with Some i => take i f | None => f end.
Definition ext_part (f : str) : str :=
  match ext_pos f with Some i => drop i f | None => [] end.

(** The text without its trailing separators. *)
Fixpoint strip (s : str) : str :=
  match s with
  | [] => []
  | c :: s => match strip s with
              | [] => if decide (c = sep) then [] else [c]
              | t => c :: t
              end
  end.

Definition parent_text (s : str) : str :=
  if decide (names s = []) then s
  else match dir_part s with
       | [] => []
       | d => match strip d with [] => [sep] | t => t end
       end.

(** ** Facts *)

Lemma make_nil : make [] = Ret (mkPath [] []).
Proof. done. Qed.

Lemma make_native p : wf p → make (native_path_ p) = Ret p.
Proof. rewrite wf_parts, make_spec. intros <-. by destruct p. Qed.

Lemma ends_snoc s : ends (s ++ [sep]) = true.
Proof. unfold ends. by rewrite last_snoc. Qed.

Lemma ends_inv s : ends s = true → ∃ s', s = s' ++ [sep].
Proof.
  unfold ends. destruct (last s) eqn:E; [|done]. intros ->%bool_decide_eq_true.
  by apply last_Some.
Qed.

Lemma dir_file_spec s :
  s = dir_part s ++ file_part s ∧ sep ∉ file_part s ∧ (dir_part s = [] ∨ ends (dir_part s) = true).
Proof.
  unfold dir_part, file_part. destruct (find_last_of sep s) as [i|] eqn:E.
  - rewrite take_drop. apply find_last_of_Some in E as (s1 & s2 & -> & ? & ->).
    assert (s1 ++ (sep :: s2) = (s1 ++ [sep]) ++ s2) as -> by by rewrite <- (assoc_L (++)).
    assert (S (length s1) = length (s1 ++ [sep])) as -> by (rewrite length_app; simpl; lia).
    rewrite drop_app_length, take_app_length. split_and!; [done|done|]. right. apply ends_snoc.
  - apply find_last_of_None in E. auto.
Qed.

(** The split is unique. *)
Lemma dir_file_unique d f :
  sep ∉ f → (d = [] ∨ ends d = true) → dir_part (d ++ f) = d ∧ file_part (d ++ f) = f.
Proof.
  intros Hf [->|[d' ->]%ends_inv]; unfold dir_part, file_part.
  - simpl. by rewrite (proj2 (find_last_of_None _ _) Hf).
  - assert (find_last_of sep ((d' ++ [sep]) ++ f) = Some (length d')) as ->.
    { apply find_last_of_Some. exists d', f. by rewrite <- (assoc_L (++)). }
    assert (S (length d') = length (d' ++ [sep])) as -> by (rewrite length_app; simpl; lia).
    by rewrite drop_app_length, take_app_length.
Qed.

Lemma FilenamePosition_spec p :
  FilenamePosition p =
  if decide (file_part (native_path_ p) = []) then None else Some (length (dir_part (native_path_ p))).
Proof.
  unfold FilenamePosition, Empty, Native, file_part, dir_part. set (s := native_path_ p).
  destruct (decide (s = [])) as [->|Hs]; [done|]. rewrite bool_decide_false by done.
  destruct (find_last_of sep s) as [i|] eqn:E.
  - apply find_last_of_Some in E as (s1 & s2 & -> & ? & ->).
    assert (s1 ++ (sep :: s2) = (s1 ++ [sep]) ++ s2) as -> by by rewrite <- (assoc_L (++)).
    assert (S (length s1) = length (s1 ++ [sep])) as -> by (rewrite length_app; simpl; lia).
    rewrite drop_app_length, take_app_length, !length_app. simpl.
    destruct s2; simpl; [by rewrite Nat.add_0_r, Nat.eqb_refl|].
    by rewrite (proj2 (Nat.eqb_neq _ _)) by lia.
  - rewrite decide_False by done. by destruct s.
Qed.

Lemma drop_dir s : drop (length (dir_part s)) s = file_part s.
Proof. destruct (dir_file_spec s) as [H _]. rewrite H at 2. apply drop_app_length. Qed.

Lemma take_dir s : take (length (dir_part s)) s = dir_part s.
Proof. destruct (dir_file_spec s) as [H _]. rewrite H at 2. apply take_app_length. Qed.

Lemma length_dir s : length (dir_part s) ≤ length s.
Proof. destruct (dir_file_spec s) as [H _]. rewrite H at 2. rewrite length_app. lia. Qed.

Lemma Filename_make p : Filename p = make (file_part (native_path_ p)).
Proof.
  unfold Filename. rewrite FilenamePosition_spec. case_decide as H; [by rewrite H|].
  rewrite <- drop_dir. by destruct (length (dir_part (native_path_ p))).
Qed.

Lemma RemoveFilename_make p : wf p → RemoveFilename p = make (dir_part (native_path_ p)).
Proof.
  intros Hwf. unfold RemoveFilename. rewrite FilenamePosition_spec. case_decide as H.
  - destruct (dir_file_spec (native_path_ p)) as [E _]. rewrite H, app_nil_r in E.
    rewrite <- E. by rewrite make_native.
  - unfold erase_from. rewrite (proj2 (Nat.leb_le _ _)) by apply length_dir. simpl. by rewrite take_dir.
Qed.

Lemma ExtensionPosition_spec p :
  ExtensionPosition p =
  Ret ((λ i, length (dir_part (native_path_ p)) + i) <$> ext_pos (file_part (native_path_ p))).
Proof.
  unfold ExtensionPosition, ExtensionPosition_from. rewrite FilenamePosition_spec.
  set (s := native_path_ p). case_decide as H; [by rewrite H|]. unfold substr, Native.
  fold s. rewrite (proj2 (Nat.leb_le _ _)) by apply length_dir. simpl. rewrite drop_dir.
  unfold ext_pos. case_decide; [done|]. destruct (file_part s) as [|c f]; [done|]. simpl.
  rewrite drop_0. destruct (find_last_of "."%char f) as [i|]; cbn [fmap option_fmap option_map]; [|done].
  do 2 f_equal. lia.
Qed.

Lemma ext_pos_Some f i :
  ext_pos f = Some i ↔
  ∃ a b, f = a ++ ("."%char :: b) ∧ "."%char ∉ b ∧ a ≠ [] ∧ f ≠ dotdot ∧ i = length a.
Proof.
  unfold ext_pos. case_decide as Hf.
  - split; [done|]. intros (a & b & -> & _ & Ha & Hd & _). destruct Hf as [Hf|Hf]; [|done].
    destruct a as [|c [|]]; done.
  - rewrite fmap_Some. split.
    + intros (j & E & ->). destruct f as [|c f]; [done|]. simpl in E.
      apply find_last_of_Some in E as (a & b & -> & ? & ->). exists (c :: a), b.
      split_and!; [done|done|done|tauto|done].
    + intros (a & b & -> & Hb & Ha & Hd & ->). destruct a as [|c a]; [done|]. simpl.
      exists (length a). split; [|done]. apply find_last_of_Some. eauto.
Qed.

Lemma ext_pos_le f i : ext_pos f = Some i → i ≤ length f.
Proof. intros (a & b & -> & _ & _ & _ & ->)%ext_pos_Some. rewrite length_app. lia. Qed.

Lemma stem_ext f : stem_part f ++ ext_part f = f.
Proof. unfold stem_part, ext_part. destruct (ext_pos f); [apply take_drop|apply app_nil_r]. Qed.

(** A stem and a dotted extension are found again in the file name they form. *)
Lemma stem_ext_unique a b :
  "."%char ∉ b → a ≠ [] → b ≠ [] →
  stem_part (a ++ ("."%char :: b)) = a ∧ ext_part (a ++ ("."%char :: b)) = "."%char :: b.
Proof.
  intros Hb Ha Hne. assert (ext_pos (a ++ ("."%char :: b)) = Some (length a)) as E.
  { apply ext_pos_Some. exists a, b. split_and!; try done.
    intros Hd. destruct a as [|c [|c' [|]]], b; done. }
  unfold stem_part, ext_part. rewrite E. by rewrite take_app_length, drop_app_length.
Qed.

Lemma Extension_make p : Extension p = make (ext_part (file_part (native_path_ p))).
Proof.
  unfold Extension. rewrite ExtensionPosition_spec. simpl. unfold ext_part.
  destruct (ext_pos _) as [i|] eqn:E; [|done]. simpl. apply ext_pos_le in E.
  set (s := native_path_ p) in *. destruct (dir_file_spec s) as [Hs _].
  assert (length s = length (dir_part s) + length (file_part s)).
  { rewrite Hs at 1. apply length_app. }
  unfold substr, Native. fold s. rewrite (proj2 (Nat.leb_le _ _)) by lia. simpl.
  by rewrite <- drop_drop, drop_dir.
Qed.

Lemma Stem_make p : Stem p = make (stem_part (file_part (native_path_ p))).
Proof.
  unfold Stem. pose proof (ExtensionPosition_spec p) as HE. unfold ExtensionPosition in HE.
  rewrite FilenamePosition_spec in *. set (s := native_path_ p) in *.
  destruct (decide (file_part s = [])) as [->|Hf]; [done|]. rewrite HE. simpl. unfold stem_part.
  destruct (ext_pos _) as [i|] eqn:E; simpl; unfold substr, substr_len, Native; fold s;
    rewrite (proj2 (Nat.leb_le _ _)) by apply length_dir; simpl; rewrite drop_dir; [|done].
  by replace (length (dir_part s) + i - length (dir_part s)) with i by lia.
Qed.

Definition dotted (e : str) : str :=
  match e with
  | [] => []
  | c :: _ => if decide (c = "."%char) then e else "."%char :: e
  end.

Lemma ReplaceExtension_make p r :
  ReplaceExtension p r =
  make (dir_part (native_path_ p) ++ stem_part (file_part (native_path_ p)) ++ dotted (native_path_ r)).
Proof.
  unfold ReplaceExtension. rewrite ExtensionPosition_spec. simpl. set (s := native_path_ p).
  destruct (dir_file_spec s) as [Hs _].
  assert (match (λ i, length (dir_part s) + i) <$> ext_pos (file_part s) with
          | Some i => erase_from i s | None => Ret s end =
          Ret (dir_part s ++ stem_part (file_part s))) as Hcut.
  { unfold stem_part. destruct (ext_pos _) as [i|] eqn:E; simpl; [|by rewrite <- Hs].
    apply ext_pos_le in E. unfold erase_from.
    assert (length s = length (dir_part s) + length (file_part s)).
    { rewrite Hs at 1. apply length_app. }
    rewrite (proj2 (Nat.leb_le _ _)) by lia. f_equal. rewrite Hs at 2. by rewrite take_app_add. }
  fold s. rewrite Hcut. simpl. unfold Native, dotted.
  destruct (native_path_ r) as [|c e]; [by rewrite !app_nil_r|].
  case_decide; simpl; by rewrite <- !(assoc_L (++)).
Qed.

(** ** The parent *)

Lemma strip_snoc_sep s : strip (s ++ [sep]) = strip s.
Proof. induction s as [|c s IH]; simpl; [done|]. by rewrite IH. Qed.

Lemma strip_snoc s c : c ≠ sep → strip (s ++ [c]) = s ++ [c].
Proof.
  intros Hc. induction s as [|d s IH]; simpl; [by rewrite decide_False|]. rewrite IH.
  by destruct (s ++ [c]) eqn:E; [destruct s|].
Qed.

Lemma strip_nil s : strip s = [] ↔ Forall (.= sep) s.
Proof.
  induction s as [|c s IH]; [done|]. rewrite Forall_cons, <- IH. simpl.
  destruct (strip s); [case_decide; naive_solver|naive_solver].
Qed.

Lemma skip_separators_spec d rest :
  skip_separators (d ++ rest) (length d) =
  if decide (strip d = []) then Undefined else Ret (length (strip d)).
Proof.
  revert rest. induction d as [|c d IH] using rev_ind; intros rest; [done|].
  rewrite length_app, Nat.add_comm, <- (assoc_L (++)). cbn [length Nat.add skip_separators].
  assert (char_at (d ++ [c] ++ rest) (length d) = Ret c) as ->.
  { unfold char_at. cbn [app]. by rewrite list_lookup_middle by done. }
  cbn [mbind outcome_bind]. destruct (decide (c = sep)) as [->|Hc].
  - rewrite IH. by rewrite strip_snoc_sep.
  - rewrite strip_snoc by done. rewrite decide_False by by destruct d. rewrite length_app. simpl. f_equal. lia.
Qed.

Lemma take_strip s : take (length (strip s)) s = strip s.
Proof.
  induction s as [|c s IH] using rev_ind; [done|]. destruct (decide (c = sep)) as [->|].
  - rewrite strip_snoc_sep. rewrite take_app_le; [done|]. rewrite <- IH at 1. rewrite length_take. lia.
  - rewrite strip_snoc by done. by rewrite take_ge.
Qed.

Lemma names_strip s : names (strip s) = names s.
Proof.
  induction s as [|c s IH] using rev_ind; [done|]. destruct (decide (c = sep)) as [->|].
  - by rewrite strip_snoc_sep, names_snoc.
  - by rewrite strip_snoc.
Qed.

Lemma starts_strip s : strip s ≠ [] → starts (strip s) = starts s.
Proof. destruct s as [|c s]; simpl; [done|]. by destruct (strip s); [case_decide|]. Qed.

Lemma starts_app s t : s ≠ [] → starts (s ++ t) = starts s.
Proof. by destruct s. Qed.

(** [ParentPath] reads before the text iff nothing but separators, and at
    least two of them, precede the only name. *)
Definition reads_before_text (s : str) : Prop := ∃ n f, s = replicate (S (S n)) sep ++ f ∧ proper f.

Lemma dir_part_nil s : dir_part s = [] ↔ find_last_of sep s = None.
Proof.
  unfold dir_part. destruct (find_last_of sep s) as [i|] eqn:E; [|done]. split; [|done].
  apply find_last_of_Some in E as ([|] & ? & -> & _); done.
Qed.

Lemma Forall_sep_replicate s : Forall (.= sep) s → s = replicate (length s) sep.
Proof. induction 1 as [|c s -> _ IH]; [done|]. simpl. by f_equal. Qed.

Lemma parent_text_dir s d :
  names s ≠ [] → dir_part s = d ++ [sep] →
  parent_text s = match strip d with [] => [sep] | t => t end.
Proof.
  intros Hn Hd. unfold parent_text. rewrite decide_False, Hd, <- strip_snoc_sep by done.
  by destruct d.
Qed.

(** The three outcomes of [ParentPath]. *)
Lemma ParentPath_cases p :
  wf p →
  ¬ reads_before_text (native_path_ p) ∧ ParentPath p = make (parent_text (native_path_ p)) ∨
  reads_before_text (native_path_ p) ∧ ParentPath p = Undefined.
Proof.
  intros Hwf. unfold ParentPath, Empty. set (s := native_path_ p).
  assert (reads_before_text s → names s ≠ [] ∧ find_last_of sep s ≠ Some 0 ∧ strip (dir_part s) = []) as Hcrash.
  { intros (n & f & Hs & Hf). assert (dir_part s = replicate (S (S n)) sep) as Hd.
    { rewrite Hs. apply dir_file_unique; [by apply Hf|]. right. rewrite replicate_S_end. apply ends_snoc. }
    split_and!.
    - rewrite Hs, names_nil, Forall_app. intros [_ H]. destruct Hf as [Hne Hf].
      destruct f as [|c f]; [done|]. apply Forall_cons in H as [-> _]. set_solver.
    - unfold dir_part in Hd. intros H. rewrite H in Hd. apply (f_equal length) in Hd.
      rewrite length_take, length_replicate in Hd. lia.
    - rewrite Hd. apply strip_nil, Forall_replicate. done. }
  destruct (decide (names s = [])) as [Hn|Hn].
  { left. split; [intros H; by apply Hcrash in H as [? _]|]. unfold parent_text.
    rewrite decide_True by done. pose proof (make_native p Hwf : make s = Ret p) as Hm.
    case_bool_decide as He; [by rewrite He|].
    apply names_nil, find_first_not_of_None in Hn. unfold Native. fold s. by rewrite Hn, Hm. }
  rewrite bool_decide_false by (intros E; by rewrite E in Hn).
  destruct (find_first_not_of sep (Native p)) eqn:Efirst.
  2: { apply find_first_not_of_None in Efirst. by apply names_nil in Efirst. }
  unfold Native. fold s.
  destruct (find_last_of sep s) as [i|] eqn:Elast.
  2: { left. apply dir_part_nil in Elast as Hd. split; [|unfold parent_text; by rewrite decide_False, Hd]. intros (?&?&Hs&?).
       apply find_last_of_None in Elast. rewrite Hs in Elast. set_solver. }
  assert (dir_part s ≠ []) as Hdne by (rewrite dir_part_nil; congruence).
  apply find_last_of_Some in Elast as Hsplit. destruct Hsplit as (d & f & Hs & Hf & Hi).
  assert (dir_part s = d ++ [sep]) as Hdir.
  { unfold dir_part. rewrite Elast, Hs, Hi. change (sep :: f) with ([sep] ++ f).
    rewrite (assoc_L (++)). replace (S (length d)) with (length (d ++ [sep])) by (rewrite length_app; simpl; lia).
    apply take_app_length. }
  rewrite (parent_text_dir s d) by done. rewrite Hdir, strip_snoc_sep in *. destruct i as [|i].
  { left. split; [intros H; by apply Hcrash in H as (_ & ? & _)|]. by destruct d. }
  rewrite Hs, Hi, skip_separators_spec. destruct (decide (strip d = [])) as [Hd|Hd].
  - right. split; [|done]. apply strip_nil, Forall_sep_replicate in Hd. exists i, f.
    rewrite <- Hi in Hd. split.
    + rewrite Hd at 1. rewrite (replicate_S_end (S i)), <- (assoc_L (++)). done.
    + split; [|done]. intros ->. apply Hn. rewrite Hs, Hd, names_snoc. apply names_nil, Forall_replicate. done.
  - left. split; [intros H; rewrite <- Hs in H; by apply Hcrash in H as (_ & _ & ?)|]. simpl.
    unfold erase_from. pose proof (take_strip d) as Ht.
    assert (length (strip d) ≤ length d) by (rewrite <- Ht, length_take; lia).
    rewrite (proj2 (Nat.leb_le _ _)) by (rewrite length_app; lia). simpl.
    rewrite take_app_le by done. rewrite Ht. by destruct (strip d).
Qed.

Lemma parent_text_names s :
  starts (parent_text s) = starts s ∧
  names (parent_text s) = if ends s then names s else removelast (names s).
Proof.
  destruct (decide (names s = [])) as [Hn|Hn].
  { unfold parent_text. rewrite decide_True, Hn by done. by destruct (ends s). }
  destruct (dir_file_spec s) as (Hs & Hf & Hd). destruct Hd as [Hd|Hd].
  { unfold parent_text. rewrite decide_False, Hd in * by done. simpl in Hs. rewrite <- Hs in Hf.
    assert (s ≠ []) by (by intros ->). assert (ends s = false) as ->.
    { destruct (ends s) eqn:E; [|done]. apply ends_inv in E as [s' E]. rewrite E in Hf. set_solver. }
    rewrite (names_proper s) by (by split). destruct s as [|c s]; [done|]. simpl.
    rewrite bool_decide_false by set_solver. done. }
  apply ends_inv in Hd as [d Hd]. rewrite Hd in *.
  rewrite (parent_text_dir s d) by done.
  assert (starts (match strip d with [] => [sep] | t => t end) = starts s ∧
          names (match strip d with [] => [sep] | t => t end) = names d) as [-> ->].
  { destruct (strip d) as [|c t] eqn:E.
    - apply strip_nil in E. split; [|symmetry; by apply names_nil].
      rewrite Hs. destruct d as [|c d]; [done|]. apply Forall_cons in E as [-> _]. done.
    - rewrite <- E. rewrite names_strip, starts_strip by by rewrite E. split; [|done].
      rewrite Hs, <- (assoc_L (++)). symmetry. apply starts_app. by intros ->. }
  split; [done|].
  rewrite Hs, <- (assoc_L (++)). simpl. rewrite names_app.
  destruct (decide (file_part s = [])) as [Hf0|Hf0].
  - rewrite Hf0, ends_snoc. by rewrite app_nil_r.
  - rewrite (names_proper (file_part s)), removelast_last by (by split). destruct (ends _) eqn:E'; [|done].
    exfalso. apply ends_inv in E' as [s' E']. destruct (exists_last Hf0) as (g & c & Hg).
    rewrite Hg in *. rewrite app_comm_cons, (assoc_L (++)) in E'.
    apply app_inj_tail in E' as [_ ->]. set_solver.
Qed.

(** ** Appending *)

Lemma IsAbsolute_starts p : IsAbsolute p = starts (native_path_ p).
Proof. done. Qed.

Lemma append_make p q : append p q = make (append_text (native_path_ p) (native_path_ q)).
Proof.
  unfold append, append_text, Empty. rewrite IsAbsolute_starts. simpl. rewrite orb_false_r.
  destruct (_ || _) eqn:E; [done|]. apply orb_false_iff in E as [Hs%bool_decide_eq_false _].
  destruct (back_ends _ Hs) as (c & -> & ->). simpl.
  case_bool_decide; [by rewrite decide_True|]. rewrite decide_False by done.
  by rewrite <- (assoc_L (++)).
Qed.

Lemma resolve_append cwd s t : resolve cwd (append_text s t) = resolve (resolve cwd s) t.
Proof.
  unfold append_text. case_bool_decide as Hs; [by subst|]. simpl.
  destruct (starts t) eqn:Et; [unfold resolve; by rewrite Et|].
  assert (∀ u, names (s ++ u) = names s ++ names t →
    resolve cwd (s ++ u) = resolve (resolve cwd s) t) as H.
  { intros u Hu. unfold resolve. rewrite Et, Hu, foldl_app. f_equal. f_equal.
    by rewrite starts_app. }
  destruct (ends s) eqn:Ee; apply H.
  - apply ends_inv in Ee as [s' ->]. rewrite <- (assoc_L (++)), names_snoc. apply names_app.
  - by rewrite names_app.
Qed.

(** ** Iteration *)

Lemma iterate_parts a p k fuel :
  parts_ p ≠ [] → k ≤ length (parts_ p) → length (parts_ p) - k < fuel →
  iterate fuel (mkIterator (Some (a, p)) k false) (path_end (a, p)) = Ret (drop k (parts_ p)).
Proof.
  intros Hp. revert k. induction fuel as [|fuel IH]; intros k Hk Hf; [lia|].
  assert (path_end (a, p) = mkIterator (Some (a, p)) (length (parts_ p)) false) as He.
  { unfold path_end. simpl. by rewrite bool_decide_false. }
  cbn [iterate]. rewrite He at 1. unfold equals, iterator_deref, iterator_next. simpl.
  rewrite Nat.eqb_refl. simpl. rewrite !decide_False by done.
  destruct (Nat.eqb_spec k (length (parts_ p))) as [->|Hne]; [by rewrite drop_all|].
  destruct (parts_ p !! k) as [x|] eqn:Ex; [|apply lookup_ge_None in Ex; lia]. simpl.
  rewrite IH by lia. simpl. by rewrite (drop_S (parts_ p) x k).
Qed.

(** ** Correctness *)

(** Returns, and what it returns is well formed. *)
Definition returns_wf (o : outcome Path) : Prop := ∃ q, o = Ret q ∧ wf q.

Lemma make_returns_wf s : returns_wf (make s).
Proof. rewrite make_spec. eexists. split; [done|]. by rewrite wf_parts. Qed.

(** Construction from any text and every operation on well-formed paths
    return a well-formed path: the parts of a [Path] are always the components
    of its text, no assertion fails and nothing is read out of bounds.  For
    [ParentPath] this is the case unless two or more separators and a single
    name make up the whole text. *)
Theorem operations_keep_invariant s p r :
  wf p → wf r →
  returns_wf (make s) ∧ returns_wf (append p r) ∧ returns_wf (append_self p) ∧
  returns_wf (LexicallyNormal p) ∧ returns_wf (RootDirectory p) ∧ returns_wf (RelativePath p) ∧
  returns_wf (Filename p) ∧ returns_wf (Stem p) ∧ returns_wf (Extension p) ∧
  returns_wf (ReplaceExtension p r) ∧ returns_wf (RemoveFilename p) ∧
  (reads_before_text (native_path_ p) ∨ returns_wf (ParentPath p)).
Proof.
  intros Hp Hr. pose proof make_returns_wf as Hm.
  rewrite append_make, LexicallyNormal_make, Filename_make, Stem_make, Extension_make,
    ReplaceExtension_make, RemoveFilename_make by done.
  split_and!; auto.
  - unfold append_self. case_match eqn:E; [done|].
    apply orb_false_iff in E as [[E%bool_decide_eq_false _]%orb_false_iff _].
    destruct (back_ends _ E) as (c & -> & _). simpl. auto.
  - unfold RootDirectory. case_match; [auto|]. exists (mkPath [] []). done.
  - unfold RelativePath. destruct (IsAbsolute p) eqn:E; [|by exists p].
    unfold RootPath, RootDirectory. rewrite E. simpl. auto.
  - destruct (ParentPath_cases p Hp) as [[_ ->]|[? _]]; auto.
Qed.

Lemma operations_keep_invariant_witness :
  returns_wf (append (mkPath (s! "a/b") [unparsed (s! "a"); unparsed (s! "b")]) (unparsed (s! "c"))).
Proof. apply (operations_keep_invariant []); vm_compute; reflexivity. Defined.

(** [p /= r] leads to where [r] leads from the directory of [p]; an
    absolute [r] replaces [p]. *)
Theorem append_resolves cwd p r :
  ∃ q, append p r = Ret q ∧ wf q ∧
       resolve cwd (native_path_ q) = resolve (resolve cwd (native_path_ p)) (native_path_ r) ∧
       (IsAbsolute r = true → native_path_ q = native_path_ r).
Proof.
  rewrite append_make, make_spec. eexists. split; [done|]. rewrite wf_parts. simpl.
  split_and!; [done|apply resolve_append|]. rewrite IsAbsolute_starts. intros H.
  unfold append_text. by rewrite H, orb_true_r.
Qed.

(** A range-based [for] over a well-formed path returns: it visits the
    components of the text in order, the path itself if it has one component
    and nothing if it is empty, and no assertion of the iterator fails. *)
Theorem iteration_visits_components a p :
  wf p →
  iterate (S (length (components (native_path_ p)))) (path_begin (a, p)) (path_end (a, p)) =
  Ret (if bool_decide (native_path_ p = []) then []
       else if (length (components (native_path_ p)) =? 1)%nat then [p]
       else unparsed <$> components (native_path_ p)).
Proof.
  intros Hwf%wf_parts. set (s := native_path_ p) in *. case_bool_decide as Hs.
  { unfold path_begin, path_end. simpl. rewrite Hwf. fold s. by rewrite Hs. }
  pose proof (length_components s Hs) as Hc.
  destruct (Nat.eqb_spec (length (components s)) 1) as [H1|H1].
  - rewrite H1. unfold path_begin, path_end. simpl. assert (parts_ p = []) as Hp.
    { rewrite Hwf. apply kept_nil. lia. }
    rewrite Hp. fold s. rewrite (bool_decide_false (s = [])) by done. unfold equals, iterator_deref. simpl.
    rewrite Nat.eqb_refl, Hp. simpl. unfold iterator_next. simpl. rewrite Hp. simpl.
    by rewrite Nat.eqb_refl, Hp.
  - assert (parts_ p = unparsed <$> components s) as Hp.
    { rewrite Hwf. unfold kept. by rewrite (proj2 (Nat.eqb_neq _ _)). }
    assert (parts_ p ≠ []) as Hne by (rewrite Hp; by destruct (components s)).
    assert (path_begin (a, p) = mkIterator (Some (a, p)) 0 false) as ->.
    { unfold path_begin. simpl. by rewrite bool_decide_false. }
    rewrite iterate_parts; [|done|lia|rewrite Hp, length_fmap; lia]. by rewrite drop_0, Hp.
Qed.

Lemma iteration_visits_components_witness :
  let p := mkPath (s! "/usr//lib/") (unparsed <$> [s! "/"; s! "usr"; s! "lib"; []]) in
  iterate 5 (path_begin (0, p)) (path_end (0, p)) =
  Ret (unparsed <$> [s! "/"; s! "usr"; s! "lib"; []]).
Proof. apply (iteration_visits_components 0 (mkPath (s! "/usr//lib/") _)). vm_compute. reflexivity. Defined.

(** [RemoveFilename] and [Filename] split the text after its last
    separator; [Stem] and [Extension] split the file name before its last dot,
    unless that dot is the first character or the name is a dot or dot-dot. *)
Theorem decomposition p :
  wf p →
  ∃ d f st e,
    RemoveFilename p = Ret d ∧ Filename p = Ret f ∧ Stem p = Ret st ∧ Extension p = Ret e ∧
    native_path_ p = native_path_ d ++ native_path_ f ∧
    native_path_ f = native_path_ st ++ native_path_ e ∧
    sep ∉ native_path_ f ∧ (native_path_ d = [] ∨ ends (native_path_ d) = true) ∧
    match native_path_ e with
    | [] => native_path_ f = dot ∨ native_path_ f = dotdot ∨ "."%char ∉ tail (native_path_ f)
    | c :: e' => c = "."%char ∧ "."%char ∉ e' ∧ native_path_ st ≠ []
    end.
Proof.
  intros Hp. rewrite RemoveFilename_make, Filename_make, Stem_make, Extension_make, !make_spec by done.
  do 4 eexists. do 4 (split; [done|]). simpl. destruct (dir_file_spec (native_path_ p)) as (Hs & Hf & Hd).
  rewrite stem_ext. split_and!; [done|done|done|done|].
  unfold stem_part, ext_part. set (f := file_part (native_path_ p)) in *.
  destruct (ext_pos f) as [i|] eqn:E.
  - apply ext_pos_Some in E as (a & b & -> & ? & ? & ? & ->).
    by rewrite drop_app_length, take_app_length.
  - unfold ext_pos in E. case_decide as H; [tauto|]. apply fmap_None in E.
    right. right. by apply find_last_of_None.
Qed.

Lemma decomposition_witness :
  Stem (mkPath (s! "/a/b.tar.gz") (kept (components (s! "/a/b.tar.gz")))) = Ret (unparsed (s! "b.tar")).
Proof.
  destruct (decomposition (mkPath (s! "/a/b.tar.gz") (kept (components (s! "/a/b.tar.gz")))))
    as (d & f & st & e & _ & _ & Hst & _).
  { vm_compute. reflexivity. }
  rewrite Hst. vm_compute in Hst. symmetry. exact Hst.
Defined.

(** [ReplaceExtension] keeps directory and stem, and the new extension is
    the given one, with or without its leading dot. *)
Theorem replace_extension_replaces p r e :
  wf p → file_part (native_path_ p) ≠ [] → e ≠ [] → "."%char ∉ e → sep ∉ e →
  native_path_ r = e ∨ native_path_ r = "."%char :: e →
  ∃ q, ReplaceExtension p r = Ret q ∧ wf q ∧ Extension q = make ("."%char :: e) ∧
       Stem q = Stem p ∧ RemoveFilename q = RemoveFilename p.
Proof.
  intros Hp Hf He Hdot Hsep Hr. rewrite ReplaceExtension_make.
  assert (dotted (native_path_ r) = "."%char :: e) as ->.
  { destruct Hr as [-> | ->]; [|done]. destruct e as [|c e]; [done|]. simpl.
    rewrite decide_False; [done|]. set_solver. }
  set (s := native_path_ p) in *. destruct (dir_file_spec s) as (Hs & Hfs & Hd).
  assert (stem_part (file_part s) ≠ []) as Hst.
  { unfold stem_part. destruct (ext_pos _) eqn:E; [|done].
    apply ext_pos_Some in E as (a & b & -> & _ & ? & _ & ->). by rewrite take_app_length. }
  assert (sep ∉ stem_part (file_part s) ++ ("."%char :: e)) as Hno.
  { rewrite <- (stem_ext (file_part s)) in Hfs. set_solver. }
  destruct (dir_file_unique (dir_part s) _ Hno Hd) as [Hd' Hf'].
  destruct (stem_ext_unique (stem_part (file_part s)) e Hdot Hst He) as [Hst' Hext'].
  rewrite make_spec. eexists. split; [done|]. assert (∀ u, wf (mkPath u (kept (components u)))) as Hw.
  { intros u. by rewrite wf_parts. }
  rewrite Extension_make, !Stem_make, !RemoveFilename_make by auto. simpl.
  by rewrite Hd', Hf', Hst', Hext'.
Qed.

Lemma replace_extension_replaces_witness :
  ∃ q, ReplaceExtension (unparsed (s! "log.txt")) (unparsed (s! "json")) = Ret q ∧
       Stem q = Stem (unparsed (s! "log.txt")).
Proof.
  destruct (replace_extension_replaces (unparsed (s! "log.txt")) (unparsed (s! "json")) (s! "json"))
    as (q & Hq & _ & _ & Hst & _).
  - vm_compute. reflexivity.
  - vm_compute. discriminate.
  - discriminate.
  - apply (bool_decide_unpack _). vm_compute. exact I.
  - apply (bool_decide_unpack _). vm_compute. exact I.
  - left. reflexivity.
  - exists q. split; [exact Hq|exact Hst].
Defined.

(** [ParentPath] is undefined behaviour exactly if the text is two or more
    separators and one name; otherwise it returns a path with the same root
    whose names are those of the path without the last one, or all of them if
    the text ends with a separator. *)
Theorem parent_path_spec p :
  wf p →
  (ParentPath p = Undefined ↔ reads_before_text (native_path_ p)) ∧
  (¬ reads_before_text (native_path_ p) →
   ∃ q, ParentPath p = Ret q ∧ wf q ∧ IsAbsolute q = IsAbsolute p ∧
        names (native_path_ q) =
        if ends (native_path_ p) then names (native_path_ p) else removelast (names (native_path_ p))).
Proof.
  intros Hp. destruct (ParentPath_cases p Hp) as [[Hr ->]|[Hr ->]].
  - destruct (parent_text_names (native_path_ p)) as [H1 H2]. rewrite make_spec.
    split; [done|]. intros _. eexists. rewrite wf_parts. split_and!; done.
  - split; [done|]. tauto.
Qed.

Lemma parent_path_spec_witness :
  ParentPath (mkPath (s! "//foo") (kept (components (s! "//foo")))) = Undefined.
Proof.
  apply (parent_path_spec (mkPath (s! "//foo") (kept (components (s! "//foo"))))).
  - vm_compute. reflexivity.
  - exists 0, (s! "foo"). split; [reflexivity|]. split; [discriminate|].
    apply (bool_decide_unpack _). vm_compute. exact I.
Defined.

(** [p /= p] on a relative path without a trailing separator yields the
    text twice with a separator at the end, because the appended text is read
    after the separator has been added to it; appending an equal but distinct
    object does not add it. *)
Theorem append_to_itself p :
  native_path_ p ≠ [] → IsAbsolute p = false → ends (native_path_ p) = false →
  append_self p = make (native_path_ p ++ (sep :: native_path_ p) ++ [sep]) ∧
  append p (mkPath (native_path_ p) (parts_ p)) = make (native_path_ p ++ (sep :: native_path_ p)).
Proof.
  intros Hs Ha He. rewrite append_make. unfold append_self, append_text, Empty. simpl.
  rewrite IsAbsolute_starts in *. rewrite Ha, He, bool_decide_false by done. simpl.
  destruct (back_ends _ Hs) as (c & -> & Hc). rewrite He in Hc. symmetry in Hc.
  apply bool_decide_eq_false in Hc. simpl. rewrite decide_False by done.
  split; [|done]. f_equal. by rewrite <- !(assoc_L (++)).
Qed.

Lemma append_to_itself_witness :
  append_self (unparsed (s! "a")) = make (s! "a/a/") ∧
  append (unparsed (s! "a")) (unparsed (s! "a")) = make (s! "a/a").
Proof. apply (append_to_itself (unparsed (s! "a"))); [discriminate|reflexivity..]. Defined.

(** [operator<] is a strict total order whose equivalence is [operator==]:
    of two paths exactly one is smaller, or they are equal, and the order is
    transitive. *)
Theorem path_order p q r :
  (operator_lt p q, operator_eq p q, operator_lt q p) ∈
    [(true, false, false); (false, true, false); (false, false, true)] ∧
  implb (operator_lt p q && operator_lt q r) (operator_lt p r) = true ∧
  operator_ne p q = negb (operator_eq p q).
Proof.
  unfold operator_lt, operator_eq, operator_ne. split_and!; [| |done].
  - assert (∀ s t, string_lt s t → string_lt t s = false ∧ s ≠ t) as Hasym.
    { intros s t Hst. split; [|by intros ->; rewrite string_lt_irrefl in Hst].
      destruct (string_lt t s) eqn:E; [|done]. apply Is_true_true in E. pose proof (string_lt_trans _ _ _ Hst E) as H.
      by rewrite string_lt_irrefl in H. }
    destruct (string_lt_total (Native p) (Native q)) as [H|[H|H]].
    + destruct (Hasym _ _ H) as [-> ?]. apply Is_true_true in H as ->. rewrite bool_decide_false by done. set_solver.
    + rewrite H, string_lt_irrefl, bool_decide_true by done. set_solver.
    + destruct (Hasym _ _ H) as [-> ?]. apply Is_true_true in H as ->. rewrite bool_decide_false by done. set_solver.
  - destruct (string_lt (Native p) (Native q)) eqn:E1, (string_lt (Native q) (Native r)) eqn:E2; try done. simpl.
    apply Is_true_true. eapply string_lt_trans; apply Is_true_true; eassumption.
Qed.

End PathOps.
