(* ===== verification/JsonModel.v ===== *)
(** * score/json/internal/model: numbers, lossless casts and the JSON tree

    [Object] is a [std::map] ordered by key: an association list that the
    operations keep sorted. *)

From S2P Require Import Prelude CppInt CppString CppFloat.
Import CppFloat.

Module JsonModel.

(** score::json::Error *)
Inductive ModelError := kUnknownError | kWrongType | kKeyNotFound | kParsingError | kInvalidFilePath.

#[export] Instance ModelError_eq_dec : EqDecision ModelError.
Proof. solve_decision. Defined.

Abbreviation MResult A := (expected ModelError A).

(** ** lossless_cast.cpp *)

(** [IsInputTypeContainedInOutputType] for two integer types. *)
Definition int_contained_in_int (Output Input : int_type) : bool :=
  if decide (Input = Output) then true
  else if Bool.eqb (is_signed Input) (is_signed Output) then (max Input <? max Output)%Z
  else if negb (is_signed Input) then (max Input <? static_cast uint64_t (max Output))%Z
  else false.

Definition GetMaximumFloatingPointInteger (t : float_type) : Z := Z.shiftl 1 (prec t).
Definition GetMinimumFloatingPointInteger (t : float_type) : Z := (- Z.shiftl 1 (prec t))%Z.

(** [IsInputTypeContainedInOutputType] from an integer to a floating-point type. *)
Definition int_contained_in_float (Output : float_type) (Input : int_type) : bool :=
  if (static_cast int64_t (lowest Input) <? GetMinimumFloatingPointInteger Output)%Z then false
  else if (GetMaximumFloatingPointInteger Output <? static_cast uint64_t (max Input))%Z then false
  else true.

(** [IsFloatingPointValueContainedInOutputType] for an integer [Output]. *)
Definition float_value_contained_in_int (Output : int_type) (Input : float_type) (input : spec_float) :
    outcome bool :=
  let max_input := of_int Input (Z.min (GetMaximumFloatingPointInteger Input)
                                       (static_cast uint64_t (max Output))) in
  let min_input := of_int Input (Z.max (GetMinimumFloatingPointInteger Input)
                                       (static_cast int64_t (lowest Output))) in
  if SFltb max_input input || SFltb input min_input then Ret false
  else
    input_casted ← to_int Output input;
    let input_backcast := of_int Input input_casted in
    Ret (SFeqb input input_backcast).

Definition IsInf (f : spec_float) : bool := match f with S754_infinity _ => true | _ => false end.

(** [TryLosslessCast<Output>(Input)] by kind of the two types; the case of the
    same type comes first. *)
Definition TryLosslessCast_int_int (Output Input : int_type) (input : Z) : MResult Z :=
  if int_contained_in_int Output Input then Value (static_cast Output input)
  else if is_signed Output && negb (is_signed Input) then
    if (static_cast uint64_t input <=? static_cast uint64_t (max Output))%Z
    then Value (static_cast Output input) else Unexpected kWrongType
  else Unexpected kWrongType.

Definition TryLosslessCast_int_float (Output : float_type) (Input : int_type) (input : Z) :
    MResult spec_float :=
  if int_contained_in_float Output Input then Value (of_int Output input) else Unexpected kWrongType.

Definition TryLosslessCast_float_int (Output : int_type) (Input : float_type) (input : spec_float) :
    outcome (MResult Z) :=
  contained ← float_value_contained_in_int Output Input input;
  if (contained : bool) then v ← to_int Output input; Ret (Value v) else Ret (Unexpected kWrongType).

(** From [float] to [double] the code calls the unreachable macro. *)
Definition TryLosslessCast_float_float (Output Input : float_type) (input : spec_float) :
    outcome (MResult spec_float) :=
  match Output, Input with
  | float32, float32 | float64, float64 => Ret (Value input)
  | float64, float32 => Aborted
  | float32, float64 =>
      if IsInf (convert float32 input) && negb (IsInf input) then Ret (Unexpected kWrongType)
      else Ret (Value (convert float32 input))
  end.

Definition TryLosslessCast_int_bool (input : Z) : MResult bool :=
  if (input =? 0)%Z then Value false else if (input =? 1)%Z then Value true else Unexpected kWrongType.

Definition TryLosslessCast_float_bool (Input : float_type) (input : spec_float) : MResult bool :=
  if SFeqb input (of_int Input 0) then Value false
  else if SFeqb input (of_int Input 1) then Value true
  else Unexpected kWrongType.

(** ** number.h, number.cpp *)

Inductive Number :=
| Integer (t : int_type) (v : Z)
| Floating (t : float_type) (f : spec_float).

(** [As<T>()] for an integer, a floating-point type and [bool]. *)
Definition Number_As_int (T : int_type) (n : Number) : outcome (MResult Z) :=
  match n with
  | Integer t v => Ret (TryLosslessCast_int_int T t v)
  | Floating t f => TryLosslessCast_float_int T t f
  end.

Definition Number_As_float (T : float_type) (n : Number) : outcome (MResult spec_float) :=
  match n with
  | Integer t v => Ret (TryLosslessCast_int_float T t v)
  | Floating t f => TryLosslessCast_float_float T t f
  end.

Definition Number_As_bool (n : Number) : MResult bool :=
  match n with
  | Integer _ v => TryLosslessCast_int_bool v
  | Floating t f => TryLosslessCast_float_bool t f
  end.

(** [numeric_limits<T>::epsilon()] *)
Definition epsilon (t : float_type) : spec_float := binary_round (prec t) (emax t) false 1 (1 - prec t).

(** [operator==]: the same alternative and, through [VariantComparator], the
    same value, for floating point up to [epsilon]. *)
Definition Number_eq (lhs rhs : Number) : outcome bool :=
  match lhs, rhs with
  | Integer t v, Integer t' _ =>
      if negb (bool_decide (t = t')) then Ret false
      else result ← Number_As_int t rhs;
           Ret (match result with Value r => (v =? r)%Z | Unexpected _ => false end)
  | Floating t f, Floating t' _ =>
      if negb (bool_decide (t = t')) then Ret false
      else result ← Number_As_float t rhs;
           Ret (match result with
                | Value r => SFltb (SFabs (SFsub (prec t) (emax t) f r)) (epsilon t)
                | Unexpected _ => false
                end)
  | _, _ => Ret false
  end.

(** ** any.h, any.cpp *)

Inductive Any :=
| Bool (b : bool)
| Num (n : Number)
| String (s : str)
| Null
| Object (members : list (str * Any))
| List (elements : list Any).

(** [As<T>()] of the arithmetic types: a number, or a [bool] as 0 or 1. *)
Definition Any_As_int (T : int_type) (a : Any) : outcome (MResult Z) :=
  match a with
  | Num n => Number_As_int T n
  | Bool b => Ret (Value (if b then 1 else 0)%Z)
  | _ => Ret (Unexpected kWrongType)
  end.

Definition Any_As_float (T : float_type) (a : Any) : outcome (MResult spec_float) :=
  match a with
  | Num n => Number_As_float T n
  | Bool b => Ret (Value (of_int T (if b then 1 else 0)))
  | _ => Ret (Unexpected kWrongType)
  end.

Definition Any_As_bool (a : Any) : MResult bool :=
  match a with
  | Num n => Number_As_bool n
  | Bool b => Value b
  | _ => Unexpected kWrongType
  end.

(** [As<T>()] of the other alternatives. *)
Definition As_List (a : Any) : MResult (list Any) :=
  match a with List l => Value l | _ => Unexpected kWrongType end.
Definition As_Object (a : Any) : MResult (list (str * Any)) :=
  match a with Object o => Value o | _ => Unexpected kWrongType end.
Definition As_string (a : Any) : MResult str :=
  match a with String s => Value s | _ => Unexpected kWrongType end.
Definition As_Number (a : Any) : MResult Number :=
  match a with Num n => Value n | _ => Unexpected kWrongType end.
Definition As_Null (a : Any) : MResult () :=
  match a with Null => Value () | _ => Unexpected kWrongType end.

(** [std::map::find] *)
Fixpoint map_find (key : str) (m : list (str * Any)) : option Any :=
  match m with
  | [] => None
  | (k, v) :: m => if decide (k = key) then Some v else map_find key m
  end.

(** [std::map::emplace]: [None] if the key is present. *)
Fixpoint map_emplace (key : str) (value : Any) (m : list (str * Any)) : option (list (str * Any)) :=
  match m with
  | [] => Some [(key, value)]
  | (k, v) :: m' =>
      if decide (k = key) then None
      else if string_lt key k then Some ((key, value) :: m)
      else (λ m', (k, v) :: m') <$> map_emplace key value m'
  end.

(** [m\[key\] = value] *)
Fixpoint map_assign (key : str) (value : Any) (m : list (str * Any)) : list (str * Any) :=
  match m with
  | [] => [(key, value)]
  | (k, v) :: m' =>
      if decide (k = key) then (k, value) :: m'
      else if string_lt key k then (key, value) :: m
      else (k, v) :: map_assign key value m'
  end.

(** [GetAttribute<V>] of object.h, for the conversion [as_V]. *)
Definition GetAttribute {V} (as_V : Any → MResult V) (object : list (str * Any)) (key : str) : MResult V :=
  match map_find key object with
  | None => Unexpected kKeyNotFound
  | Some v => as_V v
  end.

Fixpoint CloneByValue (a : Any) : Any :=
  match a with
  | Bool b => Bool b
  | Num n => Num n
  | String s => String s
  | Null => Null
  | Object v =>
      Object ((fix clone_members (object v : list (str * Any)) : list (str * Any) :=
                 match v with
                 | [] => object
                 | (key, value) :: v => clone_members (map_assign key (CloneByValue value) object) v
                 end) [] v)
  | List v => List (map CloneByValue v)
  end.

(** [operator==]; vectors and maps compare their sizes, then their elements. *)
Fixpoint Any_eq (lhs rhs : Any) : outcome bool :=
  match lhs, rhs with
  | Bool a, Bool b => Ret (Bool.eqb a b)
  | String a, String b => Ret (bool_decide (a = b))
  | Num a, Num b => Number_eq a b
  | Null, Null => Ret true
  | Object a, Object b =>
      if negb (length a =? length b)%nat then Ret false
      else (fix eq_members (a b : list (str * Any)) : outcome bool :=
              match a, b with
              | (ka, va) :: a, (kb, vb) :: b =>
                  if negb (bool_decide (ka = kb)) then Ret false
                  else e ← Any_eq va vb; if (e : bool) then eq_members a b else Ret false
              | _, _ => Ret true
              end) a b
  | List a, List b =>
      if negb (length a =? length b)%nat then Ret false
      else (fix eq_elements (a b : list Any) : outcome bool :=
              match a, b with
              | va :: a, vb :: b =>
                  e ← Any_eq va vb; if (e : bool) then eq_elements a b else Ret false
              | _, _ => Ret true
              end) a b
  | _, _ => Ret false
  end.

(** ** Facts *)

Section Any_induction.
  Context (P : Any → Prop).
  Hypothesis (HBool : ∀ b, P (Bool b)) (HNum : ∀ n, P (Num n)) (HString : ∀ s, P (String s)) (HNull : P Null).
  Hypothesis (HObject : ∀ m, Forall (λ kv, P kv.2) m → P (Object m)).
  Hypothesis (HList : ∀ l, Forall P l → P (List l)).

Fixpoint Any_nested_ind (a : Any) : P a :=
  match a with
  | Bool b => HBool b
  | Num n => HNum n
  | String s => HString s
  | Null => HNull
  | Object m =>
      HObject m ((fix go m : Forall (λ kv, P kv.2) m :=
                    match m with
                    | [] => Forall_nil_2 _
                    | (k, v) :: m => Forall_cons_2 _ (k, v) m (Any_nested_ind v) (go m)
                    end) m)
  | List l =>
      HList l ((fix go l : Forall P l :=
                  match l with
                  | [] => Forall_nil_2 _
                  | v :: l => Forall_cons_2 _ v l (Any_nested_ind v) (go l)
                  end) l)
  end.
End Any_induction.

(** Keys strictly increase and integers fit their types, everywhere in the tree. *)
Fixpoint sorted_keys (m : list (str * Any)) : Prop :=
  match m with
  | [] => True
  | (k, _) :: m' =>
      match m' with [] => True | (k', _) :: _ => string_lt k k' = true end ∧ sorted_keys m'
  end.

Fixpoint wf_any (a : Any) : Prop :=
  match a with
  | Object m =>
      sorted_keys m ∧
      (fix go (m : list (str * Any)) : Prop := match m with [] => True | (_, v) :: m => wf_any v ∧ go m end) m
  | List l => (fix go (l : list Any) : Prop := match l with [] => True | v :: l => wf_any v ∧ go l end) l
  | Num (Integer t v) => in_range t v
  | _ => True
  end.

Lemma wf_any_Object m : wf_any (Object m) ↔ sorted_keys m ∧ Forall (λ kv, wf_any kv.2) m.
Proof.
  simpl. assert ((fix go (m : list (str * Any)) : Prop :=
    match m with [] => True | (_, v) :: m => wf_any v ∧ go m end) m ↔ Forall (λ kv, wf_any kv.2) m) as ->; [|done].
  induction m as [|[k v] m IH]; [done|]. rewrite Forall_cons, IH. done.
Qed.

Lemma wf_any_List l : wf_any (List l) ↔ Forall wf_any l.
Proof. simpl. induction l as [|v l IH]; [done|]. by rewrite Forall_cons, IH. Qed.

(** ** The map of an object *)

Lemma sorted_keys_cons k v m :
  sorted_keys ((k, v) :: m) ↔ Forall (λ kv, string_lt k kv.1 = true) m ∧ sorted_keys m.
Proof.
  split.
  - revert k v. induction m as [|[k' v'] m IH]; intros k v; [by simpl|]. intros [Hk Hm].
    split; [|done]. constructor; [done|]. destruct (IH k' v' Hm) as [H _].
    eapply Forall_impl; [done|]. simpl. intros kv Hkv.
    apply (Is_true_true_1 _), (string_lt_trans k k' kv.1); by apply Is_true_true_2.
  - intros [Hk Hm]. split; [|done]. destruct m as [|[k' v'] m]; [done|]. by apply Forall_cons in Hk as [? _].
Qed.

Lemma string_lt_ne k k' : string_lt k k' = true → k ≠ k'.
Proof. intros H ->. by rewrite string_lt_irrefl in H. Qed.

Lemma map_emplace_spec key value m m' :
  map_emplace key value m = Some m' →
  map_find key m' = Some value ∧ (∀ k, k ≠ key → map_find k m' = map_find k m) ∧
  (∀ P : str * Any → Prop, Forall P m → P (key, value) → Forall P m') ∧
  (sorted_keys m → sorted_keys m').
Proof.
  revert m'. induction m as [|[k v] m IH]; intros m' Hm; simpl in Hm.
  { simplify_eq/=. split_and!; [by rewrite decide_True|intros k ?; by rewrite decide_False| |done].
    intros P _ ?. by constructor. }
  destruct (decide (k = key)) as [|Hk]; [done|]. destruct (string_lt key k) eqn:Elt.
  - simplify_eq. simpl. split_and!.
    + by rewrite decide_True.
    + intros k' ?. by rewrite decide_False.
    + intros P H ?. by constructor.
    + intros Hs. split; [done|]. done.
  - apply fmap_Some in Hm as (m0 & Hm & ->). destruct (IH m0 Hm) as (H1 & H2 & H3 & H4). cbn [map_find]. split_and!.
    + by rewrite decide_False.
    + intros k' ?. case_decide; [done|]. by apply H2.
    + intros P [? ?]%Forall_cons ?. constructor; auto.
    + intros [Hf Hs]%sorted_keys_cons. apply sorted_keys_cons. split; [apply H3; [done|]|auto].
      simpl. destruct (string_lt_total k key) as [?|[?|?]]; [by apply Is_true_true_1|done|].
      rewrite <- not_false_iff_true in *. apply Is_true_true_1 in H. congruence.
Qed.

(** In front of the first larger key nothing is found. *)
Lemma map_find_sorted k m : Forall (λ kv, string_lt k kv.1 = true) m → map_find k m = None.
Proof.
  induction 1 as [|[k' v] m Hk _ IH]; simpl; [done|]. rewrite decide_False; [done|].
  intros ->. simpl in Hk. by rewrite string_lt_irrefl in Hk.
Qed.

(** A key larger than all others goes to the end. *)
Lemma map_emplace_last key value m :
  Forall (λ kv, string_lt kv.1 key = true) m → map_emplace key value m = Some (m ++ [(key, value)]).
Proof.
  induction 1 as [|[k v] m Hk _ IH]; simpl; [done|]. simpl in Hk. rewrite decide_False by by apply string_lt_ne.
  destruct (string_lt key k) eqn:E.
  - exfalso. assert (string_lt k k) as H; [|by rewrite string_lt_irrefl in H].
    eapply string_lt_trans; apply Is_true_true_2; done.
  - by rewrite IH.
Qed.

Lemma map_assign_last key value m :
  Forall (λ kv, string_lt kv.1 key = true) m → map_assign key value m = m ++ [(key, value)].
Proof.
  induction 1 as [|[k v] m Hk _ IH]; simpl; [done|]. simpl in Hk. rewrite decide_False by by apply string_lt_ne.
  destruct (string_lt key k) eqn:E; [|by rewrite IH].
  exfalso. assert (string_lt k k) as H; [|by rewrite string_lt_irrefl in H].
  eapply string_lt_trans; apply Is_true_true_2; done.
Qed.

Lemma sorted_keys_app m1 k v m2 :
  sorted_keys (m1 ++ ((k, v) :: m2)) →
  Forall (λ kv, string_lt kv.1 k = true) m1 ∧ sorted_keys ((k, v) :: m2).
Proof.
  induction m1 as [|[k' v'] m1 IH]; simpl app; [done|]. intros [Hf Hs]%sorted_keys_cons.
  destruct (IH Hs) as [H1 H2]. split; [|done]. constructor; [|done]. simpl.
  rewrite Forall_forall in Hf. apply (Hf (k, v)). set_solver.
Qed.

(** ** Floating-point bounds *)

Lemma digits2_pos_bound m : (Zpos m < 2 ^ Zpos (digits2_pos m))%Z.
Proof.
  induction m as [m IH|m IH|]; cbn [digits2_pos]; [| |done];
    rewrite Pos2Z.inj_succ, Z.pow_succ_r by lia; lia.
Qed.

Lemma valid_mantissa t s m e :
  valid_binary (prec t) (emax t) (S754_finite s m e) = true → (Zpos m < 2 ^ prec t)%Z.
Proof.
  cbn [valid_binary]. intros [H _]%andb_prop. apply Z.eqb_eq in H. unfold fexp in H.
  eapply Z.lt_le_trans; [apply digits2_pos_bound|]. apply Z.pow_le_mono_r; lia.
Qed.

(** [trunc] of a magnitude, at any scale that makes the exponent positive. *)
Lemma trunc_scale m e k :
  (0 <= k → 0 <= e + k →
   (if 0 <=? e then Zpos m * 2 ^ e else Zpos m / 2 ^ (- e)) = Zpos m * 2 ^ (e + k) / 2 ^ k)%Z.
Proof.
  intros Hk He. case_match eqn:E; [apply Z.leb_le in E|apply Z.leb_gt in E].
  - rewrite Z.pow_add_r, Z.mul_assoc, Z.div_mul by lia. done.
  - replace k with (e + k + - e)%Z at 2 by lia. rewrite (Z.pow_add_r 2 (e + k) (- e)) by lia.
    rewrite (Z.mul_comm (2 ^ (e + k))), <- Zdiv_mult_cancel_r with (c := (2 ^ (e + k))%Z); [done|].
    pose proof (Z.pow_pos_nonneg 2 (e + k)). lia.
Qed.

Lemma trunc_le p m e m' e' :
  (0 <= p → Zpos m < 2 ^ p → 2 ^ (p - 1) <= Zpos m' → (e < e' ∨ e = e' ∧ Zpos m <= Zpos m') →
   (if 0 <=? e then Zpos m * 2 ^ e else Zpos m / 2 ^ (- e)) <=
   (if 0 <=? e' then Zpos m' * 2 ^ e' else Zpos m' / 2 ^ (- e')))%Z.
Proof.
  intros Hp Hm Hm' He. set (k := Z.max 0 (Z.max (- e) (- e'))).
  rewrite (trunc_scale m e k), (trunc_scale m' e' k) by lia. apply Z.div_le_mono; [apply Z.pow_pos_nonneg; lia|].
  destruct He as [He|[-> He]]; [|apply Z.mul_le_mono_nonneg_r; [apply Z.pow_nonneg; lia|done]].
  assert (0 < p)%Z. { destruct (decide (p = 0)%Z) as [->|]; [simpl in Hm; lia|lia]. }
  trans (2 ^ p * 2 ^ (e + k))%Z.
  { apply Z.mul_le_mono_nonneg_r; [apply Z.pow_nonneg; lia|lia]. }
  trans (2 ^ (p - 1) * 2 ^ (e' + k))%Z.
  { rewrite <- !Z.pow_add_r by lia. apply Z.pow_le_mono_r; lia. }
  apply Z.mul_le_mono_nonneg_r; [apply Z.pow_nonneg; lia|done].
Qed.

(** The bounds of [float_value_contained_in_int] are normal numbers or zero. *)
Definition normal_bound (t : float_type) (s : bool) (b : spec_float) : Prop :=
  match b with
  | S754_zero _ => s = true
  | S754_finite s' m _ => s' = s ∧ (2 ^ (prec t - 1) <= Zpos m)%Z
  | _ => False
  end.

Lemma trunc_magnitude_nonneg m e : (0 <= if 0 <=? e then Zpos m * 2 ^ e else Zpos m / 2 ^ (- e))%Z.
Proof.
  case_match eqn:E; [apply Z.leb_le in E|apply Z.leb_gt in E].
  - apply Z.mul_nonneg_nonneg; [lia|apply Z.pow_nonneg; lia].
  - apply Z.div_pos; [lia|apply Z.pow_pos_nonneg; lia].
Qed.

Lemma compare_exponent m e m' e' :
  match Z.compare e e' with Lt => Lt | Gt => Gt | Eq => Pcompare m m' Eq end ≠ Gt →
  (e < e' ∨ e = e' ∧ Zpos m <= Zpos m')%Z.
Proof.
  destruct (Z.compare_spec e e') as [->|?|?]; [|by left|done]. intros H. right. split; [done|].
  change (m <= m')%positive in H. lia.
Qed.

Lemma trunc_below_max t b f zb z :
  valid_binary (prec t) (emax t) f = true → normal_bound t false b →
  SFltb b f = false → trunc b = Some zb → trunc f = Some z → (z <= zb)%Z.
Proof.
  intros Hf Hb Hlt Hzb Hz. destruct b as [s|s| |s mb eb]; try done. destruct Hb as [-> Hb].
  cbn [trunc] in Hzb. injection Hzb as <-. pose proof (trunc_magnitude_nonneg mb eb).
  destruct f as [[]|[]| |[] m e]; cbn [trunc] in Hz; try discriminate Hz; injection Hz as <-; try done.
  - pose proof (trunc_magnitude_nonneg m e). lia.
  - apply valid_mantissa in Hf. eapply trunc_le; [| exact Hf|exact Hb|]; [by destruct t|].
    apply compare_exponent. unfold SFltb, SFcompare in Hlt. intros E.
    destruct (Z.compare_spec e eb), (Z.compare_spec eb e); try lia; try done.
    apply Pos.compare_gt_iff, Pos.compare_lt_iff in E. unfold Pos.compare in E. by rewrite E in Hlt.
Qed.

Lemma trunc_above_min t b f zb z :
  valid_binary (prec t) (emax t) f = true → normal_bound t true b →
  SFltb f b = false → trunc b = Some zb → trunc f = Some z → (zb <= z)%Z.
Proof.
  intros Hf Hb Hlt Hzb Hz. destruct b as [s|s| |s mb eb]; try done.
  - cbn [trunc] in Hzb. injection Hzb as <-. destruct f as [[]|[]| |[] m e]; try done; cbn [trunc] in Hz;
      injection Hz as <-; try done. apply trunc_magnitude_nonneg.
  - destruct Hb as [-> Hb]. cbn [trunc] in Hzb. injection Hzb as <-. pose proof (trunc_magnitude_nonneg mb eb).
    destruct f as [[]|[]| |[] m e]; cbn [trunc] in Hz; try discriminate Hz; injection Hz as <-; try lia.
    + apply Z.opp_le_mono. rewrite !Z.opp_involutive. apply valid_mantissa in Hf.
      eapply trunc_le; [|exact Hf|exact Hb|]; [by destruct t|].
      apply compare_exponent. unfold SFltb, SFcompare in Hlt. intros E.
      destruct (Z.compare_spec e eb), (Z.compare_spec eb e); try lia; try done.
      change (Pcompare m mb Eq) with (Pos.compare m mb) in *. by rewrite E in Hlt.
    + pose proof (trunc_magnitude_nonneg m e). lia.
Qed.

(** A value between the bounds truncates to a value of the integer type. *)
Lemma contained_in_range Output Input f z :
  valid_binary (prec Input) (emax Input) f = true →
  SFltb (of_int Input (Z.min (GetMaximumFloatingPointInteger Input) (static_cast uint64_t (max Output)))) f = false →
  SFltb f (of_int Input (Z.max (GetMinimumFloatingPointInteger Input) (static_cast int64_t (lowest Output)))) = false →
  trunc f = Some z → in_range Output z.
Proof.
  intros Hf Hmax Hmin Hz. split.
  - assert (∃ zb, trunc (of_int Input (Z.max (GetMinimumFloatingPointInteger Input)
        (static_cast int64_t (lowest Output)))) = Some zb ∧ (lowest Output <= zb)%Z) as (zb & Hzb & Hle).
    { destruct Output, Input; eexists; (split; [vm_compute; reflexivity|vm_compute; discriminate]). }
    etrans; [exact Hle|]. eapply (trunc_above_min Input); [exact Hf| |exact Hmin|exact Hzb|exact Hz].
    destruct Output, Input; vm_compute; try done; (split; [done|discriminate]).
  - assert (∃ zb, trunc (of_int Input (Z.min (GetMaximumFloatingPointInteger Input)
        (static_cast uint64_t (max Output)))) = Some zb ∧ (zb <= max Output)%Z) as (zb & Hzb & Hle).
    { destruct Output, Input; eexists; (split; [vm_compute; reflexivity|vm_compute; discriminate]). }
    etrans; [|exact Hle]. eapply (trunc_below_max Input); [exact Hf| |exact Hmax|exact Hzb|exact Hz].
    destruct Output, Input; vm_compute; try done; (split; [done|discriminate]).
Qed.

(** ** Properties *)

Lemma int_contained_in_int_spec Output Input :
  int_contained_in_int Output Input = bool_decide (lowest Output <= lowest Input ∧ max Input <= max Output)%Z.
Proof. destruct Output, Input; vm_compute; reflexivity. Qed.

Lemma in_range_uint64 t v : (0 <= v)%Z → in_range t v → in_range uint64_t v.
Proof. intros ? [? ?]. split; [done|]. etrans; [done|]. destruct t; vm_compute; discriminate. Qed.

(** A cast between integer types returns the value unchanged, or reports
    [kWrongType].  It accepts all values of a type whose range the output type
    contains, and beyond that the non-negative values an unsigned type shares
    with a signed one. *)
Theorem lossless_cast_integers Output Input v :
  in_range Input v →
  TryLosslessCast_int_int Output Input v =
    if decide ((lowest Output <= lowest Input ∧ max Input <= max Output)%Z ∨
               (is_signed Output = true ∧ is_signed Input = false ∧ in_range Output v))
    then Value v else Unexpected kWrongType.
Proof.
  intros Hv. unfold TryLosslessCast_int_int. rewrite int_contained_in_int_spec.
  destruct (decide (lowest Output <= lowest Input ∧ max Input <= max Output)%Z) as [Hc|Hc].
  { rewrite bool_decide_true, decide_True by tauto. rewrite static_cast_id; [done|]. unfold in_range in *. lia. }
  rewrite bool_decide_false by done.
  destruct (is_signed Output) eqn:EO, (is_signed Input) eqn:EI; simpl; try (by rewrite decide_False by naive_solver).
  assert (0 <= v)%Z by (destruct Hv; rewrite lowest_unsigned in * by done; lia).
  rewrite (static_cast_id uint64_t v) by by eapply in_range_uint64.
  rewrite (static_cast_id uint64_t (max Output)) by
    (pose proof (max_lower Output); apply (in_range_uint64 Output); [lia|]; pose proof (lowest_nonpos Output); split; lia).
  destruct (Z.leb_spec v (max Output)) as [Hle|Hle].
  - assert (in_range Output v). { pose proof (lowest_nonpos Output). split; lia. }
    rewrite decide_True by tauto. by rewrite static_cast_id.
  - rewrite decide_False; [done|]. unfold in_range. naive_solver lia.
Qed.

Lemma lossless_cast_integers_witness :
  TryLosslessCast_int_int int8_t uint32_t 100 = Value 100%Z ∧
  TryLosslessCast_int_int uint8_t uint32_t 5 = Unexpected kWrongType.
Proof.
  split; [rewrite (lossless_cast_integers int8_t uint32_t 100)|rewrite (lossless_cast_integers uint8_t uint32_t 5)];
    vm_compute; [reflexivity|split; discriminate|reflexivity|split; discriminate].
Defined.

Lemma TryLosslessCast_float_int_returns Output Input f :
  valid_binary (prec Input) (emax Input) f = true → isnan f = false →
  ∃ r, TryLosslessCast_float_int Output Input f = Ret r ∧
    ∀ v, r = Value v → in_range Output v ∧ trunc f = Some v ∧ SFeqb f (of_int Input v) = true.
Proof.
  intros Hf Hnan. unfold TryLosslessCast_float_int, float_value_contained_in_int.
  destruct (SFltb _ f) eqn:Hmax; [by eexists|]. destruct (SFltb f _) eqn:Hmin; [by eexists|]. cbn [orb].
  destruct (trunc f) as [z|] eqn:Hz.
  - pose proof (contained_in_range Output Input f z Hf Hmax Hmin Hz) as Hr.
    assert (to_int Output f = Ret z) as Hto by (unfold to_int; rewrite Hz; by rewrite decide_True).
    rewrite Hto. cbn [mbind outcome_bind]. destruct (SFeqb f (of_int Input z)) eqn:He; [|by eexists].
    eexists. split; [done|]. intros v [= <-]. done.
  - destruct f as [?|[]| |]; try done; by destruct Output, Input.
Qed.

(** A cast of a floating-point value to an integer type is undefined
    behaviour for a NaN, which passes both range checks; for every other value
    it returns, and an integer it returns lies in the range of the type, is the
    value without its fraction and converts back to the value. *)
Theorem lossless_cast_floating Output Input f :
  valid_binary (prec Input) (emax Input) f = true →
  if isnan f then TryLosslessCast_float_int Output Input f = Undefined
  else ∃ r, TryLosslessCast_float_int Output Input f = Ret r ∧
         ∀ v, r = Value v → in_range Output v ∧ trunc f = Some v ∧ SFeqb f (of_int Input v) = true.
Proof.
  intros Hf. destruct (isnan f) eqn:Hnan; [|by apply TryLosslessCast_float_int_returns].
  destruct f; try done. by destruct Output, Input.
Qed.

Lemma lossless_cast_floating_witness :
  TryLosslessCast_float_int int32_t float64 S754_nan = Undefined ∧
  ∃ r, TryLosslessCast_float_int uint8_t float64 (of_int float64 200) = Ret r ∧
    ∀ v, r = Value v → in_range uint8_t v ∧ trunc (of_int float64 200) = Some v ∧
                       SFeqb (of_int float64 200) (of_int float64 v) = true.
Proof.
  split; [exact (lossless_cast_floating int32_t float64 S754_nan eq_refl)|].
  exact (lossless_cast_floating uint8_t float64 (of_int float64 200) eq_refl).
Defined.

Lemma clone_members l object :
  Forall (λ kv, CloneByValue kv.2 = kv.2) l → sorted_keys (object ++ l) →
  (fix clone_members (object v : list (str * Any)) : list (str * Any) :=
     match v with
     | [] => object
     | (key, value) :: v => clone_members (map_assign key (CloneByValue value) object) v
     end) object l = object ++ l.
Proof.
  intros Hl. revert object. induction Hl as [|[k v] l Hv _ IH]; intros object Hs; [by rewrite app_nil_r|].
  simpl in Hv. rewrite Hv. destruct (sorted_keys_app _ _ _ _ Hs) as [Hk _].
  rewrite map_assign_last by done. rewrite IH; by rewrite <- (assoc_L (++)).
Qed.

(** [CloneByValue] of a well-formed tree is a tree with the same content:
    inserting the members one by one restores the order of the map. *)
Theorem clone_by_value_identity a : wf_any a → CloneByValue a = a.
Proof.
  induction a as [b|n|s| |m IH|l IH] using Any_nested_ind; intros Hwf; [done..| |].
  - apply wf_any_Object in Hwf as [Hs Hwf]. simpl. f_equal. apply (clone_members m []); [|done].
    rewrite !Forall_forall in *. auto.
  - apply wf_any_List in Hwf. simpl. f_equal. rewrite !Forall_forall in *.
    rewrite <- (map_id l) at 2. apply map_ext_in. intros v Hv. apply list_elem_of_In in Hv. auto.
Qed.

Lemma clone_by_value_identity_witness :
  CloneByValue (Object [(s! "a", Bool true); (s! "b", List [Null])]) = Object [(s! "a", Bool true); (s! "b", List [Null])].
Proof. apply clone_by_value_identity. vm_compute. tauto. Defined.

End JsonModel.
