(* ===== verification/JsonError.v ===== *)
(** * vajson/json_error_domain.h, parser_state.h: errors and results *)

From S2P Require Import Prelude.

Module JsonError.

Inductive JsonErrc :=
| kNotInitialized
| kInvalidJson
| kUserValidationFailed
| kStreamFailure
| kInvalidApiUsage.

(** An [Error] of the JSON error domain: its code and the user message. *)
Record Error := MakeError { code : JsonErrc; user_message : string }.

Definition Result (A : Type) : Type := expected Error A.

Definition MakeErrorResult {A} (error_code : JsonErrc) (user_message : string) : Result A :=
  Unexpected (MakeError error_code user_message).

Definition MakeResult (value : bool) (error : Error) : Result () :=
  if value then Value () else Unexpected error.

Definition Filter {A} (result : Result A) (pred : A → bool) (error : Error) : Result A :=
  match result with
  | Value a => if negb (pred a) then Unexpected error else result
  | Unexpected _ => result
  end.

Definition Drop {A} (result : Result A) : Result () :=
  match result with Value _ => Value () | Unexpected e => Unexpected e end.

Definition transform {A B} (f : A → B) (result : Result A) : Result B :=
  match result with Value a => Value (f a) | Unexpected e => Unexpected e end.

(** [has_value()] *)
Definition has_value {A} (result : Result A) : bool :=
  match result with Value _ => true | Unexpected _ => false end.

(** [MessageFor] of the error domain. *)
Definition MessageFor (error_code : Z) : string :=
  match (if ((error_code <? 1) || (5 <? error_code))%Z then 0%Z else error_code) with
  | 1%Z => "kNotInitialized: Result was not initialized."
  | 2%Z => "kInvalidJson: Invalid JSON was encountered."
  | 3%Z => "kUserValidationFailed: The user aborted due to a validation failure."
  | 4%Z => "kStreamFailure: The underlying file or character stream encountered an error."
  | 5%Z => "kInvalidApiUsage: Invalid usage of vaJson APIs, see vaJson Technical Reference"
  | _ => "Unknown error."
  end.

Inductive ParserState := kRunning | kFinished.

Definition ParserResult : Type := Result ParserState.

#[export] Instance JsonErrc_eq_dec : EqDecision JsonErrc.
Proof. solve_decision. Defined.
#[export] Instance Error_eq_dec : EqDecision Error.
Proof. solve_decision. Defined.
#[export] Instance ParserState_eq_dec : EqDecision ParserState.
Proof. solve_decision. Defined.

(** [result == ParserState::kRunning] *)
Definition is_running (result : ParserResult) : bool :=
  match result with Value kRunning => true | _ => false end.

(** ** Methods that change an object and return a [Result]

    [m s] is the outcome of the call on the object state [s]: the returned
    value and the state afterwards. *)

Definition method (S A : Type) : Type := S → outcome (A * S).

Definition ret_m {S A} (a : A) : method S A := λ s, Ret (a, s).
Definition bind_m {S A B} (m : method S A) (k : A → method S B) : method S B :=
  λ s, match m s with Ret (a, s') => k a s' | Aborted => Aborted | Undefined => Undefined end.

(** [m().and_then(k)] and [m().transform(f)]: an error is passed on. *)
Definition and_then {S A B} (m : method S (Result A)) (k : A → method S (Result B)) :
    method S (Result B) :=
  bind_m m (λ r, match r with Value a => k a | Unexpected e => ret_m (Unexpected e) end).

(** ** Total correctness of methods

    [triple P m Q]: from every state with [P] the call returns, and the value
    and the state afterwards are related by [Q]. *)

Definition triple {S A} (P : S → Prop) (m : method S A) (Q : A → S → Prop) : Prop :=
  ∀ s, P s → ∃ a s', m s = Ret (a, s') ∧ Q a s'.

Lemma triple_ret {S A} (P : S → Prop) (a : A) (Q : A → S → Prop) :
  (∀ s, P s → Q a s) → triple P (ret_m a) Q.
Proof. intros H s Hs. exists a, s. auto. Qed.

Lemma triple_bind {S A B} (P : S → Prop) (m : method S A) (k : A → method S B) Q R :
  triple P m Q → (∀ a, triple (Q a) (k a) R) → triple P (bind_m m k) R.
Proof.
  intros Hm Hk s Hs. destruct (Hm s Hs) as (a & s' & E & Hq). unfold bind_m. rewrite E. by apply Hk.
Qed.

Lemma triple_and_then {S A B} (P : S → Prop) (m : method S (Result A)) (k : A → method S (Result B)) Q R :
  triple P m Q → (∀ a, triple (Q (Value a)) (k a) R) →
  (∀ e s, Q (Unexpected e) s → R (Unexpected e) s) → triple P (and_then m k) R.
Proof.
  intros Hm Hk He. unfold and_then. eapply triple_bind; [exact Hm|]. intros [a|e]; [apply Hk|].
  apply triple_ret. auto.
Qed.

Lemma triple_weaken {S A} (P P' : S → Prop) (m : method S A) (Q Q' : A → S → Prop) :
  triple P m Q → (∀ s, P' s → P s) → (∀ a s, Q a s → Q' a s) → triple P' m Q'.
Proof. intros Hm HP HQ s Hs. destruct (Hm s) as (a & s' & E & ?); eauto 6. Qed.

End JsonError.

Notation "x <-- m ;; k" := (JsonError.bind_m m (λ x, k))
  (at level 100, m at next level, right associativity) : stdpp_scope.
Notation "m ;;; k" := (JsonError.bind_m m (λ _, k))
  (at level 100, right associativity) : stdpp_scope.
