(* ===== verification/DepthCounter.v ===== *)
(** * vajson/depth_counter.h: nesting of the document being parsed

    [stack_] holds an open bracket or brace for every open container and a
    [k] above a brace while a key waits for its value; [counter_] counts the
    elements of every open container.  The heads of the lists are the tops of
    the stacks; [top()] and [pop()] of an empty stack are undefined. *)

From S2P Require Import Prelude JsonError.
Import JsonError.

Module DepthCounter.

Record DepthCounter := mkDepthCounter {
  stack_ : list ascii;
  counter_ : list Z;
  comma_expected_ : bool;
  is_finished_ : bool;
}.

Definition initial : DepthCounter := mkDepthCounter [] [] false false.

Definition top {A} (l : list A) : outcome A := match l with [] => Undefined | a :: _ => Ret a end.
Definition pop {A} (l : list A) : outcome (list A) := match l with [] => Undefined | _ :: l => Ret l end.

(** [++counter_.top()] on a 64-bit [std::size_t]. *)
Definition increment_top (l : list Z) : outcome (list Z) :=
  match l with [] => Undefined | n :: l => Ret (((n + 1) mod 2 ^ 64)%Z :: l) end.

Definition IsEmpty (d : DepthCounter) : bool := bool_decide (stack_ d = []).

Definition CheckLastElement (item : ascii) (d : DepthCounter) : bool :=
  match stack_ d with [] => false | last :: _ => bool_decide (last = item) end.

Definition CheckIfFinished (d : DepthCounter) : DepthCounter :=
  if IsEmpty d then mkDepthCounter (stack_ d) (counter_ d) (comma_expected_ d) true else d.

Definition CheckEndOfFile (d : DepthCounter) : ParserResult :=
  if negb (is_finished_ d) && IsEmpty d then
    MakeErrorResult kInvalidJson "DepthCounter::CheckEndOfFile: Empty document."
  else if negb (is_finished_ d) && CheckLastElement "[" d then
    MakeErrorResult kInvalidJson "DepthCounter::CheckEndOfFile: Expected closing brackets."
  else if negb (is_finished_ d) && negb (IsEmpty d) && negb (CheckLastElement "[" d) then
    MakeErrorResult kInvalidJson "DepthCounter::CheckEndOfFile: Expected closing braces."
  else Value kFinished.

Definition AddElement (element : ascii) : method DepthCounter (Result ()) := λ d,
  if is_finished_ d then
    Ret (MakeErrorResult kInvalidJson "DepthCounter::AddElement: Multiple top level elements.", d)
  else if CheckLastElement "{" d then
    Ret (MakeErrorResult kInvalidJson "DepthCounter::AddElement: Expected a key.", d)
  else if comma_expected_ d then
    Ret (MakeErrorResult kInvalidJson "DepthCounter::AddElement: Missing comma.", d)
  else
    stack ← (if CheckLastElement "k" d then pop (stack_ d) else Ret (stack_ d));
    Ret (Value (), mkDepthCounter (element :: stack) (0%Z :: counter_ d) (comma_expected_ d) (is_finished_ d)).

Definition AddArray : method DepthCounter (Result ()) := AddElement "[".
Definition AddObject : method DepthCounter (Result ()) := AddElement "{".

Definition AddKey : method DepthCounter (Result ()) := λ d,
  if is_finished_ d then
    Ret (MakeErrorResult kInvalidJson "DepthCounter::AddKey: Multiple top level elements.", d)
  else if comma_expected_ d then
    Ret (MakeErrorResult kInvalidJson "DepthCounter::AddKey: Missing comma.", d)
  else if CheckLastElement "{" d then
    Ret (Value (), mkDepthCounter ("k"%char :: stack_ d) (counter_ d) (comma_expected_ d) (is_finished_ d))
  else
    Ret (MakeErrorResult kInvalidJson "DepthCounter::AddKey: Expected a value.", d).

Definition AddValue : method DepthCounter (Result ()) := λ d,
  if is_finished_ d then
    Ret (MakeErrorResult kInvalidJson "DepthCounter::AddValue: Multiple top level elements.", d)
  else if comma_expected_ d then
    Ret (MakeErrorResult kInvalidJson "DepthCounter::AddValue: Missing comma.", d)
  else if negb (IsEmpty d) then
    last ← top (stack_ d);
    if decide (last = "["%char) then
      counter ← increment_top (counter_ d);
      Ret (Value (), mkDepthCounter (stack_ d) counter true (is_finished_ d))
    else if decide (last = "k"%char) then
      stack ← pop (stack_ d);
      counter ← increment_top (counter_ d);
      Ret (Value (), mkDepthCounter stack counter true (is_finished_ d))
    else
      Ret (MakeErrorResult kInvalidJson "DepthCounter::AddValue: Expected a key.",
           mkDepthCounter (stack_ d) (counter_ d) true (is_finished_ d))
  else
    Ret (Value (), mkDepthCounter (stack_ d) (counter_ d) (comma_expected_ d) true).

(** The number of elements of the closed container. *)
Definition Pop : method DepthCounter Z := λ d,
  count ← top (counter_ d);
  counter ← pop (counter_ d);
  stack ← pop (stack_ d);
  let d := mkDepthCounter stack counter (comma_expected_ d) (is_finished_ d) in
  counter ← (if CheckLastElement "[" d || CheckLastElement "{" d
             then increment_top (counter_ d) else Ret (counter_ d));
  Ret (count, CheckIfFinished (mkDepthCounter (stack_ d) counter (comma_expected_ d) (is_finished_ d))).

Definition PopContainer (open : ascii) (message : string) : method DepthCounter (Result Z) := λ d,
  match MakeResult (CheckLastElement open d) (MakeError kInvalidJson message) with
  | Value _ =>
      r ← Pop (mkDepthCounter (stack_ d) (counter_ d) true (is_finished_ d));
      Ret (Value r.1, r.2)
  | Unexpected e => Ret (Unexpected e, d)
  end.

Definition PopObject : method DepthCounter (Result Z) :=
  PopContainer "{" "DepthCounter::PopObject: Not in an object.".
Definition PopArray : method DepthCounter (Result Z) :=
  PopContainer "[" "DepthCounter::PopArray: Not in an array.".

Definition AddComma : method DepthCounter bool := λ d,
  let d := mkDepthCounter (stack_ d) (counter_ d)
             (if comma_expected_ d then false else comma_expected_ d) (is_finished_ d) in
  if negb (IsEmpty d) then
    last ← top (stack_ d);
    Ret (negb (bool_decide (last = "k"%char)), d)
  else Ret (false, d).

(** ** Invariant

    Every entry is an open bracket, an open brace or, on top of a brace, a
    pending key; there is a counter for every open container; a finished
    document has none left. *)

Fixpoint containers (stack : list ascii) : Prop :=
  match stack with
  | [] => True
  | c :: stack => (c = "["%char ∨ c = "{"%char) ∧ containers stack
  end.

Definition well_nested (stack : list ascii) : Prop :=
  containers stack ∨ ∃ stack', stack = "k"%char :: "{"%char :: stack' ∧ containers stack'.

Definition open_containers (stack : list ascii) : nat :=
  match stack with
  | c :: stack' => if decide (c = "k"%char) then length stack' else length stack
  | [] => 0
  end.

Record inv (d : DepthCounter) : Prop := {
  inv_nested : well_nested (stack_ d);
  inv_counter : length (counter_ d) = open_containers (stack_ d);
  inv_counts : Forall (λ n, 0 <= n < 2 ^ 64)%Z (counter_ d);
  inv_finished : is_finished_ d = true → stack_ d = [];
  inv_comma : comma_expected_ d = true → CheckLastElement "k" d = false;
}.

(** The method returns, and keeps the invariant. *)
Definition keeps_inv {A} (m : method DepthCounter A) : Prop :=
  ∀ d, inv d → ∃ r d', m d = Ret (r, d') ∧ inv d'.

Lemma initial_inv : inv initial.
Proof. by split; try (by left); try done; constructor. Qed.

Lemma containers_no_k stack : containers ("k"%char :: stack) → False.
Proof. intros [[|] _]; done. Qed.

(** What is on top, with the stack below. *)
Lemma inv_cases d :
  inv d →
  stack_ d = [] ∧ counter_ d = [] ∨
  (∃ st n cs, stack_ d = "["%char :: st ∧ containers st ∧ counter_ d = n :: cs ∧ length cs = length st) ∨
  (∃ st n cs, stack_ d = "{"%char :: st ∧ containers st ∧ counter_ d = n :: cs ∧ length cs = length st) ∨
  (∃ st n cs, stack_ d = "k"%char :: "{"%char :: st ∧ containers st ∧ counter_ d = n :: cs ∧
              length cs = length st).
Proof.
  intros [Hn Hc _ _ _]. destruct Hn as [Hn|(st & Hst & Hn)].
  - destruct (stack_ d) as [|c st]; simpl in Hc.
    + left. by destruct (counter_ d).
    + destruct Hn as [[-> | ->] Hn]; simpl in Hc; destruct (counter_ d) as [|n cs]; try done;
        simplify_eq/=; [right; left|right; right; left]; by exists st, n, cs.
  - rewrite Hst in Hc. simpl in Hc. destruct (counter_ d) as [|n cs]; [done|]. simplify_eq/=.
    right. right. right. by exists st, n, cs.
Qed.

(** Case analysis on the top of the stack. *)
Ltac top_cases H :=
  destruct H as [[Hs Hcs]|[(st & n & cs & Hs & Hst & Hcs & Hl)|
    [(st & n & cs & Hs & Hst & Hcs & Hl)|(st & n & cs & Hs & Hst & Hcs & Hl)]]].

Lemma containers_top st d :
  containers st → stack_ d = st →
  CheckLastElement "k" d = false ∧
  (CheckLastElement "[" d || CheckLastElement "{" d = bool_decide (st ≠ [])).
Proof. unfold CheckLastElement. intros Hst ->. destruct st as [|c st]; [done|]. by destruct Hst as [[-> | ->] _]. Qed.

Lemma open_containers_containers st : containers st → open_containers st = length st.
Proof. destruct st as [|c st]; [done|]. by intros [[-> | ->] _]. Qed.

Lemma mod_count n : (0 <= (n + 1) mod 2 ^ 64 < 2 ^ 64)%Z.
Proof. apply Z.mod_pos_bound. lia. Qed.

(** A state without a pending key. *)
Lemma inv_containers st cs (comma finished : bool) :
  containers st → length cs = length st → Forall (λ n, 0 <= n < 2 ^ 64)%Z cs →
  (finished = true → st = []) → inv (mkDepthCounter st cs comma finished).
Proof.
  intros Hst Hl Hf Hfin. split; simpl; auto.
  - by left.
  - by rewrite open_containers_containers.
  - intros _. by apply (containers_top st).
Qed.

Lemma AddElement_inv element :
  (element = "["%char ∨ element = "{"%char) → keeps_inv (AddElement element).
Proof.
  intros He d Hd. unfold AddElement. pose proof (inv_cases d Hd) as Hcases.
  destruct (is_finished_ d) eqn:Ef; [eauto 10|].
  destruct (CheckLastElement "{" d) eqn:Eo; [eauto 10|].
  destruct (comma_expected_ d) eqn:Ec; [eauto 10|].
  destruct Hd as [Hn Hc Hf Hfin Hk]. unfold CheckLastElement in *.
  top_cases Hcases;
    rewrite Hs, Hcs in *; try done; simpl; (do 2 eexists; split; [done|]; apply inv_containers);
    simpl; try done; try (by split; [auto|]); try (by constructor); try (split; [auto|]; split; [auto|done]);
    try lia.
Qed.

Lemma AddKey_inv : keeps_inv AddKey.
Proof.
  intros d Hd. unfold AddKey. pose proof (inv_cases d Hd) as Hcases.
  destruct (is_finished_ d) eqn:Ef; [eauto 10|]. destruct (comma_expected_ d) eqn:Ec; [eauto 10|].
  destruct (CheckLastElement "{" d) eqn:Eo; [|eauto 10]. unfold CheckLastElement in Eo.
  destruct Hd as [Hn Hc Hf Hfin Hk].
  top_cases Hcases; rewrite Hs in *; try done.
  do 2 eexists. split; [done|]. split; simpl; try done.
  - right. eauto.
Qed.

Lemma AddValue_inv : keeps_inv AddValue.
Proof.
  intros d Hd. unfold AddValue. pose proof (inv_cases d Hd) as Hcases.
  destruct (is_finished_ d) eqn:Ef; [eauto 10|]. destruct (comma_expected_ d) eqn:Ec; [eauto 10|].
  destruct Hd as [Hn Hc Hf Hfin Hk]. unfold IsEmpty.
  top_cases Hcases;
    rewrite Hs, Hcs in *; simpl; (do 2 eexists; split; [done|]; apply inv_containers); simpl; auto;
    try lia; inversion Hf; subst; try (by constructor; [apply mod_count|]).
Qed.

Lemma Pop_inv d :
  inv d → (CheckLastElement "[" d || CheckLastElement "{" d = true) → is_finished_ d = false →
  ∃ n d', Pop d = Ret (n, d') ∧ inv d'.
Proof.
  intros Hd Htop Hfin'. pose proof (inv_cases d Hd) as Hcases. destruct Hd as [Hn Hc Hf Hfin Hk].
  unfold CheckLastElement in Htop.
  assert (∃ c st n cs, stack_ d = c :: st ∧ containers st ∧ counter_ d = n :: cs ∧ length cs = length st)
    as (c & st & n & cs & Hs & Hst & Hcs & Hl).
  { destruct Hcases as [[Hs Hcs]|[(st & n & cs & Hs & ?)|
    [(st & n & cs & Hs & ?)|(st & n & cs & Hs & ?)]]]; rewrite Hs in Htop; try done; eauto 10. }
  clear Hcases Htop Hn Hc. unfold Pop. rewrite Hs, Hcs in *. cbn [top pop mbind outcome_bind].
  apply Forall_cons in Hf as [_ Hf].
  destruct (containers_top st (mkDepthCounter st cs (comma_expected_ d) (is_finished_ d))) as [_ ->]; [done..|].
  destruct st as [|c' st].
  - rewrite bool_decide_false by naive_solver. do 2 eexists. split; [done|].
    unfold CheckIfFinished. simpl. by apply inv_containers.
  - rewrite bool_decide_true by done. destruct cs as [|m cs]; [done|]. simpl. do 2 eexists. split; [done|].
    apply inv_containers; simpl; try done.
    + apply Forall_cons in Hf as [_ Hf]. constructor; [apply mod_count|done].
    + by rewrite Hfin'.
Qed.

Lemma PopContainer_inv open message :
  (open = "["%char ∨ open = "{"%char) → keeps_inv (PopContainer open message).
Proof.
  intros Ho d Hd. unfold PopContainer, MakeResult. destruct (CheckLastElement open d) eqn:E; [|eauto 10].
  assert (stack_ d ≠ []) as Hne by (intros Hs; unfold CheckLastElement in E; by rewrite Hs in E).
  assert (is_finished_ d = false) as Hfin.
  { destruct (is_finished_ d) eqn:Ef; [|done]. by destruct (Hne (inv_finished d Hd Ef)). }
  destruct (Pop_inv (mkDepthCounter (stack_ d) (counter_ d) true (is_finished_ d))) as (n & d' & Hp & Hd').
  - destruct Hd as [Hn Hc Hf Hfi Hk]. split; try done. intros _. unfold CheckLastElement in *. simpl.
    destruct (stack_ d); [done|]. apply bool_decide_eq_true in E. by destruct Ho; subst.
  - unfold CheckLastElement in *. simpl. destruct (stack_ d); [done|]. apply bool_decide_eq_true in E.
    by destruct Ho; subst.
  - done.
  - rewrite Hp. eauto.
Qed.

Lemma AddComma_inv : keeps_inv AddComma.
Proof.
  intros d Hd. unfold AddComma.
  assert (inv (mkDepthCounter (stack_ d) (counter_ d)
    (if comma_expected_ d then false else comma_expected_ d) (is_finished_ d))) as Hd'.
  { destruct Hd as [Hn Hc Hf Hfin Hk]. split; try done. simpl. by destruct (comma_expected_ d). }
  unfold IsEmpty. simpl. destruct (stack_ d) eqn:E; simpl; eauto.
Qed.

(** ** Properties *)

(** From the initial state on, every method of [DepthCounter] returns
    without touching an empty stack, and keeps its invariant: pending keys
    only on top of an open brace, one counter below 2^64 per open container,
    nothing open once finished. *)
Theorem depth_counter_invariant :
  inv initial ∧ keeps_inv AddArray ∧ keeps_inv AddObject ∧ keeps_inv AddKey ∧ keeps_inv AddValue ∧
  keeps_inv PopObject ∧ keeps_inv PopArray ∧ keeps_inv AddComma.
Proof.
  split_and!; [apply initial_inv|apply AddElement_inv|apply AddElement_inv|apply AddKey_inv|
    apply AddValue_inv|apply PopContainer_inv|apply PopContainer_inv|apply AddComma_inv]; auto.
Qed.

(** An end of file is accepted exactly if the document is complete: one
    top-level element was read and nothing is open. *)
Theorem end_of_file_accepted d :
  inv d → (CheckEndOfFile d = Value kFinished ↔ is_finished_ d = true) ∧
          (is_finished_ d = true → stack_ d = []).
Proof.
  intros Hd. split; [|apply Hd]. unfold CheckEndOfFile, IsEmpty, CheckLastElement.
  destruct (is_finished_ d); simpl; [done|]. destruct (stack_ d) as [|c st]; simpl; [done|].
  by destruct (bool_decide (c = "["%char)).
Qed.

Lemma end_of_file_accepted_witness :
  CheckEndOfFile (mkDepthCounter [] [] false true) = Value kFinished.
Proof.
  destruct (end_of_file_accepted (mkDepthCounter [] [] false true)) as [[_ H] _].
  - split; cbn; try reflexivity; [left; exact I|apply Forall_nil_2].
  - apply H. reflexivity.
Defined.

End DepthCounter.
