(* ===== verification/JsonNumber.v ===== *)
(** * vajson/number_parser.h, json_number.h: the text of a number *)

From S2P Require Import Prelude CppInt CppString CppFloat JsonError.
Import CppFloat JsonError.

Module JsonNumber.

(** ** number_parser.h *)

Definition IsDigit (chr : ascii) : bool :=
  ((char_code "0"%char <=? char_code chr) && (char_code chr <=? char_code "9"%char))%Z.

Definition LongLong (view : str) : conversion Z := strtoll view.

(** The text of a negative number counts as not parsed at all. *)
Definition UnsignedLongLong (view : str) : outcome (conversion Z) :=
  first ← front view;
  Ret (if decide (first = "-"%char) then mkConversion 0%Z false view else strtoull view).

Definition Double (view : str) : spec_float * str := strtod view.

(** ** json_number.h *)

Record JsonNumber := mkJsonNumber { view_ : str }.

Definition view_at (view : str) (i : nat) : outcome ascii :=
  match view !! i with Some c => Ret c | None => Undefined end.

Definition kValidLetters : str := s! ".eExX".

Definition Validate (num : JsonNumber) : outcome bool :=
  let size := length (view_ num) in
  first ← view_at (view_ num) 0;
  let first_digit_pos := if decide (first = "-"%char) then 1 else 0 in
  let is_multiple_digits := (first_digit_pos + 1 <? size)%nat in
  if is_multiple_digits then
    digit ← view_at (view_ num) first_digit_pos;
    if negb (bool_decide (digit = "0"%char)) then Ret true
    else
      next ← view_at (view_ num) (first_digit_pos + 1);
      Ret (existsb (λ ch, bool_decide (next = ch)) kValidLetters)
  else if (size =? first_digit_pos + 1)%nat then
    digit ← view_at (view_ num) first_digit_pos;
    Ret (IsDigit digit)
  else Ret false.

Definition New (view : str) : outcome (Result JsonNumber) :=
  let num := mkJsonNumber view in
  match Filter (Value num) (λ num, negb (bool_decide (view_ num = [])))
          (MakeError kInvalidJson "JsonNumber::New: View must not be empty.") with
  | Value num =>
      valid ← Validate num;
      Ret (Filter (Value num) (λ _, valid)
             (MakeError kInvalidJson "JsonNumber::New: Number contains invalid characters."))
  | Unexpected e => Ret (Unexpected e)
  end.

(** [Cast<TargetType>]: the comparison happens in the common type. *)
Definition Cast (TargetType SourceType : int_type) (number : Z) : option Z :=
  let CommonType := usual_arith TargetType SourceType in
  let value := static_cast CommonType number in
  if ((value <=? static_cast CommonType (max TargetType)) &&
      (static_cast CommonType (lowest TargetType) <=? value))%Z
  then Some (static_cast TargetType number) else None.

Definition max_double : spec_float := SFmax_float 53 1024.

Definition Cast_double (number : spec_float) : option spec_float :=
  if SFleb number max_double && SFleb (SFopp max_double) number then Some number else None.

(** [end] is at the end of the view if nothing was left unparsed. *)
Definition ParseFormatSuccessful (num : JsonNumber) (rest : str) : outcome bool :=
  if bool_decide (rest = []) then
    last ← back (view_ num); Ret (negb (bool_decide (last = "."%char)))
  else Ret false.

Definition ExtractIfIntegerSuccessful (TargetType SourceType : int_type) (num : JsonNumber)
    (c : conversion Z) : outcome (option Z) :=
  if negb (erange c) then
    success ← ParseFormatSuccessful num (unparsed c);
    Ret (if (success : bool) then Cast TargetType SourceType (value c) else None)
  else Ret None.

(** [As<T>()] for signed and for unsigned integers. *)
Definition As_int (T : int_type) (num : JsonNumber) : outcome (option Z) :=
  if is_signed T then ExtractIfIntegerSuccessful T int64_t num (LongLong (view_ num))
  else
    c ← UnsignedLongLong (view_ num);
    ExtractIfIntegerSuccessful T uint64_t num c.

Definition As_double (num : JsonNumber) : outcome (option spec_float) :=
  let '(conversion_result, rest) := Double (view_ num) in
  success ← ParseFormatSuccessful num rest;
  Ret (if success && isfinite conversion_result && bool_decide (is_Some (Cast_double conversion_result))
       then Cast_double conversion_result else None).

Definition As_bool (num : JsonNumber) : option bool :=
  match view_ num with
  | [c] => if decide (c = "1"%char) then Some true
           else if decide (c = "0"%char) then Some false else None
  | _ => None
  end.

End JsonNumber.
