(* ===== verification/JsonReader.v ===== *)
(** * vajson/json_ops, json_data, structure_parser_base: the event parser

    [JsonOps] works on the input stream; [StructureParserBase] reads tokens,
    keeps the [DepthCounter] and reports events to an [Implementer], which is
    an interface here as it is in the source. *)

From S2P Require Import Prelude CppString CppStream JsonError DepthCounter JsonNumber.
Import Stream JsonError JsonNumber.

Module JsonOps.

(** [OptChar]: a character, or end of file. *)
Definition OptChar : Type := option ascii.
Definition EofFound (o : OptChar) : bool := match o with None => true | Some _ => false end.
Definition HasValue (o : OptChar) : bool := negb (EofFound o).
Definition is_char (o : OptChar) (candidate : ascii) : bool :=
  match o with Some c => bool_decide (c = candidate) | None => false end.

Definition lift {A} (f : istream → A * istream) : method istream A := λ s, Ret (f s).

Definition TryTake : method istream (Result ascii) :=
  c <-- lift get;;
  ret_m (match c with
         | Some c => Value c
         | None => MakeErrorResult kStreamFailure "JsonOps::TryTake: EOF."
         end).

(** [value()] of an error aborts. *)
Definition Take : method istream ascii :=
  r <-- TryTake;;
  match r with Value c => ret_m c | Unexpected _ => λ _, Aborted end.

Definition Move : method istream bool := λ s,
  let s := seekg_cur 1 s in Ret (negb (fail s), s).

Definition Skip (character : ascii) : method istream bool :=
  peek_val <-- lift peek;;
  if is_char peek_val character then
    _ <-- lift get;;
    λ s, Ret (negb (fail s), s)
  else ret_m false.

Definition RewindIf (condition : bool) (num : nat) : method istream (Result ()) := λ s,
  if condition then
    let s := seekg_cur (- Z.of_nat num) s in
    Ret (if fail s then MakeErrorResult kStreamFailure "JsonOps::RewindIf: Could not seek back."
         else Value (), s)
  else Ret (Value (), s).

(** [Read] hands the characters it read to the callback, unless there are none. *)
Definition Read {B} (num_to_read : nat) (callback : str → B → B) (b : B) :
    method istream (Result nat * B) :=
  view <-- lift (read num_to_read);;
  let bytes_read := length view in
  ret_m (Value bytes_read, if (0 <? bytes_read)%nat then callback view b else b).

(** The callback of [ReadString] compares the view with the next part of what
    is to be read. *)
Definition compare_view (view : str) (b : bool * str) : bool * str :=
  let '(is_same, to_be_read) := b in
  let to_be_compared := take (length view) to_be_read in
  let to_be_read := drop (length view) to_be_read in
  (if negb (bool_decide (view = to_be_compared)) then false else is_same, to_be_read).

Definition ReadString (string : str) : method istream (Result bool) :=
  if bool_decide (string = []) then λ _, Aborted
  else
    let total_size := length string in
    r <-- Read total_size compare_view (true, string);;
    let '(read_size, (is_same, _)) := r in
    match read_size with
    | Value read_size =>
        rewound <-- RewindIf (negb is_same || negb (total_size =? read_size)%nat) read_size;;
        ret_m (transform (λ _, is_same) rewound)
    | Unexpected e => ret_m (Unexpected e)
    end.

Definition CheckString (string : str) (error_msg : String.string) : method istream (Result ()) :=
  and_then (ReadString string) (λ val,
    ret_m (if (val : bool) then Value () else MakeErrorResult kInvalidJson error_msg)).

Definition is_whitespace (c : ascii) : bool := existsb (λ wc, bool_decide (c = wc)) (s! " " ++ ["010"%char; "013"%char; "009"%char]).

(** The [while] loop; [fuel] bounds it by the unread characters. *)
Fixpoint SkipWhitespace_loop (fuel : nat) : method istream bool :=
  match fuel with
  | O => λ _, Undefined
  | S fuel =>
      ch <-- lift peek;;
      match ch with
      | None => ret_m false
      | Some c => if negb (is_whitespace c) then ret_m true
                  else _ <-- lift get;; SkipWhitespace_loop fuel
      end
  end.

Definition SkipWhitespace : method istream bool := λ s,
  SkipWhitespace_loop (S (length (rest s))) s.

(** The [while] loop of [ReadUntil]: the delimiter found and the text before it. *)
Fixpoint ReadUntil_loop (fuel : nat) (delimiter : str) (buffer : str) : method istream (OptChar * str) :=
  match fuel with
  | O => λ _, Undefined
  | S fuel =>
      ch <-- lift peek;;
      match ch with
      | None => ret_m (None, buffer)
      | Some character =>
          if existsb (λ delim, bool_decide (character = delim)) delimiter
          then ret_m (Some character, buffer)
          else _ <-- lift get;; ReadUntil_loop fuel delimiter (buffer ++ [character])
      end
  end.

Definition ReadUntil {B} (delimiter : str) (callback : str → B → B) (b : B) :
    method istream (Result OptChar * B) := λ s,
  (r <-- ReadUntil_loop (S (length (rest s))) delimiter [];;
   let '(found, buffer) := r in
   ret_m (Value found, if bool_decide (buffer = []) then b else callback buffer b)) s.

End JsonOps.

Import JsonOps.

Module JsonData.

Inductive EncodingType := kNone | kUtf8.

Record JsonData := mkJsonData {
  stream_ : istream;
  depth_counter_ : DepthCounter.DepthCounter;
  current_buffer_ : str;
  encoding_ : EncodingType;
}.

Definition kUtf8Bom : str := ["239"%char; "187"%char; "191"%char].

(** A stream too short for the check is put back into a usable state. *)
Definition ParseBom (d : JsonData) : outcome JsonData :=
  r ← ReadString kUtf8Bom (stream_ d);
  let '(result, stream) := r in
  match result with
  | Value b => Ret (mkJsonData stream (depth_counter_ d) (current_buffer_ d)
                      (if (b : bool) then kUtf8 else encoding_ d))
  | Unexpected _ =>
      Ret (mkJsonData (seekg_beg (clear_fail_eof stream)) (depth_counter_ d) (current_buffer_ d) (encoding_ d))
  end.

Definition FromBuffer (buffer : str) : outcome JsonData :=
  ParseBom (mkJsonData (istringstream buffer) DepthCounter.initial [] kNone).

End JsonData.

Import JsonData.

(** The events a parser reports (StructureParser<Implementer>). *)
Class Implementer (I : Type) := {
  OnNull : method I ParserResult;
  OnBool : bool → method I ParserResult;
  OnNumber : JsonNumber → method I ParserResult;
  OnString : str → method I ParserResult;
  OnKey : str → method I ParserResult;
  OnStartObject : method I ParserResult;
  OnEndObject : Z → method I ParserResult;
  OnStartArray : method I ParserResult;
  OnEndArray : Z → method I ParserResult;
}.

Module StructureParser.
Section StructureParser.
  Context {I : Type} `{!Implementer I}.

(** The document and the implementer the parser works on. *)
Record parser := mkParser { doc : JsonData; implementer_ : I }.

Definition set_stream (s : istream) (d : JsonData) : JsonData :=
  mkJsonData s (depth_counter_ d) (current_buffer_ d) (encoding_ d).
Definition set_depth (c : DepthCounter.DepthCounter) (d : JsonData) : JsonData :=
  mkJsonData (stream_ d) c (current_buffer_ d) (encoding_ d).
Definition set_buffer (b : str) (d : JsonData) : JsonData :=
  mkJsonData (stream_ d) (depth_counter_ d) b (encoding_ d).

(** Calls on [GetJsonOps()], [GetState()] and the implementer. *)
Definition ops {A} (m : method istream A) : method parser A := λ p,
  match m (stream_ (doc p)) with
  | Ret (a, s) => Ret (a, mkParser (set_stream s (doc p)) (implementer_ p))
  | Aborted => Aborted
  | Undefined => Undefined
  end.
Definition state {A} (m : method DepthCounter.DepthCounter A) : method parser A := λ p,
  match m (depth_counter_ (doc p)) with
  | Ret (a, c) => Ret (a, mkParser (set_depth c (doc p)) (implementer_ p))
  | Aborted => Aborted
  | Undefined => Undefined
  end.
Definition event {A} (m : method I A) : method parser A := λ p,
  match m (implementer_ p) with
  | Ret (a, i) => Ret (a, mkParser (doc p) i)
  | Aborted => Aborted
  | Undefined => Undefined
  end.

Definition GetCurrentString : method parser str := λ p, Ret (current_buffer_ (doc p), p).
Definition SetBuffer (b : str) : method parser () := λ p,
  Ret ((), mkParser (set_buffer b (doc p)) (implementer_ p)).
Definition GetClearedStringBuffer : method parser () := SetBuffer [].
Definition PushBack (c : ascii) : method parser () := λ p,
  SetBuffer (current_buffer_ (doc p) ++ [c]) p.

(** [ReadUntil] with a callback that appends to the string buffer. *)
Definition ReadUntilAppend (delimiter : str) : method parser (Result OptChar) := λ p,
  match ReadUntil delimiter (λ view buffer, buffer ++ view) (current_buffer_ (doc p)) (stream_ (doc p)) with
  | Ret ((r, buffer), s) => Ret (r, mkParser (set_buffer buffer (set_stream s (doc p))) (implementer_ p))
  | Aborted => Aborted
  | Undefined => Undefined
  end.

(** Two of the messages are string views that include a final NUL. *)
Definition nul : String.string := String.String "000" String.EmptyString.

Definition ParseNull : method parser ParserResult :=
  and_then (and_then (ops (CheckString (s! "ull") "StructureParser::ParseNull: Expected 'null'"))
    (λ _, state DepthCounter.AddValue)) (λ _, event OnNull).

Definition ParseTrue : method parser ParserResult :=
  and_then (and_then (ops (CheckString (s! "rue") ("StructureParser::ParseTrue: Expected 'true'" +:+ nul)))
    (λ _, state DepthCounter.AddValue)) (λ _, event (OnBool true)).

Definition ParseFalse : method parser ParserResult :=
  and_then (and_then (ops (CheckString (s! "alse") ("StructureParser::ParseFalse: Expected 'false'" +:+ nul)))
    (λ _, state DepthCounter.AddValue)) (λ _, event (OnBool false)).

Definition kLimiterChars : str := s! ",}] " ++ ["010"%char; "013"%char; "009"%char].

Definition GetNumber (first : ascii) : method parser str :=
  PushBack first;;;
  _ <-- ReadUntilAppend kLimiterChars;;
  GetCurrentString.

Definition ParseNumber (cur : ascii) : method parser ParserResult :=
  and_then (and_then (state DepthCounter.AddValue)
    (λ _, view <-- GetNumber cur;; λ p, num ← New view; Ret (num, p)))
    (λ num, event (OnNumber num)).

Definition UnescapeChar (escaped : ascii) : Result ascii :=
  if decide (escaped = "b"%char) then Value "008"%char
  else if decide (escaped = "f"%char) then Value "012"%char
  else if decide (escaped = "n"%char) then Value "010"%char
  else if decide (escaped = "r"%char) then Value "013"%char
  else if decide (escaped = "t"%char) then Value "009"%char
  else if decide (escaped = "\"%char ∨ escaped = "/"%char ∨ escaped = "034"%char) then Value escaped
  else if decide (escaped = "u"%char)
       then MakeErrorResult kInvalidJson "Unicode escape: \u notation is not supported!"
       else MakeErrorResult kInvalidJson "Unknown escape sequence!".

Definition string_delimiters : str := ["034"%char; "\"%char].

(** The [while] loop of [ReadJsonString]. *)
Fixpoint ReadJsonString_loop (fuel : nat) (ret_val : Result OptChar) : method parser (Result OptChar) :=
  match fuel with
  | O => λ _, Undefined
  | S fuel =>
      match ret_val with
      | Value o =>
          if negb (is_char o "\") then ret_m ret_val
          else
            _ <-- ops Move;;
            r <-- and_then (and_then (ops TryTake) (λ escaped, ret_m (UnescapeChar escaped)))
                    (λ unescaped, PushBack unescaped;;; ReadUntilAppend string_delimiters);;
            ReadJsonString_loop fuel r
      | Unexpected _ => ret_m ret_val
      end
  end.

Definition ReadJsonString : method parser (Result str) := λ p,
  (GetClearedStringBuffer;;;
   ret_val <-- ReadUntilAppend string_delimiters;;
   ret_val <-- ReadJsonString_loop (S (length (rest (stream_ (doc p))))) ret_val;;
   match Filter ret_val HasValue (MakeError kInvalidJson "ReadJsonString: Runaway string.") with
   | Value _ => _ <-- ops Move;; s <-- GetCurrentString;; ret_m (Value s)
   | Unexpected e => ret_m (Unexpected e)
   end) p.

Definition ParseUnescapedString (string : str) : method parser ParserResult :=
  _ <-- ops SkipWhitespace;;
  colon <-- ops (Skip ":");;
  if (colon : bool)
  then and_then (state DepthCounter.AddKey) (λ _, event (OnKey string))
  else and_then (state DepthCounter.AddValue) (λ _, event (OnString string)).

Definition ParseString : method parser ParserResult := and_then ReadJsonString ParseUnescapedString.

Definition ParseStartObject : method parser ParserResult :=
  and_then (state DepthCounter.AddObject) (λ _, event OnStartObject).
Definition ParseEndObject : method parser ParserResult :=
  and_then (state DepthCounter.PopObject) (λ count, event (OnEndObject count)).
Definition ParseStartArray : method parser ParserResult :=
  and_then (state DepthCounter.AddArray) (λ _, event OnStartArray).
Definition ParseEndArray : method parser ParserResult :=
  and_then (state DepthCounter.PopArray) (λ count, event (OnEndArray count)).

Definition ParseComma : method parser ParserResult :=
  valid <-- state DepthCounter.AddComma;;
  ret_m (transform (λ _, kRunning)
           (MakeResult valid (MakeError kInvalidJson "StructureParser::ParseComma: Unexpected comma."))).

(** The [switch] on the first character of a token. *)
Definition ParseToken (cur : ascii) : method parser ParserResult :=
  if decide (cur = "n"%char) then ParseNull
  else if decide (cur = "t"%char) then ParseTrue
  else if decide (cur = "f"%char) then ParseFalse
  else if decide (cur = "034"%char) then ParseString
  else if decide (cur = "{"%char) then ParseStartObject
  else if decide (cur = "}"%char) then ParseEndObject
  else if decide (cur = "["%char) then ParseStartArray
  else if decide (cur = "]"%char) then ParseEndArray
  else if decide (cur = ","%char) then ParseComma
  else if decide (cur ∈ s! "-0123456789") then ParseNumber cur
  else ret_m (MakeErrorResult kInvalidJson "ParseValue: Got unknown JSON token.").

Definition ParseValue : method parser ParserResult :=
  more <-- ops SkipWhitespace;;
  result <-- (if negb more then state (λ c, Ret (DepthCounter.CheckEndOfFile c, c)) else ret_m (Value kRunning));;
  if is_running result then
    GetClearedStringBuffer;;;
    cur <-- ops Take;;
    ParseToken cur
  else ret_m result.

(** The [while] loop of [Parse]. *)
Fixpoint Parse_loop (fuel : nat) (result : ParserResult) : method parser ParserResult :=
  match fuel with
  | O => λ _, Undefined
  | S fuel =>
      if is_running result then r <-- ParseValue;; Parse_loop fuel r else ret_m result
  end.

Definition Parse : method parser (Result ()) := λ p,
  (more <-- ops SkipWhitespace;;
   let result := transform (λ _, kRunning)
     (MakeResult more (MakeError kInvalidJson "StructureParser::Parse: Document is empty.")) in
   r <-- Parse_loop (S (S (length (rest (stream_ (doc p)))))) result;;
   ret_m (Drop r)) p.

End StructureParser.
Arguments parser : clear implicits.
End StructureParser.
