(* ===== verification/JsonParser.v ===== *)
(** * json_parser.cpp: building the JSON tree from the parser's events

    An [Any*] of the source is the way from the root to a node.  Appending to
    a [std::vector] may move its elements, which invalidates the pointers into
    it; [Store] is undefined if such a pointer is still in [hierarchy_]. *)

From S2P Require Import Prelude CppInt CppString CppFloat CppStream JsonModel JsonError JsonNumber JsonReader.
Import CppFloat JsonModel JsonError JsonNumber JsonReader.

Module AnyTreeBuilder.

Inductive step := Elem (i : nat) | Member (key : str).
Definition pointer : Type := list step.

#[export] Instance step_eq_dec : EqDecision step.
Proof. solve_decision. Defined.

Fixpoint deref (p : pointer) (a : Any) : option Any :=
  match p with
  | [] => Some a
  | Elem i :: p => match a with List l => l !! i ≫= deref p | _ => None end
  | Member k :: p => match a with Object m => map_find k m ≫= deref p | _ => None end
  end.

(** Replaces the value of a member that is present. *)
Fixpoint map_replace (key : str) (value : Any) (m : list (str * Any)) : list (str * Any) :=
  match m with
  | [] => []
  | (k, v) :: m => if decide (k = key) then (k, value) :: m else (k, v) :: map_replace key value m
  end.

(** [*p = value] *)
Fixpoint assign (p : pointer) (value : Any) (a : Any) : option Any :=
  match p with
  | [] => Some value
  | Elem i :: p =>
      match a with
      | List l => v ← l !! i; v ← assign p value v; Some (List (<[i:=v]> l))
      | _ => None
      end
  | Member k :: p =>
      match a with
      | Object m => v ← map_find k m; v ← assign p value v; Some (Object (map_replace k v m))
      | _ => None
      end
  end.

Record AnyTreeBuilder := mkBuilder {
  last_key_ : str;
  hierarchy_ : list pointer;
  root_ : Any;
}.

Definition initial : AnyTreeBuilder := mkBuilder [] [] Null.

(** Whether [q] points into the node at [p]. *)
Definition below (p q : pointer) : bool := bool_decide (p `prefix_of` q) && negb (bool_decide (p = q)).

(** Writing through a pointer that leads nowhere is undefined. *)
Definition write_node (p : pointer) (value : Any) (b : AnyTreeBuilder) : outcome AnyTreeBuilder :=
  match assign p value (root_ b) with
  | Some root => Ret (mkBuilder (last_key_ b) (hierarchy_ b) root)
  | None => Undefined
  end.

Definition Store (value : Any) : method AnyTreeBuilder (MResult pointer) := λ b,
  match hierarchy_ b with
  | [] => Ret (Value [], mkBuilder (last_key_ b) [] value)
  | current_node :: _ =>
      match deref current_node (root_ b) with
      | None => Undefined
      | Some node =>
          match As_List node with
          | Value current_node_list =>
              if existsb (below current_node) (hierarchy_ b) then Undefined
              else
                b ← write_node current_node (List (current_node_list ++ [value])) b;
                Ret (Value (current_node ++ [Elem (length current_node_list)]), b)
          | Unexpected _ =>
              if bool_decide (last_key_ b = []) then Ret (Unexpected kParsingError, b)
              else
                match As_Object node with
                | Unexpected _ => Ret (Unexpected kParsingError, b)
                | Value node_object =>
                    match map_emplace (last_key_ b) value node_object with
                    | None => Ret (Unexpected kParsingError, b)
                    | Some node_object =>
                        let key := last_key_ b in
                        b ← write_node current_node (Object node_object) b;
                        Ret (Value (current_node ++ [Member key]), b)
                    end
                end
          end
      end
  end.

(** The events for values return an error if the value cannot be stored. *)
Definition no_message : String.string := String.EmptyString.

Definition StoreEvent (value : Any) : method AnyTreeBuilder ParserResult :=
  result <-- Store value;;
  ret_m (match result with
         | Value _ => Value kRunning
         | Unexpected _ => MakeErrorResult kInvalidJson no_message
         end).

Definition OnNull : method AnyTreeBuilder ParserResult := StoreEvent Null.
Definition OnBool (value : bool) : method AnyTreeBuilder ParserResult := StoreEvent (Bool value).
Definition OnString (value : str) : method AnyTreeBuilder ParserResult := StoreEvent (String value).

(** The types [OnNumber] tries, in this order, before [double]. *)
Definition integer_types : list int_type :=
  [uint8_t; uint16_t; uint32_t; uint64_t; int8_t; int16_t; int32_t; int64_t].

Fixpoint try_convert (types : list int_type) (value : JsonNumber) : outcome (option Number) :=
  match types with
  | [] => d ← As_double value; Ret (option_map (Floating float64) d)
  | t :: types =>
      r ← As_int t value;
      match r with
      | Some v => Ret (Some (Integer t v))
      | None => try_convert types value
      end
  end.

Definition OnNumber (value : JsonNumber) : method AnyTreeBuilder ParserResult := λ b,
  number ← try_convert integer_types value;
  match number with
  | None => Ret (MakeErrorResult kInvalidJson no_message, b)
  | Some number => StoreEvent (Num number) b
  end.

Definition OnKey (key : str) : method AnyTreeBuilder ParserResult := λ b,
  Ret (Value kRunning, mkBuilder key (hierarchy_ b) (root_ b)).

Definition StartContainer (value : Any) : method AnyTreeBuilder ParserResult :=
  result <-- Store value;;
  match result with
  | Value p => λ b, Ret (Value kRunning, mkBuilder (last_key_ b) (p :: hierarchy_ b) (root_ b))
  | Unexpected _ => ret_m (MakeErrorResult kInvalidJson no_message)
  end.

Definition EndContainer : method AnyTreeBuilder ParserResult := λ b,
  Ret (Value kRunning, mkBuilder (last_key_ b) (tail (hierarchy_ b)) (root_ b)).

#[export] Instance AnyTreeBuilder_Implementer : Implementer AnyTreeBuilder := {|
  JsonReader.OnNull := OnNull;
  JsonReader.OnBool := OnBool;
  JsonReader.OnNumber := OnNumber;
  JsonReader.OnString := OnString;
  JsonReader.OnKey := OnKey;
  JsonReader.OnStartObject := StartContainer (Object []);
  JsonReader.OnEndObject _ := EndContainer;
  JsonReader.OnStartArray := StartContainer (List []);
  JsonReader.OnEndArray _ := EndContainer;
|}.

Definition GetData (doc : JsonData.JsonData) : outcome (MResult Any) :=
  r ← StructureParser.Parse (StructureParser.mkParser doc initial);
  Ret (match r.1 with
       | Value _ => Value (root_ (StructureParser.implementer_ r.2))
       | Unexpected _ => Unexpected kParsingError
       end).

End AnyTreeBuilder.

Module JsonParser.

Definition FromBuffer (buffer : str) : outcome (MResult Any) :=
  json_data ← JsonData.FromBuffer buffer;
  AnyTreeBuilder.GetData json_data.

(** A file is read into a buffer first; [read_file] is the operating system,
    without a value if the file cannot be opened or read. *)
Definition FromFile (read_file : str → option str) (file_path : str) : outcome (MResult Any) :=
  match read_file file_path with
  | Some content => FromBuffer content
  | None => Ret (Unexpected kParsingError)
  end.

(** The user-defined literal [_json] terminates if the text cannot be parsed. *)
Definition json_literal (data : str) : outcome Any :=
  result ← FromBuffer data;
  match result with Value a => Ret a | Unexpected _ => Aborted end.

End JsonParser.
