(* ===== verification/JsonWriter.v ===== *)
(** * score/json/internal/writer, json_writer.cpp: serialising the JSON tree

    The serializers write through a [FormattingWriter] into an output stream.
    The shortest text of a floating-point number, which [std::to_chars]
    computes, is a parameter. *)

From S2P Require Import Prelude CppInt CppString CppFloat CppStream JsonModel.
Import CppFloat Stream JsonModel.

Module JsonWriter.

Inductive Formatting := kCompact | kPrettyPrint.

#[export] Instance Formatting_eq_dec : EqDecision Formatting.
Proof. solve_decision. Defined.

(** ** formatting_writer.h *)

Record FormattingWriter := mkWriter {
  stream_ : ostream;
  formatting_ : Formatting;
  depth_ : Z;
  container_empty_ : bool;
}.

Definition on_stream (f : ostream → ostream) (w : FormattingWriter) : FormattingWriter :=
  mkWriter (f (stream_ w)) (formatting_ w) (depth_ w) (container_empty_ w).

Definition kIndentation : str := s! "    ".
Definition newline : ascii := "010"%char.

(** The [for] loop over the levels writes the indentation [depth_] times. *)
Definition WriteLineBreak (w : FormattingWriter) : FormattingWriter :=
  match formatting_ w with
  | kPrettyPrint =>
      Nat.iter (Z.to_nat (depth_ w)) (on_stream (write kIndentation)) (on_stream (put newline) w)
  | kCompact => w
  end.

Definition BeginContainer (begin : ascii) (w : FormattingWriter) : FormattingWriter :=
  let w := on_stream (put begin) w in
  mkWriter (stream_ w) (formatting_ w) ((depth_ w + 1) mod 2 ^ 64) true.

Definition BeginElement (preceded_by_element : bool) (w : FormattingWriter) : FormattingWriter :=
  let w := if preceded_by_element then on_stream (put ",") w else w in
  let w := WriteLineBreak w in
  mkWriter (stream_ w) (formatting_ w) (depth_ w) false.

Definition WriteNameSeparator (w : FormattingWriter) : FormattingWriter :=
  let w := on_stream (put ":") w in
  match formatting_ w with kPrettyPrint => on_stream (put " ") w | kCompact => w end.

Definition EndContainer (end_ : ascii) (w : FormattingWriter) : FormattingWriter :=
  let w := mkWriter (stream_ w) (formatting_ w) ((depth_ w - 1) mod 2 ^ 64) (container_empty_ w) in
  let w := if negb (container_empty_ w) then WriteLineBreak w else w in
  let w := on_stream (put end_) w in
  mkWriter (stream_ w) (formatting_ w) (depth_ w) false.

(** ** escaped_json_string.h *)

Definition kHexDigits : str := s! "0123456789abcdef".
Definition hex_digit (n : Z) : ascii := nth (Z.to_nat n) kHexDigits "0"%char.

Definition WriteUnicodeEscape (value : Z) : str :=
  s! "\u00" ++ [hex_digit (Z.land (Z.shiftr value 4) 15); hex_digit (Z.land value 15)].

(** The text of one character of a string literal. *)
Definition escape_char (ch : ascii) : str :=
  let value := char_code ch in
  if decide (ch = "034"%char) then ["\"%char; "034"%char]
  else if decide (ch = "\"%char) then s! "\\"
  else if decide (ch = "008"%char) then s! "\b"
  else if decide (ch = "012"%char) then s! "\f"
  else if decide (ch = "010"%char) then s! "\n"
  else if decide (ch = "013"%char) then s! "\r"
  else if decide (ch = "009"%char) then s! "\t"
  else if (value <? 32)%Z then WriteUnicodeEscape value
  else [ch].

(** The loop over the characters of the string. *)
Fixpoint write_escaped (string : str) (o : ostream) : ostream :=
  match string with
  | [] => o
  | ch :: string => write_escaped string (write (escape_char ch) o)
  end.

(** ** Numbers *)

Definition digit_char (d : Z) : ascii := ascii_of_N (Z.to_N (d + 48)).

(** [std::to_chars] of an integer; 20 digits are enough for 64 bits. *)
Fixpoint decimal_digits (fuel : nat) (n : Z) (acc : str) : str :=
  match fuel with
  | O => acc
  | S fuel =>
      if (n <? 10)%Z then digit_char n :: acc
      else decimal_digits fuel (n / 10) (digit_char (n mod 10) :: acc)
  end.

Definition to_chars_int (v : Z) : str :=
  if (v <? 0)%Z then "-"%char :: decimal_digits 20 (- v) [] else decimal_digits 20 v [].

Section Serializers.

(** [std::to_chars] of a floating-point number. *)
Variable to_chars_floating : float_type → spec_float → str.

Definition kBufferSize : nat := 64.

Definition WriteNumber (text : str) (w : FormattingWriter) : outcome FormattingWriter :=
  if (length text <=? kBufferSize)%nat then Ret (on_stream (write text) w) else Aborted.

(** ** generic_value_serializer.h, key_serializer.h

    The template argument of [GenericValueSerializer] says what follows the
    value; only array elements separate themselves from the one before. *)

Inductive Return := Unit | Self | Key.
Inductive SerializerState := kEmpty | kNonEmpty.

Definition is_nonempty (s : SerializerState) : bool := match s with kNonEmpty => true | kEmpty => false end.

Definition Serialize (ret : Return) (state : SerializerState)
    (fn : FormattingWriter → outcome FormattingWriter) (w : FormattingWriter) : outcome FormattingWriter :=
  match ret with
  | Self => fn (BeginElement (is_nonempty state) w)
  | _ => fn w
  end.

Definition quote : ascii := "034"%char.

Definition write_string_literal (s : str) (o : ostream) : ostream :=
  put quote (write_escaped s (put quote o)).

(** [KeySerializer::operator<<] *)
Definition SerializeKey (state : SerializerState) (key : str) (w : FormattingWriter) : FormattingWriter :=
  WriteNameSeparator (on_stream (write_string_literal key) (BeginElement (is_nonempty state) w)).

(** [SerializeNumber]: integers in their 64-bit type, a value that is not
    finite sets the stream's [failbit]. *)
Definition SerializeNumber (n : Number) (w : FormattingWriter) : outcome FormattingWriter :=
  match n with
  | Integer t v =>
      WriteNumber (to_chars_int (static_cast (if is_signed t then int64_t else uint64_t) v)) w
  | Floating t f =>
      if negb (isfinite f) then Ret (on_stream setstate_fail w)
      else WriteNumber (to_chars_floating t f) w
  end.

(** [SerializeValue], with [SerializeObject] and [SerializeList] as its
    branches for objects and lists. *)
Fixpoint SerializeValue (ret : Return) (state : SerializerState) (value : Any) (w : FormattingWriter) :
    outcome FormattingWriter :=
  Serialize ret state (λ w,
    match value with
    | Object members =>
        w ← (fix each (state : SerializerState) (members : list (str * Any)) (w : FormattingWriter) :
               outcome FormattingWriter :=
               match members with
               | [] => Ret w
               | (key, value) :: members =>
                   w ← SerializeValue Key kEmpty value (SerializeKey state key w);
                   each kNonEmpty members w
               end) kEmpty members (BeginContainer "{" w);
        Ret (EndContainer "}" w)
    | List elements =>
        w ← (fix each (state : SerializerState) (elements : list Any) (w : FormattingWriter) :
               outcome FormattingWriter :=
               match elements with
               | [] => Ret w
               | value :: elements =>
                   w ← SerializeValue Self state value w; each kNonEmpty elements w
               end) kEmpty elements (BeginContainer "[" w);
        Ret (EndContainer "]" w)
    | String s => Ret (on_stream (write_string_literal s) w)
    | Null => Ret (on_stream (write (s! "null")) w)
    | Num n => SerializeNumber n w
    | Bool b => Ret (on_stream (write (if b then s! "true" else s! "false")) w)
    end) w.

(** ** serializer.cpp, json_writer.cpp *)

Definition SerializeToStream (out_stream : ostream) (json_data : Any) (formatting : Formatting) :
    outcome (MResult () * ostream) :=
  w ← SerializeValue Unit kEmpty json_data (mkWriter out_stream formatting 0 false);
  Ret (if ofail (stream_ w) then Unexpected kUnknownError else Value (), stream_ w).

(** [JsonWriter::ToBuffer] *)
Definition ToBuffer (formatting : Formatting) (json_data : Any) : outcome (MResult str) :=
  r ← SerializeToStream (mk_ostream [] false) json_data formatting;
  Ret (match r.1 with Value _ => Value (text r.2) | Unexpected e => Unexpected e end).

End Serializers.

End JsonWriter.
