(* ===== verification/JsonSafety.v ===== *)
(** * The JSON reader returns on every input

    Every operation on the stream returns and never gives back unread
    characters, every token the parser reads consumes at least one, and the
    [DepthCounter] is only used within its invariant.  What the events do is
    an interface: an implementer promises to return and to keep an invariant
    of its own. *)

From S2P Require Import Prelude CppString CppStream JsonError DepthCounter JsonNumber JsonReader.
Import Stream JsonError JsonNumber JsonReader JsonOps JsonData StructureParser.

Module JsonSafety.

(** What an implementer promises. *)
Definition keeps {I A} (J : I → Prop) (m : method I A) : Prop := triple J m (λ _, J).

Class SafeImplementer (I : Type) `{!Implementer I} (J : I → Prop) : Prop := {
  safe_OnNull : keeps J OnNull;
  safe_OnBool b : keeps J (OnBool b);
  safe_OnNumber view n : New view = Ret (Value n) → keeps J (OnNumber n);
  safe_OnString s : keeps J (OnString s);
  safe_OnKey s : keeps J (OnKey s);
  safe_OnStartObject : keeps J OnStartObject;
  safe_OnEndObject n : keeps J (OnEndObject n);
  safe_OnStartArray : keeps J OnStartArray;
  safe_OnEndArray n : keeps J (OnEndArray n);
}.

(** ** Streams *)

Definition wf_stream (s : istream) : Prop := pos s ≤ length (data s).

(** How much there is left to do: nothing on a stream that is not good. *)
Definition todo (s : istream) : nat := if good s then S (length (rest s)) else 0.

Definition stream_at (n : nat) (s : istream) : Prop := wf_stream s ∧ todo s ≤ n.

(** A good stream whose next character is [c]. *)
Definition next_is (c : ascii) (s : istream) : Prop := good s = true ∧ head (rest s) = Some c.

Lemma good_reading s : wf_stream s → good s = true → reading s (rest s).
Proof.
  unfold good, reading. intros Hw [H1 H2]%andb_true_iff. apply negb_true_iff in H1, H2. done.
Qed.

Lemma next_is_reading c s : wf_stream s → next_is c s → ∃ r, reading s (c :: r).
Proof.
  intros Hw [Hg Hh]. pose proof (good_reading s Hw Hg) as H. destruct (rest s) as [|c' r]; [done|].
  simplify_eq/=. eauto.
Qed.

Lemma reading_todo s r : reading s r → todo s = S (length r).
Proof. intros H. unfold todo. rewrite (reading_good _ _ H). by destruct H as (_ & _ & -> & _). Qed.

Lemma reading_wf s r : reading s r → wf_stream s.
Proof. by intros (_ & _ & _ & ?). Qed.

Lemma not_good_todo s : good s = false → todo s = 0.
Proof. unfold todo. by intros ->. Qed.

Lemma good_set_fail s : good (set_fail s) = false.
Proof. unfold good. simpl. by rewrite andb_false_r. Qed.

Lemma good_set_eof s : good (set_eof s) = false.
Proof. done. Qed.

Lemma peek_triple n :
  triple (stream_at n) (lift peek) (λ o s, stream_at n s ∧
    match o with Some c => next_is c s | None => good s = false end).
Proof.
  intros s [Hw Hn]. unfold lift. destruct (good s) eqn:Hg.
  - pose proof (good_reading s Hw Hg) as H. destruct (rest s) as [|c r] eqn:Er.
    + rewrite (peek_nil s H). do 2 eexists. split; [done|]. split; [|done].
      split; [done|]. rewrite not_good_todo by done. lia.
    + rewrite (peek_cons s c r H). do 2 eexists. split; [done|]. split; [done|].
      split; [done|]. by rewrite Er.
  - exists None, (set_fail s). split; [unfold peek; by rewrite Hg|].
    split; [|apply good_set_fail]. split; [done|]. rewrite not_good_todo by apply good_set_fail. lia.
Qed.

Lemma reading_step n s c r :
  reading s (c :: r) → todo s ≤ n → stream_at (pred n) (set_pos (S (pos s)) s).
Proof.
  intros H Hn. pose proof (reading_next _ _ _ H) as H'. split; [by eapply reading_wf|].
  rewrite (reading_todo _ _ H'). rewrite (reading_todo _ _ H) in Hn. simpl in Hn. lia.
Qed.

Lemma get_next_triple n c :
  triple (λ s, stream_at n s ∧ next_is c s) (lift get) (λ o s, o = Some c ∧ stream_at (pred n) s ∧ good s = true).
Proof.
  intros s [[Hw Hn] Hc]. destruct (next_is_reading c s Hw Hc) as [r H]. unfold lift.
  rewrite (get_cons _ _ _ H). do 2 eexists. split; [done|]. split_and!; [done|by eapply reading_step|].
  by destruct Hc.
Qed.

Lemma get_triple n :
  triple (stream_at n) (lift get) (λ o s, match o with Some _ => stream_at (pred n) s | None => stream_at n s end).
Proof.
  intros s [Hw Hn]. unfold lift. destruct (good s) eqn:Hg.
  - pose proof (good_reading s Hw Hg) as H. destruct (rest s) as [|c r] eqn:Er.
    + exists None, (set_fail (set_eof s)). unfold get. rewrite Hg, (reading_lookup _ _ H).
      split; [done|]. split; [done|]. rewrite not_good_todo by apply good_set_fail. lia.
    + rewrite (get_cons _ _ _ H). do 2 eexists. split; [done|]. by eapply reading_step.
  - exists None, (set_fail s). unfold get. rewrite Hg. split; [done|]. split; [done|].
    rewrite not_good_todo by apply good_set_fail. lia.
Qed.

Lemma TryTake_triple n :
  triple (stream_at n) TryTake (λ r s, match r with Value _ => stream_at (pred n) s | Unexpected _ => stream_at n s end).
Proof.
  eapply triple_bind; [apply get_triple|]. intros [c|]; apply triple_ret; auto.
Qed.

Lemma Take_triple n c :
  triple (λ s, stream_at n s ∧ next_is c s) Take (λ r s, r = c ∧ stream_at (pred n) s ∧ good s = true).
Proof.
  unfold Take, TryTake. eapply triple_bind; [eapply triple_bind; [apply get_next_triple|]|].
  - intros o. apply triple_ret with (Q := λ r s, r = Value c ∧ stream_at (pred n) s ∧ good s = true).
    by intros s (-> & ?).
  - intros r. intros s (-> & ?). do 2 eexists. split; [done|]. done.
Qed.

Lemma Move_triple n c :
  triple (λ s, stream_at n s ∧ next_is c s) Move (λ _ s, stream_at (pred n) s ∧ good s = true).
Proof.
  intros s [[Hw Hn] Hc]. destruct (next_is_reading c s Hw Hc) as [r H]. unfold Move.
  rewrite (seekg_next _ _ _ H). do 2 eexists. split; [done|]. split; [by eapply reading_step|].
  by destruct Hc.
Qed.

Lemma Skip_triple n c : triple (stream_at n) (Skip c) (λ _, stream_at n).
Proof.
  unfold Skip. eapply triple_bind; [apply peek_triple|]. intros o. destruct (is_char o c) eqn:E.
  - destruct o as [c'|]; [|done]. apply bool_decide_eq_true in E as ->.
    eapply triple_bind; [apply get_next_triple|]. intros o s (_ & [Hw Hn] & _). do 2 eexists.
    split; [done|]. split; [done|lia].
  - apply triple_ret. by intros s [? _].
Qed.

(** A full read followed by a rewind leads back to where it started. *)
Lemma rewind_back s k :
  wf_stream s → good s = true → k ≤ length (rest s) →
  seekg_cur (- Z.of_nat k) (set_pos (pos s + k) s) = s.
Proof.
  intros Hw Hg Hk. destruct (good_reading s Hw Hg) as (He & Hf & _ & _). unfold seekg_cur. simpl.
  rewrite Hf. unfold rest in Hk. rewrite length_drop in Hk.
  unfold wf_stream in Hw.
  match goal with
  | |- context [if ?b then _ else _] =>
      replace b with true by (symmetry; apply andb_true_iff; split; apply Z.leb_le; lia)
  end.
  unfold set_pos. simpl.
  replace (Z.to_nat (Z.of_nat (pos s + k) + - Z.of_nat k)) with (pos s) by lia.
  destruct s; simpl in *. by subst.
Qed.

Lemma ReadString_triple n string :
  string ≠ [] →
  triple (stream_at n) (ReadString string) (λ r s, stream_at n s).
Proof.
  intros Hne s [Hw Hn]. unfold ReadString. rewrite bool_decide_false by done.
  unfold Read, lift, bind_m, ret_m. unfold read. destruct (good s) eqn:Hg.
  - set (chars := take (length string) (drop (pos s) (data s))).
    destruct (good_reading s Hw Hg) as (He & Hf & _ & _).
    assert (length chars ≤ length (rest s)) as Hc by (unfold chars, rest; rewrite length_take; lia).
    assert (stream_at n (set_pos (pos s + length chars) s)) as Hat.
    { unfold rest in Hc. rewrite length_drop in Hc. split; [unfold wf_stream in *; simpl; lia|].
      unfold todo in *. rewrite Hg in Hn. unfold rest, good, set_pos in *. simpl in *. rewrite He, Hf. simpl.
      rewrite length_drop in *. lia. }
    destruct (if (0 <? length chars)%nat then _ else _) as [is_same x].
    destruct (Nat.eqb_spec (length chars) (length string)) as [El|El].
    + rewrite <- El, Nat.eqb_refl. simpl. rewrite orb_false_r. unfold RewindIf. destruct is_same; simpl.
      * do 2 eexists. split; [done|]. done.
      * rewrite rewind_back by done. do 2 eexists. split; [done|]. done.
    + rewrite (proj2 (Nat.eqb_neq (length string) _)) by lia. rewrite orb_true_r. unfold RewindIf.
      unfold seekg_cur. simpl. do 2 eexists. split; [done|]. destruct Hat as [Hw' _].
      split; [done|]. unfold todo, good. simpl. lia.
  - simpl. rewrite (proj2 (Nat.eqb_neq (length string) 0)) by by destruct string. simpl.
    unfold RewindIf, seekg_cur. simpl. do 2 eexists. split; [done|]. split; [done|]. unfold todo, good. simpl. lia.
Qed.

Lemma CheckString_triple n string message :
  string ≠ [] → triple (stream_at n) (CheckString string message) (λ _, stream_at n).
Proof.
  intros Hne. unfold CheckString. eapply triple_and_then; [by apply ReadString_triple| |auto].
  intros []; by apply triple_ret.
Qed.

(** A good stream with a next character has two things to do: read it, and
    find the end. *)
Lemma next_is_todo n c s : stream_at n s → next_is c s → 2 ≤ n.
Proof.
  intros [Hw Hn] Hc. destruct (next_is_reading c s Hw Hc) as [r H].
  rewrite (reading_todo _ _ H) in Hn. simpl in Hn. lia.
Qed.

Lemma stream_at_le n n' s : stream_at n s → n ≤ n' → stream_at n' s.
Proof. intros [? ?] ?. split; [done|lia]. Qed.

Lemma SkipWhitespace_loop_triple fuel n :
  0 < fuel → n ≤ fuel →
  triple (stream_at n) (SkipWhitespace_loop fuel) (λ b s, stream_at n s ∧
    if b then ∃ c, next_is c s else good s = false).
Proof.
  revert n. induction fuel as [|fuel IH]; intros n H0 Hf; [lia|]. cbn [SkipWhitespace_loop].
  eapply triple_bind; [apply peek_triple|]. intros [c|]; [|by apply triple_ret].
  destruct (is_whitespace c); cbn [negb].
  - intros s Hs. pose proof (next_is_todo n c s (proj1 Hs) (proj2 Hs)) as Hn2. revert s Hs.
    eapply triple_bind; [apply get_next_triple|]. intros o.
    eapply triple_weaken; [apply (IH (pred n)); lia|by intros s (_ & ? & _)|].
    intros b s [? ?]. split; [|done]. eapply stream_at_le; [done|lia].
  - apply triple_ret. intros s [? ?]. eauto.
Qed.

Lemma todo_fuel n s : stream_at n s → stream_at (todo s) s ∧ todo s ≤ n ∧ todo s ≤ S (length (rest s)).
Proof. intros [Hw Hn]. split_and!; [by split|done|]. unfold todo. destruct (good s); lia. Qed.

Lemma SkipWhitespace_triple n :
  triple (stream_at n) SkipWhitespace (λ b s, stream_at n s ∧
    if b then ∃ c, next_is c s else good s = false).
Proof.
  intros s (Hs & Hn & Hf)%todo_fuel. unfold SkipWhitespace.
  destruct (SkipWhitespace_loop_triple (S (length (rest s))) (todo s)) with (s := s)
    as (b & s' & E & [H1 H2]); [lia|done|done|].
  rewrite E. do 2 eexists. split; [done|]. split; [by eapply stream_at_le|done].
Qed.

Lemma ReadUntil_loop_triple fuel n delimiter buffer :
  0 < fuel → n ≤ fuel →
  triple (stream_at n) (ReadUntil_loop fuel delimiter buffer) (λ r s, stream_at n s ∧
    match r.1 with Some c => next_is c s | None => good s = false end).
Proof.
  revert n buffer. induction fuel as [|fuel IH]; intros n buffer H0 Hf; [lia|]. cbn [ReadUntil_loop].
  eapply triple_bind; [apply peek_triple|]. intros [c|]; [|by apply triple_ret].
  destruct (existsb _ delimiter).
  - apply triple_ret. done.
  - intros s Hs. pose proof (next_is_todo n c s (proj1 Hs) (proj2 Hs)) as Hn2. revert s Hs.
    eapply triple_bind; [apply get_next_triple|]. intros o.
    eapply triple_weaken; [apply (IH (pred n)); lia|by intros s (_ & ? & _)|].
    intros b s [? ?]. split; [|done]. eapply stream_at_le; [done|lia].
Qed.

(** What [ReadUntil] found is what comes next. *)
Definition found (r : Result OptChar) (s : istream) : Prop :=
  match r with Value (Some c) => next_is c s | _ => True end.

Lemma ReadUntil_triple {B} n delimiter (callback : str → B → B) b :
  triple (stream_at n) (ReadUntil delimiter callback b) (λ r s, stream_at n s ∧ found r.1 s).
Proof.
  intros s (Hs & Hn & Hf)%todo_fuel. unfold ReadUntil.
  destruct (ReadUntil_loop_triple (S (length (rest s))) (todo s) delimiter []) with (s := s)
    as ([o buf] & s' & E & [H1 H2]); [lia|done|done|].
  unfold bind_m. rewrite E. do 2 eexists. split; [done|]. split; [by eapply stream_at_le|].
  by destruct o.
Qed.

(** ** The parser *)

Section Parser.
  #[local] Set Default Proof Using "Type*".
  Context {I : Type} `{!Implementer I} {J : I → Prop} `{!SafeImplementer I J}.

(** The invariants of the parts, with at most [n] left to do. *)
Definition parser_at (n : nat) (p : parser I) : Prop :=
  DepthCounter.inv (depth_counter_ (doc p)) ∧ J (implementer_ p) ∧ stream_at n (stream_ (doc p)).

Lemma parser_at_le n n' p : parser_at n p → n ≤ n' → parser_at n' p.
Proof. intros (? & ? & ?) ?. split_and!; [done|done|]. by eapply stream_at_le. Qed.

(** What the parser does through [ops], [state] and [event]. *)
Lemma ops_triple {A} n n' (X : istream → Prop) (Y : A → istream → Prop) (m : method istream A) :
  triple (λ s, stream_at n s ∧ X s) m (λ a s, stream_at n' s ∧ Y a s) →
  triple (λ p, parser_at n p ∧ X (stream_ (doc p))) (ops m) (λ a p, parser_at n' p ∧ Y a (stream_ (doc p))).
Proof.
  intros Hm p [(Hd & Hi & Hs) Hx]. unfold ops. destruct (Hm (stream_ (doc p))) as (a & s' & -> & H1 & H2); [done|].
  do 2 eexists. split; [done|]. done.
Qed.

Lemma ops_at {A} n (m : method istream A) :
  triple (stream_at n) m (λ _, stream_at n) → triple (parser_at n) (ops m) (λ _, parser_at n).
Proof.
  intros Hm p (Hd & Hi & Hs). unfold ops. destruct (Hm (stream_ (doc p)) Hs) as (a & s' & -> & H).
  do 2 eexists. split; [done|]. done.
Qed.

Lemma state_at {A} n (m : method DepthCounter.DepthCounter A) :
  DepthCounter.keeps_inv m → triple (parser_at n) (state m) (λ _, parser_at n).
Proof.
  intros Hm p (Hd & Hi & Hs). unfold state. destruct (Hm _ Hd) as (a & d & -> & H).
  do 2 eexists. split; [done|]. done.
Qed.

Lemma event_at {A} n (m : method I A) : keeps J m → triple (parser_at n) (event m) (λ _, parser_at n).
Proof.
  intros Hm p (Hd & Hi & Hs). unfold event. destruct (Hm _ Hi) as (a & i & -> & H).
  do 2 eexists. split; [done|]. done.
Qed.

Lemma SetBuffer_at n b (X : istream → Prop) :
  triple (λ p, parser_at n p ∧ X (stream_ (doc p))) (SetBuffer b) (λ _ p, parser_at n p ∧ X (stream_ (doc p))).
Proof. intros p Hp. do 2 eexists. split; [done|]. done. Qed.

Lemma PushBack_at n c : triple (parser_at n) (PushBack c) (λ _, parser_at n).
Proof. intros p Hp. do 2 eexists. split; [done|]. done. Qed.

Lemma GetCurrentString_at n : triple (parser_at n) GetCurrentString (λ _, parser_at n).
Proof. intros p Hp. do 2 eexists. split; [done|]. done. Qed.

Lemma ReadUntilAppend_at n delimiter :
  triple (parser_at n) (ReadUntilAppend delimiter) (λ r p, parser_at n p ∧ found r (stream_ (doc p))).
Proof.
  intros p (Hd & Hi & Hs). unfold ReadUntilAppend.
  destruct (ReadUntil_triple n delimiter (λ view buffer, buffer ++ view) (current_buffer_ (doc p)) _ Hs)
    as ([r b] & s' & -> & H1 & H2).
  do 2 eexists. split; [done|]. done.
Qed.

(** An event after a check of the nesting. *)
Lemma value_event n (m : method DepthCounter.DepthCounter (Result ())) (e : method I ParserResult) :
  DepthCounter.keeps_inv m → keeps J e →
  triple (parser_at n) (and_then (state m) (λ _, event e)) (λ _, parser_at n).
Proof.
  intros Hm He. eapply triple_and_then; [by apply state_at| |done]. intros ?. by apply event_at.
Qed.

Lemma literal_at n string message (e : method I ParserResult) :
  string ≠ [] → keeps J e →
  triple (parser_at n) (and_then (and_then (ops (CheckString string message))
    (λ _, state DepthCounter.AddValue)) (λ _, event e)) (λ _, parser_at n).
Proof.
  intros Hs He. eapply triple_and_then with (Q := λ _, parser_at n); [eapply triple_and_then| |done].
  - apply ops_at. by apply CheckString_triple.
  - intros ?. apply state_at, DepthCounter.AddValue_inv.
  - done.
  - intros ?. by apply event_at.
Qed.

(** Every number text that is read is validated without reading beyond it. *)
Lemma Validate_total c view : ∃ b, Validate (mkJsonNumber (c :: view)) = Ret b.
Proof.
  unfold Validate, view_at. simpl. destruct (decide (c = "-"%char)).
  - destruct view as [|c1 [|c2 view]]; simpl; eauto. repeat case_match; eauto.
  - destruct view as [|c1 view]; simpl; eauto. repeat case_match; eauto.
Qed.

Lemma New_total view : ∃ r, New view = Ret r.
Proof.
  unfold New. simpl. destruct view as [|c view]; simpl; [eauto|].
  destruct (Validate_total c view) as [b ->]. simpl. eauto.
Qed.

Lemma ParseNumber_at n cur : triple (parser_at n) (ParseNumber cur) (λ _, parser_at n).
Proof.
  eapply triple_and_then
    with (Q := λ r p, parser_at n p ∧ ∀ num, r = Value num → ∃ view, New view = Ret (Value num)).
  - eapply triple_and_then; [apply state_at, DepthCounter.AddValue_inv| |].
    + intros ?. eapply triple_bind with (Q := λ _, parser_at n).
      * eapply triple_bind; [apply PushBack_at|]. intros ?.
        eapply triple_bind; [apply ReadUntilAppend_at|]. intros r.
        eapply triple_weaken; [apply GetCurrentString_at|by intros ? [? _]|done].
      * intros view p Hp. destruct (New_total view) as [r E]. rewrite E. simpl.
        do 2 eexists. split; [done|]. split; [done|]. intros num ->. eauto.
    + intros e p Hp. split; [done|]. by intros num ?.
  - intros num p [Hp Hnum]. destruct (Hnum num eq_refl) as [view Hview].
    destruct (event_at n (OnNumber num) (safe_OnNumber view num Hview) p Hp) as (r & p' & E & H).
    rewrite E. eauto.
  - by intros e p [? _].
Qed.

Lemma ReadJsonString_loop_at fuel n r :
  0 < fuel → n ≤ fuel →
  triple (λ p, parser_at n p ∧ found r (stream_ (doc p))) (ReadJsonString_loop fuel r)
    (λ r p, parser_at n p ∧ found r (stream_ (doc p))).
Proof.
  revert n r. induction fuel as [|fuel IH]; intros n r H0 Hf; [lia|]. cbn [ReadJsonString_loop].
  destruct r as [o|e]; [|by apply triple_ret]. destruct (is_char o "\"%char) eqn:E; cbn [negb]; [|by apply triple_ret].
  destruct o as [c|]; [|done]. apply bool_decide_eq_true in E as ->. cbn [found].
  intros p Hp. assert (2 ≤ n) as Hn.
  { destruct Hp as [(_ & _ & Hs) Hc]. by eapply next_is_todo. }
  revert p Hp. eapply triple_bind.
  { apply (ops_triple n (pred n) (next_is "\"%char) (λ _ s, good s = true)). apply Move_triple. }
  intros ?. eapply triple_bind with (Q := λ r p, parser_at (pred n) p ∧ found r (stream_ (doc p))).
  - eapply triple_and_then with (Q := λ _ p, parser_at (pred n) p).
    + eapply triple_and_then with (Q := λ _ p, parser_at (pred n) p).
      * eapply triple_weaken; [apply (ops_at (pred n) TryTake)|by intros p [? _]|done].
        eapply triple_weaken; [apply (TryTake_triple (pred n))|done|].
        intros [?|?] s H; [eapply stream_at_le; [done|lia]|done].
      * intros ?. by apply triple_ret.
      * done.
    + intros ?. eapply triple_bind; [apply PushBack_at|]. intros ?. apply ReadUntilAppend_at.
    + done.
  - intros r. eapply triple_weaken; [apply (IH (pred n)); lia|done|].
    intros r' p [Hp Hr]. split; [|done]. eapply parser_at_le; [done|lia].
Qed.

Lemma ReadJsonString_at n : triple (parser_at n) ReadJsonString (λ _, parser_at n).
Proof.
  intros p Hp. assert (parser_at (todo (stream_ (doc p))) p ∧ todo (stream_ (doc p)) ≤ n ∧
    todo (stream_ (doc p)) ≤ S (length (rest (stream_ (doc p))))) as (Hp' & Hn & Hf).
  { destruct Hp as (? & ? & (? & ? & ?)%todo_fuel). done. }
  clear Hp. revert Hp' Hn Hf. generalize (todo (stream_ (doc p))) as k. intros k Hp Hn Hf.
  unfold ReadJsonString. set (fuel := S (length (rest (stream_ (doc p))))) in *. assert (0 < fuel) by (unfold fuel; lia). clearbody fuel.
  revert p Hp. change (triple (parser_at k) (GetClearedStringBuffer;;;
   ret_val <-- ReadUntilAppend string_delimiters;;
   ret_val <-- ReadJsonString_loop fuel ret_val;;
   match Filter ret_val HasValue (MakeError kInvalidJson "ReadJsonString: Runaway string.") with
   | Value _ => _ <-- ops Move;; s <-- GetCurrentString;; ret_m (Value s)
   | Unexpected e => ret_m (Unexpected e)
   end) (λ _, parser_at n)).
  eapply triple_bind with (Q := λ _, parser_at k).
  { intros p Hp. do 2 eexists. split; [done|]. done. }
  intros ?. eapply triple_bind; [apply ReadUntilAppend_at|]. intros r0.
  eapply triple_bind with (Q := λ r p, parser_at k p ∧ found r (stream_ (doc p))).
  { apply ReadJsonString_loop_at; lia. }
  intros [[c|]|e]; simpl.
  - eapply triple_bind; [apply (ops_triple k (pred k) (next_is c) (λ _ s, good s = true)); apply Move_triple|].
    intros ?. eapply triple_bind with (Q := λ _, parser_at k).
    + eapply triple_weaken; [apply (GetCurrentString_at k)| |done].
      intros p [Hp _]. eapply parser_at_le; [done|lia].
    + intros s. apply triple_ret. intros p Hp. by eapply parser_at_le.
  - apply triple_ret. intros p [Hp _]. by eapply parser_at_le.
  - apply triple_ret. intros p [Hp _]. by eapply parser_at_le.
Qed.

Lemma ParseUnescapedString_at n string :
  triple (parser_at n) (ParseUnescapedString string) (λ _, parser_at n).
Proof.
  eapply triple_bind.
  { apply ops_at. eapply triple_weaken; [apply SkipWhitespace_triple|done|by intros b s [? _]]. }
  intros ?. eapply triple_bind; [apply ops_at, Skip_triple|]. intros [].
  - apply value_event; [apply DepthCounter.AddKey_inv|apply safe_OnKey].
  - apply value_event; [apply DepthCounter.AddValue_inv|apply safe_OnString].
Qed.

Lemma ParseComma_at n : triple (parser_at n) ParseComma (λ _, parser_at n).
Proof.
  eapply triple_bind; [apply state_at, DepthCounter.AddComma_inv|]. intros b. by apply triple_ret.
Qed.

Lemma container_event n (m : method DepthCounter.DepthCounter (Result Z)) (e : Z → method I ParserResult) :
  DepthCounter.keeps_inv m → (∀ k, keeps J (e k)) →
  triple (parser_at n) (and_then (state m) (λ k, event (e k))) (λ _, parser_at n).
Proof.
  intros Hm He. eapply triple_and_then; [by apply state_at| |done]. intros ?. by apply event_at.
Qed.

Lemma ParseToken_at n cur : triple (parser_at n) (ParseToken cur) (λ _, parser_at n).
Proof.
  unfold ParseToken. repeat case_decide.
  - by apply literal_at, safe_OnNull.
  - by apply literal_at, safe_OnBool.
  - by apply literal_at, safe_OnBool.
  - eapply triple_and_then; [apply ReadJsonString_at| |done]. intros ?. apply ParseUnescapedString_at.
  - apply value_event; [apply DepthCounter.AddElement_inv; auto|apply safe_OnStartObject].
  - apply container_event; [apply DepthCounter.PopContainer_inv; auto|apply safe_OnEndObject].
  - apply value_event; [apply DepthCounter.AddElement_inv; auto|apply safe_OnStartArray].
  - apply container_event; [apply DepthCounter.PopContainer_inv; auto|apply safe_OnEndArray].
  - apply ParseComma_at.
  - apply ParseNumber_at.
  - by apply triple_ret.
Qed.

Lemma CheckEndOfFile_not_running d : is_running (DepthCounter.CheckEndOfFile d) = false.
Proof. unfold DepthCounter.CheckEndOfFile. repeat case_match; done. Qed.

(** A token that keeps the parser running has consumed a character. *)
Lemma ParseValue_at n :
  triple (parser_at n) ParseValue (λ r p, parser_at n p ∧
    (is_running r = true → 2 ≤ n ∧ parser_at (pred n) p)).
Proof.
  unfold ParseValue. eapply triple_bind.
  { eapply triple_weaken; [apply (ops_triple n n (λ _, True) (λ (b : bool) s,
      if b then ∃ c, next_is c s else good s = false))|by intros p ?|done].
    eapply triple_weaken; [apply SkipWhitespace_triple|by intros s [? _]|done]. }
  intros [|]; cbn [negb].
  - eapply triple_bind; [apply triple_ret with (Q := λ r p, r = Value kRunning ∧ parser_at n p ∧
      ∃ c, next_is c (stream_ (doc p))); naive_solver|].
    intros r p (-> & Hp & c & Hc). cbn [is_running].
    assert (2 ≤ n) as Hn by (destruct Hp as (_ & _ & ?); by eapply next_is_todo).
    assert (triple (λ p : parser I, parser_at n p ∧ next_is c (stream_ (doc p)))
      (GetClearedStringBuffer;;; cur <-- ops Take;; ParseToken cur) (λ _, parser_at (pred n))) as Htok.
    { eapply triple_bind; [apply SetBuffer_at|]. intros ?. eapply triple_bind.
      { apply (ops_triple n (pred n) (next_is c) (λ r s, r = c ∧ good s = true)).
        eapply triple_weaken; [apply Take_triple|intros s Hs; exact Hs|]. naive_solver. }
      intros cur. eapply triple_weaken; [apply ParseToken_at|by intros ? [? _]|done]. }
    destruct (Htok p) as (r & p' & E & H); [done|]. rewrite E. do 2 eexists. split; [done|].
    split; [eapply parser_at_le; [done|lia]|]. intros ?. split; [lia|done].
  - eapply triple_bind with (Q := λ r p, is_running r = false ∧ parser_at n p).
    + intros p [Hp _]. do 2 eexists. split; [done|]. split; [apply CheckEndOfFile_not_running|done].
    + intros r p [Hr Hp]. rewrite Hr. do 2 eexists. split; [done|]. by rewrite Hr.
Qed.

Lemma Parse_loop_at fuel n r :
  1 < fuel → n < fuel → triple (parser_at n) (Parse_loop fuel r) (λ _, parser_at n).
Proof.
  revert n r. induction fuel as [|fuel IH]; intros n r H1 Hf; [lia|]. cbn [Parse_loop].
  destruct (is_running r); [|by apply triple_ret]. eapply triple_bind; [apply ParseValue_at|].
  intros r' p [Hp Hr]. destruct (is_running r') eqn:E.
  - destruct Hr as [H0 Hp']; [done|]. destruct (IH (pred n) r') with (s := p) as (r'' & p'' & E' & H); [lia|lia|done|].
    rewrite E'. do 2 eexists. split; [done|]. eapply parser_at_le; [done|lia].
  - exists r', p. split; [|done]. destruct fuel as [|fuel]; [lia|]. cbn [Parse_loop]. by rewrite E.
Qed.

Lemma Parse_at n : triple (parser_at n) Parse (λ _, parser_at n).
Proof.
  intros p (Hd & Hi & Hs). apply todo_fuel in Hs as (Hs & Hn & Hf). unfold Parse.
  set (fuel := S (S (length (rest (stream_ (doc p)))))). set (k := todo (stream_ (doc p))) in *.
  assert (parser_at k p) as Hp by done. assert (1 < fuel ∧ k < fuel) as [H1 Hk] by (unfold fuel; lia). clearbody fuel k.
  assert (triple (parser_at k) (more <-- ops SkipWhitespace;;
     let result := transform (λ _, kRunning)
       (MakeResult more (MakeError kInvalidJson "StructureParser::Parse: Document is empty.")) in
     r <-- Parse_loop fuel result;; ret_m (Drop r)) (λ _, parser_at k)) as H.
  { eapply triple_bind.
    { apply ops_at. eapply triple_weaken; [apply SkipWhitespace_triple|done|by intros b s [? _]]. }
    intros more. cbn zeta. eapply triple_bind; [by apply Parse_loop_at|]. intros r. by apply triple_ret. }
  destruct (H p Hp) as (r & p' & E & H'). exists r, p'. split; [exact E|].
  by eapply parser_at_le.
Qed.

End Parser.

(** A document made from a buffer is ready to be parsed. *)
Lemma FromBuffer_ready buffer :
  ∃ d, FromBuffer buffer = Ret d ∧ depth_counter_ d = DepthCounter.initial ∧ wf_stream (stream_ d).
Proof.
  unfold FromBuffer, ParseBom. simpl.
  destruct (ReadString_triple (S (length buffer)) kUtf8Bom) with (s := istringstream buffer)
    as (r & s & E & Hw & _); [done| |].
  { split; [unfold wf_stream; simpl; lia|]. rewrite (reading_todo _ _ (reading_istringstream buffer)). lia. }
  rewrite E. simpl. destruct r as [b|e]; eexists; (split; [done|]); (split; [done|]); [done|].
  unfold wf_stream. simpl. lia.
Qed.

(** C31: Whatever the buffer contains, and for every implementer whose events
    return and keep their own invariant, the parser returns: its loops end
    within the number of unread characters, no empty stack is accessed, no
    character is read beyond the buffer, no error is unwrapped. *)
Theorem parser_total {I} `{!Implementer I} (J : I → Prop) `{!SafeImplementer I J} buffer implementer :
  J implementer →
  ∃ d r p, FromBuffer buffer = Ret d ∧ Parse (mkParser d implementer) = Ret (r, p) ∧
           J (implementer_ p) ∧ DepthCounter.inv (depth_counter_ (doc p)).
Proof.
  intros Hi. destruct (FromBuffer_ready buffer) as (d & Hd & Hdepth & Hw). exists d.
  destruct (Parse_at (J := J) (todo (stream_ d)) (mkParser d implementer)) as (r & p & E & H1 & H2 & _).
  { split_and!; [|done|by split]. simpl. rewrite Hdepth. apply DepthCounter.initial_inv. }
  eauto 10.
Qed.

(** An implementer that counts the values it is told about. *)
#[local] Instance counting : Implementer nat := {|
  OnNull := λ n, Ret (Value kRunning, S n);
  OnBool _ := λ n, Ret (Value kRunning, S n);
  OnNumber _ := λ n, Ret (Value kRunning, S n);
  OnString _ := λ n, Ret (Value kRunning, S n);
  OnKey _ := λ n, Ret (Value kRunning, n);
  OnStartObject := λ n, Ret (Value kRunning, n);
  OnEndObject _ := λ n, Ret (Value kRunning, n);
  OnStartArray := λ n, Ret (Value kRunning, n);
  OnEndArray _ := λ n, Ret (Value kRunning, n);
|}.

#[local] Instance counting_safe : SafeImplementer nat (λ _, True).
Proof. split; intros; intros ? _; do 2 eexists; by split. Qed.

Lemma parser_total_witness :
  ∃ d r p, FromBuffer (s! "[1, true") = Ret d ∧ Parse (mkParser d 0) = Ret (r, p).
Proof.
  destruct (parser_total (λ _ : nat, True) (s! "[1, true") 0 I) as (d & r & p & H1 & H2 & _).
  exists d, r, p. split; [exact H1|exact H2].
Defined.

End JsonSafety.
