(* ===== verification/JsonTree.v ===== *)
(** * The tree builder keeps its pointers valid

    The pointers of [hierarchy_] are nested, lead to containers, and the tree
    stays well formed; so the builder is a safe implementer and reading a
    buffer always returns. *)

From S2P Require Import Prelude CppInt CppString CppFloat CppStream JsonModel JsonError DepthCounter JsonNumber JsonReader JsonParser JsonSafety.
Import CppFloat JsonModel JsonError JsonNumber JsonReader AnyTreeBuilder JsonSafety.

Module JsonTree.

(** ** Following and writing through pointers *)

Lemma map_find_replace k v m : is_Some (map_find k m) → map_find k (map_replace k v m) = Some v.
Proof.
  induction m as [|[k' v'] m IH]; simpl; [by intros []|]. case_decide; simpl.
  - by rewrite decide_True.
  - by rewrite decide_False.
Qed.

Lemma map_find_replace_ne k k' v m : k' ≠ k → map_find k' (map_replace k v m) = map_find k' m.
Proof.
  intros Hk. induction m as [|[k'' v'] m IH]; simpl; [done|]. destruct (decide (k'' = k)) as [->|]; simpl.
  - by rewrite !decide_False.
  - case_decide; [done|]. apply IH.
Qed.

Lemma map_replace_keys k v m : (map_replace k v m).*1 = m.*1.
Proof. induction m as [|[k1 v1] m IH]; csimpl; [done|]. case_decide; csimpl; [by subst|]. by rewrite IH. Qed.

Lemma sorted_keys_fst m m' : m.*1 = m'.*1 → sorted_keys m → sorted_keys m'.
Proof.
  revert m'. induction m as [|[k v] m IH]; intros [|[k' v'] m'] E; try done. simpl in E. simplify_eq/=.
  intros [Hk Hm]. split; [|by apply IH]. destruct m as [|[]], m' as [|[]]; by simplify_eq/=.
Qed.

Lemma map_replace_Forall (P : str * Any → Prop) k v m :
  Forall P m → (∀ k, P (k, v)) → Forall P (map_replace k v m).
Proof. intros Hm Hv. induction Hm as [|[k' v'] m Hp Hm IH]; simpl; [done|]. case_decide; by constructor. Qed.

Lemma map_find_Forall (P : Any → Prop) k v m : Forall (λ kv, P kv.2) m → map_find k m = Some v → P v.
Proof. induction 1 as [|[k' v'] m Hp Hm IH]; simpl; [done|]. case_decide; naive_solver. Qed.

Lemma deref_app p q a : deref (p ++ q) a = deref p a ≫= deref q.
Proof.
  revert a. induction p as [|[i|k] p IH]; intros a; [done|..]; simpl; destruct a; try done.
  - destruct (_ !! i); simpl; [apply IH|done].
  - destruct (map_find k members); simpl; [apply IH|done].
Qed.

Lemma assign_total p v a x : deref p a = Some x → ∃ a', assign p v a = Some a'.
Proof.
  revert a. induction p as [|[i|k] p IH]; intros a; [eauto|..]; simpl; destruct a; try done.
  - destruct (_ !! i); simpl; [|done]. intros [a' ->]%IH. simpl. eauto.
  - destruct (map_find k members); simpl; [|done]. intros [a' ->]%IH. simpl. eauto.
Qed.

Lemma deref_assign p v a a' : assign p v a = Some a' → deref p a' = Some v.
Proof.
  revert a a'. induction p as [|[i|k] p IH]; intros a a'; simpl; [naive_solver|..]; destruct a; try done.
  - destruct (elements !! i) as [x|] eqn:Ei; simpl; [|done]. destruct (assign p v x) as [x'|] eqn:E; simpl; [|done].
    intros [= <-]. apply lookup_lt_Some in Ei. rewrite list_lookup_insert_eq by done. simpl. eauto.
  - destruct (map_find k members) as [x|] eqn:Ek; simpl; [|done].
    destruct (assign p v x) as [x'|] eqn:E; simpl; [|done]. intros [= <-].
    rewrite map_find_replace by by eexists. simpl. eauto.
Qed.

(** Writing below a node changes that node only below. *)
Lemma deref_assign_app p q v a a' x :
  assign (p ++ q) v a = Some a' → deref p a = Some x →
  ∃ x', assign q v x = Some x' ∧ deref p a' = Some x'.
Proof.
  revert a a'. induction p as [|[i|k] p IH]; intros a a'; simpl; [naive_solver|..]; destruct a; try done.
  - destruct (elements !! i) as [y|] eqn:Ei; simpl; [|done].
    destruct (assign (p ++ q) v y) as [y'|] eqn:E; simpl; [|done]. intros [= <-] Hx.
    apply lookup_lt_Some in Ei. rewrite list_lookup_insert_eq by done. simpl. eauto.
  - destruct (map_find k members) as [y|] eqn:Ek; simpl; [|done].
    destruct (assign (p ++ q) v y) as [y'|] eqn:E; simpl; [|done]. intros [= <-] Hx.
    rewrite map_find_replace by by eexists. simpl. eauto.
Qed.

Lemma deref_wf p a x : wf_any a → deref p a = Some x → wf_any x.
Proof.
  revert a. induction p as [|[i|k] p IH]; intros a Ha; simpl; [naive_solver|..]; destruct a; try done.
  - apply wf_any_List in Ha. destruct (elements !! i) as [y|] eqn:Ei; simpl; [|done].
    apply IH. by eapply Forall_lookup_1 in Ei.
  - apply wf_any_Object in Ha as [_ Ha]. destruct (map_find k members) as [y|] eqn:Ek; simpl; [|done].
    apply IH. by eapply (map_find_Forall wf_any).
Qed.

Lemma assign_wf p v a a' : wf_any a → wf_any v → assign p v a = Some a' → wf_any a'.
Proof.
  intros Ha Hv. revert a a' Ha. induction p as [|[i|k] p IH]; intros a a' Ha; cbn [assign]; [naive_solver|..];
    destruct a; try done.
  - apply wf_any_List in Ha. destruct (elements !! i) as [y|] eqn:Ei; simpl; [|done].
    destruct (assign p v y) as [y'|] eqn:E; simpl; [|done]. intros [= <-]. apply wf_any_List.
    apply Forall_insert; [done|]. eapply IH; [|done]. by eapply Forall_lookup_1 in Ei.
  - apply wf_any_Object in Ha as [Hs Ha]. destruct (map_find k members) as [y|] eqn:Ek; simpl; [|done].
    destruct (assign p v y) as [y'|] eqn:E; simpl; [|done]. intros [= <-]. apply wf_any_Object. split.
    + eapply sorted_keys_fst; [|done]. symmetry. apply map_replace_keys.
    + apply map_replace_Forall; [done|]. intros ?. simpl. eapply IH; [|done].
      by eapply (map_find_Forall wf_any).
Qed.

(** ** The invariant of the builder *)

Definition is_container (a : Any) : Prop := match a with List _ | Object _ => True | _ => False end.

(** Each pointer leads one step further than the one below it on the stack. *)
Fixpoint nested (h : list pointer) : Prop :=
  match h with
  | [] => True
  | p :: h' => match h' with [] => p = [] | q :: _ => ∃ s, p = q ++ [s] end ∧ nested h'
  end.

Definition builder_inv (b : AnyTreeBuilder) : Prop :=
  nested (hierarchy_ b) ∧ wf_any (root_ b) ∧
  Forall (λ p, ∃ a, deref p (root_ b) = Some a ∧ is_container a) (hierarchy_ b).

Lemma nested_prefix p h q : nested (p :: h) → q ∈ p :: h → ∃ r, p = q ++ r.
Proof.
  revert p. induction h as [|p' h IH]; intros p [Hp Hn] Hq.
  - apply list_elem_of_singleton in Hq as ->. exists []. by rewrite app_nil_r.
  - apply elem_of_cons in Hq as [->|Hq]; [exists []; by rewrite app_nil_r|].
    destruct Hp as [s ->]. destruct (IH p' Hn Hq) as [r ->]. exists (r ++ [s]). by rewrite (assoc_L (++)).
Qed.

Lemma below_nested p h : nested (p :: h) → existsb (below p) (p :: h) = false.
Proof.
  intros Hn. apply not_true_is_false. intros (q & Hq & Hb)%existsb_exists.
  apply list_elem_of_In in Hq. destruct (nested_prefix p h q Hn Hq) as [r Hr].
  unfold below in Hb. apply andb_true_iff in Hb as [Hp%bool_decide_eq_true Hne].
  apply negb_true_iff, bool_decide_eq_false in Hne. destruct Hp as [r' Hq'].
  apply Hne. assert (length r = 0) as Hl.
  { apply (f_equal length) in Hr, Hq'. rewrite length_app in *. lia. }
  destruct r; [|done]. by rewrite app_nil_r in Hr.
Qed.

Lemma assign_container p v a a' :
  is_container a → is_container v → assign p v a = Some a' → is_container a'.
Proof.
  intros Ha Hv. destruct p as [|[i|k] p]; simpl; [naive_solver|..]; destruct a; try done; intros H;
    by simplify_option_eq.
Qed.

(** Writing a container to the top node keeps all pointers of the hierarchy. *)
Lemma write_top p h b v :
  hierarchy_ b = p :: h → builder_inv b → wf_any v → is_container v →
  ∃ root, write_node p v b = Ret (mkBuilder (last_key_ b) (hierarchy_ b) root) ∧
          deref p root = Some v ∧ builder_inv (mkBuilder (last_key_ b) (hierarchy_ b) root).
Proof.
  intros Hh (Hn & Hw & Hf) Hv Hc. rewrite Hh in *. apply Forall_cons in Hf as [(x & Hx & _) Hf].
  unfold write_node. destruct (assign_total p v _ _ Hx) as [root E]. rewrite E. exists root.
  pose proof (deref_assign _ _ _ _ E) as Hd. split_and!; [by rewrite Hh|done|]. split_and!; simpl; rewrite ?Hh.
  - done.
  - by apply (assign_wf p v (root_ b)).
  - constructor; [eauto|]. rewrite Forall_forall in *. intros q Hq.
    destruct (nested_prefix p h q Hn) as [r ->]; [set_solver|].
    destruct (Hf q Hq) as (y & Hy & Hyc). destruct (deref_assign_app _ _ _ _ _ _ E Hy) as (y' & Hy' & ->).
    exists y'. split; [done|]. by apply (assign_container r v y).
Qed.

(** What [Store] does: it returns, keeps the invariant, and the pointer it
    returns leads to the stored value, one step below the top. *)
Lemma Store_spec v b :
  builder_inv b → wf_any v →
  ∃ r b', Store v b = Ret (r, b') ∧ builder_inv b' ∧ hierarchy_ b' = hierarchy_ b ∧
    match r with
    | Value p => deref p (root_ b') = Some v ∧
        match hierarchy_ b with [] => p = [] | q :: _ => ∃ s, p = q ++ [s] end
    | Unexpected _ => True
    end.
Proof.
  intros Hb Hv. unfold Store. destruct (hierarchy_ b) as [|q h] eqn:Hh.
  { do 2 eexists. split; [done|]. by split_and!. }
  destruct Hb as (Hn & Hw & Hf). rewrite Hh in *. pose proof Hf as Hf'.
  apply Forall_cons in Hf' as [(x & Hx & Hc) _]. rewrite Hx. pose proof (deref_wf _ _ _ Hw Hx) as Hwx.
  assert (builder_inv b) as Hb by (unfold builder_inv; by rewrite Hh).
  destruct x as [| | | |m|l]; try done; cbn [As_List As_Object].
  - case_bool_decide; [do 2 eexists; split; [done|]; by rewrite Hh|].
    destruct (map_emplace (last_key_ b) v m) as [m'|] eqn:E; [|do 2 eexists; split; [done|]; by rewrite Hh].
    apply wf_any_Object in Hwx as [Hs Hm]. apply map_emplace_spec in E as (Hfind & _ & HP & Hsort).
    destruct (write_top q h b (Object m') Hh Hb) as (root & Hwr & Hd & Hinv).
    { apply wf_any_Object. auto. }
    { done. }
    rewrite Hwr. simpl. do 2 eexists. split; [done|]. rewrite Hh in *. split_and!; [done|done| |eauto].
    cbn [root_]. rewrite deref_app, Hd. simpl. by rewrite Hfind.
  - rewrite below_nested by done. apply wf_any_List in Hwx.
    destruct (write_top q h b (List (l ++ [v])) Hh Hb) as (root & Hwr & Hd & Hinv).
    { apply wf_any_List, Forall_app. auto. }
    { done. }
    rewrite Hwr. simpl. do 2 eexists. split; [done|]. rewrite Hh in *. split_and!; [done|done| |eauto].
    cbn [root_]. rewrite deref_app, Hd. simpl. by rewrite list_lookup_middle by done.
Qed.

Lemma StoreEvent_keeps v : wf_any v → keeps builder_inv (StoreEvent v).
Proof.
  intros Hv b Hb. destruct (Store_spec v b Hb Hv) as (r & b' & E & Hb' & _). unfold StoreEvent, bind_m.
  rewrite E. eexists _, b'. by split.
Qed.

Lemma StartContainer_keeps v : wf_any v → is_container v → keeps builder_inv (StartContainer v).
Proof.
  intros Hv Hc b Hb. destruct (Store_spec v b Hb Hv) as (r & b' & E & Hb' & Hh & Hr).
  unfold StartContainer, bind_m. rewrite E. destruct r as [p|e]; [|eexists _, b'; by split].
  destruct Hr as [Hd Hp]. do 2 eexists. split; [done|]. destruct Hb' as (Hn & Hw & Hf). rewrite Hh in *.
  split_and!; simpl; rewrite ?Hh; [by split|done|]. constructor; eauto.
Qed.

Lemma EndContainer_keeps : keeps builder_inv EndContainer.
Proof.
  intros b (Hn & Hw & Hf). do 2 eexists. split; [done|]. split_and!; simpl; [|done|].
  - destruct (hierarchy_ b); [done|]. by destruct Hn.
  - by destruct Hf.
Qed.

(** ** Numbers *)

Lemma New_view view n : New view = Ret (Value n) → view_ n = view ∧ view ≠ [].
Proof.
  unfold New. destruct view as [|c view]; [done|]. simpl. intros H.
  destruct (Validate _) as [[]| |]; simplify_eq/=. done.
Qed.

Lemma ParseFormatSuccessful_total n rest : view_ n ≠ [] → ∃ b, ParseFormatSuccessful n rest = Ret b.
Proof.
  intros Hn. unfold ParseFormatSuccessful. case_bool_decide; [|eauto].
  destruct (exists_last Hn) as (l & c & ->). rewrite back_snoc. simpl. eauto.
Qed.

Lemma ExtractIfIntegerSuccessful_total T S n c :
  view_ n ≠ [] →
  ∃ r, ExtractIfIntegerSuccessful T S n c = Ret r ∧ ∀ v, r = Some v → in_range T v.
Proof.
  intros Hn. unfold ExtractIfIntegerSuccessful. destruct (erange c); simpl; [eexists; by split|].
  destruct (ParseFormatSuccessful_total n (unparsed c) Hn) as [b ->]. simpl. eexists. split; [done|].
  intros v. destruct b; [|done]. unfold Cast. case_match; [|done]. intros [= <-]. apply static_cast_range.
Qed.

Lemma As_int_total T n : view_ n ≠ [] → ∃ r, As_int T n = Ret r ∧ ∀ v, r = Some v → in_range T v.
Proof.
  intros Hn. unfold As_int. destruct (is_signed T); [by apply ExtractIfIntegerSuccessful_total|].
  unfold UnsignedLongLong. destruct (view_ n) as [|c view] eqn:E; [done|]. simpl.
  apply ExtractIfIntegerSuccessful_total. by rewrite E.
Qed.

Lemma As_double_total n : view_ n ≠ [] → ∃ r, As_double n = Ret r.
Proof.
  intros Hn. unfold As_double. destruct (Double (view_ n)) as [d rest].
  destruct (ParseFormatSuccessful_total n rest Hn) as [b ->]. simpl. eauto.
Qed.

Lemma try_convert_total types n :
  view_ n ≠ [] → ∃ r, try_convert types n = Ret r ∧ ∀ x, r = Some x → wf_any (Num x).
Proof.
  intros Hn. induction types as [|t types IH]; simpl.
  - destruct (As_double_total n Hn) as [r ->]. simpl. eexists. split; [done|].
    intros x. destruct r; [|done]. by intros [= <-].
  - destruct (As_int_total t n Hn) as (r & -> & Hr). simpl. destruct r as [v|]; [|done].
    eexists. split; [done|]. intros x [= <-]. simpl. eauto.
Qed.

Lemma OnNumber_keeps view n : New view = Ret (Value n) → keeps builder_inv (OnNumber n).
Proof.
  intros [Hv Hne]%New_view b Hb. unfold OnNumber. rewrite <- Hv in Hne.
  destruct (try_convert_total integer_types n Hne) as (r & -> & Hr). simpl.
  destruct r as [x|]; [|eexists _, b; by split]. apply StoreEvent_keeps; eauto.
Qed.

#[export] Instance AnyTreeBuilder_safe : SafeImplementer AnyTreeBuilder builder_inv.
Proof.
  split; cbn.
  - by apply StoreEvent_keeps.
  - intros b. by apply StoreEvent_keeps.
  - apply OnNumber_keeps.
  - intros s. by apply StoreEvent_keeps.
  - intros s b Hb. do 2 eexists. split; [done|]. done.
  - by apply StartContainer_keeps.
  - intros _. apply EndContainer_keeps.
  - by apply StartContainer_keeps.
  - intros _. apply EndContainer_keeps.
Qed.

Lemma initial_builder_inv : builder_inv AnyTreeBuilder.initial.
Proof. by split_and!; simpl. Qed.

(** What [FromBuffer] can return. *)
Lemma FromBuffer_returns buffer :
  ∃ r, JsonParser.FromBuffer buffer = Ret r ∧
       match r with Value a => wf_any a | Unexpected e => e = kParsingError end.
Proof.
  unfold JsonParser.FromBuffer, GetData. destruct (FromBuffer_ready buffer) as (d & -> & Hdepth & Hw). simpl.
  destruct (Parse_at (J := builder_inv) (todo (JsonData.stream_ d))
    (StructureParser.mkParser d AnyTreeBuilder.initial)) as (r & p & -> & _ & (_ & Hroot & _) & _).
  { split_and!; [|apply initial_builder_inv|by split]. simpl. rewrite Hdepth. apply DepthCounter.initial_inv. }
  simpl. eexists. split; [done|]. by destruct r.
Qed.

(** ** Properties *)

(** C25: Reading a buffer always returns, for every sequence of characters: the
    parser ends, the builder never follows a dangling pointer, and the result
    is the error [kParsingError] or a well-formed tree, in which the keys of
    every object strictly increase and every integer fits its type. *)
Theorem from_buffer_total buffer :
  ∃ r, JsonParser.FromBuffer buffer = Ret r ∧
       match r with Value a => wf_any a | Unexpected e => e = kParsingError end.
Proof. apply FromBuffer_returns. Qed.

End JsonTree.
