(* ===== verification/JsonFinite.v ===== *)
(** * The numbers of a tree that was read

    [AnyTreeBuilder] converts the text of a number to an integer type, or to a
    finite [double].  A tree that [FromBuffer] returns therefore has no infinity
    and no NaN, and all conversions of its values to integers are defined. *)

From S2P Require Import Prelude CppInt CppString CppFloat CppStream FloatValid JsonModel JsonError DepthCounter JsonNumber JsonReader JsonParser JsonSafety JsonTree.
Import CppFloat FloatValid JsonModel JsonError JsonNumber JsonReader AnyTreeBuilder JsonSafety JsonTree.

Module JsonFinite.

(** The numbers of a tree. *)
Fixpoint numbers (a : Any) : list Number :=
  match a with
  | Num n => [n]
  | Object m => flat_map (λ kv, numbers kv.2) m
  | List l => flat_map numbers l
  | _ => []
  end.

(** A number of its format that is neither infinite nor a NaN. *)
Definition proper (n : Number) : Prop :=
  match n with
  | Integer _ _ => True
  | Floating t f => isfinite f = true ∧ valid_binary (prec t) (emax t) f = true
  end.

Definition finite (a : Any) : Prop := Forall proper (numbers a).

Lemma finite_Object m : finite (Object m) ↔ Forall (λ kv, finite kv.2) m.
Proof. apply Forall_flat_map. Qed.

Lemma finite_List l : finite (List l) ↔ Forall finite l.
Proof. apply Forall_flat_map. Qed.

(** ** The builder *)

Lemma deref_finite p a x : finite a → deref p a = Some x → finite x.
Proof.
  revert a. induction p as [|[i|k] p IH]; intros a Ha; simpl; [naive_solver|..]; destruct a; try done.
  - apply finite_List in Ha. destruct (elements !! i) as [y|] eqn:Ei; simpl; [|done].
    apply IH. by eapply Forall_lookup_1 in Ei.
  - apply finite_Object in Ha. destruct (map_find k members) as [y|] eqn:Ek; simpl; [|done].
    apply IH. by eapply (map_find_Forall finite).
Qed.

Lemma assign_finite p v a a' : finite a → finite v → assign p v a = Some a' → finite a'.
Proof.
  intros Ha Hv. revert a a' Ha. induction p as [|[i|k] p IH]; intros a a' Ha; cbn [assign]; [naive_solver|..];
    destruct a; try done.
  - apply finite_List in Ha. destruct (elements !! i) as [y|] eqn:Ei; simpl; [|done].
    destruct (assign p v y) as [y'|] eqn:E; simpl; [|done]. intros [= <-]. apply finite_List.
    apply Forall_insert; [done|]. eapply IH; [|done]. by eapply Forall_lookup_1 in Ei.
  - apply finite_Object in Ha. destruct (map_find k members) as [y|] eqn:Ek; simpl; [|done].
    destruct (assign p v y) as [y'|] eqn:E; simpl; [|done]. intros [= <-]. apply finite_Object.
    apply map_replace_Forall; [done|]. intros ?. simpl. eapply IH; [|done]. by eapply (map_find_Forall finite).
Qed.

Lemma write_node_finite p v b b' :
  finite (root_ b) → finite v → write_node p v b = Ret b' → finite (root_ b').
Proof.
  intros Hb Hv. unfold write_node. destruct (assign p v (root_ b)) as [root|] eqn:E; [|done].
  intros [= <-]. exact (assign_finite _ _ _ _ Hb Hv E).
Qed.

Lemma Store_finite v b r b' :
  finite v → finite (root_ b) → Store v b = Ret (r, b') → finite (root_ b').
Proof.
  intros Hv Hb. unfold Store. destruct (hierarchy_ b) as [|q h]; [by intros [= <- <-]|].
  destruct (deref q (root_ b)) as [node|] eqn:Ed; [|done]. pose proof (deref_finite _ _ _ Hb Ed) as Hn.
  destruct node as [| | | |m|l]; cbn [As_List As_Object];
    try (case_bool_decide; by intros [= <- <-]).
  - case_bool_decide; [by intros [= <- <-]|].
    destruct (map_emplace (last_key_ b) v m) as [m'|] eqn:E; [|by intros [= <- <-]].
    apply map_emplace_spec in E as (_ & _ & HP & _). apply finite_Object in Hn.
    destruct (write_node q (Object m') b) as [b1| |] eqn:Ew; [|done..]. intros [= <- <-].
    eapply (write_node_finite q (Object m')); [done| |done]. apply finite_Object. by apply HP.
  - destruct (existsb _ _); [done|]. apply finite_List in Hn.
    destruct (write_node q (List (l ++ [v])) b) as [b1| |] eqn:Ew; [|done..]. intros [= <- <-].
    eapply (write_node_finite q (List (l ++ [v]))); [done| |done]. apply finite_List, Forall_app. auto.
Qed.

Definition finite_inv (b : AnyTreeBuilder) : Prop := builder_inv b ∧ finite (root_ b).

(** A method that keeps the invariant of the builder, and the numbers finite. *)
Lemma keeps_finite {A} (m : method AnyTreeBuilder A) :
  keeps builder_inv m →
  (∀ b r b', finite (root_ b) → m b = Ret (r, b') → finite (root_ b')) → keeps finite_inv m.
Proof. intros Hm Hf b [Hb Hn]. destruct (Hm b Hb) as (r & b' & E & Hb'). exists r, b'. split; [done|]. by split; [|eapply Hf]. Qed.

Lemma StoreEvent_finite v b r b' :
  finite v → finite (root_ b) → StoreEvent v b = Ret (r, b') → finite (root_ b').
Proof.
  intros Hv Hb. unfold StoreEvent, bind_m. destruct (Store v b) as [[s b1]| |] eqn:E; [|done..].
  intros [= <- <-]. exact (Store_finite _ _ _ _ Hv Hb E).
Qed.

Lemma StartContainer_finite v b r b' :
  finite v → finite (root_ b) → StartContainer v b = Ret (r, b') → finite (root_ b').
Proof.
  intros Hv Hb. unfold StartContainer, bind_m. destruct (Store v b) as [[s b1]| |] eqn:E; [|done..].
  apply Store_finite in E; [|done..]. by destruct s; intros [= <- <-].
Qed.

Lemma try_convert_proper types n x : try_convert types n = Ret (Some x) → proper x.
Proof.
  induction types as [|t types IH]; simpl.
  - unfold As_double, Double. pose proof (strtod_valid (view_ n)) as Hv.
    destruct (strtod (view_ n)) as [f rest]. destruct (ParseFormatSuccessful n rest) as [ok| |]; simpl; [|done..].
    destruct (ok && isfinite f && _) eqn:E; [|done]. apply andb_prop in E as [E _]. apply andb_prop in E as [_ E].
    unfold Cast_double. case_match; simpl; intros Hx; by simplify_eq.
  - destruct (As_int t n) as [[v|]| |]; simpl; [|done..]. by intros [= <-].
Qed.

Lemma OnNumber_finite n b r b' : finite (root_ b) → OnNumber n b = Ret (r, b') → finite (root_ b').
Proof.
  intros Hb. unfold OnNumber. destruct (try_convert integer_types n) as [[x|]| |] eqn:E; [|by intros [= <- <-]|done..].
  apply StoreEvent_finite; [|done]. constructor; [|constructor]. by eapply try_convert_proper.
Qed.

#[export] Instance AnyTreeBuilder_finite : SafeImplementer AnyTreeBuilder finite_inv.
Proof.
  assert (finite Null ∧ finite (Object []) ∧ finite (List []) ∧ (∀ b, finite (Bool b)) ∧ ∀ s, finite (String s))
    as (H1 & H2 & H3 & H4 & H5) by (split_and!; constructor).
  pose proof AnyTreeBuilder_safe as []. split; intros.
  1, 2, 4: apply keeps_finite; [done|]; intros *; by apply StoreEvent_finite.
  - apply keeps_finite; [by eapply safe_OnNumber|]. intros *. apply OnNumber_finite.
  - apply keeps_finite; [done|]. by intros b r b' Hb [= <- <-].
  - apply keeps_finite; [done|]. intros *. by apply StartContainer_finite.
  - apply keeps_finite; [done|]. by intros b r b' Hb [= <- <-].
  - apply keeps_finite; [done|]. intros *. by apply StartContainer_finite.
  - apply keeps_finite; [done|]. by intros b r b' Hb [= <- <-].
Qed.

(** Every number of a tree that was read is proper. *)
Lemma FromBuffer_finite buffer a : JsonParser.FromBuffer buffer = Ret (Value a) → finite a.
Proof.
  unfold JsonParser.FromBuffer, GetData. destruct (FromBuffer_ready buffer) as (d & -> & Hdepth & Hw). simpl.
  destruct (Parse_at (J := finite_inv) (todo (JsonData.stream_ d))
    (StructureParser.mkParser d AnyTreeBuilder.initial)) as (r & p & -> & _ & (_ & Hroot) & _).
  { split_and!; [|split; [apply initial_builder_inv|constructor]|by split].
    simpl. rewrite Hdepth. apply DepthCounter.initial_inv. }
  simpl. destruct r; [|done]. by intros [= <-].
Qed.

(** A value of such a tree converts to every integer type, or is refused. *)
Lemma finite_As_int T a : finite a → ∃ r, Any_As_int T a = Ret r.
Proof.
  intros Ha. destruct a as [b|[t v|t f]|s| |m|l]; cbn [Any_As_int]; try by eexists.
  apply Forall_cons in Ha as [[Hf Hv] _]. pose proof (TryLosslessCast_float_int_returns T t f Hv) as H.
  destruct H as (r & E & _); [by destruct f|]. by exists r.
Qed.

End JsonFinite.
