(* ===== verification/JsonRender.v ===== *)
(** * The text the JSON writer produces

    [render] is the text of a value as a function of its depth; the serializers
    append exactly this text to the stream. *)

From S2P Require Import Prelude CppInt CppString CppFloat CppStream JsonModel JsonWriter.
Import CppFloat Stream JsonModel JsonWriter.

Module JsonRender.

Definition line_break (f : Formatting) (d : Z) : str :=
  match f with
  | kPrettyPrint => newline :: concat (replicate (Z.to_nat d) kIndentation)
  | kCompact => []
  end.

Definition name_separator (f : Formatting) : str :=
  match f with kPrettyPrint => s! ": " | kCompact => s! ":" end.

Definition escape (s : str) : str := concat (escape_char <$> s).
Definition literal (s : str) : str := quote :: escape s ++ [quote].

#[global] Arguments literal : simpl never.

Definition separator (first : bool) : str := if first then [] else s! ",".

(** One level deeper, on a 64-bit [std::size_t]. *)
Definition deeper (d : Z) : Z := ((d + 1) mod 2 ^ 64)%Z.

Section Render.
  Variable f : Formatting.
  Variable to_chars_floating : float_type → spec_float → str.

Definition render_number (n : Number) : str :=
  match n with Integer _ v => to_chars_int v | Floating t x => to_chars_floating t x end.

Fixpoint render (d : Z) (a : Any) : str :=
  match a with
  | Bool b => if b then s! "true" else s! "false"
  | Null => s! "null"
  | String s => literal s
  | Num n => render_number n
  | Object m =>
      s! "{" ++
      (fix go (first : bool) (m : list (str * Any)) : str :=
         match m with
         | [] => if first then [] else line_break f d
         | (k, v) :: m =>
             separator first ++ line_break f (deeper d) ++ literal k ++ name_separator f ++
             render (deeper d) v ++ go false m
         end) true m ++ s! "}"
  | List l =>
      s! "[" ++
      (fix go (first : bool) (l : list Any) : str :=
         match l with
         | [] => if first then [] else line_break f d
         | v :: l =>
             separator first ++ line_break f (deeper d) ++ render (deeper d) v ++ go false l
         end) true l ++ s! "]"
  end.

(** The inner loops of [render]. *)
Fixpoint render_members (d : Z) (first : bool) (m : list (str * Any)) : str :=
  match m with
  | [] => if first then [] else line_break f d
  | (k, v) :: m =>
      separator first ++ line_break f (deeper d) ++ literal k ++ name_separator f ++
      render (deeper d) v ++ render_members d false m
  end.

Fixpoint render_elements (d : Z) (first : bool) (l : list Any) : str :=
  match l with
  | [] => if first then [] else line_break f d
  | v :: l => separator first ++ line_break f (deeper d) ++ render (deeper d) v ++ render_elements d false l
  end.

Lemma render_Object d m : render d (Object m) = s! "{" ++ render_members d true m ++ s! "}".
Proof.
  simpl. f_equal. f_equal. generalize true. induction m as [|[k v] m IH]; intros b; [done|]. simpl. by rewrite IH.
Qed.

Lemma render_List d l : render d (List l) = s! "[" ++ render_elements d true l ++ s! "]".
Proof.
  simpl. f_equal. f_equal. generalize true. induction l as [|v l IH]; intros b; [done|]. simpl. by rewrite IH.
Qed.

(** ** The writer appends the text *)

(** A writer whose stream has not failed and holds [t]. *)
Definition writer_at (t : str) (d : Z) (w : FormattingWriter) : Prop :=
  stream_ w = mk_ostream t false ∧ formatting_ w = f ∧ depth_ w = d.

(** Numbers whose text fits the buffer; only finite ones have a text. *)
Fixpoint writable (a : Any) : Prop :=
  match a with
  | Num (Floating t x) => isfinite x = true ∧ length (to_chars_floating t x) ≤ kBufferSize
  | Object m => (fix go (m : list (str * Any)) : Prop := match m with [] => True | (_, v) :: m => writable v ∧ go m end) m
  | List l => (fix go (l : list Any) : Prop := match l with [] => True | v :: l => writable v ∧ go l end) l
  | _ => True
  end.

Lemma writable_Object m : writable (Object m) ↔ Forall (λ kv, writable kv.2) m.
Proof. simpl. induction m as [|[k v] m IH]; [done|]. by rewrite Forall_cons, IH. Qed.

Lemma writable_List l : writable (List l) ↔ Forall writable l.
Proof. simpl. induction l as [|v l IH]; [done|]. by rewrite Forall_cons, IH. Qed.

Lemma writer_write t d w s : writer_at t d w → writer_at (t ++ s) d (on_stream (write s) w).
Proof. intros (Hs & Hf & Hd). unfold on_stream, writer_at. simpl. by rewrite Hs. Qed.

Lemma writer_write_escaped t d w s : writer_at t d w → writer_at (t ++ escape s) d (on_stream (write_escaped s) w).
Proof.
  intros (Hs & Hf & Hd). unfold on_stream, writer_at. simpl. rewrite Hs. split_and!; [|done..].
  clear Hs. revert t. induction s as [|c s IH]; intros t; simpl; [by rewrite app_nil_r|].
  change (write (escape_char c) (mk_ostream t false)) with (mk_ostream (t ++ escape_char c) false). rewrite IH. unfold escape. csimpl. by rewrite (assoc_L (++)).
Qed.

Lemma writer_literal t d w s : writer_at t d w → writer_at (t ++ literal s) d (on_stream (write_string_literal s) w).
Proof.
  intros H. apply (writer_write _ _ _ [quote]), (writer_write_escaped _ _ _ s), (writer_write _ _ _ [quote]) in H.
  unfold literal. rewrite <- !(assoc_L (++)) in H. exact H.
Qed.

Lemma writer_line_break t d w : writer_at t d w → writer_at (t ++ line_break f d) d (WriteLineBreak w).
Proof.
  intros Hw. unfold WriteLineBreak, line_break. destruct Hw as (Hs & Hf & Hd) eqn:E. rewrite Hf, Hd. clear E.
  destruct f; [by rewrite app_nil_r|].
  assert (writer_at (t ++ [newline]) d (on_stream (put newline) w)) as H by by apply writer_write.
  change (newline :: concat (replicate (Z.to_nat d) kIndentation))
    with ([newline] ++ concat (replicate (Z.to_nat d) kIndentation)).
  rewrite (assoc_L (++)). generalize dependent (t ++ [newline]). intros t' H.
  generalize (Z.to_nat d). intros n. induction n as [|n IH]; simpl; [by rewrite app_nil_r|].
  apply (writer_write _ _ _ kIndentation) in IH. revert IH. rewrite <- (assoc_L (++)).
  replace (concat (replicate n kIndentation) ++ kIndentation)
    with (kIndentation ++ concat (replicate n kIndentation)); [done|].
  clear. induction n as [|n IH]; simpl; [done|]. by rewrite <- IH.
Qed.

(** A value written where [ret] and [st] say, at depth [d]. *)
Definition position (ret : Return) (st : SerializerState) (d : Z) : str :=
  match ret with Self => separator (negb (is_nonempty st)) ++ line_break f d | _ => [] end.

(** After the call the writer has appended [s], and its container is not empty. *)
Definition appends (s : str) (t : str) (d : Z) (o : outcome FormattingWriter) : Prop :=
  ∃ w, o = Ret w ∧ writer_at (t ++ s) d w ∧ container_empty_ w = false.

Lemma BeginElement_at t d w st :
  writer_at t d w →
  writer_at (t ++ position Self st d) d (BeginElement (is_nonempty st) w) ∧
  container_empty_ (BeginElement (is_nonempty st) w) = false.
Proof.
  intros H. split; [|done]. unfold BeginElement, position.
  assert (writer_at (t ++ separator (negb (is_nonempty st))) d
            (if is_nonempty st then on_stream (put ",") w else w)) as H'.
  { destruct st; simpl; [by rewrite app_nil_r|]. by apply writer_write. }
  apply writer_line_break in H'. rewrite (assoc_L (++)). destruct H' as (? & ? & ?). done.
Qed.

Lemma Serialize_at ret st (fn : FormattingWriter → outcome FormattingWriter) s t d w :
  writer_at t d w → (ret = Self ∨ container_empty_ w = false) →
  (∀ t w, writer_at t d w → container_empty_ w = false → appends s t d (fn w)) →
  appends (position ret st d ++ s) t d (Serialize ret st fn w).
Proof.
  intros Hw Hret Hfn. unfold Serialize.
  destruct ret; simpl; [destruct Hret as [|Hret]; [done|]; by apply Hfn| |
    destruct Hret as [|Hret]; [done|]; by apply Hfn].
  destruct (BeginElement_at t d w st Hw) as [H1 H2]. destruct (Hfn _ _ H1 H2) as (w' & -> & H & Hc).
  exists w'. split_and!; [done| |done]. unfold position in *. by rewrite !(assoc_L (++)) in *.
Qed.

Lemma deeper_range d : (0 <= deeper d < 2 ^ 64)%Z.
Proof. apply Z.mod_pos_bound. lia. Qed.

Lemma BeginContainer_at c t d w :
  writer_at t d w → writer_at (t ++ [c]) (deeper d) (BeginContainer c w) ∧
                    container_empty_ (BeginContainer c w) = true.
Proof.
  intros Hw. split; [|done]. apply (writer_write _ _ _ [c]) in Hw as (H1 & H2 & H3).
  unfold BeginContainer, writer_at. cbn [stream_ formatting_ depth_]. split_and!; [done|done|].
  simpl in *. unfold deeper. by rewrite H3.
Qed.

Lemma EndContainer_at c t d w :
  (0 <= d < 2 ^ 64)%Z → writer_at t (deeper d) w →
  writer_at (t ++ (if container_empty_ w then [] else line_break f d) ++ [c]) d (EndContainer c w) ∧
  container_empty_ (EndContainer c w) = false.
Proof.
  intros Hd (H1 & H2 & H3). split; [|done]. unfold EndContainer.
  assert (((depth_ w - 1) mod 2 ^ 64)%Z = d) as ->.
  { rewrite H3. unfold deeper. rewrite Zminus_mod_idemp_l. replace (d + 1 - 1)%Z with d by lia. by apply Z.mod_small. }
  set (w0 := mkWriter (stream_ w) (formatting_ w) d (container_empty_ w)).
  assert (writer_at t d w0) as H0 by done.
  assert (writer_at (t ++ if container_empty_ w then [] else line_break f d) d
            (if negb (container_empty_ w0) then WriteLineBreak w0 else w0)) as H4.
  { simpl. destruct (container_empty_ w); simpl; [by rewrite app_nil_r|]. by apply writer_line_break. }
  apply (writer_write _ _ _ [c]) in H4. rewrite <- (assoc_L (++)) in H4. exact H4.
Qed.

Lemma SerializeKey_at t d w st k :
  writer_at t d w →
  writer_at (t ++ separator (negb (is_nonempty st)) ++ line_break f d ++ literal k ++ name_separator f) d
    (SerializeKey st k w) ∧ container_empty_ (SerializeKey st k w) = false.
Proof.
  intros Hw. destruct (BeginElement_at t d w st Hw) as [H1 H2]. unfold SerializeKey, WriteNameSeparator.
  apply (writer_literal _ _ _ k) in H1. pose proof H1 as (_ & Hf & _).
  apply (writer_write _ _ _ (s! ":")) in H1. cbn [on_stream formatting_] in *. rewrite Hf.
  unfold position in H1. rewrite <- !(assoc_L (++)) in H1. unfold name_separator. destruct f; split; try done.
  apply (writer_write _ _ _ (s! " ")) in H1. rewrite <- !(assoc_L (++)) in H1. exact H1.
Qed.

Lemma length_decimal_digits fuel n acc : length (decimal_digits fuel n acc) ≤ fuel + length acc.
Proof.
  revert n acc. induction fuel as [|fuel IH]; intros n acc; simpl; [lia|]. case_match; simpl; [lia|].
  etrans; [apply IH|]. simpl. lia.
Qed.

Lemma length_to_chars_int v : length (to_chars_int v) ≤ kBufferSize.
Proof.
  unfold to_chars_int, kBufferSize. case_match; cbn [length].
  - pose proof (length_decimal_digits 20 (- v) []) as Hl. cbn [length] in Hl. lia.
  - pose proof (length_decimal_digits 20 v []) as Hl. cbn [length] in Hl. lia.
Qed.

Lemma cast_64 t v : in_range t v → static_cast (if is_signed t then int64_t else uint64_t) v = v.
Proof. intros H. apply static_cast_id. unfold in_range in *. destruct t; simpl in *; unfold lowest, max, digits in *; simpl in *; lia. Qed.

Lemma appends_write s t d w :
  writer_at t d w → container_empty_ w = false → appends s t d (Ret (on_stream (write s) w)).
Proof. intros Hw Hc. eexists. split; [done|]. split; [by apply writer_write|done]. Qed.

Lemma SerializeNumber_at n t d w :
  writable (Num n) → wf_any (Num n) → writer_at t d w → container_empty_ w = false →
  appends (render_number n) t d (SerializeNumber to_chars_floating n w).
Proof.
  intros Hn Hwf Hw Hc. unfold SerializeNumber, WriteNumber. destruct n as [ty v|ty x]; simpl in *.
  - rewrite cast_64 by done. rewrite (proj2 (Nat.leb_le _ _)) by apply length_to_chars_int.
    by apply appends_write.
  - destruct Hn as [-> Hn]. cbn [negb]. rewrite (proj2 (Nat.leb_le _ _)) by done.
    by apply appends_write.
Qed.

(** The loops of [SerializeObject] and [SerializeList]. *)
Fixpoint SerializeMembers (st : SerializerState) (m : list (str * Any)) (w : FormattingWriter) :
    outcome FormattingWriter :=
  match m with
  | [] => Ret w
  | (k, v) :: m =>
      w ← SerializeValue to_chars_floating Key kEmpty v (SerializeKey st k w); SerializeMembers kNonEmpty m w
  end.

Fixpoint SerializeElements (st : SerializerState) (l : list Any) (w : FormattingWriter) :
    outcome FormattingWriter :=
  match l with
  | [] => Ret w
  | v :: l => w ← SerializeValue to_chars_floating Self st v w; SerializeElements kNonEmpty l w
  end.

Lemma SerializeValue_Object ret st m w :
  SerializeValue to_chars_floating ret st (Object m) w =
  Serialize ret st (λ w, w ← SerializeMembers kEmpty m (BeginContainer "{" w); Ret (EndContainer "}" w)) w.
Proof. reflexivity. Qed.

Lemma SerializeValue_List ret st l w :
  SerializeValue to_chars_floating ret st (List l) w =
  Serialize ret st (λ w, w ← SerializeElements kEmpty l (BeginContainer "[" w); Ret (EndContainer "]" w)) w.
Proof. reflexivity. Qed.

(** What the serializers promise of a value. *)
Definition serializes (a : Any) : Prop :=
  ∀ ret st t d w, (0 <= d < 2 ^ 64)%Z → writer_at t d w → (ret = Self ∨ container_empty_ w = false) →
    appends (position ret st d ++ render d a) t d (SerializeValue to_chars_floating ret st a w).

Lemma SerializeElements_at l st t d w :
  Forall serializes l → (0 <= d < 2 ^ 64)%Z → writer_at t (deeper d) w →
  container_empty_ w = negb (is_nonempty st) →
  ∃ w', SerializeElements st l w = Ret w' ∧
    ∃ t', writer_at t' (deeper d) w' ∧
      t' ++ (if container_empty_ w' then [] else line_break f d) = t ++ render_elements d (negb (is_nonempty st)) l.
Proof.
  intros Hl Hd. revert st t w. induction Hl as [|v l Hv Hl IH]; intros st t w Hw Hc; simpl.
  - exists w. split; [done|]. exists t. by rewrite Hc.
  - destruct (Hv Self st t (deeper d) w (deeper_range d) Hw) as (w1 & -> & Hw1 & Hc1); [by left|]. simpl.
    destruct (IH kNonEmpty _ w1 Hw1 Hc1) as (w2 & -> & t2 & Hw2 & Ht2).
    exists w2. split; [done|]. exists t2. split; [done|]. rewrite Ht2. simpl. by rewrite <- !(assoc_L (++)).
Qed.

Lemma SerializeMembers_at m st t d w :
  Forall (λ kv, serializes kv.2) m → (0 <= d < 2 ^ 64)%Z → writer_at t (deeper d) w →
  container_empty_ w = negb (is_nonempty st) →
  ∃ w', SerializeMembers st m w = Ret w' ∧
    ∃ t', writer_at t' (deeper d) w' ∧
      t' ++ (if container_empty_ w' then [] else line_break f d) = t ++ render_members d (negb (is_nonempty st)) m.
Proof.
  intros Hm Hd. revert st t w. induction Hm as [|[k v] m Hv Hm IH]; intros st t w Hw Hc; cbn [snd] in *; cbn [SerializeMembers render_members].
  - exists w. split; [done|]. exists t. by rewrite Hc.
  - destruct (SerializeKey_at t (deeper d) w st k Hw) as [Hw0 Hc0].
    destruct (Hv Key kEmpty _ (deeper d) _ (deeper_range d) Hw0) as (w1 & -> & Hw1 & Hc1); [by right|]. cbn [mbind outcome_bind].
    destruct (IH kNonEmpty _ w1 Hw1 Hc1) as (w2 & -> & t2 & Hw2 & Ht2).
    exists w2. split; [done|]. exists t2. split; [done|]. rewrite Ht2. cbn [position is_nonempty negb render_members]. rewrite (left_id_L [] (++)).
    generalize (literal k). intros l. by rewrite <- !(assoc_L (++)).
Qed.

Lemma SerializeValue_at a : writable a → wf_any a → serializes a.
Proof.
  induction a as [b|n|s| |m IH|l IH] using Any_nested_ind; intros Hwr Hwf ret st t d w Hd Hw Hret.
  - apply (Serialize_at ret st _ (if b then s! "true" else s! "false")); [done..|].
    intros t' w' H1 H2. by apply appends_write.
  - apply (Serialize_at ret st _ (render_number n)); [done..|]. intros t' w' H1 H2. by apply SerializeNumber_at.
  - apply (Serialize_at ret st _ (literal s)); [done..|].
    intros t' w' H1 H2. eexists. split; [done|]. split; [by apply writer_literal|done].
  - apply (Serialize_at ret st _ (s! "null")); [done..|].
    intros t' w' H1 H2. by apply appends_write.
  - rewrite SerializeValue_Object, render_Object. apply Serialize_at; [done..|]. intros t' w' H1 H2.
    apply (BeginContainer_at "{") in H1 as [H1 Hc].
    apply writable_Object in Hwr. apply wf_any_Object in Hwf as [_ Hwf].
    destruct (λ Hm, SerializeMembers_at m kEmpty _ d _ Hm Hd H1) as (w1 & -> & t1 & Hw1 & Ht1); [|done|].
    { rewrite !Forall_forall in *. auto. }
    destruct (EndContainer_at "}" t1 d w1 Hd Hw1) as [H3 H4].
    eexists. split; [done|]. split; [|done]. rewrite (assoc_L (++)), Ht1 in H3.
    cbn [is_nonempty negb] in H3. by rewrite <- !(assoc_L (++)) in *.
  - rewrite SerializeValue_List, render_List. apply Serialize_at; [done..|]. intros t' w' H1 H2.
    apply (BeginContainer_at "[") in H1 as [H1 Hc].
    apply writable_List in Hwr. apply wf_any_List in Hwf.
    destruct (λ Hl, SerializeElements_at l kEmpty _ d _ Hl Hd H1) as (w1 & -> & t1 & Hw1 & Ht1); [|done|].
    { rewrite !Forall_forall in *. auto. }
    destruct (EndContainer_at "]" t1 d w1 Hd Hw1) as [H3 H4].
    eexists. split; [done|]. split; [|done]. rewrite (assoc_L (++)), Ht1 in H3.
    cbn [is_nonempty negb] in H3. by rewrite <- !(assoc_L (++)) in *.
Qed.

(** The writer returns the text of the tree. *)
Lemma ToBuffer_render a : writable a → wf_any a → ToBuffer to_chars_floating f a = Ret (Value (render 0 a)).
Proof.
  intros Hwr Hwf. unfold ToBuffer, SerializeToStream.
  destruct (SerializeValue_at a Hwr Hwf Unit kEmpty [] 0%Z (mkWriter (mk_ostream [] false) f 0 false))
    as (w & -> & (Hs & _) & _); [lia|done|by right|]. simpl. by rewrite Hs.
Qed.

(** ** Numbers without a text *)

Fixpoint finite (a : Any) : bool :=
  match a with
  | Num (Floating _ x) => isfinite x
  | Object m => forallb (λ '(_, v), finite v) m
  | List l => forallb finite l
  | _ => true
  end.

(** The call returns, and the stream has failed if [failed]. *)
Definition leaves (failed : bool) (o : outcome FormattingWriter) : Prop :=
  ∃ w, o = Ret w ∧ ofail (stream_ w) = failed.

Lemma ofail_write s o : ofail (write s o) = ofail o.
Proof. unfold write. by destruct (ofail o) eqn:E. Qed.

Lemma ofail_literal s o : ofail (write_string_literal s o) = ofail o.
Proof.
  unfold write_string_literal, put. rewrite ofail_write. rewrite <- (ofail_write [quote] o). generalize (write [quote] o).
  induction s as [|c s IH]; intros o'; simpl; [done|]. by rewrite IH, ofail_write.
Qed.

Lemma ofail_line_break w : ofail (stream_ (WriteLineBreak w)) = ofail (stream_ w).
Proof.
  unfold WriteLineBreak. destruct (formatting_ w); [done|]. rewrite <- (ofail_write [newline] (stream_ w)).
  change (write [newline] (stream_ w)) with (stream_ (on_stream (put newline) w)).
  generalize (on_stream (put newline) w). intros w'. induction (Z.to_nat (depth_ w)) as [|n IH]; [done|].
  rewrite Nat.iter_succ, <- IH. apply ofail_write.
Qed.

Lemma ofail_BeginElement b w : ofail (stream_ (BeginElement b w)) = ofail (stream_ w).
Proof.
  unfold BeginElement. cbn [stream_]. rewrite ofail_line_break. destruct b; [|done]. unfold on_stream. cbn [stream_].
  apply ofail_write.
Qed.

Lemma ofail_EndContainer c w : ofail (stream_ (EndContainer c w)) = ofail (stream_ w).
Proof.
  unfold EndContainer. cbn [stream_ on_stream]. unfold put. rewrite ofail_write. case_match; [|done].
  by rewrite ofail_line_break.
Qed.

Lemma ofail_SerializeKey st k w : ofail (stream_ (SerializeKey st k w)) = ofail (stream_ w).
Proof.
  unfold SerializeKey, WriteNameSeparator. cbn [on_stream stream_ formatting_]. unfold put.
  destruct (formatting_ _); cbn [on_stream stream_]; rewrite !ofail_write, ofail_literal; apply ofail_BeginElement.
Qed.

Hypothesis Hfits : ∀ t x, isfinite x = true → length (to_chars_floating t x) ≤ kBufferSize.

Lemma WriteNumber_leaves t w : length t ≤ kBufferSize → leaves (ofail (stream_ w)) (WriteNumber t w).
Proof.
  intros Ht. unfold WriteNumber. rewrite (proj2 (Nat.leb_le _ _)) by done. eexists. split; [done|]. apply ofail_write.
Qed.

Lemma SerializeNumber_leaves n w :
  leaves (ofail (stream_ w) || negb (finite (Num n))) (SerializeNumber to_chars_floating n w).
Proof using Hfits.
  unfold SerializeNumber. destruct n as [t v|t x]; cbn [finite negb].
  - rewrite orb_false_r. apply WriteNumber_leaves, length_to_chars_int.
  - destruct (isfinite x) eqn:E; cbn [negb].
    + rewrite orb_false_r. by apply WriteNumber_leaves, Hfits.
    + rewrite orb_true_r. by eexists.
Qed.

Definition value_leaves (a : Any) : Prop :=
  ∀ ret st w, leaves (ofail (stream_ w) || negb (finite a)) (SerializeValue to_chars_floating ret st a w).

Lemma elements_leave l st w :
  Forall value_leaves l → leaves (ofail (stream_ w) || negb (forallb finite l)) (SerializeElements st l w).
Proof.
  intros Hl. revert st w. induction Hl as [|v l Hv _ IH]; intros st w; cbn [SerializeElements forallb].
  - rewrite orb_false_r. by eexists.
  - destruct (Hv Self st w) as (w1 & -> & E1). cbn [mbind outcome_bind]. destruct (IH kNonEmpty w1) as (w2 & -> & E2).
    exists w2. split; [done|]. by rewrite E2, E1, negb_andb, orb_assoc.
Qed.

Lemma members_leave m st w :
  Forall (λ kv, value_leaves kv.2) m →
  leaves (ofail (stream_ w) || negb (forallb (λ '(_, v), finite v) m)) (SerializeMembers st m w).
Proof.
  intros Hm. revert st w. induction Hm as [|[k v] m Hv _ IH]; intros st w; cbn [SerializeMembers forallb].
  - rewrite orb_false_r. by eexists.
  - cbn [snd] in Hv. destruct (Hv Key kEmpty (SerializeKey st k w)) as (w1 & -> & E1). cbn [mbind outcome_bind].
    rewrite ofail_SerializeKey in E1. destruct (IH kNonEmpty w1) as (w2 & -> & E2).
    exists w2. split; [done|]. by rewrite E2, E1, negb_andb, orb_assoc.
Qed.

Lemma Serialize_leaves ret st fn failed w :
  (∀ w, leaves (ofail (stream_ w) || failed) (fn w)) → leaves (ofail (stream_ w) || failed) (Serialize ret st fn w).
Proof. intros H. destruct ret; try apply H. unfold Serialize. rewrite <- (ofail_BeginElement (is_nonempty st) w). apply H. Qed.

Lemma SerializeValue_leaves a : value_leaves a.
Proof using Hfits.
  induction a as [b|n|s| |m IH|l IH] using Any_nested_ind; intros ret st w.
  - apply Serialize_leaves. intros w'. rewrite orb_false_r. eexists. split; [done|]. apply ofail_write.
  - apply Serialize_leaves. intros w'. apply SerializeNumber_leaves.
  - apply Serialize_leaves. intros w'. rewrite orb_false_r. eexists. split; [done|]. apply ofail_literal.
  - apply Serialize_leaves. intros w'. rewrite orb_false_r. eexists. split; [done|]. apply ofail_write.
  - rewrite SerializeValue_Object. apply Serialize_leaves. intros w'.
    destruct (members_leave m kEmpty (BeginContainer "{" w') IH) as (w1 & -> & E1). cbn [mbind outcome_bind].
    eexists. split; [done|]. rewrite ofail_EndContainer, E1. cbn [BeginContainer on_stream stream_]. unfold put.
    by rewrite ofail_write.
  - rewrite SerializeValue_List. apply Serialize_leaves. intros w'.
    destruct (elements_leave l kEmpty (BeginContainer "[" w') IH) as (w1 & -> & E1). cbn [mbind outcome_bind].
    eexists. split; [done|]. rewrite ofail_EndContainer, E1. cbn [BeginContainer on_stream stream_]. unfold put.
    by rewrite ofail_write.
Qed.

Lemma finite_writable a : finite a = true → writable a.
Proof using Hfits.
  induction a as [b|[t v|t x]|s| |m IH|l IH] using Any_nested_ind; intros Hf; try done; cbn [finite] in Hf.
  - split; [done|]. by apply Hfits.
  - apply writable_Object. rewrite forallb_forall in Hf. rewrite !Forall_forall in *. intros [k v] Hin.
    apply (IH (k, v)); [done|]. by apply list_elem_of_In, Hf in Hin.
  - apply writable_List. rewrite forallb_forall in Hf. rewrite !Forall_forall in *. intros v Hin.
    apply IH; [done|]. by apply Hf, list_elem_of_In.
Qed.

End Render.

(** C30: [ToBuffer] never aborts, if the text of a finite number fits its
    buffer, and returns the text of the tree; if and only if the tree holds an
    infinity or a NaN it returns an error instead. *)
Theorem to_buffer_spec formatting to_chars_floating a :
  (∀ t x, isfinite x = true → length (to_chars_floating t x) ≤ kBufferSize) → wf_any a →
  ToBuffer to_chars_floating formatting a =
    Ret (if finite a then Value (render formatting to_chars_floating 0 a) else Unexpected kUnknownError).
Proof.
  intros Hfits Hwf. destruct (finite a) eqn:Hf.
  { apply ToBuffer_render; [by apply finite_writable|done]. }
  unfold ToBuffer, SerializeToStream.
  destruct (SerializeValue_leaves to_chars_floating Hfits a Unit kEmpty (mkWriter (mk_ostream [] false) formatting 0 false))
    as (w & -> & E). simpl. rewrite E, Hf. done.
Qed.

Lemma to_buffer_spec_witness :
  ToBuffer (λ _ _, s! "1.5") kCompact (List [Num (Floating float64 (of_int float64 1)); Null]) = Ret (Value (s! "[1.5,null]")) ∧
  ToBuffer (λ _ _, s! "1.5") kCompact (List [Num (Floating float64 S754_nan)]) = Ret (Unexpected kUnknownError).
Proof.
  split.
  - rewrite (to_buffer_spec kCompact (λ _ _, s! "1.5") (List [Num (Floating float64 (of_int float64 1)); Null]));
      [reflexivity|intros; vm_compute; lia|vm_compute; tauto].
  - rewrite (to_buffer_spec kCompact (λ _ _, s! "1.5") (List [Num (Floating float64 S754_nan)]));
      [reflexivity|intros; vm_compute; lia|vm_compute; tauto].
Defined.

End JsonRender.
