(* ===== verification/JsonDigits.v ===== *)
(** * The decimal text of an integer

    The writer's digits, read by the conversions of the number parser. *)

From S2P Require Import Prelude CppInt CppString CppFloat JsonModel JsonError JsonNumber JsonReader JsonParser JsonWriter.
Import CppFloat JsonModel JsonWriter JsonError JsonNumber.

Module JsonDigits.

Local Open Scope Z_scope.

Definition digits_value (acc : Z) (ds : list Z) : Z := foldl (λ a d, a * 10 + d) acc ds.

(** The digits of a number, most significant first, without leading zeros. *)
Definition digits_of (n : Z) (ds : list Z) : Prop :=
  Forall (λ d, 0 <= d < 10) ds ∧ ds ≠ [] ∧ digits_value 0 ds = n ∧ (head ds = Some 0 → ds = [0]).

Lemma digits_value_snoc a ds d : digits_value a (ds ++ [d]) = digits_value a ds * 10 + d.
Proof. unfold digits_value. by rewrite foldl_app. Qed.

Lemma digits_of_snoc n ds d : 0 < n → 0 <= d < 10 → digits_of n ds → digits_of (n * 10 + d) (ds ++ [d]).
Proof.
  intros Hn Hd (Hf & Hne & Hv & Hh). split_and!.
  - apply Forall_app. auto.
  - by destruct ds.
  - by rewrite digits_value_snoc, Hv.
  - destruct ds as [|d0 ds]; [done|]. cbn [app head]. intros [= ->]. injection (Hh eq_refl) as ->. unfold digits_value in Hv. simpl in Hv. lia.
Qed.

Lemma decimal_digits_spec fuel n acc :
  0 <= n < 10 ^ Z.of_nat fuel → fuel ≠ 0%nat →
  ∃ ds, decimal_digits fuel n acc = (digit_char <$> ds) ++ acc ∧ digits_of n ds.
Proof.
  revert n acc. induction fuel as [|fuel IH]; intros n acc Hn Hf; [done|]. cbn [decimal_digits].
  destruct (Z.ltb_spec n 10) as [Hlt|Hge].
  - exists [n]. split; [done|]. split_and!; [by repeat constructor; lia|done|done|]. simpl. naive_solver.
  - rewrite Nat2Z.inj_succ, Z.pow_succ_r in Hn by lia.
    assert (0 <= n / 10 < 10 ^ Z.of_nat fuel) as Hq by (split; [apply Z.div_pos; lia|apply Z.div_lt_upper_bound; lia]).
    destruct fuel as [|fuel]; [simpl in Hn; lia|].
    destruct (IH (n / 10) (digit_char (n mod 10) :: acc) Hq) as (ds & -> & Hds); [done|].
    exists (ds ++ [n mod 10]). split; [by rewrite fmap_app, <- (assoc_L (++))|].
    rewrite (Z_div_mod_eq_full n 10) at 1. rewrite (Z.mul_comm 10). apply digits_of_snoc; [|apply Z.mod_pos_bound; lia|done].
    apply Z.div_str_pos. lia.
Qed.

(** Everything about a single digit follows by cases. *)
Lemma digit_cases d : 0 <= d < 10 → d ∈ [0; 1; 2; 3; 4; 5; 6; 7; 8; 9].
Proof. intros H. assert (d = 0 ∨ d = 1 ∨ d = 2 ∨ d = 3 ∨ d = 4 ∨ d = 5 ∨ d = 6 ∨ d = 7 ∨ d = 8 ∨ d = 9) by lia. set_solver. Qed.

(** [digit_ok c]: what the readers need to know about a digit. *)
Definition digit_ok (d : Z) : bool :=
  bool_decide (digit_value (digit_char d) = Some d) && negb (isspace (digit_char d)) &&
  negb (bool_decide (digit_char d = "-"%char)) && negb (bool_decide (digit_char d = "+"%char)) &&
  IsDigit (digit_char d) && negb (bool_decide (digit_char d = "."%char)) &&
  bool_decide (digit_char d ∈ s! "0123456789") && Bool.eqb (bool_decide (digit_char d = "0"%char)) (d =? 0).

Lemma digit_ok_all d : 0 <= d < 10 → digit_ok d = true.
Proof.
  intros H%digit_cases. cut (forallb digit_ok [0; 1; 2; 3; 4; 5; 6; 7; 8; 9] = true); [|vm_compute; reflexivity].
  intros Hall. rewrite forallb_forall in Hall. apply Hall. by apply list_elem_of_In.
Qed.

Record digit_facts (c : ascii) (d : Z) : Prop := {
  digit_fact_value : digit_value c = Some d;
  digit_fact_space : isspace c = false;
  digit_fact_minus : c ≠ "-"%char;
  digit_fact_plus : c ≠ "+"%char;
  digit_fact_digit : IsDigit c = true;
  digit_fact_dot : c ≠ "."%char;
  digit_fact_token : c ∈ s! "0123456789";
  digit_fact_zero : c = "0"%char ↔ d = 0;
}.

Lemma digit_char_facts d : 0 <= d < 10 → digit_facts (digit_char d) d.
Proof.
  intros H%digit_ok_all. unfold digit_ok in H. rewrite !andb_true_iff, !negb_true_iff in H.
  destruct H as (((((((H1 & H2) & H3) & H4) & H5) & H6) & H7) & H8).
  apply bool_decide_eq_true in H1, H7. apply bool_decide_eq_false in H3, H4, H6. apply eqb_prop in H8.
  split; try done. rewrite <- Z.eqb_eq, <- H8. by rewrite bool_decide_eq_true.
Qed.

Lemma read_digits_spec base acc n ds :
  10 <= base → Forall (λ d, 0 <= d < 10) ds →
  read_digits base acc n (digit_char <$> ds) = (foldl (λ a d, a * base + d) acc ds, (n + length ds)%nat, []).
Proof.
  intros Hb Hds. revert acc n. induction Hds as [|d ds Hd _ IH]; intros acc n; csimpl; [by rewrite Nat.add_0_r|].
  rewrite (digit_fact_value _ _ (digit_char_facts d Hd)), (proj2 (Z.ltb_lt d base)) by lia. rewrite IH.
  by rewrite Nat.add_succ_r.
Qed.

Lemma read_magnitude_digits n ds : digits_of n ds → read_magnitude (digit_char <$> ds) = Some (n, []).
Proof.
  intros (Hf & Hne & Hv & Hh). destruct ds as [|d ds]; [done|]. pose proof Hf as Hf'.
  apply Forall_cons in Hf' as [Hd _]. pose proof (digit_char_facts d Hd) as Fd.
  destruct (decide (d = 0)) as [->|Hd0].
  - rewrite Hh in * by done. unfold digits_value in Hv. simpl in Hv. subst n. vm_compute. reflexivity.
  - assert (digit_char d ≠ "0"%char) as Hc by (rewrite (digit_fact_zero _ _ Fd); done).
    unfold read_magnitude. assert (hex_prefix (digit_char <$> d :: ds) = None) as ->.
    { csimpl. unfold hex_prefix. destruct (digit_char <$> ds); [done|]. by rewrite bool_decide_false. }
    change (digit_char <$> d :: ds) with (digit_char d :: (digit_char <$> ds)) at 1. cbv beta iota.
    rewrite decide_False by done. rewrite read_digits_spec by done. unfold digits_value in Hv. by rewrite Hv.
Qed.

(** ** The text of an integer *)

(** The values of the 64-bit types. *)
Definition is_64 (v : Z) : Prop := - 2 ^ 63 <= v < 2 ^ 64.

Lemma in_range_64 t v : in_range t v → is_64 v.
Proof. unfold in_range, is_64. destruct t; unfold lowest, max, digits; simpl; lia. Qed.

Lemma to_chars_int_spec v :
  is_64 v →
  ∃ ds, digits_of (Z.abs v) ds ∧
        to_chars_int v = (if v <? 0 then "-"%char :: (digit_char <$> ds) else digit_char <$> ds).
Proof.
  unfold is_64. intros Hv. unfold to_chars_int. destruct (Z.ltb_spec v 0).
  - destruct (decimal_digits_spec 20 (- v) []) as (ds & -> & Hds); [change (10 ^ Z.of_nat 20) with 100000000000000000000; lia|done|].
    exists ds. rewrite app_nil_r, Z.abs_neq by lia. done.
  - destruct (decimal_digits_spec 20 v []) as (ds & -> & Hds); [change (10 ^ Z.of_nat 20) with 100000000000000000000; lia|done|].
    exists ds. rewrite app_nil_r, Z.abs_eq by lia. done.
Qed.

Lemma digits_head n ds : digits_of n ds → ∃ d ds', ds = d :: ds' ∧ 0 <= d < 10.
Proof. intros (Hf & Hne & _). destruct ds as [|d ds]; [done|]. apply Forall_cons in Hf as [? _]. eauto. Qed.

Lemma digits_last n ds : digits_of n ds → ∃ d ds', ds = ds' ++ [d] ∧ 0 <= d < 10.
Proof.
  intros (Hf & Hne & _). destruct (exists_last Hne) as (ds' & d & ->). apply Forall_app in Hf as [_ Hf].
  apply Forall_cons in Hf as [? _]. eauto.
Qed.

(** Sign and magnitude of the text. *)
Lemma sign_magnitude v :
  is_64 v →
  ∃ s, read_sign (skip_space (to_chars_int v)) = (v <? 0, s) ∧ read_magnitude s = Some (Z.abs v, []).
Proof.
  intros Hv. destruct (to_chars_int_spec v Hv) as (ds & Hds & ->). exists (digit_char <$> ds).
  split; [|by apply read_magnitude_digits]. destruct (v <? 0); [done|].
  destruct (digits_head _ _ Hds) as (d & ds' & -> & Hd). pose proof (digit_char_facts d Hd) as Fd. csimpl.
  rewrite (digit_fact_space _ _ Fd). cbn [read_sign].
  rewrite decide_False by apply (digit_fact_minus _ _ Fd). by rewrite decide_False by apply (digit_fact_plus _ _ Fd).
Qed.

Lemma strtoll_text v :
  is_64 v →
  strtoll (to_chars_int v) =
    if v <=? max int64_t then mkConversion v false [] else mkConversion (max int64_t) true [].
Proof.
  intros Hv. destruct (sign_magnitude v Hv) as (s & Hs & Hm). unfold strtoll. rewrite Hs, Hm. cbv zeta.
  assert ((if v <? 0 then - Z.abs v else Z.abs v) = v) as -> by (destruct (Z.ltb_spec v 0); lia).
  unfold is_64 in Hv. rewrite (proj2 (Z.ltb_ge v (lowest int64_t))) by (unfold lowest, digits; simpl; lia).
  destruct (Z.ltb_spec (max int64_t) v), (Z.leb_spec v (max int64_t)); try lia; done.
Qed.

Lemma front_text v : is_64 v → ∃ c r, to_chars_int v = c :: r ∧ (c = "-"%char ↔ v < 0).
Proof.
  intros Hv. destruct (to_chars_int_spec v Hv) as (ds & Hds & ->). destruct (Z.ltb_spec v 0).
  - eexists _, _. split; [done|]. done.
  - destruct (digits_head _ _ Hds) as (d & ds' & -> & Hd). eexists _, _. split; [done|].
    split; [|lia]. intros E. by destruct (digit_fact_minus _ _ (digit_char_facts d Hd)).
Qed.

Lemma UnsignedLongLong_text v :
  is_64 v →
  UnsignedLongLong (to_chars_int v) =
    Ret (if v <? 0 then mkConversion 0 false (to_chars_int v) else mkConversion v false []).
Proof.
  intros Hv. unfold UnsignedLongLong. destruct (front_text v Hv) as (c & r & E & Hc). rewrite E at 1. simpl.
  destruct (Z.ltb_spec v 0).
  - rewrite decide_True by tauto. by rewrite E.
  - rewrite decide_False by (rewrite Hc; lia). f_equal. destruct (sign_magnitude v Hv) as (s & Hs & Hm).
    unfold strtoull. rewrite Hs, Hm, Z.abs_eq by done. unfold is_64 in Hv.
    rewrite (proj2 (Z.ltb_ge (max uint64_t) v)) by (unfold max, digits; simpl; lia).
    by rewrite (proj2 (Z.ltb_ge v 0)).
Qed.

Lemma ParseFormatSuccessful_text v :
  is_64 v → ParseFormatSuccessful (mkJsonNumber (to_chars_int v)) [] = Ret true.
Proof.
  intros Hv. unfold ParseFormatSuccessful. rewrite bool_decide_true by done. cbn [view_].
  destruct (to_chars_int_spec v Hv) as (ds & Hds & ->). destruct (digits_last _ _ Hds) as (d & ds' & -> & Hd).
  assert (back (if v <? 0 then "-"%char :: (digit_char <$> ds' ++ [d]) else digit_char <$> ds' ++ [d]) =
          Ret (digit_char d)) as ->.
  { rewrite fmap_app. destruct (v <? 0); [|apply back_snoc]. rewrite app_comm_cons. apply back_snoc. }
  simpl. rewrite bool_decide_false; [done|]. apply (digit_fact_dot _ _ (digit_char_facts d Hd)).
Qed.

Lemma number_Cast_spec T S v :
  is_signed T = is_signed S → bits S = 64 → in_range S v →
  JsonNumber.Cast T S v = if decide (in_range T v) then Some v else None.
Proof.
  intros Hs Hb Hv. unfold JsonNumber.Cast. assert (usual_arith T S = S) as -> by (destruct T, S; done).
  assert (in_range S (max T) ∧ in_range S (lowest T)) as [H1 H2].
  { destruct T, S; try done; split; split; vm_compute; done. }
  rewrite !static_cast_id by done. case_decide as Hr.
  - destruct Hr as [Hr1 Hr2]. rewrite (proj2 (Z.leb_le _ _) Hr2), (proj2 (Z.leb_le _ _) Hr1). simpl.
    by rewrite static_cast_id.
  - unfold in_range in Hr. destruct (Z.leb_spec v (max T)), (Z.leb_spec (lowest T) v); simpl; try done. lia.
Qed.

Lemma As_int_text T v :
  is_64 v → As_int T (mkJsonNumber (to_chars_int v)) = Ret (if decide (in_range T v) then Some v else None).
Proof.
  intros Hv. pose proof (ParseFormatSuccessful_text v Hv) as Hp. unfold As_int.
  destruct (is_signed T) eqn:ET; cbn [view_].
  - unfold LongLong, ExtractIfIntegerSuccessful. rewrite strtoll_text by done.
    destruct (Z.leb_spec v (max int64_t)) as [Hle|Hgt]; cbn [erange negb unparsed value].
    + rewrite Hp. simpl. rewrite (number_Cast_spec T int64_t); [done..|]. destruct Hv. split; [unfold lowest, digits; simpl; lia|done].
    + rewrite decide_False; [done|]. unfold in_range. destruct T; try done; unfold max, digits in *; simpl in *; lia.
  - rewrite UnsignedLongLong_text by done. cbn [mbind outcome_bind]. unfold ExtractIfIntegerSuccessful.
    destruct (Z.ltb_spec v 0); cbn [erange negb unparsed value].
    + unfold ParseFormatSuccessful. rewrite bool_decide_false by (destruct (front_text v Hv) as (? & ? & -> & _); done).
      simpl. rewrite decide_False; [done|]. unfold in_range. rewrite lowest_unsigned by done. lia.
    + rewrite Hp. simpl. rewrite (number_Cast_spec T uint64_t); [done..|]. destruct Hv. split; [done|unfold max, digits; simpl; lia].
Qed.

(** The type the reader stores an integer in: the first that can hold it. *)
Fixpoint first_type (types : list int_type) (v : Z) : int_type :=
  match types with
  | [] => int64_t
  | t :: types => if decide (in_range t v) then t else first_type types v
  end.

Definition smallest (v : Z) : int_type := first_type AnyTreeBuilder.integer_types v.

Lemma try_convert_text v :
  is_64 v →
  AnyTreeBuilder.try_convert AnyTreeBuilder.integer_types (mkJsonNumber (to_chars_int v)) =
    Ret (Some (Integer (smallest v) v)).
Proof.
  intros Hv. unfold smallest, AnyTreeBuilder.integer_types. cbn [AnyTreeBuilder.try_convert first_type].
  rewrite !As_int_text by done. cbn [mbind outcome_bind].
  repeat (case_decide; [done|]). unfold is_64, in_range, lowest, max, digits in *; simpl in *; lia.
Qed.

Lemma smallest_in_range v : is_64 v → in_range (smallest v) v.
Proof.
  intros Hv. unfold smallest, AnyTreeBuilder.integer_types. cbn [first_type].
  repeat (case_decide; [done|]). unfold is_64, in_range, lowest, max, digits in *; simpl in *; lia.
Qed.

(** The text passes [Validate]. *)
Lemma Validate_text v : is_64 v → Validate (mkJsonNumber (to_chars_int v)) = Ret true.
Proof.
  intros Hv. destruct (to_chars_int_spec v Hv) as (ds & Hds & E).
  assert (∃ d ds', ds = d :: ds' ∧ 0 <= d < 10 ∧ (ds' = [] ∨ digit_char d ≠ "0"%char)) as (d & ds' & -> & Hd & H0).
  { destruct (digits_head _ _ Hds) as (d & ds' & -> & Hd). exists d, ds'. split_and!; [done|lia|lia|].
    destruct Hds as (_ & _ & _ & Hh). destruct (decide (d = 0)) as [->|]; [left; by simplify_eq/=; injection (Hh eq_refl)|].
    right. by rewrite (digit_fact_zero _ _ (digit_char_facts d Hd)). }
  pose proof (digit_char_facts d Hd) as Fd. unfold Validate. cbn [view_]. rewrite E. destruct (v <? 0).
  - cbn [view_at lookup list_lookup mbind outcome_bind]. rewrite decide_True by done. csimpl.
    destruct ds' as [|d' ds']; csimpl.
    + by rewrite (digit_fact_digit _ _ Fd).
    + destruct H0 as [|H0]; [done|]. by rewrite bool_decide_false.
  - csimpl. rewrite decide_False by apply (digit_fact_minus _ _ Fd). destruct ds' as [|d' ds']; csimpl.
    + by rewrite (digit_fact_digit _ _ Fd).
    + destruct H0 as [|H0]; [done|]. by rewrite bool_decide_false.
Qed.

Lemma New_text v : is_64 v → New (to_chars_int v) = Ret (Value (mkJsonNumber (to_chars_int v))).
Proof.
  intros Hv. unfold New. destruct (front_text v Hv) as (c & r & E & _). cbn [Filter view_].
  rewrite bool_decide_false by (by rewrite E). cbn [negb]. by rewrite Validate_text.
Qed.

(** Its characters are digits, after a sign. *)
Lemma text_chars v : is_64 v → Forall (λ c, c ∈ s! "-0123456789") (to_chars_int v).
Proof.
  intros Hv. destruct (to_chars_int_spec v Hv) as (ds & (Hf & _) & ->).
  assert (Forall (λ c, c ∈ s! "-0123456789") (digit_char <$> ds)) as H.
  { apply Forall_fmap. eapply Forall_impl; [exact Hf|]. intros d Hd. simpl.
    pose proof (digit_fact_token _ _ (digit_char_facts d Hd)). set_solver. }
  destruct (v <? 0); [|done]. constructor; [set_solver|done].
Qed.

End JsonDigits.
