(* ===== verification/JsonLex.v ===== *)
(** * Reading tokens from a text

    What the operations on the stream and the string buffer do on a text of a
    known shape: white space, literals, string literals and numbers. *)

From S2P Require Import Prelude CppInt CppString CppFloat CppStream JsonModel JsonError DepthCounter JsonNumber JsonReader JsonParser JsonWriter JsonRender JsonDigits.
Import CppFloat Stream JsonModel JsonWriter JsonRender JsonError JsonNumber JsonReader JsonOps JsonData StructureParser JsonDigits.

Module JsonLex.

(** ** White space *)

Fixpoint strip_ws (r : str) : str :=
  match r with c :: r' => if is_whitespace c then strip_ws r' else r | [] => [] end.

(** The stream will deliver [r], up to leading white space; once the end has
    been seen it delivers nothing more. *)
Definition at_text (s : istream) (r : str) : Prop :=
  (∃ r', reading s r' ∧ strip_ws r' = strip_ws r) ∨ (good s = false ∧ strip_ws r = []).

Lemma reading_at s r : reading s r → at_text s r.
Proof. left. eauto. Qed.

Lemma strip_ws_app w r : forallb is_whitespace w = true → strip_ws (w ++ r) = strip_ws r.
Proof. induction w as [|c w IH]; simpl; [done|]. intros [-> ?]%andb_true_iff. auto. Qed.

Lemma strip_ws_cons c r : is_whitespace c = false → strip_ws (c :: r) = c :: r.
Proof. intros H. simpl. by rewrite H. Qed.

Lemma at_text_ws s w r : forallb is_whitespace w = true → at_text s (w ++ r) → at_text s r.
Proof. intros Hw. unfold at_text. by rewrite strip_ws_app. Qed.

Lemma SkipWhitespace_loop_reading fuel s r :
  reading s r → length r < fuel →
  ∃ s', SkipWhitespace_loop fuel s = Ret (negb (bool_decide (strip_ws r = [])), s') ∧
        if decide (strip_ws r = []) then good s' = false else reading s' (strip_ws r).
Proof.
  revert s r. induction fuel as [|fuel IH]; intros s r Hs Hf; [lia|]. cbn [SkipWhitespace_loop]. unfold bind_m, lift.
  destruct r as [|c r].
  - rewrite (peek_nil _ Hs). eexists. split; [done|]. rewrite decide_True by done. done.
  - rewrite (peek_cons _ _ _ Hs). cbn [strip_ws]. destruct (is_whitespace c) eqn:Ec; cbn [negb].
    + rewrite (get_cons _ _ _ Hs). apply IH; [by apply reading_next in Hs|simpl in Hf; lia].
    + eexists. split; [done|]. by rewrite decide_False.
Qed.

Lemma SkipWhitespace_at s r :
  at_text s r →
  ∃ s', SkipWhitespace s = Ret (negb (bool_decide (strip_ws r = [])), s') ∧
        if decide (strip_ws r = []) then good s' = false else reading s' (strip_ws r).
Proof.
  intros [(r' & Hs & E)|[Hg E]]; unfold SkipWhitespace.
  - rewrite <- E. apply SkipWhitespace_loop_reading; [done|]. destruct Hs as (_ & _ & -> & _). lia.
  - rewrite E. cbn [SkipWhitespace_loop]. unfold bind_m, lift, peek. rewrite Hg. eexists. split; [done|].
    rewrite decide_True by done. unfold good in *. simpl. by rewrite andb_false_r.
Qed.

(** ** Reading up to a delimiter *)

Definition is_delim (ds : str) (c : ascii) : bool := existsb (λ d, bool_decide (c = d)) ds.

(** The rest is empty or starts with a delimiter. *)
Definition stops (ds : str) (r : str) : Prop := match r with [] => True | c :: _ => is_delim ds c = true end.

Definition after (r : str) (s : istream) : Prop :=
  match r with [] => good s = false | _ => reading s r end.

Lemma after_at r s : after r s → at_text s r.
Proof. destruct r; [by right|by apply reading_at]. Qed.

Lemma ReadUntil_loop_reading fuel ds b s w r :
  reading s (w ++ r) → forallb (λ c, negb (is_delim ds c)) w = true → stops ds r → length w < fuel →
  ∃ s', ReadUntil_loop fuel ds b s = Ret ((head r, b ++ w), s') ∧ after r s'.
Proof.
  revert b s w. induction fuel as [|fuel IH]; intros b s w Hs Hw Hr Hf; [lia|].
  cbn [ReadUntil_loop]. unfold bind_m, lift. destruct w as [|c w]; simpl in Hs.
  - rewrite app_nil_r. destruct r as [|c r].
    + rewrite (peek_nil _ Hs). eexists. by split.
    + rewrite (peek_cons _ _ _ Hs). simpl in Hr. unfold is_delim in Hr. rewrite Hr. eexists. by split.
  - rewrite (peek_cons _ _ _ Hs). simpl in Hw. apply andb_true_iff in Hw as [Hc Hw].
    apply negb_true_iff in Hc. unfold is_delim in Hc. rewrite Hc, (get_cons _ _ _ Hs).
    destruct (IH (b ++ [c]) (set_pos (S (pos s)) s) w) as (s' & -> & Ha).
    + by apply reading_next in Hs.
    + done.
    + done.
    + simpl in Hf. lia.
    + exists s'. by rewrite <- (assoc_L (++)).
Qed.

(** ** Literals *)

Lemma reading_skip s w r : reading s (w ++ r) → reading (set_pos (pos s + length w) s) r.
Proof.
  intros (? & ? & Hr & Hl). unfold reading, rest in *. simpl. split_and!; try done.
  - rewrite <- drop_drop, Hr. by rewrite drop_app_length.
  - apply (f_equal length) in Hr. rewrite length_drop, length_app in Hr. lia.
Qed.

Lemma CheckString_reading s w r msg :
  w ≠ [] → reading s (w ++ r) → ∃ s', CheckString w msg s = Ret (Value (), s') ∧ reading s' r.
Proof.
  intros Hw Hs. exists (set_pos (pos s + length w) s). split; [|by apply reading_skip].
  unfold CheckString, and_then, ReadString. rewrite bool_decide_false by done. unfold Read, bind_m, lift, read.
  rewrite (reading_good _ _ Hs). assert (take (length w) (drop (pos s) (data s)) = w) as ->.
  { destruct Hs as (_ & _ & Hr & _). unfold rest in Hr. rewrite Hr. apply take_app_length. }
  rewrite Nat.eqb_refl. cbn [ret_m]. rewrite (proj2 (Nat.ltb_lt 0 (length w))) by (destruct w; [done|simpl; lia]).
  unfold compare_view. rewrite firstn_all, bool_decide_true by done. cbn [negb orb RewindIf].
  rewrite Nat.eqb_refl. done.
Qed.

(** ** Escapes *)

(** Characters the writer does not write as a unicode escape. *)
Definition escapable (c : ascii) : bool :=
  (32 <=? char_code c)%Z || existsb (λ c', bool_decide (c = c')) ["008"; "009"; "010"; "012"; "013"]%char.

Definition plain (c : ascii) : Prop := escape_char c = [c] ∧ is_delim string_delimiters c = false.
Definition escaped (c : ascii) : Prop := ∃ e, escape_char c = ["\"%char; e] ∧ UnescapeChar e = Value c.

Lemma escape_cases c : escapable c = true → plain c ∨ escaped c.
Proof.
  intros H. destruct c as [[] [] [] [] [] [] [] []]; first
    [ vm_compute in H; discriminate H
    | left; split; vm_compute; reflexivity
    | right; eexists; split; [vm_compute; reflexivity|vm_compute; reflexivity] ].
Qed.

(** The leading plain characters of a string. *)
Lemma escape_split s :
  forallb escapable s = true →
  ∃ w s', s = w ++ s' ∧ Forall plain w ∧ match s' with [] => True | c :: _ => escaped c end.
Proof.
  induction s as [|c s IH]; simpl; [by exists [], []|]. intros [Hc Hs]%andb_true_iff.
  destruct (IH Hs) as (w & s' & -> & Hw & Hs'). destruct (escape_cases c Hc) as [Hp|He].
  - exists (c :: w), s'. split_and!; [done|by constructor|done].
  - exists [], (c :: w ++ s'). by split_and!.
Qed.

Lemma escape_app a b : escape (a ++ b) = escape a ++ escape b.
Proof. unfold escape. by rewrite fmap_app, concat_app. Qed.

Lemma escape_plain w : Forall plain w → escape w = w ∧ forallb (λ c, negb (is_delim string_delimiters c)) w = true.
Proof.
  induction 1 as [|c w [Hc Hd] _ [IH1 IH2]]; [done|]. split.
  - unfold escape in *. csimpl. by rewrite Hc, IH1.
  - cbn [forallb]. by rewrite Hd, IH2.
Qed.

Section Parser.
  Context {I : Type} `{!Implementer I}.
  Implicit Types p : parser I.

(** The parser with another stream and string buffer. *)
Definition with_text (s : istream) (b : str) (p : parser I) : parser I :=
  mkParser (set_buffer b (set_stream s (doc p))) (implementer_ p).

Lemma with_text_twice s b s' b' p : with_text s b (with_text s' b' p) = with_text s b p.
Proof. done. Qed.

Lemma buffer_with_text s b p : current_buffer_ (doc (with_text s b p)) = b.
Proof. done. Qed.

Lemma with_text_same p : with_text (stream_ (doc p)) (current_buffer_ (doc p)) p = p.
Proof. by destruct p as [[] ?]. Qed.

Lemma ReadUntilAppend_reading ds p w r :
  reading (stream_ (doc p)) (w ++ r) → forallb (λ c, negb (is_delim ds c)) w = true → stops ds r →
  ∃ s, ReadUntilAppend ds p = Ret (Value (head r), with_text s (current_buffer_ (doc p) ++ w) p) ∧ after r s.
Proof.
  intros Hs Hw Hr. unfold ReadUntilAppend, ReadUntil, bind_m.
  destruct (ReadUntil_loop_reading (S (length (rest (stream_ (doc p))))) ds [] (stream_ (doc p)) w r)
    as (s & -> & Ha); [done..| |].
  { destruct Hs as (_ & _ & -> & _). rewrite length_app. lia. }
  exists s. split; [|done]. simpl. case_bool_decide as E; [|done]. subst. by rewrite app_nil_r.
Qed.

Lemma Move_reading s c r : reading s (c :: r) → ∃ s', Move s = Ret (true, s') ∧ reading s' r.
Proof.
  intros Hs. unfold Move. rewrite (seekg_next _ _ _ Hs). pose proof (reading_next _ _ _ Hs) as Hn.
  eexists. split; [|exact Hn]. destruct Hn as (_ & Hf & _). unfold fail. by rewrite Hf.
Qed.

Lemma TryTake_reading s c r : reading s (c :: r) → ∃ s', TryTake s = Ret (Value c, s') ∧ reading s' r.
Proof.
  intros Hs. unfold TryTake, bind_m, lift. rewrite (get_cons _ _ _ Hs).
  eexists. split; [done|]. by apply reading_next in Hs.
Qed.

(** Reading a string literal up to [r]: the loop of [ReadJsonString] with the
    [ReadUntil] in front of it. *)
Lemma ReadJsonString_loop_reading n k fuel p s c0 r :
  length s ≤ n → n + k < fuel → forallb escapable s = true → is_delim string_delimiters c0 = true →
  reading (stream_ (doc p)) (escape s ++ c0 :: r) →
  ∃ st fuel', k < fuel' ∧
    (v <-- ReadUntilAppend string_delimiters;; ReadJsonString_loop fuel v) p =
      ReadJsonString_loop fuel' (Value (Some c0)) (with_text st (current_buffer_ (doc p) ++ s) p) ∧
    reading st (c0 :: r).
Proof.
  revert fuel p s. induction n as [n IH] using lt_wf_ind. intros fuel p s Hn Hf He Hc0 Hs.
  destruct (escape_split s He) as (w & s' & -> & Hw & Hs').
  rewrite escape_app, <- (assoc_L (++)) in Hs. destruct (escape_plain w Hw) as [Ew Hd]. rewrite Ew in Hs.
  unfold bind_m at 1. destruct s' as [|c s'].
  - destruct (ReadUntilAppend_reading string_delimiters p w (c0 :: r) Hs Hd Hc0) as (st & -> & Ha).
    exists st, fuel. rewrite app_nil_r. split_and!; [lia|done|done].
  - destruct fuel as [|fuel]; [lia|]. destruct Hs' as (e & Hesc & Hun).
    assert (escape (c :: s') ++ c0 :: r = "\"%char :: e :: escape s' ++ c0 :: r) as E.
    { unfold escape. csimpl. by rewrite Hesc. }
    rewrite E in Hs.
    destruct (ReadUntilAppend_reading string_delimiters p w _ Hs Hd eq_refl) as (st & -> & Ha).
    cbn [ReadJsonString_loop head is_char]. rewrite bool_decide_true by done. cbn [negb].
    unfold bind_m at 1. unfold ops at 1. cbn [with_text doc set_buffer set_stream stream_].
    destruct (Move_reading _ _ _ Ha) as (st1 & -> & H1). unfold bind_m at 1.
    unfold and_then at 1 2. unfold bind_m at 1 2. unfold ops at 1. cbn [doc set_buffer set_stream stream_].
    destruct (TryTake_reading _ _ _ H1) as (st2 & -> & H2). unfold ret_m at 1. rewrite Hun.
    rewrite forallb_app in He. apply andb_true_iff in He as [_ He]. cbn [forallb] in He.
    apply andb_true_iff in He as [_ He]. rewrite length_app in Hn. simpl in Hn.
    destruct (IH (length s')) with (fuel := fuel) (s := s')
      (p := with_text st2 ((current_buffer_ (doc p) ++ w) ++ [c]) p) as (st3 & fuel' & Hf' & E3 & H3);
      [lia|lia|lia|done|done|done|].
    exists st3, fuel'. split_and!; [done| |done]. etrans; [exact E3|]. rewrite with_text_twice, buffer_with_text.
    by rewrite <- !(assoc_L (++)).
Qed.

(** The two parts of [ReadJsonString] after the buffer is cleared. *)
Lemma ReadJsonString_unfold p :
  ReadJsonString p =
    (r <-- (v <-- ReadUntilAppend string_delimiters;; ReadJsonString_loop (S (length (rest (stream_ (doc p))))) v);;
     match Filter r HasValue (MakeError kInvalidJson "ReadJsonString: Runaway string.") with
     | Value _ => _ <-- ops Move;; s <-- GetCurrentString;; ret_m (Value s)
     | Unexpected e => ret_m (Unexpected e)
     end) (with_text (stream_ (doc p)) [] p).
Proof.
  match goal with |- ?g = _ => change g with
    ((v <-- ReadUntilAppend string_delimiters;;
      ret_val <-- ReadJsonString_loop (S (length (rest (stream_ (doc p))))) v;;
      match Filter ret_val HasValue (MakeError kInvalidJson "ReadJsonString: Runaway string.") with
      | Value _ => _ <-- ops Move;; s <-- GetCurrentString;; ret_m (Value s)
      | Unexpected e => ret_m (Unexpected e)
      end) (with_text (stream_ (doc p)) [] p)) end.
  unfold bind_m. by destruct (ReadUntilAppend string_delimiters _) as [[v p1]| |].
Qed.

Lemma length_escape s : length s ≤ length (escape s).
Proof.
  unfold escape. induction s as [|c s IH]; csimpl; [lia|]. rewrite length_app.
  assert (1 ≤ length (escape_char c)); [|lia]. unfold escape_char, WriteUnicodeEscape. repeat case_match; simpl; lia.
Qed.

Lemma ReadJsonString_start p s c0 r :
  forallb escapable s = true → is_delim string_delimiters c0 = true →
  reading (stream_ (doc p)) (escape s ++ c0 :: r) →
  ∃ st fuel, length r < fuel ∧ reading st (c0 :: r) ∧
    ReadJsonString p =
      (r <-- ReadJsonString_loop fuel (Value (Some c0));;
       match Filter r HasValue (MakeError kInvalidJson "ReadJsonString: Runaway string.") with
       | Value _ => _ <-- ops Move;; s <-- GetCurrentString;; ret_m (Value s)
       | Unexpected e => ret_m (Unexpected e)
       end) (with_text st s p).
Proof.
  intros He Hc0 Hs. rewrite ReadJsonString_unfold.
  destruct (ReadJsonString_loop_reading (length s) (length r) (S (length (rest (stream_ (doc p)))))
    (with_text (stream_ (doc p)) [] p) s c0 r) as (st & fuel & Hf & E & Ha); [lia| |done..|].
  { destruct Hs as (_ & _ & -> & _). rewrite length_app. cbn [length]. pose proof (length_escape s). lia. }
  exists st, fuel. split_and!; [done|done|]. unfold bind_m at 1. by rewrite E.
Qed.

(** A string literal is read back as the string. *)
Lemma ReadJsonString_reading p s r :
  forallb escapable s = true → reading (stream_ (doc p)) (escape s ++ quote :: r) →
  ∃ st, ReadJsonString p = Ret (Value s, with_text st s p) ∧ reading st r.
Proof.
  intros He Hs. destruct (ReadJsonString_start p s quote r He eq_refl Hs) as (st & fuel & Hf & Ha & ->).
  destruct (Move_reading _ _ _ Ha) as (st' & Em & H'). exists st'. split; [|done].
  destruct fuel as [|fuel]; [lia|]. unfold bind_m at 1. cbn [ReadJsonString_loop is_char].
  rewrite bool_decide_false by done. cbn [negb Filter HasValue EofFound ret_m]. unfold bind_m at 1, ops.
  cbn [with_text doc set_buffer set_stream stream_]. by rewrite Em.
Qed.

(** A unicode escape in it is an error. *)
Lemma ReadJsonString_unicode p s r :
  forallb escapable s = true → reading (stream_ (doc p)) (escape s ++ s! "\u" ++ r) →
  ∃ e p', ReadJsonString p = Ret (Unexpected e, p').
Proof.
  intros He Hs. destruct (ReadJsonString_start p s "\" ("u"%char :: r) He eq_refl Hs) as (st & fuel & Hf & Ha & ->).
  destruct (Move_reading _ _ _ Ha) as (st' & Em & H'). destruct (TryTake_reading _ _ _ H') as (st2 & Et & _).
  simpl in Hf. destruct fuel as [|[|fuel]]; [lia..|]. unfold bind_m at 1. cbn [ReadJsonString_loop is_char].
  rewrite bool_decide_true by done. cbn [negb]. unfold bind_m at 1, ops at 1.
  cbn [with_text doc set_buffer set_stream stream_]. rewrite Em. unfold bind_m at 1, and_then, bind_m at 1 2, ops at 1.
  cbn [doc set_stream stream_]. rewrite Et. cbn. eauto.
Qed.

(** ** Tokens

    The call keeps the parser running; [r] is still to be read, the depth
    counter is [d] and the implementer [i]. *)
Definition yields (m : method (parser I) ParserResult) (p : parser I) (r : str)
    (d : DepthCounter.DepthCounter) (i : I) : Prop :=
  ∃ p', m p = Ret (Value kRunning, p') ∧ at_text (stream_ (doc p')) r ∧
        depth_counter_ (doc p') = d ∧ implementer_ p' = i.

Lemma ParseValue_reads p c r :
  at_text (stream_ (doc p)) (c :: r) → is_whitespace c = false →
  ∃ s, reading s r ∧ ParseValue p = ParseToken c (with_text s [] p).
Proof.
  intros Hs Hc. unfold ParseValue, bind_m at 1, ops at 1.
  destruct (SkipWhitespace_at _ _ Hs) as (s & -> & Hs'). rewrite strip_ws_cons in * by done.
  rewrite bool_decide_false by done. rewrite decide_False in Hs' by done. cbn [negb].
  unfold bind_m at 1, ret_m at 1. cbn [is_running]. unfold bind_m at 1, GetClearedStringBuffer, SetBuffer.
  unfold bind_m at 1, ops at 1. cbn [doc set_buffer set_stream stream_].
  destruct (TryTake_reading _ _ _ Hs') as (s' & E & Hr). unfold Take, bind_m at 1. rewrite E. unfold ret_m at 1. eauto.
Qed.

Lemma ParseValue_token p c r r' d i :
  at_text (stream_ (doc p)) (c :: r) → is_whitespace c = false →
  (∀ s, reading s r → yields (ParseToken c) (with_text s [] p) r' d i) → yields ParseValue p r' d i.
Proof.
  intros Hs Hc H. unfold yields. destruct (ParseValue_reads p c r Hs Hc) as (s & Hr & ->). exact (H s Hr).
Qed.

(** A change of the depth counter followed by an event. *)
Lemma yields_event {A} (m : method DepthCounter.DepthCounter (Result A)) (e : A → method I ParserResult) p a r d i :
  at_text (stream_ (doc p)) r → m (depth_counter_ (doc p)) = Ret (Value a, d) →
  e a (implementer_ p) = Ret (Value kRunning, i) →
  yields (and_then (state m) (λ a, event (e a))) p r d i.
Proof.
  intros Hs Hm He. unfold yields, and_then, bind_m, state. rewrite Hm. unfold event. cbn [implementer_]. rewrite He.
  eexists. split; [done|]. done.
Qed.

Lemma yields_literal w msg (e : method I ParserResult) p r d i :
  w ≠ [] → reading (stream_ (doc p)) (w ++ r) → DepthCounter.AddValue (depth_counter_ (doc p)) = Ret (Value (), d) →
  e (implementer_ p) = Ret (Value kRunning, i) →
  yields (and_then (and_then (ops (CheckString w msg)) (λ _, state DepthCounter.AddValue)) (λ _, event e)) p r d i.
Proof.
  intros Hw Hs Hm He. destruct (CheckString_reading _ _ _ msg Hw Hs) as (s & E & Hr).
  unfold yields, and_then, bind_m, ops. rewrite E. unfold state. cbn [doc set_stream depth_counter_ implementer_].
  rewrite Hm. unfold event. cbn [implementer_]. rewrite He.
  eexists. split; [done|]. split_and!; [by apply reading_at|done|done].
Qed.

(** ** Numbers and strings *)

Lemma text_not_limiter v : is_64 v → forallb (λ c, negb (is_delim kLimiterChars c)) (to_chars_int v) = true.
Proof.
  intros Hv. apply forallb_forall. intros c Hc%list_elem_of_In.
  pose proof (text_chars v Hv) as Ht. rewrite Forall_forall in Ht. specialize (Ht c Hc).
  cut (forallb (λ c, negb (is_delim kLimiterChars c)) (s! "-0123456789") = true); [|vm_compute; reflexivity].
  intros H. rewrite forallb_forall in H. apply H. by apply list_elem_of_In.
Qed.

Lemma yields_number v c t p r d i :
  is_64 v → to_chars_int v = c :: t → current_buffer_ (doc p) = [] →
  reading (stream_ (doc p)) (t ++ r) → stops kLimiterChars r →
  DepthCounter.AddValue (depth_counter_ (doc p)) = Ret (Value (), d) →
  OnNumber (mkJsonNumber (to_chars_int v)) (implementer_ p) = Ret (Value kRunning, i) →
  yields (ParseNumber c) p r d i.
Proof.
  intros Hv E Hb Hs Hr Hm He. pose proof (text_not_limiter v Hv) as Ht. rewrite E in Ht. cbn [forallb] in Ht.
  apply andb_true_iff in Ht as [_ Ht]. unfold yields, ParseNumber, and_then, GetNumber.
  unfold bind_m at 1 2. unfold state. rewrite Hm. unfold bind_m at 1 2, PushBack, SetBuffer. cbn [doc set_depth current_buffer_].
  rewrite Hb. cbn [app]. unfold bind_m at 1.
  destruct (ReadUntilAppend_reading kLimiterChars (mkParser (set_buffer [c] (set_depth d (doc p))) (implementer_ p)) t r)
    as (s & Eu & Ha); [done..|]. cbn [implementer_] in *. rewrite Eu.
  unfold GetCurrentString. rewrite buffer_with_text. cbn [doc set_buffer current_buffer_ app].
  rewrite <- E, New_text by done. cbn [mbind outcome_bind]. unfold event. cbn [with_text implementer_]. rewrite He.
  eexists. split; [done|]. split_and!; [by apply after_at|done|done].
Qed.

Lemma Skip_colon s r : reading s (":"%char :: r) → ∃ s', Skip ":" s = Ret (true, s') ∧ reading s' r.
Proof.
  intros Hs. unfold Skip, bind_m, lift. rewrite (peek_cons _ _ _ Hs). cbn [is_char].
  rewrite bool_decide_true by done. rewrite (get_cons _ _ _ Hs). eexists.
  pose proof (reading_next _ _ _ Hs) as Hn. split; [|exact Hn]. destruct Hn as (_ & Hf & _). unfold fail. by rewrite Hf.
Qed.

Lemma Skip_no_colon s r :
  head (strip_ws r) ≠ Some ":"%char →
  (if decide (strip_ws r = []) then good s = false else reading s (strip_ws r)) →
  ∃ s', Skip ":" s = Ret (false, s') ∧ at_text s' r.
Proof.
  intros Hc Hs. unfold Skip, bind_m, lift. case_decide as E.
  - unfold peek. rewrite Hs. simpl. eexists. split; [done|]. right. split; [|done].
    unfold good in *. simpl. by rewrite andb_false_r.
  - destruct (strip_ws r) as [|c r'] eqn:Er; [done|]. rewrite (peek_cons _ _ _ Hs). cbn [is_char].
    rewrite bool_decide_false by (simpl in Hc; congruence). eexists. split; [done|]. left. exists (c :: r').
    split; [done|]. rewrite <- Er. clear. induction r as [|c r IH]; simpl; [done|].
    destruct (is_whitespace c) eqn:E; [done|]. simpl. by rewrite E.
Qed.

Lemma yields_string s p r d i :
  forallb escapable s = true → reading (stream_ (doc p)) (escape s ++ quote :: r) →
  head (strip_ws r) ≠ Some ":"%char → DepthCounter.AddValue (depth_counter_ (doc p)) = Ret (Value (), d) →
  OnString s (implementer_ p) = Ret (Value kRunning, i) →
  yields ParseString p r d i.
Proof.
  intros He Hs Hc Hm Hi. destruct (ReadJsonString_reading p s r He Hs) as (s1 & E1 & H1).
  destruct (SkipWhitespace_at _ _ (reading_at _ _ H1)) as (s2 & E2 & H2).
  destruct (Skip_no_colon s2 r Hc H2) as (s3 & E3 & H3).
  unfold yields, ParseString, and_then at 1, bind_m at 1. rewrite E1. unfold ParseUnescapedString.
  unfold bind_m at 1, ops at 1. cbn [with_text doc set_buffer set_stream stream_]. rewrite E2.
  unfold bind_m at 1, ops at 1. cbn [doc set_buffer set_stream stream_]. rewrite E3.
  apply (yields_event DepthCounter.AddValue (λ _, OnString s) _ ()); done.
Qed.

Lemma yields_key s p r d i :
  forallb escapable s = true → reading (stream_ (doc p)) (escape s ++ quote :: ":"%char :: r) →
  DepthCounter.AddKey (depth_counter_ (doc p)) = Ret (Value (), d) →
  OnKey s (implementer_ p) = Ret (Value kRunning, i) →
  yields ParseString p r d i.
Proof.
  intros He Hs Hm Hi. destruct (ReadJsonString_reading p s _ He Hs) as (s1 & E1 & H1).
  destruct (SkipWhitespace_at _ _ (reading_at _ _ H1)) as (s2 & E2 & H2). rewrite strip_ws_cons in * by done.
  rewrite decide_False in H2 by done.
  destruct (Skip_colon s2 r H2) as (s3 & E3 & H3).
  unfold yields, ParseString, and_then at 1, bind_m at 1. rewrite E1. unfold ParseUnescapedString.
  unfold bind_m at 1, ops at 1. cbn [with_text doc set_buffer set_stream stream_]. rewrite E2.
  unfold bind_m at 1, ops at 1. cbn [doc set_buffer set_stream stream_]. rewrite E3.
  apply (yields_event DepthCounter.AddKey (λ _, OnKey s) _ ()); [by apply reading_at|done|done].
Qed.

Lemma yields_comma p r d :
  reading (stream_ (doc p)) r → DepthCounter.AddComma (depth_counter_ (doc p)) = Ret (true, d) →
  yields ParseComma p r d (implementer_ p).
Proof.
  intros Hs Hm. unfold yields, ParseComma, bind_m, state. rewrite Hm. eexists. split; [done|].
  split_and!; [by apply reading_at|done|done].
Qed.

End Parser.

End JsonLex.
