(* ===== verification/JsonRoundTrip.v ===== *)
(** * What the writer writes the reader reads back

    The proof follows the tokens of the written text: the depth counter waits
    for the next value, the tree builder stores it, and the stream moves on. *)

From stdpp Require Import relations.
From S2P Require Import Prelude CppInt CppString CppFloat CppStream JsonModel JsonError DepthCounter JsonNumber JsonReader JsonParser JsonWriter JsonSafety JsonTree JsonRender JsonDigits JsonLex.
Import CppFloat Stream JsonModel JsonWriter JsonRender JsonError JsonNumber JsonReader JsonOps JsonData StructureParser AnyTreeBuilder JsonSafety JsonTree JsonDigits JsonLex.

Module JsonRoundTrip.

(** ** The depth counter *)

Module Depth.
Import DepthCounter.

(** The next token may be a value. *)
Definition awaiting (d : DepthCounter) : Prop :=
  inv d ∧ is_finished_ d = false ∧ comma_expected_ d = false ∧ CheckLastElement "{" d = false.

Definition pop_key (st : list ascii) : list ascii :=
  match st with c :: st' => if decide (c = "k"%char) then st' else st | [] => [] end.

(** [d'] has one value more than [d]. *)
Definition added (d d' : DepthCounter) : Prop :=
  inv d' ∧ stack_ d' = pop_key (stack_ d) ∧
  if decide (stack_ d = []) then is_finished_ d' = true else comma_expected_ d' = true.

(** Inside a container, with or without an element before. *)
Definition inside (c : ascii) (st : list ascii) (comma : bool) (d : DepthCounter) : Prop :=
  inv d ∧ stack_ d = c :: st ∧ comma_expected_ d = comma ∧ is_finished_ d = false.

Lemma AddValue_awaiting d : awaiting d → ∃ d', AddValue d = Ret (Value (), d') ∧ added d d'.
Proof.
  intros (Hi & Hf & Hc & Hbrace). destruct (AddValue_inv d Hi) as (r & d' & E & Hi'). exists d'.
  pose proof (inv_cases d Hi) as Hcases; top_cases Hcases;
    unfold AddValue, IsEmpty, CheckLastElement in *; rewrite Hf, Hc, Hs, ?Hcs in *; simpl in *; try done;
    injection E as <- <-; (split; [done|]); unfold added; rewrite Hs; by split_and!.
Qed.

Lemma AddElement_awaiting c d :
  (c = "["%char ∨ c = "{"%char) → awaiting d →
  ∃ d', AddElement c d = Ret (Value (), d') ∧ inside c (pop_key (stack_ d)) false d'.
Proof.
  intros Ho (Hi & Hf & Hc & Hbrace). destruct (AddElement_inv c Ho d Hi) as (r & d' & E & Hi'). exists d'.
  pose proof (inv_cases d Hi) as Hcases; top_cases Hcases;
    unfold AddElement, CheckLastElement in *; rewrite Hf, Hc, Hs in *; simpl in *; try done;
    injection E as <- <-; (split; [done|]); by split_and!.
Qed.

Lemma pop_key_nil d : inv d → pop_key (stack_ d) = [] → stack_ d = [].
Proof.
  intros Hi. destruct (inv_cases d Hi) as [[Hs _]|[(st & n & cs & Hs & _)|[(st & n & cs & Hs & _)|(st & n & cs & Hs & _)]]];
    by rewrite Hs.
Qed.

Lemma PopContainer_inside c st comma msg d :
  (c = "["%char ∨ c = "{"%char) → inside c st comma d →
  ∃ n d', PopContainer c msg d = Ret (Value n, d') ∧ inv d' ∧ stack_ d' = st ∧ comma_expected_ d' = true ∧
          is_finished_ d' = bool_decide (st = []).
Proof.
  intros Ho (Hi & Hs & Hc & Hf). destruct (PopContainer_inv c msg Ho d Hi) as (r & d' & E & Hi').
  assert (containers st) as Hst.
  { destruct (inv_nested d Hi) as [H|(st' & H & _)]; rewrite Hs in H; [by destruct H|]. by destruct Ho; subst. }
  unfold PopContainer, CheckLastElement in *. rewrite Hs in *. rewrite bool_decide_true in * by done.
  cbn [MakeResult] in *. unfold Pop in *. cbn [stack_ counter_ comma_expected_ is_finished_] in *.
  destruct (counter_ d) as [|n cs]; [done|]. cbn [top pop mbind outcome_bind] in *.
  destruct (containers_top st (mkDepthCounter st cs true (is_finished_ d)) Hst eq_refl) as [_ Ht].
  rewrite Ht in *. rewrite Hf in *. destruct st as [|c' st].
  - rewrite bool_decide_false in * by naive_solver. simpl in *. injection E as <- <-. eexists _, _. by split_and!.
  - rewrite bool_decide_true in * by done. destruct cs as [|m cs]; [done|]. simpl in *. injection E as <- <-.
    eexists _, _. by split_and!.
Qed.

(** Closing a container that was opened as a value. *)
Lemma PopContainer_added c comma msg d d1 :
  (c = "["%char ∨ c = "{"%char) → awaiting d → inside c (pop_key (stack_ d)) comma d1 →
  ∃ n d', PopContainer c msg d1 = Ret (Value n, d') ∧ added d d'.
Proof.
  intros Ho (Hi & _) Hd1. destruct (PopContainer_inside c _ comma msg d1 Ho Hd1) as (n & d' & E & H1 & H2 & H3 & H4).
  exists n, d'. split; [done|]. split_and!; [done|done|]. case_decide as Hs; [|done].
  by rewrite H4, Hs.
Qed.

Lemma AddComma_inside c st comma d :
  c ≠ "k"%char → inside c st comma d → ∃ d', AddComma d = Ret (true, d') ∧ inside c st false d'.
Proof.
  intros Hc (Hi & Hs & Hcomma & Hf). destruct (AddComma_inv d Hi) as (r & d' & E & Hi'). exists d'.
  unfold AddComma, IsEmpty in *. cbn [stack_] in *. rewrite Hs in *. cbn [bool_decide] in *. simpl in *.
  rewrite bool_decide_false in * by done. injection E as <- <-. split; [done|]. split_and!; [done|done| |done].
  simpl. by destruct (comma_expected_ d).
Qed.

Lemma AddKey_inside st d :
  inside "{" st false d → ∃ d', AddKey d = Ret (Value (), d') ∧ awaiting d' ∧ stack_ d' = "k"%char :: "{"%char :: st.
Proof.
  intros (Hi & Hs & Hc & Hf). destruct (AddKey_inv d Hi) as (r & d' & E & Hi'). exists d'.
  unfold AddKey, CheckLastElement in *. rewrite Hf, Hc, Hs in *. simpl in *. injection E as <- <-. split; [done|].
  by split_and!.
Qed.

Lemma inside_awaiting st d : inside "[" st false d → awaiting d ∧ pop_key (stack_ d) = "["%char :: st.
Proof.
  intros (Hi & Hs & Hc & Hf). split; [split_and!; try done|by rewrite Hs]. unfold CheckLastElement. by rewrite Hs.
Qed.

Lemma added_inside c st d d' :
  added d d' → stack_ d ≠ [] → pop_key (stack_ d) = c :: st → inside c st true d'.
Proof.
  intros (Hi & Hs & Hc) Hne Hp. rewrite decide_False in Hc by done. rewrite Hp in Hs. split_and!; [done..|].
  destruct (is_finished_ d') eqn:E; [|done]. apply (inv_finished _ Hi) in E. congruence.
Qed.

End Depth.

(** ** Writing through pointers *)

Lemma map_replace_twice k u v m : map_replace k v (map_replace k u m) = map_replace k v m.
Proof.
  induction m as [|[k' v'] m IH]; simpl; [done|]. case_decide as E; simpl; [by rewrite decide_True|].
  rewrite decide_False by done. by rewrite IH.
Qed.

Lemma map_emplace_replace k u v m m' :
  map_emplace k u m = Some m' → map_emplace k v m = Some (map_replace k v m').
Proof.
  revert m'. induction m as [|[k' v'] m IH]; intros m'; simpl.
  { intros [= <-]. simpl. by rewrite decide_True. }
  case_decide as E; [done|]. destruct (string_lt k k').
  { intros [= <-]. simpl. by rewrite decide_True. }
  intros (m0 & Hm & ->)%fmap_Some. simpl. rewrite decide_False by done. by rewrite (IH m0).
Qed.

Lemma assign_assign p u v a a' : assign p u a = Some a' → assign p v a' = assign p v a.
Proof.
  revert a a'. induction p as [|[i|k] p IH]; intros a a'; simpl; [done|..]; destruct a; try done.
  - destruct (elements !! i) as [x|] eqn:Ei; simpl; [|done].
    destruct (assign p u x) as [x'|] eqn:E; simpl; [|done]. intros [= <-]. pose proof (lookup_lt_Some _ _ _ Ei).
    rewrite list_lookup_insert_eq by done. simpl. rewrite (IH _ _ E). destruct (assign p v x); simpl; [|done].
    by rewrite list_insert_insert_eq.
  - destruct (map_find k members) as [x|] eqn:Ek; simpl; [|done].
    destruct (assign p u x) as [x'|] eqn:E; simpl; [|done]. intros [= <-].
    rewrite map_find_replace by by eexists. simpl. rewrite (IH _ _ E). destruct (assign p v x); simpl; [|done].
    by rewrite map_replace_twice.
Qed.

Lemma assign_app p q v a x :
  deref p a = Some x → assign (p ++ q) v a = x' ← assign q v x; assign p x' a.
Proof.
  revert a. induction p as [|[i|k] p IH]; intros a; simpl; [intros [= ->]; by destruct (assign q v x)|..]; destruct a; try done.
  - destruct (elements !! i) as [y|] eqn:Ei; simpl; [|done]. intros Hx. rewrite (IH y Hx).
    by destruct (assign q v x).
  - destruct (map_find k members) as [y|] eqn:Ek; simpl; [|done]. intros Hx. rewrite (IH y Hx).
    by destruct (assign q v x).
Qed.

(** Storing [v] instead of [u] leads to the same place, and is the same as
    storing [u] and overwriting it. *)
Lemma Store_assign u v b q b1 :
  Store u b = Ret (Value q, b1) →
  ∃ b2, Store v b = Ret (Value q, b2) ∧ assign q v (root_ b1) = Some (root_ b2) ∧ hierarchy_ b2 = hierarchy_ b1 ∧
        hierarchy_ b1 = hierarchy_ b ∧ last_key_ b2 = last_key_ b.
Proof.
  unfold Store. destruct (hierarchy_ b) as [|p h] eqn:Hh.
  { intros [= <- <-]. eexists. split; [done|]. done. }
  destruct (deref p (root_ b)) as [x|] eqn:Hx; [|done].
  assert (∀ y z, ∃ ry rz, assign p y (root_ b) = Some ry ∧ assign p z (root_ b) = Some rz ∧
                          assign p z ry = Some rz ∧ deref p ry = Some y) as Hw.
  { intros y z. destruct (assign_total p y _ _ Hx) as [ry Hy], (assign_total p z _ _ Hx) as [rz Hz].
    exists ry, rz. split_and!; [done|done|by rewrite (assign_assign _ _ _ _ _ Hy)|by eapply deref_assign]. }
  destruct x as [| | | |m|l]; cbn [As_List As_Object]; try (by case_bool_decide).
  - case_bool_decide; [done|]. destruct (map_emplace (last_key_ b) u m) as [m'|] eqn:Em; [|done].
    rewrite (map_emplace_replace _ _ v _ _ Em). unfold write_node.
    destruct (Hw (Object m') (Object (map_replace (last_key_ b) v m'))) as (ry & rz & -> & -> & Hyz & Hd).
    simpl. intros [= <- <-]. eexists. split; [done|]. cbn [root_ hierarchy_ last_key_]. split_and!; try done.
    rewrite (assign_app _ _ _ _ _ Hd). simpl. apply map_emplace_spec in Em as [-> _]. done.
  - case_match; [done|]. unfold write_node.
    destruct (Hw (List (l ++ [u])) (List (l ++ [v]))) as (ry & rz & -> & -> & Hyz & Hd).
    simpl. intros [= <- <-]. eexists. split; [done|]. cbn [root_ hierarchy_ last_key_]. split_and!; try done.
    rewrite (assign_app _ _ _ _ _ Hd). simpl. rewrite list_lookup_middle by done. simpl.
    rewrite insert_app_r_alt, Nat.sub_diag by done. done.
Qed.

(** ** The tree builder *)

(** A value can be stored; its kind does not matter. *)
Definition storable (b : AnyTreeBuilder) : Prop := builder_inv b ∧ ∃ q b1, Store Null b = Ret (Value q, b1).

(** [b'] is [b] after [v] was stored, up to the last key. *)
Definition storing (b : AnyTreeBuilder) (v : Any) (b' : AnyTreeBuilder) : Prop :=
  ∃ q b1, Store v b = Ret (Value q, b1) ∧ hierarchy_ b' = hierarchy_ b ∧ root_ b' = root_ b1.

(** The same with the stored container still open. *)
Definition within (b : AnyTreeBuilder) (v : Any) (b' : AnyTreeBuilder) : Prop :=
  ∃ q b1, Store v b = Ret (Value q, b1) ∧ hierarchy_ b' = q :: hierarchy_ b ∧ root_ b' = root_ b1.

Lemma StoreEvent_storable v b : storable b → ∃ b', StoreEvent v b = Ret (Value kRunning, b') ∧ storing b v b'.
Proof.
  intros (_ & q & b1 & H). destruct (Store_assign Null v b q b1 H) as (b2 & E & _ & Hh & Hh' & _).
  exists b2. split; [unfold StoreEvent, bind_m; by rewrite E|]. exists q, b2. split_and!; [done|congruence|done].
Qed.

Lemma StartContainer_storable v b :
  storable b → ∃ b', StartContainer v b = Ret (Value kRunning, b') ∧ within b v b'.
Proof.
  intros (_ & q & b1 & H). destruct (Store_assign Null v b q b1 H) as (b2 & E & _ & Hh & Hh' & _).
  eexists. split; [unfold StartContainer, bind_m; by rewrite E|]. exists q, b2. split_and!; [done| |done].
  simpl. congruence.
Qed.

Lemma EndContainer_within v b b' : within b v b' → ∃ b'', EndContainer b' = Ret (Value kRunning, b'') ∧ storing b v b''.
Proof.
  intros (q & b1 & E & Hh & Hr). eexists. split; [done|]. exists q, b1. split_and!; [done| |done]. simpl. by rewrite Hh.
Qed.

Lemma within_inv b v b' :
  builder_inv b → wf_any v → is_container v → within b v b' →
  builder_inv b' ∧ ∃ q, hierarchy_ b' = q :: hierarchy_ b ∧ deref q (root_ b') = Some v.
Proof.
  intros Hb Hv Hc (q & b1 & E & Hh & Hr). destruct (Store_spec v b Hb Hv) as (r & b1' & E' & Hb1 & Hh1 & Hq).
  rewrite E in E'. injection E' as <- <-. destruct Hq as [Hd Hq]. destruct Hb1 as (Hn & Hw & Hf).
  rewrite <- Hr in *. split; [|eauto]. unfold builder_inv. rewrite Hh. rewrite Hh1 in *.
  split_and!; [by split|done|]. constructor; eauto.
Qed.

(** Storing into an open container is storing a larger container. *)
Lemma within_list b l b' :
  builder_inv b → wf_any (List l) → within b (List l) b' →
  storable b' ∧ ∀ w b'', storing b' w b'' → within b (List (l ++ [w])) b''.
Proof.
  intros Hb Hl Hw. destruct (within_inv _ _ _ Hb Hl I Hw) as (Hb' & q & Hh & Hd).
  destruct Hw as (q' & b1 & E & Hh' & Hr). assert (q' = q) as -> by congruence.
  assert (∀ w, ∃ b2, Store (List (l ++ [w])) b = Ret (Value q, b2) ∧
    Store w b' = Ret (Value (q ++ [Elem (length l)]), mkBuilder (last_key_ b') (q :: hierarchy_ b) (root_ b2))) as HS.
  { intros w. destruct (Store_assign _ (List (l ++ [w])) _ _ _ E) as (b2 & E2 & Ha & _). exists b2. split; [done|].
    unfold Store at 1. rewrite Hh, Hd. cbn [As_List]. destruct Hb' as (Hn & _). rewrite Hh in Hn.
    rewrite below_nested by done. unfold write_node. rewrite Hr, Ha. simpl. by rewrite Hh. }
  split.
  - split; [done|]. destruct (HS Null) as (b2 & _ & E2). eauto.
  - intros w b'' (q2 & b2 & E2 & Hh2 & Hr2). destruct (HS w) as (b3 & E3 & E4). rewrite E4 in E2.
    injection E2 as <- <-. exists q, b3. split_and!; [done|congruence|done].
Qed.

Lemma within_object b m k b' :
  builder_inv b → wf_any (Object m) → within b (Object m) b' → last_key_ b' = k → k ≠ [] →
  Forall (λ kv, string_lt kv.1 k = true) m →
  storable b' ∧ ∀ w b'', storing b' w b'' → within b (Object (m ++ [(k, w)])) b''.
Proof.
  intros Hb Hm Hw Hk Hk0 Hlt. destruct (within_inv _ _ _ Hb Hm I Hw) as (Hb' & q & Hh & Hd).
  destruct Hw as (q' & b1 & E & Hh' & Hr). assert (q' = q) as -> by congruence.
  assert (∀ w, ∃ b2, Store (Object (m ++ [(k, w)])) b = Ret (Value q, b2) ∧
    Store w b' = Ret (Value (q ++ [Member k]), mkBuilder k (q :: hierarchy_ b) (root_ b2))) as HS.
  { intros w. destruct (Store_assign _ (Object (m ++ [(k, w)])) _ _ _ E) as (b2 & E2 & Ha & _). exists b2. split; [done|].
    unfold Store at 1. rewrite Hh, Hd. cbn [As_List As_Object]. rewrite Hk, bool_decide_false by done.
    rewrite map_emplace_last by done. unfold write_node. rewrite Hr, Ha. simpl. by rewrite Hh, Hk. }
  split.
  - split; [done|]. destruct (HS Null) as (b2 & _ & E2). eauto.
  - intros w b'' (q2 & b2 & E2 & Hh2 & Hr2). destruct (HS w) as (b3 & E3 & E4). rewrite E4 in E2.
    injection E2 as <- <-. exists q, b3. split_and!; [done|congruence|done].
Qed.

(** ** Values *)

(** The tree the reader builds: integers in the smallest type, unsigned types first. *)
Fixpoint canon (a : Any) : Any :=
  match a with
  | Num (Integer _ v) => Num (Integer (smallest v) v)
  | Object m => Object (map (λ '(k, v), (k, canon v)) m)
  | List l => List (map canon l)
  | _ => a
  end.

(** Trees whose text the reader accepts: no floating-point numbers, no control
    characters without an escape of their own, no empty keys. *)
Fixpoint readable (a : Any) : bool :=
  match a with
  | Num (Floating _ _) => false
  | String s => forallb escapable s
  | Object m => forallb (λ '(k, v), negb (bool_decide (k = [])) && forallb escapable k && readable v) m
  | List l => forallb readable l
  | _ => true
  end.

Lemma canon_wf a : wf_any a → wf_any (canon a).
Proof.
  induction a as [b|[t v|t f]|s| |m IH|l IH] using Any_nested_ind; intros Hwf; try done.
  - apply smallest_in_range. by eapply in_range_64.
  - apply wf_any_Object in Hwf as [Hs Hwf]. cbn [canon]. apply wf_any_Object. split.
    + eapply sorted_keys_fst; [|exact Hs]. clear. induction m as [|[k v] m IHm]; [done|]. csimpl. by rewrite IHm.
    + rewrite !Forall_forall in *. intros ? ([k v] & -> & Hin)%list_elem_of_fmap. apply (IH (k, v)); [done|]. by apply (Hwf (k, v)).
  - apply wf_any_List in Hwf. cbn [canon]. apply wf_any_List. rewrite !Forall_forall in *.
    intros v (v' & -> & Hin)%list_elem_of_fmap. auto.
Qed.

Abbreviation parser := (parser AnyTreeBuilder).

Definition token (p p' : parser) : Prop := ParseValue p = Ret (Value kRunning, p').
Definition runs : relation parser := rtc token.

(** What may follow a value. *)
Definition follow (r : str) : Prop := stops kLimiterChars r ∧ head (strip_ws r) ≠ Some ":"%char.

Lemma yields_token p r d i :
  yields ParseValue p r d i →
  ∃ p', token p p' ∧ at_text (stream_ (doc p')) r ∧ depth_counter_ (doc p') = d ∧ implementer_ p' = i.
Proof. by intros (p' & ? & ?); exists p'. Qed.

Section Values.
  Variable f : Formatting.
  Variable to_chars_floating : float_type → spec_float → str.
  #[local] Abbreviation render := (render f to_chars_floating).
  #[local] Abbreviation render_elements := (render_elements f to_chars_floating).
  #[local] Abbreviation render_members := (render_members f to_chars_floating).

(** Reading the text of a value stores the value. *)
Definition parses (a : Any) : Prop :=
  ∀ lvl r p, at_text (stream_ (doc p)) (render lvl a ++ r) → follow r →
    Depth.awaiting (depth_counter_ (doc p)) → storable (implementer_ p) →
    ∃ p', runs p p' ∧ at_text (stream_ (doc p')) r ∧ Depth.added (depth_counter_ (doc p)) (depth_counter_ (doc p')) ∧
          storing (implementer_ p) (canon a) (implementer_ p').

(** One token that adds a value. *)
Lemma parses_token p c t r v :
  at_text (stream_ (doc p)) (c :: t) → is_whitespace c = false →
  (∀ s d i, reading s t → DepthCounter.AddValue (depth_counter_ (doc p)) = Ret (Value (), d) →
     StoreEvent v (implementer_ p) = Ret (Value kRunning, i) →
     yields (ParseToken c) (with_text s [] p) r d i) →
  Depth.awaiting (depth_counter_ (doc p)) → storable (implementer_ p) →
  ∃ p', runs p p' ∧ at_text (stream_ (doc p')) r ∧ Depth.added (depth_counter_ (doc p)) (depth_counter_ (doc p')) ∧
        storing (implementer_ p) v (implementer_ p').
Proof.
  intros Hs Hc H Hd Hi. destruct (Depth.AddValue_awaiting _ Hd) as (d & Ed & Hd').
  destruct (StoreEvent_storable v _ Hi) as (i & Ei & Hi').
  destruct (yields_token p r d i) as (p' & Ht & Hr & Edp & Eip).
  { eapply ParseValue_token; [exact Hs|exact Hc|]. intros s Hr. by apply H. }
  exists p'. rewrite Edp, Eip. split_and!; [by apply rtc_once|done..].
Qed.

Lemma parses_Null : parses Null.
Proof.
  intros lvl r p Hs Hf Hd Hi. eapply (parses_token p "n" (s! "ull" ++ r)); [exact Hs|done| |done..].
  intros s d i Hr Ed Ei. by eapply (yields_literal (s! "ull")).
Qed.

Lemma parses_Bool b : parses (Bool b).
Proof.
  intros lvl r p Hs Hf Hd Hi. destruct b.
  - eapply (parses_token p "t" (s! "rue" ++ r)); [exact Hs|done| |done..].
    intros s d i Hr Ed Ei. by eapply (yields_literal (s! "rue")).
  - eapply (parses_token p "f" (s! "alse" ++ r)); [exact Hs|done| |done..].
    intros s d i Hr Ed Ei. by eapply (yields_literal (s! "alse")).
Qed.

Lemma parses_String s : forallb escapable s = true → parses (String s).
Proof.
  intros He lvl r p Hs [Hst Hc] Hd Hi. cbn [canon].
  eapply (parses_token p quote ((escape s ++ [quote]) ++ r)); [exact Hs|done| |done..].
  intros st d i Hr Ed Ei. rewrite <- (assoc_L (++)) in Hr. by eapply yields_string.
Qed.

Lemma parses_Integer t v : in_range t v → parses (Num (Integer t v)).
Proof.
  intros Hv lvl r p Hs [Hst Hc] Hd Hi. apply in_range_64 in Hv. cbn [canon].
  destruct (front_text v Hv) as (c & txt & E & _). cbn [JsonRender.render render_number] in Hs. rewrite E in Hs.
  assert (c ∈ s! "-0123456789") as Hin.
  { pose proof (text_chars v Hv) as H. rewrite E in H. by apply Forall_cons in H as [? _]. }
  eapply (parses_token p c (txt ++ r)); [exact Hs| | |done..].
  { clear -Hin. by repeat (apply elem_of_cons in Hin as [->|Hin]; [done|]); apply elem_of_nil in Hin. }
  intros st d i Hr Ed Ei.
  assert (ParseToken c = ParseNumber (I := AnyTreeBuilder) c) as ->.
  { clear -Hin. by repeat (apply elem_of_cons in Hin as [->|Hin]; [done|]); apply elem_of_nil in Hin. }
  apply (yields_number v c txt); [done..|]. cbn [with_text implementer_ JsonReader.OnNumber AnyTreeBuilder_Implementer].
  unfold OnNumber. rewrite try_convert_text by done. exact Ei.
Qed.

(** ** Containers *)

Lemma line_break_ws d : forallb is_whitespace (line_break f d) = true.
Proof.
  destruct f; [done|]. cbn [line_break forallb]. change (is_whitespace newline) with true. cbn [andb].
  induction (Z.to_nat d) as [|n IH]; [done|]. cbn [replicate concat]. by rewrite forallb_app, IH.
Qed.

Lemma strip_ws_line_break d r : strip_ws (line_break f d ++ r) = strip_ws r.
Proof. apply strip_ws_app, line_break_ws. Qed.

Lemma stops_line_break d r : stops kLimiterChars r → stops kLimiterChars (line_break f d ++ r).
Proof. by destruct f. Qed.

(** The end of a container, after its last element. *)
Lemma follow_end d c r :
  (c = "]"%char ∨ c = "}"%char) → follow (line_break f d ++ c :: r).
Proof.
  intros Hc. split.
  - apply stops_line_break. by destruct Hc; subst.
  - rewrite strip_ws_line_break. by destruct Hc; subst.
Qed.

Lemma follow_elements d l r : follow (render_elements d false l ++ "]"%char :: r).
Proof. destruct l as [|v l]; [apply follow_end; auto|]. by split. Qed.

Lemma follow_members d m r : follow (render_members d false m ++ "}"%char :: r).
Proof. destruct m as [|[k v] m]; [apply follow_end; auto|]. by split. Qed.

(** A comma inside a container, whatever is before it. *)
Lemma comma_token c st comma r p :
  c ≠ "k"%char → at_text (stream_ (doc p)) (","%char :: r) → Depth.inside c st comma (depth_counter_ (doc p)) →
  ∃ p', token p p' ∧ at_text (stream_ (doc p')) r ∧ Depth.inside c st false (depth_counter_ (doc p')) ∧
        implementer_ p' = implementer_ p.
Proof.
  intros Hc Hs Hd. destruct (Depth.AddComma_inside _ _ _ _ Hc Hd) as (d & Ed & Hd').
  destruct (yields_token p r d (implementer_ p)) as (p' & Ht & Hr & Edp & Eip).
  { eapply ParseValue_token; [exact Hs|done|]. intros s Hr. by apply (yields_comma (with_text s [] p)). }
  exists p'. by rewrite Edp.
Qed.

(** A comma, if there is an element before. *)
Lemma comma_runs c st first r p :
  c ≠ "k"%char → at_text (stream_ (doc p)) (separator first ++ r) →
  Depth.inside c st (negb first) (depth_counter_ (doc p)) →
  ∃ p', runs p p' ∧ at_text (stream_ (doc p')) r ∧ Depth.inside c st false (depth_counter_ (doc p')) ∧
        implementer_ p' = implementer_ p.
Proof.
  intros Hc Hs Hd. destruct first.
  - exists p. split_and!; [apply rtc_refl|done..].
  - destruct (comma_token c st true r p Hc Hs Hd) as (p' & Ht & H). exists p'. split; [by apply rtc_once|done].
Qed.

Lemma elements_parse b st lvl l r :
  builder_inv b → Forall parses l → Forall wf_any l →
  ∀ done first p, at_text (stream_ (doc p)) (render_elements lvl first l ++ "]"%char :: r) →
    Depth.inside "[" st (negb first) (depth_counter_ (doc p)) →
    wf_any (List done) → within b (List done) (implementer_ p) →
    ∃ p', runs p p' ∧ at_text (stream_ (doc p')) ("]"%char :: r) ∧
      (∃ comma, Depth.inside "[" st comma (depth_counter_ (doc p'))) ∧
      within b (List (done ++ map canon l)) (implementer_ p').
Proof.
  intros Hb Hl. induction Hl as [|v l Hv Hl IH]; intros Hwf done first p Hs Hd Hdone Hw.
  - exists p. split_and!; [apply rtc_refl| |eauto|by rewrite app_nil_r].
    destruct first; [done|]. by eapply at_text_ws; [apply (line_break_ws lvl)|].
  - apply Forall_cons in Hwf as [Hwv Hwf]. cbn [JsonRender.render_elements] in Hs. rewrite <- !(assoc_L (++)) in Hs.
    destruct (λ Hc, comma_runs "[" st first _ p Hc Hs Hd) as (p1 & R1 & Hs1 & Hd1 & Ei1); [done|].
    apply at_text_ws in Hs1; [|apply line_break_ws].
    destruct (within_list b done (implementer_ p1)) as [Hst Hnext]; [done|done|by rewrite Ei1|].
    destruct (Depth.inside_awaiting _ _ Hd1) as [Ha Hp].
    destruct (Hv (deeper lvl) _ p1 Hs1) as (p2 & R2 & Hs2 & Hd2 & Hi2); [apply follow_elements|done|done|].
    destruct (IH Hwf (done ++ [canon v]) false p2) as (p3 & R3 & Hs3 & Hd3 & Hw3).
    + exact Hs2.
    + eapply Depth.added_inside; [exact Hd2| |exact Hp]. destruct Hd1 as (_ & -> & _). done.
    + apply wf_any_List. apply wf_any_List in Hdone. apply Forall_app. split; [done|]. constructor; [by apply canon_wf|done].
    + by apply Hnext.
    + exists p3. split_and!; [by do 2 (etrans; [done|])|done|done|]. by rewrite <- (assoc_L (++)) in Hw3.
Qed.

(** The brackets of an array. *)
Lemma open_array p r :
  at_text (stream_ (doc p)) ("["%char :: r) → Depth.awaiting (depth_counter_ (doc p)) → storable (implementer_ p) →
  ∃ p', token p p' ∧ at_text (stream_ (doc p')) r ∧
        Depth.inside "[" (Depth.pop_key (DepthCounter.stack_ (depth_counter_ (doc p)))) false (depth_counter_ (doc p')) ∧
        within (implementer_ p) (List []) (implementer_ p').
Proof.
  intros Hs Hd Hi. destruct (Depth.AddElement_awaiting "[" _ (or_introl eq_refl) Hd) as (d1 & Ed1 & Hd1).
  destruct (StartContainer_storable (List []) _ Hi) as (i1 & Ei1 & Hi1).
  destruct (yields_token p r d1 i1) as (p1 & Ht1 & Hs1 & Edp1 & Eip1).
  { eapply ParseValue_token; [exact Hs|done|]. intros s Hr.
    apply (yields_event DepthCounter.AddArray (λ _, OnStartArray) _ ()); [by apply reading_at|done|done]. }
  exists p1. by rewrite Edp1, Eip1.
Qed.

Lemma close_array p0 p r comma v :
  at_text (stream_ (doc p)) ("]"%char :: r) → Depth.awaiting (depth_counter_ (doc p0)) →
  Depth.inside "[" (Depth.pop_key (DepthCounter.stack_ (depth_counter_ (doc p0)))) comma (depth_counter_ (doc p)) →
  within (implementer_ p0) v (implementer_ p) →
  ∃ p', token p p' ∧ at_text (stream_ (doc p')) r ∧ Depth.added (depth_counter_ (doc p0)) (depth_counter_ (doc p')) ∧
        storing (implementer_ p0) v (implementer_ p').
Proof.
  intros Hs Ha Hd Hw.
  destruct (Depth.PopContainer_added "[" comma "DepthCounter::PopArray: Not in an array." _ _ (or_introl eq_refl) Ha Hd)
    as (n & d3 & Ed3 & Hd3).
  destruct (EndContainer_within _ _ _ Hw) as (i3 & Ei3 & Hi3).
  destruct (yields_token p r d3 i3) as (p3 & Ht3 & Hs3 & Edp3 & Eip3).
  { eapply ParseValue_token; [exact Hs|done|]. intros s Hr.
    apply (yields_event DepthCounter.PopArray (λ n, OnEndArray n) _ n); [by apply reading_at|done|done]. }
  exists p3. by rewrite Edp3, Eip3.
Qed.

Lemma parses_List l : Forall parses l → Forall wf_any l → parses (List l).
Proof.
  intros Hl Hwf lvl r p Hs Hf Hd Hi. rewrite render_List in Hs. rewrite <- !(assoc_L (++)) in Hs. cbn [canon].
  destruct (open_array p _ Hs Hd Hi) as (p1 & Ht1 & Hs1 & Hd1 & Hw1).
  destruct (elements_parse (implementer_ p) (Depth.pop_key (DepthCounter.stack_ (depth_counter_ (doc p)))) lvl l r)
    with (done := @nil Any) (first := true) (p := p1) as (p2 & R2 & Hs2 & (comma & Hd2) & Hw2); try done.
  { by destruct Hi. }
  destruct (close_array p p2 r comma _ Hs2 Hd Hd2 Hw2) as (p3 & Ht3 & H3).
  exists p3. split; [|done]. eapply rtc_l; [exact Ht1|]. eapply rtc_r; [exact R2|exact Ht3].
Qed.

Lemma sorted_keys_prefix l1 l2 : sorted_keys (l1 ++ l2) → sorted_keys l1.
Proof.
  induction l1 as [|[k v] l1 IH]; [done|]. simpl app. intros [Hf Hs]%sorted_keys_cons. apply sorted_keys_cons.
  apply Forall_app in Hf as [? _]. auto.
Qed.

Definition canon_member (kv : str * Any) : str * Any := (kv.1, canon kv.2).

Lemma canon_Object m : canon (Object m) = Object (map canon_member m).
Proof. cbn [canon]. f_equal. apply map_ext. by intros [k v]. Qed.

(** A key with its separator. *)
Lemma key_runs st k r p :
  at_text (stream_ (doc p)) (literal k ++ name_separator f ++ r) → forallb escapable k = true →
  Depth.inside "{" st false (depth_counter_ (doc p)) →
  ∃ p', runs p p' ∧ at_text (stream_ (doc p')) r ∧ Depth.awaiting (depth_counter_ (doc p')) ∧
        DepthCounter.stack_ (depth_counter_ (doc p')) = "k"%char :: "{"%char :: st ∧
        implementer_ p' = mkBuilder k (hierarchy_ (implementer_ p)) (root_ (implementer_ p)).
Proof.
  intros Hs Hk Hd. destruct (Depth.AddKey_inside _ _ Hd) as (d & Ed & Ha & Hst).
  assert (∃ w, name_separator f = ":"%char :: w ∧ forallb is_whitespace w = true) as (w & Ew & Hw).
  { destruct f; by eexists. }
  assert (literal k ++ name_separator f ++ r = quote :: escape k ++ quote :: ":"%char :: w ++ r) as E.
  { rewrite Ew. unfold literal. simpl. by rewrite <- (assoc_L (++)). }
  rewrite E in Hs.
  destruct (yields_token p (w ++ r) d (mkBuilder k (hierarchy_ (implementer_ p)) (root_ (implementer_ p))))
    as (p' & Ht & Hr & Edp & Eip).
  { eapply (ParseValue_token p quote); [exact Hs|done|]. intros s Hr. by apply (yields_key k). }
  exists p'. rewrite Edp. split_and!; [by apply rtc_once|by eapply at_text_ws|done..].
Qed.

Lemma members_parse b st lvl m r :
  builder_inv b → Forall (λ kv, parses kv.2) m → Forall (λ kv, wf_any kv.2) m →
  Forall (λ kv, kv.1 ≠ [] ∧ forallb escapable kv.1 = true) m →
  ∀ done first p, at_text (stream_ (doc p)) (render_members lvl first m ++ "}"%char :: r) →
    Depth.inside "{" st (negb first) (depth_counter_ (doc p)) →
    wf_any (Object done) → sorted_keys (done ++ map canon_member m) → within b (Object done) (implementer_ p) →
    ∃ p', runs p p' ∧ at_text (stream_ (doc p')) ("}"%char :: r) ∧
      (∃ comma, Depth.inside "{" st comma (depth_counter_ (doc p'))) ∧
      within b (Object (done ++ map canon_member m)) (implementer_ p').
Proof.
  intros Hb Hm. induction Hm as [|[k v] m Hv Hm IH]; intros Hwf Hok done first p Hs Hd Hdone Hsort Hw.
  - exists p. split_and!; [apply rtc_refl| |eauto|by rewrite app_nil_r].
    destruct first; [done|]. by eapply at_text_ws; [apply (line_break_ws lvl)|].
  - apply Forall_cons in Hwf as [Hwv Hwf]. apply Forall_cons in Hok as [[Hk0 Hk] Hok].
    cbn [fst snd map canon_member] in *. cbn [JsonRender.render_members] in Hs. rewrite <- !(assoc_L (++)) in Hs.
    destruct (λ Hc, comma_runs "{" st first _ p Hc Hs Hd) as (p1 & R1 & Hs1 & Hd1 & Ei1); [done|].
    apply at_text_ws in Hs1; [|apply line_break_ws].
    destruct (key_runs _ _ _ _ Hs1 Hk Hd1) as (p2 & R2 & Hs2 & Ha2 & Hst2 & Ei2). rewrite Ei1 in Ei2.
    destruct (sorted_keys_app _ _ _ _ Hsort) as [Hlt _].
    destruct (within_object b done k (implementer_ p2)) as [Hst Hnext]; [done|done| |by rewrite Ei2|done|done|].
    { rewrite Ei2. exact Hw. }
    destruct (Hv (deeper lvl) _ p2 Hs2) as (p3 & R3 & Hs3 & Hd3 & Hi3); [apply follow_members|done|done|].
    destruct (IH Hwf Hok (done ++ [(k, canon v)]) false p3) as (p4 & R4 & Hs4 & Hd4 & Hw4).
    + exact Hs3.
    + eapply Depth.added_inside; [exact Hd3|by rewrite Hst2|by rewrite Hst2].
    + apply wf_any_Object. apply wf_any_Object in Hdone as [Hsd Hdone]. split.
      * apply (sorted_keys_prefix _ (map canon_member m)). by rewrite <- (assoc_L (++)).
      * apply Forall_app. split; [done|]. constructor; [by apply canon_wf|done].
    + by rewrite <- (assoc_L (++)).
    + by apply Hnext.
    + exists p4. split_and!; [by do 3 (etrans; [done|])|done|done|]. by rewrite <- (assoc_L (++)) in Hw4.
Qed.

Lemma parses_Object m :
  Forall (λ kv, parses kv.2) m → wf_any (Object m) → Forall (λ kv, kv.1 ≠ [] ∧ forallb escapable kv.1 = true) m →
  parses (Object m).
Proof.
  intros Hm Hwf Hok lvl r p Hs Hf Hd Hi. rewrite render_Object in Hs. rewrite <- !(assoc_L (++)) in Hs.
  pose proof (canon_wf _ Hwf) as Hcw. rewrite canon_Object in *. apply wf_any_Object in Hcw as [Hsort _].
  apply wf_any_Object in Hwf as [_ Hwf].
  destruct (Depth.AddElement_awaiting "{" _ (or_intror eq_refl) Hd) as (d1 & Ed1 & Hd1).
  destruct (StartContainer_storable (Object []) _ Hi) as (i1 & Ei1 & Hi1).
  destruct (yields_token p (render_members lvl true m ++ "}"%char :: r) d1 i1) as (p1 & Ht1 & Hs1 & Edp1 & Eip1).
  { eapply ParseValue_token; [exact Hs|done|]. intros s Hr.
    apply (yields_event DepthCounter.AddObject (λ _, OnStartObject) _ ()); [by apply reading_at|done|done]. }
  destruct (members_parse (implementer_ p) (Depth.pop_key (DepthCounter.stack_ (depth_counter_ (doc p)))) lvl m r)
    with (done := @nil (str * Any)) (first := true) (p := p1) as (p2 & R2 & Hs2 & (comma & Hd2) & Hw2).
  1: by destruct Hi. 1-4: done. 1: by rewrite Edp1. 1-2: done. 1: by rewrite Eip1.
  destruct (Depth.PopContainer_added "{" comma "DepthCounter::PopObject: Not in an object." _ _ (or_intror eq_refl) Hd Hd2)
    as (n & d3 & Ed3 & Hd3).
  destruct (EndContainer_within _ _ _ Hw2) as (i3 & Ei3 & Hi3).
  destruct (yields_token p2 r d3 i3) as (p3 & Ht3 & Hs3 & Edp3 & Eip3).
  { eapply ParseValue_token; [exact Hs2|done|]. intros s Hr.
    apply (yields_event DepthCounter.PopObject (λ n, OnEndObject n) _ n); [by apply reading_at|done|done]. }
  exists p3. rewrite Edp3, Eip3. split_and!; [|done..].
  eapply rtc_l; [exact Ht1|]. eapply rtc_r; [exact R2|exact Ht3].
Qed.

Lemma value_parses a : wf_any a → readable a = true → parses a.
Proof.
  induction a as [b|[t v|t x]|s| |m IH|l IH] using Any_nested_ind; intros Hwf Hr; try done.
  - apply parses_Bool.
  - by apply parses_Integer.
  - by apply parses_String.
  - apply parses_Null.
  - pose proof Hwf as Hwf'. apply wf_any_Object in Hwf' as [_ Hwf']. cbn [readable] in Hr.
    rewrite forallb_forall in Hr. apply parses_Object; [|done|].
    + rewrite !Forall_forall in *. intros [k v] Hin. apply (IH (k, v)); [done|by apply (Hwf' (k, v))|].
      apply list_elem_of_In, Hr in Hin. rewrite !andb_true_iff in Hin. tauto.
    + rewrite Forall_forall. intros [k v] Hin. apply list_elem_of_In, Hr in Hin. rewrite !andb_true_iff in Hin.
      destruct Hin as [[Hk ?] _]. by apply negb_true_iff, bool_decide_eq_false in Hk.
  - apply wf_any_List in Hwf. cbn [readable] in Hr. rewrite forallb_forall in Hr. apply parses_List; [|done].
    rewrite !Forall_forall in *. intros v Hin. apply IH; [done|auto|]. apply Hr. by apply list_elem_of_In.
Qed.

Lemma readable_writable a : readable a = true → writable to_chars_floating a.
Proof.
  induction a as [b|[t v|t x]|s| |m IH|l IH] using Any_nested_ind; intros Hr; try done; cbn [readable] in Hr;
    rewrite forallb_forall in Hr.
  - apply writable_Object. rewrite !Forall_forall in *. intros [k v] Hin. apply (IH (k, v)); [done|].
    apply list_elem_of_In, Hr in Hin. rewrite !andb_true_iff in Hin. tauto.
  - apply writable_List. rewrite !Forall_forall in *. intros v Hin. apply IH; [done|]. apply Hr. by apply list_elem_of_In.
Qed.

(** The first character of a text is the first of a token. *)
Lemma render_head a :
  wf_any a → readable a = true →
  ∃ c t, render 0 a = c :: t ∧ is_whitespace c = false ∧ c ≠ "239"%char.
Proof.
  intros Hwf Hr. destruct a as [[]|[t v|t x]|s| |m|l]; try done;
    try (eexists; eexists; split; [reflexivity|done]).
  pose proof (in_range_64 _ _ Hwf) as Hv. destruct (front_text v Hv) as (c & txt & E & _).
  pose proof (text_chars v Hv) as H. rewrite E in H. apply Forall_cons in H as [Hin _]. exists c, txt. split; [done|].
  by repeat (apply elem_of_cons in Hin as [->|Hin]; [done|]); apply elem_of_nil in Hin.
Qed.

End Values.

(** ** Documents *)

Lemma FromBuffer_reading text :
  head text ≠ Some "239"%char →
  ∃ d, JsonData.FromBuffer text = Ret d ∧ reading (stream_ d) text ∧ depth_counter_ d = DepthCounter.initial.
Proof.
  intros Hh. unfold JsonData.FromBuffer, ParseBom.
  assert (∀ s, data s = text → reading (seekg_beg (clear_fail_eof s)) text) as Hreset.
  { intros s E. unfold reading, seekg_beg, clear_fail_eof, rest. simpl. rewrite E, drop_0. split_and!; [done..|lia]. }
  destruct text as [|c1 [|c2 [|c3 t]]]; simpl in Hh.
  1-3: eexists; split; [cbn; rewrite ?bool_decide_false by congruence; reflexivity|]; split; [by apply Hreset|done].
  eexists. split; [cbn; rewrite ?bool_decide_false by congruence; reflexivity|]. split; [|done].
  unfold reading, rest. simpl. split_and!; [done..|lia].
Qed.

Lemma loop_runs p p1 p2 :
  runs p p1 → ParseValue p1 = Ret (Value kFinished, p2) →
  ∀ fuel x, Parse_loop fuel (Value kRunning) p = Ret x → x = (Value kFinished, p2).
Proof.
  intros Hr He. induction Hr as [p|p q p1 Ht _ IH]; intros [|fuel] x; cbn [Parse_loop is_running]; try done; unfold bind_m.
  - rewrite He. destruct fuel as [|fuel]; [done|]. cbn [Parse_loop is_running]. by intros [= <-].
  - rewrite Ht. by apply IH.
Qed.

Lemma ParseValue_end p :
  at_text (stream_ (doc p)) [] → DepthCounter.is_finished_ (depth_counter_ (doc p)) = true →
  ∃ p', ParseValue p = Ret (Value kFinished, p') ∧ implementer_ p' = implementer_ p.
Proof.
  intros Hs Hf. unfold ParseValue, bind_m at 1, ops at 1. destruct (SkipWhitespace_at _ _ Hs) as (s & -> & _).
  cbn [negb strip_ws]. rewrite bool_decide_true by done. unfold bind_m, state, DepthCounter.CheckEndOfFile.
  cbn [negb doc set_stream depth_counter_]. rewrite Hf. cbn. eauto.
Qed.

(** Parsing the text of a document. *)
Lemma FromBuffer_runs text v :
  (∃ c t, text = c :: t ∧ is_whitespace c = false ∧ c ≠ "239"%char) →
  (∀ p, at_text (stream_ (doc p)) text → Depth.awaiting (depth_counter_ (doc p)) → storable (implementer_ p) →
    ∃ p', runs p p' ∧ at_text (stream_ (doc p')) [] ∧ Depth.added (depth_counter_ (doc p)) (depth_counter_ (doc p')) ∧
          storing (implementer_ p) v (implementer_ p')) →
  JsonParser.FromBuffer text = Ret (Value v).
Proof.
  intros (c & t & E & Hc & H239) H.
  destruct (FromBuffer_reading text) as (d & Ed & Hs & Hd); [rewrite E; simpl; congruence|].
  unfold JsonParser.FromBuffer. rewrite Ed. cbn [mbind outcome_bind]. unfold GetData.
  set (p := mkParser d initial).
  destruct (SkipWhitespace_at _ _ (reading_at _ _ Hs)) as (s1 & E1 & H1).
  assert (strip_ws text = text) as Hstrip by (by rewrite E, strip_ws_cons).
  rewrite Hstrip in *. rewrite bool_decide_false in E1 by (by rewrite E). rewrite decide_False in H1 by (by rewrite E).
  set (p1 := mkParser (set_stream s1 d) initial).
  destruct (H p1) as (p2 & R & Hs2 & Hd2 & (q & b1 & ES & _ & Hroot)).
  { by apply reading_at. }
  { unfold p1. cbn [doc set_stream depth_counter_]. rewrite Hd. split; [apply DepthCounter.initial_inv|done]. }
  { split; [apply initial_builder_inv|]. by eexists _, _. }
  destruct Hd2 as (_ & _ & Hfin). rewrite decide_True in Hfin by (cbn; by rewrite Hd).
  destruct (ParseValue_end p2 Hs2 Hfin) as (p3 & E3 & Hi3).
  destruct (Parse_at (J := builder_inv) (todo (stream_ d)) p) as (r & p4 & E4 & _).
  { split_and!; [|apply initial_builder_inv|]; cbn [p doc]; [rewrite Hd; apply DepthCounter.initial_inv|].
    split; [|done]. by eapply reading_wf. }
  rewrite E4. cbn [mbind outcome_bind fst snd]. revert E4. unfold Parse, bind_m at 1, ops at 1.
  cbn [p doc implementer_]. rewrite E1. cbn [MakeResult transform negb]. unfold bind_m.
  destruct (Parse_loop _ (Value kRunning) _) as [x| |] eqn:Eloop; [|done..].
  apply (loop_runs p1 p2 p3 R E3) in Eloop as ->. intros [= <- <-]. cbn [Drop]. rewrite Hi3, Hroot.
  cbn in ES. by injection ES as <- <-.
Qed.

(** ** Properties *)

(** C2: Writing a tree and reading the text back gives the tree, with each
    integer in the smallest type that holds it: for both formattings, and for
    every well-formed tree without floating-point numbers, without control
    characters that have no short escape, and without empty keys. *)
Theorem write_read_round_trip to_chars_floating formatting a :
  wf_any a → readable a = true →
  ∃ text, ToBuffer to_chars_floating formatting a = Ret (Value text) ∧
          JsonParser.FromBuffer text = Ret (Value (canon a)).
Proof.
  intros Hwf Hr. exists (render formatting to_chars_floating 0 a). split.
  { apply ToBuffer_render; [by apply readable_writable|done]. }
  apply FromBuffer_runs; [by apply render_head|]. intros p Hs Hd Hi.
  rewrite <- (app_nil_r (render _ _ _ _)) in Hs. by eapply value_parses.
Qed.

Lemma write_read_round_trip_witness :
  ∃ text, ToBuffer (λ _ _, []) kPrettyPrint
            (Object [(s! "a", List [Num (Integer int64_t 5); Null]); (s! "b", String (s! "x\y"))]) = Ret (Value text) ∧
          JsonParser.FromBuffer text =
            Ret (Value (Object [(s! "a", List [Num (Integer uint8_t 5); Null]); (s! "b", String (s! "x\y"))])).
Proof.
  apply (write_read_round_trip (λ _ _, []) kPrettyPrint
           (Object [(s! "a", List [Num (Integer int64_t 5); Null]); (s! "b", String (s! "x\y"))])).
  - vm_compute. repeat split; discriminate.
  - vm_compute. reflexivity.
Defined.

Lemma not_escapable s :
  forallb escapable s = false →
  ∃ w c s' t, s = w ++ c :: s' ∧ forallb escapable w = true ∧ escape_char c = s! "\u" ++ t.
Proof.
  induction s as [|c s IH]; [done|]. cbn [forallb]. destruct (escapable c) eqn:E; cbn [andb].
  - intros (w & c' & s' & t & -> & Hw & Hc)%IH. exists (c :: w), c', s', t. cbn [forallb]. by rewrite E, Hw.
  - intros _. exists [], c, s. destruct c as [[] [] [] [] [] [] [] []]; first
      [ vm_compute in E; discriminate E
      | eexists; split; [reflexivity|]; split; [reflexivity|]; vm_compute; reflexivity ].
Qed.

(** A string with a control character that has no short escape is written
    as a text with a unicode escape, which the reader rejects: such a document
    cannot be read back. *)
Theorem control_character_rejected to_chars_floating formatting s :
  forallb escapable s = false →
  ∃ text, ToBuffer to_chars_floating formatting (String s) = Ret (Value text) ∧
          JsonParser.FromBuffer text = Ret (Unexpected kParsingError).
Proof.
  intros (w & c & s' & t & -> & Hw & Hc)%not_escapable. exists (literal (w ++ c :: s')).
  split; [by apply ToBuffer_render|].
  assert (∃ r, literal (w ++ c :: s') = quote :: escape w ++ s! "\u" ++ r) as [r ->].
  { unfold literal. rewrite escape_app. unfold escape at 2. csimpl. rewrite Hc. eexists. f_equal.
    rewrite <- !(assoc_L (++)). reflexivity. }
  set (text := quote :: escape w ++ s! "\u" ++ r).
  destruct (FromBuffer_reading text) as (d & Ed & Hs & _); [done|].
  unfold JsonParser.FromBuffer. rewrite Ed. cbn [mbind outcome_bind]. unfold GetData, Parse, bind_m at 1, ops at 1. cbn [doc].
  destruct (SkipWhitespace_at _ _ (reading_at _ _ Hs)) as (s1 & -> & H1). unfold text in H1 |- *.
  rewrite strip_ws_cons in * by done. rewrite bool_decide_false by done. rewrite decide_False in H1 by done.
  cbn [negb MakeResult transform implementer_]. unfold bind_m at 1. cbn [Parse_loop is_running]. unfold bind_m at 1.
  destruct (ParseValue_reads (mkParser (set_stream s1 d) initial) _ _ (reading_at _ _ H1) eq_refl) as (s2 & H2 & ->).
  change (ParseToken quote) with (ParseString (I := AnyTreeBuilder)). unfold ParseString, and_then, bind_m at 1.
  destruct (ReadJsonString_unicode (with_text s2 [] (mkParser (set_stream s1 d) initial)) w r Hw H2) as (e & p' & ->).
  reflexivity.
Qed.

Lemma control_character_rejected_witness :
  ∃ text, ToBuffer (λ _ _, []) kCompact (String ["001"%char]) = Ret (Value text) ∧
          JsonParser.FromBuffer text = Ret (Unexpected kParsingError).
Proof. apply (control_character_rejected (λ _ _, []) kCompact ["001"%char]). vm_compute. reflexivity. Defined.

Lemma commas_run n c st comma r p :
  c ≠ "k"%char → at_text (stream_ (doc p)) (replicate n ","%char ++ r) →
  Depth.inside c st comma (depth_counter_ (doc p)) →
  ∃ p', runs p p' ∧ at_text (stream_ (doc p')) r ∧ (∃ comma, Depth.inside c st comma (depth_counter_ (doc p'))) ∧
        implementer_ p' = implementer_ p.
Proof.
  intros Hc. revert comma p. induction n as [|n IH]; intros comma p Hs Hd.
  - exists p. split_and!; [apply rtc_refl|done|eauto|done].
  - destruct (comma_token c st comma _ p Hc Hs Hd) as (p1 & Ht & Hs1 & Hd1 & Hi1).
    destruct (IH false p1 Hs1 Hd1) as (p2 & R & Hs2 & Hd2 & Hi2). exists p2.
    split_and!; [by eapply rtc_l|done|done|by rewrite Hi2].
Qed.

(** Commas are accepted without an element between or before them: an
    array of any number of commas reads as the empty array. *)
Theorem commas_without_elements n :
  JsonParser.FromBuffer (s! "[" ++ replicate n ","%char ++ s! "]") = Ret (Value (List [])).
Proof.
  apply FromBuffer_runs; [by eexists _, _|]. intros p Hs Hd Hi.
  destruct (open_array p _ Hs Hd Hi) as (p1 & Ht1 & Hs1 & Hd1 & Hw1).
  destruct (λ Hc, commas_run n "[" _ _ _ p1 Hc Hs1 Hd1) as (p2 & R2 & Hs2 & (comma & Hd2) & Hi2); [done|].
  destruct (close_array p p2 [] comma (List []) Hs2 Hd Hd2) as (p3 & Ht3 & H3); [by rewrite Hi2|].
  exists p3. split; [|done]. eapply rtc_l; [exact Ht1|]. eapply rtc_r; [exact R2|exact Ht3].
Qed.

End JsonRoundTrip.
