(* ===== verification/Base64.v ===== *)
(** * Base64: utils/base64.cpp

    [EncodeBase64] and [DecodeBase64] with their fixed-size buffers.  A byte
    ([std::uint8_t]) is a [Z], a [std::array] is a list whose accesses are
    checked, and the conversions of the source are [static_cast].

    The reference definition [Spec] writes the bits of the input in a row, cuts
    the row into groups of six and pads the text to a multiple of four
    characters, as RFC 4648 describes the encoding.  The theorems: the encoder
    computes this text; the decoder returns on every string, and it inverts the
    encoder. *)

From S2P Require Import Prelude CppInt CppString.

Local Open Scope Z_scope.

Module Base64.

(** ** The source *)

Definition base64_chars : str :=
  s! "ABCDEFGHIJKLMNOPQRSTUVWXYZabcdefghijklmnopqrstuvwxyz0123456789+/".

Definition kEncodeInputBufferSize : nat := 3.
Definition kEncodeOutputBufferSize : nat := 4.
Definition kDecodeInputBufferSize : nat := 4.
Definition kDecodeOutputBufferSize : nat := 3.

(** A [std::array<std::uint8_t, N>] as the list of its elements; an access out
    of its bounds is undefined. *)
Abbreviation buffer := (list Z).

Definition buffer_get (b : buffer) (i : nat) : outcome Z :=
  match b !! i with Some v => Ret v | None => Undefined end.

Definition buffer_set (b : buffer) (i : nat) (v : Z) : outcome buffer :=
  if (i <? length b)%nat then Ret (<[i := v]> b) else Undefined.

(** [std::fill(std::next(std::begin(b), i), std::end(b), v)]. *)
Definition fill_from (b : buffer) (i : nat) (v : Z) : outcome buffer :=
  if (i <=? length b)%nat then Ret (take i b ++ replicate (length b - i) v) else Undefined.

Definition u8 : Z → Z := static_cast uint8_t.

Definition PerformBase64EncodeStep (inputBuffer outputBuffer : buffer) : outcome buffer :=
  in0 ← buffer_get inputBuffer 0; in1 ← buffer_get inputBuffer 1;
  in2 ← buffer_get inputBuffer 2;
  outputBuffer ← buffer_set outputBuffer 0 (u8 (Z.shiftr (Z.land in0 0xFC) 2));
  outputBuffer ← buffer_set outputBuffer 1
    (u8 (u8 (Z.shiftl (Z.land in0 0x03) 4) + u8 (Z.shiftr (Z.land in1 0xF0) 4)));
  outputBuffer ← buffer_set outputBuffer 2
    (u8 (u8 (Z.shiftl (Z.land in1 0x0F) 2) + u8 (Z.shiftr (Z.land in2 0xC0) 6)));
  buffer_set outputBuffer 3 (u8 (Z.land in2 0x3F)).

Definition PerformBase64DecodeStep (inputBuffer outputBuffer : buffer) : outcome buffer :=
  in0 ← buffer_get inputBuffer 0; in1 ← buffer_get inputBuffer 1;
  in2 ← buffer_get inputBuffer 2; in3 ← buffer_get inputBuffer 3;
  outputBuffer ← buffer_set outputBuffer 0
    (u8 (u8 (Z.shiftl in0 2) + u8 (Z.shiftr (Z.land in1 0x30) 4)));
  outputBuffer ← buffer_set outputBuffer 1
    (u8 (u8 (Z.shiftl (Z.land in1 0xF) 4) + u8 (Z.shiftr (Z.land in2 0x3C) 2)));
  buffer_set outputBuffer 2
    (u8 (u8 (Z.shiftl (Z.land in2 0x3) 6) + u8 in3)).

(** [base64_chars\[v\]]: an index past the end of a string view is undefined. *)
Definition base64_char (v : Z) : outcome ascii :=
  match base64_chars !! Z.to_nat v with Some c => Ret c | None => Undefined end.

(** The range-based for of the encoder; the result is the state after it. *)
Fixpoint EncodeBase64_loop (rest : list Z) (ret : str) (inputBuffer outputBuffer : buffer)
    (ind : nat) : outcome (str * buffer * buffer * nat) :=
  match rest with
  | [] => Ret (ret, inputBuffer, outputBuffer, ind)
  | it :: rest =>
      inputBuffer ← buffer_set inputBuffer ind it;
      let ind := S ind in
      if (ind =? kEncodeInputBufferSize)%nat then
        outputBuffer ← PerformBase64EncodeStep inputBuffer outputBuffer;
        chars ← mapM base64_char outputBuffer;
        EncodeBase64_loop rest (ret ++ chars) inputBuffer outputBuffer 0
      else EncodeBase64_loop rest ret inputBuffer outputBuffer ind
  end.

(** What follows the loop: the incomplete group, filled with zeros. *)
Definition EncodeBase64_finish (st : str * buffer * buffer * nat) : outcome str :=
  let '(ret, inputBuffer, outputBuffer, ind) := st in
  if negb (ind =? 0)%nat then
    inputBuffer ← fill_from inputBuffer ind 0;
    outputBuffer ← PerformBase64EncodeStep inputBuffer outputBuffer;
    chars ← mapM base64_char (take (ind + 1) outputBuffer);
    Ret (ret ++ chars ++ replicate (kEncodeInputBufferSize - ind) "="%char)
  else Ret ret.

Definition EncodeBase64 (buffer : list Z) : outcome str :=
  EncodeBase64_loop buffer [] (replicate kEncodeInputBufferSize 0)
    (replicate kEncodeOutputBufferSize 0) 0 ≫= EncodeBase64_finish.

(** [base64_chars.find(c)]; [std::string::npos] is [None]. *)
Definition base64_find (c : ascii) : option nat :=
  fst <$> list_find (λ a, a = c) base64_chars.

Fixpoint DecodeBase64_loop (rest : str) (ret : list Z) (inputBuffer outputBuffer : buffer)
    (ind : nat) : outcome (list Z * buffer * buffer * nat) :=
  match rest with
  | [] => Ret (ret, inputBuffer, outputBuffer, ind)
  | it :: rest =>
      match base64_find it with
      | Some found =>
          inputBuffer ← buffer_set inputBuffer ind (u8 (Z.of_nat found));
          let ind := S ind in
          if (ind =? kDecodeInputBufferSize)%nat then
            outputBuffer ← PerformBase64DecodeStep inputBuffer outputBuffer;
            DecodeBase64_loop rest (ret ++ outputBuffer) inputBuffer outputBuffer 0
          else DecodeBase64_loop rest ret inputBuffer outputBuffer ind
      | None => Ret (ret, inputBuffer, outputBuffer, ind)
      end
  end.

(** What follows the loop: the incomplete group, filled with [0xFF]. *)
Definition DecodeBase64_finish (st : list Z * buffer * buffer * nat) : outcome (list Z) :=
  let '(ret, inputBuffer, outputBuffer, ind) := st in
  if negb (ind =? 0)%nat then
    inputBuffer ← fill_from inputBuffer ind 0xFF;
    outputBuffer ← PerformBase64DecodeStep inputBuffer outputBuffer;
    Ret (ret ++ take (ind - 1) outputBuffer)
  else Ret ret.

Definition DecodeBase64 (encoded_string : str) : outcome (list Z) :=
  DecodeBase64_loop encoded_string [] (replicate kDecodeInputBufferSize 0)
    (replicate kDecodeOutputBufferSize 0) 0 ≫= DecodeBase64_finish.

(** ** Reference definition *)

Module Spec.

(** The bits of a byte, the most significant one first. *)
Definition byte_bits (b : Z) : list bool :=
  Z.testbit b <$> [7; 6; 5; 4; 3; 2; 1; 0].

Definition bits_value (l : list bool) : Z :=
  foldl (λ acc b, 2 * acc + Z.b2z b) 0 l.

(** Cuts a row of bits into groups of six, the last one padded with zeros. *)
Fixpoint sextets (row : list bool) : list Z :=
  match row with
  | [] => []
  | b1 :: b2 :: b3 :: b4 :: b5 :: b6 :: row => bits_value [b1; b2; b3; b4; b5; b6] :: sextets row
  | row => [bits_value (row ++ replicate (6 - length row) false)]
  end.

Definition digit (v : Z) : ascii := nth (Z.to_nat v) base64_chars "="%char.

(** The characters that complete the last group of four. *)
Definition padding (bytes : nat) : str :=
  replicate ((3 - bytes mod 3) mod 3) "="%char.

Definition encode (bytes : list Z) : str :=
  (digit <$> sextets (bytes ≫= byte_bits)) ++ padding (length bytes).

(** The values of the characters up to the first one outside the alphabet. *)
Fixpoint values (text : str) : list Z :=
  match text with
  | [] => []
  | c :: text =>
      match base64_find c with Some n => Z.of_nat n :: values text | None => [] end
  end.

Definition sextet_bits (v : Z) : list bool :=
  Z.testbit v <$> [5; 4; 3; 2; 1; 0].

(** The complete groups of eight bits. *)
Fixpoint octets (row : list bool) : list Z :=
  match row with
  | b1 :: b2 :: b3 :: b4 :: b5 :: b6 :: b7 :: b8 :: row =>
      bits_value [b1; b2; b3; b4; b5; b6; b7; b8] :: octets row
  | _ => []
  end.

Definition decode (text : str) : list Z :=
  octets (values text ≫= sextet_bits).

End Spec.

Definition byte (b : Z) : Prop := in_range uint8_t b.

(** ** Lemmas *)

(** A statement on all numbers below a bound, decided by evaluation. *)
Lemma below_eq (n : Z) (f g : Z → Z) :
  forallb (λ b, f b =? g b) (seqZ 0 n) = true → ∀ b, 0 <= b < n → f b = g b.
Proof.
  intros H b Hb. rewrite forallb_forall in H. apply Z.eqb_eq, H.
  apply list_elem_of_In, elem_of_seqZ. lia.
Qed.

Lemma byte_range b : byte b ↔ 0 <= b < 256.
Proof. unfold byte, in_range. cbv [lowest max digits is_signed bits]. lia. Qed.

Lemma u8_id b : 0 <= b < 256 → u8 b = b.
Proof. intros Hb. by apply static_cast_id, byte_range. Qed.

(** Proves an equation in the bounded variable [x]. *)
Ltac below n x :=
  lazymatch goal with
  | |- ?l = ?r =>
      let f := eval pattern x in l in
      let g := eval pattern x in r in
      lazymatch f with ?f _ =>
      lazymatch g with ?g _ => apply (below_eq n f g); [vm_compute; reflexivity|lia] end end
  end.
Ltac u8_arith := rewrite ?u8_id by (Z.to_euclidean_division_equations; lia).

Lemma encode_step a b c outputBuffer :
  byte a → byte b → byte c → length outputBuffer = 4%nat →
  PerformBase64EncodeStep [a; b; c] outputBuffer
  = Ret [a / 4; a mod 4 * 16 + b / 16; b mod 16 * 4 + c / 64; c mod 64].
Proof.
  rewrite !byte_range. intros Ha Hb Hc Hl. destruct outputBuffer as [|? [|? [|? [|? []]]]]; try done.
  assert (u8 (Z.shiftr (Z.land a 0xFC) 2) = a / 4) as E0 by below 256 a.
  assert (u8 (Z.shiftl (Z.land a 0x03) 4) = a mod 4 * 16) as E1 by below 256 a.
  assert (u8 (Z.shiftr (Z.land b 0xF0) 4) = b / 16) as E2 by below 256 b.
  assert (u8 (Z.shiftl (Z.land b 0x0F) 2) = b mod 16 * 4) as E3 by below 256 b.
  assert (u8 (Z.shiftr (Z.land c 0xC0) 6) = c / 64) as E4 by below 256 c.
  assert (u8 (Z.land c 0x3F) = c mod 64) as E5 by below 256 c.
  cbn -[u8 Z.shiftr Z.shiftl Z.land Z.div Z.modulo Z.mul Z.add].
  rewrite E0, E1, E2, E3, E4, E5. u8_arith. done.
Qed.

Definition sextet (v : Z) : Prop := 0 <= v < 64.

(** The first [k - 1] bytes of a step depend on the first [k] values only. *)
Lemma decode_step v0 v1 v2 v3 outputBuffer :
  sextet v0 → length outputBuffer = 3%nat →
  ∃ o0 o1 o2, PerformBase64DecodeStep [v0; v1; v2; v3] outputBuffer = Ret [o0; o1; o2]
  ∧ (sextet v1 → o0 = v0 * 4 + v1 / 16)
  ∧ (sextet v1 → sextet v2 → o1 = v1 mod 16 * 16 + v2 / 4)
  ∧ (sextet v2 → sextet v3 → o2 = v2 mod 4 * 64 + v3).
Proof.
  unfold sextet. intros H0 Hl. destruct outputBuffer as [|? [|? [|? []]]]; try done.
  do 3 eexists. split; [reflexivity|]. split; [|split]; intros.
  - assert (u8 (Z.shiftl v0 2) = v0 * 4) as -> by below 64 v0.
    assert (u8 (Z.shiftr (Z.land v1 0x30) 4) = v1 / 16) as -> by below 64 v1. by u8_arith.
  - assert (u8 (Z.shiftl (Z.land v1 0xF) 4) = v1 mod 16 * 16) as -> by below 64 v1.
    assert (u8 (Z.shiftr (Z.land v2 0x3C) 2) = v2 / 4) as -> by below 64 v2. by u8_arith.
  - assert (u8 (Z.shiftl (Z.land v2 0x3) 6) = v2 mod 4 * 64) as -> by below 64 v2.
    rewrite (u8_id v3) by lia. by u8_arith.
Qed.

Lemma base64_char_digit v : sextet v → base64_char v = Ret (Spec.digit v).
Proof.
  unfold sextet, base64_char, Spec.digit. intros Hv.
  destruct (base64_chars !! Z.to_nat v) as [c|] eqn:E.
  - by rewrite (nth_lookup_Some _ _ _ _ E).
  - apply lookup_ge_None in E. change (length base64_chars) with 64%nat in E. lia.
Qed.

Lemma base64_find_digit v : sextet v → base64_find (Spec.digit v) = Some (Z.to_nat v).
Proof.
  intros Hv. pose proof (below_eq 64 (λ v, from_option Z.of_nat (-1) (base64_find (Spec.digit v)))
    (λ v, v) ltac:(vm_compute; reflexivity) v Hv) as E. cbn beta in E. unfold sextet in Hv.
  destruct (base64_find _) as [n|]; simpl in E; [f_equal|]; lia.
Qed.

Lemma base64_find_sextet c n : base64_find c = Some n → sextet (Z.of_nat n).
Proof.
  unfold base64_find, sextet. intros ([i d] & (Hl & _)%list_find_Some & ->)%fmap_Some.
  apply lookup_lt_Some in Hl. change (length base64_chars) with 64%nat in Hl. simpl. lia.
Qed.

(** Induction over groups of three and of four elements. *)
Lemma list_ind3 {A} (P : list A → Prop) :
  P [] → (∀ a, P [a]) → (∀ a b, P [a; b]) →
  (∀ a b c l, P l → P (a :: b :: c :: l)) → ∀ l, P l.
Proof.
  intros H0 H1 H2 H3. fix IH 1. intros [|a [|b [|c l]]]; [done|auto..|apply H3, IH].
Qed.

Lemma list_ind4 {A} (P : list A → Prop) :
  P [] → (∀ a, P [a]) → (∀ a b, P [a; b]) → (∀ a b c, P [a; b; c]) →
  (∀ a b c d l, P l → P (a :: b :: c :: d :: l)) → ∀ l, P l.
Proof.
  intros H0 H1 H2 H3 H4. fix IH 1. intros [|a [|b [|c [|d l]]]]; [done|auto..|apply H4, IH].
Qed.

(** The four values of a group. *)
Definition group (a b c : Z) : list Z :=
  [a / 4; a mod 4 * 16 + b / 16; b mod 16 * 4 + c / 64; c mod 64].

Lemma group_sextets a b c : byte a → byte b → byte c → Forall sextet (group a b c).
Proof.
  rewrite !byte_range. intros. unfold group, sextet.
  repeat constructor; Z.to_euclidean_division_equations; lia.
Qed.

Lemma mapM_base64_char l : Forall sextet l → mapM base64_char l = Ret (Spec.digit <$> l).
Proof.
  induction 1 as [|v l Hv _ IH]; [done|]. simpl. by rewrite base64_char_digit, IH.
Qed.

Lemma bits_value_app l1 l2 :
  Spec.bits_value (l1 ++ l2) = Spec.bits_value l1 * 2 ^ Z.of_nat (length l2) + Spec.bits_value l2.
Proof.
  unfold Spec.bits_value. induction l2 as [|b l2 IH] using rev_ind.
  - rewrite app_nil_r. simpl. lia.
  - rewrite app_assoc, !(foldl_app _ _ [b]), IH. simpl. rewrite length_app, Nat2Z.inj_add, Z.pow_add_r by lia.
    simpl. lia.
Qed.

(** The groups of six bits of three bytes are the values of the group. *)
Lemma byte_bits_group a b c row :
  byte a → byte b → byte c →
  Spec.sextets (Spec.byte_bits a ++ Spec.byte_bits b ++ Spec.byte_bits c ++ row)
  = group a b c ++ Spec.sextets row.
Proof.
  rewrite !byte_range. intros. unfold Spec.byte_bits. cbn [fmap list_fmap app Spec.sextets].
  unfold group. cbn [app]. f_equal; [|f_equal; [|f_equal; [|f_equal]]].
  - below 256 a.
  - etrans; [apply (bits_value_app [_; _] [_; _; _; _])|]. f_equal; [below 256 a|below 256 b].
  - etrans; [apply (bits_value_app [_; _; _; _] [_; _])|]. f_equal; [below 256 b|below 256 c].
  - below 256 c.
Qed.

Lemma byte_bits_tail1 a : byte a → Spec.sextets (Spec.byte_bits a) = take 2 (group a 0 0).
Proof.
  rewrite byte_range. intros. unfold Spec.byte_bits.
  cbn [fmap list_fmap app Spec.sextets group take replicate length Nat.sub].
  f_equal; [|f_equal]; below 256 a.
Qed.

Lemma byte_bits_tail2 a b :
  byte a → byte b → Spec.sextets (Spec.byte_bits a ++ Spec.byte_bits b) = take 3 (group a b 0).
Proof.
  rewrite !byte_range. intros. unfold Spec.byte_bits.
  cbn [fmap list_fmap app Spec.sextets group take replicate length Nat.sub].
  f_equal; [|f_equal; [|f_equal]].
  - below 256 a.
  - etrans; [apply (bits_value_app [_; _] [_; _; _; _])|]. f_equal; [below 256 a|below 256 b].
  - below 256 b.
Qed.

Lemma encode_loop_group a b c rest ret inputBuffer outputBuffer :
  byte a → byte b → byte c → length inputBuffer = 3%nat → length outputBuffer = 4%nat →
  EncodeBase64_loop (a :: b :: c :: rest) ret inputBuffer outputBuffer 0
  = EncodeBase64_loop rest (ret ++ (Spec.digit <$> group a b c)) [a; b; c] (group a b c) 0.
Proof.
  intros Ha Hb Hc Hi Ho. destruct inputBuffer as [|? [|? [|? []]]]; try done.
  cbn -[PerformBase64EncodeStep EncodeBase64_loop mapM group]. cbn [EncodeBase64_loop].
  cbn -[PerformBase64EncodeStep EncodeBase64_loop mapM group].
  rewrite encode_step by done. cbn -[EncodeBase64_loop mapM group].
  by rewrite mapM_base64_char by by apply group_sextets.
Qed.

(** The incomplete group of the encoder: [k] bytes give [k + 1] characters. *)
Lemma encode_finish_group a b k ret i2 outputBuffer :
  byte a → byte b → k = 1%nat ∧ b = 0 ∨ k = 2%nat → length outputBuffer = 4%nat →
  ∀ i1, (k = 2%nat → i1 = b) →
  EncodeBase64_finish (ret, [a; i1; i2], outputBuffer, k)
  = Ret (ret ++ (Spec.digit <$> take (k + 1) (group a b 0)) ++ replicate (3 - k) "="%char).
Proof.
  intros Ha Hb Hk Ho i1 Hi1.
  assert (fill_from [a; i1; i2] k 0 = Ret [a; b; 0]) as E.
  { destruct Hk as [[-> ->]| ->]; [done|]. by rewrite Hi1. }
  unfold EncodeBase64_finish. rewrite (proj2 (Nat.eqb_neq k 0)) by lia. cbn [negb].
  rewrite E. cbn [mbind outcome_bind]. rewrite encode_step by done.
  cbn [mbind outcome_bind]. fold (group a b 0).
  rewrite mapM_base64_char by by apply Forall_take, group_sextets. done.
Qed.

(** The loop and what follows it, from any state at the start of a group. *)
Lemma encode_from rest :
  Forall byte rest → ∀ ret inputBuffer outputBuffer,
  length inputBuffer = 3%nat → length outputBuffer = 4%nat →
  EncodeBase64_loop rest ret inputBuffer outputBuffer 0 ≫= EncodeBase64_finish
  = Ret (ret ++ Spec.encode rest).
Proof.
  assert (byte 0) as H0 by by apply byte_range.
  induction rest as [|a|a b|a b c rest IH] using list_ind3; intros Hr ret ib ob Hi Ho;
    rewrite ?Forall_cons in Hr.
  - simpl. by rewrite app_nil_r.
  - destruct ib as [|i0 [|i1 [|i2 []]]]; try done. destruct Hr as [Ha _].
    change (EncodeBase64_finish (ret, [a; i1; i2], ob, 1%nat) = Ret (ret ++ Spec.encode [a])).
    rewrite (encode_finish_group a 0) by (done || auto).
    unfold Spec.encode. cbn [mbind list_bind]. by rewrite app_nil_r, byte_bits_tail1.
  - destruct ib as [|i0 [|i1 [|i2 []]]]; try done. destruct Hr as (Ha & Hb & _).
    change (EncodeBase64_finish (ret, [a; b; i2], ob, 2%nat) = Ret (ret ++ Spec.encode [a; b])).
    rewrite (encode_finish_group a b) by (done || auto).
    unfold Spec.encode. cbn [mbind list_bind]. by rewrite app_nil_r, byte_bits_tail2.
  - destruct Hr as (Ha & Hb & Hc & Hr). rewrite encode_loop_group by done.
    rewrite IH by done. rewrite <- (assoc_L (++)). do 2 f_equal. unfold Spec.encode.
    cbn [mbind list_bind]. rewrite byte_bits_group by done.
    rewrite fmap_app, <- (assoc_L (++)). do 2 f_equal. unfold Spec.padding.
    cbn [length]. do 3 f_equal. rewrite <- (Nat.Div0.mod_add (length rest) 1 3). f_equal. lia.
Qed.

(** ** Decoding *)

Lemma octet0 v0 v1 :
  sextet v0 → sextet v1 →
  Spec.bits_value (Spec.sextet_bits v0 ++ take 2 (Spec.sextet_bits v1)) = v0 * 4 + v1 / 16.
Proof.
  unfold sextet. intros. rewrite bits_value_app. f_equal; [below 64 v0|below 64 v1].
Qed.

Lemma octet1 v1 v2 :
  sextet v1 → sextet v2 →
  Spec.bits_value (drop 2 (Spec.sextet_bits v1) ++ take 4 (Spec.sextet_bits v2))
  = v1 mod 16 * 16 + v2 / 4.
Proof.
  unfold sextet. intros. rewrite bits_value_app. f_equal; [below 64 v1|below 64 v2].
Qed.

Lemma octet2 v2 v3 :
  sextet v2 → sextet v3 →
  Spec.bits_value (drop 4 (Spec.sextet_bits v2) ++ Spec.sextet_bits v3) = v2 mod 4 * 64 + v3.
Proof.
  unfold sextet. intros. rewrite bits_value_app. f_equal; [below 64 v2|below 64 v3].
Qed.

(** The complete bytes of a group of four, two and three values. *)
Lemma sextet_octets v0 v1 v2 v3 row :
  sextet v0 → sextet v1 → sextet v2 → sextet v3 →
  Spec.octets (Spec.sextet_bits v0 ++ Spec.sextet_bits v1 ++ Spec.sextet_bits v2
    ++ Spec.sextet_bits v3 ++ row)
  = v0 * 4 + v1 / 16 :: v1 mod 16 * 16 + v2 / 4 :: v2 mod 4 * 64 + v3 :: Spec.octets row.
Proof. intros. by rewrite <- octet0, <- octet1, <- octet2. Qed.

Lemma sextet_octets2 v0 v1 :
  sextet v0 → sextet v1 →
  Spec.octets (Spec.sextet_bits v0 ++ Spec.sextet_bits v1) = [v0 * 4 + v1 / 16].
Proof. intros. by rewrite <- octet0. Qed.

Lemma sextet_octets3 v0 v1 v2 :
  sextet v0 → sextet v1 → sextet v2 →
  Spec.octets (Spec.sextet_bits v0 ++ Spec.sextet_bits v1 ++ Spec.sextet_bits v2)
  = [v0 * 4 + v1 / 16; v1 mod 16 * 16 + v2 / 4].
Proof. intros. by rewrite <- octet0, <- octet1. Qed.

Lemma decode_loop_group v0 v1 v2 v3 c0 c1 c2 c3 rest ret inputBuffer outputBuffer :
  base64_find c0 = Some v0 → base64_find c1 = Some v1 →
  base64_find c2 = Some v2 → base64_find c3 = Some v3 →
  length inputBuffer = 4%nat → length outputBuffer = 3%nat →
  ∃ ib ob, length ib = 4%nat ∧ length ob = 3%nat ∧
  DecodeBase64_loop (c0 :: c1 :: c2 :: c3 :: rest) ret inputBuffer outputBuffer 0
  = DecodeBase64_loop rest
      (ret ++ Spec.octets ([Z.of_nat v0; Z.of_nat v1; Z.of_nat v2; Z.of_nat v3]
        ≫= Spec.sextet_bits)) ib ob 0.
Proof.
  intros F0 F1 F2 F3 Hi Ho. destruct inputBuffer as [|? [|? [|? [|? []]]]]; try done.
  pose proof (base64_find_sextet _ _ F0) as S0. pose proof (base64_find_sextet _ _ F1) as S1.
  pose proof (base64_find_sextet _ _ F2) as S2. pose proof (base64_find_sextet _ _ F3) as S3.
  destruct (decode_step (Z.of_nat v0) (Z.of_nat v1) (Z.of_nat v2) (Z.of_nat v3) outputBuffer S0 Ho)
    as (o0 & o1 & o2 & E & E0 & E1 & E2).
  exists [Z.of_nat v0; Z.of_nat v1; Z.of_nat v2; Z.of_nat v3], [o0; o1; o2].
  split; [done|]. split; [done|]. cbn [mbind list_bind]. rewrite sextet_octets by done.
  rewrite <- E0, <- E1, <- E2 by done.
  unfold sextet in *. cbn [DecodeBase64_loop]. rewrite F0, F1, F2, F3, !u8_id by lia.
  cbn -[PerformBase64DecodeStep DecodeBase64_loop]. rewrite E.
  cbn -[PerformBase64DecodeStep DecodeBase64_loop]. done.
Qed.

(** The incomplete group of the decoder: [k] values give [k - 1] bytes, and
    the stale rest of the buffer does not matter. *)
Lemma decode_finish_group (l stale : list Z) ret outputBuffer :
  Forall sextet l → (length l < 4)%nat → length (l ++ stale) = 4%nat →
  length outputBuffer = 3%nat →
  DecodeBase64_finish (ret, l ++ stale, outputBuffer, length l)
  = Ret (ret ++ Spec.octets (l ≫= Spec.sextet_bits)).
Proof.
  intros Hl Hk Hs Ho.
  assert (fill_from (l ++ stale) (length l) 0xFF = Ret (l ++ replicate (4 - length l) 0xFF)) as E.
  { unfold fill_from. rewrite Hs, take_app_length. by rewrite (proj2 (Nat.leb_le _ _)) by lia. }
  unfold DecodeBase64_finish. rewrite E. clear E.
  destruct l as [|v0 [|v1 [|v2 [|v3 l]]]]; simpl in Hk; try lia; rewrite ?Forall_cons in Hl.
  - simpl. by rewrite app_nil_r.
  - destruct (decode_step v0 255 255 255 outputBuffer) as (o0 & o1 & o2 & E & _); [naive_solver..|].
    cbn -[PerformBase64DecodeStep Spec.octets]. rewrite E. by cbn.
  - destruct (decode_step v0 v1 255 255 outputBuffer) as (o0 & o1 & o2 & E & E0 & _); [naive_solver..|].
    cbn [negb Nat.eqb length Nat.sub replicate app mbind outcome_bind list_bind]. rewrite E.
    rewrite app_nil_r, sextet_octets2 by naive_solver. rewrite E0 by naive_solver. done.
  - destruct (decode_step v0 v1 v2 255 outputBuffer) as (o0 & o1 & o2 & E & E0 & E1 & _); [naive_solver..|].
    cbn [negb Nat.eqb length Nat.sub replicate app mbind outcome_bind list_bind]. rewrite E.
    rewrite app_nil_r, sextet_octets3 by naive_solver. rewrite E0, E1 by naive_solver. done.
Qed.

(** Reading a group that remains incomplete, from any state within it. *)
Lemma decode_tail text : ∀ (l stale : list Z) ret outputBuffer,
  Forall sextet l → (length l + length (Spec.values text) < 4)%nat → length (l ++ stale) = 4%nat →
  length outputBuffer = 3%nat →
  DecodeBase64_loop text ret (l ++ stale) outputBuffer (length l) ≫= DecodeBase64_finish
  = Ret (ret ++ Spec.octets ((l ++ Spec.values text) ≫= Spec.sextet_bits)).
Proof.
  induction text as [|c text IH]; intros l stale ret ob Hl Hk Hs Ho;
    cbn [DecodeBase64_loop Spec.values] in *.
  - rewrite app_nil_r. apply decode_finish_group; auto. simpl in Hk; lia.
  - destruct (base64_find c) as [n|] eqn:F; cbn [length] in Hk.
    + pose proof (base64_find_sextet _ _ F) as Hn.
      destruct stale as [|x stale]; [rewrite app_nil_r in Hs; lia|].
      unfold buffer_set. rewrite (proj2 (Nat.ltb_lt _ _)) by (rewrite Hs; lia).
      cbn [mbind outcome_bind]. unfold kDecodeInputBufferSize.
      rewrite (proj2 (Nat.eqb_neq _ _)) by lia.
      rewrite insert_app_r_alt, Nat.sub_diag by lia. cbn [insert list_insert].
      rewrite u8_id by (unfold sextet in Hn; lia).
      specialize (IH (l ++ [Z.of_nat n]) stale ret ob).
      rewrite length_app, <- !(assoc_L (++)), Nat.add_1_r in IH. apply IH; [|simpl; lia|..|done].
      * by apply Forall_app_2; [|apply Forall_singleton].
      * rewrite <- Hs, !length_app. simpl. lia.
    + rewrite app_nil_r. apply decode_finish_group; auto. lia.
Qed.

(** The loop and what follows it, from any state at the start of a group. *)
Lemma decode_from text : ∀ ret inputBuffer outputBuffer,
  length inputBuffer = 4%nat → length outputBuffer = 3%nat →
  DecodeBase64_loop text ret inputBuffer outputBuffer 0 ≫= DecodeBase64_finish
  = Ret (ret ++ Spec.decode text).
Proof.
  induction text as [|c0|c0 c1|c0 c1 c2|c0 c1 c2 c3 text IH] using list_ind4; intros ret ib ob Hi Ho.
  1-4: lazymatch goal with |- DecodeBase64_loop ?t _ _ _ _ ≫= _ = _ =>
         apply (decode_tail t [] ib ret ob) end; try done; simpl; repeat case_match; simpl; lia.
  destruct (decide (length (Spec.values (c0 :: c1 :: c2 :: c3 :: text)) < 4)%nat) as [|Hv];
    [by apply (decode_tail (c0 :: c1 :: c2 :: c3 :: text) [] ib ret ob)|].
  unfold Spec.decode. cbn [Spec.values] in Hv |- *.
  destruct (base64_find c0) as [v0|] eqn:F0; [|simpl in Hv; lia].
  destruct (base64_find c1) as [v1|] eqn:F1; [|simpl in Hv; lia].
  destruct (base64_find c2) as [v2|] eqn:F2; [|simpl in Hv; lia].
  destruct (base64_find c3) as [v3|] eqn:F3; [|simpl in Hv; lia].
  destruct (decode_loop_group _ _ _ _ _ _ _ _ text ret ib ob F0 F1 F2 F3 Hi Ho)
    as (ib' & ob' & Hi' & Ho' & ->).
  rewrite IH by done. rewrite <- (assoc_L (++)). by do 2 f_equal.
Qed.

(** ** Encoding is injective *)

Lemma row_ind (P : list bool → Prop) :
  (∀ row, (length row < 6)%nat → P row) →
  (∀ b1 b2 b3 b4 b5 b6 row, P row → P (b1 :: b2 :: b3 :: b4 :: b5 :: b6 :: row)) →
  ∀ row, P row.
Proof.
  intros H0 H1. fix IH 1. intros [|b1 [|b2 [|b3 [|b4 [|b5 [|b6 row]]]]]];
    [apply H0; simpl; lia..|apply H1, IH].
Qed.

Lemma sextet_bits_value b1 b2 b3 b4 b5 b6 :
  sextet (Spec.bits_value [b1; b2; b3; b4; b5; b6]) ∧
  Spec.sextet_bits (Spec.bits_value [b1; b2; b3; b4; b5; b6]) = [b1; b2; b3; b4; b5; b6].
Proof. destruct b1, b2, b3, b4, b5, b6; done. Qed.

(** The values of a row of bits give the row back, filled up with zeros. *)
Lemma sextets_row row :
  Forall sextet (Spec.sextets row) ∧
  ∃ n, (n < 6)%nat ∧ Spec.sextets row ≫= Spec.sextet_bits = row ++ replicate n false.
Proof.
  induction row as [row Hr|b1 b2 b3 b4 b5 b6 row (IHf & n & Hn & IH)] using row_ind.
  - destruct row as [|b1 row]; [split; [done|]; by exists 0%nat|].
    assert (Spec.sextets (b1 :: row)
      = [Spec.bits_value ((b1 :: row) ++ replicate (6 - length (b1 :: row)) false)]) as ->.
    { destruct row as [|b2 [|b3 [|b4 [|b5 [|b6 row]]]]]; try done. simpl in Hr; lia. }
    set (n := (6 - length (b1 :: row))%nat).
    assert (∃ b2 b3 b4 b5 b6, (b1 :: row) ++ replicate n false = [b1; b2; b3; b4; b5; b6])
      as (b2 & b3 & b4 & b5 & b6 & E).
    { destruct row as [|b2 [|b3 [|b4 [|b5 [|b6 row]]]]]; simpl in Hr; try lia; cbn; by eauto 6. }
    destruct (sextet_bits_value b1 b2 b3 b4 b5 b6) as [Hs Hb].
    rewrite E. split; [by constructor|]. exists n. split; [simpl in n; lia|].
    cbn [mbind list_bind]. by rewrite Hb, E.
  - destruct (sextet_bits_value b1 b2 b3 b4 b5 b6) as [Hs Hb]. cbn [Spec.sextets].
    split; [by constructor|]. exists n. split; [done|]. cbn [mbind list_bind]. by rewrite Hb, IH.
Qed.

(** Bytes give their bits, and the bits the bytes. *)
Lemma octets_bytes_app bytes row :
  Forall byte bytes → Spec.octets ((bytes ≫= Spec.byte_bits) ++ row) = bytes ++ Spec.octets row.
Proof.
  intros Hb. induction Hb as [|b bytes Hb _ IH]; [done|].
  cbn [mbind list_bind]. rewrite <- (assoc_L (++)). unfold Spec.byte_bits at 1.
  cbn [fmap list_fmap app Spec.octets]. f_equal; [|done].
  apply byte_range in Hb. below 256 b.
Qed.

Lemma values_digits l rest :
  Forall sextet l → Spec.values ((Spec.digit <$> l) ++ rest) = l ++ Spec.values rest.
Proof.
  intros Hl. induction Hl as [|v l Hv _ IH]; [done|].
  cbn [fmap list_fmap app Spec.values]. rewrite base64_find_digit, IH by done. f_equal. unfold sextet in Hv. lia.
Qed.

Lemma values_padding n : Spec.values (Spec.padding n) = [].
Proof. unfold Spec.padding. by destruct (_ mod 3)%nat. Qed.

(** The characters of the encoding may be followed by any text that starts
    outside the alphabet. *)
Lemma digits_decode bytes rest :
  Forall byte bytes → Spec.values rest = [] →
  Spec.decode ((Spec.digit <$> Spec.sextets (bytes ≫= Spec.byte_bits)) ++ rest) = bytes.
Proof.
  intros Hb Hr. unfold Spec.decode.
  destruct (sextets_row (bytes ≫= Spec.byte_bits)) as (Hs & n & Hn & E).
  rewrite values_digits, Hr, app_nil_r, E, octets_bytes_app by done.
  do 6 (destruct n as [|n]; [by rewrite app_nil_r|]). lia.
Qed.

Lemma filter_id {A} (P : A → Prop) `{∀ x, Decision (P x)} l : Forall P l → filter P l = l.
Proof. induction 1 as [|x l Hx _ IH]; [done|]. by rewrite filter_cons_True, IH. Qed.

Lemma remove_padding bytes :
  filter (.≠ "="%char) (Spec.encode bytes) = Spec.digit <$> Spec.sextets (bytes ≫= Spec.byte_bits).
Proof.
  unfold Spec.encode, Spec.padding. rewrite filter_app.
  destruct (sextets_row (bytes ≫= Spec.byte_bits)) as (Hs & _).
  assert (∀ n, filter (.≠ "="%char) (replicate n "="%char) = []) as ->
    by (intros n; by induction n).
  rewrite app_nil_r. apply filter_id, Forall_fmap.
  eapply Forall_impl; [done|]. intros v Hv%base64_find_digit Heq. simpl in Heq.
  by rewrite Heq in Hv.
Qed.

Lemma EncodeBase64_encode bytes : Forall byte bytes → EncodeBase64 bytes = Ret (Spec.encode bytes).
Proof. intros Hb. by apply (encode_from bytes Hb []). Qed.

Lemma DecodeBase64_decode text : DecodeBase64 text = Ret (Spec.decode text).
Proof. by apply (decode_from text []). Qed.

Lemma sextets_length row : length (Spec.sextets row) = ((length row + 5) / 6)%nat.
Proof.
  induction row as [row Hr|b1 b2 b3 b4 b5 b6 row IH] using row_ind.
  - by destruct row as [|b1 [|b2 [|b3 [|b4 [|b5 [|]]]]]]; simpl in Hr; try lia.
  - cbn [Spec.sextets length]. rewrite IH, <- (Nat.div_add_l 1 6) by done. f_equal; lia.
Qed.

Lemma bind_bits_length {A} (f : A → list bool) k l :
  (∀ a, length (f a) = k) → length (l ≫= f) = (length l * k)%nat.
Proof.
  intros Hf. induction l as [|a l IH]; [done|].
  change ((a :: l) ≫= f) with (f a ++ (l ≫= f)). rewrite length_app, Hf, IH. simpl. lia.
Qed.

Lemma encode_length bytes : length (Spec.encode bytes) = ((length bytes + 2) / 3 * 4)%nat.
Proof.
  unfold Spec.encode, Spec.padding.
  rewrite length_app, length_fmap, sextets_length, (bind_bits_length _ 8), length_replicate by done.
  generalize (length bytes). intros n.
  apply Nat2Z.inj. rewrite !Nat2Z.inj_add, Nat2Z.inj_mul, !Nat2Z.inj_div, Nat2Z.inj_mod, Nat2Z.inj_sub,
    Nat2Z.inj_mod by (pose proof (Nat.mod_upper_bound n 3); lia).
  rewrite !Nat2Z.inj_add, Nat2Z.inj_mul. Z.to_euclidean_division_equations; lia.
Qed.

(** Text after an encoding. *)
Lemma decode_followed bytes rest : Forall byte bytes →
  Spec.decode (Spec.encode bytes ++ rest) =
    if decide (length bytes mod 3 = 0)%nat then bytes ++ Spec.decode rest else bytes.
Proof.
  intros Hb. unfold Spec.encode. rewrite <- (assoc_L (++)). case_decide as Hn.
  - assert (Spec.padding (length bytes) = []) as -> by (unfold Spec.padding; by rewrite Hn).
    unfold Spec.decode. destruct (sextets_row (bytes ≫= Spec.byte_bits)) as (Hs & n & Hlt & E).
    assert (n = 0%nat) as ->.
    { apply (f_equal length) in E. rewrite (bind_bits_length _ 6), length_app, length_replicate, sextets_length,
        (bind_bits_length _ 8) in E by done.
      apply Nat.Div0.mod_divides in Hn as [j Hj]. rewrite Hj in E.
      replace (3 * j * 8 + 5)%nat with (4 * j * 6 + 5)%nat in E by lia. rewrite Nat.div_add_l in E by done. simpl in E. lia. }
    rewrite app_nil_r in E. cbn [app]. by rewrite values_digits, bind_app, E, octets_bytes_app.
  - apply digits_decode; [done|]. unfold Spec.padding.
    pose proof (Nat.mod_upper_bound (length bytes) 3). by destruct (length bytes mod 3)%nat as [|[|[|]]]; try lia.
Qed.

(** ** Properties *)

(** The encoder returns the text of RFC 4648 for every sequence of bytes:
    the bits in a row, six bits to a character of the alphabet, filled up with
    zeros, and as many padding characters as complete the last group of four.
    No access leaves a buffer or the alphabet, and the text has exactly the
    length for which the code reserves space. *)
Theorem encode_base64_spec (bytes : list Z) :
  Forall byte bytes →
  EncodeBase64 bytes = Ret (Spec.encode bytes)
  ∧ length (Spec.encode bytes)
    = ((length bytes + 2) / kEncodeInputBufferSize * kEncodeOutputBufferSize)%nat.
Proof. auto using EncodeBase64_encode, encode_length. Qed.

Lemma encode_base64_spec_witness :
  EncodeBase64 [0x66; 0x6F; 0x6F; 0x62] = Ret (s! "Zm9vYg==")
  ∧ length (Spec.encode [0x66; 0x6F; 0x6F; 0x62]) = 8%nat.
Proof.
  apply (encode_base64_spec [0x66; 0x6F; 0x6F; 0x62]).
  repeat constructor; by apply byte_range.
Defined.

(** The decoder returns for every string whatsoever, without an access out
    of its buffers.  It reads up to the first character outside the alphabet,
    writes the bits of the characters in a row, and returns the complete bytes
    of this row; an incomplete group and everything after the first foreign
    character are dropped without an error. *)
Theorem decode_base64_spec (text : str) :
  DecodeBase64 text = Ret (Spec.octets (Spec.values text ≫= Spec.sextet_bits)).
Proof. apply DecodeBase64_decode. Qed.

(** C39: decoding what the encoder returned gives the bytes back, also when the
    padding is missing.  Whatever text follows: it is ignored if the encoding ends
    with padding, and else its own bytes follow, none if it starts outside the
    alphabet. *)
Theorem base64_round_trip (bytes : list Z) (rest : str) :
  Forall byte bytes →
  ∃ text, EncodeBase64 bytes = Ret text
  ∧ DecodeBase64 text = Ret bytes
  ∧ DecodeBase64 (filter (.≠ "="%char) text) = Ret bytes
  ∧ DecodeBase64 (text ++ rest) =
      (if decide (length bytes mod 3 = 0)%nat then others ← DecodeBase64 rest; Ret (bytes ++ others) else Ret bytes).
Proof.
  intros Hb. exists (Spec.encode bytes). rewrite remove_padding, !DecodeBase64_decode, decode_followed by done.
  pose proof (digits_decode bytes [] Hb eq_refl) as E. rewrite app_nil_r in E. rewrite E.
  unfold Spec.encode. rewrite digits_decode by (done || by rewrite values_padding). split_and!; [|done..|by case_decide].
  by rewrite EncodeBase64_encode.
Qed.

Lemma base64_round_trip_witness :
  DecodeBase64 (s! "Zm9vAAAA") = Ret [0x66; 0x6F; 0x6F; 0; 0; 0]
  ∧ ∃ text, EncodeBase64 [0x66; 0x6F; 0x6F] = Ret text ∧ DecodeBase64 (text ++ s! "AAAA") = DecodeBase64 (s! "Zm9vAAAA").
Proof.
  split; [vm_compute; reflexivity|].
  destruct (base64_round_trip [0x66; 0x6F; 0x6F] (s! "AAAA")) as (text & E & _ & _ & H).
  { repeat constructor; by apply byte_range. }
  exists text. split; [exact E|]. rewrite H. vm_compute. reflexivity.
Defined.

End Base64.
