(* ===== verification/Ipv4Address.v ===== *)
(** * Network addresses: network/ipv4_address.cpp, sock_async/net_endpoint.cpp

    Addresses with their network prefix, from and to texts, bytes and 32-bit
    integers, and the endpoints made of an address and a port.  The order of the
    bytes of an integer in memory is an argument ([little_endian], the result of
    [IsLittleEndian]). *)

From S2P Require Import Prelude CppInt CppString CppFloat JsonWriter.
Import CppFloat JsonWriter.

Module Ipv4Address.

Local Open Scope Z_scope.

Definition kMaxNetMask : Z := 32.
Definition kDefaultNetMask : Z := 24.
Definition kIpv4AddressLength : nat := 4.

Record Ipv4Address := { ipv4_address_bytes_ : list Z; ipv4_netmask_ : Z }.

(** [Ipv4Address()] *)
Definition default_address : Ipv4Address := {| ipv4_address_bytes_ := [0; 0; 0; 0]; ipv4_netmask_ := kDefaultNetMask |}.

Definition IsValid (a : Ipv4Address) : bool := existsb (λ b, negb (b =? 0)) (ipv4_address_bytes_ a).

Definition SetNetmask (netmask : Z) (a : Ipv4Address) : Ipv4Address :=
  {| ipv4_address_bytes_ := ipv4_address_bytes_ a;
     ipv4_netmask_ := if IsValid a && (netmask <=? kMaxNetMask) then netmask else kMaxNetMask |}.

(** ** From a text *)

Definition is_digit_char (c : ascii) : bool := (48 <=? char_code c) && (char_code c <=? 57).

Fixpoint read_group (s : str) : str * str :=
  match s with
  | c :: s' => if is_digit_char c then let '(d, r) := read_group s' in (c :: d, r) else ([], s)
  | [] => ([], [])
  end.

(** [([[:digit:]]{1,n})], followed by something that is no digit. *)
Definition match_digits (n : nat) (s : str) : option (str * str) :=
  let '(d, r) := read_group s in
  if decide (1 ≤ length d ≤ n)%nat then Some (d, r) else None.

Definition match_char (c : ascii) (s : str) : option str :=
  match s with c' :: s' => if decide (c' = c) then Some s' else None | [] => None end.

(** [std::regex_search] with the pattern of the constructor, in which [^] and [$]
    match the ends of the text: the groups, of which the last one may be empty.
    What follows a group of digits is no digit, so there is one way to match. *)
Definition regex_search (s : str) : option (list str * str) :=
  '(m1, s) ← match_digits 3 s; s ← match_char "."%char s;
  '(m2, s) ← match_digits 3 s; s ← match_char "."%char s;
  '(m3, s) ← match_digits 3 s; s ← match_char "."%char s;
  '(m4, s) ← match_digits 3 s;
  match s with
  | [] => Some ([m1; m2; m3; m4], [])
  | _ =>
      s ← match_char "/"%char s;
      '(m5, s) ← match_digits 2 s;
      match s with [] => Some ([m1; m2; m3; m4], m5) | _ => None end
  end.

(** [std::strtol(s, &end, 10)]: the value and what was not read. *)
Definition strtol (s : str) : Z * str :=
  let '(negative, digits) := read_sign (skip_space s) in
  let '(v, n, rest) := read_digits 10 0 0 digits in
  if (n =? 0)%nat then (0, s)
  else (Z.max (lowest int64_t) (Z.min (max int64_t) (if negative then - v else v)), rest).

(** Whether the text is a number that is allowed, and the byte, which is
    assigned in any case. *)
Definition ParseByte (byte_str : str) (max_allowed_value : Z) : bool * Z :=
  let '(int_value, end_) := strtol byte_str in
  (bool_decide (end_ = []) && ((0 <=? int_value) && (int_value <=? max_allowed_value)), static_cast uint8_t int_value).

(** The four bytes, [None] as soon as one of them is wrong. *)
Fixpoint ParseBytes (texts : list str) : option (list Z) :=
  match texts with
  | [] => Some []
  | text :: texts =>
      let '(ok, byte) := ParseByte text (max uint8_t) in
      if ok then bytes ← ParseBytes texts; Some (byte :: bytes) else None
  end.

Definition from_string (address : str) : Ipv4Address :=
  match regex_search address with
  | None => default_address
  | Some (groups, m5) =>
      let a := {| ipv4_address_bytes_ := default [0; 0; 0; 0] (ParseBytes groups); ipv4_netmask_ := kDefaultNetMask |} in
      match m5 with
      | [] => SetNetmask kDefaultNetMask a
      | _ =>
          let '(ok, netmask) := ParseByte m5 kMaxNetMask in
          let a := {| ipv4_address_bytes_ := ipv4_address_bytes_ a; ipv4_netmask_ := netmask |} in
          if ok then a else SetNetmask kDefaultNetMask a
      end
  end.

(** ** From bytes and integers *)

Definition from_array (address : list Z) (netmask : Z) : Ipv4Address :=
  SetNetmask netmask {| ipv4_address_bytes_ := address; ipv4_netmask_ := kDefaultNetMask |}.

Definition from_vector (address : list Z) (netmask : Z) : Ipv4Address :=
  if decide (length address = kIpv4AddressLength) then from_array address netmask else default_address.

Definition from_bytes (byte1 byte2 byte3 byte4 prefix : Z) : Ipv4Address :=
  SetNetmask prefix {| ipv4_address_bytes_ := [byte1; byte2; byte3; byte4]; ipv4_netmask_ := kDefaultNetMask |}.

Definition SelectByteLE (address byte_position : Z) : Z :=
  static_cast uint8_t (Z.land (Z.shiftr address (byte_position * 8)) 0xFF).

Definition CreateFromUint32BE (address prefix : Z) : Ipv4Address :=
  from_bytes (SelectByteLE address 0) (SelectByteLE address 1) (SelectByteLE address 2) (SelectByteLE address 3) prefix.

Definition CreateFromUint32LE (address prefix : Z) : Ipv4Address :=
  from_bytes (SelectByteLE address 3) (SelectByteLE address 2) (SelectByteLE address 1) (SelectByteLE address 0) prefix.

Definition CreateFromUint32NetOrder : Z → Z → Ipv4Address := CreateFromUint32BE.

Definition CreateFromUint32HostOrder (little_endian : bool) (address prefix : Z) : Ipv4Address :=
  if little_endian then CreateFromUint32LE address prefix else CreateFromUint32BE address prefix.

(** The bytes of an integer in memory. *)
Definition bytes_in_memory (little_endian : bool) (n : Z) : list Z :=
  let bytes := (λ i, n / 2 ^ (8 * i) mod 256) <$> [0; 1; 2; 3] in
  if little_endian then bytes else reverse bytes.

(** The loop over the bits, from [prefix] on. *)
Fixpoint prefix_loop (n : nat) (prefix : Z) (netmask_bytes : list Z) : outcome Z :=
  match n with
  | O => Ret kMaxNetMask
  | S n =>
      match netmask_bytes !! Z.to_nat (prefix / 8) with
      | None => Undefined
      | Some byte =>
          if Z.land byte (static_cast uint8_t (Z.shiftl 1 (7 - prefix mod 8))) =? 0 then Ret prefix
          else prefix_loop n (prefix + 1) netmask_bytes
      end
  end.

Definition ConvertNetmaskUint32NetOrderToPrefix (little_endian : bool) (netmask : Z) : outcome Z :=
  prefix_loop (Z.to_nat kMaxNetMask) 0 (bytes_in_memory little_endian netmask).

(** ** To texts and bytes *)

(** [uint8_to_string] *)
Definition uint8_to_string (value : Z) : str := to_chars_int value.

Fixpoint dotted (bytes : list Z) : str :=
  match bytes with
  | [] => []
  | [b] => uint8_to_string b
  | b :: bytes => uint8_to_string b ++ "."%char :: dotted bytes
  end.

Definition ToString (a : Ipv4Address) : str := dotted (ipv4_address_bytes_ a).

Definition ToStringWithNetmask (a : Ipv4Address) : str := ToString a ++ "/"%char :: uint8_to_string (ipv4_netmask_ a).

(** A shift by 32 or more is undefined. *)
Definition GetNetmaskBytes (little_endian : bool) (a : Ipv4Address) : outcome (list Z) :=
  let shift := kMaxNetMask - ipv4_netmask_ a in
  if decide (0 <= shift < 32) then
    let mask := Z.land (Z.shiftl 0xFFFFFFFF shift) 0xFFFFFFFF in
    let bytes := [SelectByteLE mask 3; SelectByteLE mask 2; SelectByteLE mask 1; SelectByteLE mask 0] in
    Ret (if little_endian then bytes else reverse bytes)
  else Undefined.

(** [Broadcast] *)
Definition Broadcast : Ipv4Address := from_bytes 0xFF 0xFF 0xFF 0xFF kDefaultNetMask.

Definition operator_eq (a b : Ipv4Address) : bool :=
  bool_decide (ipv4_address_bytes_ a = ipv4_address_bytes_ b) && (ipv4_netmask_ a =? ipv4_netmask_ b).

(** [std::array::operator<] *)
Fixpoint bytes_lt (l l' : list Z) : bool :=
  match l, l' with
  | x :: l, y :: l' => if x <? y then true else if y <? x then false else bytes_lt l l'
  | [], _ :: _ => true
  | _, [] => false
  end.

Definition operator_lt (a b : Ipv4Address) : bool :=
  bytes_lt (ipv4_address_bytes_ a) (ipv4_address_bytes_ b) ||
  (bool_decide (ipv4_address_bytes_ a = ipv4_address_bytes_ b) && (ipv4_netmask_ a <? ipv4_netmask_ b)).

(** ** net_endpoint.cpp *)

Record NetEndpoint := { ip_addr_ : Ipv4Address; port_ : Z }.

Definition AnyAddress : Ipv4Address := from_bytes 0 0 0 0 kDefaultNetMask.
Definition AnyPort : Z := 0.

Definition default_endpoint : NetEndpoint := {| ip_addr_ := AnyAddress; port_ := AnyPort |}.

Definition IsAnyAddress (e : NetEndpoint) : bool := operator_eq (ip_addr_ e) AnyAddress.

Definition endpoint_ToString (e : NetEndpoint) : str := ToString (ip_addr_ e) ++ ":"%char :: to_chars_int (port_ e).

(** [memcpy] of four bytes to an integer. *)
Definition integer_from_memory (little_endian : bool) (bytes : list Z) : Z :=
  foldr (λ b n, b + 256 * n) 0 (if little_endian then bytes else reverse bytes).

(** [htons] *)
Definition htons (little_endian : bool) (port : Z) : Z :=
  if little_endian then Z.lor (Z.shiftl (Z.land port 0xFF) 8) (Z.shiftr port 8) else port.

Record sockaddr_in := { s_addr : Z; sin_port : Z }.

Definition ToSockaddr (little_endian : bool) (e : NetEndpoint) : sockaddr_in :=
  let ip_array := ipv4_address_bytes_ (ip_addr_ e) in
  {| s_addr :=
       if little_endian then integer_from_memory little_endian ip_array
       else Z.lor (Z.lor (Z.lor (Z.shiftl (nth 0 ip_array 0) 24) (Z.shiftl (nth 1 ip_array 0) 16))
                         (Z.shiftl (nth 2 ip_array 0) 8)) (nth 3 ip_array 0);
     sin_port := htons little_endian (port_ e) |}.

(** ** Well-formed addresses *)

Definition is_byte (b : Z) : Prop := 0 <= b < 256.

Record well_formed (a : Ipv4Address) : Prop := {
  wf_bytes : length (ipv4_address_bytes_ a) = 4%nat ∧ Forall is_byte (ipv4_address_bytes_ a);
  wf_netmask : 0 <= ipv4_netmask_ a <= 32;
}.

Lemma set_netmask_wf netmask a : length (ipv4_address_bytes_ a) = 4%nat ∧ Forall is_byte (ipv4_address_bytes_ a) →
  0 <= netmask → well_formed (SetNetmask netmask a).
Proof.
  intros Ha Hn. split; [done|]. cbn. unfold kMaxNetMask. destruct (IsValid a); [|simpl; lia].
  destruct (Z.leb_spec netmask 32); simpl; lia.
Qed.

Lemma uint8_range z : is_byte (static_cast uint8_t z).
Proof. pose proof (static_cast_range uint8_t z) as H. by change (0 <= static_cast uint8_t z <= 255) in H; unfold is_byte; lia. Qed.

Lemma select_range address i : is_byte (SelectByteLE address i).
Proof. apply uint8_range. Qed.

Lemma ParseByte_true s m b : ParseByte s m = (true, b) → 0 <= m < 256 → 0 <= b <= m.
Proof.
  unfold ParseByte. destruct (strtol s) as [v r]. intros [= Hv <-] Hm. apply andb_true_iff in Hv as [_ Hv].
  apply andb_true_iff in Hv as [H1%Z.leb_le H2%Z.leb_le]. rewrite static_cast_id; [lia|]. change (0 <= v <= 255). lia.
Qed.

Lemma ParseBytes_wf texts bytes : ParseBytes texts = Some bytes → length bytes = length texts ∧ Forall is_byte bytes.
Proof.
  revert bytes. induction texts as [|s texts IH]; intros bytes; cbn; [by intros [= <-]|].
  destruct (ParseByte s (max uint8_t)) as [[] b] eqn:E; [|done]. destruct (ParseBytes texts) as [l|]; [|done].
  intros [= <-]. destruct (IH l eq_refl) as [? ?]. split; [simpl; lia|]. constructor; [|done].
  change (max uint8_t) with 255 in E. apply ParseByte_true in E; [|lia]. unfold is_byte. lia.
Qed.

Lemma regex_groups s groups m5 : regex_search s = Some (groups, m5) → length groups = 4%nat.
Proof.
  unfold regex_search. intros E. repeat (apply bind_Some in E as ([? ?] & _ & E) || (apply bind_Some in E as (? & _ & E))).
  case_match; [by injection E as <- _|].
  apply bind_Some in E as (? & _ & E). apply bind_Some in E as ([? ?] & _ & E). case_match; [by injection E as <- _|done].
Qed.

Lemma zero_bytes : length [0; 0; 0; 0] = 4%nat ∧ Forall is_byte [0; 0; 0; 0].
Proof. split; [done|]. rewrite !Forall_cons. unfold is_byte. split_and!; (lia || by constructor). Qed.

Lemma from_string_wf s : well_formed (from_string s).
Proof.
  unfold from_string. destruct (regex_search s) as [[groups m5]|] eqn:E; [|by split; [apply zero_bytes|]].
  apply regex_groups in E.
  assert (length (default [0; 0; 0; 0] (ParseBytes groups)) = 4%nat ∧ Forall is_byte (default [0; 0; 0; 0] (ParseBytes groups))) as Hb.
  { destruct (ParseBytes groups) as [l|] eqn:El; [apply ParseBytes_wf in El as [Hl ?]; cbn; by rewrite Hl|apply zero_bytes]. }
  destruct m5 as [|c m5]; [apply set_netmask_wf; [done|unfold kDefaultNetMask; lia]|].
  destruct (ParseByte (c :: m5) kMaxNetMask) as [ok n] eqn:En. destruct ok.
  - apply ParseByte_true in En; [|unfold kMaxNetMask; lia]. by split; cbn.
  - apply set_netmask_wf; [done|unfold kDefaultNetMask; lia].
Qed.

Lemma from_bytes_wf b1 b2 b3 b4 prefix :
  is_byte b1 → is_byte b2 → is_byte b3 → is_byte b4 → 0 <= prefix → well_formed (from_bytes b1 b2 b3 b4 prefix).
Proof. intros. apply set_netmask_wf; [|done]. split; [done|]. cbn [ipv4_address_bytes_]. rewrite !Forall_cons. split_and!; (done || by constructor). Qed.

(** ** Texts *)

(** The numbers of a range, for facts that are checked for each of them. *)
Lemma for_all_below (P : Z → bool) (n : Z) b : forallb P (seqZ 0 n) = true → 0 <= b < n → P b = true.
Proof. intros H Hb. rewrite forallb_forall in H. apply H, list_elem_of_In, elem_of_seqZ. lia. Qed.

Definition text_ok (n : nat) (m b : Z) : bool :=
  forallb is_digit_char (uint8_to_string b) && bool_decide (1 ≤ length (uint8_to_string b) ≤ n)%nat &&
  bool_decide (ParseByte (uint8_to_string b) m = (true, b)).

Record text_facts (n : nat) (m b : Z) : Prop := {
  text_digits : forallb is_digit_char (uint8_to_string b) = true;
  text_length : (1 ≤ length (uint8_to_string b) ≤ n)%nat;
  text_value : ParseByte (uint8_to_string b) m = (true, b);
}.

Lemma text_ok_facts n m b : text_ok n m b = true → text_facts n m b.
Proof.
  unfold text_ok. rewrite !andb_true_iff. intros [[H1 H2%bool_decide_eq_true] H3%bool_decide_eq_true]. by split.
Qed.

Lemma octet_text b : is_byte b → text_facts 3 255 b.
Proof. intros Hb. apply text_ok_facts. apply (for_all_below _ 256); [vm_compute; reflexivity|done]. Qed.

Lemma netmask_text b : 0 <= b <= 32 → text_facts 2 32 b.
Proof. intros Hb. apply text_ok_facts. apply (for_all_below _ 33); [vm_compute; reflexivity|lia]. Qed.

(** A text that no digit begins. *)
Definition ends_group (s : str) : Prop := match s with c :: _ => is_digit_char c = false | [] => True end.

Lemma read_group_app d r : forallb is_digit_char d = true → ends_group r → read_group (d ++ r) = (d, r).
Proof.
  intros Hd Hr. induction d as [|c d IH]; cbn in *.
  - destruct r as [|c r]; [done|]. cbn in *. by rewrite Hr.
  - apply andb_true_iff in Hd as [-> Hd]. by rewrite IH.
Qed.

Lemma match_digits_text n m b r : text_facts n m b → ends_group r →
  match_digits n (uint8_to_string b ++ r) = Some (uint8_to_string b, r).
Proof. intros F Hr. unfold match_digits. rewrite read_group_app by (done || apply F). by rewrite decide_True by apply F. Qed.

Lemma match_char_same c s : match_char c (c :: s) = Some s.
Proof. cbn. by rewrite decide_True. Qed.

Lemma four_bytes (l : list Z) : length l = 4%nat → Forall is_byte l →
  ∃ b1 b2 b3 b4, l = [b1; b2; b3; b4] ∧ is_byte b1 ∧ is_byte b2 ∧ is_byte b3 ∧ is_byte b4.
Proof.
  intros Hl Hf. destruct l as [|b1 [|b2 [|b3 [|b4 [|]]]]]; try done. rewrite !Forall_cons in Hf.
  exists b1, b2, b3, b4. tauto.
Qed.

(** The text of four bytes, and what is left after it. *)
Lemma regex_dotted b1 b2 b3 b4 r : is_byte b1 → is_byte b2 → is_byte b3 → is_byte b4 → ends_group r →
  regex_search (dotted [b1; b2; b3; b4] ++ r) =
    match r with
    | [] => Some (uint8_to_string <$> [b1; b2; b3; b4], [])
    | _ =>
        s ← match_char "/"%char r;
        '(m5, s) ← match_digits 2 s;
        match s with [] => Some (uint8_to_string <$> [b1; b2; b3; b4], m5) | _ => None end
    end.
Proof.
  intros F1%octet_text F2%octet_text F3%octet_text F4%octet_text Hr. cbn [dotted].
  repeat (rewrite <- app_assoc; cbn [app]). unfold regex_search.
  do 3 (rewrite (match_digits_text 3 255) by done; cbn [mbind option_bind]; rewrite match_char_same; cbn [mbind option_bind]).
  by rewrite (match_digits_text 3 255).
Qed.

Lemma parse_texts bytes : Forall is_byte bytes → ParseBytes (uint8_to_string <$> bytes) = Some bytes.
Proof.
  induction 1 as [|b bytes Hb _ IH]; [done|]. csimpl. change (max uint8_t) with 255.
  rewrite (text_value _ _ _ (octet_text b Hb)). by rewrite IH.
Qed.

Lemma parse_address a : well_formed a → from_string (ToString a) = SetNetmask kDefaultNetMask a.
Proof.
  intros [[Hl Hf] _]. unfold ToString, from_string. destruct (four_bytes _ Hl Hf) as (b1 & b2 & b3 & b4 & E & ? & ? & ? & ?).
  rewrite E, <- (app_nil_r (dotted _)), regex_dotted by done. rewrite parse_texts by by rewrite <- E.
  unfold SetNetmask, IsValid. by rewrite E.
Qed.

Lemma parse_address_netmask a : well_formed a → from_string (ToStringWithNetmask a) = a.
Proof.
  intros [[Hl Hf] Hn]. unfold ToStringWithNetmask, ToString, from_string.
  destruct (four_bytes _ Hl Hf) as (b1 & b2 & b3 & b4 & E & ? & ? & ? & ?).
  rewrite E, regex_dotted by done. rewrite match_char_same. cbn [mbind option_bind].
  pose proof (netmask_text _ Hn) as F. rewrite <- (app_nil_r (uint8_to_string (ipv4_netmask_ a))).
  rewrite (match_digits_text 2 32) by done. cbn [mbind option_bind]. rewrite parse_texts by by rewrite <- E.
  pose proof (text_length _ _ _ F) as Hlen. destruct (uint8_to_string (ipv4_netmask_ a)) eqn:Et; [simpl in Hlen; lia|].
  rewrite <- Et. change kMaxNetMask with 32. rewrite (text_value _ _ _ F). cbn. rewrite <- E. by destruct a.
Qed.

(** ** Bytes of integers *)

Lemma select_byte address i : 0 <= i → SelectByteLE address i = address / 2 ^ (8 * i) mod 256.
Proof.
  intros Hi. unfold SelectByteLE. change 255 with (Z.ones 8). rewrite Z.land_ones, Z.shiftr_div_pow2, (Z.mul_comm i) by lia.
  apply static_cast_id. change (0 <= address / 2 ^ (8 * i) mod 2 ^ 8 <= 255). pose proof (Z.mod_pos_bound (address / 2 ^ (8 * i)) (2 ^ 8)). lia.
Qed.

Lemma net_order_memory address prefix :
  CreateFromUint32NetOrder address prefix = from_array (bytes_in_memory true address) prefix.
Proof. unfold CreateFromUint32NetOrder, CreateFromUint32BE, from_bytes. by rewrite !select_byte by lia. Qed.

Lemma bytes_of_integer little_endian bytes : length bytes = 4%nat → Forall is_byte bytes →
  bytes_in_memory little_endian (integer_from_memory little_endian bytes) = bytes.
Proof.
  assert (∀ bytes, length bytes = 4%nat → Forall is_byte bytes →
    bytes_in_memory true (integer_from_memory true bytes) = bytes) as Htrue.
  { intros l Hl Hf. destruct (four_bytes _ Hl Hf) as (b1 & b2 & b3 & b4 & -> & H1 & H2 & H3 & H4). unfold is_byte in *.
    unfold bytes_in_memory, integer_from_memory. cbn [foldr fmap list_fmap].
    change (2 ^ (8 * 0)) with 1. change (2 ^ (8 * 1)) with 256. change (2 ^ (8 * 2)) with 65536. change (2 ^ (8 * 3)) with 16777216.
    repeat f_equal; Z.div_mod_to_equations; lia. }
  intros Hl Hf. destruct little_endian; [by apply Htrue|].
  unfold bytes_in_memory, integer_from_memory in *. rewrite Htrue; [by rewrite reverse_involutive|by rewrite length_reverse|by apply Forall_reverse].
Qed.

(** ** Prefixes *)

(** Bit [i] of the bytes, the most significant bit of the first one first. *)
Definition bit_of (bytes : list Z) (i : Z) : option bool :=
  (λ b, Z.testbit b (7 - i mod 8)) <$> bytes !! Z.to_nat (i / 8).

Lemma one_bit k : 0 <= k < 8 → static_cast uint8_t (Z.shiftl 1 k) = 2 ^ k.
Proof.
  intros Hk. rewrite Z.shiftl_1_l. apply static_cast_id. change (0 <= 2 ^ k <= 255).
  pose proof (Z.pow_le_mono_r 2 k 7). pose proof (Z.pow_nonneg 2 k). lia.
Qed.

Lemma land_one_bit b k : 0 <= k → (Z.land b (2 ^ k) =? 0) = negb (Z.testbit b k).
Proof.
  intros Hk. assert (Z.land b (2 ^ k) = if Z.testbit b k then 2 ^ k else 0) as ->.
  { apply Z.bits_inj'. intros i Hi. rewrite Z.land_spec, Z.pow2_bits_eqb by done.
    destruct (Z.eqb_spec k i) as [->|?].
    - rewrite andb_true_r. destruct (Z.testbit b i) eqn:E; [by rewrite Z.pow2_bits_true|by rewrite Z.bits_0].
    - rewrite andb_false_r. destruct (Z.testbit b k); [by rewrite Z.pow2_bits_false|by rewrite Z.bits_0]. }
  destruct (Z.testbit b k); [|done]. apply Z.eqb_neq. pose proof (Z.pow_pos_nonneg 2 k). lia.
Qed.

(** The result counts the ones before the first zero. *)
Lemma prefix_loop_spec n p bytes : length bytes = 4%nat → 0 <= p → p + Z.of_nat n = 32 →
  ∃ q, prefix_loop n p bytes = Ret q ∧ p <= q <= 32 ∧
    (∀ i, p <= i < q → bit_of bytes i = Some true) ∧ (q < 32 → bit_of bytes q = Some false).
Proof.
  intros Hl. revert p. induction n as [|n IH]; intros p Hp Hn; cbn [prefix_loop].
  { exists 32. split_and!; [done|lia..]. }
  destruct (bytes !! Z.to_nat (p / 8)) as [b|] eqn:E; [|apply lookup_ge_None in E; Z.div_mod_to_equations; lia].
  rewrite one_bit, land_one_bit by (Z.div_mod_to_equations; lia).
  assert (bit_of bytes p = Some (Z.testbit b (7 - p mod 8))) as Hbit by (unfold bit_of; by rewrite E).
  destruct (Z.testbit b (7 - p mod 8)); cbn [negb].
  - destruct (IH (p + 1)) as (q & -> & Hq & Hbefore & Hafter); [lia..|]. exists q. split_and!; [done|lia..| |done].
    intros i Hi. destruct (decide (i = p)) as [->|]; [done|]. apply Hbefore. lia.
  - exists p. split_and!; [done|lia..|done].
Qed.

(** The bytes of a netmask, and its prefix, for each length but 0. *)
Lemma netmask_bytes_prefix bytes netmask : 0 < netmask <= 32 →
  ∃ mask, GetNetmaskBytes true {| ipv4_address_bytes_ := bytes; ipv4_netmask_ := netmask |} = Ret mask ∧
    ConvertNetmaskUint32NetOrderToPrefix true (integer_from_memory true mask) = Ret netmask.
Proof.
  intros Hn. set (P k := match GetNetmaskBytes true {| ipv4_address_bytes_ := []; ipv4_netmask_ := k + 1 |} with
    | Ret mask => bool_decide (ConvertNetmaskUint32NetOrderToPrefix true (integer_from_memory true mask) = Ret (k + 1))
    | _ => false end).
  assert (P (netmask - 1) = true) as H by (apply (for_all_below _ 32); [vm_compute; reflexivity|lia]).
  unfold P in H. replace (netmask - 1 + 1) with netmask in H by lia.
  change (GetNetmaskBytes true {| ipv4_address_bytes_ := bytes; ipv4_netmask_ := netmask |})
    with (GetNetmaskBytes true {| ipv4_address_bytes_ := []; ipv4_netmask_ := netmask |}).
  destruct (GetNetmaskBytes _ _) as [mask| |]; [|done..]. exists mask. split; [done|]. by apply bool_decide_eq_true in H.
Qed.

(** The address of an endpoint in a socket address, read back as the sender of
    a message, on a little-endian machine. *)
Lemma sender_address a port : well_formed a →
  CreateFromUint32NetOrder (s_addr (ToSockaddr true {| ip_addr_ := a; port_ := port |})) kDefaultNetMask =
    SetNetmask kDefaultNetMask a.
Proof.
  intros [[Hl Hf] _]. rewrite net_order_memory. cbn [ToSockaddr s_addr ip_addr_]. by rewrite bytes_of_integer.
Qed.

(** ** The order of addresses *)

Lemma bytes_lt_irrefl l : bytes_lt l l = false.
Proof. induction l as [|x l IH]; [done|]. cbn. by rewrite Z.ltb_irrefl. Qed.

Lemma bytes_lt_trans l1 l2 l3 : bytes_lt l1 l2 = true → bytes_lt l2 l3 = true → bytes_lt l1 l3 = true.
Proof.
  revert l2 l3. induction l1 as [|x l1 IH]; intros [|y l2] [|z l3]; cbn; try done.
  destruct (Z.ltb_spec x y), (Z.ltb_spec y x), (Z.ltb_spec y z), (Z.ltb_spec z y), (Z.ltb_spec x z), (Z.ltb_spec z x);
    try done; try lia. apply IH.
Qed.

Lemma bytes_lt_total l1 l2 : bytes_lt l1 l2 = true ∨ l1 = l2 ∨ bytes_lt l2 l1 = true.
Proof.
  revert l2. induction l1 as [|x l1 IH]; intros [|y l2]; cbn; [auto..|].
  destruct (Z.ltb_spec x y), (Z.ltb_spec y x); auto. assert (x = y) as -> by lia.
  destruct (IH l2) as [?|[->|?]]; auto.
Qed.

Lemma operator_lt_spec a b : operator_lt a b = true ↔
  bytes_lt (ipv4_address_bytes_ a) (ipv4_address_bytes_ b) = true ∨
  (ipv4_address_bytes_ a = ipv4_address_bytes_ b ∧ ipv4_netmask_ a < ipv4_netmask_ b).
Proof. unfold operator_lt. by rewrite orb_true_iff, andb_true_iff, bool_decide_eq_true, Z.ltb_lt. Qed.

Lemma operator_eq_spec a b : operator_eq a b = true ↔ a = b.
Proof.
  unfold operator_eq. rewrite andb_true_iff, bool_decide_eq_true, Z.eqb_eq. destruct a, b; cbn. naive_solver.
Qed.

(** [operator<] is a strict total order in which [operator==] decides equality,
    so addresses can be the keys of an ordered container. *)
Theorem address_order :
  (∀ a, operator_lt a a = false) ∧
  (∀ a b c, operator_lt a b = true → operator_lt b c = true → operator_lt a c = true) ∧
  (∀ a b, operator_lt a b = true ∨ operator_eq a b = true ∨ operator_lt b a = true).
Proof.
  split_and!.
  - intros a. apply not_true_is_false. rewrite operator_lt_spec, bytes_lt_irrefl. intros [?|[_ ?]]; [done|lia].
  - intros a b c. rewrite !operator_lt_spec. intros [H1|[E1 H1]] [H2|[E2 H2]].
    + left. by eapply bytes_lt_trans.
    + left. by rewrite <- E2.
    + left. by rewrite E1.
    + right. split; [congruence|lia].
  - intros a b. rewrite !operator_lt_spec, operator_eq_spec.
    destruct (bytes_lt_total (ipv4_address_bytes_ a) (ipv4_address_bytes_ b)) as [?|[E|?]]; [auto| |auto].
    destruct (Z.lt_trichotomy (ipv4_netmask_ a) (ipv4_netmask_ b)) as [?|[En|?]]; [auto| |auto].
    right. left. destruct a, b; cbn in *. congruence.
Qed.

(** ** The addresses of a program *)

(** What the constructors, the factory functions and [SetNetmask] make of
    arguments of their types. *)
Inductive constructed : Ipv4Address → Prop :=
  | constructed_default : constructed default_address
  | constructed_text s : constructed (from_string s)
  | constructed_array bytes netmask :
      length bytes = kIpv4AddressLength → Forall is_byte bytes → is_byte netmask → constructed (from_array bytes netmask)
  | constructed_vector bytes netmask : Forall is_byte bytes → is_byte netmask → constructed (from_vector bytes netmask)
  | constructed_bytes b1 b2 b3 b4 prefix :
      is_byte b1 → is_byte b2 → is_byte b3 → is_byte b4 → is_byte prefix → constructed (from_bytes b1 b2 b3 b4 prefix)
  | constructed_net_order address prefix : is_byte prefix → constructed (CreateFromUint32NetOrder address prefix)
  | constructed_host_order little_endian address prefix :
      is_byte prefix → constructed (CreateFromUint32HostOrder little_endian address prefix)
  | constructed_netmask netmask a : constructed a → is_byte netmask → constructed (SetNetmask netmask a).

Lemma constructed_wf a : constructed a → well_formed a.
Proof.
  assert (∀ n, is_byte n → 0 <= n) as Hnn by (unfold is_byte; lia).
  induction 1 as [|s|bytes netmask|bytes netmask|b1 b2 b3 b4 prefix|address prefix|little_endian address prefix|netmask a _ IH].
  - by split; [apply zero_bytes|].
  - apply from_string_wf.
  - apply set_netmask_wf; auto.
  - unfold from_vector. case_decide; [apply set_netmask_wf; auto|by split; [apply zero_bytes|]].
  - apply from_bytes_wf; auto.
  - apply from_bytes_wf; auto using select_range.
  - destruct little_endian; apply from_bytes_wf; auto using select_range.
  - apply set_netmask_wf; [apply IH|auto].
Qed.

(** C38: every address that a program can make, by the constructors (from any
    text, array, vector or bytes), the conversions from integers and
    [SetNetmask], has four bytes and a prefix of at most 32 bits; the loop that
    converts a netmask to a prefix always ends within the four bytes, and its
    result is the number of ones before the first zero. *)
Theorem ipv4_well_formed :
  (∀ a, constructed a → well_formed a) ∧
  (∀ little_endian netmask, ∃ prefix,
     ConvertNetmaskUint32NetOrderToPrefix little_endian netmask = Ret prefix ∧ 0 <= prefix <= 32 ∧
     (∀ i, 0 <= i < prefix → bit_of (bytes_in_memory little_endian netmask) i = Some true) ∧
     (prefix < 32 → bit_of (bytes_in_memory little_endian netmask) prefix = Some false)).
Proof.
  split; [exact constructed_wf|]. intros little_endian netmask. apply prefix_loop_spec; [by destruct little_endian|lia|done].
Qed.

Lemma ipv4_well_formed_witness : well_formed (SetNetmask 40 (from_string (s! "10.0.0.1/8"))).
Proof.
  destruct ipv4_well_formed as [H _]. apply H. constructor; [apply constructed_text|]. unfold is_byte. lia.
Defined.

(** C37: an address is read back from its text: with the prefix, exactly; without
    it, with the default prefix.  The bytes of its netmask convert back to its
    prefix unless that is 0.  The sender's address that a socket reads from a
    socket address is the one the endpoint had, on a little-endian machine. *)
Theorem ipv4_round_trips a port : constructed a →
  from_string (ToStringWithNetmask a) = a ∧
  from_string (ToString a) = SetNetmask kDefaultNetMask a ∧
  (ipv4_netmask_ a ≠ 0 → ∃ mask, GetNetmaskBytes true a = Ret mask ∧
     ConvertNetmaskUint32NetOrderToPrefix true (integer_from_memory true mask) = Ret (ipv4_netmask_ a)) ∧
  CreateFromUint32NetOrder (s_addr (ToSockaddr true {| ip_addr_ := a; port_ := port |})) kDefaultNetMask =
    SetNetmask kDefaultNetMask a.
Proof.
  intros H%constructed_wf. split_and!; [by apply parse_address_netmask|by apply parse_address| |by apply sender_address].
  intros Hn. pose proof (wf_netmask a H). destruct a as [bytes n]. cbn in *. apply netmask_bytes_prefix. lia.
Qed.

Lemma ipv4_round_trips_witness :
  from_string (ToStringWithNetmask (from_string (s! "192.168.0.17/20"))) = {| ipv4_address_bytes_ := [192; 168; 0; 17]; ipv4_netmask_ := 20 |}.
Proof.
  destruct (ipv4_round_trips (from_string (s! "192.168.0.17/20")) 80 (constructed_text _)) as (-> & _).
  vm_compute. reflexivity.
Defined.

(** ** What the code does not do *)

(** The netmask of a prefix of length 0 is a shift by 32. *)
Example netmask_of_prefix_0 : GetNetmaskBytes true (from_string (s! "1.2.3.4/0")) = Undefined.
Proof. vm_compute. reflexivity. Qed.

(** On a big-endian machine an address does not survive the socket address. *)
Example big_endian_reverses :
  ToString (CreateFromUint32NetOrder (s_addr (ToSockaddr false {| ip_addr_ := from_string (s! "1.2.3.4"); port_ := 80 |})) kDefaultNetMask)
    = s! "4.3.2.1".
Proof. vm_compute. reflexivity. Qed.

(** The address without bytes is the any-address only with the prefix 32. *)
Example default_address_is_not_any :
  IsAnyAddress default_endpoint = true ∧
  IsAnyAddress {| ip_addr_ := default_address; port_ := AnyPort |} = false.
Proof. vm_compute. done. Qed.

(** A wrong byte clears the address but not the prefix. *)
Example wrong_byte_keeps_prefix : ToStringWithNetmask (from_string (s! "1.2.300.4/16")) = s! "0.0.0.0/16".
Proof. vm_compute. reflexivity. Qed.

End Ipv4Address.
