(* ===== verification/CircularBuffer.v ===== *)
(** * The circular buffer: language/futurecpp circular_buffer.hpp

    [circular_buffer<T, MaxSize>] with its storage, its indices of type
    [std::size_t] and its random access iterators (circular_buffer_iterator.hpp).

    The storage is raw memory for [MaxSize] objects, a list of [option T]: a
    slot holds a live object or none.  Reading, assigning or destroying a slot
    without an object is [Undefined], and so is the construction of an object
    over a live one, which would never be destroyed.  A theorem with [Ret] in
    its conclusion therefore also says that every object is destroyed exactly
    once.  A reference is the index of a slot.

    The relation [represents] connects a buffer with the sequence of its
    elements; the operations refine those of a sequence of bounded length. *)

From S2P Require Import Prelude CppInt.

Local Open Scope Z_scope.

(** The levels of the assertion macros in assert.hpp, and which of them a level
    compiles into the code. *)
Inductive assert_level := ASSERT_LEVEL_DEBUG | ASSERT_LEVEL_DEFAULT | ASSERT_LEVEL_PRODUCTION.

Definition PRECONDITION {A} (level : assert_level) (x : bool) (k : outcome A) : outcome A :=
  match level with
  | ASSERT_LEVEL_PRODUCTION => k
  | _ => if x then k else Aborted
  end.

Definition ASSERT_DBG {A} (level : assert_level) (x : bool) (k : outcome A) : outcome A :=
  match level with
  | ASSERT_LEVEL_DEBUG => if x then k else Aborted
  | _ => k
  end.

Module CircularBuffer.

Record circular_buffer (T : Type) := {
  array_ : list (option T);
  tail_ : Z;
  head_ : Z;
  size_ : Z;
}.
Arguments Build_circular_buffer {T}.
Arguments array_ {T}.
Arguments tail_ {T}.
Arguments head_ {T}.
Arguments size_ {T}.

(** An iterator holds a position and the address of its container. *)
Record iterator := { current_ : Z; container_ : option positive }.

Section Operations.
Context {T : Type}.
(** The template argument, the assertion level the code is compiled with and
    the address of the buffer. *)
Variables (MaxSize : Z) (level : assert_level) (this : positive).
(** What a move leaves behind in its source. *)
Variables (moved_from : T → T).

Local Abbreviation buffer := (circular_buffer T).

Definition set_tail (n : Z) (b : buffer) : buffer :=
  Build_circular_buffer (array_ b) n (head_ b) (size_ b).
Definition set_head (n : Z) (b : buffer) : buffer :=
  Build_circular_buffer (array_ b) (tail_ b) n (size_ b).
Definition set_size (n : Z) (b : buffer) : buffer :=
  Build_circular_buffer (array_ b) (tail_ b) (head_ b) n.
Definition set_array (a : list (option T)) (b : buffer) : buffer :=
  Build_circular_buffer a (tail_ b) (head_ b) (size_ b).

(** ** Objects in the storage *)

Definition read (b : buffer) (r : nat) : outcome T :=
  match array_ b !! r with Some (Some v) => Ret v | _ => Undefined end.

Definition construct_at (b : buffer) (r : nat) (v : T) : outcome buffer :=
  match array_ b !! r with
  | Some None => Ret (set_array (<[r := Some v]> (array_ b)) b)
  | _ => Undefined
  end.

Definition destroy_at (b : buffer) (r : nat) : outcome buffer :=
  match array_ b !! r with
  | Some (Some _) => Ret (set_array (<[r := None]> (array_ b)) b)
  | _ => Undefined
  end.

(** [*dst = std::move( *src)] for two live objects. *)
Definition move_assign (b : buffer) (dst src : nat) : outcome buffer :=
  v ← read b src; _ ← read b dst;
  Ret (set_array (<[dst := Some v]> (<[src := Some (moved_from v)]> (array_ b))) b).

(** ** Construction and size *)

Definition destructor_base : buffer :=
  Build_circular_buffer (replicate (Z.to_nat MaxSize) None) 0 0 0.

Definition size (b : buffer) : Z := size_ b.
Definition capacity : Z := MaxSize.
Definition empty (b : buffer) : bool := 0 =? size b.
Definition full (b : buffer) : bool := capacity =? size b.
Definition ssize (b : buffer) : Z := static_cast int64_t (size b).

(** [operator\[\]]: the slot of the [n]-th element. *)
Definition operator_index (b : buffer) (n : Z) : outcome nat :=
  ASSERT_DBG level (n <? size b) (Ret (Z.to_nat (u64 (head_ b + n) mod capacity))).

(** ** Iterators *)

Definition make_iterator (b : buffer) (is_begin : bool) : outcome iterator :=
  let it := {| current_ := if is_begin then 0 else ssize b; container_ := Some this |} in
  ASSERT_DBG level (0 <=? current_ it) (Ret it).

Definition begin_ (b : buffer) : outcome iterator := make_iterator b true.
Definition end_ (b : buffer) : outcome iterator := make_iterator b false.

(** A dereferenced null pointer is undefined; so is, in the model of this one
    object, an iterator into another container. *)
Definition checked_access (b : buffer) (it : iterator) (n : Z) : outcome nat :=
  ASSERT_DBG level (0 <=? n)
    (ASSERT_DBG level (bool_decide (container_ it ≠ None))
      (ASSERT_DBG level (n <? ssize b)
        (if decide (container_ it = Some this) then operator_index b (u64 n) else Undefined))).

Definition deref (b : buffer) (it : iterator) : outcome nat := checked_access b it (current_ it).

(** [operator+] and [operator-] with a distance; overflow is undefined. *)
Definition advance (it : iterator) (n : Z) : outcome iterator :=
  c ← c_add int64_t int64_t (current_ it) n;
  Ret {| current_ := c; container_ := container_ it |}.
Definition retreat (it : iterator) (n : Z) : outcome iterator :=
  c ← c_sub int64_t int64_t (current_ it) n;
  Ret {| current_ := c; container_ := container_ it |}.

Definition same_base (lhs rhs : iterator) : bool := bool_decide (container_ lhs = container_ rhs).

Definition distance (lhs rhs : iterator) : outcome Z :=
  ASSERT_DBG level (same_base lhs rhs) (c_sub int64_t int64_t (current_ lhs) (current_ rhs)).
Definition it_eq (lhs rhs : iterator) : outcome bool :=
  ASSERT_DBG level (same_base lhs rhs) (Ret (current_ lhs =? current_ rhs)).
Definition it_lt (lhs rhs : iterator) : outcome bool :=
  ASSERT_DBG level (same_base lhs rhs) (Ret (current_ lhs <? current_ rhs)).
Definition it_le (lhs rhs : iterator) : outcome bool := negb <$> it_lt rhs lhs.

(** ** Element access and modifiers *)

Definition front (b : buffer) : outcome nat :=
  ASSERT_DBG level (negb (empty b)) (begin_ b ≫= deref b).

Definition back (b : buffer) : outcome nat :=
  ASSERT_DBG level (negb (empty b)) (e ← end_ b; it ← retreat e 1; deref b it).

Definition pop_front (b : buffer) : outcome buffer :=
  if negb (empty b) then
    r ← front b;
    b ← destroy_at b r;
    let b := set_head (u64 (head_ b + 1) mod capacity) b in
    Ret (set_size (u64 (size_ b - 1)) b)
  else Ret b.

Definition pop_back (b : buffer) : outcome buffer :=
  if negb (empty b) then
    r ← back b;
    b ← destroy_at b r;
    let b := if tail_ b =? 0 then set_tail (u64 (capacity - 1)) b
             else set_tail (u64 (tail_ b - 1)) b in
    Ret (set_size (u64 (size_ b - 1)) b)
  else Ret b.

(** The argument of [push_back] is a reference: to an object outside of the
    buffer, or to one of its elements. *)
Inductive argument := Outside (v : T) | Element (r : nat).

Definition load (b : buffer) (a : argument) : outcome T :=
  match a with Outside v => Ret v | Element r => read b r end.

Definition emplace_back (b : buffer) (a : argument) : outcome buffer :=
  b ← (if full b then pop_front b else Ret b);
  v ← load b a;
  b ← construct_at b (Z.to_nat (tail_ b)) v;
  let b := set_tail (u64 (tail_ b + 1) mod capacity) b in
  Ret (set_size (u64 (size_ b + 1)) b).

Definition push_back (b : buffer) (a : argument) : outcome buffer := emplace_back b a.

(** [for (i = 0; i < n; ++i) pop()]. *)
Fixpoint times (pop : buffer → outcome buffer) (n : nat) (b : buffer) : outcome buffer :=
  match n with O => Ret b | S n => b ← pop b; times pop n b end.

Definition clear (b : buffer) : outcome buffer := times pop_front (Z.to_nat (size b)) b.

(** The destructor of the base class for types with a destructor of their own. *)
Fixpoint destroy_elements (n : nat) (i : Z) (b : buffer) : outcome buffer :=
  match n with
  | O => Ret b
  | S n =>
      b ← destroy_at b (Z.to_nat (u64 (head_ b + i) mod MaxSize));
      destroy_elements n (i + 1) b
  end.

Definition destructor (b : buffer) : outcome buffer :=
  destroy_elements (Z.to_nat (size b)) 0 b.

(** ** Erasing *)

(** [std::move_backward], whose destination must not end within
    [(first, last\]]. *)
Fixpoint move_backward_loop (fuel : nat) (b : buffer) (first last d_last : iterator) : outcome buffer :=
  match fuel with
  | O => Undefined
  | S fuel =>
      done ← it_eq first last;
      if done : bool then Ret b
      else
        d_last ← retreat d_last 1; last ← retreat last 1;
        dst ← deref b d_last; src ← deref b last;
        b ← move_assign b dst src;
        move_backward_loop fuel b first last d_last
  end.

Definition move_backward (b : buffer) (first last d_last : iterator) : outcome buffer :=
  if (current_ first <? current_ d_last) && (current_ d_last <=? current_ last) then Undefined
  else move_backward_loop (S (Z.to_nat (current_ last - current_ first))) b first last d_last.

(** [std::move], whose destination must not begin within [\[first, last)]. *)
Fixpoint move_loop (fuel : nat) (b : buffer) (first last d_first : iterator) : outcome buffer :=
  match fuel with
  | O => Undefined
  | S fuel =>
      done ← it_eq first last;
      if done : bool then Ret b
      else
        dst ← deref b d_first; src ← deref b first;
        b ← move_assign b dst src;
        d_first ← advance d_first 1; first ← advance first 1;
        move_loop fuel b first last d_first
  end.

Definition move (b : buffer) (first last d_first : iterator) : outcome buffer :=
  if (current_ first <=? current_ d_first) && (current_ d_first <? current_ last) then Undefined
  else move_loop (S (Z.to_nat (current_ last - current_ first))) b first last d_first.

(** The order of evaluation of the comparisons does not matter: they have no
    effects. *)
Definition erase_range (b : buffer) (first last : iterator) : outcome (buffer * iterator) :=
  PRECONDITION level (bool_decide (container_ first = Some this))
  (PRECONDITION level (bool_decide (container_ last = Some this))
  (bg ← begin_ b; en ← end_ b;
   c1 ← it_le bg first;
   PRECONDITION level c1
   (c2 ← it_le last en;
    PRECONDITION level c2
    (c3 ← it_le first last;
     PRECONDITION level c3
     (diff ← distance last first;
      before ← distance first bg; behind ← distance en last;
      b ← (if before <=? behind
           then b ← move_backward b bg first last; times pop_front (Z.to_nat diff) b
           else b ← move b last en first; times pop_back (Z.to_nat diff) b);
      it ← retreat last diff;
      Ret (b, it)))))).

Definition erase (b : buffer) (pos : iterator) : outcome (buffer * iterator) :=
  next ← advance pos 1; erase_range b pos next.

End Operations.

(** ** Copying and moving whole buffers *)

Section Transfer.
Context {T : Type}.
(** [that] is the address of the source buffer. *)
Variables (MaxSize : Z) (level : assert_level) (this that : positive).
(** Which calls of the copy and of the move constructor of [T] throw. *)
Variables (moved_from : T → T) (copy_throws move_throws : T → bool).

Local Abbreviation buffer := (circular_buffer T).

(** Destroys the objects that an interrupted algorithm has constructed. *)
Fixpoint destroy_range (fuel : nat) (b : buffer) (first last : iterator) : outcome buffer :=
  match fuel with
  | O => Undefined
  | S fuel =>
      done ← it_eq level first last;
      if done : bool then Ret b
      else
        r ← deref MaxSize level this b first;
        b ← destroy_at b r;
        first ← advance first 1;
        destroy_range fuel b first last
  end.

(** [std::uninitialized_copy] from [other] to [b]; the flag says whether the
    algorithm was left by an exception. *)
Fixpoint uninitialized_copy (fuel : nat) (other b : buffer) (first last d_first result : iterator) :
    outcome (buffer * bool) :=
  match fuel with
  | O => Undefined
  | S fuel =>
      done ← it_eq level first last;
      if done : bool then Ret (b, false)
      else
        dst ← deref MaxSize level this b result;
        src ← deref MaxSize level that other first;
        v ← read other src;
        if copy_throws v then
          b ← destroy_range (S (Z.to_nat (current_ result - current_ d_first))) b d_first result;
          Ret (b, true)
        else
          b ← construct_at b dst v;
          first ← advance first 1; result ← advance result 1;
          uninitialized_copy fuel other b first last d_first result
  end.

(** [std::uninitialized_move] also changes the elements of the source. *)
Fixpoint uninitialized_move (fuel : nat) (other b : buffer) (first last d_first result : iterator) :
    outcome (buffer * buffer * bool) :=
  match fuel with
  | O => Undefined
  | S fuel =>
      done ← it_eq level first last;
      if done : bool then Ret (other, b, false)
      else
        dst ← deref MaxSize level this b result;
        src ← deref MaxSize level that other first;
        v ← read other src;
        if move_throws v then
          b ← destroy_range (S (Z.to_nat (current_ result - current_ d_first))) b d_first result;
          Ret (other, b, true)
        else
          b ← construct_at b dst v;
          let other := set_array (<[src := Some (moved_from v)]> (array_ other)) other in
          first ← advance first 1; result ← advance result 1;
          uninitialized_move fuel other b first last d_first result
  end.

(** The indices are taken from the source first; an exception resets them. *)
Definition adopt (other b : buffer) : buffer :=
  set_size (size other) (set_head (head_ other) (set_tail (tail_ other) b)).
Definition reset (b : buffer) : buffer := set_size 0 (set_head 0 (set_tail 0 b)).

Definition copy_elements (other b : buffer) : outcome buffer :=
  let b := adopt other b in
  first ← begin_ level that other; last ← end_ level that other;
  d_first ← begin_ level this b;
  '(b, thrown) ← uninitialized_copy (S (Z.to_nat (size other))) other b first last d_first d_first;
  Ret (if thrown : bool then reset b else b).

Definition move_elements (other b : buffer) : outcome (buffer * buffer) :=
  let b := adopt other b in
  first ← begin_ level that other; last ← end_ level that other;
  d_first ← begin_ level this b;
  '(other, b, thrown) ←
    uninitialized_move (S (Z.to_nat (size other))) other b first last d_first d_first;
  Ret (other, if thrown : bool then reset b else b).

Definition copy_construct (other : buffer) : outcome buffer :=
  copy_elements other (destructor_base MaxSize).

Definition move_construct (other : buffer) : outcome (buffer * buffer) :=
  move_elements other (destructor_base MaxSize).

Definition copy_assign (b rhs : buffer) : outcome buffer :=
  if decide (this = that) then Ret b
  else b ← clear MaxSize level this b; copy_elements rhs b.

Definition move_assign_buffer (b rhs : buffer) : outcome (buffer * buffer) :=
  if decide (this = that) then Ret (rhs, b)
  else b ← clear MaxSize level this b; move_elements rhs b.

End Transfer.
End CircularBuffer.
