(* ===== verification/IntrusiveList.v ===== *)
(** * The intrusive list: containers/intrusive_list.h

    Elements carry the pointers of a circular doubly linked list, and a list
    object is one more node, its root.  The memory maps the addresses of the
    live nodes to their two pointers; dereferencing a null pointer or the
    address of a node that is not alive is [Undefined].  A reference is an
    address, a pointer may be null.

    Elements, lists and iterators are constructed and destroyed by their users,
    so that aliasing between them is possible; the operations here are those of
    the source, field access by field access. *)

From stdpp Require Export gmap.
From S2P Require Import Prelude CppInt CircularBuffer.

Module IntrusiveList.

Abbreviation ref := positive.
Abbreviation pointer := (option positive).

(** [intrusive_list_element]. *)
Record node := { next_ : pointer; prev_ : pointer }.

#[export] Instance node_eq_dec : EqDecision node.
Proof. solve_decision. Defined.

(** The live nodes, and the elements that were passed to a disposer, in order. *)
Record memory := { nodes : gmap ref node; disposed : list ref }.

Definition with_nodes (f : gmap ref node → gmap ref node) (m : memory) : memory :=
  {| nodes := f (nodes m); disposed := disposed m |}.

(** The member [node_] of an iterator. *)
Abbreviation iterator := pointer.

(** A disposer may destroy the element it is called for; the others, such as
    the empty one of the functions without a disposer, keep it. *)
Abbreviation Disposer := (ref → bool).

(** A predicate may read the memory. *)
Abbreviation Predicate := (ref → memory → outcome bool).

Section Operations.
(** The assertion level. *)
Variable level : assert_level.

(** ** Field access *)

Definition load (p : pointer) (m : memory) : outcome node :=
  match p with
  | Some a => match nodes m !! a with Some n => Ret n | None => Undefined end
  | None => Undefined
  end.

Definition upd_next (a : ref) (v : pointer) : gmap ref node → gmap ref node :=
  alter (λ n, {| next_ := v; prev_ := prev_ n |}) a.
Definition upd_prev (a : ref) (v : pointer) : gmap ref node → gmap ref node :=
  alter (λ n, {| next_ := next_ n; prev_ := v |}) a.

Definition set_next (p v : pointer) (m : memory) : outcome memory :=
  _ ← load p m;
  match p with Some a => Ret (with_nodes (upd_next a v) m) | None => Undefined end.
Definition set_prev (p v : pointer) (m : memory) : outcome memory :=
  _ ← load p m;
  match p with Some a => Ret (with_nodes (upd_prev a v) m) | None => Undefined end.

(** [*p]: a reference to what a pointer points to. *)
Definition target (p : pointer) : outcome ref := match p with Some a => Ret a | None => Undefined end.

(** [SCORE_LANGUAGE_FUTURECPP_ASSERT], compiled at the same levels as
    [PRECONDITION]. *)
Definition ASSERT {A} : bool → outcome A → outcome A := PRECONDITION level.

(** ** Elements *)

(** The default constructor, in storage without a live node. *)
Definition element_construct (this : ref) (m : memory) : outcome memory :=
  match nodes m !! this with
  | Some _ => Undefined
  | None => Ret (with_nodes <[this := {| next_ := None; prev_ := None |}]> m)
  end.

Definition is_linked (this : ref) (m : memory) : outcome bool :=
  n ← load (Some this) m;
  Ret (bool_decide (next_ n ≠ None)).

Definition unlink (this : ref) (m : memory) : outcome memory :=
  linked ← is_linked this m;
  PRECONDITION level linked (m ← set_next (Some this) None m; set_prev (Some this) None m).

Definition make_empty_root (this : ref) (m : memory) : outcome memory :=
  m ← set_next (Some this) (Some this) m; set_prev (Some this) (Some this) m.

Definition element_copy (this from : ref) (m : memory) : outcome memory := element_construct this m.

(** An element that is moved takes the place of the original in its list. *)
Definition take_place (this from : ref) (m : memory) : outcome memory :=
  f ← load (Some from) m;
  m ← set_next (Some this) (next_ f) m;
  t ← load (Some this) m;
  m ← set_prev (next_ t) (Some this) m;
  f ← load (Some from) m;
  m ← set_prev (Some this) (prev_ f) m;
  t ← load (Some this) m;
  m ← set_next (prev_ t) (Some this) m;
  unlink from m.

Definition element_move (this from : ref) (m : memory) : outcome memory :=
  m ← element_construct this m;
  linked ← is_linked from m;
  if linked : bool then take_place this from m else Ret m.

Definition element_destroy (this : ref) (m : memory) : outcome memory :=
  linked ← is_linked this m;
  ASSERT (negb linked) (Ret (with_nodes (delete this) m)).

(** ** Linking and unlinking *)

Definition insert_node_before (node target : ref) (m : memory) : outcome memory :=
  m ← set_next (Some node) (Some target) m;
  t ← load (Some target) m;
  m ← set_prev (Some node) (prev_ t) m;
  t ← load (Some target) m;
  m ← set_next (prev_ t) (Some node) m;
  set_prev (Some target) (Some node) m.

Definition insert_before (x target : ref) (m : memory) : outcome memory :=
  linked ← is_linked x m;
  PRECONDITION level (negb linked) (insert_node_before x target m).

Definition keep : Disposer := λ _, false.

Definition dispose (disposer : Disposer) (x : ref) (m : memory) : outcome memory :=
  let m := {| nodes := nodes m; disposed := disposed m ++ [x] |} in
  if disposer x then element_destroy x m else Ret m.

Definition remove_and_dispose_node (node : ref) (disposer : Disposer) (m : memory) : outcome memory :=
  n ← load (Some node) m;
  m ← set_next (prev_ n) (next_ n) m;
  n ← load (Some node) m;
  m ← set_prev (next_ n) (prev_ n) m;
  m ← unlink node m;
  dispose disposer node m.

(** ** Iterators *)

Definition is_valid (it : iterator) : bool := bool_decide (it ≠ None).

Definition increment (it : iterator) (m : memory) : outcome iterator :=
  PRECONDITION level (is_valid it) (n ← load it m; Ret (next_ n)).
Definition decrement (it : iterator) (m : memory) : outcome iterator :=
  PRECONDITION level (is_valid it) (n ← load it m; Ret (prev_ n)).
Definition deref (it : iterator) : outcome ref := PRECONDITION level (is_valid it) (target it).

(** ** Lists *)

Section List.
(** The address of the member [root_]. *)
Variable root_ : ref.

Definition list_construct (m : memory) : outcome memory :=
  m ← element_construct root_ m; make_empty_root root_ m.

Definition begin_ (m : memory) : outcome iterator := n ← load (Some root_) m; Ret (next_ n).
Definition end_ : iterator := Some root_.

Definition empty (m : memory) : outcome bool :=
  n ← load (Some root_) m;
  Ret (bool_decide (next_ n = Some root_)).

(** The destructor, with that of the member [root_]. *)
Definition list_destroy (m : memory) : outcome memory :=
  e ← empty m;
  PRECONDITION level e (m ← unlink root_ m; element_destroy root_ m).

(** [std::distance]. *)
Fixpoint distance (fuel : nat) (first last : iterator) (m : memory) : outcome nat :=
  match fuel with
  | O => Undefined
  | S fuel =>
      if bool_decide (first = last) then Ret O
      else first ← increment first m; n ← distance fuel first last m; Ret (S n)
  end.

(** A loop over a list ends after one round for each node. *)
Definition rounds (m : memory) : nat := S (base.size (nodes m)).

Definition size (m : memory) : outcome nat :=
  first ← begin_ m; distance (rounds m) first end_ m.

Definition front (m : memory) : outcome ref :=
  e ← empty m;
  PRECONDITION level (negb e) (n ← load (Some root_) m; target (next_ n)).
Definition back (m : memory) : outcome ref :=
  e ← empty m;
  PRECONDITION level (negb e) (n ← load (Some root_) m; target (prev_ n)).

Definition push_front (x : ref) (m : memory) : outcome memory :=
  n ← load (Some root_) m;
  first ← target (next_ n);
  insert_before x first m.
Definition push_back (x : ref) (m : memory) : outcome memory := insert_before x root_ m.

Definition pop_front_and_dispose (disposer : Disposer) (m : memory) : outcome memory :=
  e ← empty m;
  PRECONDITION level (negb e) (
    n ← load (Some root_) m;
    node ← target (next_ n);
    remove_and_dispose_node node disposer m).
Definition pop_front : memory → outcome memory := pop_front_and_dispose keep.

Definition pop_back_and_dispose (disposer : Disposer) (m : memory) : outcome memory :=
  e ← empty m;
  PRECONDITION level (negb e) (
    n ← load (Some root_) m;
    node ← target (prev_ n);
    remove_and_dispose_node node disposer m).
Definition pop_back : memory → outcome memory := pop_back_and_dispose keep.

Definition insert (position : iterator) (x : ref) (m : memory) : outcome (memory * iterator) :=
  linked ← is_linked x m;
  PRECONDITION level (negb linked) (
    t ← target position;
    m ← insert_node_before x t m;
    Ret (m, Some x)).

(** [std::for_each] over a range of elements. *)
Fixpoint for_each (f : ref → memory → outcome memory) (elements : list ref) (m : memory) : outcome memory :=
  match elements with [] => Ret m | x :: elements => m ← f x m; for_each f elements m end.

Definition insert_range (position : iterator) (elements : list ref) (m : memory) : outcome (memory * iterator) :=
  match elements with
  | [] => Ret (m, position)
  | first :: elements =>
      '(m, new_first) ← insert position first m;
      m ← for_each (λ x m, fst <$> insert position x m) elements m;
      Ret (m, new_first)
  end.

Definition erase_and_dispose (position : iterator) (disposer : Disposer) (m : memory) :
    outcome (memory * iterator) :=
  e ← empty m;
  PRECONDITION level (negb e) (
    new_position ← increment position m;
    node ← target position;
    m ← remove_and_dispose_node node disposer m;
    Ret (m, new_position)).
Definition erase (position : iterator) : memory → outcome (memory * iterator) := erase_and_dispose position keep.

Fixpoint erase_loop (fuel : nat) (first last : iterator) (disposer : Disposer) (m : memory) : outcome memory :=
  match fuel with
  | O => Undefined
  | S fuel =>
      if bool_decide (first = last) then Ret m
      else
        e ← empty m;
        PRECONDITION level (negb e) (
          node ← target first;
          first ← increment first m;
          m ← remove_and_dispose_node node disposer m;
          erase_loop fuel first last disposer m)
  end.

Definition erase_range_and_dispose (first last : iterator) (disposer : Disposer) (m : memory) :
    outcome (memory * iterator) :=
  m ← erase_loop (rounds m) first last disposer m;
  Ret (m, last).
Definition erase_range (first last : iterator) : memory → outcome (memory * iterator) :=
  erase_range_and_dispose first last keep.

Fixpoint clear_loop (fuel : nat) (disposer : Disposer) (m : memory) : outcome memory :=
  match fuel with
  | O => Undefined
  | S fuel =>
      e ← empty m;
      if negb e then m ← pop_front_and_dispose disposer m; clear_loop fuel disposer m else Ret m
  end.

Definition clear_and_dispose (disposer : Disposer) (m : memory) : outcome memory :=
  clear_loop (rounds m) disposer m.
Definition clear : memory → outcome memory := clear_and_dispose keep.

Definition dispose_and_assign (disposer : Disposer) (elements : list ref) (m : memory) : outcome memory :=
  m ← clear_and_dispose disposer m;
  for_each push_back elements m.
Definition assign : list ref → memory → outcome memory := dispose_and_assign keep.

Fixpoint remove_loop (fuel : nat) (pred : Predicate) (disposer : Disposer) (first : iterator) (m : memory) :
    outcome memory :=
  match fuel with
  | O => Undefined
  | S fuel =>
      if bool_decide (first = end_) then Ret m
      else
        x ← deref first;
        b ← pred x m;
        if b : bool then
          node ← target first;
          first ← increment first m;
          m ← remove_and_dispose_node node disposer m;
          remove_loop fuel pred disposer first m
        else
          first ← increment first m;
          remove_loop fuel pred disposer first m
  end.

Definition remove_and_dispose_if (pred : Predicate) (disposer : Disposer) (m : memory) : outcome memory :=
  first ← begin_ m;
  remove_loop (rounds m) pred disposer first m.
Definition remove_if (pred : Predicate) : memory → outcome memory := remove_and_dispose_if pred keep.

(** [value == x] reads both objects, which have to be alive; [same] is the
    comparison of their values. *)
Definition equals (same : ref → ref → bool) (value : ref) : Predicate := λ x m,
  _ ← load (Some value) m;
  _ ← load (Some x) m;
  Ret (same value x).

Definition remove_and_dispose (same : ref → ref → bool) (value : ref) (disposer : Disposer) :
    memory → outcome memory := remove_and_dispose_if (equals same value) disposer.
Definition remove (same : ref → ref → bool) (value : ref) : memory → outcome memory :=
  remove_and_dispose same value keep.

Definition iterator_to (x : ref) (m : memory) : outcome iterator :=
  linked ← is_linked x m;
  PRECONDITION level linked (Ret (Some x)).

(** The root takes over the elements of another list. *)
Definition take_over (from : ref) (m : memory) : outcome memory :=
  f ← load (Some from) m;
  m ← set_prev (Some root_) (prev_ f) m;
  t ← load (Some root_) m;
  m ← set_next (prev_ t) (Some root_) m;
  f ← load (Some from) m;
  m ← set_next (Some root_) (next_ f) m;
  t ← load (Some root_) m;
  m ← set_prev (next_ t) (Some root_) m;
  make_empty_root from m.

Definition list_move_assign (from : ref) (m : memory) : outcome memory :=
  if bool_decide (root_ = from) then Ret m
  else
    m ← clear m;
    n ← load (Some from) m;
    if bool_decide (next_ n = Some from) then Ret m else take_over from m.

Definition list_move_construct (from : ref) (m : memory) : outcome memory :=
  m ← list_construct m; list_move_assign from m.

Definition list_construct_range (elements : list ref) (m : memory) : outcome memory :=
  m ← list_construct m; assign elements m.

End List.

(** [tmp] is the address of the temporary object. *)
Definition swap (tmp this x : ref) (m : memory) : outcome memory :=
  if bool_decide (this = x) then Ret m
  else
    m ← list_move_construct tmp x m;
    m ← list_move_assign x this m;
    m ← list_move_assign this tmp m;
    list_destroy tmp m.

End Operations.

End IntrusiveList.
