(* ===== verification/IntrusiveListSpec.v ===== *)
(** * Intrusive lists represent sequences

    [represents N r xs] says that the nodes [N] hold a list with the root [r]
    and the elements [xs]: going forward from the root along [next_] and
    backward along [prev_] visits them and returns to the root.  The operations
    of IntrusiveList.v refine those on sequences, for any number of lists and
    elements in the same memory. *)

From S2P Require Import Prelude CppInt CircularBuffer IntrusiveList.
Import IntrusiveList.

Module IntrusiveListSpec.

Abbreviation heap := (gmap ref node).

Definition nxt (N : heap) (p : ref) : option ref := N !! p ≫= next_.
Definition prv (N : heap) (p : ref) : option ref := N !! p ≫= prev_.
Definition alive (N : heap) (p : ref) : Prop := is_Some (N !! p).
Definition unlinked : node := {| next_ := None; prev_ := None |}.

(** [q] follows [p]. *)
Definition link (N : heap) (p q : ref) : Prop := nxt N p = Some q ∧ prv N q = Some p.

(** The nodes [xs] lie between [p] and [q]. *)
Fixpoint chain (N : heap) (p : ref) (xs : list ref) (q : ref) : Prop :=
  match xs with
  | [] => link N p q
  | x :: xs => link N p x ∧ chain N x xs q
  end.

Definition represents (N : heap) (r : ref) (xs : list ref) : Prop :=
  NoDup (r :: xs) ∧ chain N r xs r.

(** Nodes outside of [S] are unchanged. *)
Definition frame (S : list ref) (N N' : heap) : Prop := ∀ p, p ∉ S → N' !! p = N !! p.

(** ** Fields *)

Lemma nxt_alive N p q : nxt N p = Some q → alive N p.
Proof. unfold nxt, alive. by destruct (N !! p). Qed.
Lemma prv_alive N p q : prv N p = Some q → alive N p.
Proof. unfold prv, alive. by destruct (N !! p). Qed.
#[local] Hint Resolve nxt_alive prv_alive : cpp.

Lemma nxt_upd_next a v N p :
  alive N a → nxt (upd_next a v N) p = if decide (a = p) then v else nxt N p.
Proof. intros [n Hn]. unfold nxt, upd_next. rewrite lookup_alter. case_decide; [subst; by rewrite Hn|done]. Qed.
Lemma prv_upd_next a v N p : prv (upd_next a v N) p = prv N p.
Proof. unfold prv, upd_next. rewrite lookup_alter. case_decide; [|done]. subst. by destruct (N !! p). Qed.
Lemma prv_upd_prev a v N p :
  alive N a → prv (upd_prev a v N) p = if decide (a = p) then v else prv N p.
Proof. intros [n Hn]. unfold prv, upd_prev. rewrite lookup_alter. case_decide; [subst; by rewrite Hn|done]. Qed.
Lemma nxt_upd_prev a v N p : nxt (upd_prev a v N) p = nxt N p.
Proof. unfold nxt, upd_prev. rewrite lookup_alter. case_decide; [|done]. subst. by destruct (N !! p). Qed.
Lemma alive_upd_next a v N p : alive (upd_next a v N) p ↔ alive N p.
Proof. unfold alive, upd_next. rewrite lookup_alter. case_decide; subst; rewrite ?fmap_is_Some; done. Qed.
Lemma alive_upd_prev a v N p : alive (upd_prev a v N) p ↔ alive N p.
Proof. unfold alive, upd_prev. rewrite lookup_alter. case_decide; subst; rewrite ?fmap_is_Some; done. Qed.
Lemma lookup_upd_next a v N p : a ≠ p → upd_next a v N !! p = N !! p.
Proof. intros. unfold upd_next. by rewrite lookup_alter_ne. Qed.
Lemma lookup_upd_prev a v N p : a ≠ p → upd_prev a v N !! p = N !! p.
Proof. intros. unfold upd_prev. by rewrite lookup_alter_ne. Qed.

(** A node is alive after updates if it was before. *)
Ltac alive := cbn [nodes with_nodes]; repeat (rewrite alive_upd_next || rewrite alive_upd_prev); eauto with cpp.

(** Reads the fields of an updated memory. *)
Ltac fields :=
  cbn [nodes with_nodes];
  repeat first
    [ rewrite prv_upd_next | rewrite nxt_upd_prev
    | rewrite nxt_upd_next by alive | rewrite prv_upd_prev by alive ].

Lemma load_alive p m n : nodes m !! p = Some n → load (Some p) m = Ret n.
Proof. unfold load. by intros ->. Qed.

Lemma set_next_alive a v m :
  alive (nodes m) a → set_next (Some a) v m = Ret (with_nodes (upd_next a v) m).
Proof. intros [n Hn]. unfold set_next. by rewrite (load_alive _ _ _ Hn). Qed.
Lemma set_prev_alive a v m :
  alive (nodes m) a → set_prev (Some a) v m = Ret (with_nodes (upd_prev a v) m).
Proof. intros [n Hn]. unfold set_prev. by rewrite (load_alive _ _ _ Hn). Qed.

(** Reading a pointer of a live node. *)
Lemma load_next {A} p m (k : pointer → outcome A) :
  alive (nodes m) p → (n ← load (Some p) m; k (next_ n)) = k (nxt (nodes m) p).
Proof. intros [n Hn]. rewrite (load_alive _ _ _ Hn). unfold nxt. by rewrite Hn. Qed.
Lemma load_prev {A} p m (k : pointer → outcome A) :
  alive (nodes m) p → (n ← load (Some p) m; k (prev_ n)) = k (prv (nodes m) p).
Proof. intros [n Hn]. rewrite (load_alive _ _ _ Hn). unfold prv. by rewrite Hn. Qed.

(** ** Chains *)

Lemma chain_app N p xs y ys q : chain N p (xs ++ y :: ys) q ↔ chain N p xs y ∧ chain N y ys q.
Proof. revert p. induction xs as [|x xs IH]; intros p; simpl; [done|]. rewrite IH. tauto. Qed.

Lemma chain_frame N N' p xs q :
  (∀ a, a ∈ p :: xs → nxt N' a = nxt N a) → (∀ a, a ∈ xs ++ [q] → prv N' a = prv N a) →
  chain N p xs q → chain N' p xs q.
Proof.
  revert p. induction xs as [|x xs IH]; intros p Hn Hp; simpl.
  - intros [H1 H2]. split; [rewrite Hn by set_solver|rewrite Hp by set_solver]; done.
  - intros [[H1 H2] H]. split; [split; [rewrite Hn by set_solver|rewrite Hp by set_solver]; done|].
    apply IH; set_solver.
Qed.

Lemma chain_next N p xs q : chain N p xs q → nxt N p = Some (hd q xs).
Proof. destruct xs; simpl; [by intros [? _]|by intros [[? _] _]]. Qed.

(** The end of a chain may be exchanged. *)
Lemma chain_end N p xs q :
  NoDup (p :: xs) → chain N p xs q →
  ∃ a, a ∈ p :: xs ∧ link N a q
  ∧ ∀ N' b, (∀ c, c ∈ p :: xs → c ≠ a → nxt N' c = nxt N c) → (∀ c, c ∈ xs → prv N' c = prv N c) →
      link N' a b → chain N' p xs b.
Proof.
  revert p. induction xs as [|x xs IH]; intros p Hnd; simpl.
  { intros H. exists p. split; [set_solver|]. split; [done|]. by intros. }
  intros [[H1 H2] H]. apply NoDup_cons in Hnd as [Hp Hnd]. destruct (IH x Hnd H) as (a & Ha & Hl & Hnew).
  exists a. split; [set_solver|]. split; [done|]. intros N' b Hn Hpv Hb.
  split; [split; [rewrite Hn by set_solver|rewrite Hpv by set_solver]; done|]. apply Hnew; set_solver.
Qed.

Lemma chain_alive N p xs q a : chain N p xs q → a ∈ p :: xs → alive N a.
Proof.
  revert p. induction xs as [|x xs IH]; intros p; simpl.
  - intros [H _]. rewrite list_elem_of_singleton. intros ->. eauto with cpp.
  - intros [[H _] Hc]. rewrite elem_of_cons. intros [->|Ha]; [eauto with cpp|by eapply IH].
Qed.

Lemma represents_alive N r xs a : represents N r xs → a ∈ r :: xs → alive N a.
Proof. intros [_ H]. by eapply chain_alive. Qed.

Lemma chain_linked N p xs q a : chain N p xs q → a ∈ p :: xs → ∃ b, nxt N a = Some b.
Proof.
  revert p. induction xs as [|x xs IH]; intros p; simpl.
  - intros [H _]. rewrite list_elem_of_singleton. intros ->. eauto.
  - intros [[H _] Hc]. rewrite elem_of_cons. intros [->|Ha]; [eauto|by eapply IH].
Qed.

Lemma represents_free N r xs x : represents N r xs → N !! x = Some unlinked → x ∉ r :: xs.
Proof.
  intros [_ Hc] Hx Hin. destruct (chain_linked _ _ _ _ _ Hc Hin) as [b Hb]. unfold nxt in Hb. by rewrite Hx in Hb.
Qed.

Lemma represents_frame N N' r xs :
  (∀ p, p ∈ r :: xs → N' !! p = N !! p) → represents N r xs → represents N' r xs.
Proof.
  intros HN [Hnd Hc]. split; [done|]. eapply chain_frame; [| |done].
  - intros a Ha. unfold nxt. by rewrite HN.
  - intros a Ha. unfold prv. rewrite HN; [done|]. set_solver.
Qed.

(** A list has fewer elements than the memory has nodes. *)
Lemma represents_length m r xs : represents (nodes m) r xs → (length xs < rounds m)%nat.
Proof.
  intros Hr. pose proof Hr as [Hnd _]. unfold rounds.
  assert (list_to_set (r :: xs) ⊆ dom (nodes m)) as Hs.
  { intros p Hp. apply elem_of_list_to_set in Hp. apply elem_of_dom. by eapply represents_alive. }
  apply subseteq_size in Hs. rewrite size_list_to_set, size_dom in Hs by done. simpl in Hs. lia.
Qed.

(** ** Inserting and removing a node *)

Section Level.
Variable level : assert_level.

Lemma pre_true {A} (k : outcome A) : PRECONDITION level true k = k.
Proof. by destruct level. Qed.

Lemma is_linked_alive p m : alive (nodes m) p → is_linked p m = Ret (bool_decide (nxt (nodes m) p ≠ None)).
Proof. intros [n Hn]. unfold is_linked, nxt. rewrite (load_alive _ _ _ Hn), Hn. done. Qed.

Lemma is_linked_free p m : nodes m !! p = Some unlinked → is_linked p m = Ret false.
Proof. intros H. unfold is_linked. by rewrite (load_alive _ _ _ H). Qed.

Lemma insert_node_before_eq x t a m :
  alive (nodes m) x → link (nodes m) a t → x ≠ t →
  insert_node_before x t m
  = Ret (with_nodes (λ N, upd_prev t (Some x) (upd_next a (Some x) (upd_prev x (Some a) (upd_next x (Some t) N)))) m).
Proof.
  intros Hx [Hn Hp] Hxt. unfold insert_node_before. rewrite set_next_alive by done. cbn [mbind outcome_bind].
  rewrite (load_prev t _ (λ v, m0 ← set_prev (Some x) v _; _))
    by alive.
  fields. rewrite Hp.
  rewrite set_prev_alive by alive. cbn [mbind outcome_bind].
  rewrite (load_prev t _ (λ v, m0 ← set_next v (Some x) _; _))
    by alive.
  fields. rewrite decide_False, Hp by done.
  rewrite set_next_alive by alive. cbn [mbind outcome_bind].
  rewrite set_prev_alive by alive.
  done.
Qed.

(** Insertion before the element at the front of [ys], or at the end. *)
Lemma insert_node_before_spec r xs ys x m :
  represents (nodes m) r (xs ++ ys) → nodes m !! x = Some unlinked →
  ∃ m', insert_node_before x (hd r ys) m = Ret m' ∧ represents (nodes m') r (xs ++ x :: ys)
  ∧ frame (r :: xs ++ x :: ys) (nodes m) (nodes m') ∧ disposed m' = disposed m.
Proof.
  intros Hr Hx. pose proof (represents_free _ _ _ _ Hr Hx) as Hnew. destruct Hr as [Hnd Hc]. set (N := nodes m) in *.
  assert (chain N r xs (hd r ys) ∧ match ys with [] => True | y :: ys => chain N y ys r end) as [H1 H2].
  { destruct ys as [|y ys]; [by rewrite app_nil_r in Hc|]. by apply chain_app in Hc. }
  assert (NoDup (r :: xs) ∧ NoDup ys ∧ ∀ p, p ∈ r :: xs → p ∉ ys) as (Hnd1 & Hnd2 & Hdis).
  { rewrite app_comm_cons in Hnd. apply NoDup_app in Hnd. tauto. }
  destruct (chain_end _ _ _ _ Hnd1 H1) as (a & Ha & Hl & Hend).
  assert (hd r ys ∈ r :: xs ++ ys) as Ht by (destruct ys; set_solver).
  assert (x ≠ a ∧ x ≠ hd r ys) as [Hxa Hxt] by (split; intros ->; set_solver).
  assert (alive N x) as Hax by (by eexists).
  eexists. split; [by apply (insert_node_before_eq x (hd r ys) a m)|]. cbn [nodes with_nodes disposed]. fold N.
  pose proof Hl as [Hl1 Hl2]. split; [split|split; [|done]].
  - rewrite app_comm_cons in *. rewrite NoDup_app. split_and!; [done|set_solver|by constructor; set_solver].
  - apply chain_app. split.
    + apply Hend.
      * intros c Hin Hne. fields. rewrite !decide_False; [done|set_solver|done].
      * intros c Hin. fields. rewrite !decide_False; [done|set_solver|].
        intros <-. destruct ys; [apply NoDup_cons in Hnd1; set_solver|set_solver].
      * split; fields; [by rewrite decide_True|]. rewrite decide_False, decide_True; done.
    + assert (∀ c, c ∈ ys → c ≠ a ∧ c ≠ x) as Hys.
      { intros c Hin. split; intros ->; [by eapply Hdis|set_solver]. }
      assert (link (upd_prev (hd r ys) (Some x) (upd_next a (Some x) (upd_prev x (Some a) (upd_next x (Some (hd r ys)) N)))) x (hd r ys)) as Hlx.
      { split; fields; [|by rewrite decide_True]. rewrite decide_False, decide_True; done. }
      destruct ys as [|y ys]; [done|]. split; [done|]. eapply chain_frame; [| |exact H2].
      * intros c Hin. destruct (Hys c Hin). fields. by rewrite !decide_False.
      * intros c Hin. fields. apply NoDup_cons in Hnd2 as [Hy _]. cbn [hd] in *.
        rewrite !decide_False; [done|set_solver|]. intros <-. set_solver.
  - intros p Hp. rewrite lookup_upd_prev, lookup_upd_next, lookup_upd_prev, lookup_upd_next; [done|..];
      intros <-; destruct ys; set_solver.
Qed.

Lemma unlink_eq x m :
  alive (nodes m) x → nxt (nodes m) x ≠ None →
  unlink level x m = Ret (with_nodes (λ N, upd_prev x None (upd_next x None N)) m).
Proof.
  intros Hx Hn. unfold unlink. rewrite is_linked_alive by done. cbn [mbind outcome_bind].
  rewrite bool_decide_eq_true_2, pre_true by done. rewrite set_next_alive by done. cbn [mbind outcome_bind].
  rewrite set_prev_alive by alive. done.
Qed.

(** What a disposer leaves of an element. *)
Definition left_over (disposer : Disposer) (x : ref) : option node := if disposer x then None else Some unlinked.

Lemma dispose_spec disposer x m :
  nodes m !! x = Some unlinked →
  ∃ m', dispose level disposer x m = Ret m' ∧ nodes m' !! x = left_over disposer x
  ∧ frame [x] (nodes m) (nodes m') ∧ disposed m' = disposed m ++ [x].
Proof.
  intros Hx. unfold dispose, left_over. destruct (disposer x).
  - unfold element_destroy. rewrite is_linked_free by done. cbn [mbind outcome_bind negb]. unfold ASSERT.
    rewrite pre_true. eexists. split; [done|]. cbn. split; [by rewrite lookup_delete_eq|]. split; [|done].
    intros p Hp. by rewrite lookup_delete_ne by set_solver.
  - eexists. split; [done|]. by split.
Qed.

Definition removed (x a b : ref) (N : heap) : heap :=
  upd_prev x None (upd_next x None (upd_prev b (Some a) (upd_next a (Some b) N))).

Lemma removed_unlinked x a b N : alive N x → removed x a b N !! x = Some unlinked.
Proof.
  intros Hx. unfold removed. set (N1 := upd_prev b _ _). assert (alive N1 x) as [n Hn] by (unfold N1; alive).
  unfold upd_prev, upd_next. rewrite lookup_alter_eq, lookup_alter_eq, Hn. done.
Qed.

Lemma remove_node_eq disposer x a b m :
  link (nodes m) a x → link (nodes m) x b → x ≠ a → x ≠ b →
  remove_and_dispose_node level x disposer m = dispose level disposer x (with_nodes (removed x a b) m).
Proof.
  intros [H1 H2] [H3 H4] Hxa Hxb. assert (alive (nodes m) x) as [n Hn] by eauto with cpp.
  assert (next_ n = Some b ∧ prev_ n = Some a) as [En Ep].
  { unfold nxt in H3. unfold prv in H2. by rewrite Hn in H2, H3. }
  unfold remove_and_dispose_node. rewrite (load_alive _ _ _ Hn). cbn [mbind outcome_bind]. rewrite En, Ep.
  rewrite set_next_alive by alive. cbn [mbind outcome_bind].
  rewrite (load_alive x _ n) by (cbn; by rewrite lookup_upd_next). cbn [mbind outcome_bind]. rewrite En, Ep.
  rewrite set_prev_alive by alive. cbn [mbind outcome_bind].
  rewrite unlink_eq; [done|alive|]. fields. rewrite decide_False by done. by rewrite H3.
Qed.

Lemma remove_node_spec disposer r xs x ys m :
  represents (nodes m) r (xs ++ x :: ys) →
  ∃ m', remove_and_dispose_node level x disposer m = Ret m' ∧ represents (nodes m') r (xs ++ ys)
  ∧ nodes m' !! x = left_over disposer x
  ∧ frame (r :: xs ++ x :: ys) (nodes m) (nodes m') ∧ disposed m' = disposed m ++ [x].
Proof.
  intros [Hnd Hc]. set (N := nodes m) in *. apply chain_app in Hc as [H1 H2].
  assert (NoDup (r :: xs) ∧ NoDup (x :: ys) ∧ ∀ p, p ∈ r :: xs → p ∉ x :: ys) as (Hnd1 & Hnd2 & Hdis).
  { rewrite app_comm_cons in Hnd. apply NoDup_app in Hnd. tauto. }
  apply NoDup_cons in Hnd2 as [Hx Hnd2].
  destruct (chain_end _ _ _ _ Hnd1 H1) as (a & Ha & Hl & Hend).
  assert (link N x (hd r ys) ∧ match ys with [] => True | y :: ys => chain N y ys r end) as [Hl' H3].
  { destruct ys as [|y ys]; [done|]. done. }
  assert (x ≠ a) as Hxa by (intros ->; set_solver).
  assert (x ≠ hd r ys) as Hxb by (intros Ex; destruct ys; [apply (Hdis r)|]; set_solver).
  rewrite (remove_node_eq disposer x a (hd r ys) m) by done.
  pose proof Hl as [Hl1 Hl2]. pose proof Hl' as [Hl3 Hl4].
  destruct (dispose_spec disposer x (with_nodes (removed x a (hd r ys)) m)) as (m' & -> & Hgone & Hf & Hd).
  { apply removed_unlinked. eauto with cpp. }
  exists m'. split; [done|]. cbn [nodes with_nodes disposed] in *. fold N in Hf.
  assert (∀ p, p ≠ x → nodes m' !! p = removed x a (hd r ys) N !! p) as HN by (intros p Hp; apply Hf; set_solver).
  assert (∀ p, p ≠ x → nxt (nodes m') p = nxt (removed x a (hd r ys) N) p
    ∧ prv (nodes m') p = prv (removed x a (hd r ys) N) p) as Hfields.
  { intros p Hp. unfold nxt, prv. by rewrite HN. }
  split; [|split; [done|split; [|done]]].
  - split; [rewrite app_comm_cons in *; apply NoDup_app in Hnd as (? & ? & ?); apply NoDup_app; set_solver|].
    assert (chain (nodes m') r xs (hd r ys)) as Hc1.
    { apply Hend.
      - intros c Hin Hne. destruct (Hfields c) as [-> _]; [intros ->; set_solver|]. unfold removed. fields.
        rewrite !decide_False; [done|done|]. intros <-. set_solver.
      - intros c Hin. destruct (Hfields c) as [_ ->]; [intros ->; set_solver|]. unfold removed. fields.
        rewrite !decide_False; [done| |intros <-; set_solver].
        intros <-. destruct ys; [apply NoDup_cons in Hnd1; set_solver|set_solver].
      - split.
        + destruct (Hfields a) as [-> _]; [done|]. unfold removed. fields. by rewrite decide_False, decide_True.
        + destruct (Hfields (hd r ys)) as [_ ->]; [done|]. unfold removed. fields. by rewrite decide_False, decide_True. }
    destruct ys as [|y ys]; [by rewrite app_nil_r|]. apply chain_app. split; [done|].
    apply NoDup_cons in Hnd2 as [Hy _]. cbn [hd] in *. eapply chain_frame; [| |exact H3].
    + intros c Hin. destruct (Hfields c) as [-> _]; [set_solver|]. unfold removed. fields.
      rewrite !decide_False; [done|intros <-; by apply (Hdis a Ha), list_elem_of_further|set_solver].
    + intros c Hin. destruct (Hfields c) as [_ ->]; [set_solver|]. unfold removed. fields.
      rewrite !decide_False; [done|intros <-; set_solver|set_solver].
  - intros p Hp. rewrite HN by set_solver. unfold removed.
    rewrite lookup_upd_prev, lookup_upd_next, lookup_upd_prev, lookup_upd_next; [done|..];
      intros <-; destruct ys; set_solver.
Qed.

(** ** Navigation *)

Lemma begin_spec r xs m : represents (nodes m) r xs → begin_ r m = Ret (Some (hd r xs)).
Proof.
  intros [_ H]. apply chain_next in H. unfold begin_. rewrite (load_next r m Ret) by eauto with cpp. by rewrite H.
Qed.

Lemma list_empty_spec r xs m : represents (nodes m) r xs → empty r m = Ret (bool_decide (xs = [])).
Proof.
  intros [Hnd H]. apply chain_next in H. assert (alive (nodes m) r) as [n Hn] by eauto with cpp.
  unfold empty. rewrite (load_alive _ _ _ Hn). unfold nxt in H. rewrite Hn in H. cbn in H |- *. rewrite H. f_equal.
  apply bool_decide_ext. destruct xs as [|x xs]; simpl; [done|]. split; [|done].
  intros [= ->]. apply NoDup_cons in Hnd. set_solver.
Qed.

Lemma represents_next N r xs x ys : represents N r (xs ++ x :: ys) → nxt N x = Some (hd r ys).
Proof. intros [_ H]. apply chain_app in H as [_ H]. by apply chain_next in H. Qed.

Lemma list_increment_spec r xs x ys m :
  represents (nodes m) r (xs ++ x :: ys) → increment level (Some x) m = Ret (Some (hd r ys)).
Proof.
  intros H%represents_next. unfold increment, is_valid. rewrite bool_decide_eq_true_2, pre_true by done.
  rewrite (load_next x m Ret) by eauto with cpp. by rewrite H.
Qed.

Lemma list_decrement_spec r xs x ys m :
  represents (nodes m) r (xs ++ x :: ys) → decrement level (Some (hd r ys)) m = Ret (Some x).
Proof.
  intros [_ H]. apply chain_app in H as [_ H]. unfold decrement, is_valid.
  rewrite bool_decide_eq_true_2, pre_true by done.
  assert (prv (nodes m) (hd r ys) = Some x) as Hp by (destruct ys; [apply H|apply H]).
  rewrite (load_prev _ m Ret) by eauto with cpp. by rewrite Hp.
Qed.

(** [std::next(begin(), n)]. *)
Fixpoint advance (n : nat) (it : iterator) (m : memory) : outcome iterator :=
  match n with O => Ret it | S n => it ← increment level it m; advance n it m end.

Lemma advance_spec r xs ys zs m :
  represents (nodes m) r (xs ++ ys ++ zs) →
  advance (length ys) (Some (hd r (ys ++ zs))) m = Ret (Some (hd r zs)).
Proof.
  revert xs. induction ys as [|y ys IH]; intros xs H; [done|]. cbn [length app advance hd].
  rewrite (list_increment_spec r xs y (ys ++ zs) m H). cbn [mbind outcome_bind].
  apply (IH (xs ++ [y])). by rewrite <- (assoc_L (++)).
Qed.

Lemma distance_spec r ys m : ∀ xs fuel,
  represents (nodes m) r (xs ++ ys) → (length ys < fuel)%nat →
  distance level fuel (Some (hd r ys)) (Some r) m = Ret (length ys).
Proof.
  induction ys as [|y ys IH]; intros xs [|fuel] H Hf; [lia| |lia|]; cbn [distance hd].
  { by rewrite bool_decide_eq_true_2. }
  rewrite bool_decide_eq_false_2.
  2:{ intros [= ->]. destruct H as [Hnd _]. apply NoDup_cons in Hnd. set_solver. }
  rewrite (list_increment_spec r xs y ys m H). cbn [mbind outcome_bind].
  rewrite (IH (xs ++ [y])); [done|by rewrite <- (assoc_L (++))|simpl in Hf; lia].
Qed.

Lemma size_spec r xs m : represents (nodes m) r xs → size level r m = Ret (length xs).
Proof.
  intros H. unfold size. rewrite (begin_spec r xs m H). cbn [mbind outcome_bind].
  apply (distance_spec r xs m []); [done|]. by apply (represents_length m r).
Qed.

(** ** Operations on one list *)

(** The list [r] has changed from [xs] to [xs'], and the elements [gone] were
    passed to the disposer, each of them once. *)
Record changes (disposer : Disposer) (r : ref) (xs xs' gone : list ref) (m m' : memory) : Prop := {
  changes_represents : represents (nodes m') r xs';
  changes_frame : frame (r :: xs ++ xs') (nodes m) (nodes m');
  changes_gone : ∀ x, x ∈ gone → nodes m' !! x = left_over disposer x;
  changes_log : disposed m' = disposed m ++ gone;
}.

Lemma changes_refl disposer r xs m : represents (nodes m) r xs → changes disposer r xs xs [] m m.
Proof. intros H. split; [done|done| |by rewrite app_nil_r]. intros x Hx. set_solver. Qed.

Lemma changes_trans disposer r xs ys zs g h m m1 m2 :
  changes disposer r xs ys g m m1 → changes disposer r ys zs h m1 m2 →
  (∀ x, x ∈ g → x ∉ r :: ys ++ zs) → (∀ x, x ∈ ys → x ∈ xs ++ zs) →
  changes disposer r xs zs (g ++ h) m m2.
Proof.
  intros [H1 F1 G1 L1] [H2 F2 G2 L2] Hg Hys. split; [done| | |].
  - intros p Hp. rewrite F2, F1; [done|set_solver..].
  - intros x [Hx|Hx]%elem_of_app; [rewrite F2 by auto; auto|auto].
  - by rewrite L2, L1, (assoc_L (++)).
Qed.

Lemma remove_changes disposer r xs x ys m :
  represents (nodes m) r (xs ++ x :: ys) →
  ∃ m', remove_and_dispose_node level x disposer m = Ret m'
  ∧ changes disposer r (xs ++ x :: ys) (xs ++ ys) [x] m m'.
Proof.
  intros H. destruct (remove_node_spec disposer r xs x ys m H) as (m' & -> & Hr & Hx & Hf & Hd).
  exists m'. split; [done|]. split; [done| | |done].
  - intros p Hp. apply Hf. set_solver.
  - intros y ->%list_elem_of_singleton. done.
Qed.

(** The removed element is not in the list any more. *)
Lemma removed_fresh N r xs x ys : represents N r (xs ++ x :: ys) → x ∉ r :: xs ++ ys.
Proof. intros [Hnd _]. rewrite NoDup_cons, NoDup_app, NoDup_cons in Hnd. set_solver. Qed.

Lemma insert_before_changes disposer r xs ys x m :
  represents (nodes m) r (xs ++ ys) → nodes m !! x = Some unlinked →
  ∃ m', insert_before level x (hd r ys) m = Ret m' ∧ changes disposer r (xs ++ ys) (xs ++ x :: ys) [] m m'.
Proof.
  intros H Hx. unfold insert_before. rewrite is_linked_free by done. cbn [mbind outcome_bind negb]. rewrite pre_true.
  destruct (insert_node_before_spec r xs ys x m H Hx) as (m' & -> & Hr & Hf & Hd).
  exists m'. split; [done|]. split; [done| | |by rewrite app_nil_r].
  - intros p Hp. apply Hf. set_solver.
  - intros y Hy. set_solver.
Qed.

Lemma pop_front_spec disposer r x xs m :
  represents (nodes m) r (x :: xs) →
  ∃ m', pop_front_and_dispose level r disposer m = Ret m' ∧ changes disposer r (x :: xs) xs [x] m m'.
Proof.
  intros H. unfold pop_front_and_dispose. rewrite (list_empty_spec r (x :: xs) m H). cbn [mbind outcome_bind].
  rewrite bool_decide_eq_false_2 by done. cbn [negb]. rewrite pre_true.
  pose proof H as [_ Hc]. apply chain_next in Hc.
  rewrite (load_next r m (λ v, node ← target v; _)) by eauto with cpp. rewrite Hc. cbn [target mbind outcome_bind hd].
  apply (remove_changes disposer r [] x xs m H).
Qed.

Lemma pop_back_spec disposer r xs x m :
  represents (nodes m) r (xs ++ [x]) →
  ∃ m', pop_back_and_dispose level r disposer m = Ret m' ∧ changes disposer r (xs ++ [x]) xs [x] m m'.
Proof.
  intros H. unfold pop_back_and_dispose. rewrite (list_empty_spec r (xs ++ [x]) m H). cbn [mbind outcome_bind].
  rewrite bool_decide_eq_false_2 by (by destruct xs). cbn [negb]. rewrite pre_true.
  pose proof H as [_ Hc]. apply chain_app in Hc as [_ [_ Hc]].
  rewrite (load_prev r m (λ v, node ← target v; _)) by eauto with cpp. rewrite Hc. cbn [target mbind outcome_bind].
  destruct (remove_changes disposer r xs x [] m H) as (m' & -> & Hch). exists m'. split; [done|].
  by rewrite app_nil_r in Hch.
Qed.

Lemma clear_loop_spec disposer r xs : ∀ fuel m,
  represents (nodes m) r xs → (length xs < fuel)%nat →
  ∃ m', clear_loop level r fuel disposer m = Ret m' ∧ changes disposer r xs [] xs m m'.
Proof.
  induction xs as [|x xs IH]; intros [|fuel] m H Hf; [lia| |lia|]; cbn [clear_loop]; rewrite (list_empty_spec r _ m H); cbn [mbind outcome_bind].
  { exists m. split; [done|]. by apply changes_refl. }
  rewrite bool_decide_eq_false_2 by done. cbn [negb].
  destruct (pop_front_spec disposer r x xs m H) as (m1 & -> & Hch). cbn [mbind outcome_bind].
  destruct (IH fuel m1) as (m' & -> & Hch'); [apply Hch|simpl in Hf; lia|]. exists m'. split; [done|].
  pose proof (removed_fresh _ r [] x xs H). apply (changes_trans disposer r (x :: xs) xs [] [x] xs m m1 m' Hch Hch'); set_solver.
Qed.

Lemma list_clear_spec disposer r xs m :
  represents (nodes m) r xs →
  ∃ m', clear_and_dispose level r disposer m = Ret m' ∧ changes disposer r xs [] xs m m'.
Proof. intros H. apply clear_loop_spec; [done|]. by apply (represents_length m r). Qed.

Lemma erase_loop_spec disposer r xs zs ys : ∀ fuel m,
  represents (nodes m) r (xs ++ ys ++ zs) → (length ys < fuel)%nat →
  ∃ m', erase_loop level r fuel (Some (hd r (ys ++ zs))) (Some (hd r zs)) disposer m = Ret m'
  ∧ changes disposer r (xs ++ ys ++ zs) (xs ++ zs) ys m m'.
Proof.
  induction ys as [|y ys IH]; intros [|fuel] m H Hf; [lia| |lia|]; cbn [erase_loop app hd].
  { rewrite bool_decide_eq_true_2 by done. exists m. split; [done|]. by apply changes_refl. }
  pose proof (removed_fresh _ r xs y (ys ++ zs) H) as Hfresh.
  rewrite bool_decide_eq_false_2 by (intros [= ->]; destruct zs; set_solver).
  rewrite (list_empty_spec r _ m H). cbn [mbind outcome_bind]. rewrite bool_decide_eq_false_2 by (by destruct xs).
  cbn [negb]. rewrite pre_true. cbn [target mbind outcome_bind].
  rewrite (list_increment_spec r xs y (ys ++ zs) m H). cbn [mbind outcome_bind].
  destruct (remove_changes disposer r xs y (ys ++ zs) m H) as (m1 & -> & Hch). cbn [mbind outcome_bind].
  destruct (IH fuel m1) as (m' & -> & Hch'); [apply Hch|simpl in Hf; lia|]. exists m'. split; [done|].
  refine (changes_trans disposer r _ _ _ [y] ys m m1 m' Hch Hch' _ _); set_solver.
Qed.

(** ** Removal by a predicate *)

(** All nodes except [D] are still alive. *)
Definition survive (D : list ref) (m m' : memory) : Prop :=
  ∀ q, alive (nodes m) q → q ∉ D → alive (nodes m') q.

Lemma survive_remove disposer D r xs x ys m0 m m1 :
  survive D m0 m → represents (nodes m) r (xs ++ x :: ys) →
  changes disposer r (xs ++ x :: ys) (xs ++ ys) [x] m m1 → (disposer x = true → x ∈ D) → survive D m0 m1.
Proof.
  intros Hs H [Hr Hf Hg _] HD q Hq Hn. destruct (decide (q = x)) as [->|Hne].
  { unfold alive. rewrite Hg by set_solver. unfold left_over. destruct (disposer x); [by destruct Hn; auto|by eexists]. }
  destruct (decide (q ∈ r :: xs ++ ys)); [by eapply represents_alive|].
  unfold alive. rewrite Hf; [by apply Hs|set_solver].
Qed.

Lemma remove_loop_spec pred (p : ref → bool) disposer D r m0 :
  (∀ x m, alive (nodes m) x → survive D m0 m → pred x m = Ret (p x)) →
  ∀ ys xs fuel m, represents (nodes m) r (xs ++ ys) → (length ys < fuel)%nat → survive D m0 m →
  (∀ x, x ∈ ys → p x = true → disposer x = true → x ∈ D) →
  ∃ m', remove_loop level r fuel pred disposer (Some (hd r ys)) m = Ret m'
  ∧ changes disposer r (xs ++ ys) (xs ++ filter (λ x, p x = false) ys) (filter (λ x, p x = true) ys) m m'.
Proof.
  intros Hpred. induction ys as [|y ys IH]; intros xs [|fuel] m H Hf Hs HD; [lia| |lia|]; cbn [remove_loop hd]; unfold end_.
  { rewrite bool_decide_eq_true_2 by done. exists m. split; [done|]. by apply changes_refl. }
  pose proof (removed_fresh _ r xs y ys H) as Hfresh.
  rewrite bool_decide_eq_false_2 by (intros [= ->]; set_solver).
  unfold deref, is_valid. rewrite bool_decide_eq_true_2, pre_true by done. cbn [target mbind outcome_bind].
  rewrite Hpred; [|by eapply represents_alive; [done|set_solver]|done]. cbn [mbind outcome_bind].
  rewrite (list_increment_spec r xs y ys m H). rewrite !filter_cons. destruct (p y) eqn:Hp; cbn [mbind outcome_bind].
  - destruct (remove_changes disposer r xs y ys m H) as (m1 & -> & Hch). cbn [mbind outcome_bind].
    destruct (IH xs fuel m1) as (m' & -> & Hch');
      [apply Hch|simpl in Hf; lia|eapply survive_remove; [done..|]; apply HD; set_solver|set_solver|].
    exists m'. split; [done|].
    refine (changes_trans disposer r _ _ _ [y] _ m m1 m' Hch Hch' _ _); [|set_solver].
    intros x ->%list_elem_of_singleton Hin. apply Hfresh.
    rewrite elem_of_cons, !elem_of_app, list_elem_of_filter in *. tauto.
  - pose proof (IH (xs ++ [y]) fuel m) as Hrest. rewrite <- !(assoc_L (++)) in Hrest.
    apply Hrest; [done|simpl in Hf; lia|done|set_solver].
Qed.

Lemma remove_if_spec pred (p : ref → bool) disposer r xs m :
  let D := filter (λ x, p x = true ∧ disposer x = true) xs in
  (∀ x m', alive (nodes m') x → survive D m m' → pred x m' = Ret (p x)) → represents (nodes m) r xs →
  ∃ m', remove_and_dispose_if level r pred disposer m = Ret m'
  ∧ changes disposer r xs (filter (λ x, p x = false) xs) (filter (λ x, p x = true) xs) m m'.
Proof.
  intros D Hpred H. unfold remove_and_dispose_if. rewrite (begin_spec r xs m H). cbn [mbind outcome_bind].
  apply (remove_loop_spec pred p disposer D r m Hpred xs [] _ m H); [by apply (represents_length m r)|by intros ? ?|].
  intros x Hx Hp Hd. by apply list_elem_of_filter.
Qed.

(** ** Moving lists and elements *)

Lemma make_empty_root_spec r m :
  alive (nodes m) r →
  ∃ m', make_empty_root r m = Ret m' ∧ represents (nodes m') r [] ∧ frame [r] (nodes m) (nodes m')
  ∧ disposed m' = disposed m.
Proof.
  intros Hr. unfold make_empty_root. rewrite set_next_alive by done. cbn [mbind outcome_bind].
  rewrite set_prev_alive by alive. eexists. split; [done|]. split; [split; [by apply NoDup_singleton|]|split; [|done]].
  - split; fields; by rewrite decide_True.
  - intros p Hp. cbn. rewrite lookup_upd_prev, lookup_upd_next; [done|set_solver..].
Qed.

Lemma take_over_spec this from x xs m :
  represents (nodes m) this [] → represents (nodes m) from (x :: xs) → this ∉ from :: x :: xs →
  ∃ m', take_over this from m = Ret m'
  ∧ represents (nodes m') this (x :: xs) ∧ represents (nodes m') from []
  ∧ frame (this :: from :: x :: xs) (nodes m) (nodes m') ∧ disposed m' = disposed m.
Proof.
  intros [_ Ht] [Hnd [Hfx Hc]] Hnot. pose proof Hfx as [Hf1 Hf2]. pose proof Ht as [Ht1 Ht2].
  apply NoDup_cons in Hnd as [Hfrom Hnd].
  destruct (chain_end _ _ _ _ Hnd Hc) as (a & Ha & [Hl1 Hl2] & Hend).
  assert (a ≠ this ∧ x ≠ this ∧ from ≠ this ∧ a ≠ from ∧ x ≠ from) as (Hat & Hxt & Hft & Haf & Hxf).
  { repeat split; intros ->; set_solver. }
  unfold take_over.
  rewrite (load_prev from m (λ v, m0 ← set_prev (Some this) v m; _)) by eauto with cpp. rewrite Hl2.
  rewrite set_prev_alive by alive. cbn [mbind outcome_bind].
  rewrite (load_prev this _ (λ v, m0 ← set_next v (Some this) _; _)) by alive. fields. rewrite decide_True by done.
  rewrite set_next_alive by alive. cbn [mbind outcome_bind].
  rewrite (load_next from _ (λ v, m0 ← set_next (Some this) v _; _)) by alive. fields. rewrite decide_False by done.
  rewrite Hf1. rewrite set_next_alive by alive. cbn [mbind outcome_bind].
  rewrite (load_next this _ (λ v, m0 ← set_prev v (Some this) _; _)) by alive. fields. rewrite decide_True by done.
  rewrite set_prev_alive by alive. cbn [mbind outcome_bind].
  match goal with |- context [make_empty_root from ?m1] => destruct (make_empty_root_spec from m1) as (m' & -> & Hr & Hf & Hd) end; [alive|].
  exists m'. split; [done|]. cbn [nodes with_nodes disposed] in *.
  assert (∀ p, p ≠ from → nodes m' !! p = upd_prev x (Some this) (upd_next this (Some x)
    (upd_next a (Some this) (upd_prev this (Some a) (nodes m)))) !! p) as HN by (intros p Hp; apply Hf; set_solver).
  split; [|split; [done|split; [|done]]].
  - eapply (represents_frame (upd_prev x (Some this) (upd_next this (Some x)
      (upd_next a (Some this) (upd_prev this (Some a) (nodes m)))))); [intros p Hp; apply HN; set_solver|].
    split; [constructor; [set_solver|done]|]. split; [split; fields; by rewrite decide_True|]. apply Hend.
    + intros c Hin Hne. fields. rewrite !decide_False; [done|done|set_solver].
    + intros c Hin. fields. rewrite !decide_False; [done|set_solver|].
      intros <-. apply NoDup_cons in Hnd. set_solver.
    + split; fields; rewrite decide_False, decide_True; done.
  - intros p Hp. rewrite HN by set_solver.
    rewrite lookup_upd_prev, lookup_upd_next, lookup_upd_next, lookup_upd_prev; [done|set_solver..].
Qed.

Definition replaced (y x a b : ref) (N : heap) : heap :=
  upd_prev x None (upd_next x None (upd_next a (Some y) (upd_prev y (Some a) (upd_prev b (Some y) (upd_next y (Some b) N))))).

Lemma take_place_eq y x a b m :
  alive (nodes m) y → link (nodes m) a x → link (nodes m) x b → x ≠ a → x ≠ b → y ≠ x → y ≠ a → y ≠ b →
  take_place level y x m = Ret (with_nodes (replaced y x a b) m).
Proof.
  intros Hy [H1 H2] [H3 H4] Hxa Hxb Hyx Hya Hyb. unfold take_place.
  rewrite (load_next x m (λ v, m0 ← set_next (Some y) v m; _)) by eauto with cpp. rewrite H3.
  rewrite set_next_alive by alive. cbn [mbind outcome_bind].
  rewrite (load_next y _ (λ v, m0 ← set_prev v (Some y) _; _)) by alive. fields. rewrite decide_True by done.
  rewrite set_prev_alive by alive. cbn [mbind outcome_bind].
  rewrite (load_prev x _ (λ v, m0 ← set_prev (Some y) v _; _)) by alive. fields. rewrite decide_False, H2 by done.
  rewrite set_prev_alive by alive. cbn [mbind outcome_bind].
  rewrite (load_prev y _ (λ v, m0 ← set_next v (Some y) _; _)) by alive. fields. rewrite decide_True by done.
  rewrite set_next_alive by alive. cbn [mbind outcome_bind].
  rewrite unlink_eq; [done|alive|]. fields. rewrite !decide_False by done. by rewrite H3.
Qed.

Lemma take_place_spec y x r xs ys m :
  represents (nodes m) r (xs ++ x :: ys) → nodes m !! y = Some unlinked →
  ∃ m', take_place level y x m = Ret m' ∧ represents (nodes m') r (xs ++ y :: ys) ∧ nodes m' !! x = Some unlinked
  ∧ frame (r :: xs ++ x :: y :: ys) (nodes m) (nodes m') ∧ disposed m' = disposed m.
Proof.
  intros Hr Hy. pose proof (represents_free _ _ _ _ Hr Hy) as Hnew. pose proof (removed_fresh _ _ _ _ _ Hr) as Hx.
  destruct Hr as [Hnd Hc]. set (N := nodes m) in *. apply chain_app in Hc as [H1 H2].
  assert (NoDup (r :: xs) ∧ NoDup ys ∧ ∀ p, p ∈ r :: xs → p ∉ ys) as (Hnd1 & Hnd2 & Hdis).
  { rewrite app_comm_cons in Hnd. apply NoDup_app in Hnd as (? & Hd & [_ ?]%NoDup_cons). split_and!; [done..|].
    intros p Hp Hin. by apply (Hd p Hp), list_elem_of_further. }
  destruct (chain_end _ _ _ _ Hnd1 H1) as (a & Ha & Hl & Hend).
  assert (link N x (hd r ys) ∧ match ys with [] => True | z :: ys => chain N z ys r end) as [Hl' H3].
  { by destruct ys. }
  assert (hd r ys ∈ r :: ys) as Hb by (destruct ys; set_solver).
  assert (x ≠ a ∧ x ≠ hd r ys ∧ y ≠ x ∧ y ≠ a ∧ y ≠ hd r ys) as (Hxa & Hxb & Hyx & Hya & Hyb).
  { split_and!; intros E; subst; set_solver. }
  assert (alive N y) as Hay by (by eexists). pose proof Hl as [Hl1 Hl2]. pose proof Hl' as [Hl3 Hl4].
  rewrite (take_place_eq y x a (hd r ys) m) by done. eexists. split; [done|]. cbn [nodes with_nodes disposed]. fold N.
  assert (link (replaced y x a (hd r ys) N) a y ∧ link (replaced y x a (hd r ys) N) y (hd r ys)) as [Hay' Hyb'].
  { unfold replaced. split; split; fields; repeat (rewrite decide_False by done); by rewrite decide_True. }
  split; [split|split; [|split; [|done]]].
  - rewrite app_comm_cons, NoDup_app in *. destruct Hnd as (? & ? & ?). split_and!; [done|set_solver|].
    constructor; [set_solver|done].
  - apply chain_app. split.
    + apply Hend; [| |done]; unfold replaced.
      * intros c Hin Hne. fields. rewrite !decide_False; [done|set_solver|done|set_solver].
      * intros c Hin. fields. rewrite !decide_False; [done| |set_solver|set_solver].
        intros <-. destruct ys; [apply NoDup_cons in Hnd1; set_solver|set_solver].
    + destruct ys as [|z ys]; [done|]. split; [done|]. apply NoDup_cons in Hnd2 as [Hz _]. cbn [hd] in *.
      eapply chain_frame; [| |exact H3]; unfold replaced; intros c Hin; fields.
      * rewrite !decide_False; [done|set_solver| |set_solver]. intros <-. by apply (Hdis a).
      * rewrite !decide_False; [done|intros <-; set_solver|set_solver|set_solver].
  - unfold replaced. set (N1 := upd_next a _ _). assert (alive N1 x) as [n Hn] by (unfold N1; alive).
    unfold upd_prev, upd_next. by rewrite lookup_alter_eq, lookup_alter_eq, Hn.
  - intros p Hp. unfold replaced.
    rewrite lookup_upd_prev, lookup_upd_next, lookup_upd_next, lookup_upd_prev, lookup_upd_prev, lookup_upd_next;
      [done|..]; intros <-; set_solver.
Qed.

End Level.

End IntrusiveListSpec.
