(* ===== verification/IntrusiveListSystem.v ===== *)
(** * Programs with intrusive lists

    The abstract state of a program: the lists with their sequences, the
    elements that are in no list, and the elements that were passed to a
    disposer.  Every sequence of operations that respects the preconditions
    runs in the model of containers/intrusive_list.h and leads to the memory
    that represents the abstract state. *)

From S2P Require Import Prelude CppInt CircularBuffer IntrusiveList IntrusiveListSpec.
Import IntrusiveList IntrusiveListSpec.

Module IntrusiveListSystem.

Record state := { lists : gmap ref (list ref); free : gset ref; log : list ref }.

(** [p] is a node of one of the lists. *)
Definition within (s : state) (p : ref) : Prop := ∃ r xs, lists s !! r = Some xs ∧ p ∈ r :: xs.

Definition dead (s : state) (p : ref) : Prop := p ∉ free s ∧ ¬ within s p.

Record rep (m : memory) (s : state) : Prop := {
  rep_lists : ∀ r xs, lists s !! r = Some xs → represents (nodes m) r xs;
  rep_disjoint : ∀ r1 xs1 r2 xs2 p, lists s !! r1 = Some xs1 → lists s !! r2 = Some xs2 →
    p ∈ r1 :: xs1 → p ∈ r2 :: xs2 → r1 = r2;
  rep_free : ∀ p, p ∈ free s → nodes m !! p = Some unlinked;
  rep_dead : ∀ p, dead s p → nodes m !! p = None;
  rep_log : disposed m = log s;
}.

(** ** Operations *)

Inductive insertion :=
  | PushFront (x : ref)
  | PushBack (x : ref)
  | Insert (i : nat) (new : list ref).

Inductive removal :=
  | PopFront
  | PopBack
  | Erase (i : nat)
  | EraseRange (i n : nat)
  | Clear
  | RemoveIf (p : ref → bool).

Inductive operation :=
  | NewElement (x : ref)
  | CopyElement (y x : ref)
  | MoveElement (y x : ref)
  | DestroyElement (x : ref)
  | NewList (r : ref)
  | DestroyList (r : ref)
  | Add (r : ref) (o : insertion)
  | Remove (r : ref) (disposer : Disposer) (o : removal)
  | Assign (r : ref) (disposer : Disposer) (new : list ref)
  | MoveAssign (r from : ref)
  | Swap (tmp r r' : ref).

Section Exec.
Variable level : assert_level.

(** [std::next(list.begin(), i)]. *)
Definition position (r : ref) (i : nat) (m : memory) : outcome iterator :=
  first ← begin_ r m; advance level i first m.

Definition exec_insertion (r : ref) (o : insertion) (m : memory) : outcome memory :=
  match o with
  | PushFront x => push_front level r x m
  | PushBack x => push_back level r x m
  | Insert i new => it ← position r i m; fst <$> insert_range level it new m
  end.

Definition exec_removal (r : ref) (disposer : Disposer) (o : removal) (m : memory) : outcome memory :=
  match o with
  | PopFront => pop_front_and_dispose level r disposer m
  | PopBack => pop_back_and_dispose level r disposer m
  | Erase i => it ← position r i m; fst <$> erase_and_dispose level r it disposer m
  | EraseRange i n =>
      first ← position r i m;
      last ← advance level n first m;
      fst <$> erase_range_and_dispose level r first last disposer m
  | Clear => clear_and_dispose level r disposer m
  | RemoveIf p => remove_and_dispose_if level r (λ x _, Ret (p x)) disposer m
  end.

Definition exec (o : operation) (m : memory) : outcome memory :=
  match o with
  | NewElement x => element_construct x m
  | CopyElement y x => element_copy y x m
  | MoveElement y x => element_move level y x m
  | DestroyElement x => element_destroy level x m
  | NewList r => list_construct r m
  | DestroyList r => list_destroy level r m
  | Add r o => exec_insertion r o m
  | Remove r disposer o => exec_removal r disposer o m
  | Assign r disposer new => dispose_and_assign level r disposer new m
  | MoveAssign r from => list_move_assign level r from m
  | Swap tmp r r' => swap level tmp r r' m
  end.

Fixpoint run (os : list operation) (m : memory) : outcome memory :=
  match os with [] => Ret m | o :: os => m ← exec o m; run os m end.

End Exec.

(** ** Abstract operations *)

(** The sequence after an insertion, and the new elements. *)
Definition insertion_spec (o : insertion) (l : list ref) : option (list ref * list ref) :=
  match o with
  | PushFront x => Some (x :: l, [x])
  | PushBack x => Some (l ++ [x], [x])
  | Insert i new => if (i <=? length l)%nat then Some (take i l ++ new ++ drop i l, new) else None
  end.

(** The sequence after a removal, and the removed elements. *)
Definition removal_spec (o : removal) (l : list ref) : option (list ref * list ref) :=
  match o with
  | PopFront => match l with x :: l => Some (l, [x]) | [] => None end
  | PopBack => match last l with Some x => Some (removelast l, [x]) | None => None end
  | Erase i => match l !! i with Some x => Some (take i l ++ drop (S i) l, [x]) | None => None end
  | EraseRange i n =>
      if (i + n <=? length l)%nat then Some (take i l ++ drop (i + n) l, take n (drop i l)) else None
  | Clear => Some ([], l)
  | RemoveIf p => Some (filter (λ x, p x = false) l, filter (λ x, p x = true) l)
  end.

Definition put_in (r : ref) (l new : list ref) (s : state) : state :=
  {| lists := <[r := l]> (lists s); free := free s ∖ list_to_set new; log := log s |}.

Definition take_out (disposer : Disposer) (r : ref) (l gone : list ref) (s : state) : state :=
  {| lists := <[r := l]> (lists s); free := free s ∪ list_to_set (filter (λ x, disposer x = false) gone);
     log := log s ++ gone |}.

(** [r], which is empty, takes over the elements of [from]. *)
Definition taken_over (r from : ref) (l : list ref) (s : state) : state :=
  {| lists := <[from := []]> (<[r := l]> (lists s)); free := free s; log := log s |}.

Definition set_free (F : gset ref) (s : state) : state := {| lists := lists s; free := F; log := log s |}.

Inductive step : operation → state → state → Prop :=
  | step_new x s : dead s x → step (NewElement x) s (set_free ({[x]} ∪ free s) s)
  | step_copy y x s : dead s y → ¬ dead s x → step (CopyElement y x) s (set_free ({[y]} ∪ free s) s)
  | step_move_free y x s : dead s y → x ∈ free s → step (MoveElement y x) s (set_free ({[y]} ∪ free s) s)
  | step_move_linked y x s r l1 l2 : dead s y → lists s !! r = Some (l1 ++ x :: l2) →
      step (MoveElement y x) s
        {| lists := <[r := l1 ++ y :: l2]> (lists s); free := {[x]} ∪ free s; log := log s |}
  | step_destroy x s : x ∈ free s → step (DestroyElement x) s (set_free (free s ∖ {[x]}) s)
  | step_new_list r s : dead s r →
      step (NewList r) s {| lists := <[r := []]> (lists s); free := free s; log := log s |}
  | step_destroy_list r s : lists s !! r = Some [] →
      step (DestroyList r) s {| lists := delete r (lists s); free := free s; log := log s |}
  | step_add r o l l' new s : lists s !! r = Some l → insertion_spec o l = Some (l', new) →
      NoDup new → (∀ x, x ∈ new → x ∈ free s) → step (Add r o) s (put_in r l' new s)
  | step_remove r disposer o l l' gone s : lists s !! r = Some l → removal_spec o l = Some (l', gone) →
      step (Remove r disposer o) s (take_out disposer r l' gone s)
  | step_assign r disposer l new s s1 : lists s !! r = Some l → s1 = take_out disposer r [] l s →
      NoDup new → (∀ x, x ∈ new → x ∈ free s1) → step (Assign r disposer new) s (put_in r new new s1)
  | step_move_assign_self r l s : lists s !! r = Some l → step (MoveAssign r r) s s
  | step_move_assign r from l l' s : r ≠ from → lists s !! r = Some l → lists s !! from = Some l' →
      step (MoveAssign r from) s (taken_over r from l' (take_out keep r [] l s))
  | step_swap_self tmp r l s : lists s !! r = Some l → step (Swap tmp r r) s s
  | step_swap tmp r r' l l' s : r ≠ r' → dead s tmp → lists s !! r = Some l → lists s !! r' = Some l' →
      step (Swap tmp r r') s
        {| lists := <[r' := l]> (<[r := l']> (lists s)); free := free s; log := log s |}.

Inductive steps : list operation → state → state → Prop :=
  | steps_nil s : steps [] s s
  | steps_cons o os s s1 s2 : step o s s1 → steps os s1 s2 → steps (o :: os) s s2.

(** ** Changes of one list *)

Section Level.
Variable level : assert_level.

(** The nodes of other lists do not change. *)
Lemma rep_other_lists disposer m m' s r l l' gone :
  rep m s → lists s !! r = Some l → changes disposer r l l' gone m m' →
  (∀ x, x ∈ l' → x ∈ l ∨ x ∈ free s) →
  ∀ r' xs, lists s !! r' = Some xs → r' ≠ r → represents (nodes m') r' xs ∧ ∀ p, p ∈ r' :: xs → p ∉ r :: l ++ l'.
Proof.
  intros Hrep Hl Hch Hl' r' xs Hr' Hne.
  assert (∀ p, p ∈ r' :: xs → p ∉ r :: l ++ l') as Hdis.
  { intros p Hp Hin. rewrite app_comm_cons, elem_of_app in Hin. destruct Hin as [Hin|Hin].
    - by apply Hne, (rep_disjoint _ _ Hrep r' xs r l p).
    - destruct (Hl' p Hin) as [Hin'|Hfree].
      + apply Hne, (rep_disjoint _ _ Hrep r' xs r l p); [done..|set_solver].
      + destruct (rep_lists _ _ Hrep _ _ Hr') as [_ Hc]. destruct (chain_linked _ _ _ _ _ Hc Hp) as [b Hb].
        unfold nxt in Hb. by rewrite (rep_free _ _ Hrep p Hfree) in Hb. }
  split; [|done]. eapply represents_frame; [|by apply (rep_lists _ _ Hrep)].
  intros p Hp. apply (changes_frame _ _ _ _ _ _ _ Hch). by apply Hdis.
Qed.

(** A free element is in no list. *)
Lemma rep_free_not_within m s p : rep m s → p ∈ free s → ¬ within s p.
Proof.
  intros Hrep Hp (r & xs & Hr & Hin). destruct (rep_lists _ _ Hrep _ _ Hr) as [_ Hc].
  destruct (chain_linked _ _ _ _ _ Hc Hin) as [b Hb]. unfold nxt in Hb. by rewrite (rep_free _ _ Hrep p Hp) in Hb.
Qed.

Lemma rep_change disposer m m' s r l l' gone F :
  rep m s → lists s !! r = Some l → changes disposer r l l' gone m m' →
  (∀ x, x ∈ l' → x ∈ l ∨ x ∈ free s) →
  (∀ x, x ∈ F → nodes m' !! x = Some unlinked) →
  (∀ x, x ∈ l → x ∉ l' → x ∉ F → nodes m' !! x = None) → (∀ x, x ∈ free s → x ∉ l' → x ∈ F) →
  rep m' {| lists := <[r := l']> (lists s); free := F; log := log s ++ gone |}.
Proof.
  intros Hrep Hl Hch Hl' HF Hgone HF'. pose proof (rep_other_lists _ _ _ _ _ _ _ _ Hrep Hl Hch Hl') as Hother.
  split; cbn [lists free log].
  - intros r' xs [[<- <-]|[Hne Hr']]%lookup_insert_Some; [apply Hch|by apply Hother].
  - intros r1 xs1 r2 xs2 p [[<- <-]|[Hne1 H1]]%lookup_insert_Some [[<- <-]|[Hne2 H2]]%lookup_insert_Some Hp1 Hp2;
      [done|..|by eapply (rep_disjoint _ _ Hrep)].
    + destruct (Hother r2 xs2 H2) as [_ Hd]; [done|]. destruct (Hd p Hp2). set_solver.
    + destruct (Hother r1 xs1 H1) as [_ Hd]; [done|]. destruct (Hd p Hp1). set_solver.
  - done.
  - intros p [Hf Hw]. cbn [free] in Hf.
    assert (p ≠ r ∧ p ∉ l') as [Hpr Hpl'].
    { split; intros Hin; destruct Hw; exists r, l'; cbn [lists]; rewrite lookup_insert_eq; (split; [done|set_solver]). }
    destruct (decide (p ∈ l)) as [Hin|Hin]; [by apply Hgone|].
    rewrite (changes_frame _ _ _ _ _ _ _ Hch) by set_solver. apply (rep_dead _ _ Hrep). split; [auto|].
    intros (r' & xs & Hr' & Hp). destruct (decide (r' = r)) as [->|Hne]; [set_solver|].
    destruct Hw. exists r', xs. cbn [lists]. by rewrite lookup_insert_ne.
  - by rewrite (changes_log _ _ _ _ _ _ _ Hch), (rep_log _ _ Hrep).
Qed.

Lemma rep_remove disposer m m' s r l l' gone :
  rep m s → lists s !! r = Some l → changes disposer r l l' gone m m' → l ≡ₚ l' ++ gone →
  rep m' (take_out disposer r l' gone s).
Proof.
  intros Hrep Hl Hch Hperm. assert (∀ x, x ∈ l ↔ x ∈ l' ∨ x ∈ gone) as Hin.
  { intros x. by rewrite Hperm, elem_of_app. }
  eapply rep_change; [done..| | | |]; [set_solver| | |set_solver].
  - intros x [Hx|Hx]%elem_of_union.
    + rewrite (changes_frame _ _ _ _ _ _ _ Hch); [by apply (rep_free _ _ Hrep)|].
      pose proof (rep_free_not_within _ _ _ Hrep Hx) as Hw. intros Hx'. destruct Hw. exists r, l. set_solver.
    + rewrite elem_of_list_to_set, list_elem_of_filter in Hx. destruct Hx as [Hd Hx].
      rewrite (changes_gone _ _ _ _ _ _ _ Hch x Hx). unfold left_over. by rewrite Hd.
  - intros x Hx Hx' HF. assert (x ∈ gone) as Hg by (apply Hin in Hx as [?|?]; done).
    rewrite (changes_gone _ _ _ _ _ _ _ Hch x Hg). unfold left_over. destruct (disposer x) eqn:Hd; [done|].
    destruct HF. rewrite elem_of_union, elem_of_list_to_set, list_elem_of_filter. auto.
Qed.

Lemma rep_add disposer m m' s r l l' new :
  rep m s → lists s !! r = Some l → changes disposer r l l' [] m m' → l' ≡ₚ l ++ new →
  (∀ x, x ∈ new → x ∈ free s) → rep m' (put_in r l' new s).
Proof.
  intros Hrep Hl Hch Hperm Hnew. assert (∀ x, x ∈ l' ↔ x ∈ l ∨ x ∈ new) as Hin.
  { intros x. by rewrite Hperm, elem_of_app. }
  unfold put_in. rewrite <- (app_nil_r (log s)).
  eapply rep_change; [done..| | | |]; [set_solver| |set_solver|set_solver].
  intros x [Hx Hx']%elem_of_difference.
  rewrite (changes_frame _ _ _ _ _ _ _ Hch); [by apply (rep_free _ _ Hrep)|].
  pose proof (rep_free_not_within _ _ _ Hrep Hx) as Hw. intros Hx2. destruct Hw. exists r, l. set_solver.
Qed.

(** ** Insertions *)

Lemma fst_insert t x m :
  nodes m !! x = Some unlinked → fst <$> insert level (Some t) x m = insert_before level x t m.
Proof.
  intros Hx. unfold insert, insert_before. rewrite is_linked_free by done. cbn [mbind outcome_bind negb target].
  rewrite !pre_true. by destruct (insert_node_before x t m).
Qed.

Lemma fst_insert_range t new m :
  fst <$> insert_range level (Some t) new m = for_each (λ x m, fst <$> insert level (Some t) x m) new m.
Proof.
  destruct new as [|x new]; [done|]. cbn [insert_range for_each].
  destruct (insert level (Some t) x m) as [[m1 it]| |]; [|done..]. cbn. by destruct (for_each _ new m1).
Qed.

(** A function that inserts each of the elements at the same position. *)
Lemma for_each_spec f r ys new :
  (∀ x m, nodes m !! x = Some unlinked → f x m = insert_before level x (hd r ys) m) →
  ∀ xs m, represents (nodes m) r (xs ++ ys) → NoDup new → (∀ x, x ∈ new → nodes m !! x = Some unlinked) →
  ∃ m', for_each f new m = Ret m' ∧ changes keep r (xs ++ ys) (xs ++ new ++ ys) [] m m'.
Proof.
  intros Hf. induction new as [|x new IH]; intros xs m H Hnd Hfree; cbn [for_each].
  { exists m. split; [done|]. by apply changes_refl. }
  apply NoDup_cons in Hnd as [Hx Hnd]. rewrite Hf by (apply Hfree; set_solver).
  destruct (insert_before_changes level keep r xs ys x m H) as (m1 & -> & Hch); [apply Hfree; set_solver|].
  cbn [mbind outcome_bind]. pose proof (IH (xs ++ [x]) m1) as Hrest. rewrite <- !(assoc_L (++)) in Hrest.
  destruct Hrest as (m' & -> & Hch'); [apply Hch|done| |].
  - intros y Hy. rewrite (changes_frame _ _ _ _ _ _ _ Hch); [apply Hfree; set_solver|].
    pose proof (represents_free _ _ _ y H (Hfree y ltac:(set_solver))). set_solver.
  - exists m'. split; [done|]. apply (changes_trans keep r _ _ _ [] [] m m1 m' Hch Hch'); set_solver.
Qed.

Lemma position_spec r i xs m :
  represents (nodes m) r xs → (i <= length xs)%nat →
  position level r i m = Ret (Some (hd r (drop i xs))).
Proof.
  intros H Hi. unfold position. rewrite (begin_spec r xs m H). cbn [mbind outcome_bind].
  pose proof (advance_spec level r [] (take i xs) (drop i xs) m) as E. cbn [app] in E.
  rewrite take_drop, length_take_le in E by done. auto.
Qed.

Lemma insertion_perm o l l' new : insertion_spec o l = Some (l', new) → l' ≡ₚ l ++ new.
Proof.
  destruct o; simpl; [intros [= <- <-]..|].
  - by rewrite Permutation_app_comm.
  - done.
  - destruct (Nat.leb_spec i (length l)); [|done]. intros [= <- <-].
    rewrite (Permutation_app_comm new0), (assoc_L (++)), take_drop. done.
Qed.

Lemma exec_insertion_spec r o l l' new m :
  represents (nodes m) r l → insertion_spec o l = Some (l', new) → NoDup new →
  (∀ x, x ∈ new → nodes m !! x = Some unlinked) →
  ∃ m', exec_insertion level r o m = Ret m' ∧ changes keep r l l' [] m m'.
Proof.
  intros H Ho Hnd Hfree. destruct o as [x|x|i ys]; cbn [exec_insertion insertion_spec] in *.
  - injection Ho as <- <-. unfold push_front. pose proof H as [_ Hc]. apply chain_next in Hc.
    rewrite (load_next r m (λ v, first ← target v; _)) by (by eapply nxt_alive). rewrite Hc. cbn [target mbind outcome_bind].
    apply (insert_before_changes level keep r [] l x m); [done|apply Hfree; set_solver].
  - injection Ho as <- <-. unfold push_back.
    pose proof (insert_before_changes level keep r l [] x m) as E. rewrite app_nil_r in E.
    apply E; [done|apply Hfree; set_solver].
  - destruct (Nat.leb_spec i (length l)) as [Hi|]; [|done]. injection Ho as <- <-.
    rewrite (position_spec r i l m H Hi). cbn [mbind outcome_bind]. rewrite fst_insert_range.
    rewrite <- (take_drop i l) in H.
    destruct (for_each_spec (λ x m, fst <$> insert level (Some (hd r (drop i l))) x m) r (drop i l) ys
      (fst_insert _) (take i l) m H Hnd Hfree) as (m' & E & Hch).
    exists m'. split; [done|]. by rewrite take_drop in Hch.
Qed.

(** ** Removals *)

Lemma removal_perm o l l' gone : removal_spec o l = Some (l', gone) → l ≡ₚ l' ++ gone.
Proof.
  destruct o; simpl.
  - destruct l as [|x l]; [done|]. intros [= <- <-]. by rewrite Permutation_app_comm.
  - destruct l as [|x l _] using rev_ind; [done|]. rewrite last_snoc, removelast_last. by intros [= <- <-].
  - destruct (l !! i) as [x|] eqn:Hx; [|done]. intros [= <- <-].
    rewrite <- (take_drop_middle l i x Hx) at 1. rewrite <- (assoc_L (++)), (Permutation_app_comm _ [x]). done.
  - destruct (Nat.leb_spec (i + n) (length l)); [|done]. intros [= <- <-].
    rewrite <- (take_drop i l) at 1. rewrite <- (take_drop n (drop i l)) at 1. rewrite drop_drop.
    rewrite <- (assoc_L (++)). by rewrite (Permutation_app_comm (drop _ _)).
  - by intros [= <- <-].
  - intros [= <- <-]. clear. induction l as [|x l IH]; [done|]. rewrite !filter_cons. destruct (p x); simpl.
    + by rewrite <- Permutation_middle, <- IH.
    + by rewrite <- IH.
Qed.

Lemma exec_removal_spec r disposer o l l' gone m :
  represents (nodes m) r l → removal_spec o l = Some (l', gone) →
  ∃ m', exec_removal level r disposer o m = Ret m' ∧ changes disposer r l l' gone m m'.
Proof.
  intros H Ho. destruct o as [| |i|i n| |p]; cbn [exec_removal removal_spec] in *.
  - destruct l as [|x l]; [done|]. injection Ho as <- <-. by apply pop_front_spec.
  - destruct l as [|x l _] using rev_ind; [done|]. rewrite last_snoc, removelast_last in Ho. injection Ho as <- <-.
    by apply pop_back_spec.
  - destruct (l !! i) as [x|] eqn:Hx; [|done]. injection Ho as <- <-. pose proof (lookup_lt_Some _ _ _ Hx) as Hi.
    rewrite (position_spec r i l m H) by lia. cbn [mbind outcome_bind]. rewrite (drop_S l x i Hx). cbn [hd].
    unfold erase_and_dispose. rewrite (list_empty_spec r l m H). cbn [mbind outcome_bind].
    rewrite bool_decide_eq_false_2 by (by intros ->). cbn [negb]. rewrite pre_true.
    rewrite <- (take_drop_middle l i x Hx) in H. rewrite (list_increment_spec level r _ x _ m H). cbn [mbind outcome_bind target].
    destruct (remove_changes level disposer r _ x _ m H) as (m' & -> & Hch). exists m'. split; [done|].
    by rewrite (take_drop_middle l i x Hx) in Hch.
  - destruct (Nat.leb_spec (i + n) (length l)) as [Hi|]; [|done]. injection Ho as <- <-.
    rewrite (position_spec r i l m H) by lia. cbn [mbind outcome_bind].
    assert (l = take i l ++ take n (drop i l) ++ drop (i + n) l) as El.
    { by rewrite <- drop_drop, !take_drop. }
    assert (drop i l = take n (drop i l) ++ drop (i + n) l) as Ed by (by rewrite <- drop_drop, take_drop).
    rewrite El in H. pose proof (advance_spec level r _ _ _ m H) as Ea. rewrite <- Ed in Ea.
    rewrite length_take_le in Ea by (rewrite length_drop; lia). rewrite Ea. cbn [mbind outcome_bind].
    unfold erase_range_and_dispose.
    destruct (erase_loop_spec level disposer r _ (drop (i + n) l) (take n (drop i l)) (rounds m) m H) as (m' & E & Hch).
    { apply represents_length in H. rewrite !length_app in H. lia. }
    rewrite <- Ed in E. rewrite E. exists m'. split; [done|]. by rewrite <- El in Hch.
  - injection Ho as <- <-. by apply list_clear_spec.
  - injection Ho as <- <-. by apply (remove_if_spec level (λ x _, Ret (p x)) p disposer r l m).
Qed.

(** ** Construction and destruction *)

Lemma dead_ne m s p q : rep m s → dead s p → alive (nodes m) q → p ≠ q.
Proof. intros Hrep Hp [n Hn] ->. by rewrite (rep_dead _ _ Hrep q Hp) in Hn. Qed.

(** Lists survive a change of a node that is not theirs. *)
Lemma rep_lists_frame m N' s S r xs :
  rep m s → frame S (nodes m) N' → (∀ p, p ∈ S → ¬ within s p) →
  lists s !! r = Some xs → represents N' r xs.
Proof.
  intros Hrep Hf HS Hr. eapply represents_frame; [|by apply (rep_lists _ _ Hrep)].
  intros p Hp. apply Hf. intros Hin. apply (HS p Hin). by exists r, xs.
Qed.

Lemma rep_new_element m s x :
  rep m s → dead s x → ∃ m', element_construct x m = Ret m' ∧ rep m' (set_free ({[x]} ∪ free s) s).
Proof.
  intros Hrep Hx. unfold element_construct. rewrite (rep_dead _ _ Hrep x Hx). eexists. split; [done|].
  split; cbn [lists free log set_free nodes disposed with_nodes].
  - intros r xs Hr. eapply (rep_lists_frame m _ s [x]); [done| | |done].
    + intros p Hp. cbn. by rewrite lookup_insert_ne by set_solver.
    + intros p ->%list_elem_of_singleton. by destruct Hx.
  - apply (rep_disjoint _ _ Hrep).
  - intros p [->%elem_of_singleton|Hp]%elem_of_union; [by rewrite lookup_insert_eq|].
    rewrite lookup_insert_ne; [by apply (rep_free _ _ Hrep)|]. intros ->. by destruct Hx.
  - intros p [Hp Hw]. cbn [free set_free] in Hp. rewrite lookup_insert_ne by set_solver.
    apply (rep_dead _ _ Hrep). split; [set_solver|done].
  - apply (rep_log _ _ Hrep).
Qed.

Lemma rep_destroy_element m s x :
  rep m s → x ∈ free s → ∃ m', element_destroy level x m = Ret m' ∧ rep m' (set_free (free s ∖ {[x]}) s).
Proof.
  intros Hrep Hx. unfold element_destroy. rewrite is_linked_free by (by apply (rep_free _ _ Hrep)).
  cbn [mbind outcome_bind negb]. unfold ASSERT. rewrite pre_true. eexists. split; [done|].
  pose proof (rep_free_not_within _ _ _ Hrep Hx) as Hw.
  split; cbn [lists free log set_free nodes disposed with_nodes].
  - intros r xs Hr. eapply (rep_lists_frame m _ s [x]); [done| | |done].
    + intros p Hp. cbn. by rewrite lookup_delete_ne by set_solver.
    + by intros p ->%list_elem_of_singleton.
  - apply (rep_disjoint _ _ Hrep).
  - intros p [Hp Hne]%elem_of_difference. rewrite lookup_delete_ne by set_solver. by apply (rep_free _ _ Hrep).
  - intros p [Hp Hw']. cbn [free set_free] in Hp. destruct (decide (p = x)) as [->|Hne]; [by rewrite lookup_delete_eq|].
    rewrite lookup_delete_ne by done. apply (rep_dead _ _ Hrep). split; [set_solver|done].
  - apply (rep_log _ _ Hrep).
Qed.

Lemma rep_new_list m s r :
  rep m s → dead s r →
  ∃ m', list_construct r m = Ret m' ∧ rep m' {| lists := <[r := []]> (lists s); free := free s; log := log s |}.
Proof.
  intros Hrep Hr. unfold list_construct, element_construct. rewrite (rep_dead _ _ Hrep r Hr). cbn [mbind outcome_bind].
  destruct (make_empty_root_spec r (with_nodes <[r := {| next_ := None; prev_ := None |}]> m))
    as (m' & -> & Hnew & Hf & Hd).
  { cbn. exists unlinked. by rewrite lookup_insert_eq. }
  exists m'. split; [done|]. cbn [nodes disposed with_nodes] in *.
  assert (frame [r] (nodes m) (nodes m')) as Hframe.
  { intros p Hp. rewrite Hf by done. by rewrite lookup_insert_ne by set_solver. }
  assert (∀ r' xs, lists s !! r' = Some xs → r ∉ r' :: xs) as Hother.
  { intros r' xs Hr' Hin. destruct Hr as [_ Hw]. apply Hw. by exists r', xs. }
  split; cbn [lists free log].
  - intros r' xs [[<- <-]|[Hne Hr']]%lookup_insert_Some; [done|].
    eapply (rep_lists_frame m _ s [r]); [done|done| |done]. intros p ->%list_elem_of_singleton. by destruct Hr.
  - intros r1 xs1 r2 xs2 p [[<- <-]|[Hne1 H1]]%lookup_insert_Some [[<- <-]|[Hne2 H2]]%lookup_insert_Some Hp1 Hp2;
      [done|..|by eapply (rep_disjoint _ _ Hrep)].
    + apply list_elem_of_singleton in Hp1 as ->. by destruct (Hother r2 xs2 H2).
    + apply list_elem_of_singleton in Hp2 as ->. by destruct (Hother r1 xs1 H1).
  - intros p Hp. rewrite Hframe; [by apply (rep_free _ _ Hrep)|]. intros ->%list_elem_of_singleton. by destruct Hr.
  - intros p [Hp Hw]. cbn [free] in Hp. assert (p ≠ r) as Hne.
    { intros ->. apply Hw. exists r, []. cbn [lists]. rewrite lookup_insert_eq. set_solver. }
    rewrite Hframe by set_solver. apply (rep_dead _ _ Hrep). split; [done|]. intros (r' & xs & Hr' & Hin). apply Hw.
    exists r', xs. cbn [lists]. rewrite lookup_insert_ne; [done|]. intros ->. destruct Hr as [_ Hr]. apply Hr.
    exists r', xs. split; [done|set_solver].
  - by rewrite Hd, (rep_log _ _ Hrep).
Qed.

Lemma rep_destroy_list m s r :
  rep m s → lists s !! r = Some [] →
  ∃ m', list_destroy level r m = Ret m' ∧ rep m' {| lists := delete r (lists s); free := free s; log := log s |}.
Proof.
  intros Hrep Hr. pose proof (rep_lists _ _ Hrep r [] Hr) as H. pose proof H as [_ [Hn Hp]].
  unfold list_destroy. rewrite (list_empty_spec r [] m H). cbn [mbind outcome_bind]. rewrite bool_decide_eq_true_2, pre_true by done.
  assert (alive (nodes m) r) as [n Hrn] by (by eapply nxt_alive).
  rewrite unlink_eq; [|by eexists|by rewrite Hn]. cbn [mbind outcome_bind]. unfold element_destroy.
  rewrite is_linked_free.
  2:{ cbn. unfold upd_prev, upd_next. by rewrite lookup_alter_eq, lookup_alter_eq, Hrn. }
  cbn [mbind outcome_bind negb]. unfold ASSERT. rewrite pre_true. eexists. split; [done|].
  set (N' := delete r (upd_prev r None (upd_next r None (nodes m)))).
  assert (frame [r] (nodes m) N') as Hframe.
  { intros p Hp'. unfold N'. rewrite lookup_delete_ne by set_solver. cbn.
    by rewrite lookup_upd_prev, lookup_upd_next by set_solver. }
  assert (∀ r' xs, lists s !! r' = Some xs → r' ≠ r → r ∉ r' :: xs) as Hother.
  { intros r' xs Hr' Hne Hin. apply Hne. apply (rep_disjoint _ _ Hrep r' xs r [] r); set_solver. }
  split; cbn [lists free log nodes disposed with_nodes]; fold N'.
  - intros r' xs [Hne Hr']%lookup_delete_Some. eapply represents_frame; [|by apply (rep_lists _ _ Hrep)].
    intros p Hin. apply Hframe. intros ->%list_elem_of_singleton. by eapply Hother.
  - intros r1 xs1 r2 xs2 p [_ H1]%lookup_delete_Some [_ H2]%lookup_delete_Some. by apply (rep_disjoint _ _ Hrep r1 xs1 r2 xs2).
  - intros p Hpf. rewrite Hframe; [by apply (rep_free _ _ Hrep)|]. intros ->%list_elem_of_singleton.
    apply (rep_free_not_within _ _ _ Hrep Hpf). exists r, []. set_solver.
  - intros p [Hpf Hw]. cbn [free] in Hpf. destruct (decide (p = r)) as [->|Hne]; [by unfold N'; rewrite lookup_delete_eq|].
    rewrite Hframe by set_solver. apply (rep_dead _ _ Hrep). split; [done|]. intros (r' & xs & Hr' & Hin). apply Hw.
    exists r', xs. cbn [lists]. rewrite lookup_delete_ne; [done|]. intros <-.
    rewrite Hr in Hr'. injection Hr' as <-. set_solver.
  - apply (rep_log _ _ Hrep).
Qed.

(** ** Moves *)

Lemma rep_move_element m s y x r l1 l2 :
  rep m s → dead s y → lists s !! r = Some (l1 ++ x :: l2) →
  ∃ m', element_move level y x m = Ret m'
  ∧ rep m' {| lists := <[r := l1 ++ y :: l2]> (lists s); free := {[x]} ∪ free s; log := log s |}.
Proof.
  intros Hrep Hy Hr. destruct (rep_new_element m s y Hrep Hy) as (m1 & E & Hrep1). unfold element_move. rewrite E.
  cbn [mbind outcome_bind]. pose proof (rep_lists _ _ Hrep1 r _ Hr) as H.
  pose proof (represents_next _ _ _ _ _ H) as Hn. rewrite is_linked_alive by (by eapply nxt_alive).
  cbn [mbind outcome_bind]. rewrite bool_decide_eq_true_2 by (by rewrite Hn).
  destruct (take_place_spec level y x r l1 l2 m1 H) as (m' & -> & H' & Hx & Hf & Hd).
  { apply (rep_free _ _ Hrep1). cbn. set_solver. }
  exists m'. split; [done|]. pose proof (removed_fresh _ _ _ _ _ H) as Hfresh.
  assert (x ≠ y) as Hxy by (intros ->; destruct Hy as [_ Hy]; apply Hy; exists r, (l1 ++ y :: l2); set_solver).
  assert (changes keep r (l1 ++ x :: l2) (l1 ++ y :: l2) [] m1 m') as Hch.
  { split; [done| | |by rewrite Hd, app_nil_r].
    - intros p Hp. apply Hf. set_solver.
    - intros z Hz. set_solver. }
  rewrite <- (app_nil_r (log s)).
  refine (rep_change keep m1 m' (set_free ({[y]} ∪ free s) s) r _ _ [] _ Hrep1 Hr Hch _ _ _ _); cbn [free set_free].
  - set_solver.
  - intros z [->%elem_of_singleton|Hz]%elem_of_union; [done|].
    assert (z ∈ free (set_free ({[y]} ∪ free s) s)) as Hz1 by (cbn; set_solver).
    rewrite Hf; [by apply (rep_free _ _ Hrep1)|].
    pose proof (represents_free _ _ _ z H (rep_free _ _ Hrep1 z Hz1)).
    assert (z ≠ y) by (intros ->; by destruct Hy). set_solver.
  - set_solver.
  - set_solver.
Qed.

Lemma taken_over_within s r from l p :
  r ≠ from → lists s !! r = Some [] → lists s !! from = Some l →
  within s p ↔ within (taken_over r from l s) p.
Proof.
  intros Hne Hr Hfrom. unfold within. cbn [lists taken_over]. split.
  - intros (r' & xs & Hr' & Hp). destruct (decide (r' = r)) as [->|Hn1].
    { exists r, l. rewrite lookup_insert_ne, lookup_insert_eq by done. split; [done|]. set_solver. }
    destruct (decide (r' = from)) as [->|Hn2]; [|exists r', xs; by rewrite !lookup_insert_ne by done].
    rewrite Hfrom in Hr'. injection Hr' as <-. apply elem_of_cons in Hp as [->|Hp].
    + exists from, []. rewrite lookup_insert_eq. set_solver.
    + exists r, l. rewrite lookup_insert_ne, lookup_insert_eq by done. set_solver.
  - intros (r' & xs & [[<- <-]|[Hn2 [[<- <-]|[Hn1 Hr']]%lookup_insert_Some]]%lookup_insert_Some & Hp).
    + exists from, l. set_solver.
    + apply elem_of_cons in Hp as [->|Hp]; [exists r, []|exists from, l]; set_solver.
    + by exists r', xs.
Qed.

Lemma rep_taken_over m m' s r from l :
  rep m s → r ≠ from → lists s !! r = Some [] → lists s !! from = Some l →
  represents (nodes m') r l → represents (nodes m') from [] → frame (r :: from :: l) (nodes m) (nodes m') →
  disposed m' = disposed m → rep m' (taken_over r from l s).
Proof.
  intros Hrep Hne Hr Hfrom H1 H2 Hf Hd.
  assert (∀ p, p ∈ r :: from :: l ↔ p ∈ r :: [] ∨ p ∈ from :: l) as Hset by set_solver.
  assert (∀ r' xs p, lists s !! r' = Some xs → r' ≠ r → r' ≠ from → p ∈ r' :: xs → p ∉ r :: from :: l) as Hother.
  { intros r' xs p Hr' Hn1 Hn2 Hp [Hin|Hin]%Hset;
      [apply Hn1, (rep_disjoint _ _ Hrep r' xs r [] p)|apply Hn2, (rep_disjoint _ _ Hrep r' xs from l p)]; done. }
  pose proof (λ p, taken_over_within s r from l p Hne Hr Hfrom) as Hw.
  assert (∀ p, p ∈ [from] → p ∈ r :: l → False) as Hself.
  { intros p ->%list_elem_of_singleton [E|Hin]%elem_of_cons; [done|].
    apply (rep_lists _ _ Hrep) in Hfrom as [[? _]%NoDup_cons _]. done. }
  assert (∀ p, p ∈ [from] → p ∈ r :: from :: l) as Hin1 by (clear; set_solver).
  assert (∀ p, p ∈ r :: l → p ∈ r :: from :: l) as Hin2 by (clear; set_solver).
  assert (∀ p, ¬ within s p → p ∉ r :: from :: l) as Hnot.
  { intros p Hp [Hin|Hin]%Hset; apply Hp; [by exists r, []|by exists from, l]. }
  split; cbn [lists free log taken_over].
  - intros r' xs [[<- <-]|[Hn2 [[<- <-]|[Hn1 Hr']]%lookup_insert_Some]]%lookup_insert_Some; [done|done|].
    eapply represents_frame; [|by apply (rep_lists _ _ Hrep)]. intros p Hp. by apply Hf, (Hother r' xs).
  - intros r1 xs1 r2 xs2 p [[<- <-]|[Ha1 [[<- <-]|[Hb1 G1]]%lookup_insert_Some]]%lookup_insert_Some
      [[<- <-]|[Ha2 [[<- <-]|[Hb2 G2]]%lookup_insert_Some]]%lookup_insert_Some Hp1 Hp2;
      [done|by destruct (Hself p)|by destruct (Hother r2 xs2 p); auto|by destruct (Hself p)|done
      |by destruct (Hother r2 xs2 p); auto|by destruct (Hother r1 xs1 p); auto|by destruct (Hother r1 xs1 p); auto|].
    by apply (rep_disjoint _ _ Hrep r1 xs1 r2 xs2 p).
  - intros p Hp. rewrite Hf; [by apply (rep_free _ _ Hrep)|]. by apply Hnot, (rep_free_not_within m).
  - intros p [Hp Hwp]. cbn [free taken_over] in Hp. rewrite <- Hw in Hwp. rewrite Hf by (by apply Hnot).
    by apply (rep_dead _ _ Hrep).
  - by rewrite Hd, (rep_log _ _ Hrep).
Qed.

Lemma rep_move_assign m s r from l l' :
  rep m s → r ≠ from → lists s !! r = Some l → lists s !! from = Some l' →
  ∃ m', list_move_assign level r from m = Ret m' ∧ rep m' (taken_over r from l' (take_out keep r [] l s)).
Proof.
  intros Hrep Hne Hr Hfrom. unfold list_move_assign, clear. rewrite bool_decide_eq_false_2 by done.
  destruct (list_clear_spec level keep r l m (rep_lists _ _ Hrep _ _ Hr)) as (m1 & -> & Hch). cbn [mbind outcome_bind].
  assert (rep m1 (take_out keep r [] l s)) as Hrep1 by (by eapply rep_remove).
  set (s1 := take_out keep r [] l s) in *.
  assert (lists s1 !! r = Some []) as Hr1 by (cbn; by rewrite lookup_insert_eq).
  assert (lists s1 !! from = Some l') as Hfrom1 by (cbn; by rewrite lookup_insert_ne).
  pose proof (rep_lists _ _ Hrep1 _ _ Hr1) as H1. pose proof (rep_lists _ _ Hrep1 _ _ Hfrom1) as H2.
  pose proof (list_empty_spec from l' m1 H2) as E. unfold empty in E.
  destruct (load (Some from) m1) as [n| |]; [|done..]. cbn [mbind outcome_bind] in E |- *. injection E as ->.
  destruct l' as [|x l']; [rewrite bool_decide_eq_true_2 by done|rewrite bool_decide_eq_false_2 by done].
  - exists m1. split; [done|]. by apply (rep_taken_over m1 m1).
  - destruct (take_over_spec r from x l' m1 H1 H2) as (m' & -> & H1' & H2' & Hf & Hd).
    { intros Hin. apply Hne, (rep_disjoint _ _ Hrep1 r [] from (x :: l') r); set_solver. }
    exists m'. split; [done|]. by apply (rep_taken_over m1 m').
Qed.

Lemma rep_assign m s r disposer l new :
  rep m s → lists s !! r = Some l → NoDup new → (∀ x, x ∈ new → x ∈ free (take_out disposer r [] l s)) →
  ∃ m', dispose_and_assign level r disposer new m = Ret m' ∧ rep m' (put_in r new new (take_out disposer r [] l s)).
Proof.
  intros Hrep Hr Hnd Hnew. unfold dispose_and_assign.
  destruct (list_clear_spec level disposer r l m (rep_lists _ _ Hrep _ _ Hr)) as (m1 & -> & Hch). cbn [mbind outcome_bind].
  assert (rep m1 (take_out disposer r [] l s)) as Hrep1 by (by eapply rep_remove).
  destruct (for_each_spec (push_back level r) r [] new (λ x m _, eq_refl) [] m1) as (m' & -> & Hch').
  - apply Hch.
  - done.
  - intros x Hx. by apply (rep_free _ _ Hrep1), Hnew.
  - exists m'. split; [done|]. cbn [app] in Hch'. rewrite app_nil_r in Hch'.
    eapply rep_add; [exact Hrep1|cbn; by rewrite lookup_insert_eq|exact Hch'|done|done].
Qed.

(** Looks up a list in an updated state. *)
Ltac look :=
  cbn [lists taken_over take_out]; repeat (rewrite lookup_insert_ne by done); rewrite ?lookup_insert_eq; done.

(** [swap] is a sequence of other operations. *)
Lemma swapped_state s tmp r r' l l' :
  r ≠ r' → dead s tmp → lists s !! r = Some l → lists s !! r' = Some l' →
  let s1 := {| lists := <[tmp := []]> (lists s); free := free s; log := log s |} in
  let s2 := taken_over tmp r' l' (take_out keep tmp [] [] s1) in
  let s3 := taken_over r' r l (take_out keep r' [] [] s2) in
  let s4 := taken_over r tmp l' (take_out keep r [] [] s3) in
  {| lists := delete tmp (lists s4); free := free s4; log := log s4 |}
  = {| lists := <[r' := l]> (<[r := l']> (lists s)); free := free s; log := log s |}.
Proof.
  intros Hne [_ Hdead] Hr Hr' s1 s2 s3 s4.
  assert (tmp ≠ r ∧ tmp ≠ r') as [Ht Ht'].
  { split; intros ->; apply Hdead; [exists r, l|exists r', l']; (split; [done|set_solver]). }
  assert (lists s !! tmp = None) as Hn.
  { destruct (lists s !! tmp) as [xs|] eqn:E; [|done]. destruct Hdead. exists tmp, xs. split; [done|set_solver]. }
  subst s1 s2 s3 s4. unfold taken_over, take_out. cbn [lists free log]. f_equal.
  - apply map_eq. intros p. rewrite lookup_delete. case_decide as E1; [subst; by rewrite !lookup_insert_ne by done|].
    rewrite !lookup_insert. repeat case_decide; subst; done.
  - cbn. by rewrite !(right_id_L ∅ (∪)).
  - by rewrite !app_nil_r.
Qed.

Lemma rep_swap m s tmp r r' l l' :
  rep m s → r ≠ r' → dead s tmp → lists s !! r = Some l → lists s !! r' = Some l' →
  ∃ m', swap level tmp r r' m = Ret m'
  ∧ rep m' {| lists := <[r' := l]> (<[r := l']> (lists s)); free := free s; log := log s |}.
Proof.
  intros Hrep Hne Hdead Hr Hr'. rewrite <- (swapped_state s tmp r r' l l') by done. cbv zeta.
  assert (tmp ≠ r ∧ tmp ≠ r') as [Ht Ht'].
  { destruct Hdead as [_ Hd]. split; intros ->; apply Hd; [exists r, l|exists r', l']; (split; [done|set_solver]). }
  unfold swap, list_move_construct. rewrite bool_decide_eq_false_2 by done.
  destruct (rep_new_list m s tmp Hrep Hdead) as (m1 & -> & Hrep1). cbn [mbind outcome_bind].
  destruct (rep_move_assign m1 _ tmp r' [] l' Hrep1) as (m2 & -> & Hrep2); [done|look..|]. cbn [mbind outcome_bind].
  destruct (rep_move_assign m2 _ r' r [] l Hrep2) as (m3 & -> & Hrep3); [done|look..|]. cbn [mbind outcome_bind].
  destruct (rep_move_assign m3 _ r tmp [] l' Hrep3) as (m4 & -> & Hrep4); [done|look..|]. cbn [mbind outcome_bind].
  apply rep_destroy_list; [done|look].
Qed.

Lemma exec_step m s o s' : rep m s → step o s s' → ∃ m', exec level o m = Ret m' ∧ rep m' s'.
Proof.
  intros Hrep Hstep. destruct Hstep as [x s Hx|y x s Hy Hx|y x s Hy Hx|y x s r l1 l2 Hy Hr|x s Hx|r s Hr|r s Hr
    |r o l l' new s Hr Ho Hnd Hnew|r disposer o l l' gone s Hr Ho|r disposer l new s s1 Hr -> Hnd Hnew|r l s Hr
    |r from l l' s Hne Hr Hfrom|tmp r l s Hr|tmp r r' l l' s Hne Hdead Hr Hr']; cbn [exec].
  - by apply rep_new_element.
  - by apply rep_new_element.
  - destruct (rep_new_element m s y Hrep Hy) as (m1 & E & Hrep1). unfold element_move. rewrite E. cbn [mbind outcome_bind].
    rewrite is_linked_free by (apply (rep_free _ _ Hrep1); cbn; set_solver). by exists m1.
  - by apply rep_move_element.
  - by apply rep_destroy_element.
  - by apply rep_new_list.
  - by apply rep_destroy_list.
  - destruct (exec_insertion_spec r o l l' new m) as (m' & -> & Hch);
      [by apply (rep_lists _ _ Hrep)|done|done|intros x Hx; by apply (rep_free _ _ Hrep), Hnew|].
    exists m'. split; [done|]. by eapply rep_add; [..|eapply insertion_perm|].
  - destruct (exec_removal_spec r disposer o l l' gone m) as (m' & -> & Hch); [by apply (rep_lists _ _ Hrep)|done|].
    exists m'. split; [done|]. by eapply rep_remove; [..|eapply removal_perm].
  - by apply rep_assign.
  - unfold list_move_assign. rewrite bool_decide_eq_true_2 by done. by exists m.
  - by apply rep_move_assign.
  - unfold swap. rewrite bool_decide_eq_true_2 by done. by exists m.
  - by apply rep_swap.
Qed.

Lemma run_steps os s s' : steps os s s' → ∀ m, rep m s → ∃ m', run level os m = Ret m' ∧ rep m' s'.
Proof.
  induction 1 as [s|o os s s1 s2 Ho Hos IH]; intros m Hrep; [by exists m|]. cbn [run].
  destruct (exec_step m s o s1 Hrep Ho) as (m1 & -> & Hrep1). by apply IH.
Qed.

End Level.

Definition empty_state : state := {| lists := ∅; free := ∅; log := [] |}.
Definition empty_memory : memory := {| nodes := ∅; disposed := [] |}.

Lemma rep_empty : rep empty_memory empty_state.
Proof.
  split; cbn; [intros r xs; by rewrite lookup_empty|intros r1 xs1 r2 xs2 p; by rewrite lookup_empty|set_solver|done|done].
Qed.

(** ** Properties *)

(** C35: every program that respects the preconditions of the lists runs: it
    dereferences no null or dangling pointer and violates no assertion, at any
    assertion level.  The memory then represents the abstract state: each list
    has the elements it should have, [size] counts them, iteration visits them
    in order and ends at [end()], backward likewise; elements are in at most
    one list, and each removed element was passed to its disposer once. *)
Theorem intrusive_list_refines (level : assert_level) (os : list operation) (s : state) :
  steps os empty_state s →
  ∃ m, run level os empty_memory = Ret m ∧ rep m s
  ∧ ∀ r xs, lists s !! r = Some xs →
      size level r m = Ret (length xs)
      ∧ (∀ i, (i <= length xs)%nat → position level r i m = Ret (Some (hd r (drop i xs))))
      ∧ ∀ i x, xs !! i = Some x → decrement level (Some (hd r (drop (S i) xs))) m = Ret (Some x).
Proof.
  intros Hs. destruct (run_steps level os _ s Hs empty_memory rep_empty) as (m & E & Hrep).
  exists m. split; [done|]. split; [done|]. intros r xs Hr. pose proof (rep_lists _ _ Hrep r xs Hr) as H.
  split; [by apply size_spec|]. split; [intros i Hi; by apply position_spec|].
  intros i x Hx. apply (list_decrement_spec level r (take i xs)). by rewrite take_drop_middle.
Qed.

(** A list of three, of which one is moved, one removed, and the rest swapped
    into another list. *)
Definition example_operations : list operation :=
  [NewElement 11; NewElement 12; NewElement 13; NewList 1; NewList 2; Add 1 (PushBack 11); Add 1 (Insert 1 [12; 13]);
   MoveElement 14 12; Remove 1 (λ _, true) PopFront; Swap 99 1 2]%positive.

Lemma dead_check s p :
  bool_decide (p ∉ free s ∧ map_Forall (λ r xs, p ∉ r :: xs) (lists s)) = true → dead s p.
Proof. intros [Hf Hl]%bool_decide_eq_true. split; [done|]. intros (r & xs & Hr & Hp). by apply (Hl r xs). Qed.

Lemma step_add_check r o s l l' new :
  lists s !! r = Some l → insertion_spec o l = Some (l', new) →
  bool_decide (NoDup new ∧ Forall (λ x, x ∈ free s) new) = true → step (Add r o) s (put_in r l' new s).
Proof. intros Hr Ho [Hnd Hf]%bool_decide_eq_true. rewrite Forall_forall in Hf. by eapply step_add. Qed.

Lemma example_steps :
  ∃ s, steps example_operations empty_state s
  ∧ lists s !! 1%positive = Some [] ∧ lists s !! 2%positive = Some [14; 13]%positive ∧ dead s 11 ∧ 12%positive ∈ free s
  ∧ log s = [11%positive].
Proof.
  eexists. split.
  - do 3 (eapply steps_cons; [apply step_new, dead_check; vm_compute; reflexivity|]).
    do 2 (eapply steps_cons; [apply step_new_list, dead_check; vm_compute; reflexivity|]).
    do 2 (eapply steps_cons; [eapply step_add_check; [vm_compute; reflexivity|reflexivity|vm_compute; reflexivity]|]).
    eapply steps_cons; [apply (step_move_linked 14 12 _ 1 [11] [13])%positive; [apply dead_check; vm_compute; reflexivity|vm_compute; reflexivity]|].
    eapply steps_cons; [eapply step_remove; [vm_compute; reflexivity|reflexivity]|].
    eapply steps_cons; [|apply steps_nil].
    apply step_swap; [done|apply dead_check; vm_compute; reflexivity|vm_compute; reflexivity..].
  - split_and!; [vm_compute; reflexivity..|apply dead_check; vm_compute; reflexivity| |vm_compute; reflexivity].
    refine (bool_decide_unpack _ _). vm_compute. exact I.
Qed.

Lemma intrusive_list_refines_witness :
  ∃ m, run ASSERT_LEVEL_DEFAULT example_operations empty_memory = Ret m
  ∧ size ASSERT_LEVEL_DEFAULT 2 m = Ret 2%nat ∧ nodes m !! 11%positive = None ∧ nodes m !! 12%positive = Some unlinked.
Proof.
  destruct example_steps as (s & Hs & H1 & H2 & H11 & H12 & _).
  destruct (intrusive_list_refines ASSERT_LEVEL_DEFAULT example_operations s Hs) as (m & E & Hrep & H).
  exists m. split; [exact E|]. split; [exact (proj1 (H _ _ H2))|].
  split; [exact (rep_dead _ _ Hrep _ H11)|exact (rep_free _ _ Hrep _ H12)].
Defined.

(** A violated precondition is detected, unless preconditions are compiled
    out: inserting an element that is in a list already, this one or another
    one; removing from an empty list; destroying an element that is in a list,
    or a list that is not empty; an iterator to an element that is in no list. *)
Theorem misuse_aborts (level : assert_level) (m : memory) (s : state) (r x : ref) (xs : list ref) :
  level ≠ ASSERT_LEVEL_PRODUCTION → rep m s → lists s !! r = Some xs →
  (within s x → push_front level r x m = Aborted ∧ push_back level r x m = Aborted
     ∧ (∀ it, insert level it x m = Aborted) ∧ element_destroy level x m = Aborted)
  ∧ (xs = [] → ∀ disposer it, pop_front_and_dispose level r disposer m = Aborted
       ∧ pop_back_and_dispose level r disposer m = Aborted ∧ erase_and_dispose level r it disposer m = Aborted
       ∧ front level r m = Aborted ∧ back level r m = Aborted)
  ∧ (xs ≠ [] → list_destroy level r m = Aborted)
  ∧ (x ∈ free s → iterator_to level x m = Aborted).
Proof.
  intros Hlevel Hrep Hr. pose proof (rep_lists _ _ Hrep r xs Hr) as H.
  assert (∀ A (k : outcome A), PRECONDITION level false k = Aborted) as Hpre by (by intros; destruct level).
  split_and!.
  - intros (r' & ys & Hr' & Hx). pose proof (rep_lists _ _ Hrep r' ys Hr') as [_ Hc].
    destruct (chain_linked _ _ _ _ _ Hc Hx) as [b Hb].
    assert (is_linked x m = Ret true) as El.
    { rewrite is_linked_alive by (by eapply nxt_alive). by rewrite Hb. }
    assert (∀ t, insert_before level x t m = Aborted) as Hi.
    { intros t. unfold insert_before. rewrite El. cbn. apply Hpre. }
    split_and!; [|apply Hi|intros it; unfold insert; rewrite El; cbn; apply Hpre
      |unfold element_destroy, ASSERT; rewrite El; cbn; apply Hpre].
    unfold push_front. destruct H as [_ Hn]. apply chain_next in Hn.
    rewrite (load_next r m (λ v, first ← target v; _)) by (by eapply nxt_alive). rewrite Hn. apply Hi.
  - intros -> disposer it. unfold pop_front_and_dispose, pop_back_and_dispose, erase_and_dispose, front, back.
    rewrite (list_empty_spec r [] m H). cbn [mbind outcome_bind]. rewrite bool_decide_eq_true_2 by done.
    cbn [negb]. by rewrite !Hpre.
  - intros Hne. unfold list_destroy. rewrite (list_empty_spec r xs m H). cbn [mbind outcome_bind].
    rewrite bool_decide_eq_false_2 by done. apply Hpre.
  - intros Hx. unfold iterator_to. rewrite is_linked_free by (by apply (rep_free _ _ Hrep)). cbn. apply Hpre.
Qed.

Lemma misuse_aborts_witness :
  ∃ m, run ASSERT_LEVEL_DEBUG example_operations empty_memory = Ret m
  ∧ push_back ASSERT_LEVEL_DEBUG 1 13 m = Aborted ∧ pop_front ASSERT_LEVEL_DEBUG 1 m = Aborted
  ∧ iterator_to ASSERT_LEVEL_DEBUG 12 m = Aborted.
Proof.
  destruct example_steps as (s & Hs & H1 & H2 & _ & H12 & _).
  destruct (run_steps ASSERT_LEVEL_DEBUG example_operations _ s Hs empty_memory rep_empty) as (m & E & Hrep).
  exists m. split; [exact E|].
  split; [|split].
  - apply (misuse_aborts ASSERT_LEVEL_DEBUG m s 1 13 []); [discriminate|exact Hrep|exact H1|].
    exists 2%positive, [14; 13]%positive. split; [exact H2|set_solver].
  - apply (misuse_aborts ASSERT_LEVEL_DEBUG m s 1 13 []); [discriminate|exact Hrep|exact H1|reflexivity|exact None].
  - apply (misuse_aborts ASSERT_LEVEL_DEBUG m s 1 12 []); [discriminate|exact Hrep|exact H1|exact H12].
Defined.

(** [remove_and_dispose] compares with a reference to the value: if this is an
    element of the list and the disposer destroys it, the next comparison reads
    it after its destruction. *)
Theorem remove_and_dispose_own_element :
  ∃ m, run ASSERT_LEVEL_DEFAULT example_operations empty_memory = Ret m
  ∧ remove_and_dispose ASSERT_LEVEL_DEFAULT 2 (λ _ _, true) 14 (λ _, true) m = Undefined.
Proof. eexists. split; vm_compute; reflexivity. Qed.

End IntrusiveListSystem.
