(* ===== verification/CircularBufferSpec.v ===== *)
(** * The circular buffer refines a bounded sequence

    [represents b xs]: the live objects of the storage are exactly the elements
    [xs], in the slots that follow the head.  Every operation of
    CircularBuffer.v is shown to return, for all three assertion levels, and to
    represent the sequence it should. *)

From S2P Require Import Prelude CppInt CircularBuffer.

Local Open Scope Z_scope.

Module CircularBufferSpec.
Import CircularBuffer.

Section Spec.
Context {T : Type}.
Variables (MaxSize : Z) (level : assert_level).
(** An array has at least one element, and no object is larger than the
    differences of its addresses can express. *)
Hypothesis HMax : 0 < MaxSize < 2 ^ 63.

Set Default Proof Using "Type + HMax".

Local Abbreviation buffer := (circular_buffer T).

(** The slot of element [i]. *)
Definition slot (head : Z) (i : nat) : nat := Z.to_nat ((head + Z.of_nat i) mod MaxSize).

(** The live objects are the elements [xs], from the head on. *)
Definition holds (a : list (option T)) (head : Z) (xs : list T) : Prop :=
  length a = Z.to_nat MaxSize ∧
  ∀ i, (i < Z.to_nat MaxSize)%nat → a !! slot head i = Some (xs !! i).

Record represents (b : buffer) (xs : list T) : Prop := {
  rep_holds : holds (array_ b) (head_ b) xs;
  rep_head : 0 <= head_ b < MaxSize;
  rep_size : size_ b = Z.of_nat (length xs);
  rep_bound : Z.of_nat (length xs) <= MaxSize;
  rep_tail : tail_ b = (head_ b + size_ b) mod MaxSize;
}.

(** ** Slots *)

Lemma slot_lt head i : (slot head i < Z.to_nat MaxSize)%nat.
Proof. unfold slot. pose proof (Z.mod_pos_bound (head + Z.of_nat i) MaxSize). lia. Qed.

Lemma slot_inj head i j :
  (i < Z.to_nat MaxSize)%nat → (j < Z.to_nat MaxSize)%nat → slot head i = slot head j → i = j.
Proof.
  unfold slot. intros Hi Hj E.
  apply Z2Nat.inj in E; [|apply Z.mod_pos_bound; lia..].
  assert ((Z.of_nat i - Z.of_nat j) mod MaxSize = 0) as E'.
  { replace (Z.of_nat i - Z.of_nat j) with ((head + Z.of_nat i) - (head + Z.of_nat j)) by lia.
    rewrite Zminus_mod, E, Z.sub_diag. apply Zmod_0_l. }
  apply Z.mod_divide in E' as [k Hk]; [|lia].
  assert (Z.of_nat i < MaxSize ∧ Z.of_nat j < MaxSize) as [] by lia.
  assert (-1 < k < 1) by (split; nia). assert (k = 0) as -> by lia. lia.
Qed.

Lemma slot_next head i : 0 <= head → slot ((head + 1) mod MaxSize) i = slot head (S i).
Proof.
  intros Hh. unfold slot. rewrite Zplus_mod_idemp_l. do 2 f_equal. lia.
Qed.

Lemma slot_surj head j : (j < Z.to_nat MaxSize)%nat → ∃ i, (i < Z.to_nat MaxSize)%nat ∧ slot head i = j.
Proof.
  intros Hj. exists (Z.to_nat ((Z.of_nat j - head) mod MaxSize)).
  pose proof (Z.mod_pos_bound (Z.of_nat j - head) MaxSize ltac:(lia)). split; [lia|].
  unfold slot. rewrite Z2Nat.id, Zplus_mod_idemp_r by lia.
  replace (head + (Z.of_nat j - head)) with (Z.of_nat j) by lia. rewrite Z.mod_small by lia. lia.
Qed.

(** ** Storage *)

Lemma holds_insert a head xs xs' i o :
  holds a head xs → (i < Z.to_nat MaxSize)%nat → xs' !! i = o →
  (∀ j, j ≠ i → (j < Z.to_nat MaxSize)%nat → xs' !! j = xs !! j) →
  holds (<[slot head i := o]> a) head xs'.
Proof.
  intros [Hl Ha] Hi Ho Hj. split; [by rewrite length_insert|]. intros j Hj'.
  destruct (decide (j = i)) as [->|Hne].
  - rewrite list_lookup_insert_eq by (rewrite Hl; apply slot_lt). by rewrite Ho.
  - rewrite list_lookup_insert_ne by (intros E; by apply slot_inj in E).
    by rewrite Ha, Hj.
Qed.

Lemma holds_update a head xs i v :
  holds a head xs → (i < length xs)%nat → Z.of_nat (length xs) <= MaxSize →
  holds (<[slot head i := Some v]> a) head (<[i := v]> xs).
Proof.
  intros Ha Hi Hb. eapply holds_insert; [done|lia|by apply list_lookup_insert_eq|].
  intros j Hj _. by apply list_lookup_insert_ne.
Qed.

Lemma holds_construct a head xs v :
  holds a head xs → Z.of_nat (length xs) < MaxSize →
  holds (<[slot head (length xs) := Some v]> a) head (xs ++ [v]).
Proof.
  intros Ha Hb. eapply holds_insert; [done|lia|by apply list_lookup_middle|].
  intros j Hj _. destruct (decide (j < length xs)%nat).
  - by rewrite lookup_app_l.
  - rewrite !(proj2 (lookup_ge_None _ _)); [done|lia|rewrite length_app; simpl; lia].
Qed.

Lemma holds_destroy_back a head xs x :
  holds a head (xs ++ [x]) → Z.of_nat (length (xs ++ [x])) <= MaxSize →
  holds (<[slot head (length xs) := None]> a) head xs.
Proof.
  rewrite length_app. simpl. intros Ha Hb.
  eapply holds_insert; [done|lia|by apply lookup_ge_None|].
  intros j Hj _. destruct (decide (j < length xs)%nat).
  - by rewrite lookup_app_l.
  - rewrite !(proj2 (lookup_ge_None _ _)); [done|rewrite length_app; simpl; lia|lia].
Qed.

Lemma holds_destroy_front a head x xs :
  holds a head (x :: xs) → 0 <= head < MaxSize → Z.of_nat (length (x :: xs)) <= MaxSize →
  holds (<[slot head 0 := None]> a) ((head + 1) mod MaxSize) xs.
Proof.
  intros [Hl Ha] Hh Hb. simpl in Hb. split; [by rewrite length_insert|].
  intros i Hi. rewrite slot_next by lia.
  destruct (decide (S i < Z.to_nat MaxSize)%nat) as [Hs|Hs].
  - rewrite list_lookup_insert_ne by (intros E; apply slot_inj in E; lia). by rewrite Ha.
  - assert (slot head (S i) = slot head 0) as ->.
    { unfold slot. f_equal. replace (head + Z.of_nat (S i)) with (head + Z.of_nat 0 + 1 * MaxSize) by lia.
      by rewrite Z.mod_add by lia. }
    rewrite list_lookup_insert_eq by (rewrite Hl; apply slot_lt).
    by rewrite (proj2 (lookup_ge_None xs i)) by lia.
Qed.

Lemma holds_nil a head head' : holds a head [] → holds a head' [].
Proof.
  intros [Hl Ha]. split; [done|]. intros i Hi.
  destruct (slot_surj head (slot head' i) (slot_lt _ _)) as (j & Hj & <-).
  rewrite Ha by done. by rewrite !lookup_nil.
Qed.

(** ** Access *)

Lemma ASSERT_DBG_true {A} x (k : outcome A) : x = true → ASSERT_DBG level x k = k.
Proof. intros ->. by destruct level. Qed.

Lemma PRECONDITION_true {A} x (k : outcome A) : x = true → PRECONDITION level x k = k.
Proof. intros ->. by destruct level. Qed.

Lemma ptrdiff_add a b :
  - 2 ^ 63 <= a < 2 ^ 63 → - 2 ^ 63 <= b < 2 ^ 63 → - 2 ^ 63 <= a + b < 2 ^ 63 →
  c_add int64_t int64_t a b = Ret (a + b).
Proof.
  intros. apply c_binop_exact; unfold in_range; cbv [lowest max digits is_signed bits]; lia.
Qed.

Lemma ptrdiff_sub a b :
  - 2 ^ 63 <= a < 2 ^ 63 → - 2 ^ 63 <= b < 2 ^ 63 → - 2 ^ 63 <= a - b < 2 ^ 63 →
  c_sub int64_t int64_t a b = Ret (a - b).
Proof.
  intros. apply c_binop_exact; unfold in_range; cbv [lowest max digits is_signed bits]; lia.
Qed.

(** The iterator of the buffer at address [this] to position [i]. *)
Definition at_ (this : positive) (i : nat) : iterator :=
  {| current_ := Z.of_nat i; container_ := Some this |}.

Lemma advance_at this i n :
  Z.of_nat (i + n) <= MaxSize → advance (at_ this i) (Z.of_nat n) = Ret (at_ this (i + n)).
Proof.
  intros. unfold advance, at_. cbn [current_ container_].
  rewrite ptrdiff_add by lia. cbn. by rewrite Nat2Z.inj_add.
Qed.

Lemma retreat_at this i n :
  Z.of_nat (i + n) <= MaxSize → retreat (at_ this (i + n)) (Z.of_nat n) = Ret (at_ this i).
Proof.
  intros. unfold retreat, at_. cbn [current_ container_].
  rewrite ptrdiff_sub by lia. cbn. do 2 f_equal. lia.
Qed.

Lemma advance1_at this i : Z.of_nat (i + 1) <= MaxSize → advance (at_ this i) 1 = Ret (at_ this (i + 1)).
Proof. apply (advance_at this i 1). Qed.

Lemma retreat1_at this i : Z.of_nat (i + 1) <= MaxSize → retreat (at_ this (i + 1)) 1 = Ret (at_ this i).
Proof. apply (retreat_at this i 1). Qed.

Lemma it_eq_at this i j : it_eq level (at_ this i) (at_ this j) = Ret (bool_decide (i = j)).
Proof.
  unfold it_eq, at_, same_base. rewrite ASSERT_DBG_true by by apply bool_decide_eq_true.
  cbn [current_]. f_equal. case_bool_decide; [apply Z.eqb_eq|apply Z.eqb_neq]; lia.
Qed.

Lemma it_le_at this i j : it_le level (at_ this i) (at_ this j) = Ret (bool_decide (i <= j)%nat).
Proof.
  unfold it_le, it_lt, at_, same_base. rewrite ASSERT_DBG_true by by apply bool_decide_eq_true.
  cbn [current_ fmap outcome_fmap]. f_equal.
  case_bool_decide; [apply negb_true_iff, Z.ltb_ge|apply negb_false_iff, Z.ltb_lt]; lia.
Qed.

Lemma distance_at this i j :
  Z.of_nat i < 2 ^ 63 → Z.of_nat j < 2 ^ 63 →
  distance level (at_ this i) (at_ this j) = Ret (Z.of_nat i - Z.of_nat j).
Proof.
  intros. unfold distance, at_, same_base. rewrite ASSERT_DBG_true by by apply bool_decide_eq_true.
  cbn [current_]. apply ptrdiff_sub; lia.
Qed.

Lemma begin_at (b : buffer) this : begin_ level this b = Ret (at_ this 0).
Proof. unfold begin_, make_iterator. by rewrite ASSERT_DBG_true. Qed.

(** [sized b n]: the indices of [b] are in range and it has [n] elements. *)
Definition sized (b : buffer) (n : nat) : Prop :=
  0 <= head_ b < MaxSize ∧ size_ b = Z.of_nat n ∧ Z.of_nat n <= MaxSize.

Lemma represents_sized b xs : represents b xs → sized b (length xs).
Proof. by intros []. Qed.

Lemma ssize_sized b n : sized b n → ssize b = Z.of_nat n.
Proof.
  intros (_ & Hs & Hn). unfold ssize, size. rewrite Hs. apply static_cast_id.
  unfold in_range. cbv [lowest max digits is_signed bits]. lia.
Qed.

Lemma end_at (b : buffer) this n : sized b n → end_ level this b = Ret (at_ this n).
Proof.
  intros Hb. unfold end_, make_iterator. rewrite (ssize_sized b n Hb).
  rewrite ASSERT_DBG_true; [done|]. apply Z.leb_le. cbn. lia.
Qed.

Lemma deref_at b this n i :
  sized b n → (i < n)%nat → deref MaxSize level this b (at_ this i) = Ret (slot (head_ b) i).
Proof.
  intros Hb Hi. pose proof (ssize_sized b n Hb) as Hss. destruct Hb as (Hh & Hs & Hn).
  unfold deref, checked_access. cbn [current_ container_ at_].
  rewrite (ASSERT_DBG_true (0 <=? _)) by (apply Z.leb_le; lia).
  rewrite (ASSERT_DBG_true (bool_decide _)) by by apply bool_decide_eq_true.
  rewrite (ASSERT_DBG_true (_ <? _)) by (apply Z.ltb_lt; lia).
  rewrite decide_True by done. unfold operator_index, size.
  rewrite !u64_id by (rewrite ?u64_id; lia).
  rewrite ASSERT_DBG_true by (apply Z.ltb_lt; lia). done.
Qed.

Lemma front_slot b this x xs : represents b (x :: xs) → front MaxSize level this b = Ret (slot (head_ b) 0).
Proof.
  intros Hb. pose proof (represents_sized _ _ Hb) as Hs. unfold front, empty, size.
  rewrite ASSERT_DBG_true by (rewrite (rep_size _ _ Hb); done).
  rewrite begin_at. cbn [mbind outcome_bind]. apply (deref_at _ _ (S (length xs))); [done|lia].
Qed.

Lemma back_slot b this xs x :
  represents b (xs ++ [x]) → back MaxSize level this b = Ret (slot (head_ b) (length xs)).
Proof.
  intros Hb. pose proof (represents_sized _ _ Hb) as Hs. pose proof (rep_bound _ _ Hb) as Hbound.
  rewrite length_app in Hs, Hbound. cbn [length] in Hs, Hbound. unfold back, empty, size.
  rewrite ASSERT_DBG_true.
  2: { rewrite (rep_size _ _ Hb), length_app. apply negb_true_iff, Z.eqb_neq. simpl. lia. }
  rewrite (end_at b this _ Hs). cbn [mbind outcome_bind].
  rewrite retreat1_at by lia. cbn [mbind outcome_bind].
  eapply deref_at; [done|simpl; lia].
Qed.

Lemma read_slot a t h s xs i x :
  holds a h xs → (i < Z.to_nat MaxSize)%nat → xs !! i = Some x →
  read (Build_circular_buffer a t h s) (slot h i) = Ret x.
Proof. intros [_ Ha] Hi Hx. unfold read. cbn [array_]. by rewrite Ha, Hx by done. Qed.

Lemma destroy_slot (b : buffer) h xs i x :
  holds (array_ b) h xs → (i < Z.to_nat MaxSize)%nat → xs !! i = Some x →
  destroy_at b (slot h i) = Ret (set_array (<[slot h i := None]> (array_ b)) b).
Proof. intros [_ Ha] Hi Hx. unfold destroy_at. by rewrite Ha, Hx by done. Qed.

Lemma construct_slot (b : buffer) h xs v :
  holds (array_ b) h xs → Z.of_nat (length xs) < MaxSize →
  construct_at b (slot h (length xs)) v
  = Ret (set_array (<[slot h (length xs) := Some v]> (array_ b)) b).
Proof.
  intros [_ Ha] Hi. unfold construct_at. rewrite Ha by lia.
  by rewrite (proj2 (lookup_ge_None _ _)) by lia.
Qed.

Lemma empty_spec b xs : represents b xs → empty b = bool_decide (xs = []).
Proof.
  intros Hb. unfold empty, size. rewrite (rep_size _ _ Hb).
  destruct xs; [done|]. rewrite bool_decide_eq_false_2 by done. apply Z.eqb_neq. simpl. lia.
Qed.

Lemma full_spec b xs : represents b xs → full MaxSize b = bool_decide (Z.of_nat (length xs) = MaxSize).
Proof.
  intros Hb. unfold full, size, capacity. rewrite (rep_size _ _ Hb).
  case_bool_decide; [apply Z.eqb_eq|apply Z.eqb_neq]; lia.
Qed.

(** ** Modifiers *)

Lemma pop_front_cons b this x xs :
  represents b (x :: xs) →
  ∃ b', pop_front MaxSize level this b = Ret b' ∧ represents b' xs
  ∧ array_ b' = <[slot (head_ b) 0 := None]> (array_ b).
Proof.
  intros Hb. unfold pop_front. rewrite (empty_spec _ _ Hb), bool_decide_eq_false_2 by done.
  cbn [negb]. rewrite (front_slot _ _ _ _ Hb). cbn [mbind outcome_bind].
  destruct Hb as [Ha Hh Hs Hbound Ht]. cbn [length] in Hs, Hbound.
  rewrite (destroy_slot _ _ _ _ x Ha) by (done || lia). cbn [mbind outcome_bind].
  eexists. split; [reflexivity|]. unfold capacity.
  cbn [set_size set_head set_array array_ head_ size_ tail_]. split; [|done].
  rewrite !u64_id by lia. split; cbn [set_size set_head set_tail set_array array_ head_ size_ tail_].
  - by eapply holds_destroy_front.
  - apply Z.mod_pos_bound. lia.
  - lia.
  - lia.
  - rewrite Ht, Zplus_mod_idemp_l. f_equal. lia.
Qed.

Lemma pop_front_nil b this : represents b [] → pop_front MaxSize level this b = Ret b.
Proof. intros Hb. unfold pop_front. by rewrite (empty_spec _ _ Hb). Qed.

Lemma pop_back_snoc b this xs x :
  represents b (xs ++ [x]) →
  ∃ b', pop_back MaxSize level this b = Ret b' ∧ represents b' xs.
Proof.
  intros Hb. unfold pop_back. rewrite (empty_spec _ _ Hb), bool_decide_eq_false_2 by by destruct xs.
  cbn [negb]. rewrite (back_slot _ _ _ _ Hb). cbn [mbind outcome_bind].
  destruct Hb as [Ha Hh Hs Hbound Ht]. pose proof Hbound as Hbound'.
  rewrite length_app in Hs, Hbound. cbn [length] in Hs, Hbound.
  rewrite (destroy_slot _ _ _ _ x Ha) by (lia || by apply list_lookup_middle). cbn [mbind outcome_bind].
  eexists. split; [reflexivity|]. unfold capacity. cbn [tail_ set_array].
  pose proof (Z.mod_pos_bound (head_ b + size_ b) MaxSize ltac:(lia)).
  assert ((head_ b + (size_ b - 1)) mod MaxSize
    = if tail_ b =? 0 then MaxSize - 1 else tail_ b - 1) as Ht'.
  { rewrite Z.add_sub_assoc, <- Zminus_mod_idemp_l, <- Ht. destruct (Z.eqb_spec (tail_ b) 0) as [->|].
    - symmetry. apply Z.mod_unique_pos with (q := -1); lia.
    - apply Z.mod_small. lia. }
  destruct (tail_ b =? 0) eqn:E; reflect_bool;
    cbn [set_size set_tail set_array array_ head_ size_ tail_];
    rewrite !u64_id by lia; split; cbn [set_size set_head set_tail set_array array_ head_ size_ tail_]; try done; try lia;
    by eapply holds_destroy_back.
Qed.

Lemma pop_back_nil b this : represents b [] → pop_back MaxSize level this b = Ret b.
Proof. intros Hb. unfold pop_back. by rewrite (empty_spec _ _ Hb). Qed.

(** What the buffer keeps of a sequence that gets a new last element. *)
Definition pushed (xs : list T) (v : T) : list T :=
  if decide (Z.of_nat (length xs) = MaxSize) then drop 1 xs ++ [v] else xs ++ [v].

(** The part of [emplace_back] that follows the removal of the front. *)
Lemma construct_back b xs v :
  represents b xs → Z.of_nat (length xs) < MaxSize →
  ∃ b', construct_at b (Z.to_nat (tail_ b)) v = Ret b'
  ∧ represents (set_size (u64 (size_ b' + 1)) (set_tail (u64 (tail_ b' + 1) mod MaxSize) b')) (xs ++ [v]).
Proof.
  intros [Ha Hh Hs Hbound Ht] Hlt.
  assert (Z.to_nat (tail_ b) = slot (head_ b) (length xs)) as ->.
  { unfold slot. by rewrite Ht, Hs. }
  rewrite (construct_slot _ _ _ _ Ha Hlt). eexists. split; [reflexivity|].
  pose proof (Z.mod_pos_bound (head_ b + size_ b) MaxSize ltac:(lia)).
  cbn [set_size set_tail set_array array_ head_ size_ tail_]. rewrite !u64_id by lia.
  split; cbn [set_size set_head set_tail set_array array_ head_ size_ tail_]; rewrite ?length_app; simpl; try done; try lia.
  - by apply holds_construct.
  - rewrite Ht, Zplus_mod_idemp_l. f_equal. lia.
Qed.

Lemma emplace_back_outside b this xs v :
  represents b xs →
  ∃ b', emplace_back MaxSize level this b (Outside v) = Ret b' ∧ represents b' (pushed xs v).
Proof.
  intros Hb. unfold emplace_back. rewrite (full_spec _ _ Hb). unfold pushed.
  destruct (decide (Z.of_nat (length xs) = MaxSize)) as [Hfull|Hfull];
    [rewrite bool_decide_eq_true_2 by done|rewrite bool_decide_eq_false_2 by done].
  - destruct xs as [|x xs]; [simpl in Hfull; lia|].
    destruct (pop_front_cons _ this _ _ Hb) as (b1 & -> & Hb1 & _). cbn [mbind outcome_bind load].
    destruct (construct_back _ _ v Hb1) as (b2 & -> & Hb2); [simpl in Hfull; lia|].
    by eexists.
  - cbn [mbind outcome_bind load]. pose proof (rep_bound _ _ Hb).
    destruct (construct_back _ _ v Hb) as (b2 & -> & Hb2); [lia|]. by eexists.
Qed.

Lemma times_pop_front b this n xs :
  represents b xs → (n <= length xs)%nat →
  ∃ b', times (pop_front MaxSize level this) n b = Ret b' ∧ represents b' (drop n xs).
Proof.
  revert b xs. induction n as [|n IH]; intros b xs Hb Hn; [by exists b|].
  destruct xs as [|x xs]; simpl in Hn; [lia|].
  destruct (pop_front_cons _ this _ _ Hb) as (b1 & E & Hb1 & _). simpl. rewrite E.
  apply IH; [done|lia].
Qed.

Lemma times_pop_back b this n xs :
  represents b xs → (n <= length xs)%nat →
  ∃ b', times (pop_back MaxSize level this) n b = Ret b' ∧ represents b' (take (length xs - n) xs).
Proof.
  revert b xs. induction n as [|n IH]; intros b xs Hb Hn.
  { exists b. by rewrite Nat.sub_0_r, firstn_all. }
  destruct xs as [|x xs _] using rev_ind; simpl in Hn; [lia|]. rewrite length_app in Hn |- *. simpl in Hn.
  destruct (pop_back_snoc _ this _ _ Hb) as (b1 & E & Hb1). cbn [times]. rewrite E.
  destruct (IH b1 xs Hb1) as (b2 & E2 & Hb2); [lia|]. exists b2. split; [done|].
  rewrite take_app_le by (simpl; lia). by replace (_ - S n)%nat with (length xs - n)%nat by (simpl; lia).
Qed.

Lemma clear_spec b this xs :
  represents b xs → ∃ b', clear MaxSize level this b = Ret b' ∧ represents b' [].
Proof.
  intros Hb. unfold clear, size. rewrite (rep_size _ _ Hb), Nat2Z.id.
  destruct (times_pop_front b this (length xs) xs Hb) as (b' & E & Hb'); [lia|].
  exists b'. by rewrite drop_all in Hb'.
Qed.

Lemma empty_represents : represents (destructor_base MaxSize) [].
Proof.
  split; simpl; try lia; [|by rewrite Zmod_0_l].
  split; [by rewrite length_replicate|]. intros i Hi. rewrite lookup_nil.
  apply lookup_replicate_2, slot_lt.
Qed.

(** ** Erasing *)

Lemma shift_right (xs : list T) k d x m :
  xs !! k = Some x → (1 <= d)%nat → (k + d < length xs)%nat →
  let ys := <[(k + d)%nat := x]> (<[k := m]> xs) in
  take k ys ++ drop (k + d) ys = take (S k) xs ++ drop (S k + d) xs.
Proof.
  intros Hx Hd Hk ys. unfold ys. rewrite !take_insert_ge by lia.
  rewrite (take_S_r _ _ _ Hx), <- (assoc_L (++)). f_equal.
  rewrite (drop_S _ x) by (rewrite list_lookup_insert_eq; [done|rewrite length_insert; lia]).
  rewrite !drop_insert_lt by lia. simpl. done.
Qed.

Lemma shift_left (xs : list T) p q x m :
  xs !! p = Some x → (q < p)%nat →
  let ys := <[q := x]> (<[p := m]> xs) in
  take (S q) ys ++ drop (S p) ys = take q xs ++ drop p xs.
Proof.
  intros Hx Hq ys. unfold ys. pose proof (lookup_lt_Some _ _ _ Hx).
  rewrite (take_S_r _ _ x) by (rewrite list_lookup_insert_eq; [done|rewrite length_insert; lia]).
  rewrite !take_insert_ge, !drop_insert_lt by lia. rewrite (drop_S xs x p Hx).
  by rewrite <- (assoc_L (++)).
Qed.

Lemma move_assign_slots moved_from b xs i j x :
  represents b xs → i ≠ j → xs !! i = Some x → (j < length xs)%nat →
  ∃ b', move_assign moved_from b (slot (head_ b) j) (slot (head_ b) i) = Ret b'
  ∧ head_ b' = head_ b ∧ represents b' (<[j := x]> (<[i := moved_from x]> xs)).
Proof.
  intros [Ha Hh Hs Hbound Ht] Hij Hx Hj. pose proof (lookup_lt_Some _ _ _ Hx) as Hi.
  destruct (lookup_lt_is_Some_2 xs j Hj) as [y Hy]. destruct b as [a t h z].
  cbn [array_ head_ size_ tail_] in *. unfold move_assign.
  rewrite (read_slot a t h z xs i x), (read_slot a t h z xs j y) by (done || lia). cbn [mbind outcome_bind].
  eexists. split; [reflexivity|]. split; [done|].
  split; cbn [set_array array_ head_ size_ tail_]; rewrite ?length_insert; try done.
  apply holds_update; [apply holds_update|..]; rewrite ?length_insert; done.
Qed.

Lemma move_backward_loop_spec moved_from this d k : ∀ b xs,
  represents b xs → (1 <= d)%nat → (k + d <= length xs)%nat →
  ∃ b' ys, move_backward_loop MaxSize level this moved_from (S k) b
      (at_ this 0) (at_ this k) (at_ this (k + d)) = Ret b'
  ∧ represents b' ys ∧ length ys = length xs ∧ drop d ys = take k xs ++ drop (k + d) xs.
Proof.
  induction k as [|k IH]; intros b xs Hb Hd Hk; cbn [move_backward_loop]; rewrite it_eq_at.
  { by exists b, xs. }
  pose proof (represents_sized _ _ Hb) as Hs. pose proof (rep_bound _ _ Hb) as Hbound.
  destruct (lookup_lt_is_Some_2 xs k ltac:(lia)) as [x Hx].
  destruct (move_assign_slots moved_from b xs k (k + d) x Hb ltac:(lia) Hx ltac:(lia))
    as (b1 & E1 & _ & Hb1).
  replace (S k) with (k + 1)%nat by lia. replace (k + 1 + d)%nat with (k + d + 1)%nat by lia.
  rewrite bool_decide_eq_false_2 by lia. cbn [mbind outcome_bind].
  rewrite !retreat1_at by lia. cbn [mbind outcome_bind].
  rewrite !(deref_at _ _ _ _ Hs) by lia. cbn [mbind outcome_bind]. rewrite E1. cbn [mbind outcome_bind].
  destruct (IH _ _ Hb1 Hd) as (b' & ys & E & Hb' & Hl & Hys); [rewrite !length_insert; lia|].
  exists b', ys. split; [done|]. split; [done|]. rewrite !length_insert in Hl. split; [done|].
  rewrite Hys, !Nat.add_1_r. apply shift_right; [done|done|lia].
Qed.

Lemma move_loop_spec moved_from this m : ∀ p q b xs,
  represents b xs → (q < p)%nat → (p + m = length xs)%nat →
  ∃ b' ys, move_loop MaxSize level this moved_from (S m) b
      (at_ this p) (at_ this (p + m)) (at_ this q) = Ret b'
  ∧ represents b' ys ∧ length ys = length xs ∧ take (q + m) ys = take q xs ++ drop p xs.
Proof.
  induction m as [|m IH]; intros p q b xs Hb Hq Hp; cbn [move_loop]; rewrite it_eq_at.
  { exists b, xs. rewrite Nat.add_0_r in Hp. rewrite bool_decide_eq_true_2 by lia.
    by rewrite drop_ge, app_nil_r, Nat.add_0_r by lia. }
  pose proof (represents_sized _ _ Hb) as Hs. pose proof (rep_bound _ _ Hb) as Hbound.
  destruct (lookup_lt_is_Some_2 xs p ltac:(lia)) as [x Hx].
  destruct (move_assign_slots moved_from b xs p q x Hb ltac:(lia) Hx ltac:(lia))
    as (b1 & E1 & _ & Hb1).
  rewrite bool_decide_eq_false_2 by lia. cbn [mbind outcome_bind].
  rewrite !(deref_at _ _ _ _ Hs) by lia. cbn [mbind outcome_bind]. rewrite E1. cbn [mbind outcome_bind].
  rewrite !advance1_at by lia. cbn [mbind outcome_bind]. rewrite !Nat.add_1_r.
  destruct (IH (S p) (S q) _ _ Hb1) as (b' & ys & E & Hb' & Hl & Hys);
    [lia|rewrite !length_insert; lia|].
  exists b', ys. rewrite <- Nat.add_succ_comm. split; [done|]. split; [done|].
  rewrite !length_insert in Hl. split; [done|].
  rewrite <- Nat.add_succ_comm, Hys. by apply shift_left.
Qed.

(** The two halves of [erase]: shift the shorter side, then pop. *)
Lemma erase_front_half moved_from this b xs f l :
  represents b xs → (f < l)%nat → (l <= length xs)%nat →
  ∃ b' b'', move_backward MaxSize level this moved_from b (at_ this 0) (at_ this f) (at_ this l) = Ret b'
  ∧ times (pop_front MaxSize level this) (l - f) b' = Ret b''
  ∧ represents b'' (take f xs ++ drop l xs).
Proof.
  intros Hb Hf Hl.
  destruct (move_backward_loop_spec moved_from this (l - f) f b xs Hb) as (b' & ys & E & Hb' & Hlen & Hys);
    [lia..|]. replace (f + (l - f))%nat with l in E, Hys by lia.
  destruct (times_pop_front b' this (l - f) ys Hb') as (b'' & E' & Hb''); [lia|].
  exists b', b''. rewrite <- Hys. split; [|done]. unfold move_backward. cbn [at_ current_].
  rewrite (proj2 (Z.leb_gt (Z.of_nat l) (Z.of_nat f))), andb_false_r by lia.
  replace (Z.to_nat (Z.of_nat f - Z.of_nat 0)) with f by lia. done.
Qed.

Lemma erase_back_half moved_from this b xs f l :
  represents b xs → (f < l)%nat → (l <= length xs)%nat →
  ∃ b' b'', move MaxSize level this moved_from b (at_ this l) (at_ this (length xs)) (at_ this f) = Ret b'
  ∧ times (pop_back MaxSize level this) (l - f) b' = Ret b''
  ∧ represents b'' (take f xs ++ drop l xs).
Proof.
  intros Hb Hf Hl.
  destruct (move_loop_spec moved_from this (length xs - l) l f b xs Hb) as (b' & ys & E & Hb' & Hlen & Hys);
    [lia..|]. replace (l + (length xs - l))%nat with (length xs) in E by lia.
  destruct (times_pop_back b' this (l - f) ys Hb') as (b'' & E' & Hb''); [lia|].
  exists b', b''. rewrite <- Hys. split; [|split; [done|]].
  - unfold move. cbn [at_ current_].
    rewrite (proj2 (Z.leb_gt (Z.of_nat l) (Z.of_nat f))) by lia. cbn [andb].
    replace (Z.to_nat (Z.of_nat (length xs) - Z.of_nat l)) with (length xs - l)%nat by lia. done.
  - by replace (f + (length xs - l))%nat with (length ys - (l - f))%nat by lia.
Qed.

(** The checks of [erase] pass for a valid range. *)
Lemma erase_range_unfold moved_from this b xs f l :
  represents b xs → (f <= l)%nat → (l <= length xs)%nat →
  erase_range MaxSize level this moved_from b (at_ this f) (at_ this l)
  = (b ← (if Z.of_nat f <=? Z.of_nat (length xs) - Z.of_nat l
          then b ← move_backward MaxSize level this moved_from b (at_ this 0) (at_ this f) (at_ this l);
               times (pop_front MaxSize level this) (l - f) b
          else b ← move MaxSize level this moved_from b (at_ this l) (at_ this (length xs)) (at_ this f);
               times (pop_back MaxSize level this) (l - f) b);
     Ret (b, at_ this f)).
Proof.
  intros Hb Hf Hl. pose proof (represents_sized _ _ Hb) as Hs. pose proof (rep_bound _ _ Hb) as Hbound.
  unfold erase_range. rewrite !(PRECONDITION_true (bool_decide (container_ _ = _)))
    by by apply bool_decide_eq_true.
  rewrite begin_at, (end_at _ _ _ Hs). cbn [mbind outcome_bind]. rewrite !it_le_at. cbn [mbind outcome_bind].
  rewrite !PRECONDITION_true by (apply bool_decide_eq_true; lia).
  rewrite !distance_at by lia. cbn [mbind outcome_bind].
  replace (Z.of_nat l - Z.of_nat f) with (Z.of_nat (l - f)) by lia. rewrite !Nat2Z.id.
  change (Z.of_nat 0) with 0. rewrite Z.sub_0_r.
  assert (retreat (at_ this l) (Z.of_nat (l - f)) = Ret (at_ this f)) as ->; [|done].
  replace l with (f + (l - f))%nat at 1 by lia. apply retreat_at. lia.
Qed.

Lemma erase_range_spec moved_from this b xs f l :
  represents b xs → (f < l)%nat → (l <= length xs)%nat →
  ∃ b', erase_range MaxSize level this moved_from b (at_ this f) (at_ this l) = Ret (b', at_ this f)
  ∧ represents b' (take f xs ++ drop l xs).
Proof.
  intros Hb Hf Hl. rewrite (erase_range_unfold _ _ _ _ _ _ Hb) by lia. case_match.
  - destruct (erase_front_half moved_from this b xs f l Hb Hf Hl) as (b1 & b2 & -> & E & Hb2).
    cbn [mbind outcome_bind]. rewrite E. by exists b2.
  - destruct (erase_back_half moved_from this b xs f l Hb Hf Hl) as (b1 & b2 & -> & E & Hb2).
    cbn [mbind outcome_bind]. rewrite E. by exists b2.
Qed.

(** An empty range is fine at the ends of the buffer only. *)
Lemma erase_range_empty moved_from this b xs f :
  represents b xs → (f <= length xs)%nat →
  erase_range MaxSize level this moved_from b (at_ this f) (at_ this f)
  = if decide (f = 0 ∨ f = length xs)%nat then Ret (b, at_ this f) else Undefined.
Proof.
  intros Hb Hf. rewrite (erase_range_unfold _ _ _ _ _ _ Hb) by lia. rewrite Nat.sub_diag.
  unfold move_backward, move. cbn [at_ current_]. rewrite Z.leb_refl, andb_true_r.
  change (Z.of_nat 0) with 0. case_decide as Hends.
  - destruct (decide (f = 0)%nat) as [->|].
    + rewrite (proj2 (Z.leb_le _ _)) by lia. cbn -[it_eq]. by rewrite (it_eq_at this 0 0).
    + rewrite (proj2 (Z.leb_gt _ _)) by lia. rewrite (proj2 (Z.ltb_ge _ _)) by lia. cbn [andb].
      replace (Z.of_nat _ - Z.of_nat f) with 0 by lia. cbn -[it_eq at_].
      rewrite it_eq_at, bool_decide_eq_true_2 by lia. done.
  - case_match; reflect_bool.
    + by rewrite (proj2 (Z.ltb_lt _ _)) by lia.
    + by rewrite (proj2 (Z.ltb_lt _ _)) by lia.
Qed.

(** [erase] checks its arguments unless assertions are compiled out. *)
Lemma erase_range_checks moved_from this b xs first last :
  represents b xs → level ≠ ASSERT_LEVEL_PRODUCTION →
  ¬ (container_ first = Some this ∧ container_ last = Some this
     ∧ 0 <= current_ first ∧ current_ first <= current_ last
     ∧ current_ last <= Z.of_nat (length xs)) →
  erase_range MaxSize level this moved_from b first last = Aborted.
Proof.
  intros Hb Hlevel Hbad. pose proof (represents_sized _ _ Hb) as Hs. unfold erase_range.
  assert (∀ A x (k : outcome A), PRECONDITION level x k = if x then k else Aborted) as E
    by by destruct level.
  rewrite !E. case_bool_decide as C1; [|done]. case_bool_decide as C2; [|done].
  rewrite begin_at, (end_at _ _ _ Hs). cbn [mbind outcome_bind].
  unfold it_le, it_lt, same_base, at_. cbn [container_ current_]. rewrite C1, C2.
  rewrite !ASSERT_DBG_true by by apply bool_decide_eq_true.
  cbn [fmap outcome_fmap mbind outcome_bind]. rewrite !E.
  repeat (case_match; reflect_bool; [|done]). exfalso. apply Hbad.
  change (Z.of_nat 0) with 0 in *. auto with lia.
Qed.

(** ** Copying and moving *)

Lemma slot_shift head i : slot ((head + Z.of_nat i) mod MaxSize) 0 = slot head i.
Proof. unfold slot. rewrite Zplus_mod_idemp_l. do 2 f_equal. lia. Qed.

Lemma destroy_range_spec this b n ys : ∀ i a,
  sized b n → (i + length ys <= n)%nat → holds a ((head_ b + Z.of_nat i) mod MaxSize) ys →
  ∃ a', destroy_range MaxSize level this (S (length ys)) (set_array a b)
      (at_ this i) (at_ this (i + length ys)) = Ret (set_array a' b)
  ∧ ∀ head, holds a' head [].
Proof.
  induction ys as [|y ys IH]; intros i a Hs Hi Ha; cbn [destroy_range length]; rewrite it_eq_at.
  { exists a. rewrite bool_decide_eq_true_2 by lia. split; [done|]. intros head. by eapply holds_nil. }
  cbn [length] in Hi. rewrite bool_decide_eq_false_2 by lia. cbn [mbind outcome_bind].
  pose proof Hs as (Hh & _ & Hn).
  rewrite (deref_at (set_array a b) this n i) by (done || lia). cbn [mbind outcome_bind head_ set_array].
  rewrite <- slot_shift, (destroy_slot (set_array a b) _ (y :: ys) 0 y) by (done || lia).
  cbn [mbind outcome_bind set_array array_]. rewrite advance1_at by lia. cbn [mbind outcome_bind].
  destruct (IH (i + 1)%nat (<[slot ((head_ b + Z.of_nat i) mod MaxSize) 0 := None]> a) Hs)
    as (a' & E & Ha'); [lia| |].
  - replace ((head_ b + Z.of_nat (i + 1)) mod MaxSize)
      with (((head_ b + Z.of_nat i) mod MaxSize + 1) mod MaxSize)
      by (rewrite Zplus_mod_idemp_l; f_equal; lia).
    eapply holds_destroy_front; [done|by apply Z.mod_pos_bound; lia|cbn [length]; lia].
  - exists a'. split; [|done]. replace (i + S (length ys))%nat with (i + 1 + length ys)%nat by lia. done.
Qed.

(** Copying fails iff one of the copies does; the objects copied so far are
    destroyed then. *)
Lemma uninitialized_copy_spec this that copy_throws other b xs m : ∀ k a,
  represents other xs → sized b (length xs) → head_ b = head_ other →
  (k + m = length xs)%nat → holds a (head_ b) (take k xs) →
  ∃ a', uninitialized_copy MaxSize level this that copy_throws (S m) other (set_array a b)
      (at_ that k) (at_ that (length xs)) (at_ this 0) (at_ this k)
    = Ret (set_array a' b, existsb copy_throws (drop k xs))
  ∧ if existsb copy_throws (drop k xs) then ∀ head, holds a' head [] else holds a' (head_ b) xs.
Proof.
  induction m as [|m IH]; intros k a Ho Hs Hh Hk Ha; cbn [uninitialized_copy]; rewrite it_eq_at.
  { exists a. rewrite bool_decide_eq_true_2, drop_ge by lia. split; [done|].
    by rewrite take_ge in Ha by lia. }
  rewrite bool_decide_eq_false_2 by lia. cbn [mbind outcome_bind].
  pose proof Hs as (Hb & _ & Hn).
  rewrite (deref_at (set_array a b) this (length xs) k) by (done || lia).
  rewrite (deref_at other that (length xs) k) by (by apply represents_sized || lia).
  cbn [mbind outcome_bind]. change (head_ (set_array a b)) with (head_ b).
  destruct (lookup_lt_is_Some_2 xs k ltac:(lia)) as [x Hx].
  destruct other as [oa ot oh oz]. cbn [head_] in *.
  rewrite (read_slot oa ot oh oz xs k x) by (exact (rep_holds _ _ Ho) || exact Hx || lia).
  cbn [mbind outcome_bind]. rewrite (drop_S _ _ _ Hx). cbn [existsb].
  assert (length (take k xs) = k) as Htk by (rewrite length_take; lia).
  destruct (copy_throws x) eqn:Ht.
  - cbn [orb]. change (current_ (at_ this k)) with (Z.of_nat k).
    change (current_ (at_ this 0)) with (Z.of_nat 0).
    destruct (destroy_range_spec this b (length xs) (take k xs) 0 a Hs) as (a' & E & Ha'); [lia| |].
    { change (Z.of_nat 0) with 0. by rewrite Z.add_0_r, Z.mod_small by lia. }
    rewrite Htk in E. change (0 + k)%nat with k in E. exists a'. split; [|done].
    replace (Z.to_nat (Z.of_nat k - Z.of_nat 0)) with k by lia. by rewrite E.
  - cbn [orb]. replace (slot (head_ b) k) with (slot (head_ b) (length (take k xs))) by by rewrite Htk.
    rewrite (construct_slot (set_array a b) (head_ b) (take k xs) x) by (done || lia).
    cbn [mbind outcome_bind]. rewrite !advance1_at by lia. cbn [mbind outcome_bind].
    rewrite Nat.add_1_r. apply (IH (S k)); try done; [lia|].
    rewrite (take_S_r _ _ _ Hx). apply holds_construct; [done|lia].
Qed.

(** The elements of the source after the first [k] of them were moved. *)
Definition moved (moved_from : T → T) (k : nat) (xs : list T) : list T :=
  (moved_from <$> take k xs) ++ drop k xs.

Lemma length_moved moved_from k xs : length (moved moved_from k xs) = length xs.
Proof. unfold moved. rewrite length_app, length_fmap, <- length_app, take_drop. done. Qed.

Lemma moved_lookup moved_from k xs : moved moved_from k xs !! k = xs !! k.
Proof.
  unfold moved. destruct (decide (k < length xs)%nat).
  - rewrite lookup_app_r; rewrite length_fmap, length_take; [|lia].
    rewrite lookup_drop. f_equal. lia.
  - rewrite !(proj2 (lookup_ge_None _ _)); [done|lia|].
    rewrite length_app, length_fmap, <- length_app, take_drop. lia.
Qed.

Lemma moved_step moved_from k xs x :
  xs !! k = Some x → <[k := moved_from x]> (moved moved_from k xs) = moved moved_from (S k) xs.
Proof.
  intros Hx. pose proof (lookup_lt_Some _ _ _ Hx). unfold moved.
  rewrite insert_app_r_alt; rewrite length_fmap, length_take; [|lia].
  replace (k - k `min` length xs)%nat with 0%nat by lia.
  rewrite (drop_S _ _ _ Hx), (take_S_r _ _ _ Hx), fmap_app, <- (assoc_L (++)). done.
Qed.

Lemma represents_array other xs a ys :
  represents other xs → holds a (head_ other) ys → length ys = length xs →
  represents (set_array a other) ys.
Proof.
  intros [_ Hh Hs Hb Ht] Ha Hl. split; cbn [set_array array_ head_ size_ tail_]; try done; lia.
Qed.

Lemma uninitialized_move_spec this that moved_from move_throws other b xs m : ∀ k oa a,
  represents other xs → sized b (length xs) → head_ b = head_ other →
  (k + m = length xs)%nat → holds a (head_ b) (take k xs) →
  holds oa (head_ other) (moved moved_from k xs) →
  ∃ oa' a' j, uninitialized_move MaxSize level this that moved_from move_throws (S m)
      (set_array oa other) (set_array a b)
      (at_ that k) (at_ that (length xs)) (at_ this 0) (at_ this k)
    = Ret (set_array oa' other, set_array a' b, existsb move_throws (drop k xs))
  ∧ holds oa' (head_ other) (moved moved_from j xs)
  ∧ if existsb move_throws (drop k xs) then ∀ head, holds a' head []
    else j = length xs ∧ holds a' (head_ b) xs.
Proof.
  induction m as [|m IH]; intros k oa a Ho Hs Hh Hk Ha Hoa; cbn [uninitialized_move]; rewrite it_eq_at.
  { exists oa, a, k. rewrite bool_decide_eq_true_2, drop_ge by lia. split; [done|]. split; [done|].
    rewrite take_ge in Ha by lia. split; [lia|done]. }
  rewrite bool_decide_eq_false_2 by lia. cbn [mbind outcome_bind].
  pose proof Hs as (Hb & _ & Hn).
  rewrite (deref_at (set_array a b) this (length xs) k) by (done || lia).
  rewrite (deref_at (set_array oa other) that (length xs) k) by (exact (represents_sized _ _ Ho) || lia).
  cbn [mbind outcome_bind]. change (head_ (set_array a b)) with (head_ b).
  change (head_ (set_array oa other)) with (head_ other).
  destruct (lookup_lt_is_Some_2 xs k ltac:(lia)) as [x Hx].
  assert (read (set_array oa other) (slot (head_ other) k) = Ret x) as ->.
  { apply (read_slot _ _ _ _ _ _ _ Hoa); [lia|]. by rewrite moved_lookup. }
  cbn [mbind outcome_bind]. rewrite (drop_S _ _ _ Hx). cbn [existsb].
  assert (length (take k xs) = k) as Htk by (rewrite length_take; lia).
  destruct (move_throws x) eqn:Ht.
  - cbn [orb]. change (current_ (at_ this k)) with (Z.of_nat k).
    change (current_ (at_ this 0)) with (Z.of_nat 0).
    destruct (destroy_range_spec this b (length xs) (take k xs) 0 a Hs) as (a' & E & Ha'); [lia| |].
    { change (Z.of_nat 0) with 0. by rewrite Z.add_0_r, Z.mod_small by lia. }
    rewrite Htk in E. change (0 + k)%nat with k in E. exists oa, a', k. split; [|done].
    replace (Z.to_nat (Z.of_nat k - Z.of_nat 0)) with k by lia. by rewrite E.
  - cbn [orb]. replace (slot (head_ b) k) with (slot (head_ b) (length (take k xs))) by by rewrite Htk.
    rewrite (construct_slot (set_array a b) (head_ b) (take k xs) x) by (done || lia).
    cbn [mbind outcome_bind]. rewrite !advance1_at by lia. cbn [mbind outcome_bind].
    rewrite Nat.add_1_r. apply (IH (S k)); try done; [lia|..].
    + rewrite (take_S_r _ _ _ Hx). apply holds_construct; [done|lia].
    + rewrite <- (moved_step _ _ _ _ Hx). apply holds_update; rewrite ?length_moved; [done|lia|lia].
Qed.

(** Both take over the indices of a buffer into one without elements. *)
Lemma adopt_sized other b xs : represents other xs → sized (adopt other b) (length xs).
Proof. by intros []. Qed.

Lemma adopt_represents other b xs a :
  represents other xs → holds a (head_ other) xs → represents (set_array a (adopt other b)) xs.
Proof. intros [_ Hh Hs Hb Ht] Ha. by split. Qed.

Lemma reset_represents (b : buffer) a : (∀ head, holds a head []) → represents (reset (set_array a b)) [].
Proof.
  intros Ha. split; cbn [reset set_size set_head set_tail set_array array_ head_ size_ tail_ length];
    try lia; [apply Ha|by rewrite Zmod_0_l].
Qed.

Lemma copy_elements_spec this that copy_throws other b xs :
  represents other xs → represents b [] →
  ∃ b', copy_elements MaxSize level this that copy_throws other b = Ret b'
  ∧ represents b' (if existsb copy_throws xs then [] else xs).
Proof.
  intros Ho Hb. unfold copy_elements. rewrite !begin_at, (end_at _ _ _ (represents_sized _ _ Ho)).
  cbn [mbind outcome_bind]. unfold size. rewrite (rep_size _ _ Ho), Nat2Z.id.
  destruct (uninitialized_copy_spec this that copy_throws other (adopt other b) xs (length xs) 0 (array_ b))
    as (a' & E & Ha'); [done|by apply adopt_sized|done|done|by eapply holds_nil, rep_holds|].
  change (set_array (array_ b) (adopt other b)) with (adopt other b) in E. rewrite E.
  cbn [mbind outcome_bind]. rewrite drop_0 in *. eexists. split; [reflexivity|].
  destruct (existsb copy_throws xs); [by apply reset_represents|by apply adopt_represents].
Qed.

Lemma move_elements_spec this that moved_from move_throws other b xs :
  represents other xs → represents b [] →
  ∃ other' b' j, move_elements MaxSize level this that moved_from move_throws other b = Ret (other', b')
  ∧ represents other' (moved moved_from j xs)
  ∧ (existsb move_throws xs = false → j = length xs)
  ∧ represents b' (if existsb move_throws xs then [] else xs).
Proof.
  intros Ho Hb. unfold move_elements. rewrite !begin_at, (end_at _ _ _ (represents_sized _ _ Ho)).
  cbn [mbind outcome_bind]. unfold size. rewrite (rep_size _ _ Ho), Nat2Z.id.
  destruct (uninitialized_move_spec this that moved_from move_throws other (adopt other b) xs
    (length xs) 0 (array_ other) (array_ b)) as (oa' & a' & j & E & Hoa' & Ha');
    [done|by apply adopt_sized|done|done|by eapply holds_nil, rep_holds|by apply rep_holds|].
  change (set_array (array_ b) (adopt other b)) with (adopt other b) in E.
  assert (set_array (array_ other) other = other) as Eo by by destruct other.
  rewrite Eo in E. rewrite E. cbn [mbind outcome_bind]. rewrite drop_0 in *.
  eexists _, _, j. split; [reflexivity|]. split; [|split].
  - eapply represents_array; [done..|]. apply length_moved.
  - destruct (existsb move_throws xs); [done|]. by intros _; apply Ha'.
  - destruct (existsb move_throws xs); [by apply reset_represents|].
    by apply adopt_represents, Ha'.
Qed.

(** ** Destruction, and arguments inside of the buffer *)

Lemma destroy_elements_spec ys : ∀ i (b : buffer) a,
  0 <= head_ b < MaxSize → Z.of_nat (i + length ys) <= MaxSize →
  holds a ((head_ b + Z.of_nat i) mod MaxSize) ys →
  ∃ a', destroy_elements MaxSize (length ys) (Z.of_nat i) (set_array a b) = Ret (set_array a' b)
  ∧ ∀ head, holds a' head [].
Proof.
  induction ys as [|y ys IH]; intros i b a Hh Hi Ha; cbn [destroy_elements length].
  { exists a. split; [done|]. intros head. by eapply holds_nil. }
  cbn [length] in Hi. change (head_ (set_array a b)) with (head_ b). rewrite u64_id by lia.
  change (Z.to_nat ((head_ b + Z.of_nat i) mod MaxSize)) with (slot (head_ b) i).
  rewrite <- slot_shift, (destroy_slot (set_array a b) _ (y :: ys) 0 y) by (done || lia).
  cbn [mbind outcome_bind]. replace (Z.of_nat i + 1) with (Z.of_nat (i + 1)) by lia.
  apply (IH (i + 1)%nat b); [done|lia|].
  replace ((head_ b + Z.of_nat (i + 1)) mod MaxSize)
    with (((head_ b + Z.of_nat i) mod MaxSize + 1) mod MaxSize)
    by (rewrite Zplus_mod_idemp_l; f_equal; lia).
  eapply holds_destroy_front; [done|by apply Z.mod_pos_bound; lia|cbn [length]; lia].
Qed.

Lemma destructor_spec b xs :
  represents b xs →
  ∃ b', destructor MaxSize b = Ret b' ∧ array_ b' = replicate (Z.to_nat MaxSize) None.
Proof.
  intros [Ha Hh Hs Hb _]. unfold destructor, size. rewrite Hs, Nat2Z.id.
  destruct (destroy_elements_spec xs 0 b (array_ b) Hh ltac:(lia)) as (a' & E & Ha').
  { change (Z.of_nat 0) with 0. by rewrite Z.add_0_r, Z.mod_small. }
  assert (set_array (array_ b) b = b) as Eb by by destruct b. rewrite Eb in E.
  exists (set_array a' b). split; [done|]. cbn [set_array array_].
  destruct (Ha' 0) as [Hl Hn]. apply list_eq_Forall2, Forall2_same_length_lookup_2.
  { by rewrite length_replicate. }
  intros j o1 o2 H1 H2. apply lookup_replicate in H2 as [-> Hj].
  destruct (slot_surj 0 j Hj) as (k & Hk & <-). rewrite Hn in H1 by done.
  rewrite lookup_nil in H1. congruence.
Qed.

(** An argument that refers to an element survives unless it is the front of
    a full buffer. *)
Lemma emplace_back_element b this xs i x :
  represents b xs → xs !! i = Some x →
  if decide (i = 0%nat ∧ Z.of_nat (length xs) = MaxSize)
  then emplace_back MaxSize level this b (Element (slot (head_ b) i)) = Undefined
  else ∃ b', emplace_back MaxSize level this b (Element (slot (head_ b) i)) = Ret b'
       ∧ represents b' (pushed xs x).
Proof.
  intros Hb Hx. pose proof (lookup_lt_Some _ _ _ Hx) as Hi. pose proof (rep_bound _ _ Hb) as Hbound.
  unfold emplace_back. rewrite (full_spec _ _ Hb). unfold pushed.
  pose proof (rep_holds _ _ Hb) as [Hl Ha].
  destruct (decide (Z.of_nat (length xs) = MaxSize)) as [Hfull|Hfull];
    [rewrite bool_decide_eq_true_2 by done|rewrite bool_decide_eq_false_2 by done].
  - destruct xs as [|y xs]; [done|].
    destruct (pop_front_cons _ this _ _ Hb) as (b1 & -> & Hb1 & Ea). cbn [mbind outcome_bind load].
    unfold read. rewrite Ea. case_decide as Hc.
    + destruct Hc as [-> _]. by rewrite list_lookup_insert_eq by (rewrite Hl; apply slot_lt).
    + rewrite list_lookup_insert_ne by (intros E; apply slot_inj in E; [|lia..]; naive_solver lia).
      rewrite Ha, Hx by lia. cbn [mbind outcome_bind].
      destruct (construct_back _ _ x Hb1) as (b2 & -> & Hb2); [simpl in Hfull; lia|]. by eexists.
  - rewrite decide_False by naive_solver. cbn [mbind outcome_bind load].
    unfold read. rewrite Ha, Hx by lia. cbn [mbind outcome_bind].
    destruct (construct_back _ _ x Hb) as (b2 & -> & Hb2); [lia|]. by eexists.
Qed.

(** ** Sequences of operations *)

Inductive operation :=
| PushBack (v : T)
| PushElement (i : nat)
| PopFront
| PopBack
| Clear
| Erase (first last : nat).

(** The operation on a buffer; [PushElement] is [push_back(buffer\[i\])] and
    [Erase] takes the positions of its iterators. *)
Definition exec (moved_from : T → T) (this : positive) (o : operation) (b : buffer) : outcome buffer :=
  match o with
  | PushBack v => push_back MaxSize level this b (Outside v)
  | PushElement i =>
      r ← operator_index MaxSize level b (Z.of_nat i); push_back MaxSize level this b (Element r)
  | PopFront => pop_front MaxSize level this b
  | PopBack => pop_back MaxSize level this b
  | Clear => clear MaxSize level this b
  | Erase first last =>
      bg ← begin_ level this b;
      f ← advance bg (Z.of_nat first); l ← advance bg (Z.of_nat last);
      fst <$> erase_range MaxSize level this moved_from b f l
  end.

(** What the documentation asks for: an element that exists, and two
    iterators in the range [\[begin(), end()\]] in this order. *)
Definition documented (o : operation) (xs : list T) : bool :=
  match o with
  | PushElement i => bool_decide (i < length xs)%nat
  | Erase first last => bool_decide (first <= last ∧ last <= length xs)%nat
  | _ => true
  end.

(** The operation on a sequence.  Two documented calls have no defined
    behaviour: pushing the front element of a full buffer, and erasing an empty
    range that is at none of the two ends. *)
Definition exec_spec (o : operation) (xs : list T) : outcome (list T) :=
  match o with
  | PushBack v => Ret (pushed xs v)
  | PushElement i =>
      if decide (i = 0%nat ∧ Z.of_nat (length xs) = MaxSize) then Undefined
      else from_option (λ x, Ret (pushed xs x)) Undefined (xs !! i)
  | PopFront => Ret (drop 1 xs)
  | PopBack => Ret (take (length xs - 1) xs)
  | Clear => Ret []
  | Erase first last =>
      if decide (first = last ∧ first ≠ 0 ∧ first ≠ length xs)%nat then Undefined
      else Ret (take first xs ++ drop last xs)
  end.

Fixpoint run (moved_from : T → T) (this : positive) (os : list operation) (b : buffer) : outcome buffer :=
  match os with [] => Ret b | o :: os => b ← exec moved_from this o b; run moved_from this os b end.

(** [None] if a call of the sequence is not [documented]. *)
Fixpoint run_spec (os : list operation) (xs : list T) : option (outcome (list T)) :=
  match os with
  | [] => Some (Ret xs)
  | o :: os =>
      if documented o xs
      then match exec_spec o xs with Ret xs' => run_spec os xs' | r => Some r end else None
  end.

(** A run and what the sequence says of it. *)
Definition agrees (r : outcome (list T)) (r' : outcome buffer) : Prop :=
  match r with
  | Ret xs => ∃ b, r' = Ret b ∧ represents b xs
  | Undefined => r' = Undefined
  | Aborted => False
  end.

Lemma operator_index_slot b n i :
  sized b n → (i < n)%nat → operator_index MaxSize level b (Z.of_nat i) = Ret (slot (head_ b) i).
Proof.
  intros (Hh & Hs & Hn) Hi. unfold operator_index, size.
  rewrite ASSERT_DBG_true by (apply Z.ltb_lt; lia). by rewrite u64_id by lia.
Qed.

Lemma push_element_refines moved_from this i b xs :
  represents b xs → (i < length xs)%nat →
  agrees (exec_spec (PushElement i) xs) (exec moved_from this (PushElement i) b).
Proof.
  intros Hb Hi. cbn [exec exec_spec].
  rewrite (operator_index_slot b (length xs)) by (done || by apply represents_sized).
  destruct (lookup_lt_is_Some_2 xs i Hi) as [x Hx].
  pose proof (emplace_back_element b this xs i x Hb Hx) as E.
  case_decide; [exact E|]. rewrite Hx. exact E.
Qed.

Lemma erase_refines moved_from this f l b xs :
  represents b xs → (f <= l)%nat → (l <= length xs)%nat →
  agrees (exec_spec (Erase f l) xs) (exec moved_from this (Erase f l) b).
Proof.
  intros Hb Hf Hl. pose proof (rep_bound _ _ Hb). cbn [exec exec_spec]. rewrite begin_at.
  cbn [mbind outcome_bind]. rewrite !advance_at by lia. cbn [mbind outcome_bind Nat.add].
  destruct (decide (f = l)) as [<-|].
  - rewrite (erase_range_empty _ _ _ _ _ Hb Hl). destruct (decide (f = 0 ∨ f = length xs)%nat).
    + rewrite decide_False by lia. rewrite take_drop. by exists b.
    + by rewrite decide_True by lia.
  - rewrite decide_False by lia.
    destruct (erase_range_spec moved_from this b xs f l Hb) as (b' & -> & Hb'); [lia..|]. by exists b'.
Qed.

Lemma exec_refines moved_from this o b xs :
  represents b xs → documented o xs → agrees (exec_spec o xs) (exec moved_from this o b).
Proof.
  intros Hb Ho. destruct o as [v|i| | | |f l]; cbn [documented] in Ho.
  - by apply emplace_back_outside.
  - apply bool_decide_unpack in Ho. by apply push_element_refines.
  - destruct xs as [|x xs]; cbn [exec exec_spec agrees].
    + exists b. by rewrite pop_front_nil.
    + destruct (pop_front_cons _ this _ _ Hb) as (b' & ? & ? & _). by exists b'.
  - cbn [exec exec_spec agrees]. destruct xs as [|x xs _] using rev_ind.
    + exists b. by rewrite pop_back_nil.
    + rewrite length_app, Nat.add_sub, take_app_length. by eapply pop_back_snoc.
  - by eapply clear_spec.
  - apply bool_decide_unpack in Ho as [??]. by apply erase_refines.
Qed.

Lemma run_refines moved_from this os : ∀ b xs r,
  represents b xs → run_spec os xs = Some r → agrees r (run moved_from this os b).
Proof.
  induction os as [|o os IH]; intros b xs r Hb Hx; simpl in Hx; [simplify_eq; by exists b|].
  destruct (documented o xs) eqn:Ho; [|done].
  pose proof (exec_refines moved_from this o b xs Hb (Is_true_true_2 _ Ho)) as E. simpl.
  destruct (exec_spec o xs) as [ys| |]; simplify_eq; [|done|by rewrite E].
  destruct E as (b1 & -> & Hb1). by apply (IH b1 ys).
Qed.

Lemma push_all_spec vs : ∀ xs,
  Z.of_nat (length xs) <= MaxSize →
  run_spec (PushBack <$> vs) xs = Some (Ret (drop (length xs + length vs - Z.to_nat MaxSize) (xs ++ vs))).
Proof.
  induction vs as [|v vs IH]; intros xs Hl; cbn [fmap list_fmap run_spec exec_spec documented].
  { simpl. rewrite app_nil_r. do 2 f_equal. by replace (_ - _)%nat with 0%nat by lia. }
  unfold pushed. case_decide as Hfull.
  - destruct xs as [|x xs]; [simpl in Hfull; lia|]. cbn [length] in *.
    change (drop 1 (x :: xs)) with xs.
    rewrite IH by (rewrite length_app; cbn [length]; lia). rewrite length_app. do 2 f_equal. cbn [length Nat.add].
    replace (S (length xs + S (length vs)) - Z.to_nat MaxSize)%nat
      with (S (length xs + 1 + length vs - Z.to_nat MaxSize)) by lia.
    by rewrite <- (assoc_L (++)).
  - rewrite IH by (rewrite length_app; simpl; lia). rewrite length_app. do 2 f_equal. cbn [length].
    rewrite <- (assoc_L (++)). f_equal. lia.
Qed.

Lemma represents_read b xs i x :
  represents b xs → xs !! i = Some x →
  operator_index MaxSize level b (Z.of_nat i) ≫= read b = Ret x.
Proof.
  intros Hb Hx. pose proof (lookup_lt_Some _ _ _ Hx).
  rewrite (operator_index_slot b (length xs)) by (done || by apply represents_sized).
  pose proof (rep_bound _ _ Hb). destruct Hb as [Ha _ _ _ _].
  cbn [mbind outcome_bind]. destruct b. eapply read_slot; [exact Ha|lia|done].
Qed.

End Spec.

Set Default Proof Using "Type".
(** ** Properties *)

(** C27: a sequence of calls on a new buffer in which every call is
    [documented] (the element that is pushed exists, the iterators of [erase] are
    in [\[begin(), end()\]] and ordered).  At every assertion level the
    sequence returns: no index leaves the storage, no object is read after it
    was destroyed, constructed over or destroyed twice.  The buffer then
    represents the sequence that the operations on bounded sequences give,
    [operator\[\]] reads its elements, and the destructor destroys all of them.
    Exactly two documented calls are undefined instead, as [exec_spec] says:
    [push_back] of the front element of a full buffer, and [erase] of an empty
    range that is at neither end. *)
Theorem circular_buffer_refines {T} (MaxSize : Z) (level : assert_level) (this : positive)
    (moved_from : T → T) (os : list operation) (r : outcome (list T)) :
  0 < MaxSize < 2 ^ 63 → run_spec MaxSize os [] = Some r →
  match r with
  | Ret xs =>
      ∃ b, run MaxSize level moved_from this os (destructor_base MaxSize) = Ret b
      ∧ represents MaxSize b xs
      ∧ size b = Z.of_nat (length xs)
      ∧ (∀ i x, xs !! i = Some x → operator_index MaxSize level b (Z.of_nat i) ≫= read b = Ret x)
      ∧ ∃ b', destructor MaxSize b = Ret b' ∧ array_ b' = replicate (Z.to_nat MaxSize) None
  | Undefined => run MaxSize level moved_from this os (destructor_base MaxSize) = Undefined
  | Aborted => False
  end.
Proof.
  intros HMax Hxs.
  pose proof (run_refines MaxSize level HMax moved_from this os _ _ _ (empty_represents MaxSize HMax) Hxs) as H.
  destruct r as [xs| |]; [|done..]. destruct H as (b & E & Hb).
  exists b. split; [done|]. split; [done|]. split; [apply Hb|].
  split; [by intros; eapply represents_read|by eapply destructor_spec].
Qed.

Lemma circular_buffer_refines_witness :
  (∃ b, run 3 ASSERT_LEVEL_DEBUG (λ _, 0%nat) 1 [PushBack 1%nat; PushBack 2%nat; PushBack 3%nat;
      PushBack 4%nat; Erase 1 2; Erase 2 2; PushElement 0; PushElement 1; PopFront] (destructor_base 3) = Ret b
  ∧ represents 3 b [2%nat; 4%nat]
  ∧ size b = Z.of_nat (length [2%nat; 4%nat])
  ∧ (∀ i x, [2%nat; 4%nat] !! i = Some x →
       operator_index 3 ASSERT_LEVEL_DEBUG b (Z.of_nat i) ≫= read b = Ret x)
  ∧ ∃ b', destructor 3 b = Ret b' ∧ array_ b' = replicate (Z.to_nat 3) None)
  ∧ run 2 ASSERT_LEVEL_DEFAULT id 1 [PushBack 1%nat; PushBack 2%nat; PushElement 0] (destructor_base 2)
    = Undefined
  ∧ run 3 ASSERT_LEVEL_DEFAULT id 1 [PushBack 1%nat; PushBack 2%nat; Erase 1 1; PopFront] (destructor_base 3)
    = Undefined.
Proof.
  split; [|split].
  - apply (circular_buffer_refines 3 ASSERT_LEVEL_DEBUG 1 (λ _, 0%nat)
      [PushBack 1%nat; PushBack 2%nat; PushBack 3%nat; PushBack 4%nat; Erase 1 2; Erase 2 2; PushElement 0;
       PushElement 1; PopFront] (Ret [2%nat; 4%nat])); [lia|reflexivity].
  - apply (circular_buffer_refines 2 ASSERT_LEVEL_DEFAULT 1 id
      [PushBack 1%nat; PushBack 2%nat; PushElement 0] Undefined); [lia|reflexivity].
  - apply (circular_buffer_refines 3 ASSERT_LEVEL_DEFAULT 1 id
      [PushBack 1%nat; PushBack 2%nat; Erase 1 1; PopFront] Undefined); [lia|reflexivity].
Defined.

(** A buffer holds the most recent elements: after any number of
    [push_back]s it contains the last [MaxSize] of them, in order. *)
Theorem keeps_most_recent {T} (MaxSize : Z) (level : assert_level) (this : positive)
    (moved_from : T → T) (vs : list T) :
  0 < MaxSize < 2 ^ 63 →
  ∃ b, run MaxSize level moved_from this (PushBack <$> vs) (destructor_base MaxSize) = Ret b
  ∧ represents MaxSize b (drop (length vs - Z.to_nat MaxSize) vs).
Proof.
  intros HMax. refine (run_refines MaxSize level HMax moved_from this _ _ [] (Ret _) _ _);
    [by apply empty_represents|]. by rewrite push_all_spec by (simpl; lia).
Qed.

Lemma keeps_most_recent_witness :
  ∃ b, run 2 ASSERT_LEVEL_DEFAULT id 1 (PushBack <$> [1%nat; 2%nat; 3%nat]) (destructor_base 2) = Ret b
  ∧ represents 2 b [2%nat; 3%nat].
Proof. apply (keeps_most_recent 2 ASSERT_LEVEL_DEFAULT 1 id [1%nat; 2%nat; 3%nat]). lia. Defined.

(** [erase] removes the elements of a non-empty range and returns an
    iterator to the element that followed them.  An empty range is accepted at
    both ends of the buffer, but inside of it the source and the destination
    of the move overlap in a way that [std::move] and [std::move_backward]
    leave undefined.  A range that is not one of this buffer aborts, unless
    preconditions are compiled out. *)
Theorem erase_spec {T} (MaxSize : Z) (level : assert_level) (this : positive)
    (moved_from : T → T) (b : circular_buffer T) (xs : list T) :
  0 < MaxSize < 2 ^ 63 → represents MaxSize b xs →
  (∀ f l, (f < l)%nat → (l <= length xs)%nat →
     ∃ b', erase_range MaxSize level this moved_from b (at_ this f) (at_ this l) = Ret (b', at_ this f)
     ∧ represents MaxSize b' (take f xs ++ drop l xs))
  ∧ (∀ f, (f <= length xs)%nat →
     erase_range MaxSize level this moved_from b (at_ this f) (at_ this f)
     = if decide (f = 0 ∨ f = length xs)%nat then Ret (b, at_ this f) else Undefined)
  ∧ (∀ first last, level ≠ ASSERT_LEVEL_PRODUCTION →
     ¬ (container_ first = Some this ∧ container_ last = Some this
        ∧ 0 <= current_ first ∧ current_ first <= current_ last
        ∧ current_ last <= Z.of_nat (length xs)) →
     erase_range MaxSize level this moved_from b first last = Aborted).
Proof.
  intros HMax Hb. split; [|split].
  - intros. by apply erase_range_spec.
  - intros. by apply erase_range_empty.
  - intros. by eapply erase_range_checks.
Qed.

(** A buffer with three of four slots in use, wrapped around the end. *)
Definition wrapped : circular_buffer nat :=
  Build_circular_buffer [Some 12%nat; None; Some 10%nat; Some 11%nat] 1 2 3.

Lemma wrapped_represents : represents 4 wrapped [10%nat; 11%nat; 12%nat].
Proof.
  split; simpl; try lia; [|done]. split; [done|].
  intros [|[|[|[|i]]]] Hi; [done..|]. change (Z.to_nat 4) with 4%nat in Hi. lia.
Qed.

Lemma erase_spec_witness :
  (∃ b', erase_range 4 ASSERT_LEVEL_DEFAULT 1 id wrapped (at_ 1 1) (at_ 1 2) = Ret (b', at_ 1 1)
     ∧ represents 4 b' [10%nat; 12%nat])
  ∧ erase_range 4 ASSERT_LEVEL_DEFAULT 1 id wrapped (at_ 1 1) (at_ 1 1) = Undefined
  ∧ erase_range 4 ASSERT_LEVEL_DEFAULT 1 id wrapped (at_ 1 2) (at_ 1 4) = Aborted.
Proof.
  destruct (erase_spec 4 ASSERT_LEVEL_DEFAULT 1 id wrapped [10%nat; 11%nat; 12%nat] ltac:(lia)
    wrapped_represents) as (H1 & H2 & H3).
  split; [apply (H1 1 2)%nat; simpl; lia|]. split; [apply (H2 1%nat); simpl; lia|].
  apply H3; [done|]. simpl. lia.
Defined.

(** Copies and moves of whole buffers.  A copy represents the same
    sequence, whatever the target held before, and leaves an empty buffer if
    one of the copy constructors throws; then the objects constructed so far
    are destroyed.  A move behaves alike; its source keeps its size, with
    moved-from elements.  Self-assignment changes nothing. *)
Theorem copy_and_move_spec {T} (MaxSize : Z) (level : assert_level) (this that : positive)
    (moved_from : T → T) (throws : T → bool) (b other : circular_buffer T) (ys xs : list T) :
  0 < MaxSize < 2 ^ 63 → represents MaxSize b ys → represents MaxSize other xs →
  let result := if existsb throws xs then [] else xs in
  (∃ b', copy_construct MaxSize level this that throws other = Ret b' ∧ represents MaxSize b' result)
  ∧ (∃ b', copy_assign MaxSize level this that throws b other = Ret b'
     ∧ if decide (this = that) then b' = b else represents MaxSize b' result)
  ∧ (∃ other' b' j, move_construct MaxSize level this that moved_from throws other = Ret (other', b')
     ∧ represents MaxSize b' result ∧ represents MaxSize other' (moved moved_from j xs)
     ∧ (existsb throws xs = false → j = length xs))
  ∧ (∃ other' b' j, move_assign_buffer MaxSize level this that moved_from throws b other = Ret (other', b')
     ∧ if decide (this = that) then b' = b ∧ other' = other
       else represents MaxSize b' result ∧ represents MaxSize other' (moved moved_from j xs)
            ∧ (existsb throws xs = false → j = length xs)).
Proof.
  intros HMax Hb Ho result.
  destruct (clear_spec MaxSize level HMax b this ys Hb) as (b0 & Ec & Hb0).
  pose proof (empty_represents (T := T) MaxSize HMax) as He. split; [|split; [|split]].
  - by apply copy_elements_spec.
  - unfold copy_assign. case_decide; [by exists b|]. rewrite Ec. by apply copy_elements_spec.
  - destruct (move_elements_spec MaxSize level HMax this that moved_from throws other _ xs Ho He)
      as (other' & b' & j & E & H1 & H2 & H3). by exists other', b', j.
  - unfold move_assign_buffer. case_decide; [by exists other, b, 0%nat|]. rewrite Ec.
    destruct (move_elements_spec MaxSize level HMax this that moved_from throws other _ xs Ho Hb0)
      as (other' & b' & j & E & H1 & H2 & H3). by exists other', b', j.
Qed.

Lemma copy_and_move_spec_witness :
  ∃ b', copy_assign 4 ASSERT_LEVEL_DEFAULT 1 2 (λ x, (x =? 12)%nat) (destructor_base 4) wrapped = Ret b'
  ∧ represents 4 b' [].
Proof.
  destruct (copy_and_move_spec 4 ASSERT_LEVEL_DEFAULT 1 2 id (λ x, (x =? 12)%nat) (destructor_base 4)
    wrapped [] [10%nat; 11%nat; 12%nat] ltac:(lia) (empty_represents 4 ltac:(lia)) wrapped_represents)
    as (_ & (b' & E & Hb') & _).
  exists b'. split; [exact E|exact Hb'].
Defined.

(** [push_back] of a reference to an element of the buffer itself appends
    a copy of this element, except for the front of a full buffer: the code
    destroys it to make room before it reads it, which is undefined. *)
Theorem push_back_of_element {T} (MaxSize : Z) (level : assert_level) (this : positive)
    (b : circular_buffer T) (xs : list T) (i : nat) (x : T) :
  0 < MaxSize < 2 ^ 63 → represents MaxSize b xs → xs !! i = Some x →
  ∃ r, operator_index MaxSize level b (Z.of_nat i) = Ret r ∧ read b r = Ret x ∧
  if decide (i = 0%nat ∧ Z.of_nat (length xs) = MaxSize)
  then push_back MaxSize level this b (Element r) = Undefined
  else ∃ b', push_back MaxSize level this b (Element r) = Ret b'
       ∧ represents MaxSize b' (pushed MaxSize xs x).
Proof.
  intros HMax Hb Hx. exists (slot MaxSize (head_ b) i).
  pose proof (represents_read MaxSize level HMax b xs i x Hb Hx) as Hr.
  pose proof (operator_index_slot MaxSize level HMax b (length xs) i
    (represents_sized _ HMax _ _ Hb) (lookup_lt_Some _ _ _ Hx)) as E.
  rewrite E in Hr. split; [done|]. split; [done|]. by apply emplace_back_element.
Qed.

Lemma push_back_of_element_witness :
  ∃ r, operator_index 4 ASSERT_LEVEL_DEFAULT wrapped 1 = Ret r ∧ read wrapped r = Ret 11%nat ∧
  ∃ b', push_back 4 ASSERT_LEVEL_DEFAULT 1 wrapped (Element r) = Ret b'
       ∧ represents 4 b' [10%nat; 11%nat; 12%nat; 11%nat].
Proof.
  apply (push_back_of_element 4 ASSERT_LEVEL_DEFAULT 1 wrapped [10%nat; 11%nat; 12%nat] 1 11%nat);
    [lia|exact wrapped_represents|reflexivity].
Defined.

End CircularBufferSpec.
