(* ===== verification/Serializer.v ===== *)
(** * Serialisation of C++ objects: serialization/visit_serialize.h

    static_reflection_with_serialization writes an object into a buffer and
    reads it back.  The payload of an object has a fixed size that depends on
    its type only; a string or a vector stores in its payload the offset of a
    block behind the payload, which starts with the size of its content.

    A type the library can handle is a [ctype], and [value T] are the objects
    of the type.  An object that is copied byte by byte is its object
    representation; integers are stored with the least significant byte first,
    as the payload tags say.  [serialized_t] is the payload type, of which
    only the layout matters: all payload types have alignment 1, so that
    [sizeof_payload] is a sum.  A buffer is a list of characters and a pointer
    into it an index; reading or writing outside of it is [Undefined].

    The template parameter [A] with the types of offsets and of sizes is an
    argument, and so is the level of the assertions.  [deserialize] gets the
    object it overwrites. *)

From stdpp Require Import vector.
From S2P Require Import Prelude CppInt CppString CircularBuffer.

Local Open Scope Z_scope.

Module Serializer.

(** ** Types *)

(** The argument [A] of the templates. *)
Record alloc := { offset_t : int_type; subsize_t : int_type }.

(** What the static assertions of the helpers demand. *)
Definition valid_alloc (A : alloc) : bool :=
  negb (is_signed (offset_t A)) && negb (is_signed (subsize_t A))
  && (bits (subsize_t A) <=? bits (offset_t A)).

Inductive payload_tag :=
| signed_le | unsigned_le | ieee754_float_le | bitset_tag
| array_tag | string_tag | vector_tag | pack_tag.

(** What visit_type_traits.h finds out about a container, and its
    [max_size()]. *)
Record container := { has_resize : bool; has_clear : bool; max_size : Z }.

(** A scalar is everything that is copied with [memcpy]: integers, enums,
    floating-point numbers, bitsets, durations.  [IntegralVector] is
    [std::vector] of an integral type, for which there are overloads of their
    own.  A [Pack] is a tuple or a visitable struct. *)
Inductive ctype :=
| Scalar (tag : payload_tag) (size : nat)
| Array (T : ctype) (N : nat)
| String
| Vector (c : container) (T : ctype)
| IntegralVector (tag : payload_tag) (size : nat)
| Pair (T1 T2 : ctype)
| Pack (Ts : pack)
| Optional (T : ctype)
| skip_deserialize (T : ctype)
with pack :=
| PackLast (T : ctype)
| PackMore (T : ctype) (Ts : pack).

Scheme ctype_pack_ind := Induction for ctype Sort Prop
  with pack_ctype_ind := Induction for pack Sort Prop.
Combined Scheme ctype_mutind from ctype_pack_ind, pack_ctype_ind.

Inductive payload :=
| memcpy_serialized (N : nat)
| array_serialized (P : payload) (N : nat)
| pair_serialized (P1 P2 : payload)
| vector_serialized (P : payload)
| string_serialized
| pack_serialized (P : payload)
| skip_deserialize_serialized (P : payload).

(** [serialized_descriptor_t]: the tag and the payload type. *)
Fixpoint serialized_descriptor (T : ctype) : payload_tag * payload :=
  match T with
  | Scalar tag size => (tag, memcpy_serialized size)
  | Array T N => (array_tag, array_serialized (serialized_descriptor T).2 N)
  | String => (string_tag, string_serialized)
  | Vector _ T => (vector_tag, vector_serialized (serialized_descriptor T).2)
  | IntegralVector _ size => (vector_tag, vector_serialized (memcpy_serialized size))
  | Pair T1 T2 =>
      (pack_tag, pack_serialized
        (pair_serialized (serialized_descriptor T1).2 (serialized_descriptor T2).2))
  | Pack Ts => (pack_tag, pack_serialized (visit_parameter_pack Ts))
  | Optional T =>
      (pack_tag, pack_serialized
        (pair_serialized (memcpy_serialized 1) (serialized_descriptor T).2))
  | skip_deserialize T =>
      ((serialized_descriptor T).1, skip_deserialize_serialized (serialized_descriptor T).2)
  end
with visit_parameter_pack (Ts : pack) : payload :=
  match Ts with
  | PackLast T => (serialized_descriptor T).2
  | PackMore T Ts => pair_serialized (serialized_descriptor T).2 (visit_parameter_pack Ts)
  end.

Definition serialized_t (T : ctype) : payload := (serialized_descriptor T).2.

Definition sizeof_int (t : int_type) : Z := bits t / 8.

Fixpoint sizeof_payload (A : alloc) (s : payload) : Z :=
  match s with
  | memcpy_serialized N => Z.of_nat N
  | array_serialized P N => sizeof_payload A P * Z.of_nat N
  | pair_serialized P1 P2 => sizeof_payload A P1 + sizeof_payload A P2
  | vector_serialized _ | string_serialized => sizeof_int (offset_t A)
  | pack_serialized P | skip_deserialize_serialized P => sizeof_payload A P
  end.

(** ** Objects *)

Fixpoint value (T : ctype) : Type :=
  match T with
  | Scalar _ _ | String => str
  | Array T N => vec (value T) N
  | Vector _ T => list (value T)
  | IntegralVector _ _ => list str
  | Pair T1 T2 => value T1 * value T2
  | Pack Ts => pack_value Ts
  | Optional T => option (value T)
  | skip_deserialize _ => unit
  end
with pack_value (Ts : pack) : Type :=
  match Ts with
  | PackLast T => value T
  | PackMore T Ts => value T * pack_value Ts
  end.

(** The value-initialised object [T{}]. *)
Fixpoint value_init (T : ctype) : value T :=
  match T with
  | Scalar _ size => replicate size zero
  | String => []
  | Array T N => vreplicate N (value_init T)
  | Vector _ _ => []
  | IntegralVector _ _ => []
  | Pair T1 T2 => (value_init T1, value_init T2)
  | Pack Ts => pack_value_init Ts
  | Optional _ => None
  | skip_deserialize _ => tt
  end
with pack_value_init (Ts : pack) : pack_value Ts :=
  match Ts with
  | PackLast T => value_init T
  | PackMore T Ts => (value_init T, pack_value_init Ts)
  end.

(** The object representation of an integer, and the integer it is for. *)
Fixpoint le_split (n : nat) (z : Z) : str :=
  match n with
  | O => []
  | S n => ascii_of_N (Z.to_N (z mod 256)) :: le_split n (z / 256)
  end.

Fixpoint le_combine (s : str) : Z :=
  match s with
  | [] => 0
  | c :: s => Z.of_N (N_of_ascii c) + 256 * le_combine s
  end.

(** ** The helpers with the buffer *)

Record serializer_helper := { base_ : str; maxSize_ : Z; curSize_ : Z }.

Record deserializer_helper := {
  dbase_ : str;
  dmaxSize_ : Z;
  invalid_format_ : bool;
  zero_offset_ : bool;
  out_of_bounds_ : bool;
}.

(** [deserialization_result_t] and its conversion to [bool]. *)
Record deserialization_result_t := {
  getOutOfBounds : bool;
  getInvalidFormat : bool;
  getZeroOffset : bool;
}.

Definition result_ok (r : deserialization_result_t) : bool :=
  negb ((getOutOfBounds r || getInvalidFormat r) || getZeroOffset r).

Definition setInvalidFormat (d : deserializer_helper) : deserializer_helper :=
  Build_deserializer_helper (dbase_ d) (dmaxSize_ d) true (zero_offset_ d) (out_of_bounds_ d).
Definition setZeroOffset (d : deserializer_helper) : deserializer_helper :=
  Build_deserializer_helper (dbase_ d) (dmaxSize_ d) (invalid_format_ d) true (out_of_bounds_ d).
Definition setOutOfBounds (d : deserializer_helper) : deserializer_helper :=
  Build_deserializer_helper (dbase_ d) (dmaxSize_ d) (invalid_format_ d) (zero_offset_ d) true.

(** [memcpy] of [n] characters from, and of [bs] to, the memory at [p]. *)
Definition load (m : str) (p n : Z) : outcome str :=
  if (0 <=? p) && (p + n <=? Z.of_nat (length m))
  then Ret (take (Z.to_nat n) (drop (Z.to_nat p) m)) else Undefined.

Definition store (m : str) (p : Z) (bs : str) : outcome str :=
  if (0 <=? p) && (p + Z.of_nat (length bs) <=? Z.of_nat (length m))
  then Ret (take (Z.to_nat p) m ++ bs ++ drop (Z.to_nat p + length bs) m) else Undefined.

Definition set_base (m : str) (a : serializer_helper) : serializer_helper :=
  Build_serializer_helper m (maxSize_ a) (curSize_ a).
Definition set_curSize (n : Z) (a : serializer_helper) : serializer_helper :=
  Build_serializer_helper (base_ a) (maxSize_ a) n.

Section Operations.
Variables (level : assert_level) (A : alloc).

Definition sizeof (T : ctype) : Z := sizeof_payload A (serialized_t T).
Definition sizeof_subsize : Z := sizeof_int (subsize_t A).

(** The constructor; the buffer exists, so that its address is not null. *)
Definition make_serializer_helper (base : str) (maxSize startSize : Z) :
    outcome serializer_helper :=
  PRECONDITION level (0 <? startSize)
  (PRECONDITION level (startSize <=? maxSize)
   (Ret (Build_serializer_helper base maxSize startSize))).

Definition make_deserializer_helper (base : str) (maxSize : Z) : deserializer_helper :=
  Build_deserializer_helper base maxSize false false false.

Definition advance (a : serializer_helper) (size : Z) : outcome (serializer_helper * Z) :=
  if max (subsize_t A) <? size then Ret (a, 0) else
  remaining_space ← c_sub (offset_t A) (offset_t A) (maxSize_ a) (curSize_ a);
  if u64 remaining_space <? size then Ret (a, 0) else
  let size' := static_cast (offset_t A) size in
  limit ← c_sub (offset_t A) (offset_t A) (max (offset_t A)) size';
  PRECONDITION level (curSize_ a <=? limit)
  (sum ← c_add (offset_t A) (offset_t A) (curSize_ a) size';
   let cur := static_cast (offset_t A) sum in
   old ← c_sub (offset_t A) (offset_t A) cur size';
   Ret (set_curSize cur a, static_cast (offset_t A) old)).

(** [address] of the serialiser: the pointer to offset [size]. *)
Definition address (a : serializer_helper) (size : Z) : outcome Z :=
  ASSERT_DBG level (size <=? maxSize_ a) (Ret size).

(** [address<T>] of the deserialiser, [None] for [nullptr]. *)
Definition d_address (sizeof_T : Z) (d : deserializer_helper) (size n : Z) :
    outcome (deserializer_helper * option Z) :=
  if dmaxSize_ d <? u64 (size + u64 (sizeof_T * n)) then Ret (setOutOfBounds d, None) else
  ASSERT_DBG level (size <=? dmaxSize_ d) (Ret (d, Some size)).

(** ** Serialisation *)

(** The overload for [memcpy_serialized]; [t] is an object representation. *)
Definition serialize_memcpy (t : str) (a : serializer_helper) (serial : Z) :
    outcome serializer_helper :=
  m ← store (base_ a) serial t; Ret (set_base m a).

Definition serialize_int (ty : int_type) (z : Z) (a : serializer_helper) (serial : Z) :
    outcome serializer_helper :=
  serialize_memcpy (le_split (Z.to_nat (sizeof_int ty)) z) a serial.

(** The loop over the elements of an array or of a vector, whose payloads of
    size [sizeof_S] are next to each other. *)
Fixpoint serialize_elements {V} (sizeof_S : Z)
    (serialize_S : V → serializer_helper → Z → outcome serializer_helper)
    (t : list V) (a : serializer_helper) (serial : Z) : outcome serializer_helper :=
  match t with
  | [] => Ret a
  | x :: t =>
      a ← serialize_S x a serial;
      serialize_elements sizeof_S serialize_S t a (serial + sizeof_S)
  end.

(** What strings and vectors have in common: the block with its size in front
    of what [contents] writes, and its offset in the payload. *)
Definition serialize_block (size subsize : Z)
    (contents : serializer_helper → Z → outcome serializer_helper)
    (a : serializer_helper) (serial : Z) : outcome serializer_helper :=
  '(a, offset) ← advance a size;
  a ← serialize_int (offset_t A) offset a serial;
  if offset =? 0 then Ret a else
  location ← address a offset;
  a ← serialize_int (subsize_t A) subsize a location;
  location ← address a (static_cast (offset_t A) (u64 (offset + sizeof_subsize)));
  contents a location.

Definition serialize_vector (sizeof_S : Z) (n : Z)
    (contents : serializer_helper → Z → outcome serializer_helper)
    (a : serializer_helper) (serial : Z) : outcome serializer_helper :=
  let max_n := (max (offset_t A) - sizeof_subsize) / sizeof_S in
  if max_n <? n then Ret a else
  serialize_block (u64 (sizeof_subsize + u64 (n * sizeof_S)))
    (static_cast (subsize_t A) (u64 (n * sizeof_S))) contents a serial.

Definition serialize_string (t : str) (a : serializer_helper) (serial : Z) :
    outcome serializer_helper :=
  let n := Z.of_nat (length t) in
  let max_n := max (offset_t A) - static_cast (offset_t A) (sizeof_subsize - 1) in
  if max_n <? n then Ret a else
  let n := u64 (n + 1) in
  serialize_block (u64 (sizeof_subsize + n)) (static_cast (subsize_t A) n)
    (serialize_memcpy (t ++ [zero])) a serial.

Definition serialize_bool (b : bool) (a : serializer_helper) (serial : Z) :
    outcome serializer_helper :=
  serialize_memcpy [if b then one else zero] a serial.

(** Objects of [skip_deserialize] are never serialised: the source has a
    static assertion. *)
Fixpoint serialize (T : ctype) :
    value T → serializer_helper → Z → outcome serializer_helper :=
  match T with
  | Scalar _ _ => serialize_memcpy
  | Array T N => λ t : vec (value T) N, serialize_elements (sizeof T) (serialize T) (vec_to_list t)
  | String => serialize_string
  | Vector _ T => λ t : list (value T),
      serialize_vector (sizeof T) (Z.of_nat (length t))
        (serialize_elements (sizeof T) (serialize T) t)
  | IntegralVector _ size => λ t,
      serialize_vector (Z.of_nat size) (Z.of_nat (length t)) (serialize_memcpy (concat t))
  | Pair T1 T2 => λ t a serial,
      a ← serialize T1 t.1 a serial;
      serialize T2 t.2 a (serial + sizeof T1)
  | Pack Ts => serialize_parameter_pack Ts
  | Optional T => λ t a serial,
      a ← serialize_bool (bool_decide (is_Some t)) a serial;
      serialize T (default (value_init T) t) a (serial + 1)
  | skip_deserialize _ => λ _ _ _, Undefined
  end
with serialize_parameter_pack (Ts : pack) :
    pack_value Ts → serializer_helper → Z → outcome serializer_helper :=
  match Ts with
  | PackLast T => serialize T
  | PackMore T Ts => λ t a serial,
      a ← serialize T t.1 a serial;
      serialize_parameter_pack Ts t.2 a (serial + sizeof T)
  end.

(** [serializer_t<A>::serialize]: the buffer afterwards, and the size used. *)
Definition serializer_serialize (T : ctype) (t : value T) (data : str) (size : Z) :
    outcome (str * Z) :=
  if (sizeof T =? 0) || (size <? sizeof T) then Ret (data, 0) else
  a ← make_serializer_helper data size (static_cast (offset_t A) (sizeof T));
  a ← serialize T t a 0;
  Ret (base_ a, curSize_ a).

(** ** Deserialisation *)

Local Abbreviation reader V := (V → deserializer_helper → Z → outcome (deserializer_helper * V)).

Definition deserialize_memcpy (size : nat) : reader str := λ _ d serial,
  s ← load (dbase_ d) serial (Z.of_nat size); Ret (d, s).

Definition deserialize_int (ty : int_type) (d : deserializer_helper) (serial : Z) : outcome Z :=
  s ← load (dbase_ d) serial (sizeof_int ty); Ret (le_combine s).

Fixpoint deserialize_elements {V} (sizeof_S : Z) (deserialize_S : reader V) {n}
    (t : vec V n) (d : deserializer_helper) (serial : Z) :
    outcome (deserializer_helper * vec V n) :=
  match t with
  | [#] => Ret (d, [#])
  | x ::: t =>
      '(d, x) ← deserialize_S x d serial;
      '(d, t) ← deserialize_elements sizeof_S deserialize_S t d (serial + sizeof_S);
      Ret (d, x ::: t)
  end.

(** [t.resize(n)], [detail::clear] and [detail::resize]. *)
Definition member_resize {V} (v0 : V) (n : nat) (t : list V) : list V :=
  take n t ++ replicate (n - length t) v0.

Definition clear {V} (c : container) (v0 : V) (t : list V) : list V :=
  if has_clear c then [] else if has_resize c then member_resize v0 0 t else [].

Fixpoint push_back_while {V} (v0 : V) (n fuel : nat) (t : list V) : list V :=
  match fuel with
  | O => t
  | S fuel => if (length t <? n)%nat then push_back_while v0 n fuel (t ++ [v0]) else t
  end.

Definition resize {V} (c : container) (v0 : V) (n : nat) (t : list V) : list V :=
  if has_resize c then member_resize v0 n t
  else push_back_while v0 n n (if (n <? length t)%nat then clear c v0 t else t).

(** What strings and vectors have in common: the offset and the size of the
    content, [None] when the object is to be cleared. *)
Definition deserialize_block (d : deserializer_helper) (serial : Z) :
    outcome (deserializer_helper * option (Z * Z)) :=
  offset ← deserialize_int (offset_t A) d serial;
  if offset =? 0 then Ret (setZeroOffset d, None) else
  '(d, location) ← d_address sizeof_subsize d offset 1;
  match location with
  | None => Ret (d, None)
  | Some location =>
      subsize ← deserialize_int (subsize_t A) d location;
      Ret (d, Some (static_cast (offset_t A) (u64 (offset + sizeof_subsize)), subsize))
  end.

(** Where the content of a vector is and how many elements it has. *)
Definition vector_location (sizeof_S : Z) (d : deserializer_helper) (serial : Z) :
    outcome (deserializer_helper * option (Z * Z)) :=
  '(d, block) ← deserialize_block d serial;
  match block with
  | None => Ret (d, None)
  | Some (contents_offset, subsize) =>
      let n := subsize / sizeof_S in
      '(d, contents) ← d_address sizeof_S d contents_offset n;
      match contents with
      | None => Ret (d, None)
      | Some contents => Ret (d, Some (contents, n))
      end
  end.

Definition deserialize_vector {V} (c : container) (v0 : V) (sizeof_S : Z)
    (deserialize_S : reader V) : reader (list V) := λ t d serial,
  '(d, location) ← vector_location sizeof_S d serial;
  match location with
  | None => Ret (d, clear c v0 t)
  | Some (contents, n) =>
      if max_size c <? n then Ret (setInvalidFormat d, clear c v0 t) else
      '(d, t) ← deserialize_elements sizeof_S deserialize_S
                  (list_to_vec (resize c v0 (Z.to_nat n) t)) d contents;
      Ret (d, vec_to_list t)
  end.

(** The [n] objects of [size] characters that [s] consists of. *)
Fixpoint chunks (size n : nat) (s : str) : list str :=
  match n with
  | O => []
  | S n => take size s :: chunks size n (drop size s)
  end.

(** [std::vector] has [clear] and [resize], and the copy overwrites all
    elements. *)
Definition deserialize_integral_vector (size : nat) : reader (list str) := λ t d serial,
  '(d, location) ← vector_location (Z.of_nat size) d serial;
  match location with
  | None => Ret (d, [])
  | Some (contents, n) =>
      s ← load (dbase_ d) contents (n * Z.of_nat size);
      Ret (d, chunks size (Z.to_nat n) s)
  end.

Definition deserialize_string : reader str := λ t d serial,
  '(d, block) ← deserialize_block d serial;
  match block with
  | None => Ret (d, member_resize zero 0 t)
  | Some (content_offset, n) =>
      if n =? 0 then Ret (setInvalidFormat d, member_resize zero 0 t) else
      '(d, contents) ← d_address 1 d content_offset n;
      match contents with
      | None => Ret (d, member_resize zero 0 t)
      | Some contents => s ← load (dbase_ d) contents (n - 1); Ret (d, s)
      end
  end.

(** A [bool] with another object representation than those of [false] and
    [true] must not be read. *)
Definition deserialize_bool (d : deserializer_helper) (serial : Z) : outcome bool :=
  s ← load (dbase_ d) serial 1;
  if decide (s = [one]) then Ret true else if decide (s = [zero]) then Ret false else Undefined.

Fixpoint deserialize (T : ctype) : reader (value T) :=
  match T with
  | Scalar _ size => deserialize_memcpy size
  | Array T N => deserialize_elements (sizeof T) (deserialize T)
  | String => deserialize_string
  | Vector c T => deserialize_vector c (value_init T) (sizeof T) (deserialize T)
  | IntegralVector _ size => deserialize_integral_vector size
  | Pair T1 T2 => λ t d serial,
      '(d, t1) ← deserialize T1 t.1 d serial;
      '(d, t2) ← deserialize T2 t.2 d (serial + sizeof T1);
      Ret (d, (t1, t2))
  | Pack Ts => deserialize_parameter_pack Ts
  | Optional T => λ _ d serial,
      has_value ← deserialize_bool d serial;
      if has_value : bool then
        '(d, t) ← deserialize T (value_init T) d (serial + 1);
        Ret (d, Some t)
      else Ret (d, None)
  | skip_deserialize _ => λ t d _, Ret (d, t)
  end
with deserialize_parameter_pack (Ts : pack) : reader (pack_value Ts) :=
  match Ts with
  | PackLast T => deserialize T
  | PackMore T Ts => λ t d serial,
      '(d, t1) ← deserialize T t.1 d serial;
      '(d, t2) ← deserialize_parameter_pack Ts t.2 d (serial + sizeof T);
      Ret (d, (t1, t2))
  end.

(** [serializer_t<A>::deserialize]: the flags, and the object afterwards. *)
Definition serializer_deserialize (T : ctype) (data : str) (size : Z) (t : value T) :
    outcome (deserialization_result_t * value T) :=
  let d := make_deserializer_helper data size in
  if size <? sizeof T then Ret (Build_deserialization_result_t true false false, t) else
  '(d, t) ← deserialize T t d 0;
  Ret (Build_deserialization_result_t (out_of_bounds_ d) (invalid_format_ d) (zero_offset_ d), t).

End Operations.
End Serializer.
