(* ===== verification/SerializerSpec.v ===== *)
(** * Serialisation: what a reader gets

    [clip] is a specification of serialisation without a buffer: it tells
    which strings and vectors of an object get a block when there is room up to
    offset [M], and where the next block starts.  [good] relates the two
    directions: serialisation writes inside of the payload and of new blocks
    only, and from every buffer that has the same characters there
    deserialisation reads the clipped object.  The lemmas [good_*] prove it
    constructor by constructor.

    A reader may skip fields: [written T] is the type [T] without its
    [skip_deserialize]s, and [project] forgets the fields a reader skips. *)

From stdpp Require Import vector.
From S2P Require Import Prelude CppInt CppString CircularBuffer Serializer.

Local Open Scope Z_scope.

Module SerializerSpec.
Import Serializer.

(** ** Types and objects *)

Fixpoint written (T : ctype) : ctype :=
  match T with
  | Array T N => Array (written T) N
  | Vector c T => Vector c (written T)
  | Pair T1 T2 => Pair (written T1) (written T2)
  | Pack Ts => Pack (pack_written Ts)
  | Optional T => Optional (written T)
  | skip_deserialize T => written T
  | _ => T
  end
with pack_written (Ts : pack) : pack :=
  match Ts with
  | PackLast T => PackLast (written T)
  | PackMore T Ts => PackMore (written T) (pack_written Ts)
  end.

Fixpoint project (T : ctype) : value (written T) → value T :=
  match T with
  | Array T N => vmap (project T)
  | Vector c T => map (project T)
  | Pair T1 T2 => λ t, (project T1 t.1, project T2 t.2)
  | Pack Ts => pack_project Ts
  | Optional T => option_map (project T)
  | skip_deserialize T => λ _, tt
  | Scalar _ _ | String | IntegralVector _ _ => λ t, t
  end
with pack_project (Ts : pack) : pack_value (pack_written Ts) → pack_value Ts :=
  match Ts with
  | PackLast T => project T
  | PackMore T Ts => λ t, (project T t.1, pack_project Ts t.2)
  end.

(** No type of size 0. *)
Fixpoint wf_type (T : ctype) : bool :=
  match T with
  | Scalar _ size | IntegralVector _ size => (0 <? size)%nat
  | Array T N => wf_type T && (0 <? N)%nat
  | String => true
  | Vector c T => wf_type T && (0 <=? max_size c)
  | Optional T | skip_deserialize T => wf_type T
  | Pair T1 T2 => wf_type T1 && wf_type T2
  | Pack Ts => wf_pack Ts
  end
with wf_pack (Ts : pack) : bool :=
  match Ts with
  | PackLast T => wf_type T
  | PackMore T Ts => wf_type T && wf_pack Ts
  end.

(** The objects of a type whose strings and vectors do not exceed the range of
    offsets; a [std::string] is shorter than 2^63. *)
Fixpoint wf_value (A : alloc) (T : ctype) : value T → Prop :=
  match T with
  | Scalar _ size => λ t, length t = size
  | Array T N => λ t : vec (value T) N, Forall (wf_value A T) (vec_to_list t)
  | String => λ t,
      Z.of_nat (length t) + sizeof_subsize A - 1 <= max (offset_t A) ∧ Z.of_nat (length t) < 2 ^ 63
  | Vector c T => λ t : list (value T),
      Z.of_nat (length t) <= (max (offset_t A) - sizeof_subsize A) / sizeof A T
      ∧ Z.of_nat (length t) <= max_size c ∧ Forall (wf_value A T) t
  | IntegralVector _ size => λ t,
      Z.of_nat (length t) <= (max (offset_t A) - sizeof_subsize A) / Z.of_nat size
      ∧ Forall (λ s, length s = size) t
  | Pair T1 T2 => λ t, wf_value A T1 t.1 ∧ wf_value A T2 t.2
  | Pack Ts => wf_pack_value A Ts
  | Optional T => λ t, match t with Some t => wf_value A T t | None => True end
  | skip_deserialize _ => λ _, True
  end
with wf_pack_value (A : alloc) (Ts : pack) : pack_value Ts → Prop :=
  match Ts with
  | PackLast T => wf_value A T
  | PackMore T Ts => λ t, wf_value A T t.1 ∧ wf_pack_value A Ts t.2
  end.

(** ** The specification *)

Section Clip.
Variables (A : alloc) (M : Z).

(** A block of [size] characters fits behind offset [c]. *)
Definition fits (size c : Z) : bool := (size <=? max (subsize_t A)) && (size <=? M - c).

Fixpoint clip_elements {V W} (f : V → Z → W * Z * bool) {n} (t : vec V n) (c : Z) :
    vec W n * Z * bool :=
  match t with
  | [#] => ([#], c, false)
  | x ::: t =>
      let '(x, c, z1) := f x c in
      let '(t, c, z2) := clip_elements f t c in
      (x ::: t, c, z1 || z2)
  end.

(** The object a reader of [T] gets, the offset behind the last block, and
    whether something is missing in the object. *)
Fixpoint clip (T : ctype) : value (written T) → Z → value T * Z * bool :=
  match T with
  | Scalar _ _ => λ t c, (t, c, false)
  | Array T N => λ t c, clip_elements (clip T) t c
  | String => λ t c,
      let size := sizeof_subsize A + (Z.of_nat (length t) + 1) in
      if fits size c then (t, c + size, false) else ([], c, true)
  | Vector _ T => λ (t : list (value (written T))) c,
      let size := sizeof_subsize A + Z.of_nat (length t) * sizeof A (written T) in
      if fits size c then
        let '(t, c, z) := clip_elements (clip T) (list_to_vec t) (c + size) in
        (vec_to_list t, c, z)
      else ([], c, true)
  | IntegralVector _ k => λ t c,
      let size := sizeof_subsize A + Z.of_nat (length t) * Z.of_nat k in
      if fits size c then (t, c + size, false) else ([], c, true)
  | Pair T1 T2 => λ t c,
      let '(t1, c, z1) := clip T1 t.1 c in
      let '(t2, c, z2) := clip T2 t.2 c in
      ((t1, t2), c, z1 || z2)
  | Pack Ts => clip_pack Ts
  | Optional T => λ t c,
      let '(t', c, z) := clip T (default (value_init (written T)) t) c in
      match t with Some _ => (Some t', c, z) | None => (None, c, false) end
  | skip_deserialize T => λ t c, let '(_, c, _) := clip T t c in (tt, c, false)
  end
with clip_pack (Ts : pack) : pack_value (pack_written Ts) → Z → pack_value Ts * Z * bool :=
  match Ts with
  | PackLast T => clip T
  | PackMore T Ts => λ t c,
      let '(t1, c, z1) := clip T t.1 c in
      let '(t2, c, z2) := clip_pack Ts t.2 c in
      ((t1, t2), c, z1 || z2)
  end.

End Clip.

(** ** Memory *)

(** [m] and [m'] have the same characters at the indices in [P]. *)
Definition same_on (P : Z → Prop) (m m' : str) : Prop :=
  length m = length m' ∧ ∀ i, 0 <= i → P i → m !! Z.to_nat i = m' !! Z.to_nat i.

Lemma same_on_sub (P Q : Z → Prop) m m' :
  (∀ i, Q i → P i) → same_on P m m' → same_on Q m m'.
Proof. intros HPQ [? H]. split; [done|]. eauto. Qed.

Lemma same_on_trans P m1 m2 m3 : same_on P m1 m2 → same_on P m2 m3 → same_on P m1 m3.
Proof. intros [? H1] [? H2]. split; [congruence|]. intros. rewrite H1; auto. Qed.

Lemma same_on_sym P m1 m2 : same_on P m1 m2 → same_on P m2 m1.
Proof. intros [? H1]. split; [congruence|]. intros. rewrite H1; auto. Qed.

(** The same for a reader, whose buffer may have another length. *)
Definition agree (P : Z → Prop) (m m' : str) : Prop :=
  ∀ i, 0 <= i → P i → m !! Z.to_nat i = m' !! Z.to_nat i.

Lemma agree_sub (P Q : Z → Prop) m m' : (∀ i, Q i → P i) → agree P m m' → agree Q m m'.
Proof. intros HPQ H i Hi HQ. auto. Qed.

Lemma same_on_agree (P Q R : Z → Prop) m1 m2 m3 :
  same_on P m1 m2 → agree Q m2 m3 → (∀ i, R i → P i ∧ Q i) → agree R m1 m3.
Proof. intros [_ H1] H2 HR i Hi Hr. destruct (HR i Hr). rewrite H1; auto. Qed.

Lemma load_agree m m' p n s :
  0 <= p → 0 <= n → p + n <= Z.of_nat (length m') → agree (λ i, p <= i < p + n) m m' →
  load m p n = Ret s → load m' p n = Ret s.
Proof.
  intros Hp Hn Hlen H. unfold load. destruct (_ && (_ <=? Z.of_nat (length m))); [|done].
  rewrite (proj2 (Z.leb_le _ _)), (proj2 (Z.leb_le _ _)) by lia. simpl.
  intros <-. f_equal. symmetry.
  apply list_eq. intros i. destruct (decide (i < Z.to_nat n)%nat) as [Hi|Hi].
  - rewrite !lookup_take_lt, !lookup_drop by done.
    specialize (H (p + Z.of_nat i)). rewrite Z2Nat.inj_add, Nat2Z.id in H by lia.
    apply H; lia.
  - rewrite !lookup_take_ge by lia. done.
Qed.

Lemma store_spec m p bs :
  0 <= p → p + Z.of_nat (length bs) <= Z.of_nat (length m) →
  ∃ m', store m p bs = Ret m'
    ∧ same_on (λ i, i < p ∨ p + Z.of_nat (length bs) <= i) m m'
    ∧ load m' p (Z.of_nat (length bs)) = Ret bs.
Proof.
  intros Hp Hlen. unfold store.
  rewrite (proj2 (Z.leb_le _ _)), (proj2 (Z.leb_le _ _)) by lia. simpl.
  eexists. split; [done|].
  assert (length (take (Z.to_nat p) m) = Z.to_nat p) as Ht by (rewrite length_take; lia).
  split.
  - split; [rewrite !length_app, length_drop; lia|]. intros i Hi0 [Hi|Hi].
    + rewrite lookup_app_l by lia. rewrite lookup_take_lt by lia. done.
    + rewrite lookup_app_r by lia. rewrite lookup_app_r by lia.
      rewrite lookup_drop, Ht. f_equal. lia.
  - unfold load. rewrite !length_app, Ht, length_drop.
    rewrite (proj2 (Z.leb_le _ _)), (proj2 (Z.leb_le _ _)) by lia. simpl.
    rewrite Nat2Z.id, drop_app_length' by done.
    by rewrite take_app_length.
Qed.

Lemma load_prefix m p n n' s :
  0 <= n' <= n → load m p n = Ret s → load m p n' = Ret (take (Z.to_nat n') s).
Proof.
  unfold load. intros Hn Hl. destruct (_ && (p + n <=? _)) eqn:E; [|done]. reflect_bool.
  rewrite (proj2 (Z.leb_le 0 p)), (proj2 (Z.leb_le (p + n') _)) by lia. simplify_eq/=.
  by rewrite take_take, Nat.min_l by lia.
Qed.

Lemma load_inv m p n s : load m p n = Ret s → take (Z.to_nat n) (drop (Z.to_nat p) m) = s.
Proof. unfold load. destruct (_ && _); by intros [= ->]. Qed.

Lemma same_on_drop n (P : Z → Prop) m m' :
  0 <= n → (∀ i, n <= i → P i) → same_on P m m' → drop (Z.to_nat n) m' = drop (Z.to_nat n) m.
Proof.
  intros Hn HP [_ Hs]. apply list_eq. intros i. rewrite !lookup_drop.
  specialize (Hs (n + Z.of_nat i)). rewrite Z2Nat.inj_add, Nat2Z.id in Hs by lia.
  rewrite Hs; [done|lia|]. apply HP. lia.
Qed.

(** ** Integers in memory *)

Lemma length_le_split n z : length (le_split n z) = n.
Proof. revert z. induction n; simpl; auto. Qed.

Lemma le_combine_split n z : 0 <= z < 2 ^ (8 * Z.of_nat n) → le_combine (le_split n z) = z.
Proof.
  revert z. induction n as [|n IH]; intros z Hz; cbn [le_split le_combine].
  { simpl in Hz. lia. }
  rewrite N_ascii_embedding, Z2N.id by (pose proof (Z.mod_pos_bound z 256); lia).
  rewrite IH; [pose proof (Z.div_mod z 256); lia|].
  replace (8 * Z.of_nat (S n)) with (8 * Z.of_nat n + 8) in Hz by lia.
  rewrite Z.pow_add_r in Hz by lia. change (2 ^ 8) with 256 in Hz.
  split; [apply Z.div_pos; lia|]. apply Z.div_lt_upper_bound; lia.
Qed.

Lemma le_combine_range s : 0 <= le_combine s < 2 ^ (8 * Z.of_nat (length s)).
Proof.
  induction s as [|c s IH]; cbn [le_combine length]; [simpl; lia|].
  assert (N_of_ascii c < 256)%N by apply N_ascii_bounded.
  replace (8 * Z.of_nat (S (length s))) with (8 * Z.of_nat (length s) + 8) by lia.
  rewrite Z.pow_add_r by lia. change (2 ^ 8) with 256. lia.
Qed.

Lemma sizeof_int_range t : 1 <= sizeof_int t <= 8.
Proof. destruct t; vm_compute; split; discriminate. Qed.

Lemma sizeof_int_bits t : 8 * sizeof_int t = bits t.
Proof. by destruct t. Qed.

Lemma max_unsigned t : is_signed t = false → max t = 2 ^ bits t - 1.
Proof. intros H. unfold max, digits. by rewrite H. Qed.

Lemma max_u64 t : max t < 2 ^ 64.
Proof. by destruct t. Qed.

(** ** The two directions together *)

Section Good.
Variables (level : assert_level) (A : alloc) (M : Z).
Context (Hsub : is_signed (subsize_t A) = false) (Hoff : is_signed (offset_t A) = false).
Context (Hle : bits (subsize_t A) <= bits (offset_t A)) (HM : 0 <= M <= max (offset_t A)).

Local Abbreviation helper m c := (Build_serializer_helper m M c).

Definition raise_zero (z : bool) (d : deserializer_helper) : deserializer_helper :=
  if z then setZeroOffset d else d.

Lemma raise_zero_orb z1 z2 d : raise_zero z2 (raise_zero z1 d) = raise_zero (z1 || z2) d.
Proof. by destruct z1, z2. Qed.

(** The payload at [p] of size [sz], and the blocks from [c] to [c']. *)
Definition region (p sz c c' i : Z) : Prop := p <= i < p + sz ∨ c <= i < c'.

(** A deserialiser reads [v] in every buffer that is [m] on [P] and has room
    up to offset [e]. *)
Definition reads {V} (des : V → deserializer_helper → Z → outcome (deserializer_helper * V))
    (p : Z) (P : Z → Prop) (e : Z) (m : str) (v : V) (z : bool) : Prop :=
  ∀ d t0, e <= dmaxSize_ d <= max (offset_t A) → e <= Z.of_nat (length (dbase_ d)) →
    agree P m (dbase_ d) → des t0 d p = Ret (raise_zero z d, v).

Definition good {V W} (sz : Z) (wf : V → Prop)
    (ser : V → serializer_helper → Z → outcome serializer_helper)
    (clp : V → Z → W * Z * bool)
    (des : W → deserializer_helper → Z → outcome (deserializer_helper * W)) : Prop :=
  ∀ v m c p, wf v → 0 <= p → p + sz <= c → c <= M → M <= Z.of_nat (length m) →
  let '(v', c', z) := clp v c in
  ∃ m', ser v (helper m c) p = Ret (helper m' c')
    ∧ c <= c' <= M
    ∧ same_on (λ i, ¬ region p sz c c' i) m m'
    ∧ reads des p (region p sz c c') c' m' v' z.

Lemma reads_mono {V} des p (P Q R : Z → Prop) e e' m m' (v : V) z :
  reads des p P e m v z → e <= e' → same_on R m m' → (∀ i, P i → R i ∧ Q i) →
  reads des p Q e' m' v z.
Proof. intros H He Hm HPQ d t0 Hd Hl Hs. apply H; [lia..|]. by eapply same_on_agree. Qed.

(** ** Scalars *)

Lemma good_scalar (size : nat) :
  good (Z.of_nat size) (λ t, length t = size) serialize_memcpy (λ t c, (t, c, false))
    (deserialize_memcpy size).
Proof.
  intros v m c p Hv Hp Hc HcM Hm. unfold serialize_memcpy. cbn [base_].
  destruct (store_spec m p v) as (m' & -> & Hsame & Hload); [lia..|].
  exists m'. rewrite Hv in *. split_and!; [done|lia|lia| |].
  - eapply same_on_sub; [|done]. unfold region. intros i Hi. lia.
  - intros d t0 Hd Hl Hs. unfold deserialize_memcpy.
    rewrite (load_agree m' _ p (Z.of_nat size) v); [done|lia..| |done].
    eapply agree_sub; [|done]. unfold region. intros i Hi. lia.
Qed.

(** ** Elements of an array or a vector *)

Section Elements.
Context {V W : Type} (sz : Z) (wf : V → Prop).
Context (ser : V → serializer_helper → Z → outcome serializer_helper).
Context (clp : V → Z → W * Z * bool).
Context (des : W → deserializer_helper → Z → outcome (deserializer_helper * W)).
Context (Hsz : 0 < sz) (Hgood : good sz wf ser clp des).

Lemma good_elements n :
  good (sz * Z.of_nat n) (λ t : vec V n, Forall wf (vec_to_list t))
    (λ t, serialize_elements sz ser (vec_to_list t)) (clip_elements clp)
    (deserialize_elements sz des).
Proof using Hsz Hgood.
  intros t. induction t as [|x n t IH]; intros m c p Hwf Hp Hc HcM Hm.
  { cbn. exists m. split_and!; [done|lia|lia|by split|].
    intros d t0 Hd Hl Hs. by inv_vec t0. }
  cbn in Hwf. apply Forall_cons in Hwf as [Hx Hwf].
  cbn [clip_elements vec_to_list serialize_elements].
  specialize (Hgood x m c p Hx Hp ltac:(lia) HcM Hm).
  destruct (clp x c) as [[x' c1] z1]. destruct Hgood as (m1 & -> & Hc1 & Hs1 & Hr1).
  cbn [mbind outcome_bind].
  specialize (IH m1 c1 (p + sz) Hwf ltac:(lia) ltac:(lia) ltac:(lia)).
  destruct (clip_elements clp t c1) as [[t' c2] z2].
  destruct IH as (m2 & Hser & Hc2 & Hs2 & Hr2); [destruct Hs1; lia|].
  exists m2. split_and!; [exact Hser|lia|lia| |].
  - eapply same_on_trans; eapply same_on_sub; [|exact Hs1| |exact Hs2]; unfold region; intros; lia.
  - intros d t0 Hd Hl Hs. inv_vec t0. intros x0 t0. cbn.
    assert (reads des p (region p (sz * Z.of_nat (S n)) c c2) c2 m2 x' z1) as Hr1'
      by (eapply reads_mono; [exact Hr1|lia|exact Hs2|unfold region; intros; lia]).
    rewrite Hr1' by done. cbn [mbind outcome_bind].
    rewrite (Hr2 (raise_zero z1 d)); [|by destruct z1..|].
    + cbn. by rewrite raise_zero_orb.
    + eapply agree_sub; [|destruct z1; exact Hs]. unfold region. intros; lia.
Qed.

End Elements.

(** ** Blocks *)

Lemma offset_in_range z : 0 <= z <= max (offset_t A) → in_range (offset_t A) z.
Proof using Hoff. intros. split; [|lia]. rewrite lowest_unsigned by done. lia. Qed.

Lemma offset_sub a b :
  0 <= b <= a → a <= max (offset_t A) → c_sub (offset_t A) (offset_t A) a b = Ret (a - b).
Proof using Hoff. intros. apply c_binop_exact; apply offset_in_range; lia. Qed.

Lemma offset_add a b :
  0 <= a → 0 <= b → a + b <= max (offset_t A) →
  c_add (offset_t A) (offset_t A) a b = Ret (a + b).
Proof using Hoff. intros. apply c_binop_exact; apply offset_in_range; lia. Qed.

Lemma offset_cast z : 0 <= z <= max (offset_t A) → static_cast (offset_t A) z = z.
Proof using Hoff. intros. by apply static_cast_id, offset_in_range. Qed.

Lemma max_subsize_offset : max (subsize_t A) <= max (offset_t A).
Proof using Hsub Hoff Hle.
  rewrite !max_unsigned by done. apply Z.sub_le_mono_r, Z.pow_le_mono_r; lia.
Qed.

Lemma advance_blocks m c size :
  0 <= c <= M → 0 <= size →
  advance level A (helper m c) size =
    Ret (if fits A M size c then (helper m (c + size), c) else (helper m c, 0)).
Proof using Hsub Hoff Hle HM.
  intros Hc Hsize. pose proof max_subsize_offset. pose proof (max_u64 (offset_t A)).
  unfold advance, fits. cbn [maxSize_ curSize_].
  destruct (Z.ltb_spec (max (subsize_t A)) size) as [Hbig|Hbig].
  { by rewrite (proj2 (Z.leb_gt size (max (subsize_t A)))). }
  rewrite (proj2 (Z.leb_le size (max (subsize_t A)))) by lia. cbn [andb].
  rewrite (offset_sub M c) by lia. cbn [mbind outcome_bind]. rewrite u64_id by lia.
  destruct (Z.ltb_spec (M - c) size); [by rewrite (proj2 (Z.leb_gt size (M - c))) by lia|].
  rewrite (proj2 (Z.leb_le size (M - c))) by lia.
  rewrite (offset_cast size) by lia.
  rewrite (offset_sub (max (offset_t A)) size) by lia. cbn [mbind outcome_bind].
  rewrite (proj2 (Z.leb_le c _)) by lia.
  rewrite (offset_add c size) by lia. cbn [mbind outcome_bind].
  rewrite (offset_cast (c + size)), (offset_sub (c + size) size) by lia.
  cbn [mbind outcome_bind]. rewrite offset_cast by lia.
  replace (c + size - size) with c by lia. by destruct level.
Qed.

Lemma serialize_int_spec t z m c p :
  is_signed t = false → 0 <= z <= max t → 0 <= p → p + sizeof_int t <= Z.of_nat (length m) →
  ∃ m', serialize_int t z (helper m c) p = Ret (helper m' c)
    ∧ same_on (λ i, i < p ∨ p + sizeof_int t <= i) m m'
    ∧ ∀ d, p + sizeof_int t <= Z.of_nat (length (dbase_ d)) →
           agree (λ i, p <= i < p + sizeof_int t) m' (dbase_ d) →
           deserialize_int t d p = Ret z.
Proof using.
  intros Ht Hz Hp Hlen. pose proof (sizeof_int_range t).
  destruct (store_spec m p (le_split (Z.to_nat (sizeof_int t)) z)) as (m' & Hst & Hs & Hl);
    rewrite ?length_le_split, ?Z2Nat.id in * by lia; [lia..|].
  exists m'. unfold serialize_int, serialize_memcpy. cbn [base_].
  rewrite Hst. split_and!; [done|done|]. intros d Hlen' Hd. unfold deserialize_int.
  rewrite (load_agree m' _ p (sizeof_int t) _ Hp ltac:(lia) Hlen' Hd Hl). cbn. f_equal. apply le_combine_split.
  rewrite Z2Nat.id, sizeof_int_bits by lia. rewrite max_unsigned in Hz by done. lia.
Qed.

Lemma address_spec m c p : p <= M → address level (helper m c) p = Ret p.
Proof using.
  intros. unfold address. cbn [maxSize_]. rewrite (proj2 (Z.leb_le _ _)) by done.
  by destruct level.
Qed.

Local Abbreviation so := (sizeof_int (offset_t A)).
Local Abbreviation sub := (sizeof_subsize A).

Lemma block_dropped size k contents m c p :
  fits A M size c = false → 0 <= size → 0 <= p → p + so <= c → c <= M → M <= Z.of_nat (length m) →
  ∃ m', serialize_block level A size k contents (helper m c) p = Ret (helper m' c)
    ∧ same_on (λ i, ¬ region p so c c i) m m'
    ∧ ∀ d, c <= Z.of_nat (length (dbase_ d)) → agree (region p so c c) m' (dbase_ d) →
           deserialize_block level A d p = Ret (setZeroOffset d, None).
Proof using Hsub Hoff Hle HM.
  intros Hfit Hsize Hp Hc HcM Hm. unfold serialize_block.
  pose proof (sizeof_int_range (offset_t A)).
  rewrite advance_blocks, Hfit by lia. cbn [mbind outcome_bind].
  destruct (serialize_int_spec (offset_t A) 0 m c p) as (m' & -> & Hs & Hr); [done|lia..|].
  exists m'. split_and!; [done| |].
  - eapply same_on_sub; [|done]. unfold region. intros. lia.
  - intros d Hl Hd. unfold deserialize_block. rewrite Hr; [done|lia|].
    eapply agree_sub; [|done]. unfold region. intros. lia.
Qed.

Lemma d_address_spec d s n off :
  dmaxSize_ d <= max (offset_t A) → 0 <= s → 0 <= n → 0 <= off →
  off + s * n <= dmaxSize_ d →
  d_address level s d off n = Ret (d, Some off).
Proof using.
  intros Hd Hs Hn Hoff' Hle'. pose proof (max_u64 (offset_t A)). unfold d_address.
  assert (0 <= s * n) by lia. rewrite (u64_id (s * n)), u64_id by lia.
  rewrite (proj2 (Z.ltb_ge _ _)), (proj2 (Z.leb_le _ _)) by lia. by destruct level.
Qed.

Lemma block_stored k contents m c c' p (Q : str → Prop) :
  fits A M (sub + k) c = true → 0 <= k →
  (∀ m1, length m1 = length m →
    ∃ m2, contents (helper m1 (c + (sub + k))) (c + sub) = Ret (helper m2 c')
      ∧ c + (sub + k) <= c' <= M
      ∧ same_on (λ i, ¬ region (c + sub) k (c + (sub + k)) c' i) m1 m2 ∧ Q m2) →
  0 <= p → p + so <= c → c <= M → M <= Z.of_nat (length m) →
  ∃ m', serialize_block level A (sub + k) k contents (helper m c) p = Ret (helper m' c')
    ∧ c <= c' <= M
    ∧ same_on (λ i, ¬ region p so c c' i) m m' ∧ Q m'
    ∧ ∀ d, c' <= dmaxSize_ d <= max (offset_t A) → c' <= Z.of_nat (length (dbase_ d)) →
           agree (region p so c c') m' (dbase_ d) →
           deserialize_block level A d p = Ret (d, Some (c + sub, k)).
Proof using Hsub Hoff Hle HM.
  intros Hfit Hk Hcont Hp Hc HcM Hm. unfold serialize_block.
  pose proof (sizeof_int_range (offset_t A)). pose proof (sizeof_int_range (subsize_t A)) as Hss.
  change (sizeof_int (subsize_t A)) with sub in Hss. pose proof (max_u64 (offset_t A)).
  rewrite advance_blocks, Hfit by lia. cbn [mbind outcome_bind].
  apply andb_true_iff in Hfit as [Hf1%Z.leb_le Hf2%Z.leb_le].
  destruct (serialize_int_spec (offset_t A) c m (c + (sub + k)) p) as (m0 & -> & Hs0 & Hr0);
    [done|lia..|].
  cbn [mbind outcome_bind]. rewrite (proj2 (Z.eqb_neq c 0)) by lia.
  rewrite address_spec by lia. cbn [mbind outcome_bind].
  assert (Z.of_nat (length m0) = Z.of_nat (length m)) as Hl0 by (destruct Hs0; lia).
  destruct (serialize_int_spec (subsize_t A) k m0 (c + (sub + k)) c) as (m1 & -> & Hs1 & Hr1);
    [done|lia|lia|fold (sizeof_subsize A); lia|].
  change (sizeof_int (subsize_t A)) with sub in *.
  cbn [mbind outcome_bind]. rewrite u64_id, offset_cast, address_spec by lia.
  cbn [mbind outcome_bind].
  destruct (Hcont m1) as (m2 & -> & Hc' & Hs2 & HQ); [destruct Hs1; lia|].
  exists m2. split_and!; [done|lia|lia| |done|].
  - do 2 (eapply same_on_trans; [eapply same_on_sub; [|done]; unfold region; intros; lia|]).
    eapply same_on_sub; [|exact Hs2]. unfold region. intros. lia.
  - intros d Hd Hl Hsd. unfold deserialize_block. rewrite Hr0; [cbn [mbind outcome_bind]|lia|].
    + rewrite (proj2 (Z.eqb_neq c 0)) by lia. rewrite d_address_spec by lia.
      cbn [mbind outcome_bind]. rewrite Hr1; [by rewrite u64_id, offset_cast by lia|lia|].
      eapply same_on_agree; [exact Hs2|exact Hsd|]. unfold region. intros. lia.
    + eapply same_on_agree; [exact Hs1| |intros i Hi; split; [lia|exact Hi]].
      eapply same_on_agree; [exact Hs2|exact Hsd|]. unfold region. intros. lia.
Qed.

Lemma subsize_cast z : 0 <= z <= max (subsize_t A) → static_cast (subsize_t A) z = z.
Proof using Hsub.
  intros. apply static_cast_id. split; [|lia]. rewrite lowest_unsigned by done. lia.
Qed.

(** The content of a block that is copied with [memcpy]. *)
Lemma memcpy_contents (bs : str) m c :
  0 <= c → fits A M (sub + Z.of_nat (length bs)) c = true → M <= Z.of_nat (length m) →
  let k := Z.of_nat (length bs) in
  ∃ m', serialize_memcpy bs (helper m (c + (sub + k))) (c + sub) = Ret (helper m' (c + (sub + k)))
    ∧ c + (sub + k) <= c + (sub + k) <= M
    ∧ same_on (λ i, ¬ region (c + sub) k (c + (sub + k)) (c + (sub + k)) i) m m'
    ∧ load m' (c + sub) k = Ret bs.
Proof using.
  intros Hc Hfit Hm k. apply andb_true_iff in Hfit as [_ Hf%Z.leb_le].
  pose proof (sizeof_int_range (subsize_t A)) as Hss.
  change (sizeof_int (subsize_t A)) with sub in Hss.
  destruct (store_spec m (c + sub) bs) as (m' & Hst & Hs & Hl); [lia..|].
  exists m'. unfold serialize_memcpy. cbn [base_]. rewrite Hst.
  split_and!; [done|lia|lia| |done].
  eapply same_on_sub; [|done]. unfold region. intros. lia.
Qed.

Lemma fits_cast k c :
  0 <= k → fits A M (sub + k) c = true → static_cast (subsize_t A) k = k.
Proof using Hsub.
  intros Hk Hf. apply andb_true_iff in Hf as [Hf%Z.leb_le _].
  pose proof (sizeof_int_range (subsize_t A)) as Hss.
  change (sizeof_int (subsize_t A)) with sub in Hss. apply subsize_cast. lia.
Qed.

Lemma good_string :
  good so (wf_value A String) (serialize_string level A) (clip A M String)
    (deserialize_string level A).
Proof using Hsub Hoff Hle HM.
  intros t m c p [Hn Hn63] Hp Hc HcM Hm. cbn [clip].
  pose proof (sizeof_int_range (subsize_t A)) as Hss.
  change (sizeof_int (subsize_t A)) with sub in Hss.
  pose proof (sizeof_int_range (offset_t A)). pose proof (max_lower (offset_t A)).
  set (k := Z.of_nat (length t) + 1) in *.
  unfold serialize_string. rewrite offset_cast by lia. rewrite (proj2 (Z.ltb_ge _ _)) by lia.
  fold k. rewrite (u64_id k), (u64_id (sub + k)) by lia.
  destruct (fits A M (sub + k) c) eqn:Hfit.
  - rewrite (fits_cast k c) by (done || lia).
    assert (Z.of_nat (length (t ++ [zero])) = k) as Hk by (rewrite length_app; simpl; lia).
    destruct (block_stored k (serialize_memcpy (t ++ [zero])) m c (c + (sub + k)) p
      (λ m', load m' (c + sub) k = Ret (t ++ [zero]))) as (m' & -> & Hc' & Hs & Hl & Hr);
      [done|lia| |lia..|].
    { intros m1 Hm1. rewrite <-Hk. apply memcpy_contents; [lia|by rewrite Hk|lia]. }
    exists m'. split_and!; [done|lia|lia|done|].
    intros d t0 Hd Hlen Hsd. unfold deserialize_string. rewrite Hr by done.
    cbn [mbind outcome_bind]. rewrite (proj2 (Z.eqb_neq k 0)) by lia.
    rewrite d_address_spec by lia. cbn [mbind outcome_bind].
    apply (load_prefix _ _ _ (k - 1)) in Hl; [|lia].
    rewrite (load_agree m' _ _ _ (take (Z.to_nat (k - 1)) (t ++ [zero]))) by
      (done || lia || (eapply agree_sub; [|exact Hsd]; unfold region; intros; lia)).
    cbn. rewrite take_app_length' by lia. done.
  - destruct (block_dropped (sub + k) (static_cast (subsize_t A) k)
      (serialize_memcpy (t ++ [zero])) m c p) as (m' & -> & Hs & Hr); [done|lia..|].
    exists m'. split_and!; [done|lia|lia|done|].
    intros d t0 Hd Hlen Hsd. unfold deserialize_string. by rewrite Hr.
Qed.

(** ** Vectors *)

Lemma vector_block sz n contents a p :
  0 < sz → 0 <= n <= (max (offset_t A) - sub) / sz →
  serialize_vector level A sz n contents a p =
    serialize_block level A (sub + n * sz) (static_cast (subsize_t A) (n * sz)) contents a p.
Proof using Hsub.
  intros Hsz Hn. unfold serialize_vector. rewrite (proj2 (Z.ltb_ge _ _)) by lia.
  pose proof (sizeof_int_range (subsize_t A)) as Hss.
  change (sizeof_int (subsize_t A)) with sub in Hss. pose proof (max_u64 (offset_t A)).
  assert (n * sz <= max (offset_t A) - sub).
  { pose proof (Z.mul_div_le (max (offset_t A) - sub) sz Hsz). nia. }
  rewrite (u64_id (n * sz)), u64_id by lia. done.
Qed.

Lemma vector_location_spec sz n d p c :
  0 < sz → 0 <= n → 0 <= c → c + (sub + n * sz) <= dmaxSize_ d <= max (offset_t A) →
  deserialize_block level A d p = Ret (d, Some (c + sub, n * sz)) →
  vector_location level A sz d p = Ret (d, Some (c + sub, n)).
Proof using.
  intros Hsz Hn Hc Hd Hb. unfold vector_location. rewrite Hb. cbn [mbind outcome_bind].
  pose proof (sizeof_int_range (subsize_t A)) as Hss.
  change (sizeof_int (subsize_t A)) with sub in Hss.
  rewrite Z.div_mul, d_address_spec by lia. done.
Qed.

Lemma length_push_back_while {V} (v0 : V) n fuel t :
  (length t <= n)%nat → (n <= length t + fuel)%nat → length (push_back_while v0 n fuel t) = n.
Proof using.
  revert t. induction fuel as [|fuel IH]; intros t H1 H2; simpl; [lia|].
  split_if. apply IH; rewrite length_app; simpl; lia.
Qed.

Lemma clear_nil {V} c (v0 : V) t : clear c v0 t = [].
Proof using. unfold clear, member_resize. destruct (has_clear c), (has_resize c); done. Qed.

Lemma length_resize {V} c (v0 : V) n t : length (resize c v0 n t) = n.
Proof using.
  unfold resize. destruct (has_resize c).
  - unfold member_resize. rewrite length_app, length_take, length_replicate. lia.
  - rewrite clear_nil. destruct (Nat.ltb_spec n (length t));
      apply length_push_back_while; simpl; lia.
Qed.

Lemma deserialize_elements_list {W} des sz d d' p n (w : vec W n) l0 :
  length l0 = n →
  (∀ t0 : vec W n, deserialize_elements sz des t0 d p = Ret (d', w)) →
  ('(d, t) ← deserialize_elements sz des (list_to_vec l0) d p; Ret (d, vec_to_list t))
    = Ret (d', vec_to_list w).
Proof using. intros <- H. by rewrite H. Qed.

Section Vectors.
Context {V W : Type} (sz : Z) (wf : V → Prop) (con : container) (w0 : W).
Context (ser : V → serializer_helper → Z → outcome serializer_helper).
Context (clp : V → Z → W * Z * bool).
Context (des : W → deserializer_helper → Z → outcome (deserializer_helper * W)).
Context (Hsz : 0 < sz) (Hgood : good sz wf ser clp des).

Lemma good_vector :
  good so
    (λ t, Z.of_nat (length t) <= (max (offset_t A) - sub) / sz
          ∧ Z.of_nat (length t) <= max_size con ∧ Forall wf t)
    (λ t, serialize_vector level A sz (Z.of_nat (length t)) (serialize_elements sz ser t))
    (λ t c,
      let size := sub + Z.of_nat (length t) * sz in
      if fits A M size c then
        let '(t, c, z) := clip_elements clp (list_to_vec t) (c + size) in (vec_to_list t, c, z)
      else ([], c, true))
    (deserialize_vector level A con w0 sz des).
Proof using Hsub Hoff Hle HM Hsz Hgood.
  intros t m c p (Hn & Hmax & Hwf) Hp Hc HcM Hm. cbn zeta.
  pose proof (sizeof_int_range (subsize_t A)) as Hss.
  change (sizeof_int (subsize_t A)) with sub in Hss.
  pose proof (sizeof_int_range (offset_t A)).
  rewrite vector_block by lia. set (n := Z.of_nat (length t)) in *.
  destruct (fits A M (sub + n * sz) c) eqn:Hfit.
  - rewrite (fits_cast _ c) by (done || lia).
    pose proof (good_elements sz wf ser clp des Hsz Hgood (length t) (list_to_vec t)) as He.
    cbv beta in He. rewrite vec_to_list_to_vec in He. fold n in He. rewrite (Z.mul_comm sz) in He.
    apply andb_true_iff in Hfit as Hf. destruct Hf as [_ Hf%Z.leb_le].
    specialize (λ m', He m' (c + (sub + n * sz)) (c + sub) Hwf ltac:(lia) ltac:(lia) ltac:(lia)).
    destruct (clip_elements clp (list_to_vec t) (c + (sub + n * sz))) as [[t' c'] z].
    destruct (block_stored (n * sz) (serialize_elements sz ser t) m c c' p
      (λ m', reads (deserialize_elements sz des) (c + sub)
               (region (c + sub) (n * sz) (c + (sub + n * sz)) c') c' m' t' z))
      as (m' & -> & Hc' & Hs & Hl & Hr); [done|lia| |lia..|].
    { intros m1 Hm1. destruct (He m1) as (m2 & ? & ? & ? & ?); [lia|].
      exists m2. split_and!; [eassumption|lia|lia|eassumption|eassumption]. }
    exists m'. split_and!; [done|lia|lia|done|].
    intros d t0 Hd Hlen Hsd. unfold deserialize_vector.
    destruct (He m) as (_ & _ & Hc2 & _); [lia|].
    rewrite (vector_location_spec sz n d p c) by (done || lia || by apply Hr).
    cbn [mbind outcome_bind]. rewrite (proj2 (Z.ltb_ge _ _)) by lia.
    erewrite (deserialize_elements_list des sz d _ _ (length t) t');
      [done|rewrite length_resize; lia|].
    intros t0'. apply Hl; [done..|]. eapply agree_sub; [|exact Hsd]. unfold region. intros. lia.
  - destruct (block_dropped (sub + n * sz) (static_cast (subsize_t A) (n * sz))
      (serialize_elements sz ser t) m c p) as (m' & -> & Hs & Hr); [done|lia..|].
    exists m'. split_and!; [done|lia|lia|done|].
    intros d t0 Hd Hlen Hsd. unfold deserialize_vector, vector_location. rewrite Hr by done. cbn.
    by rewrite clear_nil.
Qed.

End Vectors.

Lemma chunks_concat size t :
  Forall (λ s : str, length s = size) t → chunks size (length t) (concat t) = t.
Proof using.
  induction 1 as [|s t Hs _ IH]; [done|]. cbn [length chunks concat].
  by rewrite take_app_length', drop_app_length', IH by done.
Qed.

Lemma length_concat_chunks size (t : list str) :
  Forall (λ s, length s = size) t → length (concat t) = (length t * size)%nat.
Proof using. induction 1 as [|s t Hs _ IH]; [done|]. simpl. rewrite length_app. lia. Qed.

Lemma good_integral_vector tag size :
  (0 < size)%nat →
  good so (wf_value A (IntegralVector tag size)) (serialize level A (IntegralVector tag size))
    (clip A M (IntegralVector tag size)) (deserialize_integral_vector level A size).
Proof using Hsub Hoff Hle HM.
  intros Hsize t m c p (Hn & Hwf) Hp Hc HcM Hm. cbn [clip serialize].
  pose proof (sizeof_int_range (subsize_t A)) as Hss.
  change (sizeof_int (subsize_t A)) with sub in Hss.
  pose proof (sizeof_int_range (offset_t A)).
  rewrite vector_block by lia. set (n := Z.of_nat (length t)) in *. set (sz := Z.of_nat size) in *.
  assert (Z.of_nat (length (concat t)) = n * sz) as Hk
    by (rewrite (length_concat_chunks size) by done; lia).
  destruct (fits A M (sub + n * sz) c) eqn:Hfit.
  - rewrite (fits_cast _ c) by (done || lia).
    destruct (block_stored (n * sz) (serialize_memcpy (concat t)) m c (c + (sub + n * sz)) p
      (λ m', load m' (c + sub) (n * sz) = Ret (concat t))) as (m' & -> & Hc' & Hs & Hl & Hr);
      [done|lia| |lia..|].
    { intros m1 Hm1. rewrite <-Hk. apply memcpy_contents; [lia|by rewrite Hk|lia]. }
    exists m'. split_and!; [done|lia|lia|done|].
    intros d t0 Hd Hlen Hsd. unfold deserialize_integral_vector. fold sz.
    rewrite (vector_location_spec sz n d p c) by (done || lia || by apply Hr).
    cbn [mbind outcome_bind]. fold sz.
    rewrite (load_agree m' _ _ _ (concat t)) by
      (done || lia || (eapply agree_sub; [|exact Hsd]; unfold region; intros; lia)).
    cbn. unfold n. by rewrite Nat2Z.id, chunks_concat.
  - destruct (block_dropped (sub + n * sz) (static_cast (subsize_t A) (n * sz))
      (serialize_memcpy (concat t)) m c p) as (m' & -> & Hs & Hr); [done|lia..|].
    exists m'. split_and!; [done|lia|lia|done|].
    intros d t0 Hd Hlen Hsd. unfold deserialize_integral_vector, vector_location. by rewrite Hr.
Qed.

End Good.

End SerializerSpec.
