(* ===== verification/SerializerRoundTrip.v ===== *)
(** * Serialisation: round trip and safety

    The theorems on [serializer_t]: what was serialised is deserialised again,
    up to strings and vectors for which there was no room; and on an arbitrary
    buffer deserialisation stays within the buffer. *)

From stdpp Require Import vector.
From S2P Require Import Prelude CppInt CppString CircularBuffer Serializer SerializerSpec.

Local Open Scope Z_scope.

Module SerializerRoundTrip.
Import Serializer SerializerSpec.

(** ** Sizes *)

Lemma sizeof_written A :
  (∀ T, sizeof A (written T) = sizeof A T) ∧
  (∀ Ts, sizeof_payload A (visit_parameter_pack (pack_written Ts))
         = sizeof_payload A (visit_parameter_pack Ts)).
Proof.
  unfold sizeof, serialized_t. apply ctype_mutind; intros; cbn in *; congruence.
Qed.

Lemma sizeof_pos A :
  (∀ T, wf_type T = true → 0 < sizeof A T) ∧
  (∀ Ts, wf_pack Ts = true → 0 < sizeof_payload A (visit_parameter_pack Ts)).
Proof.
  unfold sizeof, serialized_t. apply ctype_mutind; intros;
    cbn [wf_type wf_pack serialized_descriptor visit_parameter_pack sizeof_payload snd] in *;
    reflect_bool; try (pose proof (sizeof_int_range (offset_t A)));
    repeat match goal with H : ?b = true → _, H' : ?b = true |- _ => specialize (H H') end; nia.
Qed.

Lemma wf_value_init A :
  is_signed (offset_t A) = false →
  (∀ T, wf_type T = true → wf_value A (written T) (value_init (written T))) ∧
  (∀ Ts, wf_pack Ts = true →
     wf_pack_value A (pack_written Ts) (pack_value_init (pack_written Ts))).
Proof.
  intros Hoff. pose proof (max_lower (offset_t A)) as Hmax.
  assert (1 <= sizeof_subsize A <= 8) as Hsub by apply sizeof_int_range.
  apply ctype_mutind; intros;
    cbn [wf_type wf_pack written pack_written wf_value wf_pack_value value_init pack_value_init
         fst snd] in *; reflect_bool; auto.
  - by rewrite length_replicate.
  - apply Forall_forall. intros x. rewrite vec_to_list_replicate, elem_of_replicate.
    intros [-> _]. auto.
  - simpl. lia.
  - split_and!; [apply Z.div_pos; [lia|]|done..].
    rewrite (proj1 (sizeof_written A)). by apply sizeof_pos.
  - split; [apply Z.div_pos; lia|done].
Qed.

(** ** The remaining constructors *)

Section Good.
Variables (level : assert_level) (A : alloc) (M : Z).
Context (Hsub : is_signed (subsize_t A) = false) (Hoff : is_signed (offset_t A) = false).
Context (Hle : bits (subsize_t A) <= bits (offset_t A)) (HM : 0 <= M <= max (offset_t A)).

Lemma good_pair {V1 V2 W1 W2} sz1 sz2 (wf1 : V1 → Prop) (wf2 : V2 → Prop) ser1 ser2
    clp1 clp2 (des1 : W1 → _) (des2 : W2 → _) :
  0 < sz1 → 0 < sz2 →
  good A M sz1 wf1 ser1 clp1 des1 → good A M sz2 wf2 ser2 clp2 des2 →
  good A M (sz1 + sz2) (λ t, wf1 t.1 ∧ wf2 t.2)
    (λ t a serial, a ← ser1 t.1 a serial; ser2 t.2 a (serial + sz1))
    (λ t c, let '(t1, c, z1) := clp1 t.1 c in
            let '(t2, c, z2) := clp2 t.2 c in ((t1, t2), c, z1 || z2))
    (λ t d serial, '(d, t1) ← des1 t.1 d serial;
                   '(d, t2) ← des2 t.2 d (serial + sz1); Ret (d, (t1, t2))).
Proof using.
  intros Hz1 Hz2 H1 H2 [v1 v2] m c p [Hv1 Hv2] Hp Hc HcM Hm. cbn [fst snd] in *.
  specialize (H1 v1 m c p Hv1 Hp ltac:(lia) HcM Hm).
  destruct (clp1 v1 c) as [[x c1] z1]. destruct H1 as (m1 & -> & Hc1 & Hs1 & Hr1).
  cbn [mbind outcome_bind].
  specialize (H2 v2 m1 c1 (p + sz1) Hv2 ltac:(lia) ltac:(lia) ltac:(lia)).
  destruct (clp2 v2 c1) as [[y c2] z2].
  destruct H2 as (m2 & Hser & Hc2 & Hs2 & Hr2); [destruct Hs1; lia|].
  exists m2. split_and!; [exact Hser|lia|lia| |].
  - eapply same_on_trans; eapply same_on_sub; [|exact Hs1| |exact Hs2]; unfold region; intros; lia.
  - intros d t0 Hd Hl Hs.
    assert (reads A des1 p (region p (sz1 + sz2) c c2) c2 m2 x z1) as Hr1'
      by (eapply reads_mono; [exact Hr1|lia|exact Hs2|unfold region; intros; lia]).
    rewrite Hr1' by done. cbn [mbind outcome_bind].
    rewrite (Hr2 (raise_zero z1 d)); [|by destruct z1..|].
    + cbn. by rewrite raise_zero_orb.
    + eapply agree_sub; [|destruct z1; exact Hs]. unfold region. intros; lia.
Qed.

Lemma good_bool :
  good A M 1 (λ _, True) serialize_bool (λ t c, (t, c, false))
    (λ _ d serial, b ← deserialize_bool d serial; Ret (d, b)).
Proof using.
  intros b m c p _ Hp Hc HcM Hm.
  destruct (good_scalar A M 1 [if b then one else zero] m c p) as (m' & Hs & Hc' & Hsame & Hr);
    [done..|].
  exists m'. split_and!; [exact Hs|lia|lia|done|].
  intros d t0 Hd Hl Hag. specialize (Hr d [] Hd Hl Hag).
  unfold deserialize_memcpy in Hr. unfold deserialize_bool.
  change (Z.of_nat 1) with 1 in Hr. destruct (load (dbase_ d) p 1); simplify_eq/=.
  by destruct b.
Qed.

Lemma good_optional {V W} sz (wf : V → Prop) ser clp (des : W → _) v0 w0 :
  0 < sz → wf v0 → good A M sz wf ser clp des →
  good A M (1 + sz) (λ t, match t with Some t => wf t | None => True end)
    (λ t a serial, a ← serialize_bool (bool_decide (is_Some t)) a serial;
                   ser (default v0 t) a (serial + 1))
    (λ t c, let '(t', c, z) := clp (default v0 t) c in
            match t with Some _ => (Some t', c, z) | None => (None, c, false) end)
    (λ _ d serial, has_value ← deserialize_bool d serial;
                   if has_value : bool then
                     '(d, t) ← des w0 d (serial + 1); Ret (d, Some t)
                   else Ret (d, None)).
Proof using.
  intros Hsz Hv0 Hg v m c p Hv Hp Hc HcM Hm.
  pose proof (good_pair 1 sz (λ _, True) wf serialize_bool ser (λ t c, (t, c, false)) clp
    (λ _ d serial, b ← deserialize_bool d serial; Ret (d, b)) des ltac:(lia) Hsz good_bool Hg
    (bool_decide (is_Some v), default v0 v) m c p) as H.
  cbn [fst snd] in H. specialize (H ltac:(split; [done|by destruct v]) Hp Hc HcM Hm).
  destruct (clp (default v0 v) c) as [[v' c'] z]. destruct H as (m' & Hser & Hc' & Hs & Hr).
  assert (∀ d t0, c' <= dmaxSize_ d <= max (offset_t A) → c' <= Z.of_nat (length (dbase_ d)) →
    agree (region p (1 + sz) c c') m' (dbase_ d) →
    (has_value ← deserialize_bool d p;
     if has_value : bool then '(d, t) ← des t0 d (p + 1); Ret (d, Some t) else Ret (d, None))
    = if bool_decide (is_Some v) then Ret (raise_zero z d, Some v') else Ret (d, None)) as Hopt.
  { intros d t0 Hd Hl Hag. specialize (Hr d (true, t0) Hd Hl Hag). cbn [fst snd] in Hr.
    destruct (deserialize_bool d p) as [b| |]; simplify_eq/=.
    destruct (des t0 d (p + 1)) as [[d2 t2]| |]; simplify_eq/=. by destruct (bool_decide (is_Some v)). }
  destruct v as [v|]; cbn [default from_option] in *; exists m'.
  - split_and!; [exact Hser|lia|lia|done|]. intros d t0 Hd Hl Hag. by apply Hopt.
  - split_and!; [exact Hser|lia|lia|done|]. intros d t0 Hd Hl Hag. by apply Hopt.
Qed.

Lemma good_skip {V W} sz (wf : V → Prop) ser clp (des : W → _) :
  good A M sz wf ser clp des →
  good A M sz wf ser (λ t c, let '(_, c, _) := clp t c in (tt, c, false))
    (λ t d _, Ret (d, t)).
Proof using.
  intros Hg v m c p Hv Hp Hc HcM Hm. specialize (Hg v m c p Hv Hp Hc HcM Hm).
  destruct (clp v c) as [[v' c'] z]. destruct Hg as (m' & Hser & Hc' & Hs & _).
  exists m'. split_and!; [done|lia|lia|done|]. intros d [] ???. done.
Qed.

Lemma all_good :
  (∀ T, wf_type T = true →
     good A M (sizeof A T) (wf_value A (written T)) (serialize level A (written T))
       (clip A M T) (deserialize level A T)) ∧
  (∀ Ts, wf_pack Ts = true →
     good A M (sizeof_payload A (visit_parameter_pack Ts)) (wf_pack_value A (pack_written Ts))
       (serialize_parameter_pack level A (pack_written Ts))
       (clip_pack A M Ts) (deserialize_parameter_pack level A Ts)).
Proof using Hsub Hoff Hle HM.
  apply ctype_mutind; cbn [wf_type wf_pack].
  - intros tag size Hwf. apply good_scalar.
  - intros T IH N Hwf. reflect_bool. cbn. rewrite (proj1 (sizeof_written A)).
    apply good_elements; [by apply sizeof_pos|auto].
  - intros _. by apply good_string.
  - intros c T IH Hwf. reflect_bool. cbn. rewrite (proj1 (sizeof_written A)).
    apply good_vector; [done..|by apply sizeof_pos|auto].
  - intros tag size Hwf. reflect_bool. by apply good_integral_vector.
  - intros T1 IH1 T2 IH2 Hwf. reflect_bool. cbn. rewrite (proj1 (sizeof_written A)).
    apply good_pair; [by apply sizeof_pos..|auto|auto].
  - intros Ts IH Hwf. exact (IH Hwf).
  - intros T IH Hwf. cbn. apply good_optional; [by apply sizeof_pos|by apply wf_value_init|auto].
  - intros T IH Hwf. exact (good_skip _ _ _ _ _ (IH Hwf)).
  - intros T IH Hwf. exact (IH Hwf).
  - intros T IH1 Ts IH2 Hwf. reflect_bool. cbn. rewrite (proj1 (sizeof_written A)).
    apply good_pair; [by apply sizeof_pos..|auto|auto].
Qed.

End Good.

(** ** Nothing is missing unless the specification says so *)

Lemma clip_elements_complete {V W} (f : V → Z → W * Z * bool) (g : V → W) :
  (∀ x c x' c', f x c = (x', c', false) → x' = g x) →
  ∀ n (t : vec V n) c t' c', clip_elements f t c = (t', c', false) → t' = vmap g t.
Proof.
  intros Hf n t. induction t as [|x n t IH]; intros c t' c' H; cbn in H; [by simplify_eq|].
  destruct (f x c) as [[x' c1] z1] eqn:E1. destruct (clip_elements f t c1) as [[t'' c2] z2] eqn:E2.
  simplify_eq. destruct z1, z2; try done. apply Hf in E1 as ->. apply IH in E2 as ->. done.
Qed.

Lemma clip_pair_complete {V1 V2 W1 W2} (f1 : V1 → Z → W1 * Z * bool)
    (f2 : V2 → Z → W2 * Z * bool) (g1 : V1 → W1) (g2 : V2 → W2) :
  (∀ x c x' c', f1 x c = (x', c', false) → x' = g1 x) →
  (∀ x c x' c', f2 x c = (x', c', false) → x' = g2 x) →
  ∀ v c v' c',
    (let '(t1, c, z1) := f1 v.1 c in let '(t2, c, z2) := f2 v.2 c in ((t1, t2), c, z1 || z2))
      = (v', c', false) → v' = (g1 v.1, g2 v.2).
Proof.
  intros H1 H2 [v1 v2] c v' c'. cbn. destruct (f1 v1 c) as [[x c1] z1] eqn:E1.
  destruct (f2 v2 c1) as [[y c2] z2] eqn:E2. intros. simplify_eq. destruct z1, z2; try done.
  apply H1 in E1 as ->. apply H2 in E2 as ->. done.
Qed.

Lemma clip_complete A M :
  (∀ T v c v' c', clip A M T v c = (v', c', false) → v' = project T v) ∧
  (∀ Ts v c v' c', clip_pack A M Ts v c = (v', c', false) → v' = pack_project Ts v).
Proof.
  apply ctype_mutind; cbn -[fits]; intros; try (by simplify_eq); eauto using clip_pair_complete.
  - by eapply clip_elements_complete.
  - by destruct (fits _ _ _ _); simplify_eq.
  - destruct (fits _ _ _ _); [|by simplify_eq].
    destruct (clip_elements _ _ _) as [[t' c1] z1] eqn:E. simplify_eq.
    eapply clip_elements_complete in E as ->; [|done].
    by rewrite vec_to_list_map, vec_to_list_to_vec.
  - by destruct (fits _ _ _ _); simplify_eq.
  - destruct (clip _ _ _ _ _) as [[t' c1] z1] eqn:E. destruct v; simplify_eq/=; [|done].
    f_equal. eauto.
  - destruct (clip _ _ _ _ _) as [[t' c1] z1]. by simplify_eq.
Qed.

(** ** The round trip *)

Lemma valid_alloc_spec A :
  valid_alloc A = true →
  is_signed (subsize_t A) = false ∧ is_signed (offset_t A) = false
  ∧ bits (subsize_t A) <= bits (offset_t A).
Proof. unfold valid_alloc. intros. reflect_bool. done. Qed.

Lemma take_agree (n : Z) m m' P :
  (∀ i, 0 <= i → P i → i < n) → take (Z.to_nat n) m' = take (Z.to_nat n) m → agree P m m'.
Proof.
  intros HP Ht i Hi Hpi. specialize (HP i Hi Hpi).
  rewrite <-(lookup_take_lt m (Z.to_nat n)), <-(lookup_take_lt m' (Z.to_nat n)) by lia. by rewrite Ht.
Qed.

Lemma serialize_then_read level A T (v : value (written T)) data size v' total dropped :
  valid_alloc A = true → wf_type T = true → wf_value A (written T) v →
  sizeof A T <= size <= max (offset_t A) → size <= Z.of_nat (length data) →
  clip A size T v (sizeof A T) = (v', total, dropped) →
  ∃ data', serializer_serialize level A (written T) v data size = Ret (data', total)
    ∧ sizeof A T <= total <= size
    ∧ length data' = length data
    ∧ drop (Z.to_nat total) data' = drop (Z.to_nat total) data
    ∧ (∀ data2 size2 t0,
         take (Z.to_nat total) data2 = take (Z.to_nat total) data' →
         total <= size2 <= max (offset_t A) → total <= Z.of_nat (length data2) →
         serializer_deserialize level A T data2 size2 t0
           = Ret (Build_deserialization_result_t false false dropped, v')).
Proof.
  intros (Hsub & Hoff & Hle)%valid_alloc_spec Hwf Hv Hsize Hlen Hclip.
  pose proof (proj1 (sizeof_pos A) T Hwf) as Hpos.
  pose proof (proj1 (all_good level A size Hsub Hoff Hle ltac:(lia)) T Hwf v data (sizeof A T) 0
    Hv ltac:(lia) ltac:(lia) ltac:(lia) Hlen) as Hg.
  rewrite Hclip in Hg. destruct Hg as (m' & Hser & Hc & Hs & Hr). exists m'. split_and!; [|lia|lia|by destruct Hs| |].
  - unfold serializer_serialize. rewrite (proj1 (sizeof_written A)).
    rewrite (proj2 (Z.eqb_neq _ _)), (proj2 (Z.ltb_ge _ _)) by lia. cbn [orb].
    rewrite offset_cast by (done || lia). unfold make_serializer_helper.
    rewrite (proj2 (Z.ltb_lt _ _)), (proj2 (Z.leb_le _ _)) by lia.
    destruct level; cbn; by rewrite Hser.
  - eapply same_on_drop; [lia| |exact Hs]. unfold region. intros. lia.
  - intros data2 size2 t0 Htake Hs2 Hl2. unfold serializer_deserialize.
    rewrite (proj2 (Z.ltb_ge _ _)) by lia. rewrite Hr; [by destruct dropped|cbn; lia..|].
    eapply take_agree; [|exact Htake]. unfold region. intros. lia.
Qed.

(** C3: An object is written into the first [total] characters of the buffer, and
    every reader that gets these characters reads the object back, except for
    the strings and vectors without a block, because the buffer is full or their
    size field too small, which are empty and reported.  The buffer holds the fixed
    part of the object and is not larger than the largest offset; types of
    size 0 are excluded ([wf_type]).  The strings and vectors of the object do
    not exceed the range of offsets and the capacity of their type ([wf_value]):
    [oversized_string_unreported] shows that a longer string is not written at
    all, without a report. *)
Theorem serializer_round_trip level A T (v : value (written T)) data size :
  valid_alloc A = true → wf_type T = true → wf_value A (written T) v →
  sizeof A T <= size <= max (offset_t A) → size <= Z.of_nat (length data) →
  let '(v', total, dropped) := clip A size T v (sizeof A T) in
  ∃ data', serializer_serialize level A (written T) v data size = Ret (data', total)
    ∧ sizeof A T <= total <= size
    ∧ length data' = length data
    ∧ drop (Z.to_nat total) data' = drop (Z.to_nat total) data
    ∧ (∀ data2 size2 t0,
         take (Z.to_nat total) data2 = take (Z.to_nat total) data' →
         total <= size2 <= max (offset_t A) → total <= Z.of_nat (length data2) →
         serializer_deserialize level A T data2 size2 t0
           = Ret (Build_deserialization_result_t false false dropped, v'))
    ∧ (dropped = false → v' = project T v).
Proof.
  intros HA Hwf Hv Hsize Hlen. pose proof (proj1 (clip_complete A size) T v (sizeof A T)) as Hcomp.
  destruct (clip A size T v (sizeof A T)) as [[v' total] dropped] eqn:E.
  destruct (serialize_then_read level A T v data size v' total dropped) as (data' & ?); [done..|].
  exists data'. intuition (subst; eauto).
Qed.

(** Two strings and room for the first one only. *)
Lemma serializer_round_trip_witness :
  let A := {| offset_t := uint16_t; subsize_t := uint8_t |} in
  let v : value (written (Pair String String)) := (s! "ab", s! "cdef") in
  let data := replicate 10 one in
  let '(v', total, dropped) := clip A 10 (Pair String String) v (sizeof A (Pair String String)) in
  ∃ data', serializer_serialize ASSERT_LEVEL_DEBUG A (Pair String String) v data 10
           = Ret (data', total)
    ∧ sizeof A (Pair String String) <= total <= 10
    ∧ length data' = length data
    ∧ drop (Z.to_nat total) data' = drop (Z.to_nat total) data
    ∧ (∀ data2 size2 t0,
         take (Z.to_nat total) data2 = take (Z.to_nat total) data' →
         total <= size2 <= max (offset_t A) → total <= Z.of_nat (length data2) →
         serializer_deserialize ASSERT_LEVEL_DEBUG A (Pair String String) data2 size2 t0
           = Ret (Build_deserialization_result_t false false dropped, v'))
    ∧ (dropped = false → v' = v).
Proof.
  intros A v data.
  apply (serializer_round_trip ASSERT_LEVEL_DEBUG A (Pair String String) v data 10);
    [reflexivity|reflexivity|..].
  - cbn. repeat split; vm_compute; congruence.
  - vm_compute. split; discriminate.
  - vm_compute. discriminate.
Defined.

(** ** Arbitrary buffers *)

(** Types without [score::cpp::optional], whose flag is a [bool]. *)
Fixpoint no_optional (T : ctype) : bool :=
  match T with
  | Optional _ => false
  | Array T _ | Vector _ T => no_optional T
  | Pair T1 T2 => no_optional T1 && no_optional T2
  | Pack Ts => no_optional_pack Ts
  | _ => true
  end
with no_optional_pack (Ts : pack) : bool :=
  match Ts with
  | PackLast T => no_optional T
  | PackMore T Ts => no_optional T && no_optional_pack Ts
  end.

Section Safety.
Variables (level : assert_level) (A : alloc).
Context (Hsub : is_signed (subsize_t A) = false) (Hoff : is_signed (offset_t A) = false).
Context (Hle : bits (subsize_t A) <= bits (offset_t A)) (Hnarrow : bits (offset_t A) <= 32).

(** The buffer a helper reads, and that its size is right. *)
Definition within (d : deserializer_helper) : Prop :=
  dmaxSize_ d <= max (offset_t A) ∧ dmaxSize_ d <= Z.of_nat (length (dbase_ d)).

Definition same_buffer (d d' : deserializer_helper) : Prop :=
  dbase_ d' = dbase_ d ∧ dmaxSize_ d' = dmaxSize_ d.

Definition safe {V} (sz : Z)
    (des : V → deserializer_helper → Z → outcome (deserializer_helper * V)) : Prop :=
  ∀ t0 d p, within d → 0 <= p → p + sz <= dmaxSize_ d →
  ∃ d' t, des t0 d p = Ret (d', t) ∧ same_buffer d d'.

Lemma load_safe m p n :
  0 <= p → 0 <= n → p + n <= Z.of_nat (length m) →
  ∃ s, load m p n = Ret s ∧ length s = Z.to_nat n.
Proof using.
  intros Hp Hn Hl. unfold load. rewrite (proj2 (Z.leb_le _ _)), (proj2 (Z.leb_le _ _)) by lia.
  eexists. split; [done|]. rewrite length_take, length_drop. lia.
Qed.

Lemma deserialize_int_safe t d p :
  is_signed t = false → within d → 0 <= p → p + sizeof_int t <= dmaxSize_ d →
  ∃ z, deserialize_int t d p = Ret z ∧ 0 <= z <= max t.
Proof using.
  intros Ht [_ Hd] Hp Hl. pose proof (sizeof_int_range t). unfold deserialize_int.
  destruct (load_safe (dbase_ d) p (sizeof_int t)) as (s & -> & Hs); [lia..|].
  eexists. split; [done|]. pose proof (le_combine_range s) as Hr.
  rewrite Hs, Z2Nat.id, sizeof_int_bits in Hr by lia. rewrite max_unsigned by done. lia.
Qed.

Lemma max_narrow t : is_signed t = false → bits t <= 32 → max t < 2 ^ 32.
Proof using.
  intros Ht Hb. rewrite max_unsigned by done.
  pose proof (Z.pow_le_mono_r 2 (bits t) 32). lia.
Qed.

Lemma d_address_safe sz d off n :
  within d → 0 <= off <= max (offset_t A) → 0 <= sz * n < 2 ^ 32 →
  d_address level sz d off n = Ret (setOutOfBounds d, None)
  ∨ (d_address level sz d off n = Ret (d, Some off) ∧ off + sz * n <= dmaxSize_ d).
Proof using Hoff Hnarrow.
  intros [Hmax _] Ho Hn. pose proof (max_narrow (offset_t A) Hoff Hnarrow).
  unfold d_address. rewrite (u64_id (sz * n)), u64_id by lia.
  destruct (Z.ltb_spec (dmaxSize_ d) (off + sz * n)); [by left|right].
  rewrite (proj2 (Z.leb_le _ _)) by lia. by destruct level.
Qed.

Lemma deserialize_block_safe d p :
  within d → 0 <= p → p + sizeof_int (offset_t A) <= dmaxSize_ d →
  ∃ d' b, deserialize_block level A d p = Ret (d', b) ∧ same_buffer d d'
    ∧ match b with
      | None => True
      | Some (off, k) => 0 <= off <= max (offset_t A) ∧ 0 <= k < 2 ^ 32
      end.
Proof using Hsub Hoff Hle Hnarrow.
  intros Hw Hp Hl. unfold deserialize_block.
  assert (1 <= sizeof_subsize A <= 8) as Hs by apply sizeof_int_range.
  pose proof (max_narrow (offset_t A) Hoff Hnarrow).
  pose proof (max_narrow (subsize_t A) Hsub ltac:(lia)).
  destruct (deserialize_int_safe (offset_t A) d p) as (off & -> & Hr); [done..|].
  cbn [mbind outcome_bind]. destruct (Z.eqb_spec off 0).
  { by exists (setZeroOffset d), None. }
  destruct (d_address_safe (sizeof_subsize A) d off 1) as [->|[-> Ha]]; [done|lia..| |].
  { by exists (setOutOfBounds d), None. }
  cbn [mbind outcome_bind].
  destruct (deserialize_int_safe (subsize_t A) d off) as (k & -> & Hk);
    [done..|lia|fold (sizeof_subsize A); lia|].
  eexists d, _. split_and!; [done|done|]. destruct Hw.
  rewrite u64_id, offset_cast by (done || lia). lia.
Qed.

Lemma vector_location_safe sz d p :
  0 < sz → within d → 0 <= p → p + sizeof_int (offset_t A) <= dmaxSize_ d →
  ∃ d' b, vector_location level A sz d p = Ret (d', b) ∧ same_buffer d d'
    ∧ match b with
      | None => True
      | Some (off, n) => 0 <= off ∧ 0 <= n ∧ off + sz * n <= dmaxSize_ d
      end.
Proof using Hsub Hoff Hle Hnarrow.
  intros Hsz Hw Hp Hl. unfold vector_location.
  destruct (deserialize_block_safe d p) as (d' & b & -> & [Hb Hm] & Hr); [done..|].
  cbn [mbind outcome_bind]. destruct b as [[off k]|]; [|by exists d', None].
  assert (0 <= k / sz) by (apply Z.div_pos; lia).
  assert (sz * (k / sz) <= k) by (apply Z.mul_div_le; lia).
  destruct (d_address_safe sz d' off (k / sz)) as [->|[-> Ha]];
    [unfold within in *; by rewrite Hb, Hm|lia|lia| |].
  - by exists (setOutOfBounds d'), None.
  - eexists d', _. split_and!; [done|done|]. rewrite <-Hm. lia.
Qed.

Lemma within_same d d' : same_buffer d d' → within d → within d'.
Proof using. intros [Hb Hm]. unfold within. by rewrite Hb, Hm. Qed.

Lemma same_buffer_trans d1 d2 d3 : same_buffer d1 d2 → same_buffer d2 d3 → same_buffer d1 d3.
Proof using. unfold same_buffer. intuition congruence. Qed.

Lemma safe_pair {V1 V2} sz1 sz2 (des1 : V1 → _) (des2 : V2 → _) :
  0 < sz1 → 0 < sz2 → safe sz1 des1 → safe sz2 des2 →
  safe (sz1 + sz2)
    (λ t d serial, '(d, t1) ← des1 t.1 d serial;
                   '(d, t2) ← des2 t.2 d (serial + sz1); Ret (d, (t1, t2))).
Proof using.
  intros Hz1 Hz2 H1 H2 t0 d p Hw Hp Hl.
  destruct (H1 t0.1 d p) as (d1 & t1 & -> & Hb1); [done|lia|lia|]. cbn [mbind outcome_bind].
  destruct (H2 t0.2 d1 (p + sz1)) as (d2 & t2 & -> & Hb2);
    [by eapply within_same|lia|destruct Hb1 as [_ ->]; lia|].
  exists d2, (t1, t2). split; [done|]. by eapply same_buffer_trans.
Qed.

Lemma safe_elements {V} sz (des : V → _) n :
  0 < sz → safe sz des → safe (sz * Z.of_nat n) (deserialize_elements sz des (n := n)).
Proof using.
  intros Hz Hs t0. induction t0 as [|x n t0 IH]; intros d p Hw Hp Hl; [by exists d, [#]|].
  cbn. destruct (Hs x d p) as (d1 & x1 & -> & Hb1); [done|lia|lia|]. cbn [mbind outcome_bind].
  destruct (IH d1 (p + sz)) as (d2 & t2 & -> & Hb2);
    [by eapply within_same|lia|destruct Hb1 as [_ ->]; lia|].
  exists d2, (x1 ::: t2). split; [done|]. by eapply same_buffer_trans.
Qed.

Lemma safe_vector {V} sz c (v0 : V) des :
  0 < sz → safe sz des → safe (sizeof_int (offset_t A)) (deserialize_vector level A c v0 sz des).
Proof using Hsub Hoff Hle Hnarrow.
  intros Hz Hs t0 d p Hw Hp Hl. unfold deserialize_vector.
  destruct (vector_location_safe sz d p) as (d1 & b & -> & Hb1 & Hr); [done..|].
  cbn [mbind outcome_bind]. destruct b as [[off n]|]; [|by eexists d1, _].
  destruct (Z.ltb_spec (max_size c) n); [by eexists (setInvalidFormat d1), _|].
  set (l := resize _ _ _ _).
  destruct (safe_elements sz des (length l) Hz Hs (list_to_vec l) d1 off)
    as (d2 & t2 & -> & Hb2); [by eapply within_same|lia| |].
  { unfold l. rewrite length_resize. destruct Hb1 as [_ ->]. lia. }
  eexists d2, _. split; [done|]. by eapply same_buffer_trans.
Qed.

Lemma safe_integral_vector (size : nat) :
  (0 < size)%nat → safe (sizeof_int (offset_t A)) (deserialize_integral_vector level A size).
Proof using Hsub Hoff Hle Hnarrow.
  intros Hz t0 d p Hw Hp Hl. unfold deserialize_integral_vector.
  destruct (vector_location_safe (Z.of_nat size) d p) as (d1 & b & -> & Hb1 & Hr); [lia|done..|].
  cbn [mbind outcome_bind]. destruct b as [[off n]|]; [|by eexists d1, _].
  destruct (within_same _ _ Hb1 Hw). destruct Hb1 as [Hb1 Hm1].
  destruct (load_safe (dbase_ d1) off (n * Z.of_nat size)) as (s & -> & _); [lia..|].
  by eexists d1, _.
Qed.

Lemma safe_string : safe (sizeof_int (offset_t A)) (deserialize_string level A).
Proof using Hsub Hoff Hle Hnarrow.
  intros t0 d p Hw Hp Hl. unfold deserialize_string.
  destruct (deserialize_block_safe d p) as (d1 & b & -> & Hb1 & Hr); [done..|].
  cbn [mbind outcome_bind]. destruct b as [[off n]|]; [|by eexists d1, _].
  destruct (Z.eqb_spec n 0); [by eexists (setInvalidFormat d1), _|].
  pose proof (within_same _ _ Hb1 Hw) as Hw1.
  destruct (d_address_safe 1 d1 off n) as [->|[-> Ha]]; [done|lia|lia| |].
  { by eexists (setOutOfBounds d1), _. }
  cbn [mbind outcome_bind]. destruct Hw1.
  destruct (load_safe (dbase_ d1) off (n - 1)) as (s & -> & _); [lia..|].
  by eexists d1, _.
Qed.

Lemma all_safe :
  (∀ T, wf_type T = true → no_optional T = true → safe (sizeof A T) (deserialize level A T)) ∧
  (∀ Ts, wf_pack Ts = true → no_optional_pack Ts = true →
     safe (sizeof_payload A (visit_parameter_pack Ts)) (deserialize_parameter_pack level A Ts)).
Proof using Hsub Hoff Hle Hnarrow.
  apply ctype_mutind; cbn [wf_type wf_pack no_optional no_optional_pack]; intros; reflect_bool.
  - intros t0 d p [? ?] Hp Hl. cbn in Hl. cbn [deserialize]. unfold deserialize_memcpy.
    destruct (load_safe (dbase_ d) p (Z.of_nat size)) as (s & -> & _); [lia..|]. by exists d, s.
  - apply safe_elements; [by apply sizeof_pos|auto].
  - apply safe_string.
  - apply safe_vector; [by apply sizeof_pos|auto].
  - by apply safe_integral_vector.
  - apply safe_pair; [by apply sizeof_pos..|auto|auto].
  - auto.
  - done.
  - intros t0 d p Hw Hp Hl. by exists d, t0.
  - auto.
  - apply safe_pair; [by apply sizeof_pos..|auto|auto].
Qed.

End Safety.

(** C5: Whatever the buffer contains, deserialisation reads within it and returns,
    provided that offsets have at most 32 bits. *)
Theorem deserialize_any_buffer level A T data size t0 :
  valid_alloc A = true → bits (offset_t A) <= 32 → wf_type T = true → no_optional T = true →
  0 <= size <= max (offset_t A) → size <= Z.of_nat (length data) →
  ∃ r t, serializer_deserialize level A T data size t0 = Ret (r, t).
Proof.
  intros (Hsub & Hoff & Hle)%valid_alloc_spec Hn Hwf Hopt Hsize Hlen.
  unfold serializer_deserialize. destruct (Z.ltb_spec size (sizeof A T)); [by eexists _, _|].
  destruct (proj1 (all_safe level A Hsub Hoff Hle Hn) T Hwf Hopt t0
    (make_deserializer_helper data size) 0) as (d & t & -> & _); [split; cbn; lia|lia|cbn; lia|].
  by eexists _, _.
Qed.

(** An offset that points behind the buffer. *)
Lemma deserialize_any_buffer_witness :
  let A := {| offset_t := uint32_t; subsize_t := uint16_t |} in
  ∃ r t, serializer_deserialize ASSERT_LEVEL_PRODUCTION A
    (Array (Vector {| has_resize := true; has_clear := true; max_size := 9 |} String) 2)
    (replicate 9 one) 9 [# []; []] = Ret (r, t).
Proof.
  intros A.
  apply (deserialize_any_buffer ASSERT_LEVEL_PRODUCTION A
    (Array (Vector {| has_resize := true; has_clear := true; max_size := 9 |} String) 2)
    (replicate 9 one) 9 [# []; []]); vm_compute; done || split; discriminate.
Defined.

(** ** Limits of the code *)

(** With offsets of 64 bits the check of an offset close to 2^64 wraps: the
    reader leaves the buffer. *)
Theorem wide_offset_undefined level A data off t0 :
  level ≠ ASSERT_LEVEL_DEBUG → offset_t A = uint64_t → is_signed (subsize_t A) = false →
  8 <= Z.of_nat (length data) < 2 ^ 62 → take 8 data = le_split 8 off →
  2 ^ 64 - sizeof_subsize A <= off < 2 ^ 64 →
  serializer_deserialize level A String data (Z.of_nat (length data)) t0 = Undefined.
Proof.
  intros Hl HA Hsub Hlen Hdata Hoff. assert (1 <= sizeof_subsize A <= 8) by apply sizeof_int_range.
  unfold serializer_deserialize. change (sizeof A String) with (sizeof_int (offset_t A)).
  rewrite HA. change (sizeof_int uint64_t) with 8. rewrite (proj2 (Z.ltb_ge _ _)) by lia.
  cbn [deserialize]. unfold deserialize_string, deserialize_block. rewrite HA.
  assert (deserialize_int uint64_t (make_deserializer_helper data (Z.of_nat (length data))) 0
    = Ret off) as ->.
  { unfold deserialize_int, load. cbn [make_deserializer_helper dbase_].
    change (sizeof_int uint64_t) with 8. rewrite (proj2 (Z.leb_le _ (Z.of_nat _))) by lia.
    change (Z.to_nat 8) with 8%nat. change (drop (Z.to_nat 0) data) with data.
    rewrite Hdata. cbn [andb Z.leb Z.compare mbind outcome_bind].
    rewrite le_combine_split; [done|]. change (8 * Z.of_nat 8) with 64. lia. }
  cbn [mbind outcome_bind]. rewrite (proj2 (Z.eqb_neq _ _)) by lia.
  unfold d_address. cbn [make_deserializer_helper dmaxSize_].
  rewrite (u64_id (_ * 1)) by lia.
  assert (u64 (off + sizeof_subsize A * 1) = off + sizeof_subsize A - 2 ^ 64) as ->.
  { unfold u64, static_cast. cbn [is_signed bits andb].
    symmetry. apply (Z.mod_unique _ _ 1); lia. }
  rewrite (proj2 (Z.ltb_ge _ _)) by lia.
  assert (∀ B (b : bool) (k : outcome B), ASSERT_DBG level b k = k) as -> by (by destruct level).
  cbn [mbind outcome_bind]. unfold deserialize_int, load. cbn [make_deserializer_helper dbase_].
  pose proof (sizeof_int_range (subsize_t A)).
  rewrite (proj2 (Z.leb_gt (off + _) _)) by lia. by rewrite andb_false_r.
Qed.

(** A string that is too long for the offsets is skipped without a trace: its
    payload keeps what was in the buffer, and the size is that of success. *)
Theorem oversized_string_unreported level A (t : str) data size :
  valid_alloc A = true → max (offset_t A) + 1 < Z.of_nat (length t) + sizeof_subsize A →
  sizeof_int (offset_t A) <= size <= max (offset_t A) →
  serializer_serialize level A String t data size = Ret (data, sizeof_int (offset_t A)).
Proof.
  intros (Hsub & Hoff & Hle)%valid_alloc_spec Ht Hsize.
  assert (1 <= sizeof_subsize A <= 8) by apply sizeof_int_range.
  pose proof (sizeof_int_range (offset_t A)). pose proof (max_lower (offset_t A)).
  unfold serializer_serialize. change (sizeof A String) with (sizeof_int (offset_t A)).
  rewrite (proj2 (Z.eqb_neq _ _)), (proj2 (Z.ltb_ge _ _)) by lia. cbn [orb].
  rewrite offset_cast by (done || lia). unfold make_serializer_helper.
  rewrite (proj2 (Z.ltb_lt _ _)), (proj2 (Z.leb_le _ _)) by lia.
  cbn [serialize]. unfold serialize_string. rewrite offset_cast by (done || lia).
  rewrite (proj2 (Z.ltb_lt _ (Z.of_nat (length t)))) by lia. by destruct level.
Qed.

(** The flag of an optional object is read as a [bool] without a check. *)
Theorem optional_flag_undefined level A T data size t0 :
  (∀ b, head data = Some b → b ≠ zero ∧ b ≠ one) → data ≠ [] →
  sizeof A (Optional T) <= size →
  serializer_deserialize level A (Optional T) data size t0 = Undefined.
Proof.
  intros Hb Hne Hsize. destruct data as [|b data]; [done|]. destruct (Hb b eq_refl).
  unfold serializer_deserialize. rewrite (proj2 (Z.ltb_ge _ _)) by lia.
  cbn [deserialize]. unfold deserialize_bool, load. cbn [make_deserializer_helper dbase_].
  rewrite (proj2 (Z.leb_le _ (Z.of_nat _))) by (simpl; lia).
  change (take (Z.to_nat 1) (drop (Z.to_nat 0) (b :: data))) with [b].
  cbn [andb Z.leb Z.compare mbind outcome_bind].
  rewrite !decide_False by congruence. done.
Qed.

End SerializerRoundTrip.
