(* ===== verification/SerializerSize.v ===== *)
(** * Serialisation: the size of an object and the logging interface

    [serialized_size] of serialization/visit_size.h computes how many
    characters an object needs; for_logging.h fixes the types of offsets and
    sizes.  The theorem [logging_serializer_exact] puts both together: a buffer
    of that size is filled completely, and the object is read back. *)

From stdpp Require Import vector.
From S2P Require Import Prelude CppInt CppString CircularBuffer Serializer SerializerSpec SerializerRoundTrip.

Local Open Scope Z_scope.

Module SerializerSize.
Import Serializer SerializerSpec SerializerRoundTrip.

Record size_helper := { out : Z; vector_offset : Z; string_offset : Z }.

Definition set_out (n : Z) (v : size_helper) : size_helper :=
  Build_size_helper n (vector_offset v) (string_offset v).

(** Types for which there are overloads of the size visitor: optional objects
    and classes that are copied have none. *)
Fixpoint has_size (T : ctype) : bool :=
  match T with
  | Scalar tag _ => match tag with bitset_tag => false | _ => true end
  | String | IntegralVector _ _ => true
  | Array T _ | Vector _ T => has_size T
  | Pair T1 T2 => has_size T1 && has_size T2
  | Pack Ts => pack_has_size Ts
  | Optional _ | skip_deserialize _ => false
  end
with pack_has_size (Ts : pack) : bool :=
  match Ts with
  | PackLast T => has_size T
  | PackMore T Ts => has_size T && pack_has_size Ts
  end.

Section Size.
Variables (level : assert_level) (SizeType : int_type).

Local Abbreviation cast := (static_cast SizeType).
(** A sum in the promoted type, to which another size is added. *)
Local Abbreviation add_promoted := (c_add (promote SizeType) SizeType).
Local Abbreviation add := (c_add SizeType SizeType).

(** [if (new_size < v.out) {} else { v.out = new_size; }] *)
Definition update_out (v : size_helper) (new_size : Z) : size_helper :=
  if new_size <? out v then v else set_out (cast new_size) v.

Definition size_scalar (size : nat) (v : size_helper) : outcome size_helper :=
  new_size ← add (out v) (cast (Z.of_nat size));
  Ret (update_out v new_size).

Definition size_string (t : str) (v : size_helper) : outcome size_helper :=
  s ← add (out v) (string_offset v);
  s ← add_promoted s (cast 2);
  new_size ← add_promoted s (cast (u64 (u64 (Z.of_nat (length t)) + 1)));
  Ret (update_out v new_size).

(** The loop over the elements. *)
Fixpoint size_elements {V} (visit : V → size_helper → outcome size_helper) (t : list V)
    (v : size_helper) : outcome size_helper :=
  match t with
  | [] => Ret v
  | x :: t => v ← visit x v; size_elements visit t v
  end.

Definition size_vector {V} (visit : V → size_helper → outcome size_helper) (t : list V)
    (v : size_helper) : outcome size_helper :=
  s ← add (out v) (vector_offset v);
  new_size ← add_promoted s (cast 2);
  size_elements visit t (update_out v new_size).

Definition size_integral_vector (size : nat) (t : list str) (v : size_helper) :
    outcome size_helper :=
  new_size ← add (out v) (vector_offset v);
  limit ← c_sub SizeType SizeType (max SizeType) (cast 2);
  PRECONDITION level (new_size <=? limit)
  (new_size ← add_promoted new_size (cast 2);
   let v := update_out v new_size in
   all ← add (out v) (cast (u64 (Z.of_nat size * Z.of_nat (length t))));
   Ret (update_out v all)).

Fixpoint visit_size (T : ctype) : value T → size_helper → outcome size_helper :=
  match T with
  | Scalar _ size => λ _, size_scalar size
  | Array T N => λ t : vec (value T) N, size_elements (visit_size T) (vec_to_list t)
  | String => size_string
  | Vector _ T => size_vector (visit_size T)
  | IntegralVector _ size => size_integral_vector size
  | Pair T1 T2 => λ t v, v ← visit_size T1 t.1 v; visit_size T2 t.2 v
  | Pack Ts => visit_pack_size Ts
  | Optional _ | skip_deserialize _ => λ _ _, Undefined
  end
with visit_pack_size (Ts : pack) : pack_value Ts → size_helper → outcome size_helper :=
  match Ts with
  | PackLast T => visit_size T
  | PackMore T Ts => λ t v, v ← visit_size T t.1 v; visit_pack_size Ts t.2 v
  end.

Definition serialized_size (A : alloc) (T : ctype) (data : value T) : outcome Z :=
  let offset := cast (sizeof_int (offset_t A)) in
  v ← visit_size T data (Build_size_helper 0 offset offset);
  Ret (out v).

End Size.

(** ** The logging interface *)

Definition log_alloc_t : alloc := {| offset_t := uint32_t; subsize_t := uint16_t |}.

Definition get_offset_t_max : Z := max (offset_t log_alloc_t).

Section Logging.
Variable level : assert_level.

Definition logging_serialize (T : ctype) (t : value T) (data : str) (size : Z) :
    outcome (str * Z) :=
  if get_offset_t_max <=? size then Ret (data, 0)
  else serializer_serialize level log_alloc_t T t data (static_cast uint32_t size).

(** The overload for a buffer of [char]. *)
Definition logging_serialize_char (T : ctype) (t : value T) (data : str) (size : Z) :
    outcome (str * Z) :=
  PRECONDITION level (size <=? max uint32_t)
  (if get_offset_t_max <=? static_cast uint32_t size then Ret (data, 0)
   else serializer_serialize level log_alloc_t T t data (static_cast uint32_t size)).

Definition logging_deserialize (T : ctype) (data : str) (size : Z) (t : value T) :
    outcome (deserialization_result_t * value T) :=
  if get_offset_t_max <=? size then Ret (Build_deserialization_result_t true false false, t)
  else serializer_deserialize level log_alloc_t T data (static_cast uint32_t size) t.

Definition serialize_size (T : ctype) (t : value T) : outcome Z :=
  serialized_size level uint32_t log_alloc_t T t.

End Logging.

(** [logger_pack_string] and the [copy] of [logger_type_info]: a name with its
    length in front. *)
Definition logger_pack_string (s : str) : str :=
  le_split 4 (static_cast uint32_t (Z.of_nat (length s))) ++ s.

Definition type_info_size (name : str) : Z := u64 (4 + Z.of_nat (length name)).

Definition type_info_copy (level : assert_level) (name : str) (data : str) (size : Z) :
    outcome str :=
  if 4 <=? size then
    if u64 (4 + Z.of_nat (length name)) <=? size then
      PRECONDITION level (Z.of_nat (length name) <=? max uint32_t)
      (data ← store data 0 (le_split 4 (static_cast uint32_t (Z.of_nat (length name))));
       ASSERT_DBG level (4 <=? size) (store data 4 name))
    else store data 0 (replicate 4 zero)
  else Ret data.

(** ** The exact size *)

Fixpoint sum {V} (f : V → Z) (l : list V) : Z :=
  match l with [] => 0 | x :: l => f x + sum f l end.

(** The characters in blocks. *)
Fixpoint block_size (A : alloc) (T : ctype) : value T → Z :=
  match T with
  | Scalar _ _ | skip_deserialize _ => λ _, 0
  | Array T N => λ t : vec (value T) N, sum (block_size A T) (vec_to_list t)
  | String => λ t, sizeof_subsize A + (Z.of_nat (length t) + 1)
  | Vector _ T => λ t : list (value T),
      sizeof_subsize A + Z.of_nat (length t) * sizeof A T + sum (block_size A T) t
  | IntegralVector _ k => λ t, sizeof_subsize A + Z.of_nat (length t) * Z.of_nat k
  | Pair T1 T2 => λ t, block_size A T1 t.1 + block_size A T2 t.2
  | Pack Ts => pack_block_size A Ts
  | Optional T => λ t, block_size A T (default (value_init T) t)
  end
with pack_block_size (A : alloc) (Ts : pack) : pack_value Ts → Z :=
  match Ts with
  | PackLast T => block_size A T
  | PackMore T Ts => λ t, block_size A T t.1 + pack_block_size A Ts t.2
  end.

(** No block is longer than its size field can tell. *)
Fixpoint blocks_fit (A : alloc) (T : ctype) : value T → Prop :=
  match T with
  | Scalar _ _ | skip_deserialize _ => λ _, True
  | Array T N => λ t : vec (value T) N, Forall (blocks_fit A T) (vec_to_list t)
  | String => λ t, sizeof_subsize A + (Z.of_nat (length t) + 1) <= max (subsize_t A)
  | Vector _ T => λ t : list (value T),
      sizeof_subsize A + Z.of_nat (length t) * sizeof A T <= max (subsize_t A)
      ∧ Forall (blocks_fit A T) t
  | IntegralVector _ k => λ t,
      sizeof_subsize A + Z.of_nat (length t) * Z.of_nat k <= max (subsize_t A)
  | Pair T1 T2 => λ t, blocks_fit A T1 t.1 ∧ blocks_fit A T2 t.2
  | Pack Ts => pack_blocks_fit A Ts
  | Optional T => λ t, blocks_fit A T (default (value_init T) t)
  end
with pack_blocks_fit (A : alloc) (Ts : pack) : pack_value Ts → Prop :=
  match Ts with
  | PackLast T => blocks_fit A T
  | PackMore T Ts => λ t, blocks_fit A T t.1 ∧ pack_blocks_fit A Ts t.2
  end.

Lemma sum_nonneg {V} (f : V → Z) l : (∀ x, 0 <= f x) → 0 <= sum f l.
Proof. intros Hf. induction l as [|x l IH]; cbn; [lia|]. specialize (Hf x). lia. Qed.

Lemma sizeof_nonneg A :
  (∀ T, 0 <= sizeof A T) ∧ (∀ Ts, 0 <= sizeof_payload A (visit_parameter_pack Ts)).
Proof.
  unfold sizeof, serialized_t. pose proof (sizeof_int_range (offset_t A)).
  apply ctype_mutind; intros; cbn [serialized_descriptor visit_parameter_pack sizeof_payload snd] in *;
    nia.
Qed.

Lemma block_size_nonneg A :
  (∀ T v, 0 <= block_size A T v) ∧ (∀ Ts v, 0 <= pack_block_size A Ts v).
Proof.
  assert (1 <= sizeof_subsize A <= 8) as Hs by apply sizeof_int_range.
  apply ctype_mutind; intros; cbn; try lia; try (by apply sum_nonneg); auto;
    try apply Z.add_nonneg_nonneg; auto using sum_nonneg.
  pose proof (proj1 (sizeof_nonneg A) T). nia.
Qed.

Ltac unfold_clip :=
  cbn [clip clip_pack blocks_fit pack_blocks_fit block_size pack_block_size written pack_written
       fst snd] in *.

(** With room for all blocks nothing is dropped. *)
Section Enough.
Variables (A : alloc) (M : Z).

Lemma clip_elements_enough {V W} (f : V → Z → W * Z * bool) (g : V → Z) (P : V → Prop) :
  (∀ x, 0 <= g x) →
  (∀ x c, P x → c + g x <= M → ∃ x', f x c = (x', c + g x, false)) →
  ∀ n (t : vec V n) c, Forall P (vec_to_list t) → c + sum g (vec_to_list t) <= M →
  ∃ t', clip_elements f t c = (t', c + sum g (vec_to_list t), false).
Proof using.
  intros Hg Hf n t. induction t as [|x n t IH]; intros c Hp Hc; cbn in *.
  { eexists. by rewrite Z.add_0_r. }
  apply Forall_cons in Hp as [Hx Hp]. pose proof (sum_nonneg g (vec_to_list t) Hg).
  destruct (Hf x c) as (x' & ->); [done|lia|].
  destruct (IH (c + g x)) as (t' & ->); [done|lia|].
  eexists. f_equal. f_equal. lia.
Qed.

Lemma fits_true size c : size <= max (subsize_t A) → c + size <= M → fits A M size c = true.
Proof using. intros. unfold fits. rewrite !(proj2 (Z.leb_le _ _)) by lia. done. Qed.

Lemma clip_enough :
  (∀ T v c, blocks_fit A (written T) v → c + block_size A (written T) v <= M →
     ∃ v', clip A M T v c = (v', c + block_size A (written T) v, false)) ∧
  (∀ Ts v c, pack_blocks_fit A (pack_written Ts) v →
     c + pack_block_size A (pack_written Ts) v <= M →
     ∃ v', clip_pack A M Ts v c = (v', c + pack_block_size A (pack_written Ts) v, false)).
Proof using.
  pose proof (block_size_nonneg A) as [Hnn Hnnp].
  apply ctype_mutind.
  - intros. cbn. eexists. by rewrite Z.add_0_r.
  - intros T IH N v c Hf Hc. unfold_clip. by apply (clip_elements_enough _ _ (blocks_fit A (written T))).
  - intros v c Hf Hc. unfold_clip. rewrite fits_true by lia. by eexists.
  - intros con T IH v c [Hf Hf'] Hc. change (list (value (written T))) in v. unfold_clip.
    pose proof (sum_nonneg (block_size A (written T)) v (Hnn (written T))).
    rewrite fits_true by lia.
    destruct (clip_elements_enough (clip A M T) (block_size A (written T))
      (blocks_fit A (written T)) ltac:(auto) IH _ (list_to_vec v)
      (c + (sizeof_subsize A + Z.of_nat (length v) * sizeof A (written T)))) as (t' & ->);
      rewrite ?vec_to_list_to_vec; [done|lia|].
    eexists. f_equal. f_equal. lia.
  - intros tag k v c Hf Hc. unfold_clip. rewrite fits_true by lia. by eexists.
  - intros T1 IH1 T2 IH2 [v1 v2] c [Hf1 Hf2] Hc. unfold_clip.
    pose proof (Hnn _ v1). pose proof (Hnn _ v2).
    destruct (IH1 v1 c) as (x & ->); [done|lia|]. destruct (IH2 v2 (c + block_size A (written T1) v1))
      as (y & ->); [done|lia|]. eexists. f_equal. f_equal. lia.
  - intros Ts IH. exact IH.
  - intros T IH v c Hf Hc. unfold_clip. destruct (IH _ c Hf Hc) as (x & ->). by destruct v; eexists.
  - intros T IH v c Hf Hc. unfold_clip. destruct (IH v c Hf Hc) as (x & ->). by eexists.
  - intros T IH. exact IH.
  - intros T IH1 Ts IH2 [v1 v2] c [Hf1 Hf2] Hc.
    change (c + (block_size A (written T) v1 + pack_block_size A (pack_written Ts) v2) <= M) in Hc.
    change (∃ v', (let '(t1, c, z1) := clip A M T v1 c in
                   let '(t2, c, z2) := clip_pack A M Ts v2 c in ((t1, t2), c, z1 || z2))
      = (v', c + (block_size A (written T) v1 + pack_block_size A (pack_written Ts) v2), false)).
    pose proof (Hnn _ v1). pose proof (Hnnp _ v2).
    destruct (IH1 v1 c) as (x & ->); [done|lia|]. destruct (IH2 v2 (c + block_size A (written T) v1))
      as (y & ->); [done|lia|]. eexists. f_equal. f_equal. lia.
Qed.

End Enough.

(** ** The size visitor is exact *)

Section Exact.
Variables (level : assert_level) (A : alloc) (st : int_type).
Context (Hst : is_signed st = false) (Hbits : 32 <= bits st).
Context (Htwo : sizeof_subsize A = 2).

Lemma st_range z : 0 <= z <= max st → in_range st z.
Proof using Hst. intros. split; [rewrite lowest_unsigned by done|]; lia. Qed.

Lemma promote_st : promote st = st.
Proof using Hbits. unfold promote. by rewrite (proj2 (Z.ltb_ge _ _)). Qed.

Lemma st_cast z : 0 <= z <= max st → static_cast st z = z.
Proof using Hst. intros. by apply static_cast_id, st_range. Qed.

Lemma st_add a b : 0 <= a → 0 <= b → a + b <= max st → c_add st st a b = Ret (a + b).
Proof using Hst. intros. apply c_binop_exact; apply st_range; lia. Qed.

Lemma update_out_exact h n : out h <= n → 0 <= n <= max st → update_out st h n = set_out n h.
Proof using Hst.
  intros. unfold update_out. rewrite (proj2 (Z.ltb_ge _ _)), st_cast by lia. done.
Qed.

(** The sizes of offsets are set, and nothing is counted below zero. *)
Definition counting (h : size_helper) : Prop :=
  string_offset h = sizeof_int (offset_t A) ∧ vector_offset h = sizeof_int (offset_t A)
  ∧ 0 <= out h.

(** A visitor adds [g x] for every object. *)
Definition counts {V} (visit : V → size_helper → outcome size_helper) (g : V → Z) : Prop :=
  ∀ x h, counting h → out h + g x <= max st → visit x h = Ret (set_out (out h + g x) h).

Lemma counting_set h n : counting h → 0 <= n → counting (set_out n h).
Proof using. intros (? & ? & ?) ?. by split_and!. Qed.

Lemma counts_elements {V} visit (g : V → Z) :
  (∀ x, 0 <= g x) → counts visit g → counts (size_elements visit) (sum g).
Proof using.
  intros Hg Hv t. induction t as [|x t IH]; intros h Hc Hm; cbn in *.
  { destruct h; cbn. by rewrite Z.add_0_r. }
  pose proof (sum_nonneg g t Hg). pose proof (Hg x). pose proof (proj2 (proj2 Hc)).
  rewrite Hv by (done || lia). cbn [mbind outcome_bind].
  rewrite IH by (apply counting_set || cbn; done || lia). cbn. by rewrite Z.add_assoc.
Qed.

Lemma counts_scalar size : counts (λ _ : str, size_scalar st size) (λ _, Z.of_nat size).
Proof using Hst.
  intros x h (_ & _ & Hc) Hm. unfold size_scalar.
  rewrite st_cast, st_add by lia. cbn. by rewrite update_out_exact by lia.
Qed.

Lemma counts_string :
  counts (size_string st) (λ t, sizeof_int (offset_t A) + (2 + (Z.of_nat (length t) + 1))).
Proof using Hst Hbits.
  intros t h (Hs & _ & Hc) Hm. unfold size_string. rewrite promote_st, Hs.
  pose proof (sizeof_int_range (offset_t A)). pose proof (max_u64 st).
  rewrite (st_add (out h)) by lia. cbn [mbind outcome_bind].
  rewrite (st_cast 2), st_add by lia. cbn [mbind outcome_bind].
  rewrite (u64_id (Z.of_nat (length t))), u64_id, st_cast, st_add by lia. cbn.
  rewrite update_out_exact by lia. do 2 f_equal. lia.
Qed.

Lemma counts_vector {V} visit (g : V → Z) :
  (∀ x, 0 <= g x) → counts visit g →
  counts (size_vector st visit) (λ t, sizeof_int (offset_t A) + (2 + sum g t)).
Proof using Hst Hbits.
  intros Hg Hv t h Hc Hm. unfold size_vector. destruct Hc as (Hs & Hvo & Hc).
  pose proof (sizeof_int_range (offset_t A)). pose proof (sum_nonneg g t Hg).
  rewrite promote_st, Hvo, (st_add (out h)) by lia. cbn [mbind outcome_bind].
  rewrite (st_cast 2), st_add by lia. cbn [mbind outcome_bind].
  rewrite update_out_exact by lia.
  rewrite (counts_elements visit g Hg Hv t) by (first [split_and!; cbn; done || lia|cbn; lia]).
  unfold set_out. cbn. do 2 f_equal. lia.
Qed.

Lemma counts_integral_vector size :
  counts (size_integral_vector level st size)
    (λ t, sizeof_int (offset_t A) + (2 + Z.of_nat (length t) * Z.of_nat size)).
Proof using Hst Hbits.
  intros t h (Hs & Hvo & Hc) Hm. unfold size_integral_vector.
  pose proof (sizeof_int_range (offset_t A)). pose proof (max_u64 st). pose proof (max_lower st).
  rewrite Hvo, (st_add (out h)) by lia. cbn [mbind outcome_bind].
  rewrite (st_cast 2) by lia. unfold c_sub. rewrite c_binop_exact by (apply st_range; lia).
  cbn [mbind outcome_bind]. rewrite (proj2 (Z.leb_le _ _)) by lia.
  rewrite promote_st, st_add by lia. cbn [mbind outcome_bind].
  rewrite update_out_exact by lia. cbn [out set_out].
  rewrite u64_id, st_cast, st_add by lia. cbn [mbind outcome_bind].
  rewrite update_out_exact by (cbn; lia).
  replace (PRECONDITION level true) with (λ k : outcome size_helper, k) by (by destruct level).
  unfold set_out. cbn. do 2 f_equal. lia.
Qed.

Lemma counts_pair {V1 V2} visit1 visit2 (g1 : V1 → Z) (g2 : V2 → Z) :
  (∀ x, 0 <= g1 x) → (∀ x, 0 <= g2 x) → counts visit1 g1 → counts visit2 g2 →
  counts (λ t v, v ← visit1 t.1 v; visit2 t.2 v) (λ t, g1 t.1 + g2 t.2).
Proof using.
  intros Hg1 Hg2 H1 H2 [x y] h Hc Hm. cbn in *. pose proof (proj2 (proj2 Hc)).
  pose proof (Hg1 x). pose proof (Hg2 y).
  rewrite H1 by (done || lia). cbn [mbind outcome_bind].
  rewrite H2 by (apply counting_set || cbn; done || lia). cbn. by rewrite Z.add_assoc.
Qed.

Lemma counts_ext {V} visit (g g' : V → Z) :
  (∀ x, g x = g' x) → counts visit g → counts visit g'.
Proof using. intros Hg H x h. rewrite <-Hg. apply H. Qed.

Lemma sum_sizes {V} (f : V → Z) k l : sum (λ x, k + f x) l = Z.of_nat (length l) * k + sum f l.
Proof using. induction l as [|x l IH]; cbn [sum length]; lia. Qed.

(** The payload and the blocks of an object. *)
Definition total_size (T : ctype) (v : value T) : Z := sizeof A T + block_size A T v.
Definition pack_total_size (Ts : pack) (v : pack_value Ts) : Z :=
  sizeof_payload A (visit_parameter_pack Ts) + pack_block_size A Ts v.

Lemma total_size_nonneg :
  (∀ T v, 0 <= total_size T v) ∧ (∀ Ts v, 0 <= pack_total_size Ts v).
Proof using.
  unfold total_size, pack_total_size.
  split; intros; apply Z.add_nonneg_nonneg; apply sizeof_nonneg || apply block_size_nonneg.
Qed.

Lemma visit_size_counts :
  (∀ T, has_size T = true → counts (visit_size level st T) (total_size T)) ∧
  (∀ Ts, pack_has_size Ts = true →
     counts (visit_pack_size level st Ts) (pack_total_size Ts)).
Proof using Hst Hbits Htwo.
  pose proof total_size_nonneg as [Hn Hnp].
  apply ctype_mutind; cbn [has_size pack_has_size].
  - intros tag size _. eapply counts_ext; [|apply counts_scalar].
    intros x. unfold total_size. cbn. lia.
  - intros T IH N Hs t.
    apply (counts_ext _ (λ t : vec (value T) N, sum (total_size T) (vec_to_list t))).
    + intros x. unfold total_size. rewrite sum_sizes, length_vec_to_list.
      change (sizeof A (Array T N)) with (sizeof A T * Z.of_nat N). cbn [block_size]. lia.
    + intros x. apply counts_elements; auto.
  - intros _. eapply counts_ext; [|apply counts_string]. intros x. unfold total_size.
    change (sizeof A String) with (sizeof_int (offset_t A)). cbn [block_size]. lia.
  - intros c T IH Hs. eapply counts_ext; [|apply (counts_vector (V := value T)); [|by apply IH]; auto]. intros x.
    unfold total_size. rewrite sum_sizes.
    change (sizeof A (Vector c T)) with (sizeof_int (offset_t A)). cbn [block_size]. lia.
  - intros tag size _. eapply counts_ext; [|apply counts_integral_vector]. intros x.
    unfold total_size. change (sizeof A (IntegralVector tag size)) with (sizeof_int (offset_t A)).
    cbn [block_size]. lia.
  - intros T1 IH1 T2 IH2 Hs. reflect_bool.
    eapply counts_ext; [|apply counts_pair; [| |by apply IH1|by apply IH2]; auto]. intros x.
    unfold total_size. change (sizeof A (Pair T1 T2)) with (sizeof A T1 + sizeof A T2).
    cbn [block_size]. lia.
  - intros Ts IH Hs. exact (IH Hs).
  - done.
  - done.
  - intros T IH Hs. exact (IH Hs).
  - intros T IH1 Ts IH2 Hs. reflect_bool.
    eapply counts_ext; [|apply counts_pair; [| |by apply IH1|by apply IH2]; auto]. intros x.
    unfold total_size, pack_total_size.
    change (pack_block_size A (PackMore T Ts) x)
      with (block_size A T x.1 + pack_block_size A Ts x.2).
    change (sizeof_payload A (visit_parameter_pack (PackMore T Ts)))
      with (sizeof A T + sizeof_payload A (visit_parameter_pack Ts)). lia.
Qed.

Lemma serialized_size_exact T v :
  has_size T = true → total_size T v <= max st →
  serialized_size level st A T v = Ret (total_size T v).
Proof using Hst Hbits Htwo.
  intros Hs Hm. unfold serialized_size. pose proof (sizeof_int_range (offset_t A)).
  pose proof (max_lower st). rewrite st_cast by lia.
  rewrite (proj1 visit_size_counts T Hs v) by (first [split_and!; cbn; done || lia|cbn; lia]). done.
Qed.

End Exact.

(** C6: [serialize_size] returns the size of an object with all its blocks, for
    the types that have one ([has_size]: no optional objects and no classes that
    are copied), and a buffer of that size is enough.  The logging serialiser
    stays within the buffer.  If no block is longer than its 16-bit size field
    can tell ([blocks_fit]), it uses all of the buffer and the object is read back
    completely; otherwise what is read back is the object of [clip], in which
    the longer strings and vectors are empty, and this is reported.  The object
    is smaller than the largest 32-bit offset, and its strings and vectors are
    within the range of offsets and the capacity of their type ([wf_value]);
    types of size 0 are excluded ([wf_type]). *)
Theorem logging_serializer_exact level T (v : value (written T)) data :
  wf_type T = true → has_size (written T) = true → wf_value log_alloc_t (written T) v →
  total_size log_alloc_t (written T) v < get_offset_t_max →
  total_size log_alloc_t (written T) v <= Z.of_nat (length data) →
  let n := total_size log_alloc_t (written T) v in
  serialize_size level (written T) v = Ret n
  ∧ let '(v', total, dropped) := clip log_alloc_t n T v (sizeof log_alloc_t T) in
    (∃ data', logging_serialize level (written T) v data n = Ret (data', total)
     ∧ length data' = length data
     ∧ drop (Z.to_nat n) data' = drop (Z.to_nat n) data
     ∧ ∀ t0, logging_deserialize level T data' n t0
               = Ret (Build_deserialization_result_t false false dropped, v'))
    ∧ (blocks_fit log_alloc_t (written T) v → total = n ∧ dropped = false ∧ v' = project T v).
Proof.
  intros Hwf Hs Hv Hmax Hlen n. set (A := log_alloc_t) in *. fold n in Hmax, Hlen.
  change get_offset_t_max with (max (offset_t A)) in Hmax.
  assert (n = sizeof A T + block_size A (written T) v) as Hn
    by (unfold n, total_size; by rewrite (proj1 (sizeof_written A))).
  pose proof (proj1 (block_size_nonneg A) _ v) as Hb.
  pose proof (proj1 (sizeof_pos A) T Hwf) as Hpos.
  split. { apply serialized_size_exact; [done..|]. change (n <= max (offset_t A)). lia. }
  pose proof (proj1 (clip_complete A n) T v (sizeof A T)) as Hp.
  destruct (clip A n T v (sizeof A T)) as [[v' total] dropped] eqn:E. split.
  - destruct (serialize_then_read level A T v data n v' total dropped eq_refl Hwf Hv ltac:(lia) Hlen E)
      as (data' & Hser & Ht & Hl & Hd & Hr).
    exists data'. unfold logging_serialize, logging_deserialize. fold A.
    change get_offset_t_max with (max (offset_t A)). change uint32_t with (offset_t A).
    rewrite (proj2 (Z.leb_gt _ _)), offset_cast by (done || lia).
    split_and!; [done..| |intros t0; by rewrite (Hr data' n t0) by (done || lia)].
    replace (Z.to_nat n) with (Z.to_nat total + Z.to_nat (n - total))%nat by lia.
    by rewrite <- !drop_drop, Hd.
  - intros Hf. destruct (proj1 (clip_enough A n) T v (sizeof A T) Hf ltac:(lia)) as (v1 & E1).
    rewrite <- Hn, E in E1. injection E1 as -> -> ->. split; [done|]. split; [done|]. by apply (Hp v1 n).
Qed.

(** A record with a number, a string the reader skips, and a vector of pairs. *)
Definition sample_type : ctype :=
  Pack (PackMore (Scalar unsigned_le 1) (PackMore (skip_deserialize String)
    (PackLast (Vector {| has_resize := false; has_clear := true; max_size := 5 |}
      (Pair String (IntegralVector unsigned_le 2)))))).

Definition sample_value : value (written sample_type) :=
  ([one], (s! "skipped", [(s! "a", [[one; zero]; [zero; one]]); ([], [])])).

Lemma logging_serializer_exact_witness :
  let data := replicate 60 one in
  let n := total_size log_alloc_t (written sample_type) sample_value in
  serialize_size ASSERT_LEVEL_DEFAULT (written sample_type) sample_value = Ret n
  ∧ ∃ data',
      logging_serialize ASSERT_LEVEL_DEFAULT (written sample_type) sample_value data n = Ret (data', n)
      ∧ length data' = length data ∧ drop (Z.to_nat n) data' = drop (Z.to_nat n) data
      ∧ ∀ t0, logging_deserialize ASSERT_LEVEL_DEFAULT sample_type data' n t0
                = Ret (Build_deserialization_result_t false false false,
                       project sample_type sample_value).
Proof.
  intros data n.
  pose proof (logging_serializer_exact ASSERT_LEVEL_DEFAULT sample_type sample_value data eq_refl eq_refl
    ltac:(cbn; repeat (split || constructor); vm_compute; discriminate) ltac:(vm_compute; reflexivity)
    ltac:(vm_compute; discriminate)) as [Hn H]. fold n in H.
  destruct (clip log_alloc_t n sample_type sample_value (sizeof log_alloc_t sample_type)) as [[v' total] dropped].
  destruct H as [(data' & Hser & Hl & Hd & Hr) Hf].
  destruct Hf as (-> & -> & ->); [cbn; repeat (split || constructor); vm_compute; discriminate|].
  split; [exact Hn|]. exists data'. split; [exact Hser|]. split; [exact Hl|]. split; [exact Hd|exact Hr].
Defined.

(** The type information is copied only as a whole, and never past the end. *)
Theorem type_info_copy_spec level name data size :
  0 <= size <= Z.of_nat (length data) → Z.of_nat (length name) < 2 ^ 32 →
  ∃ data', type_info_copy level name data size = Ret data'
    ∧ length data' = length data
    ∧ drop (Z.to_nat size) data' = drop (Z.to_nat size) data
    ∧ (4 <= size → take (length (logger_pack_string name)) data' = logger_pack_string name
                   ∨ size < type_info_size name ∧ take 4 data' = replicate 4 zero).
Proof.
  intros Hs Hn. set (k := Z.of_nat (length name)) in *.
  unfold type_info_copy, type_info_size.
  destruct (Z.leb_spec 4 size); [|exists data; split_and!; done || lia].
  fold k. rewrite u64_id by lia. destruct (Z.leb_spec (4 + k) size) as [Hfit|Hfit].
  - rewrite (proj2 (Z.leb_le k _)) by (change (max uint32_t) with (2 ^ 32 - 1); lia).
    destruct (store_spec data 0 (le_split 4 (static_cast uint32_t k))) as (m1 & -> & Hs1 & Hl1);
      rewrite ?length_le_split in *; [lia..|]. cbn [mbind outcome_bind].
    destruct (store_spec m1 4 name) as (m2 & Hst & Hs2 & Hl2); [lia|fold k; destruct Hs1; lia|].
    fold k in Hs2, Hl2.
    exists m2. split_and!.
    + rewrite Hst. by destruct level.
    + destruct Hs1, Hs2; lia.
    + etrans; eapply same_on_drop; [lia| |exact Hs2|lia| |exact Hs1]; intros;
        cbv beta; rewrite ?length_le_split; lia.
    + intros _. left. unfold logger_pack_string. fold k.
      assert (load m2 0 (Z.of_nat 4) = Ret (le_split 4 (static_cast uint32_t k))) as Hl1'.
      { eapply load_agree; [lia|lia|destruct Hs1, Hs2; lia| |exact Hl1].
        destruct Hs2 as [_ Hs2]. intros i Hi Hi'. apply Hs2; lia. }
      apply load_inv in Hl1', Hl2. change (drop (Z.to_nat 0) m2) with m2 in Hl1'.
      rewrite Nat2Z.id in *. rewrite <-Hl1', length_app. rewrite <-Hl2 at 2.
      rewrite length_take, Nat.min_l by (destruct Hs1, Hs2; lia).
      unfold k. rewrite Nat2Z.id. symmetry. apply take_take_drop.
  - destruct (store_spec data 0 (replicate 4 zero)) as (m1 & -> & Hs1 & Hl1);
      rewrite ?length_replicate in *; [lia..|].
    exists m1. split_and!; [done|destruct Hs1; lia| |].
    + eapply same_on_drop; [lia| |exact Hs1]. intros. cbv beta. lia.
    + intros _. right. split; [lia|]. by apply load_inv in Hl1.
Qed.

(** ** Limits of the code *)

(** [serialized_size] counts two characters for the size of a block, whatever
    [A::subsize_t] is.  With another type the buffer is too small. *)
Theorem serialized_size_ignores_subsize_t level :
  let A := {| offset_t := uint32_t; subsize_t := uint32_t |} in
  serialized_size level uint32_t A String [] = Ret 7
  ∧ ∃ data', serializer_serialize level A String [] (replicate 7 one) 7 = Ret (data', 4)
    ∧ serializer_deserialize level A String data' 7 []
        = Ret (Build_deserialization_result_t false false true, []).
Proof.
  intros A. split; [by destruct level|]. exists (replicate 4 zero ++ replicate 3 one).
  by destruct level.
Qed.

(** The guard against overflow does not work for size types narrower than
    [int], because the sum is computed in [int]. *)
Theorem serialized_size_wraps level :
  serialized_size level uint8_t log_alloc_t String (replicate 250 one) = Ret 1.
Proof. by destruct level. Qed.

End SerializerSize.
