(* ===== verification/RustStorage.v ===== *)
(** * Storage of the Rust containers: containers_rust/storage and allocator

    The containers of containers_rust are generic over the trait [Storage],
    an array of slots of type [MaybeUninit<T>].  A slot is an [option T]: the
    object it holds, or none.  Reading a slot without an object, and accessing
    a slot out of bounds, is [Undefined]; [Aborted] is a panic.  An object that
    is moved out leaves its slot empty, and writing over an object that would
    have to be dropped is [Undefined] too, so that a result [Ret] also says
    that no object is dropped twice or lost.

    The type class [Storage] has the operations of the trait and [StorageLaws]
    what its documentation promises; [Heap] and [Inline] are its instances.
    [debug] tells whether debug assertions and overflow checks are enabled. *)

From S2P Require Import Prelude CppInt.

Local Open Scope Z_scope.

Module RustStorage.

(** [debug_assert!], and arithmetic of [u32], which panics or wraps. *)
Definition debug_assert {A} (debug x : bool) (k : outcome A) : outcome A :=
  if debug && negb x then Aborted else k.

Definition u32_arith (debug : bool) (z : Z) : outcome Z :=
  if bool_decide (in_range uint32_t z) then Ret z
  else if debug then Aborted else Ret (static_cast uint32_t z).

Lemma u32_arith_ok debug z : 0 <= z < 2 ^ 32 → u32_arith debug z = Ret z.
Proof.
  intros. unfold u32_arith. rewrite bool_decide_true; [done|].
  unfold in_range. change (lowest uint32_t) with 0. change (max uint32_t) with (2 ^ 32 - 1). lia.
Qed.

Section Slots.
Context {T : Type}.
Variables (debug needs_drop : bool).

(** Access to the slots of an array without a check, and the part of it from
    [start] to [end]. *)
Definition get_unchecked (l : list (option T)) (index : Z) : outcome (option T) :=
  if (0 <=? index) && (index <? Z.of_nat (length l))
  then match l !! Z.to_nat index with Some s => Ret s | None => Undefined end
  else Undefined.

Definition set_unchecked (l : list (option T)) (index : Z) (s : option T) :
    outcome (list (option T)) :=
  if (0 <=? index) && (index <? Z.of_nat (length l))
  then Ret (<[Z.to_nat index := s]> l) else Undefined.

Definition subslice_unchecked (l : list (option T)) (start end_ : Z) : outcome (list (option T)) :=
  if (0 <=? start) && (start <=? end_) && (end_ <=? Z.of_nat (length l))
  then Ret (take (Z.to_nat (end_ - start)) (drop (Z.to_nat start) l)) else Undefined.

Definition set_subslice_unchecked (l : list (option T)) (start end_ : Z) (s : list (option T)) :
    outcome (list (option T)) :=
  if (0 <=? start) && (start <=? end_) && (end_ <=? Z.of_nat (length l))
     && (Z.of_nat (length s) =? end_ - start)
  then Ret (take (Z.to_nat start) l ++ s ++ drop (Z.to_nat end_) l) else Undefined.

(** [MaybeUninit::write], [assume_init_ref] and the objects of a slice of [T]. *)
Definition write (s : option T) (v : T) : outcome (option T) :=
  match s with
  | Some _ => if needs_drop then Undefined else Ret (Some v)
  | None => Ret (Some v)
  end.

Definition assume_init (s : option T) : outcome T :=
  match s with Some v => Ret v | None => Undefined end.

Fixpoint assume_init_all (l : list (option T)) : outcome (list T) :=
  match l with
  | [] => Ret []
  | s :: l => v ← assume_init s; vs ← assume_init_all l; Ret (v :: vs)
  end.

End Slots.

(** ** The trait *)

Class Storage (T S : Type) := {
  capacity : S → Z;
  element : bool → S → Z → outcome (option T);
  (** a write through the reference that [element_mut] returns *)
  element_mut : bool → S → Z → option T → outcome S;
  subslice : bool → S → Z → Z → outcome (list (option T));
  (** a write through the pointer that [subslice_mut] returns *)
  subslice_mut : bool → S → Z → Z → list (option T) → outcome S;
}.

(** What the documentation of the trait promises, on the slots; [valid] is the
    invariant of an implementation. *)
Class StorageLaws (T S : Type) `{Storage T S} (valid : S → Prop)
    (slots : S → list (option T)) := {
  capacity_u32 s : valid s → 0 <= capacity s < 2 ^ 32;
  capacity_slots s : valid s → capacity s = Z.of_nat (length (slots s));
  element_law debug s i : valid s → 0 <= i < capacity s →
    element debug s i = get_unchecked (slots s) i;
  element_mut_law debug s i v : valid s → 0 <= i < capacity s →
    ∃ s', element_mut debug s i v = Ret s' ∧ valid s'
      ∧ slots s' = <[Z.to_nat i := v]> (slots s);
  subslice_law debug s i j : valid s → 0 <= i <= j → j <= capacity s →
    subslice debug s i j = subslice_unchecked (slots s) i j;
  subslice_mut_law debug s i j l : valid s → 0 <= i <= j → j <= capacity s →
    Z.of_nat (length l) = j - i →
    ∃ s', subslice_mut debug s i j l = Ret s' ∧ valid s'
      ∧ slots s' = take (Z.to_nat i) (slots s) ++ l ++ drop (Z.to_nat j) (slots s);
}.

(** ** Storage on the heap *)

(** The capacity is a [u32], and the allocation has room for it. *)
Record Heap (T : Type) := { heap_capacity : Z; heap_elements : list (option T) }.
Arguments Build_Heap {T}.
Arguments heap_capacity {T}.
Arguments heap_elements {T}.

Section Heap.
Context {T : Type}.
(** [size_of::<T>()], [align_of::<T>()] and the allocator, which gives memory
    of a size and an alignment or fails. *)
Variables (size_of align_of : Z) (allocate : Z → Z → bool).

(** [Layout::from_size_align] fails when the size exceeds [isize::MAX] once it
    is rounded up to the alignment. *)
Definition heap_layout (capacity : Z) : option (Z * Z) :=
  let size := capacity * size_of in
  if max uint64_t <? size then None
  else if max int64_t - (align_of - 1) <? size then None
  else Some (size, align_of).

Definition heap_try_new (capacity : Z) : option (Heap T) :=
  if 0 <? capacity then
    match heap_layout capacity with
    | None => None
    | Some (size, align) =>
        if allocate size align
        then Some (Build_Heap capacity (replicate (Z.to_nat capacity) None)) else None
    end
  else Some (Build_Heap capacity []).

Definition heap_new (capacity : Z) : outcome (Heap T) :=
  match heap_try_new capacity with Some h => Ret h | None => Aborted end.

Definition heap_element (debug : bool) (h : Heap T) (index : Z) : outcome (option T) :=
  debug_assert debug (index <? heap_capacity h) (get_unchecked (heap_elements h) index).

Definition heap_element_mut (debug : bool) (h : Heap T) (index : Z) (s : option T) :
    outcome (Heap T) :=
  debug_assert debug (index <? heap_capacity h)
  (l ← set_unchecked (heap_elements h) index s; Ret (Build_Heap (heap_capacity h) l)).

Definition heap_subslice (debug : bool) (h : Heap T) (start end_ : Z) :
    outcome (list (option T)) :=
  debug_assert debug (start <=? end_)
  (debug_assert debug (end_ <=? heap_capacity h)
   (subslice_unchecked (heap_elements h) start end_)).

Definition heap_subslice_mut (debug : bool) (h : Heap T) (start end_ : Z) (s : list (option T)) :
    outcome (Heap T) :=
  debug_assert debug (start <=? end_)
  (debug_assert debug (end_ <=? heap_capacity h)
   (l ← set_subslice_unchecked (heap_elements h) start end_ s;
    Ret (Build_Heap (heap_capacity h) l))).

(** The drop of the storage gives the memory back with the same layout: what
    the allocator is called with, or a panic of [unwrap]. *)
Definition heap_drop (h : Heap T) : outcome (option (Z * Z)) :=
  if 0 <? heap_capacity h then
    match heap_layout (heap_capacity h) with Some l => Ret (Some l) | None => Aborted end
  else Ret None.

End Heap.

(** ** Inline storage *)

(** The template argument [CAPACITY] is the length of the array, checked at
    compile time. *)
Record Inline (T : Type) := { inline_elements : list (option T) }.
Arguments Build_Inline {T}.
Arguments inline_elements {T}.

Section Inline.
Context {T : Type}.

Definition check_capacity (CAPACITY : Z) : bool := (0 <? CAPACITY) && (CAPACITY <=? max uint32_t).

Definition inline_new (CAPACITY : Z) : Inline T :=
  Build_Inline (replicate (Z.to_nat CAPACITY) None).

Definition inline_capacity (s : Inline T) : Z := Z.of_nat (length (inline_elements s)).

Definition inline_element (debug : bool) (s : Inline T) (index : Z) : outcome (option T) :=
  debug_assert debug (index <? inline_capacity s) (get_unchecked (inline_elements s) index).

Definition inline_element_mut (debug : bool) (s : Inline T) (index : Z) (v : option T) :
    outcome (Inline T) :=
  debug_assert debug (index <? inline_capacity s)
  (l ← set_unchecked (inline_elements s) index v; Ret (Build_Inline l)).

Definition inline_subslice (debug : bool) (s : Inline T) (start end_ : Z) :
    outcome (list (option T)) :=
  debug_assert debug (start <=? end_)
  (debug_assert debug (end_ <=? inline_capacity s)
   (subslice_unchecked (inline_elements s) start end_)).

Definition inline_subslice_mut (debug : bool) (s : Inline T) (start end_ : Z)
    (v : list (option T)) : outcome (Inline T) :=
  debug_assert debug (start <=? end_)
  (debug_assert debug (end_ <=? inline_capacity s)
   (l ← set_subslice_unchecked (inline_elements s) start end_ v; Ret (Build_Inline l))).

End Inline.

(** ** The instances *)

Section Unchecked.
Context {T : Type}.
Implicit Types l s : list (option T).

Lemma set_unchecked_ok l i v :
  0 <= i < Z.of_nat (length l) → set_unchecked l i v = Ret (<[Z.to_nat i := v]> l).
Proof.
  intros. unfold set_unchecked. by rewrite (proj2 (Z.leb_le _ _)), (proj2 (Z.ltb_lt _ _)) by lia.
Qed.

Lemma set_subslice_unchecked_ok l i j s :
  0 <= i <= j → j <= Z.of_nat (length l) → Z.of_nat (length s) = j - i →
  set_subslice_unchecked l i j s = Ret (take (Z.to_nat i) l ++ s ++ drop (Z.to_nat j) l).
Proof.
  intros. unfold set_subslice_unchecked.
  by rewrite !(proj2 (Z.leb_le _ _)), (proj2 (Z.eqb_eq _ _)) by lia.
Qed.

Lemma length_set_subslice l i j s :
  0 <= i <= j → j <= Z.of_nat (length l) → Z.of_nat (length s) = j - i →
  length (take (Z.to_nat i) l ++ s ++ drop (Z.to_nat j) l) = length l.
Proof. intros. rewrite !length_app, length_take, length_drop. lia. Qed.

Lemma debug_assert_ok {A} debug b (k : outcome A) : b = true → debug_assert debug b k = k.
Proof. intros ->. unfold debug_assert. by rewrite andb_false_r. Qed.

End Unchecked.

#[export] Instance heap_storage {T} : Storage T (Heap T) := {|
  capacity := heap_capacity;
  element := heap_element;
  element_mut := heap_element_mut;
  subslice := heap_subslice;
  subslice_mut := heap_subslice_mut;
|}.

#[export] Instance inline_storage {T} : Storage T (Inline T) := {|
  capacity := inline_capacity;
  element := inline_element;
  element_mut := inline_element_mut;
  subslice := inline_subslice;
  subslice_mut := inline_subslice_mut;
|}.

Definition heap_valid {T} (h : Heap T) : Prop :=
  0 <= heap_capacity h < 2 ^ 32 ∧ heap_capacity h = Z.of_nat (length (heap_elements h)).

Definition inline_valid {T} (s : Inline T) : Prop := inline_capacity s < 2 ^ 32.

Ltac discharge_asserts :=
  repeat rewrite debug_assert_ok by (first [apply Z.ltb_lt|apply Z.leb_le]; lia).

#[export] Instance heap_laws {T} : StorageLaws T (Heap T) heap_valid heap_elements.
Proof.
  split; intros *; cbn; unfold heap_valid.
  - tauto.
  - tauto.
  - intros [? ?] ?. unfold heap_element. by discharge_asserts.
  - intros [? ?] ?. unfold heap_element_mut. discharge_asserts.
    rewrite set_unchecked_ok by lia. eexists. split; [done|]. cbn. by rewrite length_insert.
  - intros [? ?] ? ?. unfold heap_subslice. by discharge_asserts.
  - intros [? ?] ? ? ?. unfold heap_subslice_mut. discharge_asserts.
    rewrite set_subslice_unchecked_ok by lia. eexists. split; [done|]. cbn.
    by rewrite length_set_subslice by lia.
Qed.

#[export] Instance inline_laws {T} : StorageLaws T (Inline T) inline_valid inline_elements.
Proof.
  split; intros *; cbn; unfold inline_valid, inline_capacity.
  - lia.
  - done.
  - intros ? ?. unfold inline_element, inline_capacity. by discharge_asserts.
  - intros ? ?. unfold inline_element_mut, inline_capacity. discharge_asserts.
    rewrite set_unchecked_ok by lia. eexists. split; [done|]. cbn. by rewrite length_insert.
  - intros ? ? ?. unfold inline_subslice, inline_capacity. by discharge_asserts.
  - intros ? ? ? ?. unfold inline_subslice_mut, inline_capacity. discharge_asserts.
    rewrite set_subslice_unchecked_ok by lia. eexists. split; [done|]. cbn.
    by rewrite length_set_subslice by lia.
Qed.

(** ** Construction and destruction *)

(** A new storage is empty, and its memory can be given back with the layout it
    was allocated with. *)
Lemma heap_try_new_spec {T} size_of align_of allocate cap (h : Heap T) :
  0 <= cap < 2 ^ 32 → heap_try_new size_of align_of allocate cap = Some h →
  heap_valid h ∧ heap_capacity h = cap ∧ heap_elements h = replicate (Z.to_nat cap) None
  ∧ heap_drop size_of align_of h =
      Ret (if 0 <? cap then heap_layout size_of align_of cap else None).
Proof.
  intros Hcap. unfold heap_try_new, heap_drop, heap_valid. destruct (Z.ltb_spec 0 cap).
  - destruct (heap_layout size_of align_of cap) as [[size al]|] eqn:E; [|done].
    destruct (allocate size al); [|done]. intros [= <-]. cbn.
    rewrite (proj2 (Z.ltb_lt _ _)), E, length_replicate by lia.
    split_and!; [lia|lia|lia|done..].
  - intros [= <-]. cbn. rewrite (proj2 (Z.ltb_ge _ _)) by lia.
    assert (cap = 0) as -> by lia. done.
Qed.

Lemma inline_new_valid {T} CAPACITY :
  check_capacity CAPACITY = true →
  inline_valid (T := T) (inline_new CAPACITY) ∧ inline_capacity (T := T) (inline_new CAPACITY) = CAPACITY.
Proof.
  unfold check_capacity, inline_valid, inline_capacity. change (max uint32_t) with (2 ^ 32 - 1).
  intros. reflect_bool. cbn. rewrite length_replicate. lia.
Qed.

(** The global allocator refuses a size of zero, so that a storage for objects
    of a type without any size cannot be made on the heap. *)
Theorem heap_zero_sized {T} align_of allocate cap :
  (∀ align, allocate 0 align = false) → 0 < cap → 0 < align_of < 2 ^ 63 →
  heap_try_new (T := T) 0 align_of allocate cap = None.
Proof.
  intros Ha Hc Hal. unfold heap_try_new, heap_layout. rewrite (proj2 (Z.ltb_lt _ _)) by lia.
  rewrite Z.mul_0_r, (proj2 (Z.ltb_ge (max uint64_t) 0)) by done.
  change (max int64_t) with (2 ^ 63 - 1). rewrite (proj2 (Z.ltb_ge _ _)) by lia. by rewrite Ha.
Qed.

End RustStorage.
