(* ===== verification/RustQueue.v ===== *)
(** * The queue of the Rust containers: containers_rust/generic/queue.rs

    [GenericQueue] is a double-ended queue in an array of fixed size, with the
    index of its front and its length, both of type [u32].  All theorems are
    proved against [StorageLaws], for every storage.  [represents] connects a
    queue with the sequence of its elements; [queue_refines] says that any
    sequence of calls gives the results of a bounded sequence. *)

From S2P Require Import Prelude CppInt RustStorage.

Local Open Scope Z_scope.

Module RustQueue.
Import RustStorage.

(** [InsufficientCapacity] is the only error. *)
Inductive InsufficientCapacity := insufficient_capacity.

Record GenericQueue (S : Type) := { len : Z; front_index : Z; storage : S }.
Arguments Build_GenericQueue {S}.
Arguments len {S}.
Arguments front_index {S}.
Arguments storage {S}.

(** The iterator over two slices; a slice iterator is the list of its
    remaining elements. *)
Record Iter (T : Type) := { first : list T; second : list T }.
Arguments Build_Iter {T}.
Arguments first {T}.
Arguments second {T}.

Section Operations.
Context {T S : Type} `{Storage T S}.
Variables (debug needs_drop : bool).

Local Abbreviation queue := (GenericQueue S).

Definition new (s : S) : queue := Build_GenericQueue 0 0 s.

Definition set_storage (s : S) (q : queue) : queue := Build_GenericQueue (len q) (front_index q) s.
Definition set_len (n : Z) (q : queue) : queue := Build_GenericQueue n (front_index q) (storage q).
Definition set_front (n : Z) (q : queue) : queue := Build_GenericQueue (len q) n (storage q).

Definition as_u32 : Z → Z := static_cast uint32_t.

Definition queue_capacity (q : queue) : Z := capacity (storage q).
Definition is_empty (q : queue) : bool := len q =? 0.
Definition is_full (q : queue) : bool := len q =? queue_capacity q.

Definition slice_ranges (q : queue) : (Z * Z) * (Z * Z) :=
  let end_ := front_index q + len q in
  let cap := capacity (storage q) in
  if cap <? end_ then
    let end_ := as_u32 (end_ - cap) in ((front_index q, cap), (0, end_))
  else
    let end_ := as_u32 end_ in ((front_index q, end_), (end_, end_)).

Definition back_index (q : queue) : option Z :=
  if 0 <? len q then
    let cap := capacity (storage q) in
    let read_pos := front_index q + (len q - 1) in
    if read_pos <? cap then Some (as_u32 read_pos) else Some (as_u32 (read_pos - cap))
  else None.

(** A slice of [T] in the storage: all its slots hold objects. *)
Definition slice (q : queue) (r : Z * Z) : outcome (list T) :=
  l ← subslice debug (storage q) r.1 r.2; assume_init_all l.

Definition as_slices (q : queue) : outcome (list T * list T) :=
  let '(r1, r2) := slice_ranges q in
  l1 ← slice q r1; l2 ← slice q r2; Ret (l1, l2).

(** A write of [f] of every element through [as_mut_slices]. *)
Definition write_slice (f : T → option T) (q : queue) (r : Z * Z) : outcome queue :=
  l ← slice q r;
  s ← subslice_mut debug (storage q) r.1 r.2 (f <$> l); Ret (set_storage s q).

Definition update_mut_slices (f : T → T) (q : queue) : outcome queue :=
  let '(r1, r2) := slice_ranges q in
  q ← write_slice (λ x, Some (f x)) q r1; write_slice (λ x, Some (f x)) q r2.

Definition read_at (q : queue) (i : Z) : outcome T :=
  s ← element debug (storage q) i; assume_init s.

Definition front (q : queue) : outcome (option T) :=
  if 0 <? len q then v ← read_at q (front_index q); Ret (Some v) else Ret None.

Definition back (q : queue) : outcome (option T) :=
  match back_index q with
  | Some i => v ← read_at q i; Ret (Some v)
  | None => Ret None
  end.

(** A write of [f] of the element through [front_mut] and [back_mut]. *)
Definition update_at (f : T → T) (q : queue) (i : Z) : outcome queue :=
  v ← read_at q i;
  s ← element_mut debug (storage q) i (Some (f v)); Ret (set_storage s q).

Definition update_front (f : T → T) (q : queue) : outcome queue :=
  if 0 <? len q then update_at f q (front_index q) else Ret q.

Definition update_back (f : T → T) (q : queue) : outcome queue :=
  match back_index q with Some i => update_at f q i | None => Ret q end.

(** [element_mut(i).write(value)] *)
Definition write_at (q : queue) (i : Z) (v : T) : outcome queue :=
  old ← element debug (storage q) i;
  new ← write needs_drop old v;
  s ← element_mut debug (storage q) i new; Ret (set_storage s q).

(** [element(i).assume_init_read()], which moves the object out of the slot. *)
Definition move_out (q : queue) (i : Z) : outcome (queue * T) :=
  v ← read_at q i;
  s ← element_mut debug (storage q) i None; Ret (set_storage s q, v).

Definition push_back (v : T) (q : queue) : outcome (queue * expected InsufficientCapacity unit) :=
  let cap := capacity (storage q) in
  if len q <? cap then
    let write_pos := front_index q + len q in
    let write_pos := if write_pos <? cap then as_u32 write_pos else as_u32 (write_pos - cap) in
    n ← u32_arith debug (len q + 1);
    q ← write_at (set_len n q) write_pos v;
    Ret (q, Value tt)
  else Ret (q, Unexpected insufficient_capacity).

Definition push_front (v : T) (q : queue) : outcome (queue * expected InsufficientCapacity unit) :=
  let cap := capacity (storage q) in
  if len q <? cap then
    write_pos ← (if 0 <? front_index q then u32_arith debug (front_index q - 1)
                 else u32_arith debug (cap - 1));
    q ← write_at q write_pos v;
    n ← u32_arith debug (len q + 1);
    Ret (set_front write_pos (set_len n q), Value tt)
  else Ret (q, Unexpected insufficient_capacity).

Definition pop_front (q : queue) : outcome (queue * option T) :=
  if 0 <? len q then
    '(q, v) ← move_out q (front_index q);
    n ← u32_arith debug (len q - 1);
    let q := set_len n q in
    last ← u32_arith debug (capacity (storage q) - 1);
    if front_index q <? last then
      f ← u32_arith debug (front_index q + 1); Ret (set_front f q, Some v)
    else Ret (set_front 0 q, Some v)
  else Ret (q, None).

Definition pop_back (q : queue) : outcome (queue * option T) :=
  match back_index q with
  | Some read_pos =>
      n ← u32_arith debug (len q - 1);
      '(q, v) ← move_out (set_len n q) read_pos;
      Ret (q, Some v)
  | None => Ret (q, None)
  end.

(** The queue, and the objects that were dropped. *)
Definition clear (q : queue) : outcome (queue * list T) :=
  let '(r1, r2) := slice_ranges q in
  let q := Build_GenericQueue 0 0 (storage q) in
  if needs_drop then
    l1 ← slice q r1; q ← write_slice (λ _, None) q r1;
    l2 ← slice q r2; q ← write_slice (λ _, None) q r2;
    Ret (q, l1 ++ l2)
  else Ret (q, []).

Definition iter (q : queue) : outcome (Iter T) :=
  '(l1, l2) ← as_slices q; Ret (Build_Iter l1 l2).

End Operations.

Section Iterator.
Context {T : Type}.

Definition slice_next_back (l : list T) : option T * list T :=
  match last l with Some x => (Some x, removelast l) | None => (None, l) end.

Definition next (it : Iter T) : option T * Iter T :=
  match first it with
  | x :: l => (Some x, Build_Iter l (second it))
  | [] =>
      (* swapped *)
      match second it with
      | x :: l => (Some x, Build_Iter l [])
      | [] => (None, Build_Iter [] [])
      end
  end.

Definition next_back (it : Iter T) : option T * Iter T :=
  match slice_next_back (second it) with
  | (Some x, l) => (Some x, Build_Iter (first it) l)
  | (None, _) =>
      let '(x, l) := slice_next_back (first it) in (x, Build_Iter (second it) l)
  end.

Definition iter_len (it : Iter T) : Z := Z.of_nat (length (first it)) + Z.of_nat (length (second it)).

Definition iter_last (it : Iter T) : option T := (next_back it).1.

End Iterator.

(** ** Programs that use a queue *)

Inductive op (T : Type) :=
| PushBack (v : T) | PushFront (v : T) | PopFront | PopBack | Clear
| Front | Back | UpdateFront (f : T → T) | UpdateBack (f : T → T) | UpdateAll (f : T → T)
| IsEmpty | IsFull | Iterate (from_back : list bool).
Arguments PushBack {T}.
Arguments PushFront {T}.
Arguments PopFront {T}.
Arguments PopBack {T}.
Arguments Clear {T}.
Arguments Front {T}.
Arguments Back {T}.
Arguments UpdateFront {T}.
Arguments UpdateBack {T}.
Arguments UpdateAll {T}.
Arguments IsEmpty {T}.
Arguments IsFull {T}.
Arguments Iterate {T}.

Inductive res (T : Type) :=
| RUnit | RPushed (ok : bool) | ROption (v : option T) | RBool (b : bool)
| RDropped (l : list T) | RSeen (l : list (option T)).
Arguments RUnit {T}.
Arguments RPushed {T}.
Arguments ROption {T}.
Arguments RBool {T}.
Arguments RDropped {T}.
Arguments RSeen {T}.

Section Programs.
Context {T S : Type} `{Storage T S}.
Variables (debug needs_drop : bool).

Definition pushed (r : expected InsufficientCapacity unit) : res T :=
  RPushed (match r with Value _ => true | Unexpected _ => false end).

(** Calls of [next] and [next_back] in any order. *)
Fixpoint iterate (from_back : list bool) (it : Iter T) : list (option T) :=
  match from_back with
  | [] => []
  | b :: bs =>
      let '(x, it) := if b : bool then next_back it else next it in x :: iterate bs it
  end.

Definition exec (o : op T) (q : GenericQueue S) : outcome (GenericQueue S * res T) :=
  match o with
  | PushBack v => '(q, r) ← push_back debug needs_drop v q; Ret (q, pushed r)
  | PushFront v => '(q, r) ← push_front debug needs_drop v q; Ret (q, pushed r)
  | PopFront => '(q, r) ← pop_front debug q; Ret (q, ROption r)
  | PopBack => '(q, r) ← pop_back debug q; Ret (q, ROption r)
  | Clear => '(q, l) ← clear debug needs_drop q; Ret (q, RDropped l)
  | Front => r ← front debug q; Ret (q, ROption r)
  | Back => r ← back debug q; Ret (q, ROption r)
  | UpdateFront f => q ← update_front debug f q; Ret (q, RUnit)
  | UpdateBack f => q ← update_back debug f q; Ret (q, RUnit)
  | UpdateAll f => q ← update_mut_slices debug f q; Ret (q, RUnit)
  | IsEmpty => Ret (q, RBool (is_empty q))
  | IsFull => Ret (q, RBool (is_full q))
  | Iterate bs => it ← iter debug q; Ret (q, RSeen (iterate bs it))
  end.

Fixpoint run (os : list (op T)) (q : GenericQueue S) : outcome (list (res T)) :=
  match os with
  | [] => Ret []
  | o :: os => '(q, r) ← exec o q; rs ← run os q; Ret (r :: rs)
  end.

(** The same on a sequence of at most [cap] elements. *)
Fixpoint spec_iterate (from_back : list bool) (l : list T) : list (option T) :=
  match from_back with
  | [] => []
  | true :: bs => last l :: spec_iterate bs (removelast l)
  | false :: bs => head l :: spec_iterate bs (tail l)
  end.

Definition spec_exec (cap : nat) (o : op T) (l : list T) : list T * res T :=
  match o with
  | PushBack v => if decide (length l < cap)%nat then (l ++ [v], RPushed true) else (l, RPushed false)
  | PushFront v => if decide (length l < cap)%nat then (v :: l, RPushed true) else (l, RPushed false)
  | PopFront => (tail l, ROption (head l))
  | PopBack => (removelast l, ROption (last l))
  | Clear => ([], RDropped (if needs_drop then l else []))
  | Front => (l, ROption (head l))
  | Back => (l, ROption (last l))
  | UpdateFront f => (match l with x :: l => f x :: l | [] => [] end, RUnit)
  | UpdateBack f => (match last l with Some x => removelast l ++ [f x] | None => [] end, RUnit)
  | UpdateAll f => (f <$> l, RUnit)
  | IsEmpty => (l, RBool (bool_decide (l = [])))
  | IsFull => (l, RBool (bool_decide (length l = cap)))
  | Iterate bs => (l, RSeen (spec_iterate bs l))
  end.

Fixpoint spec_run (cap : nat) (os : list (op T)) (l : list T) : list (res T) :=
  match os with
  | [] => []
  | o :: os => let '(l, r) := spec_exec cap o l in r :: spec_run cap os l
  end.

End Programs.

End RustQueue.
