(* ===== verification/RustQueueSpec.v ===== *)
(** * The queue of the Rust containers as a sequence

    The proof that [GenericQueue] refines a sequence of bounded length. *)

From S2P Require Import Prelude CppInt RustStorage RustQueue.

Local Open Scope Z_scope.

Module RustQueueSpec.
Import RustStorage RustQueue.

Lemma as_u32_id z : 0 <= z < 2 ^ 32 → as_u32 z = z.
Proof.
  intros. apply static_cast_id. unfold in_range. change (lowest uint32_t) with 0.
  change (max uint32_t) with (2 ^ 32 - 1). lia.
Qed.

Lemma length_pos {A} (l : list A) : l ≠ [] → 0 < Z.of_nat (length l).
Proof. destruct l; [done|simpl; lia]. Qed.

(** The slot of the [i]-th element. *)
Definition pos (cap f i : Z) : Z := if f + i <? cap then f + i else f + i - cap.

Ltac solve_pos := unfold pos in *; repeat case_match; reflect_bool; lia.

Section Spec.
Context {T S : Type} `{Storage T S} (valid : S → Prop) (slots : S → list (option T)).
Context {HL : StorageLaws T S valid slots}.
Variables (debug needs_drop : bool).

(** The slot [j] of a storage. *)
Definition slot (s : S) (j : Z) : option (option T) := slots s !! Z.to_nat j.

Record represents (q : GenericQueue S) (l : list T) : Prop := {
  repr_valid : valid (storage q);
  repr_front : 0 <= front_index q
    ∧ (front_index q < capacity (storage q) ∨ capacity (storage q) = 0 ∧ front_index q = 0);
  repr_len : len q = Z.of_nat (length l);
  repr_capacity : Z.of_nat (length l) <= capacity (storage q);
  repr_used i x : l !! i = Some x →
    slot (storage q) (pos (capacity (storage q)) (front_index q) (Z.of_nat i)) = Some (Some x);
  repr_free : needs_drop = true → ∀ j, 0 <= j < capacity (storage q) →
    (∀ i, 0 <= i < Z.of_nat (length l) → j ≠ pos (capacity (storage q)) (front_index q) i) →
    slot (storage q) j = Some None;
}.

(** ** Slots *)

Lemma slot_element s j o :
  valid s → 0 <= j < capacity s → slot s j = Some o → element debug s j = Ret o.
Proof using HL.
  intros Hv Hj Hs. rewrite (element_law _ _ _ Hv Hj). unfold get_unchecked.
  rewrite (capacity_slots _ Hv) in Hj.
  rewrite (proj2 (Z.leb_le _ _)), (proj2 (Z.ltb_lt _ _)) by lia. cbn. unfold slot in Hs. by rewrite Hs.
Qed.

Lemma slot_inhabited s j : valid s → 0 <= j < capacity s → ∃ o, slot s j = Some o.
Proof using HL.
  intros Hv Hj. rewrite (capacity_slots _ Hv) in Hj.
  destruct (lookup_lt_is_Some_2 (slots s) (Z.to_nat j)) as [o Ho]; [lia|]. by exists o.
Qed.

Lemma slot_update s j v :
  valid s → 0 <= j < capacity s →
  ∃ s', element_mut debug s j v = Ret s' ∧ valid s' ∧ capacity s' = capacity s
    ∧ slot s' j = Some v ∧ ∀ k, 0 <= k → k ≠ j → slot s' k = slot s k.
Proof using HL.
  intros Hv Hj. destruct (element_mut_law debug s j v Hv Hj) as (s' & E & Hv' & Hs).
  pose proof (capacity_slots s Hv) as Hc. exists s'. split_and!; [done|done| | |].
  - rewrite (capacity_slots s' Hv'), Hs, length_insert. lia.
  - unfold slot. rewrite Hs. apply list_lookup_insert_eq. lia.
  - intros k Hk Hne. unfold slot. rewrite Hs. apply list_lookup_insert_ne. lia.
Qed.

Lemma assume_init_all_some (vs : list T) : assume_init_all (Some <$> vs) = Ret vs.
Proof. induction vs as [|v vs IH]; [done|]. cbn in *. by rewrite IH. Qed.

(** A slice whose slots hold the objects [vs]. *)
Lemma slice_ok (q : GenericQueue S) a b vs :
  valid (storage q) → 0 <= a <= b → b <= capacity (storage q) →
  Z.of_nat (length vs) = b - a →
  (∀ i x, vs !! i = Some x → slot (storage q) (a + Z.of_nat i) = Some (Some x)) →
  slice debug q (a, b) = Ret vs.
Proof using HL.
  intros Hv Hab Hb Hlen Hs. unfold slice. cbn [fst snd].
  rewrite (subslice_law _ _ _ _ Hv Hab Hb). unfold subslice_unchecked.
  rewrite (capacity_slots _ Hv) in Hb.
  rewrite !(proj2 (Z.leb_le _ _)) by lia. cbn [andb mbind outcome_bind].
  rewrite <-(assume_init_all_some vs). f_equal. apply list_eq. intros i.
  rewrite list_lookup_fmap. destruct (decide (i < length vs)%nat) as [Hi|Hi].
  - destruct (lookup_lt_is_Some_2 vs i Hi) as [x Hx]. rewrite Hx.
    rewrite lookup_take_lt, lookup_drop by lia. specialize (Hs i x Hx). unfold slot in Hs.
    rewrite Z2Nat.inj_add, Nat2Z.id in Hs by lia. done.
  - rewrite lookup_take_ge by lia. by rewrite (lookup_ge_None_2 vs) by lia.
Qed.

Lemma write_slice_ok (q : GenericQueue S) g a b vs :
  valid (storage q) → 0 <= a <= b → b <= capacity (storage q) →
  Z.of_nat (length vs) = b - a → slice debug q (a, b) = Ret vs →
  ∃ s', write_slice debug g q (a, b) = Ret (set_storage s' q)
    ∧ valid s' ∧ capacity s' = capacity (storage q)
    ∧ (∀ i x, vs !! i = Some x → slot s' (a + Z.of_nat i) = Some (g x))
    ∧ ∀ k, 0 <= k → k < a ∨ b <= k → slot s' k = slot (storage q) k.
Proof using HL.
  intros Hv Hab Hb Hlen Hs. unfold write_slice. rewrite Hs. cbn [mbind outcome_bind fst snd].
  destruct (subslice_mut_law debug (storage q) a b (g <$> vs) Hv Hab Hb) as (s' & -> & Hv' & Hsl);
    [by rewrite length_fmap|].
  pose proof (capacity_slots _ Hv) as Hc.
  assert (length (take (Z.to_nat a) (slots (storage q))) = Z.to_nat a) as Ht
    by (rewrite length_take; lia).
  exists s'. split_and!; [done|done| | |].
  - rewrite (capacity_slots s' Hv'), Hsl, !length_app, length_fmap, length_drop. lia.
  - intros i x Hi. pose proof (lookup_lt_Some _ _ _ Hi). unfold slot. rewrite Hsl.
    rewrite lookup_app_r, lookup_app_l by (rewrite ?length_fmap; lia).
    rewrite list_lookup_fmap, Ht. replace (Z.to_nat (a + Z.of_nat i) - Z.to_nat a)%nat with i by lia.
    by rewrite Hi.
  - intros k Hk [Hka|Hkb]; unfold slot; rewrite Hsl.
    + rewrite lookup_app_l, lookup_take_lt by lia. done.
    + rewrite lookup_app_r, lookup_app_r, lookup_drop by (rewrite ?length_fmap; lia).
      rewrite length_fmap, Ht. f_equal. lia.
Qed.

(** ** Queries *)

Section Queries.
Context (q : GenericQueue S) (l : list T) (R : represents q l).

Local Abbreviation cap := (capacity (storage q)).
Local Abbreviation f := (front_index q).

Lemma repr_u32 : 0 <= cap < 2 ^ 32 ∧ 0 <= f < 2 ^ 32.
Proof using HL R.
  pose proof (capacity_u32 _ (repr_valid _ _ R)). pose proof (repr_front _ _ R). lia.
Qed.

Lemma pos_range i : 0 <= i < cap → 0 <= pos cap f i < cap.
Proof using HL R. pose proof (repr_front _ _ R). solve_pos. Qed.

Lemma read_at_ok i x : l !! i = Some x → read_at debug q (pos cap f (Z.of_nat i)) = Ret x.
Proof using HL R.
  intros Hx. unfold read_at. pose proof (lookup_lt_Some _ _ _ Hx). pose proof (repr_capacity _ _ R).
  rewrite (slot_element _ _ (Some x)); [done|by apply R|apply pos_range; lia|by apply R].
Qed.

Lemma front_pos : l ≠ [] → f = pos cap f (Z.of_nat 0).
Proof using HL R.
  intros Hl. apply length_pos in Hl.
  pose proof (repr_front _ _ R). pose proof (repr_capacity _ _ R). solve_pos.
Qed.

Lemma back_index_spec :
  back_index q = if decide (l = []) then None
                 else Some (pos cap f (Z.of_nat (length l) - 1)).
Proof using HL R.
  unfold back_index. rewrite (repr_len _ _ R). pose proof repr_u32. pose proof (repr_capacity _ _ R).
  case_decide as Hl; [by rewrite Hl|]. apply length_pos in Hl.
  rewrite (proj2 (Z.ltb_lt _ _)) by lia. unfold pos.
  destruct (Z.ltb_spec (f + (Z.of_nat (length l) - 1)) cap); rewrite as_u32_id by lia; done.
Qed.

Lemma front_spec : front debug q = Ret (head l).
Proof using HL R.
  unfold front. rewrite (repr_len _ _ R). destruct (head l) as [x|] eqn:E.
  - rewrite head_lookup in E. pose proof (lookup_lt_Some _ _ _ E).
    rewrite (proj2 (Z.ltb_lt _ _)) by lia. rewrite front_pos by (intros ->; done).
    by rewrite (read_at_ok 0 x).
  - apply head_None in E. by rewrite E.
Qed.

Lemma last_pos : l ≠ [] → ∃ x, last l = Some x
  ∧ read_at debug q (pos cap f (Z.of_nat (length l) - 1)) = Ret x.
Proof using HL R.
  intros Hl. destruct (last l) as [x|] eqn:E; [|by apply last_None in E]. exists x. split; [done|].
  rewrite last_lookup in E. apply read_at_ok in E. rewrite <-E. do 2 f_equal.
  apply length_pos in Hl. lia.
Qed.

Lemma back_spec : back debug q = Ret (last l).
Proof using HL R.
  unfold back. rewrite back_index_spec. case_decide as Hl; [by rewrite Hl|].
  destruct (last_pos Hl) as (x & -> & ->). done.
Qed.

(** Where the elements are: the two ranges and their elements. *)
Lemma slice_ranges_spec :
  ∃ a1 b1 a2 b2 l1 l2, slice_ranges q = ((a1, b1), (a2, b2))
    ∧ l = l1 ++ l2
    ∧ 0 <= a1 <= b1 ∧ b1 <= cap ∧ 0 <= a2 <= b2 ∧ b2 <= cap
    ∧ Z.of_nat (length l1) = b1 - a1 ∧ Z.of_nat (length l2) = b2 - a2
    ∧ (b2 <= a1 ∨ b1 <= a2)
    ∧ (∀ i, 0 <= i < Z.of_nat (length l1) → a1 + i = pos cap f i)
    ∧ (∀ i, 0 <= i < Z.of_nat (length l2) → a2 + i = pos cap f (Z.of_nat (length l1) + i)).
Proof using HL R.
  pose proof repr_u32. pose proof (repr_front _ _ R). pose proof (repr_capacity _ _ R).
  unfold slice_ranges. rewrite (repr_len _ _ R).
  destruct (Z.ltb_spec cap (f + Z.of_nat (length l))); rewrite as_u32_id by lia.
  - exists f, cap, 0, (f + Z.of_nat (length l) - cap),
      (take (Z.to_nat (cap - f)) l), (drop (Z.to_nat (cap - f)) l).
    rewrite take_drop, length_take, length_drop. split_and!; try done; try lia.
    + intros i Hi. solve_pos.
    + intros i Hi. solve_pos.
  - exists f, (f + Z.of_nat (length l)), (f + Z.of_nat (length l)), (f + Z.of_nat (length l)), l, [].
    rewrite app_nil_r. split_and!; try done; try (simpl; lia).
    intros i Hi. solve_pos.
Qed.

Lemma as_slices_spec : ∃ l1 l2, as_slices debug q = Ret (l1, l2) ∧ l = l1 ++ l2.
Proof using HL R.
  destruct slice_ranges_spec as
    (a1 & b1 & a2 & b2 & l1 & l2 & E & El & ? & ? & ? & ? & ? & ? & ? & Hp1 & Hp2).
  exists l1, l2. split; [|done]. unfold as_slices. rewrite E.
  rewrite (slice_ok q a1 b1 l1); [|by apply R|lia..|].
  - cbn [mbind outcome_bind]. rewrite (slice_ok q a2 b2 l2); [done|by apply R|lia..|].
    intros i x Hx. pose proof (lookup_lt_Some _ _ _ Hx). rewrite Hp2, <-Nat2Z.inj_add by lia.
    apply R. by rewrite El, lookup_app_r, Nat.add_comm, Nat.add_sub by lia.
  - intros i x Hx. pose proof (lookup_lt_Some _ _ _ Hx). rewrite Hp1 by lia.
    apply R. by rewrite El, lookup_app_l by lia.
Qed.

End Queries.

(** ** Updates *)

(** The storage after a change of slot [j]. *)
Definition changed (s s' : S) (j : Z) (o : option T) : Prop :=
  valid s' ∧ capacity s' = capacity s ∧ slot s' j = Some o
  ∧ ∀ k, 0 <= k → k ≠ j → slot s' k = slot s k.

Lemma write_at_ok (q : GenericQueue S) j v :
  valid (storage q) → 0 <= j < capacity (storage q) →
  (needs_drop = true → slot (storage q) j = Some None) →
  ∃ s', write_at debug needs_drop q j v = Ret (set_storage s' q)
    ∧ changed (storage q) s' j (Some v).
Proof using HL.
  intros Hv Hj Hfree. unfold write_at. destruct (slot_inhabited _ j Hv Hj) as [o Ho].
  rewrite (slot_element _ _ o Hv Hj Ho). cbn [mbind outcome_bind].
  assert (write needs_drop o v = Ret (Some v)) as ->.
  { unfold write. destruct o; [|done]. destruct needs_drop; [|done].
    rewrite Hfree in Ho; [congruence|done]. }
  cbn [mbind outcome_bind]. destruct (slot_update _ j (Some v) Hv Hj) as (s' & -> & Hs').
  by exists s'.
Qed.

Lemma move_out_ok (q : GenericQueue S) j x :
  valid (storage q) → 0 <= j < capacity (storage q) → slot (storage q) j = Some (Some x) →
  ∃ s', move_out debug q j = Ret (set_storage s' q, x) ∧ changed (storage q) s' j None.
Proof using HL.
  intros Hv Hj Hs. unfold move_out, read_at. rewrite (slot_element _ _ _ Hv Hj Hs).
  cbn [mbind outcome_bind assume_init]. destruct (slot_update _ j None Hv Hj) as (s' & -> & Hs').
  by exists s'.
Qed.

Lemma update_at_ok (q : GenericQueue S) g j x :
  valid (storage q) → 0 <= j < capacity (storage q) → slot (storage q) j = Some (Some x) →
  ∃ s', update_at debug g q j = Ret (set_storage s' q) ∧ changed (storage q) s' j (Some (g x)).
Proof using HL.
  intros Hv Hj Hs. unfold update_at, read_at. rewrite (slot_element _ _ _ Hv Hj Hs).
  cbn [mbind outcome_bind assume_init].
  destruct (slot_update _ j (Some (g x)) Hv Hj) as (s' & -> & Hs'). by exists s'.
Qed.

(** Positions of different elements are different. *)
Lemma pos_inj cap f i j :
  0 <= f → 0 <= i < cap → 0 <= j < cap → f < cap → pos cap f i = pos cap f j → i = j.
Proof using. solve_pos. Qed.

Definition same_capacity (q q' : GenericQueue S) : Prop :=
  capacity (storage q') = capacity (storage q).

Lemma push_back_ok q l v :
  represents q l → Z.of_nat (length l) < capacity (storage q) →
  ∃ q', push_back debug needs_drop v q = Ret (q', Value tt) ∧ represents q' (l ++ [v])
    ∧ same_capacity q q'.
Proof using HL.
  intros R Hlt. unfold push_back. rewrite (repr_len _ _ R), (proj2 (Z.ltb_lt _ _)) by done.
  pose proof (repr_u32 q l R) as [Hc Hf]. pose proof (repr_front _ _ R).
  set (j := pos (capacity (storage q)) (front_index q) (Z.of_nat (length l))).
  assert ((if front_index q + Z.of_nat (length l) <? capacity (storage q)
    then as_u32 (front_index q + Z.of_nat (length l))
    else as_u32 (front_index q + Z.of_nat (length l) - capacity (storage q))) = j) as ->.
  { unfold j, pos. destruct (Z.ltb_spec (front_index q + Z.of_nat (length l)) (capacity (storage q)));
      apply as_u32_id; lia. }
  rewrite u32_arith_ok by lia. cbn [mbind outcome_bind].
  assert (0 <= j < capacity (storage q)) as Hj by (apply pos_range with l; [done|lia]).
  destruct (write_at_ok (set_len (Z.of_nat (length l) + 1) q) j v) as (s' & -> & Hv & Hcap & Hs & Ho).
  - apply R.
  - exact Hj.
  - intros Hd. apply R; [done|exact Hj|]. intros i Hi. unfold j. solve_pos.
  - cbn [storage set_len] in Hcap, Ho. eexists. split; [done|]. split; [|done].
    split; cbn [storage set_storage set_len front_index len]; rewrite ?Hcap, ?length_app; cbn [length].
    + done.
    + done.
    + lia.
    + lia.
    + intros i x Hi. apply lookup_app_Some in Hi as [Hi|[Hge Hi]].
      * pose proof (lookup_lt_Some _ _ _ Hi). rewrite Ho; [by apply R| |];
          unfold j; solve_pos.
      * apply list_lookup_singleton_Some in Hi as [Hz <-].
        replace (Z.of_nat i) with (Z.of_nat (length l)) by lia. done.
    + intros Hd k Hk Hne. rewrite Ho; [|lia|apply Hne; lia]. apply R; [done|done|].
      intros i Hi. apply Hne. lia.
Qed.

Lemma push_front_ok q l v :
  represents q l → Z.of_nat (length l) < capacity (storage q) →
  ∃ q', push_front debug needs_drop v q = Ret (q', Value tt) ∧ represents q' (v :: l)
    ∧ same_capacity q q'.
Proof using HL.
  intros R Hlt. unfold push_front. rewrite (repr_len _ _ R), (proj2 (Z.ltb_lt _ _)) by done.
  pose proof (repr_u32 q l R) as [Hc Hf]. pose proof (repr_front _ _ R).
  set (cap := capacity (storage q)) in *. set (f := front_index q) in *.
  set (j := if 0 <? f then f - 1 else cap - 1).
  assert ((if 0 <? f then u32_arith debug (f - 1) else u32_arith debug (cap - 1)) = Ret j) as ->.
  { unfold j. destruct (Z.ltb_spec 0 f); apply u32_arith_ok; lia. }
  cbn [mbind outcome_bind].
  assert (0 <= j < cap ∧ ∀ i, 0 <= i → i + 1 < cap → pos cap j (i + 1) = pos cap f i) as [Hj Hp].
  { unfold j. split; [|intros]; solve_pos. }
  assert (needs_drop = true → slot (storage q) j = Some None) as Hfree.
  { intros Hd. apply R; [done|exact Hj|]. intros i Hi. fold cap f. unfold j. solve_pos. }
  destruct (write_at_ok q j v (repr_valid _ _ R) Hj Hfree) as (s' & -> & Hv & Hcap & Hs & Ho).
  cbn [mbind outcome_bind len set_storage]. rewrite (repr_len _ _ R), u32_arith_ok by lia.
  eexists. split; [done|]. split; [|done]. fold cap in Hcap.
  { split; cbn [storage set_storage set_len set_front front_index len length]; rewrite ?Hcap.
    + done.
    + lia.
    + lia.
    + lia.
    + intros i x Hi. destruct i as [|i]; cbn in Hi.
      * injection Hi as <-. replace (pos cap j (Z.of_nat 0)) with j by solve_pos. done.
      * pose proof (lookup_lt_Some _ _ _ Hi).
        replace (Z.of_nat (Datatypes.S i)) with (Z.of_nat i + 1) by lia. rewrite Hp by lia.
        rewrite Ho; [by apply R|solve_pos|]. unfold j. solve_pos.
    + intros Hd k Hk Hne. rewrite Ho; [|lia|].
      * apply R; [done|done|]. intros i Hi. fold cap f. rewrite <-Hp by lia. apply Hne. lia.
      * specialize (Hne 0). replace (pos cap j 0) with j in Hne by solve_pos. apply Hne. lia. }
Qed.

Lemma pop_front_ok q x l :
  represents q (x :: l) →
  ∃ q', pop_front debug q = Ret (q', Some x) ∧ represents q' l ∧ same_capacity q q'.
Proof using HL.
  intros R. unfold pop_front. rewrite (repr_len _ _ R), (proj2 (Z.ltb_lt _ _)) by (simpl; lia).
  pose proof (repr_u32 _ _ R) as [Hc Hf]. pose proof (repr_front _ _ R).
  pose proof (repr_capacity _ _ R) as Hlen. cbn [length] in Hlen.
  pose proof (front_pos _ _ R ltac:(done)) as Hfp. pose proof (repr_used _ _ R 0 x eq_refl) as Hx.
  rewrite <-Hfp in Hx.
  set (cap := capacity (storage q)) in *. set (f := front_index q) in *.
  destruct (move_out_ok q f x) as (s' & -> & Hv & Hcap & Hs & Ho); [apply R|fold cap; lia|done|].
  fold cap in Hcap. cbn [mbind outcome_bind len set_storage set_len storage front_index].
  rewrite (repr_len _ _ R), u32_arith_ok by (simpl; lia). cbn [mbind outcome_bind].
  cbn [mbind outcome_bind len set_storage set_len storage front_index].
  rewrite Hcap, u32_arith_ok by lia. cbn [mbind outcome_bind]. fold f.
  set (f' := if f <? cap - 1 then f + 1 else 0).
  assert (0 <= f' < cap ∧ ∀ i, 0 <= i → i + 1 < cap → pos cap f' i = pos cap f (i + 1)) as [Hf' Hp].
  { unfold f'. split; [|intros]; solve_pos. }
  assert (represents (Build_GenericQueue (Z.of_nat (length l)) f' s') l) as R'.
  { split; cbn [storage front_index len]; rewrite ?Hcap.
    - done.
    - lia.
    - done.
    - lia.
    - intros i y Hi. pose proof (lookup_lt_Some _ _ _ Hi). rewrite Hp by lia.
      rewrite Ho; [|solve_pos|solve_pos].
      replace (Z.of_nat i + 1) with (Z.of_nat (Datatypes.S i)) by lia. by apply R.
    - intros Hd k Hk Hne. destruct (decide (k = f)) as [->|Hkf]; [done|].
      rewrite Ho by lia. apply R; [done|done|]. cbn [length]. fold cap f. intros i Hi.
      destruct (decide (i = 0)) as [->|]; [change (pos cap f 0) with (pos cap f (Z.of_nat 0)); congruence|].
      replace i with (i - 1 + 1) by lia. rewrite <-Hp by lia. apply Hne. lia. }
  exists (Build_GenericQueue (Z.of_nat (length l)) f' s'). split; [|done]. unfold f'.
  cbn [length]. replace (Z.of_nat (Datatypes.S (length l)) - 1) with (Z.of_nat (length l)) by lia.
  destruct (f <? cap - 1) eqn:E; [apply Z.ltb_lt in E|]; by rewrite !u32_arith_ok by lia.
Qed.

Lemma pop_back_ok q x l :
  represents q (l ++ [x]) →
  ∃ q', pop_back debug q = Ret (q', Some x) ∧ represents q' l ∧ same_capacity q q'.
Proof using HL.
  intros R. unfold pop_back. rewrite (back_index_spec _ _ R), decide_False by (by destruct l).
  pose proof (repr_u32 _ _ R) as [Hc Hf]. pose proof (repr_front _ _ R).
  pose proof (repr_capacity _ _ R) as Hlen. rewrite (repr_len _ _ R).
  rewrite length_app in *. cbn [length] in *.
  set (cap := capacity (storage q)) in *. set (f := front_index q) in *.
  replace (Z.of_nat (length l + 1) - 1) with (Z.of_nat (length l)) by lia.
  rewrite u32_arith_ok by lia. cbn [mbind outcome_bind].
  set (j := pos cap f (Z.of_nat (length l))).
  assert (slot (storage q) j = Some (Some x)) as Hx.
  { apply R. by rewrite lookup_app_r, Nat.sub_diag by lia. }
  destruct (move_out_ok (set_len (Z.of_nat (length l)) q) j x) as (s' & -> & Hv & Hcap & Hs & Ho);
    [apply R|cbn; fold cap; unfold j; solve_pos|done|].
  cbn [storage set_len] in Hcap, Ho. fold cap in Hcap. cbn [mbind outcome_bind].
  eexists. split; [done|]. split; [|done].
  split; cbn [storage front_index len set_len set_storage]; fold f; rewrite ?Hcap.
  - done.
  - lia.
  - done.
  - lia.
  - intros i y Hi. pose proof (lookup_lt_Some _ _ _ Hi). rewrite Ho; [|solve_pos|unfold j; solve_pos].
    apply R. by rewrite lookup_app_l by lia.
  - intros Hd k Hk Hne. destruct (decide (k = j)) as [->|Hkj]; [done|].
    rewrite Ho by lia. apply R; [done|done|]. rewrite length_app. cbn [length]. fold cap f.
    intros i Hi. destruct (decide (i = Z.of_nat (length l))) as [->|]; [done|]. apply Hne. lia.
Qed.

(** A write to all elements through the two slices. *)
Lemma write_both q l g q1 :
  represents q l → storage q1 = storage q →
  ∃ r1 r2 s1 s2 l1 l2, slice_ranges q = (r1, r2) ∧ l = l1 ++ l2
    ∧ slice debug q1 r1 = Ret l1 ∧ write_slice debug g q1 r1 = Ret (set_storage s1 q1)
    ∧ slice debug (set_storage s1 q1) r2 = Ret l2
    ∧ write_slice debug g (set_storage s1 q1) r2 = Ret (set_storage s2 q1)
    ∧ valid s2 ∧ capacity s2 = capacity (storage q)
    ∧ (∀ i x, l !! i = Some x →
         slot s2 (pos (capacity (storage q)) (front_index q) (Z.of_nat i)) = Some (g x))
    ∧ (∀ k, 0 <= k →
         (∀ i, 0 <= i < Z.of_nat (length l) → k ≠ pos (capacity (storage q)) (front_index q) i) →
         slot s2 k = slot (storage q) k).
Proof using HL.
  intros R Est. destruct (slice_ranges_spec q l R) as
    (a1 & b1 & a2 & b2 & l1 & l2 & Er & El & ? & ? & ? & ? & Hl1 & Hl2 & Hdis & Hp1 & Hp2).
  pose proof (repr_valid _ _ R) as Hv.
  assert (slice debug q1 (a1, b1) = Ret l1) as E1.
  { apply slice_ok; rewrite ?Est; [done|lia..|].
    intros i x Hx. pose proof (lookup_lt_Some _ _ _ Hx). rewrite Hp1 by lia.
    apply R. by rewrite El, lookup_app_l by lia. }
  destruct (write_slice_ok q1 g a1 b1 l1) as (s1 & Ew1 & Hv1 & Hc1 & Hs1 & Ho1);
    rewrite ?Est in *; [done|lia..|done|].
  assert (slice debug (set_storage s1 q1) (a2, b2) = Ret l2) as E2.
  { apply slice_ok; cbn [storage set_storage]; [done|lia|lia|lia|].
    intros i x Hx. pose proof (lookup_lt_Some _ _ _ Hx). rewrite Ho1 by lia.
    rewrite Hp2, <-Nat2Z.inj_add by lia.
    apply R. by rewrite El, lookup_app_r, Nat.add_comm, Nat.add_sub by lia. }
  destruct (write_slice_ok (set_storage s1 q1) g a2 b2 l2) as (s2 & Ew2 & Hv2 & Hc2 & Hs2 & Ho2);
    cbn [storage set_storage] in *; [done|lia..|done|].
  exists (a1, b1), (a2, b2), s1, s2, l1, l2.
  split_and!; [done|done|done|done|done|exact Ew2|done|lia| |].
  - intros i x Hx. rewrite El in Hx. apply lookup_app_Some in Hx as [Hx|[Hge Hx]];
      pose proof (lookup_lt_Some _ _ _ Hx).
    + rewrite <-Hp1 by lia. rewrite Ho2 by lia. by apply Hs1.
    + replace (Z.of_nat i) with (Z.of_nat (length l1) + Z.of_nat (i - length l1)) by lia.
      rewrite <-Hp2 by lia. by apply Hs2.
  - intros k Hk Hne. rewrite El, length_app in Hne. rewrite Ho2, Ho1; [done|lia| |lia|].
    + destruct (decide (a1 <= k < b1)) as [Hin|]; [|lia].
      exfalso. apply (Hne (k - a1)); [lia|]. rewrite <-Hp1; lia.
    + destruct (decide (a2 <= k < b2)) as [Hin|]; [|lia].
      exfalso. apply (Hne (Z.of_nat (length l1) + (k - a2))); [lia|]. rewrite <-Hp2; lia.
Qed.

Lemma update_mut_slices_ok q l g :
  represents q l →
  ∃ q', update_mut_slices debug g q = Ret q' ∧ represents q' (g <$> l) ∧ same_capacity q q'.
Proof using HL.
  intros R. destruct (write_both q l (λ x, Some (g x)) q R eq_refl) as
    (r1 & r2 & s1 & s2 & l1 & l2 & Er & _ & _ & Ew1 & _ & Ew2 & Hv & Hc & Hs & Ho).
  unfold update_mut_slices. rewrite Er, Ew1. cbn [mbind outcome_bind]. rewrite Ew2.
  eexists. split; [done|]. split; [|done].
  destruct R as [_ Hf Hlen Hcap _ Hfree].
  split; cbn [storage front_index len set_storage]; rewrite ?Hc, ?length_fmap; [done..| |].
  - intros i x Hx. rewrite list_lookup_fmap in Hx. destruct (l !! i) as [y|] eqn:E; [|done].
    injection Hx as <-. by apply Hs.
  - intros Hd k Hk Hne. rewrite Ho by (done || lia). by apply Hfree.
Qed.

Lemma clear_ok q l :
  represents q l →
  ∃ q', clear debug needs_drop q = Ret (q', if needs_drop then l else [])
    ∧ represents q' [] ∧ same_capacity q q'.
Proof using HL.
  intros R. destruct (write_both q l (λ _, None) (Build_GenericQueue 0 0 (storage q)) R eq_refl) as
    (r1 & r2 & s1 & s2 & l1 & l2 & Er & -> & E1 & Ew1 & E2 & Ew2 & Hv & Hc & Hs & Ho).
  unfold clear. rewrite Er. pose proof (repr_u32 _ _ R).
  destruct needs_drop eqn:Hnd.
  - rewrite E1. cbn [mbind outcome_bind]. rewrite Ew1. cbn [mbind outcome_bind].
    rewrite E2. cbn [mbind outcome_bind]. rewrite Ew2. cbn [mbind outcome_bind].
    eexists. split; [done|]. split; [|done].
    split; cbn [storage front_index len set_storage length]; rewrite ?Hc; [done|lia|done|lia|done|].
    intros _ k Hk _. set (cap := capacity (storage q)) in *. set (f := front_index q) in *.
    pose proof (repr_front _ _ R) as Hf. fold cap f in Hf.
    set (i := if f <=? k then k - f else k + cap - f).
    assert (k = pos cap f i ∧ 0 <= i) as [Hki Hi0] by (unfold i; solve_pos).
    destruct (decide (i < Z.of_nat (length (l1 ++ l2)))) as [Hi|Hi].
    + destruct (lookup_lt_is_Some_2 (l1 ++ l2) (Z.to_nat i)) as [x Hx]; [lia|].
      specialize (Hs _ _ Hx). rewrite Z2Nat.id in Hs by lia. by rewrite Hki.
    + assert (∀ i', 0 <= i' < Z.of_nat (length (l1 ++ l2)) → k ≠ pos cap f i') as Hne.
      { pose proof (repr_capacity _ _ R) as Hl. fold cap in Hl. intros i' Hi'. unfold i in Hi. solve_pos. }
      rewrite Ho by (done || lia). by apply R.
  - eexists. split; [done|]. split; [|done]. pose proof (repr_valid _ _ R).
    split; cbn [storage front_index len length]; [done|lia|done|lia|done|congruence].
Qed.

Lemma update_front_ok q l g :
  represents q l →
  ∃ q', update_front debug g q = Ret q'
    ∧ represents q' (match l with x :: l => g x :: l | [] => [] end) ∧ same_capacity q q'.
Proof using HL.
  intros R. unfold update_front. rewrite (repr_len _ _ R). destruct l as [|x l]; [by exists q|].
  rewrite (proj2 (Z.ltb_lt _ _)) by (simpl; lia).
  pose proof (front_pos _ _ R ltac:(done)) as Hfp. pose proof (repr_used _ _ R 0 x eq_refl) as Hx.
  rewrite <-Hfp in Hx. pose proof (repr_front _ _ R). pose proof (repr_capacity _ _ R) as Hlen.
  cbn [length] in Hlen.
  destruct (update_at_ok q g (front_index q) x) as (s' & -> & Hv & Hc & Hs & Ho);
    [apply R|lia|done|].
  eexists. split; [done|]. split; [|done]. destruct R as [_ Hf Hl Hcap Hused Hfree].
  split; cbn [storage front_index len set_storage length]; rewrite ?Hc; [done..| |].
  - intros [|i] y Hy; cbn in Hy.
    + injection Hy as <-. by rewrite <-Hfp.
    + pose proof (lookup_lt_Some _ _ _ Hy). rewrite Ho; [by apply Hused|solve_pos|solve_pos].
  - intros Hd k Hk Hne. rewrite Ho; [by apply Hfree|lia|]. intros ->.
    apply (Hne (Z.of_nat 0)); [simpl; lia|done].
Qed.

Lemma update_back_ok q l g :
  represents q l →
  ∃ q', update_back debug g q = Ret q'
    ∧ represents q' (match last l with Some x => removelast l ++ [g x] | None => [] end)
    ∧ same_capacity q q'.
Proof using HL.
  intros R. unfold update_back. rewrite (back_index_spec _ _ R).
  destruct l as [|x l _] using rev_ind; [by exists q|].
  rewrite decide_False by (by destruct l). rewrite last_snoc, removelast_last.
  pose proof (repr_front _ _ R). pose proof (repr_capacity _ _ R) as Hlen.
  rewrite length_app in *. cbn [length] in *.
  replace (Z.of_nat (length l + 1) - 1) with (Z.of_nat (length l)) by lia.
  set (j := pos (capacity (storage q)) (front_index q) (Z.of_nat (length l))).
  assert (slot (storage q) j = Some (Some x)) as Hx.
  { apply R. by rewrite lookup_app_r, Nat.sub_diag by lia. }
  destruct (update_at_ok q g j x) as (s' & -> & Hv & Hc & Hs & Ho);
    [apply R|unfold j; solve_pos|done|].
  eexists. split; [done|]. split; [|done]. destruct R as [_ Hf Hl Hcap Hused Hfree].
  split; cbn [storage front_index len set_storage]; rewrite ?length_app in *;
    cbn [length] in *; rewrite ?Hc; [done..| |].
  - intros i y Hy. apply lookup_app_Some in Hy as [Hy|[Hge Hy]].
    + pose proof (lookup_lt_Some _ _ _ Hy). rewrite Ho; [|solve_pos|unfold j; solve_pos].
      apply Hused. by rewrite lookup_app_l by lia.
    + apply list_lookup_singleton_Some in Hy as [Hz <-].
      replace (Z.of_nat i) with (Z.of_nat (length l)) by lia. done.
  - intros Hd k Hk Hne. rewrite Ho; [by apply Hfree|lia|]. apply Hne. lia.
Qed.

(** ** Iteration *)

Lemma next_spec (it : Iter T) :
  (next it).1 = head (first it ++ second it)
  ∧ first (next it).2 ++ second (next it).2 = tail (first it ++ second it).
Proof using. destruct it as [[|x l1] [|y l2]]; cbn; rewrite ?app_nil_r; done. Qed.

Lemma next_back_spec (it : Iter T) :
  (next_back it).1 = last (first it ++ second it)
  ∧ first (next_back it).2 ++ second (next_back it).2 = removelast (first it ++ second it).
Proof using.
  destruct it as [l1 l2]. unfold next_back, slice_next_back. cbn [first second].
  destruct l2 as [|y l2 _] using rev_ind.
  - cbn [last]. rewrite app_nil_r. destruct l1 as [|x l1 _] using rev_ind; [done|].
    by rewrite last_snoc.
  - rewrite last_snoc. cbn [fst snd first second].
    rewrite app_assoc, last_snoc, !removelast_last. done.
Qed.

Lemma iterate_spec bs (it : Iter T) :
  iterate bs it = spec_iterate bs (first it ++ second it).
Proof using.
  revert it. induction bs as [|[] bs IH]; intros it; cbn [iterate spec_iterate]; [done|..].
  - destruct (next_back_spec it) as [H1 H2]. destruct (next_back it) as [x it'].
    cbn in *. by rewrite IH, H1, H2.
  - destruct (next_spec it) as [H1 H2]. destruct (next it) as [x it']. cbn in *. by rewrite IH, H1, H2.
Qed.

(** ** Every operation *)

Lemma queue_exec_refines q l o :
  represents q l →
  ∃ q', exec debug needs_drop o q =
          Ret (q', (spec_exec needs_drop (Z.to_nat (capacity (storage q))) o l).2)
    ∧ represents q' (spec_exec needs_drop (Z.to_nat (capacity (storage q))) o l).1
    ∧ same_capacity q q'.
Proof using HL.
  intros R. pose proof (repr_capacity _ _ R). destruct o; cbn [exec spec_exec].
  - case_decide as Hlt.
    + destruct (push_back_ok q l v R) as (q' & -> & ?); [lia|]. by exists q'.
    + unfold push_back. rewrite (repr_len _ _ R), (proj2 (Z.ltb_ge _ _)) by lia. by exists q.
  - case_decide as Hlt.
    + destruct (push_front_ok q l v R) as (q' & -> & ?); [lia|]. by exists q'.
    + unfold push_front. rewrite (repr_len _ _ R), (proj2 (Z.ltb_ge _ _)) by lia. by exists q.
  - destruct l as [|x l].
    + unfold pop_front. rewrite (repr_len _ _ R). by exists q.
    + destruct (pop_front_ok q x l R) as (q' & -> & ?). by exists q'.
  - destruct l as [|x l _] using rev_ind.
    + unfold pop_back. rewrite (back_index_spec _ _ R). by exists q.
    + destruct (pop_back_ok q x l R) as (q' & -> & ?). exists q'.
      by rewrite last_snoc, removelast_last.
  - destruct (clear_ok q l R) as (q' & -> & ?). by exists q'.
  - rewrite (front_spec q l R). by exists q.
  - rewrite (back_spec q l R). by exists q.
  - destruct (update_front_ok q l f R) as (q' & -> & ?). by exists q'.
  - destruct (update_back_ok q l f R) as (q' & -> & ?). by exists q'.
  - destruct (update_mut_slices_ok q l f R) as (q' & -> & ?). by exists q'.
  - exists q. unfold is_empty. rewrite (repr_len _ _ R). by destruct l.
  - exists q. split_and!; [|done..]. unfold is_full, queue_capacity. rewrite (repr_len _ _ R).
    pose proof (repr_u32 q l R). cbn [snd]. do 3 f_equal. case_bool_decide.
    + apply Z.eqb_eq. lia.
    + apply Z.eqb_neq. lia.
  - destruct (as_slices_spec q l R) as (l1 & l2 & E & ->). unfold iter. rewrite E. exists q.
    cbn. by rewrite iterate_spec.
Qed.

Lemma queue_run_refines q l os :
  represents q l →
  run debug needs_drop os q
    = Ret (spec_run needs_drop (Z.to_nat (capacity (storage q))) os l).
Proof using HL.
  revert q l. induction os as [|o os IH]; intros q l R; cbn [run spec_run]; [done|].
  destruct (queue_exec_refines q l o R) as (q' & -> & R' & Hc). cbn [mbind outcome_bind].
  rewrite (IH q' _ R'), Hc. by destruct (spec_exec _ _ _ _).
Qed.

Lemma new_represents s :
  valid s → (∀ j, 0 <= j < capacity s → slot s j = Some None) → represents (new s) [].
Proof using HL.
  intros Hv Hs. pose proof (capacity_u32 _ Hv).
  split; cbn [new storage front_index len length]; [done|lia|done|lia|done|auto].
Qed.

End Spec.

(** C4: Every program that uses a queue on the heap or with inline storage gets
    the results of a sequence with at most [cap] elements: it never panics,
    never leaves the storage, and drops every element once. *)
Theorem queue_refines {T} debug needs_drop size_of align_of allocate cap (os : list (op T)) :
  0 <= cap < 2 ^ 32 →
  (∀ h, heap_try_new size_of align_of allocate cap = Some h →
     run debug needs_drop os (new h) = Ret (spec_run needs_drop (Z.to_nat cap) os []))
  ∧ (check_capacity cap = true →
     run debug needs_drop os (new (inline_new cap))
       = Ret (spec_run needs_drop (Z.to_nat cap) os [])).
Proof.
  intros Hcap. split.
  - intros h Hh. destruct (heap_try_new_spec _ _ _ _ _ Hcap Hh) as (Hv & Hc & He & _).
    rewrite (queue_run_refines heap_valid heap_elements debug needs_drop (new h) [] os).
    + cbn. by rewrite Hc.
    + apply new_represents; [apply _|exact Hv|]. intros j Hj. unfold slot. cbn in Hj. rewrite He.
      apply lookup_replicate_2. lia.
  - intros Hck. destruct (inline_new_valid (T := T) cap Hck) as [Hv Hc].
    rewrite (queue_run_refines inline_valid inline_elements debug needs_drop (new (inline_new cap)) [] os).
    + cbn. by rewrite Hc.
    + apply new_represents; [apply _|exact Hv|]. intros j Hj. unfold slot. cbn in Hj. rewrite Hc in Hj.
      apply lookup_replicate_2. lia.
Qed.

(** A program that goes around the end of the array, from both sides. *)
Definition sample_program : list (op nat) :=
  [PushBack 1; PushBack 2; PopFront; PushBack 3; PushFront 4; PushBack 5; Iterate [true; false; true; true];
   PopBack; UpdateAll S; Front; Back; Clear; IsEmpty]%nat.

Lemma queue_refines_witness :
  (∀ h, heap_try_new 8 8 (λ _ _, true) 3 = Some h →
     run true true sample_program (new h) = Ret (spec_run true 3 sample_program []))
  ∧ (check_capacity 3 = true →
     run true true sample_program (new (inline_new 3)) = Ret (spec_run true 3 sample_program [])).
Proof. apply (queue_refines true true 8 8 (λ _ _, true) 3 sample_program). lia. Defined.

End RustQueueSpec.
