(* ===== verification/RustVec.v ===== *)
(** * Vector and string of the Rust containers: containers_rust/generic

    [GenericVec] (vec.rs) keeps its elements in the first slots of a storage.
    [GenericString] (string.rs) is a vector of bytes in UTF-8; a [char] is its
    code point, a [Z].  Both are generic over the storage, as the queue.
    [string_refines] says that any sequence of calls gives the results of a
    list of characters whose encoding is at most as long as the capacity. *)

From S2P Require Import Prelude CppInt RustStorage RustQueue RustQueueSpec.

Local Open Scope Z_scope.

Module RustVec.
Import RustStorage RustQueue.

Record GenericVec (S : Type) := { vec_len : Z; vec_storage : S }.
Arguments Build_GenericVec {S}.
Arguments vec_len {S}.
Arguments vec_storage {S}.

Section Vec.
Context {T S : Type} `{Storage T S}.
Variables (debug needs_drop : bool).

Local Abbreviation vec := (GenericVec S).

Definition vec_new (s : S) : vec := Build_GenericVec 0 s.

Definition as_slice (v : vec) : outcome (list T) :=
  l ← subslice debug (vec_storage v) 0 (vec_len v); assume_init_all l.

Definition vec_capacity (v : vec) : Z := capacity (vec_storage v).

Definition push (x : T) (v : vec) : outcome (vec * expected InsufficientCapacity unit) :=
  if vec_len v <? capacity (vec_storage v) then
    old ← element debug (vec_storage v) (vec_len v);
    new ← write needs_drop old x;
    s ← element_mut debug (vec_storage v) (vec_len v) new;
    n ← u32_arith debug (vec_len v + 1);
    Ret (Build_GenericVec n s, Value tt)
  else Ret (v, Unexpected insufficient_capacity).

Definition pop (v : vec) : outcome (vec * option T) :=
  if 0 <? vec_len v then
    i ← u32_arith debug (vec_len v - 1);
    slot ← element debug (vec_storage v) i;
    x ← assume_init slot;
    s ← element_mut debug (vec_storage v) i None;
    n ← u32_arith debug (vec_len v - 1);
    Ret (Build_GenericVec n s, Some x)
  else Ret (v, None).

Definition vec_clear (v : vec) : outcome (vec * list T) :=
  if needs_drop then
    l ← as_slice v;
    s ← subslice_mut debug (vec_storage v) 0 (vec_len v) ((λ _, None) <$> l);
    Ret (Build_GenericVec 0 s, l)
  else Ret (Build_GenericVec 0 (vec_storage v), []).

Definition set_vec_len (new_len : Z) (v : vec) : outcome vec :=
  debug_assert debug (new_len <=? vec_capacity v)
  (Ret (Build_GenericVec (as_u32 new_len) (vec_storage v))).

(** For types that are [Copy], which need no drop. *)
Definition extend_from_slice (other : list T) (v : vec) :
    outcome (vec * expected InsufficientCapacity unit) :=
  let new_len := vec_len v + Z.of_nat (length other) in
  if max uint64_t <? new_len then Ret (v, Unexpected insufficient_capacity)
  else if new_len <=? vec_capacity v then
    let new_len := as_u32 new_len in
    s ← subslice_mut debug (vec_storage v) (vec_len v) new_len (Some <$> other);
    Ret (Build_GenericVec new_len s, Value tt)
  else Ret (v, Unexpected insufficient_capacity).

End Vec.

(** ** UTF-8, as [char::encode_utf8] and [Chars::next_back] have it *)

Definition len_utf8 (c : Z) : Z :=
  if c <? 128 then 1 else if c <? 2048 then 2 else if c <? 65536 then 3 else 4.

Definition encode_utf8 (c : Z) : list Z :=
  if c <? 128 then [c]
  else if c <? 2048 then
    [Z.lor (Z.land (Z.shiftr c 6) 31) 192; Z.lor (Z.land c 63) 128]
  else if c <? 65536 then
    [Z.lor (Z.land (Z.shiftr c 12) 15) 224; Z.lor (Z.land (Z.shiftr c 6) 63) 128;
     Z.lor (Z.land c 63) 128]
  else
    [Z.lor (Z.land (Z.shiftr c 18) 7) 240; Z.lor (Z.land (Z.shiftr c 12) 63) 128;
     Z.lor (Z.land (Z.shiftr c 6) 63) 128; Z.lor (Z.land c 63) 128].

Definition utf8_is_cont_byte (b : Z) : bool := Z.land b 192 =? 128.
Definition utf8_first_byte (b width : Z) : Z := Z.land b (Z.shiftr 127 width).
Definition utf8_acc_cont_byte (ch b : Z) : Z := Z.lor (Z.shiftl ch 6) (Z.land b 63).

(** The last character; the bytes are given in reverse.  A text that ends in
    the middle of a character is not UTF-8. *)
Definition next_code_point_reverse (bytes : list Z) : outcome (option Z) :=
  match bytes with
  | [] => Ret None
  | w :: bytes =>
      if w <? 128 then Ret (Some w) else
      match bytes with
      | [] => Undefined
      | z :: bytes =>
          if utf8_is_cont_byte z then
            match bytes with
            | [] => Undefined
            | y :: bytes =>
                if utf8_is_cont_byte y then
                  match bytes with
                  | [] => Undefined
                  | x :: _ =>
                      let ch := utf8_acc_cont_byte (utf8_first_byte x 4) y in
                      Ret (Some (utf8_acc_cont_byte (utf8_acc_cont_byte ch z) w))
                  end
                else
                  Ret (Some (utf8_acc_cont_byte (utf8_acc_cont_byte (utf8_first_byte y 3) z) w))
            end
          else Ret (Some (utf8_acc_cont_byte (utf8_first_byte z 2) w))
      end
  end.

Section String.
Context {S : Type} `{Storage Z S}.
Variables (debug : bool).

(** [GenericString] is a vector of bytes, which are [Copy]. *)
Local Abbreviation string := (GenericVec S).

Definition push_str (other : list Z) (s : string) :
    outcome (string * expected InsufficientCapacity unit) :=
  extend_from_slice debug other s.

Definition push_char (ch : Z) (s : string) :
    outcome (string * expected InsufficientCapacity unit) :=
  push_str (encode_utf8 ch) s.

Definition pop_char (s : string) : outcome (string * option Z) :=
  bytes ← as_slice debug s;
  ch ← next_code_point_reverse (rev bytes);
  match ch with
  | None => Ret (s, None)
  | Some ch =>
      let new_len := vec_len s - len_utf8 ch in
      s ← set_vec_len debug new_len s;
      Ret (s, Some ch)
  end.

Definition string_clear (s : string) : outcome string :=
  '(s, _) ← vec_clear debug false s; Ret s.

End String.

(** ** Integers from bits *)

Lemma shiftl_lor a b k :
  0 <= k → 0 <= b < 2 ^ k → Z.lor (Z.shiftl a k) b = a * 2 ^ k + b.
Proof.
  intros Hk Hb. rewrite <-Z.shiftl_mul_pow2 by done. symmetry.
  assert (Z.land (Z.shiftl a k) b = 0) as Hl.
  { apply Z.bits_inj'. intros n Hn. rewrite Z.land_spec, Z.bits_0, Z.shiftl_spec by done.
    destruct (decide (n < k)).
    - by rewrite Z.testbit_neg_r by lia.
    - rewrite <-(Z.mod_small b (2 ^ k)) by done. rewrite Z.mod_pow2_bits_high by lia.
      apply andb_false_r. }
  rewrite Z.add_nocarry_lxor by done. by apply Z.lxor_lor.
Qed.

(** The marks of the bytes: [mark] is a multiple of [2 ^ k]. *)
Lemma lor_mark x m k : 0 <= k → 0 <= x < 2 ^ k → Z.lor x (m * 2 ^ k) = m * 2 ^ k + x.
Proof.
  intros Hk Hx. rewrite Z.lor_comm, <-Z.shiftl_mul_pow2 by done.
  rewrite shiftl_lor, Z.shiftl_mul_pow2; lia.
Qed.

Lemma land_mod x k : 0 <= k → Z.land x (Z.ones k) = x mod 2 ^ k.
Proof. intros. by apply Z.land_ones. Qed.

Lemma shiftr_div x k : 0 <= k → Z.shiftr x k = x / 2 ^ k.
Proof. intros. by apply Z.shiftr_div_pow2. Qed.

(** The encoding with division and remainder. *)
Lemma encode_utf8_arith c :
  0 <= c < 1114112 →
  encode_utf8 c =
    if c <? 128 then [c]
    else if c <? 2048 then [192 + c / 64; 128 + c mod 64]
    else if c <? 65536 then [224 + c / 4096; 128 + c / 64 mod 64; 128 + c mod 64]
    else [240 + c / 262144; 128 + c / 4096 mod 64; 128 + c / 64 mod 64; 128 + c mod 64].
Proof.
  intros Hc. unfold encode_utf8. rewrite !shiftr_div by lia.
  change (2 ^ 6) with 64. change (2 ^ 12) with 4096. change (2 ^ 18) with 262144.
  assert (∀ x, Z.lor (Z.land x 63) 128 = 128 + x mod 64) as Hcont.
  { intros x. change 63 with (Z.ones 6). rewrite land_mod by lia.
    change 128 with (2 * 2 ^ 6) at 1. rewrite lor_mark; [done|lia|]. apply Z.mod_pos_bound. lia. }
  rewrite !Hcont. repeat case_match; reflect_bool; [done|..]; f_equal.
  - change 31 with (Z.ones 5). rewrite land_mod by lia. change 192 with (6 * 2 ^ 5) at 1.
    assert (0 <= c / 64 < 32) by (split; [apply Z.div_pos|apply Z.div_lt_upper_bound]; lia).
    rewrite (Z.mod_small (c / 64)) by (change (2 ^ 5) with 32; lia). rewrite lor_mark; [done|lia..].
  - change 15 with (Z.ones 4). rewrite land_mod by lia. change 224 with (14 * 2 ^ 4) at 1.
    assert (0 <= c / 4096 < 16) by (split; [apply Z.div_pos|apply Z.div_lt_upper_bound]; lia).
    rewrite (Z.mod_small (c / 4096)) by (change (2 ^ 4) with 16; lia). rewrite lor_mark; [done|lia..].
  - change 7 with (Z.ones 3). rewrite land_mod by lia. change 240 with (30 * 2 ^ 3) at 1.
    assert (0 <= c / 262144 < 8) by (split; [apply Z.div_pos|apply Z.div_lt_upper_bound]; lia).
    rewrite (Z.mod_small (c / 262144)) by (change (2 ^ 3) with 8; lia). rewrite lor_mark; [done|lia..].
Qed.

(** ** Decoding *)

Lemma is_cont_byte_range b :
  0 <= b < 256 → utf8_is_cont_byte b = (128 <=? b) && (b <? 192).
Proof.
  intros Hb.
  assert (forallb (λ n, Bool.eqb (utf8_is_cont_byte (Z.of_nat n))
    ((128 <=? Z.of_nat n) && (Z.of_nat n <? 192))) (seq 0 256) = true) as Hall by done.
  rewrite forallb_forall in Hall. specialize (Hall (Z.to_nat b)).
  rewrite Z2Nat.id in Hall by lia. apply eqb_prop, Hall, in_seq. lia.
Qed.

Lemma first_byte_mod b :
  utf8_first_byte b 2 = b mod 32 ∧ utf8_first_byte b 3 = b mod 16 ∧ utf8_first_byte b 4 = b mod 8.
Proof.
  unfold utf8_first_byte. change (Z.shiftr 127 2) with (Z.ones 5).
  change (Z.shiftr 127 3) with (Z.ones 4). change (Z.shiftr 127 4) with (Z.ones 3).
  by rewrite !land_mod by lia.
Qed.

Lemma acc_cont_byte_arith ch b : utf8_acc_cont_byte ch b = ch * 64 + b mod 64.
Proof.
  unfold utf8_acc_cont_byte. change 63 with (Z.ones 6). rewrite land_mod by lia.
  rewrite shiftl_lor; [done|lia|]. apply Z.mod_pos_bound. lia.
Qed.

(** A Unicode scalar value. *)
Definition is_char (c : Z) : bool :=
  (0 <=? c) && (c <? 1114112) && negb ((55296 <=? c) && (c <? 57344)).

Lemma is_char_range c : is_char c = true → 0 <= c < 1114112.
Proof. unfold is_char. intros. reflect_bool. lia. Qed.

Lemma length_encode_utf8 c : Z.of_nat (length (encode_utf8 c)) = len_utf8 c.
Proof. unfold encode_utf8, len_utf8. by repeat case_match. Qed.

(** The last character of an encoded text is decoded as it was encoded. *)
Lemma decode_last c bytes :
  0 <= c < 1114112 → next_code_point_reverse (rev (encode_utf8 c) ++ bytes) = Ret (Some c).
Proof.
  intros Hc. rewrite encode_utf8_arith by done. destruct (Z.ltb_spec c 128) as [Hc1|Hc1].
  { cbn. by rewrite (proj2 (Z.ltb_lt _ _)). }
  pose proof (Z.mod_pos_bound c 64 ltac:(lia)). pose proof (Z.mod_pos_bound (c / 64) 64 ltac:(lia)).
  pose proof (Z.mod_pos_bound (c / 4096) 64 ltac:(lia)).
  destruct (Z.ltb_spec c 2048) as [Hc2|Hc2]; [|destruct (Z.ltb_spec c 65536) as [Hc3|Hc3]];
    cbn [rev app next_code_point_reverse];
    rewrite (proj2 (Z.ltb_ge (128 + c mod 64) 128)) by lia;
    rewrite ?is_cont_byte_range by (Z.div_mod_to_equations; lia);
    rewrite ?acc_cont_byte_arith.
  - rewrite (proj2 (Z.ltb_ge (192 + c / 64) 192)) by (Z.div_mod_to_equations; lia).
    rewrite andb_false_r. rewrite (proj1 (first_byte_mod _)).
    do 2 f_equal. Z.div_mod_to_equations; lia.
  - rewrite (proj2 (Z.leb_le 128 (128 + c / 64 mod 64))), (proj2 (Z.ltb_lt (128 + c / 64 mod 64) 192)) by lia.
    rewrite (proj2 (Z.ltb_ge (224 + c / 4096) 192)) by (Z.div_mod_to_equations; lia).
    rewrite andb_false_r. cbn [andb]. rewrite (proj1 (proj2 (first_byte_mod _))).
    do 2 f_equal. Z.div_mod_to_equations; lia.
  - rewrite (proj2 (Z.leb_le 128 (128 + c / 64 mod 64))), (proj2 (Z.ltb_lt (128 + c / 64 mod 64) 192)) by lia.
    rewrite (proj2 (Z.leb_le 128 (128 + c / 4096 mod 64))), (proj2 (Z.ltb_lt (128 + c / 4096 mod 64) 192)) by lia.
    cbn [andb]. rewrite (proj2 (proj2 (first_byte_mod _))).
    do 2 f_equal. Z.div_mod_to_equations; lia.
Qed.

(** ** The vector as a sequence *)

Section VecSpec.
Context {T S : Type} `{Storage T S} (valid : S → Prop) (slots : S → list (option T)).
Context {HL : StorageLaws T S valid slots}.
Variables (debug needs_drop : bool).
Local Abbreviation slot := (RustQueueSpec.slot slots).

Record vec_represents (v : GenericVec S) (l : list T) : Prop := {
  vrepr_valid : valid (vec_storage v);
  vrepr_len : vec_len v = Z.of_nat (length l);
  vrepr_capacity : Z.of_nat (length l) <= capacity (vec_storage v);
  vrepr_used i x : l !! i = Some x → slot (vec_storage v) (Z.of_nat i) = Some (Some x);
  vrepr_free : needs_drop = true → ∀ j, Z.of_nat (length l) <= j < capacity (vec_storage v) →
    slot (vec_storage v) j = Some None;
}.

Definition same_vec_capacity (v v' : GenericVec S) : Prop :=
  capacity (vec_storage v') = capacity (vec_storage v).

Lemma as_slice_ok v l : vec_represents v l → as_slice debug v = Ret l.
Proof using HL.
  intros R. unfold as_slice. rewrite (vrepr_len _ _ R).
  apply (RustQueueSpec.slice_ok valid slots debug
    (Build_GenericQueue 0 0 (vec_storage v)) 0 (Z.of_nat (length l)) l);
    [apply R|lia|apply R|lia|]. intros i x Hx. by apply R.
Qed.

Lemma push_ok v l x :
  vec_represents v l → Z.of_nat (length l) < capacity (vec_storage v) →
  ∃ v', push debug needs_drop x v = Ret (v', Value tt) ∧ vec_represents v' (l ++ [x])
    ∧ same_vec_capacity v v'.
Proof using HL.
  intros R Hlt. unfold push. rewrite (vrepr_len _ _ R), (proj2 (Z.ltb_lt _ _)) by done.
  pose proof (capacity_u32 _ (vrepr_valid _ _ R)).
  destruct (RustQueueSpec.write_at_ok valid slots debug needs_drop
    (Build_GenericQueue 0 0 (vec_storage v)) (Z.of_nat (length l)) x)
    as (s' & Hw & Hv & Hc & Hs & Ho);
    [apply R|cbn; lia|intros Hd; apply R; [done|lia]|].
  unfold write_at in Hw. cbn [storage] in *.
  destruct (element debug (vec_storage v) (Z.of_nat (length l))) as [o| |]; simplify_eq/=.
  destruct (write needs_drop o x) as [o'| |]; simplify_eq/=.
  destruct (element_mut debug (vec_storage v) (Z.of_nat (length l)) o') as [s''| |]; simplify_eq/=.
  rewrite u32_arith_ok by lia. eexists. split; [done|]. split; [|done].
  split; cbn [vec_storage vec_len]; rewrite ?length_app; cbn [length]; [done|lia|lia|..].
  - intros i y Hy. apply lookup_app_Some in Hy as [Hy|[Hge Hy]].
    + pose proof (lookup_lt_Some _ _ _ Hy). rewrite Ho by lia. by apply R.
    + apply list_lookup_singleton_Some in Hy as [Hz <-].
      replace (Z.of_nat i) with (Z.of_nat (length l)) by lia. done.
  - intros Hd j Hj. rewrite Ho by lia. apply R; [done|lia].
Qed.

Lemma pop_ok v l x :
  vec_represents v (l ++ [x]) →
  ∃ v', pop debug v = Ret (v', Some x) ∧ vec_represents v' l ∧ same_vec_capacity v v'.
Proof using HL.
  intros R. unfold pop. rewrite (vrepr_len _ _ R).
  pose proof (capacity_u32 _ (vrepr_valid _ _ R)). pose proof (vrepr_capacity _ _ R) as Hcap.
  rewrite length_app in *. cbn [length] in *.
  rewrite (proj2 (Z.ltb_lt _ _)) by lia.
  replace (Z.of_nat (length l + 1) - 1) with (Z.of_nat (length l)) by lia.
  rewrite u32_arith_ok by lia. cbn [mbind outcome_bind].
  destruct (RustQueueSpec.move_out_ok valid slots debug
    (Build_GenericQueue 0 0 (vec_storage v)) (Z.of_nat (length l)) x)
    as (s' & Hw & Hv & Hc & Hs & Ho);
    [apply R|cbn; lia|apply R; by rewrite lookup_app_r, Nat.sub_diag by lia|].
  unfold move_out, read_at in Hw. cbn [storage] in *.
  destruct (element debug (vec_storage v) (Z.of_nat (length l))) as [o| |]; simplify_eq/=.
  destruct (assume_init o) as [o'| |]; simplify_eq/=.
  destruct (element_mut debug (vec_storage v) (Z.of_nat (length l)) None) as [s''| |]; simplify_eq/=.
  eexists. split; [done|]. split; [|done].
  split; cbn [vec_storage vec_len]; [done|done|lia|..].
  - intros i y Hy. pose proof (lookup_lt_Some _ _ _ Hy). rewrite Ho by lia.
    apply R. by rewrite lookup_app_l by lia.
  - intros Hd j Hj. destruct (decide (j = Z.of_nat (length l))) as [->|]; [done|].
    rewrite Ho by lia. apply R; [done|]. rewrite length_app. cbn [length]. lia.
Qed.

Lemma vec_clear_ok v l :
  vec_represents v l →
  ∃ v', vec_clear debug needs_drop v = Ret (v', if needs_drop then l else [])
    ∧ vec_represents v' [] ∧ same_vec_capacity v v'.
Proof using HL.
  intros R. unfold vec_clear. pose proof (vrepr_capacity _ _ R). destruct needs_drop eqn:Hnd.
  - rewrite (as_slice_ok v l) by (by rewrite Hnd in R || done). cbn [mbind outcome_bind].
    destruct (RustQueueSpec.write_slice_ok valid slots debug
      (Build_GenericQueue 0 0 (vec_storage v)) (λ _, None) 0 (Z.of_nat (length l)) l)
      as (s' & Hw & Hv & Hc & Hs & Ho); [apply R|lia|apply R|lia|..].
    { rewrite <-(as_slice_ok v l R). unfold as_slice. by rewrite (vrepr_len _ _ R). }
    pose proof (as_slice_ok v l R) as Hsl.
    unfold write_slice, as_slice in *. unfold slice in Hw. rewrite (vrepr_len _ _ R) in *.
    cbn [storage fst snd] in *.
    rewrite Hsl in Hw. cbn [mbind outcome_bind] in Hw.
    destruct (subslice_mut debug (vec_storage v) 0 (Z.of_nat (length l)) _) as [s''| |]; simplify_eq/=.
    eexists. split; [done|]. split; [|done].
    split; cbn [vec_storage vec_len length]; [done|done|lia|done|].
    intros _ j Hj. destruct (decide (j < Z.of_nat (length l))).
    + destruct (lookup_lt_is_Some_2 l (Z.to_nat j)) as [x Hx]; [lia|].
      specialize (Hs _ _ Hx). rewrite Z2Nat.id in Hs by lia. done.
    + rewrite Ho by lia. apply R; [done|lia].
  - eexists. split; [done|]. split; [|done]. pose proof (vrepr_valid _ _ R).
    split; cbn [vec_storage vec_len length]; [done|done|lia|done|congruence].
Qed.

Lemma vec_new_represents s :
  valid s → (∀ j, 0 <= j < capacity s → slot s j = Some None) → vec_represents (vec_new s) [].
Proof using HL.
  intros Hv Hs. pose proof (capacity_u32 _ Hv).
  split; cbn [vec_new vec_storage vec_len length]; [done|done|lia|done|auto].
Qed.

(** Elements that are [Copy] need no drop. *)
Lemma extend_from_slice_ok v l other :
  needs_drop = false → vec_represents v l →
  Z.of_nat (length l) + Z.of_nat (length other) <= capacity (vec_storage v) →
  ∃ v', extend_from_slice debug other v = Ret (v', Value tt) ∧ vec_represents v' (l ++ other)
    ∧ same_vec_capacity v v'.
Proof using HL.
  intros Hnd R Hle. unfold extend_from_slice, vec_capacity. rewrite (vrepr_len _ _ R).
  pose proof (vrepr_valid _ _ R) as Hv. pose proof (capacity_u32 _ Hv).
  change (max uint64_t) with (2 ^ 64 - 1). rewrite (proj2 (Z.ltb_ge _ _)) by lia.
  rewrite (proj2 (Z.leb_le _ _)), RustQueueSpec.as_u32_id by lia.
  set (n := Z.of_nat (length l)) in *. set (k := Z.of_nat (length other)) in *.
  destruct (subslice_mut_law debug (vec_storage v) n (n + k) (Some <$> other) Hv)
    as (s' & -> & Hv' & Hs); [lia|lia|rewrite length_fmap; lia|].
  pose proof (capacity_slots _ Hv) as Hc.
  assert (length (take (Z.to_nat n) (slots (vec_storage v))) = length l) as Ht
    by (rewrite length_take; lia).
  assert (capacity s' = capacity (vec_storage v)) as Hcap.
  { rewrite (capacity_slots s' Hv'), Hs, !length_app, length_fmap, length_drop. lia. }
  eexists. split; [done|]. split; [|done].
  split; cbn [vec_storage vec_len]; rewrite ?length_app, ?Hcap; [done|lia|lia| |congruence].
  intros i x Hx. unfold RustQueueSpec.slot. rewrite Hs, Nat2Z.id.
  apply lookup_app_Some in Hx as [Hx|[Hge Hx]]; pose proof (lookup_lt_Some _ _ _ Hx).
  - rewrite lookup_app_l, lookup_take_lt by lia.
    pose proof (vrepr_used _ _ R i x Hx) as Hu. unfold RustQueueSpec.slot in Hu.
    by rewrite Nat2Z.id in Hu.
  - rewrite lookup_app_r, lookup_app_l by (rewrite ?length_fmap; lia).
    rewrite Ht, list_lookup_fmap. by rewrite Hx.
Qed.

Lemma set_vec_len_ok v l n :
  needs_drop = false → vec_represents v l → (n <= length l)%nat →
  ∃ v', set_vec_len debug (Z.of_nat n) v = Ret v' ∧ vec_represents v' (take n l)
    ∧ same_vec_capacity v v'.
Proof using HL.
  intros Hnd R Hn. unfold set_vec_len, vec_capacity.
  pose proof (vrepr_valid _ _ R) as Hv. pose proof (capacity_u32 _ Hv).
  pose proof (vrepr_capacity _ _ R). rewrite debug_assert_ok by (apply Z.leb_le; lia).
  rewrite RustQueueSpec.as_u32_id by lia. eexists. split; [done|]. split; [|done].
  split; cbn [vec_storage vec_len]; rewrite ?length_take; [done|lia|lia| |congruence].
  intros i x Hx. apply lookup_take_Some in Hx as [Hx _]. by apply R.
Qed.

End VecSpec.

(** ** Programs that use a vector *)

Inductive vec_op (T : Type) := VPush (x : T) | VPop | VClear | VSlice | VFull.
Arguments VPush {T}.
Arguments VPop {T}.
Arguments VClear {T}.
Arguments VSlice {T}.
Arguments VFull {T}.

Section VecPrograms.
Context {T S : Type} `{Storage T S}.
Variables (debug needs_drop : bool).

Definition vec_exec (o : vec_op T) (v : GenericVec S) : outcome (GenericVec S * res T) :=
  match o with
  | VPush x => '(v, r) ← push debug needs_drop x v; Ret (v, pushed r)
  | VPop => '(v, r) ← pop debug v; Ret (v, ROption r)
  | VClear => '(v, l) ← vec_clear debug needs_drop v; Ret (v, RDropped l)
  | VSlice => l ← as_slice debug v; Ret (v, RDropped l)
  | VFull => Ret (v, RBool (vec_len v =? vec_capacity v))
  end.

Fixpoint vec_run (os : list (vec_op T)) (v : GenericVec S) : outcome (list (res T)) :=
  match os with
  | [] => Ret []
  | o :: os => '(v, r) ← vec_exec o v; rs ← vec_run os v; Ret (r :: rs)
  end.

Definition spec_vec_exec (cap : Z) (o : vec_op T) (l : list T) : list T * res T :=
  match o with
  | VPush x => if Z.of_nat (length l) <? cap then (l ++ [x], RPushed true) else (l, RPushed false)
  | VPop => (removelast l, ROption (last l))
  | VClear => ([], RDropped (if needs_drop then l else []))
  | VSlice => (l, RDropped l)
  | VFull => (l, RBool (Z.of_nat (length l) =? cap))
  end.

Fixpoint spec_vec_run (cap : Z) (os : list (vec_op T)) (l : list T) : list (res T) :=
  match os with
  | [] => []
  | o :: os => let '(l, r) := spec_vec_exec cap o l in r :: spec_vec_run cap os l
  end.

Context (valid : S → Prop) (slots : S → list (option T)) {HL : StorageLaws T S valid slots}.

(** Every program that uses a vector, on any storage, gets the results of a
    list with at most as many elements as the storage has slots. *)
Lemma vec_run_refines v l os :
  vec_represents valid slots needs_drop v l →
  vec_run os v = Ret (spec_vec_run (capacity (vec_storage v)) os l).
Proof using HL.
  revert v l. induction os as [|o os IH]; intros v l R; cbn [vec_run spec_vec_run]; [done|].
  assert (∃ v', vec_exec o v = Ret (v', (spec_vec_exec (capacity (vec_storage v)) o l).2)
    ∧ vec_represents valid slots needs_drop v' (spec_vec_exec (capacity (vec_storage v)) o l).1
    ∧ same_vec_capacity v v') as (v' & -> & R' & Hc).
  { destruct o as [x| | | |]; cbn [vec_exec spec_vec_exec].
    - destruct (Z.ltb_spec (Z.of_nat (length l)) (capacity (vec_storage v))).
      + destruct (push_ok valid slots debug needs_drop v l x R) as (v' & -> & ?); [done|].
        by exists v'.
      + unfold push. rewrite (vrepr_len _ _ _ _ _ R), (proj2 (Z.ltb_ge _ _)) by lia. by exists v.
    - destruct l as [|x l _] using rev_ind.
      + unfold pop. rewrite (vrepr_len _ _ _ _ _ R). by exists v.
      + destruct (pop_ok valid slots debug needs_drop v l x R) as (v' & -> & ?).
        exists v'. by rewrite last_snoc, removelast_last.
    - destruct (vec_clear_ok valid slots debug needs_drop v l R) as (v' & -> & ?). by exists v'.
    - rewrite (as_slice_ok _ _ _ _ _ _ R). by exists v.
    - exists v. by rewrite (vrepr_len _ _ _ _ _ R). }
  cbn [mbind outcome_bind]. rewrite (IH v' _ R'), Hc. by destruct (spec_vec_exec _ _ _).
Qed.

End VecPrograms.

(** ** Programs that use a string *)

Inductive string_op := SPush (ch : Z) | SPushStr (other : list Z) | SPop | SClear | SBytes.
Inductive string_res := SPushed (ok : bool) | SPopped (ch : option Z) | SCleared | SSeen (bytes : list Z).

Definition encode (cs : list Z) : list Z := concat (encode_utf8 <$> cs).

Section StringPrograms.
Context {S : Type} `{Storage Z S}.
Variable debug : bool.

Definition str_pushed (r : expected InsufficientCapacity unit) : string_res :=
  SPushed (match r with Value _ => true | Unexpected _ => false end).

(** An [&str] is the encoding of its characters. *)
Definition string_exec (o : string_op) (s : GenericVec S) : outcome (GenericVec S * string_res) :=
  match o with
  | SPush ch => '(s, r) ← push_char debug ch s; Ret (s, str_pushed r)
  | SPushStr cs => '(s, r) ← push_str debug (encode cs) s; Ret (s, str_pushed r)
  | SPop => '(s, r) ← pop_char debug s; Ret (s, SPopped r)
  | SClear => s ← string_clear debug s; Ret (s, SCleared)
  | SBytes => l ← as_slice debug s; Ret (s, SSeen l)
  end.

Fixpoint string_run (os : list string_op) (s : GenericVec S) : outcome (list string_res) :=
  match os with
  | [] => Ret []
  | o :: os => '(s, r) ← string_exec o s; rs ← string_run os s; Ret (r :: rs)
  end.

Definition valid_op (o : string_op) : bool :=
  match o with
  | SPush ch => is_char ch
  | SPushStr cs => forallb is_char cs
  | _ => true
  end.

(** The same on a list of characters. *)
Definition spec_push (cap : Z) (cs other : list Z) : list Z * string_res :=
  if Z.of_nat (length (encode cs)) + Z.of_nat (length (encode other)) <=? cap
  then (cs ++ other, SPushed true) else (cs, SPushed false).

Definition spec_string_exec (cap : Z) (o : string_op) (cs : list Z) : list Z * string_res :=
  match o with
  | SPush ch => spec_push cap cs [ch]
  | SPushStr other => spec_push cap cs other
  | SPop => (removelast cs, SPopped (last cs))
  | SClear => ([], SCleared)
  | SBytes => (cs, SSeen (encode cs))
  end.

Fixpoint spec_string_run (cap : Z) (os : list string_op) (cs : list Z) : list string_res :=
  match os with
  | [] => []
  | o :: os => let '(cs, r) := spec_string_exec cap o cs in r :: spec_string_run cap os cs
  end.

Context (valid : S → Prop) (slots : S → list (option Z)) {HL : StorageLaws Z S valid slots}.

Definition string_represents (s : GenericVec S) (cs : list Z) : Prop :=
  vec_represents valid slots false s (encode cs) ∧ Forall (λ c, is_char c = true) cs.

Lemma encode_app cs cs' : encode (cs ++ cs') = encode cs ++ encode cs'.
Proof using. unfold encode. by rewrite fmap_app, concat_app. Qed.

Lemma encode_single c : encode [c] = encode_utf8 c.
Proof using. unfold encode. cbn. apply app_nil_r. Qed.

Lemma push_str_ok s cs other :
  string_represents s cs → Forall (λ c, is_char c = true) other →
  Z.of_nat (length (encode other)) < 2 ^ 63 →
  ∃ s' r, push_str debug (encode other) s = Ret (s', r)
    ∧ str_pushed r = (spec_push (capacity (vec_storage s)) cs other).2
    ∧ string_represents s' (spec_push (capacity (vec_storage s)) cs other).1
    ∧ same_vec_capacity s s'.
Proof using HL.
  intros [R Hcs] Hother Hbig. unfold push_str, spec_push.
  destruct (Z.leb_spec (Z.of_nat (length (encode cs)) + Z.of_nat (length (encode other)))
    (capacity (vec_storage s))) as [Hfit|Hfit].
  - destruct (extend_from_slice_ok valid slots debug false s (encode cs) (encode other))
      as (s' & -> & R' & Hc); [done|done|done|].
    eexists s', _. cbn [fst snd]. unfold string_represents. rewrite encode_app.
    split_and!; [done|done|done|by apply Forall_app|done].
  - unfold extend_from_slice, vec_capacity. rewrite (vrepr_len _ _ _ _ _ R).
    pose proof (capacity_u32 _ (vrepr_valid _ _ _ _ _ R)). pose proof (vrepr_capacity _ _ _ _ _ R).
    change (max uint64_t) with (2 ^ 64 - 1). rewrite (proj2 (Z.ltb_ge _ _)) by lia.
    rewrite (proj2 (Z.leb_gt _ _)) by lia. by eexists s, _.
Qed.

Lemma pop_char_ok s cs :
  string_represents s cs →
  ∃ s', pop_char debug s = Ret (s', last cs) ∧ string_represents s' (removelast cs)
    ∧ same_vec_capacity s s'.
Proof using HL.
  intros [R Hcs]. unfold pop_char. rewrite (as_slice_ok _ _ _ _ _ _ R). cbn [mbind outcome_bind].
  destruct cs as [|c cs _] using rev_ind; [by exists s|].
  apply Forall_app in Hcs as [Hcs Hc]. rewrite Forall_singleton in Hc.
  apply is_char_range in Hc as Hrange.
  rewrite encode_app, encode_single in *. rewrite rev_app_distr, decode_last by done.
  cbn [mbind outcome_bind]. rewrite (vrepr_len _ _ _ _ _ R), length_app.
  replace (Z.of_nat (length (encode cs) + length (encode_utf8 c)) - len_utf8 c)
    with (Z.of_nat (length (encode cs))) by (pose proof (length_encode_utf8 c); lia).
  destruct (set_vec_len_ok valid slots debug false s _ (length (encode cs)) eq_refl R)
    as (s' & -> & R' & Hcap); [rewrite length_app; lia|].
  exists s'. rewrite last_snoc, removelast_last. rewrite take_app_length in R'. done.
Qed.

Lemma string_exec_refines s cs o :
  string_represents s cs → valid_op o = true →
  (∀ other, o = SPushStr other → Z.of_nat (length (encode other)) < 2 ^ 63) →
  ∃ s', string_exec o s = Ret (s', (spec_string_exec (capacity (vec_storage s)) o cs).2)
    ∧ string_represents s' (spec_string_exec (capacity (vec_storage s)) o cs).1
    ∧ same_vec_capacity s s'.
Proof using HL.
  intros R Ho Hbig. destruct o as [ch|other| | |]; cbn [string_exec spec_string_exec valid_op] in *.
  - unfold push_char. rewrite <-encode_single.
    destruct (push_str_ok s cs [ch] R) as (s' & r & -> & Hr & R' & Hc).
    + by apply Forall_singleton.
    + rewrite encode_single, length_encode_utf8. unfold len_utf8. repeat case_match; lia.
    + exists s'. cbn [mbind outcome_bind]. by rewrite Hr.
  - destruct (push_str_ok s cs other R) as (s' & r & -> & Hr & R' & Hc); [|by apply Hbig|].
    + apply Forall_forall. intros c Hin. rewrite forallb_forall in Ho. by apply Ho, list_elem_of_In.
    + exists s'. cbn [mbind outcome_bind]. by rewrite Hr.
  - destruct (pop_char_ok s cs R) as (s' & -> & ?). by exists s'.
  - unfold string_clear. destruct (vec_clear_ok _ _ debug false s (encode cs) (proj1 R))
      as (s' & -> & R' & Hc). by exists s'.
  - rewrite (as_slice_ok _ _ _ _ _ _ (proj1 R)). by exists s.
Qed.

Lemma string_run_refines s cs os :
  string_represents s cs → Forall (λ o, valid_op o = true) os →
  Forall (λ o, ∀ other, o = SPushStr other → Z.of_nat (length (encode other)) < 2 ^ 63) os →
  string_run os s = Ret (spec_string_run (capacity (vec_storage s)) os cs).
Proof using HL.
  revert s cs. induction os as [|o os IH]; intros s cs R Hv Hb; cbn [string_run spec_string_run]; [done|].
  apply Forall_cons in Hv as [Hv1 Hv]. apply Forall_cons in Hb as [Hb1 Hb].
  destruct (string_exec_refines s cs o R Hv1 Hb1) as (s' & -> & R' & Hc). cbn [mbind outcome_bind].
  rewrite (IH s' _ R' Hv Hb), Hc. by destruct (spec_string_exec _ _ _).
Qed.

End StringPrograms.

(** C7: Every program that uses a string on the heap or with inline storage gets
    the results of a list of characters whose encoding has at most [cap] bytes: a
    character is pushed as a whole or not at all, and popped as it was pushed.
    The texts that are pushed are those of the language: they consist of
    characters and have less than 2^63 bytes. *)
Theorem string_refines debug cap align_of allocate os :
  0 <= cap < 2 ^ 32 →
  Forall (λ o, valid_op o = true) os →
  Forall (λ o, ∀ other, o = SPushStr other → Z.of_nat (length (encode other)) < 2 ^ 63) os →
  (∀ h : Heap Z, heap_try_new 1 align_of allocate cap = Some h →
     string_run debug os (vec_new h) = Ret (spec_string_run cap os []))
  ∧ (check_capacity cap = true →
     string_run debug os (vec_new (inline_new (T := Z) cap)) = Ret (spec_string_run cap os [])).
Proof.
  intros Hcap Hv Hb. split.
  - intros h Hh. destruct (heap_try_new_spec _ _ _ _ _ Hcap Hh) as (Hvalid & Hc & He & _).
    rewrite (string_run_refines debug heap_valid heap_elements (vec_new h) [] os); [| |done|done].
    + cbn. by rewrite Hc.
    + split; [|done]. apply vec_new_represents; [apply _|exact Hvalid|].
      intros j Hj. unfold RustQueueSpec.slot. cbn in Hj. rewrite He. apply lookup_replicate_2. lia.
  - intros Hck. destruct (inline_new_valid (T := Z) cap Hck) as [Hvalid Hc].
    rewrite (string_run_refines debug inline_valid inline_elements (vec_new (inline_new cap)) [] os); [| |done|done].
    + cbn. by rewrite Hc.
    + split; [|done]. apply vec_new_represents; [apply _|exact Hvalid|].
      intros j Hj. unfold RustQueueSpec.slot. cbn in Hj. apply lookup_replicate_2. lia.
Qed.

(** Two characters of three bytes do not fit into five bytes. *)
Lemma string_refines_witness :
  string_run true [SPush 8364; SPush 8364; SPush 233; SBytes; SPop; SPop; SPop]
    (vec_new (Build_Heap 5 (replicate 5 None)))
  = Ret (spec_string_run 5 [SPush 8364; SPush 8364; SPush 233; SBytes; SPop; SPop; SPop] [])
  ∧ string_run true [SPush 8364; SPushStr [97; 98]; SPop] (vec_new (inline_new 5))
    = Ret (spec_string_run 5 [SPush 8364; SPushStr [97; 98]; SPop] []).
Proof.
  split.
  - apply (string_refines true 5 1 (λ _ _, true)); [lia|repeat constructor|repeat constructor; discriminate|reflexivity].
  - apply (string_refines true 5 1 (λ _ _, true)); [lia|repeat constructor| |reflexivity].
    repeat constructor; try discriminate. intros other [= <-]. by vm_compute.
Defined.

End RustVec.
