(* ===== verification/Hash.v ===== *)
(** * Hashes: hash/code/common and hash/code/core

    The algorithms with their sizes, a hash with its hexadecimal text, and the
    interface of the calculators: [IHashCalculator] as a type class, with the
    method that reads a stream, which all calculators inherit.

    A byte is an integer of [Z]; [ByteVector] is the list of the bytes of a
    [static_vector]. *)

From S2P Require Import Prelude CppInt CppString JsonModel.

Local Open Scope Z_scope.

Module Hash.

Definition byte (z : Z) : Prop := 0 <= z < 256.

(** ** algorithms.h and algorithms.cpp *)

Inductive HashAlgorithm := kNone | kSha256 | kSha384 | kSha512 | kCrc32 | kCrc32Autosar | kLast.

#[export] Instance HashAlgorithm_eq_dec : EqDecision HashAlgorithm.
Proof. solve_decision. Defined.

Definition kMaxDigestSize : Z := 64.
Definition kSha256Size : Z := 32.
Definition kSha384Size : Z := 48.
Definition kSha512Size : Z := 64.
Definition kCrc32Size : Z := 4.
Definition kCrc32AutosarSize : Z := 4.

Definition HashSizeInBytes (algorithm : HashAlgorithm) : option Z :=
  match algorithm with
  | kCrc32 => Some kCrc32Size
  | kCrc32Autosar => Some kCrc32AutosarSize
  | kSha256 => Some kSha256Size
  | kSha384 => Some kSha384Size
  | kSha512 => Some kSha512Size
  | kNone | kLast => None
  end.

Definition HashSizeInCharacters (algorithm : HashAlgorithm) : option Z :=
  match HashSizeInBytes algorithm with
  | None => None
  | Some size => Some (static_cast uint8_t (size * 2))
  end.

(** The overload for a text. *)
Definition IdentifyHash (hash_string : str) : HashAlgorithm :=
  let n := Z.of_nat (length hash_string) in
  if n =? kCrc32Size * 2 then kCrc32
  else if n =? kSha256Size * 2 then kSha256
  else if n =? kSha384Size * 2 then kSha384
  else if n =? kSha512Size * 2 then kSha512
  else kNone.

(** The overload for a number of bytes. *)
Definition IdentifyHash_size (hash_size_in_bytes : Z) : HashAlgorithm :=
  if hash_size_in_bytes =? kCrc32Size then kCrc32
  else if hash_size_in_bytes =? kSha256Size then kSha256
  else if hash_size_in_bytes =? kSha384Size then kSha384
  else if hash_size_in_bytes =? kSha512Size then kSha512
  else kNone.

(** ** hash.cpp *)

Inductive ErrorCode :=
| kCouldNotCreateDigest | kCouldNotUpdateDigest | kCouldNotUpdateDigestFromStream
| kCouldNotFinalizeDigest | kInvalidParameters | kNotFound | kStreamError | kUnknownError.

Record Hash := { algorithm_ : HashAlgorithm; raw_hash_ : list Z }.

#[export] Instance Hash_eq_dec : EqDecision Hash.
Proof. solve_decision. Defined.

Definition kInvalidCharSentinel : Z := 255.

Definition hex_chars : str := s! "0123456789abcdef".

Definition NumToChar (number : Z) : outcome ascii :=
  if number <? Z.of_nat (length hex_chars) then
    match hex_chars !! Z.to_nat number with Some c => Ret c | None => Undefined end
  else Aborted.

Definition char_num_mapping : list (ascii * Z) :=
  [("0", 0); ("1", 1); ("2", 2); ("3", 3); ("4", 4); ("5", 5); ("6", 6); ("7", 7); ("8", 8); ("9", 9);
   ("a", 10); ("A", 10); ("b", 11); ("B", 11); ("c", 12); ("C", 12); ("d", 13); ("D", 13);
   ("e", 14); ("E", 14); ("f", 15); ("F", 15)]%char.

Fixpoint map_find (c : ascii) (m : list (ascii * Z)) : option Z :=
  match m with
  | [] => None
  | (c', n) :: m => if decide (c' = c) then Some n else map_find c m
  end.

Definition Char2Num (character : ascii) : Z :=
  match map_find character char_num_mapping with Some n => n | None => kInvalidCharSentinel end.

(** The loop of [ToString]. *)
Fixpoint hex_text (bytes : list Z) : outcome str :=
  match bytes with
  | [] => Ret []
  | a_byte :: bytes =>
      high_char ← NumToChar (static_cast uint8_t (a_byte / 16));
      low_char ← NumToChar (static_cast uint8_t (a_byte mod 16));
      text ← hex_text bytes;
      Ret (high_char :: low_char :: text)
  end.

Definition ToString (h : Hash) : outcome str :=
  match HashSizeInCharacters (algorithm_ h) with
  | Some _ => hex_text (raw_hash_ h)
  | None => Ret []
  end.

(** [static_vector::push_back], which aborts when the vector is full. *)
Definition push_back (v : list Z) (b : Z) : outcome (list Z) :=
  if Z.of_nat (length v) <? kMaxDigestSize then Ret (v ++ [b]) else Aborted.

(** The loop of [FromString]. *)
Fixpoint FromString_loop (hex_repr : str) (raw_hash : list Z) (is_high_byte : bool) (current_byte : Z) :
    outcome (option (list Z)) :=
  match hex_repr with
  | [] => Ret (Some raw_hash)
  | character :: hex_repr =>
      let current_digit := Char2Num character in
      if current_digit =? kInvalidCharSentinel then Ret None
      else if is_high_byte then
        FromString_loop hex_repr raw_hash (negb is_high_byte)
          (static_cast uint8_t (Z.shiftl current_digit 4))
      else
        let current_byte := static_cast uint8_t (current_byte + current_digit) in
        raw_hash ← push_back raw_hash current_byte;
        FromString_loop hex_repr raw_hash (negb is_high_byte) current_byte
  end.

Definition FromString (algorithm : HashAlgorithm) (hex_repr : str) : outcome (expected ErrorCode Hash) :=
  match HashSizeInCharacters algorithm with
  | None => Ret (Unexpected kInvalidParameters)
  | Some exp_size =>
      if negb (Z.of_nat (length hex_repr) =? exp_size) then Ret (Unexpected kInvalidParameters)
      else
        raw_hash ← FromString_loop hex_repr [] true 0;
        match raw_hash with
        | None => Ret (Unexpected kInvalidParameters)
        | Some raw_hash => Ret (Value {| algorithm_ := algorithm; raw_hash_ := raw_hash |})
        end
  end.

Definition operator_eq (lhs rhs : Hash) : bool :=
  bool_decide (algorithm_ lhs = algorithm_ rhs) && bool_decide (raw_hash_ lhs = raw_hash_ rhs).

(** ** typed_hash.h *)

Inductive TypedError := HashError (e : ErrorCode) | kParsingError.

Definition TypedHash_FromString (algorithm : HashAlgorithm) (hex_repr : str) :
    outcome (expected TypedError Hash) :=
  hash ← FromString algorithm hex_repr;
  Ret (match hash with
       | Value h => Value {| algorithm_ := algorithm; raw_hash_ := raw_hash_ h |}
       | Unexpected e => Unexpected (HashError e)
       end).

Definition FromAny (algorithm : HashAlgorithm) (any : JsonModel.Any) : outcome (expected TypedError Hash) :=
  match JsonModel.As_string any with
  | Value hash_string => TypedHash_FromString algorithm hash_string
  | Unexpected _ => Ret (Unexpected kParsingError)
  end.

Definition ToAny (h : Hash) : outcome JsonModel.Any :=
  text ← ToString h; Ret (JsonModel.String text).

(** ** The text of a hash *)

(** The letters A to F in lower case. *)
Definition lower (c : ascii) : ascii :=
  let n := nat_of_ascii c in
  if ((65 <=? n) && (n <=? 70))%nat then ascii_of_nat (n + 32) else c.

Definition is_hex (c : ascii) : bool := negb (Char2Num c =? kInvalidCharSentinel).

(** The bytes that a text denotes. *)
Fixpoint text_bytes (s : str) : list Z :=
  match s with
  | a :: b :: s => (16 * Char2Num a + Char2Num b) :: text_bytes s
  | _ => []
  end.

Lemma byte_cast z : 0 <= z < 256 → static_cast uint8_t z = z.
Proof. intros H. apply static_cast_id. change (0 <= z <= 255). lia. Qed.

Definition byte_text_ok (b : Z) : bool :=
  match hex_text [b] with
  | Ret [x; y] => is_hex x && is_hex y && (16 * Char2Num x + Char2Num y =? b)
  | _ => false
  end.

Lemma byte_text b : byte b →
  ∃ x y, hex_text [b] = Ret [x; y] ∧ is_hex x = true ∧ is_hex y = true ∧ 16 * Char2Num x + Char2Num y = b.
Proof.
  intros Hb.
  assert (forallb byte_text_ok (seqZ 0 256) = true) as H by by vm_compute.
  rewrite forallb_forall in H. specialize (H b). rewrite <- list_elem_of_In, elem_of_seqZ in H.
  specialize (H ltac:(unfold byte in Hb; lia)). unfold byte_text_ok in H.
  destruct (hex_text [b]) as [[|x [|y [|? ?]]]| |]; try done. exists x, y.
  apply andb_prop in H as [[? ?]%andb_prop ?%Z.eqb_eq]. done.
Qed.

Definition char_text_ok (n : nat) : bool :=
  let c := ascii_of_nat n in
  if is_hex c then
    (0 <=? Char2Num c) && (Char2Num c <? 16) &&
    match NumToChar (Char2Num c) with Ret d => bool_decide (d = lower c) | _ => false end
  else true.

Lemma char_text c : is_hex c = true → 0 <= Char2Num c < 16 ∧ NumToChar (Char2Num c) = Ret (lower c).
Proof.
  intros Hc. pose proof (nat_ascii_bounded c) as Hb.
  assert (forallb char_text_ok (seq 0 256) = true) as H by by vm_compute.
  rewrite forallb_forall in H. specialize (H (nat_of_ascii c)). rewrite in_seq in H.
  specialize (H ltac:(lia)). unfold char_text_ok in H.
  rewrite ascii_nat_embedding, Hc in H. apply andb_prop in H as [[H1 H2]%andb_prop H3].
  destruct (NumToChar (Char2Num c)); try done. apply bool_decide_eq_true in H3. subst.
  split; [lia|done].
Qed.

Lemma hex_text_cons b l : hex_text (b :: l) = (x ← hex_text [b]; y ← hex_text l; Ret (x ++ y)).
Proof. cbn [hex_text]. by do 2 destruct (NumToChar _). Qed.

Lemma pair_byte a b : is_hex a = true → is_hex b = true →
  byte (16 * Char2Num a + Char2Num b)
  ∧ hex_text [16 * Char2Num a + Char2Num b] = Ret [lower a; lower b].
Proof.
  intros [Ha Ea]%char_text [Hb Eb]%char_text. unfold byte. split; [lia|]. cbn [hex_text].
  rewrite Z.add_comm, Z.mul_comm, Z_div_plus_full, Z_mod_plus_full, Z.div_small, Z.mod_small by lia.
  rewrite Z.add_0_l, !byte_cast, Ea, Eb by lia. done.
Qed.

Lemma list_pair_ind {A} (P : list A → Prop) :
  P [] → (∀ a, P [a]) → (∀ a b l, P l → P (a :: b :: l)) → ∀ l, P l.
Proof.
  intros H0 H1 H2 l. assert (P l ∧ ∀ a, P (a :: l)) as [? _]; [|done].
  induction l as [|a l [IH IH']]; split; auto.
Qed.

Lemma text_bytes_length s : length (text_bytes s) = (length s / 2)%nat.
Proof.
  induction s as [| |a b s IH] using list_pair_ind; [done..|]. simpl length. rewrite IH.
  by change (S (S (length s))) with (2 + length s)%nat; rewrite (Nat.add_comm 2), (Nat.div_add _ 1 2), Nat.add_comm.
Qed.

(** The loop reads the bytes of a text of digits, and stops at another one. *)
Lemma FromString_loop_spec s : Nat.even (length s) = true → ∀ raw current_byte,
  Z.of_nat (length raw + length s / 2) <= kMaxDigestSize →
  FromString_loop s raw true current_byte =
    Ret (if forallb is_hex s then Some (raw ++ text_bytes s) else None).
Proof.
  induction s as [| |a b s IH] using list_pair_ind; intros He raw cb Hl; [|done|].
  { simpl. by rewrite app_nil_r. }
  assert (length (a :: b :: s) / 2 = S (length s / 2))%nat as E.
  { simpl length. change (S (S (length s))) with (2 + length s)%nat.
    by rewrite (Nat.add_comm 2), (Nat.div_add _ 1 2), Nat.add_comm. }
  rewrite E in Hl. cbn [FromString_loop forallb negb]. unfold is_hex at 1 2.
  destruct (Char2Num a =? _) eqn:Ea; [done|]. cbn [negb andb].
  destruct (Char2Num b =? _) eqn:Eb; [done|]. cbn [negb andb text_bytes].
  destruct (char_text a) as [Ha _]; [unfold is_hex; by rewrite Ea|].
  destruct (char_text b) as [Hb _]; [unfold is_hex; by rewrite Eb|].
  rewrite Z.shiftl_mul_pow2, (byte_cast (Char2Num a * 2 ^ 4)), (byte_cast (_ + _)) by lia. unfold push_back.
  rewrite (proj2 (Z.ltb_lt (Z.of_nat (length raw)) kMaxDigestSize)) by lia. cbn [mbind outcome_bind].
  rewrite IH; [|done|rewrite length_app; cbn [length]; lia].
  rewrite <- app_assoc. simpl. by replace (16 * Char2Num a) with (Char2Num a * 2 ^ 4) by lia.
Qed.

Lemma text_bytes_text s : Nat.even (length s) = true → forallb is_hex s = true →
  Forall byte (text_bytes s) ∧ hex_text (text_bytes s) = Ret (lower <$> s).
Proof.
  induction s as [| |a b s IH] using list_pair_ind; intros He H; [by split|done|].
  cbn [forallb] in H. apply andb_prop in H as [Ha [Hb H]%andb_prop].
  destruct (pair_byte a b Ha Hb) as [Hbyte E]. destruct (IH He H) as [IH1 IH2].
  cbn [text_bytes]. split; [by constructor|]. rewrite hex_text_cons, E, IH2. done.
Qed.

Lemma hex_text_bytes l : Forall byte l →
  ∃ s, hex_text l = Ret s ∧ length s = (2 * length l)%nat ∧ forallb is_hex s = true ∧ text_bytes s = l.
Proof.
  induction 1 as [|b l Hb _ (s & E & Hl & Hh & Ht)]; [by exists []|].
  destruct (byte_text b Hb) as (x & y & Eb & Hx & Hy & Exy). exists (x :: y :: s).
  rewrite hex_text_cons, Eb, E. cbn [mbind outcome_bind app forallb text_bytes length].
  split_and!; [done|lia|by rewrite Hx, Hy|by rewrite Exy, Ht].
Qed.

Lemma forallb_false {A} (f : A → bool) l : forallb f l = false → ∃ x, x ∈ l ∧ f x = false.
Proof.
  induction l as [|x l IH]; [done|]. cbn [forallb]. destruct (f x) eqn:E.
  - intros (y & ? & ?)%IH. exists y. split; [by apply list_elem_of_further|done].
  - intros _. exists x. split; [apply list_elem_of_here|done].
Qed.

Lemma size_in_characters a n : HashSizeInBytes a = Some n →
  HashSizeInCharacters a = Some (2 * n) ∧ 0 <= n <= kMaxDigestSize.
Proof. by destruct a; simpl; intros [= <-]. Qed.

Lemma no_size_in_characters a : HashSizeInBytes a = None → HashSizeInCharacters a = None.
Proof. by destruct a. Qed.

Lemma FromString_spec a s :
  FromString a s =
    Ret (match HashSizeInBytes a with
         | Some n =>
             if (Z.of_nat (length s) =? 2 * n) && forallb is_hex s
             then Value {| algorithm_ := a; raw_hash_ := text_bytes s |}
             else Unexpected kInvalidParameters
         | None => Unexpected kInvalidParameters
         end).
Proof.
  unfold FromString. destruct (HashSizeInBytes a) as [n|] eqn:E.
  - destruct (size_in_characters a n E) as [-> Hn].
    destruct (Z.of_nat (length s) =? 2 * n) eqn:El; [|done]. apply Z.eqb_eq in El. cbn [negb andb].
    assert (length s = 2 * Z.to_nat n)%nat as El' by lia.
    rewrite FromString_loop_spec.
    + cbn [mbind outcome_bind]. by destruct (forallb is_hex s).
    + rewrite El'. by rewrite Nat.even_mul.
    + rewrite El', Nat.mul_comm, Nat.div_mul by done. simpl length. lia.
  - by rewrite no_size_in_characters.
Qed.

(** The hexadecimal text of a hash is read back as this hash, from the text and
    from JSON, and [FromString] accepts exactly the texts with the right number
    of hexadecimal digits, of which [ToString] gives the lower-case form. *)
Theorem hash_text_round_trip :
  (∀ h n, HashSizeInBytes (algorithm_ h) = Some n → Z.of_nat (length (raw_hash_ h)) = n →
     Forall byte (raw_hash_ h) →
     ∃ s, ToString h = Ret s ∧ FromString (algorithm_ h) s = Ret (Value h) ∧
       (any ← ToAny h; FromAny (algorithm_ h) any) = Ret (Value h))
  ∧ (∀ a s, ∃ r, FromString a s = Ret r ∧
     match r with
     | Value h => algorithm_ h = a ∧ HashSizeInBytes a = Some (Z.of_nat (length (raw_hash_ h))) ∧
                  Forall byte (raw_hash_ h) ∧ ToString h = Ret (lower <$> s)
     | Unexpected e => e = kInvalidParameters ∧
         ∀ n, HashSizeInBytes a = Some n → Z.of_nat (length s) = 2 * n → ∃ c, c ∈ s ∧ is_hex c = false
     end).
Proof.
  split.
  - intros [a raw] n Hn Hl Hb. simpl in *. destruct (size_in_characters a n Hn) as [Hc _].
    destruct (hex_text_bytes raw Hb) as (s & Hs & Hls & Hh & Ht). exists s.
    assert (FromString a s = Ret (Value {| algorithm_ := a; raw_hash_ := raw |})) as Hf.
    { rewrite FromString_spec, Hn, Hh, Ht. replace (Z.of_nat (length s)) with (2 * n) by lia.
      by rewrite Z.eqb_refl. }
    unfold ToAny, ToString. simpl. rewrite Hc, Hs. split_and!; [done..|].
    cbn [mbind outcome_bind FromAny JsonModel.As_string]. unfold TypedHash_FromString. by rewrite Hf.
  - intros a s. eexists. split; [apply FromString_spec|].
    destruct (HashSizeInBytes a) as [n|] eqn:En; [|done].
    destruct (size_in_characters a n En) as [Hc Hn].
    destruct (Z.of_nat (length s) =? 2 * n) eqn:El; reflect_bool; cbn [andb]; [|split; [done|]; naive_solver].
    destruct (forallb is_hex s) eqn:Eh.
    + assert (length s = 2 * Z.to_nat n)%nat as El' by lia.
      destruct (text_bytes_text s) as [H1 H2]; [rewrite El'; by rewrite Nat.even_mul|done|].
      cbn [algorithm_ raw_hash_]. unfold ToString. cbn [algorithm_ raw_hash_]. rewrite Hc.
      split_and!; [done| |done|done].
      rewrite text_bytes_length, El', Nat.mul_comm, Nat.div_mul by done. f_equal. lia.
    + split; [done|]. intros n' [= <-] _. by apply forallb_false.
Qed.

Lemma hash_text_round_trip_witness :
  ∃ s, ToString {| algorithm_ := kCrc32; raw_hash_ := [1; 171; 205; 255] |} = Ret s ∧
    FromString kCrc32 s = Ret (Value {| algorithm_ := kCrc32; raw_hash_ := [1; 171; 205; 255] |}).
Proof.
  destruct (proj1 hash_text_round_trip {| algorithm_ := kCrc32; raw_hash_ := [1; 171; 205; 255] |} 4)
    as (s & H1 & H2 & _); [reflexivity|reflexivity| |by exists s].
  cbn [raw_hash_]. repeat constructor; unfold byte; lia.
Defined.

End Hash.
