(* ===== verification/HashCalculator.v ===== *)
(** * The interface of hash calculators: hash/code/core/i_hash_calculator.h and .cpp

    [IHashCalculator] as a type class, and the method that feeds a stream to
    [Update], which every calculator inherits.  What a calculator promises is
    the class [Digests]: it has a digest of every message, and a calculator
    that was given a message returns it.  The lemma on streams is proved
    against this promise; Crc32.v and Sha256Calculator.v discharge it, and
    HashFactory.v applies it to both.

    A stream has the bytes it still delivers and its state bits.  The device
    behind it may fail: [broken] is the number of reads that succeed before
    one fails, and the number of bytes that this one still delivers; it sets
    [badbit]. *)

From S2P Require Import Prelude CppInt Hash.

Local Open Scope Z_scope.

Module HashCalculator.
Import Hash.

Class IHashCalculator (C : Type) := {
  Update : list Z → C → outcome (expected ErrorCode unit * C);
  Finalize : C → outcome (Hash * C);
}.

(** ** Streams *)

Record istream := {
  rest : list Z;
  eofbit : bool;
  failbit : bool;
  badbit : bool;
  broken : option (nat * nat);
}.

Definition open_stream (bytes : list Z) (n : option (nat * nat)) : istream :=
  {| rest := bytes; eofbit := false; failbit := false; badbit := false; broken := n |}.

Definition good (s : istream) : bool := negb (eofbit s) && negb (failbit s) && negb (badbit s).

(** [std::istream::read] and [gcount]: the bytes that were read. *)
Definition read (n : Z) (s : istream) : list Z * istream :=
  if good s then
    match broken s with
    | Some (O, delivered) =>
        let k := Nat.min delivered (Z.to_nat n - 1) in
        (take k (rest s),
         {| rest := drop k (rest s); eofbit := false; failbit := false; badbit := true; broken := broken s |})
    | b =>
        if n <=? Z.of_nat (length (rest s)) then
          (take (Z.to_nat n) (rest s),
           {| rest := drop (Z.to_nat n) (rest s); eofbit := false; failbit := false; badbit := false;
              broken := prod_map pred id <$> b |})
        else
          (rest s,
           {| rest := []; eofbit := true; failbit := true; badbit := false; broken := prod_map pred id <$> b |})
    end
  else ([], {| rest := rest s; eofbit := eofbit s; failbit := true; badbit := badbit s; broken := broken s |}).

(** ** StreamConsumer *)

Definition kDataChunkSize : Z := 4096.
Definition kReadEndlessFromStream : Z := -1.

Definition HasReadEnough (expected_size total_size : Z) : bool :=
  negb (expected_size =? kReadEndlessFromStream) && (expected_size <=? total_size).

Definition CalculateNumberBytesToRead (expected_size total_size : Z) : outcome Z :=
  if expected_size =? kReadEndlessFromStream then Ret kDataChunkSize
  else
    remaining ← arith int64_t (expected_size - total_size);
    Ret (Z.min remaining kDataChunkSize).

Section Calculator.
Context {C : Type} `{IHashCalculator C}.

Fixpoint Consume (fuel : nat) (expected_size total_size : Z) (input : istream) (updater : C) :
    outcome (expected ErrorCode unit * istream * C) :=
  match fuel with
  | O => Undefined
  | S fuel =>
      if good input then
        if HasReadEnough expected_size total_size then Ret (Value (), input, updater)
        else
          number_bytes_to_read ← CalculateNumberBytesToRead expected_size total_size;
          let '(block, input) := read number_bytes_to_read input in
          let block_size := Z.of_nat (length block) in
          if (block_size =? 0) && eofbit input then Ret (Value (), input, updater)
          else
            '(update_result, updater) ← Update block updater;
            match update_result with
            | Unexpected e => Ret (Unexpected e, input, updater)
            | Value _ =>
                total_size ← arith int64_t (total_size + block_size);
                Consume fuel expected_size total_size input updater
            end
      else if negb (eofbit input) || badbit input
      then Ret (Unexpected kCouldNotUpdateDigestFromStream, input, updater)
      else Ret (Value (), input, updater)
  end.

(** Every round reads a byte, except the last two. *)
Definition UpdateFromStream_max (input : istream) (max_read : Z) (c : C) :
    outcome (expected ErrorCode unit * istream * C) :=
  if negb (good input) then Ret (Unexpected kStreamError, input, c)
  else Consume (length (rest input) + 2) max_read 0 input c.

Definition UpdateFromStream (input : istream) (c : C) : outcome (expected ErrorCode unit * istream * C) :=
  UpdateFromStream_max input kReadEndlessFromStream c.

(** Several calls of [Update], up to the first that fails. *)
Fixpoint update_all (datas : list (list Z)) (c : C) : outcome (expected ErrorCode unit * C) :=
  match datas with
  | [] => Ret (Value (), c)
  | data :: datas =>
      '(r, c) ← Update data c;
      match r with Value _ => update_all datas c | Unexpected e => Ret (Unexpected e, c) end
  end.

End Calculator.

(** ** The promise of a calculator *)

Class Digests (C : Type) `{IHashCalculator C} := {
  digest : list Z → Hash;
  (** Messages have less than [limit] bytes. *)
  limit : Z;
  (** The calculator was given the message. *)
  consumed : C → list Z → Prop;
  update_accepts c m data :
    consumed c m → Forall byte data → data ≠ [] → Z.of_nat (length (m ++ data)) < limit →
    ∃ c', Update data c = Ret (Value (), c') ∧ consumed c' (m ++ data);
  update_empty c m : consumed c m → ∃ r c', Update [] c = Ret (r, c') ∧ consumed c' m;
  finalize_digest c m : consumed c m → ∃ c', Finalize c = Ret (digest m, c');
}.

Section Streams.
Context {C : Type} `{Digests C}.

Lemma update_all_accepts datas c m :
  consumed c m → Forall (λ data, Forall byte data ∧ data ≠ []) datas →
  Z.of_nat (length (m ++ concat datas)) < limit →
  ∃ c', update_all datas c = Ret (Value (), c') ∧ consumed c' (m ++ concat datas).
Proof.
  intros Hc Hd. revert c m Hc. induction Hd as [|data datas [Hb Hn] _ IH]; intros c m Hc Hl.
  { exists c. by rewrite app_nil_r. }
  cbn [concat] in *. rewrite app_assoc in *.
  destruct (update_accepts c m data) as (c1 & E & Hc1); [done..|rewrite length_app in Hl; lia|].
  cbn [update_all]. rewrite E. by apply IH.
Qed.

(** The bytes that a call with [expected_size] takes from [l]. *)
Definition wanted (expected_size total_size : Z) (l : list Z) : list Z :=
  if expected_size =? kReadEndlessFromStream then l else take (Z.to_nat (expected_size - total_size)) l.

(** What reading a positive number of bytes gives. *)
Lemma read_spec n s block s' :
  good s = true → 0 < n → read n s = (block, s') →
  (badbit s' = true ∧ (∃ k, block = take k (rest s)) ∧ eofbit s' = false ∧ is_Some (broken s))
  ∨ (badbit s' = false ∧ block = take (Z.to_nat n) (rest s) ∧ rest s' = drop (Z.to_nat n) (rest s)
     ∧ (broken s = None → broken s' = None)
     ∧ (good s' = true ∧ n <= Z.of_nat (length (rest s)) ∨
        good s' = false ∧ eofbit s' = true ∧ rest s' = [])).
Proof.
  intros Hg Hn. unfold read. rewrite Hg.
  assert (∀ b, ((if n <=? Z.of_nat (length (rest s)) then
      (take (Z.to_nat n) (rest s),
       {| rest := drop (Z.to_nat n) (rest s); eofbit := false; failbit := false; badbit := false; broken := b |})
    else (rest s, {| rest := []; eofbit := true; failbit := true; badbit := false; broken := b |})) = (block, s') →
    (broken s = None → b = None) → badbit s' = false ∧ block = take (Z.to_nat n) (rest s) ∧ rest s' = drop (Z.to_nat n) (rest s)
     ∧ (broken s = None → broken s' = None)
     ∧ (good s' = true ∧ n <= Z.of_nat (length (rest s)) ∨
        good s' = false ∧ eofbit s' = true ∧ rest s' = []))) as Hread.
  { intros b. case_match eqn:E; reflect_bool; intros [= <- <-] Hb; simpl; split_and!; auto.
    - by rewrite take_ge by lia.
    - by rewrite drop_ge by lia. }
  destruct (broken s) as [[[|k] delivered]|]; [|by intros E; right; apply (Hread _ E)..].
  intros [= <- <-]. left. simpl. eauto.
Qed.

(** The bytes of a block come before the others. *)
Lemma wanted_block e t n l :
  0 <= t → HasReadEnough e t = false → (e = kReadEndlessFromStream ∨ n <= e - t) → 0 <= n →
  wanted e t l =
    take (Z.to_nat n) l ++ wanted e (t + Z.of_nat (length (take (Z.to_nat n) l))) (drop (Z.to_nat n) l).
Proof.
  intros Ht Hr Hn Hn0. unfold wanted. destruct (e =? kReadEndlessFromStream) eqn:E; [by rewrite take_drop|].
  destruct Hn as [->|Hn]; [done|]. rewrite length_take.
  destruct (decide (Z.to_nat n <= length l)%nat) as [Hl|Hl].
  - rewrite Nat.min_l by done. rewrite <- (take_drop (Z.to_nat n) l) at 1.
    rewrite take_app_ge by (rewrite length_take; lia). do 2 f_equal. rewrite length_take. lia.
  - rewrite (drop_ge l), take_nil, app_nil_r, !take_ge by lia. done.
Qed.

Lemma wanted_done e t l : HasReadEnough e t = true → wanted e t l = [].
Proof.
  unfold HasReadEnough, wanted. destruct (e =? kReadEndlessFromStream); [done|]. cbn [negb andb].
  intros ?%Z.leb_le. by rewrite Z2Nat.nonpos by lia.
Qed.

Lemma wanted_nil e t : wanted e t [] = [].
Proof. unfold wanted. destruct (_ =? _); [done|apply take_nil]. Qed.

(** The result of reading: all wanted bytes were taken, or the device failed. *)
Definition stream_post (e t : Z) (input : istream) (m : list Z) (r : expected ErrorCode unit)
    (input' : istream) (c' : C) : Prop :=
  match r with
  | Value _ => consumed c' (m ++ wanted e t (rest input))
      ∧ rest input' = drop (length (wanted e t (rest input))) (rest input)
  | Unexpected _ => badbit input' = true ∧ is_Some (broken input) ∧
      ∃ k, consumed c' (m ++ take k (rest input))
  end.

Lemma stream_post_block e t input m r input' c' n s' :
  0 <= t → HasReadEnough e t = false → (e = kReadEndlessFromStream ∨ n <= e - t) → 0 <= n →
  rest s' = drop (Z.to_nat n) (rest input) → (broken input = None → broken s' = None) →
  stream_post e (t + Z.of_nat (length (take (Z.to_nat n) (rest input)))) s'
    (m ++ take (Z.to_nat n) (rest input)) r input' c' →
  stream_post e t input m r input' c'.
Proof.
  intros Ht Hr Hn Hn0 Hrest Hb. pose proof (wanted_block e t n (rest input) Ht Hr Hn Hn0) as Hw.
  unfold stream_post. rewrite Hw, Hrest. destruct r.
  - rewrite <- !app_assoc, length_app. intros [? E]. split; [done|]. rewrite E.
    rewrite length_take. destruct (decide (Z.to_nat n <= length (rest input))%nat).
    + by rewrite Nat.min_l, drop_drop by done.
    + by rewrite !(drop_ge (rest input)), drop_nil by lia.
  - intros (? & Hs & k & Hk). split_and!; [done| |].
    + destruct (broken input); [done|]. rewrite Hb in Hs by done. by destruct Hs.
    + exists (Z.to_nat n + k)%nat. by rewrite <- take_take_drop, app_assoc.
Qed.

Lemma number_to_read e t : HasReadEnough e t = false → 0 <= t → in_range int64_t e →
  ∃ n, CalculateNumberBytesToRead e t = Ret n ∧ 0 < n ∧ (e = kReadEndlessFromStream ∨ n <= e - t).
Proof.
  unfold CalculateNumberBytesToRead, HasReadEnough. intros Hre Ht He.
  destruct (e =? _) eqn:Ee; reflect_bool; [exists kDataChunkSize; by split_and!; [..|left]|].
  cbn [negb andb] in Hre. reflect_bool. change (- 2 ^ 63 <= e <= 2 ^ 63 - 1) in He.
  rewrite arith_in_range by (change (- 2 ^ 63 <= e - t <= 2 ^ 63 - 1); lia).
  eexists. split; [done|]. unfold kDataChunkSize. lia.
Qed.

(** A stream that is not good has reached its end, or its device has failed. *)
Definition ended (input : istream) : Prop :=
  badbit input = true ∧ is_Some (broken input) ∨ badbit input = false ∧ eofbit input = true ∧ rest input = [].

Lemma consume_ended fuel e t input c m :
  good input = false → ended input → consumed c m →
  ∃ r input' c', Consume (S fuel) e t input c = Ret (r, input', c') ∧ stream_post e t input m r input' c'.
Proof.
  intros Hg Hend Hc. cbn [Consume]. rewrite Hg.
  destruct Hend as [[Hbd Hbr]|(Hbd & Hef & Hr)]; rewrite Hbd, ?orb_true_r, ?Hef; cbn [negb orb];
    eexists _, _, _; (split; [done|]); cbn [stream_post].
  - split_and!; [done..|]. exists 0%nat. by rewrite take_0, app_nil_r.
  - by rewrite Hr, wanted_nil, app_nil_r.
Qed.

(** A block of any size is taken, or an empty one refused. *)
Lemma update_block c m block : consumed c m → Forall byte block → Z.of_nat (length (m ++ block)) < limit →
  ∃ r c', Update block c = Ret (r, c') ∧ consumed c' (m ++ block).
Proof.
  intros Hc Hb Hl. destruct (decide (block = [])) as [->|Hne].
  - rewrite app_nil_r. by apply update_empty.
  - destruct (update_accepts c m block) as (c' & ? & ?); [done..|]. by eexists _, _.
Qed.

(** A device that fails while it is read. *)
Lemma consume_broken fuel e t input c m s' k :
  badbit s' = true → eofbit s' = false → is_Some (broken input) →
  consumed c m → Forall byte (rest input) → Z.of_nat (length (m ++ rest input)) < limit →
  0 <= t → t + Z.of_nat (length (rest input)) <= max int64_t →
  ∃ r input' c',
    ('(update_result, updater) ← Update (take k (rest input)) c;
     match update_result with
     | Unexpected e0 => Ret (Unexpected e0, s', updater)
     | Value _ =>
         total_size ← arith int64_t (t + Z.of_nat (length (take k (rest input))));
         Consume (S fuel) e total_size s' updater
     end) = Ret (r, input', c') ∧ stream_post e t input m r input' c'.
Proof.
  intros Hbd Hef Hbr Hc Hb Hl Ht Htm. pose proof (firstn_le_length k (rest input)) as Hk.
  destruct (update_block c m (take k (rest input)) Hc) as (r & c' & -> & Hc').
  { by apply Forall_take. }
  { rewrite length_app in *. rewrite length_take. lia. }
  cbn [mbind outcome_bind]. destruct r as [[]|err].
  - rewrite arith_in_range by (rewrite length_take; unfold in_range, lowest; simpl in *; lia).
    cbn [mbind outcome_bind Consume]. assert (good s' = false) as ->.
    { unfold good. by rewrite Hbd, andb_false_r. }
    rewrite Hbd, orb_true_r. eexists _, _, _. split; [done|]. by split_and!; [..|exists k].
  - eexists _, _, _. split; [done|]. by split_and!; [..|exists k].
Qed.

Lemma consume_spec fuel : ∀ e t input c m,
  (good input = true → length (rest input) + 2 ≤ fuel)%nat → (1 ≤ fuel)%nat →
  (good input = false → ended input) →
  consumed c m → Forall byte (rest input) → Z.of_nat (length (m ++ rest input)) < limit →
  0 <= t → t + Z.of_nat (length (rest input)) <= max int64_t → in_range int64_t e →
  ∃ r input' c', Consume fuel e t input c = Ret (r, input', c') ∧ stream_post e t input m r input' c'.
Proof.
  induction fuel as [|fuel IH]; intros e t input c m Hf Hf1 Hbad Hc Hb Hlim Ht Htm He; [lia|].
  destruct (good input) eqn:Hg; [|by apply consume_ended; auto]. cbn [Consume]. rewrite Hg.
  destruct (HasReadEnough e t) eqn:Hre.
  { eexists _, _, _. split; [done|]. cbn [stream_post]. by rewrite wanted_done, app_nil_r. }
  destruct (number_to_read e t Hre Ht He) as (n & -> & Hn & Hne). cbn [mbind outcome_bind].
  specialize (Hf eq_refl). destruct fuel as [|fuel]; [lia|].
  destruct (read n input) as [block s'] eqn:Er.
  destruct (read_spec n input block s' Hg Hn Er) as [(Hbd & [k ->] & Hef & Hbr)|(Hbd & -> & Hrest & Hbr & Hgood)].
  { rewrite Hef, andb_false_r. by apply consume_broken. }
  remember (take (Z.to_nat n) (rest input)) as block eqn:Eb.
  assert (rest input = block ++ rest s') as Erest by (by rewrite Eb, Hrest, take_drop).
  assert (block = [] → eofbit s' = true ∧ rest s' = []) as Hempty.
  { intros Hnil%(f_equal length). rewrite Eb, length_take in Hnil. simpl in Hnil.
    destruct Hgood as [[_ Hl]|(_ & ? & ?)]; [lia|done]. }
  destruct (decide (block = [])) as [->|Hnil].
  { destruct (Hempty eq_refl) as [-> Hr]. eexists _, _, _. split; [done|]. cbn [stream_post].
    by rewrite Erest, Hr, wanted_nil, app_nil_r. }
  rewrite (proj2 (Z.eqb_neq (Z.of_nat (length block)) 0)) by (destruct block; simpl; [done|lia]).
  cbn [andb]. rewrite Erest in Hb, Hlim, Htm, Hf. apply Forall_app in Hb as [Hb1 Hb2].
  rewrite app_assoc in Hlim. rewrite length_app in Htm, Hf.
  destruct (update_accepts c m block) as (c' & -> & Hc'); [done..|rewrite length_app in Hlim; lia|].
  cbn [mbind outcome_bind].
  rewrite arith_in_range by (unfold in_range, lowest; simpl in *; lia). cbn [mbind outcome_bind].
  destruct (IH e (t + Z.of_nat (length block)) s' c' (m ++ block)) as (r & i' & c2 & -> & Hp); [..|].
  1: { intros _. destruct block; [done|]. simpl in Hf. lia. }
  all: try done; try lia.
  { intros Hgs. right. destruct Hgood as [[Hgs' _]|(_ & ? & ?)]; [congruence|done]. }
  eexists _, _, _. split; [done|]. eapply stream_post_block; rewrite <- ?Eb; [..|exact Hp]; eauto. lia.
Qed.

(** Reading a stream gives its bytes to the calculator, all of them or as many
    as were asked for, and leaves the others in the stream; it fails only if the
    device of the stream fails, and then the calculator has a prefix. *)
Lemma update_from_stream c m input max_read :
  consumed c m → good input = true → Forall byte (rest input) →
  Z.of_nat (length (m ++ rest input)) < limit → Z.of_nat (length (rest input)) <= max int64_t →
  in_range int64_t max_read →
  ∃ r input' c', UpdateFromStream_max input max_read c = Ret (r, input', c') ∧
    stream_post max_read 0 input m r input' c'.
Proof.
  intros Hc Hg Hb Hl Hm Hr. unfold UpdateFromStream_max. rewrite Hg. cbn [negb].
  destruct (consume_spec (length (rest input) + 2) max_read 0 input c m) as (r & i' & c' & E & P);
    try done; try lia; [by rewrite Hg|].
  by exists r, i', c'.
Qed.

End Streams.

End HashCalculator.
