(* ===== verification/WordBits.v ===== *)
(** * Bits of machine words

    Bitwise operations on numbers below a power of two, shared by the models of
    the hash calculators. *)

From S2P Require Import Prelude.

Local Open Scope Z_scope.

Lemma testbit_above a n i : 0 <= a < 2 ^ n → n <= i → Z.testbit a i = false.
Proof.
  intros Ha Hi. destruct (decide (a = 0)) as [->|]; [apply Z.testbit_0_l|].
  apply Z.bits_above_log2; [lia|]. assert (Z.log2 a < n) by (apply Z.log2_lt_pow2; lia). lia.
Qed.

Lemma below_by_bits a n : 0 <= n → 0 <= a → (∀ i, n <= i → Z.testbit a i = false) → a < 2 ^ n.
Proof.
  intros Hn Ha H. destruct (decide (a = 0)) as [->|]; [lia|]. apply Z.log2_lt_pow2; [lia|].
  apply Z.nle_gt. intros Hl. specialize (H (Z.log2 a) Hl). rewrite Z.bit_log2 in H by lia. done.
Qed.

Lemma lxor_range a b n : 0 <= n → 0 <= a < 2 ^ n → 0 <= b < 2 ^ n → 0 <= Z.lxor a b < 2 ^ n.
Proof.
  intros Hn Ha Hb. assert (0 <= Z.lxor a b) by (apply Z.lxor_nonneg; lia). split; [done|].
  apply below_by_bits; [done..|]. intros i Hi. by rewrite Z.lxor_spec, !(testbit_above _ n).
Qed.

Lemma lor_range a b n : 0 <= n → 0 <= a < 2 ^ n → 0 <= b < 2 ^ n → 0 <= Z.lor a b < 2 ^ n.
Proof.
  intros Hn Ha Hb. assert (0 <= Z.lor a b) by (apply Z.lor_nonneg; lia). split; [done|].
  apply below_by_bits; [done..|]. intros i Hi. by rewrite Z.lor_spec, !(testbit_above _ n).
Qed.

Lemma land_range_r a b n : 0 <= n → 0 <= b < 2 ^ n → 0 <= Z.land a b < 2 ^ n.
Proof.
  intros Hn Hb. assert (0 <= Z.land a b) by (apply Z.land_nonneg; lia). split; [done|].
  apply below_by_bits; [done..|]. intros i Hi. by rewrite Z.land_spec, (testbit_above b n), andb_false_r.
Qed.

Lemma land_range_l a b n : 0 <= n → 0 <= a < 2 ^ n → 0 <= Z.land a b < 2 ^ n.
Proof. rewrite Z.land_comm. apply land_range_r. Qed.

Lemma shiftr_range a n k : 0 <= k → 0 <= a < 2 ^ n → 0 <= Z.shiftr a k < 2 ^ n.
Proof.
  intros Hk Ha. rewrite Z.shiftr_div_pow2 by done. assert (0 < 2 ^ k) by (apply Z.pow_pos_nonneg; lia).
  split; [apply Z.div_pos; lia|]. apply Z.le_lt_trans with a; [|lia]. apply Z.div_le_upper_bound; nia.
Qed.

Lemma lor_disjoint a b n : 0 <= n → 0 <= a < 2 ^ n → Z.lor a (b * 2 ^ n) = a + b * 2 ^ n.
Proof.
  intros Hn Ha. rewrite <- Z.lxor_lor, <- Z.add_nocarry_lxor; [done|..]; apply Z.bits_inj'; intros i Hi;
    rewrite Z.land_spec, Z.testbit_0_l, <- Z.shiftl_mul_pow2 by lia;
    (destruct (Z.lt_ge_cases i n); [by rewrite Z.shiftl_spec_low, andb_false_r by lia|
       by rewrite (testbit_above a n)]).
Qed.
