(* ===== verification/Crc32.v ===== *)
(** * CRC-32: hash/code/crc

    [Crc32IeeeHashCalculator] with the lookup table it computes at compile
    time.  [std::uint_fast32_t] is 64 bits wide, as on 64-bit Linux.

    The reference definition is the one of the standard: the bits of the
    message are the coefficients of a polynomial over the field with two
    elements, and the checksum is the remainder of its division by the generator
    polynomial, with the first 32 coefficients and the remainder inverted.  A
    polynomial is an integer whose bits are the coefficients, so that addition
    is [Z.lxor] and multiplication by a power of x is [Z.shiftl]. *)

From S2P Require Import Prelude CppInt WordBits Hash HashCalculator.

Local Open Scope Z_scope.

Module Crc32.
Import Hash HashCalculator.

(** ** The source *)

(** The inner loop of the constructor of [LookupTable]. *)
Fixpoint table_rounds (ReversePolynomial : Z) (rounds : nat) (checksum : Z) : Z :=
  match rounds with
  | O => checksum
  | S rounds =>
      table_rounds ReversePolynomial rounds
        (if negb (Z.land checksum 1 =? 0) then Z.lxor (Z.shiftr checksum 1) ReversePolynomial
         else Z.lxor (Z.shiftr checksum 1) 0)
  end.

Definition kTableSize : Z := 256.

Definition LookupTable (ReversePolynomial : Z) : list Z :=
  (λ table_index, table_rounds ReversePolynomial 8 table_index) <$> seqZ 0 kTableSize.

Definition table_at (table : list Z) (i : Z) : outcome Z :=
  match table !! Z.to_nat i with Some v => Ret v | None => Undefined end.

Definition kAllOnes : Z := 0xFFFFFFFF.
Definition kPolynomial : Z := 0xEDB88320.
Definition kIeeeCrc32LookupTable : list Z := LookupTable kPolynomial.

(** [std::accumulate] with the function of [CalculateIeeeCrc32]. *)
Fixpoint accumulate (data : list Z) (checksum : Z) : outcome Z :=
  match data with
  | [] => Ret checksum
  | value :: data =>
      entry ← table_at kIeeeCrc32LookupTable (Z.land (Z.lxor checksum value) 0xFF);
      accumulate data (Z.lxor entry (Z.shiftr checksum 8))
  end.

Definition CalculateIeeeCrc32 (start : Z) (data : list Z) : outcome Z :=
  checksum ← accumulate data (Z.land start kAllOnes);
  Ret (Z.land 0xFFFFFFFF checksum).

Record Crc32IeeeHashCalculator := { checksum_ : Z }.

Definition new_calculator : Crc32IeeeHashCalculator := {| checksum_ := kAllOnes |}.

Definition GetChecksum (c : Crc32IeeeHashCalculator) : Z :=
  Z.land (u64 (Z.lnot (checksum_ c))) kAllOnes.

Definition crc_Update (data : list Z) (c : Crc32IeeeHashCalculator) :
    outcome (expected ErrorCode unit * Crc32IeeeHashCalculator) :=
  checksum ← CalculateIeeeCrc32 (checksum_ c) data;
  Ret (Value (), {| checksum_ := checksum |}).

Definition crc_Finalize (c : Crc32IeeeHashCalculator) : outcome (Hash * Crc32IeeeHashCalculator) :=
  let checksum := u64 (Z.lnot (checksum_ c)) in
  Ret ({| algorithm_ := kCrc32;
          raw_hash_ := [static_cast uint8_t (Z.land checksum 0xFF);
                        static_cast uint8_t (Z.land (Z.shiftr checksum 8) 0xFF);
                        static_cast uint8_t (Z.land (Z.shiftr checksum 16) 0xFF);
                        static_cast uint8_t (Z.land (Z.shiftr checksum 24) 0xFF)] |}, c).

#[export] Instance crc_calculator : IHashCalculator Crc32IeeeHashCalculator :=
  { Update := crc_Update; Finalize := crc_Finalize }.

(** ** The polynomials *)

(** x^32 + x^26 + x^23 + x^22 + x^16 + x^12 + x^11 + x^10 + x^8 + x^7 + x^5 +
    x^4 + x^2 + x + 1 *)
Definition generator : Z :=
  fold_right (λ i p, Z.lxor (Z.shiftl 1 i) p) 0 [32; 26; 23; 22; 16; 12; 11; 10; 8; 7; 5; 4; 2; 1; 0].

(** The polynomial with these coefficients, that of the highest power first. *)
Definition poly (bits : list bool) : Z := fold_left (λ p b, Z.lxor (Z.shiftl p 1) (Z.b2z b)) bits 0.

(** The bits of a byte, the least significant one first. *)
Definition byte_bits (v : Z) : list bool := Z.testbit v <$> seqZ 0 8.

Definition message_bits (m : list Z) : list bool := flat_map byte_bits m.

(** The multiples of the generator: sums of its products with powers of x. *)
Inductive multiple : Z → Prop :=
| multiple_0 : multiple 0
| multiple_add a n : multiple a → 0 <= n → multiple (Z.lxor a (Z.shiftl generator n)).

(** [a] and [b] have the same remainder. *)
Definition congruent (a b : Z) : Prop := multiple (Z.lxor a b).

(** The polynomial whose coefficient of x^i is bit [31 - i] of [r]. *)
Definition reflect (r : Z) : Z := poly (Z.testbit r <$> seqZ 0 32).

Lemma multiple_shift a : multiple a → multiple (Z.shiftl a 1).
Proof.
  induction 1 as [|a n _ IH Hn]; [constructor|].
  rewrite Z.shiftl_lxor, Z.shiftl_shiftl by lia. constructor; [done|lia].
Qed.

Lemma multiple_sum a b : multiple a → multiple b → multiple (Z.lxor a b).
Proof.
  intros Ha. induction 1 as [|b n _ IH Hn]; [by rewrite Z.lxor_0_r|].
  rewrite <- Z.lxor_assoc. by constructor.
Qed.

Lemma multiple_generator : multiple generator.
Proof. apply (multiple_add 0 0); [constructor|lia]. Qed.

(** ** Bits of polynomials *)

Lemma poly_snoc l b : poly (l ++ [b]) = Z.lxor (Z.shiftl (poly l) 1) (Z.b2z b).
Proof. unfold poly. by rewrite fold_left_app. Qed.

Lemma b2z_testbit b i : Z.testbit (Z.b2z b) i = b && (i =? 0).
Proof.
  destruct (Z.eqb_spec i 0) as [->|Hi]; [by destruct b|]. rewrite andb_false_r.
  destruct b; [|apply Z.testbit_0_l]. destruct (Z.lt_ge_cases i 0); [by apply Z.testbit_neg_r|].
  apply (Z.bits_above_log2 1); simpl; lia.
Qed.

Lemma poly_testbit l i : 0 <= i →
  Z.testbit (poly l) i = default false (rev l !! Z.to_nat i).
Proof.
  revert i. induction l as [|b l IH] using rev_ind; intros i Hi.
  { unfold poly. simpl. by rewrite Z.testbit_0_l. }
  rewrite poly_snoc, Z.lxor_spec, b2z_testbit, rev_app_distr. simpl.
  destruct (Z.eqb_spec i 0) as [->|Hi0].
  - rewrite Z.shiftl_spec_low by lia. simpl. by destruct b.
  - rewrite Z.shiftl_spec, IH by lia. rewrite andb_false_r, xorb_false_r.
    replace (Z.to_nat i) with (S (Z.to_nat (i - 1))) by lia. done.
Qed.

Lemma reflect_testbit r i : 0 <= i → Z.testbit (reflect r) i = (i <? 32) && Z.testbit r (31 - i).
Proof.
  intros Hi. unfold reflect. rewrite poly_testbit by done.
  destruct (Z.ltb_spec i 32) as [Hl|Hl].
  - assert (∃ k, i = Z.of_nat k ∧ (k < 32)%nat) as (k & -> & Hk) by (exists (Z.to_nat i); lia).
    rewrite Nat2Z.id. do 32 (destruct k as [|k]; [done|]). lia.
  - rewrite lookup_ge_None_2; [done|]. rewrite length_rev, length_fmap, length_seqZ. lia.
Qed.

(** ** One bit at a time *)

Definition shift_step (r : Z) : Z := Z.lxor (Z.shiftr r 1) (if Z.odd r then kPolynomial else 0).

Definition crc_bit (r : Z) (b : bool) : Z := shift_step (Z.lxor r (Z.b2z b)).

Lemma odd_lxor a b : Z.odd (Z.lxor a b) = xorb (Z.odd a) (Z.odd b).
Proof. by rewrite <- !Z.bit0_odd, Z.lxor_spec. Qed.

Lemma shift_step_lxor a b : shift_step (Z.lxor a b) = Z.lxor (shift_step a) (shift_step b).
Proof.
  unfold shift_step. rewrite odd_lxor, Z.shiftr_lxor. apply Z.bits_inj'. intros n Hn.
  rewrite !Z.lxor_spec. destruct (Z.odd a), (Z.odd b); cbn [xorb]; rewrite ?Z.testbit_0_l;
    by destruct (Z.testbit (Z.shiftr a 1) n), (Z.testbit (Z.shiftr b 1) n), (Z.testbit kPolynomial n).
Qed.

Lemma shift_step_double a : shift_step (Z.shiftl a 1) = a.
Proof.
  unfold shift_step. rewrite Z.shiftr_shiftl_l, Z.sub_diag, Z.shiftl_0_r by lia.
  by rewrite <- Z.bit0_odd, Z.shiftl_spec_low, Z.lxor_0_r by lia.
Qed.

Lemma iter_lxor n a b :
  Nat.iter n shift_step (Z.lxor a b) = Z.lxor (Nat.iter n shift_step a) (Nat.iter n shift_step b).
Proof. induction n as [|n IH]; [done|]. simpl. by rewrite IH, shift_step_lxor. Qed.

Lemma iter_shift n a : Nat.iter n shift_step (Z.shiftl a (Z.of_nat n)) = a.
Proof.
  induction n as [|n IH]; [apply Z.shiftl_0_r|]. rewrite Nat.iter_succ_r.
  rewrite Nat2Z.inj_succ, <- Z.add_1_r, <- Z.shiftl_shiftl, shift_step_double by lia. done.
Qed.

(** The number with these bits, the least significant one first. *)
Definition number (l : list bool) : Z := fold_right (λ b n, Z.lxor (Z.b2z b) (Z.shiftl n 1)) 0 l.

Lemma fold_crc_bit l r : fold_left crc_bit l r = Nat.iter (length l) shift_step (Z.lxor r (number l)).
Proof.
  revert r. induction l as [|b l IH]; intros r; [simpl; by rewrite Z.lxor_0_r|].
  cbn [fold_left length number fold_right]. rewrite Nat.iter_succ_r, IH. fold (number l).
  f_equal. by rewrite <- Z.lxor_assoc, shift_step_lxor, shift_step_double.
Qed.

Lemma number_byte v : byte v → number (byte_bits v) = v.
Proof.
  intros Hv. assert (forallb (λ v, number (byte_bits v) =? v) (seqZ 0 256) = true) as H by by vm_compute.
  rewrite forallb_forall in H. apply Z.eqb_eq, H. apply list_elem_of_In, elem_of_seqZ. unfold byte in Hv. lia.
Qed.

Lemma table_rounds_iter n c : table_rounds kPolynomial n c = Nat.iter n shift_step c.
Proof.
  revert c. induction n as [|n IH]; intros c; [done|]. rewrite Nat.iter_succ_r, <- IH.
  cbn [table_rounds]. f_equal. unfold shift_step. change 1 with (Z.ones 1) at 1.
  rewrite Z.land_ones, Zmod_odd by lia. by destruct (Z.odd c).
Qed.

Lemma table_entry x : 0 <= x < 256 →
  table_at kIeeeCrc32LookupTable x = Ret (Nat.iter 8 shift_step x).
Proof.
  intros Hx. unfold table_at, kIeeeCrc32LookupTable, LookupTable, kTableSize.
  rewrite list_lookup_fmap, lookup_seqZ_lt by lia. cbn [fmap option_fmap option_map].
  by rewrite table_rounds_iter, Z.add_0_l, Z2Nat.id by lia.
Qed.

(** The table takes eight bits at a time. *)
Lemma byte_step c v : byte v →
  Z.lxor (Nat.iter 8 shift_step (Z.land (Z.lxor c v) 0xFF)) (Z.shiftr c 8) = fold_left crc_bit (byte_bits v) c.
Proof.
  intros Hv. rewrite fold_crc_bit, number_byte by done. change (length (byte_bits v)) with 8%nat.
  rewrite <- (iter_shift 8 (Z.shiftr c 8)), <- iter_lxor. f_equal. apply Z.bits_inj'. intros i Hi.
  rewrite Z.lxor_spec, Z.land_spec, Z.lxor_spec. change 0xFF with (Z.ones 8).
  destruct (Z.lt_ge_cases i 8).
  - by rewrite Z.ones_spec_low, Z.shiftl_spec_low, andb_true_r, xorb_false_r by (simpl; lia).
  - rewrite Z.ones_spec_high, Z.shiftl_spec, Z.shiftr_spec, andb_false_r by (simpl; lia).
    rewrite (testbit_above v 8), xorb_false_r by (unfold byte in Hv; lia). cbn [xorb]. f_equal. lia.
Qed.

Lemma accumulate_bits m c : Forall byte m →
  accumulate m c = Ret (fold_left crc_bit (message_bits m) c).
Proof.
  intros Hm. revert c. induction Hm as [|v m Hv _ IH]; intros c; [done|].
  cbn [accumulate message_bits flat_map]. fold (message_bits m).
  rewrite table_entry by (apply (land_range_r _ _ 8); lia). cbn [mbind outcome_bind].
  by rewrite fold_left_app, byte_step, IH.
Qed.

(** The register stays within 32 bits. *)
Lemma crc_bit_range r b : 0 <= r < 2 ^ 32 → 0 <= crc_bit r b < 2 ^ 32.
Proof.
  intros Hr. unfold crc_bit, shift_step. apply lxor_range; [lia| |by case_match].
  apply shiftr_range; [lia|]. apply lxor_range; [lia|done|]. by destruct b.
Qed.

Lemma crc_bits_range l r : 0 <= r < 2 ^ 32 → 0 <= fold_left crc_bit l r < 2 ^ 32.
Proof. revert r. induction l as [|b l IH]; intros r Hr; [done|]. apply IH, crc_bit_range, Hr. Qed.

(** ** The remainder *)

Lemma generator_bits i : 0 <= i →
  Z.testbit generator i = (i =? 32) || (i <? 32) && Z.testbit kPolynomial (31 - i).
Proof.
  intros Hi. destruct (Z.lt_ge_cases i 33) as [Hl|Hl].
  - assert (∃ k, i = Z.of_nat k ∧ (k < 33)%nat) as (k & -> & Hk) by (exists (Z.to_nat i); lia).
    do 33 (destruct k as [|k]; [done|]). lia.
  - rewrite (testbit_above generator 33) by (done || lia).
    by rewrite (proj2 (Z.eqb_neq _ _)), (proj2 (Z.ltb_ge _ _)) by lia.
Qed.

(** A step multiplies by x, adds the next coefficient, and subtracts the
    generator if the degree is 32. *)
Lemma reflect_crc_bit r b : 0 <= r < 2 ^ 32 →
  reflect (crc_bit r b) =
    Z.lxor (Z.lxor (Z.shiftl (reflect r) 1) (Z.shiftl (Z.b2z b) 32))
      (if xorb (Z.odd r) b then generator else 0).
Proof.
  intros Hr. apply Z.bits_inj'. intros i Hi. rewrite reflect_testbit, !Z.lxor_spec by done.
  unfold crc_bit, shift_step. rewrite odd_lxor.
  assert (Z.odd (Z.b2z b) = b) as -> by by destruct b.
  assert (∀ p q, Z.testbit (if xorb (Z.odd r) b then p else 0) q = xorb (Z.odd r) b && Z.testbit p q) as Hif.
  { intros p q. case_match; [done|]. by rewrite Z.testbit_0_l. }
  rewrite Hif, generator_bits, Z.shiftl_spec by done.
  rewrite Z.shiftl_spec, b2z_testbit by done.
  destruct (Z.lt_trichotomy i 32) as [Hl|[->|Hl]].
  - rewrite (proj2 (Z.ltb_lt i 32)), (proj2 (Z.eqb_neq i 32)), (proj2 (Z.eqb_neq (i - 32) 0)) by lia.
    rewrite Z.lxor_spec, Hif, Z.shiftr_spec, Z.lxor_spec, b2z_testbit by lia.
    rewrite (proj2 (Z.eqb_neq (31 - i + 1) 0)) by lia. cbn [andb orb].
    rewrite !andb_false_r, !xorb_false_r. f_equal. destruct (decide (i = 0)) as [->|].
    + by rewrite (testbit_above r 32), Z.testbit_neg_r by lia.
    + rewrite reflect_testbit, (proj2 (Z.ltb_lt _ _)) by lia. cbn [andb]. f_equal. lia.
  - rewrite reflect_testbit by lia. change (32 - 32 =? 0) with true. change (32 =? 32) with true.
    change (32 <? 32) with false. change (32 - 1 <? 32) with true. change (31 - (32 - 1)) with 0.
    rewrite Z.bit0_odd, !andb_true_r. by destruct (Z.odd r), b.
  - rewrite reflect_testbit by lia. rewrite !(proj2 (Z.ltb_ge _ _)) by lia.
    rewrite (proj2 (Z.eqb_neq (i - 32) 0)), (proj2 (Z.eqb_neq i 32)) by lia. cbn [andb orb xorb].
    by rewrite !andb_false_r.
Qed.

(** The register after any bits is the remainder. *)
Lemma crc_remainder l r : 0 <= r < 2 ^ 32 →
  congruent (reflect (fold_left crc_bit l r))
    (Z.lxor (Z.shiftl (poly l) 32) (Z.shiftl (reflect r) (Z.of_nat (length l)))).
Proof.
  intros Hr. unfold congruent. induction l as [|b l IH] using rev_ind.
  { cbn [fold_left length]. change (poly []) with 0. change (Z.of_nat 0) with 0.
    rewrite Z.shiftl_0_l, Z.shiftl_0_r, Z.lxor_0_l, Z.lxor_nilpotent. constructor. }
  rewrite fold_left_app. cbn [fold_left]. rewrite reflect_crc_bit by (by apply crc_bits_range).
  rewrite poly_snoc, length_app. cbn [length].
  set (q := reflect _) in *. set (t := xorb _ _).
  replace (Z.of_nat (length l + 1)) with (Z.of_nat (length l) + 1) by lia.
  rewrite Z.shiftl_lxor, <- (Z.shiftl_shiftl (reflect r)) by lia.
  rewrite (Z.shiftl_shiftl (poly l)), (Z.add_comm 1), <- Z.shiftl_shiftl by lia.
  set (u := Z.shiftl (poly l) 32) in *. set (v := Z.shiftl (reflect r) _) in *.
  set (w := Z.shiftl (Z.b2z b) 32). set (g := if t then generator else 0).
  assert (Z.lxor (Z.lxor (Z.lxor (Z.shiftl q 1) w) g) (Z.lxor (Z.lxor (Z.shiftl u 1) w) (Z.shiftl v 1)) =
          Z.lxor (Z.shiftl (Z.lxor q (Z.lxor u v)) 1) g) as ->.
  { rewrite !Z.shiftl_lxor. apply Z.bits_inj'. intros i Hi. rewrite !Z.lxor_spec.
    generalize (Z.testbit (Z.shiftl q 1) i) (Z.testbit (Z.shiftl u 1) i) (Z.testbit (Z.shiftl v 1) i)
      (Z.testbit w i) (Z.testbit g i). by intros [] [] [] [] []. }
  apply multiple_sum; [by apply multiple_shift|]. unfold g. case_match; [apply multiple_generator|constructor].
Qed.

(** ** The calculator *)

(** The register after a message. *)
Definition register (m : list Z) : Z := fold_left crc_bit (message_bits m) kAllOnes.

Lemma register_range m : 0 <= register m < 2 ^ 32.
Proof. by apply crc_bits_range. Qed.

Lemma mask_id c : 0 <= c < 2 ^ 32 → Z.land c kAllOnes = c.
Proof. intros Hc. change kAllOnes with (Z.ones 32). rewrite Z.land_ones by lia. by apply Z.mod_small. Qed.

Lemma crc_update c m data : checksum_ c = register m → Forall byte data →
  ∃ c', crc_Update data c = Ret (Value (), c') ∧ checksum_ c' = register (m ++ data).
Proof.
  intros Hc Hd. unfold crc_Update, CalculateIeeeCrc32. rewrite Hc, mask_id by apply register_range.
  rewrite accumulate_bits by done. cbn [mbind outcome_bind].
  assert (fold_left crc_bit (message_bits data) (register m) = register (m ++ data)) as ->.
  { unfold register, message_bits. by rewrite flat_map_app, fold_left_app. }
  eexists. split; [done|]. cbn [checksum_]. rewrite Z.land_comm. apply mask_id, register_range.
Qed.

Lemma crc_update_all datas c m : checksum_ c = register m → Forall (Forall byte) datas →
  ∃ c', update_all datas c = Ret (Value (), c') ∧ checksum_ c' = register (m ++ concat datas).
Proof.
  intros Hc Hd. revert c m Hc. induction Hd as [|data datas Hb _ IH]; intros c m Hc.
  { exists c. by rewrite app_nil_r. }
  destruct (crc_update c m data Hc Hb) as (c1 & E & Hc1). cbn [update_all Update crc_calculator concat].
  rewrite E, app_assoc. by apply IH.
Qed.

Lemma inverted_bits c i : 0 <= c < 2 ^ 32 → 0 <= i < 32 →
  Z.testbit (u64 (Z.lnot c)) i = negb (Z.testbit c i).
Proof.
  intros Hc Hi. unfold u64. change (static_cast uint64_t (Z.lnot c)) with (Z.lnot c mod 2 ^ 64).
  rewrite Z.mod_pow2_bits_low, Z.lnot_spec by lia. done.
Qed.

Lemma checksum_inverted c : 0 <= checksum_ c < 2 ^ 32 → GetChecksum c = Z.lxor (checksum_ c) kAllOnes.
Proof.
  intros Hc. unfold GetChecksum. apply Z.bits_inj'. intros i Hi. change kAllOnes with (Z.ones 32).
  rewrite Z.land_spec, Z.lxor_spec. destruct (Z.lt_ge_cases i 32).
  - rewrite inverted_bits, Z.ones_spec_low by lia. by destruct (Z.testbit (checksum_ c) i).
  - by rewrite Z.ones_spec_high, (testbit_above (checksum_ c) 32), andb_false_r by lia.
Qed.

(** A byte of the inverted register is one of the checksum. *)
Lemma checksum_byte c k : 0 <= checksum_ c < 2 ^ 32 → 0 <= k <= 24 →
  static_cast uint8_t (Z.land (Z.shiftr (u64 (Z.lnot (checksum_ c))) k) 0xFF) = GetChecksum c / 2 ^ k mod 256.
Proof.
  intros Hc Hk. rewrite byte_cast by (apply (land_range_r _ _ 8); lia).
  rewrite checksum_inverted, <- Z.shiftr_div_pow2 by (done || lia). change 256 with (2 ^ 8).
  rewrite <- Z.land_ones by lia. change 0xFF with (Z.ones 8). apply Z.bits_inj'. intros i Hi.
  rewrite !Z.land_spec, !Z.shiftr_spec by done. destruct (Z.lt_ge_cases i 8).
  - rewrite inverted_bits, Z.lxor_spec by lia. change kAllOnes with (Z.ones 32).
    by rewrite (Z.ones_spec_low 32), xorb_true_r by lia.
  - by rewrite Z.ones_spec_high, !andb_false_r by lia.
Qed.

Lemma crc_finalize c : 0 <= checksum_ c < 2 ^ 32 →
  crc_Finalize c = Ret ({| algorithm_ := kCrc32;
                           raw_hash_ := (λ k, GetChecksum c / 2 ^ k mod 256) <$> [0; 8; 16; 24] |}, c).
Proof.
  intros Hc. unfold crc_Finalize. rewrite <- (Z.shiftr_0_r (u64 (Z.lnot (checksum_ c)))) at 1.
  by rewrite !checksum_byte by (done || lia).
Qed.

Lemma message_bits_length m : Z.of_nat (length (message_bits m)) = 8 * Z.of_nat (length m).
Proof.
  induction m as [|v m IH]; [done|]. cbn [message_bits flat_map length]. fold (message_bits m).
  rewrite length_app. change (length (byte_bits v)) with 8%nat. lia.
Qed.

#[export] Program Instance crc_digests : Digests Crc32IeeeHashCalculator := {
  digest m := {| algorithm_ := kCrc32;
                 raw_hash_ := (λ k, Z.lxor (register m) kAllOnes / 2 ^ k mod 256) <$> [0; 8; 16; 24] |};
  limit := 2 ^ 64;
  consumed c m := checksum_ c = register m;
}.
Next Obligation. intros c m data Hc Hd _ _. by apply crc_update. Qed.
Next Obligation. intros c m Hc. destruct (crc_update c m [] Hc) as (c' & E & Hc'); [done|]. rewrite app_nil_r in Hc'. eauto. Qed.
Next Obligation.
  intros c m Hc. pose proof (register_range m) as Hr. rewrite <- Hc in Hr.
  exists c. cbn [Finalize crc_calculator]. by rewrite crc_finalize, checksum_inverted, Hc.
Qed.

(** C9: The checksum of any sequence of updates is that of CRC-32: inverted, it is
    congruent modulo the generator to the message times x^32 with its first 32
    coefficients inverted.  [Finalize] returns its bytes, the least significant
    one first. *)
Theorem crc32_checksum datas :
  Forall (Forall byte) datas →
  ∃ c, update_all datas new_calculator = Ret (Value (), c) ∧
    let m := concat datas in
    0 <= GetChecksum c < 2 ^ 32 ∧
    congruent (reflect (Z.lxor (GetChecksum c) kAllOnes))
      (Z.lxor (Z.shiftl (poly (message_bits m)) 32) (Z.shiftl kAllOnes (8 * Z.of_nat (length m)))) ∧
    Finalize c = Ret ({| algorithm_ := kCrc32;
                         raw_hash_ := (λ k, GetChecksum c / 2 ^ k mod 256) <$> [0; 8; 16; 24] |}, c).
Proof.
  intros Hd. destruct (crc_update_all datas new_calculator [] eq_refl Hd) as (c & E & Hc).
  exists c. split; [done|]. cbn [app] in Hc. set (m := concat datas) in *.
  pose proof (register_range m) as Hr. rewrite <- Hc in Hr. split; [|split].
  - rewrite checksum_inverted by done. by apply lxor_range.
  - rewrite checksum_inverted, Z.lxor_assoc, Z.lxor_nilpotent, Z.lxor_0_r, Hc by done.
    pose proof (crc_remainder (message_bits m) kAllOnes) as H. rewrite message_bits_length in H.
    replace (reflect kAllOnes) with kAllOnes in H by by vm_compute. by apply H.
  - by apply crc_finalize.
Qed.

Lemma crc32_checksum_witness :
  ∃ c, update_all [[49; 50; 51]; [52; 53; 54; 55; 56; 57]] new_calculator = Ret (Value (), c) ∧
    GetChecksum c = 0xCBF43926 ∧
    congruent (reflect (Z.lxor (GetChecksum c) kAllOnes))
      (Z.lxor (Z.shiftl (poly (message_bits [49; 50; 51; 52; 53; 54; 55; 56; 57])) 32) (Z.shiftl kAllOnes 72)).
Proof.
  destruct (crc32_checksum [[49; 50; 51]; [52; 53; 54; 55; 56; 57]]) as (c & E & _ & H & _).
  { repeat constructor; unfold byte; lia. }
  exists c. split; [exact E|]. split; [|exact H].
  vm_compute in E. by injection E as <-.
Defined.

End Crc32.
