(* ===== verification/Sha256.v ===== *)
(** * SHA-256: hash/code/sha256digest

    [Sha256Digest] with its [MessageBuffer].  A word is an integer modulo 2^32;
    a [std::array] is a list whose accesses are checked.  A failed precondition
    or assertion aborts.  The machine is little-endian, as [Finalize] asserts;
    the expression [&*hash_.end()] is the address behind the array. *)

From S2P Require Import Prelude CppInt Hash HashCalculator.

Local Open Scope Z_scope.

Module Sha256.
Import Hash HashCalculator.

Definition u32 : Z → Z := static_cast uint32_t.

Definition PRECONDITION {A} (b : bool) (k : outcome A) : outcome A := if b then k else Aborted.

(** An access to an array. *)
Definition at_ (l : list Z) (i : Z) : outcome Z :=
  match l !! Z.to_nat i with Some v => Ret v | None => Undefined end.

Definition set_at (l : list Z) (i : Z) (v : Z) : outcome (list Z) :=
  if decide (Z.to_nat i < length l)%nat then Ret (<[Z.to_nat i := v]> l) else Undefined.

(** ** MessageBuffer *)

Definition N : Z := 64.

Record MessageBuffer := { buffer_ : list Z; size_ : Z }.

Definition new_buffer : MessageBuffer := {| buffer_ := replicate 64 0; size_ := 0 |}.

Definition clear (b : MessageBuffer) : MessageBuffer := {| buffer_ := buffer_ b; size_ := 0 |}.

Definition push_back (val : Z) (b : MessageBuffer) : outcome MessageBuffer :=
  PRECONDITION (size_ b <? N)
  (l ← set_at (buffer_ b) (size_ b) val;
   Ret {| buffer_ := l; size_ := static_cast uint8_t (size_ b + 1) |}).

Definition buffer_at (b : MessageBuffer) (pos : Z) : outcome Z :=
  PRECONDITION (pos <? N) (at_ (buffer_ b) pos).

(** [std::copy_n] into the buffer. *)
Fixpoint copy_n (data : list Z) (count : nat) (l : list Z) (pos : Z) {struct count} : outcome (list Z) :=
  match count with
  | O => Ret l
  | S count =>
      match data with
      | [] => Undefined
      | v :: data => l ← set_at l pos v; copy_n data count l (pos + 1)
      end
  end.

Definition fill_from (data : list Z) (b : MessageBuffer) : outcome (Z * MessageBuffer) :=
  let data_size := Z.min (max uint8_t) (Z.of_nat (length data)) in
  PRECONDITION (size_ b <? N)
  (let remaining := u64 (N - size_ b) in
   let count := Z.min remaining data_size in
   l ← copy_n data (Z.to_nat count) (buffer_ b) (size_ b);
   PRECONDITION (u64 (size_ b + count) <=? max uint8_t)
   (Ret (static_cast uint8_t count,
         {| buffer_ := l; size_ := static_cast uint8_t (size_ b + static_cast uint8_t count) |}))).

(** ** The functions and constants *)

Definition kSha256Constants : list Z := [
  0x428A2F98; 0x71374491; 0xB5C0FBCF; 0xE9B5DBA5; 0x3956C25B; 0x59F111F1; 0x923F82A4; 0xAB1C5ED5;
  0xD807AA98; 0x12835B01; 0x243185BE; 0x550C7DC3; 0x72BE5D74; 0x80DEB1FE; 0x9BDC06A7; 0xC19BF174;
  0xE49B69C1; 0xEFBE4786; 0x0FC19DC6; 0x240CA1CC; 0x2DE92C6F; 0x4A7484AA; 0x5CB0A9DC; 0x76F988DA;
  0x983E5152; 0xA831C66D; 0xB00327C8; 0xBF597FC7; 0xC6E00BF3; 0xD5A79147; 0x06CA6351; 0x14292967;
  0x27B70A85; 0x2E1B2138; 0x4D2C6DFC; 0x53380D13; 0x650A7354; 0x766A0ABB; 0x81C2C92E; 0x92722C85;
  0xA2BFE8A1; 0xA81A664B; 0xC24B8B70; 0xC76C51A3; 0xD192E819; 0xD6990624; 0xF40E3585; 0x106AA070;
  0x19A4C116; 0x1E376C08; 0x2748774C; 0x34B0BCB5; 0x391C0CB3; 0x4ED8AA4A; 0x5B9CCA4F; 0x682E6FF3;
  0x748F82EE; 0x78A5636F; 0x84C87814; 0x8CC70208; 0x90BEFFFA; 0xA4506CEB; 0xBEF9A3F7; 0xC67178F2].

Definition kSha256StartingValues : list Z := [
  0x6A09E667; 0xBB67AE85; 0x3C6EF372; 0xA54FF53A; 0x510E527F; 0x9B05688C; 0x1F83D9AB; 0x5BE0CD19].

(** [~x] of a word. *)
Definition lnot32 (x : Z) : Z := u32 (Z.lnot x).

(** A shift by the width of the type is undefined. *)
Definition RotateRight32 (val amount : Z) : outcome Z :=
  PRECONDITION (amount <? 32)
  (if 32 - amount <? 32 then Ret (Z.lor (Z.shiftr val amount) (u32 (Z.shiftl val (32 - amount))))
   else Undefined).

Definition Ch (x y z : Z) : Z := Z.lxor (Z.land x y) (Z.land (lnot32 x) z).

Definition Maj (x y z : Z) : Z := Z.lxor (Z.lxor (Z.land x y) (Z.land x z)) (Z.land y z).

Definition Bsig0 (x : Z) : outcome Z :=
  a ← RotateRight32 x 2; b ← RotateRight32 x 13; c ← RotateRight32 x 22; Ret (Z.lxor (Z.lxor a b) c).

Definition Bsig1 (x : Z) : outcome Z :=
  a ← RotateRight32 x 6; b ← RotateRight32 x 11; c ← RotateRight32 x 25; Ret (Z.lxor (Z.lxor a b) c).

Definition Ssig0 (x : Z) : outcome Z :=
  a ← RotateRight32 x 7; b ← RotateRight32 x 18; Ret (Z.lxor (Z.lxor a b) (Z.shiftr x 3)).

Definition Ssig1 (x : Z) : outcome Z :=
  a ← RotateRight32 x 17; b ← RotateRight32 x 19; Ret (Z.lxor (Z.lxor a b) (Z.shiftr x 10)).

(** ** Sha256Digest *)

Definition kBufferSize : Z := 64.

Record Sha256Digest := { buffer : MessageBuffer; hash_ : list Z; message_len_ : Z }.

Definition new_digest : Sha256Digest :=
  {| buffer := new_buffer; hash_ := kSha256StartingValues; message_len_ := 0 |}.

(** [for (t = first; t < first + count; ++t)] *)
Fixpoint for_ {A} (count : nat) (t : Z) (body : Z → A → outcome A) (a : A) : outcome A :=
  match count with
  | O => Ret a
  | S count => a ← body t a; for_ count (t + 1) body a
  end.

(** The first 16 words of the message schedule. *)
Definition load_word (b : MessageBuffer) (t : Z) (message : list Z) : outcome (list Z) :=
  b0 ← buffer_at b (t * 4);
  b1 ← buffer_at b (t * 4 + 1);
  b2 ← buffer_at b (t * 4 + 2);
  b3 ← buffer_at b (t * 4 + 3);
  set_at message t
    (Z.lor (Z.lor (Z.lor (u32 (Z.shiftl b0 24)) (u32 (Z.shiftl b1 16))) (u32 (Z.shiftl b2 8))) b3).

(** The other words. *)
Definition extend_word (t : Z) (message : list Z) : outcome (list Z) :=
  m2 ← at_ message (t - 2); s1 ← Ssig1 m2;
  m7 ← at_ message (t - 7);
  m15 ← at_ message (t - 15); s0 ← Ssig0 m15;
  m16 ← at_ message (t - 16);
  set_at message t (u32 (u32 (u32 (s1 + m7) + s0) + m16)).

(** The variables [a] to [h]. *)
Record working := { va : Z; vb : Z; vc : Z; vd : Z; ve : Z; vf : Z; vg : Z; vh : Z }.

Definition round_step (message : list Z) (round : Z) (v : working) : outcome working :=
  bsig1 ← Bsig1 (ve v);
  k ← at_ kSha256Constants round;
  m ← at_ message round;
  let t1 := u32 (u32 (u32 (u32 (vh v + bsig1) + Ch (ve v) (vf v) (vg v)) + k) + m) in
  bsig0 ← Bsig0 (va v);
  let t2 := u32 (bsig0 + Maj (va v) (vb v) (vc v)) in
  Ret {| va := u32 (t1 + t2); vb := va v; vc := vb v; vd := vc v; ve := u32 (vd v + t1);
         vf := ve v; vg := vf v; vh := vg v |}.

(** The three loops of [UpdateHash]. *)
Definition message_schedule (b : MessageBuffer) : outcome (list Z) :=
  message ← for_ 16 0 (load_word b) (replicate 64 0);
  for_ 48 16 extend_word message.

Definition rounds (message : list Z) (v : working) : outcome working := for_ 64 0 (round_step message) v.

Definition UpdateHash (d : Sha256Digest) : outcome Sha256Digest :=
  PRECONDITION (size_ (buffer d) =? kBufferSize)
  match hash_ d with
  | [h0; h1; h2; h3; h4; h5; h6; h7] =>
      let v := {| va := h0; vb := h1; vc := h2; vd := h3; ve := h4; vf := h5; vg := h6; vh := h7 |} in
      message ← message_schedule (buffer d);
      v ← rounds message v;
      Ret {| buffer := buffer d;
             hash_ := [u32 (h0 + va v); u32 (h1 + vb v); u32 (h2 + vc v); u32 (h3 + vd v);
                       u32 (h4 + ve v); u32 (h5 + vf v); u32 (h6 + vg v); u32 (h7 + vh v)];
             message_len_ := message_len_ d |}
  | _ => Undefined
  end.

Definition set_buffer (b : MessageBuffer) (d : Sha256Digest) : Sha256Digest :=
  {| buffer := b; hash_ := hash_ d; message_len_ := message_len_ d |}.

(** The loop of [Update]; every round takes a byte. *)
Fixpoint Update_loop (fuel : nat) (data : list Z) (start_index : Z) (d : Sha256Digest) :
    outcome Sha256Digest :=
  if start_index <? Z.of_nat (length data) then
    match fuel with
    | O => Undefined
    | S fuel =>
        let chunk := drop (Z.to_nat start_index) data in
        '(n, b) ← fill_from chunk (buffer d);
        let start_index := u64 (start_index + n) in
        let d := set_buffer b d in
        if size_ b =? kBufferSize then
          d ← UpdateHash d;
          Update_loop fuel data start_index (set_buffer (clear (buffer d)) d)
        else Update_loop fuel data start_index d
    end
  else Ret d.

(** An empty span, also one without data, is refused. *)
Definition sha_Update (data : list Z) (d : Sha256Digest) :
    outcome (expected ErrorCode unit * Sha256Digest) :=
  match data with
  | [] => Ret (Unexpected kInvalidParameters, d)
  | _ =>
      d ← Update_loop (length data) data 0 d;
      PRECONDITION (Z.of_nat (length data) <? max uint64_t / 8)
      (let count := u64 (Z.of_nat (length data) * 8) in
       PRECONDITION (message_len_ d <? u64 (max uint64_t - count))
       (Ret (Value (), {| buffer := buffer d; hash_ := hash_ d;
                          message_len_ := u64 (message_len_ d + count) |})))
  end.

(** [while (buffer_.size() < n) buffer_.push_back(0U)] *)
Fixpoint pad_to (fuel : nat) (n : Z) (b : MessageBuffer) : outcome MessageBuffer :=
  if size_ b <? n then
    match fuel with
    | O => Undefined
    | S fuel => b ← push_back 0 b; pad_to fuel n b
    end
  else Ret b.

(** The loop that appends the length; [count] rounds are left. *)
Fixpoint push_length (count : nat) (message_len : Z) (b : MessageBuffer) : outcome MessageBuffer :=
  match count with
  | O => Ret b
  | S count' =>
      let shift_reduced := 8 * Z.of_nat count - 8 in
      let final_byte := Z.land (Z.shiftr message_len shift_reduced) 0xFF in
      PRECONDITION (final_byte <=? max uint8_t)
      (b ← push_back (static_cast uint8_t final_byte) b; push_length count' message_len b)
  end.

(** The bytes of a word in reverse order. *)
Definition swap_word (word : Z) : Z :=
  Z.lor (Z.lor (Z.lor (Z.shiftr word 24) (Z.land (Z.shiftr word 8) 0xFF00))
          (Z.land (u32 (Z.shiftl word 8)) 0xFF0000)) (Z.land (u32 (Z.shiftl word 24)) 0xFF000000).

(** The bytes of a word in memory, on a little-endian machine. *)
Definition word_bytes (word : Z) : list Z := (λ k, word / 2 ^ k mod 256) <$> [0; 8; 16; 24].

Definition sha_Finalize (d : Sha256Digest) : outcome (Hash * Sha256Digest) :=
  b ← push_back 128 (buffer d);
  let d := set_buffer b d in
  d ← (if 56 <? size_ (buffer d) then
         b ← pad_to 64 64 (buffer d);
         d ← UpdateHash (set_buffer b d);
         Ret (set_buffer (clear (buffer d)) d)
       else Ret d);
  b ← pad_to 64 56 (buffer d);
  PRECONDITION (size_ b =? 56)
  (b ← push_length 8 (message_len_ d) b;
   PRECONDITION (size_ b =? 64)
   (d ← UpdateHash (set_buffer b d);
    let hash := swap_word <$> hash_ d in
    let d := {| buffer := clear (buffer d); hash_ := hash; message_len_ := message_len_ d |} in
    Ret ({| algorithm_ := kSha256; raw_hash_ := flat_map word_bytes hash |}, d))).

#[export] Instance sha_calculator : IHashCalculator Sha256Digest :=
  { Update := sha_Update; Finalize := sha_Finalize }.

End Sha256.
