(* ===== verification/Sha256Spec.v ===== *)
(** * SHA-256: the standard, and that the calculator implements it

    [Spec] is the definition of FIPS 180-4: padding, parsing into blocks, the
    message schedule and the compression function, with the constants computed
    from the roots of the first prime numbers.  The theorems: the calculator
    returns, after any sequence of updates, the digest of the concatenated
    message; its constants are those of the standard. *)

From S2P Require Import Prelude CppInt WordBits Hash HashCalculator Sha256.

Local Open Scope Z_scope.

Module Spec.

Definition add32 (a b : Z) : Z := (a + b) mod 2 ^ 32.

Definition ROTR (n x : Z) : Z := x / 2 ^ n + x mod 2 ^ n * 2 ^ (32 - n).
Definition SHR (n x : Z) : Z := x / 2 ^ n.

Definition Ch (x y z : Z) : Z := Z.lxor (Z.land x y) (Z.land (2 ^ 32 - 1 - x) z).
Definition Maj (x y z : Z) : Z := Z.lxor (Z.lxor (Z.land x y) (Z.land x z)) (Z.land y z).
Definition Sigma0 (x : Z) : Z := Z.lxor (Z.lxor (ROTR 2 x) (ROTR 13 x)) (ROTR 22 x).
Definition Sigma1 (x : Z) : Z := Z.lxor (Z.lxor (ROTR 6 x) (ROTR 11 x)) (ROTR 25 x).
Definition sigma0 (x : Z) : Z := Z.lxor (Z.lxor (ROTR 7 x) (ROTR 18 x)) (SHR 3 x).
Definition sigma1 (x : Z) : Z := Z.lxor (Z.lxor (ROTR 17 x) (ROTR 19 x)) (SHR 10 x).

(** ** Constants *)

Definition prime (n : Z) : bool := forallb (λ d, negb (n mod d =? 0)) (seqZ 2 (n - 2)).

(** The first 64 prime numbers. *)
Definition primes : list Z := filter (λ n, prime n = true) (seqZ 2 310).

(** The largest [r] with [r ^ 3 <= n], by its bits. *)
Fixpoint cube_root (bits : nat) (n r : Z) : Z :=
  match bits with
  | O => r
  | S bits =>
      let r' := r + 2 ^ Z.of_nat bits in
      cube_root bits n (if r' ^ 3 <=? n then r' else r)
  end.

(** The first 32 bits of the fractional part of the cube root of [p]. *)
Definition cube_root_fraction (p : Z) : Z := cube_root 40 (p * 2 ^ 96) 0 mod 2 ^ 32.
Definition square_root_fraction (p : Z) : Z := Z.sqrt (p * 2 ^ 64) mod 2 ^ 32.

Definition K : list Z := cube_root_fraction <$> primes.
Definition H0 : list Z := square_root_fraction <$> take 8 primes.

(** ** Blocks *)

(** Words, the most significant byte first. *)
Fixpoint words (l : list Z) : list Z :=
  match l with
  | a :: b :: c :: d :: l => (a * 2 ^ 24 + b * 2 ^ 16 + c * 2 ^ 8 + d) :: words l
  | _ => []
  end.

Definition big_endian (n : nat) (z : Z) : list Z :=
  (λ k, z / 2 ^ (8 * k) mod 256) <$> rev (seqZ 0 (Z.of_nat n)).

(** One bit, zeros up to 448 modulo 512 bits, and the length. *)
Definition pad (m : list Z) : list Z :=
  m ++ [128] ++ replicate (Z.to_nat ((55 - Z.of_nat (length m)) mod 64)) 0
    ++ big_endian 8 (8 * Z.of_nat (length m)).

Fixpoint blocks_of (n : nat) (l : list Z) : list (list Z) :=
  match n with O => [] | S n => take 64 l :: blocks_of n (drop 64 l) end.

Definition blocks (l : list Z) : list (list Z) := blocks_of (length l / 64) l.

(** ** The hash computation *)

Definition next_word (ws : list Z) : Z :=
  let w k := nth (length ws - k) ws 0 in
  add32 (add32 (add32 (sigma1 (w 2%nat)) (w 7%nat)) (sigma0 (w 15%nat))) (w 16%nat).

(** [n] more elements, each computed from those before it. *)
Fixpoint grow (n : nat) (next : list Z → Z) (l : list Z) : list Z :=
  match n with O => l | S n => grow n next (l ++ [next l]) end.

Definition schedule (block : list Z) : list Z := grow 48 next_word (words block).

Definition round (v : list Z) (kw : Z * Z) : list Z :=
  match v with
  | [a; b; c; d; e; f; g; h] =>
      let T1 := add32 (add32 (add32 (add32 h (Sigma1 e)) (Ch e f g)) kw.1) kw.2 in
      let T2 := add32 (Sigma0 a) (Maj a b c) in
      [add32 T1 T2; a; b; c; add32 d T1; e; f; g]
  | _ => v
  end.

Definition compress (H : list Z) (block : list Z) : list Z :=
  zip_with add32 H (fold_left round (zip K (schedule block)) H).

Definition sha256 (m : list Z) : list Z :=
  flat_map (big_endian 4) (fold_left compress (blocks (pad m)) H0).

End Spec.

Module Sha256Spec.
Import Hash HashCalculator Sha256.

(** ** Words *)

Definition word (z : Z) : Prop := 0 <= z < 2 ^ 32.

Lemma u32_mod z : u32 z = z mod 2 ^ 32.
Proof. done. Qed.

Lemma u32_word z : word (u32 z).
Proof. rewrite u32_mod. apply Z.mod_pos_bound. lia. Qed.

Lemma add32_u32 a b : u32 (a + b) = Spec.add32 a b.
Proof. done. Qed.

Lemma rotate_right x n : word x → 0 < n < 32 → RotateRight32 x n = Ret (Spec.ROTR n x).
Proof.
  intros Hx Hn. unfold RotateRight32, PRECONDITION.
  rewrite !(proj2 (Z.ltb_lt _ _)) by lia. f_equal. unfold Spec.ROTR, word in *.
  rewrite Z.shiftr_div_pow2, Z.shiftl_mul_pow2, u32_mod by lia.
  replace (2 ^ 32) with (2 ^ n * 2 ^ (32 - n)) in * by (rewrite <- Z.pow_add_r by lia; f_equal; lia).
  assert (0 < 2 ^ n) by (apply Z.pow_pos_nonneg; lia).
  assert (0 < 2 ^ (32 - n)) by (apply Z.pow_pos_nonneg; lia).
  rewrite Z.mul_mod_distr_r by lia. apply lor_disjoint; [lia|].
  split; [apply Z.div_pos; lia|]. apply Z.div_lt_upper_bound; lia.
Qed.

Lemma rotr_word x n : word x → 0 < n < 32 → word (Spec.ROTR n x).
Proof.
  intros Hx Hn. unfold word in *. unfold Spec.ROTR.
  replace (2 ^ 32) with (2 ^ n * 2 ^ (32 - n)) in * by (rewrite <- Z.pow_add_r by lia; f_equal; lia).
  assert (0 < 2 ^ n) by (apply Z.pow_pos_nonneg; lia).
  assert (0 < 2 ^ (32 - n)) by (apply Z.pow_pos_nonneg; lia).
  pose proof (Z.mod_pos_bound x (2 ^ n)). pose proof (Z.div_pos x (2 ^ n)).
  assert (x / 2 ^ n < 2 ^ (32 - n)) by (apply Z.div_lt_upper_bound; lia). nia.
Qed.

Lemma Bsig0_spec x : word x → Bsig0 x = Ret (Spec.Sigma0 x).
Proof. intros Hx. unfold Bsig0. by rewrite !rotate_right by (done || lia). Qed.

Lemma Bsig1_spec x : word x → Bsig1 x = Ret (Spec.Sigma1 x).
Proof. intros Hx. unfold Bsig1. by rewrite !rotate_right by (done || lia). Qed.

Lemma Ssig0_spec x : word x → Ssig0 x = Ret (Spec.sigma0 x).
Proof. intros Hx. unfold Ssig0. rewrite !rotate_right by (done || lia). by rewrite Z.shiftr_div_pow2 by lia. Qed.

Lemma Ssig1_spec x : word x → Ssig1 x = Ret (Spec.sigma1 x).
Proof. intros Hx. unfold Ssig1. rewrite !rotate_right by (done || lia). by rewrite Z.shiftr_div_pow2 by lia. Qed.

Lemma Ch_spec x y z : word x → Ch x y z = Spec.Ch x y z.
Proof.
  intros Hx. unfold Ch, Spec.Ch, lnot32. do 2 f_equal. rewrite u32_mod. unfold word, Z.lnot in *.
  rewrite <- (Z.mod_small (2 ^ 32 - 1 - x) (2 ^ 32)) by lia.
  replace (2 ^ 32 - 1 - x) with (Z.pred (- x) + 1 * 2 ^ 32) by lia. by rewrite Z_mod_plus_full.
Qed.

Lemma constants_K : Spec.K = kSha256Constants.
Proof. by vm_compute. Qed.

Lemma constants_H0 : Spec.H0 = kSha256StartingValues.
Proof. by vm_compute. Qed.

(** ** The message schedule *)

Lemma at_lookup l i v : l !! Z.to_nat i = Some v → at_ l i = Ret v.
Proof. intros H. unfold at_. by rewrite H. Qed.

Lemma set_at_middle l z suf v : set_at (l ++ z :: suf) (Z.of_nat (length l)) v = Ret (l ++ v :: suf).
Proof.
  unfold set_at. rewrite Nat2Z.id. rewrite decide_True by (rewrite length_app; simpl; lia).
  by rewrite insert_app_r_alt, Nat.sub_diag by done.
Qed.

(** A loop that fills an array from the left. *)
Lemma for_grow n body next lo hi : ∀ pre k,
  (∀ l z suf, Forall word l → (lo ≤ length l < hi)%nat →
     body (Z.of_nat (length l)) (l ++ z :: suf) = Ret (l ++ next l :: suf) ∧ word (next l)) →
  Forall word pre → (lo ≤ length pre)%nat → (length pre + n ≤ hi)%nat →
  for_ n (Z.of_nat (length pre)) body (pre ++ replicate (n + k) 0) =
    Ret (Spec.grow n next pre ++ replicate k 0)
  ∧ Forall word (Spec.grow n next pre) ∧ length (Spec.grow n next pre) = (length pre + n)%nat.
Proof.
  induction n as [|n IH]; intros pre k Hbody Hpre Hlo Hhi; cbn [for_ Spec.grow Nat.add].
  { split_and!; [done|done|lia]. }
  destruct (Hbody pre 0 (replicate (n + k) 0)) as [E Hw]; [done|lia|].
  cbn [replicate]. rewrite E. cbn [mbind outcome_bind].
  destruct (IH (pre ++ [next pre]) k Hbody) as (IH1 & IH2 & IH3).
  { apply Forall_app. split; [done|]. by constructor. }
  1, 2: rewrite length_app; simpl; lia.
  rewrite length_app in IH1, IH3. cbn [length] in *. rewrite <- app_assoc in IH1. cbn [app] in IH1.
  replace (Z.of_nat (length pre) + 1) with (Z.of_nat (length pre + 1)) by lia.
  rewrite IH1. split_and!; [done|done|lia].
Qed.

Lemma grow_nth n ws : ∀ k, (k + n ≤ length ws)%nat →
  Spec.grow n (λ l, nth (length l) ws 0) (take k ws) = take (k + n) ws.
Proof.
  induction n as [|n IH]; intros k Hk; cbn [Spec.grow]; [by rewrite Nat.add_0_r|].
  rewrite length_take, Nat.min_l by lia.
  destruct (lookup_lt_is_Some_2 ws k) as [w Hw]; [lia|].
  rewrite (nth_lookup_Some _ _ _ _ Hw), <- take_S_r by done.
  rewrite IH by lia. f_equal. lia.
Qed.

Lemma words_lookup t : ∀ l, (4 * t + 3 < length l)%nat →
  ∃ a b c d, l !! (4 * t)%nat = Some a ∧ l !! (4 * t + 1)%nat = Some b ∧ l !! (4 * t + 2)%nat = Some c ∧
    l !! (4 * t + 3)%nat = Some d ∧
    Spec.words l !! t = Some (a * 2 ^ 24 + b * 2 ^ 16 + c * 2 ^ 8 + d).
Proof.
  induction t as [|t IH]; intros [|a [|b [|c [|d l]]]] Hl; simpl in Hl; try lia.
  { by exists a, b, c, d. }
  destruct (IH l) as (a' & b' & c' & d' & H); [lia|]. exists a', b', c', d'.
  replace (4 * S t)%nat with (S (S (S (S (4 * t))))) by lia. exact H.
Qed.

Lemma words_word n : ∀ l, (length l = 4 * n)%nat → Forall byte l →
  Forall word (Spec.words l) ∧ length (Spec.words l) = n.
Proof.
  induction n as [|n IH]; intros [|a [|b [|c [|d l]]]] Hl Hb; simpl in Hl; try lia; [done|].
  rewrite !Forall_cons in Hb. destruct Hb as (Ha & Hb & Hc & Hd & Hl'). unfold byte in *.
  destruct (IH l) as [IH1 IH2]; [lia|done|]. cbn [Spec.words length]. rewrite IH2. split; [|done].
  constructor; [unfold word; lia|done].
Qed.

Lemma load_bytes a b c d : byte a → byte b → byte c → byte d →
  Z.lor (Z.lor (Z.lor (u32 (Z.shiftl a 24)) (u32 (Z.shiftl b 16))) (u32 (Z.shiftl c 8))) d =
    a * 2 ^ 24 + b * 2 ^ 16 + c * 2 ^ 8 + d.
Proof.
  unfold byte. intros Ha Hb Hc Hd. rewrite !Z.shiftl_mul_pow2, !u32_mod, !Z.mod_small by lia.
  rewrite (Z.lor_comm (a * 2 ^ 24)), (lor_disjoint _ _ 24) by lia.
  replace (b * 2 ^ 16 + a * 2 ^ 24) with ((b + a * 2 ^ 8) * 2 ^ 16) by lia.
  rewrite (Z.lor_comm _ (c * 2 ^ 8)), (lor_disjoint _ _ 16) by lia.
  replace (c * 2 ^ 8 + (b + a * 2 ^ 8) * 2 ^ 16) with ((c + (b + a * 2 ^ 8) * 2 ^ 8) * 2 ^ 8) by lia.
  rewrite (Z.lor_comm _ d), (lor_disjoint _ _ 8) by lia. lia.
Qed.

Lemma load_word_spec b l z suf :
  length (buffer_ b) = 64%nat → Forall byte (buffer_ b) → (length l < 16)%nat →
  load_word b (Z.of_nat (length l)) (l ++ z :: suf) =
    Ret (l ++ nth (length l) (Spec.words (buffer_ b)) 0 :: suf)
  ∧ word (nth (length l) (Spec.words (buffer_ b)) 0).
Proof.
  intros Hl Hb Ht. destruct (words_lookup (length l) (buffer_ b)) as (x0 & x1 & x2 & x3 & H0 & H1 & H2 & H3 & Hw); [lia|].
  rewrite (nth_lookup_Some _ _ _ _ Hw).
  assert (∀ j x, buffer_ b !! j = Some x → byte x) as Hbyte by (intros; by eapply Forall_lookup_1).
  assert (∀ j x i, buffer_ b !! j = Some x → i = Z.of_nat j → buffer_at b i = Ret x) as Hat.
  { intros j x i Hj ->. unfold buffer_at, PRECONDITION. apply lookup_lt_Some in Hj as Hj'. unfold N.
    rewrite (proj2 (Z.ltb_lt _ _)) by lia. apply at_lookup. by rewrite Nat2Z.id. }
  split; [|by eapply Forall_lookup_1; [eapply (words_word 16)|]].
  unfold load_word. set (t := Z.of_nat (length l) * 4).
  rewrite (Hat _ _ t H0), (Hat _ _ (t + 1) H1), (Hat _ _ (t + 2) H2), (Hat _ _ (t + 3) H3) by lia.
  cbn [mbind outcome_bind]. rewrite load_bytes by eauto. apply set_at_middle.
Qed.

Lemma extend_word_spec l z suf : Forall word l → (16 ≤ length l)%nat →
  extend_word (Z.of_nat (length l)) (l ++ z :: suf) = Ret (l ++ Spec.next_word l :: suf)
  ∧ word (Spec.next_word l).
Proof.
  intros Hw Hl. split; [|apply u32_word].
  assert (∀ k, (1 ≤ k ≤ 16)%nat → at_ (l ++ z :: suf) (Z.of_nat (length l) - Z.of_nat k) = Ret (nth (length l - k) l 0)
    ∧ word (nth (length l - k) l 0)) as Hat.
  { intros k Hk. destruct (lookup_lt_is_Some_2 l (length l - k)) as [w Ew]; [lia|].
    rewrite (nth_lookup_Some _ _ _ _ Ew). split; [|by eapply Forall_lookup_1].
    apply at_lookup. rewrite lookup_app_l by lia. by replace (Z.to_nat _) with (length l - k)%nat by lia. }
  destruct (Hat 2%nat) as [E2 W2]; [lia|]. destruct (Hat 7%nat) as [E7 _]; [lia|].
  destruct (Hat 15%nat) as [E15 W15]; [lia|]. destruct (Hat 16%nat) as [E16 _]; [lia|].
  unfold extend_word. change 2 with (Z.of_nat 2) at 1. change 7 with (Z.of_nat 7) at 1.
  change 15 with (Z.of_nat 15) at 1. change 16 with (Z.of_nat 16) at 1.
  rewrite E2. cbn [mbind outcome_bind]. rewrite Ssig1_spec, E7 by done. cbn [mbind outcome_bind].
  rewrite E15. cbn [mbind outcome_bind]. rewrite Ssig0_spec, E16 by done. cbn [mbind outcome_bind].
  by rewrite set_at_middle.
Qed.

(** ** The rounds *)

Definition vars (v : working) : list Z := [va v; vb v; vc v; vd v; ve v; vf v; vg v; vh v].

Lemma round_step_spec message i v k w :
  Forall word (vars v) → kSha256Constants !! i = Some k → message !! i = Some w →
  ∃ v', round_step message (Z.of_nat i) v = Ret v' ∧ vars v' = Spec.round (vars v) (k, w) ∧
    Forall word (vars v').
Proof.
  intros Hv Hk Hw. unfold vars in Hv. rewrite !Forall_cons in Hv.
  destruct Hv as (Ha & Hb & Hc & Hd & He & Hf & Hg & Hh & _).
  unfold round_step. rewrite Bsig1_spec, Bsig0_spec, Ch_spec by done. cbn [mbind outcome_bind].
  rewrite (at_lookup kSha256Constants _ k), (at_lookup message _ w) by (by rewrite Nat2Z.id). cbn [mbind outcome_bind].
  eexists. split; [done|]. split; [done|]. cbn [vars va vb vc vd ve vf vg vh].
  repeat (apply Forall_cons; split); done || apply u32_word.
Qed.

Lemma for_rounds message n : ∀ i v,
  length message = 64%nat → (i + n = 64)%nat → Forall word (vars v) →
  ∃ v', for_ n (Z.of_nat i) (round_step message) v = Ret v' ∧
    vars v' = fold_left Spec.round (drop i (zip kSha256Constants message)) (vars v) ∧ Forall word (vars v').
Proof.
  induction n as [|n IH]; intros i v Hm Hi Hv; cbn [for_].
  { exists v. split; [done|]. rewrite drop_ge; [done|]. rewrite length_zip_with, Hm. simpl. lia. }
  destruct (lookup_lt_is_Some_2 kSha256Constants i) as [k Hk]; [simpl; lia|].
  destruct (lookup_lt_is_Some_2 message i) as [w Hw]; [lia|].
  destruct (round_step_spec message i v k w Hv Hk Hw) as (v1 & -> & E1 & Hv1). cbn [mbind outcome_bind].
  replace (Z.of_nat i + 1) with (Z.of_nat (S i)) by lia.
  destruct (IH (S i) v1 Hm ltac:(lia) Hv1) as (v2 & E2 & E & Hv2). exists v2. split_and!; [done| |done].
  rewrite E, E1. rewrite (drop_S (zip kSha256Constants message) (k, w) i); [done|].
  by rewrite lookup_zip_with, Hk, Hw.
Qed.

Lemma rounds_spec message v : length message = 64%nat → Forall word (vars v) →
  ∃ v', rounds message v = Ret v' ∧ vars v' = fold_left Spec.round (zip Spec.K message) (vars v).
Proof.
  intros Hm Hv. destruct (for_rounds message 64 0 v Hm eq_refl Hv) as (v' & E & Ev & _).
  exists v'. split; [exact E|]. rewrite constants_K, Ev. by rewrite drop_0.
Qed.

Definition hash_ok (h : list Z) : Prop := Forall word h ∧ length h = 8%nat.

(** ** Blocks *)

Lemma schedule_spec b :
  length (buffer_ b) = 64%nat → Forall byte (buffer_ b) →
  message_schedule b = Ret (Spec.schedule (buffer_ b))
  ∧ length (Spec.schedule (buffer_ b)) = 64%nat.
Proof.
  intros Hl Hb. unfold message_schedule. destruct (words_word 16 (buffer_ b) Hl Hb) as [Hw Hwl].
  destruct (for_grow 16 (load_word b) (λ l, nth (length l) (Spec.words (buffer_ b)) 0) 0 16 [] 48)
    as (E1 & _ & _); [intros; apply load_word_spec; [done..|lia]|by constructor|simpl; lia|simpl; lia|].
  cbn [length app Nat.add] in E1. change (Z.of_nat 0) with 0 in E1. rewrite E1. cbn [mbind outcome_bind].
  change (@nil Z) with (take 0 (Spec.words (buffer_ b))). rewrite grow_nth by (rewrite Hwl; lia).
  rewrite take_ge by (rewrite Hwl; lia).
  destruct (for_grow 48 extend_word Spec.next_word 16 64 (Spec.words (buffer_ b)) 0)
    as (E2 & _ & L); [intros; apply extend_word_spec; [done|lia]|done|lia|lia|].
  unfold Spec.schedule. rewrite Hwl in E2, L. split; [|exact L].
  rewrite Nat.add_0_r, app_nil_r in E2. exact E2.
Qed.

Lemma compress_ok h v : hash_ok h → length v = 8%nat → hash_ok (zip_with Spec.add32 h v).
Proof.
  intros [Hw Hl] Hv. split; [|rewrite length_zip_with; lia].
  apply Forall_forall. intros x Hx. apply elem_of_lookup_zip_with in Hx as (i & a & b & -> & _). apply u32_word.
Qed.

Lemma hash_of_eight h : length h = 8%nat → ∃ v, h = vars v.
Proof.
  intros H. destruct h as [|h0 [|h1 [|h2 [|h3 [|h4 [|h5 [|h6 [|h7 [|? ?]]]]]]]]]; try discriminate H.
  by exists {| va := h0; vb := h1; vc := h2; vd := h3; ve := h4; vf := h5; vg := h6; vh := h7 |}.
Qed.

Lemma UpdateHash_loops d v message v' :
  size_ (buffer d) = 64 → hash_ d = vars v →
  message_schedule (buffer d) = Ret message → rounds message v = Ret v' →
  UpdateHash d = Ret {| buffer := buffer d; hash_ := zip_with Spec.add32 (vars v) (vars v');
                        message_len_ := message_len_ d |}.
Proof.
  intros Hs Ev Em Er. unfold UpdateHash, PRECONDITION. rewrite Hs, Ev, Em. destruct v as [a b c e f g h i].
  unfold vars. cbn [Z.eqb kBufferSize Pos.eqb va vb vc vd ve vf vg vh mbind outcome_bind].
  rewrite Er. by destruct v'.
Qed.

Lemma UpdateHash_spec d c : hash_ok (hash_ d) →
  length (buffer_ (buffer d)) = 64%nat → Forall byte (buffer_ (buffer d)) → size_ (buffer d) = 64 →
  buffer_ (buffer d) = c →
  UpdateHash d = Ret {| buffer := buffer d; hash_ := Spec.compress (hash_ d) c; message_len_ := message_len_ d |}
  ∧ hash_ok (Spec.compress (hash_ d) c).
Proof.
  intros Hok Hl Hb Hs <-. destruct (schedule_spec (buffer d) Hl Hb) as [Em Lm].
  destruct (hash_of_eight (hash_ d)) as [v Ev]; [apply Hok|].
  destruct (rounds_spec (Spec.schedule (buffer_ (buffer d))) v Lm) as (v' & Er & Ev').
  { rewrite <- Ev. apply Hok. }
  assert (Spec.compress (hash_ d) (buffer_ (buffer d)) = zip_with Spec.add32 (vars v) (vars v')) as Ec.
  { unfold Spec.compress. by rewrite Ev, Ev'. }
  rewrite Ec. split; [|rewrite <- Ev; by apply compress_ok].
  by apply (UpdateHash_loops d v (Spec.schedule (buffer_ (buffer d)))).
Qed.

(** ** The buffer *)

(** The buffer holds the bytes [c]. *)
Record holds (b : MessageBuffer) (c : list Z) : Prop := {
  h_length : length (buffer_ b) = 64%nat;
  h_bytes : Forall byte (buffer_ b);
  h_size : size_ b = Z.of_nat (length c);
  h_content : take (length c) (buffer_ b) = c;
}.

Lemma holds_le b c : holds b c → (length c ≤ 64)%nat.
Proof. intros [Hl _ _ Hc]. apply (f_equal length) in Hc. rewrite length_take, Hl in Hc. lia. Qed.

Lemma holds_full b c : holds b c → length c = 64%nat → buffer_ b = c.
Proof. intros [Hl _ _ Hc] H64. by rewrite H64, take_ge in Hc by lia. Qed.

Lemma holds_empty b c : holds b c → holds (clear b) [].
Proof. intros []. by split. Qed.

Lemma holds_prefix b c : holds b c → ∃ r, buffer_ b = c ++ r.
Proof. intros [_ _ _ Hc]. exists (drop (length c) (buffer_ b)). by rewrite <- Hc at 1; rewrite take_drop. Qed.

Lemma byte_size n : (n ≤ 64)%nat → static_cast uint8_t (Z.of_nat n) = Z.of_nat n.
Proof. intros ?. apply byte_cast. lia. Qed.

(** [n] bytes of [data] are copied behind [c]. *)
Lemma holds_append b c data l :
  holds b c → Forall byte data → (length c + length data ≤ 64)%nat →
  l = c ++ data ++ drop (length c + length data) (buffer_ b) →
  holds {| buffer_ := l; size_ := Z.of_nat (length (c ++ data)) |} (c ++ data).
Proof.
  intros Hh Hd Hl ->. destruct (holds_prefix b c Hh) as [r Er]. destruct Hh as [H1 H2 H3 H4].
  rewrite Er in H1, H2. apply Forall_app in H2 as [Hc Hr]. rewrite length_app in H1.
  split; cbn [buffer_ size_].
  - rewrite !length_app, length_drop, Er, length_app. lia.
  - rewrite !Forall_app. split_and!; [done..|]. rewrite Er, drop_app_add. by apply Forall_drop.
  - done.
  - by rewrite app_assoc, take_app_length.
Qed.

Lemma push_back_spec b c v : holds b c → byte v → (length c < 64)%nat →
  ∃ b', push_back v b = Ret b' ∧ holds b' (c ++ [v]).
Proof.
  intros Hh Hv Hl. destruct (holds_prefix b c Hh) as [r Er]. pose proof (h_length _ _ Hh) as H64.
  rewrite Er, length_app in H64. destruct r as [|z r]; [simpl in H64; lia|].
  unfold push_back, PRECONDITION. rewrite (h_size _ _ Hh). unfold N. rewrite (proj2 (Z.ltb_lt _ _)) by lia.
  rewrite Er, set_at_middle. cbn [mbind outcome_bind].
  replace (Z.of_nat (length c) + 1) with (Z.of_nat (length (c ++ [v]))) by (rewrite length_app; simpl; lia).
  rewrite byte_size by (rewrite length_app; simpl; lia). eexists. split; [done|].
  apply (holds_append b); [done|by constructor|simpl; lia|].
  rewrite Er, drop_app_add. done.
Qed.

Lemma copy_n_spec n : ∀ data l pre suf,
  (n ≤ length data)%nat → (n ≤ length suf)%nat → l = pre ++ suf →
  copy_n data n l (Z.of_nat (length pre)) = Ret (pre ++ take n data ++ drop n suf).
Proof.
  induction n as [|n IH]; intros data l pre suf Hd Hs ->; [done|].
  destruct data as [|v data], suf as [|z suf]; simpl in Hd, Hs; try lia.
  cbn [copy_n]. rewrite set_at_middle. cbn [mbind outcome_bind].
  replace (Z.of_nat (length pre) + 1) with (Z.of_nat (length (pre ++ [v]))) by (rewrite length_app; simpl; lia).
  rewrite (IH data _ (pre ++ [v]) suf) by (lia || by rewrite <- app_assoc). by rewrite <- app_assoc.
Qed.

Lemma fill_from_spec b c data : holds b c → Forall byte data → (length c < 64)%nat →
  let n := Nat.min (64 - length c) (length data) in
  ∃ b', fill_from data b = Ret (Z.of_nat n, b') ∧ holds b' (c ++ take n data).
Proof.
  intros Hh Hd Hl n. destruct (holds_prefix b c Hh) as [r Er]. pose proof (h_length _ _ Hh) as H64.
  rewrite Er, length_app in H64. unfold fill_from, PRECONDITION, N. rewrite (h_size _ _ Hh).
  rewrite (proj2 (Z.ltb_lt _ _)), (u64_id (64 - _)) by lia.
  replace (Z.min (64 - Z.of_nat (length c)) (Z.min (max uint8_t) (Z.of_nat (length data))))
    with (Z.of_nat n) by (change (max uint8_t) with 255; lia).
  rewrite Nat2Z.id, (copy_n_spec n data _ c r) by (lia || done). cbn [mbind outcome_bind].
  rewrite u64_id, (proj2 (Z.leb_le _ _)) by (change (max uint8_t) with 255; lia).
  rewrite (byte_size n) by lia.
  assert (length (take n data) = n) as Hn by (rewrite length_take; lia).
  replace (Z.of_nat (length c) + Z.of_nat n) with (Z.of_nat (length (c ++ take n data)))
    by (rewrite length_app, Hn; lia).
  rewrite byte_size by (rewrite length_app, Hn; lia). eexists. split; [done|].
  apply (holds_append b); [done|by apply Forall_take|lia|]. by rewrite Hn, Er, drop_app_add.
Qed.

End Sha256Spec.
