(* ===== verification/Sha256Calculator.v ===== *)
(** * SHA-256: the calculator

    What the calculator has absorbed of a message, that [Update] and [Finalize]
    compute the digest of Sha256Spec.v, and the promise of a calculator. *)

From S2P Require Import Prelude CppInt WordBits Hash HashCalculator Sha256 Sha256Spec.

Local Open Scope Z_scope.

Module Sha256Calculator.
Import Hash HashCalculator Sha256 Sha256Spec.

(** The complete blocks [bs] of the message are in the hash, the rest [c] is in
    the buffer. *)
Record absorbed_as (d : Sha256Digest) (m : list Z) (bs : list (list Z)) (c : list Z) : Prop := {
  a_holds : holds (buffer d) c;
  a_open : (length c < 64)%nat;
  a_blocks : Forall (λ b, length b = 64%nat) bs;
  a_message : m = concat bs ++ c;
  a_hash : hash_ d = fold_left Spec.compress bs Spec.H0;
  a_ok : hash_ok (hash_ d);
}.

Definition absorbed (d : Sha256Digest) (m : list Z) : Prop := ∃ bs c, absorbed_as d m bs c.

(** A block that is complete is hashed. *)
Lemma hash_block d bs c b :
  hash_ d = fold_left Spec.compress bs Spec.H0 → hash_ok (hash_ d) → holds b c → length c = 64%nat →
  ∃ d', UpdateHash (set_buffer b d) = Ret d' ∧ buffer d' = b ∧ message_len_ d' = message_len_ d ∧
    hash_ d' = fold_left Spec.compress (bs ++ [c]) Spec.H0 ∧ hash_ok (hash_ d').
Proof.
  intros Eh Hok Hb H64. destruct (UpdateHash_spec (set_buffer b d) c) as [E Hok'].
  - done.
  - apply (h_length _ _ Hb).
  - apply (h_bytes _ _ Hb).
  - cbn [buffer set_buffer]. rewrite (h_size _ _ Hb), H64. done.
  - by apply holds_full.
  - eexists. split; [exact E|]. cbn [buffer message_len_ hash_ set_buffer] in *.
    split_and!; [done|done| |exact Hok']. by rewrite fold_left_app, <- Eh.
Qed.

Lemma absorb_chunk d m chunk :
  absorbed d m → Forall byte chunk → chunk ≠ [] →
  ∃ n b d', fill_from chunk (buffer d) = Ret (Z.of_nat n, b) ∧ (0 < n ≤ length chunk)%nat ∧
    (if size_ b =? kBufferSize then
       d ← UpdateHash (set_buffer b d); Ret (set_buffer (clear (buffer d)) d)
     else Ret (set_buffer b d)) = Ret d' ∧
    absorbed d' (m ++ take n chunk) ∧ message_len_ d' = message_len_ d.
Proof.
  intros (bs & c & [Hh Ho Hbs Em Eh Hok]) Hb Hne.
  destruct (fill_from_spec _ c chunk Hh Hb Ho) as (b & E & Hb').
  set (n := Nat.min (64 - length c) (length chunk)) in *.
  assert (0 < n ≤ length chunk)%nat as Hn by (rewrite <- length_zero_iff_nil in Hne; lia).
  exists n, b. rewrite (h_size _ _ Hb'). pose proof (holds_le _ _ Hb') as Hle. unfold kBufferSize.
  destruct (Z.eqb_spec (Z.of_nat (length (c ++ take n chunk))) 64) as [H64|H64].
  - destruct (hash_block d bs (c ++ take n chunk) b Eh Hok Hb') as (d' & Ed & E1 & E2 & E3 & E4); [lia|].
    exists (set_buffer (clear (buffer d')) d'). rewrite Ed. split_and!; try done; try lia.
    exists (bs ++ [c ++ take n chunk]), []. split; cbn [buffer hash_ set_buffer]; try done.
    + rewrite E1. by eapply holds_empty.
    + simpl. lia.
    + apply Forall_app. split; [done|]. constructor; [lia|done].
    + rewrite Em, concat_app. simpl. by rewrite !app_nil_r, app_assoc.
  - exists (set_buffer b d). split_and!; try done; try lia.
    exists bs, (c ++ take n chunk). split; cbn [buffer hash_ set_buffer]; try done; [lia|].
    by rewrite Em, app_assoc.
Qed.

Lemma Update_loop_spec fuel : ∀ data i d m,
  (i ≤ length data)%nat → (length data - i ≤ fuel)%nat → Z.of_nat (length data) < 2 ^ 64 →
  Forall byte data → absorbed d m →
  ∃ d', Update_loop fuel data (Z.of_nat i) d = Ret d' ∧ absorbed d' (m ++ drop i data) ∧
    message_len_ d' = message_len_ d.
Proof.
  induction fuel as [|fuel IH]; intros data i d m Hi Hf Hl Hb Ha; cbn [Update_loop].
  { rewrite (proj2 (Z.ltb_ge _ _)) by lia. exists d. by rewrite drop_ge, app_nil_r by lia. }
  destruct (Z.ltb_spec (Z.of_nat i) (Z.of_nat (length data))) as [Hlt|Hge]; cycle 1.
  { exists d. by rewrite drop_ge, app_nil_r by lia. }
  rewrite Nat2Z.id.
  destruct (absorb_chunk d m (drop i data)) as (n & b & d' & E & Hn & Ed & Ha' & El); [done|by apply Forall_drop| |].
  { intros Hnil%(f_equal length). rewrite length_drop in Hnil. simpl in Hnil. lia. }
  rewrite length_drop in Hn. rewrite E. cbn [mbind outcome_bind].
  rewrite u64_id, <- Nat2Z.inj_add by lia.
  destruct (IH data (i + n)%nat d' (m ++ take n (drop i data))) as (d2 & E2 & Ha2 & El2); [lia..|done|done|].
  exists d2. rewrite <- app_assoc, <- drop_drop, take_drop in Ha2. split_and!; [|done|congruence].
  rewrite <- E2. destruct (size_ b =? kBufferSize); [|by injection Ed as <-].
  destruct (UpdateHash (set_buffer b d)) as [d3| |]; [|discriminate Ed..].
  cbn [mbind outcome_bind] in *. by injection Ed as <-.
Qed.

(** The calculator was given the message [m]. *)
Definition given (d : Sha256Digest) (m : list Z) : Prop :=
  absorbed d m ∧ message_len_ d = 8 * Z.of_nat (length m) ∧ Z.of_nat (length m) < 2 ^ 61 - 1.

Lemma sha_update d m data :
  given d m → Forall byte data → data ≠ [] → Z.of_nat (length (m ++ data)) < 2 ^ 61 - 1 →
  ∃ d', sha_Update data d = Ret (Value (), d') ∧ given d' (m ++ data).
Proof.
  intros (Ha & El & _) Hb Hne Hl. rewrite length_app in Hl.
  destruct (Update_loop_spec (length data) data 0 d m) as (d' & E & Ha' & El'); [lia..|done|done|].
  unfold sha_Update. destruct data as [|v data]; [done|]. remember (v :: data) as l eqn:Heql.
  change (Z.of_nat 0) with 0 in E. rewrite E. cbn [mbind outcome_bind]. unfold PRECONDITION.
  change (max uint64_t / 8) with (2 ^ 61 - 1). change (max uint64_t) with (2 ^ 64 - 1).
  rewrite (proj2 (Z.ltb_lt _ _)) by lia.
  rewrite El', El, (u64_id (Z.of_nat (length l) * 8)), (u64_id (_ - _)), (u64_id (_ + _)) by lia.
  rewrite (proj2 (Z.ltb_lt _ _)) by lia. eexists. split; [done|]. split; [|split].
  - rewrite drop_0 in Ha'. destruct Ha' as (bs & c & []). by exists bs, c.
  - cbn [message_len_]. rewrite length_app. lia.
  - rewrite length_app. lia.
Qed.

(** ** Padding *)

Lemma pad_to_spec fuel : ∀ n b c,
  holds b c → (n ≤ 64)%nat → (n - length c ≤ fuel)%nat →
  ∃ b', pad_to fuel (Z.of_nat n) b = Ret b' ∧ holds b' (c ++ replicate (n - length c) 0).
Proof.
  induction fuel as [|fuel IH]; intros n b c Hh Hn Hf; cbn [pad_to]; rewrite (h_size _ _ Hh).
  { rewrite (proj2 (Z.ltb_ge _ _)) by lia. exists b.
    replace (n - length c)%nat with 0%nat by lia. by rewrite app_nil_r. }
  destruct (Z.ltb_spec (Z.of_nat (length c)) (Z.of_nat n)) as [Hlt|Hge]; cycle 1.
  { exists b. replace (n - length c)%nat with 0%nat by lia. by rewrite app_nil_r. }
  destruct (push_back_spec b c 0) as (b1 & -> & H1); [done|unfold byte; lia|lia|]. cbn [mbind outcome_bind].
  destruct (IH n b1 (c ++ [0]) H1) as (b2 & -> & H2); rewrite ?length_app in *; simpl in *; [lia..|].
  exists b2. split; [done|]. rewrite <- app_assoc in H2.
  by replace (n - length c)%nat with (S (n - (length c + 1))) by lia.
Qed.

Lemma big_endian_S n z :
  Spec.big_endian (S n) z = z / 2 ^ (8 * Z.of_nat n) mod 256 :: Spec.big_endian n z.
Proof.
  unfold Spec.big_endian.
  replace (Z.of_nat (S n)) with (Z.of_nat n + 1) by lia.
  rewrite seqZ_app, rev_app_distr by lia. done.
Qed.

Lemma big_endian_length n z : length (Spec.big_endian n z) = n.
Proof. unfold Spec.big_endian. rewrite length_fmap, length_rev, length_seqZ. lia. Qed.

Lemma push_length_spec count : ∀ len b c,
  holds b c → (length c + count ≤ 64)%nat → 0 <= len →
  ∃ b', push_length count len b = Ret b' ∧ holds b' (c ++ Spec.big_endian count len).
Proof.
  induction count as [|count IH]; intros len b c Hh Hl Hlen; cbn [push_length].
  { exists b. by rewrite app_nil_r. }
  replace (8 * Z.of_nat (S count) - 8) with (8 * Z.of_nat count) by lia.
  rewrite Z.shiftr_div_pow2 by lia. change 0xFF with (Z.ones 8). rewrite Z.land_ones by lia.
  change (2 ^ 8) with 256. pose proof (Z.mod_pos_bound (len / 2 ^ (8 * Z.of_nat count)) 256 ltac:(lia)) as Hm.
  unfold PRECONDITION. rewrite (proj2 (Z.leb_le _ _)), byte_cast by (change (max uint8_t) with 255; lia).
  destruct (push_back_spec b c (len / 2 ^ (8 * Z.of_nat count) mod 256)) as (b1 & -> & H1); [done|unfold byte; lia|lia|].
  cbn [mbind outcome_bind].
  destruct (IH len b1 _ H1) as (b2 & -> & H2); rewrite ?length_app in *; simpl in *; [lia..|].
  exists b2. split; [done|]. by rewrite big_endian_S, <- app_assoc in *.
Qed.

(** ** Blocks *)

Lemma blocks_of_concat bs n l : Forall (λ b, length b = 64%nat) bs →
  Spec.blocks_of (length bs + n) (concat bs ++ l) = bs ++ Spec.blocks_of n l.
Proof.
  induction 1 as [|b bs Hb _ IH]; [done|]. cbn [length plus Spec.blocks_of concat].
  rewrite <- !app_assoc, <- Hb, take_app_length, drop_app_length, IH. done.
Qed.

Lemma concat_blocks_length (bs : list (list Z)) :
  Forall (λ b, length b = 64%nat) bs → length (concat bs) = (64 * length bs)%nat.
Proof. induction 1 as [|b bs Hb _ IH]; [done|]. cbn [concat length]. rewrite length_app. lia. Qed.

Lemma blocks_of_blocks bs :
  Forall (λ b, length b = 64%nat) bs → Spec.blocks (concat bs) = bs.
Proof.
  intros Hbs. unfold Spec.blocks. rewrite concat_blocks_length, Nat.mul_comm, Nat.div_mul by done.
  rewrite <- (Nat.add_0_r (length bs)), <- (app_nil_r (concat bs)), blocks_of_concat by done.
  by rewrite app_nil_r.
Qed.

(** ** The digest *)

(** Byte [k] of the swapped word is byte [3 - k] of the word. *)
Lemma swap_word_byte w k : word w → 0 <= k <= 3 →
  swap_word w / 2 ^ (8 * k) mod 2 ^ 8 = w / 2 ^ (8 * (3 - k)) mod 2 ^ 8.
Proof.
  intros Hw Hk. apply Z.bits_inj'. intros i Hi.
  destruct (Z.lt_ge_cases i 8); [|by rewrite !Z.mod_pow2_bits_high by lia].
  rewrite !Z.mod_pow2_bits_low, <- !Z.shiftr_div_pow2, !Z.shiftr_spec by lia.
  unfold swap_word. rewrite !u32_mod, !Z.lor_spec, !Z.land_spec, !Z.shiftr_spec by lia.
  assert (k = 0 ∨ k = 1 ∨ k = 2 ∨ k = 3) as Hks by lia.
  assert (i = 0 ∨ i = 1 ∨ i = 2 ∨ i = 3 ∨ i = 4 ∨ i = 5 ∨ i = 6 ∨ i = 7) as His by lia.
  clear Hi Hk H. destruct_or!; subst;
    rewrite !Z.mod_pow2_bits_low, !Z.shiftl_spec by lia;
    cbn -[Z.testbit]; rewrite ?(testbit_above w 32) by (done || lia);
    rewrite ?(Z.testbit_neg_r w) by lia; cbn; by rewrite ?andb_false_r, ?andb_true_r, ?orb_false_r.
Qed.

Lemma swap_word_bytes w : word w → word_bytes (swap_word w) = Spec.big_endian 4 w.
Proof.
  intros Hw. unfold word_bytes. rewrite !big_endian_S. cbn [fmap list_fmap].
  change 256 with (2 ^ 8).
  apply (f_equal2 cons); [apply (swap_word_byte w 0 Hw); lia|].
  apply (f_equal2 cons); [apply (swap_word_byte w 1 Hw); lia|].
  apply (f_equal2 cons); [apply (swap_word_byte w 2 Hw); lia|].
  apply (f_equal2 cons); [apply (swap_word_byte w 3 Hw); lia|]. done.
Qed.

Lemma hash_bytes h : Forall word h → flat_map word_bytes (swap_word <$> h) = flat_map (Spec.big_endian 4) h.
Proof. induction 1 as [|w h Hw _ IH]; [done|]. cbn [fmap list_fmap flat_map]. by rewrite swap_word_bytes, <- IH. Qed.

(** The last block: zeros up to the length, and the length. *)
Lemma finalize_last d bs c len :
  holds (buffer d) c → (length c ≤ 56)%nat → hash_ d = fold_left Spec.compress bs Spec.H0 →
  hash_ok (hash_ d) → message_len_ d = len → 0 <= len →
  ∃ d',
    (b ← pad_to 64 56 (buffer d);
     PRECONDITION (size_ b =? 56)
     (b ← push_length 8 (message_len_ d) b;
      PRECONDITION (size_ b =? 64)
      (d ← UpdateHash (set_buffer b d);
       let hash := swap_word <$> hash_ d in
       let d := {| buffer := clear (buffer d); hash_ := hash; message_len_ := message_len_ d |} in
       Ret ({| algorithm_ := kSha256; raw_hash_ := flat_map word_bytes hash |}, d)))) =
    Ret ({| algorithm_ := kSha256; raw_hash_ := flat_map (Spec.big_endian 4)
      (fold_left Spec.compress (bs ++ [c ++ replicate (56 - length c) 0 ++ Spec.big_endian 8 len]) Spec.H0) |}, d').
Proof.
  intros Hh Hl Eh Hok <- Hlen.
  destruct (pad_to_spec 64 56 (buffer d) c) as (b1 & E1 & H1); [done|lia..|].
  change (Z.of_nat 56) with 56 in E1. rewrite E1. cbn [mbind outcome_bind].
  assert (length (c ++ replicate (56 - length c) 0) = 56%nat) as L1 by (rewrite length_app, length_replicate; lia).
  destruct (push_length_spec 8 (message_len_ d) b1 _ H1) as (b2 & E2 & H2); [lia|done|].
  rewrite (h_size _ _ H1), L1, E2. change (Z.of_nat 56 =? 56) with true.
  cbn [PRECONDITION mbind outcome_bind]. rewrite <- app_assoc in H2.
  assert (length (c ++ replicate (56 - length c) 0 ++ Spec.big_endian 8 (message_len_ d)) = 64%nat) as L2.
  { rewrite app_assoc, length_app, L1, big_endian_length. done. }
  rewrite (h_size _ _ H2), L2. change (Z.of_nat 64 =? 64) with true. cbn [PRECONDITION].
  destruct (hash_block d bs _ b2 Eh Hok H2 L2) as (d' & -> & _ & _ & E3 & E4). cbn [mbind outcome_bind].
  eexists. rewrite hash_bytes, E3 by apply E4. done.
Qed.

(** The padding goes into the last block of the message, or into another one. *)
Lemma pad_blocks m bs c :
  Forall (λ b, length b = 64%nat) bs → m = concat bs ++ c → (length c < 64)%nat →
  Spec.blocks (Spec.pad m) =
    bs ++ if decide (length c < 56)%nat
          then [(c ++ [128]) ++ replicate (56 - length (c ++ [128])) 0 ++ Spec.big_endian 8 (8 * Z.of_nat (length m))]
          else [(c ++ [128]) ++ replicate (64 - length (c ++ [128])) 0;
                [] ++ replicate 56 0 ++ Spec.big_endian 8 (8 * Z.of_nat (length m))].
Proof.
  intros Hbs Em Hl. set (tail := if decide _ then _ else _).
  assert (length m = 64 * length bs + length c)%nat as Lm.
  { by rewrite Em, length_app, concat_blocks_length. }
  rewrite <- (blocks_of_blocks (bs ++ tail)); subst tail.
  - f_equal. unfold Spec.pad. rewrite Em at 1. rewrite concat_app, <- !app_assoc. f_equal.
    rewrite Lm, length_app. cbn [length]. destruct (decide (length c < 56)%nat); cbn [concat].
    + replace ((55 - _) mod 64) with (55 - Z.of_nat (length c))
        by (apply (Z.mod_unique _ _ (- Z.of_nat (length bs))); lia).
      rewrite app_nil_r. repeat f_equal. lia.
    + replace ((55 - _) mod 64) with (119 - Z.of_nat (length c))
        by (apply (Z.mod_unique _ _ (- Z.of_nat (length bs) - 1)); lia).
      rewrite app_nil_r, app_nil_l, <- !app_assoc. do 2 f_equal. rewrite app_assoc, <- replicate_add.
      repeat f_equal. lia.
  - apply Forall_app. split; [done|].
    destruct (decide _); repeat constructor; rewrite ?app_nil_l, !length_app, ?length_replicate, ?big_endian_length;
      simpl; lia.
Qed.

Lemma sha_finalize d m : given d m →
  ∃ d', sha_Finalize d = Ret ({| algorithm_ := kSha256; raw_hash_ := Spec.sha256 m |}, d').
Proof.
  intros ((bs & c & [Hh Ho Hbs Em Eh Hok]) & El & _).
  unfold Spec.sha256. rewrite (pad_blocks m bs c Hbs Em Ho). unfold sha_Finalize.
  destruct (push_back_spec _ c 128 Hh) as (b & -> & Hb); [unfold byte; lia|done|]. cbn [mbind outcome_bind].
  assert (length (c ++ [128]) = S (length c)) as Lc by (rewrite length_app; simpl; lia).
  cbn [buffer set_buffer]. rewrite (h_size _ _ Hb), Lc. destruct (decide _) as [Hd|Hd].
  - rewrite (proj2 (Z.ltb_ge _ _)) by lia. cbn [mbind outcome_bind]. rewrite <- Lc.
    apply (finalize_last (set_buffer b d) bs (c ++ [128]) (8 * Z.of_nat (length m))); cbn [buffer hash_ message_len_ set_buffer]; try done; lia.
  - rewrite (proj2 (Z.ltb_lt _ _)) by lia.
    destruct (pad_to_spec 64 64 b (c ++ [128])) as (b1 & E1 & H1); [done|lia..|].
    change (Z.of_nat 64) with 64 in E1. rewrite E1. cbn [mbind outcome_bind].
    destruct (hash_block d bs _ b1 Eh Hok H1) as (d' & E2 & E3 & E4 & E5 & E6).
    { rewrite length_app, length_replicate. lia. }
    change (set_buffer b1 (set_buffer b d)) with (set_buffer b1 d). rewrite E2, <- Lc. cbn [mbind outcome_bind].
    rewrite cons_middle, app_assoc.
    apply (finalize_last (set_buffer (clear (buffer d')) d') (bs ++ [_]) []); cbn [buffer hash_ message_len_ set_buffer]; try done.
    + rewrite E3. by eapply holds_empty.
    + simpl. lia.
    + by rewrite E4.
    + lia.
Qed.

Lemma new_digest_given : given new_digest [].
Proof.
  split; [|done]. exists [], []. split; cbn [buffer hash_ new_digest concat app fold_left]; [..|exact (eq_sym constants_H0)|]; try done.
  - split; [done| |done|done]. by apply Forall_replicate.
  - simpl. lia.
  - split; [|done]. repeat constructor; done.
Qed.

#[export] Program Instance sha_digests : Digests Sha256Digest := {
  digest m := {| algorithm_ := kSha256; raw_hash_ := Spec.sha256 m |};
  limit := 2 ^ 61 - 1;
  consumed := given;
}.
Next Obligation. intros c m data Hc Hb Hne Hl. by apply sha_update. Qed.
Next Obligation. intros c m Hc. eexists _, c. by split. Qed.
Next Obligation. intros c m Hc. by apply sha_finalize. Qed.

(** C8: however a message is cut into calls of [Update], the calculator accepts
    every call and [Finalize] returns the digest that FIPS 180-4 defines; no
    call aborts or reads outside of its arrays.  A call without data is refused
    and changes nothing. *)
Theorem sha256_digest datas :
  Forall (λ data, Forall byte data ∧ data ≠ []) datas →
  Z.of_nat (length (concat datas)) < 2 ^ 61 - 1 →
  ∃ d d', update_all datas new_digest = Ret (Value (), d) ∧
    sha_Update [] d = Ret (Unexpected kInvalidParameters, d) ∧
    sha_Finalize d = Ret ({| algorithm_ := kSha256; raw_hash_ := Spec.sha256 (concat datas) |}, d').
Proof.
  intros Hd Hl. destruct (@update_all_accepts _ _ sha_digests datas new_digest [] new_digest_given Hd Hl) as (d & E & Hc).
  destruct (sha_finalize d _ Hc) as [d' Ef]. by exists d, d'.
Qed.

(** The digest of "abc", given in two calls. *)
Lemma sha256_digest_witness :
  ∃ d d', update_all [[97]; [98; 99]] new_digest = Ret (Value (), d) ∧
    sha_Finalize d = Ret ({| algorithm_ := kSha256; raw_hash_ := Spec.sha256 [97; 98; 99] |}, d') ∧
    Spec.words (Spec.sha256 [97; 98; 99]) =
      [0xba7816bf; 0x8f01cfea; 0x414140de; 0x5dae2223; 0xb00361a3; 0x96177a9c; 0xb410ff61; 0xf20015ad].
Proof.
  destruct (sha256_digest [[97]; [98; 99]]) as (d & d' & E & _ & Ef).
  - repeat constructor; unfold byte; lia || done.
  - done.
  - exists d, d'. split_and!; [exact E|exact Ef|by vm_compute].
Defined.

End Sha256Calculator.
