(* ===== verification/HashFactory.v ===== *)
(** * Hash factories and the OpenSSL calculator: hash/code/core/factory, hash/code/openssl

    [IOpensslLib] is a record of the functions of the library, which are not
    part of the sources, on the library's state [W]; a context is a pointer of
    the library and may be null, as the digest types may.  What the library
    documents is the class [OpensslContract]: which contexts exist and what
    each was given.  A [unique_ptr] to a calculator is a value of [calculator],
    its destructor is [destroy]. *)

From stdpp Require Import gmap.
From S2P Require Import Prelude CppInt Hash HashCalculator Crc32 Sha256 Sha256Spec Sha256Calculator.

Local Open Scope Z_scope.

Module HashFactory.
Import Hash HashCalculator Crc32 Sha256 Sha256Calculator.

(** A span of bytes; [None] has a null pointer. *)
Definition span : Type := option (list Z).

Section Factory.
Context {W ctx StructDigest : Type}.

(** ** openssl_wrapper/i_openssl_lib.h *)

Record IOpensslLib := {
  DigestAlgoSha256 : option StructDigest;
  DigestAlgoSha384 : option StructDigest;
  DigestAlgoSha512 : option StructDigest;
  CreateDigestCtx : W → option ctx * W;
  InitDigestCtx : ctx → StructDigest → W → Z * W;
  UpdateDigestCtx : ctx → list Z → W → Z * W;
  (** The result and the bytes that were written. *)
  FinalizeDigestValue : ctx → W → Z * list Z * W;
  ResetDigestCtx : ctx → W → W;
}.

(** ** openssl_hash_calculator.cpp *)

Record OpensslHashCalculator := {
  message_digest_context_ : ctx;
  openssl_algorithm_ : HashAlgorithm;
  openssl_ : IOpensslLib;
}.

Definition openssl_Create (algorithm : HashAlgorithm) (openssl : IOpensslLib) (w : W) :
    expected ErrorCode OpensslHashCalculator * W :=
  let message_digest_type :=
    match algorithm with
    | kSha256 => DigestAlgoSha256 openssl
    | kSha384 => DigestAlgoSha384 openssl
    | kSha512 => DigestAlgoSha512 openssl
    | kNone | kCrc32 | kCrc32Autosar | kLast => None
    end in
  match message_digest_type with
  | None => (Unexpected kCouldNotCreateDigest, w)
  | Some type =>
      match CreateDigestCtx openssl w with
      | (None, w) => (Unexpected kCouldNotCreateDigest, w)
      | (Some message_digest_context, w) =>
          let '(r, w) := InitDigestCtx openssl message_digest_context type w in
          if 0 =? r then (Unexpected kCouldNotCreateDigest, w)
          else (Value {| message_digest_context_ := message_digest_context;
                         openssl_algorithm_ := algorithm; openssl_ := openssl |}, w)
      end
  end.

Definition openssl_Update (data : span) (c : OpensslHashCalculator) (w : W) : expected ErrorCode unit * W :=
  match data with
  | None => (Unexpected kInvalidParameters, w)
  | Some data =>
      let '(r, w) := UpdateDigestCtx (openssl_ c) (message_digest_context_ c) data w in
      if 0 =? r then (Unexpected kCouldNotUpdateDigest, w) else (Value (), w)
  end.

(** The library writes into a buffer of [kMaxDigestSize] bytes. *)
Definition openssl_Finalize (c : OpensslHashCalculator) (w : W) : outcome (Hash * W) :=
  let '(r, written, w) := FinalizeDigestValue (openssl_ c) (message_digest_context_ c) w in
  if Z.of_nat (length written) <=? kMaxDigestSize then
    if 0 =? r then Ret ({| algorithm_ := kNone; raw_hash_ := [] |}, w)
    else Ret ({| algorithm_ := openssl_algorithm_ c; raw_hash_ := written |}, w)
  else Undefined.

(** ** Calculators *)

Inductive calculator :=
| Crc32Ieee (c : Crc32IeeeHashCalculator)
| Sha256 (d : Sha256Digest)
| Openssl (c : OpensslHashCalculator).

(** The virtual functions; the state of the library goes with the calculator. *)
Definition calculator_Update (data : span) (cw : calculator * W) :
    outcome (expected ErrorCode unit * (calculator * W)) :=
  let '(c, w) := cw in
  match c with
  | Crc32Ieee c => '(r, c) ← crc_Update (default [] data) c; Ret (r, (Crc32Ieee c, w))
  | Sha256 d => '(r, d) ← sha_Update (default [] data) d; Ret (r, (Sha256 d, w))
  | Openssl c => let '(r, w) := openssl_Update data c w in Ret (r, (Openssl c, w))
  end.

Definition calculator_Finalize (cw : calculator * W) : outcome (Hash * (calculator * W)) :=
  let '(c, w) := cw in
  match c with
  | Crc32Ieee c => '(h, c) ← crc_Finalize c; Ret (h, (Crc32Ieee c, w))
  | Sha256 d => '(h, d) ← sha_Finalize d; Ret (h, (Sha256 d, w))
  | Openssl c => '(h, w) ← openssl_Finalize c w; Ret (h, (Openssl c, w))
  end.

(** A stream is read into a buffer, which has an address. *)
#[export] Instance any_calculator : IHashCalculator (calculator * W) :=
  { Update data := calculator_Update (Some data); Finalize := calculator_Finalize }.

Definition destroy (cw : calculator * W) : W :=
  match cw with
  | (Openssl c, w) => ResetDigestCtx (openssl_ c) (message_digest_context_ c) w
  | (_, w) => w
  end.

(** ** Factories *)

(** [IHashCalculatorFactory], by the function that creates a calculator. *)
Definition factory : Type := HashAlgorithm → W → expected ErrorCode calculator * W.

(** hash_calculator_factory_ieee.cpp; [impl] is the default library. *)
Definition HashCalculatorFactory (impl : IOpensslLib) (openssl_lib_ : option IOpensslLib) : factory :=
  λ algorithm w,
  match algorithm with
  | kCrc32 => (Value (Crc32Ieee new_calculator), w)
  | kSha256 => (Value (Sha256 new_digest), w)
  | kSha384 | kSha512 =>
      let '(digest, w) := openssl_Create algorithm (default impl openssl_lib_) w in
      match digest with
      | Unexpected e => (Unexpected e, w)
      | Value c => (Value (Openssl c), w)
      end
  | kCrc32Autosar | kNone | kLast => (Unexpected kCouldNotCreateDigest, w)
  end.

(** safe_hash_calculator_factory_ieee.cpp *)
Definition SafeHashCalculatorFactory : factory := λ algorithm w,
  match algorithm with
  | kCrc32 => (Value (Crc32Ieee new_calculator), w)
  | kSha256 => (Value (Sha256 new_digest), w)
  | kCrc32Autosar | kSha384 | kSha512 | kNone | kLast => (Unexpected kCouldNotCreateDigest, w)
  end.

(** i_hash_calculator_factory.cpp; the calculator is destroyed at every return. *)
Definition CalculateHash (CreateHashCalculator : factory) (algorithm : HashAlgorithm) (data : span) (w : W) :
    outcome (expected ErrorCode Hash * W) :=
  match CreateHashCalculator algorithm w with
  | (Unexpected e, w) => Ret (Unexpected e, w)
  | (Value c, w) =>
      '(update_result, cw) ← calculator_Update data (c, w);
      match update_result with
      | Unexpected e => Ret (Unexpected e, destroy cw)
      | Value _ => '(h, cw) ← calculator_Finalize cw; Ret (Value h, destroy cw)
      end
  end.

Definition CalculateHash_stream_max (CreateHashCalculator : factory) (algorithm : HashAlgorithm)
    (input_stream : istream) (max_read : Z) (w : W) : outcome (expected ErrorCode Hash * istream * W) :=
  match CreateHashCalculator algorithm w with
  | (Unexpected e, w) => Ret (Unexpected e, input_stream, w)
  | (Value c, w) =>
      '(update_result, input_stream, cw) ← UpdateFromStream_max input_stream max_read (c, w);
      match update_result with
      | Unexpected e => Ret (Unexpected e, input_stream, destroy cw)
      | Value _ => '(h, cw) ← calculator_Finalize cw; Ret (Value h, input_stream, destroy cw)
      end
  end.

Definition CalculateHash_stream (CreateHashCalculator : factory) (algorithm : HashAlgorithm)
    (input_stream : istream) (w : W) : outcome (expected ErrorCode Hash * istream * W) :=
  CalculateHash_stream_max CreateHashCalculator algorithm input_stream (-1) w.

End Factory.

Arguments IOpensslLib : clear implicits.

(** ** What the library documents *)

(** The contexts that were allocated and not freed; a context that was
    initialised has its digest type and the bytes it was given.  A call that
    fails may leave its own context in any state. *)
Class OpensslContract {W ctx StructDigest : Type} `{Countable ctx} (lib : IOpensslLib W ctx StructDigest) := {
  contexts : W → gmap ctx (option (StructDigest * list Z));
  evp_digest : StructDigest → list Z → list Z;
  create_ctx w :
    match CreateDigestCtx lib w with
    | (Some p, w') => contexts w !! p = None ∧ contexts w' = <[p := None]> (contexts w)
    | (None, w') => contexts w' = contexts w
    end;
  init_ctx w p t :
    is_Some (contexts w !! p) → let '(r, w') := InitDigestCtx lib p t w in
    ∃ s, contexts w' = <[p := s]> (contexts w) ∧ (r ≠ 0 → s = Some (t, []));
  update_ctx w p t m data :
    contexts w !! p = Some (Some (t, m)) → let '(r, w') := UpdateDigestCtx lib p data w in
    ∃ s, contexts w' = <[p := s]> (contexts w) ∧ (r ≠ 0 → s = Some (t, m ++ data));
  finalize_value w p t m :
    contexts w !! p = Some (Some (t, m)) → let '(r, written, w') := FinalizeDigestValue lib p w in
    (∃ s, contexts w' = <[p := s]> (contexts w)) ∧ Z.of_nat (length written) <= kMaxDigestSize ∧
    (r ≠ 0 → written = evp_digest t m);
  reset_ctx w p : is_Some (contexts w !! p) → contexts (ResetDigestCtx lib p w) = delete p (contexts w);
}.

(** ** Calculators of the factory that do not use the library *)

Section Embedded.
Context {W ctx StructDigest : Type} {C : Type} `{Digests C}.
Context (inj : C → @calculator W ctx StructDigest).
Hypothesis update_inj : ∀ data c w, calculator_Update (Some data) (inj c, w) =
  '(r, c) ← Update data c; Ret (r, (inj c, w)).
Hypothesis finalize_inj : ∀ c w, calculator_Finalize (inj c, w) =
  '(h, c) ← Finalize c; Ret (h, (inj c, w)).
Hypothesis destroy_inj : ∀ c w, destroy (inj c, w) = w.

Definition embedded_consumed (w : W) (cw : calculator * W) (m : list Z) : Prop :=
  ∃ c, cw = (inj c, w) ∧ consumed c m.

Lemma embedded_update w cw m data :
  embedded_consumed w cw m → Forall byte data → data ≠ [] → Z.of_nat (length (m ++ data)) < limit →
  ∃ cw', calculator_Update (Some data) cw = Ret (Value (), cw') ∧ embedded_consumed w cw' (m ++ data).
Proof using update_inj.
  intros (c & -> & Hc) Hb Hne Hl. rewrite update_inj.
  destruct (update_accepts c m data Hc Hb Hne Hl) as (c' & -> & Hc'). by eexists; split; [|exists c'].
Qed.

Lemma embedded_finalize w cw m : embedded_consumed w cw m →
  ∃ cw', calculator_Finalize cw = Ret (digest m, cw') ∧ destroy cw' = w.
Proof using finalize_inj destroy_inj.
  intros (c & -> & Hc). rewrite finalize_inj. destruct (finalize_digest c m Hc) as (c' & ->).
  eexists. by split; [|apply destroy_inj].
Qed.

Program Definition embedded_digests (w : W) : Digests (@calculator W ctx StructDigest * W) := {|
  digest := digest;
  limit := limit;
  consumed := embedded_consumed w;
|}.
Next Obligation. intros w cw m data. by apply embedded_update. Qed.
Next Obligation.
  intros w cw m (c & -> & Hc). destruct (update_empty c m Hc) as (r & c' & E & Hc').
  exists r, (inj c', w). split; [|by exists c']. cbn [Update any_calculator]. by rewrite update_inj, E.
Qed.
Next Obligation. intros w cw m Hc. destruct (embedded_finalize w cw m Hc) as (cw' & E & _). by exists cw'. Qed.

Lemma embedded_hash (f : factory) a c w data :
  f a w = (Value (inj c), w) → consumed c [] → Forall byte data → data ≠ [] → Z.of_nat (length data) < limit →
  CalculateHash f a (Some data) w = Ret (Value (digest data), w).
Proof using update_inj finalize_inj destroy_inj.
  intros Ef Hc Hb Hne Hl. unfold CalculateHash. rewrite Ef.
  destruct (embedded_update w (inj c, w) [] data) as (cw & -> & Hcw); [by exists c|done..|].
  cbn [mbind outcome_bind]. destruct (embedded_finalize w cw data Hcw) as (cw' & -> & E).
  cbn [mbind outcome_bind]. by rewrite E.
Qed.

Lemma embedded_stream (f : factory) a c w input max_read :
  f a w = (Value (inj c), w) → consumed c [] → good input = true → Forall byte (rest input) →
  Z.of_nat (length (rest input)) < limit → Z.of_nat (length (rest input)) <= max int64_t →
  in_range int64_t max_read →
  ∃ r input', CalculateHash_stream_max f a input max_read w = Ret (r, input', w) ∧
    match r with
    | Value h => h = digest (wanted max_read 0 (rest input)) ∧
        rest input' = drop (length (wanted max_read 0 (rest input))) (rest input)
    | Unexpected _ => badbit input' = true ∧ is_Some (broken input)
    end.
Proof using update_inj finalize_inj destroy_inj.
  intros Ef Hc Hg Hb Hl Hm Hr. unfold CalculateHash_stream_max. rewrite Ef.
  destruct (@update_from_stream _ _ (embedded_digests w) (inj c, w) [] input max_read)
    as (r & input' & cw & -> & P); [by exists c|done..|].
  cbn [mbind outcome_bind]. destruct r as [u|e]; cbn [stream_post] in P.
  - destruct P as [Hw Hrest]. destruct (embedded_finalize w cw _ Hw) as (cw' & -> & E).
    cbn [mbind outcome_bind]. rewrite E. by eexists _, _.
  - destruct P as (? & ? & k & c' & -> & _). rewrite destroy_inj. by eexists _, _.
Qed.

End Embedded.

(** ** The factories *)

Section Results.
Context {W ctx StructDigest : Type} `{Countable ctx}.
Context (impl : IOpensslLib W ctx StructDigest) (openssl_lib_ : option (IOpensslLib W ctx StructDigest)).
Context `{!OpensslContract (default impl openssl_lib_)}.

(** The digest type of the algorithms that use the library. *)
Definition digest_type (algorithm : HashAlgorithm) : option StructDigest :=
  match algorithm with
  | kSha384 => DigestAlgoSha384 (default impl openssl_lib_)
  | kSha512 => DigestAlgoSha512 (default impl openssl_lib_)
  | _ => None
  end.

(** The hash of a message, for the algorithms that the factory knows. *)
Definition hash_of (algorithm : HashAlgorithm) (m : list Z) : option Hash :=
  match algorithm with
  | kCrc32 => Some (crc_digests.(digest) m)
  | kSha256 => Some {| algorithm_ := kSha256; raw_hash_ := Spec.sha256 m |}
  | _ => (λ t, {| algorithm_ := algorithm; raw_hash_ := evp_digest t m |}) <$> digest_type algorithm
  end.

(** A context that was created is given back, or was lost by [Create]. *)
Definition lost_context (w w' : W) : Prop :=
  ∃ p s, contexts w !! p = None ∧ contexts w' = <[p := s]> (contexts w).

Lemma openssl_create a w : a = kSha384 ∨ a = kSha512 →
  match openssl_Create a (default impl openssl_lib_) w with
  | (Value c, w') => openssl_ c = default impl openssl_lib_ ∧ openssl_algorithm_ c = a ∧
      contexts w !! message_digest_context_ c = None ∧
      ∃ t, digest_type a = Some t ∧
        contexts w' = <[message_digest_context_ c := Some (t, [])]> (contexts w)
  | (Unexpected e, w') => e = kCouldNotCreateDigest ∧ (contexts w' = contexts w ∨ lost_context w w')
  end.
Proof.
  intros Ha. unfold openssl_Create. set (t := match a with kNone => _ | _ => _ end).
  assert (t = digest_type a) as -> by by destruct Ha as [-> | ->].
  destruct (digest_type a) as [t'|]; [|by auto].
  pose proof (create_ctx w) as Hc. destruct (CreateDigestCtx _ w) as [[p|] w1]; [|by auto].
  destruct Hc as [Hfresh Hc]. pose proof (init_ctx w1 p t') as Hi.
  destruct (InitDigestCtx _ p t' w1) as [r w2]. destruct Hi as (s & Hs & Hr).
  { rewrite Hc, lookup_insert_eq. eauto. }
  rewrite Hc, insert_insert_eq in Hs. destruct (Z.eqb_spec 0 r); [split; [done|]; right; by exists p, s|].
  split_and!; try done. exists t'. split; [done|]. by rewrite Hs, Hr.
Qed.

(** What is left of a calculator's context after a call of the library. *)
Lemma reset_fresh w w' p s :
  contexts w !! p = None → contexts w' = <[p := s]> (contexts w) →
  contexts (ResetDigestCtx (default impl openssl_lib_) p w') = contexts w.
Proof.
  intros Hp Hw. rewrite reset_ctx, Hw; [by apply delete_insert_id|]. rewrite Hw, lookup_insert_eq. eauto.
Qed.

Lemma openssl_hash a data w : a = kSha384 ∨ a = kSha512 →
  ∃ r w', CalculateHash (HashCalculatorFactory impl openssl_lib_) a (Some data) w = Ret (r, w') ∧
    match r with
    | Value h => (hash_of a data = Some h ∨ h = {| algorithm_ := kNone; raw_hash_ := [] |}) ∧
        contexts w' = contexts w
    | Unexpected e => e = kCouldNotCreateDigest ∧ (contexts w' = contexts w ∨ lost_context w w')
        ∨ e = kCouldNotUpdateDigest ∧ contexts w' = contexts w
    end.
Proof.
  intros Ha. pose proof (openssl_create a w Ha) as Hc. unfold CalculateHash.
  set (f := HashCalculatorFactory _ _ a w).
  assert (f = let '(d, w) := openssl_Create a (default impl openssl_lib_) w in
    match d with Unexpected e => (Unexpected e, w) | Value c => (Value (Openssl c), w) end) as ->
    by by destruct Ha as [-> | ->].
  destruct (openssl_Create _ _ w) as [[c|e] w1]; [|by eexists _, _; split; [done|]; left].
  destruct c as [p a' lib], Hc as (Hlib & Ha' & Hp & t & Et & Hw1). cbn in Hlib, Ha', Hp, Hw1. subst a' lib.
  cbn -[Z.eqb]. pose proof (update_ctx w1 p t [] data) as Hu. rewrite Hw1, lookup_insert_eq in Hu. specialize (Hu eq_refl).
  destruct (UpdateDigestCtx _ p data w1) as [r w2]. destruct Hu as (s & Hs & Hr).
  rewrite insert_insert_eq in Hs. destruct (Z.eqb_spec 0 r) as [_|Hr0].
  { eexists _, _. split; [done|]. right. split; [done|]. by eapply reset_fresh. }
  cbn -[Z.eqb openssl_Finalize]. rewrite Hr in Hs by done. pose proof (finalize_value w2 p t data) as Hf.
  rewrite Hs, lookup_insert_eq in Hf. specialize (Hf eq_refl). unfold openssl_Finalize. cbn -[Z.eqb Z.leb].
  destruct (FinalizeDigestValue _ p w2) as [[r2 written] w3]. destruct Hf as ((s' & Hs') & Hl & Hv).
  rewrite insert_insert_eq in Hs'. rewrite (proj2 (Z.leb_le _ _) Hl).
  destruct (Z.eqb_spec 0 r2) as [_|Hr2]; cbn; (eexists _, _; split; [done|]; split; [|by eapply reset_fresh]).
  - by right.
  - left. rewrite Hv by done. unfold hash_of. destruct Ha as [-> | ->]; by rewrite Et.
Qed.

End Results.

(** ** Algorithms that do not use the library *)

Section Own.
Context {W ctx StructDigest : Type} (f : @factory W ctx StructDigest) (w : W).

Lemma crc_hash data :
  f kCrc32 w = (Value (Crc32Ieee new_calculator), w) → Forall byte data → data ≠ [] →
  Z.of_nat (length data) < 2 ^ 61 - 1 →
  CalculateHash f kCrc32 (Some data) w = Ret (Value (crc_digests.(digest) data), w).
Proof.
  intros Ef Hb Hne Hl.
  by apply (embedded_hash (H0 := crc_digests) Crc32Ieee) with (c := new_calculator); try done; simpl; lia.
Qed.

Lemma sha_hash data :
  f kSha256 w = (Value (Sha256 new_digest), w) → Forall byte data → data ≠ [] →
  Z.of_nat (length data) < 2 ^ 61 - 1 →
  CalculateHash f kSha256 (Some data) w =
    Ret (Value {| algorithm_ := kSha256; raw_hash_ := Spec.sha256 data |}, w).
Proof.
  intros Ef Hb Hne Hl.
  apply (embedded_hash (H0 := sha_digests) Sha256) with (c := new_digest); try done. apply new_digest_given.
Qed.

End Own.

(** C11: the hash of bytes.  CRC-32 and SHA-256 give their digest.  SHA-384 and
    SHA-512 give the digest of the library, or the empty hash of no algorithm
    when the library does not finalize, or an error when it cannot create or
    update a digest; the other algorithms are refused.  No context of the
    library is left over, unless the library could not initialise it. *)
Theorem calculate_hash_spec {W ctx StructDigest : Type} `{Countable ctx}
    (impl : IOpensslLib W ctx StructDigest) (openssl_lib_ : option (IOpensslLib W ctx StructDigest))
    `{!OpensslContract (default impl openssl_lib_)} a data w :
  Forall byte data → data ≠ [] → Z.of_nat (length data) < 2 ^ 61 - 1 →
  ∃ r w', CalculateHash (HashCalculatorFactory impl openssl_lib_) a (Some data) w = Ret (r, w') ∧
    match r with
    | Value h => (hash_of impl openssl_lib_ a data = Some h ∨
                  (a = kSha384 ∨ a = kSha512) ∧ h = {| algorithm_ := kNone; raw_hash_ := [] |}) ∧
        contexts w' = contexts w
    | Unexpected e => a ≠ kCrc32 ∧ a ≠ kSha256 ∧
        (e = kCouldNotCreateDigest ∧ (contexts w' = contexts w ∨ lost_context impl openssl_lib_ w w')
         ∨ e = kCouldNotUpdateDigest ∧ contexts w' = contexts w)
    end.
Proof.
  intros Hb Hne Hl. destruct (decide (a = kSha384 ∨ a = kSha512)) as [Ha|Ha].
  { destruct (openssl_hash impl openssl_lib_ a data w Ha) as (r & w' & E & P). exists r, w'. split; [done|].
    destruct r; [naive_solver|]. split_and!; [by destruct Ha as [-> | ->]..|done]. }
  destruct a; try tauto; try (by eexists _, _; split; [done|]; naive_solver).
  - eexists _, w. split; [by apply sha_hash|]. by split; [left|].
  - eexists _, w. split; [by apply crc_hash|]. by split; [left|].
Qed.

(** C10: the hash of a stream, for the factory without the library.  CRC-32 and
    SHA-256 give the digest of the bytes of a good stream, at most as many as were
    asked for, whatever the sizes of the reads, and leave the others in the stream;
    they fail only when the device of the stream fails.  A stream that is not good
    is refused, and so are the other algorithms, both without reading. *)
Theorem calculate_hash_stream_spec {W ctx StructDigest : Type} a input max_read (w : W) :
  Forall byte (rest input) → Z.of_nat (length (rest input)) < 2 ^ 61 - 1 →
  in_range int64_t max_read →
  ∃ r input',
    CalculateHash_stream_max (@SafeHashCalculatorFactory W ctx StructDigest) a input max_read w =
      Ret (r, input', w) ∧
    let m := wanted max_read 0 (rest input) in
    match r with
    | Value h =>
        (a = kSha256 ∧ h = {| algorithm_ := kSha256; raw_hash_ := Spec.sha256 m |}
         ∨ a = kCrc32 ∧ h = crc_digests.(digest) m) ∧
        good input = true ∧ rest input' = drop (length m) (rest input)
    | Unexpected e =>
        a ≠ kSha256 ∧ a ≠ kCrc32 ∧ e = kCouldNotCreateDigest ∧ input' = input
        ∨ (a = kSha256 ∨ a = kCrc32) ∧
          (good input = false ∧ e = kStreamError ∧ input' = input
           ∨ good input = true ∧ badbit input' = true ∧ is_Some (broken input))
    end.
Proof.
  intros Hb Hl Hr.
  assert (Z.of_nat (length (rest input)) <= max int64_t) as Hm by (change (max int64_t) with (2 ^ 63 - 1); lia).
  destruct (decide (a = kSha256 ∨ a = kCrc32)) as [Ha|Ha].
  2: { assert (a ≠ kSha256 ∧ a ≠ kCrc32) as [] by (split; intros ->; apply Ha; auto).
       destruct a; try done; eexists _, _; (split; [done|]); by left. }
  destruct (good input) eqn:Hg.
  2: { exists (Unexpected kStreamError), input. split; [|right; split; [done|by left]]. unfold CalculateHash_stream_max, UpdateFromStream_max.
       destruct Ha as [-> | ->]; cbn [SafeHashCalculatorFactory]; by rewrite Hg. }
  destruct Ha as [-> | ->].
  - destruct (embedded_stream (H0 := sha_digests) (@Sha256 W ctx StructDigest)) with
      (f := @SafeHashCalculatorFactory W ctx StructDigest) (a := kSha256) (c := new_digest) (w := w)
      (input := input) (max_read := max_read) as (r & input' & E & P); try done; [apply new_digest_given|].
    exists r, input'. split; [done|]. destruct r; naive_solver.
  - destruct (embedded_stream (H0 := crc_digests) (@Crc32Ieee W ctx StructDigest)) with
      (f := @SafeHashCalculatorFactory W ctx StructDigest) (a := kCrc32) (c := new_calculator) (w := w)
      (input := input) (max_read := max_read) as (r & input' & E & P); try done; [simpl; lia|].
    exists r, input'. split; [done|]. destruct r; naive_solver.
Qed.

Lemma calculate_hash_stream_spec_witness :
  ∃ r input',
    CalculateHash_stream_max (@SafeHashCalculatorFactory unit unit unit) kSha256
      (open_stream [97; 98; 99; 100] None) 3 () = Ret (r, input', ()) ∧
    r = Value {| algorithm_ := kSha256; raw_hash_ := Spec.sha256 [97; 98; 99] |} ∧ rest input' = [100].
Proof.
  destruct (calculate_hash_stream_spec (W := unit) (ctx := unit) (StructDigest := unit) kSha256
    (open_stream [97; 98; 99; 100] None) 3 ()) as (r & input' & E & P); [|done|done|].
  { repeat constructor; unfold byte; lia. }
  exists r, input'. split; [exact E|]. cbv zeta in P.
  change (wanted 3 0 (rest (open_stream [97; 98; 99; 100] None))) with [97; 98; 99] in P.
  destruct r as [h|e].
  - destruct P as [[[_ ->]|[[=] _]] [_ ->]]. split; reflexivity.
  - destruct P as [[[] _]|[_ [[[=] _]|(_ & _ & [? [=]])]]]. done.
Defined.

(** ** A library in memory *)

Definition toy_digest (type : Z) (m : list Z) : list Z := [type; Z.of_nat (length m) mod 256].

Definition toy_library : IOpensslLib (gmap nat (option (Z * list Z))) nat Z := {|
  DigestAlgoSha256 := Some 1;
  DigestAlgoSha384 := Some 2;
  DigestAlgoSha512 := Some 3;
  CreateDigestCtx w := let p := fresh (dom w) in (Some p, <[p := None]> w);
  InitDigestCtx p type w := (1, <[p := Some (type, [])]> w);
  UpdateDigestCtx p data w :=
    match w !! p with
    | Some (Some (type, m)) => (1, <[p := Some (type, m ++ data)]> w)
    | _ => (0, w)
    end;
  FinalizeDigestValue p w :=
    match w !! p with
    | Some (Some (type, m)) => (1, toy_digest type m, <[p := None]> w)
    | _ => (0, [], w)
    end;
  ResetDigestCtx p w := delete p w;
|}.

#[export] Program Instance toy_contract : OpensslContract toy_library :=
  { contexts w := w; evp_digest := toy_digest }.
Next Obligation. intros w. cbn. split; [|done]. apply not_elem_of_dom, is_fresh. Qed.
Next Obligation. intros w p t _. cbn. by eexists. Qed.
Next Obligation. intros w p t m data Hp. cbn in *. rewrite Hp. by eexists. Qed.
Next Obligation. intros w p t m Hp. cbn in *. rewrite Hp. split; [by eexists|done]. Qed.
Next Obligation. intros w p _. done. Qed.

Lemma calculate_hash_spec_witness :
  ∃ r w', CalculateHash (HashCalculatorFactory toy_library None) kSha512 (Some [5; 6; 7]) ∅ = Ret (r, w') ∧
    r = Value {| algorithm_ := kSha512; raw_hash_ := [3; 3] |} ∧ w' = ∅.
Proof.
  destruct (calculate_hash_spec toy_library None kSha512 [5; 6; 7] ∅) as (r & w' & E & P); [|done|done|].
  { repeat constructor; unfold byte; lia. }
  exists r, w'. split; [exact E|]. vm_compute in E. injection E as <- <-. done.
Defined.

End HashFactory.
