(* ===== verification/PmrMemory.v ===== *)
(** * Memory resources: the interface, the memory and what a resource promises

    language/futurecpp, memory_resource.hpp and bit.hpp.  The memory is a map
    from addresses to bytes; a pointer is an address, 0 is the null pointer.
    [memory_resource] is the interface as a type class over the state of a
    resource; an allocation that throws [std::bad_alloc] gives [None].

    A resource promises ([Lawful]) that the blocks it gave out are aligned, lie
    in the memory and overlap neither each other nor the blocks of others, that
    it writes into none of them, and that it works whatever is written into
    them.  Overlap is counted: how many blocks of a list cover an address does
    not depend on their order, and is at most one. *)

From stdpp Require Import gmap.
From S2P Require Import Prelude CppInt CircularBuffer WordBits.

Local Open Scope Z_scope.

Module PmrMemory.

(** ** Memory *)

Abbreviation mem := (gmap Z Z).

Definition word_of (bytes : list Z) : Z := fold_right (λ b n, b + 256 * n) 0 bytes.

Definition offsets : list Z := [0; 1; 2; 3; 4; 5; 6; 7].

(** An object of 8 bytes, the lowest byte first. *)
Definition load (a : Z) (m : mem) : outcome Z :=
  match mapM (λ i, m !! (a + i)) offsets with
  | Some bytes => Ret (word_of bytes)
  | None => Undefined
  end.

Definition store (a v : Z) (m : mem) : mem :=
  fold_right (λ i m, <[a + i := v / 2 ^ (8 * i) mod 256]> m) m offsets.

(** ** bit.hpp, for 64 bits *)

Definition popcount (x : Z) : Z :=
  Z.of_nat (length (filter (λ i, Z.testbit x i = true) (seqZ 0 64))).

Definition has_single_bit (x : Z) : bool := popcount x =? 1.

(** [digits - countl_zero] *)
Definition bit_width (x : Z) : Z := if x =? 0 then 0 else Z.log2 x + 1.

Fixpoint countr_zero_loop (fuel : nat) (x n : Z) : Z :=
  match fuel with
  | O => n
  | S fuel => if Z.testbit x n then n else countr_zero_loop fuel x (n + 1)
  end.

(** The index of the lowest bit. *)
Definition countr_zero (x : Z) : Z := countr_zero_loop 64 x 0.

Section Level.
Variable level : assert_level.

Definition align_up (n m : Z) : outcome Z :=
  ASSERT_DBG level (has_single_bit m)
  (let t := u64 (m - 1) in
   ASSERT_DBG level (n <=? u64 (max uint64_t - t))
   (Ret (u64 (n + Z.land (u64 (- n)) t)))).

End Level.

(** [std::align]: the aligned pointer, null if there is no room, and the space. *)
Definition std_align (alignment size ptr space : Z) : Z * Z :=
  if space <? size then (0, space)
  else
    let aligned := Z.land (u64 (ptr - 1 + alignment)) (u64 (- alignment)) in
    let diff := u64 (aligned - ptr) in
    if u64 (space - size) <? diff then (0, space) else (aligned, u64 (space - diff)).

(** [SCORE_LANGUAGE_FUTURECPP_ASSERT] is compiled in at the same levels. *)
Abbreviation ASSERT := PRECONDITION.

(** ** memory_resource.hpp *)

Class memory_resource (R : Type) := {
  do_allocate : Z → Z → R * mem → outcome (option Z * (R * mem));
  do_deallocate : Z → Z → Z → R * mem → outcome (R * mem);
}.

Section Resource.
Context {R : Type} `{memory_resource R} (level : assert_level).

Definition allocate (bytes alignment : Z) (s : R * mem) : outcome (option Z * (R * mem)) :=
  PRECONDITION level (Z.land (u64 (alignment - 1)) alignment =? 0)
  ('(p, s) ← do_allocate bytes alignment s;
   match p with
   | None => Ret (None, s)
   | Some p => ASSERT level (negb (p =? 0)) (Ret (Some p, s))
   end).

Definition deallocate (p bytes alignment : Z) (s : R * mem) : outcome (R * mem) :=
  PRECONDITION level (negb (p =? 0))
  (PRECONDITION level (Z.land (u64 (alignment - 1)) alignment =? 0)
   (do_deallocate p bytes alignment s)).

End Resource.

(** ** Blocks *)

Record block := Block { b_addr : Z; b_bytes : Z; b_align : Z }.

#[export] Instance block_eq_dec : EqDecision block.
Proof. solve_decision. Defined.

Definition covers (b : block) (x : Z) : Prop := b_addr b <= x < b_addr b + b_bytes b.

#[export] Instance covers_dec b x : Decision (covers b x).
Proof. unfold covers. apply _. Defined.

(** How many blocks cover [x]. *)
Fixpoint cnt (l : list block) (x : Z) : nat :=
  match l with
  | [] => 0
  | b :: l => (if decide (covers b x) then 1 else 0) + cnt l x
  end.

Definition power_of_2 (a : Z) : Prop := ∃ k, 0 <= k < 64 ∧ a = 2 ^ k.

(** A request that a resource with the limit [M] can serve.  Requests for
    nothing with an extended alignment are left out: a pool resource does not
    respect their alignment. *)
Definition fits (M bytes alignment : Z) : Prop :=
  0 <= bytes ∧ alignment <= 2 ^ 62 ∧ bytes + alignment <= M ∧ (bytes = 0 → alignment <= 8).

(** No machine has more than 2^62 bytes of memory. *)
Definition block_ok (M : Z) (b : block) : Prop :=
  0 < b_addr b ∧ b_addr b + b_bytes b < 2 ^ 62 ∧ (b_align b | b_addr b) ∧
  power_of_2 (b_align b) ∧ fits M (b_bytes b) (b_align b).

(** The bytes at the addresses that satisfy [P] are the same. *)
Definition keeps (P : Z → Prop) (m m' : mem) : Prop := ∀ x, P x → m' !! x = m !! x.

(** ** What a resource promises *)

(** [L] are the blocks that it gave out and did not get back, [F] are blocks
    of others, which it leaves alone. *)
Class Lawful (R : Type) `{memory_resource R} := {
  inv : R → mem → list block → list block → Prop;
  max_bytes : Z;
  max_bytes_le : max_bytes <= 2 ^ 64;
  inv_perm r m L L' F F' : L ≡ₚ L' → F ≡ₚ F' → inv r m L F → inv r m L' F';
  inv_blocks r m L F : inv r m L F → Forall (block_ok max_bytes) L;
  inv_cnt r m L F x : inv r m L F → (cnt (L ++ F) x ≤ 1)%nat;
  inv_frame r m m' L F : keeps (λ x, cnt (L ++ F) x = 0%nat) m m' → inv r m L F → inv r m' L F;
  do_allocate_law r m L F bytes alignment :
    inv r m L F → power_of_2 alignment → fits max_bytes bytes alignment →
    ∃ p r' m', do_allocate bytes alignment (r, m) = Ret (p, (r', m')) ∧
      keeps (λ x, cnt (L ++ F) x ≠ 0%nat) m m' ∧
      match p with
      | Some p => inv r' m' (Block p bytes alignment :: L) F
      | None => inv r' m' L F
      end;
  do_deallocate_law r m p bytes alignment L F :
    inv r m (Block p bytes alignment :: L) F →
    ∃ r' m', do_deallocate p bytes alignment (r, m) = Ret (r', m') ∧
      keeps (λ x, cnt (L ++ F) x ≠ 0%nat) m m' ∧ inv r' m' L F;
}.

(** ** Counting *)

Lemma cnt_app l1 l2 x : cnt (l1 ++ l2) x = (cnt l1 x + cnt l2 x)%nat.
Proof. induction l1 as [|b l1 IH]; cbn [app cnt]; [done|]. rewrite IH. lia. Qed.

#[export] Instance cnt_proper : Proper (Permutation ==> eq ==> eq) cnt.
Proof.
  intros l1 l2 Hl x ? <-. induction Hl as [|b l1 l2 _ IH|b c l|l1 l2 l3 _ IH1 _ IH2]; cbn [cnt]; lia.
Qed.

Lemma cnt_elem b l x : b ∈ l → covers b x → (1 ≤ cnt l x)%nat.
Proof.
  intros Hb Hx. induction l as [|c l IH]; [by apply elem_of_nil in Hb|]. cbn [cnt].
  apply elem_of_cons in Hb as [<-|Hb]; [rewrite decide_True by done; lia|]. specialize (IH Hb). lia.
Qed.

Lemma cnt_ne_0 l x : cnt l x ≠ 0%nat → ∃ b, b ∈ l ∧ covers b x.
Proof.
  induction l as [|b l IH]; cbn [cnt]; [done|]. destruct (decide (covers b x)) as [Hb|Hb].
  - intros _. exists b. split; [apply list_elem_of_here|done].
  - intros Hc. destruct IH as (c & ? & ?); [lia|]. exists c. split; [by apply list_elem_of_further|done].
Qed.

(** The block and the rest of the buffer lie in what was the buffer. *)
Lemma split_buffer c n a p bytes p' n' x :
  c <= p → 0 <= bytes → p + bytes = p' → p' + n' = c + n → 0 <= n' →
  (cnt [Block p bytes a; Block p' n' 1] x ≤ cnt [Block c n 1] x)%nat.
Proof.
  intros. cbn [cnt]. unfold covers. cbn [b_addr b_bytes].
  repeat match goal with |- context [decide ?P] => destruct (decide P) end; lia.
Qed.

(** ** Words in memory *)

Lemma keeps_refl P m : keeps P m m.
Proof. done. Qed.

Lemma keeps_trans P Q m1 m2 m3 : keeps P m1 m2 → keeps Q m2 m3 → keeps (λ x, P x ∧ Q x) m1 m3.
Proof. intros H1 H2 x [Hp Hq]. by rewrite H2, H1. Qed.

Lemma keeps_impl (P Q : Z → Prop) m m' : (∀ x, Q x → P x) → keeps P m m' → keeps Q m m'.
Proof. intros HQ HP x Hx. apply HP, HQ, Hx. Qed.

Lemma store_other a v m x : x < a ∨ a + 8 <= x → store a v m !! x = m !! x.
Proof. intros Hx. unfold store. cbn [offsets fold_right]. rewrite !lookup_insert_ne by lia. done. Qed.

Lemma keeps_store (P : Z → Prop) a v m : (∀ x, P x → x < a ∨ a + 8 <= x) → keeps P m (store a v m).
Proof. intros HP x Hx. by apply store_other, HP. Qed.

Lemma load_keeps a m m' : keeps (λ x, a <= x < a + 8) m m' → load a m' = load a m.
Proof.
  intros Hk. unfold load. rewrite (Forall_mapM_ext _ (λ i, m !! (a + i)) offsets); [done|].
  repeat constructor; apply Hk; lia.
Qed.

Lemma word_of_bytes v : 0 <= v < 2 ^ 64 → word_of ((λ i, v / 2 ^ (8 * i) mod 256) <$> offsets) = v.
Proof.
  intros Hv. cbn [offsets fmap list_fmap word_of fold_right].
  assert (∀ i, 0 <= i → v / 2 ^ (8 * i) = v / 2 ^ (8 * i) mod 256 + 256 * (v / 2 ^ (8 * (i + 1)))) as Hstep.
  { intros i Hi. replace (8 * (i + 1)) with (8 * i + 8) by lia. rewrite Z.pow_add_r by lia.
    change (2 ^ 8) with 256. rewrite <- Z.div_div by lia. rewrite Z.add_comm. apply Z.div_mod. lia. }
  assert (v / (1) = v / (1) mod 256 + 256 * (v / (256))) as E0 by (apply (Hstep 0); lia).
  assert (v / (256) = v / (256) mod 256 + 256 * (v / (2 ^ 16))) as E1 by (apply (Hstep 1); lia).
  assert (v / (2 ^ 16) = v / (2 ^ 16) mod 256 + 256 * (v / (2 ^ 24))) as E2 by (apply (Hstep 2); lia).
  assert (v / (2 ^ 24) = v / (2 ^ 24) mod 256 + 256 * (v / (2 ^ 32))) as E3 by (apply (Hstep 3); lia).
  assert (v / (2 ^ 32) = v / (2 ^ 32) mod 256 + 256 * (v / (2 ^ 40))) as E4 by (apply (Hstep 4); lia).
  assert (v / (2 ^ 40) = v / (2 ^ 40) mod 256 + 256 * (v / (2 ^ 48))) as E5 by (apply (Hstep 5); lia).
  assert (v / (2 ^ 48) = v / (2 ^ 48) mod 256 + 256 * (v / (2 ^ 56))) as E6 by (apply (Hstep 6); lia).
  assert (v / (2 ^ 56) = v / (2 ^ 56) mod 256 + 256 * (v / (2 ^ 64))) as E7 by (apply (Hstep 7); lia).
  change (2 ^ (8 * 0)) with (1).
  change (2 ^ (8 * 1)) with (256).
  change (2 ^ (8 * 2)) with (2 ^ 16).
  change (2 ^ (8 * 3)) with (2 ^ 24).
  change (2 ^ (8 * 4)) with (2 ^ 32).
  change (2 ^ (8 * 5)) with (2 ^ 40).
  change (2 ^ (8 * 6)) with (2 ^ 48).
  change (2 ^ (8 * 7)) with (2 ^ 56).
  rewrite (Z.div_small v (2 ^ 64)) in E7 by lia. rewrite Z.div_1_r in *. lia.
Qed.

Lemma load_store a v m : 0 <= v < 2 ^ 64 → load a (store a v m) = Ret v.
Proof.
  intros Hv. unfold load.
  assert (mapM (λ i, store a v m !! (a + i)) offsets = Some ((λ i, v / 2 ^ (8 * i) mod 256) <$> offsets)) as ->.
  { apply mapM_Some_2. cbn [store offsets fold_right fmap list_fmap].
    do 8 (apply Forall2_cons; split; [rewrite ?lookup_insert_ne by lia; apply lookup_insert_eq|]).
    by apply Forall2_nil. }
  by rewrite word_of_bytes.
Qed.

Lemma load_store_other a b v m : a + 8 <= b ∨ b + 8 <= a → load a (store b v m) = load a m.
Proof. intros Hab. apply load_keeps, keeps_store. intros x Hx. lia. Qed.

(** ** Powers of two *)

Lemma power_of_2_range a : power_of_2 a → 0 < a < 2 ^ 64.
Proof. intros (k & Hk & ->). split; [lia|]. apply Z.pow_lt_mono_r; lia. Qed.

Lemma power_of_2_cases (P : Z → bool) :
  forallb (λ k, P (2 ^ k)) (seqZ 0 64) = true → ∀ a, power_of_2 a → P a = true.
Proof.
  intros HP a (k & Hk & ->). rewrite forallb_forall in HP. apply HP, list_elem_of_In, elem_of_seqZ. lia.
Qed.

Lemma has_single_bit_power a : power_of_2 a → has_single_bit a = true.
Proof. apply power_of_2_cases. by vm_compute. Qed.

Lemma alignment_test a : power_of_2 a → (Z.land (u64 (a - 1)) a =? 0) = true.
Proof. apply (power_of_2_cases (λ a, Z.land (u64 (a - 1)) a =? 0)). by vm_compute. Qed.

Lemma power_of_2_max a b : power_of_2 a → power_of_2 b → power_of_2 (Z.max a b) ∧ (a | Z.max a b) ∧ (b | Z.max a b).
Proof.
  intros (k & Hk & ->) (l & Hl & ->). destruct (Z.le_ge_cases k l) as [H|H];
    pose proof (Z.pow_le_mono_r 2 _ _ ltac:(lia) H).
  - rewrite Z.max_r by lia. split_and!; [by exists l|exists (2 ^ (l - k)); rewrite <- Z.pow_add_r by lia; f_equal; lia|done].
  - rewrite Z.max_l by lia. split_and!; [by exists k|done|exists (2 ^ (k - l)); rewrite <- Z.pow_add_r by lia; f_equal; lia].
Qed.

Lemma power_of_2_divide a b : power_of_2 a → power_of_2 b → a <= b → (a | b).
Proof. intros Ha Hb Hab. destruct (power_of_2_max a b Ha Hb) as (_ & H & _). by rewrite Z.max_r in H. Qed.

Lemma land_low x k : 0 <= k → Z.land x (2 ^ k - 1) = x mod 2 ^ k.
Proof. intros Hk. rewrite <- Z.land_ones, Z.ones_equiv by done. by rewrite Z.sub_1_r. Qed.

Lemma u64_wrap z : u64 z = z mod 2 ^ 64.
Proof. done. Qed.

(** The next multiple of [m]. *)
Lemma round_up n m : 0 < m → let s := n + (- n) mod m in n <= s < n + m ∧ (m | s).
Proof.
  intros Hm s. pose proof (Z.mod_pos_bound (- n) m Hm) as Hb. split; [lia|].
  exists (- ((- n) / m)). unfold s. pose proof (Z.div_mod (- n) m). lia.
Qed.

Lemma mod_mod_power x k : 0 <= k < 64 → (x mod 2 ^ 64) mod 2 ^ k = x mod 2 ^ k.
Proof.
  intros Hk. symmetry. apply Znumtheory.Zmod_div_mod; [lia..|].
  exists (2 ^ (64 - k)). rewrite <- Z.pow_add_r by lia. f_equal. lia.
Qed.

Lemma align_up_spec level n m : power_of_2 m → 0 <= n → n + m <= 2 ^ 64 →
  ∃ s, align_up level n m = Ret s ∧ n <= s < n + m ∧ (m | s).
Proof.
  intros Hm Hn Hs. pose proof (has_single_bit_power m Hm) as Hbit. pose proof (power_of_2_range m Hm) as Hr.
  destruct Hm as (k & Hk & Em). exists (n + (- n) mod m). split; [|apply round_up; lia].
  unfold align_up. rewrite Hbit, (u64_id (m - 1)), (u64_id (max uint64_t - _)) by (change (max uint64_t) with (2 ^ 64 - 1); lia).
  rewrite (proj2 (Z.leb_le _ _)) by (change (max uint64_t) with (2 ^ 64 - 1); lia).
  rewrite (u64_wrap (- n)), Em, land_low, mod_mod_power, <- Em by lia.
  pose proof (round_up n m ltac:(lia)) as [Hb Hd].
  rewrite u64_id; [by destruct level|].
  cbv zeta in Hb. lia.
Qed.

Lemma land_high x k : 0 <= k < 64 → 0 <= x < 2 ^ 64 → Z.land x (u64 (- 2 ^ k)) = x - x mod 2 ^ k.
Proof.
  intros Hk Hx. assert (Z.land x (u64 (- 2 ^ k)) = Z.ldiff x (Z.ones k)) as ->.
  - apply Z.bits_inj'. intros i Hi. rewrite Z.land_spec, Z.ldiff_spec, u64_wrap.
    destruct (Z.lt_ge_cases i 64) as [H64|H64]; [|by rewrite (testbit_above x 64)].
    rewrite Z.mod_pow2_bits_low, Z.testbit_ones_nonneg by lia. f_equal.
    rewrite Z.bits_opp, <- Z.ones_equiv, Z.testbit_ones_nonneg by lia. done.
  - rewrite Z.ldiff_ones_r, Z.shiftr_div_pow2, Z.shiftl_mul_pow2 by lia.
    pose proof (Z.div_mod x (2 ^ k)). lia.
Qed.

(** The aligned pointer lies in the space, unless it is null. *)
Lemma std_align_spec alignment size ptr space p space' :
  power_of_2 alignment → 0 <= size → 0 <= ptr → 0 <= space → ptr + space < 2 ^ 64 →
  std_align alignment size ptr space = (p, space') →
  0 <= space' <= space ∧
  (p = 0 ∨ ptr <= p ∧ (alignment | p) ∧ size <= space' ∧ p + space' = ptr + space).
Proof.
  intros Ha Hs Hp Hsp He. pose proof (power_of_2_range _ Ha) as Hr. destruct Ha as (k & Hk & Ea).
  unfold std_align. destruct (Z.ltb_spec space size) as [_|Hle]; [intros [= <- <-]; split; [lia|by left]|].
  assert (Z.land (u64 (ptr - 1 + alignment)) (u64 (- alignment)) =
    u64 (ptr - 1 + alignment) - u64 (ptr - 1 + alignment) mod alignment) as ->.
  { rewrite Ea. apply land_high; [done|]. rewrite u64_wrap. apply Z.mod_pos_bound. lia. }
  rewrite (u64_id (space - size)) by lia.
  destruct (round_up ptr alignment) as [Hb Hd]; [lia|]. remember (ptr + - ptr mod alignment) as A eqn:HA.
  destruct (Z.lt_ge_cases (ptr - 1 + alignment) (2 ^ 64)) as [Hw|Hw].
  - rewrite (u64_id (ptr - 1 + alignment)) by lia.
    assert (ptr - 1 + alignment - (ptr - 1 + alignment) mod alignment = A) as ->.
    { destruct Hd as [q Hq]. rewrite <- (Z.mod_unique _ alignment q (ptr - 1 + alignment - A)); lia. }
    rewrite (u64_id (A - ptr)) by lia.
    destruct (Z.ltb_spec (space - size) (A - ptr)); intros [= <- <-]; [split; [lia|by left]|].
    rewrite u64_id by lia. split; [lia|]. right. split_and!; [lia|done|lia|lia].
  - assert (u64 (ptr - 1 + alignment) = ptr - 1 + alignment - 2 ^ 64) as ->.
    { rewrite u64_wrap. symmetry. apply (Z.mod_unique _ _ 1); lia. }
    rewrite (Z.mod_small (_ - 2 ^ 64)), Z.sub_diag by lia.
    assert (u64 (0 - ptr) = 2 ^ 64 - ptr) as -> by (rewrite u64_wrap; symmetry; apply (Z.mod_unique _ _ (-1)); lia).
    rewrite (proj2 (Z.ltb_lt _ _)) by lia. intros [= <- <-]. split; [lia|by left].
Qed.

(** With room for the padding the pointer is not null. *)
Lemma std_align_room alignment size ptr space p space' :
  power_of_2 alignment → 0 <= size → 0 < ptr → size + alignment - 1 <= space → ptr + space < 2 ^ 63 →
  std_align alignment size ptr space = (p, space') → p ≠ 0.
Proof.
  intros Ha Hs Hp Hsp He. pose proof (power_of_2_range _ Ha) as Hr. destruct Ha as (k & Hk & Ea).
  unfold std_align. rewrite (proj2 (Z.ltb_ge space size)) by lia.
  rewrite (u64_id (ptr - 1 + alignment)), (u64_id (space - size)), Ea, land_high, <- Ea by lia.
  pose proof (Z.mod_pos_bound (ptr - 1 + alignment) alignment ltac:(lia)).
  rewrite u64_id by lia. rewrite (proj2 (Z.ltb_ge _ _)) by lia. intros [= <- _]. lia.
Qed.

(** ** Calls of a lawful resource *)

Section Calls.
Context {R : Type} `{Lawful R} (level : assert_level).

Lemma allocate_law r m L F bytes alignment :
  inv r m L F → power_of_2 alignment → fits max_bytes bytes alignment →
  ∃ p r' m', allocate level bytes alignment (r, m) = Ret (p, (r', m')) ∧
    keeps (λ x, cnt (L ++ F) x ≠ 0%nat) m m' ∧
    match p with
    | Some p => inv r' m' (Block p bytes alignment :: L) F ∧ block_ok max_bytes (Block p bytes alignment)
    | None => inv r' m' L F
    end.
Proof.
  intros Hi Ha Hf. destruct (do_allocate_law r m L F bytes alignment Hi Ha Hf) as (p & r' & m' & E & Hk & Hp).
  exists p, r', m'. unfold allocate. rewrite alignment_test by done. rewrite E. cbn [mbind outcome_bind].
  destruct p as [p|]; [|by destruct level]. pose proof (inv_blocks _ _ _ _ Hp) as Hb.
  apply Forall_cons in Hb as [Hb _]. split_and!; [|done..]. destruct Hb as [Hp0 _]. cbn [b_addr] in Hp0.
  rewrite (proj2 (Z.eqb_neq p 0)) by lia. by destruct level.
Qed.

Lemma deallocate_law r m p bytes alignment L F :
  inv r m (Block p bytes alignment :: L) F →
  ∃ r' m', deallocate level p bytes alignment (r, m) = Ret (r', m') ∧
    keeps (λ x, cnt (L ++ F) x ≠ 0%nat) m m' ∧ inv r' m' L F.
Proof.
  intros Hi. destruct (do_deallocate_law r m p bytes alignment L F Hi) as (r' & m' & E & Hk & Hi').
  exists r', m'. split_and!; [|done..]. pose proof (inv_blocks _ _ _ _ Hi) as Hb.
  apply Forall_cons in Hb as [(Hp & _ & _ & Ha & _) _]. cbn [b_addr b_align] in *.
  unfold deallocate. rewrite alignment_test, E by done. rewrite (proj2 (Z.eqb_neq p 0)) by lia. by destruct level.
Qed.

End Calls.

End PmrMemory.
