(* ===== verification/PmrClient.v ===== *)
(** * Memory resources: programs that use a resource

    A client allocates blocks, writes bytes into the blocks it holds and gives
    blocks back, in any order.  With a lawful resource every such program runs,
    and finds in its blocks what it wrote. *)

From stdpp Require Import gmap.
From S2P Require Import Prelude CppInt CircularBuffer PmrMemory.

Local Open Scope Z_scope.

Module PmrClient.
Import PmrMemory.

Inductive operation :=
| Allocate (bytes alignment : Z)
| Write (i : nat) (offset value : Z)
| Deallocate (i : nat).

(** The blocks the client holds, with the bytes that it wrote. *)
Abbreviation held := (list (block * gmap Z Z)).

Section Client.
Context {R : Type} `{memory_resource R} (level : assert_level).

(** A request that throws leaves the client as it was; operations on blocks
    that the client does not hold are left out. *)
Definition perform (o : operation) (s : R * mem * held) : outcome (R * mem * held) :=
  let '(rm, h) := s in
  match o with
  | Allocate bytes alignment =>
      '(p, rm) ← allocate level bytes alignment rm;
      Ret (rm, match p with Some p => (Block p bytes alignment, ∅) :: h | None => h end)
  | Write i offset value =>
      match h !! i with
      | Some (b, content) =>
          if decide (0 <= offset < b_bytes b)
          then Ret (rm.1, <[b_addr b + offset := value]> rm.2, <[i := (b, <[offset := value]> content)]> h)
          else Ret s
      | None => Ret s
      end
  | Deallocate i =>
      match h !! i with
      | Some (b, _) =>
          rm ← deallocate level (b_addr b) (b_bytes b) (b_align b) rm;
          Ret (rm, delete i h)
      | None => Ret s
      end
  end.

Fixpoint run (os : list operation) (s : R * mem * held) : outcome (R * mem * held) :=
  match os with [] => Ret s | o :: os => s ← perform o s; run os s end.

End Client.

Definition request_ok (M : Z) (o : operation) : Prop :=
  match o with Allocate bytes alignment => power_of_2 alignment ∧ fits M bytes alignment | _ => True end.

Definition blocks (h : held) : list block := h.*1.

(** The memory has in every block what was written. *)
Definition contents_ok (m : mem) (h : held) : Prop :=
  Forall (λ bc, ∀ offset value, bc.2 !! offset = Some value →
    0 <= offset < b_bytes bc.1 ∧ m !! (b_addr bc.1 + offset) = Some value) h.

Section Lawful.
Context {R : Type} `{Lawful R} (level : assert_level).

Lemma contents_keeps m m' h : keeps (λ x, cnt (blocks h) x ≠ 0%nat) m m' → contents_ok m h → contents_ok m' h.
Proof.
  intros Hk Hc. unfold contents_ok in *. rewrite Forall_forall in *. intros [b c] Hin o v Ho.
  destruct (Hc _ Hin o v Ho) as [Hr Hm]. split; [done|]. cbn [fst] in *. rewrite <- Hm. apply Hk.
  assert (covers b (b_addr b + o)) as Hcov by (unfold covers; lia).
  pose proof (cnt_elem b (blocks h) (b_addr b + o) (list_elem_of_fmap_2 fst h (b, c) Hin) Hcov). lia.
Qed.

Definition client_ok (r : R) (m : mem) (h : held) (F : list block) : Prop :=
  inv r m (blocks h) F ∧ contents_ok m h.

Lemma write_ok r m h F i b c offset value : h !! i = Some (b, c) → 0 <= offset < b_bytes b → client_ok r m h F →
  client_ok r (<[b_addr b + offset := value]> m) (<[i := (b, <[offset := value]> c)]> h) F ∧
  keeps (λ x, cnt F x ≠ 0%nat) m (<[b_addr b + offset := value]> m).
Proof.
  intros (h1 & h2 & -> & ->)%list_elem_of_split_length Hr [Hi Hc].
  rewrite insert_app_r_alt, Nat.sub_diag by done. cbn [list_insert insert].
  assert (covers b (b_addr b + offset)) as Hcov by (unfold covers; lia).
  pose proof (inv_cnt _ _ _ _ (b_addr b + offset) Hi) as Hcnt. unfold blocks in *.
  rewrite !fmap_app, !cnt_app in *. cbn [fmap list_fmap fst cnt] in *. rewrite decide_True in Hcnt by done.
  split; [split|].
  - unfold blocks. rewrite fmap_app. apply (inv_frame r m); [|done]. intros x Hx. apply lookup_insert_ne. intros <-.
    rewrite !cnt_app in Hx. cbn [fmap list_fmap cnt fst] in Hx. rewrite decide_True in Hx by done. lia.
  - apply Forall_app in Hc as [Hc1 [Hcb Hc2]%Forall_cons].
    assert (∀ h', cnt h'.*1 (b_addr b + offset) = 0%nat →
      contents_ok m h' → contents_ok (<[b_addr b + offset := value]> m) h') as Hother.
    { intros h' Hz. apply contents_keeps. intros x Hx. apply lookup_insert_ne. intros <-. unfold blocks in Hx. lia. }
    apply Forall_app. split; [apply Hother; [lia|done]|]. apply Forall_cons. split; [|apply Hother; [lia|done]].
    intros o v. cbn [fst snd] in *. destruct (decide (o = offset)) as [->|Hne].
    + rewrite !lookup_insert_eq. intros [= ->]. by split.
    + rewrite !lookup_insert_ne by lia. apply Hcb.
  - intros x Hx. apply lookup_insert_ne. intros <-. lia.
Qed.

Lemma perform_ok o r m h F : request_ok max_bytes o → client_ok r m h F →
  ∃ r' m' h', perform level o (r, m, h) = Ret (r', m', h') ∧ client_ok r' m' h' F ∧
    keeps (λ x, cnt F x ≠ 0%nat) m m'.
Proof.
  intros Ho [Hi Hc]. destruct o as [bytes alignment|i offset value|i]; cbn [perform].
  - destruct Ho as [Ha Hf].
    destruct (allocate_law level r m (blocks h) F bytes alignment Hi Ha Hf) as (p & r' & m' & -> & Hk & Hp).
    cbn [mbind outcome_bind]. exists r', m'. eexists. split; [done|].
    assert (contents_ok m' h) as Hc'.
    { eapply contents_keeps; [|done]. eapply keeps_impl; [|exact Hk]. intros x Hx. cbv beta. rewrite cnt_app. lia. }
    split; [|by eapply keeps_impl; [|exact Hk]; intros x Hx; cbv beta; rewrite cnt_app; lia].
    destruct p as [p|]; [|done]. destruct Hp as [Hp _]. split; [done|]. by constructor.
  - destruct (h !! i) as [[b c]|] eqn:Ei; [|by exists r, m, h].
    destruct (decide _) as [Hr|]; [|by exists r, m, h]. eexists _, _, _. split; [done|].
    by apply (write_ok r m h F i b c).
  - destruct (h !! i) as [[b c]|] eqn:Ei; [|by exists r, m, h].
    apply list_elem_of_split_length in Ei as (h1 & h2 & -> & ->). rewrite delete_middle.
    destruct (deallocate_law level r m (b_addr b) (b_bytes b) (b_align b) (blocks (h1 ++ h2)) F)
      as (r' & m' & -> & Hk & Hi').
    { eapply inv_perm; [|done|exact Hi]. unfold blocks. rewrite !fmap_app. cbn [fmap list_fmap fst].
      destruct b. symmetry. apply Permutation_middle. }
    cbn [mbind outcome_bind]. exists r', m', (h1 ++ h2). split; [done|].
    split; [|by eapply keeps_impl; [|exact Hk]; intros x Hx; cbv beta; rewrite cnt_app; lia]. split; [done|].
    eapply contents_keeps; [|apply Forall_app in Hc as [? [_ ?]%Forall_cons]; by apply Forall_app].
    eapply keeps_impl; [|exact Hk]. intros x Hx. cbv beta. rewrite cnt_app. lia.
Qed.

Lemma program_ok os : ∀ r m h F, Forall (request_ok max_bytes) os → client_ok r m h F →
  ∃ r' m' h', run level os (r, m, h) = Ret (r', m', h') ∧ client_ok r' m' h' F ∧
    keeps (λ x, cnt F x ≠ 0%nat) m m'.
Proof.
  induction os as [|o os IH]; intros r m h F Hos Hok; [by exists r, m, h|].
  apply Forall_cons in Hos as [Ho Hos]. destruct (perform_ok o r m h F Ho Hok) as (r1 & m1 & h1 & E & Hok1 & Hk1).
  destruct (IH r1 m1 h1 F Hos Hok1) as (r2 & m2 & h2 & E2 & Hok2 & Hk2).
  exists r2, m2, h2. cbn [run]. rewrite E. split_and!; [done..|]. intros x Hx. by rewrite Hk2, Hk1.
Qed.

End Lawful.

End PmrClient.
