(* ===== verification/ChunkList.v ===== *)
(** * Memory resources: the list of chunks

    language/futurecpp, chunk_size_and_alignment.hpp and chunk_list.hpp.  The
    descriptor of a chunk lies at its end, in the memory that was allocated, so
    that the list is made of words of the memory.  A resource is a reference in
    the model: the checks that a pointer to one is not null are left out. *)

From stdpp Require Import gmap.
From S2P Require Import Prelude CppInt CircularBuffer WordBits PmrMemory.

Local Open Scope Z_scope.

Module ChunkList.
Import PmrMemory.

Definition get_size (val_ : Z) : Z := Z.land val_ (u64 (Z.lnot 63)).
Definition get_alignment (val_ : Z) : Z := u64 (Z.shiftl 1 (Z.land val_ 63)).

(** [sizeof(element)] and [alignof(element)], and the offsets of the members. *)
Definition sizeof_element : Z := 24.
Definition alignof_element : Z := 8.
Definition next (e : Z) : Z := e + 8.
Definition prev (e : Z) : Z := e + 16.

Definition get_element (chunk chunk_size : Z) : Z := u64 (chunk + chunk_size - sizeof_element).
Definition get_chunk (descriptor val_ : Z) : Z := u64 (descriptor + sizeof_element - get_size val_).

Definition internal_alignment (alignment : Z) : Z := Z.max alignment alignof_element.

Section Operations.
Context {U : Type} `{memory_resource U} (level : assert_level).

(** The constructor. *)
Definition chunk_size_and_alignment (size alignment : Z) : outcome Z :=
  let val_ := Z.lor size (u64 (bit_width alignment - 1)) in
  PRECONDITION level (has_single_bit alignment)
  (PRECONDITION level (size mod 64 =? 0)
   (ASSERT level (size =? get_size val_)
    (ASSERT level (alignment =? get_alignment val_) (Ret val_)))).

Definition internal_size (bytes : Z) : outcome Z := align_up level (u64 (bytes + sizeof_element)) 64.

Definition link (descriptor head_ : Z) (m : mem) : Z * mem :=
  let m := if negb (head_ =? 0) then store (prev head_) descriptor m else m in
  (descriptor, store (next descriptor) head_ m).

Definition unlink (descriptor head_ : Z) (m : mem) : outcome (Z * mem) :=
  n ← load (next descriptor) m;
  p ← load (prev descriptor) m;
  m ← (if negb (n =? 0) then
         np ← load (prev n) m;
         ASSERT level (np =? descriptor) (Ret (store (prev n) p m))
       else Ret m);
  m ← (if negb (p =? 0) then
         pn ← load (next p) m;
         ASSERT level (pn =? descriptor) (Ret (store (next p) n m))
       else Ret m);
  Ret (if head_ =? descriptor then n else head_, m).

(** The result, [head_] and the resource with the memory. *)
Definition chunk_allocate (bytes alignment head_ : Z) (s : U * mem) :
    outcome (option Z * Z * (U * mem)) :=
  PRECONDITION level (has_single_bit alignment)
  (size ← internal_size bytes;
   let a := internal_alignment alignment in
   '(result, (u, m)) ← allocate level size a s;
   match result with
   | None => Ret (None, head_, (u, m))
   | Some result =>
       properties ← chunk_size_and_alignment size a;
       let e := get_element result size in
       let m := store (prev e) 0 (store (next e) 0 (store e properties m)) in
       let '(head_, m) := link e head_ m in
       Ret (Some result, head_, (u, m))
   end).

Definition chunk_deallocate (p bytes alignment head_ : Z) (s : U * mem) : outcome (Z * (U * mem)) :=
  PRECONDITION level (negb (p =? 0))
  (PRECONDITION level (has_single_bit alignment)
   (size ← internal_size bytes;
    let a := internal_alignment alignment in
    let '(u, m) := s in
    '(head_, m) ← unlink (get_element p size) head_ m;
    s ← deallocate level p size a (u, m);
    Ret (head_, s))).

Fixpoint release_loop (fuel : nat) (head_ : Z) (s : U * mem) : outcome (U * mem) :=
  if negb (head_ =? 0) then
    match fuel with
    | O => Undefined
    | S fuel =>
        let '(u, m) := s in
        n ← load (next head_) m;
        properties ← load head_ m;
        s ← deallocate level (get_chunk head_ properties) (get_size properties) (get_alignment properties) (u, m);
        release_loop fuel n s
    end
  else Ret s.

(** Every descriptor has bytes of its own. *)
Definition chunk_release (head_ : Z) (s : U * mem) : outcome (U * mem) :=
  release_loop (size s.2) head_ s.

End Operations.

(** ** Chunks in memory *)

Definition elem_addr (c : block) : Z := b_addr c + b_bytes c - 24.
Definition elem_block (c : block) : block := Block (elem_addr c) 24 8.
Definition properties (c : block) : Z := Z.lor (b_bytes c) (Z.log2 (b_align c)).

(** A chunk: its size is a multiple of 64, and there is room for the
    descriptor. *)
Definition chunk_ok (c : block) : Prop :=
  (64 | b_bytes c) ∧ 24 <= b_bytes c ∧ 8 <= b_align c.

(** The descriptors of [l] from [head_] up to [last]. *)
Fixpoint dseg (m : mem) (pr head_ : Z) (l : list block) (last : Z) : Prop :=
  match l with
  | [] => head_ = last
  | c :: l =>
      head_ = elem_addr c ∧ load head_ m = Ret (properties c) ∧ load (prev head_) m = Ret pr ∧
      ∃ n, load (next head_) m = Ret n ∧ dseg m head_ n l last
  end.

(** The bytes of a list that no descriptor uses. *)
Definition elems (l : list block) : list block := elem_block <$> l.

(** ** Sizes and alignments *)

Lemma properties_spec level size alignment :
  power_of_2 alignment → 0 <= size < 2 ^ 64 → (64 | size) →
  let v := Z.lor size (Z.log2 alignment) in
  chunk_size_and_alignment level size alignment = Ret v ∧ get_size v = size ∧ get_alignment v = alignment ∧
  0 <= v < 2 ^ 64.
Proof.
  intros Ha Hs [q Hq] v. pose proof (has_single_bit_power _ Ha) as Hb. destruct Ha as (k & Hk & Ea).
  assert (v = k + q * 2 ^ 6) as Ev.
  { unfold v. rewrite Hq, Z.lor_comm, Ea, Z.log2_pow2 by lia. apply (lor_disjoint k q 6); lia. }
  assert (v mod 64 = k) as Em by (symmetry; apply (Z.mod_unique _ _ q); lia).
  assert (get_size v = size) as E1.
  { unfold get_size. change (u64 (Z.lnot 63)) with (u64 (- 2 ^ 6)). rewrite land_high by lia.
    change (2 ^ 6) with 64. rewrite Em. lia. }
  assert (get_alignment v = alignment) as E2.
  { unfold get_alignment. change 63 with (2 ^ 6 - 1). rewrite land_low by lia. change (2 ^ 6) with 64.
    rewrite Em, Z.shiftl_1_l, Ea. apply u64_id. split; [lia|]. apply Z.pow_lt_mono_r; lia. }
  split_and!; [|done|done|lia..]. unfold chunk_size_and_alignment. rewrite Hb.
  replace (bit_width alignment - 1) with (Z.log2 alignment).
  - rewrite (u64_id (Z.log2 alignment)) by (rewrite Ea, Z.log2_pow2; lia). fold v.
    rewrite E1, E2, !Z.eqb_refl, Hq, Z.mod_mul by lia. by destruct level.
  - unfold bit_width. rewrite (proj2 (Z.eqb_neq alignment 0)) by (rewrite Ea; lia). lia.
Qed.

Lemma internal_size_spec level bytes : 0 <= bytes → bytes + 88 <= 2 ^ 64 →
  ∃ s, internal_size level bytes = Ret s ∧ bytes + 24 <= s < bytes + 88 ∧ (64 | s).
Proof.
  intros Hb Hl. unfold internal_size, sizeof_element. rewrite u64_id by lia.
  destruct (align_up_spec level (bytes + 24) 64) as (s & E & Hs & Hd); [by exists 6|lia..|].
  exists s. split_and!; [done|lia..|done].
Qed.

(** ** Lists of descriptors *)

(** Where a chunk lies. *)
Definition placed (c : block) : Prop :=
  0 < b_addr c ∧ b_addr c + b_bytes c < 2 ^ 62 ∧ power_of_2 (b_align c) ∧ chunk_ok c.

Lemma elem_addr_range c : placed c → 0 < b_addr c <= elem_addr c ∧ elem_addr c + 24 = b_addr c + b_bytes c.
Proof. intros (? & ? & _ & _ & ? & _). unfold elem_addr. lia. Qed.

Lemma elem_covers c x : placed c → covers (elem_block c) x → covers c x.
Proof. intros Hp%elem_addr_range. unfold covers, elem_block. simpl. lia. Qed.

Lemma elems_le l x : Forall placed l → (cnt (elems l) x ≤ cnt l x)%nat.
Proof.
  induction 1 as [|c l Hc _ IH]; [done|]. cbn [elems fmap list_fmap cnt]. fold (elems l).
  destruct (decide (covers (elem_block c) x)) as [He|He]; [|lia].
  rewrite (decide_True (P := covers c x)) by by apply elem_covers. unfold elems in *. lia.
Qed.

(** Two descriptors do not overlap. *)
Lemma elems_apart c l d : (∀ x, cnt (elems (c :: l)) x ≤ 1)%nat → d ∈ l →
  elem_addr c + 24 <= elem_addr d ∨ elem_addr d + 24 <= elem_addr c.
Proof.
  intros Hc Hd. destruct (Z.le_gt_cases (elem_addr c + 24) (elem_addr d)); [by left|].
  destruct (Z.le_gt_cases (elem_addr d + 24) (elem_addr c)); [by right|]. exfalso.
  specialize (Hc (Z.max (elem_addr c) (elem_addr d))). cbn [elems fmap list_fmap cnt] in Hc.
  rewrite decide_True in Hc by (unfold covers, elem_block; simpl; lia).
  pose proof (cnt_elem (elem_block d) (elems l) (Z.max (elem_addr c) (elem_addr d))) as Hl.
  unfold elems in *. specialize (Hl ltac:(by apply list_elem_of_fmap_2)).
  unfold covers in Hl. simpl in Hl. lia.
Qed.

Lemma dseg_keeps m m' l : ∀ pr h t,
  keeps (λ x, cnt (elems l) x ≠ 0%nat) m m' → dseg m pr h l t → dseg m' pr h l t.
Proof.
  induction l as [|c l IH]; intros pr h t Hk; [done|]. intros (Eh & Hp & Hpr & n & Hn & Hl).
  cbn [elems fmap list_fmap cnt] in Hk.
  assert (∀ a, h <= a → a + 8 <= h + 24 → load a m' = load a m) as Hload.
  { intros a Ha Ha'. apply load_keeps. intros x Hx. apply Hk. rewrite decide_True; [lia|].
    unfold covers, elem_block. simpl. lia. }
  unfold next, prev in *. cbn [dseg]. unfold next, prev. rewrite !Hload by lia. split_and!; [done..|].
  exists n. split; [done|]. apply IH; [|done].
  intros x Hx. apply Hk. unfold elems in Hx. lia.
Qed.

Lemma dseg_store m pr h l t a v : (∀ c, c ∈ l → a + 8 <= elem_addr c ∨ elem_addr c + 24 <= a) →
  dseg m pr h l t → dseg (store a v m) pr h l t.
Proof.
  intros Ha. apply dseg_keeps, keeps_store. intros x (b & Hb & Hx)%cnt_ne_0.
  apply list_elem_of_fmap in Hb as (c & -> & Hc). specialize (Ha c Hc). unfold covers in Hx. simpl in Hx. lia.
Qed.

Definition last_addr (pr : Z) (l : list block) : Z := default pr (elem_addr <$> last l).

Lemma dseg_app m l1 l2 : ∀ pr h t,
  dseg m pr h (l1 ++ l2) t ↔ ∃ mid, dseg m pr h l1 mid ∧ dseg m (last_addr pr l1) mid l2 t.
Proof.
  induction l1 as [|c l1 IH]; intros pr h t; cbn [app dseg].
  { split; [intros; by exists h|by intros (mid & -> & ?)]. }
  assert (last_addr pr (c :: l1) = last_addr (elem_addr c) l1) as El.
  { unfold last_addr. rewrite last_cons. by destruct (last l1). }
  rewrite El. setoid_rewrite IH. naive_solver.
Qed.

(** Writing the first pointer back, and the last pointer forward. *)
Lemma dseg_set_prev m pr h c l t v : 0 <= v < 2 ^ 64 → (∀ x, cnt (elems (c :: l)) x ≤ 1)%nat →
  dseg m pr h (c :: l) t → dseg (store (prev h) v m) v h (c :: l) t.
Proof.
  intros Hv Hc (Eh & Hp & Hpr & n & Hn & Hl). cbn [dseg]. unfold prev, next in *.
  rewrite load_store, !load_store_other by lia. split_and!; [done..|]. exists n. split; [done|].
  apply dseg_store; [|done]. intros d Hd. destruct (elems_apart c l d Hc Hd); lia.
Qed.

Lemma dseg_set_next m pr h l c t v : 0 <= v < 2 ^ 64 → (∀ x, cnt (elems (c :: l)) x ≤ 1)%nat →
  dseg m pr h (l ++ [c]) t → dseg (store (next (elem_addr c)) v m) pr h (l ++ [c]) v.
Proof.
  intros Hv Hc (mid & Hl & -> & Hp & Hpr & n & Hn & Ht)%dseg_app. apply dseg_app.
  exists (elem_addr c). split.
  - apply dseg_store; [|done]. intros d Hd. unfold next. destruct (elems_apart c l d Hc Hd); lia.
  - cbn [dseg]. unfold prev, next in *. rewrite load_store, !load_store_other by lia. split_and!; [done..|].
    by exists v.
Qed.

(** A word of a descriptor in the list. *)
Lemma outside_elem l c x a : c ∈ l → cnt (elems l) x = 0%nat → elem_addr c <= a → a + 8 <= elem_addr c + 24 →
  x < a ∨ a + 8 <= x.
Proof.
  intros Hc Hx Ha Ha'. destruct (decide (covers (elem_block c) x)) as [Hcov|Hcov].
  - pose proof (cnt_elem (elem_block c) (elems l) x (list_elem_of_fmap_2 _ _ _ Hc) Hcov). lia.
  - unfold covers, elem_block in Hcov. simpl in Hcov. lia.
Qed.

Lemma elems_tail c l : (∀ x, cnt (elems (c :: l)) x ≤ 1)%nat → (∀ x, cnt (elems l) x ≤ 1)%nat.
Proof. intros H x. specialize (H x). cbn [elems fmap list_fmap cnt] in H. unfold elems. lia. Qed.

(** The first descriptor gets a new predecessor. *)
Lemma set_first_prev m h l e pr : Forall placed l → (∀ x, cnt (elems l) x ≤ 1)%nat → 0 <= e < 2 ^ 64 →
  dseg m pr h l 0 →
  let m' := if negb (h =? 0) then store (prev h) e m else m in
  dseg m' e h l 0 ∧ keeps (λ x, cnt (elems l) x = 0%nat) m m'.
Proof.
  intros Hl Hcnt He Hd m'. unfold m'. destruct l as [|d l].
  { cbn [dseg] in Hd. subst h. by split. }
  pose proof (elem_addr_range d (Forall_inv Hl)) as Hr. destruct (Hd) as [Eh _]. subst h.
  rewrite (proj2 (Z.eqb_neq _ 0)) by lia. cbn [negb]. split; [by eapply dseg_set_prev|].
  apply keeps_store. intros x Hx. apply (outside_elem (d :: l) d); [apply list_elem_of_here|done|unfold prev; lia..].
Qed.

(** The descriptor of a new chunk is put in front. *)
Lemma link_spec m c l h : Forall placed (c :: l) → (∀ x, cnt (elems (c :: l)) x ≤ 1)%nat →
  dseg m 0 h l 0 → load (elem_addr c) m = Ret (properties c) → load (prev (elem_addr c)) m = Ret 0 →
  ∃ m', link (elem_addr c) h m = (elem_addr c, m') ∧ dseg m' 0 (elem_addr c) (c :: l) 0 ∧
    keeps (λ x, cnt (elems (c :: l)) x = 0%nat) m m'.
Proof.
  intros [Hc Hl]%Forall_cons Hcnt Hd Hp Hpr. pose proof (elem_addr_range c Hc) as Hr.
  assert (elem_addr c < 2 ^ 64) as Hend by (destruct Hc as (_ & Hend & _); lia).
  destruct (set_first_prev m h l (elem_addr c) 0 Hl (elems_tail c l Hcnt)) as [Hd1 Hk1]; [lia|done|].
  unfold link. set (m1 := if negb _ then _ else _) in *. eexists. split; [done|].
  assert (∀ a, elem_addr c <= a → a + 8 <= elem_addr c + 24 → load a m1 = load a m) as Hload.
  { intros a Ha Ha'. apply load_keeps. eapply keeps_impl; [|exact Hk1]. intros x Hx. specialize (Hcnt x).
    cbn [elems fmap list_fmap cnt] in Hcnt. rewrite decide_True in Hcnt; [unfold elems; lia|].
    unfold covers, elem_block. simpl. lia. }
  assert (0 <= h < 2 ^ 64) as Hh.
  { destruct l as [|d l]; cbn [dseg] in Hd; [lia|]. destruct Hd as [-> _]. apply Forall_inv in Hl.
    pose proof (elem_addr_range d Hl). destruct Hl as (_ & ? & _). lia. }
  split.
  - cbn [dseg]. unfold prev, next in *. rewrite load_store, !load_store_other, !Hload by lia.
    split_and!; [done..|]. exists h. split; [done|]. apply dseg_store; [|done].
    intros d Hin. destruct (elems_apart c l d Hcnt Hin); lia.
  - intros x Hx. rewrite store_other.
    + apply Hk1. cbn [elems fmap list_fmap cnt] in Hx. unfold elems. lia.
    + apply (outside_elem (c :: l) c); [apply list_elem_of_here|done|unfold next; lia..].
Qed.

(** Arithmetic on the numbers of descriptors that cover an address. *)
Ltac count x :=
  repeat match goal with H : ∀ y, (cnt _ y ≤ _)%nat |- _ => specialize (H x) end;
  unfold elems in *; repeat rewrite ?fmap_app, ?cnt_app in *; cbn [fmap list_fmap cnt] in *;
  repeat rewrite ?fmap_app, ?cnt_app in *; lia.

Lemma elems_app l1 l2 : elems (l1 ++ l2) = elems l1 ++ elems l2.
Proof. apply fmap_app. Qed.

(** The last descriptor gets a new successor. *)
Lemma set_last_next m h l1 l2 e n : Forall placed l1 → (∀ x, cnt (elems (l1 ++ l2)) x ≤ 1)%nat → 0 <= n < 2 ^ 64 →
  l1 ≠ [] → dseg m 0 h l1 e → dseg m (last_addr 0 l1) n l2 0 →
  load (next (last_addr 0 l1)) m = Ret e ∧ 0 < last_addr 0 l1 ∧
  dseg (store (next (last_addr 0 l1)) n m) 0 h (l1 ++ l2) 0 ∧
  keeps (λ x, cnt (elems (l1 ++ l2)) x = 0%nat) m (store (next (last_addr 0 l1)) n m).
Proof.
  intros Hl Hcnt Hn Hne H1 H2. destruct (exists_last Hne) as (l & d & ->).
  assert (last_addr 0 (l ++ [d]) = elem_addr d) as El by (unfold last_addr; by rewrite last_snoc).
  rewrite El in *. apply Forall_app in Hl as [_ Hd]. apply Forall_inv, elem_addr_range in Hd.
  assert (∀ x, cnt (elems (d :: l ++ l2)) x ≤ 1)%nat as Hcnt'.
  { intros x. count x. }
  split_and!.
  - apply dseg_app in H1 as (mid & _ & -> & _ & _ & k & Hk & Hke). cbn [dseg] in Hke. by subst k.
  - lia.
  - apply dseg_app. exists n. split.
    + apply (dseg_set_next m 0 h l d e n); [done| |done].
      intros x. count x.
    + rewrite El. apply dseg_store; [|done]. intros c Hc.
      destruct (elems_apart d (l ++ l2) c Hcnt'); [apply elem_of_app; by right|unfold next; lia..].
  - apply keeps_store. intros x Hx. apply (outside_elem ((l ++ [d]) ++ l2) d); [|done|unfold next; lia..].
    rewrite !elem_of_app. left. right. apply list_elem_of_here.
Qed.

Lemma head_range m pr h l : Forall placed l → dseg m pr h l 0 → 0 <= h < 2 ^ 64.
Proof.
  destruct l as [|d l]; cbn [dseg]; [lia|]. intros Hl [-> _]. apply Forall_inv in Hl.
  pose proof (elem_addr_range d Hl). destruct Hl as (_ & ? & _). lia.
Qed.

Lemma chunk_unlink_spec level m l1 c l2 h : Forall placed (l1 ++ c :: l2) →
  (∀ x, cnt (elems (l1 ++ c :: l2)) x ≤ 1)%nat → dseg m 0 h (l1 ++ c :: l2) 0 →
  ∃ h' m', unlink level (elem_addr c) h m = Ret (h', m') ∧ dseg m' 0 h' (l1 ++ l2) 0 ∧
    keeps (λ x, cnt (elems (l1 ++ l2)) x = 0%nat) m m'.
Proof.
  intros [Hl1 [Hc Hl2]%Forall_cons]%Forall_app Hcnt (mid & H1 & -> & _ & Hp & n & Hn & H2)%dseg_app.
  assert (∀ x, cnt (elems (l1 ++ l2)) x ≤ 1)%nat as Hcnt'.
  { intros x. count x. }
  assert (∀ x, cnt (elems l2) x ≤ 1)%nat as Hcnt2.
  { intros x. count x. }
  assert (0 <= last_addr 0 l1 < 2 ^ 64) as HP.
  { unfold last_addr. destruct (last l1) as [d|] eqn:Ed; [|simpl; lia]. apply last_Some in Ed as [l ->].
    apply Forall_app in Hl1 as [_ Hd%Forall_inv]. pose proof (elem_addr_range d Hd). destruct Hd as (_ & ? & _).
    simpl. lia. }
  destruct (set_first_prev m n l2 (last_addr 0 l1) (elem_addr c) Hl2 Hcnt2 HP H2) as [Hd1 Hk1].
  unfold unlink. rewrite Hn, Hp. cbn [mbind outcome_bind].
  assert ((if negb (n =? 0) then np ← load (prev n) m;
       ASSERT level (np =? elem_addr c) (Ret (store (prev n) (last_addr 0 l1) m)) else Ret m)
    = Ret (if negb (n =? 0) then store (prev n) (last_addr 0 l1) m else m)) as ->.
  { destruct (negb (n =? 0)) eqn:En; [|done]. destruct l2 as [|d l2]; cbn [dseg] in H2; [by subst n|].
    destruct H2 as (_ & _ & -> & _). cbn [mbind outcome_bind]. rewrite Z.eqb_refl. by destruct level. }
  set (m1 := if negb (n =? 0) then _ else _) in *. cbn [mbind outcome_bind].
  assert (dseg m1 0 h l1 (elem_addr c)) as H1'.
  { eapply dseg_keeps; [|exact H1]. eapply keeps_impl; [|exact Hk1]. intros x Hx. count x. }
  assert (keeps (λ x, cnt (elems (l1 ++ l2)) x = 0%nat) m m1) as Hk1'.
  { eapply keeps_impl; [|exact Hk1]. intros x Hx. count x. }
  destruct (decide (l1 = [])) as [->|Hne].
  - cbn [dseg] in H1'. subst h. unfold last_addr in *. cbn [last fmap option_fmap option_map default] in *.
    rewrite Z.eqb_refl. cbn [Z.eqb negb]. by exists n, m1.
  - destruct (set_last_next m1 h l1 l2 (elem_addr c) n) as (E & Hpos & Hd2 & Hk2); try done.
    { by eapply head_range. }
    rewrite (proj2 (Z.eqb_neq (last_addr 0 l1) 0)) by lia. cbn [negb]. rewrite E. cbn [mbind outcome_bind].
    rewrite Z.eqb_refl. assert (h =? elem_addr c = false) as ->.
    { apply Z.eqb_neq. destruct l1 as [|d l1]; [done|]. destruct H1 as [-> _].
      assert (∀ x, cnt (elems (d :: l1 ++ c :: l2)) x ≤ 1)%nat as Hcd by done.
      destruct (elems_apart d (l1 ++ c :: l2) c Hcd); [apply elem_of_app; right; apply list_elem_of_here|lia..]. }
    eexists h, _. split; [by destruct level|]. split; [done|].
    intros x Hx. by rewrite Hk2, Hk1'.
Qed.

(** ** The list over a lawful resource *)

(** The bytes that the list does not write: those of its chunks without the
    descriptors, and those of the others. *)
Definition untouched (l R F : list block) (x : Z) : Prop :=
  cnt (l ++ R ++ F) x ≠ 0%nat ∧ cnt (elems l) x = 0%nat.

Section Lawful.
Context {U : Type} `{Lawful U} (level : assert_level).

Lemma chunks_placed u m l R F : inv u m (l ++ R) F → Forall chunk_ok l → Forall placed l.
Proof.
  intros Hi Hl. apply inv_blocks, Forall_app in Hi as [Hi _].
  apply (Forall_impl (λ c, block_ok max_bytes c ∧ chunk_ok c)); [by apply Forall_and|].
  intros c [(? & ? & _ & ? & _) ?]. by split_and!.
Qed.

Lemma elems_disjoint u m l R F : inv u m (l ++ R) F → Forall chunk_ok l → (∀ x, cnt (elems l) x ≤ 1)%nat.
Proof.
  intros Hi Hl x. pose proof (elems_le l x (chunks_placed u m l R F Hi Hl)).
  pose proof (inv_cnt u m _ _ x Hi) as Hc. rewrite !cnt_app in Hc. lia.
Qed.

Lemma internal_alignment_power a : power_of_2 a →
  power_of_2 (internal_alignment a) ∧ 8 <= internal_alignment a <= a + 7 ∧ (a | internal_alignment a).
Proof.
  intros Ha. unfold internal_alignment, alignof_element. pose proof (power_of_2_range a Ha).
  destruct (power_of_2_max a 8 Ha) as (? & ? & _); [by exists 3|]. split_and!; [done|lia..|done].
Qed.

(** The descriptor of a new chunk. *)
Lemma new_element m l R F u c h :
  inv u m (c :: l ++ R) F → Forall chunk_ok (c :: l) → dseg m 0 h l 0 →
  ∃ m', link (elem_addr c) h
      (store (prev (elem_addr c)) 0 (store (next (elem_addr c)) 0 (store (elem_addr c) (properties c) m))) =
      (elem_addr c, m') ∧
    dseg m' 0 (elem_addr c) (c :: l) 0 ∧ inv u m' (c :: l ++ R) F ∧
    keeps (λ x, cnt (elems (c :: l)) x = 0%nat) m m'.
Proof.
  intros Hi Hok Hd. change (c :: l ++ R) with ((c :: l) ++ R) in *.
  pose proof (chunks_placed _ _ _ _ _ Hi Hok) as Hp. pose proof (elems_disjoint _ _ _ _ _ Hi Hok) as Hc.
  pose proof (elem_addr_range c (Forall_inv Hp)) as Hr.
  assert (0 <= properties c < 2 ^ 64) as Hv.
  { pose proof (Forall_inv Hp) as (? & ? & Ha & Hs & ? & _).
    apply (properties_spec ASSERT_LEVEL_DEBUG (b_bytes c) (b_align c)); [done|lia|done]. }
  set (m1 := store (prev _) _ _).
  assert (keeps (λ x, cnt (elems (c :: l)) x = 0%nat) m m1) as Hk.
  { intros x Hx. unfold m1. pose proof (outside_elem (c :: l) c x) as Ho.
    rewrite !store_other; [done|apply Ho; [apply list_elem_of_here|done|unfold next, prev; lia..]..]. }
  destruct (link_spec m1 c l h Hp Hc) as (m2 & E & Hd2 & Hk2).
  - eapply dseg_keeps; [|exact Hd]. intros x Hx. unfold m1.
    assert (x < elem_addr c ∨ elem_addr c + 24 <= x) as Hout.
    { apply cnt_ne_0 in Hx as (b & Hb & Hcov). apply list_elem_of_fmap in Hb as (d & -> & Hin).
      unfold covers in Hcov. simpl in Hcov. destruct (elems_apart c l d Hc Hin); lia. }
    unfold next, prev. rewrite !store_other by lia. done.
  - unfold m1, next, prev. rewrite !load_store_other, load_store by lia. done.
  - unfold m1. by rewrite load_store by lia.
  - exists m2. split_and!; [done..| |by intros x Hx; rewrite Hk2, Hk].
    apply (inv_frame u m); [|done]. intros x Hx.
    assert (cnt (elems (c :: l)) x = 0%nat).
    { pose proof (elems_le _ x Hp). rewrite !cnt_app in Hx. lia. }
    by rewrite Hk2, Hk.
Qed.

Lemma chunk_allocate_spec u m l R F h bytes alignment :
  inv u m (l ++ R) F → Forall chunk_ok l → dseg m 0 h l 0 → power_of_2 alignment →
  fits (max_bytes - 96) bytes alignment →
  ∃ p h' u' m', chunk_allocate level bytes alignment h (u, m) = Ret (p, h', (u', m')) ∧
    keeps (untouched l R F) m m' ∧
    match p with
    | None => h' = h ∧ inv u' m' (l ++ R) F ∧ dseg m' 0 h l 0
    | Some p => ∃ s, internal_size level bytes = Ret s ∧ bytes + 24 <= s ∧
        let c := Block p s (internal_alignment alignment) in
        chunk_ok c ∧ inv u' m' (c :: l ++ R) F ∧ dseg m' 0 h' (c :: l) 0
    end.
Proof.
  intros Hi Hok Hd Ha (Hb & Ha2 & Hfit & _). pose proof max_bytes_le as HM.
  pose proof (power_of_2_range _ Ha). unfold chunk_allocate. rewrite has_single_bit_power by done.
  destruct (internal_size_spec level bytes) as (s & Es & Hs & H64); [lia..|]. rewrite Es. cbn [mbind outcome_bind].
  destruct (internal_alignment_power alignment Ha) as (Ha' & Hai & _).
  set (a := internal_alignment alignment) in *.
  destruct (allocate_law level u m (l ++ R) F s a Hi Ha') as (p & u1 & m1 & E & Hk & Hp).
  { split_and!; [lia| |lia..]. unfold a, internal_alignment, alignof_element. lia. }
  rewrite E. cbn [mbind outcome_bind].
  assert (keeps (untouched l R F) m m1) as Hku.
  { eapply keeps_impl; [|exact Hk]. intros x [Hx _]. by rewrite <- app_assoc. }
  assert (dseg m1 0 h l 0) as Hd1.
  { eapply dseg_keeps; [|exact Hd]. eapply keeps_impl; [|exact Hk]. intros x Hx.
    pose proof (elems_le l x (chunks_placed _ _ _ _ _ Hi Hok)). cbv beta. rewrite !cnt_app. lia. }
  destruct p as [p|]; [|exists None, h, u1, m1; split_and!; [by destruct level|done..]].
  destruct Hp as [Hi1 Hblock]. set (c := Block p s a) in *.
  assert (chunk_ok c) as Hc by (split_and!; [done|simpl; lia..]).
  destruct (properties_spec level s a) as (Ep & _); [done|lia|done|]. rewrite Ep. cbn [mbind outcome_bind].
  assert (get_element p s = elem_addr c) as Ee.
  { unfold get_element, sizeof_element. destruct Hblock as (Hp0 & Hp1 & _). unfold elem_addr. cbn [b_addr b_bytes c] in *.
    apply u64_id. lia. }
  destruct (new_element m1 l R F u1 c h Hi1 (Forall_cons_2 _ _ _ Hc Hok) Hd1) as (m2 & E2 & Hd2 & Hi2 & Hk2).
  rewrite Ee. change (Z.lor s (Z.log2 a)) with (properties c). rewrite E2.
  exists (Some p), (elem_addr c), u1, m2. split_and!; [by destruct level| |].
  - intros x Hx. rewrite Hk2; [by apply Hku|]. destruct Hx as [Hx1 Hx2].
    pose proof (inv_cnt u1 m1 _ _ x Hi1) as Hcx. pose proof (elem_covers c x) as Hcov. cbn [elems fmap list_fmap cnt app] in *.
    unfold elems in *. rewrite !cnt_app in *. destruct (decide (covers (elem_block c) x)) as [He|He]; [|lia].
    rewrite decide_True in Hcx; [lia|]. apply Hcov; [|done]. by destruct Hblock as (? & ? & _ & ? & _).
  - exists s. split_and!; [done|lia|done..].
Qed.

Lemma chunk_deallocate_spec u m l1 l2 R F h p bytes alignment s :
  let c := Block p s (internal_alignment alignment) in
  inv u m ((l1 ++ c :: l2) ++ R) F → Forall chunk_ok (l1 ++ c :: l2) → dseg m 0 h (l1 ++ c :: l2) 0 →
  power_of_2 alignment → internal_size level bytes = Ret s →
  ∃ h' u' m', chunk_deallocate level p bytes alignment h (u, m) = Ret (h', (u', m')) ∧
    keeps (untouched (l1 ++ l2) R F) m m' ∧ inv u' m' ((l1 ++ l2) ++ R) F ∧ dseg m' 0 h' (l1 ++ l2) 0.
Proof.
  intros c Hi Hok Hd Ha Es. pose proof (chunks_placed _ _ _ _ _ Hi Hok) as Hp.
  pose proof (elems_disjoint _ _ _ _ _ Hi Hok) as Hc.
  assert (placed c) as Hpc by (apply Forall_app in Hp as [_ Hp]; by apply Forall_inv in Hp).
  pose proof (elem_addr_range c Hpc) as Hr. destruct Hpc as (Hp0 & Hp1 & Hpa & Hco).
  unfold chunk_deallocate. rewrite has_single_bit_power, Es by done. cbn [mbind outcome_bind b_addr b_bytes c] in *.
  assert (get_element p s = elem_addr c) as ->.
  { unfold get_element, sizeof_element, elem_addr in *. cbn [b_addr b_bytes c] in *. apply u64_id. lia. }
  destruct (chunk_unlink_spec level m l1 c l2 h Hp Hc Hd) as (h' & m1 & E & Hd1 & Hk1).
  rewrite E. cbn [mbind outcome_bind].
  assert (inv u m1 (c :: (l1 ++ l2) ++ R) F) as Hi1.
  { apply (inv_frame u m).
    - eapply keeps_impl; [|exact Hk1]. intros x Hx.
      pose proof (elems_le (l1 ++ c :: l2) x Hp). count x.
    - eapply inv_perm; [|done|exact Hi]. rewrite <- !app_assoc. symmetry. apply Permutation_middle. }
  destruct (deallocate_law level u m1 p s (internal_alignment alignment) ((l1 ++ l2) ++ R) F Hi1)
    as (u2 & m2 & E2 & Hk2 & Hi2).
  rewrite E2, (proj2 (Z.eqb_neq p 0)) by lia. cbn [mbind outcome_bind].
  exists h', u2, m2. split_and!; [by destruct level| |done|].
  - intros x [Hx1 Hx2]. rewrite Hk2, Hk1; [done..|]. by rewrite <- app_assoc.
  - eapply dseg_keeps; [|exact Hd1]. eapply keeps_impl; [|exact Hk2]. intros x Hx.
    pose proof (elems_le (l1 ++ l2) x) as Hle. rewrite Forall_app, Forall_cons in Hp.
    rewrite Forall_app in Hle. specialize (Hle ltac:(naive_solver)). count x.
Qed.

Lemma release_loop_spec fuel : ∀ u m l R F h,
  (length l ≤ fuel)%nat → inv u m (l ++ R) F → Forall chunk_ok l → (∃ pr, dseg m pr h l 0) →
  ∃ u' m', release_loop level fuel h (u, m) = Ret (u', m') ∧ inv u' m' R F ∧
    keeps (λ x, cnt (R ++ F) x ≠ 0%nat) m m'.
Proof.
  induction fuel as [|fuel IH]; intros u m l R F h Hf Hi Hok [pr Hd];
    (destruct l as [|c l]; [cbn [dseg] in Hd; subst h; by exists u, m|simpl in Hf; try lia]).
  pose proof (chunks_placed _ _ _ _ _ Hi Hok) as Hp. pose proof (elems_disjoint _ _ _ _ _ Hi Hok) as Hc.
  pose proof (elem_addr_range c (Forall_inv Hp)) as Hr. pose proof (Forall_inv Hp) as (Hp0 & Hp1 & Hpa & Hco).
  destruct Hd as (-> & Epr & _ & n & En & Hd). cbn [release_loop].
  rewrite (proj2 (Z.eqb_neq _ 0)) by lia. cbn [negb]. rewrite En, Epr. cbn [mbind outcome_bind].
  destruct (properties_spec level (b_bytes c) (b_align c)) as (_ & E1 & E2 & _);
    [done|destruct Hco; lia|by destruct Hco|]. fold (properties c) in E1, E2.
  assert (get_chunk (elem_addr c) (properties c) = b_addr c) as ->.
  { unfold get_chunk, sizeof_element. rewrite E1. rewrite u64_id by lia. unfold elem_addr. lia. }
  rewrite E1, E2. destruct c as [p s a]. cbn [b_addr b_bytes b_align app] in *.
  destruct (deallocate_law level u m p s a (l ++ R) F Hi) as (u1 & m1 & -> & Hk1 & Hi1).
  cbn [mbind outcome_bind]. apply Forall_cons in Hok as [_ Hok]. apply Forall_cons in Hp as [_ Hp].
  destruct (IH u1 m1 l R F n) as (u2 & m2 & -> & Hi2 & Hk2); [lia|done..| |].
  - exists (elem_addr (Block p s a)). eapply dseg_keeps; [|exact Hd]. eapply keeps_impl; [|exact Hk1].
    intros x Hx. pose proof (elems_le l x Hp). count x.
  - exists u2, m2. split_and!; [done..|]. intros x Hx. rewrite Hk2 by done. apply Hk1.
    rewrite !cnt_app in *. lia.
Qed.

(** Every descriptor has a byte of its own. *)
Lemma descriptors_in_memory m l : ∀ pr h t,
  (∀ x, cnt (elems l) x ≤ 1)%nat → dseg m pr h l t → (length l ≤ size m)%nat.
Proof.
  intros pr h t Hc Hd. rewrite <- size_dom, <- (length_fmap elem_addr l).
  assert (NoDup (elem_addr <$> l)) as Hnd.
  { clear Hd. induction l as [|c l IH]; [constructor|]. cbn [fmap list_fmap]. constructor.
    - intros (d & Ed & Hin)%list_elem_of_fmap. destruct (elems_apart c l d Hc Hin); lia.
    - apply IH. by eapply elems_tail. }
  rewrite <- (size_list_to_set (C := gset Z)) by done. apply subseteq_size. intros x.
  rewrite elem_of_list_to_set. intros (c & -> & Hin)%list_elem_of_fmap.
  clear Hc Hnd. revert pr h Hd. induction l as [|d l IH]; intros pr h; [by apply elem_of_nil in Hin|].
  intros (-> & Hp & _ & n & _ & Hd). apply elem_of_cons in Hin as [->|Hin]; [|by eapply IH].
  unfold load in Hp. destruct (mapM _ offsets) as [bytes|] eqn:Em; [|done].
  apply mapM_Some in Em. inversion Em as [|? y ? ? Hy]; subst. rewrite Z.add_0_r in Hy.
  apply elem_of_dom. eauto.
Qed.

Lemma chunk_release_spec u m l R F h :
  inv u m (l ++ R) F → Forall chunk_ok l → dseg m 0 h l 0 →
  ∃ u' m', chunk_release level h (u, m) = Ret (u', m') ∧ inv u' m' R F ∧
    keeps (λ x, cnt (R ++ F) x ≠ 0%nat) m m'.
Proof.
  intros Hi Hok Hd. apply (release_loop_spec _ u m l); [|done..|by exists 0].
  apply (descriptors_in_memory m l 0 h 0); [by eapply elems_disjoint|done].
Qed.

End Lawful.

End ChunkList.
