(* ===== verification/NewDeleteResource.v ===== *)
(** * Memory resources: [new_delete_resource], [resource_adaptor] and
      [null_memory_resource]

    language/futurecpp, src/memory_resource.cpp and resource_adaptor.hpp.  The
    allocator below a resource (the global [operator new], or the [Alloc] of an
    adaptor) is an interface: [allocator] with what the standard promises of it. *)

From stdpp Require Import gmap.
From S2P Require Import Prelude CppInt CircularBuffer PmrMemory.

Local Open Scope Z_scope.

Module NewDeleteResource.
Import PmrMemory.

(** ** The allocator below *)

(** Allocation of [n] bytes, [None] if it throws, and deallocation of a block
    of [n] bytes. *)
Class allocator (A : Type) := {
  raw_allocate : Z → A → option Z * A;
  raw_deallocate : Z → Z → A → outcome A;
}.

Definition raw_block (pn : Z * Z) : block := Block pn.1 pn.2 1.

(** [natural] is the alignment of its blocks; [heap] are the addresses that it
    uses. *)
Class LawfulAllocator (A : Type) `{allocator A} (natural : Z) := {
  raw_inv : A → list (Z * Z) → Prop;
  heap : Z → Prop;
  raw_perm a l l' : l ≡ₚ l' → raw_inv a l → raw_inv a l';
  raw_allocate_law a l n : raw_inv a l → 0 <= n < 2 ^ 64 →
    ∃ p a', raw_allocate n a = (p, a') ∧
      match p with
      | Some p => raw_inv a' ((p, n) :: l) ∧ 0 < p ∧ (natural | p) ∧ p + n < 2 ^ 62 ∧
          ∀ x, covers (raw_block (p, n)) x → heap x ∧ cnt (raw_block <$> l) x = 0%nat
      | None => raw_inv a' l
      end;
  raw_deallocate_law a p n l : raw_inv a ((p, n) :: l) → ∃ a', raw_deallocate p n a = Ret a' ∧ raw_inv a' l;
}.

(** ** Extended alignment *)

Section Operations.
Context {A : Type} `{allocator A} (level : assert_level).

Definition establish_extended_alignment (orig_ptr bytes total_size alignment : Z) (m : mem) : outcome (Z * mem) :=
  let '(ret, _) := std_align alignment bytes (u64 (orig_ptr + 8)) (u64 (total_size - 8)) in
  ASSERT level (negb (ret =? 0)) (Ret (ret, store (u64 (ret - 8)) orig_ptr m)).

Definition retrieve_unaligned_pointer (aligned_ptr : Z) (m : mem) : outcome Z := load (u64 (aligned_ptr - 8)) m.

(** ** [new_delete_resource_t] *)

(** [alignof(std::max_align_t)] *)
Definition max_align : Z := 16.

Definition extended_size (bytes alignment : Z) : Z := u64 (bytes + 8 + alignment - 1).

Definition new_delete_allocate (bytes alignment : Z) (s : A * mem) : outcome (option Z * (A * mem)) :=
  let '(a, m) := s in
  if max_align <? alignment then
    match raw_allocate (extended_size bytes alignment) a with
    | (None, a) => Ret (None, (a, m))
    | (Some p, a) =>
        '(ret, m) ← establish_extended_alignment p bytes (extended_size bytes alignment) alignment m;
        Ret (Some ret, (a, m))
    end
  else let '(p, a) := raw_allocate bytes a in Ret (p, (a, m)).

(** [operator delete] is not told the size; the allocator below gets the one of
    the allocation. *)
Definition new_delete_deallocate (p bytes alignment : Z) (s : A * mem) : outcome (A * mem) :=
  let '(a, m) := s in
  if max_align <? alignment then
    orig_ptr ← retrieve_unaligned_pointer p m;
    a ← raw_deallocate orig_ptr (extended_size bytes alignment) a;
    Ret (a, m)
  else a ← raw_deallocate p bytes a; Ret (a, m).

Definition new_delete_resource : memory_resource A := {|
  do_allocate := new_delete_allocate;
  do_deallocate := new_delete_deallocate;
|}.

(** ** [resource_adaptor_impl] *)

Section Adaptor.
(** [sizeof(value_type)] and [alignof(value_type)] *)
Context (value_size value_align : Z).

Definition value_type_size_from_bytesize (bytesize : Z) : Z := u64 (u64 (Z.max bytesize 1 - 1) / value_size + 1).

(** The allocator gets the number of values; its blocks have their size. *)
Definition value_bytes (bytesize : Z) : Z := value_size * value_type_size_from_bytesize bytesize.

Definition adaptor_allocate (bytes alignment : Z) (s : A * mem) : outcome (option Z * (A * mem)) :=
  let '(a, m) := s in
  if alignment <=? value_align then let '(p, a) := raw_allocate (value_bytes bytes) a in Ret (p, (a, m))
  else
    let alignment := Z.max 8 alignment in
    let extended_bytes := extended_size bytes alignment in
    match raw_allocate (value_bytes extended_bytes) a with
    | (None, a) => Ret (None, (a, m))
    | (Some orig_ptr, a) =>
        if orig_ptr =? 0 then Ret (Some 0, (a, m))
        else
          '(ret, m) ← establish_extended_alignment orig_ptr bytes extended_bytes alignment m;
          Ret (Some ret, (a, m))
    end.

Definition adaptor_deallocate (p bytes alignment : Z) (s : A * mem) : outcome (A * mem) :=
  let '(a, m) := s in
  if alignment <=? value_align then a ← raw_deallocate p (value_bytes bytes) a; Ret (a, m)
  else
    let alignment := Z.max 8 alignment in
    let extended_bytes := extended_size bytes alignment in
    orig_ptr ← retrieve_unaligned_pointer p m;
    a ← raw_deallocate orig_ptr (value_bytes extended_bytes) a;
    Ret (a, m).

Definition resource_adaptor : memory_resource A := {|
  do_allocate := adaptor_allocate;
  do_deallocate := adaptor_deallocate;
|}.

End Adaptor.
End Operations.

(** ** [null_memory_resource_t] *)

Definition null_memory_resource : memory_resource unit := {|
  do_allocate := λ _ _ '(r, m), Ret (None, (r, m));
  do_deallocate := λ _ _ _ '(r, m), Ret (r, m);
|}.

(** ** The default resource *)

(** [current] is the atomic pointer, [0] is null. *)
Definition set_default_resource (new_delete new_resource current : Z) : Z * Z :=
  (current, if new_resource =? 0 then new_delete else new_resource).

(** ** Blocks with their header *)

(** There is room for the header and the alignment. *)
Lemma extended_alignment_spec level p bytes total alignment m :
  power_of_2 alignment → 0 <= bytes → 0 < p → p + total < 2 ^ 62 → bytes + 8 + alignment - 1 <= total →
  ∃ ret, establish_extended_alignment level p bytes total alignment m = Ret (ret, store (ret - 8) p m) ∧
    p + 8 <= ret ∧ ret + bytes <= p + total ∧ (alignment | ret).
Proof.
  intros Ha Hb Hp Hl Ht. pose proof (power_of_2_range _ Ha). unfold establish_extended_alignment. rewrite !u64_id by lia.
  destruct (std_align _ _ _ _) as [ret space] eqn:E.
  pose proof (std_align_room alignment bytes (p + 8) (total - 8) ret space) as Hr.
  apply std_align_spec in E as Hs; [|done|lia..].
  specialize (Hr Ha Hb ltac:(lia) ltac:(lia) ltac:(lia) E). destruct Hs as (_ & [?|(? & ? & ? & ?)]); [done|].
  exists ret. rewrite (proj2 (Z.eqb_neq ret 0)), u64_id by lia. split_and!; [by destruct level|lia..|done].
Qed.

Section Blocks.
Context {A : Type} {natural : Z} `{LawfulAllocator A natural} (size : Z → Z → Z) (M : Z).

(** A block of a client in a block of the allocator, which is not aligned
    enough if there is a header. *)
Definition sits (m : mem) (b : block) (p n : Z) : Prop :=
  if b_align b <=? natural then b_addr b = p ∧ b_bytes b <= n
  else p + 8 <= b_addr b ∧ b_addr b + b_bytes b <= p + n ∧ load (b_addr b - 8) m = Ret p.

Definition sits_ok (m : mem) (bp : block * (Z * Z)) : Prop :=
  block_ok M bp.1 ∧ 0 < bp.2.1 ∧ bp.2.2 = size (b_bytes bp.1) (b_align bp.1) ∧ sits m bp.1 bp.2.1 bp.2.2.

Definition header (bp : block * (Z * Z)) : list block :=
  if b_align bp.1 <=? natural then [] else [Block (b_addr bp.1 - 8) 8 1].

Definition headers (l : list (block * (Z * Z))) : list block := concat (header <$> l).
Definition raws (l : list (block * (Z * Z))) : list block := (λ bp, raw_block bp.2) <$> l.

Record adapted (a : A) (m : mem) (L F : list block) (l : list (block * (Z * Z))) : Prop := {
  d_raw : raw_inv a l.*2;
  d_sits : Forall (sits_ok m) l;
  d_client : L ≡ₚ l.*1;
  d_cnt x : (cnt (raws l) x + cnt F x ≤ 1)%nat;
  d_heap x : (heap x → cnt F x = 0%nat) ∧ (cnt (raws l) x ≠ 0%nat → heap x);
}.

Definition adapted_inv a m L F : Prop := ∃ l, adapted a m L F l.

Lemma sits_room m bp x : sits_ok m bp → (cnt (bp.1 :: header bp) x ≤ cnt [raw_block bp.2] x)%nat.
Proof.
  intros ((_ & _ & _ & _ & Hb & _) & _ & _ & Hs). unfold sits, header in *. destruct (_ <=? _); cbn [cnt]; unfold covers, raw_block;
    cbn [b_addr b_bytes]; repeat case_decide; lia.
Qed.

Lemma sits_bound m l x : Forall (sits_ok m) l → (cnt l.*1 x + cnt (headers l) x ≤ cnt (raws l) x)%nat.
Proof.
  induction 1 as [|bp l Hbp _ IH]; [done|]. pose proof (sits_room m bp x Hbp). unfold headers, raws in *.
  cbn [fmap list_fmap concat cnt] in *. rewrite cnt_app. lia.
Qed.

Lemma sits_keeps m m' l : keeps (λ x, cnt (headers l) x ≠ 0%nat) m m' → Forall (sits_ok m) l → Forall (sits_ok m') l.
Proof.
  intros Hk. induction 1 as [|bp l (Hb & Hp & Hn & Hs) _ IH]; [done|]. unfold headers in *. cbn [fmap list_fmap concat] in Hk.
  constructor; [|apply IH; eapply keeps_impl; [|exact Hk]; intros x Hx; cbv beta in *; rewrite cnt_app; lia].
  split_and!; [done..|]. unfold sits, header in *. destruct (_ <=? _); [done|]. destruct Hs as (? & ? & <-).
  split_and!; [done..|]. apply load_keeps. eapply keeps_impl; [|exact Hk]. intros x Hx. cbn [app cnt].
  rewrite decide_True; [lia|]. unfold covers. cbn [b_addr b_bytes]. lia.
Qed.

Lemma adapted_bound a m L F l x : adapted a m L F l → (cnt L x + cnt (headers l) x + cnt F x ≤ 1)%nat.
Proof. intros []. pose proof (sits_bound m l x d_sits0). specialize (d_cnt0 x). rewrite d_client0. lia. Qed.

Lemma adapted_frame a m m' L F : keeps (λ x, cnt (L ++ F) x = 0%nat) m m' → adapted_inv a m L F → adapted_inv a m' L F.
Proof.
  intros Hk [l Hl]. pose proof (λ x, adapted_bound _ _ _ _ _ x Hl) as Hb. destruct Hl as []. exists l. split; try done.
  eapply sits_keeps; [|done]. eapply keeps_impl; [|exact Hk]. intros x Hx. specialize (Hb x). cbv beta in *.
  rewrite cnt_app. lia.
Qed.

Lemma adapted_new a a' m m' L F l b p n : adapted a m L F l → raw_inv a' ((p, n) :: l.*2) →
  (∀ x, covers (raw_block (p, n)) x → heap x ∧ cnt (raw_block <$> l.*2) x = 0%nat) →
  keeps (λ x, ¬ covers (raw_block (p, n)) x) m m' → sits_ok m' (b, (p, n)) →
  keeps (λ x, cnt (L ++ F) x ≠ 0%nat) m m' ∧ adapted_inv a' m' (b :: L) F.
Proof.
  intros Hl Hraw Hnew Hk Hb. pose proof Hl as [].
  assert (∀ x, covers (raw_block (p, n)) x → cnt (raws l) x = 0%nat ∧ cnt F x = 0%nat) as Hfree.
  { intros x [Hh Hc]%Hnew. rewrite <- list_fmap_compose in Hc. split; [done|]. by apply d_heap0. }
  assert (∀ x, cnt (L ++ F) x ≠ 0%nat ∨ cnt (headers l) x ≠ 0%nat → ¬ covers (raw_block (p, n)) x) as Hout.
  { intros x Hx [? ?]%Hfree. pose proof (sits_bound m l x d_sits0). rewrite cnt_app, d_client0 in Hx. lia. }
  split; [eapply keeps_impl; [|exact Hk]; intros x Hx; apply Hout; auto|]. exists ((b, (p, n)) :: l).
  split; cbn [fmap list_fmap fst snd]; [done| |by rewrite d_client0| |].
  - constructor; [done|]. eapply sits_keeps; [|done]. eapply keeps_impl; [|exact Hk]. intros x Hx. apply Hout. auto.
  - intros x. cbn [raws fmap list_fmap snd cnt]. fold (raws l). specialize (d_cnt0 x). destruct (decide _) as [Hc|]; [|unfold raws in *; lia].
    destruct (Hfree x Hc). unfold raws in *. lia.
  - intros x. split; [apply d_heap0|]. cbn [raws fmap list_fmap snd cnt]. destruct (decide _) as [Hc|].
    + intros _. by apply Hnew.
    + apply d_heap0.
Qed.

Lemma adapted_delete a m b L F : adapted_inv a m (b :: L) F →
  ∃ p a', sits_ok m (b, (p, size (b_bytes b) (b_align b))) ∧
    raw_deallocate p (size (b_bytes b) (b_align b)) a = Ret a' ∧ adapted_inv a' m L F.
Proof.
  intros [l []]. assert (b ∈ l.*1) as Hb by (rewrite <- d_client0; apply list_elem_of_here).
  apply list_elem_of_fmap in Hb as ([b' [p n]] & Eb & [l' Hl]%elem_of_Permutation). cbn [fst] in Eb. subst b'.
  rewrite Hl in d_sits0, d_client0. apply Forall_cons in d_sits0 as [Hs Hsits]. pose proof Hs as (_ & _ & Hn & _).
  cbn [fst snd] in Hn. subst n. cbn [fmap list_fmap fst] in d_client0. apply Permutation_cons_inv in d_client0.
  eapply raw_perm in d_raw0; [|by rewrite Hl]. destruct (raw_deallocate_law _ _ _ _ d_raw0) as (a' & E & Hraw).
  exists p, a'. split_and!; [done..|]. exists l'. split; try done.
  - intros x. specialize (d_cnt0 x). unfold raws in *. rewrite Hl in d_cnt0. cbn [fmap list_fmap cnt] in d_cnt0. lia.
  - intros x. destruct (d_heap0 x) as [? Hh]. split; [done|]. intros Hx. apply Hh. unfold raws in *. rewrite Hl.
    cbn [fmap list_fmap cnt]. lia.
Qed.

(** Both resources get one block for a request, and put the block of the client
    into it. *)
Lemma adapted_request a m L F bytes alignment : adapted_inv a m L F → 0 <= size bytes alignment < 2 ^ 64 →
  ∃ p a', raw_allocate (size bytes alignment) a = (p, a') ∧
    match p with
    | None => adapted_inv a' m L F
    | Some p => 0 < p ∧ (natural | p) ∧ p + size bytes alignment < 2 ^ 62 ∧
        ∀ m' ret, keeps (λ x, ¬ covers (raw_block (p, size bytes alignment)) x) m m' →
          sits_ok m' (Block ret bytes alignment, (p, size bytes alignment)) →
          keeps (λ x, cnt (L ++ F) x ≠ 0%nat) m m' ∧ adapted_inv a' m' (Block ret bytes alignment :: L) F
    end.
Proof.
  intros [l Hl] Hn. destruct (raw_allocate_law a l.*2 (size bytes alignment)) as (p & a' & E & Hp); [by apply Hl|done|].
  exists p, a'. split; [done|]. destruct p as [p|].
  - destruct Hp as (Hraw & Hp & Hd & Hlim & Hnew). split_and!; [done..|]. intros m' ret Hk Hs. by eapply adapted_new.
  - exists l. destruct Hl as []. by split.
Qed.

Lemma adapted_perm a m L L' F F' : L ≡ₚ L' → F ≡ₚ F' → adapted_inv a m L F → adapted_inv a m L' F'.
Proof.
  intros HL HF [l []]. exists l. split; try done.
  - by rewrite <- HL.
  - intros x. by rewrite <- HF.
  - intros x. by rewrite <- HF.
Qed.

Lemma adapted_blocks a m L F : adapted_inv a m L F → Forall (block_ok M) L.
Proof. intros [l []]. rewrite d_client0. apply Forall_fmap. eapply Forall_impl; [done|]. by intros bp (? & _). Qed.

Lemma adapted_cnt a m L F x : adapted_inv a m L F → (cnt (L ++ F) x ≤ 1)%nat.
Proof. intros [l Hl]. pose proof (adapted_bound _ _ _ _ _ x Hl). rewrite cnt_app. lia. Qed.

Definition adapted_lawful (R : memory_resource A) (HM : M <= 2 ^ 64)
    (Hallocate : ∀ a m L F bytes alignment, adapted_inv a m L F → power_of_2 alignment → fits M bytes alignment →
      ∃ p a' m', do_allocate bytes alignment (a, m) = Ret (p, (a', m')) ∧ keeps (λ x, cnt (L ++ F) x ≠ 0%nat) m m' ∧
        match p with
        | Some p => adapted_inv a' m' (Block p bytes alignment :: L) F
        | None => adapted_inv a' m' L F
        end)
    (Hdeallocate : ∀ a m p bytes alignment L F, adapted_inv a m (Block p bytes alignment :: L) F →
      ∃ a' m', do_deallocate p bytes alignment (a, m) = Ret (a', m') ∧ keeps (λ x, cnt (L ++ F) x ≠ 0%nat) m m' ∧
        adapted_inv a' m' L F) : @Lawful A R := {|
  inv := adapted_inv;
  max_bytes := M;
  max_bytes_le := HM;
  inv_perm := adapted_perm;
  inv_blocks := adapted_blocks;
  inv_cnt := adapted_cnt;
  inv_frame := adapted_frame;
  do_allocate_law := Hallocate;
  do_deallocate_law := Hdeallocate;
|}.

End Blocks.

(** ** The promises *)

Lemma keeps_header p n ret m : p + 8 <= ret → ret <= p + n →
  keeps (λ x, ¬ covers (raw_block (p, n)) x) m (store (ret - 8) p m).
Proof. intros. apply keeps_store. intros x Hx. unfold covers in Hx. cbn in Hx. lia. Qed.

(** The block behind its header. *)
Lemma extended_sits {A : Type} `{LawfulAllocator A natural} level size M p n m bytes total alignment :
  power_of_2 alignment → fits M bytes alignment → natural < alignment → 0 < p → p + n < 2 ^ 62 →
  bytes + 8 + alignment - 1 <= total <= n → n = size bytes alignment →
  ∃ ret, establish_extended_alignment level p bytes total alignment m = Ret (ret, store (ret - 8) p m) ∧
    keeps (λ x, ¬ covers (raw_block (p, n)) x) m (store (ret - 8) p m) ∧
    sits_ok (natural := natural) size M (store (ret - 8) p m) (Block ret bytes alignment, (p, n)).
Proof.
  intros Ha Hf Hnat Hp Hn Ht En. pose proof Hf as (Hb & _).
  destruct (extended_alignment_spec level p bytes total alignment m) as (ret & E & Hlo & Hhi & Hd); [done|lia..|].
  exists ret. split; [done|]. split; [apply keeps_header; lia|]. split_and!; [|done|done|]; cbn [fst snd].
  - split_and!; cbn [b_addr b_bytes b_align]; (done || lia).
  - unfold sits. cbn [b_addr b_bytes b_align]. rewrite (proj2 (Z.leb_gt _ _)) by done.
    split_and!; [lia..|]. apply load_store. lia.
Qed.

(** A block that needs no header. *)
Lemma aligned_sits {A : Type} `{LawfulAllocator A natural} size M p n m bytes alignment :
  power_of_2 natural → power_of_2 alignment → fits M bytes alignment → alignment <= natural → 0 < p → (natural | p) →
  p + n < 2 ^ 62 → bytes <= n → n = size bytes alignment →
  sits_ok (natural := natural) size M m (Block p bytes alignment, (p, n)).
Proof.
  intros Hpn Ha Hf Hle Hp Hd Hn Hb En. split_and!; [|done|done|]; cbn [fst snd].
  - split_and!; cbn [b_addr b_bytes b_align]; try done; [lia|]. etrans; [|exact Hd]. by apply power_of_2_divide.
  - unfold sits. cbn [b_addr b_bytes b_align]. rewrite (proj2 (Z.leb_le _ _)) by done. done.
Qed.

(** The header has the pointer to the block of the allocator. *)
Lemma sits_header {A : Type} `{LawfulAllocator A natural} size M m b p n :
  sits_ok (natural := natural) size M m (b, (p, n)) → natural < b_align b →
  retrieve_unaligned_pointer (b_addr b) m = Ret p.
Proof.
  intros ((_ & Hlim & _ & _ & Hb & _) & Hp & _ & Hs) Hn. unfold sits in Hs. cbn [fst snd] in *.
  rewrite (proj2 (Z.leb_gt _ _)) in Hs by done. unfold retrieve_unaligned_pointer. rewrite u64_id by lia. apply Hs.
Qed.

Section NewDelete.
Context {A : Type} `{LawfulAllocator A max_align} (level : assert_level).

Definition new_delete_size (bytes alignment : Z) : Z :=
  if max_align <? alignment then extended_size bytes alignment else bytes.

Abbreviation new_delete_inv := (adapted_inv (natural := max_align) new_delete_size (2 ^ 64 - 8)).

Lemma new_delete_allocate_law a m L F bytes alignment : new_delete_inv a m L F → power_of_2 alignment →
  fits (2 ^ 64 - 8) bytes alignment →
  ∃ p a' m', new_delete_allocate level bytes alignment (a, m) = Ret (p, (a', m')) ∧
    keeps (λ x, cnt (L ++ F) x ≠ 0%nat) m m' ∧
    match p with
    | Some p => new_delete_inv a' m' (Block p bytes alignment :: L) F
    | None => new_delete_inv a' m' L F
    end.
Proof.
  intros Hi Ha Hf. pose proof Hf as (Hb & Hal & Hlim & _). pose proof (power_of_2_range _ Ha).
  assert (power_of_2 max_align) as Hnat by by exists 4.
  destruct (adapted_request new_delete_size (2 ^ 64 - 8) a m L F bytes alignment Hi) as (p & a' & E & Hp).
  { unfold new_delete_size, extended_size. destruct (_ <? _); rewrite ?u64_id; lia. }
  unfold new_delete_size in E, Hp. unfold new_delete_allocate. destruct (Z.ltb_spec max_align alignment) as [Hext|Hsmall].
  - rewrite E. destruct p as [p|]; [|by eexists None, a', m]. destruct Hp as (Hp & _ & Hn & Hs).
    destruct (extended_sits level new_delete_size (2 ^ 64 - 8) p (extended_size bytes alignment) m bytes
      (extended_size bytes alignment) alignment) as (ret & -> & Hk & Hsit); try done.
    { unfold extended_size. rewrite u64_id by lia. lia. }
    { unfold new_delete_size. by rewrite (proj2 (Z.ltb_lt _ _)). }
    cbn [mbind outcome_bind]. eexists (Some ret), a', _. split; [done|]. by apply Hs.
  - rewrite E. exists p, a', m. split; [done|]. destruct p as [p|]; [|done]. destruct Hp as (Hp & Hd & Hn & Hs).
    apply Hs; [done|]. apply aligned_sits; try done. unfold new_delete_size. by rewrite (proj2 (Z.ltb_ge _ _)).
Qed.
Lemma new_delete_deallocate_law a m p bytes alignment L F : new_delete_inv a m (Block p bytes alignment :: L) F →
  ∃ a' m', new_delete_deallocate p bytes alignment (a, m) = Ret (a', m') ∧
    keeps (λ x, cnt (L ++ F) x ≠ 0%nat) m m' ∧ new_delete_inv a' m' L F.
Proof.
  intros Hi. apply adapted_delete in Hi as (q & a' & Hs & E & Hi). exists a', m. split_and!; [|done..].
  cbn [b_bytes b_align] in *. pose proof (sits_header _ _ _ _ _ _ Hs) as Hh. cbn [b_addr b_align] in Hh. destruct Hs as (_ & _ & _ & Hs). cbn [fst snd] in Hs.
  unfold new_delete_deallocate, sits, new_delete_size in *. cbn [b_addr b_bytes b_align] in *.
  destruct (Z.ltb_spec max_align alignment).
  - rewrite Hh by done. cbn [mbind outcome_bind]. by rewrite E.
  - rewrite (proj2 (Z.leb_le _ _)) in Hs by done. destruct Hs as [-> _]. by rewrite E.
Qed.

Definition new_delete_lawful : @Lawful A (new_delete_resource level) :=
  adapted_lawful new_delete_size (2 ^ 64 - 8) (new_delete_resource level) ltac:(lia)
    new_delete_allocate_law new_delete_deallocate_law.

End NewDelete.

Section Adaptor.
Context {A : Type} (value_size value_align : Z) `{LawfulAllocator A value_align} (level : assert_level).
Hypothesis value_size_pos : 0 < value_size <= 2 ^ 32.
Hypothesis value_align_ok : power_of_2 value_align ∧ 8 <= value_align.

Definition adaptor_size (bytes alignment : Z) : Z :=
  if alignment <=? value_align then value_bytes value_size bytes
  else value_bytes value_size (extended_size bytes (Z.max 8 alignment)).

Lemma value_bytes_spec n : 0 <= n < 2 ^ 64 - value_size → n <= value_bytes value_size n <= n + value_size.
Proof using value_size_pos.
  intros Hn. unfold value_bytes, value_type_size_from_bytesize. rewrite (u64_id (Z.max n 1 - 1)) by lia.
  pose proof (Z.div_mod (Z.max n 1 - 1) value_size ltac:(lia)). pose proof (Z.mod_pos_bound (Z.max n 1 - 1) value_size ltac:(lia)).
  assert (0 <= (Z.max n 1 - 1) / value_size <= Z.max n 1 - 1).
  { split; [apply Z.div_pos; lia|]. apply Z.div_le_upper_bound; nia. }
  rewrite u64_id by lia. lia.
Qed.

Abbreviation adaptor_inv := (adapted_inv (natural := value_align) adaptor_size (2 ^ 64 - 8 - value_size)).

Lemma adaptor_allocate_law a m L F bytes alignment : adaptor_inv a m L F → power_of_2 alignment →
  fits (2 ^ 64 - 8 - value_size) bytes alignment →
  ∃ p a' m', adaptor_allocate level value_size value_align bytes alignment (a, m) = Ret (p, (a', m')) ∧
    keeps (λ x, cnt (L ++ F) x ≠ 0%nat) m m' ∧
    match p with
    | Some p => adaptor_inv a' m' (Block p bytes alignment :: L) F
    | None => adaptor_inv a' m' L F
    end.
Proof using value_size_pos value_align_ok.
  intros Hi Ha Hf. pose proof Hf as (Hb & Hal & Hlim & _). pose proof (power_of_2_range _ Ha). destruct value_align_ok as [Hnat H8].
  assert (alignment <= value_align ∨ Z.max 8 alignment = alignment) as Hmax8 by lia.
  pose proof (value_bytes_spec bytes ltac:(lia)) as Hv1.
  assert (bytes + 8 + Z.max 8 alignment - 1 < 2 ^ 64 - value_size ∨ alignment <= value_align) as Hext by lia.
  destruct (adapted_request adaptor_size (2 ^ 64 - 8 - value_size) a m L F bytes alignment Hi) as (p & a' & E & Hp).
  { unfold adaptor_size, extended_size. destruct (Z.leb_spec alignment value_align); [lia|]. rewrite u64_id by lia.
    pose proof (value_bytes_spec (bytes + 8 + Z.max 8 alignment - 1) ltac:(lia)). lia. }
  unfold adaptor_size in E, Hp. unfold adaptor_allocate. destruct (Z.leb_spec alignment value_align) as [Hsmall|Hbig].
  - rewrite E. exists p, a', m. split; [done|]. destruct p as [p|]; [|done]. destruct Hp as (Hp & Hd & Hn & Hs).
    apply Hs; [done|]. apply aligned_sits; try done; [lia|]. unfold adaptor_size. by rewrite (proj2 (Z.leb_le _ _)).
  - rewrite E. destruct p as [p|]; [|by eexists None, a', m]. destruct Hp as (Hp & _ & Hn & Hs).
    rewrite (proj2 (Z.eqb_neq p 0)) by lia. replace (Z.max 8 alignment) with alignment in * by lia.
    assert (extended_size bytes alignment = bytes + 8 + alignment - 1) as Ee by (unfold extended_size; apply u64_id; lia).
    pose proof (value_bytes_spec (extended_size bytes alignment) ltac:(lia)) as Hv2.
    destruct (extended_sits level adaptor_size (2 ^ 64 - 8 - value_size) p (value_bytes value_size (extended_size bytes alignment)) m bytes
      (extended_size bytes alignment) alignment) as (ret & -> & Hk & Hsit); try done; [lia| |].
    { unfold adaptor_size. rewrite (proj2 (Z.leb_gt _ _)) by done. by replace (Z.max 8 alignment) with alignment by lia. }
    cbn [mbind outcome_bind]. eexists (Some ret), a', _. split; [done|]. by apply Hs.
Qed.

Lemma adaptor_deallocate_law a m p bytes alignment L F : adaptor_inv a m (Block p bytes alignment :: L) F →
  ∃ a' m', adaptor_deallocate value_size value_align p bytes alignment (a, m) = Ret (a', m') ∧
    keeps (λ x, cnt (L ++ F) x ≠ 0%nat) m m' ∧ adaptor_inv a' m' L F.
Proof using Type.
  intros Hi. apply adapted_delete in Hi as (q & a' & Hs & E & Hi). exists a', m. split_and!; [|done..].
  cbn [b_bytes b_align] in *. pose proof (sits_header _ _ _ _ _ _ Hs) as Hh. cbn [b_addr b_align] in Hh.
  destruct Hs as (_ & _ & _ & Hs). cbn [fst snd] in Hs.
  unfold adaptor_deallocate, sits, adaptor_size in *. cbn [b_addr b_bytes b_align] in *.
  destruct (Z.leb_spec alignment value_align).
  - destruct Hs as [-> _]. by rewrite E.
  - rewrite Hh by done. cbn [mbind outcome_bind]. by rewrite E.
Qed.

Definition adaptor_lawful : @Lawful A (resource_adaptor level value_size value_align) :=
  adapted_lawful adaptor_size (2 ^ 64 - 8 - value_size) (resource_adaptor level value_size value_align) ltac:(lia)
    adaptor_allocate_law adaptor_deallocate_law.

End Adaptor.

(** A resource without memory: it has no blocks. *)
Program Definition null_lawful : @Lawful unit null_memory_resource := {|
  inv _ _ L F := L = [] ∧ ∀ x, (cnt F x ≤ 1)%nat;
  max_bytes := 2 ^ 64;
|}.
Next Obligation. done. Qed.
Next Obligation. intros r m L L' F F' HL HF [-> Hc]. split; [by apply Permutation_nil|]. intros x. by rewrite <- HF. Qed.
Next Obligation. by intros r m L F [-> _]. Qed.
Next Obligation. intros r m L F x [-> Hc]. apply Hc. Qed.
Next Obligation. done. Qed.
Next Obligation. intros r m L F bytes alignment Hi _ _. by exists None, r, m. Qed.
Next Obligation. by intros r m p bytes alignment L F [? _]. Qed.

(** ** A bump allocator *)

(** The state is the first free address; memory is not used again. *)
#[export] Instance bump : allocator Z := {|
  raw_allocate n a := if a + n <? 2 ^ 40 then (Some a, 16 * ((a + n) / 16 + 1)) else (None, a);
  raw_deallocate _ _ a := Ret a;
|}.

#[export] Program Instance bump_lawful : LawfulAllocator Z max_align := {|
  raw_inv a l := 4096 <= a ∧ (16 | a) ∧ Forall (λ pn, pn.1 + pn.2 <= a) l;
  heap x := 4096 <= x;
|}.
Next Obligation. intros a l l' Hl (? & ? & ?). split_and!; [done..|]. by rewrite <- Hl. Qed.
Next Obligation.
  intros a l n (Ha & Hd & Hl) Hn. cbn. destruct (Z.ltb_spec (a + n) (2 ^ 40)); [|by eexists None, _].
  pose proof (Z.div_mod (a + n) 16 ltac:(lia)). pose proof (Z.mod_pos_bound (a + n) 16 ltac:(lia)).
  eexists (Some a), _. split; [done|]. split_and!; try done; try lia.
  - apply Z.divide_factor_l.
  - constructor; cbn [fst snd]; [lia|]. eapply Forall_impl; [done|]. intros pn Hpn. cbv beta in *. lia.
  - intros x Hx. unfold covers in Hx. cbn in Hx. split; [lia|]. clear -Hl Hx. induction Hl as [|pn l Hpn _ IH]; [done|].
    cbn [fmap list_fmap cnt]. rewrite decide_False; [done|]. unfold covers. cbn. lia.
Qed.
Next Obligation. intros a p n l (? & ? & Hl). eexists. split; [done|]. split_and!; [done..|]. by apply Forall_cons in Hl as [_ ?]. Qed.

(** An empty heap, and one block of static memory. *)
Lemma bump_start level b : b_addr b + b_bytes b <= 4096 → @inv _ _ (new_delete_lawful (A := Z) level) 4096 ∅ [] [b].
Proof.
  intros Hb. exists []. split; try done.
  - split_and!; [done|by exists 256|constructor].
  - intros x. cbn. case_decide; lia.
  - intros x. cbn. case_decide as Hc; [|lia]. unfold covers in Hc. lia.
Qed.

End NewDeleteResource.
