(* ===== verification/MonotonicResource.v ===== *)
(** * Memory resources: [monotonic_buffer_resource]

    The resource over any lawful upstream resource; both together are lawful
    again.  An initial buffer is a block of others that is lent to the
    resource. *)

From stdpp Require Import gmap.
From S2P Require Import Prelude CppInt CircularBuffer PmrMemory PmrClient ChunkList NewDeleteResource.

Local Open Scope Z_scope.

Module MonotonicResource.
Import PmrMemory PmrClient ChunkList NewDeleteResource.

Record monotonic_buffer_resource := {
  original_buffer_ : Z;
  original_buffer_size_ : Z;
  current_buffer_ : Z;
  next_buffer_size_ : Z;
  available_ : Z;
  chunks_ : Z;
}.

Definition default_initial_size : Z := 4096.

Definition compute_next_buffer_size (buffer_size : Z) : Z := Z.max default_initial_size (u64 (2 * buffer_size)).

Section Operations.
Context {U : Type} `{memory_resource U} (level : assert_level).

(** The constructor with a size. *)
Definition make (initial_size : Z) : outcome monotonic_buffer_resource :=
  let size := Z.max initial_size default_initial_size in
  PRECONDITION level (0 <? initial_size)
  (Ret {| original_buffer_ := 0; original_buffer_size_ := size; current_buffer_ := 0;
          next_buffer_size_ := size; available_ := 0; chunks_ := 0 |}).

(** The constructor with an initial buffer. *)
Definition make_with_buffer (buffer buffer_size : Z) : outcome monotonic_buffer_resource :=
  PRECONDITION level (negb (buffer =? 0) || (buffer_size =? 0))
  (Ret {| original_buffer_ := buffer;
          original_buffer_size_ :=
            if negb (buffer =? 0) then buffer_size else compute_next_buffer_size buffer_size;
          current_buffer_ := buffer; next_buffer_size_ := compute_next_buffer_size buffer_size;
          available_ := buffer_size; chunks_ := 0 |}).

Definition release (s : monotonic_buffer_resource * U * mem) : outcome (monotonic_buffer_resource * U * mem) :=
  let '(r, u, m) := s in
  '(u, m) ← chunk_release level (chunks_ r) (u, m);
  let reset available next :=
    {| original_buffer_ := original_buffer_ r; original_buffer_size_ := original_buffer_size_ r;
       current_buffer_ := original_buffer_ r; next_buffer_size_ := next; available_ := available; chunks_ := 0 |} in
  Ret (if original_buffer_ r =? 0 then reset 0 (original_buffer_size_ r)
       else reset (original_buffer_size_ r) (compute_next_buffer_size (original_buffer_size_ r)), u, m).

Definition monotonic_allocate (bytes alignment : Z) (s : monotonic_buffer_resource * U * mem) :
    outcome (option Z * (monotonic_buffer_resource * U * mem)) :=
  let '(r, u, m) := s in
  PRECONDITION level (has_single_bit alignment)
  (let '(result, available) := std_align alignment bytes (current_buffer_ r) (available_ r) in
   let set current next available chunks :=
     {| original_buffer_ := original_buffer_ r; original_buffer_size_ := original_buffer_size_ r;
        current_buffer_ := current; next_buffer_size_ := next; available_ := available; chunks_ := chunks |} in
   if result =? 0 then
     let usable_size := Z.max bytes (next_buffer_size_ r) in
     '(p, head, (u, m)) ← chunk_allocate level usable_size alignment (chunks_ r) (u, m);
     match p with
     | None => Ret (None, (set (current_buffer_ r) (next_buffer_size_ r) available head, u, m))
     | Some p =>
         ASSERT level (negb (p =? 0))
         (Ret (Some p, (set (u64 (p + bytes)) (compute_next_buffer_size usable_size)
                          (u64 (usable_size - bytes)) head, u, m)))
     end
   else Ret (Some result, (set (u64 (result + bytes)) (next_buffer_size_ r) (u64 (available - bytes)) (chunks_ r), u, m))).

#[export] Instance monotonic_resource : memory_resource (monotonic_buffer_resource * U) := {
  do_allocate := monotonic_allocate;
  do_deallocate _ _ _ s := Ret s;
}.

End Operations.

(** ** The invariant *)

Definition initial_buffer (r : monotonic_buffer_resource) : list block :=
  if original_buffer_ r =? 0 then [] else [Block (original_buffer_ r) (original_buffer_size_ r) 1].

(** The rest of the current buffer. *)
Definition unused (r : monotonic_buffer_resource) : block := Block (current_buffer_ r) (available_ r) 1.

Section Lawful.
Context {U : Type} `{Lawful U} (level : assert_level).
Hypothesis Hmax : 2 ^ 63 + 2 ^ 62 + 96 <= max_bytes.
(** The initial buffer, if there is one. *)
Variable B : list block.

Record monotonic_inv_as (ru : monotonic_buffer_resource * U) (m : mem) (L F l : list block) : Prop := {
  m_buffer : initial_buffer ru.1 = B;
  m_chunks : Forall chunk_ok l;
  m_list : dseg m 0 (chunks_ ru.1) l 0;
  m_upstream : inv ru.2 m l (initial_buffer ru.1 ++ F);
  m_blocks : Forall (block_ok (max_bytes - 96)) L;
  m_range : 0 <= current_buffer_ ru.1 ∧ 0 <= available_ ru.1 ∧ current_buffer_ ru.1 + available_ ru.1 < 2 ^ 62;
  m_next : 0 <= next_buffer_size_ ru.1 <= 2 ^ 63 ∧ 0 <= original_buffer_size_ ru.1 <= 2 ^ 63 ∧
    (original_buffer_ ru.1 ≠ 0 → 0 < original_buffer_ ru.1 ∧
       original_buffer_ ru.1 + original_buffer_size_ ru.1 < 2 ^ 62);
  m_cnt x : (cnt L x + cnt (unused ru.1 :: elems l) x ≤ cnt (l ++ initial_buffer ru.1) x)%nat;
}.

Definition monotonic_inv ru m L F : Prop := ∃ l, monotonic_inv_as ru m L F l.

Lemma monotonic_perm ru m L L' F F' : L ≡ₚ L' → F ≡ₚ F' → monotonic_inv ru m L F → monotonic_inv ru m L' F'.
Proof.
  intros HL HF [l []]. exists l. split; try done.
  - eapply inv_perm; [done| |done]. by rewrite HF.
  - by rewrite <- HL.
  - intros x. by rewrite <- HL.
Qed.

Lemma monotonic_cnt ru m L F x : monotonic_inv ru m L F → (cnt (L ++ F) x ≤ 1)%nat.
Proof.
  intros [l []]. specialize (m_cnt0 x). pose proof (inv_cnt _ _ _ _ x m_upstream0) as Hc.
  rewrite !cnt_app in *. lia.
Qed.

Lemma monotonic_frame ru m m' L F : keeps (λ x, cnt (L ++ F) x = 0%nat) m m' →
  monotonic_inv ru m L F → monotonic_inv ru m' L F.
Proof.
  intros Hk [l []]. exists l. split; try done.
  - eapply dseg_keeps; [|exact m_list0]. eapply keeps_impl; [|exact Hk]. intros x Hx. specialize (m_cnt0 x).
    pose proof (inv_cnt _ _ _ _ x m_upstream0) as Hc. count x.
  - eapply inv_frame; [|exact m_upstream0]. eapply keeps_impl; [|exact Hk]. intros x Hx. specialize (m_cnt0 x).
    count x.
Qed.

(** The bytes of the blocks are not those of the descriptors. *)
Lemma blocks_untouched ru m L F l x : monotonic_inv_as ru m L F l → cnt (L ++ F) x ≠ 0%nat →
  untouched l [] (initial_buffer ru.1 ++ F) x.
Proof.
  intros [] Hx. specialize (m_cnt0 x). pose proof (inv_cnt _ _ _ _ x m_upstream0) as Hc.
  unfold untouched. split; count x.
Qed.

(** A new chunk becomes the current buffer. *)
Lemma new_chunk_cnt p s a usable bytes alignment x :
  0 <= bytes <= usable → usable + 24 <= s →
  (cnt [Block p bytes alignment; Block (p + bytes) (usable - bytes) 1; elem_block (Block p s a)] x
     ≤ cnt [Block p s a] x)%nat.
Proof.
  intros. cbn [cnt]. unfold covers, elem_block, elem_addr. cbn [b_addr b_bytes].
  repeat match goal with |- context [decide ?P] => destruct (decide P) end; lia.
Qed.

Lemma allocate_from_buffer r u m L F l bytes alignment result available :
  monotonic_inv_as (r, u) m L F l → power_of_2 alignment → fits (max_bytes - 96) bytes alignment →
  std_align alignment bytes (current_buffer_ r) (available_ r) = (result, available) → result ≠ 0 →
  monotonic_inv ({| original_buffer_ := original_buffer_ r; original_buffer_size_ := original_buffer_size_ r;
      current_buffer_ := u64 (result + bytes); next_buffer_size_ := next_buffer_size_ r;
      available_ := u64 (available - bytes); chunks_ := chunks_ r |}, u) m (Block result bytes alignment :: L) F.
Proof.
  intros [] Ha Hfit Ealign Hr0. pose proof Hfit as (Hb & Ha2 & Hf & Hz). cbn [fst snd] in *.
  apply std_align_spec in Ealign as [Hav Hres]; [|done|lia..].
  destruct Hres as [|(H1 & H2 & H3 & H4)]; [done|]. rewrite !u64_id by lia. exists l.
  split; cbn [fst snd chunks_ current_buffer_ available_ next_buffer_size_ original_buffer_size_ original_buffer_]; try done.
  - constructor; [|done]. split_and!; cbn [b_addr b_bytes b_align]; try done; lia.
  - lia.
  - intros x. specialize (m_cnt0 x). unfold unused, initial_buffer in *.
    cbn [current_buffer_ available_ original_buffer_ original_buffer_size_] in *.
    pose proof (split_buffer (current_buffer_ r) (available_ r) alignment result bytes (result + bytes) (available - bytes) x).
    cbn [cnt] in *. lia.
Qed.

Lemma allocate_from_chunk r u m L F l p s bytes alignment u' m' h :
  let usable := Z.max bytes (next_buffer_size_ r) in
  let c := Block p s (internal_alignment alignment) in
  monotonic_inv_as (r, u) m L F l → power_of_2 alignment → fits (max_bytes - 96) bytes alignment →
  usable + 24 <= s → chunk_ok c → inv u' m' (c :: l) (initial_buffer r ++ F) → dseg m' 0 h (c :: l) 0 →
  p ≠ 0 ∧
  monotonic_inv ({| original_buffer_ := original_buffer_ r; original_buffer_size_ := original_buffer_size_ r;
      current_buffer_ := u64 (p + bytes); next_buffer_size_ := compute_next_buffer_size usable;
      available_ := u64 (usable - bytes); chunks_ := h |}, u') m' (Block p bytes alignment :: L) F.
Proof.
  intros usable c [] Ha Hfit Hs Hc Hi' Hd'. pose proof Hfit as (Hb & Ha2 & Hf & Hz). cbn [fst snd] in *.
  pose proof (inv_blocks _ _ _ _ Hi') as Hbl. apply Forall_cons in Hbl as [(B1 & B2 & B3 & B4 & B5) _].
  cbn [b_addr b_bytes b_align c] in *. unfold usable in *. rewrite !u64_id by lia. split; [lia|]. exists (c :: l).
  split; cbn [fst snd chunks_ current_buffer_ available_ next_buffer_size_ original_buffer_size_ original_buffer_]; try done.
  - by constructor.
  - constructor; [|done]. split_and!; cbn [b_addr b_bytes b_align]; try done; try lia.
    etrans; [|exact B3]. by apply internal_alignment_power.
  - lia.
  - unfold compute_next_buffer_size, default_initial_size. rewrite u64_id by lia. lia.
  - intros x. specialize (m_cnt0 x). unfold unused, initial_buffer in *.
    cbn [current_buffer_ available_ original_buffer_ original_buffer_size_] in *.
    pose proof (new_chunk_cnt p s (internal_alignment alignment) (Z.max bytes (next_buffer_size_ r)) bytes alignment x).
    cbn [cnt elems fmap list_fmap app] in *. unfold elems, c in *. lia.
Qed.

(** A resource that could not get a chunk; the space may be smaller. *)
Lemma allocate_failed r u m L F l available u' m' :
  monotonic_inv_as (r, u) m L F l → 0 <= available <= available_ r →
  inv u' m' l (initial_buffer r ++ F) → dseg m' 0 (chunks_ r) l 0 →
  monotonic_inv ({| original_buffer_ := original_buffer_ r; original_buffer_size_ := original_buffer_size_ r;
      current_buffer_ := current_buffer_ r; next_buffer_size_ := next_buffer_size_ r;
      available_ := available; chunks_ := chunks_ r |}, u') m' L F.
Proof.
  intros [] Hav Hi' Hd'. cbn [fst snd] in *. exists l.
  split; cbn [fst snd chunks_ current_buffer_ available_ next_buffer_size_ original_buffer_size_ original_buffer_]; try done; [lia|].
  intros x. specialize (m_cnt0 x). unfold unused, initial_buffer in *.
  cbn [current_buffer_ available_ original_buffer_ original_buffer_size_ cnt] in *. unfold covers in *. cbn [b_addr b_bytes] in *.
  repeat match goal with |- context [decide ?P] => destruct (decide P) end;
    repeat match type of m_cnt0 with context [decide ?P] => destruct (decide P) end; lia.
Qed.

Lemma monotonic_allocate_law ru m L F bytes alignment :
  monotonic_inv ru m L F → power_of_2 alignment → fits (max_bytes - 96) bytes alignment →
  ∃ p ru' m', monotonic_allocate level bytes alignment (ru, m) = Ret (p, (ru', m')) ∧
    keeps (λ x, cnt (L ++ F) x ≠ 0%nat) m m' ∧
    match p with
    | Some p => monotonic_inv ru' m' (Block p bytes alignment :: L) F
    | None => monotonic_inv ru' m' L F
    end.
Proof using Hmax.
  intros [l Hinv] Ha Hfit. pose proof (blocks_untouched ru m L F l) as Hun. pose proof Hinv as [].
  destruct ru as [r u]. cbn [fst snd] in *. pose proof Hfit as (Hb & Ha2 & Hf & Hz).
  unfold monotonic_allocate. rewrite has_single_bit_power by done.
  destruct (std_align alignment bytes (current_buffer_ r) (available_ r)) as [result available] eqn:Ealign.
  destruct (Z.eqb_spec result 0) as [Hr0|Hr0]; cycle 1.
  { eexists (Some result), _, m. split; [by destruct level|]. split; [done|]. by eapply allocate_from_buffer. }
  apply std_align_spec in Ealign as [Hav _]; [|done|lia..]. rewrite <- (app_nil_r l) in m_upstream0.
  destruct (chunk_allocate_spec level u m l [] (initial_buffer r ++ F) (chunks_ r)
    (Z.max bytes (next_buffer_size_ r)) alignment) as (p & h & u' & m' & -> & Hk & Hp); try done.
  { split_and!; lia. }
  cbn [mbind outcome_bind]. assert (keeps (λ x, cnt (L ++ F) x ≠ 0%nat) m m') as Hk'.
  { intros x Hx. by apply Hk, Hun. }
  destruct p as [p|]; rewrite app_nil_r in Hp.
  - destruct Hp as (s & _ & Hs & Hc & Hi' & Hd').
    destruct (allocate_from_chunk r u m L F l p s bytes alignment u' m' h) as [Hp0 Hi2]; try done.
    rewrite (proj2 (Z.eqb_neq p 0)) by done. eexists (Some p), _, m'. split; [by destruct level|]. by split.
  - destruct Hp as (-> & Hi' & Hd'). eexists None, _, m'. split; [by destruct level|]. split; [done|].
    by eapply allocate_failed.
Qed.

Lemma monotonic_deallocate_law ru m p bytes alignment L F :
  monotonic_inv ru m (Block p bytes alignment :: L) F → monotonic_inv ru m L F.
Proof.
  intros [l []]. exists l. split; try done; [by apply Forall_cons in m_blocks0 as [_ ?]|].
  intros x. specialize (m_cnt0 x). cbn [cnt] in *. lia.
Qed.

#[export] Program Instance monotonic_lawful :
    @Lawful (monotonic_buffer_resource * U) (monotonic_resource level) := {
  inv := monotonic_inv;
  max_bytes := max_bytes - 96;
}.
Next Obligation. pose proof max_bytes_le. lia. Qed.
Next Obligation. intros r m L L' F F'. apply monotonic_perm. Qed.
Next Obligation. intros r m L F [l []]. done. Qed.
Next Obligation. intros r m L F x. apply monotonic_cnt. Qed.
Next Obligation. intros r m m' L F. apply monotonic_frame. Qed.
Next Obligation. intros r m L F bytes alignment. apply monotonic_allocate_law. Qed.
Next Obligation.
  intros r m p bytes alignment L F Hi. exists r, m. split_and!; [done..|]. by eapply monotonic_deallocate_law.
Qed.

(** ** Construction and release *)

Lemma monotonic_make_spec initial_size u m F : 0 < initial_size <= 2 ^ 63 → inv u m [] F →
  B = [] → ∃ r, make level initial_size = Ret r ∧ monotonic_inv (r, u) m [] F.
Proof.
  intros Hs Hi ->. unfold make. rewrite (proj2 (Z.ltb_lt _ _)) by lia. eexists. split; [by destruct level|].
  exists []. unfold default_initial_size.
  split; cbn [fst snd chunks_ current_buffer_ available_ next_buffer_size_ original_buffer_size_ original_buffer_]; try done; [lia|].
  intros x. cbn. destruct (decide _) as [Hc|]; [|lia]. unfold covers in Hc. cbn in Hc. lia.
Qed.

Lemma make_with_buffer_spec buffer size u m F :
  0 < buffer → 0 <= size → buffer + size < 2 ^ 62 → inv u m [] (Block buffer size 1 :: F) →
  B = [Block buffer size 1] →
  ∃ r, make_with_buffer level buffer size = Ret r ∧ monotonic_inv (r, u) m [] F.
Proof.
  intros Hb Hs Hl Hi ->. unfold make_with_buffer. rewrite (proj2 (Z.eqb_neq _ 0)) by lia. cbn [negb orb].
  eexists. split; [by destruct level|]. exists [].
  split; cbn [fst snd chunks_ current_buffer_ available_ next_buffer_size_ original_buffer_size_ original_buffer_]; try done.
  1,2: unfold initial_buffer; cbn [original_buffer_ original_buffer_size_];
    rewrite (proj2 (Z.eqb_neq _ 0)) by lia; done.
  - lia.
  - unfold compute_next_buffer_size, default_initial_size. rewrite u64_id by lia. lia.
  - intros x. unfold initial_buffer, unused. cbn [original_buffer_ original_buffer_size_ current_buffer_ available_].
    rewrite (proj2 (Z.eqb_neq _ 0)) by lia. cbn [cnt elems fmap list_fmap app]. lia.
Qed.

(** All chunks go back to the upstream resource, and the resource is as it was
    constructed. *)
Lemma release_spec r u m L F : monotonic_inv (r, u) m L F →
  ∃ r' u' m', release level (r, u, m) = Ret (r', u', m') ∧ inv u' m' [] (B ++ F) ∧
    keeps (λ x, cnt (B ++ F) x ≠ 0%nat) m m' ∧ monotonic_inv (r', u') m' [] F.
Proof.
  intros [l []]. cbn [fst snd] in *. rewrite <- (app_nil_r l) in m_upstream0.
  destruct (chunk_release_spec level u m l [] (initial_buffer r ++ F) (chunks_ r)) as (u' & m' & E & Hi & Hk); [done..|].
  unfold release. rewrite E, <- m_buffer0. cbn [mbind outcome_bind]. eexists _, u', m'. split_and!; [done..|].
  exists []. unfold initial_buffer, unused in *. destruct (Z.eqb_spec (original_buffer_ r) 0) as [E0|E0];
    split; cbn [fst snd chunks_ current_buffer_ available_ next_buffer_size_ original_buffer_size_ original_buffer_ app];
    rewrite ?E0; try done; try lia.
  - intros x. cbn [cnt elems fmap list_fmap]. destruct (decide _) as [Hc|]; [|lia]. unfold covers in Hc. cbn in Hc. lia.
  - unfold initial_buffer. cbn [original_buffer_ original_buffer_size_]. by rewrite (proj2 (Z.eqb_neq _ 0)) by done.
  - unfold initial_buffer. cbn [original_buffer_]. by rewrite (proj2 (Z.eqb_neq _ 0)) by done.
  - unfold compute_next_buffer_size, default_initial_size. rewrite u64_id by lia. lia.
  - intros x. unfold initial_buffer, unused. cbn [original_buffer_ original_buffer_size_ current_buffer_ available_].
    rewrite (proj2 (Z.eqb_neq _ 0)) by done. cbn [cnt elems fmap list_fmap app]. lia.
Qed.

End Lawful.

(** The constructors: without and with an initial buffer. *)
Definition constructed (level : assert_level) (initial_size : Z) (buffer : option block) : outcome monotonic_buffer_resource :=
  match buffer with None => make level initial_size | Some b => make_with_buffer level (b_addr b) (b_bytes b) end.

Definition arguments_ok (initial_size : Z) (buffer : option block) : Prop :=
  match buffer with
  | None => 0 < initial_size <= 2 ^ 63
  | Some b => 0 < b_addr b ∧ 0 <= b_bytes b ∧ b_addr b + b_bytes b < 2 ^ 62 ∧ b_align b = 1
  end.

Lemma constructed_spec {U : Type} `{Lawful U} level initial_size buffer u m F :
  arguments_ok initial_size buffer → inv u m [] (option_list buffer ++ F) →
  ∃ r, constructed level initial_size buffer = Ret r ∧ monotonic_inv (option_list buffer) (r, u) m [] F.
Proof.
  destruct buffer as [[b n a]|]; cbn [arguments_ok b_addr b_bytes b_align option_list app].
  - intros (Hb & Hn & Hl & ->) Hi. by apply make_with_buffer_spec.
  - intros Hs Hi. by apply monotonic_make_spec.
Qed.

(** C13: every program whose requests are [request_ok] and that uses a
    [monotonic_buffer_resource], with or without an initial buffer and over any
    upstream resource that keeps its promise, runs: its blocks are aligned and do
    not overlap each other or the blocks of others, it finds in them what it
    wrote, also after requests for which the upstream resource threw, and
    [release] gives every chunk back.  Requests have an alignment that is a power
    of 2 of at most 2^62, of at most 8 for a request of no bytes, and together
    with it a size of at most 96 bytes less than the upstream resource can
    serve, so that no computation of a size wraps around.  The first chunk has
    between 1 and 2^63 bytes, and the initial buffer ends below 2^62. *)
Theorem monotonic_programs {U : Type} `{Lawful U} level initial_size buffer u m F os :
  2 ^ 63 + 2 ^ 62 + 96 <= max_bytes → arguments_ok initial_size buffer → inv u m [] (option_list buffer ++ F) →
  Forall (request_ok (max_bytes - 96)) os →
  ∃ r r1 u1 m1 h r2 u2 m2,
    constructed level initial_size buffer = Ret r ∧
    run (H := monotonic_resource level) level os ((r, u), m, []) = Ret ((r1, u1), m1, h) ∧
    Forall (block_ok (max_bytes - 96)) (blocks h) ∧ (∀ x, cnt (blocks h ++ F) x ≤ 1)%nat ∧ contents_ok m1 h ∧
    release level (r1, u1, m1) = Ret (r2, u2, m2) ∧ inv u2 m2 [] (option_list buffer ++ F) ∧
    keeps (λ x, cnt F x ≠ 0%nat) m m2.
Proof.
  intros Hmax Hs Hi Hos. destruct (constructed_spec level initial_size buffer u m F Hs Hi) as (r & Er & Hr).
  destruct (@program_ok _ _ (monotonic_lawful level Hmax (option_list buffer)) level os (r, u) m [] F)
    as ([r1 u1] & m1 & h & E1 & [Hi1 Hc1] & Hk1); [done|by split; [|constructor]|].
  destruct (release_spec level _ r1 u1 m1 (blocks h) F Hi1) as (r2 & u2 & m2 & E2 & Hi2 & Hk2 & _).
  exists r, r1, u1, m1, h, r2, u2, m2. split_and!; try done.
  - by destruct Hi1 as [l []].
  - intros x. exact (monotonic_cnt _ (r1, u1) m1 (blocks h) F x Hi1).
  - intros x Hx. rewrite Hk2, Hk1; [done..|]. rewrite cnt_app. lia.
Qed.

(** A static buffer of 64 bytes, which is too small for the second block. *)
Definition example_program : outcome ((monotonic_buffer_resource * Z) * mem * held) :=
  r ← constructed ASSERT_LEVEL_DEFAULT 0 (Some (Block 1000 64 1));
  run (H := monotonic_resource (H := new_delete_resource ASSERT_LEVEL_DEFAULT) ASSERT_LEVEL_DEFAULT) ASSERT_LEVEL_DEFAULT
    [Allocate 40 8; Allocate 100 32; Write 0 3 7] ((r, 4096), ∅, []).

Example example_program_blocks :
  match example_program with Ret (_, m, h) => Some (blocks h, m !! 4131) | _ => None end =
  Some ([Block 4128 100 32; Block 1000 40 8], Some 7).
Proof. by vm_compute. Qed.

Lemma monotonic_programs_witness :
  ∃ r1 u1 m1 h, example_program = Ret ((r1, u1), m1, h) ∧ contents_ok m1 h ∧ (∀ x, cnt (blocks h ++ []) x ≤ 1)%nat.
Proof.
  destruct (monotonic_programs (H0 := new_delete_lawful (A := Z) ASSERT_LEVEL_DEFAULT) ASSERT_LEVEL_DEFAULT 0
    (Some (Block 1000 64 1)) 4096 ∅ [] [Allocate 40 8; Allocate 100 32; Write 0 3 7])
    as (r & r1 & u1 & m1 & h & r2 & u2 & m2 & Er & E1 & _ & Hc & Hh & _).
  - by vm_compute.
  - cbn. lia.
  - apply bump_start. by vm_compute.
  - repeat constructor; cbn; try lia; [by exists 3|by exists 5].
  - exists r1, u1, m1, h. unfold example_program. rewrite Er. cbn [mbind outcome_bind]. by split_and!.
Defined.

End MonotonicResource.
