(* ===== verification/PoolResource.v ===== *)
(** * Memory resources: [unsynchronized_pool_resource]

    language/futurecpp, free_list.hpp, pool.hpp and
    unsynchronized_pool_resource.hpp.  A free block holds the pointer to the
    next one.  The array of the pools is a block of the upstream resource at
    [pools_]; the pools themselves are a list, since nobody else has access to
    the array. *)

From stdpp Require Import gmap.
From S2P Require Import Prelude CppInt CircularBuffer PmrMemory ChunkList.

Local Open Scope Z_scope.

Module PoolResource.
Import PmrMemory ChunkList.

Definition block_sizes : list Z :=
  [8; 16; 24; 32; 48; 64; 80; 96; 112; 128; 192; 256; 320; 384; 448; 512; 768; 1024; 1536; 2048; 3072; 4096;
   2 ^ 13; 2 ^ 14; 2 ^ 15; 2 ^ 16; 2 ^ 17; 2 ^ 18; 2 ^ 19; 2 ^ 20; 2 ^ 21; 2 ^ 22].

(** [score::cpp::at] *)
Definition block_size_at (i : Z) : outcome Z :=
  if decide (0 <= i) then
    match block_sizes !! Z.to_nat i with Some size => Ret size | None => Aborted end
  else Aborted.

(** [std::lower_bound]: the position of the first element that is not less. *)
Fixpoint lower_bound (l : list Z) (value : Z) : Z :=
  match l with
  | [] => 0
  | v :: l => if v <? value then 1 + lower_bound l value else 0
  end.

Record pool := {
  block_size_ : Z;
  next_block_count_ : Z;
  current_ : Z;
  stop_ : Z;
  free_block_list_ : Z;
  pool_chunks_ : Z;
}.

Record unsynchronized_pool_resource := {
  max_blocks_per_chunk : Z;
  largest_required_pool_block : Z;
  pool_count_ : Z;
  pools_ : Z;
  pool_objects : list pool;
  big_blocks_ : Z;
}.

Definition sizeof_pool : Z := 48.
Definition alignof_pool : Z := 8.

Section Operations.
Context {U : Type} `{memory_resource U} (level : assert_level).

Definition get_pool_index (bytes alignment : Z) : outcome Z :=
  size ← align_up level bytes alignment;
  Ret (if size <? 4096 then lower_bound (take 21 block_sizes) size
       else if size <=? 2 ^ 22 then 9 + bit_width (size - 1)
       else Z.of_nat (length block_sizes)).

(** ** free_list.hpp *)

Definition pop_front (next_ : Z) (m : mem) : outcome (Z * Z) :=
  PRECONDITION level (negb (next_ =? 0)) (n ← load next_ m; Ret (next_, n)).

Definition push_front (p next_ : Z) (m : mem) : outcome (Z * mem) :=
  PRECONDITION level (negb (p =? 0)) (Ret (p, store p next_ (store p 0 m))).

(** ** pool.hpp *)

Definition pool_construct (block_size initial_block_count : Z) : pool :=
  {| block_size_ := block_size; next_block_count_ := initial_block_count; current_ := 0; stop_ := 0;
     free_block_list_ := 0; pool_chunks_ := 0 |}.

(** [std::exchange(current_, current_ + block_size_)] *)
Definition take_block (p : pool) : Z * pool :=
  (current_ p,
   {| block_size_ := block_size_ p; next_block_count_ := next_block_count_ p;
      current_ := u64 (current_ p + block_size_ p); stop_ := stop_ p; free_block_list_ := free_block_list_ p;
      pool_chunks_ := pool_chunks_ p |}).

Definition pool_allocate (max_blocks : Z) (p : pool) (s : U * mem) : outcome (option Z * pool * (U * mem)) :=
  let '(u, m) := s in
  if negb (free_block_list_ p =? 0) then
    '(result, n) ← pop_front (free_block_list_ p) m;
    Ret (Some result,
         {| block_size_ := block_size_ p; next_block_count_ := next_block_count_ p; current_ := current_ p;
            stop_ := stop_ p; free_block_list_ := n; pool_chunks_ := pool_chunks_ p |}, (u, m))
  else if current_ p =? stop_ p then
    let size := u64 (block_size_ p * next_block_count_ p) in
    '(c, head, s) ← chunk_allocate level size (u64 (Z.shiftl 1 (countr_zero (block_size_ p)))) (pool_chunks_ p) (u, m);
    match c with
    | None =>
        Ret (None, {| block_size_ := block_size_ p; next_block_count_ := next_block_count_ p; current_ := current_ p;
                      stop_ := stop_ p; free_block_list_ := free_block_list_ p; pool_chunks_ := head |}, s)
    | Some c =>
        ASSERT level (negb (c =? 0))
        (let max_chunk_size := max int64_t in
         let count := Z.min (Z.min (max_chunk_size / block_size_ p) max_blocks) (u64 (2 * next_block_count_ p)) in
         let '(result, p) := take_block
           {| block_size_ := block_size_ p; next_block_count_ := count; current_ := c; stop_ := u64 (c + size);
              free_block_list_ := free_block_list_ p; pool_chunks_ := head |} in
         Ret (Some result, p, s))
    end
  else let '(result, p) := take_block p in Ret (Some result, p, s).

Definition pool_deallocate (a : Z) (p : pool) (m : mem) : outcome (pool * mem) :=
  PRECONDITION level (negb (a =? 0))
  ('(n, m) ← push_front a (free_block_list_ p) m;
   Ret ({| block_size_ := block_size_ p; next_block_count_ := next_block_count_ p; current_ := current_ p;
           stop_ := stop_ p; free_block_list_ := n; pool_chunks_ := pool_chunks_ p |}, m)).

(** The chunks go back; the other members are not used again. *)
Definition pool_release (p : pool) (s : U * mem) : outcome (U * mem) := chunk_release level (pool_chunks_ p) s.

(** ** unsynchronized_pool_resource.hpp *)

Definition make_pool_resource (max_blocks largest_block : Z) : outcome unsynchronized_pool_resource :=
  let largest := if largest_block =? 0 then 8192 else largest_block in
  let max_blocks := if max_blocks =? 0 then 8192 else max_blocks in
  let largest := Z.min largest (2 ^ 22) in
  index ← get_pool_index largest 1;
  let count := index + 1 in
  largest ← block_size_at (count - 1);
  Ret {| max_blocks_per_chunk := max_blocks; largest_required_pool_block := largest; pool_count_ := count;
         pools_ := 0; pool_objects := []; big_blocks_ := 0 |}.

Definition set_pools (pools : Z) (objects : list pool) (r : unsynchronized_pool_resource) : unsynchronized_pool_resource :=
  {| max_blocks_per_chunk := max_blocks_per_chunk r; largest_required_pool_block := largest_required_pool_block r;
     pool_count_ := pool_count_ r; pools_ := pools; pool_objects := objects; big_blocks_ := big_blocks_ r |}.

Definition set_big (big : Z) (r : unsynchronized_pool_resource) : unsynchronized_pool_resource :=
  {| max_blocks_per_chunk := max_blocks_per_chunk r; largest_required_pool_block := largest_required_pool_block r;
     pool_count_ := pool_count_ r; pools_ := pools_ r; pool_objects := pool_objects r; big_blocks_ := big |}.

(** The loop that constructs the pools; [i] is the index of the next one. *)
Fixpoint construct_pools (n : nat) (i max_blocks : Z) : outcome (list pool) :=
  match n with
  | O => Ret []
  | S n =>
      block_size ← block_size_at i;
      let count := Z.min (Z.max 1 (4096 / block_size)) max_blocks in
      ps ← construct_pools n (i + 1) max_blocks;
      Ret (pool_construct block_size count :: ps)
  end.

(** Whether the array could be allocated. *)
Definition allocate_pools (r : unsynchronized_pool_resource) (s : U * mem) :
    outcome (bool * unsynchronized_pool_resource * (U * mem)) :=
  PRECONDITION level (pools_ r =? 0)
  ('(a, s) ← allocate level (u64 (sizeof_pool * pool_count_ r)) alignof_pool s;
   match a with
   | None => Ret (false, r, s)
   | Some a =>
       ASSERT level (negb (a =? 0))
       (ps ← construct_pools (Z.to_nat (pool_count_ r)) 0 (max_blocks_per_chunk r);
        Ret (true, set_pools a ps r, s))
   end).

Fixpoint release_pools (ps : list pool) (s : U * mem) : outcome (U * mem) :=
  match ps with [] => Ret s | p :: ps => s ← pool_release p s; release_pools ps s end.

Definition pool_resource_release (s : unsynchronized_pool_resource * U * mem) :
    outcome (unsynchronized_pool_resource * U * mem) :=
  let '(r, u, m) := s in
  '(r, u, m) ← (if negb (pools_ r =? 0) then
                  s ← release_pools (pool_objects r) (u, m);
                  '(u, m) ← deallocate level (pools_ r) (u64 (sizeof_pool * pool_count_ r)) alignof_pool s;
                  Ret (set_pools 0 [] r, u, m)
                else Ret (r, u, m));
  '(u, m) ← chunk_release level (big_blocks_ r) (u, m);
  Ret (set_big 0 r, u, m).

Definition pool_resource_allocate (bytes alignment : Z) (s : unsynchronized_pool_resource * U * mem) :
    outcome (option Z * (unsynchronized_pool_resource * U * mem)) :=
  let '(r, u, m) := s in
  ASSERT_DBG level (has_single_bit alignment)
  (pool_index ← get_pool_index bytes alignment;
   if pool_count_ r <=? pool_index then
     '(p, head, (u, m)) ← chunk_allocate level bytes alignment (big_blocks_ r) (u, m);
     ASSERT_DBG level (bool_decide (p ≠ Some 0)) (Ret (p, (set_big head r, u, m)))
   else
     '(ok, r, (u, m)) ← (if pools_ r =? 0 then allocate_pools r (u, m) else Ret (true, r, (u, m)));
     if negb ok then Ret (None, (r, u, m))
     else
       match pool_objects r !! Z.to_nat pool_index with
       | None => Undefined
       | Some p =>
           '(a, p, (u, m)) ← pool_allocate (max_blocks_per_chunk r) p (u, m);
           ASSERT_DBG level (bool_decide (a ≠ Some 0))
           (Ret (a, (set_pools (pools_ r) (<[Z.to_nat pool_index := p]> (pool_objects r)) r, u, m)))
       end).

Definition pool_resource_deallocate (a bytes alignment : Z) (s : unsynchronized_pool_resource * U * mem) :
    outcome (unsynchronized_pool_resource * U * mem) :=
  let '(r, u, m) := s in
  ASSERT_DBG level (has_single_bit alignment)
  (pool_index ← get_pool_index bytes alignment;
   if pool_count_ r <=? pool_index then
     '(head, (u, m)) ← chunk_deallocate level a bytes alignment (big_blocks_ r) (u, m);
     Ret (set_big head r, u, m)
   else
     match pool_objects r !! Z.to_nat pool_index with
     | None => Undefined
     | Some p =>
         '(p, m) ← pool_deallocate a p m;
         Ret (set_pools (pools_ r) (<[Z.to_nat pool_index := p]> (pool_objects r)) r, u, m)
     end).

#[export] Instance pool_resource : memory_resource (unsynchronized_pool_resource * U) := {
  do_allocate := pool_resource_allocate;
  do_deallocate := pool_resource_deallocate;
}.

End Operations.

End PoolResource.
