(* ===== verification/PoolResourceSpec.v ===== *)
(** * Memory resources: the pool resource keeps its promise

    The pool that serves a request has blocks that are large enough and
    sufficiently aligned; a pool divides its chunks into blocks that are used,
    free or not yet used; the resource over any lawful upstream resource is
    lawful. *)

From stdpp Require Import gmap.
From S2P Require Import Prelude CppInt CircularBuffer PmrMemory PmrClient ChunkList PoolResource.

Local Open Scope Z_scope.

Module PoolResourceSpec.
Import PmrMemory PmrClient ChunkList PoolResource.

(** ** The pool that serves a request *)

Definition size_index (size : Z) : Z :=
  if size <? 4096 then lower_bound (take 21 block_sizes) size
  else if size <=? 2 ^ 22 then 9 + bit_width (size - 1)
  else Z.of_nat (length block_sizes).

(** The alignment of the blocks. *)
Definition natural_alignment (block_size : Z) : Z := 2 ^ countr_zero block_size.

Definition small_size_ok (size : Z) : bool :=
  match block_sizes !! Z.to_nat (size_index size) with
  | Some bs =>
      (0 <=? size_index size) && (size_index size <? 22) && (size <=? bs) &&
      forallb (λ k, negb (size mod 2 ^ k =? 0) || (natural_alignment bs mod 2 ^ k =? 0)) (seqZ 0 13)
  | None => false
  end.

Lemma small_sizes : forallb small_size_ok (seqZ 1 4095) = true.
Proof. by vm_compute. Qed.

Lemma large_sizes : forallb (λ k, bool_decide (block_sizes !! Z.to_nat (9 + k) = Some (2 ^ k)) &&
  (natural_alignment (2 ^ k) =? 2 ^ k)) (seqZ 12 11) = true.
Proof. by vm_compute. Qed.

Lemma size_index_small size a : 0 < size < 4096 → power_of_2 a → (a | size) →
  ∃ bs, block_sizes !! Z.to_nat (size_index size) = Some bs ∧ 0 <= size_index size < 32 ∧ size <= bs ∧
    (a | natural_alignment bs).
Proof.
  intros Hs (k & Hk & ->) Hd. pose proof small_sizes as Hall. rewrite forallb_forall in Hall.
  specialize (Hall size). unfold small_size_ok in Hall.
  destruct (block_sizes !! _) as [bs|]; cycle 1.
  { discriminate Hall. apply list_elem_of_In, elem_of_seqZ. lia. }
  rewrite !andb_true_iff, forallb_forall in Hall. destruct Hall as [[[H1 H2] H3] H4].
  { apply list_elem_of_In, elem_of_seqZ. lia. }
  reflect_bool. exists bs. split_and!; [done|lia..|].
  assert (k < 13) as Hk13.
  { apply (Z.pow_lt_mono_r_iff 2); [lia..|]. apply Z.divide_pos_le in Hd; lia. }
  specialize (H4 k). rewrite orb_true_iff, negb_true_iff, Z.eqb_neq, Z.eqb_eq in H4.
  destruct H4 as [H4|H4]; [apply list_elem_of_In, elem_of_seqZ; lia| |].
  - destruct H4. by apply Z.mod_divide; [lia|].
  - by apply Z.mod_divide; [lia|].
Qed.

Lemma size_index_large size a : 4096 <= size <= 2 ^ 22 → power_of_2 a → (a | size) →
  ∃ bs, block_sizes !! Z.to_nat (size_index size) = Some bs ∧ 0 <= size_index size < 32 ∧ size <= bs ∧
    (a | natural_alignment bs).
Proof.
  intros Hs Ha Hd. unfold size_index. rewrite (proj2 (Z.ltb_ge _ _)), (proj2 (Z.leb_le _ _)) by lia.
  unfold bit_width. rewrite (proj2 (Z.eqb_neq _ 0)) by lia. set (w := Z.log2 (size - 1) + 1).
  pose proof (Z.log2_spec (size - 1)) as [Hlo Hhi]; [lia|]. rewrite <- Z.add_1_r in Hhi. fold w in Hhi.
  assert (11 <= Z.log2 (size - 1) < 22) as Hlog.
  { split; [apply Z.log2_le_pow2; lia|apply Z.log2_lt_pow2; lia]. }
  pose proof large_sizes as Hall. rewrite forallb_forall in Hall. specialize (Hall w).
  rewrite andb_true_iff, bool_decide_eq_true, Z.eqb_eq in Hall. destruct Hall as [H1 H2].
  { apply list_elem_of_In, elem_of_seqZ. lia. }
  exists (2 ^ w). split_and!; [done|lia..|]. rewrite H2. apply power_of_2_divide; [done| |].
  - exists w. split; [lia|done].
  - apply Z.divide_pos_le in Hd; lia.
Qed.

Lemma pool_index_spec level bytes a : power_of_2 a → 0 <= bytes → bytes + a <= 2 ^ 64 → (bytes = 0 → a <= 8) →
  ∃ i, get_pool_index level bytes a = Ret i ∧ 0 <= i <= 32 ∧
    (i < 32 → ∃ bs, block_sizes !! Z.to_nat i = Some bs ∧ bytes <= bs ∧ (a | natural_alignment bs)).
Proof.
  intros Ha Hb Hl Hz. pose proof (power_of_2_range a Ha).
  destruct (align_up_spec level bytes a Ha Hb Hl) as (size & E & Hs & Hd).
  unfold get_pool_index. rewrite E. cbn [mbind outcome_bind]. fold (size_index size). exists (size_index size).
  split; [done|]. destruct (decide (size = 0)) as [->|].
  { split; [vm_compute; split; discriminate|]. intros _. exists 8. split_and!; [done|lia|].
    apply power_of_2_divide; [done|by exists 3|]. change (natural_alignment 8) with 8. lia. }
  destruct (Z.lt_ge_cases size 4096); [destruct (size_index_small size a) as (bs & ? & ? & ? & ?); [lia|done..|]|].
  { split; [lia|]. intros _. exists bs. split_and!; [done|lia|done]. }
  destruct (Z.le_gt_cases size (2 ^ 22)).
  { destruct (size_index_large size a) as (bs & ? & ? & ? & ?); [lia|done..|].
    split; [lia|]. intros _. exists bs. split_and!; [done|lia|done]. }
  unfold size_index. rewrite (proj2 (Z.ltb_ge _ _)), (proj2 (Z.leb_gt _ _)) by lia.
  change (Z.of_nat (length block_sizes)) with 32. split; lia.
Qed.

(** Facts about the block sizes. *)
Definition block_size_ok (bs : Z) : Prop :=
  8 <= bs <= 2 ^ 22 ∧ (natural_alignment bs | bs) ∧ 8 <= natural_alignment bs ∧ power_of_2 (natural_alignment bs) ∧
  u64 (Z.shiftl 1 (countr_zero bs)) = natural_alignment bs ∧ natural_alignment bs <= 2 ^ 22.

Definition block_size_test (bs : Z) : bool :=
  (8 <=? bs) && (bs <=? 2 ^ 22) && (bs mod natural_alignment bs =? 0) && (3 <=? countr_zero bs) &&
  (countr_zero bs <=? 22) && (u64 (Z.shiftl 1 (countr_zero bs)) =? natural_alignment bs).

Lemma block_sizes_ok i bs : block_sizes !! i = Some bs → block_size_ok bs.
Proof.
  intros Hi%list_elem_of_lookup_2. assert (forallb block_size_test block_sizes = true) as Hall by by vm_compute.
  rewrite forallb_forall in Hall. specialize (Hall bs ltac:(by apply list_elem_of_In)). unfold block_size_test in Hall.
  rewrite !andb_true_iff in Hall. destruct Hall as [[[[[H1 H2] H3] H4] H5] H6]. reflect_bool.
  pose proof (Z.pow_le_mono_r 2 3 (countr_zero bs)). pose proof (Z.pow_le_mono_r 2 (countr_zero bs) 22).
  unfold block_size_ok, natural_alignment in *. split_and!; try lia.
  - by apply Z.mod_divide; [lia|].
  - exists (countr_zero bs). split; [lia|done].
Qed.

(** ** Free blocks *)

Fixpoint flist (m : mem) (head : Z) (l : list Z) : Prop :=
  match l with
  | [] => head = 0
  | p :: l => head = p ∧ 0 < p ∧ ∃ n, load p m = Ret n ∧ flist m n l
  end.

(** A block of a pool at [p]. *)
Definition cell (bs p : Z) : block := Block p bs 1.

Definition cell_ok (bs p : Z) : Prop := 0 < p ∧ p + bs < 2 ^ 62 ∧ (natural_alignment bs | p).

Lemma flist_keeps m m' bs l : ∀ h, 8 <= bs → keeps (λ x, cnt (cell bs <$> l) x ≠ 0%nat) m m' →
  flist m h l → flist m' h l.
Proof.
  induction l as [|p l IH]; intros h Hbs Hk; [done|]. intros (-> & Hp & n & Hn & Hl).
  cbn [fmap list_fmap cnt] in Hk. split_and!; [done..|]. exists n. split.
  - rewrite <- Hn. apply load_keeps. eapply keeps_impl; [|exact Hk]. intros x Hx. cbv beta.
    rewrite decide_True; [lia|]. unfold covers, cell. cbn. lia.
  - apply IH; [done| |done]. eapply keeps_impl; [|exact Hk]. intros x Hx. cbv beta. lia.
Qed.

Lemma flist_head m h l bs : 8 <= bs → flist m h l → Forall (cell_ok bs) l → 0 <= h < 2 ^ 64 ∧ (h = 0 ↔ l = []).
Proof.
  intros Hbs. destruct l as [|p l]; cbn [flist]; [intros -> _; split; [lia|done]|].
  intros (-> & Hp & _) [(? & ? & _) _]%Forall_cons. split; [lia|split; [lia|done]].
Qed.

(** ** Pools *)

(** The chunks of a pool, the blocks that clients hold and the free ones. *)
Record ghost := { g_chunks : list block; g_used : list block; g_free : list Z }.

Definition rest (p : pool) : block := Block (current_ p) (stop_ p - current_ p) 1.

Section Pool.
Context {U : Type} `{Lawful U} (level : assert_level).
Hypothesis Hmax : 2 ^ 63 + 2 ^ 62 + 96 <= max_bytes.

(** A block that the pool with the index [i] gave out. *)
Definition used_ok (i bs : Z) (b : block) : Prop :=
  block_ok (max_bytes - 96) b ∧ b_bytes b <= bs ∧ cell_ok bs (b_addr b) ∧
  get_pool_index level (b_bytes b) (b_align b) = Ret i.

Record pool_ok (i : Z) (m : mem) (p : pool) (g : ghost) : Prop := {
  k_size : block_size_ok (block_size_ p);
  k_chunks : Forall chunk_ok (g_chunks g);
  k_list : dseg m 0 (pool_chunks_ p) (g_chunks g) 0;
  k_flist : flist m (free_block_list_ p) (g_free g);
  k_free : Forall (cell_ok (block_size_ p)) (g_free g);
  k_used : Forall (used_ok i (block_size_ p)) (g_used g);
  k_rest : 0 <= current_ p <= stop_ p ∧ stop_ p < 2 ^ 62 ∧ (block_size_ p | stop_ p - current_ p) ∧
    (natural_alignment (block_size_ p) | current_ p) ∧ (current_ p < stop_ p → 0 < current_ p);
  k_count : 1 <= next_block_count_ p ∧ block_size_ p * next_block_count_ p <= max int64_t;
  k_cnt x : (cnt (cell (block_size_ p) ∘ b_addr <$> g_used g) x + cnt (cell (block_size_ p) <$> g_free g) x +
    cnt (rest p :: elems (g_chunks g)) x ≤ cnt (g_chunks g) x)%nat;
}.

(** The bytes that the pool reads. *)
Definition pool_reads (p : pool) (g : ghost) (x : Z) : Prop :=
  cnt (elems (g_chunks g)) x ≠ 0%nat ∨ cnt (cell (block_size_ p) <$> g_free g) x ≠ 0%nat.

Lemma pool_keeps i m m' p g : keeps (pool_reads p g) m m' → pool_ok i m p g → pool_ok i m' p g.
Proof.
  intros Hk []. split; try done.
  - eapply dseg_keeps; [|done]. eapply keeps_impl; [|exact Hk]. intros x Hx. by left.
  - eapply (flist_keeps _ _ (block_size_ p)); [apply k_size0| |done]. eapply keeps_impl; [|exact Hk]. intros x Hx. by right.
Qed.

(** A used block has no more bytes than a block of the pool. *)
Lemma used_le i bs l x : Forall (used_ok i bs) l → (cnt l x ≤ cnt (cell bs ∘ b_addr <$> l) x)%nat.
Proof.
  induction 1 as [|b l (_ & Hb & _) _ IH]; [done|]. cbn [fmap list_fmap cnt] in *.
  unfold covers, cell in *. cbn [b_addr b_bytes compose] in *. repeat case_decide; lia.
Qed.

(** A block of the pool, for a request that the pool serves. *)
Lemma cell_used i bs a bytes alignment :
  cell_ok bs a → bytes <= bs → (alignment | natural_alignment bs) → power_of_2 alignment →
  fits (max_bytes - 96) bytes alignment → get_pool_index level bytes alignment = Ret i →
  used_ok i bs (Block a bytes alignment).
Proof.
  intros (Ha & Hb & Hn) Hbs Hd Hp Hf Hi. pose proof Hf as (Hf0 & _). split; [|by split_and!].
  split_and!; cbn [b_addr b_bytes b_align]; [lia..| |done|done]. by etrans; [exact Hd|].
Qed.

Lemma take_block_spec i m p g bytes alignment : pool_ok i m p g → current_ p ≠ stop_ p →
  bytes <= block_size_ p → (alignment | natural_alignment (block_size_ p)) → power_of_2 alignment →
  fits (max_bytes - 96) bytes alignment → get_pool_index level bytes alignment = Ret i →
  ∃ p', take_block p = (current_ p, p') ∧ block_size_ p' = block_size_ p ∧
    pool_ok i m p' {| g_chunks := g_chunks g; g_used := Block (current_ p) bytes alignment :: g_used g; g_free := g_free g |}.
Proof.
  intros [] Hne Hbs Hd Hp Hf Hi. eexists. split; [done|]. split; [done|].
  destruct k_rest0 as (Hr & Hs & Hdiv & Hn & Hpos). pose proof k_size0 as (Hb8 & Hnb & _).
  assert (block_size_ p <= stop_ p - current_ p) as Hle by (apply Z.divide_pos_le in Hdiv; lia).
  assert (cell_ok (block_size_ p) (current_ p)) as Hcell by (split_and!; [lia..|done]).
  split; cbn [block_size_ pool_chunks_ free_block_list_ current_ stop_ next_block_count_ g_chunks g_used g_free]; try done.
  - constructor; [by apply cell_used|done].
  - rewrite u64_id by lia. split_and!; [lia..| | |lia].
    + replace (_ - _) with (stop_ p - current_ p - block_size_ p) by lia. by apply Z.divide_sub_r.
    + by apply Z.divide_add_r.
  - intros x. specialize (k_cnt0 x). unfold rest in *. cbn [current_ stop_]. rewrite u64_id by lia.
    pose proof (split_buffer (current_ p) (stop_ p - current_ p) 1 (current_ p) (block_size_ p)
      (current_ p + block_size_ p) (stop_ p - (current_ p + block_size_ p)) x) as Hsplit.
    cbn [cnt fmap list_fmap compose cell b_addr] in *. unfold cell in *. lia.
Qed.

(** A chunk with room for [n] bytes and its descriptor. *)
Lemma chunk_room c n s a x : 0 <= n → n + 24 <= s →
  (cnt [Block c n 1; elem_block (Block c s a)] x ≤ cnt [Block c s a] x)%nat.
Proof.
  intros. cbn [cnt]. unfold covers, elem_block, elem_addr. cbn [b_addr b_bytes]. repeat case_decide; lia.
Qed.

(** A new chunk is the rest of the pool. *)
Lemma new_chunk_ok i m m' u p g R F c s h max_blocks :
  let bs := block_size_ p in
  let size := bs * next_block_count_ p in
  let C := Block c s (internal_alignment (natural_alignment bs)) in
  pool_ok i m p g → current_ p = stop_ p → g_free g = [] → free_block_list_ p = 0 → 1 <= max_blocks →
  size + 24 <= s → chunk_ok C → inv u m' (C :: g_chunks g ++ R) F → dseg m' 0 h (C :: g_chunks g) 0 →
  c ≠ 0 ∧ u64 (c + size) ≠ c ∧
  pool_ok i m' {| block_size_ := bs;
      next_block_count_ := Z.min (Z.min (max int64_t / bs) max_blocks) (u64 (2 * next_block_count_ p));
      current_ := c; stop_ := u64 (c + size); free_block_list_ := free_block_list_ p; pool_chunks_ := h |}
    {| g_chunks := C :: g_chunks g; g_used := g_used g; g_free := [] |}.
Proof.
  clear Hmax. intros bs size C [] Hcs Hfree Hfree0 Hmb Hs HC Hi Hd. fold bs size in k_size0, k_count0.
  pose proof k_size0 as (Hb8 & Hnb & Hn8 & Hnp & Hsh & Hn22). destruct k_count0 as [Hc1 Hc2].
  change (max int64_t) with (2 ^ 63 - 1) in *.
  pose proof (inv_blocks _ _ _ _ Hi) as Hbl. apply Forall_cons in Hbl as [(B1 & B2 & B3 & _) _].
  cbn [b_addr b_bytes b_align C] in *.
  assert (next_block_count_ p <= 2 ^ 60) as Hc60 by nia. assert (0 < size) as Hpos by (unfold size; nia).
  assert (internal_alignment (natural_alignment bs) = natural_alignment bs) as Ea.
  { unfold internal_alignment, alignof_element. lia. }
  rewrite !u64_id by lia. split_and!; [lia..|].
  split; cbn [block_size_ pool_chunks_ free_block_list_ current_ stop_ next_block_count_ g_chunks g_used g_free]; try done.
  - by constructor.
  - split_and!; [lia..| | |lia].
    + replace (c + size - c) with size by lia. by exists (next_block_count_ p); unfold size; lia.
    + by rewrite <- Ea.
  - change (max int64_t) with (2 ^ 63 - 1). assert (1 <= (2 ^ 63 - 1) / bs) by (apply Z.div_le_lower_bound; lia).
    split; [lia|]. pose proof (Z.mul_div_le (2 ^ 63 - 1) bs ltac:(lia)). nia.
  - intros x. specialize (k_cnt0 x). rewrite Hfree in k_cnt0. unfold rest in *. cbn [current_ stop_].
    pose proof (chunk_room c size s (internal_alignment (natural_alignment bs)) x ltac:(lia) ltac:(lia)) as Hroom.
    replace (c + size - c) with size by lia. fold bs in k_cnt0.
    cbn [cnt fmap list_fmap elems] in *. unfold elems, C in *. lia.
Qed.

(** What a pool must not change: the blocks of the clients, and what belongs to
    others. *)
Definition pool_keeps_blocks (g : ghost) (R F : list block) (x : Z) : Prop :=
  cnt (R ++ F) x ≠ 0%nat ∨ cnt (g_used g) x ≠ 0%nat.

Lemma pool_blocks_untouched i m p g u R F x : pool_ok i m p g → inv u m (g_chunks g ++ R) F →
  pool_keeps_blocks g R F x → untouched (g_chunks g) R F x ∧ ¬ pool_reads p g x.
Proof.
  intros [] Hi Hx. specialize (k_cnt0 x). pose proof (inv_cnt _ _ _ _ x Hi) as Hc.
  pose proof (used_le i _ _ x k_used0) as Hu. unfold untouched, pool_reads, pool_keeps_blocks in *.
  cbn [cnt] in k_cnt0. rewrite !cnt_app in *. split; [split; lia|]. lia.
Qed.

Lemma pool_allocate_spec i m p g u R F max_blocks bytes alignment :
  pool_ok i m p g → inv u m (g_chunks g ++ R) F → 1 <= max_blocks →
  bytes <= block_size_ p → (alignment | natural_alignment (block_size_ p)) → power_of_2 alignment →
  fits (max_bytes - 96) bytes alignment → get_pool_index level bytes alignment = Ret i →
  ∃ a p' g' u' m', pool_allocate level max_blocks p (u, m) = Ret (a, p', (u', m')) ∧
    keeps (pool_keeps_blocks g R F) m m' ∧ block_size_ p' = block_size_ p ∧
    inv u' m' (g_chunks g' ++ R) F ∧ pool_ok i m' p' g' ∧
    match a with
    | Some a => a ≠ 0 ∧ g_used g' = Block a bytes alignment :: g_used g
    | None => g_used g' = g_used g
    end.
Proof using Hmax.
  intros Hok Hi Hmb Hbs Hd Ha Hf Hidx. pose proof Hok as []. unfold pool_allocate.
  destruct (flist_head m _ _ _ (proj1 (proj1 k_size0)) k_flist0 k_free0) as [Hh Hnil].
  destruct (Z.eqb_spec (free_block_list_ p) 0) as [E0|E0]; cbn [negb]; cycle 1.
  { destruct (g_free g) as [|a free] eqn:Efree; [by destruct E0; apply Hnil|].
    destruct k_flist0 as (Ea & Ha0 & n & Hn & Hl). unfold pop_front. rewrite (proj2 (Z.eqb_neq _ 0)) by done.
    rewrite Ea, Hn. apply Forall_cons in k_free0 as [Hcell Hfree].
    eexists (Some a), _, {| g_chunks := g_chunks g; g_used := Block a bytes alignment :: g_used g; g_free := free |}, u, m.
    split; [by destruct level|]. split_and!; [done..| |lia|done].
    split; cbn [block_size_ pool_chunks_ free_block_list_ current_ stop_ next_block_count_ g_chunks g_used g_free]; try done.
    - constructor; [by apply cell_used|done].
    - intros x. specialize (k_cnt0 x). unfold rest in *. cbn [current_ stop_ fmap list_fmap cnt compose b_addr] in *. lia. }
  destruct (Z.eqb_spec (current_ p) (stop_ p)) as [Ecs|Ecs]; cycle 1.
  { destruct (take_block_spec i m p g bytes alignment) as (p' & -> & Ebs & Hp'); [done..|].
    destruct k_rest0 as (? & _ & _ & _ & Hpos). specialize (Hpos ltac:(lia)).
    eexists (Some (current_ p)), p', {| g_chunks := g_chunks g; g_used := _ :: g_used g; g_free := g_free g |}, u, m.
    split_and!; try done; lia. }
  pose proof k_size0 as (Hb8 & Hnb & Hn8 & Hnp & Hsh & Hn22). destruct k_count0 as [Hc1 Hc2].
  change (max int64_t) with (2 ^ 63 - 1) in Hc2. rewrite Hsh, (u64_id (block_size_ p * next_block_count_ p)) by nia.
  destruct (chunk_allocate_spec level u m (g_chunks g) R F (pool_chunks_ p)
    (block_size_ p * next_block_count_ p) (natural_alignment (block_size_ p))) as (c & h & u' & m' & -> & Hk & Hc); try done.
  { split_and!; nia. }
  assert (keeps (pool_keeps_blocks g R F) m m') as Hk'.
  { eapply keeps_impl; [|exact Hk]. intros x Hx. by eapply pool_blocks_untouched. }
  assert (g_free g = []) as Efree by by apply Hnil. cbn [mbind outcome_bind]. destruct c as [c|].
  - destruct Hc as (s & _ & Hs & HC & Hi' & Hd').
    destruct (new_chunk_ok i m m' u' p g R F c s h max_blocks) as (Hc0 & Hcs & Hok'); try done.
    rewrite (proj2 (Z.eqb_neq c 0)) by done.
    destruct (take_block_spec i m' _ _ bytes alignment Hok') as (p' & E & Ebs & Hp'); try done.
    rewrite E. eexists (Some c), p', {| g_chunks := Block c s _ :: g_chunks g; g_used := _ :: g_used g; g_free := [] |}, u', m'.
    split; [by destruct level|]. split_and!; [done|done|exact Hi'|exact Hp'|done|done].
  - destruct Hc as (-> & Hi' & Hd'). eexists None, _, g, u', m'. split; [by destruct level|]. split_and!; try done.
    split; cbn [block_size_ pool_chunks_ free_block_list_ current_ stop_ next_block_count_]; try done.
    rewrite Efree. done.
Qed.

Lemma pool_used_perm i m p g used : g_used g ≡ₚ used → pool_ok i m p g →
  pool_ok i m p {| g_chunks := g_chunks g; g_used := used; g_free := g_free g |}.
Proof.
  intros Hu []. split; try done; cbn [g_chunks g_used g_free]; [by rewrite <- Hu|].
  intros x. specialize (k_cnt0 x). by rewrite <- Hu.
Qed.

Lemma pool_deallocate_spec i m p chunks b used free :
  pool_ok i m p {| g_chunks := chunks; g_used := b :: used; g_free := free |} → (∀ x, cnt chunks x ≤ 1)%nat →
  ∃ p' m', pool_deallocate level (b_addr b) p m = Ret (p', m') ∧ block_size_ p' = block_size_ p ∧
    keeps (λ x, ¬ covers (cell (block_size_ p) (b_addr b)) x) m m' ∧
    pool_ok i m' p' {| g_chunks := chunks; g_used := used; g_free := b_addr b :: free |}.
Proof.
  intros [] Hc. cbn [g_chunks g_used g_free] in *. destruct k_size0 as (Hb8 & Hsz).
  apply Forall_cons in k_used0 as [(_ & _ & Hcell & _) Hused]. pose proof Hcell as (Ha & _).
  destruct (flist_head m _ _ _ (proj1 Hb8) k_flist0 k_free0) as [Hh _].
  unfold pool_deallocate, push_front. rewrite (proj2 (Z.eqb_neq _ 0)) by lia.
  set (m' := store (b_addr b) (free_block_list_ p) (store (b_addr b) 0 m)).
  assert (keeps (λ x, ¬ covers (cell (block_size_ p) (b_addr b)) x) m m') as Hk.
  { intros x Hx. unfold covers, cell in Hx. cbn in Hx. unfold m'. rewrite !store_other by lia. done. }
  eexists _, m'. split; [by destruct level|]. split_and!; [done..|].
  assert (∀ x, cnt (elems chunks) x ≠ 0%nat ∨ cnt (cell (block_size_ p) <$> free) x ≠ 0%nat →
    ¬ covers (cell (block_size_ p) (b_addr b)) x) as Hout.
  { intros x Hx Hcov. specialize (k_cnt0 x). specialize (Hc x). cbn [fmap list_fmap cnt compose] in k_cnt0.
    rewrite decide_True in k_cnt0 by done. lia. }
  split; cbn [block_size_ pool_chunks_ free_block_list_ current_ stop_ next_block_count_ g_chunks g_used g_free]; try done.
  - eapply dseg_keeps; [|done]. eapply keeps_impl; [|exact Hk]. intros x Hx. apply Hout. by left.
  - cbn [flist]. split_and!; [done|lia|]. exists (free_block_list_ p). split; [by apply load_store|].
    eapply (flist_keeps _ _ (block_size_ p)); [lia| |done]. eapply keeps_impl; [|exact Hk]. intros x Hx. apply Hout. by right.
  - by constructor.
  - intros x. specialize (k_cnt0 x). unfold rest in *. cbn [current_ stop_ fmap list_fmap cnt compose] in *. lia.
Qed.

(** ** The counts of a pool *)

Definition meta (bs : Z) (g : ghost) : list block := elems (g_chunks g) ++ (cell bs <$> g_free g).

Lemma pool_bound i m p g x : pool_ok i m p g →
  (cnt (g_used g) x + cnt (meta (block_size_ p) g) x ≤ cnt (g_chunks g) x)%nat.
Proof.
  intros []. specialize (k_cnt0 x). pose proof (used_le i _ _ x k_used0). unfold meta. rewrite cnt_app.
  cbn [cnt] in *. lia.
Qed.

Lemma pool_reads_meta p g x : pool_reads p g x ↔ cnt (meta (block_size_ p) g) x ≠ 0%nat.
Proof. unfold pool_reads, meta. rewrite cnt_app. lia. Qed.

End Pool.

End PoolResourceSpec.
