(* ===== verification/PoolResourceLaw.v ===== *)
(** * Memory resources: programs that use a pool resource

    The invariant of the resource with all its pools and big blocks, and the
    theorem on programs. *)

From stdpp Require Import gmap.
From S2P Require Import Prelude CppInt CircularBuffer PmrMemory PmrClient ChunkList NewDeleteResource MonotonicResource PoolResource PoolResourceSpec.

Local Open Scope Z_scope.

Module PoolResourceLaw.
Import PmrMemory PmrClient ChunkList NewDeleteResource MonotonicResource PoolResource PoolResourceSpec.

(** ** Lists with an element in front *)

Lemma concat_delete {A} (f : A → list block) (l : list A) i a :
  l !! i = Some a → concat (f <$> l) ≡ₚ f a ++ concat (f <$> delete i l).
Proof.
  intros (l1 & l2 & -> & ->)%list_elem_of_split_length. rewrite delete_middle, !fmap_app, !concat_app.
  cbn [fmap list_fmap concat]. rewrite !app_assoc. by rewrite (Permutation_app_comm (f a)).
Qed.

Lemma delete_insert_list {A} (l : list A) i a : delete i (<[i := a]> l) = delete i l.
Proof.
  destruct (l !! i) as [b|] eqn:Ei; [|by rewrite list_insert_ge by by apply lookup_ge_None].
  apply list_elem_of_split_length in Ei as (l1 & l2 & -> & ->). rewrite insert_app_r_alt, Nat.sub_diag by done.
  cbn [insert list_insert]. by rewrite !delete_middle.
Qed.

Definition chunks_of (l : list (pool * ghost)) : list block := concat ((λ pg, g_chunks pg.2) <$> l).
Definition used_of (l : list (pool * ghost)) : list block := concat ((λ pg, g_used pg.2) <$> l).
Definition meta_of (l : list (pool * ghost)) : list block := concat ((λ pg, meta (block_size_ pg.1) pg.2) <$> l).

(** The block of the array of pools. *)
Definition array_of (r : unsynchronized_pool_resource) : list block :=
  if pools_ r =? 0 then [] else [Block (pools_ r) (48 * pool_count_ r) 8].

Section Resource.
Context {U : Type} `{Lawful U} (level : assert_level).
Hypothesis Hmax : 2 ^ 63 + 2 ^ 62 + 96 <= max_bytes.

Definition pools_ok (m : mem) (l : list (pool * ghost)) : Prop :=
  ∀ i pg, l !! i = Some pg →
    pool_ok level (Z.of_nat i) m pg.1 pg.2 ∧ block_sizes !! i = Some (block_size_ pg.1).

(** The used blocks of a pool and what it reads lie in its chunks. *)
Definition bounded (x : Z) (pg : pool * ghost) : Prop :=
  (cnt (g_used pg.2) x + cnt (meta (block_size_ pg.1) pg.2) x ≤ cnt (g_chunks pg.2) x)%nat.

Lemma pools_bounded m l x : pools_ok m l → Forall (bounded x) l.
Proof. intros Hl. apply Forall_lookup. intros i pg Hi. destruct (Hl i pg Hi) as [Hp _]. by eapply pool_bound. Qed.

Lemma bounded_sum l x : Forall (bounded x) l → (cnt (used_of l) x + cnt (meta_of l) x ≤ cnt (chunks_of l) x)%nat.
Proof.
  unfold used_of, meta_of, chunks_of, bounded. induction 1 as [|pg l Hpg _ IH]; [done|].
  cbn [fmap list_fmap concat]. rewrite !cnt_app. lia.
Qed.

Lemma pools_bound m l x : pools_ok m l → (cnt (used_of l) x + cnt (meta_of l) x ≤ cnt (chunks_of l) x)%nat.
Proof. intros Hl. by eapply bounded_sum, pools_bounded. Qed.

Lemma meta_elem l i pg x : l !! i = Some pg → (cnt (meta (block_size_ pg.1) pg.2) x ≤ cnt (meta_of l) x)%nat.
Proof.
  intros Hi. unfold meta_of. rewrite (concat_delete (λ pg, meta (block_size_ pg.1) pg.2) l i pg Hi), cnt_app. lia.
Qed.

(** The pools do not depend on other bytes. *)
Lemma pools_keeps m m' l : keeps (λ x, cnt (meta_of l) x ≠ 0%nat) m m' → pools_ok m l → pools_ok m' l.
Proof.
  intros Hk Hl i pg Hi. destruct (Hl i pg Hi) as [Hp Hs]. split; [|done]. eapply pool_keeps; [|done].
  eapply keeps_impl; [|exact Hk]. intros x Hx. cbv beta in *. apply pool_reads_meta in Hx. pose proof (meta_elem l i pg x Hi). lia.
Qed.

(** One pool changes, and the bytes of the others stay. *)
Lemma pools_insert m m' l i p g p' g' : pools_ok m l → l !! i = Some (p, g) →
  keeps (λ x, cnt (meta_of (delete i l)) x ≠ 0%nat) m m' → pool_ok level (Z.of_nat i) m' p' g' →
  block_size_ p' = block_size_ p → pools_ok m' (<[i := (p', g')]> l).
Proof.
  intros Hl Hi Hk Hp Hbs j pg Hj. destruct (decide (i = j)) as [<-|Hne].
  - rewrite list_lookup_insert_eq in Hj by by eapply lookup_lt_Some. injection Hj as <-. cbn [fst snd].
    split; [done|]. rewrite Hbs. by apply (Hl i (p, g)).
  - rewrite list_lookup_insert_ne in Hj by done. destruct (Hl j pg Hj) as [Hpj Hs]. split; [|done].
    eapply pool_keeps; [|done]. eapply keeps_impl; [|exact Hk]. intros x Hx. cbv beta in *. apply pool_reads_meta in Hx.
    assert (∃ k, delete i l !! k = Some pg) as [k Hdel].
    { destruct (decide (j < i)%nat); [exists j; by rewrite list_lookup_delete_lt|].
      exists (pred j). rewrite list_lookup_delete_ge by lia. by replace (S (pred j)) with j by lia. }
    pose proof (meta_elem (delete i l) k pg x Hdel). lia.
Qed.

(** A block that is too large for the pools, and its chunk. *)
Definition big_ok (r : unsynchronized_pool_resource) (bc : block * block) : Prop :=
  ∃ s, bc.2 = Block (b_addr bc.1) s (internal_alignment (b_align bc.1)) ∧
    internal_size level (b_bytes bc.1) = Ret s ∧ b_bytes bc.1 + 24 <= s ∧
    block_ok (max_bytes - 96) bc.1 ∧
    ∃ i, get_pool_index level (b_bytes bc.1) (b_align bc.1) = Ret i ∧ pool_count_ r <= i.

Record resource_ok (ru : unsynchronized_pool_resource * U) (m : mem) (L F : list block)
    (l : list (pool * ghost)) (bigs : list (block * block)) : Prop := {
  r_count : 1 <= pool_count_ ru.1 <= 32 ∧ 1 <= max_blocks_per_chunk ru.1;
  r_array : 0 <= pools_ ru.1 ∧ length l = if pools_ ru.1 =? 0 then 0%nat else Z.to_nat (pool_count_ ru.1);
  r_objects : pool_objects ru.1 = l.*1;
  r_pools : pools_ok m l;
  r_big : Forall (big_ok ru.1) bigs ∧ Forall chunk_ok bigs.*2;
  r_big_list : dseg m 0 (big_blocks_ ru.1) bigs.*2 0;
  r_upstream : inv ru.2 m (array_of ru.1 ++ chunks_of l ++ bigs.*2) F;
  r_client : L ≡ₚ used_of l ++ bigs.*1;
}.

Definition pool_resource_inv ru m L F : Prop := ∃ l bigs, resource_ok ru m L F l bigs.

Lemma bigs_bound r bigs x : Forall (big_ok r) bigs → (cnt bigs.*1 x + cnt (elems bigs.*2) x ≤ cnt bigs.*2 x)%nat.
Proof.
  induction 1 as [|[b c] bigs (s & Ec & _ & Hs & (_ & _ & _ & _ & Hb & _) & _) _ IH]; [done|].
  cbn [fst snd] in *. subst c. cbn [fmap list_fmap cnt elems fst snd]. unfold elems in *.
  pose proof (chunk_room (b_addr b) (b_bytes b) s (internal_alignment (b_align b)) x Hb Hs) as Hr.
  cbn [cnt] in Hr. unfold covers in *. cbn [b_addr b_bytes] in *. repeat case_decide; lia.
Qed.

(** Everything that the resource uses, in what it got. *)
Lemma resource_bound ru m L F l bigs x : resource_ok ru m L F l bigs →
  (cnt L x + cnt (meta_of l) x + cnt (elems bigs.*2) x + cnt F x ≤ 1)%nat ∧
  (cnt L x + cnt (meta_of l) x + cnt (elems bigs.*2) x ≤ cnt (chunks_of l ++ bigs.*2) x)%nat.
Proof.
  intros []. pose proof (inv_cnt _ _ _ _ x r_upstream0) as Hc. pose proof (pools_bound m l x r_pools0).
  pose proof (bigs_bound ru.1 bigs x (proj1 r_big0)). rewrite r_client0, !cnt_app in *. lia.
Qed.

Lemma resource_frame ru m m' L F : keeps (λ x, cnt (L ++ F) x = 0%nat) m m' →
  pool_resource_inv ru m L F → pool_resource_inv ru m' L F.
Proof.
  intros Hk (l & bigs & Hok). pose proof (resource_bound ru m L F l bigs) as Hb. destruct Hok as [].
  assert (resource_ok ru m L F l bigs) as Hok by by split.
  exists l, bigs. split; try done.
  - eapply pools_keeps; [|done]. eapply keeps_impl; [|exact Hk]. intros x Hx. destruct (Hb x Hok). cbv beta.
    rewrite cnt_app. lia.
  - eapply dseg_keeps; [|done]. eapply keeps_impl; [|exact Hk]. intros x Hx. destruct (Hb x Hok). cbv beta.
    rewrite cnt_app. lia.
  - eapply inv_frame; [|done]. eapply keeps_impl; [|exact Hk]. intros x Hx. destruct (Hb x Hok). cbv beta in *.
    rewrite !cnt_app in *. lia.
Qed.

(** ** Construction *)

Lemma block_size_at_spec i : 0 <= i < 32 → ∃ bs, block_sizes !! Z.to_nat i = Some bs ∧ block_size_at i = Ret bs.
Proof.
  intros Hi. destruct (lookup_lt_is_Some_2 block_sizes (Z.to_nat i)) as [bs Hbs].
  { change (length block_sizes) with 32%nat. lia. }
  exists bs. split; [done|]. unfold block_size_at. by rewrite decide_True, Hbs by lia.
Qed.

Lemma make_pool_resource_spec max_blocks largest u m F :
  0 <= max_blocks → 0 <= largest → inv u m [] F →
  ∃ r, make_pool_resource level max_blocks largest = Ret r ∧ pool_resource_inv (r, u) m [] F.
Proof.
  intros Hm Hl Hi. unfold make_pool_resource.
  set (n := Z.min (if largest =? 0 then 8192 else largest) (2 ^ 22)).
  assert (0 < n <= 2 ^ 22) as Hn by (unfold n; destruct (Z.eqb_spec largest 0); lia).
  destruct (align_up_spec level n 1) as (s & Es & Hs & _); [by exists 0|lia..|]. assert (s = n) as -> by lia.
  unfold get_pool_index. rewrite Es. cbn [mbind outcome_bind]. fold (size_index n).
  assert (0 <= size_index n < 32) as Hidx.
  { assert (power_of_2 1) as H1 by by exists 0. assert (1 | n) as Hd by apply Z.divide_1_l.
    destruct (Z.lt_ge_cases n 4096); [destruct (size_index_small n 1) as (? & ? & ? & _)|
      destruct (size_index_large n 1) as (? & ? & ? & _)]; (done || lia). }
  replace (size_index n + 1 - 1) with (size_index n) by lia.
  destruct (block_size_at_spec (size_index n) Hidx) as (bs & _ & ->). cbn [mbind outcome_bind].
  eexists. split; [done|]. exists [], []. split; cbn [fst snd pool_count_ max_blocks_per_chunk pools_ pool_objects big_blocks_]; try done.
  split; [lia|]. destruct (Z.eqb_spec max_blocks 0); lia.
Qed.

Lemma construct_pools_spec n : ∀ i max_blocks, 0 <= i → i + Z.of_nat n <= 32 →
  ∃ ps, construct_pools n i max_blocks = Ret ps ∧ length ps = n ∧
    ∀ j p, ps !! j = Some p → ∃ bs, block_sizes !! (Z.to_nat i + j)%nat = Some bs ∧
      p = pool_construct bs (Z.min (Z.max 1 (4096 / bs)) max_blocks).
Proof.
  induction n as [|n IH]; intros i max_blocks Hi Hn; cbn [construct_pools]; [by exists []|].
  destruct (block_size_at_spec i) as (bs & Hbs & ->); [lia|]. cbn [mbind outcome_bind].
  destruct (IH (i + 1) max_blocks) as (ps & -> & Hlen & Hps); [lia..|]. cbn [mbind outcome_bind].
  eexists. split; [done|]. split; [simpl; lia|]. intros [|j] p; cbn [lookup list_lookup].
  - intros [= <-]. exists bs. by rewrite Nat.add_0_r.
  - intros (bs' & Hb & ->)%Hps. exists bs'. split; [|done]. rewrite <- Hb. f_equal. lia.
Qed.

Definition no_blocks : ghost := {| g_chunks := []; g_used := []; g_free := [] |}.

Lemma new_pool_ok i m bs max_blocks : block_size_ok bs → 1 <= max_blocks →
  pool_ok level i m (pool_construct bs (Z.min (Z.max 1 (4096 / bs)) max_blocks)) no_blocks.
Proof.
  clear Hmax. intros Hbs Hm. pose proof Hbs as (Hb8 & _).
  split; cbn [block_size_ next_block_count_ current_ stop_ free_block_list_ pool_chunks_ pool_construct no_blocks g_chunks g_used g_free];
    try done.
  - split_and!; try done; try lia; apply Z.divide_0_r.
  - change (max int64_t) with (2 ^ 63 - 1). pose proof (Z.mul_div_le 4096 bs ltac:(lia)). split; [lia|].
    assert (bs * Z.max 1 (4096 / bs) <= 2 ^ 22) by (destruct (Z.le_gt_cases 1 (4096 / bs)); [rewrite Z.max_r by lia|rewrite Z.max_l by lia]; lia).
    pose proof (Z.div_pos 4096 bs). nia.
  - intros x. unfold rest. cbn. destruct (decide _) as [Hc|]; [|lia]. unfold covers in Hc. cbn in Hc. lia.
Qed.

Lemma new_pools_empty ps :
  used_of ((λ p, (p, no_blocks)) <$> ps) = [] ∧ chunks_of ((λ p, (p, no_blocks)) <$> ps) = [].
Proof. induction ps as [|p ps [IH1 IH2]]; [done|]. split; [exact IH1|exact IH2]. Qed.

Lemma allocate_pools_spec r u m L F bigs : resource_ok (r, u) m L F [] bigs → pools_ r = 0 →
  ∃ ok r' u' m' l', allocate_pools level r (u, m) = Ret (ok, r', (u', m')) ∧
    resource_ok (r', u') m' L F l' bigs ∧ keeps (λ x, cnt (L ++ F) x ≠ 0%nat) m m' ∧
    pool_count_ r' = pool_count_ r ∧ (ok = true → pools_ r' ≠ 0).
Proof using Hmax.
  intros Hok E0. pose proof (resource_bound (r, u) m L F [] bigs) as Hb. pose proof Hok as [].
  cbn [fst snd] in *. destruct r_count0 as [Hcount Hmb]. unfold allocate_pools, sizeof_pool, alignof_pool.
  rewrite E0, u64_id by lia. cbn [Z.eqb].
  destruct (allocate_law level u m (array_of r ++ chunks_of [] ++ bigs.*2) F (48 * pool_count_ r) 8)
    as (a & u' & m' & E & Hk & Ha); [done|by exists 3|split_and!; lia|].
  rewrite E. cbn [mbind outcome_bind].
  assert (keeps (λ x, cnt (L ++ F) x ≠ 0%nat) m m' ∧ dseg m' 0 (big_blocks_ r) bigs.*2 0) as [HkL Hd'].
  { split; [|eapply dseg_keeps; [|done]]; (eapply keeps_impl; [|exact Hk]); intros x Hx; destruct (Hb x Hok) as [_ Hx'];
      cbv beta in *; rewrite !cnt_app in *; lia. }
  destruct a as [a|]; cycle 1.
  { exists false, r, u', m', []. split; [by destruct level|]. split_and!; try done. }
  destruct Ha as [Hi (Ha0 & _)]. cbn [b_addr] in Ha0. rewrite (proj2 (Z.eqb_neq a 0)) by lia.
  destruct (construct_pools_spec (Z.to_nat (pool_count_ r)) 0 (max_blocks_per_chunk r)) as (ps & Eps & Hlen & Hps); [lia..|].
  rewrite Eps. cbn [mbind outcome_bind]. exists true, (set_pools a ps r), u', m', ((λ p, (p, no_blocks)) <$> ps).
  split; [by destruct level|]. split_and!; [|done|done|cbn; lia]. destruct (new_pools_empty ps) as [E1 E2].
  split; cbn [fst snd pool_count_ max_blocks_per_chunk pools_ pool_objects big_blocks_ set_pools]; try done.
  - rewrite length_fmap, (proj2 (Z.eqb_neq a 0)) by lia. split; [lia|done].
  - rewrite <- list_fmap_compose. symmetry. apply list_fmap_id.
  - intros i pg. rewrite list_lookup_fmap. destruct (ps !! i) as [p|] eqn:Ei; [|done]. intros [= <-].
    destruct (Hps i p Ei) as (bs & Hbs & ->). cbn [fst snd block_size_ pool_construct]. split; [|done].
    apply new_pool_ok; [by eapply block_sizes_ok|done].
  - rewrite E2. unfold array_of in *. cbn [pools_ pool_count_ set_pools]. rewrite (proj2 (Z.eqb_neq a 0)) by lia.
    rewrite E0 in Hi. done.
  - by rewrite E1.
Qed.

(** ** Allocation *)

(** The blocks of the clients and the other pools belong to the rest, for one
    pool. *)
Lemma other_pools_bound m l i x : pools_ok m l →
  (cnt (used_of (delete i l)) x + cnt (meta_of (delete i l)) x ≤ cnt (chunks_of (delete i l)) x)%nat.
Proof. intros Hl. apply bounded_sum, Forall_delete. by eapply pools_bounded. Qed.

Lemma chunks_of_insert l i p g p' g' : l !! i = Some (p, g) →
  chunks_of (<[i := (p', g')]> l) ≡ₚ g_chunks g' ++ chunks_of (delete i l) ∧
  used_of (<[i := (p', g')]> l) ≡ₚ g_used g' ++ used_of (delete i l).
Proof.
  intros Hi. assert (<[i := (p', g')]> l !! i = Some (p', g')) as Hi'.
  { apply list_lookup_insert_eq. by eapply lookup_lt_Some. }
  unfold chunks_of, used_of.
  rewrite (concat_delete (λ pg, g_chunks pg.2) _ i _ Hi'), (concat_delete (λ pg, g_used pg.2) _ i _ Hi').
  by rewrite delete_insert_list.
Qed.

(** One pool with its chunks, in front of the rest. *)
Definition rest_of (r : unsynchronized_pool_resource) (l : list (pool * ghost)) (i : nat) (bigs : list (block * block)) :
  list block := array_of r ++ chunks_of (delete i l) ++ bigs.*2.

Lemma pool_in_front r u m L F l bigs i p g : resource_ok (r, u) m L F l bigs → l !! i = Some (p, g) →
  inv u m (g_chunks g ++ rest_of r l i bigs) F ∧ L ≡ₚ g_used g ++ used_of (delete i l) ++ bigs.*1.
Proof.
  intros [] Hi. cbn [fst snd] in *. split.
  - eapply inv_perm; [|done|exact r_upstream0]. unfold rest_of, chunks_of.
    rewrite (concat_delete (λ pg, g_chunks pg.2) l i _ Hi). cbn [snd]. rewrite !app_assoc.
    by rewrite (Permutation_app_comm (array_of r)).
  - rewrite r_client0. unfold used_of. rewrite (concat_delete (λ pg, g_used pg.2) l i _ Hi). cbn [snd].
    by rewrite app_assoc.
Qed.

(** The other pools, the big blocks and their clients use the rest. *)
Lemma rest_covers r u m L F l bigs i x : resource_ok (r, u) m L F l bigs →
  cnt (used_of (delete i l) ++ bigs.*1) x ≠ 0%nat ∨ cnt (meta_of (delete i l)) x ≠ 0%nat ∨ cnt (elems bigs.*2) x ≠ 0%nat →
  cnt (rest_of r l i bigs) x ≠ 0%nat.
Proof.
  intros [] Hx. cbn [fst snd] in *. pose proof (other_pools_bound m l i x r_pools0).
  pose proof (bigs_bound r bigs x (proj1 r_big0)). unfold rest_of. rewrite !cnt_app in *. lia.
Qed.

(** The resource after a call of one pool. *)
Lemma pool_updated r u m L F l bigs i p g u' m' p' g' L' :
  resource_ok (r, u) m L F l bigs → l !! i = Some (p, g) →
  keeps (λ x, cnt (rest_of r l i bigs) x ≠ 0%nat) m m' → block_size_ p' = block_size_ p →
  inv u' m' (g_chunks g' ++ rest_of r l i bigs) F → pool_ok level (Z.of_nat i) m' p' g' →
  L' ≡ₚ g_used g' ++ used_of (delete i l) ++ bigs.*1 →
  pool_resource_inv (set_pools (pools_ r) (<[i := p']> (pool_objects r)) r, u') m' L' F.
Proof.
  intros Hok Hi Hk Hbs Hinv Hp HL'. pose proof (rest_covers r u m L F l bigs i) as Hall. pose proof Hok as [].
  destruct (chunks_of_insert l i p g p' g' Hi) as [E1 E2]. cbn [fst snd] in *.
  exists (<[i := (p', g')]> l), bigs.
  split; cbn [fst snd pool_count_ max_blocks_per_chunk pools_ pool_objects big_blocks_ set_pools]; try done.
  - by rewrite length_insert.
  - rewrite list_fmap_insert. by rewrite r_objects0.
  - eapply pools_insert; [done..| | |done]; [|done]. eapply keeps_impl; [|exact Hk]. intros x Hx. apply Hall; auto.
  - eapply dseg_keeps; [|done]. eapply keeps_impl; [|exact Hk]. intros x Hx. apply Hall; auto.
  - change (array_of (set_pools _ _ _)) with (array_of r). eapply inv_perm; [|done|exact Hinv].
    unfold rest_of. rewrite E1, !app_assoc. by rewrite (Permutation_app_comm (array_of r)).
  - by rewrite E2, <- app_assoc.
Qed.

Lemma allocate_in_pool r u m L F l bigs i bs bytes alignment :
  resource_ok (r, u) m L F l bigs → pools_ r ≠ 0 → 0 <= i < pool_count_ r →
  power_of_2 alignment → fits (max_bytes - 96) bytes alignment → get_pool_index level bytes alignment = Ret i →
  block_sizes !! Z.to_nat i = Some bs → bytes <= bs → (alignment | natural_alignment bs) →
  ∃ p a p' u' m', pool_objects r !! Z.to_nat i = Some p ∧
    pool_allocate level (max_blocks_per_chunk r) p (u, m) = Ret (a, p', (u', m')) ∧ a ≠ Some 0 ∧
    keeps (λ x, cnt (L ++ F) x ≠ 0%nat) m m' ∧
    pool_resource_inv (set_pools (pools_ r) (<[Z.to_nat i := p']> (pool_objects r)) r, u') m'
      (match a with Some a => [Block a bytes alignment] | None => [] end ++ L) F.
Proof using Hmax.
  intros Hok H0' Hi Ha Hf Hidx Hbs Hb Hd. pose proof Hok as []. cbn [fst snd] in *.
  assert (∃ pg, l !! Z.to_nat i = Some pg) as [[p g] Hl].
  { apply lookup_lt_is_Some_2. rewrite (proj2 r_array0), (proj2 (Z.eqb_neq _ 0)) by done. lia. }
  destruct (r_pools0 _ _ Hl) as [Hp Hs]. cbn [fst snd] in *. rewrite Hbs in Hs. injection Hs as Ebs.
  rewrite Z2Nat.id in Hp by lia. destruct (pool_in_front r u m L F l bigs _ p g Hok Hl) as [Hinv HL].
  destruct (pool_allocate_spec level Hmax i m p g u (rest_of r l (Z.to_nat i) bigs) F (max_blocks_per_chunk r) bytes alignment)
    as (a & p' & g' & u' & m' & E & Hk & Ebs' & Hi' & Hp' & Ha'); try done; try (by rewrite <- Ebs); [lia|].
  exists p, a, p', u', m'. split_and!; [|done|by destruct a as [a|]; [destruct Ha' as [? _]; congruence|]| |].
  - by rewrite r_objects0, list_lookup_fmap, Hl.
  - eapply keeps_impl; [|exact Hk]. intros x Hx. pose proof (rest_covers r u m L F l bigs (Z.to_nat i) x Hok).
    unfold pool_keeps_blocks. cbv beta in Hx. rewrite HL, !cnt_app in *. lia.
  - eapply pool_updated; [done..| |done|done|by rewrite Z2Nat.id by lia|].
    { eapply keeps_impl; [|exact Hk]. intros x Hx. left. cbv beta in Hx. rewrite cnt_app. lia. }
    rewrite HL.
    destruct a as [a|]; [destruct Ha' as [_ ->]|rewrite Ha']; done.
Qed.

(** What the list of the big blocks leaves alone. *)
Lemma bigs_untouched r u m m' L F l bigs A x : Forall (big_ok r) bigs → pools_ok m l →
  inv u m' (bigs.*2 ++ A ++ chunks_of l) F → L ≡ₚ bigs.*1 ++ used_of l →
  cnt (L ++ F) x ≠ 0%nat ∨ cnt (meta_of l) x ≠ 0%nat → untouched bigs.*2 (A ++ chunks_of l) F x.
Proof.
  intros Hb Hl Hi HL Hx. pose proof (bigs_bound r bigs x Hb). pose proof (pools_bound m l x Hl).
  pose proof (inv_cnt _ _ _ _ x Hi). unfold untouched. rewrite !cnt_app, ?HL, ?cnt_app in *. lia.
Qed.

Lemma bigs_in_front r u m L F l bigs : resource_ok (r, u) m L F l bigs →
  inv u m (bigs.*2 ++ array_of r ++ chunks_of l) F.
Proof.
  intros []. eapply inv_perm; [|done|exact r_upstream0]. cbn [fst]. rewrite app_assoc. apply Permutation_app_comm.
Qed.

(** The resource after a call of the list of big blocks. *)
Lemma bigs_updated r u m L F l bigs h u' m' bigs' L' : resource_ok (r, u) m L F l bigs →
  keeps (λ x, cnt (meta_of l) x ≠ 0%nat) m m' → Forall (big_ok r) bigs' → Forall chunk_ok bigs'.*2 →
  dseg m' 0 h bigs'.*2 0 → inv u' m' (bigs'.*2 ++ array_of r ++ chunks_of l) F →
  L' ≡ₚ bigs'.*1 ++ used_of l → pool_resource_inv (set_big h r, u') m' L' F.
Proof.
  intros [] Hk Hb Hc Hd Hi HL. exists l, bigs'.
  split; cbn [fst snd pool_count_ max_blocks_per_chunk pools_ pool_objects big_blocks_ set_big] in *; try done.
  - by eapply pools_keeps.
  - eapply inv_perm; [|done|exact Hi]. rewrite (app_assoc _ (chunks_of l) bigs'.*2). apply Permutation_app_comm.
  - rewrite HL. apply Permutation_app_comm.
Qed.

Lemma allocate_big r u m L F l bigs i bytes alignment :
  resource_ok (r, u) m L F l bigs → power_of_2 alignment → fits (max_bytes - 96) bytes alignment →
  get_pool_index level bytes alignment = Ret i → pool_count_ r <= i →
  ∃ a h u' m', chunk_allocate level bytes alignment (big_blocks_ r) (u, m) = Ret (a, h, (u', m')) ∧ a ≠ Some 0 ∧
    keeps (λ x, cnt (L ++ F) x ≠ 0%nat) m m' ∧
    pool_resource_inv (set_big h r, u') m' (match a with Some a => [Block a bytes alignment] | None => [] end ++ L) F.
Proof.
  intros Hok Ha Hf Hidx Hi. pose proof (bigs_in_front _ _ _ _ _ _ _ Hok) as Hi0.
  pose proof Hok as []. cbn [fst snd] in *.
  assert (L ≡ₚ bigs.*1 ++ used_of l) as HL by (rewrite r_client0; apply Permutation_app_comm).
  pose proof (λ x, bigs_untouched r u m m L F l bigs (array_of r) x (proj1 r_big0) r_pools0 Hi0 HL) as Hun.
  destruct (chunk_allocate_spec level u m bigs.*2 (array_of r ++ chunks_of l) F (big_blocks_ r) bytes alignment)
    as (a & h & u' & m' & E & Hk & Ha'); [done|by destruct r_big0|done..|].
  exists a, h, u', m'. assert (keeps (λ x, cnt (meta_of l) x ≠ 0%nat) m m') as Hkm.
  { eapply keeps_impl; [|exact Hk]. intros x Hx. apply Hun; auto. }
  assert (keeps (λ x, cnt (L ++ F) x ≠ 0%nat) m m') as HkL.
  { eapply keeps_impl; [|exact Hk]. intros x Hx. apply Hun; auto. }
  destruct r_big0 as [Hb Hc]. destruct a as [a|].
  - destruct Ha' as (s & Es & Hs & Hco & Hinv & Hd). pose proof (inv_blocks _ _ _ _ Hinv) as Hbl.
    apply Forall_inv in Hbl as (Ha0 & Hlim & Hdiv & Hap & Hfit). cbn [b_addr b_bytes b_align] in *.
    split_and!; [done|intros [= ->]; lia|done|].
    apply (bigs_updated r u m L F l bigs h u' m' ((Block a bytes alignment, Block a s (internal_alignment alignment)) :: bigs));
      cbn [fmap list_fmap fst snd app]; try done.
    + constructor; [|done]. exists s. cbn [fst snd b_addr b_bytes b_align]. split_and!; try done; [|by exists i].
      split_and!; cbn [b_addr b_bytes b_align]; try done; [lia|].
      etrans; [|exact Hdiv]. by destruct (internal_alignment_power alignment Ha) as (_ & _ & ?).
    + by constructor.
    + by rewrite HL.
  - destruct Ha' as (-> & Hinv & Hd). split_and!; [done..|].
    by apply (bigs_updated r u m L F l bigs _ u' m' bigs).
Qed.

Lemma pool_resource_allocate_law ru m L F bytes alignment :
  pool_resource_inv ru m L F → power_of_2 alignment → fits (max_bytes - 96) bytes alignment →
  ∃ a ru' m', pool_resource_allocate level bytes alignment (ru, m) = Ret (a, (ru', m')) ∧
    keeps (λ x, cnt (L ++ F) x ≠ 0%nat) m m' ∧
    pool_resource_inv ru' m' (match a with Some a => [Block a bytes alignment] | None => [] end ++ L) F.
Proof using Hmax.
  destruct ru as [r u]. intros (l & bigs & Hok) Ha Hf. pose proof Hf as (Hb0 & _ & Hb1 & Hz). pose proof max_bytes_le.
  unfold pool_resource_allocate. rewrite has_single_bit_power by done.
  destruct (pool_index_spec level bytes alignment) as (i & Ei & Hi & Hbs); [done|lia|lia|done|].
  rewrite Ei. cbn [mbind outcome_bind]. destruct (Z.leb_spec (pool_count_ r) i) as [Hbig|Hsmall].
  { destruct (allocate_big r u m L F l bigs i bytes alignment) as (a & h & u' & m' & -> & Ha0 & Hk & Hinv); [done..|].
    cbn [mbind outcome_bind]. rewrite bool_decide_true by done. exists a, (set_big h r, u'), m'. by destruct level. }
  assert (∃ ok r1 u1 m1 l1, (if pools_ r =? 0 then allocate_pools level r (u, m) else Ret (true, r, (u, m))) = Ret (ok, r1, (u1, m1)) ∧
    resource_ok (r1, u1) m1 L F l1 bigs ∧ keeps (λ x, cnt (L ++ F) x ≠ 0%nat) m m1 ∧
    pool_count_ r1 = pool_count_ r ∧ (ok = true → pools_ r1 ≠ 0)) as (ok & r1 & u1 & m1 & l1 & E1 & Hok1 & Hk1 & Hc1 & Hp1).
  { destruct (Z.eqb_spec (pools_ r) 0) as [E0|]; [|by exists true, r, u, m, l].
    apply allocate_pools_spec; [|done]. replace l with ([] : list (pool * ghost)) in Hok; [done|]. destruct Hok as [_ [_ Hl] _ _ _ _ _ _].
    cbn [fst] in Hl. rewrite E0 in Hl. by destruct l. }
  rewrite E1. cbn [mbind outcome_bind]. destruct ok; cbn [negb]; cycle 1.
  { exists None, (r1, u1), m1. split; [by destruct level|]. split; [done|]. by exists l1, bigs. }
  destruct (r_count _ _ _ _ _ _ Hok1) as [Hcnt _]. cbn [fst] in Hcnt.
  destruct Hbs as (bs & Hbs & Hbytes & Hd); [lia|].
  destruct (allocate_in_pool r1 u1 m1 L F l1 bigs i bs bytes alignment)
    as (p & a & p' & u' & m' & -> & -> & Ha0 & Hk & Hinv); try done; [by apply Hp1|lia|].
  cbn [mbind outcome_bind]. rewrite bool_decide_true by done. eexists a, (_, u'), m'. split; [by destruct level|]. split; [|done].
  intros x Hx. by rewrite Hk, Hk1.
Qed.

(** ** Deallocation *)

Lemma deallocate_big r u m b L F l bigs c : resource_ok (r, u) m (b :: L) F l bigs → (b, c) ∈ bigs →
  ∃ h u' m', chunk_deallocate level (b_addr b) (b_bytes b) (b_align b) (big_blocks_ r) (u, m) = Ret (h, (u', m')) ∧
    keeps (λ x, cnt (L ++ F) x ≠ 0%nat) m m' ∧ pool_resource_inv (set_big h r, u') m' L F.
Proof.
  intros Hok (b1 & b2 & ->)%list_elem_of_split. pose proof (bigs_in_front _ _ _ _ _ _ _ Hok) as Hinv.
  pose proof Hok as []. cbn [fst snd] in *.
  destruct r_big0 as [[Hb1 [Hbc Hb2]%Forall_cons]%Forall_app Hc]. destruct Hbc as (s & Ec & Es & Hs & Hbk & _).
  rewrite !fmap_app in *. cbn [fmap list_fmap fst snd] in *. subst c.
  assert (L ≡ₚ (b1 ++ b2).*1 ++ used_of l) as HL.
  { apply (Permutation_cons_inv (a := b)). rewrite r_client0, fmap_app, (Permutation_app_comm (used_of l)).
    by rewrite <- Permutation_middle. }
  destruct (chunk_deallocate_spec level u m b1.*2 b2.*2 (array_of r ++ chunks_of l) F (big_blocks_ r) (b_addr b)
    (b_bytes b) (b_align b) s) as (h & u' & m' & E & Hk & Hinv' & Hd'); try done; [by destruct Hbk as (_ & _ & _ & ? & _)|].
  exists h, u', m'. rewrite <- !fmap_app in *.
  assert (Forall (big_ok r) (b1 ++ b2)) as Hb by by apply Forall_app.
  pose proof (λ x, bigs_untouched r u' m m' L F l (b1 ++ b2) (array_of r) x Hb r_pools0 Hinv' HL) as Hun.
  split_and!; [done|eapply keeps_impl; [|exact Hk]; intros x Hx; apply Hun; auto|].
  eapply (bigs_updated r u m); try done.
  - eapply keeps_impl; [|exact Hk]. intros x Hx. apply Hun. auto.
  - rewrite fmap_app. apply Forall_app in Hc as [? [_ ?]%Forall_cons]. by apply Forall_app.
Qed.

Lemma deallocate_in_pool r u m b L F l bigs i p g : resource_ok (r, u) m (b :: L) F l bigs →
  l !! i = Some (p, g) → b ∈ g_used g →
  ∃ p' m', pool_objects r !! i = Some p ∧ pool_deallocate level (b_addr b) p m = Ret (p', m') ∧
    keeps (λ x, cnt (L ++ F) x ≠ 0%nat) m m' ∧
    pool_resource_inv (set_pools (pools_ r) (<[i := p']> (pool_objects r)) r, u) m' L F.
Proof.
  intros Hok Hl [used Hu]%elem_of_Permutation. pose proof (pool_in_front _ _ _ _ _ _ _ _ _ _ Hok Hl) as [Hinv HL].
  destruct (r_pools _ _ _ _ _ _ Hok _ _ Hl) as [Hp _]. cbn [fst snd] in Hp. apply (pool_used_perm _ _ _ _ _ _ Hu) in Hp.
  assert (L ≡ₚ used ++ used_of (delete i l) ++ bigs.*1) as HL' by (apply (Permutation_cons_inv (a := b)); by rewrite HL, Hu).
  destruct (pool_deallocate_spec level _ _ _ _ _ _ _ Hp) as (p' & m' & E & Hbs & Hk & Hp').
  { intros x. pose proof (inv_cnt _ _ _ _ x Hinv). rewrite !cnt_app in *. lia. }
  assert (∀ x, covers (cell (block_size_ p) (b_addr b)) x → cnt (g_chunks g) x = 1%nat ∧ cnt used x = 0%nat ∧
    cnt (rest_of r l i bigs ++ F) x = 0%nat) as Hcell.
  { intros x Hx. pose proof (k_cnt _ _ _ _ _ Hp x) as Hc. pose proof (k_used _ _ _ _ _ Hp) as Hus.
    cbn [g_chunks g_used g_free fmap list_fmap cnt] in *. unfold compose in Hc. rewrite decide_True in Hc by done.
    apply Forall_cons in Hus as [_ Hus]. pose proof (used_le _ _ _ _ x Hus) as Hle. unfold compose in Hle.
    pose proof (inv_cnt _ _ _ _ x Hinv). rewrite !cnt_app in *. lia. }
  pose proof (r_objects _ _ _ _ _ _ Hok) as Hobj. cbn [fst] in Hobj.
  exists p', m'. split_and!; [by rewrite Hobj, list_lookup_fmap, Hl|done| |].
  - eapply keeps_impl; [|exact Hk]. intros x Hx Hc. destruct (Hcell x Hc) as (_ & ? & ?).
    pose proof (rest_covers r u m _ F l bigs i x Hok). cbv beta in Hx. rewrite HL', !cnt_app in *. lia.
  - eapply pool_updated; [done..| |done| |done|done].
    + eapply keeps_impl; [|exact Hk]. intros x Hx Hc. destruct (Hcell x Hc) as (_ & _ & ?). cbv beta in Hx. rewrite !cnt_app in *. lia.
    + eapply inv_frame; [|exact Hinv]. eapply keeps_impl; [|exact Hk]. intros x Hx Hc. destruct (Hcell x Hc) as (? & _).
      cbn [g_chunks] in Hx. rewrite !cnt_app in *. lia.
Qed.

Lemma pool_resource_deallocate_law ru m p bytes alignment L F :
  pool_resource_inv ru m (Block p bytes alignment :: L) F →
  ∃ ru' m', pool_resource_deallocate level p bytes alignment (ru, m) = Ret (ru', m') ∧
    keeps (λ x, cnt (L ++ F) x ≠ 0%nat) m m' ∧ pool_resource_inv ru' m' L F.
Proof.
  destruct ru as [r u]. intros (l & bigs & Hok). set (b := Block p bytes alignment) in *.
  assert (b ∈ used_of l ++ bigs.*1) as Hb by (rewrite <- (r_client _ _ _ _ _ _ Hok); apply list_elem_of_here).
  apply elem_of_app in Hb as [Hb|Hb].
  - apply list_elem_of_In, in_concat in Hb as (us & Hus & Hb). apply list_elem_of_In, list_elem_of_fmap in Hus as ([q g] & -> & Hq).
    apply list_elem_of_lookup in Hq as [i Hi]. cbn [snd] in Hb. apply list_elem_of_In in Hb.
    destruct (deallocate_in_pool r u m b L F l bigs i q g Hok Hi Hb) as (q' & m' & Eq & E & Hk & Hinv).
    exists (set_pools (pools_ r) (<[i := q']> (pool_objects r)) r, u), m'. split; [|done].
    destruct (r_pools _ _ _ _ _ _ Hok _ _ Hi) as [Hp _]. pose proof (k_used _ _ _ _ _ Hp) as Hus.
    rewrite Forall_forall in Hus. destruct (Hus b Hb) as ((_ & _ & _ & Ha & _) & _ & _ & Eidx).
    cbn [b_addr b_bytes b_align b] in *. unfold pool_resource_deallocate. rewrite has_single_bit_power, Eidx by done.
    cbn [mbind outcome_bind]. pose proof (lookup_lt_Some _ _ _ Hi) as Hlt. rewrite (proj2 (r_array _ _ _ _ _ _ Hok)) in Hlt.
    cbn [fst] in Hlt. rewrite (proj2 (Z.leb_gt _ _)) by (destruct (Z.eqb_spec (pools_ r) 0); lia).
    rewrite Nat2Z.id, Eq, E. by destruct level.
  - apply list_elem_of_fmap in Hb as ([b' c] & Eb & Hbc). cbn [fst] in Eb. subst b'.
    destruct (deallocate_big r u m b L F l bigs c Hok Hbc) as (h & u' & m' & E & Hk & Hinv).
    exists (set_big h r, u'), m'. split; [|done]. destruct (r_big _ _ _ _ _ _ Hok) as [Hbig _].
    rewrite Forall_forall in Hbig. destruct (Hbig _ Hbc) as (s & _ & _ & _ & (_ & _ & _ & Ha & _) & i & Eidx & Hi).
    cbn [fst snd b_addr b_bytes b_align b] in *. unfold pool_resource_deallocate. rewrite has_single_bit_power, Eidx by done.
    cbn [mbind outcome_bind]. rewrite (proj2 (Z.leb_le _ _)), E by done. by destruct level.
Qed.

(** ** The promise of the resource *)

Lemma resource_blocks ru m L F : pool_resource_inv ru m L F → Forall (block_ok (max_bytes - 96)) L.
Proof.
  intros (l & bigs & []). rewrite r_client0. apply Forall_app. split.
  - unfold used_of. apply Forall_concat, Forall_fmap, Forall_lookup. intros i pg Hi. destruct (r_pools0 i pg Hi) as [Hp _].
    eapply Forall_impl; [exact (k_used _ _ _ _ _ Hp)|]. by intros b (? & _).
  - apply Forall_fmap. eapply Forall_impl; [exact (proj1 r_big0)|]. by intros b (s & _ & _ & _ & ? & _).
Qed.

#[export] Program Instance pool_lawful : @Lawful (unsynchronized_pool_resource * U) (pool_resource level) := {
  inv := pool_resource_inv;
  max_bytes := max_bytes - 96;
}.
Next Obligation. pose proof max_bytes_le. lia. Qed.
Next Obligation.
  intros r m L L' F F' HL HF (l & bigs & []). exists l, bigs. split; try done; [|by rewrite <- HL].
  by eapply inv_perm.
Qed.
Next Obligation. intros r m L F. apply resource_blocks. Qed.
Next Obligation.
  intros r m L F x (l & bigs & Hok). destruct (resource_bound _ _ _ _ _ _ x Hok). rewrite cnt_app. lia.
Qed.
Next Obligation. intros r m m' L F. apply resource_frame. Qed.
Next Obligation.
  intros r m L F bytes alignment Hi Ha Hf.
  destruct (pool_resource_allocate_law r m L F bytes alignment Hi Ha Hf) as (a & r' & m' & E & Hk & Hi').
  exists a, r', m'. split_and!; [done..|]. by destruct a.
Qed.
Next Obligation. intros r m p bytes alignment L F. apply pool_resource_deallocate_law. Qed.

(** ** Release *)

Definition releasable (m : mem) (pg : pool * ghost) : Prop :=
  Forall chunk_ok (g_chunks pg.2) ∧ dseg m 0 (pool_chunks_ pg.1) (g_chunks pg.2) 0.

Lemma releasable_keeps m m' l : keeps (λ x, cnt (chunks_of l) x ≠ 0%nat) m m' → Forall placed (chunks_of l) →
  Forall (releasable m) l → Forall (releasable m') l.
Proof.
  intros Hk Hp Hl. apply Forall_lookup. intros i pg Hi. destruct (Forall_lookup_1 _ _ _ _ Hl Hi) as [Hc Hd].
  split; [done|]. eapply dseg_keeps; [|done]. eapply keeps_impl; [|exact Hk]. intros x Hx. cbv beta in *.
  unfold chunks_of in *. rewrite (concat_delete (λ pg, g_chunks pg.2) l i pg Hi) in *. rewrite cnt_app.
  apply Forall_app in Hp as [Hp _]. pose proof (elems_le _ x Hp). lia.
Qed.

Lemma release_pools_spec l : ∀ u m R F, Forall (releasable m) l → inv u m (chunks_of l ++ R) F →
  ∃ u' m', release_pools level l.*1 (u, m) = Ret (u', m') ∧ inv u' m' R F ∧
    keeps (λ x, cnt (R ++ F) x ≠ 0%nat) m m'.
Proof.
  induction l as [|[p g] l IH]; intros u m R F Hl Hi; [by exists u, m|].
  pose proof Hl as [[Hc Hd] Hl']%Forall_cons. cbn [fst snd] in *.
  assert (Forall placed (chunks_of l)) as Hp.
  { apply (chunks_placed u m _ (g_chunks g ++ R) F).
    - eapply inv_perm; [|done|exact Hi]. unfold chunks_of. cbn [fmap list_fmap concat snd]. rewrite !app_assoc.
      by rewrite (Permutation_app_comm (g_chunks g)).
    - unfold chunks_of. apply Forall_concat, Forall_fmap. eapply Forall_impl; [exact Hl'|]. by intros pg []. }
  unfold chunks_of in Hi. cbn [fmap list_fmap concat snd] in Hi. rewrite <- app_assoc in Hi. fold (chunks_of l) in Hi.
  destruct (chunk_release_spec level u m _ _ _ _ Hi Hc Hd) as (u1 & m1 & E1 & Hi1 & Hk1).
  destruct (IH u1 m1 R F) as (u2 & m2 & E2 & Hi2 & Hk2); [|done|].
  { eapply releasable_keeps; [|done..]. eapply keeps_impl; [|exact Hk1]. intros x Hx. cbv beta in *. rewrite !cnt_app. lia. }
  exists u2, m2. cbn [fmap list_fmap release_pools fst]. unfold pool_release. rewrite E1. cbn [mbind outcome_bind].
  split_and!; [done..|]. intros x Hx. rewrite Hk2 by done. apply Hk1. rewrite !cnt_app in *. lia.
Qed.

(** The first part of [release]: the pools and their array. *)
Lemma release_array_spec r u m L F l bigs : resource_ok (r, u) m L F l bigs →
  ∃ u' m', (if negb (pools_ r =? 0) then
      s ← release_pools level (pool_objects r) (u, m);
      '(u, m) ← deallocate level (pools_ r) (u64 (sizeof_pool * pool_count_ r)) alignof_pool s;
      Ret (set_pools 0 [] r, u, m) else Ret (r, u, m)) = Ret (set_pools 0 [] r, u', m') ∧
    inv u' m' (bigs.*2 ++ []) F ∧ keeps (λ x, cnt (bigs.*2 ++ F) x ≠ 0%nat) m m'.
Proof.
  intros []. cbn [fst snd] in *. unfold array_of in *. destruct r_array0 as [_ Hlen]. rewrite app_nil_r.
  destruct (Z.eqb_spec (pools_ r) 0) as [E0|E0]; cbn [negb].
  { destruct l; [|done]. exists u, m. split_and!; try done. destruct r. cbn in *. by subst. }
  destruct (release_pools_spec l u m ([Block (pools_ r) (48 * pool_count_ r) 8] ++ bigs.*2) F) as (u1 & m1 & E1 & Hi1 & Hk1).
  { apply Forall_lookup. intros i pg Hi. destruct (r_pools0 i pg Hi) as [[] _]. by split. }
  { eapply inv_perm; [|done|exact r_upstream0]. rewrite !app_assoc. by rewrite (Permutation_app_comm (chunks_of l)). }
  destruct (deallocate_law level u1 m1 _ _ _ _ _ Hi1) as (u2 & m2 & E2 & Hk2 & Hi2).
  exists u2, m2. rewrite r_objects0, E1. cbn [mbind outcome_bind]. unfold sizeof_pool, alignof_pool.
  rewrite u64_id, E2 by lia. split_and!; [done..|]. intros x Hx. rewrite Hk2 by done. apply Hk1. cbv beta.
  rewrite !cnt_app in *. lia.
Qed.

(** Everything goes back to the upstream resource, and the resource can be used
    as before. *)
Lemma pool_resource_release_spec r u m L F : pool_resource_inv (r, u) m L F →
  ∃ r' u' m', pool_resource_release level (r, u, m) = Ret (r', u', m') ∧ inv u' m' [] F ∧
    keeps (λ x, cnt F x ≠ 0%nat) m m' ∧ pool_resource_inv (r', u') m' [] F.
Proof.
  intros (l & bigs & Hok). destruct (release_array_spec _ _ _ _ _ _ _ Hok) as (u1 & m1 & E1 & Hi1 & Hk1).
  destruct Hok as []. cbn [fst snd] in *. destruct r_big0 as [Hb Hc].
  unfold pool_resource_release. rewrite E1. cbn [mbind outcome_bind].
  destruct (chunk_release_spec level u1 m1 bigs.*2 [] F (big_blocks_ r)) as (u2 & m2 & E2 & Hi2 & Hk2); [done..| |].
  { eapply dseg_keeps; [|done]. eapply keeps_impl; [|exact Hk1]. intros x Hx. pose proof (bigs_bound r bigs x Hb).
    cbv beta in *. rewrite cnt_app. lia. }
  cbn [big_blocks_ set_pools]. rewrite E2. cbn [mbind outcome_bind]. eexists _, u2, m2. split_and!; [done..| |].
  - intros x Hx. rewrite Hk2 by done. apply Hk1. cbv beta. rewrite cnt_app. lia.
  - exists [], []. by split.
Qed.

End Resource.

Lemma pool_run {U : Type} `{Lawful U} level max_blocks largest u m F os :
  2 ^ 63 + 2 ^ 62 + 96 <= max_bytes → 0 <= max_blocks → 0 <= largest → inv u m [] F →
  Forall (request_ok (max_bytes - 96)) os →
  ∃ r r1 u1 m1 h r2 u2 m2,
    make_pool_resource level max_blocks largest = Ret r ∧
    run (H := pool_resource level) level os ((r, u), m, []) = Ret ((r1, u1), m1, h) ∧
    Forall (block_ok (max_bytes - 96)) (blocks h) ∧ (∀ x, cnt (blocks h ++ F) x ≤ 1)%nat ∧ contents_ok m1 h ∧
    pool_resource_release level (r1, u1, m1) = Ret (r2, u2, m2) ∧ inv u2 m2 [] F ∧
    keeps (λ x, cnt F x ≠ 0%nat) m m2.
Proof.
  intros Hmax Hb Hl Hi Hos. destruct (make_pool_resource_spec level max_blocks largest u m F Hb Hl Hi) as (r & Er & Hr).
  destruct (@program_ok _ _ (pool_lawful level Hmax) level os (r, u) m [] F) as ([r1 u1] & m1 & h & E1 & [Hi1 Hc1] & Hk1);
    [done|split; [exact Hr|constructor]|].
  destruct (pool_resource_release_spec level r1 u1 m1 (blocks h) F Hi1) as (r2 & u2 & m2 & E2 & Hi2 & Hk2 & _).
  exists r, r1, u1, m1, h, r2, u2, m2. split_and!; try done.
  - exact (resource_blocks level (r1, u1) m1 (blocks h) F Hi1).
  - intros x. exact (@inv_cnt _ _ (pool_lawful level Hmax) _ _ _ _ x Hi1).
  - intros x Hx. by rewrite Hk2, Hk1.
Qed.

(** C12: every program whose requests are [request_ok] and that uses an
    [unsynchronized_pool_resource] with any options, over any upstream resource
    that keeps its promise, runs: its blocks are aligned and do not overlap each
    other or the blocks of others, it finds in them what it wrote, also after
    requests for which the upstream resource threw and when blocks are given
    back in any order, and [release] gives everything back to the upstream
    resource.  Requests have an alignment that is a power of 2 of at most 2^62
    and together with it a size of at most 96 bytes less than the upstream
    resource can serve, so that no computation of a size wraps around
    ([huge_request_wraps]); a request for no bytes has an alignment of at most
    8, because others are not aligned ([empty_request_not_aligned]). *)
Theorem pool_programs {U : Type} `{Lawful U} level max_blocks largest u m F os :
  2 ^ 63 + 2 ^ 62 + 96 <= max_bytes → 0 <= max_blocks → 0 <= largest → inv u m [] F →
  Forall (request_ok (max_bytes - 96)) os →
  ∃ r r1 u1 m1 h r2 u2 m2,
    make_pool_resource level max_blocks largest = Ret r ∧
    run (H := pool_resource level) level os ((r, u), m, []) = Ret ((r1, u1), m1, h) ∧
    Forall (block_ok (max_bytes - 96)) (blocks h) ∧ (∀ x, cnt (blocks h ++ F) x ≤ 1)%nat ∧ contents_ok m1 h ∧
    pool_resource_release level (r1, u1, m1) = Ret (r2, u2, m2) ∧ inv u2 m2 [] F ∧
    keeps (λ x, cnt F x ≠ 0%nat) m m2.
Proof. apply pool_run. Qed.

(** Two blocks from a pool, the first one given back and used again, and one
    that is too large for the pools. *)
Definition pool_example : outcome ((unsynchronized_pool_resource * Z) * mem * held) :=
  r ← make_pool_resource ASSERT_LEVEL_DEFAULT 4 1024;
  run (H := pool_resource (H := new_delete_resource ASSERT_LEVEL_DEFAULT) ASSERT_LEVEL_DEFAULT) ASSERT_LEVEL_DEFAULT
    [Allocate 20 8; Allocate 24 8; Write 0 5 9; Deallocate 1; Allocate 17 4; Allocate 5000 32] ((r, 4096), ∅, []).

Example pool_example_blocks :
  match pool_example with Ret (_, m, h) => Some (blocks h, m !! 5005) | _ => None end =
  Some ([Block 5152 5000 32; Block 4976 17 4; Block 5000 24 8], Some 9).
Proof. by vm_compute. Qed.

Lemma pool_programs_witness :
  ∃ r1 u1 m1 h, pool_example = Ret ((r1, u1), m1, h) ∧ contents_ok m1 h ∧
    (∀ x, cnt (blocks h ++ [Block 8 16 1]) x ≤ 1)%nat.
Proof.
  destruct (pool_programs (H0 := new_delete_lawful (A := Z) ASSERT_LEVEL_DEFAULT) ASSERT_LEVEL_DEFAULT 4 1024 4096 ∅
    [Block 8 16 1] [Allocate 20 8; Allocate 24 8; Write 0 5 9; Deallocate 1; Allocate 17 4; Allocate 5000 32])
    as (r & r1 & u1 & m1 & h & r2 & u2 & m2 & Er & E1 & _ & Hc & Hh & _).
  - by vm_compute.
  - done.
  - done.
  - apply bump_start. by vm_compute.
  - repeat constructor; cbn; try lia; [by exists 3|by exists 3|by exists 2|by exists 5].
  - exists r1, u1, m1, h. unfold pool_example. rewrite Er. cbn [mbind outcome_bind]. by split_and!.
Defined.

(** C14: a pool resource over a monotonic buffer resource over the
    [new_delete_resource], over any allocator that does what the standard asks of
    [operator new]: every program whose requests are [request_ok] (as for the pool
    resource alone, with a size and alignment of at most 2^64 - 200 bytes) runs,
    its blocks do not overlap and it finds in them what it wrote; after [release]
    of the pools and of the buffers the allocator has every block back.  The
    first buffer has between 1 and 2^63 bytes. *)
Theorem stacked_resources {A : Type} `{LawfulAllocator A max_align} level initial_size max_blocks largest a m os :
  0 < initial_size <= 2 ^ 63 → 0 <= max_blocks → 0 <= largest → raw_inv a [] →
  Forall (request_ok (2 ^ 64 - 200)) os →
  let R := new_delete_resource level in
  ∃ r q q1 r1 a1 m1 h q2 r2 a2 m2 r3 a3 m3,
    make level initial_size = Ret r ∧ make_pool_resource level max_blocks largest = Ret q ∧
    run (H := pool_resource (H := monotonic_resource level) level) level os ((q, (r, a)), m, []) =
      Ret ((q1, (r1, a1)), m1, h) ∧
    (∀ x, cnt (blocks h) x ≤ 1)%nat ∧ contents_ok m1 h ∧
    pool_resource_release (H := monotonic_resource level) level (q1, (r1, a1), m1) = Ret (q2, (r2, a2), m2) ∧
    release level (r2, a2, m2) = Ret (r3, a3, m3) ∧ raw_inv a3 [].
Proof.
  intros Hs Hb Hl Ha Hos R. pose (LR := new_delete_lawful (A := A) level).
  assert (@inv _ _ LR a m [] []) as Hi by (exists []; split; try done; intros x; cbn; lia).
  assert (2 ^ 63 + 2 ^ 62 + 96 <= @max_bytes _ _ LR) as H1 by (cbn; lia).
  destruct (monotonic_make_spec (H0 := LR) level [] initial_size a m [] Hs Hi eq_refl) as (r & Er & Hr).
  pose (LM := monotonic_lawful (H0 := LR) level H1 []).
  destruct (pool_run (H0 := LM) level max_blocks largest (r, a) m [] os)
    as (q & q1 & [r1 a1] & m1 & h & q2 & [r2 a2] & m2 & Eq & E1 & _ & Hc & Hh & E2 & Hi2 & _); [cbn; lia|done..|].
  destruct (release_spec (H0 := LR) level [] r2 a2 m2 [] [] Hi2) as (r3 & a3 & m3 & E3 & (l & Hl3) & _).
  exists r, q, q1, r1, a1, m1, h, q2, r2, a2, m2, r3, a3, m3. split_and!; try done.
  - intros x. specialize (Hc x). by rewrite app_nil_r in Hc.
  - destruct Hl3 as []. apply Permutation_nil in d_client0. destruct l; [done|discriminate].
Qed.

(** The program of the pool resource, and then both releases: what the client
    held, the memory then, and the allocator at the end. *)
Definition stacked_operations : list operation :=
  [Allocate 20 8; Allocate 24 8; Write 0 5 9; Deallocate 1; Allocate 17 4; Allocate 5000 32; Write 0 4999 3].

Definition stacked_example : outcome (held * mem * Z) :=
  let N := new_delete_resource ASSERT_LEVEL_DEBUG in
  let M := monotonic_resource (H := N) ASSERT_LEVEL_DEBUG in
  r ← make ASSERT_LEVEL_DEBUG 1024;
  q ← make_pool_resource ASSERT_LEVEL_DEBUG 4 1024;
  '((q1, u1), m1, h) ← run (H := pool_resource (H := M) ASSERT_LEVEL_DEBUG) ASSERT_LEVEL_DEBUG stacked_operations
    ((q, (r, 4096)), ∅, []);
  '(q2, (r2, a2), m2) ← pool_resource_release (H := M) ASSERT_LEVEL_DEBUG (q1, u1, m1);
  '(r3, a3, m3) ← release (H := N) ASSERT_LEVEL_DEBUG (r2, a2, m2);
  Ret (h, m1, a3).

Definition stacked_blocks : list block := [Block 8288 5000 32; Block 4960 17 4; Block 4984 24 8].

Lemma stacked_resources_witness :
  ∃ h m1 (a3 : Z), stacked_example = Ret (h, m1, a3) ∧ blocks h = stacked_blocks
    ∧ (∀ x, cnt (blocks h) x ≤ 1)%nat ∧ contents_ok m1 h ∧ raw_inv (natural := max_align) a3 [].
Proof.
  destruct (stacked_resources (A := Z) ASSERT_LEVEL_DEBUG 1024 4 1024 4096 ∅ stacked_operations)
    as (r & q & q1 & r1 & a1 & m1 & h & q2 & r2 & a2 & m2 & r3 & a3 & m3 & Er & Eq & E1 & Hc & Hh & E2 & E3 & Ha).
  - lia.
  - done.
  - done.
  - split_and!; [done|by exists 256|constructor].
  - repeat constructor; cbn; try lia; [by exists 3|by exists 3|by exists 2|by exists 5].
  - assert (stacked_example = Ret (h, m1, a3)) as E.
    { unfold stacked_example. cbv zeta. rewrite Er, Eq. cbn [mbind outcome_bind]. rewrite E1. cbn [mbind outcome_bind].
      rewrite E2. cbn [mbind outcome_bind]. rewrite E3. reflexivity. }
    exists h, m1, a3. split; [exact E|]. split; [|split; [exact Hc|split; [exact Hh|exact Ha]]].
    assert (match stacked_example with Ret (h, _, _) => blocks h | _ => [] end = stacked_blocks) as Hl
      by (vm_compute; reflexivity).
    rewrite E in Hl. exact Hl.
Defined.

(** ** Requests outside of the theorems *)

(** A request for no bytes is served by the pool with blocks of 8 bytes, also
    with an extended alignment. *)
Example empty_request_not_aligned :
  (r ← make_pool_resource ASSERT_LEVEL_DEBUG 0 0;
   '(_, _, h) ← run (H := pool_resource (H := new_delete_resource ASSERT_LEVEL_DEBUG) ASSERT_LEVEL_DEBUG) ASSERT_LEVEL_DEBUG
      [Allocate 1 1; Allocate 0 64] ((r, 4096), ∅, []);
   Ret ((λ b, b_addr b mod 64) <$> blocks h)) = Ret [40; 32].
Proof. by vm_compute. Qed.

(** Without debug assertions a request for almost the whole address space is
    served by a block of 8 bytes, and a chunk for it has no bytes. *)
Example huge_request_wraps :
  get_pool_index ASSERT_LEVEL_DEFAULT (2 ^ 64 - 1) 8 = Ret 0 ∧ internal_size ASSERT_LEVEL_DEBUG (2 ^ 64 - 24) = Ret 0 ∧
  extended_size (2 ^ 64 - 8) 32 = 31.
Proof. by vm_compute. Qed.

End PoolResourceLaw.
