(* ===== verification/CallStacks.v ===== *)
(** * Calls of several threads

    The models of code that is shared by threads and calls back into its client
    keep the active calls of all threads in one list of pairs of a thread and a
    call, the innermost calls first: the first call of a thread in this list is
    the one it is executing, and the calls below it are waiting for it to
    return.  This file has what these models share. *)

From S2P Require Import Prelude.

Module CallStacks.

Section Calls.
Context {K : Type}.
Implicit Types (F : list (nat * K)) (t : nat) (k : K).

(** The call that thread [t] is executing. *)
Definition top F t : option K := snd <$> head (filter (λ x, x.1 = t) F).

(** The calls before that of thread [t], this call, and those after it. *)
Fixpoint split_top F t : option (list (nat * K) * K * list (nat * K)) :=
  match F with
  | [] => None
  | (t0, k) :: F =>
      if decide (t0 = t) then Some ([], k, F)
      else '(above, k', below) ← split_top F t; Some ((t0, k) :: above, k', below)
  end.

Lemma split_top_Some F t above k below :
  split_top F t = Some (above, k, below) → F = above ++ (t, k) :: below ∧ t ∉ above.*1.
Proof.
  revert above. induction F as [|[t0 k0] F IH]; intros above; [done|]. cbn [split_top].
  case_decide as Ht; [intros [= <- <- <-]; subst; split; [done|by intros ?%elem_of_nil]|].
  destruct (split_top F t) as [[[a k1] b]|]; [|done]. intros [= <- <- <-].
  destruct (IH _ eq_refl) as [-> ?]. split; [done|]. by intros [?|?]%elem_of_cons.
Qed.

Lemma calls_middle (above below : list (nat * K)) x : above ++ x :: below ≡ₚ x :: (above ++ below).
Proof. symmetry. apply Permutation_middle. Qed.

(** ** Counting *)

Definition count (P : K → bool) F : nat := length (filter (λ x, P x.2 = true) F).

Lemma count_call P t k F : count P ((t, k) :: F) = ((if P k then 1 else 0) + count P F)%nat.
Proof. unfold count. rewrite filter_cons. simpl. destruct (P k); by simpl. Qed.

Lemma count_perm P F F' : F ≡ₚ F' → count P F = count P F'.
Proof. intros H. unfold count. by rewrite H. Qed.

Lemma count_zero P F t k : count P F = 0%nat → (t, k) ∈ F → P k = false.
Proof.
  intros H Hin. destruct (P k) eqn:E; [|done]. exfalso.
  assert ((t, k) ∈ filter (λ x, P x.2 = true) F) as Hf by (by apply list_elem_of_filter).
  unfold count in H. apply nil_length_inv in H. rewrite H in Hf. by apply elem_of_nil in Hf.
Qed.

Lemma count_pos P F : (0 < count P F)%nat → ∃ t k, (t, k) ∈ F ∧ P k = true.
Proof.
  unfold count. intros H. destruct (filter (λ x, P x.2 = true) F) as [|[t k] ?] eqn:E; [simpl in H; lia|].
  assert ((t, k) ∈ filter (λ x, P x.2 = true) F) as Hf by (rewrite E; apply list_elem_of_here).
  apply list_elem_of_filter in Hf as [??]. eauto.
Qed.

Lemma count_zero_2 P F : (∀ t k, (t, k) ∈ F → P k = false) → count P F = 0%nat.
Proof.
  intros H. destruct (decide (count P F = 0)%nat) as [|Hn]; [done|].
  destruct (count_pos P F ltac:(lia)) as (t & k & Hin & Hk). rewrite (H _ _ Hin) in Hk. done.
Qed.

(** A change of the calls that a predicate does not see. *)
Lemma count_fmap P (f : nat * K → nat * K) F :
  (∀ x, P (f x).2 = P x.2) → count P (f <$> F) = count P F.
Proof.
  intros H. induction F as [|[t k] F IH]; [done|]. rewrite fmap_cons.
  destruct (f (t, k)) as [t' k'] eqn:E. rewrite !count_call, IH.
  pose proof (H (t, k)) as Hk. rewrite E in Hk. simpl in Hk. by rewrite Hk.
Qed.

(** ** Stacks *)

Context (is_client : K → bool).

(** Thread [t] runs code of the client: between calls of the library, or in a
    callback. *)
Definition in_client F t : Prop := ∀ k, top F t = Some k → is_client k = true.

Definition client_code F t : bool := match top F t with None => true | Some k => is_client k end.

Lemma client_code_in_client F t : client_code F t = true → in_client F t.
Proof. unfold client_code, in_client. intros H k Hk. by rewrite Hk in H. Qed.

(** Only client code has calls above it. *)
Fixpoint stacked F : Prop :=
  match F with
  | [] => True
  | x :: F => (∀ k, (x.1, k) ∈ F → is_client k = true) ∧ stacked F
  end.

Lemma stacked_app F F' :
  stacked (F ++ F') ↔
  stacked F ∧ stacked F' ∧ ∀ t k k', (t, k) ∈ F → (t, k') ∈ F' → is_client k' = true.
Proof.
  induction F as [|[t0 k0] F IH]; cbn [app stacked].
  { split; [intros ?; split_and!; try done; by intros ??? ?%elem_of_nil|tauto]. }
  rewrite IH. setoid_rewrite elem_of_app. setoid_rewrite elem_of_cons. naive_solver.
Qed.

Lemma stacked_in_client F t : stacked F → in_client F t → ∀ k, (t, k) ∈ F → is_client k = true.
Proof.
  unfold in_client, top. induction F as [|[t0 k0] F IH]; cbn [stacked]; [by intros _ _ ? ?%elem_of_nil|].
  intros [H0 HF] Ht k Hk. destruct (decide (t0 = t)) as [->|Hne].
  - rewrite filter_cons_True in Ht by done. apply elem_of_cons in Hk as [[= ->]|Hk]; [by apply Ht|auto].
  - rewrite filter_cons_False in Ht by done. apply elem_of_cons in Hk as [[= -> _]|Hk]; [done|auto].
Qed.

Lemma stacked_push F t k : stacked F → in_client F t → stacked ((t, k) :: F).
Proof. intros HF Ht. split; [|done]. by apply stacked_in_client. Qed.

Lemma stacked_replace above t k k' below :
  stacked (above ++ (t, k) :: below) → t ∉ above.*1 → stacked (above ++ (t, k') :: below).
Proof.
  rewrite !stacked_app. cbn [stacked]. intros (H1 & [H2 H3] & H) Ht. split_and!; [done..|].
  intros t0 k0 k1 Hin [[= -> ->]|Hin']%elem_of_cons.
  - destruct Ht. by apply (list_elem_of_fmap_2 fst) in Hin.
  - eapply H; [done|by apply list_elem_of_further].
Qed.

Lemma stacked_remove above t k below : stacked (above ++ (t, k) :: below) → stacked (above ++ below).
Proof.
  rewrite !stacked_app. cbn [stacked]. intros (H1 & [_ H2] & H). split_and!; [done..|].
  intros t0 k0 k1 Hin Hin'. eapply H; [done|by apply list_elem_of_further].
Qed.

(** A call that is not client code is the one its thread is executing. *)
Lemma stacked_top above t k below :
  stacked (above ++ (t, k) :: below) → is_client k = false → t ∉ above.*1.
Proof.
  rewrite stacked_app. intros (_ & _ & H) Hk ([t0 k0] & -> & Hin)%list_elem_of_fmap.
  rewrite (H t0 k0 k) in Hk; [done|done|apply list_elem_of_here].
Qed.

Definition current_call F t k : Prop := ∃ above below, F = above ++ (t, k) :: below ∧ t ∉ above.*1.

Lemma library_current F t k : stacked F → (t, k) ∈ F → is_client k = false → current_call F t k.
Proof.
  intros HS (l1 & l2 & E)%list_elem_of_split Hk. exists l1, l2. split; [done|].
  rewrite E in HS. by eapply stacked_top.
Qed.

(** A notification changes calls, but not who makes them. *)
Lemma stacked_fmap (f : nat * K → nat * K) F :
  (∀ x, (f x).1 = x.1) → (∀ x, is_client (f x).2 = is_client x.2) → stacked F → stacked (f <$> F).
Proof.
  intros H1 H2. induction F as [|x F IH]; [done|]. rewrite fmap_cons. cbn [stacked].
  intros [H HF]. split; [|auto].
  intros k (y & E & Hin)%list_elem_of_fmap. change k with (((f x).1, k).2). rewrite E, H2.
  apply H. rewrite H1 in E. destruct y as [t1 k1]. rewrite <-H1 in E.
  assert (x.1 = t1) as ->; [|done]. change t1 with ((t1, k1).1).
  rewrite <-(H1 (t1, k1)), <-E. by rewrite H1.
Qed.

Lemma fmap_threads (f : nat * K → nat * K) F : (∀ x, (f x).1 = x.1) → (f <$> F).*1 = F.*1.
Proof. intros H. induction F as [|x F IH]; [done|]. rewrite !fmap_cons, IH. by rewrite H. Qed.

Lemma stacked_fmap_replace (f : nat * K → nat * K) above t k k' below :
  (∀ x, (f x).1 = x.1) → (∀ x, is_client (f x).2 = is_client x.2) →
  stacked (above ++ (t, k) :: below) → t ∉ above.*1 →
  stacked ((f <$> above) ++ (t, k') :: (f <$> below)).
Proof.
  intros H1 H2 HF%(stacked_fmap f) Ht; [|done|done]. rewrite fmap_app, fmap_cons in HF.
  destruct (f (t, k)) as [t1 k1] eqn:E. assert (t1 = t) as -> by (pose proof (H1 (t, k)) as Ht1; by rewrite E in Ht1).
  eapply stacked_replace; [exact HF|]. by rewrite fmap_threads.
Qed.

End Calls.

End CallStacks.
