(* ===== verification/StopToken.v ===== *)
(** * Stop tokens: language/futurecpp/src/stop_token.cpp

    [stop_state] with the [stop_callback] objects registered with it, shared by
    any number of threads.  A step of a thread is an acquisition of the mutex,
    or what it does between two accesses to atomic variables and mutexes.  The
    callbacks are code of the client: while a thread runs one, it may call the
    library again (see CallStacks.v).

    The client constructs objects, destroys those whose constructor has
    returned, and returns from callbacks.  Executions in which the 64-bit
    counter of identifiers wraps are not considered. *)

From stdpp Require Import gmap relations.
From S2P Require Import Prelude CppInt CallStacks.

Local Open Scope Z_scope.

Module StopToken.
Import CallStacks.

(** ** State *)

Record stop_callback := {
  callback_id_ : Z;
  already_started_executing_ : bool;
  executed_by_ : option nat;
  next_ : option nat;
  prev_ : option nat;
}.

Definition default_stop_callback_id : Z := 0.

Definition new_callback : stop_callback :=
  {| callback_id_ := default_stop_callback_id; already_started_executing_ := false;
     executed_by_ := None; next_ := None; prev_ := None |}.

(** [heap] has the objects that exist. *)
Record stop_state := {
  stop_requested_ : bool;
  callback_mutex_ : option nat;
  first_callback_ : option nat;
  currently_executing_callback_ : Z;
  next_callback_id_ : Z;
  heap : gmap nat stop_callback;
}.

Definition new_state : stop_state :=
  {| stop_requested_ := false; callback_mutex_ := None; first_callback_ := None;
     currently_executing_callback_ := default_stop_callback_id; next_callback_id_ := 1;
     heap := ∅ |}.

Definition set_mutex (m : option nat) (s : stop_state) : stop_state :=
  {| stop_requested_ := stop_requested_ s; callback_mutex_ := m; first_callback_ := first_callback_ s;
     currently_executing_callback_ := currently_executing_callback_ s;
     next_callback_id_ := next_callback_id_ s; heap := heap s |}.
Definition set_stop (s : stop_state) : stop_state :=
  {| stop_requested_ := true; callback_mutex_ := callback_mutex_ s;
     first_callback_ := first_callback_ s;
     currently_executing_callback_ := currently_executing_callback_ s;
     next_callback_id_ := next_callback_id_ s; heap := heap s |}.
Definition set_first (f : option nat) (s : stop_state) : stop_state :=
  {| stop_requested_ := stop_requested_ s; callback_mutex_ := callback_mutex_ s; first_callback_ := f;
     currently_executing_callback_ := currently_executing_callback_ s;
     next_callback_id_ := next_callback_id_ s; heap := heap s |}.
Definition set_current (i : Z) (s : stop_state) : stop_state :=
  {| stop_requested_ := stop_requested_ s; callback_mutex_ := callback_mutex_ s;
     first_callback_ := first_callback_ s; currently_executing_callback_ := i;
     next_callback_id_ := next_callback_id_ s; heap := heap s |}.
Definition set_next_id (i : Z) (s : stop_state) : stop_state :=
  {| stop_requested_ := stop_requested_ s; callback_mutex_ := callback_mutex_ s;
     first_callback_ := first_callback_ s;
     currently_executing_callback_ := currently_executing_callback_ s;
     next_callback_id_ := i; heap := heap s |}.
Definition set_heap (h : gmap nat stop_callback) (s : stop_state) : stop_state :=
  {| stop_requested_ := stop_requested_ s; callback_mutex_ := callback_mutex_ s;
     first_callback_ := first_callback_ s;
     currently_executing_callback_ := currently_executing_callback_ s;
     next_callback_id_ := next_callback_id_ s; heap := h |}.

Definition set_id (i : Z) (o : stop_callback) : stop_callback :=
  {| callback_id_ := i; already_started_executing_ := already_started_executing_ o;
     executed_by_ := executed_by_ o; next_ := next_ o; prev_ := prev_ o |}.
Definition set_started (t : nat) (o : stop_callback) : stop_callback :=
  {| callback_id_ := callback_id_ o; already_started_executing_ := true;
     executed_by_ := Some t; next_ := next_ o; prev_ := prev_ o |}.
Definition set_next (n : option nat) (o : stop_callback) : stop_callback :=
  {| callback_id_ := callback_id_ o; already_started_executing_ := already_started_executing_ o;
     executed_by_ := executed_by_ o; next_ := n; prev_ := prev_ o |}.
Definition set_prev (p : option nat) (o : stop_callback) : stop_callback :=
  {| callback_id_ := callback_id_ o; already_started_executing_ := already_started_executing_ o;
     executed_by_ := executed_by_ o; next_ := next_ o; prev_ := p |}.

(** Access through a pointer. *)
Definition get (h : gmap nat stop_callback) (c : nat) : outcome stop_callback :=
  match h !! c with Some o => Ret o | None => Undefined end.

Definition put (h : gmap nat stop_callback) (c : nat) (f : stop_callback → stop_callback) :
    outcome (gmap nat stop_callback) :=
  o ← get h c; Ret (<[c := f o]> h).

(** [SCORE_LANGUAGE_FUTURECPP_PRECONDITION_PRD] and [ASSERT_PRD], which are
    checked at every level. *)
Definition ASSERT_PRD {A} (b : bool) (k : outcome A) : outcome A := if b then k else Aborted.

(** ** Operations *)

(** The walk to the end of the list in [register_callback]. *)
Fixpoint last_callback (fuel : nat) (h : gmap nat stop_callback) (c : nat) : outcome nat :=
  match fuel with
  | O => Undefined
  | S fuel =>
      o ← get h c;
      match next_ o with
      | None => Ret c
      | Some n => last_callback fuel h n
      end
  end.

Definition append (s : stop_state) (cb : nat) : outcome stop_state :=
  match first_callback_ s with
  | None => Ret (set_first (Some cb) s)
  | Some first =>
      next_callback ← last_callback (size (heap s)) (heap s) first;
      h ← put (heap s) next_callback (set_next (Some cb));
      h ← put h cb (set_prev (Some next_callback));
      Ret (set_heap h s)
  end.

(** The part of [deregister_callback] that takes [cb] out of the list. *)
Definition unlink (s : stop_state) (cb : nat) : outcome stop_state :=
  o ← get (heap s) cb;
  s ← match prev_ o with
      | None => Ret (set_first (next_ o) s)
      | Some p =>
          po ← get (heap s) p;
          ASSERT_PRD (bool_decide (next_ po = Some cb))
            (h ← put (heap s) p (set_next (next_ o)); Ret (set_heap h s))
      end;
  o ← get (heap s) cb;
  s ← match next_ o with
      | None => Ret s
      | Some n =>
          no ← get (heap s) n;
          ASSERT_PRD (bool_decide (prev_ no = Some cb))
            (h ← put (heap s) n (set_prev (prev_ o)); Ret (set_heap h s))
      end;
  h ← put (heap s) cb (λ o, set_prev None (set_next None o));
  Ret (set_heap h s).

(** Where a thread is in a call; the comment is what it does next. *)
Inductive call :=
| RegisterLock (cb : nat)                      (* lock callback_mutex_ *)
| RegisterTest (cb : nat)                      (* if (stop_requested_) *)
| RegisterStart (cb : nat)                     (* mark as executing, unlock *)
| RegisterLink (cb : nat)                      (* append to the list, unlock *)
| RegisterCall (cb : nat)                      (* cb->cb_() in register_callback *)
| DeregisterTest (cb : nat)                    (* cb->callback_id_ == default id *)
| DeregisterLock (cb : nat)                    (* lock callback_mutex_ *)
| DeregisterCheck (cb : nat)                   (* executed by another thread? *)
| DeregisterWait (cb : nat)                    (* the predicate of wakeup_.wait *)
| DeregisterSleep (cb : nat) (notified : bool) (* blocked in wakeup_.wait *)
| DeregisterUnlink (cb : nat)                  (* remove from the list, unlock *)
| RequestStop                                  (* compare_exchange_strong *)
| NotifyLock                                   (* lock callback_mutex_ *)
| NotifyLoop (cb : option nat)                 (* while (cb != nullptr) *)
| ExecuteCall (cb : nat)                       (* cb->cb_() in execute *)
| ExecuteLock (cb : nat)                       (* guard.lock() *)
| ExecuteEnd (cb : nat).                       (* the rest of execute *)

(** What a step does to the call that makes it. *)
Inductive control :=
| Continue (k : call)
| ContinueNotify (k : call)  (* after wakeup_.notify_all() *)
| Registered (cb : nat)      (* the constructor returns *)
| Destroyed (cb : nat)       (* the destructor returns *)
| Returned (b : bool).       (* request_stop returns *)

Definition lock (t : nat) (s : stop_state) (k : stop_state → call) :
    outcome (option (stop_state * control)) :=
  match callback_mutex_ s with
  | None => Ret (Some (set_mutex (Some t) s, Continue (k s)))
  | Some _ => Ret None
  end.

(** One step of thread [t]; [None] if it cannot make one. *)
Definition stop_step (t : nat) (s : stop_state) (k : call) :
    outcome (option (stop_state * control)) :=
  match k with
  | RegisterLock cb => lock t s (λ _, RegisterTest cb)
  | RegisterTest cb =>
      o ← get (heap s) cb;
      ASSERT_PRD (negb (already_started_executing_ o))
      (ASSERT_PRD (bool_decide (prev_ o = None))
      (ASSERT_PRD (bool_decide (next_ o = None))
      (Ret (Some (s, Continue (if stop_requested_ s then RegisterStart cb else RegisterLink cb))))))
  | RegisterStart cb =>
      h ← put (heap s) cb (λ o, set_started t (set_id default_stop_callback_id o));
      Ret (Some (set_mutex None (set_heap h s), Continue (RegisterCall cb)))
  | RegisterLink cb =>
      h ← put (heap s) cb (set_id (next_callback_id_ s));
      s ← append (set_next_id (u64 (next_callback_id_ s + 1)) (set_heap h s)) cb;
      Ret (Some (set_mutex None s, Registered cb))
  | DeregisterTest cb =>
      o ← get (heap s) cb;
      if callback_id_ o =? default_stop_callback_id then
        ASSERT_PRD (bool_decide (prev_ o = None))
        (ASSERT_PRD (bool_decide (next_ o = None))
        (Ret (Some (s, Destroyed cb))))
      else Ret (Some (s, Continue (DeregisterLock cb)))
  | DeregisterLock cb => lock t s (λ _, DeregisterCheck cb)
  | DeregisterCheck cb =>
      o ← get (heap s) cb;
      if negb (bool_decide (executed_by_ o = Some t)) && negb (bool_decide (executed_by_ o = None))
      then Ret (Some (s, Continue (DeregisterWait cb)))
      else Ret (Some (s, Continue (DeregisterUnlink cb)))
  | DeregisterWait cb =>
      o ← get (heap s) cb;
      if negb (callback_id_ o =? currently_executing_callback_ s)
      then Ret (Some (s, Continue (DeregisterUnlink cb)))
      else Ret (Some (set_mutex None s, Continue (DeregisterSleep cb false)))
  | DeregisterSleep cb true => lock t s (λ _, DeregisterWait cb)
  | DeregisterUnlink cb =>
      s ← unlink s cb; Ret (Some (set_mutex None s, Destroyed cb))
  | RequestStop =>
      if stop_requested_ s then Ret (Some (s, Returned false))
      else Ret (Some (set_stop s, Continue NotifyLock))
  | NotifyLock => lock t s (λ s, NotifyLoop (first_callback_ s))
  | NotifyLoop None => Ret (Some (set_mutex None s, Returned true))
  | NotifyLoop (Some cb) =>
      o ← get (heap s) cb;
      if negb (already_started_executing_ o) then
        ASSERT_PRD (negb (callback_id_ o =? 0))
        (ASSERT_PRD (currently_executing_callback_ s =? 0)
        (h ← put (heap s) cb (set_started t);
         Ret (Some (set_mutex None (set_current (callback_id_ o) (set_heap h s)),
                    Continue (ExecuteCall cb)))))
      else Ret (Some (s, Continue (NotifyLoop (next_ o))))
  | ExecuteLock cb => lock t s (λ _, ExecuteEnd cb)
  | ExecuteEnd _ =>
      Ret (Some (set_current default_stop_callback_id s, ContinueNotify (NotifyLoop (first_callback_ s))))
  | RegisterCall _ | ExecuteCall _ | DeregisterSleep _ false => Ret None
  end.

(** ** The system *)

(** [owned]: objects whose constructor has returned and whose destructor has
    not been called; [used]: all objects there ever were; [executed]: the
    callbacks that were called, in order; [destroyed]: the thread that
    destroyed an object; [stops]: the results of [request_stop]. *)
Record system := {
  state : stop_state;
  calls : list (nat * call);
  owned : gset nat;
  used : gset nat;
  executed : list nat;
  destroyed : gmap nat nat;
  stops : list bool;
}.

Definition initial : system :=
  {| state := new_state; calls := []; owned := ∅; used := ∅; executed := []; destroyed := ∅;
     stops := [] |}.

(** The callback that is called when a thread gets to [k]. *)
Definition called (k : call) : list nat :=
  match k with RegisterCall cb | ExecuteCall cb => [cb] | _ => [] end.

Definition notify (x : nat * call) : nat * call :=
  match x with (t, DeregisterSleep cb _) => (t, DeregisterSleep cb true) | _ => x end.

(** [above] and [below] are the calls before and after that of thread [t]. *)
Definition resume (σ : system) (t : nat) (above below : list (nat * call)) (s : stop_state)
    (r : control) : system :=
  match r with
  | Continue k =>
      {| state := s; calls := above ++ (t, k) :: below; owned := owned σ; used := used σ;
         executed := executed σ ++ called k; destroyed := destroyed σ; stops := stops σ |}
  | ContinueNotify k =>
      {| state := s; calls := (notify <$> above) ++ (t, k) :: (notify <$> below); owned := owned σ;
         used := used σ; executed := executed σ; destroyed := destroyed σ; stops := stops σ |}
  | Registered cb =>
      {| state := s; calls := above ++ below; owned := {[cb]} ∪ owned σ; used := used σ;
         executed := executed σ; destroyed := destroyed σ; stops := stops σ |}
  | Destroyed cb =>
      {| state := set_heap (delete cb (heap s)) s; calls := above ++ below; owned := owned σ;
         used := used σ; executed := executed σ; destroyed := <[cb := t]> (destroyed σ);
         stops := stops σ |}
  | Returned b =>
      {| state := s; calls := above ++ below; owned := owned σ; used := used σ;
         executed := executed σ; destroyed := destroyed σ; stops := stops σ ++ [b] |}
  end.

(** Code of the client runs between calls and in callbacks. *)
Definition is_client (k : call) : bool :=
  match k with RegisterCall _ | ExecuteCall _ => true | _ => false end.

Inductive step (σ : system) : system → Prop :=
| step_run t k above below s r :
    calls σ = above ++ (t, k) :: below → t ∉ above.*1 →
    next_callback_id_ (state σ) < max uint64_t →
    stop_step t (state σ) k = Ret (Some (s, r)) →
    step σ (resume σ t above below s r)
| step_spurious t cb above below :
    calls σ = above ++ (t, DeregisterSleep cb false) :: below →
    step σ {| state := state σ; calls := above ++ (t, DeregisterSleep cb true) :: below;
              owned := owned σ; used := used σ; executed := executed σ;
              destroyed := destroyed σ; stops := stops σ |}
| step_construct t cb :
    in_client is_client (calls σ) t → cb ∉ used σ →
    step σ {| state := set_heap (<[cb := new_callback]> (heap (state σ))) (state σ);
              calls := (t, RegisterLock cb) :: calls σ; owned := owned σ;
              used := {[cb]} ∪ used σ; executed := executed σ; destroyed := destroyed σ;
              stops := stops σ |}
| step_destroy t cb :
    in_client is_client (calls σ) t → cb ∈ owned σ →
    step σ {| state := state σ; calls := (t, DeregisterTest cb) :: calls σ;
              owned := owned σ ∖ {[cb]}; used := used σ; executed := executed σ;
              destroyed := destroyed σ; stops := stops σ |}
| step_request t :
    in_client is_client (calls σ) t →
    step σ {| state := state σ; calls := (t, RequestStop) :: calls σ; owned := owned σ;
              used := used σ; executed := executed σ; destroyed := destroyed σ; stops := stops σ |}
| step_register_return t cb above below :
    calls σ = above ++ (t, RegisterCall cb) :: below → t ∉ above.*1 →
    step σ {| state := state σ; calls := above ++ below; owned := {[cb]} ∪ owned σ; used := used σ;
              executed := executed σ; destroyed := destroyed σ; stops := stops σ |}
| step_execute_return t cb above below :
    calls σ = above ++ (t, ExecuteCall cb) :: below → t ∉ above.*1 →
    step σ {| state := state σ; calls := above ++ (t, ExecuteLock cb) :: below; owned := owned σ;
              used := used σ; executed := executed σ; destroyed := destroyed σ; stops := stops σ |}.

Definition reachable (σ : system) : Prop := rtc step initial σ.

(** ** A scheduler *)

(** One step of the system, chosen by who makes it. *)
Inductive action :=
| Run (t : nat)
| Construct (t c : nat)
| Destroy (t c : nat)
| Request (t : nat)
| Return (t : nat).

Definition with_calls (σ : system) (cs : list (nat * call)) : system :=
  {| state := state σ; calls := cs; owned := owned σ; used := used σ; executed := executed σ;
     destroyed := destroyed σ; stops := stops σ |}.

Definition perform (σ : system) (a : action) : option system :=
  match a with
  | Run t =>
      '(above, k, below) ← split_top (calls σ) t;
      if next_callback_id_ (state σ) <? max uint64_t then
        match stop_step t (state σ) k with
        | Ret (Some (s, r)) => Some (resume σ t above below s r)
        | _ => None
        end
      else None
  | Construct t c =>
      if client_code is_client (calls σ) t && bool_decide (c ∉ used σ) then
        Some {| state := set_heap (<[c := new_callback]> (heap (state σ))) (state σ);
                calls := (t, RegisterLock c) :: calls σ; owned := owned σ;
                used := {[c]} ∪ used σ; executed := executed σ; destroyed := destroyed σ;
                stops := stops σ |}
      else None
  | Destroy t c =>
      if client_code is_client (calls σ) t && bool_decide (c ∈ owned σ) then
        Some {| state := state σ; calls := (t, DeregisterTest c) :: calls σ;
                owned := owned σ ∖ {[c]}; used := used σ; executed := executed σ;
                destroyed := destroyed σ; stops := stops σ |}
      else None
  | Request t =>
      if client_code is_client (calls σ) t then Some (with_calls σ ((t, RequestStop) :: calls σ)) else None
  | Return t =>
      '(above, k, below) ← split_top (calls σ) t;
      match k with
      | RegisterCall c =>
          Some {| state := state σ; calls := above ++ below; owned := {[c]} ∪ owned σ;
                  used := used σ; executed := executed σ; destroyed := destroyed σ;
                  stops := stops σ |}
      | ExecuteCall c => Some (with_calls σ (above ++ (t, ExecuteLock c) :: below))
      | _ => None
      end
  end.

Fixpoint schedule (σ : system) (l : list action) : option system :=
  match l with
  | [] => Some σ
  | a :: l => σ' ← perform σ a; schedule σ' l
  end.

Lemma stop_perform_step σ a σ' : perform σ a = Some σ' → step σ σ'.
Proof.
  destruct a as [t|t c|t c|t|t]; cbn [perform].
  - destruct (split_top (calls σ) t) as [[[above k] below]|] eqn:E; [|done]. cbn [mbind option_bind].
    apply split_top_Some in E as [E Ht]. case_match eqn:Hn; [|done]. apply Z.ltb_lt in Hn.
    destruct (stop_step t (state σ) k) as [[[s r]|]| |] eqn:Hs; try done. intros [= <-].
    by eapply step_run.
  - case_match eqn:H; [|done]. apply andb_true_iff in H as [?%client_code_in_client ?%bool_decide_eq_true].
    intros [= <-]. by apply step_construct.
  - case_match eqn:H; [|done]. apply andb_true_iff in H as [?%client_code_in_client ?%bool_decide_eq_true].
    intros [= <-]. by apply step_destroy.
  - case_match eqn:H; [|done]. apply client_code_in_client in H. intros [= <-]. by apply step_request.
  - destruct (split_top (calls σ) t) as [[[above k] below]|] eqn:E; [|done]. cbn [mbind option_bind].
    apply split_top_Some in E as [E Ht]. destruct k; try done; intros [= <-].
    + by eapply step_register_return.
    + by eapply step_execute_return.
Qed.

Lemma stop_schedule_reachable l σ : schedule initial l = Some σ → reachable σ.
Proof.
  unfold reachable. generalize initial. induction l as [|a l IH]; intros σ0; cbn [schedule].
  { intros [= ->]. apply rtc_refl. }
  destruct (perform σ0 a) as [σ1|] eqn:E; [|done]. intros H. eapply rtc_l; [by apply stop_perform_step in E|auto].
Qed.

End StopToken.
