(* ===== verification/StopTokenInv.v ===== *)
(** * The invariant of stop tokens

    The objects with an identifier form a doubly linked list, every object that
    is not [owned] has one call at work on it, at most one call executes the
    callbacks, and a call holds the mutex exactly when it should.  This file
    has the lemmas on the list, and for each kind of step how the invariant
    gets over it. *)

From stdpp Require Import gmap relations.
From S2P Require Import Prelude CppInt CallStacks StopToken.

Local Open Scope Z_scope.

Module StopTokenInv.
Import CallStacks StopToken.

(** ** Classification of calls *)

Definition object (k : call) : option nat :=
  match k with
  | RegisterLock c | RegisterTest c | RegisterStart c | RegisterLink c | RegisterCall c
  | DeregisterTest c | DeregisterLock c | DeregisterCheck c | DeregisterWait c
  | DeregisterSleep c _ | DeregisterUnlink c => Some c
  | _ => None
  end.

Definition executing (k : call) : option nat :=
  match k with ExecuteCall c | ExecuteLock c | ExecuteEnd c => Some c | _ => None end.

Definition holds (k : call) : bool :=
  match k with
  | RegisterTest _ | RegisterStart _ | RegisterLink _ | DeregisterCheck _ | DeregisterWait _
  | DeregisterUnlink _ | NotifyLoop _ | ExecuteEnd _ => true
  | _ => false
  end.

Definition notifying (k : call) : bool :=
  match k with
  | NotifyLock | NotifyLoop _ | ExecuteCall _ | ExecuteLock _ | ExecuteEnd _ => true
  | _ => false
  end.

Definition on (c : nat) (k : call) : bool := bool_decide (object k = Some c).
Definition executes (k : call) : bool := bool_decide (is_Some (executing k)).

(** ** The list of callbacks *)

(** The first element of [l], before [n]; the last one, behind [p]. *)
Definition first_or (n : option nat) (l : list nat) : option nat :=
  match l with [] => n | c :: _ => Some c end.
Definition last_or (p : option nat) (l : list nat) : option nat :=
  match last l with None => p | Some c => Some c end.

(** A part of the list, between [p] and [n]. *)
Fixpoint seg (h : gmap nat stop_callback) (p : option nat) (l : list nat) (n : option nat) : Prop :=
  match l with
  | [] => True
  | c :: l => (∃ o, h !! c = Some o ∧ callback_id_ o ≠ 0 ∧ prev_ o = p ∧ next_ o = first_or n l)
              ∧ seg h (Some c) l n
  end.

Record chain (h : gmap nat stop_callback) (f : option nat) (l : list nat) : Prop := {
  chain_first : f = first_or None l;
  chain_nodup : NoDup l;
  chain_seg : seg h None l None;
  chain_others : ∀ c o, h !! c = Some o → c ∉ l →
    callback_id_ o = 0 ∧ next_ o = None ∧ prev_ o = None;
}.

(** What is left of an object without its links. *)
Definition view (o : stop_callback) : Z * bool * option nat :=
  (callback_id_ o, already_started_executing_ o, executed_by_ o).

Definition views (h : gmap nat stop_callback) : gmap nat (Z * bool * option nat) := view <$> h.

Lemma last_or_cons p c l : last_or p (c :: l) = last_or (Some c) l.
Proof. unfold last_or. rewrite last_cons. by destruct (last l). Qed.

Lemma seg_app h p l1 l2 n :
  seg h p (l1 ++ l2) n ↔ seg h p l1 (first_or n l2) ∧ seg h (last_or p l1) l2 n.
Proof.
  revert p. induction l1 as [|c l1 IH]; intros p; [simpl; tauto|].
  cbn [app seg]. rewrite IH, last_or_cons. assert (first_or n (l1 ++ l2) = first_or (first_or n l2) l1) as ->
    by (by destruct l1). tauto.
Qed.

Lemma seg_elem h p l n c : seg h p l n → c ∈ l → ∃ o, h !! c = Some o ∧ callback_id_ o ≠ 0.
Proof.
  revert p. induction l as [|c' l IH]; intros p; [by intros _ ?%elem_of_nil|].
  intros [(o & Ho & Hid & _) Hs] [->|H]%elem_of_cons; eauto.
Qed.

Lemma seg_insert h p l n c o : c ∉ l → seg h p l n → seg (<[c := o]> h) p l n.
Proof.
  revert p. induction l as [|c' l IH]; intros p Hne; [done|]. apply not_elem_of_cons in Hne as [??].
  intros [(o' & ?) Hs]. split; [|by apply IH]. exists o'. by rewrite lookup_insert_ne.
Qed.

Lemma seg_delete h p l n c : c ∉ l → seg h p l n → seg (delete c h) p l n.
Proof.
  revert p. induction l as [|c' l IH]; intros p Hne; [done|]. apply not_elem_of_cons in Hne as [??].
  intros [(o' & ?) Hs]. split; [|by apply IH]. exists o'. by rewrite lookup_delete_ne.
Qed.

Lemma seg_set_next h p l z oz n n' :
  z ∉ l → h !! z = Some oz → seg h p (l ++ [z]) n → seg (<[z := set_next n' oz]> h) p (l ++ [z]) n'.
Proof.
  intros Hne Hz. rewrite !seg_app. intros [H1 [(o & Ho & ? & ? & ?) _]].
  split; [by apply seg_insert|]. split; [|done]. simplify_eq. eexists. by rewrite lookup_insert_eq.
Qed.

Lemma seg_set_prev h p p' l c o n :
  c ∉ l → h !! c = Some o → seg h p (c :: l) n → seg (<[c := set_prev p' o]> h) p' (c :: l) n.
Proof.
  intros Hne Hz [(o' & Ho & ? & ? & ?) Hs]. split; [|by apply seg_insert].
  simplify_eq. eexists. by rewrite lookup_insert_eq.
Qed.

Lemma get_Some h c o : h !! c = Some o → get h c = Ret o.
Proof. unfold get. by intros ->. Qed.

Lemma views_insert h c o : views (<[c := o]> h) = <[c := view o]> (views h).
Proof. apply fmap_insert. Qed.

Lemma views_delete h c : views (delete c h) = delete c (views h).
Proof. apply fmap_delete. Qed.

Lemma view_insert_same h c o o' : h !! c = Some o → view o' = view o → views (<[c := o']> h) = views h.
Proof.
  intros H Hv. unfold views. rewrite fmap_insert, Hv. apply insert_id. by rewrite lookup_fmap, H.
Qed.

Lemma last_callback_spec h p l z n fuel :
  seg h p (l ++ [z]) None → first_or None (l ++ [z]) = Some n → (length l < fuel)%nat →
  last_callback fuel h n = Ret z.
Proof.
  revert p n fuel. induction l as [|c l IH]; intros p n fuel [(o & Ho & _ & _ & Hn) Hs] Hf Hlen;
    (destruct fuel as [|fuel]; [simpl in Hlen; lia|]); injection Hf as <-;
    cbn [last_callback]; unfold get; rewrite Ho; cbn [mbind outcome_bind]; rewrite Hn; [done|].
  destruct (first_or None (l ++ [z])) as [n|] eqn:E; [|by destruct l].
  apply (IH (Some c)); [done..|simpl in Hlen; lia].
Qed.

Lemma stop_chain_linked h f l c : chain h f l → c ∈ l → ∃ o, h !! c = Some o ∧ callback_id_ o ≠ 0.
Proof. intros Hc. eapply seg_elem. apply Hc. Qed.

Lemma chain_length h f l : chain h f l → (length l ≤ size h)%nat.
Proof.
  intros Hc. rewrite <-(size_list_to_set (C := gset nat) l) by apply Hc. rewrite <-size_dom.
  apply subseteq_size. intros c. rewrite elem_of_list_to_set, elem_of_dom.
  intros (o & -> & _)%(stop_chain_linked _ _ _ _ Hc). done.
Qed.

Lemma chain_not_linked h f l c o : chain h f l → h !! c = Some o → callback_id_ o = 0 → c ∉ l.
Proof. intros Hc Ho Hid (o' & Ho' & ?)%(stop_chain_linked _ _ _ _ Hc). by simplify_eq. Qed.

(** The end of the list after [c] was appended behind [z]. *)
Lemma chain_snoc h f l z c o oz i :
  chain h f (l ++ [z]) → h !! c = Some o → callback_id_ o = 0 → h !! z = Some oz → i ≠ 0 →
  chain (<[c := set_prev (Some z) (set_id i o)]> (<[z := set_next (Some c) oz]> h)) f ((l ++ [z]) ++ [c]).
Proof.
  intros Hc Ho Hid Hz Hi. pose proof (chain_not_linked _ _ _ _ _ Hc Ho Hid) as Hnot.
  destruct (chain_others _ _ _ Hc c o Ho Hnot) as (_ & Hn & Hp).
  pose proof (chain_nodup _ _ _ Hc) as Hnd. assert (z ∉ l) by (apply NoDup_app in Hnd; set_solver).
  split.
  - rewrite (chain_first _ _ _ Hc). by destruct l.
  - apply NoDup_app. split_and!; [done| |apply NoDup_singleton].
    intros x Hx ->%list_elem_of_singleton. done.
  - apply seg_app. split.
    + apply seg_insert; [done|]. apply (seg_set_next _ _ _ _ _ None); [done..|apply Hc].
    + split; [|done]. eexists. rewrite lookup_insert_eq. split; [done|]. cbn.
      unfold last_or. by rewrite last_snoc.
  - intros c' o' Ho' Hne. rewrite !lookup_insert_ne in Ho' by set_solver.
    apply (chain_others _ _ _ Hc c' o' Ho'). set_solver.
Qed.

(** [register_callback]: [h] is the heap before the identifier was set. *)
Lemma append_spec s h l c o i :
  chain h (first_callback_ s) l → h !! c = Some o → callback_id_ o = 0 → i ≠ 0 →
  heap s = <[c := set_id i o]> h →
  ∃ h' f, append s c = Ret (set_first f (set_heap h' s)) ∧ chain h' f (l ++ [c])
    ∧ views h' = <[c := (i, already_started_executing_ o, executed_by_ o)]> (views h).
Proof.
  intros Hc Ho Hid Hi Hs. pose proof (chain_not_linked _ _ _ _ _ Hc Ho Hid) as Hnot.
  destruct (chain_others _ _ _ Hc c o Ho Hnot) as (_ & Hn & Hp).
  unfold append. rewrite (chain_first _ _ _ Hc).
  destruct l as [|z l _] using rev_ind; cbn [first_or].
  - exists (heap s), (Some c). split; [by destruct s|]. rewrite Hs. split; [|by rewrite views_insert].
    split; [done|apply NoDup_singleton| |].
    + split; [|done]. eexists. rewrite lookup_insert_eq. done.
    + intros c' o' Ho' Hne. rewrite lookup_insert_ne in Ho' by set_solver.
      apply (chain_others _ _ _ Hc c' o' Ho'). set_solver.
  - destruct (first_or None (l ++ [z])) as [f|] eqn:Hf; [|by destruct l].
    pose proof (chain_seg _ _ _ Hc) as Hseg.
    destruct (seg_elem _ _ _ _ z Hseg) as (oz & Hz & Hidz); [set_solver|].
    assert (c ≠ z) by set_solver.
    rewrite Hs, (last_callback_spec _ None l z); [|by apply seg_insert|done|].
    2:{ apply chain_length in Hc. rewrite length_app in Hc. simpl in Hc.
        rewrite map_size_insert_Some by eauto. lia. }
    cbn [mbind outcome_bind]. unfold put, get. rewrite lookup_insert_ne, Hz by done.
    cbn [mbind outcome_bind]. rewrite lookup_insert_ne, lookup_insert_eq by done.
    cbn [mbind outcome_bind]. rewrite (insert_insert_ne _ z c), insert_insert_eq by done.
    exists (<[c := set_prev (Some z) (set_id i o)]> (<[z := set_next (Some c) oz]> h)), (first_callback_ s).
    split; [done|]. split; [by apply chain_snoc|].
    rewrite views_insert. f_equal. by apply (view_insert_same _ _ oz).
Qed.

(** The object [c] in the middle of the list. *)
Lemma chain_middle h f l1 c l2 :
  chain h f (l1 ++ c :: l2) → seg h None l1 (Some c) ∧ seg h (Some c) l2 None
    ∧ ∃ o, h !! c = Some o ∧ callback_id_ o ≠ 0 ∧ prev_ o = last_or None l1 ∧ next_ o = first_or None l2.
Proof. intros [_ _ Hs _]. apply seg_app in Hs as [H1 [(o & Ho) H2]]. eauto. Qed.

(** The first half of [unlink]: the predecessor leads past [c]. *)
Lemma unlink_predecessor s l1 c l2 o :
  NoDup (l1 ++ c :: l2) → seg (heap s) None l1 (Some c) → seg (heap s) (Some c) l2 None →
  heap s !! c = Some o → prev_ o = last_or None l1 → next_ o = first_or None l2 →
  first_callback_ s = first_or None (l1 ++ c :: l2) →
  ∃ h, match prev_ o with
       | None => Ret (set_first (next_ o) s)
       | Some p =>
           po ← get (heap s) p;
           ASSERT_PRD (bool_decide (next_ po = Some c))
             (h ← put (heap s) p (set_next (next_ o)); Ret (set_heap h s))
       end = Ret (set_first (first_or None (l1 ++ l2)) (set_heap h s))
    ∧ seg h None l1 (first_or None l2) ∧ seg h (Some c) l2 None ∧ h !! c = Some o
    ∧ views h = views (heap s) ∧ dom h = dom (heap s)
    ∧ (∀ c', c' ∉ l1 → h !! c' = heap s !! c').
Proof.
  intros Hnd H1 H2 Ho Hp Hn Hf. rewrite Hp.
  destruct l1 as [|p l1 _] using rev_ind.
  { exists (heap s). rewrite Hn. destruct s. cbn. done. }
  unfold last_or. rewrite last_snoc. apply NoDup_app in Hnd as (Hnd1 & Hdis & Hnd2).
  assert (p ∉ l1 ∧ p ≠ c ∧ p ∉ l2) as (? & ? & ?).
  { apply NoDup_app in Hnd1 as (_ & Hd & _). specialize (Hdis p ltac:(set_solver)). set_solver. }
  pose proof H1 as H1'. apply seg_app in H1' as [_ [(po & Hpo & _ & _ & Hpn) _]].
  unfold put, get. rewrite Hpo. cbn [mbind outcome_bind]. rewrite bool_decide_true by done.
  unfold ASSERT_PRD. exists (<[p := set_next (next_ o) po]> (heap s)). split; [destruct s; cbn in Hf |- *; rewrite Hf; by destruct l1|].
  split_and!.
  - rewrite Hn. by apply (seg_set_next _ _ _ _ _ (Some c)).
  - by apply seg_insert.
  - by rewrite lookup_insert_ne.
  - by apply (view_insert_same _ _ po).
  - rewrite dom_insert_L. apply subseteq_union_1_L, singleton_subseteq_l, elem_of_dom. eauto.
  - intros c' Hc'. rewrite lookup_insert_ne by set_solver. done.
Qed.

(** The second half: the successor leads back past [c]. *)
Lemma unlink_successor s c l2 o p :
  NoDup (c :: l2) → seg (heap s) (Some c) l2 None → next_ o = first_or None l2 → prev_ o = p →
  ∃ h, match next_ o with
       | None => Ret s
       | Some n =>
           no ← get (heap s) n;
           ASSERT_PRD (bool_decide (prev_ no = Some c))
             (h ← put (heap s) n (set_prev (prev_ o)); Ret (set_heap h s))
       end = Ret (set_heap h s)
    ∧ seg h p l2 None ∧ views h = views (heap s)
    ∧ (∀ c', c' ∉ l2 → h !! c' = heap s !! c')
    ∧ (∀ q l1 n, (∀ c', c' ∈ l1 → c' ∉ l2) → seg (heap s) q l1 n → seg h q l1 n).
Proof.
  intros Hnd H2 Hn Hp. rewrite Hn. destruct l2 as [|n l2]; cbn [first_or].
  { exists (heap s). split_and!; [by destruct s|done..]. }
  pose proof H2 as [(no & Hno & _ & Hnp & _) _]. apply NoDup_cons in Hnd as [? [??]%NoDup_cons].
  unfold put, get. rewrite Hno. cbn [mbind outcome_bind]. rewrite bool_decide_true by done.
  unfold ASSERT_PRD. exists (<[n := set_prev (prev_ o) no]> (heap s)). split; [done|]. split_and!.
  - rewrite Hp. by apply (seg_set_prev _ (Some c)).
  - by apply (view_insert_same _ _ no).
  - intros c' Hc'. rewrite lookup_insert_ne by set_solver. done.
  - intros q l1 n' Hd. apply seg_insert. intros ?. apply (Hd n); set_solver.
Qed.

Lemma unlink_spec s l1 c l2 :
  chain (heap s) (first_callback_ s) (l1 ++ c :: l2) →
  ∃ h f, unlink s c = Ret (set_first f (set_heap h s)) ∧ chain (delete c h) f (l1 ++ l2)
    ∧ delete c (views h) = delete c (views (heap s)).
Proof.
  intros Hc. pose proof (chain_nodup _ _ _ Hc) as Hnd.
  destruct (chain_middle _ _ _ _ _ Hc) as (H1 & H2 & o & Ho & Hid & Hp & Hn).
  unfold unlink. rewrite (get_Some _ _ _ Ho). cbn [mbind outcome_bind].
  destruct (unlink_predecessor s l1 c l2 o) as (h1 & E1 & Hs1 & Hs2 & Ho1 & Hv1 & Hd1 & Hr1);
    [done..|apply Hc|]. rewrite E1. cbn [mbind outcome_bind]. clear E1.
  cbn [heap set_first set_heap]. rewrite (get_Some _ _ _ Ho1). cbn [mbind outcome_bind].
  assert (c ∉ l1 ∧ c ∉ l2 ∧ NoDup (c :: l2) ∧ (∀ x, x ∈ l1 → x ∉ l2) ∧ NoDup (l1 ++ l2))
    as (Hc1 & Hc2 & Hnd2 & Hdis & Hnd').
  { apply NoDup_app in Hnd as (? & Hd & Hnd2). pose proof Hnd2 as [??]%NoDup_cons.
    split_and!; [set_solver..|]. apply NoDup_app. set_solver. }
  destruct (unlink_successor (set_first (first_or None (l1 ++ l2)) (set_heap h1 s)) c l2 o
    (last_or None l1)) as (h2 & E2 & Hs3 & Hv2 & Hr2 & Hk); [done..|].
 cbn [heap set_first set_heap] in E2. rewrite E2. cbn [mbind outcome_bind]. clear E2.
  unfold put, get. cbn [heap set_first set_heap] in *. rewrite Hr2, Ho1 by done. cbn [mbind outcome_bind].
  exists (<[c := set_prev None (set_next None o)]> h2), (first_or None (l1 ++ l2)). split; [done|].
  rewrite delete_insert_eq. split; [split; [done|done| |]|].
  - apply seg_app. split; (apply seg_delete; [done|]); [apply Hk|]; done.
  - intros c' o' [Hne Ho']%lookup_delete_Some Hnot.
    rewrite Hr2, Hr1 in Ho' by set_solver. apply (chain_others _ _ _ Hc c' o' Ho'). set_solver.
  - rewrite views_insert, delete_insert_eq, Hv2. by f_equal.
Qed.

(** ** The invariant *)

Notation cviews := (gmap nat (Z * bool * option nat)).

(** What holds when thread [t] is at [k]; [cur] is the identifier of the
    callback that is executing and [nid] the next identifier. *)
Definition call_inv (stop : bool) (cur nid : Z) (V : cviews) (D : gmap nat nat) (l : list nat)
    (t : nat) (k : call) : Prop :=
  match k with
  | RegisterLock c | RegisterTest c | RegisterLink c => V !! c = Some (0, false, None)
  | RegisterStart c => V !! c = Some (0, false, None) ∧ stop = true
  | RegisterCall c => ∃ e, V !! c = Some (0, true, e)
  | DeregisterTest c => is_Some (V !! c)
  | DeregisterLock c | DeregisterCheck c => ∃ i b e, V !! c = Some (i, b, e) ∧ i ≠ 0
  | DeregisterWait c => ∃ i b t', V !! c = Some (i, b, Some t') ∧ i ≠ 0 ∧ t' ≠ t
  | DeregisterSleep c n =>
      ∃ i b t', V !! c = Some (i, b, Some t') ∧ i ≠ 0 ∧ t' ≠ t ∧ (n = false → i = cur)
  | DeregisterUnlink c => ∃ i b e, V !! c = Some (i, b, e) ∧ i ≠ 0 ∧ (i = cur → e = Some t)
  | RequestStop | NotifyLock => True
  | NotifyLoop cb => cur = 0 ∧ ∃ l1 l2, l = l1 ++ l2 ∧ cb = first_or None l2
      ∧ ∀ c, c ∈ l1 → ∃ i e, V !! c = Some (i, true, e)
  | ExecuteCall c | ExecuteLock c | ExecuteEnd c =>
      0 < cur < nid ∧ (∀ c' b e, V !! c' = Some (cur, b, e) → c' = c)
      ∧ match V !! c with Some (i, _, e) => i = cur ∧ e = Some t | None => D !! c = Some t end
  end.

Record inv (s : stop_state) (F : list (nat * call)) (O U : gset nat) (E : list nat)
    (D : gmap nat nat) (R : list bool) (l : list nat) : Prop := {
  i_chain : chain (heap s) (first_callback_ s) l;
  i_next : 0 < next_callback_id_ s < 2 ^ 64;
  i_view : ∀ c i b e, views (heap s) !! c = Some (i, b, e) →
    0 <= i < next_callback_id_ s ∧ (b = true ↔ c ∈ E) ∧ c ∈ U ∧ (b = false → e = None);
  i_unique : ∀ c1 c2 i b1 e1 b2 e2, views (heap s) !! c1 = Some (i, b1, e1) →
    views (heap s) !! c2 = Some (i, b2, e2) → i ≠ 0 → c1 = c2;
  i_calls : ∀ t k, (t, k) ∈ F → call_inv (stop_requested_ s) (currently_executing_callback_ s)
    (next_callback_id_ s) (views (heap s)) D l t k;
  i_current : count executes F = 0%nat → currently_executing_callback_ s = 0;
  i_stops : (count_occ bool_dec R true + count notifying F = if stop_requested_ s then 1 else 0)%nat;
  i_mutex : count holds F = (if callback_mutex_ s then 1 else 0)%nat;
  i_holder : ∀ t k, (t, k) ∈ F → holds k = true → callback_mutex_ s = Some t;
  i_objects : ∀ c, count (on c) F
    = (if decide (is_Some (views (heap s) !! c) ∧ c ∉ O) then 1 else 0)%nat;
  i_owned : ∀ c, c ∈ O → ∃ i b e, views (heap s) !! c = Some (i, b, e) ∧ (i ≠ 0 ∨ b = true);
  i_complete : stop_requested_ s = true → count notifying F = 0%nat →
    ∀ c, c ∈ l → ∃ i e, views (heap s) !! c = Some (i, true, e);
  i_link : ∀ t c, (t, RegisterLink c) ∈ F → stop_requested_ s = true → ∃ t', (t', NotifyLock) ∈ F;
  i_executed : NoDup E ∧ ∀ c, c ∈ E → c ∈ U;
  i_destroyed : ∀ c t, D !! c = Some t → c ∈ U;
}.

Lemma stop_inv_perm s F F' O U E D R l : F ≡ₚ F' → inv s F O U E D R l → inv s F' O U E D R l.
Proof.
  intros HF []. split; try done;
    try (intros; first [rewrite <-(count_perm _ _ _ HF) in *|idtac]; eauto; fail).
  all: setoid_rewrite <-HF; done.
Qed.

Lemma exec_frame cur cur' nid nid' (V V' : cviews) (D D' : gmap nat nat) t c :
  (0 < cur < nid ∧ (∀ c' b e, V !! c' = Some (cur, b, e) → c' = c)
   ∧ match V !! c with Some (i, _, e) => i = cur ∧ e = Some t | None => D !! c = Some t end) →
  cur' = cur →
  nid <= nid' ∧ (∀ c' b e, V' !! c' = Some (cur, b, e) → V !! c' = Some (cur, b, e))
    ∧ (V' !! c = V !! c ∧ (V !! c = None → D' !! c = D !! c) ∨ V' !! c = None ∧ D' !! c = Some t) →
  0 < cur' < nid' ∧ (∀ c' b e, V' !! c' = Some (cur', b, e) → c' = c)
  ∧ match V' !! c with Some (i, _, e) => i = cur' ∧ e = Some t | None => D' !! c = Some t end.
Proof.
  intros (Hr & Hu & Hc) -> (Hn & Hv & Hd). split; [lia|]. split; [eauto|].
  destruct Hd as [[-> Hd]|[-> ->]]; [|done]. destruct (V !! c) as [[[i b] e]|]; [done|]. by rewrite Hd.
Qed.

(** The calls of other threads when [V], [D], [l] and the identifiers change. *)
Lemma stop_call_inv_frame stop stop' cur cur' nid nid' V V' D D' l l' t k :
  call_inv stop cur nid V D l t k →
  (stop = true → stop' = true) →
  (∀ c, object k = Some c → V' !! c = V !! c) →
  (cur' = cur ∨ (executing k = None ∧ holds k = false ∧ ∀ c, k ≠ DeregisterSleep c false)) →
  (∀ c, executing k = Some c → nid <= nid' ∧ (∀ c' b e, V' !! c' = Some (cur, b, e) → V !! c' = Some (cur, b, e))
     ∧ (V' !! c = V !! c ∧ (V !! c = None → D' !! c = D !! c) ∨ V' !! c = None ∧ D' !! c = Some t)) →
  (∀ cb, k = NotifyLoop cb → l' = l ∧ ∀ c, c ∈ l → V' !! c = V !! c) →
  call_inv stop' cur' nid' V' D' l' t k.
Proof.
  intros Hk Hstop Hobj Hcur Hexec Hloop.
  assert (∀ c, executing k = Some c → cur' = cur) as Hcur'.
  { intros c Hc. destruct Hcur as [|[? _]]; [done|congruence]. }
  destruct k; cbn [call_inv object executing holds] in *; try rewrite (Hobj _ eq_refl); try done.
  - destruct Hk. auto.
  - destruct Hk as (i & b & t' & ? & ? & ? & Hn). exists i, b, t'. split_and!; [done..|].
    intros ->. destruct Hcur as [->|(_ & _ & Hc)]; [auto|]. by destruct (Hc cb).
  - destruct Hcur as [->|(_ & ? & _)]; done.
  - destruct Hcur as [->|(_ & ? & _)]; [|done]. destruct Hk as (? & l1 & l2 & -> & -> & Hl).
    split; [done|]. destruct (Hloop _ eq_refl) as [-> Hv]. exists l1, l2. split_and!; [done..|].
    intros c Hc. rewrite Hv by set_solver. auto.
  - eapply exec_frame; [exact Hk|eauto|by apply Hexec].
  - eapply exec_frame; [exact Hk|eauto|by apply Hexec].
  - eapply exec_frame; [exact Hk|eauto|by apply Hexec].
Qed.

(** A call moves on: apart from the mutex the state does not change. *)
Lemma stop_inv_move s t k k' F O U E D R l m :
  inv s ((t, k) :: F) O U E D R l →
  object k' = object k → notifying k' = notifying k → executes k' = executes k →
  (holds k' = holds k ∧ m = callback_mutex_ s
   ∨ callback_mutex_ s = None ∧ holds k' = true ∧ m = Some t
   ∨ holds k = true ∧ holds k' = false ∧ m = None) →
  call_inv (stop_requested_ s) (currently_executing_callback_ s) (next_callback_id_ s)
    (views (heap s)) D l t k' →
  (∀ c, k' = RegisterLink c → stop_requested_ s = false) →
  (k = NotifyLock → callback_mutex_ s = None) →
  inv (set_mutex m s) ((t, k') :: F) O U E D R l.
Proof.
  intros [] Hobj Hnot Hex Hm Hk Hlink Hlock. rewrite !count_call in *.
  assert (∀ c, on c k' = on c k) as Hon by (intros c; unfold on; by rewrite Hobj).
  split; cbn [set_mutex heap first_callback_ next_callback_id_ currently_executing_callback_
    stop_requested_ callback_mutex_]; try done; rewrite ?count_call, ?Hnot, ?Hex; try done.
  - intros t0 k0 [[= -> ->]|Hin]%elem_of_cons; [done|]. apply i_calls0. by apply list_elem_of_further.
  - destruct Hm as [[-> ->]|[(Hm & -> & ->)|(Hm & -> & ->)]]; [done| |].
    + rewrite Hm in i_mutex0. destruct (holds k); lia.
    + rewrite Hm in i_mutex0. destruct (callback_mutex_ s); lia.
  - intros t0 k0 [[= -> ->]|Hin]%elem_of_cons Hh.
    + destruct Hm as [[Hm ->]|[(_ & _ & ->)|(_ & ? & _)]]; [|done|congruence].
      apply (i_holder0 t k); [apply list_elem_of_here|congruence].
    + pose proof (i_holder0 t0 k0 (list_elem_of_further _ _ _ Hin) Hh) as Hm0.
      destruct Hm as [[_ ->]|[(? & _)|(Hm & _)]]; [done|congruence|].
      rewrite Hm0, Hm in i_mutex0. rewrite (count_zero holds F t0 k0) in Hh; [done|lia|done].
  - intros c. rewrite count_call, Hon, <-i_objects0, count_call. done.
  - intros t0 c [[= -> <-]|Hin]%elem_of_cons Hs; [by rewrite (Hlink c) in Hs|].
    destruct (i_link0 t0 c) as (t' & [[= -> <-]|Ht']%elem_of_cons); [by apply list_elem_of_further|done| |].
    + rewrite (i_holder0 t0 _ (list_elem_of_further _ _ _ Hin)) in Hlock by done. by specialize (Hlock eq_refl).
    + exists t'. by apply list_elem_of_further.
Qed.

Section Transitions.
Context {s : stop_state} {t : nat} {k : call} {F : list (nat * call)}.
Context {O U : gset nat} {E : list nat} {D : gmap nat nat} {R : list bool} {l : list nat}.
Context (I : inv s ((t, k) :: F) O U E D R l).
Local Notation V := (views (heap s)).
Local Notation cur := (currently_executing_callback_ s).

Lemma stop_i_this : call_inv (stop_requested_ s) cur (next_callback_id_ s) V D l t k.
Proof using I. apply (i_calls _ _ _ _ _ _ _ _ I). apply list_elem_of_here. Qed.

Lemma stop_i_other t0 k0 : (t0, k0) ∈ F → call_inv (stop_requested_ s) cur (next_callback_id_ s) V D l t0 k0.
Proof using I. intros H. apply (i_calls _ _ _ _ _ _ _ _ I). by apply list_elem_of_further. Qed.

(** Nobody else works on the object. *)
Lemma other_object c t0 k0 : object k = Some c → (t0, k0) ∈ F → object k0 ≠ Some c.
Proof using I.
  intros Hk Hin Hk0. pose proof (i_objects _ _ _ _ _ _ _ _ I c) as Hc. rewrite count_call in Hc.
  assert (on c k = true) as Hon by (by apply bool_decide_eq_true). rewrite Hon in Hc.
  assert (on c k0 = false) as Hoff.
  { apply (count_zero (on c) F t0 k0); [|done]. case_decide; lia. }
  by apply bool_decide_eq_false in Hoff.
Qed.

Lemma this_object c : object k = Some c → is_Some (V !! c) ∧ c ∉ O ∧ count (on c) F = 0%nat.
Proof using I.
  intros Hk. pose proof (i_objects _ _ _ _ _ _ _ _ I c) as Hc. rewrite count_call in Hc.
  assert (on c k = true) as Hon by (by apply bool_decide_eq_true). rewrite Hon in Hc.
  case_decide as Hd; [|lia]. destruct Hd. split_and!; [done..|lia].
Qed.

Lemma stop_other_holds t0 k0 : holds k = true → (t0, k0) ∈ F → holds k0 = false.
Proof using I.
  intros Hk Hin. apply (count_zero holds F t0 k0); [|done].
  pose proof (i_mutex _ _ _ _ _ _ _ _ I) as Hm. rewrite count_call, Hk in Hm.
  destruct (callback_mutex_ s); lia.
Qed.

Lemma stop_rest_holds : holds k = true → count holds F = 0%nat.
Proof using I. intros Hk. apply count_zero_2. intros t0 k0. by apply stop_other_holds. Qed.

Lemma other_notifying t0 k0 : notifying k = true → (t0, k0) ∈ F → notifying k0 = false.
Proof using I.
  intros Hk Hin. apply (count_zero notifying F t0 k0); [|done].
  pose proof (i_stops _ _ _ _ _ _ _ _ I) as Hs. rewrite count_call, Hk in Hs.
  destruct (stop_requested_ s); lia.
Qed.

(** The callback that somebody else executes has the current identifier. *)
Lemma other_executing t0 k0 c c0 i b e :
  (t0, k0) ∈ F → executing k0 = Some c0 → V !! c = Some (i, b, e) → i ≠ cur → c ≠ c0.
Proof using I.
  intros Hin Hk0 Hc Hi ->. pose proof (stop_i_other _ _ Hin) as H.
  destruct k0; simplify_eq/=; rewrite Hc in H; naive_solver.
Qed.

Lemma executing_notifying k0 c : executing k0 = Some c → notifying k0 = true.
Proof using. by destruct k0. Qed.

(** Without a call that executes a callback there is no current one. *)
Lemma current_executing :
  cur ≠ 0 → ∃ t0 k0 c, (t0, k0) ∈ (t, k) :: F ∧ executing k0 = Some c.
Proof using I.
  intros Hc. destruct (decide (count executes ((t, k) :: F) = 0%nat)) as [H0|H0].
  { by apply (i_current _ _ _ _ _ _ _ _ I) in H0. }
  destruct (count_pos executes ((t, k) :: F)) as (t0 & k0 & Hin & [c Hk0]%bool_decide_eq_true); [lia|].
  eauto.
Qed.

(** The other calls when an object that is not yet registered changes. *)
Lemma frame_register c v nid' l' t0 k0 :
  holds k = true → object k = Some c → V !! c = Some (0, false, None) →
  next_callback_id_ s <= nid' → (v.1.1 = 0 ∨ next_callback_id_ s <= v.1.1) → (t0, k0) ∈ F →
  call_inv (stop_requested_ s) cur nid' (<[c := v]> V) D l' t0 k0.
Proof using I.
  intros Hh Hk Hc Hn Hv Hin. pose proof (stop_i_other _ _ Hin) as H0.
  assert (∀ c0, executing k0 = Some c0 → 0 < cur < next_callback_id_ s) as Hex
    by (intros c0 Hc0; destruct k0; simplify_eq/=; by destruct H0).
  eapply stop_call_inv_frame; [exact H0|done| |by left| |].
  - intros c0 Hc0. rewrite lookup_insert_ne; [done|]. intros ->. by apply (other_object c0 _ _ Hk Hin).
  - intros c0 Hc0. specialize (Hex _ Hc0). split; [done|]. split.
    + intros c' b e. destruct (decide (c' = c)) as [->|]; [|by rewrite lookup_insert_ne].
      rewrite lookup_insert_eq. intros [= ->]. simpl in Hv. lia.
    + left. rewrite lookup_insert_ne; [done|].
      apply (other_executing _ _ _ _ _ _ _ Hin Hc0 Hc). lia.
  - intros cb ->. by pose proof (stop_other_holds _ _ Hh Hin).
Qed.

End Transitions.

Ltac state_simpl :=
  cbn [set_mutex set_heap set_first set_current set_next_id set_stop heap first_callback_
    next_callback_id_ currently_executing_callback_ stop_requested_ callback_mutex_] in *.

(** Which objects exist, and which calls work on them. *)
Lemma objects_insert (V : cviews) k k' c v t F (O : gset nat) :
  object k' = object k → is_Some (V !! c) →
  (∀ c0, count (on c0) ((t, k) :: F) = (if decide (is_Some (V !! c0) ∧ c0 ∉ O) then 1 else 0)%nat) →
  ∀ c0, count (on c0) ((t, k') :: F)
    = (if decide (is_Some (<[c := v]> V !! c0) ∧ c0 ∉ O) then 1 else 0)%nat.
Proof.
  intros Hk Hc H c0. rewrite count_call. unfold on at 1. rewrite Hk. fold (on c0 k).
  rewrite <-count_call with (t := t), H. apply decide_ext. rewrite lookup_insert_is_Some'. naive_solver.
Qed.

Lemma seg_update h p l n c o o' :
  h !! c = Some o → callback_id_ o' = callback_id_ o → next_ o' = next_ o → prev_ o' = prev_ o →
  seg h p l n → seg (<[c := o']> h) p l n.
Proof.
  intros Ho Hid Hn Hp. revert p. induction l as [|c' l IH]; intros p; [done|].
  intros [(o1 & Ho1 & H1) Hs]. split; [|auto]. destruct (decide (c' = c)) as [->|].
  - exists o'. rewrite lookup_insert_eq, Hid, Hn, Hp. by simplify_eq.
  - exists o1. by rewrite lookup_insert_ne.
Qed.

Lemma chain_update h f l c o o' :
  chain h f l → h !! c = Some o → callback_id_ o' = callback_id_ o →
  next_ o' = next_ o → prev_ o' = prev_ o → chain (<[c := o']> h) f l.
Proof.
  intros Hc Ho Hid Hn Hp. pose proof Hc as []. split; [done|done|by eapply seg_update|].
  intros c' o'' [[<- <-]|[_ ?]]%lookup_insert_Some Hne; [|eauto].
  rewrite Hid, Hn, Hp. by apply (chain_others0 c o).
Qed.

Lemma run_register_start s t c F O U E D R l :
  inv s ((t, RegisterStart c) :: F) O U E D R l →
  ∃ h, put (heap s) c (λ o, set_started t (set_id default_stop_callback_id o)) = Ret h
    ∧ inv (set_mutex None (set_heap h s)) ((t, RegisterCall c) :: F) O U (E ++ [c]) D R l.
Proof.
  intros I. destruct (stop_i_this I) as [Hc Hstop]. pose proof Hc as (o & Ho & Hv)%lookup_fmap_Some.
  unfold put. rewrite (get_Some _ _ _ Hv). cbn [mbind outcome_bind]. eexists. split; [done|].
  injection Ho as Hid Hst Hby.
  destruct (i_view _ _ _ _ _ _ _ _ I _ _ _ _ Hc) as (_ & HE & HU & _).
  destruct (this_object I c eq_refl) as (Hs & HO & _). pose proof (stop_rest_holds I eq_refl) as Hh.
  pose proof I as []. split; state_simpl; rewrite ?views_insert, ?count_call in *; try done.
  - by eapply chain_update.
  - intros c0 i b e [[<- [= <- <- <-]]|[Hne H]]%lookup_insert_Some.
    + unfold default_stop_callback_id; split_and!; [lia|lia|rewrite elem_of_app, list_elem_of_singleton; tauto|done|done].
    + destruct (i_view0 _ _ _ _ H) as (? & ? & ?). split; [done|].
      rewrite elem_of_app, list_elem_of_singleton. split; [naive_solver|done].
  - intros c1 c2 i b1 e1 b2 e2 [[<- [= <- <- <-]]|[Hne1 H1]]%lookup_insert_Some; [done|].
    intros [[<- [= <- <- <-]]|[Hne2 H2]]%lookup_insert_Some; [done|eauto].
  - intros t0 k0 [[= -> ->]|Hin]%elem_of_cons.
    + exists (Some t). by rewrite lookup_insert_eq.
    + by eapply (frame_register I); eauto.
  - intros t0 k0 [[= -> ->]|Hin]%elem_of_cons Hk0; [done|]. by rewrite (stop_other_holds I _ _ eq_refl Hin) in Hk0.
  - by apply (objects_insert _ (RegisterStart c)).
  - intros c0 Hc0. rewrite lookup_insert_ne by set_solver. auto.
  - intros _ Hn c0 Hc0. rewrite lookup_insert_ne; [auto|].
    intros ->. by apply (chain_not_linked _ _ _ _ _ i_chain0 Hv).
  - intros t0 c0 [[=]|Hin]%elem_of_cons Hk0. by pose proof (stop_other_holds I _ _ eq_refl Hin).
  - destruct i_executed0. split; [|set_solver]. apply NoDup_app. split_and!; [done| |apply NoDup_singleton].
    intros x Hx ->%list_elem_of_singleton. by apply HE in Hx.
Qed.

(** A call on [c] returns. *)
Lemma objects_remove (V V' : cviews) k c t F (O O' : gset nat) :
  object k = Some c →
  (∀ c0, count (on c0) ((t, k) :: F) = (if decide (is_Some (V !! c0) ∧ c0 ∉ O) then 1 else 0)%nat) →
  (∀ c0, c0 ≠ c → (is_Some (V' !! c0) ∧ c0 ∉ O') ↔ (is_Some (V !! c0) ∧ c0 ∉ O)) →
  ¬ (is_Some (V' !! c) ∧ c ∉ O') →
  ∀ c0, count (on c0) F = (if decide (is_Some (V' !! c0) ∧ c0 ∉ O') then 1 else 0)%nat.
Proof.
  intros Hk H Hne Hc c0. specialize (H c0). rewrite count_call in H. destruct (decide (c0 = c)) as [->|].
  - rewrite decide_False by done. unfold on in H at 1. rewrite bool_decide_true in H by done.
    case_decide; lia.
  - rewrite (decide_ext _ (is_Some (V !! c0) ∧ c0 ∉ O)) by auto.
    unfold on in H at 1. rewrite bool_decide_false in H by congruence. done.
Qed.

Lemma run_register_link s t c F O U E D R l :
  inv s ((t, RegisterLink c) :: F) O U E D R l → next_callback_id_ s < max uint64_t →
  ∃ s', (h ← put (heap s) c (set_id (next_callback_id_ s));
         append (set_next_id (u64 (next_callback_id_ s + 1)) (set_heap h s)) c) = Ret s'
    ∧ inv (set_mutex None s') F ({[c]} ∪ O) U E D R (l ++ [c]).
Proof.
  intros I Hmax. change (max uint64_t) with (2 ^ 64 - 1) in Hmax. pose proof (stop_i_this I) as Hc.
  pose proof Hc as (o & Ho & Hv)%lookup_fmap_Some. injection Ho as Hid Hst Hby.
  destruct (i_view _ _ _ _ _ _ _ _ I _ _ _ _ Hc) as (_ & HE & HU & _).
  destruct (this_object I c eq_refl) as (Hs & HO & _). pose proof (stop_rest_holds I eq_refl) as Hh.
  pose proof (i_next _ _ _ _ _ _ _ _ I) as Hnext.
  unfold put. rewrite (get_Some _ _ _ Hv). cbn [mbind outcome_bind].
  destruct (append_spec (set_next_id (u64 (next_callback_id_ s + 1))
    (set_heap (<[c := set_id (next_callback_id_ s) o]> (heap s)) s)) (heap s) l c o
    (next_callback_id_ s)) as (h & f & -> & Hch & Hviews); [apply I|done|done|lia|done|].
  eexists. split; [done|]. rewrite Hst, Hby in Hviews.
  pose proof I as []. split; state_simpl; rewrite ?Hviews, ?count_call, ?u64_id in * by lia; try done.
  - lia.
  - intros c0 i b e [[<- [= <- <- <-]]|[Hne H]]%lookup_insert_Some.
    + split_and!; [lia|lia|done..].
    + destruct (i_view0 _ _ _ _ H) as (? & ?). split; [lia|done].
  - intros c1 c2 i b1 e1 b2 e2 H1 H2 Hi. apply lookup_insert_Some in H1 as [[<- [= <- <- <-]]|[_ H1]];
      apply lookup_insert_Some in H2 as [[<- [= <- <-]]|[_ H2]]; [done| | |eauto].
    + apply i_view0 in H2. lia.
    + apply i_view0 in H1. lia.
  - intros t0 k0 Hin. eapply (frame_register I); [done..|lia|right; simpl; lia|done].
  - intros t0 k0 Hin Hk0. by rewrite (stop_other_holds I _ _ eq_refl Hin) in Hk0.
  - apply (objects_remove (views (heap s)) _ (RegisterLink c) c t F O); [done|done| |set_solver].
    intros c0 Hne. rewrite lookup_insert_ne by done. set_solver.
  - intros c0 Hc0. destruct (decide (c0 = c)) as [->|].
    + rewrite lookup_insert_eq. eexists _, _, _. split; [done|]. left. lia.
    + rewrite lookup_insert_ne by done. apply i_owned0. set_solver.
  - intros Hstop Hn. destruct (i_link0 t c) as (t' & [[=]|Ht']%elem_of_cons); [apply list_elem_of_here|done|].
    by pose proof (count_zero notifying F t' NotifyLock Hn Ht').
  - intros t0 c0 Hin. by pose proof (stop_other_holds I _ _ eq_refl Hin).
Qed.

(** An object is destroyed: the end of [deregister_callback]. *)
Lemma inv_destroy s t k c F O U E D R l h f l' m v :
  inv s ((t, k) :: F) O U E D R l → object k = Some c → notifying k = false →
  (holds k = true ∧ m = None ∨ holds k = false ∧ m = callback_mutex_ s) →
  views (heap s) !! c = Some v → (v.1.1 = 0 ∧ l' = l ∧ c ∉ l ∨ v.1.1 ≠ 0 ∧ holds k = true) →
  (v.1.1 = currently_executing_callback_ s → v.1.1 ≠ 0 → v.2 = Some t) →
  chain h f l' → (∀ c0, c0 ∈ l' → c0 ∈ l) → views h = delete c (views (heap s)) →
  inv (set_mutex m (set_first f (set_heap h s))) F O U E (<[c := t]> D) R l'.
Proof.
  intros I Hk Hnk Hm Hv Hl Hcur Hch Hsub Hviews. destruct (this_object I c Hk) as (Hs & HO & _).
  assert (executes k = false) as Hex by (by destruct k).
  assert (count holds F = if m then 1 else 0)%nat as Hcount.
  { pose proof (i_mutex _ _ _ _ _ _ _ _ I) as H. rewrite count_call in H.
    destruct Hm as [[Hh ->]|[Hh ->]]; rewrite Hh in H; [destruct (callback_mutex_ s); lia|done]. }
  pose proof I as []. split; state_simpl; rewrite ?Hviews, ?count_call, ?Hnk, ?Hex in *; try done.
  - intros c0 i b e [_ H]%lookup_delete_Some. eauto.
  - intros c1 c2 i b1 e1 b2 e2 [_ H1]%lookup_delete_Some [_ H2]%lookup_delete_Some. eauto.
  - intros t0 k0 Hin. pose proof (stop_i_other I _ _ Hin) as H0.
    eapply stop_call_inv_frame; [exact H0|done| |by left| |].
    + intros c0 Hc0. rewrite lookup_delete_ne; [done|]. intros <-. by apply (other_object I c _ _ Hk Hin).
    + intros c0 Hc0. split; [done|]. split; [by intros c' b e [_ ?]%lookup_delete_Some|].
      destruct (decide (c0 = c)) as [->|]; [right|left; by rewrite lookup_delete_ne, lookup_insert_ne by done].
      rewrite lookup_delete_eq, lookup_insert_eq. split; [done|]. destruct v as [[i b] e].
      destruct k0; simplify_eq/=; rewrite Hv in H0; destruct H0 as (? & _ & -> & ->);
        rewrite Hcur by lia; done.
    + intros cb ->. destruct Hl as [(_ & -> & Hc)|[_ Hh]]; [|by pose proof (stop_other_holds I _ _ Hh Hin)].
      split; [done|]. intros c0 Hc0. rewrite lookup_delete_ne; [done|]. by intros ->.
  - intros t0 k0 Hin Hk0. destruct Hm as [[Hh ->]|[Hh ->]]; [|apply (i_holder0 t0 k0); [set_solver|done]].
    by rewrite (stop_other_holds I _ _ Hh Hin) in Hk0.
  - apply (objects_remove (views (heap s)) _ k c t F O); [done|done| |].
    + intros c0 Hne. by rewrite lookup_delete_ne.
    + rewrite lookup_delete_eq. by intros [[??] _].
  - intros c0 Hc0. rewrite lookup_delete_ne by set_solver. auto.
  - intros Hstop Hn c0 Hc0. rewrite lookup_delete_ne; [auto|]. intros <-.
    destruct (stop_chain_linked _ _ _ _ Hch Hc0) as (o & Ho & _).
    assert (views h !! c = Some (view o)) as Hvo by (unfold views; by rewrite lookup_fmap, Ho).
    by rewrite Hviews, lookup_delete_eq in Hvo.
  - intros t0 c0 Hin Hst. destruct (i_link0 t0 c0) as (t' & [[= <- <-]|Ht']%elem_of_cons);
      [by apply list_elem_of_further|done|done|eauto].
  - intros c0 t0 [[<- _]|[_ ?]]%lookup_insert_Some; [|eauto]. destruct v as [[i b] e]. by eapply i_view0.
Qed.

(** What the loop of [notify_registered_callbacks] looks at. *)
Lemma notify_loop_object s t c F O U E D R l :
  inv s ((t, NotifyLoop (Some c)) :: F) O U E D R l →
  ∃ o l1 l2, heap s !! c = Some o ∧ callback_id_ o ≠ 0 ∧ l = l1 ++ c :: l2
    ∧ next_ o = first_or None l2 ∧ currently_executing_callback_ s = 0
    ∧ ∀ c0, c0 ∈ l1 → ∃ i e, views (heap s) !! c0 = Some (i, true, e).
Proof.
  intros I. destruct (stop_i_this I) as (Hcur & l1 & l2 & Hl & Hf & Hst).
  destruct l2 as [|c' l2]; [done|]. injection Hf as <-. pose proof (i_chain _ _ _ _ _ _ _ _ I) as Hc.
  rewrite Hl in Hc. destruct (chain_middle _ _ _ _ _ Hc) as (_ & _ & o & Ho & Hid & _ & Hn).
  exists o, l1, l2. done.
Qed.

(** The other calls when the callback of [c] starts. *)
Lemma frame_execute s t c F O U E D R l o t0 k0 :
  inv s ((t, NotifyLoop (Some c)) :: F) O U E D R l →
  heap s !! c = Some o → callback_id_ o ≠ 0 → already_started_executing_ o = false →
  (t0, k0) ∈ F →
  call_inv (stop_requested_ s) (callback_id_ o) (next_callback_id_ s)
    (<[c := (callback_id_ o, true, Some t)]> (views (heap s))) D l t0 k0.
Proof.
  intros I Ho Hid Hst Hin. pose proof (stop_i_other I _ _ Hin) as H0.
  pose proof (stop_other_holds I _ _ eq_refl Hin) as Hh. pose proof (other_notifying I _ _ eq_refl Hin) as Hn.
  destruct (stop_i_this I) as (Hcur & _). rewrite Hcur in H0.
  assert (views (heap s) !! c = Some (callback_id_ o, false, None)) as Hc.
  { assert (views (heap s) !! c = Some (view o)) as Hc by (unfold views; by rewrite lookup_fmap, Ho).
    unfold view in Hc. rewrite Hst in Hc. rewrite Hc. apply (i_view _ _ _ _ _ _ _ _ I) in Hc.
    do 2 f_equal. by apply Hc. }
  destruct (decide (object k0 = Some c)) as [Hobj|Hobj].
  - destruct k0; simplify_eq/=; try (naive_solver lia); rewrite lookup_insert_eq; [done|eauto].
  - eapply stop_call_inv_frame; [exact H0|done| | | |].
    + intros c0 Hc0. rewrite lookup_insert_ne; [done|]. by intros ->.
    + right. split; [by destruct k0|]. split; [done|]. intros c0 ->. naive_solver.
    + intros c0 Hc0. by destruct k0.
    + intros cb ->. done.
Qed.

Lemma run_execute s t c F O U E D R l o :
  inv s ((t, NotifyLoop (Some c)) :: F) O U E D R l →
  heap s !! c = Some o → callback_id_ o ≠ 0 → already_started_executing_ o = false →
  inv (set_mutex None (set_current (callback_id_ o) (set_heap (<[c := set_started t o]> (heap s)) s)))
    ((t, ExecuteCall c) :: F) O U (E ++ [c]) D R l.
Proof.
  intros I Ho Hid Hst. pose proof (stop_rest_holds I eq_refl) as Hh.
  assert (views (heap s) !! c = Some (view o)) as Hc by (unfold views; by rewrite lookup_fmap, Ho).
  assert (view (set_started t o) = (callback_id_ o, true, Some t)) as Hview by done.
  unfold view in Hc. rewrite Hst in Hc.
  destruct (i_view _ _ _ _ _ _ _ _ I _ _ _ _ Hc) as (Hr & HE & HU & He).
  pose proof I as []. split; state_simpl; rewrite ?views_insert, ?Hview, ?count_call in *; try done.
  - by eapply chain_update.
  - intros c0 i b e [[<- [= <- <- <-]]|[Hne H]]%lookup_insert_Some.
    + split_and!; [lia|lia|rewrite elem_of_app, list_elem_of_singleton; tauto|done|done].
    + destruct (i_view0 _ _ _ _ H) as (? & ? & ?). split; [done|].
      rewrite elem_of_app, list_elem_of_singleton. split; [naive_solver|done].
  - intros c1 c2 i b1 e1 b2 e2 H1 H2 Hi. apply lookup_insert_Some in H1 as [[<- [= <- <- <-]]|[_ H1]];
      apply lookup_insert_Some in H2 as [[<- H2]|[_ H2]]; simplify_eq; eauto.
  - intros t0 k0 [[= -> ->]|Hin]%elem_of_cons; [|by eapply frame_execute].
    split; [lia|]. rewrite lookup_insert_eq. split; [|done].
    intros c' b e [[<- _]|[_ H]]%lookup_insert_Some; eauto.
  - intros t0 k0 [[= -> ->]|Hin]%elem_of_cons Hk0; [done|]. by rewrite (stop_other_holds I _ _ eq_refl Hin) in Hk0.
  - by apply (objects_insert _ (NotifyLoop (Some c))).
  - intros c0 Hc0. destruct (decide (c0 = c)) as [->|]; [|rewrite lookup_insert_ne by done; auto].
    rewrite lookup_insert_eq. eexists _, _, _. eauto.
  - intros t0 c0 [[=]|Hin]%elem_of_cons Hk0. by pose proof (stop_other_holds I _ _ eq_refl Hin).
  - destruct i_executed0. split; [|set_solver]. apply NoDup_app. split_and!; [done| |apply NoDup_singleton].
    intros x Hx ->%list_elem_of_singleton. by apply HE in Hx.
Qed.

(** [execute] ends: whoever waits for the callback is notified. *)
Lemma run_execute_end s t c F O U E D R l :
  inv s ((t, ExecuteEnd c) :: F) O U E D R l →
  inv (set_current default_stop_callback_id s)
    ((t, NotifyLoop (first_callback_ s)) :: (notify <$> F)) O U E D R l.
Proof.
  intros I. pose proof I as [].
  assert (∀ P, (∀ x, P (notify x).2 = P x.2) → count P (notify <$> F) = count P F) as Hcount
    by (intros; by apply count_fmap).
  assert (∀ t0 k0, (t0, k0) ∈ notify <$> F → ∃ k1, (t0, k1) ∈ F ∧ (t0, k0) = notify (t0, k1)) as Hnot.
  { intros t0 k0 ([t1 k1] & E1 & Hin)%list_elem_of_fmap. exists k1.
    destruct k1; simplify_eq/=; done. }
  split; state_simpl; rewrite ?count_call, ?Hcount in * by (intros [? []]; done); try done.
  - intros t0 k0 [[= -> ->]|Hin]%elem_of_cons.
    { split; [done|]. exists [], l. split_and!; [done|apply i_chain0|by intros ? ?%elem_of_nil]. }
    destruct (Hnot _ _ Hin) as (k1 & Hin1 & Hk0). pose proof (stop_i_other I _ _ Hin1) as H1.
    pose proof (stop_other_holds I _ _ eq_refl Hin1). pose proof (other_notifying I _ _ eq_refl Hin1).
    destruct k1; simplify_eq/=; try done. destruct H1 as (i & b & t' & ? & ? & ? & _). by eexists _, _, _.
  - intros t0 k0 [[= -> ->]|Hin]%elem_of_cons Hk0; [apply (i_holder0 _ (ExecuteEnd c)); set_solver|].
    destruct (Hnot _ _ Hin) as (k1 & Hin1 & E1). apply (i_holder0 t0 k1); [set_solver|].
    destruct k1; by simplify_eq/=.
  - intros c0. rewrite <-i_objects0, !count_call, Hcount; [done|]. by intros [? []].
  - intros t0 c0 [[=]|Hin]%elem_of_cons Hs. destruct (Hnot _ _ Hin) as (k1 & Hin1 & E1).
    destruct k1; simplify_eq/=. by pose proof (stop_other_holds I _ _ eq_refl Hin1).
Qed.

(** [request_stop] sets the flag. *)
Lemma run_request_stop s t F O U E D R l :
  inv s ((t, RequestStop) :: F) O U E D R l → stop_requested_ s = false →
  inv (set_stop s) ((t, NotifyLock) :: F) O U E D R l.
Proof.
  intros I Hs. pose proof I as []. rewrite Hs in *.
  split; state_simpl; rewrite ?count_call in *; cbn [notifying executes holds] in *; try done; try lia.
  - intros t0 k0 [[= -> ->]|Hin]%elem_of_cons; [done|]. pose proof (stop_i_other I _ _ Hin) as H0.
    rewrite Hs in H0. eapply stop_call_inv_frame; [exact H0|done|done|by left| |done]. intros c _. split; [lia|]. eauto.
  - intros t0 k0 [[= -> ->]|Hin]%elem_of_cons Hk0; [done|]. eapply i_holder0; [|done]. set_solver.
  - intros t0 c0 _ _. exists t. apply list_elem_of_here.
Qed.

(** A call of [request_stop] returns. *)
Lemma stop_inv_return s t k F O U E D R l m b :
  inv s ((t, k) :: F) O U E D R l →
  (k = RequestStop ∧ b = false ∧ m = callback_mutex_ s ∨ k = NotifyLoop None ∧ b = true ∧ m = None) →
  inv (set_mutex m s) F O U E D (R ++ [b]) l.
Proof.
  intros I Hk. assert (object k = None ∧ executes k = false) as [Hobj Hex] by (by destruct Hk as [[-> _]|[-> _]]).
  assert (count holds F = if m then 1 else 0)%nat as Hcount.
  { pose proof (i_mutex _ _ _ _ _ _ _ _ I) as Hm. rewrite count_call in Hm.
    destruct Hk as [(-> & _ & ->)|(-> & _ & ->)]; [done|]. destruct (callback_mutex_ s); cbn in *; lia. }
  pose proof I as []. split; state_simpl; rewrite ?count_call, ?Hobj, ?Hex in *; try done.
  - intros t0 k0 Hin. by apply (stop_i_other I).
  - rewrite count_occ_app. destruct Hk as [(-> & -> & _)|(-> & -> & _)]; cbn in *; lia.
  - intros t0 k0 Hin Hk0. destruct Hk as [(-> & _ & ->)|(-> & _ & ->)].
    + eapply i_holder0; [|done]. set_solver.
    + by rewrite (stop_other_holds I _ _ eq_refl Hin) in Hk0.
  - intros c0. rewrite <-i_objects0, count_call. unfold on at 2. by rewrite Hobj.
  - intros Hs Hn. destruct Hk as [(-> & _)|(-> & _)]; [by apply i_complete0|].
    destruct (stop_i_this I) as (_ & l1 & l2 & -> & Hf & Hst). destruct l2; [|done]. by rewrite app_nil_r.
  - intros t0 c0 Hin Hs. destruct (i_link0 t0 c0) as (t' & Ht'); [set_solver|done|].
    exists t'. apply elem_of_cons in Ht' as [[= <- <-]|?]; [|done]. naive_solver.
Qed.

End StopTokenInv.
