(* ===== verification/StopTokenSpec.v ===== *)
(** * Properties of stop tokens

    The steps of client and library keep the invariant of StopTokenInv.v, from
    which [stop_token_safe], [stop_token_complete] and [stop_token_progress]
    follow. *)

From stdpp Require Import gmap relations.
From S2P Require Import Prelude CppInt CallStacks StopToken StopTokenInv.

Local Open Scope Z_scope.

Module StopTokenSpec.
Import CallStacks StopToken StopTokenInv.

(** ** Steps of the client *)

(** The other calls when a new object appears. *)
Lemma frame_construct s c F O U E D R l t0 k0 :
  inv s F O U E D R l → c ∉ U → views (heap s) !! c = None → (t0, k0) ∈ F →
  call_inv (stop_requested_ s) (currently_executing_callback_ s) (next_callback_id_ s)
    (<[c := (0, false, None)]> (views (heap s))) D l t0 k0.
Proof.
  intros [] Hc Hnone Hin. pose proof (i_calls0 _ _ Hin) as H0.
  eapply stop_call_inv_frame; [exact H0|done| |by left| |].
  - intros c0 Hc0. rewrite lookup_insert_ne; [done|]. intros <-. specialize (i_objects0 c).
    rewrite decide_False in i_objects0 by (rewrite Hnone; by intros [[??] _]).
    pose proof (count_zero _ _ _ _ i_objects0 Hin) as Hon. by apply bool_decide_eq_false in Hon.
  - intros c0 Hc0. assert (0 < currently_executing_callback_ s) as Hcur
      by (destruct k0; simplify_eq/=; by destruct H0 as ((? & ?) & _)).
    split; [lia|]. split.
    + intros c' b e [[<- [= ? _ _]]|[_ H]]%lookup_insert_Some; [lia|done].
    + left. rewrite lookup_insert_ne; [done|]. intros <-.
      apply Hc, (i_destroyed0 _ t0). destruct k0; simplify_eq/=; rewrite Hnone in H0; by destruct H0 as (_ & _ & ?).
  - intros cb ->. split; [done|]. intros c0 Hc0. rewrite lookup_insert_ne; [done|]. intros <-.
    destruct (stop_chain_linked _ _ _ _ i_chain0 Hc0) as (o & Ho & _).
    unfold views in Hnone. by rewrite lookup_fmap, Ho in Hnone.
Qed.

Lemma client_construct s t c F O U E D R l :
  inv s F O U E D R l → c ∉ U →
  inv (set_heap (<[c := new_callback]> (heap s)) s) ((t, RegisterLock c) :: F) O ({[c]} ∪ U) E D R l.
Proof.
  intros I Hc. pose proof I as [].
  assert (views (heap s) !! c = None) as Hnone.
  { destruct (views (heap s) !! c) as [[[i b] e]|] eqn:E1; [|done]. by apply i_view0 in E1 as (_ & _ & ? & _). }
  assert (heap s !! c = None) as Hheap
    by (unfold views in Hnone; rewrite lookup_fmap in Hnone; by apply fmap_None in Hnone).
  split; state_simpl; rewrite ?views_insert, ?count_call in *; try done;
    change (view new_callback) with (0, false, @None nat) in *.
  - destruct i_chain0. split; [done|done| |].
    + apply seg_insert; [|done]. intros (o & Ho & _)%(seg_elem _ _ _ _ _ chain_seg0). congruence.
    + intros c0 o [[<- <-]|[_ ?]]%lookup_insert_Some; [done|eauto].
  - intros c0 i b e [[<- [= <- <- <-]]|[Hne H]]%lookup_insert_Some.
    + split_and!; [lia|lia| |set_solver|done]. split; [done|]. by intros ?%i_executed0.
    + destruct (i_view0 _ _ _ _ H) as (? & ? & ? & ?). split_and!; [lia|lia|done|set_solver|done].
  - intros c1 c2 i b1 e1 b2 e2 H1 H2 Hi. apply lookup_insert_Some in H1 as [[<- [= <- <- <-]]|[_ H1]];
      apply lookup_insert_Some in H2 as [[<- [= <- <-]]|[_ H2]]; eauto; done.
  - intros t0 k0 [[= -> ->]|Hin]%elem_of_cons; [by apply lookup_insert_eq|].
    by eapply frame_construct.
  - intros t0 k0 [[= -> ->]|Hin]%elem_of_cons Hk0; [done|eauto].
  - intros c0. rewrite count_call, i_objects0. unfold on. cbn [object].
    destruct (decide (c0 = c)) as [->|Hne].
    + rewrite bool_decide_true, lookup_insert_eq, Hnone by done. rewrite decide_False by (by intros [[??] _]).
      rewrite decide_True; [done|]. split; [eauto|]. intros (? & ? & ? & ? & _)%i_owned0. congruence.
    + rewrite bool_decide_false by congruence. by rewrite lookup_insert_ne.
  - intros c0 Hc0. rewrite lookup_insert_ne; [auto|]. intros <-. destruct (i_owned0 _ Hc0) as (? & ? & ? & ? & _). congruence.
  - intros Hs Hn c0 Hc0. rewrite lookup_insert_ne; [auto|]. intros <-. destruct (i_complete0 Hs Hn _ Hc0) as (? & ? & ?). congruence.
  - intros t0 c0 [[=]|Hin]%elem_of_cons Hs. destruct (i_link0 _ _ Hin Hs) as (t' & ?). exists t'. by apply list_elem_of_further.
  - destruct i_executed0. split; [done|]. set_solver.
  - intros c0 t0 ?%i_destroyed0. set_solver.
Qed.

Lemma client_destroy s t c F O U E D R l :
  inv s F O U E D R l → c ∈ O → inv s ((t, DeregisterTest c) :: F) (O ∖ {[c]}) U E D R l.
Proof.
  intros I Hc. pose proof I as []. destruct (i_owned0 c Hc) as (i & b & e & Hv & _).
  split; rewrite ?count_call in *; try done.
  - intros t0 k0 [[= -> ->]|Hin]%elem_of_cons; [by eexists|auto].
  - intros t0 k0 [[= -> ->]|Hin]%elem_of_cons Hk0; [done|eauto].
  - intros c0. rewrite count_call, i_objects0. unfold on. cbn [object]. destruct (decide (c0 = c)) as [->|Hne].
    + rewrite bool_decide_true, decide_False, decide_True by (rewrite ?Hv; set_solver). done.
    + rewrite bool_decide_false by congruence. apply decide_ext. set_solver.
  - intros c0 Hc0. apply i_owned0. set_solver.
  - intros t0 c0 [[=]|Hin]%elem_of_cons Hs. destruct (i_link0 _ _ Hin Hs) as (t' & ?).
    exists t'. by apply list_elem_of_further.
Qed.

Lemma client_request s t F O U E D R l :
  inv s F O U E D R l → inv s ((t, RequestStop) :: F) O U E D R l.
Proof.
  intros I. pose proof I as []. split; rewrite ?count_call in *; try done.
  - intros t0 k0 [[= -> ->]|Hin]%elem_of_cons; [done|auto].
  - intros t0 k0 [[= -> ->]|Hin]%elem_of_cons Hk0; [done|eauto].
  - intros t0 c0 [[=]|Hin]%elem_of_cons Hs. destruct (i_link0 _ _ Hin Hs) as (t' & ?).
    exists t'. by apply list_elem_of_further.
Qed.

Lemma client_register_return s t c F O U E D R l :
  inv s ((t, RegisterCall c) :: F) O U E D R l → inv s F ({[c]} ∪ O) U E D R l.
Proof.
  intros I. destruct (stop_i_this I) as [e Hc]. pose proof I as [].
  split; rewrite ?count_call in *; try done.
  - intros t0 k0 Hin. by apply (stop_i_other I).
  - intros t0 k0 Hin. apply i_holder0. by apply list_elem_of_further.
  - apply (objects_remove (views (heap s)) _ (RegisterCall c) c t F O); [done|done|set_solver|set_solver].
  - intros c0 [->%elem_of_singleton|Hc0]%elem_of_union; [|auto]. eexists _, _, _. eauto.
  - intros t0 c0 Hin Hs. destruct (i_link0 t0 c0) as (t' & [[=]|?]%elem_of_cons);
      [by apply list_elem_of_further|done|]. eauto.
Qed.

(** ** Steps of the library *)

(** What [resume] makes of the invariant; [F] are the calls but for that of
    thread [t]. *)
Definition resumed (s : stop_state) (t : nat) (F : list (nat * call)) (O U : gset nat) (E : list nat)
    (D : gmap nat nat) (R : list bool) (l : list nat) (r : control) : Prop :=
  match r with
  | Continue k => inv s ((t, k) :: F) O U (E ++ called k) D R l
  | ContinueNotify k => inv s ((t, k) :: (notify <$> F)) O U E D R l
  | Registered c => inv s F ({[c]} ∪ O) U E D R l
  | Destroyed c => inv (set_heap (delete c (heap s)) s) F O U E (<[c := t]> D) R l
  | Returned b => inv s F O U E D (R ++ [b]) l
  end.

Section Run.
Context {s : stop_state} {t : nat} {k : call} {F : list (nat * call)}.
Context {O U : gset nat} {E : list nat} {D : gmap nat nat} {R : list bool} {l : list nat}.
Context (I : inv s ((t, k) :: F) O U E D R l).

Lemma resumed_move k' m :
  object k' = object k → notifying k' = notifying k → executes k' = executes k → called k' = [] →
  (holds k' = holds k ∧ m = callback_mutex_ s
   ∨ callback_mutex_ s = None ∧ holds k' = true ∧ m = Some t
   ∨ holds k = true ∧ holds k' = false ∧ m = None) →
  call_inv (stop_requested_ s) (currently_executing_callback_ s) (next_callback_id_ s)
    (views (heap s)) D l t k' →
  (∀ c, k' = RegisterLink c → stop_requested_ s = false) →
  (k = NotifyLock → callback_mutex_ s = None) →
  resumed (set_mutex m s) t F O U E D R l (Continue k').
Proof using I. intros. cbn. rewrite H2, app_nil_r. by eapply stop_inv_move. Qed.

(** An acquisition of the mutex. *)
Lemma stop_run_lock (f : stop_state → call) :
  (∀ s, object (f s) = object k ∧ notifying (f s) = notifying k ∧ executes (f s) = executes k
        ∧ called (f s) = [] ∧ holds (f s) = true) →
  call_inv (stop_requested_ s) (currently_executing_callback_ s) (next_callback_id_ s)
    (views (heap s)) D l t (f s) →
  (∀ c, f s ≠ RegisterLink c) →
  ∃ r, lock t s f = Ret r ∧ ∀ s' c, r = Some (s', c) → ∃ l', resumed s' t F O U E D R l' c.
Proof using I.
  intros Hf Hk Hl. destruct (Hf s) as (? & ? & ? & ? & ?). unfold lock.
  destruct (callback_mutex_ s) eqn:Hm; eexists; (split; [done|]); intros s' c [= <- <-].
  exists l. apply resumed_move; try done; [by right; left|]. intros c ?. by destruct (Hl c).
Qed.

End Run.

Lemma set_mutex_id s : set_mutex (callback_mutex_ s) s = s.
Proof. by destruct s. Qed.

Lemma run_deregister_test s t c F O U E D R l :
  inv s ((t, DeregisterTest c) :: F) O U E D R l →
  ∃ s' r, stop_step t s (DeregisterTest c) = Ret (Some (s', r)) ∧ resumed s' t F O U E D R l r.
Proof.
  intros I. destruct (stop_i_this I) as [v Hv]. pose proof Hv as (o & Ho & Hc)%lookup_fmap_Some.
  cbn [stop_step]. rewrite (get_Some _ _ _ Hc). cbn [mbind outcome_bind].
  unfold default_stop_callback_id. destruct (Z.eqb_spec (callback_id_ o) 0) as [Hid|Hid].
  - pose proof (chain_not_linked _ _ _ _ _ (i_chain _ _ _ _ _ _ _ _ I) Hc Hid) as Hnot.
    destruct (chain_others _ _ _ (i_chain _ _ _ _ _ _ _ _ I) _ _ Hc Hnot) as (_ & Hn & Hp).
    rewrite Hn, Hp, !bool_decide_true by done. eexists _, _. split; [done|]. cbn [resumed].
    rewrite <-(set_mutex_id (set_heap _ _)).
    apply (inv_destroy s t (DeregisterTest c) c F O U E D R l (delete c (heap s)) (first_callback_ s) l _ v);
      [done..|right; done|done|left; by rewrite <-Ho|by rewrite <-Ho| |done|apply views_delete].
    destruct (i_chain _ _ _ _ _ _ _ _ I). split; [done|done|by apply seg_delete|].
    intros c' o' [_ ?]%lookup_delete_Some. eauto.
  - eexists _, _. split; [done|]. rewrite <-(set_mutex_id s) at 1.
    apply (resumed_move I); try done; [by left|]. unfold view in Ho. subst v. cbn. eauto.
Qed.

Lemma run_deregister_unlink s t c F O U E D R l :
  inv s ((t, DeregisterUnlink c) :: F) O U E D R l →
  ∃ s' r l', stop_step t s (DeregisterUnlink c) = Ret (Some (s', r)) ∧ resumed s' t F O U E D R l' r.
Proof.
  intros I. destruct (stop_i_this I) as (i & b & e & Hv & Hi & Hcur).
  pose proof Hv as (o & Ho & Hc)%lookup_fmap_Some. injection Ho as Hid _ _.
  assert (c ∈ l) as (l1 & l2 & ->)%list_elem_of_split.
  { destruct (decide (c ∈ l)) as [|Hnot]; [done|].
    apply (chain_others _ _ _ (i_chain _ _ _ _ _ _ _ _ I) _ _ Hc) in Hnot. lia. }
  destruct (unlink_spec s l1 c l2) as (h & f & Hun & Hch & Hviews); [apply I|].
  cbn [stop_step]. rewrite Hun. cbn [mbind outcome_bind]. 
  exists (set_mutex None (set_first f (set_heap h s))), (Destroyed c), (l1 ++ l2). split; [done|].
  change (inv (set_mutex None (set_first f (set_heap (delete c h) s))) F O U E (<[c := t]> D) R (l1 ++ l2)).
  apply (inv_destroy s t (DeregisterUnlink c) c F O U E D R (l1 ++ c :: l2) (delete c h) f (l1 ++ l2) None (i, b, e));
    [done..|by left|done|by right|intros ? _; by apply Hcur|done|set_solver|]. by rewrite views_delete.
Qed.

(** The tests of the registration and of the destructor, which change nothing
    but the mutex. *)
Lemma run_register_test s t c F O U E D R l :
  inv s ((t, RegisterTest c) :: F) O U E D R l →
  ∃ s' r, stop_step t s (RegisterTest c) = Ret (Some (s', r)) ∧ resumed s' t F O U E D R l r.
Proof.
  intros I. pose proof (stop_i_this I) as Hv. pose proof Hv as (o & Ho & Hc)%lookup_fmap_Some.
  injection Ho as Hid Hst _. pose proof (i_chain _ _ _ _ _ _ _ _ I) as Hch.
  destruct (chain_others _ _ _ Hch _ _ Hc (chain_not_linked _ _ _ _ _ Hch Hc Hid)) as (_ & Hn & Hp).
  cbn [stop_step]. rewrite (get_Some _ _ _ Hc). cbn [mbind outcome_bind].
  rewrite Hst, Hn, Hp, !bool_decide_true by done. eexists _, _. split; [done|].
  rewrite <-(set_mutex_id s) at 1.
  destruct (stop_requested_ s) eqn:E1; apply (resumed_move I); try done; by left.
Qed.

(** Whoever executes the callback of [c], the object says so. *)
Lemma executed_by_current s F O U E D R l c b e :
  inv s F O U E D R l → views (heap s) !! c = Some (currently_executing_callback_ s, b, e) →
  currently_executing_callback_ s ≠ 0 → ∃ t0 k0, (t0, k0) ∈ F ∧ executing k0 = Some c ∧ e = Some t0.
Proof.
  intros [] Hc Hcur. destruct (decide (count executes F = 0)%nat) as [H0|H0]; [by apply i_current0 in H0|].
  destruct (count_pos executes F ltac:(lia)) as (t0 & k0 & Hin & [c0 Hk0]%bool_decide_eq_true).
  pose proof (i_calls0 _ _ Hin) as Hk. exists t0, k0. split; [done|].
  destruct k0; simplify_eq/=; destruct Hk as (_ & Hu & Hk); rewrite <-(Hu _ _ _ Hc) in *;
    rewrite Hc in Hk; naive_solver.
Qed.

Lemma run_deregister_check s t c F O U E D R l :
  inv s ((t, DeregisterCheck c) :: F) O U E D R l →
  ∃ s' r, stop_step t s (DeregisterCheck c) = Ret (Some (s', r)) ∧ resumed s' t F O U E D R l r.
Proof.
  intros I. destruct (stop_i_this I) as (i & b & e & Hv & Hi). pose proof Hv as (o & Ho & Hc)%lookup_fmap_Some.
  injection Ho as Hid _ He. cbn [stop_step]. rewrite (get_Some _ _ _ Hc). cbn [mbind outcome_bind].
  rewrite He. destruct e as [t'|].
  - destruct (decide (t' = t)) as [->|Hne].
    + rewrite bool_decide_true by done. eexists _, _. split; [done|]. rewrite <-(set_mutex_id s) at 1.
      apply (resumed_move I); try done; [by left|]. cbn. eauto 10.
    + rewrite !bool_decide_false by congruence. eexists _, _. split; [done|]. rewrite <-(set_mutex_id s) at 1.
      apply (resumed_move I); try done; [by left|]. cbn. eauto 10.
  - rewrite bool_decide_false, bool_decide_true by done. eexists _, _. split; [done|].
    rewrite <-(set_mutex_id s) at 1. apply (resumed_move I); try done; [by left|].
    exists i, b, None. split_and!; [done..|]. intros ->.
    destruct (executed_by_current _ _ _ _ _ _ _ _ _ _ _ I Hv Hi) as (? & ? & _ & _ & ?). done.
Qed.

Lemma run_deregister_wait s t c F O U E D R l :
  inv s ((t, DeregisterWait c) :: F) O U E D R l →
  ∃ s' r, stop_step t s (DeregisterWait c) = Ret (Some (s', r)) ∧ resumed s' t F O U E D R l r.
Proof.
  intros I. destruct (stop_i_this I) as (i & b & t' & Hv & Hi & Ht). pose proof Hv as (o & Ho & Hc)%lookup_fmap_Some.
  injection Ho as Hid _ He. cbn [stop_step]. rewrite (get_Some _ _ _ Hc). cbn [mbind outcome_bind].
  rewrite Hid. destruct (Z.eqb_spec i (currently_executing_callback_ s)) as [E1|E1]; eexists _, _; (split; [done|]).
  - apply (resumed_move I); try done; [by right; right|]. cbn. eauto 10.
  - rewrite <-(set_mutex_id s) at 1. apply (resumed_move I); try done; [by left|].
    exists i, b, (Some t'). done.
Qed.

Lemma run_notify_loop s t cb F O U E D R l :
  inv s ((t, NotifyLoop cb) :: F) O U E D R l →
  ∃ s' r, stop_step t s (NotifyLoop cb) = Ret (Some (s', r)) ∧ resumed s' t F O U E D R l r.
Proof.
  intros I. destruct cb as [c|].
  2:{ eexists _, _. split; [done|]. apply (stop_inv_return s t (NotifyLoop None)); [done|by right]. }
  destruct (notify_loop_object _ _ _ _ _ _ _ _ _ _ I) as (o & l1 & l2 & Hc & Hid & -> & Hn & Hcur & Hl1).
  cbn [stop_step]. rewrite (get_Some _ _ _ Hc). cbn [mbind outcome_bind].
  destruct (already_started_executing_ o) eqn:Hst; cbn [negb].
  - eexists _, _. split; [done|]. rewrite <-(set_mutex_id s) at 1.
    apply (resumed_move I); try done; [by left|]. split; [done|]. exists (l1 ++ [c]), l2.
    split_and!; [by rewrite <-app_assoc|done|].
    intros c0 [?|Hc0]%elem_of_app; [auto|]. apply list_elem_of_singleton in Hc0 as ->.
    unfold views. rewrite lookup_fmap, Hc. cbn. unfold view. rewrite Hst. eauto.
  - rewrite (proj2 (Z.eqb_neq _ _)), (proj2 (Z.eqb_eq _ _)) by done. cbn [negb ASSERT_PRD].
    unfold put. rewrite (get_Some _ _ _ Hc). cbn [mbind outcome_bind]. eexists _, _. split; [done|].
    cbn [resumed called]. by apply run_execute.
Qed.

Lemma stop_run_call s t k F O U E D R l :
  inv s ((t, k) :: F) O U E D R l → next_callback_id_ s < max uint64_t →
  ∃ r, stop_step t s k = Ret r ∧ ∀ s' c, r = Some (s', c) → ∃ l', resumed s' t F O U E D R l' c.
Proof.
  intros I Hmax.
  assert (∀ s' c l', stop_step t s k = Ret (Some (s', c)) → resumed s' t F O U E D R l' c →
    ∃ r, stop_step t s k = Ret r ∧ ∀ s' c, r = Some (s', c) → ∃ l', resumed s' t F O U E D R l' c) as Hret.
  { intros s' c l' Hs Hr. eexists. split; [exact Hs|]. intros ? ? [= <- <-]. eauto. }
  pose proof (stop_i_this I) as Hk.
  destruct k as [c|c|c|c|c|c|c|c|c|c [|]|c| | |cb|c|c|c]; try (eexists; split; [done|]; by intros).
  - by apply (stop_run_lock I).
  - destruct (run_register_test _ _ _ _ _ _ _ _ _ _ I) as (? & ? & ? & ?). eauto.
  - destruct (run_register_start _ _ _ _ _ _ _ _ _ _ I) as (h & Hh & Hr).
    eapply Hret; [cbn [stop_step]; by rewrite Hh|exact Hr].
  - destruct (run_register_link _ _ _ _ _ _ _ _ _ _ I Hmax) as (s' & Hs & Hr).
    apply (Hret (set_mutex None s') (Registered c) (l ++ [c])); [|exact Hr]. cbn [stop_step].
    destruct (put _ _ _); [|done..]. cbn [mbind outcome_bind] in Hs |- *. by rewrite Hs.
  - destruct (run_deregister_test _ _ _ _ _ _ _ _ _ _ I) as (? & ? & ? & ?). eauto.
  - by apply (stop_run_lock I).
  - destruct (run_deregister_check _ _ _ _ _ _ _ _ _ _ I) as (? & ? & ? & ?). eauto.
  - destruct (run_deregister_wait _ _ _ _ _ _ _ _ _ _ I) as (? & ? & ? & ?). eauto.
  - apply (stop_run_lock I); [done| |done]. destruct Hk as (i & b & t' & ? & ? & ? & _). by exists i, b, t'.
  - destruct (run_deregister_unlink _ _ _ _ _ _ _ _ _ _ I) as (? & ? & ? & ? & ?). eauto.
  - cbn [stop_step] in *. destruct (stop_requested_ s) eqn:Hs.
    + eapply Hret; [done|]. cbn [resumed]. rewrite <-(set_mutex_id s). eapply stop_inv_return; [done|by left].
    + eapply Hret; [done|]. cbn [resumed called]. rewrite app_nil_r. by apply run_request_stop.
  - apply (stop_run_lock I); [done| |done]. split.
    + apply (i_current _ _ _ _ _ _ _ _ I). rewrite count_call. cbn [executes executing].
      apply count_zero_2. intros t0 k0 Hin. pose proof (other_notifying I _ _ eq_refl Hin). by destruct k0.
    + exists [], l. split_and!; [done|apply I|by intros ? ?%elem_of_nil].
  - destruct (run_notify_loop _ _ _ _ _ _ _ _ _ _ I) as (? & ? & ? & ?). eauto.
  - by apply (stop_run_lock I).
  - eapply Hret; [done|]. cbn [resumed]. by eapply run_execute_end.
Qed.

(** ** Reachable states *)

Definition good (σ : system) : Prop :=
  stacked is_client (calls σ) ∧ ∃ l, inv (state σ) (calls σ) (owned σ) (used σ) (executed σ) (destroyed σ) (stops σ) l.

Lemma stop_initial_good : good initial.
Proof.
  split; [done|]. exists []. split; cbn; try done; try lia.
  - split; [done|constructor|done|by intros].
  - by intros ?? ?%elem_of_nil.
  - by intros ?? ?%elem_of_nil.
  - split; [constructor|by intros ? ?%elem_of_nil].
Qed.

Lemma stop_step_good σ σ' : good σ → step σ σ' → good σ'.
Proof.
  intros [HS [l I]] [t k above below s r Hc Ht Hmax Hrun|t c above below Hc|t c Ht Hc|t c Ht Hc|t Ht
    |t c above below Hc Ht|t c above below Hc Ht]; try rewrite Hc in *.
  - apply (stop_inv_perm _ _ _ _ _ _ _ _ _ (calls_middle _ _ _)) in I.
    destruct (stop_run_call _ _ _ _ _ _ _ _ _ _ I Hmax) as (r' & Hr' & Hres). rewrite Hrun in Hr'.
    injection Hr' as <-. destruct (Hres _ _ eq_refl) as [l' Hl']. clear Hres.
    destruct r; cbn [resumed resume] in *; (split; [|exists l']);
      eauto using stacked_remove, stacked_replace, stop_inv_perm, Permutation_middle.
    + cbn [calls]. eapply stacked_fmap_replace; [by intros [? []]|by intros [? []]|done|done].
    + eapply stop_inv_perm; [|exact Hl']. rewrite fmap_app. apply Permutation_middle.
  - split; [eapply stacked_replace; [done|by eapply stacked_top]|]. exists l.
    apply (stop_inv_perm _ _ _ _ _ _ _ _ _ (calls_middle _ _ _)) in I.
    eapply stop_inv_perm; [apply Permutation_middle|]. rewrite <-(set_mutex_id (state σ)).
    eapply stop_inv_move; [exact I|done..|by left| |done|done].
    destruct (stop_i_this I) as (i & b & t' & ? & ? & ? & _). by exists i, b, t'.
  - split; [by apply stacked_push|]. exists l. by apply client_construct.
  - split; [by apply stacked_push|]. exists l. by apply client_destroy.
  - split; [by apply stacked_push|]. exists l. by apply client_request.
  - split; [by eapply stacked_remove|]. exists l.
    apply (stop_inv_perm _ _ _ _ _ _ _ _ _ (calls_middle _ _ _)) in I. by eapply client_register_return.
  - split; [by eapply stacked_replace|]. exists l.
    apply (stop_inv_perm _ _ _ _ _ _ _ _ _ (calls_middle _ _ _)) in I.
    eapply stop_inv_perm; [apply Permutation_middle|].
    rewrite <-(set_mutex_id (state σ)). eapply stop_inv_move; [exact I|done..|by left|apply (stop_i_this I)|done|done].
Qed.

Lemma stop_reachable_good σ : reachable σ → good σ.
Proof.
  intros H. unfold reachable in H. remember initial as σ0 eqn:E. assert (good σ0) as H0 by (subst; apply stop_initial_good).
  clear E. induction H; eauto using stop_step_good.
Qed.

(** C15: However threads construct and destroy callbacks, request stops, and run
    callbacks that do the same, no call fails or uses a dangling pointer.  A
    callback is called at most once, and never after its object was destroyed,
    unless the callback destroys it itself; one [request_stop] at most returns
    true. *)
Theorem stop_token_safe σ :
  reachable σ →
  (∀ t k, current_call (calls σ) t k → next_callback_id_ (state σ) < max uint64_t →
     ∃ r, stop_step t (state σ) k = Ret r)
  ∧ NoDup (executed σ)
  ∧ (∀ t c, (t, ExecuteCall c) ∈ calls σ → heap (state σ) !! c = None → destroyed σ !! c = Some t)
  ∧ (∀ t c, (t, RegisterCall c) ∈ calls σ → is_Some (heap (state σ) !! c))
  ∧ (count_occ bool_dec (stops σ) true ≤ 1)%nat.
Proof.
  intros [_ [l I]]%stop_reachable_good. split_and!.
  - intros t k (above & below & Hc & _) Hmax. rewrite Hc in I.
    apply (stop_inv_perm _ _ _ _ _ _ _ _ _ (calls_middle _ _ _)) in I.
    destruct (stop_run_call _ _ _ _ _ _ _ _ _ _ I Hmax) as (r & -> & _). eauto.
  - apply I.
  - intros t c Hin Hnone. apply (i_calls _ _ _ _ _ _ _ _ I) in Hin as (_ & _ & Hin).
    unfold views in Hin. by rewrite lookup_fmap, Hnone in Hin.
  - intros t c Hin. apply (i_calls _ _ _ _ _ _ _ _ I) in Hin as (e & (o & _ & ->)%lookup_fmap_Some). eauto.
  - pose proof (i_stops _ _ _ _ _ _ _ _ I). destruct (stop_requested_ (state σ)); lia.
Qed.

(** When [request_stop] has returned true, the callbacks of all objects that
    exist have been called. *)
Theorem stop_token_complete σ c :
  reachable σ → true ∈ stops σ → c ∈ owned σ → c ∈ executed σ.
Proof.
  intros [_ [l I]]%stop_reachable_good Ht Hc. pose proof I as [].
  assert (0 < count_occ bool_dec (stops σ) true)%nat as Hpos by (apply count_occ_In; by apply list_elem_of_In).
  assert (stop_requested_ (state σ) = true ∧ count notifying (calls σ) = 0%nat) as [Hs Hn]
    by (destruct (stop_requested_ (state σ)); split; (done || lia)).
  destruct (i_owned0 c Hc) as (i & b & e & Hv & Hi). apply (i_view0 _ _ _ _ Hv).
  destruct Hi as [Hi|]; [|done]. pose proof Hv as (o & Ho & Hh)%lookup_fmap_Some. injection Ho as Hid _ _.
  destruct (decide (c ∈ l)) as [Hl|Hl].
  - destruct (i_complete0 Hs Hn c Hl) as (? & ? & ?). by simplify_eq.
  - destruct (chain_others _ _ _ i_chain0 _ _ Hh Hl) as (? & _). lia.
Qed.

(** A call that holds the mutex can go on. *)
Lemma holds_runs t s k : holds k = true → stop_step t s k ≠ Ret None.
Proof.
  destruct k; try done; intros _; cbn [stop_step]; unfold ASSERT_PRD;
    repeat (case_match; try done);
    repeat match goal with |- context [mbind _ ?x] => destruct x; cbn [mbind outcome_bind]; try done end;
    repeat (case_match; try done).
Qed.

(** C19: Calls wait for callbacks only: when no thread can make a step, each runs
    code of the client, or is destroying an object whose callback another
    thread is running. *)
Theorem stop_token_progress σ :
  reachable σ →
  (∀ t k, current_call (calls σ) t k → stop_step t (state σ) k = Ret None) →
  ∀ t k, current_call (calls σ) t k →
    is_client k = true
    ∨ ∃ c t', k = DeregisterSleep c false ∧ t' ≠ t ∧ (t', ExecuteCall c) ∈ calls σ.
Proof.
  intros [HS [l I]]%stop_reachable_good Hstuck.
  assert (∀ t k, (t, k) ∈ calls σ → is_client k = false → stop_step t (state σ) k = Ret None) as Hno
    by eauto using library_current.
  assert (callback_mutex_ (state σ) = None) as Hm.
  { destruct (callback_mutex_ (state σ)) eqn:Hm; [|done]. pose proof (i_mutex _ _ _ _ _ _ _ _ I) as Hc.
    rewrite Hm in Hc. destruct (count_pos holds (calls σ)) as (t & k & Hin & Hk); [lia|].
    destruct (holds_runs t (state σ) k Hk). apply Hno; [done|]. by destruct k. }
  intros t k (above & below & Hc & Ht). assert ((t, k) ∈ calls σ) as Hin by (rewrite Hc; set_solver).
  destruct (is_client k) eqn:Hcl; [by left|right]. specialize (Hno t k Hin Hcl) as Hk.
  assert (∃ c, k = DeregisterSleep c false) as [c ->].
  { pose proof (i_calls _ _ _ _ _ _ _ _ I _ _ Hin) as Hci.
    destruct (holds k) eqn:Hh; [by destruct (holds_runs t (state σ) k Hh)|].
    destruct k as [| | | | | | | | |c []| | | | | | |]; try done; unfold lock in Hk; cbn [stop_step] in Hk;
      unfold lock in Hk; rewrite ?Hm in Hk; try done; [|eauto|by case_match].
    destruct Hci as [v (o & _ & Ho)%lookup_fmap_Some]. rewrite (get_Some _ _ _ Ho) in Hk.
    cbn [mbind outcome_bind] in Hk. unfold ASSERT_PRD in Hk. by repeat case_match. }
  destruct (i_calls _ _ _ _ _ _ _ _ I _ _ Hin) as (i & b & t' & Hv & Hi & Hne & Hcur).
  rewrite (Hcur eq_refl) in *.
  destruct (executed_by_current _ _ _ _ _ _ _ _ _ _ _ I Hv Hi) as (t0 & k0 & Hin0 & Hk0 & [= <-]).
  exists c, t'. split_and!; [done..|]. destruct k0; simplify_eq/=; [done|..].
  - specialize (Hno _ _ Hin0 eq_refl). cbn [stop_step] in Hno. unfold lock in Hno. by rewrite Hm in Hno.
  - by rewrite (i_holder _ _ _ _ _ _ _ _ I _ _ Hin0) in Hm.
Qed.

(** Two callbacks are registered, then thread 1 requests a stop; while it runs
    the first callback, thread 0 destroys its object and has to wait. *)
Definition sample_blocked : list action :=
  [Construct 0 7; Run 0; Run 0; Run 0; Construct 0 8; Run 0; Run 0; Run 0;
   Request 1; Run 1; Run 1; Run 1; Destroy 0 7; Run 0; Run 0; Run 0; Run 0].

(** The callbacks return, [request_stop] returns, and the object is gone. *)
Definition sample_finished : list action :=
  sample_blocked ++ [Return 1; Run 1; Run 1; Run 1; Run 1; Return 1; Run 1; Run 1; Run 1; Run 1; Run 1;
                     Run 0; Run 0; Run 0].

Definition sample (l : list action) : system := default initial (schedule initial l).

Lemma stop_sample_reachable l : schedule initial l ≠ None → reachable (sample l).
Proof.
  intros H. destruct (schedule initial l) as [σ|] eqn:E; [|done]. unfold sample. rewrite E.
  by eapply stop_schedule_reachable.
Qed.

Lemma stop_token_safe_witness :
  executed (sample sample_finished) = [7; 8]%nat ∧ NoDup (executed (sample sample_finished)).
Proof.
  split; [by vm_compute|].
  apply (stop_token_safe (sample sample_finished)). apply stop_sample_reachable. by vm_compute.
Defined.

Lemma stop_token_complete_witness : 8%nat ∈ executed (sample sample_finished).
Proof.
  apply (stop_token_complete (sample sample_finished) 8).
  - apply stop_sample_reachable. by vm_compute.
  - apply (bool_decide_unpack _). by vm_compute.
  - apply (bool_decide_unpack _). by vm_compute.
Defined.

Lemma stop_token_progress_witness :
  ∃ c t', t' ≠ 0%nat ∧ (t', ExecuteCall c) ∈ calls (sample sample_blocked).
Proof.
  assert (calls (sample sample_blocked) = [(0, DeregisterSleep 7 false); (1, ExecuteCall 7)]%nat) as Hc
    by (by vm_compute).
  assert (reachable (sample sample_blocked)) as Hr by (apply stop_sample_reachable; by vm_compute).
  revert Hc Hr. generalize (sample sample_blocked). intros σ Hc Hr.
  destruct (stop_token_progress σ Hr) with (t := 0%nat) (k := DeregisterSleep 7 false)
    as [H|(c & t' & _ & H)].
  - intros t k (above & below & E & _). rewrite Hc in E.
    destruct above as [|x [|y [|z above]]]; by simplify_eq/=.
  - exists [], [(1, ExecuteCall 7)]%nat. split; [done|]. by intros ?%elem_of_nil.
  - done.
  - by exists c, t'.
Defined.

End StopTokenSpec.
