(* ===== verification/InterruptibleState.v ===== *)
(** * The state of promises and futures: concurrency/future/interruptible_state.h

    [InterruptibleState], which a promise shares with its futures.  A
    continuation that a thread runs is code of the client, which may call the
    library again (see CallStacks.v).

    How a thread waits until the state is ready is the subject of
    InterruptibleWait.v; here [GetWait] is a thread that waits, and goes on when
    it reads [ready_].

    A future of type [InterruptibleFuture] moves the value out of the state,
    and there is one of them; [InterruptibleSharedFuture]s read it.  The client
    is in one of two modes: [Shared], with any number of continuations and of
    calls of [Get] that read, and [Exclusive], with one [Get] that moves and no
    continuations.  [Mixed] has both. *)

From stdpp Require Import relations.
From S2P Require Import Prelude CppInt CallStacks.

Local Open Scope Z_scope.

Module InterruptibleState.
Import CallStacks.

Inductive mode := Shared | Exclusive | Mixed.

Section State.
Context {V : Type}.

(** [unset] is the value of a new state; [moved v] is what is left of [v] when
    it was moved from. *)
Context (unset : V) (moved : V → V).

(** [value_] is [None] while no object lives in its storage. *)
Record state := {
  value_set_ : bool;
  value_ : option V;
  ready_ : bool;
  continuation_callback_mutex_ : option nat;
  continuation_callbacks_ : list nat;
  triggered_ : bool;
  reference_count_ : Z;
}.

Definition make : state :=
  {| value_set_ := false; value_ := Some unset; ready_ := false;
     continuation_callback_mutex_ := None; continuation_callbacks_ := []; triggered_ := false;
     reference_count_ := 0 |}.

Definition set_value_set (s : state) : state :=
  {| value_set_ := true; value_ := value_ s; ready_ := ready_ s;
     continuation_callback_mutex_ := continuation_callback_mutex_ s;
     continuation_callbacks_ := continuation_callbacks_ s; triggered_ := triggered_ s;
     reference_count_ := reference_count_ s |}.
Definition set_value (v : option V) (s : state) : state :=
  {| value_set_ := value_set_ s; value_ := v; ready_ := ready_ s;
     continuation_callback_mutex_ := continuation_callback_mutex_ s;
     continuation_callbacks_ := continuation_callbacks_ s; triggered_ := triggered_ s;
     reference_count_ := reference_count_ s |}.
Definition set_ready (s : state) : state :=
  {| value_set_ := value_set_ s; value_ := value_ s; ready_ := true;
     continuation_callback_mutex_ := continuation_callback_mutex_ s;
     continuation_callbacks_ := continuation_callbacks_ s; triggered_ := triggered_ s;
     reference_count_ := reference_count_ s |}.
Definition set_mutex (m : option nat) (s : state) : state :=
  {| value_set_ := value_set_ s; value_ := value_ s; ready_ := ready_ s;
     continuation_callback_mutex_ := m;
     continuation_callbacks_ := continuation_callbacks_ s; triggered_ := triggered_ s;
     reference_count_ := reference_count_ s |}.
Definition set_callbacks (l : list nat) (s : state) : state :=
  {| value_set_ := value_set_ s; value_ := value_ s; ready_ := ready_ s;
     continuation_callback_mutex_ := continuation_callback_mutex_ s;
     continuation_callbacks_ := l; triggered_ := triggered_ s;
     reference_count_ := reference_count_ s |}.
Definition set_triggered (s : state) : state :=
  {| value_set_ := value_set_ s; value_ := value_ s; ready_ := ready_ s;
     continuation_callback_mutex_ := continuation_callback_mutex_ s;
     continuation_callbacks_ := continuation_callbacks_ s; triggered_ := true;
     reference_count_ := reference_count_ s |}.
Definition set_count (n : Z) (s : state) : state :=
  {| value_set_ := value_set_ s; value_ := value_ s; ready_ := ready_ s;
     continuation_callback_mutex_ := continuation_callback_mutex_ s;
     continuation_callbacks_ := continuation_callbacks_ s; triggered_ := triggered_ s;
     reference_count_ := n |}.

(** Where a thread is in a call; the comment is what it does next.  Calls of
    [SetValue] and [SetError] differ in the result they store. *)
Inductive call :=
| SetTest (r : V)              (* value_set_.exchange(true) *)
| SetDestroy (r : V)           (* std::destroy_at(&value_) *)
| SetConstruct (r : V)         (* ::new (&value_) score::Result<Value>{...} *)
| SetReady                     (* MakeReady() *)
| TriggerLock                  (* lock continuation_callback_mutex_ *)
| TriggerSet                   (* triggered_ = true, unlock *)
| TriggerLoop (i n : nat)      (* the loop, at the i-th of n callbacks *)
| TriggerCall (i n c : nat)    (* callback(value_) in TriggerContinuations *)
| AddRegister (c : nat)        (* RegisterFuture() *)
| AddLock (c : nat)            (* lock continuation_callback_mutex_ *)
| AddTest (c : nat)            (* if (triggered_), unlock *)
| AddCall (c : nat)            (* callback(value_) in AddContinuationCallback *)
| GetWait (moving : bool)      (* Wait until ready_ *)
| GetRead (moving : bool).     (* read from or move from GetValue() *)

Inductive control :=
| Continue (k : call)
| SetReturned (b : bool)
| AddReturned (c : nat)
| GetReturned (v : V).

Definition lock (t : nat) (s : state) (k : call) : outcome (option (state * control)) :=
  match continuation_callback_mutex_ s with
  | None => Ret (Some (set_mutex (Some t) s, Continue k))
  | Some _ => Ret None
  end.

(** [RegisterFuture]: an overflow of the counter terminates the program. *)
Definition RegisterFuture (s : state) : outcome state :=
  let new_reference_count := static_cast int32_t (reference_count_ s + 1) in
  if new_reference_count <? 0 then Aborted else Ret (set_count new_reference_count s).

(** The body of the loop in [TriggerContinuations], and its end. *)
Definition trigger_loop (s : state) (i n : nat) : outcome (option (state * control)) :=
  if (i <? n)%nat then
    match continuation_callbacks_ s !! i with
    | Some c => Ret (Some (s, Continue (TriggerCall i n c)))
    | None => Undefined
    end
  else Ret (Some (set_callbacks [] s, SetReturned true)).

(** One step of thread [t]; [None] if it cannot make one. *)
Definition state_step (t : nat) (s : state) (k : call) : outcome (option (state * control)) :=
  match k with
  | SetTest r =>
      if value_set_ s then Ret (Some (s, SetReturned false))
      else Ret (Some (set_value_set s, Continue (SetDestroy r)))
  | SetDestroy r =>
      match value_ s with
      | Some _ => Ret (Some (set_value None s, Continue (SetConstruct r)))
      | None => Undefined
      end
  | SetConstruct r =>
      match value_ s with
      | None => Ret (Some (set_value (Some r) s, Continue SetReady))
      | Some _ => Undefined
      end
  | SetReady => Ret (Some (set_ready s, Continue TriggerLock))
  | TriggerLock => lock t s TriggerSet
  | TriggerSet =>
      Ret (Some (set_mutex None (set_triggered s),
                 Continue (TriggerLoop 0 (length (continuation_callbacks_ s)))))
  | TriggerLoop i n => trigger_loop s i n
  | AddRegister c => s ← RegisterFuture s; Ret (Some (s, Continue (AddLock c)))
  | AddLock c => lock t s (AddTest c)
  | AddTest c =>
      if triggered_ s then Ret (Some (set_mutex None s, Continue (AddCall c)))
      else Ret (Some (set_mutex None (set_callbacks (continuation_callbacks_ s ++ [c]) s), AddReturned c))
  | GetWait moving => if ready_ s then Ret (Some (s, Continue (GetRead moving))) else Ret None
  | GetRead moving =>
      match value_ s with
      | Some v => Ret (Some (if moving then set_value (Some (moved v)) s else s, GetReturned v))
      | None => Undefined
      end
  | TriggerCall _ _ _ | AddCall _ => Ret None
  end.

(** ** The system *)

(** [added]: the continuations whose registration was begun; [registered]:
    those whose registration has returned; [invoked]: the continuations that
    were called, with the value they were given; [gets], [sets]: what the calls
    of [Get] and of the setters returned; [winner]: the result of the setter
    that found [value_set_] unset. *)
Record system := {
  shared : state;
  calls : list (nat * call);
  added : list nat;
  registered : list nat;
  invoked : list (nat * V);
  gets : list V;
  sets : list bool;
  winner : option V;
}.

Definition initial : system :=
  {| shared := make; calls := []; added := []; registered := []; invoked := []; gets := []; sets := [];
     winner := None |}.

(** The continuation that is called when a thread gets to [k]. *)
Definition called (k : call) : option nat :=
  match k with TriggerCall _ _ c | AddCall c => Some c | _ => None end.

(** The call of a continuation is given the object in [value_]. *)
Definition invoke (s : state) (k : call) (l : list (nat * V)) : outcome (list (nat * V)) :=
  match called k with
  | None => Ret l
  | Some c => match value_ s with Some v => Ret (l ++ [(c, v)]) | None => Undefined end
  end.

Definition next_winner (k : call) (w : option V) : option V :=
  match k with SetDestroy r => Some r | _ => w end.

Definition resume (σ : system) (t : nat) (above below : list (nat * call)) (s : state) (r : control) :
    outcome system :=
  match r with
  | Continue k =>
      l ← invoke s k (invoked σ);
      Ret {| shared := s; calls := above ++ (t, k) :: below; added := added σ;
             registered := registered σ; invoked := l; gets := gets σ; sets := sets σ;
             winner := next_winner k (winner σ) |}
  | SetReturned b =>
      Ret {| shared := s; calls := above ++ below; added := added σ; registered := registered σ;
             invoked := invoked σ; gets := gets σ; sets := sets σ ++ [b];
             winner := winner σ |}
  | AddReturned c =>
      Ret {| shared := s; calls := above ++ below; added := added σ; registered := registered σ ++ [c];
             invoked := invoked σ; gets := gets σ; sets := sets σ; winner := winner σ |}
  | GetReturned v =>
      Ret {| shared := s; calls := above ++ below; added := added σ; registered := registered σ;
             invoked := invoked σ; gets := gets σ ++ [v]; sets := sets σ;
             winner := winner σ |}
  end.

(** What thread [t] does next, [None] if it has to wait. *)
Definition thread_step (σ : system) (t : nat) (above : list (nat * call)) (k : call)
    (below : list (nat * call)) : outcome (option system) :=
  r ← state_step t (shared σ) k;
  match r with
  | None => Ret None
  | Some (s, r) => σ' ← resume σ t above below s r; Ret (Some σ')
  end.

Definition is_client (k : call) : bool :=
  match k with TriggerCall _ _ _ | AddCall _ => true | _ => false end.

Definition is_get (k : call) : bool := match k with GetWait _ | GetRead _ => true | _ => false end.

(** What the client may do in mode [md]. *)
Definition may_add (md : mode) : bool := match md with Exclusive => false | _ => true end.
Definition may_get (md : mode) (moving : bool) (σ : system) : bool :=
  match md with
  | Shared => negb moving
  | Exclusive => moving && bool_decide (gets σ = []) && negb (existsb is_get (calls σ).*2)
  | Mixed => true
  end.

Definition push (σ : system) (t : nat) (k : call) (l : list nat) : system :=
  {| shared := shared σ; calls := (t, k) :: calls σ; added := l; registered := registered σ;
     invoked := invoked σ; gets := gets σ; sets := sets σ; winner := winner σ |}.

Inductive step (md : mode) (σ : system) : system → Prop :=
| step_run t k above below σ' :
    calls σ = above ++ (t, k) :: below → t ∉ above.*1 →
    thread_step σ t above k below = Ret (Some σ') →
    step md σ σ'
| step_set t r : in_client is_client (calls σ) t → step md σ (push σ t (SetTest r) (added σ))
| step_add t c :
    in_client is_client (calls σ) t → may_add md = true → c ∉ added σ →
    step md σ (push σ t (AddRegister c) (added σ ++ [c]))
| step_get t moving :
    in_client is_client (calls σ) t → may_get md moving σ = true →
    step md σ (push σ t (GetWait moving) (added σ))
| step_trigger_return t i n c above below :
    calls σ = above ++ (t, TriggerCall i n c) :: below → t ∉ above.*1 →
    step md σ {| shared := shared σ; calls := above ++ (t, TriggerLoop (S i) n) :: below;
                 added := added σ; registered := registered σ; invoked := invoked σ;
                 gets := gets σ; sets := sets σ; winner := winner σ |}
| step_add_return t c above below :
    calls σ = above ++ (t, AddCall c) :: below → t ∉ above.*1 →
    step md σ {| shared := shared σ; calls := above ++ below; added := added σ;
                 registered := registered σ ++ [c]; invoked := invoked σ; gets := gets σ;
                 sets := sets σ; winner := winner σ |}.

Definition reachable (md : mode) (σ : system) : Prop := rtc (step md) initial σ.

(** ** Data races *)

(** Accesses to [value_] that a call is about to make, or may make while it is
    client code. *)
Definition writes_value (k : call) : bool :=
  match k with SetDestroy _ | SetConstruct _ | GetRead true => true | _ => false end.
Definition accesses_value (k : call) : bool :=
  match k with
  | SetDestroy _ | SetConstruct _ | GetRead _ | TriggerCall _ _ _ | AddCall _ => true
  | _ => false
  end.

(** Accesses to [continuation_callbacks_]; all of them may write. *)
Definition accesses_callbacks (s : state) (k : call) : bool :=
  match k with
  | TriggerLoop _ _ | TriggerCall _ _ _ => true
  | AddTest _ => negb (triggered_ s)
  | _ => false
  end.

(** One of the calls writes what the other one accesses. *)
Definition conflict (s : state) (k1 k2 : call) : bool :=
  writes_value k1 && accesses_value k2 || accesses_callbacks s k1 && accesses_callbacks s k2.

(** Two threads are about to make accesses that conflict. *)
Definition races (σ : system) (k1 k2 : call) : Prop :=
  ∃ t1 t2 rest, calls σ ≡ₚ (t1, k1) :: (t2, k2) :: rest ∧ t1 ≠ t2 ∧ conflict (shared σ) k1 k2 = true.

Definition race (σ : system) : Prop := ∃ k1 k2, races σ k1 k2.

(** ** A scheduler *)

(** One step of the system, chosen by who makes it. *)
Inductive action :=
| Run (t : nat)
| Set_ (t : nat) (r : V)
| Add (t c : nat)
| Get (t : nat) (moving : bool)
| Return (t : nat).

Definition perform (md : mode) (σ : system) (a : action) : option system :=
  match a with
  | Run t =>
      '(above, k, below) ← split_top (calls σ) t;
      match thread_step σ t above k below with Ret r => r | _ => None end
  | Set_ t r =>
      if client_code is_client (calls σ) t then Some (push σ t (SetTest r) (added σ)) else None
  | Add t c =>
      if client_code is_client (calls σ) t && may_add md && bool_decide (c ∉ added σ)
      then Some (push σ t (AddRegister c) (added σ ++ [c])) else None
  | Get t moving =>
      if client_code is_client (calls σ) t && may_get md moving σ
      then Some (push σ t (GetWait moving) (added σ)) else None
  | Return t =>
      '(above, k, below) ← split_top (calls σ) t;
      match k with
      | TriggerCall i n c =>
          Some {| shared := shared σ; calls := above ++ (t, TriggerLoop (S i) n) :: below;
                  added := added σ; registered := registered σ; invoked := invoked σ;
                  gets := gets σ; sets := sets σ; winner := winner σ |}
      | AddCall c =>
          Some {| shared := shared σ; calls := above ++ below; added := added σ;
                  registered := registered σ ++ [c]; invoked := invoked σ; gets := gets σ;
                  sets := sets σ; winner := winner σ |}
      | _ => None
      end
  end.

Fixpoint schedule (md : mode) (σ : system) (l : list action) : option system :=
  match l with
  | [] => Some σ
  | a :: l => σ' ← perform md σ a; schedule md σ' l
  end.

Lemma promise_perform_step md σ a σ' : perform md σ a = Some σ' → step md σ σ'.
Proof.
  destruct a as [t|t r|t c|t b|t]; cbn [perform].
  - destruct (split_top (calls σ) t) as [[[above k] below]|] eqn:E; [|done]. cbn [mbind option_bind].
    apply split_top_Some in E as [E Ht]. destruct (thread_step σ t above k below) as [r| |] eqn:Hs; try done.
    intros ->. by eapply step_run.
  - case_match eqn:H; [|done]. apply client_code_in_client in H. intros [= <-]. by apply step_set.
  - case_match eqn:H; [|done].
    apply andb_true_iff in H as [[?%client_code_in_client ?]%andb_true_iff ?%bool_decide_eq_true].
    intros [= <-]. by apply step_add.
  - case_match eqn:H; [|done]. apply andb_true_iff in H as [?%client_code_in_client ?].
    intros [= <-]. by apply step_get.
  - destruct (split_top (calls σ) t) as [[[above k] below]|] eqn:E; [|done]. cbn [mbind option_bind].
    apply split_top_Some in E as [E Ht]. destruct k; try done; intros [= <-].
    + by eapply step_trigger_return.
    + by eapply step_add_return.
Qed.

Lemma promise_schedule_reachable md l σ : schedule md initial l = Some σ → reachable md σ.
Proof.
  unfold reachable. generalize initial. induction l as [|a l IH]; intros σ0; cbn [schedule].
  { intros [= ->]. apply rtc_refl. }
  destruct (perform md σ0 a) as [σ1|] eqn:E; [|done]. intros H.
  eapply rtc_l; [by apply promise_perform_step in E|auto].
Qed.

End State.

Arguments action : clear implicits.
Arguments state : clear implicits.
Arguments call : clear implicits.
Arguments control : clear implicits.
Arguments system : clear implicits.

End InterruptibleState.
