(* ===== verification/InterruptibleStateSpec.v ===== *)
(** * Properties of the state of promises and futures

    The invariant of InterruptibleState.v: at most one call sets the value, the
    value is complete before [ready_] is set, and a continuation is in exactly
    one of three places: about to be added, in the list, or called. *)

From stdpp Require Import relations.
From S2P Require Import Prelude CppInt CallStacks InterruptibleState.

Local Open Scope Z_scope.

Module InterruptibleStateSpec.
Import CallStacks InterruptibleState.

Section Spec.
Context {V : Type}.
Implicit Types (s : state V) (k : call V) (F : list (nat * call V)) (w : option V).

(** ** Classification of calls *)

(** The calls between [TestAndMarkValueAsSet] and the end of the setter. *)
Definition setting (k : call V) : bool :=
  match k with
  | SetDestroy _ | SetConstruct _ | SetReady | TriggerLock | TriggerSet | TriggerLoop _ _
  | TriggerCall _ _ _ => true
  | _ => false
  end.

Definition holds (k : call V) : bool := match k with TriggerSet | AddTest _ => true | _ => false end.

(** A call at work on continuation [c]. *)
Definition adding (c : nat) (k : call V) : bool :=
  match k with
  | AddRegister c' | AddLock c' | AddTest c' | AddCall c' => bool_decide (c' = c)
  | _ => false
  end.

Definition is_add (k : call V) : bool :=
  match k with AddRegister _ | AddLock _ | AddTest _ | AddCall _ => true | _ => false end.

Definition moving_get (k : call V) : bool :=
  match k with GetWait b | GetRead b => b | _ => false end.

Definition registering (k : call V) : bool := match k with AddRegister _ => true | _ => false end.

(** ** The invariant *)

(** The callbacks before position [i] have been called. *)
Definition called_until (i : nat) (l : list nat) (I : list (nat * V)) : Prop :=
  ∀ j c, l !! j = Some c → c ∈ I.*1 ↔ (j < i)%nat.

(** What holds when a thread is at [k]; [w] is the result that was set. *)
Definition call_inv s w (A : list nat) (I : list (nat * V)) (k : call V) : Prop :=
  match k with
  | SetTest _ | GetWait _ => True
  | SetDestroy r => w = Some r ∧ ready_ s = false ∧ triggered_ s = false ∧ is_Some (value_ s)
  | SetConstruct r => w = Some r ∧ ready_ s = false ∧ triggered_ s = false ∧ value_ s = None
  | SetReady => is_Some w ∧ ready_ s = false ∧ triggered_ s = false ∧ value_ s = w
  | TriggerLock | TriggerSet => ready_ s = true ∧ triggered_ s = false
  | TriggerLoop i n =>
      triggered_ s = true ∧ n = length (continuation_callbacks_ s) ∧ (i ≤ n)%nat
      ∧ called_until i (continuation_callbacks_ s) I
  | TriggerCall i n c =>
      triggered_ s = true ∧ n = length (continuation_callbacks_ s) ∧ (i < n)%nat
      ∧ called_until (S i) (continuation_callbacks_ s) I
  | AddRegister c | AddLock c | AddTest c =>
      c ∈ A ∧ c ∉ I.*1 ∧ c ∉ continuation_callbacks_ s
  | AddCall c => c ∈ A ∧ c ∈ I.*1 ∧ triggered_ s = true
  | GetRead _ => ready_ s = true
  end.

Record inv (md : mode) (s : state V) (F : list (nat * call V)) (A Rg : list nat)
    (I : list (nat * V)) (G : list V) (S : list bool) (w : option V) : Prop := {
  i_sets : (count_occ bool_dec S true + count setting F = if value_set_ s then 1 else 0)%nat;
  i_unset : value_set_ s = false → ready_ s = false ∧ is_Some (value_ s);
  i_done : value_set_ s = true → count setting F = 0%nat →
    triggered_ s = true ∧ continuation_callbacks_ s = [];
  i_triggered : triggered_ s = true → ready_ s = true;
  i_ready : ready_ s = true → is_Some w ∧ is_Some (value_ s) ∧ (value_ s = w ∨ md ≠ Shared ∧ G ≠ []);
  i_calls : ∀ t k, (t, k) ∈ F → call_inv s w A I k;
  i_list : NoDup (continuation_callbacks_ s) ∧ ∀ c, c ∈ continuation_callbacks_ s → c ∈ A;
  i_adding : ∀ c, (count (adding c) F ≤ 1)%nat;
  i_invoked : NoDup I.*1 ∧ (∀ c, c ∈ I.*1 → c ∈ A) ∧ (md ≠ Mixed → ∀ c v, (c, v) ∈ I → w = Some v);
  i_uncalled : triggered_ s = false → I = [];
  i_registered : ∀ c, c ∈ Rg → c ∈ continuation_callbacks_ s ∨ c ∈ I.*1;
  i_gets : ∀ v, v ∈ G → ready_ s = true ∧ (md ≠ Mixed → w = Some v);
  i_mutex : count holds F = (if continuation_callback_mutex_ s then 1 else 0)%nat;
  i_count : 0 <= reference_count_ s < 2 ^ 31
    ∧ reference_count_ s + Z.of_nat (count registering F) <= Z.of_nat (length A);
  i_holder : ∀ t k, (t, k) ∈ F → holds k = true → continuation_callback_mutex_ s = Some t;
  i_mode : match md with
    | Shared => count moving_get F = 0%nat
    | Exclusive => continuation_callbacks_ s = [] ∧ count is_add F = 0%nat ∧ (length G + count is_get F ≤ 1)%nat
    | Mixed => True
    end;
}.

Lemma promise_inv_perm md s F F' A Rg I G S w :
  F ≡ₚ F' → inv md s F A Rg I G S w → inv md s F' A Rg I G S w.
Proof.
  intros HF []. split; try done; try (intros; first [rewrite <-(count_perm _ _ _ HF) in *|idtac]; eauto; fail).
  - by setoid_rewrite <-HF.
  - by setoid_rewrite <-HF.
  - destruct md; [..|done]; by rewrite <-!(count_perm _ _ _ HF).
Qed.

(** The other calls when the state changes. *)
Lemma promise_call_inv_frame s s' w w' A A' I I' k :
  call_inv s w A I k →
  (ready_ s = true → ready_ s' = true) → (triggered_ s = true → triggered_ s' = true) →
  (∀ c, c ∈ A → c ∈ A') → (∀ c, c ∈ I.*1 → c ∈ I'.*1) →
  (∀ c, adding c k = true → c ∈ I'.*1 → c ∈ I.*1) →
  (∀ c, adding c k = true → c ∈ continuation_callbacks_ s' → c ∈ continuation_callbacks_ s) →
  (setting k = true → w' = w ∧ ready_ s' = ready_ s ∧ triggered_ s' = triggered_ s
     ∧ (ready_ s = false → value_ s' = value_ s)
     ∧ (triggered_ s = true → continuation_callbacks_ s' = continuation_callbacks_ s
        ∧ ∀ c, c ∈ continuation_callbacks_ s → c ∈ I'.*1 → c ∈ I.*1)) →
  call_inv s' w' A' I' k.
Proof.
  intros Hk Hr Ht HA HI Hadd Hcb Hset.
  assert (∀ i, called_until i (continuation_callbacks_ s) I →
    (∀ c, c ∈ continuation_callbacks_ s → c ∈ I'.*1 → c ∈ I.*1) →
    called_until i (continuation_callbacks_ s) I') as Hcu.
  { intros i Hi Hc j c Hj. rewrite <-(Hi j c Hj). pose proof (list_elem_of_lookup_2 _ _ _ Hj). split; auto. }
  assert (∀ c, adding c k = true → c ∈ A ∧ c ∉ I.*1 ∧ c ∉ continuation_callbacks_ s →
    c ∈ A' ∧ c ∉ I'.*1 ∧ c ∉ continuation_callbacks_ s') as Hadd'
    by (intros c Hc (? & ? & ?); split_and!; [auto|intros ?; eauto..]).
  destruct k; cbn [call_inv setting adding] in *; try done; auto;
    try (apply Hadd'; [by apply bool_decide_eq_true|done]);
    try destruct (Hset eq_refl) as (-> & E1 & E2 & E3 & E4).
  - destruct Hk as (? & ? & ? & ?). by rewrite E1, E2, E3.
  - destruct Hk as (? & ? & ? & ?). by rewrite E1, E2, E3.
  - destruct Hk as (? & ? & ? & ?). by rewrite E1, E2, E3.
  - by rewrite E1, E2.
  - by rewrite E1, E2.
  - destruct Hk as (? & -> & ? & ?). destruct E4 as [-> ?]; [done|]. auto.
  - destruct Hk as (? & -> & ? & ?). destruct E4 as [-> ?]; [done|]. auto.
  - destruct Hk as (? & ? & ?). auto.
Qed.

Section Facts.
Context {md : mode} {s : state V} {t : nat} {k : call V} {F : list (nat * call V)}.
Context {A Rg : list nat} {I : list (nat * V)} {G : list V} {S : list bool} {w : option V}.
Context (Hinv : inv md s ((t, k) :: F) A Rg I G S w).

Lemma promise_i_this : call_inv s w A I k.
Proof using Hinv. apply (i_calls _ _ _ _ _ _ _ _ _ Hinv t). apply list_elem_of_here. Qed.

Lemma promise_i_other t0 k0 : (t0, k0) ∈ F → call_inv s w A I k0.
Proof using Hinv. intros H. apply (i_calls _ _ _ _ _ _ _ _ _ Hinv t0). by apply list_elem_of_further. Qed.

Lemma this_setting : setting k = true → value_set_ s = true ∧ count setting F = 0%nat ∧ count_occ bool_dec S true = 0%nat.
Proof using Hinv.
  intros Hk. pose proof (i_sets _ _ _ _ _ _ _ _ _ Hinv) as Hs. rewrite count_call, Hk in Hs.
  destruct (value_set_ s); split_and!; (done || lia).
Qed.

Lemma other_setting t0 k0 : setting k = true → (t0, k0) ∈ F → setting k0 = false.
Proof using Hinv. intros (_ & Hc & _)%this_setting. by apply count_zero. Qed.

Lemma promise_rest_holds : holds k = true → count holds F = 0%nat.
Proof using Hinv.
  intros Hk. pose proof (i_mutex _ _ _ _ _ _ _ _ _ Hinv) as Hm. rewrite count_call, Hk in Hm.
  destruct (continuation_callback_mutex_ s); lia.
Qed.

Lemma promise_other_holds t0 k0 : holds k = true → (t0, k0) ∈ F → holds k0 = false.
Proof using Hinv. intros Hk. apply count_zero. by apply promise_rest_holds. Qed.

Lemma other_adding c t0 k0 : adding c k = true → (t0, k0) ∈ F → adding c k0 = false.
Proof using Hinv.
  intros Hk. apply count_zero. pose proof (i_adding _ _ _ _ _ _ _ _ _ Hinv c) as Hc.
  rewrite count_call, Hk in Hc. lia.
Qed.

(** A call that calls a continuation finds a value, the one that was set if
    nobody takes it. *)
Lemma value_triggered : triggered_ s = true → md ≠ Exclusive → ∃ v, value_ s = Some v ∧ (md ≠ Mixed → w = Some v).
Proof using Hinv.
  intros Ht Hmd. apply (i_triggered _ _ _ _ _ _ _ _ _ Hinv) in Ht.
  destruct (i_ready _ _ _ _ _ _ _ _ _ Hinv Ht) as (? & [v Hv] & Hw). exists v. split; [done|].
  intros Hm. destruct Hw as [Hw|[Hs _]]; [congruence|by destruct md].
Qed.

Lemma adding_shared : is_add k = true → md ≠ Exclusive.
Proof using Hinv.
  intros Hk ->. pose proof (i_mode _ _ _ _ _ _ _ _ _ Hinv) as Hm.
  destruct Hm as (_ & Hm & _). rewrite count_call, Hk in Hm. lia.
Qed.

End Facts.

Ltac state_simpl :=
  cbn [set_value_set set_value set_ready set_mutex set_callbacks set_triggered set_count value_set_ value_
    ready_ continuation_callback_mutex_ continuation_callbacks_ triggered_ reference_count_] in *.

(** A call moves on, and nothing but the mutex and the counter changes. *)
Lemma promise_inv_move md s t k k' F A Rg I G S w m n :
  inv md s ((t, k) :: F) A Rg I G S w →
  setting k' = setting k → (∀ c, adding c k' = adding c k) → is_add k' = is_add k → is_get k' = is_get k →
  moving_get k' = moving_get k →
  (holds k' = holds k ∧ m = continuation_callback_mutex_ s
   ∨ continuation_callback_mutex_ s = None ∧ holds k = false ∧ holds k' = true ∧ m = Some t) →
  (registering k' = registering k ∧ n = reference_count_ s
   ∨ registering k = true ∧ registering k' = false ∧ n = reference_count_ s + 1 ∧ 0 <= n < 2 ^ 31) →
  call_inv s w A I k' →
  inv md (set_mutex m (set_count n s)) ((t, k') :: F) A Rg I G S w.
Proof.
  intros Hinv Hset Hadd Hisadd Hget Hmove Hm Hn Hk. pose proof Hinv as [].
  split; state_simpl; rewrite ?count_call, ?Hset, ?Hisadd, ?Hget, ?Hmove in *; try done.
  - intros t0 k0 [[= -> ->]|Hin]%elem_of_cons; [by destruct k'|].
    pose proof (promise_i_other Hinv _ _ Hin) as H0. by destruct k0.
  - intros c. rewrite count_call, Hadd, <-count_call with (t := t). auto.
  - destruct Hm as [[-> ->]|(Hm & E & -> & ->)]; [done|]. rewrite Hm, E in i_mutex0. lia.
  - destruct Hn as [[-> ->]|(E & -> & -> & ?)]; [done|]. rewrite E in i_count0. lia.
  - intros t0 k0 [[= -> ->]|Hin]%elem_of_cons Hh.
    + destruct Hm as [[E ->]|(_ & _ & _ & ->)]; [|done]. apply (i_holder0 t k); [apply list_elem_of_here|congruence].
    + pose proof (i_holder0 t0 k0 (list_elem_of_further _ _ _ Hin) Hh) as E.
      destruct Hm as [[_ ->]|(E' & _)]; [done|congruence].
Qed.

(** The thread that sets the value goes on; nobody else depends on what it
    changes. *)
Lemma inv_setting md s t k k' F A Rg I G S w v r g m :
  inv md s ((t, k) :: F) A Rg I G S w → setting k = true → setting k' = true →
  let s' := {| value_set_ := value_set_ s; value_ := v; ready_ := r; continuation_callback_mutex_ := m;
               continuation_callbacks_ := continuation_callbacks_ s; triggered_ := g;
               reference_count_ := reference_count_ s |} in
  (ready_ s = true → r = true) → (triggered_ s = true → g = true) → (g = true → r = true) →
  (r = true → is_Some w ∧ is_Some v ∧ (v = w ∨ md ≠ Shared ∧ G ≠ [])) →
  (holds k' = holds k ∧ m = continuation_callback_mutex_ s ∨ holds k = true ∧ holds k' = false ∧ m = None) →
  call_inv s' w A I k' →
  inv md s' ((t, k') :: F) A Rg I G S w.
Proof.
  intros Hinv Hset Hset' s' Hr Hg Hgr Hrv Hm Hk. destruct (this_setting Hinv Hset) as (Hvs & Hc & HS).
  assert (is_add k = false ∧ is_get k = false ∧ moving_get k = false ∧ registering k = false ∧ ∀ c, adding c k = false)
    as (E1 & E2 & E2m & E3 & E4) by (by destruct k).
  assert (is_add k' = false ∧ is_get k' = false ∧ moving_get k' = false ∧ registering k' = false ∧ ∀ c, adding c k' = false)
    as (E1' & E2' & E2m' & E3' & E4') by (by destruct k').
  pose proof Hinv as []. split; subst s'; state_simpl;
    rewrite ?count_call, ?Hset, ?Hset', ?E1, ?E2, ?E2m, ?E3, ?E1', ?E2', ?E2m', ?E3' in *; try done.
  - by rewrite Hvs.
  - intros t0 k0 [[= -> ->]|Hin]%elem_of_cons; [done|]. pose proof (other_setting Hinv _ _ Hset Hin) as Hk0.
    eapply promise_call_inv_frame; [exact (promise_i_other Hinv _ _ Hin)|done..|]. by rewrite Hk0.
  - intros c. specialize (i_adding0 c). rewrite count_call, E4 in i_adding0. by rewrite count_call, E4'.
  - intros Hg'. apply i_uncalled0. destruct (triggered_ s) eqn:E; [|done]. by rewrite Hg in Hg'.
  - intros v0 Hv0. destruct (i_gets0 v0 Hv0). auto.
  - destruct Hm as [[-> ->]|(E & -> & ->)]; [done|]. rewrite E in i_mutex0.
    destruct (continuation_callback_mutex_ s); lia.
  - intros t0 k0 [[= -> ->]|Hin]%elem_of_cons Hh.
    + destruct Hm as [[E ->]|(_ & ? & _)]; [|congruence]. apply (i_holder0 t k); [apply list_elem_of_here|congruence].
    + destruct Hm as [[_ ->]|(E & _ & _)]; [eapply i_holder0; [by apply list_elem_of_further|done]|].
      by rewrite (promise_other_holds Hinv _ _ E Hin) in Hh.
Qed.

(** [TestAndMarkValueAsSet] succeeds. *)
Lemma run_set_test md s t r F A Rg I G S w :
  inv md s ((t, SetTest r) :: F) A Rg I G S w → value_set_ s = false →
  inv md (set_value_set s) ((t, SetDestroy r) :: F) A Rg I G S (Some r).
Proof.
  intros Hinv Hvs. pose proof Hinv as []. destruct (i_unset0 Hvs) as [Hr Hv].
  assert (triggered_ s = false) as Ht by (destruct (triggered_ s); [by rewrite i_triggered0 in Hr|done]).
  rewrite Hvs in *. split; state_simpl; rewrite ?count_call in *; cbn [setting holds is_add is_get moving_get registering] in *;
    try done; try lia.
  - by rewrite Hr.
  - intros t0 k0 [[= -> ->]|Hin]%elem_of_cons; [done|].
    eapply promise_call_inv_frame; [exact (promise_i_other Hinv _ _ Hin)|done..|].
    rewrite (count_zero setting F t0 k0); [done|lia|done].
  - destruct i_invoked0 as (? & ? & _). rewrite (i_uncalled0 Ht) in *. split_and!; [done..|].
    by intros _ ?? ?%elem_of_nil.
  - intros v0 Hv0. apply i_gets0 in Hv0 as [? _]. congruence.
  - intros t0 k0 [[= -> ->]|Hin]%elem_of_cons Hh; [done|]. eapply i_holder0; [by apply list_elem_of_further|done].
Qed.

Ltac count_simpl :=
  rewrite ?count_call in *; cbn [setting holds is_add is_get moving_get registering] in *.

(** The calls of other threads that hold the mutex. *)
Lemma holder_rest s t k F (t0 : nat) (k0 : call V) :
  (∀ t0 k0, (t0, k0) ∈ (t, k) :: F → holds k0 = true → continuation_callback_mutex_ s = Some t0) →
  (t0, k0) ∈ F → holds k0 = true → continuation_callback_mutex_ s = Some t0.
Proof. intros H Hin. apply H. by apply list_elem_of_further. Qed.

Lemma fst_snoc (I : list (nat * V)) c v : (I ++ [(c, v)]).*1 = I.*1 ++ [c].
Proof. by rewrite fmap_app. Qed.

Lemma called_until_next i l I c (v : V) :
  NoDup l → l !! i = Some c → called_until i l I → called_until (S i) l (I ++ [(c, v)]).
Proof.
  intros Hnd Hc Hi j c' Hj. rewrite fst_snoc, elem_of_app, (Hi j c' Hj), list_elem_of_singleton. cbn.
  split; [intros [?| ->]; [lia|]|].
  - rewrite (NoDup_lookup _ _ _ _ Hnd Hj Hc). lia.
  - intros ?. destruct (decide (j = i)) as [->|]; [right; congruence|left; lia].
Qed.

Lemma invoked_snoc (P : Prop) w (A : list nat) (I : list (nat * V)) c v :
  NoDup I.*1 ∧ (∀ c, c ∈ I.*1 → c ∈ A) ∧ (P → ∀ c v, (c, v) ∈ I → w = Some v) →
  c ∈ A → c ∉ I.*1 → (P → w = Some v) →
  NoDup (I ++ [(c, v)]).*1 ∧ (∀ c0, c0 ∈ (I ++ [(c, v)]).*1 → c0 ∈ A)
  ∧ (P → ∀ c0 v0, (c0, v0) ∈ I ++ [(c, v)] → w = Some v0).
Proof.
  intros (Hnd & HA & Hv) Hc Hnot Hw. rewrite fst_snoc. split_and!.
  - apply NoDup_app. split_and!; [done| |apply NoDup_singleton].
    intros x Hx ->%list_elem_of_singleton. done.
  - intros c0 [?|Hc0]%elem_of_app; [auto|]. by apply list_elem_of_singleton in Hc0 as ->.
  - intros HP c0 v0 [?|Hc0]%elem_of_app; [eauto|]. apply list_elem_of_singleton in Hc0 as [= -> ->]. auto.
Qed.

(** A continuation of the list is called. *)
Lemma run_trigger_call md s t i n c F A Rg I G S w :
  inv md s ((t, TriggerLoop i n) :: F) A Rg I G S w → continuation_callbacks_ s !! i = Some c →
  ∃ v, value_ s = Some v ∧ inv md s ((t, TriggerCall i n c) :: F) A Rg (I ++ [(c, v)]) G S w.
Proof.
  intros Hinv Hc. destruct (promise_i_this Hinv) as (Ht & -> & _ & Hi). pose proof (list_elem_of_lookup_2 _ _ _ Hc) as Hin.
  assert (md ≠ Exclusive) as Hmd.
  { intros ->. pose proof (i_mode _ _ _ _ _ _ _ _ _ Hinv) as Hm. destruct Hm as [Hm _]. by rewrite Hm in Hc. }
  destruct (value_triggered Hinv Ht Hmd) as (v & Hv & Hw). exists v. split; [done|].
  assert (c ∉ I.*1) as Hnot by (rewrite (Hi i c Hc); lia).
  pose proof Hinv as []. split; count_simpl; try done.
  - intros t0 k0 [[= -> ->]|Hin0]%elem_of_cons.
    + split_and!; [done|done|by eapply lookup_lt_Some|]. apply called_until_next; [apply i_list0|done..].
    + pose proof (promise_i_other Hinv _ _ Hin0) as H0. pose proof (other_setting Hinv _ _ eq_refl Hin0) as Hs0.
      eapply promise_call_inv_frame; [exact H0|done..| | |done|by rewrite Hs0].
      * intros c0. rewrite fst_snoc. set_solver.
      * intros c0 Hadd. rewrite fst_snoc, elem_of_app, list_elem_of_singleton. intros [?| ->]; [done|].
        destruct k0; cbn [adding] in Hadd; try done; apply bool_decide_eq_true in Hadd as ->; cbn in H0; naive_solver.
  - apply invoked_snoc; [done|by apply i_list0|done|done].
  - intros Ht'. congruence.
  - intros c0 Hc0. destruct (i_registered0 c0 Hc0); [by left|right]. rewrite fst_snoc. set_solver.
  - intros t0 k0 [[= -> ->]|Hin0]%elem_of_cons Hh; [done|]. by eapply holder_rest.
Qed.

(** The end of [TriggerContinuations]. *)
Lemma run_trigger_end md s t n F A Rg I G S w :
  inv md s ((t, TriggerLoop n n) :: F) A Rg I G S w →
  inv md (set_callbacks [] s) F A Rg I G (S ++ [true]) w.
Proof.
  intros Hinv. destruct (promise_i_this Hinv) as (Ht & -> & _ & Hi).
  pose proof Hinv as []. split; state_simpl; count_simpl; try done.
  - rewrite count_occ_app. cbn. lia.
  - intros t0 k0 Hin. eapply promise_call_inv_frame; [exact (promise_i_other Hinv _ _ Hin)|done..| |].
    + by intros ?? ?%elem_of_nil.
    + by rewrite (other_setting Hinv _ _ eq_refl Hin).
  - split; [constructor|by intros ? ?%elem_of_nil].

  - intros c Hc. right. destruct (i_registered0 c Hc) as [[j Hj]%list_elem_of_lookup|]; [|done].
    apply (Hi j c Hj). by eapply lookup_lt_Some.
  - intros t0 k0 Hin Hh. by eapply holder_rest.
  - destruct md; [done| |done]. destruct i_mode0 as (_ & ? & ?). done.
Qed.

(** A continuation that is added after the others were called. *)
Lemma run_add_call md s t c F A Rg I G S w :
  inv md s ((t, AddTest c) :: F) A Rg I G S w → triggered_ s = true →
  ∃ v, value_ s = Some v ∧ inv md (set_mutex None s) ((t, AddCall c) :: F) A Rg (I ++ [(c, v)]) G S w.
Proof.
  intros Hinv Ht. destruct (promise_i_this Hinv) as (HA & HI & Hcb).
  pose proof (adding_shared Hinv eq_refl) as Hmd.
  destruct (value_triggered Hinv Ht Hmd) as (v & Hv & Hw). exists v. split; [done|].
  pose proof (promise_rest_holds Hinv eq_refl) as Hh.
  pose proof Hinv as []. split; state_simpl; count_simpl; try done.
  - intros t0 k0 [[= -> ->]|Hin0]%elem_of_cons.
    { cbn. rewrite fst_snoc. split_and!; [done|set_solver|done]. }
    pose proof (other_adding Hinv c t0 k0) as Hno. cbn [adding] in Hno. rewrite bool_decide_true in Hno by done.
    eapply promise_call_inv_frame; [exact (promise_i_other Hinv _ _ Hin0)|done..| | |done|].
    + intros c0. rewrite fst_snoc. set_solver.
    + intros c0 Hadd. rewrite fst_snoc, elem_of_app, list_elem_of_singleton. intros [?| ->]; [done|].
      by rewrite Hno in Hadd.
    + intros _. split_and!; [done..|]. intros _. split; [done|]. intros c0 Hc0.
      rewrite fst_snoc, elem_of_app, list_elem_of_singleton. intros [?| ->]; done.
  - intros c0. specialize (i_adding0 c0). rewrite count_call in *. done.
  - by apply invoked_snoc.
  - congruence.
  - intros c0 Hc0. destruct (i_registered0 c0 Hc0); [by left|right]. rewrite fst_snoc. set_solver.
  - intros t0 k0 [[= -> ->]|Hin0]%elem_of_cons Hk0; [done|]. by rewrite (promise_other_holds Hinv _ _ eq_refl Hin0) in Hk0.
Qed.

(** A continuation is put into the list. *)
Lemma run_add_push md s t c F A Rg I G S w :
  inv md s ((t, AddTest c) :: F) A Rg I G S w → triggered_ s = false →
  inv md (set_mutex None (set_callbacks (continuation_callbacks_ s ++ [c]) s)) F A (Rg ++ [c]) I G S w.
Proof.
  intros Hinv Ht. destruct (promise_i_this Hinv) as (HA & HI & Hcb). pose proof (promise_rest_holds Hinv eq_refl) as Hh.
  pose proof (adding_shared Hinv eq_refl) as Hmd.
  pose proof Hinv as []. split; state_simpl; count_simpl; try done.
  - intros Hvs Hc. destruct (i_done0 Hvs Hc). congruence.
  - intros t0 k0 Hin0. pose proof (other_adding Hinv c t0 k0) as Hno. cbn [adding] in Hno.
    rewrite bool_decide_true in Hno by done.
    eapply promise_call_inv_frame; [exact (promise_i_other Hinv _ _ Hin0)|done..| |].
    + intros c0 Hadd. state_simpl. rewrite elem_of_app, list_elem_of_singleton. intros [?| ->]; [done|].
      by rewrite Hno in Hadd.
    + intros _. split_and!; [done..|]. congruence.
  - destruct i_list0 as [Hnd HA']. split.
    + apply NoDup_app. split_and!; [done| |apply NoDup_singleton]. intros x Hx ->%list_elem_of_singleton. done.
    + intros c0 [?|Hc0]%elem_of_app; [auto|]. by apply list_elem_of_singleton in Hc0 as ->.
  - intros c0. specialize (i_adding0 c0). rewrite count_call in i_adding0. lia.
  - intros c0. rewrite !elem_of_app, list_elem_of_singleton. intros [Hc0| ->]; [|auto].
    destruct (i_registered0 c0 Hc0); auto.
  - intros t0 k0 Hin0 Hk0. by rewrite (promise_other_holds Hinv _ _ eq_refl Hin0) in Hk0.
  - by destruct md.
Qed.

(** A call returns and leaves the state as it is. *)
Lemma promise_inv_return md s t k F A Rg I G S w rg sr :
  inv md s ((t, k) :: F) A Rg I G S w → setting k = false → holds k = false → is_get k = false →
  registering k = false → count_occ bool_dec sr true = 0%nat → (∀ c, c ∈ rg → c ∈ I.*1) →
  inv md s F A (Rg ++ rg) I G (S ++ sr) w.
Proof.
  intros Hinv E1 E2 E3 E4 Hsr Hrg. assert (moving_get k = false) as E5 by (by destruct k).
  pose proof Hinv as []. split; rewrite ?count_call, ?E1, ?E2, ?E3, ?E4, ?E5 in *; try done.
  - rewrite count_occ_app, Hsr. lia.
  - intros t0 k0 Hin. by eapply (promise_i_other Hinv).
  - intros c. specialize (i_adding0 c). rewrite count_call in i_adding0. lia.
  - intros c [?|?]%elem_of_app; auto.
  - intros t0 k0 Hin Hk. by eapply holder_rest.
  - destruct md; [done| |done]. destruct i_mode0 as (? & ? & ?). split_and!; [done|lia|done].
Qed.

(** [Get] reads the value that was set, unless another one took it before. *)
Lemma run_get moved md s t b F A Rg I G S w :
  inv md s ((t, GetRead b) :: F) A Rg I G S w →
  ∃ v, value_ s = Some v
    ∧ inv md (if b then set_value (Some (moved v)) s else s) F A Rg I (G ++ [v]) S w.
Proof.
  intros Hinv. pose proof (promise_i_this Hinv) as Hr. cbn in Hr. pose proof Hinv as [].
  destruct (i_ready0 Hr) as (Hsome & [v Hval] & Hv). exists v. split; [done|].
  assert (md ≠ Mixed → w = Some v) as Hw.
  { intros Hmd. destruct Hv as [Hv|[Hs HG]]; [congruence|]. destruct md; [done| |done].
    destruct i_mode0 as (_ & _ & Hl). count_simpl. destruct G; [done|]. cbn in Hl. lia. }
  assert (b = true → md ≠ Shared) as Hb by (intros -> ->; by count_simpl).
  set (s' := if b then set_value (Some (moved v)) s else s).
  assert (value_set_ s' = value_set_ s ∧ ready_ s' = ready_ s ∧ triggered_ s' = triggered_ s
    ∧ continuation_callbacks_ s' = continuation_callbacks_ s ∧ continuation_callback_mutex_ s' = continuation_callback_mutex_ s
    ∧ reference_count_ s' = reference_count_ s ∧ (value_ s' = value_ s ∨ md ≠ Shared) ∧ is_Some (value_ s'))
    as (F1 & F2 & F3 & F4 & F5 & F6 & F7 & F8) by (subst s'; destruct b; cbn; rewrite ?Hval; split_and!; eauto).
  split; rewrite ?F1, ?F2, ?F3, ?F4, ?F5, ?F6 in *; count_simpl; try done.
  - intros Hvs. split; [by apply i_unset0|done].
  - intros _. split_and!; [done..|]. assert (G ++ [v] ≠ []) by (by destruct G).
    destruct F7 as [->|?]; [|by right]. destruct Hv as [?|[? _]]; [by left|by right].
  - intros t0 k0 Hin. eapply promise_call_inv_frame; [exact (promise_i_other Hinv _ _ Hin)|rewrite ?F1, ?F2, ?F3, ?F4; done..|].
    rewrite ?F1, ?F2, ?F3, ?F4. intros _. split_and!; [done..|congruence|done].
  - intros v0 [?|Hv0]%elem_of_app; [auto|]. apply list_elem_of_singleton in Hv0 as ->. auto.
  - intros t0 k0 Hin Hk. by eapply holder_rest.
  - destruct md; [destruct b; [done|lia]| |done]. destruct i_mode0 as (? & ? & ?). split_and!; [done..|].
    rewrite length_app. cbn. lia.
Qed.

(** ** Steps of the client *)

Lemma client_push md s t k F A Rg I G S w :
  inv md s F A Rg I G S w → setting k = false → holds k = false → is_add k = false → is_client k = false →
  call_inv s w A I k →
  match md with
  | Shared => moving_get k = false
  | Exclusive => is_get k = true → G = [] ∧ count is_get F = 0%nat
  | Mixed => True
  end → inv md s ((t, k) :: F) A Rg I G S w.
Proof.
  intros Hinv E1 E2 E3 E4 Hk Hm. assert (registering k = false ∧ ∀ c, adding c k = false) as [E5 E6] by (by destruct k).
  pose proof Hinv as []. split; rewrite ?count_call, ?E1, ?E2, ?E3, ?E5 in *; try done.
  - intros t0 k0 [[= -> ->]|Hin]%elem_of_cons; [done|eauto].
  - intros c. rewrite count_call, E6. apply i_adding0.
  - intros t0 k0 [[= -> ->]|Hin]%elem_of_cons Hh; [congruence|]. by eapply i_holder0.
  - destruct md; [rewrite ?count_call, Hm in *; lia| |done]. destruct i_mode0 as (? & ? & ?).
    rewrite ?count_call, ?E3 in *. split_and!; [done..|]. destruct (is_get k); [|lia].
    destruct Hm as [-> ->]; [done|]. cbn. lia.
Qed.

Lemma client_add md s t c F A Rg I G S w :
  inv md s F A Rg I G S w → md ≠ Exclusive → c ∉ A → inv md s ((t, AddRegister c) :: F) (A ++ [c]) Rg I G S w.
Proof.
  intros Hinv Hmd Hc. pose proof Hinv as [].
  assert (∀ c, c ∈ A → c ∈ A ++ [c]) as HA by (intros; set_solver).
  split; count_simpl; try done.
  - intros t0 k0 [[= -> ->]|Hin]%elem_of_cons.
    { split_and!; [set_solver|intros ?%i_invoked0; done|intros ?%i_list0; done]. }
    eapply promise_call_inv_frame; [by eapply i_calls0|done|done|set_solver|done|done|done|done].
  - split; [apply i_list0|]. intros c0 ?%i_list0. set_solver.
  - intros c0. rewrite count_call. cbn [adding]. case_bool_decide as E; [subst c0|apply i_adding0].
    rewrite (count_zero_2 (adding c)); [done|]. intros t0 k0 Hin. specialize (i_calls0 _ _ Hin).
    destruct (adding c k0) eqn:E; [|done]. destruct Hc.
    destruct k0; cbn [adding] in E; try done; apply bool_decide_eq_true in E as ->; by destruct i_calls0.
  - destruct i_invoked0 as (? & ? & ?). split_and!; [done|set_solver|done].
  - rewrite length_app. cbn [length]. lia.
  - intros t0 k0 [[= -> ->]|Hin]%elem_of_cons Hh; [done|eauto].
  - by destruct md.
Qed.

(** ** Steps of the library *)

Section Run.
Context (moved : V → V).

Definition resumed (md : mode) (s : state V) (t : nat) (F : list (nat * call V)) (A Rg : list nat)
    (I : list (nat * V)) (G : list V) (S : list bool) (w : option V) (r : control V) : Prop :=
  match r with
  | Continue k => ∃ I', invoke s k I = Ret I' ∧ inv md s ((t, k) :: F) A Rg I' G S (next_winner k w)
  | SetReturned b => inv md s F A Rg I G (S ++ [b]) w
  | AddReturned c => inv md s F A (Rg ++ [c]) I G S w
  | GetReturned v => inv md s F A Rg I (G ++ [v]) S w
  end.

Lemma set_none s : set_mutex (continuation_callback_mutex_ s) (set_count (reference_count_ s) s) = s.
Proof. by destruct s. Qed.

Lemma promise_run_lock md s t k k' F A Rg I G S w :
  inv md s ((t, k) :: F) A Rg I G S w →
  setting k' = setting k → (∀ c, adding c k' = adding c k) → is_add k' = is_add k → is_get k' = is_get k →
  moving_get k' = moving_get k → registering k' = registering k → called k' = None →
  next_winner k' w = w →
  holds k = false → holds k' = true → call_inv s w A I k' →
  ∃ r, lock t s k' = Ret r ∧ ∀ s' c, r = Some (s', c) → resumed md s' t F A Rg I G S w c.
Proof.
  intros Hinv E1 E2 E3 E4 E5 E6 E7 E10 E8 E9 Hk. unfold lock.
  destruct (continuation_callback_mutex_ s) eqn:Hm; eexists; (split; [done|]); intros s' c [= <- <-].
  exists I. unfold invoke. rewrite E7, E10. split; [done|].
  replace (set_mutex (Some t) s) with (set_mutex (Some t) (set_count (reference_count_ s) s)) by (by destruct s).
  eapply promise_inv_move; [done..|by right|by left|done].
Qed.

(** The result of a step that can be made. *)
Definition runs (md : mode) (s : state V) (t : nat) (k : call V) (F : list (nat * call V)) (A Rg : list nat)
    (I : list (nat * V)) (G : list V) (S : list bool) (w : option V) : Prop :=
  ∃ r, state_step moved t s k = Ret r ∧ ∀ s' c, r = Some (s', c) → resumed md s' t F A Rg I G S w c.

Lemma runs_step md s t k F A Rg I G S w s' c :
  state_step moved t s k = Ret (Some (s', c)) → resumed md s' t F A Rg I G S w c →
  runs md s t k F A Rg I G S w.
Proof. intros Hs Hr. eexists. split; [exact Hs|]. by intros ? ? [= <- <-]. Qed.

Lemma run_setter md s t k F A Rg I G S w :
  inv md s ((t, k) :: F) A Rg I G S w → setting k = true → is_client k = false →
  runs md s t k F A Rg I G S w.
Proof.
  intros Hinv Hset Hcl. pose proof (promise_i_this Hinv) as Hk.
  destruct k as [r|r|r| | | |i n|i n c|c|c|c|c|b|b]; try done.
  - destruct Hk as (-> & Hr & Ht & v & Hv). eapply runs_step; [cbn; by rewrite Hv|].
    exists I. split; [done|].
    apply (inv_setting md s t (SetDestroy r) (SetConstruct r)); try done; try (by left); congruence.
  - destruct Hk as (-> & Hr & Ht & Hv). eapply runs_step; [cbn; by rewrite Hv|]. exists I. split; [done|].
    apply (inv_setting md s t (SetConstruct r) SetReady); try done; try (by left); congruence.
  - destruct Hk as (Hw & Hr & Ht & Hv). eapply runs_step; [done|]. exists I. split; [done|].
    apply (inv_setting md s t SetReady TriggerLock); try done; try (by left). intros _. rewrite Hv. split_and!; [done..|by left].
  - by eapply promise_run_lock.
  - destruct Hk as [Hr Ht]. eapply runs_step; [done|]. exists I. split; [done|].
    apply (inv_setting md s t TriggerSet); try done; [by apply (i_ready _ _ _ _ _ _ _ _ _ Hinv)|by right|].
    split_and!; [done|done|lia|]. intros j c Hj. rewrite (i_uncalled _ _ _ _ _ _ _ _ _ Hinv Ht). cbn.
    split; [by intros ?%elem_of_nil|lia].
  - destruct Hk as (Ht & Hn & Hi & Hc). destruct (decide (i < n)%nat) as [Hlt|Hge].
    + destruct (lookup_lt_is_Some_2 (continuation_callbacks_ s) i) as [c E]; [lia|].
      destruct (run_trigger_call _ _ _ _ _ _ _ _ _ _ _ _ _ Hinv E) as (v & Hv & Hi').
      eapply runs_step; [cbn; unfold trigger_loop; by rewrite (proj2 (Nat.ltb_lt _ _) Hlt), E|].
      eexists. unfold invoke. cbn. rewrite Hv. split; [done|]. exact Hi'.
    + assert (i = n) as -> by lia. eapply runs_step; [cbn; unfold trigger_loop; by rewrite Nat.ltb_irrefl|].
      by eapply run_trigger_end.
Qed.

(** [RegisterFuture] aborts only if the counter overflows. *)
Lemma promise_run_register md s t c F A Rg I G S w :
  inv md s ((t, AddRegister c) :: F) A Rg I G S w →
  (state_step moved t s (AddRegister c) = Aborted ∧ 2 ^ 31 <= Z.of_nat (length A))
  ∨ runs md s t (AddRegister c) F A Rg I G S w.
Proof.
  intros Hinv. destruct (i_count _ _ _ _ _ _ _ _ _ Hinv) as [Hc1 Hc2]. count_simpl.
  destruct (decide (reference_count_ s + 1 < 2 ^ 31)) as [Hlt|Hge].
  - right. eapply runs_step.
    { cbn [state_step]. unfold RegisterFuture. rewrite (static_cast_id int32_t (reference_count_ s + 1))
        by (unfold in_range; cbv [lowest max digits is_signed bits]; lia).
      rewrite (proj2 (Z.ltb_ge (reference_count_ s + 1) 0)) by lia. done. }
    exists I. split; [done|]. change (set_count (reference_count_ s + 1) s)
      with (set_mutex (continuation_callback_mutex_ s) (set_count (reference_count_ s + 1) s)).
    eapply promise_inv_move; [done..|by left|right; split_and!; (done || lia)|]. apply (promise_i_this Hinv).
  - left. cbn [state_step]. unfold RegisterFuture.
    assert (reference_count_ s = 2 ^ 31 - 1) as -> by lia. split; [done|lia].
Qed.

Lemma promise_run_call md s t k F A Rg I G S w :
  inv md s ((t, k) :: F) A Rg I G S w →
  (state_step moved t s k = Aborted ∧ 2 ^ 31 <= Z.of_nat (length A)) ∨ runs md s t k F A Rg I G S w.
Proof.
  intros Hinv. pose proof (promise_i_this Hinv) as Hk. destruct (is_client k) eqn:Hcl.
  { right. exists None. destruct k; try done; by split; [|intros]. }
  destruct (setting k) eqn:Hset; [right; by apply run_setter|].
  destruct k as [r|r|r| | | |i n|i n c|c|c|c|c|b|b]; try done.
  - right. destruct (value_set_ s) eqn:Hvs; (eapply runs_step; [cbn; by rewrite Hvs|]).
    + cbn [resumed]. rewrite <-(app_nil_r Rg). apply (promise_inv_return md s t (SetTest r)); [done..|].
      by intros ? ?%elem_of_nil.
    + exists I. split; [done|]. by apply (run_set_test _ _ _ _ _ _ _ _ _ _ w).
  - by apply promise_run_register.
  - right. by eapply promise_run_lock.
  - right. destruct (triggered_ s) eqn:Ht; (eapply runs_step; [cbn; by rewrite Ht|]).
    + destruct (run_add_call _ _ _ _ _ _ _ _ _ _ _ Hinv Ht) as (v & Hv & Hi). eexists. split; [|exact Hi].
      unfold invoke. cbn. by rewrite Hv.
    + by eapply run_add_push.
  - right. destruct (ready_ s) eqn:Hr; [|exists None; split; [cbn; by rewrite Hr|by intros]].
    eapply runs_step; [cbn; by rewrite Hr|]. exists I. split; [done|]. rewrite <-(set_none s) at 1.
    eapply promise_inv_move; [done..|by left|by left|done].
  - right. destruct (run_get moved _ _ _ _ _ _ _ _ _ _ _ Hinv) as (v & Hv & Hi).
    eapply runs_step; [cbn; by rewrite Hv|]. exact Hi.
Qed.

End Run.

End Spec.

(** ** Reachable states *)

Section Theorems.
Context {V : Type} (unset : V) (moved : V → V).

Definition good (md : mode) (σ : system V) : Prop :=
  stacked is_client (calls σ)
  ∧ inv md (shared σ) (calls σ) (added σ) (registered σ) (invoked σ) (gets σ) (sets σ) (winner σ).

Lemma promise_initial_good md : good md (initial unset).
Proof.
  split; [done|]. split; cbn; try done; try lia; try (by intros; exfalso; eapply elem_of_nil);
    repeat split; try done; try lia; try (by intros; exfalso; eapply elem_of_nil); try constructor; eauto.
  destruct md; [done|split_and!; (done || lia)|done].
Qed.

(** What [thread_step] makes of a step of the library. *)
Lemma resume_good md σ t above k below s r :
  calls σ = above ++ (t, k) :: below → t ∉ above.*1 → stacked is_client (calls σ) →
  resumed md s t (above ++ below) (added σ) (registered σ) (invoked σ) (gets σ) (sets σ) (winner σ) r →
  ∃ σ', resume σ t above below s r = Ret σ' ∧ good md σ'.
Proof.
  intros Hc Ht HS Hr. rewrite Hc in HS.
  destruct r as [k'|b|c|v]; cbn [resumed resume] in *.
  - destruct Hr as (l & -> & Hl). eexists. split; [done|]. split; [by eapply stacked_replace|].
    eapply promise_inv_perm; [apply Permutation_middle|exact Hl].
  - eexists. split; [done|]. split; [by eapply stacked_remove|done].
  - eexists. split; [done|]. split; [by eapply stacked_remove|done].
  - eexists. split; [done|]. split; [by eapply stacked_remove|done].
Qed.

Lemma thread_step_good md σ t above k below :
  good md σ → calls σ = above ++ (t, k) :: below → t ∉ above.*1 →
  (thread_step moved σ t above k below = Aborted ∧ 2 ^ 31 <= Z.of_nat (length (added σ)))
  ∨ ∃ r, thread_step moved σ t above k below = Ret r ∧ ∀ σ', r = Some σ' → good md σ'.
Proof.
  intros [HS I] Hc Ht. rewrite Hc in I. apply (promise_inv_perm _ _ _ _ _ _ _ _ _ _ (calls_middle _ _ _)) in I.
  unfold thread_step. destruct (promise_run_call moved _ _ _ _ _ _ _ _ _ _ _ I) as [[-> ?]|(r & -> & Hr)]; [by left|right].
  cbn [mbind outcome_bind]. destruct r as [[s c]|]; [|by exists None].
  destruct (resume_good md σ t above k below s c Hc Ht HS (Hr _ _ eq_refl)) as (σ' & -> & Hg).
  exists (Some σ'). split; [done|]. by intros ? [= <-].
Qed.

Lemma promise_step_good md σ σ' : good md σ → step moved md σ σ' → good md σ'.
Proof.
  intros Hg [t k above below σ1 Hc Ht Hrun|t r Ht|t c Ht Hadd Hc|t b Ht Hget
    |t i n c above below Hc Ht|t c above below Hc Ht].
  { destruct (thread_step_good md σ t above k below Hg Hc Ht) as [[E _]|(r & E & Hr)];
      rewrite Hrun in E; [done|]. injection E as <-. by apply Hr. }
  all: destruct Hg as [HS I].
  - split; [by apply stacked_push|]. apply client_push; try done. by destruct md.
  - split; [by apply stacked_push|]. apply client_add; [done|by destruct md|done].
  - split; [by apply stacked_push|]. apply client_push; try done.
    destruct md; cbn in *; [by destruct b| |done]. intros _.
    apply andb_true_iff in Hget as [[_ Hg]%andb_true_iff Hf]. split; [by apply bool_decide_eq_true in Hg|].
    apply count_zero_2. intros t0 k0 Hin. destruct (is_get k0) eqn:E; [|done].
    apply negb_true_iff in Hf. rewrite <-not_true_iff_false, existsb_exists in Hf. destruct Hf.
    exists k0. split; [|done]. apply list_elem_of_In. by apply (list_elem_of_fmap_2 snd) in Hin.
  - rewrite Hc in HS, I. split; [by eapply stacked_replace|].
    apply (promise_inv_perm _ _ _ _ _ _ _ _ _ _ (calls_middle _ _ _)) in I. eapply promise_inv_perm; [apply Permutation_middle|].
    rewrite <-(set_none (shared σ)). eapply promise_inv_move; [exact I|done..|by left|by left|].
    destruct (promise_i_this I) as (? & ? & ? & ?). done.
  - rewrite Hc in HS, I. split; [by eapply stacked_remove|].
    apply (promise_inv_perm _ _ _ _ _ _ _ _ _ _ (calls_middle _ _ _)) in I. cbn. rewrite <-(app_nil_r (sets σ)).
    eapply promise_inv_return; [exact I|done..|]. intros c0 Hc0. apply list_elem_of_singleton in Hc0 as ->. by apply (promise_i_this I).
Qed.

Lemma promise_reachable_good md σ : reachable unset moved md σ → good md σ.
Proof.
  intros H. unfold reachable in H. remember (initial unset) as σ0 eqn:E.
  assert (good md σ0) as H0 by (subst; by apply promise_initial_good). clear E. induction H; eauto using promise_step_good.
Qed.

(** Only the taking of the value races, and only with a continuation or another
    reader. *)
Lemma good_races md σ k1 k2 : good md σ → races σ k1 k2 → md = Mixed ∧ k1 = GetRead true.
Proof.
  intros [_ I] (t1 & t2 & rest & Hp & _ & Hr). apply (promise_inv_perm _ _ _ _ _ _ _ _ _ _ Hp) in I.
  pose proof (i_calls _ _ _ _ _ _ _ _ _ I t1 k1 ltac:(apply list_elem_of_here)) as H1.
  pose proof (i_calls _ _ _ _ _ _ _ _ _ I t2 k2 ltac:(apply list_elem_of_further, list_elem_of_here)) as H2.
  pose proof (i_triggered _ _ _ _ _ _ _ _ _ I) as Htr.
  pose proof (i_sets _ _ _ _ _ _ _ _ _ I) as Hs. rewrite !count_call in Hs.
  assert ((if setting k1 then 1 else 0) + (if setting k2 then 1 else 0) ≤ 1)%nat as Hset
    by (destruct (value_set_ (shared σ)); lia). clear Hs.
  pose proof (i_mutex _ _ _ _ _ _ _ _ _ I) as Hm. rewrite !count_call in Hm.
  assert ((if holds k1 then 1 else 0) + (if holds k2 then 1 else 0) ≤ 1)%nat as Hh
    by (destruct (continuation_callback_mutex_ (shared σ)); lia). clear Hm.
  pose proof (i_mode _ _ _ _ _ _ _ _ _ I) as Hmd.
  assert (md ≠ Mixed → moving_get k1 = true →
    is_get k2 = false ∧ is_add k2 = false ∧ continuation_callbacks_ (shared σ) = []) as Hget.
  { intros Hmx Hk1. assert (is_get k1 = true) as Hg1 by (by destruct k1).
    destruct md; [rewrite !count_call, Hk1 in Hmd; lia| |done]. destruct Hmd as (? & Ha & Hg).
    rewrite !count_call, Hg1 in Hg. rewrite !count_call in Ha. destruct (is_get k2), (is_add k2); try lia. done. }
  clear Hmd I Hp. apply orb_true_iff in Hr as [[Hw Ha]%andb_true_iff|[Ha1 Ha2]%andb_true_iff].
  - destruct k1 as [| | | | | | | | | | | |[]|[]]; try done; cbn in Hset, H1, Hget.
    + destruct H1 as (_ & H1 & H1' & _). destruct k2; cbn in Ha, Hset, H2; try done; try lia;
        [destruct H2 as (_ & _ & H2)|]; congruence.
    + destruct H1 as (_ & H1 & H1' & _). destruct k2; cbn in Ha, Hset, H2; try done; try lia;
        [destruct H2 as (_ & _ & H2)|]; congruence.
    + assert (md = Mixed ∨ md ≠ Mixed) as [->|Hmx] by (destruct md; auto); [done|]. destruct (Hget Hmx eq_refl) as (Hg & Hadd & Hcb). rewrite H1 in *.
      destruct k2; cbn in Ha, Hset, H2, Hg, Hadd; try done; destruct H2 as (_ & H2 & H2' & _);
        try congruence. rewrite Hcb in H2. cbn in H2. lia.
  - exfalso. destruct k1; cbn in Ha1; try done; destruct k2; cbn in Ha2, Hset, Hh, H1, H2; try done; try lia.
    + destruct H1 as [H1 _]. by rewrite H1 in Ha2.
    + destruct H1 as [H1 _]. by rewrite H1 in Ha2.
    + destruct H2 as [H2 _]. by rewrite H2 in Ha1.
    + destruct H2 as [H2 _]. by rewrite H2 in Ha1.
Qed.

(** C17: A promise with setters, continuations and readers in any number of
    threads, where readers share the value or take it: no step fails before the
    counter of futures overflows, one setter at most succeeds, and no continuation
    is called twice.  Two accesses race only if one of them is a reader that takes
    the value, and only if the clients take the value and also have continuations
    or other readers.  Without such a mixture there is no data race, and every
    reader and every continuation gets the value of the successful setter. *)
Theorem promise_safe md σ :
  reachable unset moved md σ →
  (∀ t above k below, calls σ = above ++ (t, k) :: below → t ∉ above.*1 →
     Z.of_nat (length (added σ)) < 2 ^ 31 → ∃ r, thread_step moved σ t above k below = Ret r)
  ∧ (count_occ bool_dec (sets σ) true ≤ 1)%nat
  ∧ NoDup (invoked σ).*1
  ∧ (∀ k1 k2, races σ k1 k2 → md = Mixed ∧ k1 = GetRead true)
  ∧ (md ≠ Mixed →
     ¬ race σ
     ∧ (∀ v, v ∈ gets σ → winner σ = Some v)
     ∧ (∀ c v, (c, v) ∈ invoked σ → winner σ = Some v)).
Proof.
  intros Hr. pose proof (promise_reachable_good md σ Hr) as Hg. pose proof Hg as [HS I]. split_and!.
  - intros t above k below Hc Ht Hlen.
    destruct (thread_step_good md σ t above k below Hg Hc Ht) as [[_ ?]|(r & -> & _)]; [lia|eauto].
  - pose proof (i_sets _ _ _ _ _ _ _ _ _ I). destruct (value_set_ (shared σ)); lia.
  - apply (i_invoked _ _ _ _ _ _ _ _ _ I).
  - intros k1 k2. by apply good_races.
  - intros Hmd. split_and!.
    + intros (k1 & k2 & Hrace). by destruct (good_races md σ k1 k2 Hg Hrace).
    + intros v Hv. by apply (i_gets _ _ _ _ _ _ _ _ _ I).
    + by apply (i_invoked _ _ _ _ _ _ _ _ _ I).
Qed.

(** When the setter has returned, every continuation whose registration has
    returned was called. *)
Theorem promise_complete md σ c :
  reachable unset moved md σ → true ∈ sets σ → c ∈ registered σ → c ∈ (invoked σ).*1.
Proof.
  intros Hr Ht Hc. destruct (promise_reachable_good md σ Hr) as [_ I]. pose proof I as [].
  assert (0 < count_occ bool_dec (sets σ) true)%nat as Hpos by (apply count_occ_In; by apply list_elem_of_In).
  destruct (value_set_ (shared σ)) eqn:Hvs; [|lia]. destruct (i_done0 eq_refl) as [_ Hnil]; [lia|].
  destruct (i_registered0 c Hc) as [H|]; [|done]. rewrite Hnil in H. by apply elem_of_nil in H.
Qed.

(** C20: Calls wait for the value only, however clients mix continuations and
    readers: when no thread can make a step, each runs a continuation or waits in
    [Get] for a value that nobody has begun to set. *)
Theorem promise_progress md σ :
  reachable unset moved md σ →
  (∀ t k, current_call (calls σ) t k → state_step moved t (shared σ) k = Ret None) →
  ∀ t k, current_call (calls σ) t k →
    is_client k = true ∨ (is_get k = true ∧ value_set_ (shared σ) = false).
Proof.
  intros Hr Hstuck. destruct (promise_reachable_good md σ Hr) as [HS I].
  assert (∀ t k, (t, k) ∈ calls σ → is_client k = false → state_step moved t (shared σ) k = Ret None) as Hno
    by eauto using library_current.
  assert (continuation_callback_mutex_ (shared σ) = None) as Hm.
  { destruct (continuation_callback_mutex_ (shared σ)) eqn:Hm; [|done]. pose proof (i_mutex _ _ _ _ _ _ _ _ _ I) as Hc.
    rewrite Hm in Hc. destruct (count_pos holds (calls σ)) as (t & k & Hin & Hk); [lia|].
    specialize (Hno _ _ Hin). destruct k; try done; cbn in Hno; [|case_match]; by specialize (Hno eq_refl). }
  assert (∀ t k, (t, k) ∈ calls σ → is_client k = false → is_get k = true ∧ ready_ (shared σ) = false) as Hget.
  { intros t k Hin Hcl. specialize (Hno _ _ Hin Hcl). pose proof (i_calls _ _ _ _ _ _ _ _ _ I _ _ Hin) as Hk.
    destruct k; cbn in Hno; unfold lock, trigger_loop, RegisterFuture in Hno; rewrite ?Hm in Hno;
      try done; repeat case_match; done. }
  intros t k Hc. destruct (is_client k) eqn:Hcl; [by left|right].
  assert ((t, k) ∈ calls σ) as Hin by (destruct Hc as (? & ? & -> & _); set_solver).
  destruct (Hget _ _ Hin Hcl) as [Hg Hready]. split; [done|].
  destruct (value_set_ (shared σ)) eqn:Hvs; [|done]. pose proof I as [].
  destruct (decide (count setting (calls σ) = 0)%nat) as [H0|H0].
  - destruct (i_done0 Hvs H0) as [?%i_triggered0 _]. congruence.
  - destruct (count_pos setting (calls σ)) as (t0 & k0 & Hin0 & Hk0); [lia|].
    destruct (is_client k0) eqn:Hcl0.
    + destruct k0; try done. destruct (i_calls0 _ _ Hin0) as [?%i_triggered0 _]. congruence.
    + destruct (Hget _ _ Hin0 Hcl0). by destruct k0.
Qed.

(** A future that is read with [Get] and has a continuation as well: the
    thread that set the value calls the continuation with a reference to it,
    while the reader moves the value out of the state. *)
Definition mixed_schedule (r : V) : list (action V) :=
  [Add 0 7; Run 0; Run 0; Run 0; Get 0 true; Set_ 1 r; Run 1; Run 1; Run 1; Run 1; Run 1; Run 1; Run 1; Run 0].

Theorem promise_mixed_race (r : V) : ∃ σ, reachable unset moved Mixed σ ∧ race σ.
Proof.
  destruct (schedule moved Mixed (initial unset) (mixed_schedule r)) as [σ|] eqn:E; [|by vm_compute in E].
  exists σ. split; [by eapply promise_schedule_reachable|]. vm_compute in E. injection E as <-.
  exists (GetRead true), (TriggerCall 0 1 7), 0%nat, 1%nat, []. split; [apply perm_swap|]. by split; [lia|].
Qed.

End Theorems.

(** Two setters, of which the second fails, one continuation before and one
    after the value is set, and a reader. *)
Definition sample_schedule : list (action nat) :=
  [Add 0 7; Run 0; Run 0; Run 0; Get 2 false; Set_ 1 42; Run 1; Set_ 3 43; Run 3; Run 1; Run 1; Run 1; Run 1;
   Run 1; Run 1; Add 0 8; Run 0; Run 0; Run 0; Return 0; Run 2; Run 2; Return 1; Run 1]%nat.

Definition sample : system nat :=
  default (initial 0%nat) (schedule (λ _, 0%nat) Shared (initial 0%nat) sample_schedule).

Lemma promise_sample_reachable : reachable 0%nat (λ _, 0%nat) Shared sample.
Proof. apply (promise_schedule_reachable _ _ _ sample_schedule). by vm_compute. Qed.

Lemma promise_safe_witness :
  sets sample = [false; true] ∧ gets sample = [42%nat] ∧ ¬ race sample.
Proof.
  split_and!; [by vm_compute..|].
  destruct (promise_safe 0%nat (λ _, 0%nat) Shared sample promise_sample_reachable) as (_ & _ & _ & _ & H). by apply H.
Defined.

Lemma promise_complete_witness : 8%nat ∈ (invoked sample).*1.
Proof.
  apply (promise_complete 0%nat (λ _, 0%nat) Shared sample 8%nat); [apply promise_sample_reachable|..];
    apply (bool_decide_unpack _); by vm_compute.
Defined.

(** A reader waits for a value that nobody sets. *)
Definition sample_waiting : system nat :=
  default (initial 0%nat) (schedule (λ _, 0%nat) Exclusive (initial 0%nat) [Get 5 true]%nat).

Lemma promise_progress_witness : value_set_ (shared sample_waiting) = false.
Proof.
  destruct (promise_progress 0%nat (λ _, 0%nat) Exclusive sample_waiting) with (t := 5%nat) (k := @GetWait nat true)
    as [H|[_ H]]; [| | |done|exact H].
  - apply (promise_schedule_reachable _ _ _ [Get 5 true]%nat). by vm_compute.
  - intros t k (above & below & E & _). vm_compute in E. by destruct above as [|x [|y above]]; simplify_eq.
  - exists [], []. split; [done|]. by intros ?%elem_of_nil.
Defined.

End InterruptibleStateSpec.
