(* ===== verification/InterruptibleWait.v ===== *)
(** * Waiting for a state: concurrency/condition_variable.h and base_interruptible_state.h

    [WaitByStrategy], [Wait], [WaitFor], [WaitUntil] and [MakeReady] of
    [BaseInterruptibleState] on top of [InterruptibleConditionalVariable], which
    has a mutex of its own and wakes up its waiters when a stop is requested.
    A waiter has a stop token and may have a point in time until which it
    waits ([wait_until] with the largest point in time is [wait]).  The clock
    may show any time at any moment; [latest] is the latest it has shown.

    A stop token is used through its contract (StopToken.v): a callback that is
    constructed before the stop is requested is called by the thread that
    requests it, one that is constructed later by the constructor, and the
    destructor waits while another thread is in the callback.  The only
    callbacks here are those of the waiters, which notify all.

    A thread makes one call at a time. *)

From stdpp Require Import gmap relations.
From S2P Require Import Prelude CallStacks.

Module InterruptibleWait.
Import CallStacks.

(** The state, its condition variable, and the stop tokens: [stops] are those
    for which a stop was requested, [callbacks] the tokens and threads of the
    callbacks that are registered and were not called. *)
Record state := {
  ready_ : bool;
  ready_mutex_ : option nat;
  internal_mutex_ : option nat;
  stops : gset nat;
  callbacks : list (nat * nat);
  clock : nat;
  latest : nat;
}.

Definition initial_state : state :=
  {| ready_ := false; ready_mutex_ := None; internal_mutex_ := None; stops := ∅;
     callbacks := []; clock := 0; latest := 0 |}.

Definition set_ready (s : state) : state :=
  {| ready_ := true; ready_mutex_ := ready_mutex_ s; internal_mutex_ := internal_mutex_ s;
     stops := stops s; callbacks := callbacks s;
     clock := clock s; latest := latest s |}.
Definition set_ready_mutex (m : option nat) (s : state) : state :=
  {| ready_ := ready_ s; ready_mutex_ := m; internal_mutex_ := internal_mutex_ s;
     stops := stops s; callbacks := callbacks s;
     clock := clock s; latest := latest s |}.
Definition set_internal_mutex (m : option nat) (s : state) : state :=
  {| ready_ := ready_ s; ready_mutex_ := ready_mutex_ s; internal_mutex_ := m;
     stops := stops s; callbacks := callbacks s;
     clock := clock s; latest := latest s |}.
Definition add_stop (k : nat) (s : state) : state :=
  {| ready_ := ready_ s; ready_mutex_ := ready_mutex_ s; internal_mutex_ := internal_mutex_ s;
     stops := {[k]} ∪ stops s; callbacks := callbacks s;
     clock := clock s; latest := latest s |}.
Definition set_callbacks (l : list (nat * nat)) (s : state) : state :=
  {| ready_ := ready_ s; ready_mutex_ := ready_mutex_ s; internal_mutex_ := internal_mutex_ s;
     stops := stops s; callbacks := l;
     clock := clock s; latest := latest s |}.

Definition set_clock (n : nat) (s : state) : state :=
  {| ready_ := ready_ s; ready_mutex_ := ready_mutex_ s; internal_mutex_ := internal_mutex_ s;
     stops := stops s; callbacks := callbacks s; clock := n; latest := latest s `max` n |}.

Definition stop_requested (s : state) (k : nat) : bool := bool_decide (k ∈ stops s).

Inductive result := Success | kStopRequested | kTimeout.

(** A waiter: its stop token, and the point in time until which it waits. *)
Record waiter := { token : nat; abs_time : option nat }.

Definition timed (w : waiter) : bool := match abs_time w with Some _ => true | None => false end.

(** [Clock::now() >= abs_time] *)
Definition expired (s : state) (w : waiter) : bool :=
  match abs_time w with Some d => bool_decide (d ≤ clock s)%nat | None => false end.

(** Where a thread is in a call; the comment is what it does next. *)
Inductive call :=
| WaitReady (w : waiter)               (* if (ready_ == true) *)
| WaitLock (w : waiter)                (* lock{ready_mutex_} *)
| WaitReadyLocked (w : waiter)         (* if (ready_ == true) *)
| WaitClock (w : waiter)               (* if (Clock::now() >= abs_time) *)
| WaitStop (w : waiter)                (* if (token.stop_requested()) *)
| WaitRegister (w : waiter)            (* construct the stop_callback *)
| WaitNotifyLock (w : waiter)          (* its call in the constructor: lock internal_mutex_ *)
| WaitNotify (w : waiter)              (* notify_all, unlock *)
| WaitLoop (w : waiter)                (* while (!stop_waiting()) *)
| WaitInternal (w : waiter)            (* lock internal_mutex_ *)
| WaitStopLocked (w : waiter)          (* if (token.stop_requested()) *)
| WaitUnlock (w : waiter)              (* guard_unlock(lock) *)
| WaitBlock (w : waiter)               (* internal_condition_variable_.wait *)
| WaitSleep (w : waiter) (notified : bool)
| WaitWoken (w : waiter)               (* unlock internal_mutex_ *)
| WaitRelock (w : waiter)              (* lock ready_mutex_ *)
| WaitExpired (w : waiter)             (* Clock::now() >= abs_time || ... *)
| WaitStopAgain (w : waiter)           (* ... token.stop_requested() *)
| WaitPredicate (w : waiter) (registered : bool)  (* return stop_waiting() *)
| WaitDeregister (w : waiter) (r : bool)          (* destroy the stop_callback *)
| WaitRelease (w : waiter) (r : bool)  (* unlock ready_mutex_ *)
| WaitResult (w : waiter) (r : bool)   (* if (stop_token.stop_requested() == true) *)
| MakeLock                             (* lock{ready_mutex_} *)
| MakeSet                              (* ready_ = true *)
| MakeNotifyLock                       (* lock internal_mutex_ *)
| MakeNotify                           (* notify_all, unlock *)
| MakeUnlock                           (* unlock ready_mutex_ *)
| StopSet (k : nat)                    (* request_stop *)
| StopNext (k : nat)                   (* the next callback *)
| StopNotifyLock (k c : nat)           (* callback of thread c: lock internal_mutex_ *)
| StopNotify (k c : nat).              (* notify_all, unlock *)

Inductive control :=
| Continue (k : call)
| ContinueNotify (k : call)            (* after notify_all *)
| Returned (r : option result).

(** ** Steps *)

Definition lock_ready (t : nat) (s : state) (k : call) : option (state * control) :=
  match ready_mutex_ s with
  | None => Some (set_ready_mutex (Some t) s, Continue k)
  | Some _ => None
  end.

Definition lock_internal (t : nat) (s : state) (k : call) : option (state * control) :=
  match internal_mutex_ s with
  | None => Some (set_internal_mutex (Some t) s, Continue k)
  | Some _ => None
  end.

(** The callback of thread [t] is being called. *)
Definition in_callback (t : nat) (k : call) : bool :=
  match k with StopNotifyLock _ c | StopNotify _ c => bool_decide (c = t) | _ => false end.

(** *** WaitByStrategy *)

Definition WaitByStrategy_step (t : nat) (s : state) (k : call) : option (state * control) :=
  match k with
  | WaitReady w => Some (s, if ready_ s then Returned (Some Success) else Continue (WaitLock w))
  | WaitLock w => lock_ready t s (WaitReadyLocked w)
  | WaitReadyLocked w =>
      Some (if ready_ s then (set_ready_mutex None s, Returned (Some Success))
            else (s, Continue (if timed w then WaitClock w else WaitStop w)))
  | WaitRelease w r => Some (set_ready_mutex None s, Continue (WaitResult w r))
  | WaitResult w r =>
      Some (s, Returned (Some (if stop_requested s (token w) then kStopRequested
                               else if r then Success else kTimeout)))
  | _ => None
  end.

(** *** The condition variable *)

(** From the lock of [internal_mutex_] to the end of [wait_until_impl], or of
    the body of the loop in [wait]. *)
Definition wait_until_impl_step (t : nat) (s : state) (k : call) : option (state * control) :=
  match k with
  | WaitInternal w => lock_internal t s (WaitStopLocked w)
  | WaitStopLocked w =>
      Some (if stop_requested s (token w)
            then (set_internal_mutex None s,
                  Continue (if timed w then WaitExpired w else WaitDeregister w false))
            else (s, Continue (WaitUnlock w)))
  | WaitUnlock w => Some (set_ready_mutex None s, Continue (WaitBlock w))
  | WaitBlock w => Some (set_internal_mutex None s, Continue (WaitSleep w false))
  | WaitSleep w true => lock_internal t s (WaitWoken w)
  | WaitSleep w false => None
  | WaitWoken w => Some (set_internal_mutex None s, Continue (WaitRelock w))
  | WaitRelock w => lock_ready t s (if timed w then WaitExpired w else WaitLoop w)
  | _ => None
  end.

(** What [wait_until] has and [wait] has not. *)
Definition wait_until_step (s : state) (k : call) : option (state * control) :=
  match k with
  | WaitClock w => Some (s, Continue (if expired s w then WaitPredicate w false else WaitStop w))
  | WaitExpired w => Some (s, Continue (if expired s w then WaitPredicate w true else WaitStopAgain w))
  | WaitStopAgain w =>
      Some (s, Continue (if stop_requested s (token w) then WaitPredicate w true else WaitLoop w))
  | _ => None
  end.

(** What both have; [busy] says that another thread is in the callback of this
    one. *)
Definition wait_loop_step (t : nat) (busy : bool) (s : state) (k : call) : option (state * control) :=
  match k with
  | WaitStop w =>
      Some (s, Continue (if stop_requested s (token w) then WaitPredicate w false else WaitRegister w))
  | WaitRegister w =>
      Some (if stop_requested s (token w) then (s, Continue (WaitNotifyLock w))
            else (set_callbacks (callbacks s ++ [(token w, t)]) s, Continue (WaitLoop w)))
  | WaitNotifyLock w => lock_internal t s (WaitNotify w)
  | WaitNotify w => Some (set_internal_mutex None s, ContinueNotify (WaitLoop w))
  | WaitLoop w => Some (s, Continue (if ready_ s then WaitDeregister w true else WaitInternal w))
  | WaitPredicate w registered =>
      Some (s, Continue (if registered then WaitDeregister w (ready_ s) else WaitRelease w (ready_ s)))
  | WaitDeregister w r =>
      if busy then None
      else Some (set_callbacks (filter (λ x, x ≠ (token w, t)) (callbacks s)) s, Continue (WaitRelease w r))
  | _ => None
  end.

(** *** MakeReady, with [notify_all] *)

Definition MakeReady_step (t : nat) (s : state) (k : call) : option (state * control) :=
  match k with
  | MakeLock => lock_ready t s MakeSet
  | MakeSet => Some (set_ready s, Continue MakeNotifyLock)
  | MakeNotifyLock => lock_internal t s MakeNotify
  | MakeNotify => Some (set_internal_mutex None s, ContinueNotify MakeUnlock)
  | MakeUnlock => Some (set_ready_mutex None s, Returned None)
  | _ => None
  end.

(** *** A request of a stop, which calls the callbacks of the token *)

Definition request_stop_step (t : nat) (s : state) (k : call) : option (state * control) :=
  match k with
  | StopSet k =>
      Some (if stop_requested s k then (s, Returned None) else (add_stop k s, Continue (StopNext k)))
  | StopNext k =>
      Some (match filter (λ x, x.1 = k) (callbacks s) with
            | [] => (s, Returned None)
            | (_, c) :: _ => (set_callbacks (filter (λ x, x ≠ (k, c)) (callbacks s)) s,
                              Continue (StopNotifyLock k c))
            end)
  | StopNotifyLock k c => lock_internal t s (StopNotify k c)
  | StopNotify k c => Some (set_internal_mutex None s, ContinueNotify (StopNext k))
  | _ => None
  end.

(** One step of thread [t], [None] if it cannot make one. *)
Definition wait_step (t : nat) (busy : bool) (s : state) (k : call) : option (state * control) :=
  match k with
  | WaitReady _ | WaitLock _ | WaitReadyLocked _ | WaitRelease _ _ | WaitResult _ _ =>
      WaitByStrategy_step t s k
  | WaitInternal _ | WaitStopLocked _ | WaitUnlock _ | WaitBlock _ | WaitSleep _ _ | WaitWoken _
  | WaitRelock _ => wait_until_impl_step t s k
  | WaitClock _ | WaitExpired _ | WaitStopAgain _ => wait_until_step s k
  | WaitStop _ | WaitRegister _ | WaitNotifyLock _ | WaitNotify _ | WaitLoop _ | WaitPredicate _ _
  | WaitDeregister _ _ => wait_loop_step t busy s k
  | MakeLock | MakeSet | MakeNotifyLock | MakeNotify | MakeUnlock => MakeReady_step t s k
  | StopSet _ | StopNext _ | StopNotifyLock _ _ | StopNotify _ _ => request_stop_step t s k
  end.

(** ** The system *)

(** [results]: what the calls of [Wait] have returned, with the waiter. *)
Record system := {
  shared : state;
  calls : list (nat * call);
  results : list (waiter * result);
}.

Definition initial : system := {| shared := initial_state; calls := []; results := [] |}.

Definition notify (x : nat * call) : nat * call :=
  match x with (t, WaitSleep w _) => (t, WaitSleep w true) | _ => x end.

Definition waiter_of (k : call) : option waiter :=
  match k with
  | WaitReady w | WaitLock w | WaitReadyLocked w | WaitClock w | WaitStop w | WaitRegister w
  | WaitNotifyLock w | WaitNotify w | WaitLoop w | WaitInternal w | WaitStopLocked w | WaitUnlock w
  | WaitBlock w | WaitSleep w _ | WaitWoken w | WaitRelock w | WaitExpired w | WaitStopAgain w
  | WaitPredicate w _ | WaitDeregister w _ | WaitRelease w _ | WaitResult w _ => Some w
  | _ => None
  end.

Definition resume (σ : system) (t : nat) (k : call) (above below : list (nat * call)) (s : state)
    (c : control) : system :=
  match c with
  | Continue k' => {| shared := s; calls := above ++ (t, k') :: below; results := results σ |}
  | ContinueNotify k' =>
      {| shared := s; calls := (notify <$> above) ++ (t, k') :: (notify <$> below);
         results := results σ |}
  | Returned r =>
      {| shared := s; calls := above ++ below;
         results := match waiter_of k, r with
                    | Some w, Some r => results σ ++ [(w, r)]
                    | _, _ => results σ
                    end |}
  end.

Definition busy (calls : list (nat * call)) (t : nat) : bool := existsb (in_callback t) calls.*2.

(** The calls a client can make. *)
Definition starts (k : call) : bool :=
  match k with WaitReady _ | MakeLock | StopSet _ => true | _ => false end.

Inductive step (σ : system) : system → Prop :=
| step_run t k above below s c :
    calls σ = above ++ (t, k) :: below →
    wait_step t (busy (calls σ) t) (shared σ) k = Some (s, c) →
    step σ (resume σ t k above below s c)
| step_wake t w above below :   (* a spurious wake-up, or the end of the time *)
    calls σ = above ++ (t, WaitSleep w false) :: below →
    step σ {| shared := shared σ; calls := above ++ (t, WaitSleep w true) :: below;
              results := results σ |}
| step_clock n :
    step σ {| shared := set_clock n (shared σ); calls := calls σ; results := results σ |}
| step_start t k :
    starts k = true → t ∉ (calls σ).*1 →
    step σ {| shared := shared σ; calls := (t, k) :: calls σ; results := results σ |}.

Definition reachable (σ : system) : Prop := rtc step initial σ.

(** ** Executing a schedule *)

Inductive action := Run (t : nat) | Wake (t : nat) | Clock (n : nat) | Start (t : nat) (k : call).

Definition perform (σ : system) (a : action) : option system :=
  match a with
  | Run t =>
      '(above, k, below) ← split_top (calls σ) t;
      '(s, c) ← wait_step t (busy (calls σ) t) (shared σ) k;
      Some (resume σ t k above below s c)
  | Wake t =>
      '(above, k, below) ← split_top (calls σ) t;
      match k with
      | WaitSleep w false =>
          Some {| shared := shared σ; calls := above ++ (t, WaitSleep w true) :: below;
                  results := results σ |}
      | _ => None
      end
  | Clock n => Some {| shared := set_clock n (shared σ); calls := calls σ; results := results σ |}
  | Start t k =>
      if starts k && bool_decide (t ∉ (calls σ).*1)
      then Some {| shared := shared σ; calls := (t, k) :: calls σ; results := results σ |}
      else None
  end.

Fixpoint schedule (σ : system) (l : list action) : option system :=
  match l with [] => Some σ | a :: l => σ' ← perform σ a; schedule σ' l end.

Lemma wait_perform_step σ a σ' : perform σ a = Some σ' → step σ σ'.
Proof.
  destruct a as [t|t|n|t k]; cbn [perform].
  - destruct (split_top (calls σ) t) as [[[above k] below]|] eqn:E; [|done]. cbn [mbind option_bind].
    apply split_top_Some in E as [E _].
    destruct (wait_step _ _ _ _) as [[s c]|] eqn:Ek; [|done]. intros [= <-]. by eapply step_run.
  - destruct (split_top (calls σ) t) as [[[above k] below]|] eqn:E; [|done]. cbn [mbind option_bind].
    apply split_top_Some in E as [E _]. destruct k; try done. destruct notified; [done|].
    intros [= <-]. by eapply step_wake.
  - intros [= <-]. apply step_clock.
  - destruct (starts k) eqn:Ek; [|done]. cbn [andb].
    case_bool_decide; [|done]. intros [= <-]. by apply step_start.
Qed.

Lemma wait_schedule_reachable l σ : schedule initial l = Some σ → reachable σ.
Proof.
  unfold reachable. generalize initial as σ0. induction l as [|a l IH]; intros σ0; cbn [schedule].
  { intros [= ->]. constructor. }
  destruct (perform σ0 a) as [σ1|] eqn:E; [|done]. cbn [mbind option_bind]. intros H.
  eapply rtc_l; [by eapply wait_perform_step|by apply IH].
Qed.

End InterruptibleWait.
