(* ===== verification/InterruptibleWaitSpec.v ===== *)
(** * Waiting for a state: no wake-up is lost

    The invariant of InterruptibleWait.v and what follows from it: what the
    result of a wait means, that a waiter is woken up when the state becomes
    ready and when a stop is requested, that a callback is not called after the
    wait that registered it, and that the two mutexes and the destructor of the
    callback do not block each other. *)

From stdpp Require Import gmap relations.
From S2P Require Import Prelude CallStacks InterruptibleWait.

Module InterruptibleWaitSpec.
Import CallStacks InterruptibleWait.

Definition holds_ready (k : call) : bool :=
  match k with
  | WaitReadyLocked _ | WaitClock _ | WaitStop _ | WaitRegister _ | WaitNotifyLock _ | WaitNotify _
  | WaitLoop _ | WaitInternal _ | WaitStopLocked _ | WaitUnlock _ | WaitExpired _ | WaitStopAgain _
  | WaitPredicate _ _ | WaitDeregister _ _ | WaitRelease _ _
  | MakeSet | MakeNotifyLock | MakeNotify | MakeUnlock => true
  | _ => false
  end.

Definition holds_internal (k : call) : bool :=
  match k with
  | WaitNotify _ | WaitStopLocked _ | WaitUnlock _ | WaitBlock _ | WaitWoken _ | MakeNotify
  | StopNotify _ _ => true
  | _ => false
  end.

(** The state is ready, and [notify_all] will follow. *)
Definition notifying (k : call) : bool :=
  match k with MakeNotifyLock | MakeNotify => true | _ => false end.

(** The callback of thread [c] at token [k0] is being called. *)
Definition calling (k0 c : nat) (k : call) : bool :=
  match k with
  | StopNotifyLock k1 c1 | StopNotify k1 c1 => bool_decide (k1 = k0) && bool_decide (c1 = c)
  | _ => false
  end.

(** The callbacks of token [k0] are being called. *)
Definition stopping (k0 : nat) (k : call) : bool :=
  match k with
  | StopNext k1 | StopNotifyLock k1 _ | StopNotify k1 _ => bool_decide (k1 = k0)
  | _ => false
  end.

(** The predicate was false, and the thread still holds [ready_mutex_]. *)
Definition checked (k : call) : bool :=
  match k with WaitInternal _ | WaitStopLocked _ | WaitUnlock _ => true | _ => false end.

(** The predicate was false, and the thread waits to be notified. *)
Definition sleepy (k : call) : bool :=
  match k with WaitBlock _ | WaitSleep _ false => true | _ => false end.

(** No stop was requested after [internal_mutex_] was locked. *)
Definition armed (k : call) : bool :=
  match k with WaitUnlock _ | WaitBlock _ | WaitSleep _ false => true | _ => false end.

(** The waiter whose callback exists. *)
Definition registered (k : call) : option waiter :=
  match k with
  | WaitNotifyLock w | WaitNotify w | WaitLoop w | WaitInternal w | WaitStopLocked w | WaitUnlock w
  | WaitBlock w | WaitSleep w _ | WaitWoken w | WaitRelock w | WaitExpired w | WaitStopAgain w
  | WaitPredicate w true | WaitDeregister w _ => Some w
  | _ => None
  end.

(** The time of [w] has come. *)
Definition over (s : state) (w : waiter) : Prop := ∃ d, abs_time w = Some d ∧ (d ≤ latest s)%nat.

(** What a call has learnt of the state, which remains true. *)
Definition learnt (s : state) (k : call) : Prop :=
  match k with
  | WaitClock w | WaitExpired w | WaitStopAgain w => timed w = true
  | WaitPredicate w _ => over s w ∨ token w ∈ stops s
  | WaitDeregister w r | WaitRelease w r | WaitResult w r =>
      if r then ready_ s = true else over s w ∨ token w ∈ stops s
  | StopNext k | StopNotifyLock k _ | StopNotify k _ => k ∈ stops s
  | _ => True
  end.

(** What a call relies on that other threads can change. *)
Record relies (s : state) (F : list (nat * call)) (t : nat) (k : call) : Prop := {
  r_checked : checked k = true → ready_ s = false;
  r_sleepy : sleepy k = true → ready_ s = true → (0 < count notifying F)%nat;
  r_armed : ∀ w, armed k = true → registered k = Some w →
    (token w, t) ∈ callbacks s ∨ (0 < count (calling (token w) t) F)%nat;
  r_registered : ∀ w, registered k = Some w → token w ∉ stops s → (token w, t) ∈ callbacks s;
}.

Definition held (m : option nat) : nat := match m with Some _ => 1 | None => 0 end.

Record inv (s : state) (F : list (nat * call)) : Prop := {
  i_threads : NoDup F.*1;
  i_clock : (clock s ≤ latest s)%nat;
  i_ready : count holds_ready F = held (ready_mutex_ s);
  i_internal : count holds_internal F = held (internal_mutex_ s);
  i_learnt : ∀ t k, (t, k) ∈ F → learnt s k;
  i_relies : ∀ t k, (t, k) ∈ F → relies s F t k;
  i_stopping : ∀ k c, (k, c) ∈ callbacks s → k ∈ stops s → (0 < count (stopping k) F)%nat;
  i_alive : ∀ k c, (k, c) ∈ callbacks s ∨ (0 < count (calling k c) F)%nat →
    ∃ kc w, (c, kc) ∈ F ∧ registered kc = Some w ∧ token w = k;
}.

(** What a returned result says. *)
Definition result_ok (s : state) (x : waiter * result) : Prop :=
  match x.2 with
  | Success => ready_ s = true
  | kStopRequested => token x.1 ∈ stops s
  | kTimeout => over s x.1
  end.

Record good (σ : system) : Prop := {
  g_inv : inv (shared σ) (calls σ);
  g_results : ∀ x, x ∈ results σ → result_ok (shared σ) x;
}.

(** ** Growth of the state *)

Record grows (s s' : state) : Prop := {
  grows_ready : ready_ s = true → ready_ s' = true;
  grows_stops : stops s ⊆ stops s';
  grows_latest : (latest s ≤ latest s')%nat;
}.

#[global] Instance grows_refl : Reflexive grows.
Proof. by split. Qed.

Lemma over_grows s s' w : grows s s' → over s w → over s' w.
Proof. intros [_ _ H] (d & ? & ?). exists d. split; [done|lia]. Qed.

Lemma learnt_grows s s' k : grows s s' → learnt s k → learnt s' k.
Proof.
  intros G. pose proof (grows_stops _ _ G) as Hs. pose proof (grows_ready _ _ G) as Hr.
  pose proof (λ w, over_grows s s' w G) as Ho.
  destruct k; cbn [learnt]; try done; try (by apply Hs);
    try (intros [?|?]; [left; by apply Ho|right; by apply Hs]);
    destruct r; (auto || (intros [?|?]; [left; by apply Ho|right; by apply Hs])).
Qed.

Lemma result_ok_grows s s' x : grows s s' → result_ok s x → result_ok s' x.
Proof.
  intros G. unfold result_ok. destruct (x.2); [apply G|intros H; by apply (grows_stops _ _ G)|].
  by apply over_grows.
Qed.

Lemma relies_frame s F s' F' t k :
  relies s F t k → grows s s' →
  (ready_ s' = true → ready_ s = true ∨ checked k = false ∧ (0 < count notifying F')%nat) →
  (sleepy k = true → 0 < count notifying F → 0 < count notifying F')%nat →
  (∀ k0, (k0, t) ∈ callbacks s →
     (k0, t) ∈ callbacks s' ∨ k0 ∈ stops s' ∧ (0 < count (calling k0 t) F')%nat) →
  (∀ k0, armed k = true → 0 < count (calling k0 t) F → 0 < count (calling k0 t) F')%nat →
  relies s' F' t k.
Proof.
  intros [H1 H2 H3 H4] [_ Hs _] Hr Hn Hc Hk. split.
  - intros Hk0. specialize (H1 Hk0). destruct (ready_ s') eqn:E; [|done].
    destruct (Hr eq_refl) as [?|[? _]]; congruence.
  - intros Hk0 E. destruct (Hr E) as [?|[_ ?]]; [|done]. auto.
  - intros w Ha Hw. destruct (H3 w Ha Hw) as [H|H]; [|right; by apply Hk].
    destruct (Hc _ H) as [?|[_ ?]]; auto.
  - intros w Hw Hns. destruct (Hc (token w)) as [?|[? _]]; [|done..].
    apply H4; [done|]. intros ?. apply Hns. by apply Hs.
Qed.

(** ** Other calls *)

#[global] Instance wait_inv_perm s : Proper ((≡ₚ) ==> impl) (inv s).
Proof.
  intros F F' HF [H1 Hc H2 H3 H4 H5 H6 H7]. split.
  - by rewrite <- HF.
  - done.
  - by rewrite <- (count_perm _ _ _ HF).
  - by rewrite <- (count_perm _ _ _ HF).
  - intros t k Hin. rewrite <- HF in Hin. by eapply H4.
  - intros t k Hin. rewrite <- HF in Hin. eapply relies_frame; [by apply H5|done|..];
      intros; rewrite <- ?(count_perm _ _ _ HF); auto.
  - intros k c. rewrite <- (count_perm _ _ _ HF). apply H6.
  - intros k c. rewrite <- (count_perm _ _ _ HF). setoid_rewrite <- HF. apply H7.
Qed.

(** The call of thread [t], if it makes one. *)
Definition frame (t : nat) (o : option call) : list (nat * call) :=
  match o with Some k => [(t, k)] | None => [] end.

Definition has (P : call → bool) (o : option call) : bool :=
  match o with Some k => P k | None => false end.

Definition Registered (o : option call) (k0 : nat) : Prop :=
  ∃ w, (o ≫= registered) = Some w ∧ token w = k0.

Lemma count_frame P t o R : count P (frame t o ++ R) = (Nat.b2n (has P o) + count P R)%nat.
Proof. destruct o as [k|]; [|done]. cbn [frame app has]. rewrite count_call. by destruct (P k). Qed.

(** What a step of thread [t] from call [o] in [s] to call [o'] in [s'] keeps of
    what the calls [R] of the other threads rely on. *)
Record keeps (t : nat) (R : list (nat * call)) (s : state) (o : option call) (s' : state)
    (o' : option call) : Prop := {
  k_grows : grows s s';
  k_clock : (clock s' ≤ latest s')%nat;
  k_holds_ready :
    (held (ready_mutex_ s') + Nat.b2n (has holds_ready o) =
     held (ready_mutex_ s) + Nat.b2n (has holds_ready o'))%nat;
  k_holds_internal :
    (held (internal_mutex_ s') + Nat.b2n (has holds_internal o) =
     held (internal_mutex_ s) + Nat.b2n (has holds_internal o'))%nat;
  k_ready : ready_ s' = true → ready_ s = true ∨ count checked R = 0%nat ∧ has notifying o' = true;
  k_notifying : has notifying o = true → has notifying o' = true ∨ count sleepy R = 0%nat;
  k_calling : ∀ k0 c, has (calling k0 c) o = true → has (calling k0 c) o' = true ∨ count armed R = 0%nat;
  k_callbacks : ∀ k0 c, (k0, c) ∈ callbacks s →
    (k0, c) ∈ callbacks s' ∨ c = t ∨ k0 ∈ stops s' ∧ has (calling k0 c) o' = true;
  k_stops : ∀ k0 c, (k0, c) ∈ callbacks s' → k0 ∈ stops s' →
    (k0, c) ∈ callbacks s ∧ k0 ∈ stops s ∨ has (stopping k0) o' = true;
  k_stopping : ∀ k0, has (stopping k0) o = true →
    has (stopping k0) o' = true ∨ ∀ c, (k0, c) ∉ callbacks s';
  k_alive : ∀ k0 c, (k0, c) ∈ callbacks s' → (k0, c) ∈ callbacks s ∨ c = t ∧ Registered o' k0;
  k_called : ∀ k0 c, has (calling k0 c) o' = true →
    has (calling k0 c) o = true ∨ (k0, c) ∈ callbacks s;
  k_registered : ∀ k0, Registered o k0 →
    Registered o' k0 ∨ ((k0, t) ∉ callbacks s') ∧ count (calling k0 t) R = 0%nat ∧ has (calling k0 t) o' = false;
}.

Lemma elem_of_frame t o R t0 k0 :
  (t0, k0) ∈ frame t o ++ R ↔ (t0 = t ∧ o = Some k0) ∨ (t0, k0) ∈ R.
Proof.
  destruct o as [k|]; cbn [frame app]; [rewrite elem_of_cons|]; [|naive_solver].
  split; [intros [[= -> ->]|?]|intros [[-> [= ->]]|?]]; auto.
Qed.

Lemma threads_frame t o R : NoDup (frame t o ++ R).*1 → NoDup R.*1.
Proof. destruct o as [k|]; [|done]. intros [_ ?]%NoDup_cons. done. Qed.

Lemma frame_threads t o R : NoDup R.*1 → t ∉ R.*1 → NoDup (frame t o ++ R).*1.
Proof. intros ??. destruct o as [k|]; [|done]. by apply NoDup_cons. Qed.

Lemma other_thread (t t0 : nat) (k0 : call) (R : list (nat * call)) : t ∉ R.*1 → (t0, k0) ∈ R → t0 ≠ t.
Proof. intros Ht Hin ->. apply Ht. by apply (list_elem_of_fmap_2 fst) in Hin. Qed.

Section Change.
Context (t : nat) (R : list (nat * call)) (s : state) (o : option call) (s' : state) (o' : option call).
Context (K : keeps t R s o s' o') (I : inv s (frame t o ++ R)) (Ht : t ∉ R.*1).

Lemma relies_other t0 k0 : (t0, k0) ∈ R → relies s' (frame t o' ++ R) t0 k0.
Proof using Ht I K.
  intros Hin. pose proof (other_thread _ _ _ _ Ht Hin) as Hne.
  assert (relies s (frame t o ++ R) t0 k0) as H by (apply I, elem_of_app; auto).
  eapply relies_frame; [exact H|apply K|..].
  - intros Hr. destruct (k_ready _ _ _ _ _ _ K Hr) as [?|[? Hn]]; [by left|right].
    rewrite count_frame, Hn. split; [by eapply count_zero|simpl; lia].
  - rewrite !count_frame. intros Hs. destruct (has notifying o) eqn:E; simpl; [|lia].
    destruct (k_notifying _ _ _ _ _ _ K E) as [->|Hz]; simpl; [lia|].
    by rewrite (count_zero _ _ _ _ Hz Hin) in Hs.
  - intros k1 Hc. rewrite count_frame.
    destruct (k_callbacks _ _ _ _ _ _ K _ _ Hc) as [?|[?|[? ->]]]; [by left|done|right].
    split; [done|simpl; lia].
  - intros k1 Ha. rewrite !count_frame. destruct (has (calling k1 t0) o) eqn:E; simpl; [|lia].
    destruct (k_calling _ _ _ _ _ _ K _ _ E) as [->|Hz]; simpl; [lia|].
    by rewrite (count_zero _ _ _ _ Hz Hin) in Ha.
Qed.

Lemma alive_other k c :
  (k, c) ∈ callbacks s' ∨ (0 < count (calling k c) (frame t o' ++ R))%nat →
  ∃ kc w, (c, kc) ∈ frame t o' ++ R ∧ registered kc = Some w ∧ token w = k.
Proof using Ht I K.
  intros H.
  assert (((k, c) ∈ callbacks s ∨ (0 < count (calling k c) (frame t o ++ R))%nat) ∨
          c = t ∧ Registered o' k) as [H0|[-> (w & Hw & <-)]].
  { destruct H as [H|H]; [destruct (k_alive _ _ _ _ _ _ K _ _ H); auto|left].
    rewrite count_frame in H |- *. destruct (has (calling k c) o') eqn:E; simpl in H; [|right; lia].
    destruct (k_called _ _ _ _ _ _ K _ _ E) as [->|?]; [right; simpl; lia|by left]. }
  - destruct (i_alive _ _ I _ _ H0) as (kc & w & Hin & Hr & Hw).
    apply elem_of_frame in Hin as [[-> ->]|Hin]; [|exists kc, w; rewrite elem_of_frame; auto].
    destruct (k_registered _ _ _ _ _ _ K k) as [(w' & Hr' & Hw')|(H1 & H2 & H3)].
    + by exists w.
    + destruct o' as [k'|]; [|done]. exists k', w'. rewrite elem_of_frame. auto.
    + rewrite count_frame, H2, H3 in H. destruct H as [?|H]; [done|simpl in H; lia].
  - destruct o' as [k'|]; [|done]. exists k', w. rewrite elem_of_frame. auto.
Qed.

Lemma inv_change :
  (∀ k', o' = Some k' → learnt s' k' ∧ relies s' (frame t o' ++ R) t k') → inv s' (frame t o' ++ R).
Proof using Ht I K.
  intros Hk. split.
  - apply frame_threads; [|done]. by eapply threads_frame, I.
  - apply K.
  - pose proof (i_ready _ _ I) as H. pose proof (k_holds_ready _ _ _ _ _ _ K).
    rewrite count_frame in H |- *. lia.
  - pose proof (i_internal _ _ I) as H. pose proof (k_holds_internal _ _ _ _ _ _ K).
    rewrite count_frame in H |- *. lia.
  - intros t0 k0 [[-> E]|Hin]%elem_of_frame; [by apply Hk|].
    eapply learnt_grows; [apply K|]. apply (i_learnt _ _ I t0), elem_of_app. auto.
  - intros t0 k0 [[-> E]|Hin]%elem_of_frame; [by apply Hk|by apply relies_other].
  - intros k c Hc Hs. rewrite count_frame.
    destruct (k_stops _ _ _ _ _ _ K _ _ Hc Hs) as [[H1 H2]| ->]; [|simpl; lia].
    pose proof (i_stopping _ _ I _ _ H1 H2) as H. rewrite count_frame in H.
    destruct (has (stopping k) o) eqn:E; [|simpl in H; lia].
    destruct (k_stopping _ _ _ _ _ _ K _ E) as [->|Hn]; [simpl; lia|]. by destruct (Hn c).
  - apply alive_other.
Qed.

End Change.

(** ** Notifying all *)

Lemma notify_threads (R : list (nat * call)) : (notify <$> R).*1 = R.*1.
Proof.
  rewrite <- list_fmap_compose. apply list_fmap_ext. intros ? [t k] _. by destruct k.
Qed.

Lemma notify_in t k (R : list (nat * call)) :
  (t, k) ∈ notify <$> R →
  ∃ k0, (t, k0) ∈ R ∧ (k = k0 ∧ (∀ w b, k ≠ WaitSleep w b) ∨ ∃ w b, k0 = WaitSleep w b ∧ k = WaitSleep w true).
Proof.
  intros ([t0 k0] & Hn & Hin)%list_elem_of_fmap. exists k0.
  destruct k0; simplify_eq/=; split; eauto; by left.
Qed.

Lemma in_notify t k (R : list (nat * call)) : (t, k) ∈ R → ∃ k', (t, k') ∈ notify <$> R ∧ registered k' = registered k.
Proof.
  intros Hin. exists (notify (t, k)).2. split; [|by destruct k].
  replace (t, (notify (t, k)).2) with (notify (t, k)) by (by destruct k). by apply list_elem_of_fmap_2.
Qed.

Lemma notify_count P (R : list (nat * call)) :
  (∀ w b b', P (WaitSleep w b) = P (WaitSleep w b')) → count P (notify <$> R) = count P R.
Proof. intros HP. apply count_fmap. intros [t k]. destruct k; try done. apply HP. Qed.

Section Notify.
Context (s : state) (t : nat) (k : call) (R : list (nat * call)).
Context (I : inv s (frame t (Some k) ++ R)) (Hk : holds_internal k = true).

Lemma no_other_internal : count holds_internal R = 0%nat.
Proof using Hk I.
  pose proof (i_internal _ _ I) as H. rewrite count_frame in H. cbn [has] in H. rewrite Hk in H.
  destruct (internal_mutex_ s); simpl in H; lia.
Qed.

Lemma notify_none P :
  (∀ w, P (WaitSleep w true) = false) → (∀ k0, holds_internal k0 = false → (∀ w b, k0 ≠ WaitSleep w b) → P k0 = false) →
  count P (notify <$> R) = 0%nat.
Proof using Hk I.
  intros H1 H2. apply count_zero_2. intros t0 k0 (k1 & Hin & [[-> Hs]|(w & b & -> & ->)])%notify_in.
  - apply H2; [|done]. by eapply count_zero, Hin; apply no_other_internal.
  - apply H1.
Qed.

Lemma notify_sleepy : count sleepy (notify <$> R) = 0%nat.
Proof using Hk I.
  apply notify_none; [done|]. intros [] He Hs; try done. by destruct (Hs w notified).
Qed.

Lemma notify_armed : count armed (notify <$> R) = 0%nat.
Proof using Hk I.
  apply notify_none; [done|]. intros [] He Hs; try done. by destruct (Hs w notified).
Qed.

Lemma frame_notify P :
  (∀ w b b', P (WaitSleep w b) = P (WaitSleep w b')) →
  count P (frame t (Some k) ++ (notify <$> R)) = count P (frame t (Some k) ++ R).
Proof. intros HP. by rewrite !count_frame, notify_count. Qed.

Lemma relies_notify t0 k0 :
  relies s (frame t (Some k) ++ R) t0 k0 → relies s (frame t (Some k) ++ (notify <$> R)) t0 k0.
Proof. intros H. eapply relies_frame; [exact H|done|..]; intros; rewrite ?frame_notify; auto. Qed.

Lemma inv_notify : inv s (frame t (Some k) ++ (notify <$> R)).
Proof using Hk I.
  destruct I as [H1 Hc H2 H3 H4 H5 H6 H7]. split.
  - revert H1. rewrite !fmap_app, notify_threads. done.
  - done.
  - by rewrite frame_notify.
  - by rewrite frame_notify.
  - intros t0 k0 [[-> E]|Hin]%elem_of_frame; [apply (H4 t), elem_of_frame; auto|].
    apply notify_in in Hin as (k1 & Hin & [[-> _]|(w & b & -> & ->)]); [|done].
    apply (H4 t0), elem_of_frame; auto.
  - intros t0 k0 [[-> E]|Hin]%elem_of_frame; [apply relies_notify, H5, elem_of_frame; auto|].
    apply notify_in in Hin as (k1 & Hin & [[-> _]|(w & b & -> & ->)]).
    { apply relies_notify, H5, elem_of_frame; auto. }
    assert (relies s (frame t (Some k) ++ R) t0 (WaitSleep w b)) as Hr by (apply H5, elem_of_frame; auto).
    split; try done. apply Hr.
  - intros k0 c. rewrite frame_notify by done. apply H6.
  - intros k0 c. rewrite frame_notify by done. intros H.
    destruct (H7 k0 c H) as (kc & w & Hin & Hr & Hw).
    apply elem_of_frame in Hin as [[-> [= <-]]|Hin]; [exists k, w; rewrite elem_of_frame; auto|].
    apply in_notify in Hin as (k' & Hin & E). exists k', w. rewrite elem_of_frame, E. auto.
Qed.

End Notify.

(** ** The steps *)

(** Only the mutexes and the call of a waiter change. *)
Lemma keeps_plain t R s k s' o' :
  ready_ s' = ready_ s → stops s' = stops s → callbacks s' = callbacks s →
  clock s' = clock s → latest s' = latest s → (clock s ≤ latest s)%nat →
  (held (ready_mutex_ s') + Nat.b2n (holds_ready k) =
   held (ready_mutex_ s) + Nat.b2n (has holds_ready o'))%nat →
  (held (internal_mutex_ s') + Nat.b2n (holds_internal k) =
   held (internal_mutex_ s) + Nat.b2n (has holds_internal o'))%nat →
  (notifying k = true → has notifying o' = true) →
  (∀ k0 c, has (calling k0 c) o' = calling k0 c k) →
  (∀ k0, stopping k0 k = true → has (stopping k0) o' = true) →
  (registered k = None ∨ registered k = (o' ≫= registered)) →
  keeps t R s (Some k) s' o'.
Proof.
  intros E1 E2 E3 E4 E5 Hc Hr Hi Hn Hcl Hst Hreg. split; try done.
  - split; [by rewrite E1|by rewrite E2|by rewrite E5].
  - by rewrite E4, E5.
  - rewrite E1. auto.
  - auto.
  - intros k0 c. rewrite Hcl. auto.
  - rewrite E3. auto.
  - rewrite E2, E3. auto.
  - auto.
  - rewrite E3. auto.
  - intros k0 c. rewrite Hcl. auto.
  - intros k0 (w & Hw & <-). left. exists w. split; [|done]. simpl in Hw.
    destruct Hreg as [Hreg|Hreg]; congruence.
Qed.

Definition post (t : nat) (k : call) (R : list (nat * call)) (s' : state) (c : control) : Prop :=
  match c with
  | Continue k' => inv s' (frame t (Some k') ++ R)
  | ContinueNotify k' => inv s' (frame t (Some k') ++ (notify <$> R))
  | Returned r =>
      inv s' R ∧
      match waiter_of k, r with Some w, Some r => result_ok s' (w, r) | _, _ => True end
  end.

Lemma held_le m : (held m ≤ 1)%nat.
Proof. destruct m; simpl; lia. Qed.

Lemma stop_requested_spec s k : stop_requested s k = true ↔ k ∈ stops s.
Proof. unfold stop_requested. by rewrite bool_decide_eq_true. Qed.

Lemma stop_requested_false s k : stop_requested s k = false ↔ k ∉ stops s.
Proof. unfold stop_requested. by rewrite bool_decide_eq_false. Qed.

Lemma expired_over s w : (clock s ≤ latest s)%nat → expired s w = true → over s w.
Proof.
  unfold expired, over. intros Hc. destruct (abs_time w) as [d|]; [|done].
  intros H%bool_decide_eq_true. exists d. split; [done|lia].
Qed.

Section Steps.
Context (t : nat) (R : list (nat * call)) (s : state) (k : call).
Context (I : inv s (frame t (Some k) ++ R)) (Ht : t ∉ R.*1).

Lemma own_learnt : learnt s k.
Proof using I. apply (i_learnt _ _ I t), elem_of_frame. auto. Qed.

Lemma own_relies : relies s (frame t (Some k) ++ R) t k.
Proof using I. apply (i_relies _ _ I t), elem_of_frame. auto. Qed.

Lemma own_ready : held (ready_mutex_ s) = (Nat.b2n (holds_ready k) + count holds_ready R)%nat.
Proof using I. pose proof (i_ready _ _ I) as H. by rewrite count_frame in H. Qed.

Lemma own_internal : held (internal_mutex_ s) = (Nat.b2n (holds_internal k) + count holds_internal R)%nat.
Proof using I. pose proof (i_internal _ _ I) as H. by rewrite count_frame in H. Qed.

(** A step that changes the mutexes and the call only. *)
Lemma move_plain s' k' :
  keeps t R s (Some k) s' (Some k') → learnt s' k' → relies s' (frame t (Some k') ++ R) t k' →
  post t k R s' (Continue k').
Proof using Ht I. intros K Hl Hr. eapply inv_change; eauto. by intros ? [= <-]. Qed.

Lemma move_return s' : keeps t R s (Some k) s' None → inv s' R.
Proof using Ht I. intros K. by eapply (inv_change t R s (Some k) s' None). Qed.

End Steps.

(** What the waiter relies on after a step that changes the mutexes and its call
    only. *)
Lemma relies_plain t R s k s' k' :
  relies s (frame t (Some k) ++ R) t k →
  ready_ s' = ready_ s → stops s' = stops s → callbacks s' = callbacks s →
  (∀ k0 c, calling k0 c k = false) → notifying k = false →
  (checked k' = true → ready_ s = false) →
  (sleepy k' = true → sleepy k = true ∨ ready_ s = false) →
  (armed k' = true →
     armed k = true ∧ registered k' = registered k ∨ ∀ w, registered k' = Some w → token w ∉ stops s) →
  (∀ w, registered k' = Some w → registered k = Some w ∨ token w ∈ stops s) →
  relies s' (frame t (Some k') ++ R) t k'.
Proof.
  intros [H1 H2 H3 H4] Er Es Ec Hcl Hn Hc Hs Ha Hreg. split.
  - by rewrite Er.
  - rewrite Er. intros Hk E. destruct (Hs Hk) as [Hk'|]; [|congruence].
    specialize (H2 Hk' E). rewrite count_frame in H2 |- *. cbn [has] in *. rewrite Hn in H2. simpl in H2. lia.
  - rewrite Ec. intros w Hk Hw. destruct (Ha Hk) as [[Hk' Hw']|Hk'].
    + rewrite Hw' in Hw. destruct (H3 w Hk' Hw) as [?|Hl]; [by left|right]. rewrite count_frame in Hl |- *.
      cbn [has] in *. rewrite Hcl in Hl. simpl in Hl. lia.
    + left. destruct (Hreg w Hw) as [Hw'|?]; [|by destruct (Hk' w Hw)]. apply H4; auto.
  - rewrite Es, Ec. intros w Hw Hns. destruct (Hreg w Hw) as [Hw'|?]; [|done]. by apply H4.
Qed.


Ltac mutexes :=
  simpl in *;
  repeat match goal with
    | E : ready_mutex_ _ = None |- _ => rewrite E in *; clear E
    | E : internal_mutex_ _ = None |- _ => rewrite E in *; clear E
    end;
  simpl in *; lia.

(** A step of a waiter that changes the mutexes and its call only: its side
    conditions follow from the calls and the counts of the holders. *)
Ltac step_plain I Ht :=
  eapply move_plain;
    [exact I|exact Ht
    |apply keeps_plain; simpl; solve [done | auto | mutexes]
    |simpl; try done; auto using expired_over; by repeat case_match
    |eapply relies_plain; [by eapply own_relies|..]; simpl; try done; auto;
       solve [by intros ? [= <-]; auto | right; by intros ? [= <-]
             | intros; try right; by eapply r_checked; [eapply own_relies|]
             | intros; right; by intros ? [= <-]]].

(** A call that returns. *)
Ltac step_return I Ht :=
  eapply move_return; [exact I|exact Ht|apply keeps_plain; simpl; solve [done | auto | mutexes]].


Lemma wait_run_register t R s w :
  inv s (frame t (Some (WaitRegister w)) ++ R) → t ∉ R.*1 → token w ∉ stops s →
  inv (set_callbacks (callbacks s ++ [(token w, t)]) s) (frame t (Some (WaitLoop w)) ++ R).
Proof.
  intros I Ht Hs. eapply move_plain; [exact I|exact Ht| |done|].
  - split; try done; simpl; auto.
    + apply (i_clock _ _ I).
    + intros k0 c. rewrite elem_of_app. auto.
    + intros k0 c [?|[= -> ->]%list_elem_of_singleton]%elem_of_app ?; [auto|done].
    + intros k0 c [?|[= -> ->]%list_elem_of_singleton]%elem_of_app; [by left|right].
      split; [done|by exists w].
    + by intros k0 (w0 & ? & _).
  - split; try done. intros w0 [= <-] _. simpl. apply elem_of_app. right. by apply list_elem_of_singleton.
Qed.

Lemma not_busy (F : list (nat * call)) t k0 : busy F t = false → count (calling k0 t) F = 0%nat.
Proof.
  intros H. apply count_zero_2. intros t0 k Hin.
  destruct (calling k0 t k) eqn:E; [|done]. exfalso. apply not_true_iff_false in H. apply H.
  apply existsb_exists. exists k. split.
  - apply list_elem_of_In. by apply (list_elem_of_fmap_2 snd) in Hin.
  - destruct k; try done; simpl in E |- *; by apply andb_prop in E as [_ ?].
Qed.

Lemma run_deregister t R s w r :
  inv s (frame t (Some (WaitDeregister w r)) ++ R) → t ∉ R.*1 →
  busy (frame t (Some (WaitDeregister w r)) ++ R) t = false →
  inv (set_callbacks (filter (λ x, x ≠ (token w, t)) (callbacks s)) s) (frame t (Some (WaitRelease w r)) ++ R).
Proof.
  intros I Ht Hb. pose proof (own_learnt _ _ _ _ I) as L. eapply move_plain; [exact I|exact Ht| |exact L|by split].
  split; try done; simpl; auto.
  - apply (i_clock _ _ I).
  - intros k0 c Hin. destruct (decide (c = t)) as [->|Hne]; [auto|left].
    apply list_elem_of_filter. split; [naive_solver|done].
  - intros k0 c [_ ?]%list_elem_of_filter ?. auto.
  - intros k0 c [_ ?]%list_elem_of_filter. auto.
  - intros k0 (w0 & [= <-] & <-). right. split_and!; [by intros [? _]%list_elem_of_filter| |done].
    pose proof (not_busy _ _ (token w) Hb) as H. by rewrite count_frame in H.
Qed.

(** A step that notifies all and unlocks [internal_mutex_]. *)
Lemma run_notify t R s k k' :
  inv s (frame t (Some k) ++ R) → t ∉ R.*1 → holds_internal k = true → holds_internal k' = false →
  holds_ready k' = holds_ready k → learnt s k' →
  (∀ F, relies (set_internal_mutex None s) F t k') →
  (∀ k0 c, calling k0 c k' = false) →
  (∀ k0, stopping k0 k = true → stopping k0 k' = true) →
  (registered k = None ∨ registered k = registered k') →
  inv (set_internal_mutex None s) (frame t (Some k') ++ (notify <$> R)).
Proof.
  intros I Ht Hk Hk' Hr Hl Hre Hcl Hst Hreg.
  pose proof (own_internal _ _ _ _ I) as Hi. rewrite Hk in Hi. pose proof (held_le (internal_mutex_ s)).
  assert (t ∉ (notify <$> R).*1) as Ht' by by rewrite notify_threads.
  eapply move_plain; [by apply inv_notify|done| |by eapply learnt_grows|apply Hre].
  split; try done; simpl; auto.
  - apply (i_clock _ _ I).
  - by rewrite Hr.
  - rewrite Hk, Hk'. simpl in *. lia.
  - intros _. right. by eapply notify_sleepy.
  - intros k0 c _. right. by eapply notify_armed.
  - by intros k0 c; rewrite Hcl.
  - intros k0 (w & Hw & <-). left. exists w. split; [|done]. simpl in Hw |- *.
    destruct Hreg as [Hreg|Hreg]; congruence.
Qed.

Lemma run_waiter t R s k s' c w :
  inv s (frame t (Some k) ++ R) → t ∉ R.*1 → waiter_of k = Some w →
  wait_step t (busy (frame t (Some k) ++ R) t) s k = Some (s', c) → post t k R s' c.
Proof.
  intros I Ht Hw Hs.
  pose proof (own_learnt _ _ _ _ I) as L. pose proof (i_clock _ _ I) as Hc.
  pose proof (own_ready _ _ _ _ I) as Hr. pose proof (own_internal _ _ _ _ I) as Hi.
  pose proof (held_le (ready_mutex_ s)) as Hr1. pose proof (held_le (internal_mutex_ s)) as Hi1.
  destruct k; try discriminate Hw; injection Hw as ->;
  cbn [wait_step WaitByStrategy_step wait_until_impl_step wait_until_step wait_loop_step MakeReady_step
       request_stop_step] in Hs; unfold lock_ready, lock_internal in Hs;
  repeat case_match; simplify_eq;
    try match goal with H : stop_requested _ _ = true |- _ => apply stop_requested_spec in H end;
    try match goal with H : stop_requested _ _ = false |- _ => apply stop_requested_false in H end.
  all: try (solve [step_plain I Ht]).
  all: try (split; [step_return I Ht|try done]).
  - by apply wait_run_register.
  - apply (run_notify t R s (WaitNotify w)); try done; [|by right]. intros F. split; try done.
    intros w0 [= <-]. simpl. apply (r_registered _ _ _ _ (own_relies _ _ _ _ I)). done.
  - by apply run_deregister.
  - simpl in L. destruct L; done.
Qed.

Lemma run_make_set t R s :
  inv s (frame t (Some MakeSet) ++ R) → t ∉ R.*1 →
  inv (set_ready s) (frame t (Some MakeNotifyLock) ++ R).
Proof.
  intros I Ht. eapply move_plain; [exact I|exact Ht| |done|by split].
  split; try done; simpl; auto; [apply (i_clock _ _ I)|].
  intros _. right. split; [|done]. apply count_zero_2. intros t0 k0 Hin.
  pose proof (own_ready _ _ _ _ I) as Hr. pose proof (held_le (ready_mutex_ s)) as Hr1. simpl in Hr.
  assert (count holds_ready R = 0%nat) as Hz by lia.
  pose proof (count_zero _ _ _ _ Hz Hin). by destruct k0.
Qed.

Lemma run_stop_set t R s k :
  inv s (frame t (Some (StopSet k)) ++ R) → t ∉ R.*1 → inv (add_stop k s) (frame t (Some (StopNext k)) ++ R).
Proof.
  intros I Ht. eapply move_plain; [exact I|exact Ht| |simpl; set_solver|by split].
  split; try done; simpl; auto.
  - split; [done|simpl; set_solver|done].
  - apply (i_clock _ _ I).
  - intros k0 c Hc [->%elem_of_singleton|?]%elem_of_union; [right|by left].
    by apply bool_decide_eq_true.
Qed.

Lemma run_stop_done t R s k :
  inv s (frame t (Some (StopNext k)) ++ R) → t ∉ R.*1 → filter (λ x, x.1 = k) (callbacks s) = [] → inv s R.
Proof.
  intros I Ht Hf. eapply move_return; [exact I|exact Ht|].
  split; try done; simpl; auto; [apply (i_clock _ _ I)|].
  intros k0 ->%bool_decide_eq_true. right. intros c Hin.
  assert ((k0, c) ∈ filter (λ x, x.1 = k0) (callbacks s)) as H by (by apply list_elem_of_filter).
  rewrite Hf in H. by apply elem_of_nil in H.
Qed.

Lemma run_stop_next t R s k c :
  inv s (frame t (Some (StopNext k)) ++ R) → t ∉ R.*1 → (k, c) ∈ callbacks s →
  inv (set_callbacks (filter (λ x, x ≠ (k, c)) (callbacks s)) s) (frame t (Some (StopNotifyLock k c)) ++ R).
Proof.
  intros I Ht Hin. pose proof (own_learnt _ _ _ _ I) as L.
  eapply move_plain; [exact I|exact Ht| |exact L|by split].
  split; try done; simpl; auto.
  - apply (i_clock _ _ I).
  - intros k0 c0 Hc. destruct (decide ((k0, c0) = (k, c))) as [[= -> ->]|Hne].
    + right. right. split; [exact L|]. by rewrite !bool_decide_true.
    + left. by apply list_elem_of_filter.
  - intros k0 c0 [_ ?]%list_elem_of_filter ?. auto.
  - intros k0 c0 [_ ?]%list_elem_of_filter. auto.
  - intros k0 c0 [<-%bool_decide_eq_true <-%bool_decide_eq_true]%andb_prop. by right.
Qed.

Lemma run_other t R s k s' c :
  inv s (frame t (Some k) ++ R) → t ∉ R.*1 → waiter_of k = None →
  wait_step t (busy (frame t (Some k) ++ R) t) s k = Some (s', c) → post t k R s' c.
Proof.
  intros I Ht Hw Hs.
  pose proof (own_learnt _ _ _ _ I) as L. pose proof (i_clock _ _ I) as Hc.
  pose proof (own_ready _ _ _ _ I) as Hr. pose proof (own_internal _ _ _ _ I) as Hi.
  pose proof (held_le (ready_mutex_ s)) as Hr1. pose proof (held_le (internal_mutex_ s)) as Hi1.
  destruct k; try discriminate Hw;
  cbn [wait_step WaitByStrategy_step wait_until_impl_step wait_until_step wait_loop_step MakeReady_step
       request_stop_step] in Hs; unfold lock_ready, lock_internal in Hs;
  repeat case_match; simplify_eq.
  all: try (solve [split; [step_return I Ht|done]]).
  1, 3, 8: apply (move_plain t R s); [exact I|exact Ht| |exact L|by split];
    apply keeps_plain; simpl; solve [done | auto | mutexes].
  - by apply run_make_set.
  - apply (run_notify t R s MakeNotify); try done. by left.
  - by apply run_stop_set.
  - split; [by eapply run_stop_done|done].
  - eapply run_stop_next; [done..|].
    match goal with H : filter _ _ = (?x, ?y) :: _ |- _ =>
      assert ((x, y) ∈ filter (λ z, z.1 = k) (callbacks s)) as Hin by (rewrite H; apply list_elem_of_here) end.
    by apply list_elem_of_filter in Hin as [<- ?].
  - apply (run_notify t R s (StopNotify k c0)); try done. by left.
Qed.

Lemma wait_run_call t R s k s' c :
  inv s (frame t (Some k) ++ R) → t ∉ R.*1 →
  wait_step t (busy (frame t (Some k) ++ R) t) s k = Some (s', c) → post t k R s' c.
Proof. intros I Ht. destruct (waiter_of k) as [w|] eqn:E; [by eapply run_waiter|by apply run_other]. Qed.

Lemma wait_step_grows t b s k s' c : wait_step t b s k = Some (s', c) → grows s s'.
Proof.
  destruct k; cbn; unfold lock_ready, lock_internal; intros H;
    repeat case_match; simplify_eq; try done; split; simpl; try done; set_solver.
Qed.

(** ** Reachable systems *)

Lemma busy_perm (F F' : list (nat * call)) t : F ≡ₚ F' → busy F t = busy F' t.
Proof.
  intros HF. unfold busy. apply eq_true_iff_eq. rewrite !existsb_exists.
  setoid_rewrite <- list_elem_of_In. setoid_rewrite HF. done.
Qed.

Lemma good_run σ t k above below s c :
  good σ → calls σ = above ++ (t, k) :: below →
  wait_step t (busy (calls σ) t) (shared σ) k = Some (s, c) → good (resume σ t k above below s c).
Proof.
  intros [I Hres] E Hs. pose proof (wait_step_grows _ _ _ _ _ _ Hs) as G.
  assert (∀ x, x ∈ results σ → result_ok s x) as Hres' by eauto using result_ok_grows.
  assert (calls σ ≡ₚ frame t (Some k) ++ (above ++ below)) as HF by (by rewrite E, calls_middle).
  rewrite HF in I. rewrite (busy_perm _ _ t HF) in Hs.
  assert (t ∉ (above ++ below).*1) as Ht by (by apply i_threads, NoDup_cons in I as [? _]).
  pose proof (wait_run_call _ _ _ _ _ _ I Ht Hs) as P. destruct c as [k'|k'|r]; cbn [post resume] in *.
  - split; [|done]. cbn [calls shared]. by rewrite calls_middle.
  - split; [|done]. cbn [calls shared]. by rewrite calls_middle, <- fmap_app.
  - destruct P as [P Pr]. split; [done|]. cbn [results shared].
    destruct (waiter_of k) as [w|], r as [r|]; try done.
    intros x [?| ->%list_elem_of_singleton]%elem_of_app; auto.
Qed.

Lemma good_wake σ t w above below :
  good σ → calls σ = above ++ (t, WaitSleep w false) :: below →
  good {| shared := shared σ; calls := above ++ (t, WaitSleep w true) :: below; results := results σ |}.
Proof.
  intros [I Hres] E. split; [|done]. cbn [shared calls].
  rewrite E, calls_middle in I. rewrite calls_middle.
  assert (t ∉ (above ++ below).*1) as Ht by (by apply i_threads, NoDup_cons in I as [? _]).
  apply (move_plain t _ (shared σ) (WaitSleep w false)); [exact I|exact Ht| |done|].
  - apply keeps_plain; simpl; solve [done | auto | apply (i_clock _ _ I)].
  - apply (relies_plain t _ (shared σ) (WaitSleep w false)); try done; [exact (own_relies t _ _ _ I)|by left].
Qed.

Lemma good_clock σ n :
  good σ → good {| shared := set_clock n (shared σ); calls := calls σ; results := results σ |}.
Proof.
  intros [I Hres].
  assert (grows (shared σ) (set_clock n (shared σ))) as G by (split; simpl; [done|done|lia]).
  split; cbn [shared calls results]; [|eauto using result_ok_grows].
  destruct I as [H1 Hc H2 H3 H4 H5 H6 H7]. split; try done; [simpl; lia|eauto using learnt_grows|].
  intros t k Hin. destruct (H5 t k Hin). by split.
Qed.

Lemma good_start σ t k :
  good σ → starts k = true → t ∉ (calls σ).*1 →
  good {| shared := shared σ; calls := (t, k) :: calls σ; results := results σ |}.
Proof.
  intros [I Hres] Hk Ht. split; [|done]. cbn [shared calls].
  apply (inv_change t (calls σ) (shared σ) None (shared σ) (Some k)); [|exact I|exact Ht|].
  - split; try done; auto; [apply (i_clock _ _ I)|..]; try (by destruct k); by intros ? (? & ? & _).
  - intros k' [= <-]. destruct k; try done; (split; [done|by split]).
Qed.

Lemma wait_reachable_good σ : reachable σ → good σ.
Proof.
  unfold reachable. apply (rtc_ind_r good).
  - split; [|by intros ? ?%elem_of_nil]. split; simpl; try done; try (by intros ? ? ?%elem_of_nil); [constructor|].
    intros k c [?%elem_of_nil|H]; [done|by apply Nat.nlt_0_r in H].
  - intros σ1 σ2 _ [] G; [by eapply good_run|by eapply good_wake|by apply good_clock|by apply good_start].
Qed.

(** ** Theorems *)

(** What the result of a wait says: success is returned only when the state is
    ready, [kStopRequested] only when a stop was requested at the token of the
    waiter, and [kTimeout] only by a wait with a point in time, which the clock
    has reached. *)
Theorem wait_results σ w r :
  reachable σ → (w, r) ∈ results σ →
  match r with
  | Success => ready_ (shared σ) = true
  | kStopRequested => token w ∈ stops (shared σ)
  | kTimeout => ∃ d, abs_time w = Some d ∧ (d ≤ latest (shared σ))%nat
  end.
Proof. intros G%wait_reachable_good H. apply (g_results _ G) in H. by destruct r. Qed.

(** C16: No wake-up is lost: while a thread sleeps that was not notified, the state
    becomes ready only through a thread that is about to notify it, and when a
    stop is requested at its token, a thread is calling the callbacks of the
    token, and the callback of the sleeping thread is the one it is calling or
    is still registered. *)
Theorem wait_no_lost_wakeup σ t w :
  reachable σ → (t, WaitSleep w false) ∈ calls σ →
  (ready_ (shared σ) = true → ∃ t' k', (t', k') ∈ calls σ ∧ notifying k' = true) ∧
  (token w ∈ stops (shared σ) →
   ∃ t' k', (t', k') ∈ calls σ ∧ stopping (token w) k' = true ∧
     ((token w, t) ∈ callbacks (shared σ) ∨ calling (token w) t k' = true)).
Proof.
  intros [I _]%wait_reachable_good Hin. pose proof (i_relies _ _ I _ _ Hin) as H. split.
  - intros Hr. apply count_pos. by apply (r_sleepy _ _ _ _ H).
  - intros Hs. destruct (r_armed _ _ _ _ H w eq_refl eq_refl) as [Hc|Hc].
    + destruct (count_pos _ _ (i_stopping _ _ I _ _ Hc Hs)) as (t' & k' & ? & ?). exists t', k'. auto.
    + destruct (count_pos _ _ Hc) as (t' & k' & ? & E). exists t', k'. split_and!; [done| |by right].
      destruct k'; try done; simpl in E |- *; by apply andb_prop in E as [? _].
Qed.

(** A callback is not called after its destructor: a thread that calls the
    callback of a wait finds this wait between the constructor and the end of
    the destructor of its callback. *)
Theorem wait_callback_alive σ t k k0 c :
  reachable σ → (t, k) ∈ calls σ → calling k0 c k = true →
  ∃ kc w, (c, kc) ∈ calls σ ∧ registered kc = Some w ∧ token w = k0.
Proof.
  intros [I _]%wait_reachable_good Hin Hc. apply (i_alive _ _ I). right.
  destruct (decide (count (calling k0 c) (calls σ) = 0)%nat) as [Hz|]; [|lia].
  by rewrite (count_zero _ _ _ _ Hz Hin) in Hc.
Qed.

Section Stuck.
Context (σ : system) (I : inv (shared σ) (calls σ)).
Context (Hstuck : ∀ t k, (t, k) ∈ calls σ → wait_step t (busy (calls σ) t) (shared σ) k = None).

Lemma held_holder (P : call → bool) m :
  count P (calls σ) = held m → m = None ∨ ∃ t k, (t, k) ∈ calls σ ∧ P k = true.
Proof. destruct m; [|by left]. intros H. right. apply count_pos. simpl in H. lia. Qed.

Lemma stuck_internal : internal_mutex_ (shared σ) = None.
Proof using Hstuck I.
  destruct (held_holder _ _ (i_internal _ _ I)) as [?|(t & k & Hin & Hk)]; [done|].
  apply Hstuck in Hin. destruct k; try done; simpl in Hin; by repeat case_match.
Qed.

Lemma stuck_not_busy t : busy (calls σ) t = false.
Proof using Hstuck I.
  apply not_true_iff_false. intros (k & Hin & Hk)%existsb_exists.
  apply list_elem_of_In, list_elem_of_fmap in Hin as ([t' k'] & -> & Hin). apply Hstuck in Hin.
  destruct k'; try done; simpl in Hin. unfold lock_internal in Hin. by rewrite stuck_internal in Hin.
Qed.

Lemma stuck_ready : ready_mutex_ (shared σ) = None.
Proof using Hstuck I.
  destruct (held_holder _ _ (i_ready _ _ I)) as [?|(t & k & Hin & Hk)]; [done|].
  apply Hstuck in Hin. rewrite stuck_not_busy in Hin.
  destruct k; try done; simpl in Hin; unfold lock_internal in Hin;
    rewrite ?stuck_internal in Hin; by repeat case_match.
Qed.

Lemma stuck_sleeps t k : (t, k) ∈ calls σ → ∃ w, k = WaitSleep w false.
Proof using Hstuck I.
  intros Hin. apply Hstuck in Hin. rewrite stuck_not_busy in Hin.
  destruct k; simpl in Hin; unfold lock_internal, lock_ready in Hin;
    rewrite ?stuck_internal, ?stuck_ready in Hin; try done.
  destruct notified; [done|eauto].
Qed.

End Stuck.

(** C18: Progress: when no thread can continue, all calls are waits that sleep, the
    state is not ready and no stop was requested at their tokens.  So the two
    mutexes and the destructor of the callbacks never block each other, and a
    wait ends once the state is ready or a stop is requested. *)
Theorem wait_progress σ :
  reachable σ →
  (∀ t k, (t, k) ∈ calls σ → wait_step t (busy (calls σ) t) (shared σ) k = None) →
  ∀ t k, (t, k) ∈ calls σ →
    ∃ w, k = WaitSleep w false ∧ ready_ (shared σ) = false ∧ token w ∉ stops (shared σ).
Proof.
  intros [I _]%wait_reachable_good Hstuck t k Hin.
  pose proof (stuck_sleeps σ I Hstuck) as Hall.
  destruct (Hall t k Hin) as [w ->]. pose proof (i_relies _ _ I _ _ Hin) as H.
  exists w. split_and!; [done|..].
  - apply not_true_iff_false. intros Hr.
    destruct (count_pos _ _ (r_sleepy _ _ _ _ H eq_refl Hr)) as (t' & k' & Hin' & Hk).
    by destruct (Hall _ _ Hin') as [? ->].
  - intros Hs. destruct (r_armed _ _ _ _ H w eq_refl eq_refl) as [Hc|Hc].
    + destruct (count_pos _ _ (i_stopping _ _ I _ _ Hc Hs)) as (t' & k' & Hin' & Hk).
      by destruct (Hall _ _ Hin') as [? ->].
    + destruct (count_pos _ _ Hc) as (t' & k' & Hin' & Hk). by destruct (Hall _ _ Hin') as [? ->].
Qed.

(** ** Executions *)

Definition w0 : waiter := {| token := 0; abs_time := None |}.
Definition w1 : waiter := {| token := 0; abs_time := Some 5%nat |}.

(** Thread [t] waits until it sleeps. *)
Definition to_sleep (t : nat) (w : waiter) : list action :=
  Start t (WaitReady w) :: replicate (if timed w then 11 else 10) (Run t).

(** A wait that ends because of its point in time. *)
Definition timeout_schedule : list action :=
  to_sleep 1 w1 ++ [Clock 6; Wake 1] ++ replicate 8 (Run 1).

(** Two threads sleep, the state becomes ready and a stop is requested; the
    thread that requests the stop is in the callback of the first thread. *)
Definition wakeup_schedule : list action :=
  to_sleep 1 w0 ++ to_sleep 2 w1 ++ [Start 3 MakeLock; Run 3; Run 3; Start 4 (StopSet 0); Run 4; Run 4].

Definition run_schedule (l : list action) : system := default initial (schedule initial l).

Lemma run_schedule_reachable l : schedule initial l ≠ None → reachable (run_schedule l).
Proof.
  unfold run_schedule. destruct (schedule initial l) eqn:H; [|done]. intros _. by eapply wait_schedule_reachable.
Qed.

Lemma wait_results_witness :
  (w1, kTimeout) ∈ results (run_schedule timeout_schedule) ∧
  ∃ d, abs_time w1 = Some d ∧ (d ≤ latest (shared (run_schedule timeout_schedule)))%nat.
Proof.
  assert ((w1, kTimeout) ∈ results (run_schedule timeout_schedule)) as H.
  { replace (results (run_schedule timeout_schedule)) with [(w1, kTimeout)] by (by vm_compute).
    by apply list_elem_of_singleton. }
  split; [exact H|]. apply (wait_results (run_schedule timeout_schedule) w1 kTimeout); [|exact H].
  apply run_schedule_reachable. by vm_compute.
Defined.

Lemma wait_no_lost_wakeup_witness :
  let σ := run_schedule wakeup_schedule in
  ready_ (shared σ) = true ∧ 0%nat ∈ stops (shared σ) ∧
  (∃ t' k', (t', k') ∈ calls σ ∧ notifying k' = true) ∧
  ∃ t' k', (t', k') ∈ calls σ ∧ stopping 0 k' = true ∧
    ((0, 2)%nat ∈ callbacks (shared σ) ∨ calling 0 2 k' = true).
Proof.
  intros σ. assert (ready_ (shared σ) = true) as Hr by by vm_compute.
  assert (0%nat ∈ stops (shared σ)) as Hs by (by apply stop_requested_spec; vm_compute).
  assert (reachable σ) as Hσ by (apply run_schedule_reachable; by vm_compute).
  assert ((2%nat, WaitSleep w1 false) ∈ calls σ) as Hin.
  { replace (calls σ) with [(4%nat, StopNotifyLock 0 1); (3%nat, MakeNotifyLock);
      (2%nat, WaitSleep w1 false); (1%nat, WaitSleep w0 false)] by (by vm_compute).
    by do 2 apply list_elem_of_further; apply list_elem_of_here. }
  destruct (wait_no_lost_wakeup σ 2 w1 Hσ Hin) as [H1 H2].
  split_and!; [exact Hr|exact Hs|exact (H1 Hr)|exact (H2 Hs)].
Defined.

Lemma wait_callback_alive_witness :
  let σ := run_schedule wakeup_schedule in
  (4%nat, StopNotifyLock 0 1) ∈ calls σ ∧
  ∃ kc w, (1%nat, kc) ∈ calls σ ∧ registered kc = Some w ∧ token w = 0%nat.
Proof.
  intros σ. assert ((4%nat, StopNotifyLock 0 1) ∈ calls σ) as Hin.
  { replace (calls σ) with ((4%nat, StopNotifyLock 0 1) :: tail (calls σ)) by (by vm_compute).
    apply list_elem_of_here. }
  split; [exact Hin|].
  apply (wait_callback_alive σ 4 (StopNotifyLock 0 1) 0 1); [|exact Hin|reflexivity].
  apply run_schedule_reachable. by vm_compute.
Defined.

Lemma wait_progress_witness :
  let σ := run_schedule (to_sleep 1 w0) in
  (1%nat, WaitSleep w0 false) ∈ calls σ ∧
  ∃ w, WaitSleep w0 false = WaitSleep w false ∧ ready_ (shared σ) = false ∧ token w ∉ stops (shared σ).
Proof.
  intros σ. assert (calls σ = [(1%nat, WaitSleep w0 false)]) as E by by vm_compute.
  assert ((1%nat, WaitSleep w0 false) ∈ calls σ) as Hin by (rewrite E; by apply list_elem_of_singleton).
  split; [exact Hin|]. apply (wait_progress σ) with (t := 1%nat); [|clear Hin|exact Hin].
  - apply run_schedule_reachable. by vm_compute.
  - intros t k Hin. rewrite E in Hin. by apply list_elem_of_singleton in Hin as [= -> ->].
Defined.

End InterruptibleWaitSpec.
