(* ===== verification/ThreadPool.v ===== *)
(** * Thread pools: concurrency/thread_pool.cpp

    [ThreadPool] with its worker threads, its queue, and the threads that call
    [Enqueue] and [Shutdown], which may be the workers themselves: a task is code
    of the client, and calls the pool again while it runs.  A step of a thread is
    an acquisition of the mutex, or what it does between two accesses to atomic
    variables and mutexes.

    The condition variable is used through its contract (InterruptibleWait.v):
    [wait] returns when the predicate holds or a stop was requested, else it
    releases the mutex and sleeps in one step, and wakes up when it is notified,
    when a stop is requested, or for no reason.  The first request of a stop for a
    task runs its stop callbacks, in the thread that makes the request; they are
    code of the client, and may call the pool as well. *)

From stdpp Require Import gmap relations.
From S2P Require Import Prelude CallStacks.

Module ThreadPool.
Import CallStacks.

(** ** State *)

(** The members, the stop sources of the tasks and of the worker threads for
    which a stop was requested, and what happened: the tasks in the order in
    which they were queued, in the order in which workers took them, those
    that were invoked, the workers that a shutdown has passed, and whether a
    shutdown has returned. *)
Record state := {
  shutdown_reqested_ : bool;
  queue_mutex_ : option nat;
  queue_ : list nat;
  active_ : list (option nat);
  stopped : gset nat;
  worker_stops : gset nat;
  accepted : list nat;
  taken : list nat;
  invoked : list nat;
  swept : gset nat;
  down : bool;
}.

Definition initial_state (number_of_threads : nat) : state :=
  {| shutdown_reqested_ := false; queue_mutex_ := None; queue_ := []; active_ := replicate number_of_threads None;
     stopped := ∅; worker_stops := ∅; accepted := []; taken := []; invoked := []; swept := ∅; down := false |}.

Definition set_shutdown (s : state) : state :=
  {| shutdown_reqested_ := true; queue_mutex_ := queue_mutex_ s; queue_ := queue_ s; active_ := active_ s;
     stopped := stopped s; worker_stops := worker_stops s; accepted := accepted s; taken := taken s;
     invoked := invoked s; swept := swept s; down := down s |}.
Definition set_mutex (m : option nat) (s : state) : state :=
  {| shutdown_reqested_ := shutdown_reqested_ s; queue_mutex_ := m; queue_ := queue_ s; active_ := active_ s;
     stopped := stopped s; worker_stops := worker_stops s; accepted := accepted s; taken := taken s;
     invoked := invoked s; swept := swept s; down := down s |}.
Definition queue_emplace_back (task : nat) (s : state) : state :=
  {| shutdown_reqested_ := shutdown_reqested_ s; queue_mutex_ := queue_mutex_ s; queue_ := queue_ s ++ [task];
     active_ := active_ s; stopped := stopped s; worker_stops := worker_stops s;
     accepted := accepted s ++ [task]; taken := taken s; invoked := invoked s; swept := swept s; down := down s |}.
Definition pop_front (task : nat) (q : list nat) (s : state) : state :=
  {| shutdown_reqested_ := shutdown_reqested_ s; queue_mutex_ := queue_mutex_ s; queue_ := q; active_ := active_ s;
     stopped := stopped s; worker_stops := worker_stops s; accepted := accepted s; taken := taken s ++ [task];
     invoked := invoked s; swept := swept s; down := down s |}.
Definition set_active (n : nat) (a : option nat) (s : state) : state :=
  {| shutdown_reqested_ := shutdown_reqested_ s; queue_mutex_ := queue_mutex_ s; queue_ := queue_ s;
     active_ := <[n := a]> (active_ s); stopped := stopped s; worker_stops := worker_stops s;
     accepted := accepted s; taken := taken s; invoked := invoked s; swept := swept s; down := down s |}.
(** [request_stop] of the stop source of a task; that of no task has no effect. *)
Definition request_stop (a : option nat) (s : state) : state :=
  {| shutdown_reqested_ := shutdown_reqested_ s; queue_mutex_ := queue_mutex_ s; queue_ := queue_ s;
     active_ := active_ s; stopped := match a with Some task => {[task]} ∪ stopped s | None => stopped s end;
     worker_stops := worker_stops s; accepted := accepted s; taken := taken s; invoked := invoked s;
     swept := swept s; down := down s |}.
Definition pass (i : nat) (s : state) : state :=
  {| shutdown_reqested_ := shutdown_reqested_ s; queue_mutex_ := queue_mutex_ s; queue_ := queue_ s;
     active_ := active_ s; stopped := stopped s; worker_stops := worker_stops s; accepted := accepted s;
     taken := taken s; invoked := invoked s; swept := {[i]} ∪ swept s; down := down s |}.
Definition stop_worker (i : nat) (s : state) : state :=
  {| shutdown_reqested_ := shutdown_reqested_ s; queue_mutex_ := queue_mutex_ s; queue_ := queue_ s;
     active_ := active_ s; stopped := stopped s; worker_stops := {[i]} ∪ worker_stops s; accepted := accepted s;
     taken := taken s; invoked := invoked s; swept := swept s; down := down s |}.
Definition invoke (task : nat) (s : state) : state :=
  {| shutdown_reqested_ := shutdown_reqested_ s; queue_mutex_ := queue_mutex_ s; queue_ := queue_ s;
     active_ := active_ s; stopped := stopped s; worker_stops := worker_stops s; accepted := accepted s;
     taken := taken s; invoked := invoked s ++ [task]; swept := swept s; down := down s |}.
Definition set_down (s : state) : state :=
  {| shutdown_reqested_ := shutdown_reqested_ s; queue_mutex_ := queue_mutex_ s; queue_ := queue_ s;
     active_ := active_ s; stopped := stopped s; worker_stops := worker_stops s; accepted := accepted s;
     taken := taken s; invoked := invoked s; swept := swept s; down := true |}.

(** ** Calls *)

(** Where a worker is in [Work]; the comment is what it does next. *)
Inductive work :=
| WorkLock                        (* lock{queue_mutex_} *)
| WorkLoop                        (* while (!stop_requested() || !queue_.empty()) *)
| WorkWait                        (* condition_.wait *)
| WorkSleep (notified : bool)
| WorkTake                        (* front, pop_front *)
| WorkActive (task : nat)         (* active_.at(thread_number) = task->GetStopSource() *)
| WorkUnlock (task : nat)         (* lock.unlock() *)
| WorkExecute (task : nat)        (* Execute: if (ShutdownRequested()) *)
| WorkRequest (task : nat)        (* request_stop() *)
| WorkStopping (task : nat)       (* the stop callbacks of the task *)
| WorkInvoke (task : nat)         (* std::invoke *)
| WorkRunning (task : nat)        (* the code of the task *)
| WorkRelock                      (* lock.lock() *)
| WorkClear                       (* active_.at(thread_number) = stop_source{} *)
| WorkEnded.

(** Where a thread is in [Enqueue] or [InternalShutdown]. *)
Inductive call :=
| EnqueueLock (task : nat)        (* lock{queue_mutex_} *)
| EnqueueCheck (task : nat)       (* if (ShutdownRequested()) *)
| EnqueuePush (task : nat)        (* queue_.emplace_back *)
| EnqueueNotify                   (* condition_.notify_one() *)
| EnqueueReturn                   (* unlock *)
| EnqueueUnlock (task : nat)      (* lock.unlock() *)
| EnqueueExecute (task : nat)     (* Execute: if (ShutdownRequested()) *)
| EnqueueRequest (task : nat)     (* request_stop() *)
| EnqueueStopping (task : nat)    (* the stop callbacks of the task *)
| EnqueueInvoke (task : nat)      (* std::invoke *)
| EnqueueRunning (task : nat)     (* the code of the task *)
| ShutdownStore                   (* shutdown_reqested_.store(true) *)
| ShutdownLock                    (* lock{queue_mutex_} *)
| ShutdownActive (i : nat)        (* active_[i].request_stop() *)
| ShutdownStopping (i : nat)      (* the stop callbacks of the i-th active task, with the mutex locked *)
| ShutdownWorker (i : nat)        (* pool_[i].request_stop() *)
| ShutdownUnlock.                 (* unlock *)

Inductive control :=
| Continue (k : call)
| ContinueNotify (k : call)           (* after notify_one *)
| ContinueStop (i : nat) (k : call)   (* after the stop callback of worker i *)
| Returned.

Definition lock {K} (t : nat) (s : state) (k : K) : outcome (option (state * K)) :=
  Ret (match queue_mutex_ s with None => Some (set_mutex (Some t) s, k) | Some _ => None end).

(** Whether a request of a stop is the first one for this task. *)
Definition first_request (a : option nat) (s : state) : bool :=
  match a with Some task => bool_decide (task ∉ stopped s) | None => false end.

(** [active_.at(n) = a] *)
Definition active_at (n : nat) (a : option nat) (s : state) : outcome state :=
  if decide (n < length (active_ s))%nat then Ret (set_active n a s) else Aborted.

Definition stop_requested (n : nat) (s : state) : bool := bool_decide (n ∈ worker_stops s).

Definition empty (s : state) : bool := match queue_ s with [] => true | _ => false end.

(** One step of worker [n], [None] if it cannot make one. *)
Definition Work_step (n : nat) (s : state) (k : work) : outcome (option (state * work)) :=
  match k with
  | WorkLock => lock n s WorkLoop
  | WorkLoop =>
      Ret (Some (if negb (stop_requested n s) || negb (empty s) then (s, WorkWait) else (set_mutex None s, WorkEnded)))
  | WorkWait =>
      Ret (Some (if stop_requested n s || negb (empty s) then (s, WorkTake) else (set_mutex None s, WorkSleep false)))
  | WorkSleep true => lock n s WorkWait
  | WorkSleep false => Ret None
  | WorkTake =>
      Ret (Some (match queue_ s with [] => (s, WorkLoop) | task :: q => (pop_front task q s, WorkActive task) end))
  | WorkActive task => s ← active_at n (Some task) s; Ret (Some (s, WorkUnlock task))
  | WorkUnlock task => Ret (Some (set_mutex None s, WorkExecute task))
  | WorkExecute task => Ret (Some (s, if shutdown_reqested_ s then WorkRequest task else WorkInvoke task))
  | WorkRequest task =>
      Ret (Some (request_stop (Some task) s, if first_request (Some task) s then WorkStopping task else WorkInvoke task))
  | WorkStopping _ => Ret None
  | WorkInvoke task => Ret (Some (invoke task s, WorkRunning task))
  | WorkRunning _ => Ret None
  | WorkRelock => lock n s WorkClear
  | WorkClear => s ← active_at n None s; Ret (Some (s, WorkLoop))
  | WorkEnded => Ret None
  end.

Definition Enqueue_step (t : nat) (s : state) (k : call) : outcome (option (state * control)) :=
  match k with
  | EnqueueLock task => lock t s (Continue (EnqueueCheck task))
  | EnqueueCheck task =>
      Ret (Some (s, Continue (if shutdown_reqested_ s then EnqueueUnlock task else EnqueuePush task)))
  | EnqueuePush task => Ret (Some (queue_emplace_back task s, Continue EnqueueNotify))
  | EnqueueNotify => Ret (Some (s, ContinueNotify EnqueueReturn))
  | EnqueueReturn => Ret (Some (set_mutex None s, Returned))
  | EnqueueUnlock task => Ret (Some (set_mutex None s, Continue (EnqueueExecute task)))
  | EnqueueExecute task =>
      Ret (Some (s, Continue (if shutdown_reqested_ s then EnqueueRequest task else EnqueueInvoke task)))
  | EnqueueRequest task =>
      Ret (Some (request_stop (Some task) s,
                 Continue (if first_request (Some task) s then EnqueueStopping task else EnqueueInvoke task)))
  | EnqueueInvoke task => Ret (Some (invoke task s, Continue (EnqueueRunning task)))
  | _ => Ret None
  end.

Definition InternalShutdown_step (t : nat) (s : state) (k : call) : outcome (option (state * control)) :=
  match k with
  | ShutdownStore => Ret (Some (set_shutdown s, Continue ShutdownLock))
  | ShutdownLock => lock t s (Continue (ShutdownActive 0))
  | ShutdownActive i =>
      Ret (Some (match active_ s !! i with
                 | Some a =>
                     (pass i (request_stop a s),
                      Continue (if first_request a s then ShutdownStopping i else ShutdownActive (S i)))
                 | None => (s, Continue (ShutdownWorker 0))
                 end))
  | ShutdownWorker i =>
      Ret (Some (if decide (i < length (active_ s))%nat
                 then (stop_worker i s,
                       if stop_requested i s then Continue (ShutdownWorker (S i)) else ContinueStop i (ShutdownWorker (S i)))
                 else (s, Continue ShutdownUnlock)))
  | ShutdownUnlock => Ret (Some (set_down (set_mutex None s), Returned))
  | _ => Ret None
  end.

Definition call_step (t : nat) (s : state) (k : call) : outcome (option (state * control)) :=
  match k with
  | ShutdownStore | ShutdownLock | ShutdownActive _ | ShutdownStopping _ | ShutdownWorker _ | ShutdownUnlock =>
      InternalShutdown_step t s k
  | _ => Enqueue_step t s k
  end.

(** ** The system *)

(** Worker [n] is thread [n]; [calls] are the active calls of all threads, those
    of running tasks included; [submitted] are the tasks given to [Enqueue]. *)
Record system := {
  shared : state;
  workers : list work;
  calls : list (nat * call);
  submitted : list nat;
}.

Definition InitializeThreads (number_of_threads : nat) : system :=
  {| shared := initial_state number_of_threads; workers := replicate number_of_threads WorkLock; calls := [];
     submitted := [] |}.

Definition is_client (k : call) : bool :=
  match k with EnqueueRunning _ | EnqueueStopping _ | ShutdownStopping _ => true | _ => false end.

(** Where a call goes on when the code of the client returns. *)
Definition client_return (k : call) : option control :=
  match k with
  | EnqueueRunning _ => Some Returned
  | EnqueueStopping task => Some (Continue (EnqueueInvoke task))
  | ShutdownStopping i => Some (Continue (ShutdownActive (S i)))
  | _ => None
  end.

Definition work_return (k : work) : option work :=
  match k with WorkRunning _ => Some WorkRelock | WorkStopping task => Some (WorkInvoke task) | _ => None end.

(** Thread [t] runs code of the client, and may call the pool. *)
Definition client (σ : system) (t : nat) : Prop :=
  in_client is_client (calls σ) t ∧
  match workers σ !! t with None => True | Some k => is_Some (work_return k) end.

Definition asleep (k : work) : bool := match k with WorkSleep false => true | _ => false end.

Definition wake (k : work) : work := match k with WorkSleep _ => WorkSleep true | _ => k end.

(** The workers after a notification; [w] is the one that [notify_one] wakes up. *)
Definition notified_workers (c : control) (w : option nat) (ws : list work) : list work :=
  match c with
  | ContinueNotify _ => match w with Some n => alter wake n ws | None => ws end
  | ContinueStop i _ => match ws !! i with Some (WorkSleep _) => wake <$> ws | _ => ws end
  | _ => ws
  end.

(** [notify_one] wakes up a thread that sleeps, if there is one. *)
Definition wakes (c : control) (w : option nat) (ws : list work) : Prop :=
  match c with
  | ContinueNotify _ =>
      match w with Some n => ws !! n = Some (WorkSleep false) | None => Forall (λ k, asleep k = false) ws end
  | _ => w = None
  end.

Definition next_calls (t : nat) (c : control) : list (nat * call) :=
  match c with Continue k | ContinueNotify k | ContinueStop _ k => [(t, k)] | Returned => [] end.

Inductive step (σ : system) : system → Prop :=
| step_work n k s k' :
    workers σ !! n = Some k → Work_step n (shared σ) k = Ret (Some (s, k')) →
    step σ {| shared := s; workers := <[n := k']> (workers σ); calls := calls σ; submitted := submitted σ |}
| step_wake n :   (* a spurious wake-up *)
    workers σ !! n = Some (WorkSleep false) →
    step σ {| shared := shared σ; workers := <[n := WorkSleep true]> (workers σ); calls := calls σ;
              submitted := submitted σ |}
| step_work_return n k k' :
    workers σ !! n = Some k → work_return k = Some k' → n ∉ (calls σ).*1 →
    step σ {| shared := shared σ; workers := <[n := k']> (workers σ); calls := calls σ;
              submitted := submitted σ |}
| step_call t k above below s c w :
    calls σ = above ++ (t, k) :: below → t ∉ above.*1 →
    call_step t (shared σ) k = Ret (Some (s, c)) → wakes c w (workers σ) →
    step σ {| shared := s; workers := notified_workers c w (workers σ); calls := above ++ next_calls t c ++ below;
              submitted := submitted σ |}
| step_call_return t k c above below :
    calls σ = above ++ (t, k) :: below → t ∉ above.*1 → client_return k = Some c →
    step σ {| shared := shared σ; workers := workers σ; calls := above ++ next_calls t c ++ below;
              submitted := submitted σ |}
| step_enqueue t task :
    client σ t → task ∉ submitted σ →
    step σ {| shared := shared σ; workers := workers σ; calls := (t, EnqueueLock task) :: calls σ;
              submitted := task :: submitted σ |}
| step_shutdown t :
    client σ t →
    step σ {| shared := shared σ; workers := workers σ; calls := (t, ShutdownStore) :: calls σ;
              submitted := submitted σ |}.

Definition reachable (number_of_threads : nat) (σ : system) : Prop := rtc step (InitializeThreads number_of_threads) σ.

(** ** Executing a schedule *)

Inductive action :=
| RunWorker (n : nat)
| Wake (n : nat)
| ReturnWorker (n : nat)
| RunCall (t : nat) (w : option nat)
| ReturnCall (t : nat)
| Enqueue (t task : nat)
| Shutdown (t : nat).

Definition client_b (σ : system) (t : nat) : bool :=
  client_code is_client (calls σ) t &&
  match workers σ !! t with None => true | Some k => match work_return k with Some _ => true | None => false end end.

Definition wakes_b (c : control) (w : option nat) (ws : list work) : bool :=
  match c with
  | ContinueNotify _ =>
      match w with
      | Some n => match ws !! n with Some (WorkSleep false) => true | _ => false end
      | None => forallb (λ k, negb (asleep k)) ws
      end
  | _ => match w with None => true | Some _ => false end
  end.

Definition perform (σ : system) (a : action) : option system :=
  match a with
  | RunWorker n =>
      k ← workers σ !! n;
      match Work_step n (shared σ) k with
      | Ret (Some (s, k)) =>
          Some {| shared := s; workers := <[n := k]> (workers σ); calls := calls σ; submitted := submitted σ |}
      | _ => None
      end
  | Wake n =>
      match workers σ !! n with
      | Some (WorkSleep false) =>
          Some {| shared := shared σ; workers := <[n := WorkSleep true]> (workers σ); calls := calls σ;
                  submitted := submitted σ |}
      | _ => None
      end
  | ReturnWorker n =>
      k ← workers σ !! n;
      k ← work_return k;
      if decide (n ∉ (calls σ).*1)
      then Some {| shared := shared σ; workers := <[n := k]> (workers σ); calls := calls σ; submitted := submitted σ |}
      else None
  | RunCall t w =>
      '(above, k, below) ← split_top (calls σ) t;
      match call_step t (shared σ) k with
      | Ret (Some (s, c)) =>
          if wakes_b c w (workers σ)
          then Some {| shared := s; workers := notified_workers c w (workers σ);
                       calls := above ++ next_calls t c ++ below; submitted := submitted σ |}
          else None
      | _ => None
      end
  | ReturnCall t =>
      '(above, k, below) ← split_top (calls σ) t;
      c ← client_return k;
      Some {| shared := shared σ; workers := workers σ; calls := above ++ next_calls t c ++ below;
              submitted := submitted σ |}
  | Enqueue t task =>
      if client_b σ t && bool_decide (task ∉ submitted σ)
      then Some {| shared := shared σ; workers := workers σ; calls := (t, EnqueueLock task) :: calls σ;
                   submitted := task :: submitted σ |}
      else None
  | Shutdown t =>
      if client_b σ t
      then Some {| shared := shared σ; workers := workers σ; calls := (t, ShutdownStore) :: calls σ;
                   submitted := submitted σ |}
      else None
  end.

Fixpoint schedule (σ : system) (l : list action) : option system :=
  match l with [] => Some σ | a :: l => σ' ← perform σ a; schedule σ' l end.

Lemma client_b_client σ t : client_b σ t = true → client σ t.
Proof.
  unfold client_b, client. intros [H1 H2]%andb_true_iff. split; [by apply client_code_in_client|].
  destruct (workers σ !! t) as [k|]; [|done]. by destruct (work_return k).
Qed.

Lemma wakes_b_wakes c w ws : wakes_b c w ws = true → wakes c w ws.
Proof.
  unfold wakes_b, wakes. destruct c; try (by destruct w). destruct w as [n|].
  - by destruct (ws !! n) as [[| | |[]| | | | | | | | | | |]|].
  - rewrite forallb_forall, Forall_forall. intros H k0 Hk. apply negb_true_iff. by apply H, list_elem_of_In.
Qed.

Lemma pool_perform_step σ a σ' : perform σ a = Some σ' → step σ σ'.
Proof.
  destruct a as [n|n|n|t w|t|t x|t]; cbn [perform].
  - destruct (workers σ !! n) as [k|] eqn:En; [|done]. cbn [mbind option_bind].
    destruct (Work_step _ _ _) as [[[s k']|]| |] eqn:E; try done. intros [= <-]. by eapply step_work.
  - destruct (workers σ !! n) as [[| | |[]| | | | | | | | | | |]|] eqn:En; try done. intros [= <-]. by apply step_wake.
  - destruct (workers σ !! n) as [k|] eqn:En; [|done]. cbn [mbind option_bind].
    destruct (work_return k) as [k'|] eqn:Er; [|done]. cbn [mbind option_bind]. case_decide; [|done]. intros [= <-].
    by eapply step_work_return.
  - destruct (split_top (calls σ) t) as [[[above k] below]|] eqn:E; [|done]. cbn [mbind option_bind].
    apply split_top_Some in E as [E Ht]. destruct (call_step _ _ _) as [[[s c]|]| |] eqn:Ec; try done.
    destruct (wakes_b c w (workers σ)) eqn:Ew; [|done]. intros [= <-]. eapply step_call; try done. by apply wakes_b_wakes.
  - destruct (split_top (calls σ) t) as [[[above k] below]|] eqn:E; [|done]. cbn [mbind option_bind].
    apply split_top_Some in E as [E Ht]. destruct (client_return k) as [c|] eqn:Ec; [|done]. intros [= <-].
    by eapply step_call_return.
  - destruct (client_b σ t) eqn:Ec; [|done]. cbn [andb]. case_bool_decide; [|done]. intros [= <-].
    apply step_enqueue; [by apply client_b_client|done].
  - destruct (client_b σ t) eqn:Ec; [|done]. intros [= <-]. by apply step_shutdown, client_b_client.
Qed.

Lemma pool_schedule_reachable N l σ : schedule (InitializeThreads N) l = Some σ → reachable N σ.
Proof.
  unfold reachable. generalize (InitializeThreads N) as σ0. induction l as [|a l IH]; intros σ0; cbn [schedule].
  { intros [= ->]. constructor. }
  destruct (perform σ0 a) as [σ1|] eqn:E; [|done]. cbn [mbind option_bind]. intros H.
  eapply rtc_l; [by eapply pool_perform_step|by apply IH].
Qed.

End ThreadPool.
