(* ===== verification/ThreadPoolSpec.v ===== *)
(** * Thread pools: every task is executed once, and shutdowns reach every task

    Invariants of the system of ThreadPool.v for every interleaving, and the
    theorems on it. *)

From stdpp Require Import gmap relations.
From S2P Require Import Prelude CallStacks ThreadPool.

Module ThreadPoolSpec.
Import CallStacks ThreadPool.

(** ** What the calls hold *)

Definition holds_work (k : work) : bool :=
  match k with WorkLoop | WorkWait | WorkTake | WorkActive _ | WorkUnlock _ | WorkClear => true | _ => false end.

Definition holds_call (k : call) : bool :=
  match k with
  | EnqueueCheck _ | EnqueuePush _ | EnqueueNotify | EnqueueReturn | EnqueueUnlock _
  | ShutdownActive _ | ShutdownStopping _ | ShutdownWorker _ | ShutdownUnlock => true
  | _ => false
  end.

(** The task that a worker has taken and not yet invoked. *)
Definition work_task (k : work) : option nat :=
  match k with
  | WorkActive x | WorkUnlock x | WorkExecute x | WorkRequest x | WorkStopping x | WorkInvoke x => Some x
  | _ => None
  end.

Definition call_task (k : call) : option nat :=
  match k with
  | EnqueueLock x | EnqueueCheck x | EnqueuePush x | EnqueueUnlock x | EnqueueExecute x | EnqueueRequest x
  | EnqueueStopping x | EnqueueInvoke x => Some x
  | _ => None
  end.

Definition has_task (x : nat) (o : option nat) : bool := bool_decide (o = Some x).

(** The task of a worker whose stop source is active. *)
Definition executing (k : work) : option nat :=
  match k with
  | WorkUnlock x | WorkExecute x | WorkRequest x | WorkStopping x | WorkInvoke x | WorkRunning x => Some x
  | _ => None
  end.

(** The task of a worker that has seen the flag. *)
Definition past_check (k : work) : option nat :=
  match k with WorkStopping x | WorkInvoke x | WorkRunning x => Some x | _ => None end.

(** A worker that will look at the queue. *)
Definition awake (k : work) : bool :=
  match k with
  | WorkLock | WorkLoop | WorkWait | WorkSleep true | WorkTake | WorkRelock | WorkClear => true
  | _ => false
  end.

Definition notifying (k : call) : bool := match k with EnqueueNotify => true | _ => false end.

(** ** Counting workers and tasks *)

Definition cw (P : work → bool) (ws : list work) : nat := length (filter (λ k, P k = true) ws).
Definition occ (x : nat) (l : list nat) : nat := length (filter (λ y, y = x) l).

Lemma cw_cons P k ws : cw P (k :: ws) = (Nat.b2n (P k) + cw P ws)%nat.
Proof. unfold cw. rewrite filter_cons. destruct (P k); [by rewrite decide_True|by rewrite decide_False]. Qed.

Lemma cw_insert P ws n k k' : ws !! n = Some k →
  (cw P (<[n := k']> ws) + Nat.b2n (P k) = cw P ws + Nat.b2n (P k'))%nat.
Proof.
  revert n. induction ws as [|k0 ws IH]; intros [|n]; [done..| |].
  - intros [= ->]. change (<[0 := k']> (k :: ws))%nat with (k' :: ws). rewrite !cw_cons. lia.
  - intros Hn. change (<[S n := k']> (k0 :: ws))%nat with (k0 :: <[n := k']> ws). rewrite !cw_cons. specialize (IH n Hn). lia.
Qed.

Lemma cw_wake P ws : (∀ k, P (wake k) = P k) → cw P (wake <$> ws) = cw P ws.
Proof. intros HP. induction ws as [|k ws IH]; [done|]. rewrite fmap_cons, !cw_cons, HP, IH. done. Qed.

Lemma cw_wake_asleep ws : cw asleep (wake <$> ws) = 0%nat.
Proof. induction ws as [|k ws IH]; [done|]. rewrite fmap_cons, cw_cons, IH. by destruct k. Qed.

Lemma cw_zero P ws : Forall (λ k, P k = false) ws ↔ cw P ws = 0%nat.
Proof.
  induction ws as [|k ws IH]; [done|]. rewrite cw_cons, Forall_cons, IH. destruct (P k); simpl; naive_solver lia.
Qed.

Lemma cw_pos P ws n k : ws !! n = Some k → P k = true → (0 < cw P ws)%nat.
Proof.
  intros Hn Hk. destruct (decide (cw P ws = 0)%nat) as [Hz|]; [|lia]. apply cw_zero in Hz. rewrite Forall_lookup in Hz.
  by rewrite (Hz _ _ Hn) in Hk.
Qed.

Lemma cw_repeat P n k : P k = false → cw P (replicate n k) = 0%nat.
Proof. intros Hk. apply cw_zero, Forall_replicate. done. Qed.

Lemma occ_app x l l' : occ x (l ++ l') = (occ x l + occ x l')%nat.
Proof. unfold occ. by rewrite filter_app, length_app. Qed.

Lemma occ_cons x y l : occ x (y :: l) = ((if decide (y = x) then 1 else 0) + occ x l)%nat.
Proof. unfold occ. rewrite filter_cons. by case_decide. Qed.

Lemma occ_snoc x y l : occ x (l ++ [y]) = (occ x l + if decide (y = x) then 1 else 0)%nat.
Proof. rewrite occ_app, occ_cons. change (occ x []) with 0%nat. lia. Qed.

Lemma occ_zero x l : x ∉ l → occ x l = 0%nat.
Proof.
  intros Hx. unfold occ. destruct (filter _ l) as [|y l'] eqn:E; [done|].
  assert (y ∈ filter (λ y, y = x) l) as Hy by (rewrite E; apply list_elem_of_here).
  apply list_elem_of_filter in Hy as [-> ?]. done.
Qed.

Lemma occ_elem x l : x ∈ l → (1 ≤ occ x l)%nat.
Proof. intros (l1 & l2 & ->)%list_elem_of_split. rewrite occ_app, occ_cons, decide_True by done. lia. Qed.

Lemma occ_NoDup l : (∀ x, occ x l ≤ 1)%nat → NoDup l.
Proof.
  induction l as [|y l IH]; [by constructor|]. intros Ho. constructor.
  - intros Hy%occ_elem. specialize (Ho y). rewrite occ_cons, decide_True in Ho by done. lia.
  - apply IH. intros x. specialize (Ho x). rewrite occ_cons in Ho. lia.
Qed.

Lemma has_task_spec x o : Nat.b2n (has_task x o) = (match o with Some y => if decide (y = x) then 1 else 0 | None => 0 end)%nat.
Proof. unfold has_task. destruct o as [y|]; [|done]. case_bool_decide; case_decide; (done || congruence). Qed.

(** ** The invariant *)

Record work_ok (s : state) (n : nat) (k : work) : Prop := {
  w_active x : executing k = Some x → active_ s !! n = Some (Some x);
  w_swept x : n ∈ swept s → past_check k = Some x → x ∈ stopped s;
  w_asleep : asleep k = true → n ∉ worker_stops s;
  w_ended : k = WorkEnded → n ∈ worker_stops s ∧ queue_ s = [];
}.

Definition call_ok (s : state) (N : nat) (k : call) : Prop :=
  match k with
  | EnqueuePush _ => worker_stops s = ∅
  | EnqueueUnlock _ | EnqueueExecute _ | EnqueueRequest _ | ShutdownLock => shutdown_reqested_ s = true
  | EnqueueStopping x | EnqueueInvoke x | EnqueueRunning x => x ∈ stopped s
  | ShutdownActive i => shutdown_reqested_ s = true ∧ ∀ j, (j < i)%nat → j ∈ swept s
  | ShutdownStopping i => shutdown_reqested_ s = true ∧ ∀ j, (j ≤ i)%nat → j ∈ swept s
  | ShutdownWorker i =>
      shutdown_reqested_ s = true ∧ (∀ j, (j < N)%nat → j ∈ swept s) ∧ ∀ j, (j < i)%nat → j ∈ worker_stops s
  | ShutdownUnlock =>
      shutdown_reqested_ s = true ∧ (∀ j, (j < N)%nat → j ∈ swept s) ∧ ∀ j, (j < N)%nat → j ∈ worker_stops s
  | _ => True
  end.

Record state_ok (s : state) (N : nat) : Prop := {
  s_length : length (active_ s) = N;
  s_fifo : accepted s = taken s ++ queue_ s;
  s_flag : shutdown_reqested_ s = false → worker_stops s = ∅ ∧ swept s = ∅;
  s_down : down s = true → ∀ j, (j < N)%nat → j ∈ swept s ∧ j ∈ worker_stops s;
}.

Definition held (m : option nat) : nat := match m with Some _ => 1 | None => 0 end.

Record counts_ok (s : state) (ws : list work) (F : list (nat * call)) (sub : list nat) : Prop := {
  c_mutex : held (queue_mutex_ s) = (cw holds_work ws + count holds_call F)%nat;
  c_tasks x : occ x sub = (occ x (queue_ s) + cw (λ k, has_task x (work_task k)) ws +
    count (λ k, has_task x (call_task k)) F + occ x (invoked s))%nat;
  c_once x : (occ x sub ≤ 1)%nat;
  c_wake : cw asleep ws = 0%nat ∨ (length (queue_ s) ≤ cw awake ws + count notifying F)%nat;
}.

Record inv (σ : system) : Prop := {
  i_state : state_ok (shared σ) (length (workers σ));
  i_counts : counts_ok (shared σ) (workers σ) (calls σ) (submitted σ);
  i_work n k : workers σ !! n = Some k → work_ok (shared σ) n k;
  i_call t k : (t, k) ∈ calls σ → call_ok (shared σ) (length (workers σ)) k;
  i_stack : stacked is_client (calls σ);
}.

Lemma pool_inv_initial N : inv (InitializeThreads N).
Proof.
  split; cbn.
  - split; cbn; try done. by rewrite !length_replicate.
  - split; cbn; intros; rewrite ?cw_repeat by done; try done; [lia|by left].
  - intros n k [-> _]%lookup_replicate. by split.
  - by intros t k ?%elem_of_nil.
  - done.
Qed.

(** ** Frames *)

Record grows (s s' : state) : Prop := {
  g_flag : shutdown_reqested_ s = true → shutdown_reqested_ s' = true;
  g_stopped : stopped s ⊆ stopped s';
  g_stops : worker_stops s ⊆ worker_stops s';
  g_swept : swept s ⊆ swept s';
}.

Lemma call_ok_grows s s' N k : grows s s' → worker_stops s' = worker_stops s ∨ (∀ x, k ≠ EnqueuePush x) →
  call_ok s N k → call_ok s' N k.
Proof.
  intros [] Hp. destruct k; cbn in *; try done; try set_solver.
Qed.

Lemma work_ok_frame s s' n k : active_ s' !! n = active_ s !! n → swept s' = swept s → stopped s ⊆ stopped s' →
  worker_stops s' = worker_stops s → (queue_ s = [] → queue_ s' = []) → work_ok s n k → work_ok s' n k.
Proof.
  intros Ha Hs Hst Hw Hq []. split; rewrite ?Ha, ?Hs, ?Hw; try done.
  - intros x Hn Hx. apply Hst. by apply w_swept0.
  - intros Hk. destruct (w_ended0 Hk). auto.
Qed.

(** What a step of worker [n] from [k] to [k'] may change. *)
Record work_keeps (n : nat) (s : state) (k : work) (s' : state) (k' : work) : Prop := {
  k_flag : shutdown_reqested_ s' = shutdown_reqested_ s ∧ down s' = down s ∧ accepted s' = accepted s;
  k_sets : stopped s ⊆ stopped s' ∧ worker_stops s' = worker_stops s ∧ swept s' = swept s;
  k_active : length (active_ s') = length (active_ s) ∧ ∀ m, m ≠ n → active_ s' !! m = active_ s !! m;
  k_queue : taken s' ++ queue_ s' = taken s ++ queue_ s ∧ (queue_ s = [] → queue_ s' = []);
  k_mutex : (held (queue_mutex_ s') + Nat.b2n (holds_work k) = held (queue_mutex_ s) + Nat.b2n (holds_work k'))%nat;
  k_tasks x : (occ x (queue_ s') + Nat.b2n (has_task x (work_task k')) + occ x (invoked s') =
    occ x (queue_ s) + Nat.b2n (has_task x (work_task k)) + occ x (invoked s))%nat;
  k_wake : queue_ s' = [] ∨
    ((length (queue_ s') + Nat.b2n (awake k) ≤ length (queue_ s) + Nat.b2n (awake k')) ∧
     (Nat.b2n (asleep k') ≤ Nat.b2n (asleep k)))%nat;
  k_own : work_ok s' n k';
}.

Lemma inv_work σ n k s' k' : inv σ → workers σ !! n = Some k → work_keeps n (shared σ) k s' k' →
  inv {| shared := s'; workers := <[n := k']> (workers σ); calls := calls σ; submitted := submitted σ |}.
Proof.
  intros [[] [] Hw Hc Hst] Hn [(Hf & Hd & Hac) (Hs1 & Hs2 & Hs3) [Ha1 Ha2] [Hq1 Hq2] Hm Ht Hwk Hown].
  pose proof (λ P, cw_insert P (workers σ) n k k' Hn) as Hcw.
  split; cbn [shared workers calls submitted]; rewrite ?length_insert; try done.
  - split; rewrite ?Ha1, ?Hq1, ?Hf, ?Hd, ?Hac, ?Hs2, ?Hs3; done.
  - split; [|intros x|done|].
    + specialize (Hcw holds_work). lia.
    + specialize (Hcw (λ k, has_task x (work_task k))). specialize (Ht x). specialize (c_tasks0 x). cbv beta in *. lia.
    + pose proof (Hcw asleep). pose proof (Hcw awake). destruct Hwk as [->|[Hl Hz]]; [right; simpl; lia|].
      destruct c_wake0; [left|right]; lia.
  - intros m km. destruct (decide (n = m)) as [<-|Hne].
    + rewrite list_lookup_insert_eq by (by eapply lookup_lt_Some). by intros [= <-].
    + rewrite list_lookup_insert_ne by done. intros Hm'. eapply (work_ok_frame (shared σ)); try done; [by apply Ha2|by apply Hw].
  - intros t kc Hin. eapply (call_ok_grows (shared σ)); [|by left|by eapply Hc]. split; [congruence|set_solver..].
Qed.

Lemma pool_held_le m : (held m ≤ 1)%nat.
Proof. destruct m; simpl; lia. Qed.

Lemma lock_inv {K} t s (k : K) s' k' : lock t s k = Ret (Some (s', k')) →
  queue_mutex_ s = None ∧ s' = set_mutex (Some t) s ∧ k' = k.
Proof. unfold lock. destruct (queue_mutex_ s); [done|]. by intros [= <- <-]. Qed.

(** The holder of the mutex. *)
Lemma held_by_work σ n k : inv σ → workers σ !! n = Some k → holds_work k = true →
  queue_mutex_ (shared σ) ≠ None ∧ cw holds_work (workers σ) = 1%nat ∧ count holds_call (calls σ) = 0%nat.
Proof.
  intros [_ [] _ _ _] Hn Hk. pose proof (cw_pos holds_work _ _ _ Hn Hk). pose proof (pool_held_le (queue_mutex_ (shared σ))).
  destruct (queue_mutex_ (shared σ)); simpl in *; split_and!; (done || lia).
Qed.

(** The steps of a worker that has a task. *)
Lemma work_step_task σ n k s' k' : inv σ → workers σ !! n = Some k → work_task k ≠ None →
  Work_step n (shared σ) k = Ret (Some (s', k')) →
  work_keeps n (shared σ) k s' k'.
Proof.
  intros I Hn Hk. pose proof (i_work σ I n k Hn) as Hok. pose proof (i_state σ I) as [].
  pose proof (held_by_work σ n k I Hn) as Hheld. set (s := shared σ) in *.
  destruct k as [| | |[]| |x|x|x|x|x|x|x| | |]; cbn [Work_step work_task] in *; intros E; try done.
  - (* WorkActive *) unfold active_at in E. case_decide as Hl; [|done]. cbn in E. injection E as <- <-.
    split; cbn; try done; [|by right|].
    + split; [by rewrite length_insert|]. intros m Hne. by rewrite list_lookup_insert_ne.
    + split; cbn; try done. intros y [= ->]. by apply list_lookup_insert_eq.
  - (* WorkUnlock *) destruct (Hheld eq_refl) as [Hm _]. injection E as <- <-.
    split; cbn; try done; [destruct (queue_mutex_ s); (done || simpl; lia)|by right|]. destruct Hok. by split.
  - (* WorkExecute *) injection E as <- <-. destruct (shutdown_reqested_ s) eqn:Ef.
    + split; try done; [by right|]. destruct Hok. by split.
    + split; try done; [by right|]. destruct Hok. split; try done. intros y Hy. destruct s_flag0 as [_ Hsw]; [done|].
      rewrite Hsw in Hy. set_solver.
  - (* WorkRequest *) injection E as <- <-.
    assert (∀ k', k' = WorkStopping x ∨ k' = WorkInvoke x →
      work_keeps n s (WorkRequest x) (request_stop (Some x) s) k') as H; [|apply H; case_match; auto].
    intros k' [->| ->]; (split; cbn; try done; [set_solver|by right|]; destruct Hok; split; try done;
      cbn; intros y _ [= ->]; set_solver).
  - (* WorkInvoke *) injection E as <- <-. split; cbn -[has_task occ]; try done; [|by right|].
    + intros y. rewrite occ_snoc, !has_task_spec. cbn [work_task]. case_decide; simpl; lia.
    + destruct Hok. by split.
Qed.

Lemma work_step_idle σ n k s' k' : inv σ → workers σ !! n = Some k → work_task k = None →
  Work_step n (shared σ) k = Ret (Some (s', k')) →
  work_keeps n (shared σ) k s' k'.
Proof.
  intros I Hn Hk. pose proof (i_work σ I n k Hn) as Hok. pose proof (i_state σ I) as [].
  pose proof (held_by_work σ n k I Hn) as Hheld. set (s := shared σ) in *.
  destruct k as [| | |[]| |x|x|x|x|x|x|x| | |]; cbn [Work_step work_task] in *; intros E; try done.
  - (* WorkLock *) apply lock_inv in E as (Hm & -> & ->). split; cbn; rewrite ?Hm; try done; by right.
  - (* WorkLoop *) destruct (Hheld eq_refl) as [Hm _]. destruct (negb _ || _) eqn:Eb; injection E as <- <-.
    + split; try done; by right.
    + apply orb_false_iff in Eb as [Es Eq]. unfold stop_requested, empty in *. destruct (queue_ s) eqn:Eqs; [|done].
      split; cbn; rewrite ?Eqs; try done; [destruct (queue_mutex_ s); (done || simpl; lia)|by left|].
      split; cbn; try done. intros _. split; [|done]. by apply negb_false_iff, bool_decide_eq_true in Es.
  - (* WorkWait *) destruct (Hheld eq_refl) as [Hm _]. destruct (_ || negb _) eqn:Eb; injection E as <- <-.
    + split; try done; by right.
    + apply orb_false_iff in Eb as [Es Eq]. unfold stop_requested, empty in *. destruct (queue_ s) eqn:Eqs; [|done].
      split; cbn; rewrite ?Eqs; try done; [destruct (queue_mutex_ s); (done || simpl; lia)|by left|].
      split; cbn; try done. intros _. by apply bool_decide_eq_false in Es.
  - (* WorkSleep *) apply lock_inv in E as (Hm & -> & ->). split; cbn; rewrite ?Hm; try done; by right.
  - (* WorkTake *) destruct (queue_ s) as [|x q] eqn:Eqs; injection E as <- <-.
    + split; try done; by right.
    + split; cbn -[has_task occ]; rewrite ?Eqs; try done; [by rewrite <- app_assoc| |].
      * intros y. rewrite occ_cons. rewrite !has_task_spec. cbn [work_task]. case_decide; simpl; lia.
      * right. simpl. lia.
  - (* WorkRelock *) apply lock_inv in E as (Hm & -> & ->). split; cbn; rewrite ?Hm; try done; by right.
  - (* WorkClear *) unfold active_at in E. case_decide as Hl; [|done]. cbn in E. injection E as <- <-.
    split; cbn; try done; [|by right].
    split; [by rewrite length_insert|]. intros m Hne. by rewrite list_lookup_insert_ne.
Qed.

Lemma work_step_inv σ n k s' k' : inv σ → workers σ !! n = Some k →
  Work_step n (shared σ) k = Ret (Some (s', k')) → work_keeps n (shared σ) k s' k'.
Proof. intros I Hn E. destruct (work_task k) as [x|] eqn:Ek; [eapply work_step_task|eapply work_step_idle]; try done; by rewrite Ek. Qed.

(** What a step of a call may change. *)
Definition next_has (P : call → bool) (c : control) : nat := count P (next_calls 0 c).

Record call_keeps (s : state) (ws : list work) (k : call) (s' : state) (c : control) (ws' : list work) : Prop := {
  q_state : state_ok s' (length ws);
  q_grows : grows s s' ∧ (worker_stops s' = worker_stops s ∨ holds_call k = true);
  q_mutex : (held (queue_mutex_ s') + Nat.b2n (holds_call k) = held (queue_mutex_ s) + next_has holds_call c)%nat;
  q_tasks x : (occ x (queue_ s') + next_has (λ k, has_task x (call_task k)) c + occ x (invoked s') =
    occ x (queue_ s) + Nat.b2n (has_task x (call_task k)) + occ x (invoked s))%nat;
  q_workers : length ws' = length ws ∧ ∀ P, (∀ k, P (wake k) = P k) → cw P ws' = cw P ws;
  q_wake R : cw asleep ws = 0%nat ∨ (length (queue_ s) ≤ cw awake ws + (Nat.b2n (notifying k) + R))%nat →
    cw asleep ws' = 0%nat ∨ (length (queue_ s') ≤ cw awake ws' + (next_has notifying c + R))%nat;
  q_work n k' : ws' !! n = Some k' → work_ok s' n k';
  q_next t k' : (t, k') ∈ next_calls t c → call_ok s' (length ws) k';
}.

Lemma count_next P t c R : count P (next_calls t c ++ R) = (next_has P c + count P R)%nat.
Proof. unfold next_has. destruct c; cbn [next_calls app]; rewrite ?count_call; change (count P []) with 0%nat; lia. Qed.

Lemma inv_call σ t k above below s' c w : inv σ → calls σ = above ++ (t, k) :: below → t ∉ above.*1 →
  call_keeps (shared σ) (workers σ) k s' c (notified_workers c w (workers σ)) →
  inv {| shared := s'; workers := notified_workers c w (workers σ); calls := above ++ next_calls t c ++ below;
         submitted := submitted σ |}.
Proof.
  intros [Hs [] Hw Hc Hst] EF Ht [Hs' [Hg Hps] Hm Htk [Hlen Hcw] Hwk Hw' Hnext].
  set (ws' := notified_workers c w (workers σ)) in *.
  assert (∀ P, count P (calls σ) = (Nat.b2n (P k) + count P (above ++ below))%nat) as Hold.
  { intros P. rewrite EF, (count_perm _ _ _ (calls_middle above below (t, k))), count_call. by destruct (P k). }
  assert (∀ P, count P (above ++ next_calls t c ++ below) = (next_has P c + count P (above ++ below))%nat) as Hnew.
  { intros P. rewrite <- (count_next P t c). apply count_perm. rewrite !app_assoc. by rewrite (Permutation_app_comm above). }
  pose proof (pool_held_le (queue_mutex_ (shared σ))) as Hle.
  split; cbn [shared workers calls submitted]; rewrite ?Hlen; try done.
  - split; [|intros x|done|].
    + rewrite Hnew, (Hcw holds_work) by by intros []. rewrite Hold in c_mutex0. lia.
    + rewrite Hnew, (Hcw (λ k, has_task x (work_task k))) by by intros []. specialize (Htk x). specialize (c_tasks0 x).
      rewrite Hold in c_tasks0. cbv beta in *. lia.
    + rewrite Hnew. apply Hwk. by rewrite Hold in c_wake0.
  - intros t0 k0 Hin. assert ((t0, k0) ∈ next_calls t0 c ∨ (t0, k0) ∈ above ++ below) as [Hin'|Hin'].
    { apply elem_of_app in Hin as [?|[?|?]%elem_of_app]; [right; apply elem_of_app; by left|left|right; apply elem_of_app; by right].
      destruct c; cbn [next_calls] in *; try (by apply elem_of_nil in H); apply list_elem_of_singleton in H as [= -> ->];
        apply list_elem_of_here. }
    { by apply (Hnext t0). }
    eapply (call_ok_grows (shared σ)); [done| |]; cycle 1.
    { eapply (Hc t0). rewrite EF. apply elem_of_app in Hin' as [?|?]; apply elem_of_app; [by left|right; by apply list_elem_of_further]. }
    destruct Hps as [|Hk]; [by left|]. destruct (holds_call k0) eqn:Ek0.
    + pose proof (Hold holds_call) as Hh. rewrite Hk in Hh. simpl in Hh. exfalso.
      assert (count holds_call (above ++ below) = 0%nat) as Hz by lia. by rewrite (count_zero _ _ _ _ Hz Hin') in Ek0.
    + right. intros x ->. done.
  - rewrite EF in Hst. destruct c; cbn [next_calls app]; [by eapply stacked_replace..|by eapply stacked_remove].
Qed.

(** A step that leaves the queue, the active tasks and the workers alone. *)
Lemma call_plain σ k s' c : inv σ →
  queue_ s' = queue_ (shared σ) ∧ active_ s' = active_ (shared σ) ∧ accepted s' = accepted (shared σ) ∧
    taken s' = taken (shared σ) →
  worker_stops s' = worker_stops (shared σ) ∧ swept s' = swept (shared σ) ∧ stopped (shared σ) ⊆ stopped s' →
  (shutdown_reqested_ (shared σ) = true → shutdown_reqested_ s' = true) →
  down s' = down (shared σ) ∨ (∀ j, (j < length (workers σ))%nat → j ∈ swept s' ∧ j ∈ worker_stops s') →
  (held (queue_mutex_ s') + Nat.b2n (holds_call k) = held (queue_mutex_ (shared σ)) + next_has holds_call c)%nat →
  (∀ x, next_has (λ k, has_task x (call_task k)) c + occ x (invoked s') =
    Nat.b2n (has_task x (call_task k)) + occ x (invoked (shared σ)))%nat →
  next_has notifying c = Nat.b2n (notifying k) →
  (∀ t k', (t, k') ∈ next_calls t c → call_ok s' (length (workers σ)) k') →
  call_keeps (shared σ) (workers σ) k s' c (workers σ).
Proof.
  intros [[] _ Hw _ _] (Eq & Ea & Eac & Et) (Ew & Es & Hst) Hf Hd Hm Htk Hn Hnext. split; try done.
  - split; rewrite ?Ea, ?Eac, ?Et, ?Eq, ?Ew, ?Es; try done.
    + intros Hf'. apply s_flag0. destruct (shutdown_reqested_ (shared σ)); [by rewrite Hf in Hf'|done].
    + destruct Hd as [->|Hd]; [done|]. intros _ j Hj. rewrite <- Ew, <- Es. by apply Hd.
  - split; [|by left]. split; [done..| |]; by rewrite ?Ew, ?Es.
  - intros x. specialize (Htk x). rewrite Eq. lia.
  - intros R. by rewrite Eq, Hn.
  - intros n k' Hk. eapply (work_ok_frame (shared σ)); try done; [by rewrite Ea|congruence|by apply Hw].
Qed.

Lemma held_by_call σ t k : inv σ → (t, k) ∈ calls σ → holds_call k = true →
  held (queue_mutex_ (shared σ)) = 1%nat ∧ cw holds_work (workers σ) = 0%nat.
Proof.
  intros [_ [] _ _ _] Hin Hk. pose proof (pool_held_le (queue_mutex_ (shared σ))).
  destruct (decide (count holds_call (calls σ) = 0%nat)) as [Hz|]; [|lia]. by rewrite (count_zero _ _ _ _ Hz Hin) in Hk.
Qed.

Lemma next_one P k : next_has P (Continue k) = Nat.b2n (P k).
Proof. unfold next_has. cbn [next_calls]. rewrite count_call. change (count P []) with 0%nat. destruct (P k); done. Qed.

Lemma next_none P : next_has P Returned = 0%nat.
Proof. done. Qed.

Lemma next_is t t' k k' : (t, k') ∈ next_calls t' (Continue k) → k' = k.
Proof. cbn [next_calls]. by intros [= -> ->]%list_elem_of_singleton. Qed.

Ltac plain I :=
  apply (call_plain _ _ _ _ I); cbn -[has_task occ next_has count];
    rewrite ?next_one, ?next_none; try done; try (by left);
    try (intros t' k' ->%next_is; done);
    try (by intros t' k' ?%elem_of_nil);
    try (intros y; rewrite ?next_one, ?next_none, ?occ_snoc, ?has_task_spec; cbn [call_task]; try case_decide; lia).

(** The steps that change the mutex, the flag and the stop source of a task only. *)
Lemma call_step_plain σ t k s' c : inv σ → (t, k) ∈ calls σ → call_step t (shared σ) k = Ret (Some (s', c)) →
  match k with EnqueuePush _ | EnqueueNotify | ShutdownActive _ | ShutdownWorker _ => False | _ => True end →
  call_keeps (shared σ) (workers σ) k s' c (workers σ).
Proof.
  intros I Hin E Hk. pose proof (i_call σ I t k Hin) as Hok. pose proof (held_by_call σ t k I Hin) as Hheld.
  destruct k as [x|x|x| | |x|x|x|x|x|x| | |i|i|i|]; try done; cbn [call_step Enqueue_step InternalShutdown_step] in E.
  - (* EnqueueLock *) apply lock_inv in E as (Hm & -> & ->). plain I; by rewrite Hm.
  - (* EnqueueCheck *) injection E as <- <-. destruct (shutdown_reqested_ (shared σ)) eqn:Ef; plain I.
    intros t' k' ->%next_is. cbn. by apply (s_flag _ _ (i_state σ I)).
  - (* EnqueueReturn *) injection E as <- <-. destruct (Hheld eq_refl) as [Hm _]. plain I; rewrite Hm; done.
  - (* EnqueueUnlock *) injection E as <- <-. destruct (Hheld eq_refl) as [Hm _]. plain I; rewrite Hm; done.
  - (* EnqueueExecute *) injection E as <- <-. cbn in Hok. rewrite Hok. plain I.
  - (* EnqueueRequest *) destruct (first_request (Some x) (shared σ)); injection E as <- <-; (plain I; [split_and!; set_solver|]);
      intros t' k' ->%next_is; cbn; set_solver.
  - (* EnqueueInvoke *) injection E as <- <-. plain I.
  - (* ShutdownStore *) injection E as <- <-. plain I.
  - (* ShutdownLock *) apply lock_inv in E as (Hm & -> & ->). plain I; [by rewrite Hm|].
    intros t' k' ->%next_is. cbn. split; [done|lia].
  - (* ShutdownUnlock *) injection E as <- <-. destruct (Hheld eq_refl) as [Hm _]. destruct Hok as (_ & H1 & H2). plain I; [|by rewrite Hm].
    right. auto.
Qed.

Lemma call_step_push σ t x s' c : inv σ → (t, EnqueuePush x) ∈ calls σ →
  call_step t (shared σ) (EnqueuePush x) = Ret (Some (s', c)) →
  call_keeps (shared σ) (workers σ) (EnqueuePush x) s' c (workers σ).
Proof.
  intros I Hin [= <- <-]. pose proof (i_call σ I _ _ Hin) as Hok. cbn in Hok. destruct I as [[] _ Hw _ _].
  split; try done.
  - split; cbn; try done. by rewrite s_fifo0, app_assoc.
  - split; [|by left]. by split.
  - intros y. cbn -[occ has_task next_has]. rewrite occ_snoc, next_one, !has_task_spec. cbn [call_task]. case_decide; lia.
  - intros R. rewrite next_one. cbn. rewrite length_app. simpl. lia.
  - intros n k Hk. destruct (Hw n k Hk). split; try done. intros Ek. destruct (w_ended0 Ek) as [Hn _].
    rewrite Hok in Hn. set_solver.
  - by intros t' k' ->%next_is.
Qed.

Lemma next_notify P k : next_has P (ContinueNotify k) = Nat.b2n (P k).
Proof. apply next_one. Qed.

Lemma next_stop P i k : next_has P (ContinueStop i k) = Nat.b2n (P k).
Proof. apply next_one. Qed.

Lemma wake_ok s n k : work_ok s n k → work_ok s n (wake k).
Proof. intros []. split; by destruct k. Qed.

Lemma call_step_notify σ t w s' c : inv σ → (t, EnqueueNotify) ∈ calls σ →
  call_step t (shared σ) EnqueueNotify = Ret (Some (s', c)) → wakes c w (workers σ) →
  call_keeps (shared σ) (workers σ) EnqueueNotify s' c (notified_workers c w (workers σ)).
Proof.
  intros I Hin [= <- <-] Hwk. destruct I as [Hs _ Hw _ _]. cbn [wakes notified_workers] in *.
  destruct w as [n|].
  - assert (alter wake n (workers σ) = <[n := WorkSleep true]> (workers σ)) as ->.
    { apply list_eq. intros m. destruct (decide (n = m)) as [<-|].
      - rewrite list_lookup_alter_eq, list_lookup_insert_eq by (by eapply lookup_lt_Some). by rewrite Hwk.
      - by rewrite list_lookup_alter_ne, list_lookup_insert_ne. }
    pose proof (λ P, cw_insert P _ _ _ (WorkSleep true) Hwk) as Hcw. split; try done.
    + split; [by split|by left].
    + split; [by rewrite length_insert|]. intros P HP. specialize (Hcw P). rewrite <- (HP (WorkSleep false)) in Hcw.
      cbn [wake] in Hcw. lia.
    + intros R. rewrite next_notify. pose proof (Hcw asleep). pose proof (Hcw awake). cbn in *. lia.
    + intros m k. destruct (decide (n = m)) as [<-|Hne]; [|rewrite list_lookup_insert_ne by done; apply Hw].
      rewrite list_lookup_insert_eq by (by eapply lookup_lt_Some). intros [= <-]. apply (wake_ok _ _ (WorkSleep false)). by apply Hw.
    + by intros t' k' ->%(next_is t' t' EnqueueReturn).
  - split; try done.
    + split; [by split|by left].
    + intros R _. left. by apply cw_zero.
    + by intros t' k' ->%(next_is t' t' EnqueueReturn).
Qed.

Lemma call_step_active σ t i s' c : inv σ → (t, ShutdownActive i) ∈ calls σ →
  call_step t (shared σ) (ShutdownActive i) = Ret (Some (s', c)) →
  call_keeps (shared σ) (workers σ) (ShutdownActive i) s' c (workers σ).
Proof.
  intros I Hin E. pose proof (i_call σ I _ _ Hin) as [Hf Hsw]. cbn -[first_request] in E.
  destruct (active_ (shared σ) !! i) as [a|] eqn:Ea; [generalize dependent (first_request a (shared σ)); intros first E|]; injection E as <- <-.
  - destruct I as [[] _ Hw _ _]. split; try done.
    + split; cbn; try done; [by rewrite Hf|]. intros Hd j Hj. destruct (s_down0 Hd j Hj). set_solver.
    + split; [|by left]. split; cbn; try done; [destruct a; set_solver|set_solver].
    + by destruct first.
    + by destruct first.
    + by destruct first.
    + intros n k Hk. destruct (Hw n k Hk). split; try done. cbn. intros x Hn Hx. destruct (decide (n = i)) as [->|Hne].
      * rewrite (w_active0 x) in Ea by (by destruct k). injection Ea as <-. set_solver.
      * assert (x ∈ stopped (shared σ)) by (apply w_swept0; [set_solver|done]). destruct a; set_solver.
    + intros t' k' ->%next_is. assert (∀ j, (j ≤ i)%nat → j ∈ {[i]} ∪ swept (shared σ)) as Hle.
      { intros j Hj. destruct (decide (j = i)) as [->|]; [set_solver|].
        assert (j ∈ swept (shared σ)) by (apply Hsw; lia). set_solver. }
      destruct first; cbn; (split; [done|]); intros j Hj; apply Hle; lia.
  - apply lookup_ge_None in Ea. rewrite (s_length _ _ (i_state σ I)) in Ea. plain I.
    intros t' k' ->%next_is. cbn. split_and!; [done| |lia]. intros j Hj. apply Hsw. lia.
Qed.

(** The workers after the request of a stop for worker [i]. *)
Lemma stop_worker_ok σ i c : inv σ →
  (c = Continue (ShutdownWorker (S i)) ∧ i ∈ worker_stops (shared σ)) ∨ c = ContinueStop i (ShutdownWorker (S i)) →
  ∀ n k, notified_workers c None (workers σ) !! n = Some k → work_ok (stop_worker i (shared σ)) n k.
Proof.
  intros I Hc n k Hk. destruct I as [_ _ Hw _ _].
  assert (∀ k, work_ok (shared σ) n k → (asleep k = true → n ≠ i ∨ i ∈ worker_stops (shared σ)) →
    work_ok (stop_worker i (shared σ)) n k) as Hgrow.
  { intros k0 [] Hni. split; cbn; try done; [|set_solver]. intros Ha. specialize (w_asleep0 Ha). set_solver. }
  destruct Hc as [[-> Hi]| ->]; cbn [notified_workers] in Hk.
  { apply Hgrow; [by apply Hw|]. by right. }
  destruct (workers σ !! i) as [ki|] eqn:Ei; [|apply Hgrow; [by apply Hw|]; intros _; left; congruence].
  assert (ki = WorkSleep false ∨ ki = WorkSleep true ∨ asleep ki = false ∧
    match ki with WorkSleep _ => wake <$> workers σ | _ => workers σ end = workers σ) as Hki
    by (destruct ki as [| | |[]| | | | | | | | | | |]; auto).
  destruct Hki as [->|[->|[Ha Hws]]].
  3: { rewrite Hws in Hk. apply Hgrow; [by apply Hw|]. intros Hk'. left. intros ->. congruence. }
  all: rewrite list_lookup_fmap in Hk; destruct (workers σ !! n) as [k0|] eqn:En; [|done]; injection Hk as <-;
    (apply Hgrow; [by apply wake_ok, Hw|]); by destruct k0.
Qed.

Lemma notified_stop ws i k :
  let ws' := notified_workers (ContinueStop i k) None ws in
  length ws' = length ws ∧ (∀ P, (∀ k, P (wake k) = P k) → cw P ws' = cw P ws) ∧ (ws' = ws ∨ cw asleep ws' = 0%nat).
Proof.
  cbn. destruct (ws !! i) as [[| | |b| | | | | | | | | | |]|]; try (by split_and!; [..|left]).
  split_and!; [by rewrite length_fmap|intros P HP; by apply cw_wake|right; apply cw_wake_asleep].
Qed.

Lemma call_step_worker σ t i w s' c : inv σ → (t, ShutdownWorker i) ∈ calls σ →
  call_step t (shared σ) (ShutdownWorker i) = Ret (Some (s', c)) → wakes c w (workers σ) →
  call_keeps (shared σ) (workers σ) (ShutdownWorker i) s' c (notified_workers c w (workers σ)).
Proof.
  intros I Hin E Hwk. pose proof (i_call σ I _ _ Hin) as (Hf & Hsw & Hst). cbn in E.
  destruct (decide _) as [Hi|Hi]; rewrite (s_length _ _ (i_state σ I)) in Hi; cycle 1.
  { injection E as <- <-. plain I. intros t' k' ->%next_is. cbn. split_and!; [done..|]. intros j Hj. apply Hst. lia. }
  assert (s' = stop_worker i (shared σ) ∧ w = None ∧
    ((c = Continue (ShutdownWorker (S i)) ∧ i ∈ worker_stops (shared σ)) ∨ c = ContinueStop i (ShutdownWorker (S i))))
    as (-> & -> & Hc).
  { injection E as <- <-. unfold stop_requested in *. case_bool_decide; cbn in Hwk; subst w; auto. }
  pose proof (stop_worker_ok σ i c I Hc) as Hok. pose proof (notified_stop (workers σ) i (ShutdownWorker (S i))) as (Hl & Hcw & Hz).
  assert (∀ P, next_has P c = Nat.b2n (P (ShutdownWorker (S i)))) as Hnext
    by (intros P; destruct Hc as [[-> _]| ->]; [apply next_one|apply next_stop]).
  destruct I as [[] _ _ _ _]. split; try done.
  - split; cbn; try done; [by rewrite Hf|]. intros Hd j Hj. destruct (s_down0 Hd j Hj). set_solver.
  - split; [|by right]. split; cbn; (done || set_solver).
  - by rewrite Hnext.
  - intros x. by rewrite Hnext.
  - destruct Hc as [[-> _]| ->]; [done|]. by split.
  - intros R. rewrite Hnext. destruct Hc as [[-> _]| ->]; [done|]. destruct Hz as [->|Hz]; [done|by left].
  - intros t' k' Hk'. assert (k' = ShutdownWorker (S i)) as ->
      by (destruct Hc as [[-> _]| ->]; by apply (next_is t' t' (ShutdownWorker (S i))) in Hk').
    cbn. split_and!; [done..|]. intros j Hj. destruct (decide (j = i)) as [->|]; [set_solver|].
    assert (j ∈ worker_stops (shared σ)) by (apply Hst; lia). set_solver.
Qed.

Lemma call_step_inv σ t k above below s' c w : inv σ → calls σ = above ++ (t, k) :: below →
  call_step t (shared σ) k = Ret (Some (s', c)) → wakes c w (workers σ) →
  call_keeps (shared σ) (workers σ) k s' c (notified_workers c w (workers σ)).
Proof.
  intros I EF E Hw. assert ((t, k) ∈ calls σ) as Hin by (rewrite EF; apply elem_of_app; right; apply list_elem_of_here).
  destruct k; try (by eapply call_step_notify); try (by eapply call_step_worker).
  all: assert (notified_workers c w (workers σ) = workers σ) as ->; [|first
    [by eapply call_step_push|by eapply call_step_active|by eapply call_step_plain]].
  all: cbn in E; unfold lock in E; repeat match goal with H : context [match ?x with _ => _ end] |- _ => destruct x end;
    by simplify_eq.
Qed.

(** ** Reachable systems *)

Lemma client_start σ t k : inv σ → client σ t → stacked is_client ((t, k) :: calls σ).
Proof. intros I [Hc _]. apply stacked_push; [apply I|done]. Qed.

Lemma step_inv σ σ' : inv σ → step σ σ' → inv σ'.
Proof.
  intros I [n k s k' Hn E|n Hn|n k k' Hn Hk _|t k above below s c w EF Ht E Hw|t k c above below EF Ht Hk|t x Hc Hx|t Hc].
  - eapply inv_work; [done..|]. by apply work_step_inv.
  - eapply inv_work; [done..|]. split; try done. right. cbn. lia.
  - eapply inv_work; [done..|]. pose proof (i_work σ I n k Hn) as []. destruct k; try done; injection Hk as <-;
      (split; try done; right; cbn; lia).
  - eapply inv_call; [done..|]. by eapply call_step_inv.
  - assert (notified_workers c None (workers σ) = workers σ) as Hw by (by destruct k; simplify_eq/=).
    rewrite <- Hw. apply (inv_call σ t k above below (shared σ) c None); [done..|]. rewrite Hw.
    pose proof (i_call σ I t k) as Hok. specialize (Hok ltac:(rewrite EF; apply elem_of_app; right; apply list_elem_of_here)).
    destruct k; try done; injection Hk as <-; plain I.
    intros t' k' ->%next_is. destruct Hok as [? Hsw]. split; [done|]. intros j Hj. apply Hsw. lia.
  - pose proof (client_start σ t (EnqueueLock x) I Hc) as Hst. destruct I as [Hs [] Hw Hcl _]. split; cbn; try done.
    + split; [|intros y|intros y|]; rewrite ?count_call; cbn -[occ has_task]; try done.
      * rewrite occ_cons, c_tasks0. pose proof (has_task_spec y (Some x)) as Hy. cbn in Hy.
        destruct (has_task y (Some x)); cbn in Hy; case_decide; lia.
      * rewrite occ_cons. case_decide as Hy; [subst; rewrite occ_zero by done; lia|apply c_once0].
    + intros t' k' [[= -> ->]|Hin]%elem_of_cons; [done|by eapply Hcl].
  - pose proof (client_start σ t ShutdownStore I Hc) as Hst. destruct I as [Hs [] Hw Hcl _]. split; cbn; try done.
    intros t' k' [[= -> ->]|Hin]%elem_of_cons; [done|by eapply Hcl].
Qed.

Lemma step_workers σ σ' : step σ σ' → length (workers σ') = length (workers σ).
Proof.
  intros [n k s k' Hn E|n Hn|n k k' Hn Hk _|t k above below s c w EF Ht E Hw|t k c above below EF Ht Hk|t x Hc Hx|t Hc];
    cbn [workers]; rewrite ?length_insert; try done.
  destruct c as [k'|k'|i k'|]; cbn [notified_workers]; try done.
  - destruct w; [by rewrite length_alter|done].
  - by destruct (notified_stop (workers σ) i k') as [Hl _].
Qed.

Lemma pool_reachable_inv N σ : reachable N σ → inv σ ∧ length (workers σ) = N.
Proof.
  unfold reachable. apply (rtc_ind_r (λ σ, inv σ ∧ length (workers σ) = N)).
  - split; [apply pool_inv_initial|apply length_replicate].
  - intros σ1 σ2 _ Hs [I HN]. split; [by eapply step_inv|]. by rewrite (step_workers σ1 σ2).
Qed.

(** ** Theorems *)

Lemma cw_elem P ws : (0 < cw P ws)%nat → ∃ n k, ws !! n = Some k ∧ P k = true.
Proof.
  induction ws as [|k ws IH]; [change (cw P []) with 0%nat; lia|]. rewrite cw_cons. destruct (P k) eqn:Ek.
  - intros _. by exists 0%nat, k.
  - intros H. destruct IH as (n & k' & ? & ?); [simpl in H; lia|]. by exists (S n), k'.
Qed.

Lemma submitted_somewhere σ x : inv σ → x ∈ submitted σ →
  x ∈ queue_ (shared σ) ∨ (∃ n k, workers σ !! n = Some k ∧ work_task k = Some x) ∨
  (∃ t k, (t, k) ∈ calls σ ∧ call_task k = Some x) ∨ x ∈ invoked (shared σ).
Proof.
  intros [_ [] _ _ _] Hx%occ_elem. specialize (c_tasks0 x).
  destruct (decide (x ∈ queue_ (shared σ))) as [|H1]; [by left|]. rewrite (occ_zero x (queue_ _)) in c_tasks0 by done.
  destruct (decide (x ∈ invoked (shared σ))) as [|H2]; [by auto|]. rewrite (occ_zero x (invoked _)) in c_tasks0 by done.
  right. destruct (decide (0 < cw (λ k, has_task x (work_task k)) (workers σ))%nat) as [Hp|].
  - left. apply cw_elem in Hp as (n & k & ? & Hk). exists n, k. split; [done|]. by apply bool_decide_eq_true in Hk.
  - right. left. destruct (count_pos (λ k, has_task x (call_task k)) (calls σ)) as (t & k & ? & Hk); [lia|].
    exists t, k. split; [done|]. by apply bool_decide_eq_true in Hk.
Qed.

(** C21: however the threads interleave, no step of a worker fails, at most one
    thread is between locking and unlocking the mutex, tasks are taken in the
    order in which they were queued, no task is invoked twice, and none is lost:
    a task given to [Enqueue] is in the queue, in the hands of a worker or of a
    call that will invoke it, or was invoked. *)
Theorem thread_pool_safe N σ : reachable N σ →
  (∀ n k, workers σ !! n = Some k → ∃ r, Work_step n (shared σ) k = Ret r) ∧
  (cw holds_work (workers σ) + count holds_call (calls σ) ≤ 1)%nat ∧
  accepted (shared σ) = taken (shared σ) ++ queue_ (shared σ) ∧
  NoDup (invoked (shared σ)) ∧
  ∀ x, x ∈ submitted σ →
    x ∈ queue_ (shared σ) ∨ (∃ n k, workers σ !! n = Some k ∧ work_task k = Some x) ∨
    (∃ t k, (t, k) ∈ calls σ ∧ call_task k = Some x) ∨ x ∈ invoked (shared σ).
Proof.
  intros [I _]%pool_reachable_inv. pose proof I as [[] [] _ _ _]. split_and!.
  - intros n k Hn. apply lookup_lt_Some in Hn. destruct k as [| | |[]| | | | | | | | | | |]; cbn; unfold lock, active_at; eauto;
      rewrite decide_True by lia; cbn; eauto.
  - rewrite <- c_mutex0. apply pool_held_le.
  - done.
  - apply occ_NoDup. intros x. specialize (c_tasks0 x). specialize (c_once0 x). lia.
  - intros x. by apply submitted_somewhere.
Qed.

(** C22: once a call of [Shutdown] has returned, a stop is requested for every task
    that is running, in a worker or in a call of [Enqueue], also for those that
    began while [Shutdown] was running, and every worker was told to stop. *)
Theorem thread_pool_shutdown N σ : reachable N σ → down (shared σ) = true →
  (∀ n task, workers σ !! n = Some (WorkRunning task) → task ∈ stopped (shared σ)) ∧
  (∀ t task, (t, EnqueueRunning task) ∈ calls σ → task ∈ stopped (shared σ)) ∧
  ∀ n, (n < N)%nat → n ∈ worker_stops (shared σ).
Proof.
  intros [I <-]%pool_reachable_inv Hd. destruct I as [[] _ Hw Hc _]. split_and!.
  - intros n x Hn. apply (w_swept _ _ _ (Hw n _ Hn)); [|done]. by apply s_down0; [|eapply lookup_lt_Some].
  - intros t x Hin. exact (Hc t _ Hin).
  - intros n Hn. by apply s_down0.
Qed.

(** Whoever holds the mutex when no thread can make a step runs the stop callbacks
    of a task. *)
Lemma stuck_unlocked σ : inv σ →
  (∀ n k, workers σ !! n = Some k → Work_step n (shared σ) k = Ret None) →
  (∀ t k, (t, k) ∈ calls σ → call_step t (shared σ) k = Ret None) →
  queue_mutex_ (shared σ) = None ∨ ∃ t i, (t, ShutdownStopping i) ∈ calls σ.
Proof.
  intros [[] [] _ _ _] Hw Hc. destruct (queue_mutex_ (shared σ)) as [owner|]; [right|by left]. simpl in c_mutex0.
  destruct (decide (0 < cw holds_work (workers σ))%nat) as [Hp|].
  - apply cw_elem in Hp as (n & k & Hn & Hk). pose proof (lookup_lt_Some _ _ _ Hn). specialize (Hw n k Hn).
    destruct k; try done; cbn in Hw; unfold active_at in Hw; rewrite ?decide_True in Hw by lia; done.
  - destruct (count_pos holds_call (calls σ)) as (t & k & Hin & Hk); [lia|]. specialize (Hc t k Hin).
    exists t. destruct k; try done; by eexists.
Qed.

(** C23: progress: when no thread can make a step, a shutdown is running the stop
    callbacks of a task with the mutex locked, or every call and every worker runs
    code of the client (a task or its stop callbacks), or the worker sleeps or has
    ended; if a task is queued, all workers run code of the client; and after a
    shutdown no worker sleeps.  So the calls of the pool never block each other
    unless a stop callback in a shutdown does not return, no wake-up is lost, and
    a queued task waits for code of the client only. *)
Theorem thread_pool_progress N σ : reachable N σ →
  (∀ n k, workers σ !! n = Some k → Work_step n (shared σ) k = Ret None) →
  (∀ t k, (t, k) ∈ calls σ → call_step t (shared σ) k = Ret None) →
  (∃ t i, (t, ShutdownStopping i) ∈ calls σ) ∨
  (∀ t k, (t, k) ∈ calls σ → is_client k = true) ∧
  ∀ n k, workers σ !! n = Some k →
    is_Some (work_return k) ∨
    (queue_ (shared σ) = [] ∧ (k = WorkEnded ∨ k = WorkSleep false ∧ down (shared σ) = false)).
Proof.
  intros [I _]%pool_reachable_inv Hw Hc. destruct (stuck_unlocked σ I Hw Hc) as [Hm|?]; [right|by left].
  assert (∀ t k, (t, k) ∈ calls σ → is_client k = true) as Hcalls.
  { intros t k Hin. specialize (Hc t k Hin). destruct k; try done; cbn in Hc; unfold lock in Hc; rewrite ?Hm in Hc; try done; eauto. }
  assert (∀ n k, workers σ !! n = Some k → k = WorkEnded ∨ k = WorkSleep false ∨ is_Some (work_return k)) as Hworkers.
  { intros n k Hn. pose proof (lookup_lt_Some _ _ _ Hn). specialize (Hw n k Hn). destruct I as [[] _ _ _ _].
    destruct k as [| | |[]| | | | | | | | | | |]; cbn in Hw; unfold lock, active_at in Hw; rewrite ?Hm, ?decide_True in Hw by lia;
      try done; cbn; eauto. }
  split; [done|]. intros n k Hn. destruct (Hworkers n k Hn) as [->|[->|?]]; [right|right|by left].
  - destruct I as [_ _ Hok _ _]. destruct (w_ended _ _ _ (Hok n _ Hn) eq_refl). auto.
  - destruct I as [[] [] Hok _ _]. split.
    + assert (cw awake (workers σ) = 0%nat) as Ha.
      { apply cw_zero, Forall_lookup. intros m km Hk. destruct (Hworkers m km Hk) as [->|[->|[k' Hk']]]; [done..|]. by destruct km. }
      assert (count notifying (calls σ) = 0%nat) as Hno.
      { apply count_zero_2. intros t kc Hin. specialize (Hcalls t kc Hin). by destruct kc. }
      pose proof (cw_pos asleep _ _ _ Hn eq_refl). destruct c_wake0; [lia|]. apply nil_length_inv. lia.
    + right. split; [done|]. destruct (down (shared σ)) eqn:Ed; [|done].
      destruct (w_asleep _ _ _ (Hok n _ Hn) eq_refl). by apply s_down0; [|eapply lookup_lt_Some].
Qed.

(** Thread [t] is in a stop callback of a shutdown, and wants to lock the mutex. *)
Definition blocked_callback (σ : system) (t : nat) : Prop :=
  (∃ i, (t, ShutdownStopping i) ∈ calls σ) ∧
  ((t, ShutdownLock) ∈ calls σ ∨ ∃ task, (t, EnqueueLock task) ∈ calls σ).

(** A call of the library is the last one of its thread. *)
Lemma current_is_library σ t k k0 above below : inv σ → calls σ = above ++ (t, k0) :: below → t ∉ above.*1 →
  (t, k) ∈ calls σ → is_client k = false → k0 = k.
Proof.
  intros I EF Ht Hin Hk. pose proof (i_stack σ I) as Hst. rewrite EF in Hst, Hin.
  apply elem_of_app in Hin as [Hin|[[= ->]|Hin]%elem_of_cons]; [|done|].
  - destruct Ht. by apply (list_elem_of_fmap_2 fst) in Hin.
  - apply stacked_app in Hst as (_ & [H _] & _). by rewrite (H k Hin) in Hk.
Qed.

Lemma blocked_step σ σ' t : inv σ → blocked_callback σ t → step σ σ' → blocked_callback σ' t.
Proof.
  intros I [[i Hi] Hk] Hs.
  assert (queue_mutex_ (shared σ) ≠ None) as Hm.
  { destruct (held_by_call σ t _ I Hi eq_refl) as [Hh _]. by destruct (queue_mutex_ (shared σ)). }
  assert (∃ k, (t, k) ∈ calls σ ∧ call_step t (shared σ) k = Ret None ∧ is_client k = false) as (k & Hin & Hstep & Hcl).
  { destruct Hk as [Hk|[x Hk]]; (eexists; split; [exact Hk|]); cbn; unfold lock; by destruct (queue_mutex_ (shared σ)). }
  assert (∀ t0 k0 above below new, calls σ = above ++ (t0, k0) :: below → t0 ≠ t →
    ∀ k, (t, k) ∈ calls σ → (t, k) ∈ above ++ new ++ below) as Hother.
  { intros t0 k0 above below new -> Hne k1 [?|[[= ? ?]|?]%elem_of_cons]%elem_of_app;
      [|done|]; rewrite !elem_of_app; auto. }
  assert (∀ σ', (∀ k, (t, k) ∈ calls σ → (t, k) ∈ calls σ') → blocked_callback σ' t) as Hmono.
  { intros σ2 H. split; [by exists i; auto|]. destruct Hk as [?|[x ?]]; [by auto|right; eauto]. }
  destruct Hs as [n kw s k' Hn E|n Hn|n kw k' Hn Hkw _|t0 k0 above below s c w EF Ht E Hw|t0 k0 c above below EF Ht Hk0|t0 x Hc Hx|t0 Hc];
    apply Hmono; cbn [calls]; try done; try (intros; by apply list_elem_of_further).
  - apply (Hother t0 k0); [done|]. intros ->. rewrite (current_is_library σ t k k0 above below) in E by done. congruence.
  - apply (Hother t0 k0); [done|]. intros ->. pose proof (current_is_library σ t k k0 above below I EF Ht Hin Hcl) as ->. by destruct k.
Qed.

(** A stop callback that [Shutdown] runs and that calls the pool never returns. *)
Theorem stop_callback_deadlock N σ t : reachable N σ → blocked_callback σ t → ∀ σ', rtc step σ σ' → blocked_callback σ' t.
Proof.
  intros Hr Hb σ' Hs. assert (reachable N σ' ∧ blocked_callback σ' t) as [_ H]; [|done].
  induction Hs as [|σ1 σ2 σ3 H12 _ IH] in Hr, Hb |- *; [done|]. pose proof (pool_reachable_inv N σ1 Hr) as [I _].
  apply IH; [by eapply rtc_r|by eapply blocked_step].
Qed.

(** ** An execution *)

(** Two workers; the first one sleeps, gets task 7 from thread 5 and runs it
    while thread 5 shuts the pool down; the second one ends. *)
Definition start_schedule : list action :=
  replicate 3 (RunWorker 0) ++
  [Enqueue 5 7; RunCall 5 None; RunCall 5 None; RunCall 5 None; RunCall 5 (Some 0)%nat; RunCall 5 None] ++
  replicate 7 (RunWorker 0) ++ [Shutdown 5; RunCall 5 None; RunCall 5 None; RunCall 5 None].

Definition shutdown_schedule : list action :=
  start_schedule ++ [ReturnCall 5] ++ replicate 6 (RunCall 5 None) ++ replicate 2 (RunWorker 1).

Definition after_shutdown : system := default (InitializeThreads 2) (schedule (InitializeThreads 2) shutdown_schedule).

Example after_shutdown_state :
  workers after_shutdown = [WorkRunning 7; WorkEnded] ∧ calls after_shutdown = [] ∧
  invoked (shared after_shutdown) = [7]%nat ∧ down (shared after_shutdown) = true.
Proof. by vm_compute. Qed.

Lemma after_shutdown_reachable : reachable 2 after_shutdown.
Proof. apply (pool_schedule_reachable 2 shutdown_schedule). by vm_compute. Qed.

Lemma thread_pool_safe_witness :
  reachable 2 after_shutdown ∧ NoDup (invoked (shared after_shutdown)) ∧
  accepted (shared after_shutdown) = taken (shared after_shutdown) ++ queue_ (shared after_shutdown).
Proof.
  split; [apply after_shutdown_reachable|].
  destruct (thread_pool_safe 2 after_shutdown after_shutdown_reachable) as (_ & _ & H1 & H2 & _). by split.
Defined.

Lemma thread_pool_shutdown_witness : workers after_shutdown !! 0%nat = Some (WorkRunning 7) ∧ 7%nat ∈ stopped (shared after_shutdown).
Proof.
  destruct (thread_pool_shutdown 2 after_shutdown after_shutdown_reachable) as (H & _ & _); [by vm_compute|].
  split; [by vm_compute|]. apply (H 0%nat 7%nat). by vm_compute.
Defined.

Lemma thread_pool_progress_witness :
  workers after_shutdown !! 1%nat = Some WorkEnded ∧ queue_ (shared after_shutdown) = [].
Proof.
  split; [by vm_compute|].
  destruct (thread_pool_progress 2 after_shutdown after_shutdown_reachable) as [(t & i & H)|(_ & H)].
  - intros [|[|n]] k; vm_compute; by intros [= <-].
  - intros t k. assert (calls after_shutdown = []) as -> by by vm_compute. by intros ?%elem_of_nil.
  - assert (calls after_shutdown = []) as E by by vm_compute. rewrite E in H. by apply elem_of_nil in H.
  - destruct (H 1%nat WorkEnded) as [[k Hk]|[Hq _]]; [by vm_compute|done|exact Hq].
Defined.

(** A stop callback of task 7 gives task 8 to the pool. *)
Definition callback_state : system :=
  default (InitializeThreads 2) (schedule (InitializeThreads 2) (start_schedule ++ [Enqueue 5 8])).

Example callback_blocked : reachable 2 callback_state ∧ blocked_callback callback_state 5.
Proof.
  split; [by apply (pool_schedule_reachable 2 (start_schedule ++ [Enqueue 5 8])); vm_compute|].
  assert (calls callback_state = [(5, EnqueueLock 8); (5, ShutdownStopping 0)]%nat) as E by by vm_compute.
  split; [exists 0%nat|right; exists 8%nat]; rewrite E; repeat constructor.
Qed.

End ThreadPoolSpec.
