(* ===== verification/SynchronizedQueue.v ===== *)
(** * Queues between threads: concurrency/synchronized_queue.h

    [SynchronizedQueue] with its [SharedState], one reader and any number of
    senders, each in a thread of its own.  A step is an acquisition of the mutex
    or an access to the queue or the notification.  [Notification] is used
    through its contract: [waitForWithAbort] returns true if it was notified and
    not reset, and may return false at any time before (the time is over, or a
    stop is requested).

    The state is owned by the queue of the reader and by every running call of a
    sender that has locked its weak pointer, and is destroyed with the last owner.
    The reader may destroy its queue between its calls; a sender whose pointer has
    expired then pushes nothing. *)

From stdpp Require Import gmap relations.
From S2P Require Import Prelude.

Module SynchronizedQueue.

(** [SharedState]; [use_count_]: the number of its owners; [alive]: the reader has
    not destroyed the queue; [pushed] and [popped] are the elements for which
    [push] and [Pop] got so far. *)
Record state := {
  max_queue_length_ : nat;
  mutex_ : bool;
  queue_ : list nat;
  notified_yet_ : bool;
  use_count_ : nat;
  alive : bool;
  pushed : list nat;
  popped : list nat;
}.

Definition initial_state (max_length : nat) : state :=
  {| max_queue_length_ := max_length; mutex_ := false; queue_ := []; notified_yet_ := false; use_count_ := 1; alive := true;
     pushed := []; popped := [] |}.

Definition set_mutex (m : bool) (s : state) : state :=
  {| max_queue_length_ := max_queue_length_ s; mutex_ := m; queue_ := queue_ s; notified_yet_ := notified_yet_ s;
     use_count_ := use_count_ s; alive := alive s; pushed := pushed s; popped := popped s |}.
Definition set_notified (b : bool) (s : state) : state :=
  {| max_queue_length_ := max_queue_length_ s; mutex_ := mutex_ s; queue_ := queue_ s; notified_yet_ := b;
     use_count_ := use_count_ s; alive := alive s; pushed := pushed s; popped := popped s |}.
Definition push_back (item : nat) (s : state) : state :=
  {| max_queue_length_ := max_queue_length_ s; mutex_ := mutex_ s; queue_ := queue_ s ++ [item];
     notified_yet_ := notified_yet_ s; use_count_ := use_count_ s; alive := alive s; pushed := pushed s ++ [item];
     popped := popped s |}.
Definition pop_front (item : nat) (q : list nat) (s : state) : state :=
  {| max_queue_length_ := max_queue_length_ s; mutex_ := mutex_ s; queue_ := q; notified_yet_ := notified_yet_ s;
     use_count_ := use_count_ s; alive := alive s; pushed := pushed s; popped := popped s ++ [item] |}.
Definition set_owners (n : nat) (b : bool) (s : state) : state :=
  {| max_queue_length_ := max_queue_length_ s; mutex_ := mutex_ s; queue_ := queue_ s; notified_yet_ := notified_yet_ s;
     use_count_ := n; alive := b; pushed := pushed s; popped := popped s |}.

(** A [shared_ptr] is made of a [weak_ptr], or destroyed. *)
Definition acquire (s : state) : state := set_owners (S (use_count_ s)) (alive s) s.
Definition release (s : state) : state := set_owners (use_count_ s - 1) (alive s) s.

(** [~SynchronizedQueue] *)
Definition destroy (s : state) : state := set_owners (use_count_ s - 1) false s.

Definition destroyed (s : state) : bool := (use_count_ s =? 0)%nat.

(** Where the reader is in [Pop]; the comment is what it does next. *)
Inductive pop :=
| PopLock                     (* lock{mutex_} *)
| PopEmpty                    (* if (queue_.empty()) *)
| PopUnlock                   (* lock.unlock() *)
| PopWait                     (* notification_.waitForWithAbort *)
| PopRelock                   (* lock.lock() *)
| PopReset                    (* notification_.reset() *)
| PopFront                    (* ASSERT(!queue_.empty()), front, pop_front *)
| PopReturn (item : nat).     (* unlock *)

(** Where a sender is in [push]. *)
Inductive push :=
| PushWeak (item : nat)       (* sync_queue_.lock() *)
| PushLock (item : nat)       (* lock(mutex_) *)
| PushSize (item : nat)       (* if (queue_.size() < max_queue_length_) *)
| PushBack (item : nat)       (* queue_.push_back *)
| PushNotify                  (* notification_.notify() *)
| PushReturn (r : bool)       (* unlock *)
| PushRelease (r : bool).     (* ~shared_ptr *)

(** What a step leads to: the next one, or the result of the call. *)
Abbreviation pop_control := (pop + option nat)%type.
Abbreviation push_control := (push + bool)%type.

Definition lock {K} (s : state) (k : K) : outcome (option (state * K)) :=
  Ret (if mutex_ s then None else Some (set_mutex true s, k)).

(** An access to a state that was destroyed is undefined. *)
Definition Pop_step (s : state) (k : pop) : outcome (option (state * pop_control)) :=
  if destroyed s then Undefined else
  match k with
  | PopLock => lock s (inl PopEmpty)
  | PopEmpty => Ret (Some (s, inl (match queue_ s with [] => PopUnlock | _ => PopReset end)))
  | PopUnlock => Ret (Some (set_mutex false s, inl PopWait))
  | PopWait => Ret (if notified_yet_ s then Some (s, inl PopRelock) else None)
  | PopRelock => lock s (inl PopReset)
  | PopReset => Ret (Some (set_notified false s, inl PopFront))
  | PopFront =>
      match queue_ s with
      | [] => Aborted
      | item :: q => Ret (Some (pop_front item q s, inl (PopReturn item)))
      end
  | PopReturn item => Ret (Some (set_mutex false s, inr (Some item)))
  end.

Definition push_step (s : state) (k : push) : outcome (option (state * push_control)) :=
  if destroyed s then match k with PushWeak _ => Ret (Some (s, inr false)) | _ => Undefined end else
  match k with
  | PushWeak item => Ret (Some (acquire s, inl (PushLock item)))
  | PushLock item => lock s (inl (PushSize item))
  | PushSize item =>
      Ret (Some (s, inl (if decide (length (queue_ s) < max_queue_length_ s)%nat then PushBack item
                         else PushReturn false)))
  | PushBack item => Ret (Some (push_back item s, inl PushNotify))
  | PushNotify => Ret (Some (set_notified true s, inl (PushReturn true)))
  | PushReturn r => Ret (Some (set_mutex false s, inl (PushRelease r)))
  | PushRelease r => Ret (Some (release s, inr r))
  end.

(** ** The system *)

(** The active calls of the reader and of the senders, and the results of [Pop]. *)
Record system := {
  shared : state;
  reading : option pop;
  sending : list push;
  results : list (option nat);
}.

Definition initial (max_length : nat) : system :=
  {| shared := initial_state max_length; reading := None; sending := []; results := [] |}.

Definition reading_after (c : pop_control) : option pop := match c with inl k => Some k | inr _ => None end.
Definition results_after (c : pop_control) : list (option nat) := match c with inl _ => [] | inr r => [r] end.
Definition sending_after (c : push_control) : list push := match c with inl k => [k] | inr _ => [] end.

Inductive step (σ : system) : system → Prop :=
| step_pop k s c :
    reading σ = Some k → Pop_step (shared σ) k = Ret (Some (s, c)) →
    step σ {| shared := s; reading := reading_after c; sending := sending σ; results := results σ ++ results_after c |}
| step_timeout :   (* the time is over, or a stop was requested *)
    reading σ = Some PopWait → notified_yet_ (shared σ) = false →
    step σ {| shared := shared σ; reading := None; sending := sending σ; results := results σ ++ [None] |}
| step_push k before after s c :
    sending σ = before ++ k :: after → push_step (shared σ) k = Ret (Some (s, c)) →
    step σ {| shared := s; reading := reading σ; sending := before ++ sending_after c ++ after; results := results σ |}
| step_start_pop :
    reading σ = None → alive (shared σ) = true →
    step σ {| shared := shared σ; reading := Some PopLock; sending := sending σ; results := results σ |}
| step_start_push item :
    step σ {| shared := shared σ; reading := reading σ; sending := PushWeak item :: sending σ; results := results σ |}
| step_destroy :
    reading σ = None → alive (shared σ) = true →
    step σ {| shared := destroy (shared σ); reading := None; sending := sending σ; results := results σ |}.

Definition reachable (max_length : nat) (σ : system) : Prop := rtc step (initial max_length) σ.

(** ** The invariant *)

Definition holds_pop (k : pop) : bool :=
  match k with PopEmpty | PopUnlock | PopReset | PopFront | PopReturn _ => true | _ => false end.
Definition holds_push (k : push) : bool :=
  match k with PushSize _ | PushBack _ | PushNotify | PushReturn _ => true | _ => false end.
Definition owns (k : push) : bool := match k with PushWeak _ => false | _ => true end.
Definition notifying (k : push) : bool := match k with PushNotify => true | _ => false end.

Definition on (P : pop → bool) (o : option pop) : nat := match o with Some k => Nat.b2n (P k) | None => 0 end.
Definition number (P : push → bool) (l : list push) : nat := length (filter (λ k, P k = true) l).

(** The element that [Pop] will return. *)
Definition carried (o : option pop) : list nat := match o with Some (PopReturn item) => [item] | _ => [] end.

Definition pop_ok (s : state) (notifiers : nat) (k : pop) : Prop :=
  match k with
  | PopUnlock => queue_ s = []
  | PopWait => queue_ s = [] ∨ notified_yet_ s = true ∨ (0 < notifiers)%nat
  | PopRelock | PopReset => queue_ s ≠ []
  | PopFront => queue_ s ≠ [] ∧ notified_yet_ s = false
  | _ => True
  end.

Definition push_ok (s : state) (k : push) : Prop :=
  match k with
  | PushBack _ => (length (queue_ s) < max_queue_length_ s)%nat
  | PushNotify => queue_ s ≠ []
  | _ => True
  end.

Record inv (σ : system) : Prop := {
  i_mutex : Nat.b2n (mutex_ (shared σ)) = (on holds_pop (reading σ) + number holds_push (sending σ))%nat;
  i_owners : use_count_ (shared σ) = (Nat.b2n (alive (shared σ)) + number owns (sending σ))%nat;
  i_alive : reading σ ≠ None → alive (shared σ) = true;
  i_notified : notified_yet_ (shared σ) = true → queue_ (shared σ) ≠ [];
  i_order : pushed (shared σ) = popped (shared σ) ++ queue_ (shared σ);
  i_results : popped (shared σ) = omap id (results σ) ++ carried (reading σ);
  i_length : (length (queue_ (shared σ)) ≤ max_queue_length_ (shared σ))%nat;
  i_pop k : reading σ = Some k → pop_ok (shared σ) (number notifying (sending σ)) k;
  i_push k : k ∈ sending σ → push_ok (shared σ) k;
}.

Lemma number_cons P k l : number P (k :: l) = (Nat.b2n (P k) + number P l)%nat.
Proof. unfold number. rewrite filter_cons. destruct (P k); [by rewrite decide_True|by rewrite decide_False]. Qed.

Lemma number_app P l l' : number P (l ++ l') = (number P l + number P l')%nat.
Proof. unfold number. by rewrite filter_app, length_app. Qed.

Lemma number_elem P k l : k ∈ l → P k = true → (0 < number P l)%nat.
Proof. intros (l1 & l2 & ->)%list_elem_of_split Hk. rewrite number_app, number_cons, Hk. simpl. lia. Qed.

Lemma number_pos P l : (0 < number P l)%nat → ∃ k, k ∈ l ∧ P k = true.
Proof.
  unfold number. intros H. destruct (filter (λ k, P k = true) l) as [|k l'] eqn:E; [simpl in H; lia|].
  assert (k ∈ filter (λ k, P k = true) l) as Hin by (rewrite E; apply list_elem_of_here).
  apply list_elem_of_filter in Hin as [??]. eauto.
Qed.

Lemma queue_lock_inv {K} s (k : K) s' k' : lock s k = Ret (Some (s', k')) →
  mutex_ s = false ∧ s' = set_mutex true s ∧ k' = k.
Proof. unfold lock. destruct (mutex_ s); [done|]. by intros [= <- <-]. Qed.

(** While the reader holds the mutex no sender does. *)
Lemma no_sender σ k : inv σ → reading σ = Some k → holds_pop k = true → number holds_push (sending σ) = 0%nat.
Proof.
  intros [] Hk Hh. rewrite Hk in *. cbn in *. rewrite Hh in *. destruct (mutex_ (shared σ)); simpl in *; lia.
Qed.

Ltac queue_case :=
  split; cbn -[number]; rewrite ?app_nil_r in *; try done; try lia; try (by intros k [= <-]); try (intros k [= <-]; cbn -[number]).

Lemma pop_inv σ k s c : inv σ → reading σ = Some k → Pop_step (shared σ) k = Ret (Some (s, c)) →
  inv {| shared := s; reading := reading_after c; sending := sending σ; results := results σ ++ results_after c |}.
Proof.
  intros I Hk E. pose proof (no_sender σ k I Hk) as Hno. pose proof (i_pop σ I k Hk) as Hok.
  assert (∀ q k, k ∈ sending σ → number holds_push (sending σ) = 0%nat → push_ok q k) as Hpush.
  { intros q k0 Hin Hz. destruct (holds_push k0) eqn:Eh; [|by destruct k0].
    pose proof (number_elem holds_push k0 _ Hin Eh). lia. }
  unfold Pop_step in E. destruct (destroyed (shared σ)); [done|].
  destruct I as []. rewrite Hk in *. pose proof (i_alive0 ltac:(done)) as Ha. clear i_alive0. cbn [on carried] in *.
  destruct k; cbn [holds_pop Nat.b2n pop_ok] in *.
  - (* PopLock *) apply queue_lock_inv in E as (Hm & -> & ->). rewrite Hm in *. cbn -[number] in i_mutex0. queue_case.
  - (* PopEmpty *) injection E as <- <-. destruct (queue_ (shared σ)) as [|x q] eqn:Eq; queue_case; rewrite ?Eq, ?app_nil_r; done.
  - (* PopUnlock *) injection E as <- <-. rewrite (Hno eq_refl) in *. queue_case. by left.
  - (* PopWait *) destruct (notified_yet_ (shared σ)) eqn:En; [|done]. injection E as <- <-. queue_case; intros; by apply i_notified0.
  - (* PopRelock *) apply queue_lock_inv in E as (Hm & -> & ->). rewrite Hm in *. cbn -[number] in i_mutex0. queue_case.
  - (* PopReset *) injection E as <- <-. queue_case.
  - (* PopFront *) destruct (queue_ (shared σ)) as [|x q] eqn:Eq; [done|]. injection E as <- <-. queue_case.
    + by rewrite (proj2 Hok).
    + by rewrite <- app_assoc.
    + by rewrite i_results0.
    + simpl in i_length0. lia.
    + intros k Hin. by apply Hpush; [|apply Hno].
  - (* PopReturn *) injection E as <- <-. rewrite (Hno eq_refl) in *. queue_case. by rewrite omap_app.
Qed.

(** A change by a sender; nobody else holds the mutex if the sender does. *)
Lemma sender_change σ k before after s c : inv σ → sending σ = before ++ k :: after →
  popped s = popped (shared σ) → pushed s = popped s ++ queue_ s →
  (length (queue_ s) ≤ max_queue_length_ s)%nat → (notified_yet_ s = true → queue_ s ≠ []) →
  (Nat.b2n (mutex_ s) + Nat.b2n (holds_push k) = Nat.b2n (mutex_ (shared σ)) + number holds_push (sending_after c))%nat →
  alive s = alive (shared σ) →
  (use_count_ s + Nat.b2n (owns k) = use_count_ (shared σ) + number owns (sending_after c))%nat →
  (∀ n kr, pop_ok (shared σ) (Nat.b2n (notifying k) + n) kr → (holds_push k = true → holds_pop kr = false) →
    pop_ok s (number notifying (sending_after c) + n) kr) →
  (∀ k', push_ok (shared σ) k' → (holds_push k = true → holds_push k' = false) → push_ok s k') →
  (∀ k', k' ∈ sending_after c → push_ok s k') →
  inv {| shared := s; reading := reading σ; sending := before ++ sending_after c ++ after; results := results σ |}.
Proof.
  intros [] ES Epop Hpu Hlen Hnot Hm Hal Hown Hpop Hpush Hnext.
  assert (∀ P, number P (sending σ) = (Nat.b2n (P k) + number P (before ++ after))%nat) as Hold
    by (intros P; rewrite ES, !number_app, number_cons; lia).
  assert (∀ P, number P (before ++ sending_after c ++ after) = (number P (sending_after c) + number P (before ++ after))%nat) as Hnew
    by (intros P; rewrite !number_app; lia).
  rewrite Hold in i_mutex0, i_owners0.
  assert (∀ b, (Nat.b2n b ≤ 1)%nat) as Hb by (intros []; simpl; lia). pose proof (Hb (mutex_ (shared σ))) as Hm1.
  split; cbn [shared reading sending results]; try done; [rewrite Hnew; lia|rewrite Hnew, Hal; lia|by rewrite Hal|by rewrite Epop|..].
  - intros kr Hr. rewrite Hnew. apply Hpop; [rewrite <- Hold; by apply i_pop0|]. intros Hk. rewrite Hr, Hk in i_mutex0.
    cbn -[number] in i_mutex0. destruct (holds_pop kr); [simpl in i_mutex0; lia|done].
  - intros k' [Hk'|[Hk'|Hk']%elem_of_app]%elem_of_app; [|by apply Hnext|].
    all: assert (k' ∈ before ++ after) as Hin by (apply elem_of_app; auto).
    all: apply Hpush; [apply i_push0; rewrite ES; apply elem_of_app; rewrite elem_of_cons; auto|].
    all: intros Hk; destruct (holds_push k') eqn:Eh; [|done]; pose proof (number_elem holds_push k' _ Hin Eh);
      rewrite Hk in i_mutex0; simpl in i_mutex0; lia.
Qed.

Ltac sender I :=
  eapply (sender_change _ _ _ _ _ _ I); [eassumption|..]; cbn -[number pop_ok push_ok holds_pop]; try done; try (by intros k' ?%elem_of_nil);
  try (by intros k' ->%list_elem_of_singleton).

Lemma push_inv σ k before after s c : inv σ → sending σ = before ++ k :: after →
  push_step (shared σ) k = Ret (Some (s, c)) →
  inv {| shared := s; reading := reading σ; sending := before ++ sending_after c ++ after; results := results σ |}.
Proof.
  intros I ES E. assert (push_ok (shared σ) k) as Hok by (apply (i_push σ I); rewrite ES; apply elem_of_app; right; apply list_elem_of_here).
  assert (holds_push k = true → mutex_ (shared σ) = true) as Hm.
  { intros Hk. pose proof (i_mutex σ I) as Hm. rewrite ES, number_app, number_cons, Hk in Hm. destruct (mutex_ (shared σ)); [done|].
    simpl in Hm. lia. }
  pose proof I as []. unfold push_step in E. destruct (destroyed (shared σ)) eqn:Ed.
  { destruct k; try done. injection E as <- <-. sender I. }
  unfold destroyed in Ed. apply Nat.eqb_neq in Ed.
  destruct k as [x|x|x|x| |b|b]; cbn [push_ok holds_push] in *.
  - (* PushWeak *) injection E as <- <-. sender I.
  - (* PushLock *) apply queue_lock_inv in E as (Hm' & -> & ->). sender I. by rewrite Hm'.
  - (* PushSize *) injection E as <- <-. destruct (decide _); sender I.
  - (* PushBack *) injection E as <- <-. sender I.
    + by rewrite i_order0, app_assoc.
    + rewrite length_app. simpl. lia.
    + by destruct (queue_ (shared σ)).
    + intros n kr Hr Hh. specialize (Hh eq_refl). change (number notifying [PushNotify]) with 1%nat.
      destruct kr; cbn in *; try done; destruct (queue_ (shared σ)); (done || auto with lia).
    + intros k' Hk' Hh. specialize (Hh eq_refl). by destruct k'.
    + intros k' ->%list_elem_of_singleton. cbn. by destruct (queue_ (shared σ)).
  - (* PushNotify *) injection E as <- <-. sender I.
    intros n kr Hr Hh. specialize (Hh eq_refl). destruct kr; cbn in *; try done; auto.
  - (* PushReturn *) injection E as <- <-. pose proof (Hm eq_refl) as Hm'. sender I. by rewrite Hm'.
  - (* PushRelease *) injection E as <- <-. sender I. change (number owns []) with 0%nat. simpl. lia.
Qed.

Lemma queue_step_inv σ σ' : inv σ → step σ σ' → inv σ'.
Proof.
  intros I [k s c Hk E|Hk Hn|k before after s c ES E|Hk Ha|item|Hk Ha].
  - by eapply pop_inv.
  - destruct I as []. rewrite Hk in *. split; cbn -[number] in *; try done.
    rewrite omap_app. cbn. by rewrite !app_nil_r in *.
  - by eapply push_inv.
  - destruct I as []. rewrite Hk in *. split; cbn -[number] in *; try done. by intros k [= <-].
  - destruct I as []. split; cbn -[number] in *; rewrite ?number_cons; try done.
    by intros k [->|Hin]%elem_of_cons; [|apply i_push0].
  - destruct I as []. rewrite Hk in *. split; cbn -[number] in *; try done. rewrite Ha in i_owners0. simpl in *. lia.
Qed.

Lemma step_max σ σ' : step σ σ' → max_queue_length_ (shared σ') = max_queue_length_ (shared σ).
Proof.
  intros [k s c Hk E|Hk Hn|k before after s c ES E|Hk _|item|Hk _]; try done; cbn [shared].
  - unfold Pop_step, push_step in E. destruct (destroyed (shared σ)); destruct k; cbn in E; unfold lock in E; repeat case_match; by simplify_eq.
  - unfold Pop_step, push_step in E. destruct (destroyed (shared σ)); destruct k; cbn in E; unfold lock in E; repeat case_match; by simplify_eq.
Qed.

Lemma queue_reachable_inv max_length σ : reachable max_length σ → inv σ ∧ max_queue_length_ (shared σ) = max_length.
Proof.
  unfold reachable. apply (rtc_ind_r (λ σ, inv σ ∧ max_queue_length_ (shared σ) = max_length)).
  - split; [|done]. split; cbn; try done; [lia|by intros k ?%elem_of_nil].
  - intros σ1 σ2 _ Hs [I HN]. split; [by eapply queue_step_inv|]. by rewrite (step_max σ1 σ2).
Qed.

(** ** Theorems *)

(** An active call owns the state, or, in the case of the reader, its queue does. *)
Lemma not_destroyed σ : inv σ → reading σ ≠ None ∨ (∃ k, k ∈ sending σ ∧ owns k = true) → destroyed (shared σ) = false.
Proof.
  intros [] H. apply Nat.eqb_neq. destruct H as [Hr|(k & Hin & Hk)].
  - rewrite (i_alive0 Hr) in i_owners0. simpl in i_owners0. lia.
  - pose proof (number_elem owns k _ Hin Hk). lia.
Qed.

(** C24: with one reader and any number of senders the assertion in [Pop] never
    fails, and no call uses the state after its last owner destroyed it; [Pop] has
    returned the elements in the order in which they were pushed, all of them
    but those in the queue and the one it is about to return; and the queue is
    never longer than its maximum. *)
Theorem synchronized_queue_safe max_length σ : reachable max_length σ →
  (∀ k, reading σ = Some k → ∃ r, Pop_step (shared σ) k = Ret r) ∧
  (∀ k, k ∈ sending σ → ∃ r, push_step (shared σ) k = Ret r) ∧
  pushed (shared σ) = omap id (results σ) ++ carried (reading σ) ++ queue_ (shared σ) ∧
  (length (queue_ (shared σ)) ≤ max_length)%nat.
Proof.
  intros [I <-]%queue_reachable_inv. pose proof (not_destroyed σ I) as Hd. destruct I as []. split_and!; [| | |done].
  - intros k Hk. specialize (i_pop0 k Hk). unfold Pop_step. rewrite Hd by (left; by rewrite Hk).
    destruct k; cbn in *; unfold lock; eauto. destruct (queue_ (shared σ)); [by destruct i_pop0|eauto].
  - intros k Hin. unfold push_step. destruct (owns k) eqn:Ek; [rewrite Hd by eauto|];
      destruct k; cbn; unfold lock; try done; eauto. destruct (destroyed (shared σ)); eauto.
  - by rewrite i_order0, i_results0, app_assoc.
Qed.

(** Progress: when no call can make a step, the only call is a [Pop] that
    waits, and the queue is empty: no notification is lost, and nobody waits for
    the mutex. *)
Theorem synchronized_queue_progress max_length σ : reachable max_length σ →
  (∀ k, reading σ = Some k → Pop_step (shared σ) k = Ret None) →
  (∀ k, k ∈ sending σ → push_step (shared σ) k = Ret None) →
  sending σ = [] ∧ (reading σ = None ∨ reading σ = Some PopWait ∧ queue_ (shared σ) = []).
Proof.
  intros [I _]%queue_reachable_inv Hr Hs. pose proof (not_destroyed σ I) as Hd. destruct I as [].
  assert (∀ k, reading σ = Some k → destroyed (shared σ) = false) as Hd1 by (intros k E; apply Hd; left; by rewrite E).
  assert (∀ k, k ∈ sending σ → owns k = true → destroyed (shared σ) = false) as Hd2 by eauto.
  unfold Pop_step in Hr. unfold push_step in Hs.
  assert (mutex_ (shared σ) = false) as Hm.
  { destruct (mutex_ (shared σ)); [|done]. exfalso. destruct (decide (0 < number holds_push (sending σ))%nat) as [Hp|Hp].
    - apply number_pos in Hp as (k & Hin & Hk). specialize (Hs k Hin).
      rewrite (Hd2 k Hin) in Hs by (by destruct k). by destruct k.
    - destruct (reading σ) as [k|]; cbn -[number] in i_mutex0; [|lia]. specialize (Hr k eq_refl). rewrite (Hd1 k eq_refl) in Hr.
      specialize (i_pop0 k eq_refl). destruct k; try done; try (cbn -[number] in i_mutex0; lia). cbn in *. by destruct (queue_ (shared σ)), i_pop0. }
  assert (sending σ = []) as Hsend.
  { destruct (sending σ) as [|k l]; [done|]. exfalso. specialize (Hs k (list_elem_of_here _ _)).
    destruct (owns k) eqn:Ek; [rewrite (Hd2 k (list_elem_of_here _ _) Ek) in Hs|];
      destruct (destroyed (shared σ)); destruct k; cbn in Hs; unfold lock in Hs; by rewrite ?Hm in Hs. }
  split; [done|]. destruct (reading σ) as [k|]; [right|by left]. specialize (Hr k eq_refl). rewrite (Hd1 k eq_refl) in Hr. specialize (i_pop0 k eq_refl).
  destruct k; cbn -[number] in *; unfold lock in Hr; rewrite ?Hm in Hr; try done.
  - destruct (notified_yet_ (shared σ)); [done|]. rewrite Hsend in i_pop0. split; [done|].
    destruct i_pop0 as [?|[?|Hn]]; [done..|]. by apply Nat.nlt_0_r in Hn.
  - by destruct (queue_ (shared σ)), i_pop0.
Qed.

(** ** Executions *)

Inductive action := RunPop | Timeout | RunPush (i : nat) | StartPop | StartPush (item : nat).

Definition perform (σ : system) (a : action) : option system :=
  match a with
  | RunPop =>
      k ← reading σ;
      match Pop_step (shared σ) k with
      | Ret (Some (s, c)) =>
          Some {| shared := s; reading := reading_after c; sending := sending σ; results := results σ ++ results_after c |}
      | _ => None
      end
  | Timeout =>
      match reading σ with
      | Some PopWait =>
          if notified_yet_ (shared σ) then None
          else Some {| shared := shared σ; reading := None; sending := sending σ; results := results σ ++ [None] |}
      | _ => None
      end
  | RunPush i =>
      k ← sending σ !! i;
      match push_step (shared σ) k with
      | Ret (Some (s, c)) =>
          Some {| shared := s; reading := reading σ;
                  sending := take i (sending σ) ++ sending_after c ++ drop (S i) (sending σ); results := results σ |}
      | _ => None
      end
  | StartPop =>
      match reading σ with
      | None => if alive (shared σ)
                then Some {| shared := shared σ; reading := Some PopLock; sending := sending σ; results := results σ |}
                else None
      | Some _ => None
      end
  | StartPush item =>
      Some {| shared := shared σ; reading := reading σ; sending := PushWeak item :: sending σ; results := results σ |}
  end.

Fixpoint schedule (σ : system) (l : list action) : option system :=
  match l with [] => Some σ | a :: l => σ' ← perform σ a; schedule σ' l end.

Lemma queue_perform_step σ a σ' : perform σ a = Some σ' → step σ σ'.
Proof.
  destruct a as [| |i| |item]; cbn [perform].
  - destruct (reading σ) as [k|] eqn:Ek; [|done]. cbn [mbind option_bind].
    destruct (Pop_step _ _) as [[[s c]|]| |] eqn:E; try done. intros [= <-]. by eapply SynchronizedQueue.step_pop.
  - destruct (reading σ) as [[]|] eqn:Ek; try done. destruct (notified_yet_ (shared σ)) eqn:En; [done|]. intros [= <-].
    by apply step_timeout.
  - destruct (sending σ !! i) as [k|] eqn:Ek; [|done]. cbn [mbind option_bind].
    destruct (push_step _ _) as [[[s c]|]| |] eqn:E; try done. intros [= <-]. eapply step_push; [|done]. symmetry. by apply take_drop_middle.
  - destruct (reading σ) eqn:Ek; [done|]. destruct (alive (shared σ)) eqn:Ea; [|done]. intros [= <-]. by apply step_start_pop.
  - intros [= <-]. apply step_start_push.
Qed.

Lemma queue_schedule_reachable max_length l σ : schedule (initial max_length) l = Some σ → reachable max_length σ.
Proof.
  unfold reachable. generalize (initial max_length) as σ0. induction l as [|a l IH]; intros σ0; cbn [schedule].
  { intros [= ->]. constructor. }
  destruct (perform σ0 a) as [σ1|] eqn:E; [|done]. cbn [mbind option_bind]. intros H.
  eapply rtc_l; [by eapply queue_perform_step|by apply IH].
Qed.

(** The reader waits, gets element 4 of the first sender, and waits again. *)
Definition queue_schedule : list action :=
  [StartPop; RunPop; RunPop; RunPop; StartPush 4] ++ replicate 7 (RunPush 0) ++ replicate 5 RunPop ++
  [StartPop; RunPop; RunPop; RunPop].

Definition after_pop : system := default (initial 2) (schedule (initial 2) queue_schedule).

Lemma after_pop_reachable : reachable 2 after_pop.
Proof. apply (queue_schedule_reachable 2 queue_schedule). by vm_compute. Qed.

Lemma synchronized_queue_safe_witness : results after_pop = [Some 4%nat] ∧ pushed (shared after_pop) = [4]%nat.
Proof.
  split; [by vm_compute|]. destruct (synchronized_queue_safe 2 after_pop after_pop_reachable) as (_ & _ & -> & _). by vm_compute.
Defined.

Lemma synchronized_queue_progress_witness : reading after_pop = Some PopWait ∧ sending after_pop = [].
Proof.
  split; [by vm_compute|]. apply (synchronized_queue_progress 2 after_pop after_pop_reachable).
  - intros k. vm_compute. by intros [= <-].
  - intros k. assert (sending after_pop = []) as -> by by vm_compute. by intros ?%elem_of_nil.
Defined.

End SynchronizedQueue.
