(* ===== verification/WaitFreeStack.v ===== *)
(** * The wait-free stack of the logging library: mw/log/detail/wait_free_stack

    [WaitFreeStack] is shared by any number of threads.  The state is the shared
    memory (the two vectors and the two atomics) and, for every thread, how far
    it is in a call of [TryPush] or [Find].  A step of a thread is one access to
    the shared memory together with the local computation up to the next one;
    the steps of the threads interleave in any order, which is what the
    sequentially consistent atomics and the fences of the source give as long as
    no element is read while it is written.  That this never happens is part of
    what is proved.

    A reference to an element is its index.  [Returned] keeps the call and its
    result until the thread starts its next call. *)

From S2P Require Import Prelude CppInt.
From stdpp Require Import relations.

Local Open Scope Z_scope.

Module WaitFreeStack.
Section Stack.
Context {Element : Type}.

Inductive call :=
| TryPush (element : Element)
| Find (predicate : Element → bool).

(** The shared members of the class. *)
Record stack := {
  elements_ : list (option Element);
  elements_written_ : list Z;
  write_index_ : Z;
  capacity_full_ : bool;
}.

(** The constructor, for [max_number_of_elements] elements. *)
Definition make (max_number_of_elements : nat) : stack := {|
  elements_ := replicate max_number_of_elements None;
  elements_written_ := replicate max_number_of_elements 0;
  write_index_ := 0;
  capacity_full_ := false;
|}.

(** The next access of a thread to the shared memory. *)
Inductive thread :=
| Idle
| PushCheck (e : Element)              (* capacity_full_.load() *)
| PushFetch (e : Element)              (* fetch_add(write_index_, 1) *)
| PushFull (e : Element)               (* capacity_full_.store(true) *)
| PushWrite (e : Element) (i : nat)    (* elements_[i] = element *)
| PushFlag (e : Element) (i : nat)     (* elements_written_[i].store(1) *)
| PushReturn (e : Element) (i : nat)   (* return elements_[i].value() *)
| FindLoop (p : Element → bool) (i : nat)  (* i < size && i <= write_index_.load() *)
| FindLoad (p : Element → bool) (i : nat)  (* elements_written_[i].load() *)
| FindTest (p : Element → bool) (i : nat)  (* predicate(elements_[i].value()) *)
| Returned (c : call) (r : option nat).

(** The first access of a call. *)
Definition begin_call (c : call) : thread :=
  match c with TryPush e => PushCheck e | Find p => FindLoop p 0 end.

(** [elements_\[i\].value()]: an index past the end is undefined, an empty
    optional aborts. *)
Definition element_value (s : stack) (i : nat) : outcome Element :=
  match elements_ s !! i with
  | Some (Some e) => Ret e
  | Some None => Aborted
  | None => Undefined
  end.

(** The step of a thread that is within a call. *)
Definition TryPush_step (s : stack) (th : thread) : outcome (stack * thread) :=
  match th with
  | PushCheck e =>
      if capacity_full_ s then Ret (s, Returned (TryPush e) None) else Ret (s, PushFetch e)
  | PushFetch e =>
      let current_write_index := write_index_ s in
      let s := {| elements_ := elements_ s; elements_written_ := elements_written_ s;
                  write_index_ := u64 (current_write_index + 1);
                  capacity_full_ := capacity_full_ s |} in
      if Z.of_nat (length (elements_ s)) <=? current_write_index then Ret (s, PushFull e)
      else Ret (s, PushWrite e (Z.to_nat current_write_index))
  | PushFull e =>
      Ret ({| elements_ := elements_ s; elements_written_ := elements_written_ s;
              write_index_ := write_index_ s; capacity_full_ := true |},
           Returned (TryPush e) None)
  | PushWrite e i =>
      if (i <? length (elements_ s))%nat then
        Ret ({| elements_ := <[i := Some e]> (elements_ s); elements_written_ := elements_written_ s;
                write_index_ := write_index_ s; capacity_full_ := capacity_full_ s |}, PushFlag e i)
      else Undefined
  | PushFlag e i =>
      if (i <? length (elements_written_ s))%nat then
        Ret ({| elements_ := elements_ s; elements_written_ := <[i := 1]> (elements_written_ s);
                write_index_ := write_index_ s; capacity_full_ := capacity_full_ s |}, PushReturn e i)
      else Undefined
  | PushReturn e i => _ ← element_value s i; Ret (s, Returned (TryPush e) (Some i))
  | th => Ret (s, th)
  end.

Definition Find_step (s : stack) (th : thread) : outcome (stack * thread) :=
  match th with
  | FindLoop p i =>
      if (i <? length (elements_ s))%nat && (Z.of_nat i <=? write_index_ s)
      then Ret (s, FindLoad p i) else Ret (s, Returned (Find p) None)
  | FindLoad p i =>
      match elements_written_ s !! i with
      | Some w => if negb (w =? 0) then Ret (s, FindTest p i) else Ret (s, FindLoop p (i + 1))
      | None => Undefined
      end
  | FindTest p i =>
      e ← element_value s i;
      if p e then Ret (s, Returned (Find p) (Some i)) else Ret (s, FindLoop p (i + 1))
  | th => Ret (s, th)
  end.

Definition thread_step (s : stack) (th : thread) : outcome (stack * thread) :=
  match th with
  | FindLoop _ _ | FindLoad _ _ | FindTest _ _ => Find_step s th
  | th => TryPush_step s th
  end.

Definition running (th : thread) : bool :=
  match th with Idle | Returned _ _ => false | _ => true end.

(** ** The system *)

Record system := { shared : stack; threads : list thread }.

Inductive label :=
| Start (t : nat) (c : call)   (* thread [t] calls *)
| Run (t : nat).               (* thread [t] makes its next access *)

Inductive step : label → system → system → Prop :=
| step_start t c σ th :
    threads σ !! t = Some th → running th = false →
    step (Start t c) σ {| shared := shared σ; threads := <[t := begin_call c]> (threads σ) |}
| step_run t σ th s' th' :
    threads σ !! t = Some th → running th = true →
    thread_step (shared σ) th = Ret (s', th') →
    step (Run t) σ {| shared := s'; threads := <[t := th']> (threads σ) |}.

(** [trace ls σ σ']: the system makes the steps [ls]. *)
Inductive trace : list label → system → system → Prop :=
| trace_nil σ : trace [] σ σ
| trace_cons l ls σ σ' σ'' : step l σ σ' → trace ls σ' σ'' → trace (l :: ls) σ σ''.

(** A new stack and threads that do nothing yet. *)
Definition initial (size thread_count : nat) : system :=
  {| shared := make size; threads := replicate thread_count Idle |}.

(** ** Invariant *)

(** The element that a thread has claimed with its last push. *)
Definition claim (th : thread) : option nat :=
  match th with
  | PushWrite _ i | PushFlag _ i | PushReturn _ i | Returned (TryPush _) (Some i) => Some i
  | _ => None
  end.

Definition written (s : stack) (i : nat) : Prop := elements_written_ s !! i = Some 1.
Definition holds (s : stack) (i : nat) (e : Element) : Prop := elements_ s !! i = Some (Some e).

(** What the program point of a thread says about the shared memory. *)
Definition thread_inv (s : stack) (th : thread) : Prop :=
  match th with
  | PushWrite e i =>
      (i < length (elements_ s))%nat ∧ Z.of_nat i < write_index_ s
      ∧ elements_written_ s !! i = Some 0 ∧ elements_ s !! i = Some None
  | PushFlag e i =>
      (i < length (elements_ s))%nat ∧ Z.of_nat i < write_index_ s
      ∧ elements_written_ s !! i = Some 0 ∧ holds s i e
  | PushReturn e i => written s i ∧ holds s i e
  | FindLoad p i => (i < length (elements_ s))%nat
  | FindTest p i => written s i
  | PushFull _ => Z.of_nat (length (elements_ s)) <= write_index_ s
  | Returned (TryPush e) (Some i) => written s i ∧ holds s i e
  | Returned (TryPush e) None => Z.of_nat (length (elements_ s)) <= write_index_ s
  | Returned (Find p) (Some i) => written s i ∧ ∃ e, holds s i e ∧ p e = true
  | _ => True
  end.

Definition is_full_pc (th : thread) : bool := match th with PushFull _ => true | _ => false end.
Definition is_fetch_pc (th : thread) : bool := match th with PushFetch _ => true | _ => false end.
Definition count (f : thread → bool) (ths : list thread) : Z :=
  Z.of_nat (length (filter (λ th, f th = true) ths)).

(** How often the index was incremented beyond the end. *)
Definition excess (s : stack) : Z := Z.max 0 (write_index_ s - Z.of_nat (length (elements_ s))).

Record inv (σ : system) : Prop := {
  inv_length : length (elements_written_ (shared σ)) = length (elements_ (shared σ));
  inv_index : 0 <= write_index_ (shared σ);
  inv_threads : ∀ t th, threads σ !! t = Some th → thread_inv (shared σ) th;
  inv_claims : ∀ t1 t2 th1 th2 i, threads σ !! t1 = Some th1 → threads σ !! t2 = Some th2 →
    claim th1 = Some i → claim th2 = Some i → t1 = t2;
  inv_elements : ∀ i w, elements_written_ (shared σ) !! i = Some w →
    w = 0 ∨ w = 1 ∧ (∃ e, holds (shared σ) i e) ∧ Z.of_nat i < write_index_ (shared σ);
  inv_free : ∀ i, (i < length (elements_ (shared σ)))%nat → write_index_ (shared σ) <= Z.of_nat i →
    elements_ (shared σ) !! i = Some None;
  inv_full : capacity_full_ (shared σ) = true →
    Z.of_nat (length (elements_ (shared σ))) <= write_index_ (shared σ);
  inv_excess :
    if capacity_full_ (shared σ)
    then excess (shared σ) + count is_fetch_pc (threads σ) <= Z.of_nat (length (threads σ))
    else excess (shared σ) <= count is_full_pc (threads σ);
  inv_bound : Z.of_nat (length (elements_ (shared σ))) + Z.of_nat (length (threads σ)) < 2 ^ 64;
}.

(** ** Lemmas *)

Lemma count_app f l1 l2 : count f (l1 ++ l2) = count f l1 + count f l2.
Proof. unfold count. rewrite filter_app, length_app. lia. Qed.

Lemma count_cons f th l : count f (th :: l) = Z.b2z (f th) + count f l.
Proof.
  unfold count. rewrite filter_cons. destruct (f th); [rewrite decide_True by done|rewrite decide_False by done];
    simpl; lia.
Qed.

Lemma count_insert f ths t th th' :
  ths !! t = Some th → count f (<[t := th']> ths) = count f ths - Z.b2z (f th) + Z.b2z (f th').
Proof.
  intros Ht. pose proof (lookup_lt_Some _ _ _ Ht) as Hl.
  rewrite insert_take_drop by done. rewrite <- (take_drop_middle ths t th Ht) at 3.
  rewrite !count_app, !count_cons. lia.
Qed.

Lemma count_nonneg f ths : 0 <= count f ths.
Proof. unfold count. lia. Qed.

Lemma count_disjoint f g ths :
  (∀ th, f th = true → g th = false) → count f ths + count g ths <= Z.of_nat (length ths).
Proof.
  intros Hfg. induction ths as [|th ths IH]; [done|]. rewrite !count_cons. simpl length.
  destruct (f th) eqn:E; [rewrite (Hfg _ E)|destruct (g th)]; simpl; lia.
Qed.

Lemma full_fetch_disjoint ths :
  count is_full_pc ths + count is_fetch_pc ths <= Z.of_nat (length ths).
Proof. apply count_disjoint. by intros []. Qed.

Lemma count_lookup f ths t th : ths !! t = Some th → f th = true → 1 <= count f ths.
Proof.
  intros Ht Hf. rewrite <- (take_drop_middle ths t th Ht), count_app, count_cons, Hf.
  pose proof (count_nonneg f (take t ths)). pose proof (count_nonneg f (drop (S t) ths)). simpl. lia.
Qed.

(** A change of the shared memory at most at one index, which keeps what was
    written. *)
Record evolves (changed : option nat) (s s' : stack) : Prop := {
  ev_elements : length (elements_ s') = length (elements_ s);
  ev_index : write_index_ s <= write_index_ s';
  ev_same : ∀ j, changed ≠ Some j →
    elements_ s' !! j = elements_ s !! j ∧ elements_written_ s' !! j = elements_written_ s !! j;
  ev_holds : ∀ j e, holds s j e → holds s' j e;
  ev_written : ∀ j, written s j → written s' j;
}.

Lemma evolves_refl s : evolves None s s.
Proof. by split. Qed.

Lemma thread_inv_evolves changed s s' th :
  evolves changed s s' → (∀ i, claim th = Some i → changed ≠ Some i) →
  thread_inv s th → thread_inv s' th.
Proof.
  intros [Hl Hi Hs Hh Hw] Hc. destruct th as [| | | |e i|e i| | | | |[e|p] [r|]]; simpl; try done.
  - rewrite Hl. lia.
  - destruct (Hs i) as [-> ->]; [by apply Hc|]. rewrite Hl. naive_solver lia.
  - destruct (Hs i) as [_ ->]; [by apply Hc|]. rewrite Hl. naive_solver lia.
  - naive_solver.
  - by rewrite Hl.
  - naive_solver.
  - naive_solver.
  - rewrite Hl. lia.
  - naive_solver.
Qed.

(** The other threads are not affected by a step that changes the element
    which the thread itself has claimed. *)
Lemma threads_after changed σ t th th' s' :
  inv σ → threads σ !! t = Some th → evolves changed (shared σ) s' →
  (∀ i, changed = Some i → claim th = Some i) → thread_inv s' th' →
  ∀ t2 th2, <[t := th']> (threads σ) !! t2 = Some th2 → thread_inv s' th2.
Proof.
  intros Hinv Ht He Hc Hth' t2 th2 Ht2. destruct (decide (t2 = t)) as [->|Hne].
  - rewrite list_lookup_insert_eq in Ht2 by by eapply lookup_lt_Some. by simplify_eq.
  - rewrite list_lookup_insert_ne in Ht2 by done.
    eapply thread_inv_evolves; [done| |by eapply inv_threads].
    intros i Hi ->. apply Hne. by eapply (inv_claims σ Hinv t2 t); eauto.
Qed.

(** A thread that claims no other element than before keeps claims unique. *)
Lemma claims_after σ t th th' :
  inv σ → threads σ !! t = Some th → (∀ i, claim th' = Some i → claim th = Some i) →
  ∀ t1 t2 th1 th2 i, <[t := th']> (threads σ) !! t1 = Some th1 →
    <[t := th']> (threads σ) !! t2 = Some th2 →
    claim th1 = Some i → claim th2 = Some i → t1 = t2.
Proof.
  intros Hinv Ht Hc t1 t2 th1 th2 i H1 H2 C1 C2.
  apply list_lookup_insert_Some in H1 as [(<- & <- & _)|[_ H1]];
    apply list_lookup_insert_Some in H2 as [(<- & <- & _)|[_ H2]];
    [done|eapply (inv_claims σ Hinv); eauto..].
Qed.

(** A new claim does not clash with the others, which are below the index. *)
Lemma claims_new σ t th th' :
  inv σ → threads σ !! t = Some th →
  (∀ i, claim th' = Some i → write_index_ (shared σ) <= Z.of_nat i) →
  ∀ t1 t2 th1 th2 i, <[t := th']> (threads σ) !! t1 = Some th1 →
    <[t := th']> (threads σ) !! t2 = Some th2 →
    claim th1 = Some i → claim th2 = Some i → t1 = t2.
Proof.
  intros Hinv Ht Hc t1 t2 th1 th2 i H1 H2 C1 C2.
  assert (∀ t' th0, threads σ !! t' = Some th0 → claim th0 = Some i → Z.of_nat i < write_index_ (shared σ))
    as Hold.
  { intros t' th0 H0 C0. pose proof (inv_threads σ Hinv _ _ H0) as Hth.
    assert (written (shared σ) i → Z.of_nat i < write_index_ (shared σ)) as Hw.
    { intros Hw. destruct (inv_elements σ Hinv _ _ Hw) as [?|(_ & _ & ?)]; done. }
    destruct th0 as [| | | | | | | | | |[] []]; simplify_eq/=; tauto. }
  apply list_lookup_insert_Some in H1 as [(<- & <- & _)|[_ H1]];
    apply list_lookup_insert_Some in H2 as [(<- & <- & _)|[_ H2]]; [done| | |].
  - specialize (Hold _ _ H2 C2). specialize (Hc _ C1). lia.
  - specialize (Hold _ _ H1 C1). specialize (Hc _ C2). lia.
  - eapply (inv_claims σ Hinv); eauto.
Qed.

(** Steps that leave the shared memory as it is. *)
Lemma inv_local σ t th th' :
  inv σ → threads σ !! t = Some th → thread_inv (shared σ) th' →
  (∀ i, claim th' = Some i → claim th = Some i) →
  (capacity_full_ (shared σ) = true → is_fetch_pc th' = true → is_fetch_pc th = true) →
  (capacity_full_ (shared σ) = false → is_full_pc th = true → is_full_pc th' = true) →
  inv {| shared := shared σ; threads := <[t := th']> (threads σ) |}.
Proof.
  intros Hinv Ht Hth' Hc Hfetch Hfull. pose proof Hinv as [].
  split; simpl; try done; rewrite ?length_insert; try done.
  - eapply (threads_after None); try done; apply evolves_refl.
  - by eapply claims_after.
  - destruct (capacity_full_ (shared σ)); rewrite (count_insert _ _ _ th) by done.
    + specialize (Hfetch eq_refl). destruct (is_fetch_pc th'), (is_fetch_pc th); simpl; naive_solver lia.
    + specialize (Hfull eq_refl). destruct (is_full_pc th'), (is_full_pc th); simpl; naive_solver lia.
Qed.

(** The index cannot wrap around. *)
Lemma fetch_bound σ t e :
  inv σ → threads σ !! t = Some (PushFetch e) →
  write_index_ (shared σ) + 1
    <= Z.of_nat (length (elements_ (shared σ))) + Z.of_nat (length (threads σ)).
Proof.
  intros Hinv Ht. pose proof (inv_excess σ Hinv) as He.
  pose proof (count_lookup is_fetch_pc _ _ _ Ht eq_refl).
  pose proof (full_fetch_disjoint (threads σ)). unfold excess in He.
  destruct (capacity_full_ (shared σ)); lia.
Qed.

Lemma inv_fetch σ t e s' th' :
  inv σ → threads σ !! t = Some (PushFetch e) → thread_step (shared σ) (PushFetch e) = Ret (s', th') →
  inv {| shared := s'; threads := <[t := th']> (threads σ) |}.
Proof.
  intros Hinv Ht Hstep. pose proof (fetch_bound _ _ _ Hinv Ht) as Hb. pose proof Hinv as [].
  simpl in Hstep. rewrite u64_id in Hstep by lia.
  set (s1 := {| elements_ := _ |}) in Hstep.
  assert (evolves None (shared σ) s1) as Hev by (split; simpl; try done; lia).
  destruct (Z.leb_spec (Z.of_nat (length (elements_ (shared σ)))) (write_index_ (shared σ))) as [Hge|Hlt];
    injection Hstep as <- <-.
  - split; simpl; try done; rewrite ?length_insert; try lia.
    + eapply threads_after; try done. simpl. lia.
    + by eapply claims_after.
    + intros i w Hw. destruct (inv_elements0 i w Hw) as [?|(? & ? & ?)]; [auto|]. right. split_and!; auto; lia.
    + unfold excess in *. simpl. destruct (capacity_full_ (shared σ));
        rewrite (count_insert _ _ _ (PushFetch e)) by done; simpl; lia.
  - split; simpl; try done; rewrite ?length_insert; try lia.
    + eapply threads_after; try done. simpl. split_and!; [lia|lia| |apply inv_free0; lia].
      destruct (lookup_lt_is_Some_2 (elements_written_ (shared σ)) (Z.to_nat (write_index_ (shared σ))))
        as [w Hw]; [lia|]. rewrite Hw.
      destruct (inv_elements0 _ _ Hw) as [->|(_ & _ & ?)]; [done|lia].
    + by apply (claims_new σ t (PushFetch e) (PushWrite e (Z.to_nat (write_index_ (shared σ)))));
        [done..|]; simpl; intros i [= <-]; lia.
    + intros i w Hw. destruct (inv_elements0 i w Hw) as [?|(? & ? & ?)]; [auto|]. right. split_and!; auto; lia.
    + intros i Hi Hi'. apply inv_free0; lia.
    + intros Hf. specialize (inv_full0 Hf). lia.
    + pose proof (count_nonneg is_full_pc (threads σ)). unfold excess in *. simpl.
      destruct (capacity_full_ (shared σ));
        rewrite (count_insert _ _ _ (PushFetch e)) by done; simpl; lia.
Qed.

Lemma inv_set_full σ t e :
  inv σ → threads σ !! t = Some (PushFull e) → ∀ s' th',
  thread_step (shared σ) (PushFull e) = Ret (s', th') →
  inv {| shared := s'; threads := <[t := th']> (threads σ) |}.
Proof.
  intros Hinv Ht s' th' [= <- <-]. pose proof Hinv as [].
  pose proof (inv_threads0 _ _ Ht) as Hfull. simpl in Hfull.
  split; simpl; try done; rewrite ?length_insert; try done.
  - by eapply (threads_after None).
  - by eapply claims_after.
  - rewrite (count_insert _ _ _ (PushFull e)) by done. unfold excess in *. simpl.
    pose proof (full_fetch_disjoint (threads σ)). destruct (capacity_full_ (shared σ)); lia.
Qed.

Lemma inv_write σ t e i :
  inv σ → threads σ !! t = Some (PushWrite e i) → ∀ s' th',
  thread_step (shared σ) (PushWrite e i) = Ret (s', th') →
  inv {| shared := s'; threads := <[t := th']> (threads σ) |}.
Proof.
  intros Hinv Ht s' th' Hstep. pose proof Hinv as [].
  destruct (inv_threads0 _ _ Ht) as (Hi & Hw & H0 & Hn). simpl in Hstep.
  rewrite (proj2 (Nat.ltb_lt _ _)) in Hstep by done. injection Hstep as <- <-.
  assert (∀ j e', holds (shared σ) j e' → j ≠ i) as Hne by (unfold holds; intros j e' Hj ->; congruence).
  split; simpl; try done; rewrite ?length_insert; try done.
  - refine (threads_after (Some i) σ t _ _ _ Hinv Ht _ _ _); [|by intros j [= <-]|].
    + split; simpl; rewrite ?length_insert; try done.
      * intros j Hj. by rewrite list_lookup_insert_ne by congruence.
      * intros j e' Hj. unfold holds. simpl. rewrite list_lookup_insert_ne; [done|]. symmetry. by eapply Hne.
    + simpl. rewrite length_insert. split_and!; try done. by apply list_lookup_insert_eq.
  - eapply claims_after; try done.
  - intros j w Hj. destruct (inv_elements0 j w Hj) as [?|(? & (e' & He') & ?)]; [auto|].
    right. split_and!; auto. exists e'. unfold holds. simpl.
    rewrite list_lookup_insert_ne; [done|]. symmetry. by eapply Hne.
  - intros j Hj Hj'. rewrite list_lookup_insert_ne by (intros ->; lia). by apply inv_free0.
  - unfold excess in *. simpl. rewrite length_insert.
    destruct (capacity_full_ (shared σ)); rewrite (count_insert _ _ _ (PushWrite e i)) by done; simpl; lia.
Qed.

Lemma inv_flag σ t e i :
  inv σ → threads σ !! t = Some (PushFlag e i) → ∀ s' th',
  thread_step (shared σ) (PushFlag e i) = Ret (s', th') →
  inv {| shared := s'; threads := <[t := th']> (threads σ) |}.
Proof.
  intros Hinv Ht s' th' Hstep. pose proof Hinv as [].
  destruct (inv_threads0 _ _ Ht) as (Hi & Hw & H0 & Hh). simpl in Hstep.
  rewrite (proj2 (Nat.ltb_lt _ _)) in Hstep by lia. injection Hstep as <- <-.
  assert (∀ j, elements_written_ (shared σ) !! j = Some 1 → j ≠ i) as Hne by (intros j Hj ->; congruence).
  split; simpl; try done; rewrite ?length_insert; try done.
  - refine (threads_after (Some i) σ t _ _ _ Hinv Ht _ _ _); [|by intros j [= <-]|].
    + split; simpl; try done.
      * intros j Hj. by rewrite list_lookup_insert_ne by congruence.
      * intros j Hj. unfold written. simpl. rewrite list_lookup_insert_ne; [done|]. symmetry. by apply Hne.
    + split; [|done]. unfold written. simpl. apply list_lookup_insert_eq. lia.
  - by eapply claims_after.
  - intros j w Hj. apply list_lookup_insert_Some in Hj as [(-> & <- & _)|[_ Hj]]; [|by apply inv_elements0].
    right. split_and!; eauto.
  - unfold excess in *. simpl.
    destruct (capacity_full_ (shared σ)); rewrite (count_insert _ _ _ (PushFlag e i)) by done; simpl; lia.
Qed.

Lemma inv_start σ t c th :
  inv σ → threads σ !! t = Some th → running th = false →
  inv {| shared := shared σ; threads := <[t := begin_call c]> (threads σ) |}.
Proof.
  intros Hinv Ht Hr. eapply inv_local; try done; destruct c, th; done.
Qed.

Lemma inv_run σ t th s' th' :
  inv σ → threads σ !! t = Some th → running th = true → thread_step (shared σ) th = Ret (s', th') →
  inv {| shared := s'; threads := <[t := th']> (threads σ) |}.
Proof.
  intros Hinv Ht Hr Hstep. pose proof (inv_threads σ Hinv _ _ Ht) as Hth.
  destruct th as [|e|e|e|e i|e i|e i|p i|p i|p i|c r]; try done;
    try by eauto using inv_fetch, inv_set_full, inv_write, inv_flag.
  - simpl in Hstep. destruct (capacity_full_ (shared σ)) eqn:Hf; injection Hstep as <- <-;
      eapply inv_local; try done; simpl; try congruence. by apply inv_full.
  - simpl in Hth. unfold thread_step, TryPush_step, element_value in Hstep.
    destruct Hth as [Hw Hh]. rewrite Hh in Hstep. injection Hstep as <- <-. by eapply inv_local.
  - simpl in Hstep. destruct (_ && _) eqn:Hc; injection Hstep as <- <-; eapply inv_local; try done.
    simpl. by reflect_bool.
  - simpl in Hstep. destruct (elements_written_ (shared σ) !! i) as [w|] eqn:Hw; [|done].
    destruct (negb (w =? 0)) eqn:Hz; injection Hstep as <- <-; eapply inv_local; try done.
    simpl. reflect_bool. destruct (inv_elements σ Hinv _ _ Hw) as [?|(-> & _)]; [lia|done].
  - simpl in Hth. unfold thread_step, Find_step, element_value in Hstep.
    destruct (inv_elements σ Hinv _ _ Hth) as [?|(_ & (e & He) & _)]; [done|].
    rewrite He in Hstep. simpl in Hstep. destruct (p e) eqn:Hp; injection Hstep as <- <-;
      eapply inv_local; try done. simpl. eauto.
Qed.

Lemma inv_initial size thread_count :
  Z.of_nat size + Z.of_nat thread_count < 2 ^ 64 → inv (initial size thread_count).
Proof.
  intros Hb. split; simpl; rewrite ?length_replicate; try done.
  - intros t th [-> _]%lookup_replicate. done.
  - intros t1 t2 th1 th2 i [-> _]%lookup_replicate. done.
  - intros i w [-> _]%lookup_replicate. by left.
  - intros i Hi _. by apply lookup_replicate_2.
  - unfold excess. simpl. rewrite length_replicate. pose proof (count_nonneg is_full_pc (replicate thread_count Idle)). lia.
Qed.

Lemma inv_step l σ σ' : inv σ → step l σ σ' → inv σ'.
Proof. intros Hinv Hs. destruct Hs; eauto using inv_start, inv_run. Qed.

Lemma inv_trace ls σ σ' : inv σ → trace ls σ σ' → inv σ'.
Proof. intros Hinv Ht. induction Ht; eauto using inv_step. Qed.

(** ** Progress *)

(** A thread within a call can always make its next step. *)
Lemma thread_step_returns σ t th :
  inv σ → threads σ !! t = Some th → running th = true →
  ∃ s' th', thread_step (shared σ) th = Ret (s', th').
Proof.
  intros Hinv Ht Hr. pose proof (inv_threads σ Hinv _ _ Ht) as Hth. pose proof (inv_length σ Hinv) as Hl.
  destruct th as [|e|e|e|e i|e i|e i|p i|p i|p i|c r]; try done; simpl in *.
  - case_match; eauto.
  - case_match; eauto.
  - eauto.
  - rewrite (proj2 (Nat.ltb_lt _ _)) by tauto. eauto.
  - rewrite (proj2 (Nat.ltb_lt _ _)) by (rewrite Hl; tauto). eauto.
  - unfold element_value. destruct Hth as [_ ->]. simpl. eauto.
  - case_match; eauto.
  - destruct (lookup_lt_is_Some_2 (elements_written_ (shared σ)) i) as [w ->]; [lia|]. case_match; eauto.
  - destruct (inv_elements σ Hinv _ _ Hth) as [?|(_ & (e & He) & _)]; [done|].
    unfold element_value. rewrite He. simpl. case_match; eauto.
Qed.

(** Elements are never removed or replaced. *)
Lemma step_evolves l σ σ' : inv σ → step l σ σ' → ∃ changed, evolves changed (shared σ) (shared σ').
Proof.
  intros Hinv Hs. destruct Hs as [t c σ th Ht Hr|t σ th s' th' Ht Hr Hstep]; simpl.
  { exists None. apply evolves_refl. }
  pose proof (inv_threads σ Hinv _ _ Ht) as Hth.
  destruct th as [|e|e|e|e i|e i|e i|p i|p i|p i|c r]; try done;
    try (exists None; simpl in Hstep; repeat case_match; simplify_eq; apply evolves_refl).
  - exists None. pose proof (fetch_bound _ _ _ Hinv Ht). pose proof (inv_bound σ Hinv).
    pose proof (inv_index σ Hinv). simpl in Hstep. rewrite u64_id in Hstep by lia.
    case_match; simplify_eq; split; simpl; try done; lia.
  - exists None. simpl in Hstep. simplify_eq. by split.
  - exists (Some i). simpl in Hstep, Hth. destruct Hth as (_ & _ & _ & Hn). case_match; simplify_eq.
    split; simpl; rewrite ?length_insert; try done.
    + intros j Hj. by rewrite list_lookup_insert_ne by congruence.
    + unfold holds. simpl. intros j e' Hj. rewrite list_lookup_insert_ne; [done|]. intros ->. congruence.
  - exists (Some i). simpl in Hstep, Hth. destruct Hth as (_ & _ & H0 & _). case_match; simplify_eq.
    split; simpl; try done.
    + intros j Hj. by rewrite list_lookup_insert_ne by congruence.
    + unfold written. simpl. intros j Hj. rewrite list_lookup_insert_ne; [done|]. intros ->. congruence.
  - exists None. simpl in Hstep. unfold element_value in Hstep. repeat case_match; simplify_eq/=.
    apply evolves_refl.
  - exists None. simpl in Hstep. unfold element_value in Hstep.
    repeat (case_match; simplify_eq/=); apply evolves_refl.
Qed.

Lemma trace_lengths ls σ σ' :
  trace ls σ σ' →
  length (elements_ (shared σ')) = length (elements_ (shared σ))
  ∧ length (threads σ') = length (threads σ).
Proof.
  induction 1 as [|l ls σ σ1 σ2 Hs _ [-> ->]]; [done|].
  destruct Hs as [|t σ th s' th' _ _ Hstep]; simpl; rewrite length_insert; [done|]. split; [|done].
  destruct th; simpl in Hstep; unfold element_value in Hstep;
    repeat (case_match; simplify_eq/=); simplify_eq/=; rewrite ?length_insert; done.
Qed.

Lemma trace_keeps ls σ σ' i e :
  inv σ → trace ls σ σ' → written (shared σ) i → holds (shared σ) i e →
  written (shared σ') i ∧ holds (shared σ') i e.
Proof.
  intros Hinv Ht. induction Ht as [|l ls σ σ1 σ2 Hs Ht IH]; [done|]. intros Hw Hh.
  destruct (step_evolves _ _ _ Hinv Hs) as [c Hev].
  apply IH; [by eapply inv_step|by eapply ev_written|by eapply ev_holds].
Qed.

(** ** Bounded calls *)

(** How many more steps a thread needs at most. *)
Definition remaining (size : nat) (th : thread) : nat :=
  match th with
  | Idle | Returned _ _ => 0
  | PushCheck _ => 5
  | PushFetch _ => 4
  | PushWrite _ _ => 3
  | PushFlag _ _ => 2
  | PushReturn _ _ | PushFull _ => 1
  | FindLoop _ i => 3 * (size - i) + 1
  | FindLoad _ i => 3 * (size - i)
  | FindTest _ i => 3 * (size - i) - 1
  end.

Definition call_of (th : thread) : option call :=
  match th with
  | Idle => None
  | PushCheck e | PushFetch e | PushFull e | PushWrite e _ | PushFlag e _ | PushReturn e _ =>
      Some (TryPush e)
  | FindLoop p _ | FindLoad p _ | FindTest p _ => Some (Find p)
  | Returned c _ => Some c
  end.

Lemma thread_step_remaining σ t th s' th' :
  inv σ → threads σ !! t = Some th → running th = true → thread_step (shared σ) th = Ret (s', th') →
  (remaining (length (elements_ (shared σ))) th' < remaining (length (elements_ (shared σ))) th)%nat
  ∧ call_of th' = call_of th.
Proof.
  intros Hinv Ht Hr Hstep. pose proof (inv_threads σ Hinv _ _ Ht) as Hth.
  pose proof (inv_length σ Hinv) as Hl.
  destruct th as [|e|e|e|e i|e i|e i|p i|p i|p i|c r]; try done; simpl in Hstep;
    unfold element_value in Hstep; repeat (case_match; simplify_eq/=); reflect_bool; simplify_eq/=;
    split; try done; try lia; pose proof (lookup_lt_Some _ _ _ Hth); lia.
Qed.

Definition starts (t : nat) (l : label) : Prop := ∃ c, l = Start t c.
Definition runs (t : nat) (l : label) : bool := match l with Run t' => bool_decide (t' = t) | _ => false end.

(** The steps that thread [t] makes itself. *)
Definition own_steps (t : nat) (ls : list label) : nat := length (filter (λ l, runs t l = true) ls).

(** A predicate [P] on the program point of thread [t], within one call, that
    its own steps preserve, is preserved by the system.  [P] also counts these
    steps, and [Q] is what it needs to know about the shared memory. *)
Lemma trace_thread (Q : stack → Prop) (P : nat → thread → Prop) t ls σ σ' :
  (∀ changed s s', evolves changed s s' → Q s → Q s') →
  (∀ σ n th s' th', inv σ → Q (shared σ) →
     threads σ !! t = Some th → running th = true → P n th →
     thread_step (shared σ) th = Ret (s', th') → P (S n) th') →
  inv σ → Q (shared σ) →
  trace ls σ σ' → Forall (λ l, ¬ starts t l) ls →
  ∀ n th, threads σ !! t = Some th → P n th →
  ∃ th', threads σ' !! t = Some th' ∧ P (own_steps t ls + n)%nat th'.
Proof.
  intros HQ HP Hinv Hq Ht. revert Hinv Hq.
  induction Ht as [σ|l ls σ σ1 σ2 Hs Ht IH]; intros Hinv Hq Hls n th Hth Hp; [by exists th|].
  apply Forall_cons in Hls as [Hl Hls].
  destruct (step_evolves _ _ _ Hinv Hs) as [c Hev].
  assert (∃ n1 th1, threads σ1 !! t = Some th1 ∧ P n1 th1
    ∧ (own_steps t ls + n1 = own_steps t (l :: ls) + n)%nat) as (n1 & th1 & Hth1 & Hp1 & En).
  { unfold own_steps. destruct Hs as [t' c' σ th' Ht' Hr|t' σ th' s' th'' Ht' Hr Hstep]; simpl.
    - destruct (decide (t' = t)) as [->|Hne]; [by destruct Hl; eexists|].
      exists n, th. by rewrite list_lookup_insert_ne by done.
    - destruct (decide (t' = t)) as [->|Hne].
      + rewrite filter_cons_True by (simpl; by apply bool_decide_eq_true). simplify_eq.
        exists (S n), th''. split; [by apply list_lookup_insert_eq; eapply lookup_lt_Some|].
        split; [by eapply (HP σ)|simpl; lia].
      + rewrite filter_cons_False by (simpl; by rewrite bool_decide_eq_true).
        exists n, th. by rewrite list_lookup_insert_ne by done. }
  destruct (IH ltac:(by eapply inv_step) ltac:(by eapply HQ)
    Hls n1 th1 Hth1 Hp1) as (th' & ? & Hp'). exists th'. by rewrite <- En.
Qed.

(** A search that has not passed element [i] yet, or has found one up to it. *)
Definition seeking (p : Element → bool) (i : nat) (th : thread) : Prop :=
  match th with
  | FindLoop p' k | FindLoad p' k | FindTest p' k => p' = p ∧ (k <= i)%nat
  | Returned (Find p') (Some k) => p' = p ∧ (k <= i)%nat
  | _ => False
  end.

Lemma seeking_step p i e σ t th s' th' :
  inv σ → written (shared σ) i → holds (shared σ) i e → p e = true →
  threads σ !! t = Some th → running th = true → seeking p i th →
  thread_step (shared σ) th = Ret (s', th') → seeking p i th'.
Proof.
  intros Hinv Hw Hh Hp Ht Hr Hk Hstep.
  assert (i < length (elements_ (shared σ)))%nat as Hi by by eapply lookup_lt_Some.
  assert (Z.of_nat i < write_index_ (shared σ)) as Hx
    by (destruct (inv_elements σ Hinv _ _ Hw) as [?|(_ & _ & ?)]; done).
  destruct th as [|e'|e'|e'|e' k|e' k|e' k|p' k|p' k|p' k|c r]; try done;
    simpl in Hk, Hstep; destruct Hk as [-> Hk].
  - rewrite (proj2 (Nat.ltb_lt _ _)), (proj2 (Z.leb_le _ _)) in Hstep by lia. by simplify_eq/=.
  - assert (elements_written_ (shared σ) !! k = Some 0 → k ≠ i) by (intros ? ->; congruence).
    repeat (case_match; simplify_eq/=); reflect_bool; simplify_eq; [done|]. split; [done|].
    assert (k ≠ i) by auto. lia.
  - unfold element_value in Hstep. destruct (elements_ (shared σ) !! k) as [[e'|]|] eqn:Ek; try done.
    simpl in Hstep. destruct (p e') eqn:Hpe; simplify_eq/=; [done|]. split; [done|].
    assert (k ≠ i) by (intros ->; unfold holds in Hh; simplify_eq; congruence). lia.
Qed.

End Stack.

#[global] Arguments call : clear implicits.
#[global] Arguments stack : clear implicits.
#[global] Arguments thread : clear implicits.
#[global] Arguments system : clear implicits.
#[global] Arguments label : clear implicits.

(** ** Properties *)

(** C26: whatever calls the threads make and however their steps interleave, no
    step of a thread is undefined or aborts; no element is read or claimed by
    another thread while it is being written, so that there is no data race;
    no element is claimed by two pushes; and the index never exceeds the number
    of elements by more than the number of threads, so that it cannot wrap
    around. *)
Theorem wait_free_stack_safe {Element} (size thread_count : nat) (ls : list (label Element))
    (σ : system Element) :
  Z.of_nat size + Z.of_nat thread_count < 2 ^ 64 →
  trace ls (initial size thread_count) σ →
  (∀ t th, threads σ !! t = Some th → running th = true →
     ∃ s' th', thread_step (shared σ) th = Ret (s', th'))
  ∧ (∀ t1 t2 e p i, threads σ !! t1 = Some (PushWrite e i) → threads σ !! t2 ≠ Some (FindTest p i))
  ∧ (∀ t1 t2 th1 th2 i, threads σ !! t1 = Some th1 → threads σ !! t2 = Some th2 →
     claim th1 = Some i → claim th2 = Some i → t1 = t2)
  ∧ 0 <= write_index_ (shared σ) <= Z.of_nat size + Z.of_nat thread_count.
Proof.
  intros Hb Ht. pose proof (inv_trace _ _ _ (inv_initial size thread_count Hb) Ht) as Hinv.
  destruct (trace_lengths _ _ _ Ht) as [Hl1 Hl2]. simpl in Hl1, Hl2.
  rewrite length_replicate in Hl1. rewrite length_replicate in Hl2. split; [|split; [|split]].
  - intros t th Hth Hr. by eapply thread_step_returns.
  - intros t1 t2 e p i H1 H2. pose proof (inv_threads σ Hinv _ _ H1) as (_ & _ & H0 & _).
    pose proof (inv_threads σ Hinv _ _ H2) as Hw. simpl in Hw. unfold written in Hw. congruence.
  - apply (inv_claims σ Hinv).
  - pose proof (inv_index σ Hinv). pose proof (inv_excess σ Hinv) as He. unfold excess in He.
    pose proof (full_fetch_disjoint (threads σ)). pose proof (count_nonneg is_fetch_pc (threads σ)).
    pose proof (count_nonneg is_full_pc (threads σ)).
    destruct (capacity_full_ (shared σ)); lia.
Qed.

(** Two threads on a stack of one element: thread 0 claims the element, thread
    1 finds the stack full. *)
Definition two_pushes : list (label nat) :=
  [Start 0 (TryPush 7%nat); Start 1 (TryPush 8%nat); Run 0; Run 1; Run 0; Run 1; Run 1; Run 0].

Definition two_pushes_end : system nat := {|
  shared := {| elements_ := [Some 7%nat]; elements_written_ := [0]; write_index_ := 2;
               capacity_full_ := true |};
  threads := [PushFlag 7%nat 0; Returned (TryPush 8%nat) None] |}.

Lemma two_pushes_trace : trace two_pushes (initial 1 2) two_pushes_end.
Proof.
  unfold two_pushes.
  repeat (eapply trace_cons; [first [eapply step_start|eapply step_run]; reflexivity|simpl]).
  apply trace_nil.
Qed.

Lemma wait_free_stack_safe_witness :
  ∃ s' th', thread_step (shared two_pushes_end) (PushFlag 7%nat 0) = Ret (s', th').
Proof.
  destruct (wait_free_stack_safe 1 2 two_pushes two_pushes_end ltac:(lia) two_pushes_trace) as [H _].
  exact (H 0%nat (PushFlag 7%nat 0) eq_refl eq_refl).
Defined.

(** What the calls return.  A successful push has stored its element, which
    stays in its place for ever; a push fails only when all elements have been
    claimed; a search returns an element that matches, and it returns one
    whenever a matching element was pushed before the search began. *)
Theorem wait_free_stack_results {Element} (size thread_count : nat) (ls ls' : list (label Element))
    (σ σ' : system Element) :
  Z.of_nat size + Z.of_nat thread_count < 2 ^ 64 →
  trace ls (initial size thread_count) σ → trace ls' σ σ' →
  (∀ t e i, threads σ !! t = Some (Returned (TryPush e) (Some i)) → holds (shared σ') i e)
  ∧ (∀ t e, threads σ !! t = Some (Returned (TryPush e) None) → Z.of_nat size <= write_index_ (shared σ))
  ∧ (∀ t p i, threads σ !! t = Some (Returned (Find p) (Some i)) →
     ∃ e, holds (shared σ') i e ∧ p e = true)
  ∧ (∀ t p e i r, threads σ !! t = Some (FindLoop p 0) → Forall (λ l, ¬ starts t l) ls' →
     written (shared σ) i → holds (shared σ) i e → p e = true →
     threads σ' !! t = Some (Returned (Find p) r) → ∃ j, r = Some j ∧ (j <= i)%nat).
Proof.
  intros Hb Ht Ht'. pose proof (inv_trace _ _ _ (inv_initial size thread_count Hb) Ht) as Hinv.
  split; [|split; [|split]].
  - intros t e i Hth. destruct (inv_threads σ Hinv _ _ Hth) as [Hw Hh].
    by apply (trace_keeps _ _ _ _ _ Hinv Ht').
  - intros t e Hth. pose proof (inv_threads σ Hinv _ _ Hth) as Hn. simpl in Hn.
    destruct (trace_lengths _ _ _ Ht) as [Hl _]. simpl in Hl. rewrite length_replicate in Hl. lia.
  - intros t p i Hth. destruct (inv_threads σ Hinv _ _ Hth) as (Hw & e & Hh & Hp).
    exists e. split; [|done]. by apply (trace_keeps _ _ _ _ _ Hinv Ht').
  - intros t p e i r Hth Hls Hw Hh Hp Hr.
    destruct (trace_thread (λ s, written s i ∧ holds s i e) (λ _, seeking p i) t ls' σ σ')
      with (n := 0%nat) (th := FindLoop p 0) as (th' & Hth' & Hs); try done.
    + intros c s s' Hev []. split; [by eapply ev_written|by eapply ev_holds].
    + intros σ1 _ th s1 th1 Hinv1 [Hw1 Hh1] Hth1 Hr1 Hk Hstep. by eapply seeking_step.
    + split; [done|lia].
    + rewrite Hr in Hth'. injection Hth' as <-. destruct r as [j|]; [|done]. exists j. by destruct Hs.
Qed.

(** Thread 0 pushes 7; then thread 1 searches for it, while thread 0 pushes 9. *)
Definition pushed_state : system nat := {|
  shared := {| elements_ := [Some 7%nat; None]; elements_written_ := [1; 0]; write_index_ := 1;
               capacity_full_ := false |};
  threads := [Returned (TryPush 7%nat) (Some 0%nat); FindLoop (Nat.eqb 7) 0] |}.

Definition found_state : system nat := {|
  shared := {| elements_ := [Some 7%nat; None]; elements_written_ := [1; 0]; write_index_ := 2;
               capacity_full_ := false |};
  threads := [PushWrite 9%nat 1; Returned (Find (Nat.eqb 7)) (Some 0%nat)] |}.

Lemma pushed_trace :
  trace [Start 0 (TryPush 7%nat); Run 0; Run 0; Run 0; Run 0; Run 0; Start 1 (Find (Nat.eqb 7))]
    (initial 2 2) pushed_state.
Proof.
  repeat (eapply trace_cons; [first [eapply step_start|eapply step_run]; reflexivity|simpl]).
  apply trace_nil.
Qed.

Lemma found_trace :
  trace [Run 1; Start 0 (TryPush 9%nat); Run 0; Run 1; Run 0; Run 1] pushed_state found_state.
Proof.
  repeat (eapply trace_cons; [first [eapply step_start|eapply step_run]; reflexivity|simpl]).
  apply trace_nil.
Qed.

Lemma wait_free_stack_results_witness :
  holds (shared found_state) 0 7%nat ∧ ∃ j, Some 0%nat = Some j ∧ (j <= 0)%nat.
Proof.
  destruct (wait_free_stack_results 2 2 _ _ _ _ ltac:(lia) pushed_trace found_trace) as (H1 & _ & _ & H4).
  split; [exact (H1 0%nat 7%nat 0%nat eq_refl)|].
  apply (H4 1%nat (Nat.eqb 7) 7%nat 0%nat); try reflexivity.
  repeat constructor; intros [c Hc]; discriminate Hc.
Defined.

(** The calls are wait-free: a push returns after at most five steps of the
    calling thread, and a search after at most three steps per element plus
    one, however the other threads interleave.  As long as a call has not
    returned, its thread can make its next step (first part). *)
Theorem wait_free_stack_bounded {Element} (size thread_count : nat) (ls ls' : list (label Element))
    (σ σ' : system Element) (t : nat) (c : call Element) :
  Z.of_nat size + Z.of_nat thread_count < 2 ^ 64 →
  trace ls (initial size thread_count) σ → threads σ !! t = Some (begin_call c) →
  trace ls' σ σ' → Forall (λ l, ¬ starts t l) ls' →
  let bound := match c with TryPush _ => 5 | Find _ => 3 * size + 1 end%nat in
  (own_steps t ls' <= bound)%nat
  ∧ ((own_steps t ls' < bound)%nat →
     (∃ r, threads σ' !! t = Some (Returned c r)) ∨ ∃ σ'', step (Run t) σ' σ'')
  ∧ (own_steps t ls' = bound → ∃ r, threads σ' !! t = Some (Returned c r)).
Proof.
  intros Hb Ht Hth Ht' Hls bound.
  pose proof (inv_trace _ _ _ (inv_initial size thread_count Hb) Ht) as Hinv.
  destruct (trace_lengths _ _ _ Ht) as [Hl _]. simpl in Hl. rewrite length_replicate in Hl.
  destruct (trace_thread (λ s, length (elements_ s) = size)
    (λ n th, (n + remaining size th <= bound)%nat ∧ call_of th = Some c) t ls' σ σ')
    with (n := 0%nat) (th := begin_call c) as (th' & Hth' & Hn & Hc); try done.
  - intros changed s s' Hev <-. by eapply ev_elements.
  - intros σ1 n th s1 th1 Hinv1 Hsize Hth1 Hr [Hrem Hcall] Hstep.
    destruct (thread_step_remaining _ _ _ _ _ Hinv1 Hth1 Hr Hstep) as [Hlt Hc]. rewrite Hsize in Hlt.
    split; [lia|congruence].
  - destruct c; simpl; (split; [lia|done]).
  - rewrite Nat.add_0_r in Hn. split; [lia|].
    assert (running th' = false → ∃ r, threads σ' !! t = Some (Returned c r)) as Hret.
    { rewrite Hth'. destruct th'; try done. simpl in Hc. simplify_eq. eauto. }
    split.
    + intros _. destruct (running th') eqn:Hr; [|auto]. right.
      destruct (thread_step_returns σ' t th' (inv_trace _ _ _ Hinv Ht') Hth' Hr) as (s' & th'' & Hs).
      eexists. by eapply step_run.
    + intros Hfull. apply Hret. pose proof (inv_trace _ _ _ Hinv Ht') as Hinv'.
      pose proof (inv_threads σ' Hinv' _ _ Hth') as Hti. pose proof (inv_length σ' Hinv').
      destruct (trace_lengths _ _ _ Ht') as [Hl' _].
      destruct th'; try done; simpl in Hn, Hti; try lia. apply lookup_lt_Some in Hti. lia.
Qed.

Lemma wait_free_stack_bounded_witness :
  (own_steps 1 [Run 1; Start 0 (TryPush 9%nat); Run 0; Run 1; Run 0; Run 1] <= 7)%nat.
Proof.
  apply (wait_free_stack_bounded 2 2 _ _ _ _ 1 (Find (Nat.eqb 7)) ltac:(lia) pushed_trace eq_refl found_trace).
  repeat constructor; intros [c Hc]; discriminate Hc.
Defined.

End WaitFreeStack.
