(* ===== verification/CircularAllocator.v ===== *)
(** * The slot allocator of the logging library: mw/log/detail/circular_allocator.h

    [CircularAllocator] and its [Slot]s, shared by any number of threads.  As in
    WaitFreeStack.v, a step of a thread is one atomic access, and the steps of
    the threads interleave in any order.

    A slot that was handed out may be written and released by any thread, for
    example by the one that drains the log.  The system therefore records the
    slots that are handed out and not yet released ([owned]); writing and
    releasing is possible for these only, which is the precondition of the
    source.  The vector of slots never grows, so its capacity is its size. *)

From S2P Require Import Prelude CppInt.

Local Open Scope Z_scope.

Module CircularAllocator.
Section Allocator.
Context {T : Type}.

Record Slot := { data_ : T; in_use_ : bool }.

Record allocator := { claimed_sequence_ : Z; buffer_ : list Slot }.

(** The constructor: [capacity] free slots with the initial value. *)
Definition make (capacity : nat) (initial_value : T) : allocator :=
  {| claimed_sequence_ := 0;
     buffer_ := replicate capacity {| data_ := initial_value; in_use_ := false |} |}.

Definition IsUsed (s : Slot) : bool := in_use_ s.

(** [compare_exchange_strong] from [false] to [true]. *)
Definition TryUse (s : Slot) : Slot * bool :=
  if in_use_ s then (s, false) else ({| data_ := data_ s; in_use_ := true |}, true).

Definition Release (s : Slot) : Slot := {| data_ := data_ s; in_use_ := false |}.
Definition SetData (data : T) (s : Slot) : Slot := {| data_ := data; in_use_ := in_use_ s |}.

(** [buffer_.at(i)]; its exception leaves a [noexcept] function. *)
Definition at_ (a : allocator) (i : nat) : outcome Slot :=
  match buffer_ a !! i with Some s => Ret s | None => Aborted end.

Definition set_slot (a : allocator) (i : nat) (s : Slot) : allocator :=
  {| claimed_sequence_ := claimed_sequence_ a; buffer_ := <[i := s]> (buffer_ a) |}.

Definition u32 : Z → Z := static_cast uint32_t.

(** The next access of a thread within [AcquireSlotToWrite]. *)
Inductive thread :=
| Idle
| AcquireFetch (loop_limiter : Z)                  (* claimed_sequence_.fetch_add(1) *)
| AcquireTryUse (loop_limiter : Z) (slot_index : nat)  (* buffer_.at(slot_index).TryUse() *)
| Returned (r : option nat).

(** The capacity of a vector that is never resized after its construction is
    its size. *)
Definition AcquireSlotToWrite_step (a : allocator) (th : thread) : outcome (allocator * thread) :=
  match th with
  | AcquireFetch loop_limiter =>
      let max_number_of_loops := Z.of_nat (length (buffer_ a)) in
      let capacity := length (buffer_ a) in
      let loop_limiter := u32 (loop_limiter + 1) in
      let slot_index := claimed_sequence_ a in
      let a := {| claimed_sequence_ := u64 (claimed_sequence_ a + 1); buffer_ := buffer_ a |} in
      if (capacity =? 0)%nat then Undefined
      else
        let slot_index := (Z.to_nat slot_index mod capacity)%nat in
        if max_number_of_loops <? loop_limiter then Ret (a, Returned None)
        else Ret (a, AcquireTryUse loop_limiter slot_index)
  | AcquireTryUse loop_limiter slot_index =>
      s ← at_ a slot_index;
      let '(s, acquired) := TryUse s in
      let a := set_slot a slot_index s in
      if acquired : bool then Ret (a, Returned (Some slot_index))
      else Ret (a, AcquireFetch loop_limiter)
  | th => Ret (a, th)
  end.

Definition GetUnderlyingBufferFor (a : allocator) (slot : nat) : outcome T := data_ <$> at_ a slot.

Definition WriteUnderlyingBuffer (a : allocator) (slot : nat) (v : T) : outcome allocator :=
  s ← at_ a slot; Ret (set_slot a slot (SetData v s)).

Definition ReleaseSlot (a : allocator) (slot : nat) : outcome allocator :=
  s ← at_ a slot; Ret (set_slot a slot (Release s)).

Definition GetUsedCount (a : allocator) : nat :=
  length (filter (λ s, IsUsed s = true) (buffer_ a)).

Definition running (th : thread) : bool :=
  match th with AcquireFetch _ | AcquireTryUse _ _ => true | _ => false end.

(** ** The system *)

Record system := { shared : allocator; threads : list thread; owned : list nat }.

Inductive label :=
| Acquire (t : nat)           (* thread [t] calls AcquireSlotToWrite *)
| Run (t : nat)               (* thread [t] makes its next access *)
| Write (i : nat) (v : T)     (* somebody writes to an owned slot *)
| Free (i : nat).             (* somebody releases an owned slot *)

(** The slot that a step hands out. *)
Definition handed_out (th : thread) : list nat :=
  match th with Returned (Some i) => [i] | _ => [] end.

Inductive step : label → system → system → Prop :=
| step_acquire t σ th :
    threads σ !! t = Some th → running th = false →
    step (Acquire t) σ {| shared := shared σ; threads := <[t := AcquireFetch 0]> (threads σ);
                          owned := owned σ |}
| step_run t σ th a' th' :
    threads σ !! t = Some th → running th = true →
    AcquireSlotToWrite_step (shared σ) th = Ret (a', th') →
    step (Run t) σ {| shared := a'; threads := <[t := th']> (threads σ);
                      owned := handed_out th' ++ owned σ |}
| step_write i v σ a' :
    i ∈ owned σ → WriteUnderlyingBuffer (shared σ) i v = Ret a' →
    step (Write i v) σ {| shared := a'; threads := threads σ; owned := owned σ |}
| step_free i σ a' :
    i ∈ owned σ → ReleaseSlot (shared σ) i = Ret a' →
    step (Free i) σ {| shared := a'; threads := threads σ;
                       owned := filter (.≠ i) (owned σ) |}.

Inductive trace : list label → system → system → Prop :=
| trace_nil σ : trace [] σ σ
| trace_cons l ls σ σ' σ'' : step l σ σ' → trace ls σ' σ'' → trace (l :: ls) σ σ''.

Definition initial (capacity thread_count : nat) (v : T) : system :=
  {| shared := make capacity v; threads := replicate thread_count Idle; owned := [] |}.

(** ** Invariant *)

(** A thread in the loop has passed the check of its limit, and has a slot
    index within the buffer. *)
Definition thread_inv (n : nat) (th : thread) : Prop :=
  match th with
  | AcquireFetch l => 0 <= l <= Z.of_nat n
  | AcquireTryUse l i => 1 <= l <= Z.of_nat n ∧ (i < n)%nat
  | _ => True
  end.

Record inv (σ : system) : Prop := {
  inv_size : (0 < length (buffer_ (shared σ)))%nat ∧ Z.of_nat (length (buffer_ (shared σ))) < 2 ^ 32 - 1;
  inv_sequence : 0 <= claimed_sequence_ (shared σ) < 2 ^ 64;
  inv_threads : ∀ t th, threads σ !! t = Some th → thread_inv (length (buffer_ (shared σ))) th;
  inv_nodup : NoDup (owned σ);
  inv_owned : ∀ i, i ∈ owned σ ↔ ∃ s, buffer_ (shared σ) !! i = Some s ∧ in_use_ s = true;
}.

(** ** Lemmas *)

Lemma u32_id z : 0 <= z < 2 ^ 32 → u32 z = z.
Proof.
  intros Hz. apply static_cast_id. unfold in_range. cbv [lowest max digits is_signed bits]. lia.
Qed.

Lemma u64_range z : 0 <= u64 z < 2 ^ 64.
Proof.
  pose proof (static_cast_range uint64_t z) as H. unfold in_range in H.
  cbv [lowest max digits is_signed bits] in H. unfold u64. lia.
Qed.

Lemma length_set_slot a i s : length (buffer_ (set_slot a i s)) = length (buffer_ a).
Proof. apply length_insert. Qed.

(** Which slots are in use after one slot was changed. *)
Lemma used_set_slot a i s0 s j :
  buffer_ a !! i = Some s0 →
  (∃ s', buffer_ (set_slot a i s) !! j = Some s' ∧ in_use_ s' = true)
  ↔ (if decide (j = i) then in_use_ s = true
     else ∃ s', buffer_ a !! j = Some s' ∧ in_use_ s' = true).
Proof.
  intros Hi. simpl. case_decide as Hj.
  - subst j. rewrite list_lookup_insert_eq by by eapply lookup_lt_Some. naive_solver.
  - by rewrite list_lookup_insert_ne by done.
Qed.

Lemma inv_acquire σ t th :
  inv σ → threads σ !! t = Some th →
  inv {| shared := shared σ; threads := <[t := AcquireFetch 0]> (threads σ); owned := owned σ |}.
Proof.
  intros [] Ht. split; simpl; try done.
  intros t' th' [(<- & <- & _)|[_ H]]%list_lookup_insert_Some; [simpl; lia|by eapply inv_threads0].
Qed.

Lemma alloc_inv_run σ t th a' th' :
  inv σ → threads σ !! t = Some th → running th = true →
  AcquireSlotToWrite_step (shared σ) th = Ret (a', th') →
  inv {| shared := a'; threads := <[t := th']> (threads σ); owned := handed_out th' ++ owned σ |}.
Proof.
  intros Hinv Ht Hr Hstep. pose proof Hinv as []. pose proof (inv_threads0 _ _ Ht) as Hth.
  assert (∀ n th1, n = length (buffer_ (shared σ)) → thread_inv n th1 →
    ∀ t2 th2, <[t := th1]> (threads σ) !! t2 = Some th2 → thread_inv n th2) as Hthreads.
  { intros n th1 -> H1 t2 th2 [(<- & <- & _)|[_ H]]%list_lookup_insert_Some; [done|by eapply inv_threads0]. }
  destruct th as [|l|l i|r]; try done; simpl in Hth, Hstep.
  - destruct (Nat.eqb_spec (length (buffer_ (shared σ))) 0) as [|Hn]; [done|].
    rewrite u32_id in Hstep by lia. pose proof (u64_range (claimed_sequence_ (shared σ) + 1)).
    case_match; reflect_bool; simplify_eq/=; split; simpl; try done; apply Hthreads; try done.
    simpl. split; [lia|by apply Nat.mod_upper_bound].
  - unfold at_ in Hstep. destruct (buffer_ (shared σ) !! i) as [s|] eqn:Hi; [|done]. simpl in Hstep.
    unfold TryUse in Hstep. destruct (in_use_ s) eqn:Hu; simplify_eq/=.
    + split; simpl; rewrite ?length_insert; try done; [by apply Hthreads; [done|simpl; lia]|].
      intros j. rewrite inv_owned0, (used_set_slot _ _ _ s j Hi). case_decide; [subst j|done]. naive_solver.
    + assert (i ∉ owned σ) as Hnot by (rewrite inv_owned0; intros (s' & ? & ?); simplify_eq; congruence).
      split; simpl; rewrite ?length_insert; try done.
      * by apply Hthreads.
      * by constructor.
      * intros j. rewrite elem_of_cons, inv_owned0.
        rewrite (used_set_slot _ _ _ {| data_ := data_ s; in_use_ := true |} j Hi).
        case_decide; naive_solver.
Qed.

Lemma alloc_inv_write σ i v a' :
  inv σ → WriteUnderlyingBuffer (shared σ) i v = Ret a' →
  inv {| shared := a'; threads := threads σ; owned := owned σ |}.
Proof.
  intros [] Hw. unfold WriteUnderlyingBuffer, at_ in Hw.
  destruct (buffer_ (shared σ) !! i) as [s|] eqn:Hi; simplify_eq/=.
  split; simpl; rewrite ?length_insert; try done.
  intros j. rewrite inv_owned0, (used_set_slot _ _ _ (SetData v s) j Hi). simpl. case_decide; [subst j|done].
  naive_solver.
Qed.

Lemma inv_free σ i a' :
  inv σ → ReleaseSlot (shared σ) i = Ret a' →
  inv {| shared := a'; threads := threads σ; owned := filter (.≠ i) (owned σ) |}.
Proof.
  intros [] Hf. unfold ReleaseSlot, at_ in Hf.
  destruct (buffer_ (shared σ) !! i) as [s|] eqn:Hi; simplify_eq/=.
  split; simpl; rewrite ?length_insert; try done; [by apply NoDup_filter|].
  intros j. rewrite list_elem_of_filter, inv_owned0, (used_set_slot _ _ _ (Release s) j Hi). simpl.
  case_decide; naive_solver.
Qed.

Lemma alloc_inv_step l σ σ' : inv σ → step l σ σ' → inv σ'.
Proof. intros Hinv Hs. destruct Hs; eauto using inv_acquire, alloc_inv_run, alloc_inv_write, inv_free. Qed.

Lemma alloc_inv_trace ls σ σ' : inv σ → trace ls σ σ' → inv σ'.
Proof. intros Hinv Ht. induction Ht; eauto using alloc_inv_step. Qed.

Lemma alloc_inv_initial capacity thread_count v :
  (0 < capacity)%nat → Z.of_nat capacity < 2 ^ 32 - 1 → inv (initial capacity thread_count v).
Proof.
  intros H0 Hc. split; simpl; rewrite ?length_replicate; try done.
  - intros t th [-> _]%lookup_replicate. done.
  - constructor.
  - intros i. split; [by intros ?%elem_of_nil|]. intros (s & [-> _]%lookup_replicate & ?). done.
Qed.

(** A thread in the loop, and the owner of a slot, can always proceed. *)
Lemma step_returns σ t th :
  inv σ → threads σ !! t = Some th → running th = true →
  ∃ a' th', AcquireSlotToWrite_step (shared σ) th = Ret (a', th').
Proof.
  intros [] Ht Hr. pose proof (inv_threads0 _ _ Ht) as Hth. destruct th as [|l|l i|r]; try done; simpl in *.
  - rewrite (proj2 (Nat.eqb_neq _ _)) by lia. case_match; eauto.
  - unfold at_. destruct (lookup_lt_is_Some_2 (buffer_ (shared σ)) i) as [s ->]; [tauto|]. simpl.
    unfold TryUse. destruct (in_use_ s); simpl; eauto.
Qed.

(** How many more steps a thread needs at most. *)
Definition remaining (n : nat) (th : thread) : Z :=
  match th with
  | AcquireFetch l => 2 * (Z.of_nat n - l) + 1
  | AcquireTryUse l _ => 2 * (Z.of_nat n - l) + 2
  | _ => 0
  end.

Lemma step_remaining σ t th a' th' :
  inv σ → threads σ !! t = Some th → running th = true →
  AcquireSlotToWrite_step (shared σ) th = Ret (a', th') →
  0 <= remaining (length (buffer_ (shared σ))) th' < remaining (length (buffer_ (shared σ))) th
  ∧ length (buffer_ a') = length (buffer_ (shared σ)) ∧ th' ≠ Idle.
Proof.
  intros [] Ht Hr Hstep. pose proof (inv_threads0 _ _ Ht) as Hth.
  destruct th as [|l|l i|r]; try done; simpl in *.
  - destruct (Nat.eqb_spec (length (buffer_ (shared σ))) 0) as [|Hn]; [done|].
    rewrite u32_id in Hstep by lia. case_match; reflect_bool; simplify_eq/=; (split; [lia|done]).
  - unfold at_ in Hstep. destruct (buffer_ (shared σ) !! i) as [s|]; [|done]. simpl in Hstep.
    unfold TryUse in Hstep. destruct (in_use_ s); simplify_eq/=; rewrite length_insert; (split; [lia|done]).
Qed.

(** The steps that thread [t] makes itself. *)
Definition runs (t : nat) (l : label) : bool := match l with Run t' => bool_decide (t' = t) | _ => false end.
Definition own_steps (t : nat) (ls : list label) : Z :=
  Z.of_nat (length (filter (λ l, runs t l = true) ls)).

Lemma trace_remaining t ls σ σ' :
  inv σ → trace ls σ σ' → Forall (.≠ Acquire t) ls →
  ∀ th, threads σ !! t = Some th → th ≠ Idle →
  ∃ th', threads σ' !! t = Some th' ∧ th' ≠ Idle
  ∧ own_steps t ls + remaining (length (buffer_ (shared σ'))) th'
    <= remaining (length (buffer_ (shared σ))) th.
Proof.
  intros Hinv Ht. revert Hinv. induction Ht as [σ|l ls σ σ1 σ2 Hs Ht IH]; intros Hinv Hls th Hth Hid.
  { exists th. split; [done|]. split; [done|]. unfold own_steps. simpl. lia. }
  apply Forall_cons in Hls as [Hl Hls].
  assert (∃ th1, threads σ1 !! t = Some th1 ∧ th1 ≠ Idle
    ∧ Z.b2z (runs t l) + remaining (length (buffer_ (shared σ1))) th1
      <= remaining (length (buffer_ (shared σ))) th) as (th1 & Hth1 & Hid1 & Hrem).
  { destruct Hs as [t' σ th' Ht' Hr|t' σ th' a' th'' Ht' Hr Hstep|i v σ a' _ Hw|i σ a' _ Hf]; simpl.
    - exists th. rewrite list_lookup_insert_ne by congruence. split; [done|]. split; [done|lia].
    - destruct (step_remaining _ _ _ _ _ Hinv Ht' Hr Hstep) as (Hlt & -> & Hni).
      destruct (decide (t' = t)) as [->|Hne].
      + simplify_eq. exists th''. rewrite bool_decide_eq_true_2 by done.
        split; [by apply list_lookup_insert_eq; eapply lookup_lt_Some|]. split; [done|simpl; lia].
      + exists th. rewrite bool_decide_eq_false_2, list_lookup_insert_ne by done.
        split; [done|]. split; [done|simpl; lia].
    - exists th. split; [done|]. split; [done|]. unfold WriteUnderlyingBuffer in Hw.
      destruct (at_ _ _); simplify_eq/=. rewrite length_insert. lia.
    - exists th. split; [done|]. split; [done|]. unfold ReleaseSlot in Hf.
      destruct (at_ _ _); simplify_eq/=. rewrite length_insert. lia. }
  destruct (IH ltac:(by eapply alloc_inv_step) Hls th1 Hth1 Hid1) as (th' & ? & ? & ?).
  exists th'. split; [done|]. split; [done|].
  assert (own_steps t (l :: ls) = Z.b2z (runs t l) + own_steps t ls) as ->; [|lia].
  unfold own_steps. rewrite filter_cons. destruct (runs t l); simpl; lia.
Qed.

(** ** A call without interference *)

(** The loop of [AcquireSlotToWrite] when no other thread makes a step. *)
Fixpoint run_alone (fuel : nat) (a : allocator) (th : thread) : outcome (allocator * thread) :=
  match fuel with
  | O => Ret (a, th)
  | S fuel =>
      if running th then '(a, th) ← AcquireSlotToWrite_step a th; run_alone fuel a th
      else Ret (a, th)
  end.

Definition AcquireSlotToWrite (a : allocator) : outcome (allocator * thread) :=
  run_alone (2 * length (buffer_ a) + 1) a (AcquireFetch 0).

Definition used (a : allocator) (i : nat) : Prop := ∃ s, buffer_ a !! i = Some s ∧ in_use_ s = true.

(** The slot that is tried in round [j] of a call that starts at [c]. *)
Definition tried (c : Z) (n j : nat) : nat := (Z.to_nat (c + Z.of_nat j) mod n)%nat.

Lemma insert_same_slot a i s : buffer_ a !! i = Some s → set_slot a i s = a.
Proof. intros Hi. unfold set_slot. rewrite list_insert_id by done. by destruct a. Qed.

Lemma fetch_step c buffer l :
  (0 < length buffer)%nat → Z.of_nat (length buffer) < 2 ^ 32 - 1 → 0 <= l <= Z.of_nat (length buffer) →
  0 <= c → c + 1 < 2 ^ 64 →
  AcquireSlotToWrite_step {| claimed_sequence_ := c; buffer_ := buffer |} (AcquireFetch l)
  = Ret ({| claimed_sequence_ := c + 1; buffer_ := buffer |},
         if Z.of_nat (length buffer) <? l + 1 then Returned None
         else AcquireTryUse (l + 1) (Z.to_nat c mod length buffer)).
Proof.
  intros H0 Hn Hl Hc Hw. simpl. rewrite (proj2 (Nat.eqb_neq _ _)) by lia.
  rewrite u32_id, u64_id by lia. by case_match.
Qed.

Lemma try_use_step a l i s :
  buffer_ a !! i = Some s →
  AcquireSlotToWrite_step a (AcquireTryUse l i)
  = if in_use_ s then Ret (a, AcquireFetch l)
    else Ret (set_slot a i {| data_ := data_ s; in_use_ := true |}, Returned (Some i)).
Proof.
  intros Hi. simpl. unfold at_. rewrite Hi. simpl. unfold TryUse.
  destruct (in_use_ s); [by rewrite insert_same_slot|done].
Qed.

Lemma alone_from n c buffer m : ∀ l,
  (0 < n)%nat → Z.of_nat n < 2 ^ 32 - 1 → 0 <= c → c + Z.of_nat n + 1 < 2 ^ 64 → length buffer = n →
  (l + m = n)%nat →
  let a := {| claimed_sequence_ := c + Z.of_nat l; buffer_ := buffer |} in
  ∃ a' r, run_alone (2 * m + 1) a (AcquireFetch (Z.of_nat l)) = Ret (a', Returned r)
  ∧ match r with
    | Some i => ∃ s, buffer !! i = Some s ∧ in_use_ s = false
        ∧ buffer_ a' = <[i := {| data_ := data_ s; in_use_ := true |}]> buffer
    | None => buffer_ a' = buffer ∧ ∀ j, (l <= j < n)%nat → used a (tried c n j)
    end.
Proof.
  induction m as [|m IH]; intros l Hn Hn' Hc Hw Hb Hl; cbv zeta.
  - cbn [run_alone running Nat.mul Nat.add]. rewrite fetch_step by lia.
    rewrite (proj2 (Z.ltb_lt _ _)) by lia. eexists _, None. split; [reflexivity|].
    split; [done|]. intros j Hj. lia.
  - replace (2 * S m + 1)%nat with (S (S (2 * m + 1))) by lia. cbn [run_alone running].
    rewrite fetch_step by lia. rewrite (proj2 (Z.ltb_ge _ _)) by lia.
    cbn [mbind outcome_bind running]. rewrite Hb. fold (tried c n l).
    assert (tried c n l < n)%nat as Hlt by (apply Nat.mod_upper_bound; lia).
    destruct (lookup_lt_is_Some_2 buffer (tried c n l)) as [s Hs]; [lia|].
    rewrite (try_use_step _ _ _ s) by done. destruct (in_use_ s) eqn:Hu; cbn [mbind outcome_bind].
    + destruct (IH (S l) Hn Hn' Hc Hw Hb ltac:(lia)) as (a' & r & E & Hr). exists a', r.
      replace (Z.of_nat l + 1) with (Z.of_nat (S l)) by lia.
      replace (c + Z.of_nat l + 1) with (c + Z.of_nat (S l)) by lia. split; [done|].
      destruct r as [i|]; [done|]. destruct Hr as [? Hr]. split; [done|]. intros j Hj.
      destruct (decide (j = l)) as [->|]; [by exists s|apply Hr; lia].
    + eexists _, (Some (tried c n l)). destruct (2 * m + 1)%nat; simpl; (split; [reflexivity|]; eauto).
Qed.

(** Also when the sequence wraps around, a call returns, and a slot it returns
    was free. *)
Lemma safe_from n m : ∀ l c buffer,
  (0 < n)%nat → Z.of_nat n < 2 ^ 32 - 1 → 0 <= c < 2 ^ 64 → length buffer = n → (l + m = n)%nat →
  ∃ a' r, run_alone (2 * m + 1) {| claimed_sequence_ := c; buffer_ := buffer |} (AcquireFetch (Z.of_nat l))
    = Ret (a', Returned r)
  ∧ 0 <= claimed_sequence_ a' < 2 ^ 64
  ∧ match r with
    | Some i => ∃ s, buffer !! i = Some s ∧ in_use_ s = false
        ∧ buffer_ a' = <[i := {| data_ := data_ s; in_use_ := true |}]> buffer
    | None => buffer_ a' = buffer
    end.
Proof.
  induction m as [|m IH]; intros l c buffer Hn Hn' Hc Hb Hl; pose proof (u64_range (c + 1)) as Hu.
  - cbn [run_alone running Nat.mul Nat.add AcquireSlotToWrite_step buffer_ claimed_sequence_].
    rewrite (proj2 (Nat.eqb_neq _ _)), u32_id by lia. rewrite (proj2 (Z.ltb_lt _ _)) by lia.
    cbn [mbind outcome_bind]. eexists _, None. split; [reflexivity|]. done.
  - replace (2 * S m + 1)%nat with (S (S (2 * m + 1))) by lia.
    cbn [run_alone running AcquireSlotToWrite_step buffer_ claimed_sequence_].
    rewrite (proj2 (Nat.eqb_neq _ _)), u32_id by lia. rewrite (proj2 (Z.ltb_ge _ _)) by lia.
    cbn [mbind outcome_bind running]. set (j := (Z.to_nat c mod length buffer)%nat).
    assert (j < length buffer)%nat as Hlt by (apply Nat.mod_upper_bound; lia).
    destruct (lookup_lt_is_Some_2 buffer j) as [s Hs]; [lia|].
    rewrite (try_use_step _ _ _ s) by done. destruct (in_use_ s) eqn:Hus; cbn [mbind outcome_bind].
    + destruct (IH (S l) (u64 (c + 1)) buffer Hn Hn' Hu Hb ltac:(lia)) as (a' & r & E & Hr). exists a', r.
      replace (Z.of_nat l + 1) with (Z.of_nat (S l)) by lia. by split.
    + eexists _, (Some j). destruct (2 * m + 1)%nat; simpl; (split; [reflexivity|]; split; [done|]; eauto).
Qed.

Lemma acquire_safe a :
  (0 < length (buffer_ a))%nat → Z.of_nat (length (buffer_ a)) < 2 ^ 32 - 1 →
  0 <= claimed_sequence_ a < 2 ^ 64 →
  ∃ a' r, AcquireSlotToWrite a = Ret (a', Returned r)
  ∧ 0 <= claimed_sequence_ a' < 2 ^ 64
  ∧ match r with
    | Some i => ∃ s, buffer_ a !! i = Some s ∧ in_use_ s = false
        ∧ buffer_ a' = <[i := {| data_ := data_ s; in_use_ := true |}]> (buffer_ a)
    | None => buffer_ a' = buffer_ a
    end.
Proof.
  intros H0 Hn Hc. destruct a as [c b]. by apply (safe_from (length b) (length b) 0 c b).
Qed.

Lemma tried_surj c n i : 0 <= c → (i < n)%nat → ∃ j, (j < n)%nat ∧ tried c n j = i.
Proof.
  intros Hc Hi. set (k := (Z.to_nat c mod n)%nat).
  assert (k < n)%nat as Hk by (apply Nat.mod_upper_bound; lia).
  exists ((i + (n - k)) mod n)%nat. split; [apply Nat.mod_upper_bound; lia|].
  unfold tried. rewrite Z2Nat.inj_add, Nat2Z.id by lia. rewrite Nat.Div0.add_mod_idemp_r.
  rewrite <- (Nat.Div0.add_mod_idemp_l (Z.to_nat c)). fold k.
  replace (k + (i + (n - k)))%nat with (i + 1 * n)%nat by lia.
  rewrite Nat.Div0.mod_add. by apply Nat.mod_small.
Qed.

Lemma acquire_alone a :
  (0 < length (buffer_ a))%nat → Z.of_nat (length (buffer_ a)) < 2 ^ 32 - 1 →
  0 <= claimed_sequence_ a → claimed_sequence_ a + Z.of_nat (length (buffer_ a)) + 1 < 2 ^ 64 →
  ∃ a' r, AcquireSlotToWrite a = Ret (a', Returned r)
  ∧ match r with
    | Some i => ∃ s, buffer_ a !! i = Some s ∧ in_use_ s = false
        ∧ buffer_ a' = <[i := {| data_ := data_ s; in_use_ := true |}]> (buffer_ a)
    | None => buffer_ a' = buffer_ a ∧ ∀ i, (i < length (buffer_ a))%nat → used a i
    end.
Proof.
  intros H0 Hn Hc Hw. destruct a as [c b]. simpl in *.
  destruct (alone_from (length b) c b (length b) 0 H0 Hn Hc Hw eq_refl eq_refl) as (a' & r & E & Hr).
  rewrite Z.add_0_r in E. exists a', r. split; [done|]. destruct r as [i|]; [done|].
  destruct Hr as [? Hr]. split; [done|]. intros i Hi. destruct (tried_surj c (length b) i Hc Hi) as (j & Hj & <-).
  apply Hr. lia.
Qed.

(** The indices of the slots in use, in ascending order. *)
Definition used_indices (b : list Slot) (k : nat) : list nat :=
  fst <$> filter (λ p, in_use_ (snd p) = true) (zip (seq k (length b)) b).

Lemma used_count_owned σ : inv σ → GetUsedCount (shared σ) = length (owned σ).
Proof.
  intros []. symmetry.
  assert (∀ b k, length (used_indices b k) = length (filter (λ s, in_use_ s = true) b)) as Hlen.
  { intros b. unfold used_indices. induction b as [|s b IH]; intros k; [done|]. simpl.
    rewrite !filter_cons. simpl. destruct (in_use_ s); simpl; by rewrite <- (IH (S k)). }
  unfold GetUsedCount, IsUsed. rewrite <- (Hlen _ 0%nat). apply Permutation_length, NoDup_Permutation; [done| |].
  - unfold used_indices. eapply sublist_NoDup; [|apply fmap_sublist, sublist_filter].
    rewrite fst_zip by by rewrite length_seq. apply NoDup_seq.
  - intros i. rewrite inv_owned0. unfold used_indices. rewrite list_elem_of_fmap.
    setoid_rewrite list_elem_of_filter. split.
    + intros (s & Hi & Hu). exists (i, s). split; [done|]. split; [done|].
      apply list_elem_of_lookup. exists i. apply lookup_zip_Some. split; [|done].
      apply lookup_seq. split; [done|]. by eapply lookup_lt_Some.
    + intros ([j s] & -> & Hu & Hz). apply list_elem_of_lookup in Hz as (k & Hk).
      apply lookup_zip_Some in Hk as [[-> _]%lookup_seq Hs]. by exists s.
Qed.

End Allocator.

#[global] Arguments Slot : clear implicits.
#[global] Arguments allocator : clear implicits.
#[global] Arguments system : clear implicits.
#[global] Arguments label : clear implicits.

(** ** Properties *)

(** C34: a slot has at most one owner: however the calls of the threads, the
    writes and the releases interleave, [AcquireSlotToWrite] never hands out a
    slot that is already owned, and the number of used slots is that of the
    owned ones.  No step aborts: every slot index is within the buffer. *)
Theorem slots_exclusive {T} (capacity thread_count : nat) (v : T) (ls : list (label T))
    (σ : system T) :
  (0 < capacity)%nat → Z.of_nat capacity < 2 ^ 32 - 1 →
  trace ls (initial capacity thread_count v) σ →
  NoDup (owned σ)
  ∧ GetUsedCount (shared σ) = length (owned σ)
  ∧ (∀ t th a' i, threads σ !! t = Some th → running th = true →
     AcquireSlotToWrite_step (shared σ) th = Ret (a', Returned (Some i)) → i ∉ owned σ)
  ∧ (∀ t th, threads σ !! t = Some th → running th = true → ∃ σ', step (Run t) σ σ')
  ∧ (∀ i, i ∈ owned σ → (∃ σ', step (Free i) σ σ') ∧ ∀ w, ∃ σ', step (Write i w) σ σ').
Proof.
  intros H0 Hn Ht. pose proof (alloc_inv_trace _ _ _ (alloc_inv_initial capacity thread_count v H0 Hn) Ht) as Hinv.
  split; [apply Hinv|]. split; [by apply used_count_owned|]. split; [|split].
  - intros t th a' i Hth Hr Hstep.
    pose proof (inv_nodup _ (alloc_inv_run _ _ _ _ _ Hinv Hth Hr Hstep)) as Hnd. simpl in Hnd.
    by apply NoDup_cons in Hnd as [? _].
  - intros t th Hth Hr. destruct (step_returns _ _ _ Hinv Hth Hr) as (a' & th' & Hs).
    eexists. by eapply step_run.
  - intros i Hi. destruct (proj1 (inv_owned σ Hinv i) Hi) as (s & Hs & _).
    split; [|intros w]; eexists; [eapply step_free|eapply step_write]; try done;
      unfold ReleaseSlot, WriteUnderlyingBuffer, at_; by rewrite Hs.
Qed.

(** Two threads compete for the single slot; thread 1 loses, the slot is
    written and released. *)
Definition compete : list (label nat) :=
  [Acquire 0; Acquire 1; Run 0; Run 1; Run 0; Run 1; Write 0 5%nat].

Definition compete_end : system nat := {|
  shared := {| claimed_sequence_ := 2; buffer_ := [{| data_ := 5%nat; in_use_ := true |}] |};
  threads := [Returned (Some 0%nat); AcquireFetch 1]; owned := [0%nat] |}.

Lemma compete_trace : trace compete (initial 1 2 3%nat) compete_end.
Proof.
  unfold compete.
  do 6 (eapply trace_cons; [first [eapply step_acquire|eapply step_run]; reflexivity|simpl]).
  eapply trace_cons; [eapply step_write; [set_solver|reflexivity]|]. apply trace_nil.
Qed.

Lemma slots_exclusive_witness :
  GetUsedCount (shared compete_end) = 1%nat ∧ ∃ σ', step (Free 0) compete_end σ'.
Proof.
  destruct (slots_exclusive 1 2 3%nat compete compete_end ltac:(lia) ltac:(lia) compete_trace)
    as (_ & H2 & _ & _ & H5).
  split; [exact H2|]. apply H5. set_solver.
Defined.

(** [AcquireSlotToWrite] always returns, after at most two steps of the
    calling thread per slot plus one, however other threads interfere.  Without
    interference it hands out a free slot if there is one, and nothing only if
    all slots are in use (as long as the sequence number does not wrap around
    during the call). *)
Theorem acquire_bounded {T} (capacity thread_count : nat) (v : T) (ls ls' : list (label T))
    (σ σ' : system T) (t : nat) :
  (0 < capacity)%nat → Z.of_nat capacity < 2 ^ 32 - 1 →
  trace ls (initial capacity thread_count v) σ → threads σ !! t = Some (AcquireFetch 0) →
  trace ls' σ σ' → Forall (.≠ Acquire t) ls' →
  let bound := 2 * Z.of_nat (length (buffer_ (shared σ))) + 1 in
  own_steps t ls' <= bound
  ∧ (own_steps t ls' = bound → ∃ r, threads σ' !! t = Some (Returned r))
  ∧ (claimed_sequence_ (shared σ) + Z.of_nat (length (buffer_ (shared σ))) + 1 < 2 ^ 64 →
     ∃ a' r, AcquireSlotToWrite (shared σ) = Ret (a', Returned r)
     ∧ match r with
       | Some i => ∃ s, buffer_ (shared σ) !! i = Some s ∧ in_use_ s = false
           ∧ buffer_ a' = <[i := {| data_ := data_ s; in_use_ := true |}]> (buffer_ (shared σ))
       | None => ∀ i, (i < length (buffer_ (shared σ)))%nat → used (shared σ) i
       end).
Proof.
  intros H0 Hn Ht Hth Ht' Hls bound.
  pose proof (alloc_inv_trace _ _ _ (alloc_inv_initial capacity thread_count v H0 Hn) Ht) as Hinv.
  destruct (trace_remaining t ls' σ σ' Hinv Ht' Hls _ Hth ltac:(done)) as (th' & Hth' & Hid & Hrem).
  pose proof (alloc_inv_trace _ _ _ Hinv Ht') as Hinv'. pose proof (inv_threads _ Hinv' _ _ Hth') as Hti.
  simpl remaining in Hrem at 2. unfold bound.
  assert (0 <= remaining (length (buffer_ (shared σ'))) th') as Hpos by (destruct th'; simpl in *; lia).
  split; [lia|]. split.
  - intros E. destruct th' as [|l|l i|r]; [done|simpl in *; lia..|eauto].
  - intros Hw. destruct (inv_size _ Hinv). destruct (inv_sequence _ Hinv).
    destruct (acquire_alone (shared σ)) as (a' & r & E & Hr); [done..|].
    exists a', r. split; [done|]. destruct r; [done|apply Hr].
Qed.

Lemma acquire_bounded_witness :
  own_steps (T := nat) 1 [Run 0; Run 1; Run 0; Run 1; Write 0 5%nat] <= 3.
Proof.
  apply (acquire_bounded 1 2 3%nat [Acquire 0; Acquire 1] _
    {| shared := make 1 3%nat; threads := [AcquireFetch 0; AcquireFetch 0]; owned := [] |} compete_end 1);
    [lia|lia| |reflexivity| |by repeat constructor].
  - do 2 (eapply trace_cons; [eapply step_acquire; reflexivity|simpl]). apply trace_nil.
  - do 4 (eapply trace_cons; [eapply step_run; reflexivity|simpl]).
    eapply trace_cons; [eapply step_write; [set_solver|reflexivity]|]. apply trace_nil.
Defined.

End CircularAllocator.
