(* ===== verification/SplitStringView.v ===== *)
(** * Splitting a string: score/string_manipulation/split_string_view.cpp

    [LazySplitStringView] and its forward iterator.  A range-based loop over the
    view visits the substrings between the separators; an empty substring after
    a separator at the end is not visited. *)

From S2P Require Import Prelude CppInt CppString.

Module SplitStringView.

Record LazySplitStringView := { source_ : str; seperator_ : ascii }.

(** [std::string_view::find]; [npos] is [None]. *)
Fixpoint find (view : str) (c : ascii) : option nat :=
  match view with
  | [] => None
  | x :: view => if decide (x = c) then Some 0 else S <$> find view c
  end.

(** [remove_prefix] beyond the end is undefined. *)
Definition remove_prefix (n : nat) (view : str) : outcome str :=
  if n <=? length view then Ret (drop n view) else Undefined.
Definition remove_suffix (n : nat) (view : str) : outcome str :=
  if n <=? length view then Ret (take (length view - n) view) else Undefined.

Definition FindNextSeperator (view : str) (start_index : nat) (seperator : ascii) : outcome nat :=
  view ← remove_prefix start_index view;
  match find view seperator with
  | Some pos => Ret (start_index + pos)
  | None => Ret (start_index + length view)
  end.

Record Iterator := { start_index_ : nat; seperator_index_ : nat }.

Definition make_iterator (v : LazySplitStringView) (start_index : nat) : outcome Iterator :=
  seperator_index ← FindNextSeperator (source_ v) start_index (seperator_ v);
  if start_index <=? seperator_index
  then Ret {| start_index_ := start_index; seperator_index_ := seperator_index |} else Aborted.

Definition cbegin (v : LazySplitStringView) : outcome Iterator := make_iterator v 0.
Definition cend (v : LazySplitStringView) : outcome Iterator := make_iterator v (length (source_ v)).

Definition deref (v : LazySplitStringView) (it : Iterator) : outcome str :=
  if start_index_ it <=? seperator_index_ it then
    result ← remove_suffix (length (source_ v) - seperator_index_ it) (source_ v);
    remove_prefix (start_index_ it) result
  else Aborted.

Definition it_eq (lhs rhs : Iterator) : bool := start_index_ lhs =? start_index_ rhs.

Definition increment (v : LazySplitStringView) (it : Iterator) : outcome Iterator :=
  let start_index := seperator_index_ it + 1 in
  let start_index := Nat.min (length (source_ v)) start_index in
  seperator_index ← FindNextSeperator (source_ v) start_index (seperator_ v);
  if start_index <=? seperator_index
  then Ret {| start_index_ := start_index; seperator_index_ := seperator_index |} else Aborted.

(** The range-based for loop, collecting the substrings. *)
Fixpoint loop (fuel : nat) (v : LazySplitStringView) (it last : Iterator) : outcome (list str) :=
  match fuel with
  | O => Undefined
  | S fuel =>
      if it_eq it last then Ret []
      else
        segment ← deref v it;
        it ← increment v it;
        rest ← loop fuel v it last;
        Ret (segment :: rest)
  end.

Definition segments (v : LazySplitStringView) : outcome (list str) :=
  first ← cbegin v; last ← cend v;
  loop (S (length (source_ v))) v first last.

(** ** Reference *)

(** Splitting at every separator; the text after the last one counts only if
    it is not empty. *)
Fixpoint split (sep : ascii) (s acc : str) : list str :=
  match s with
  | [] => match acc with [] => [] | _ => [acc] end
  | c :: s => if decide (c = sep) then acc :: split sep s [] else split sep s (acc ++ [c])
  end.

(** ** Lemmas *)

Lemma find_spec view c :
  match find view c with
  | Some n => ∃ rest, view = take n view ++ c :: rest ∧ (n < length view) ∧ c ∉ take n view
  | None => c ∉ view
  end.
Proof.
  induction view as [|x view IH]; simpl; [apply not_elem_of_nil|]. case_decide as Hx.
  - subst x. exists view. split; [done|]. split; [lia|]. apply not_elem_of_nil.
  - destruct (find view c) as [n|]; simpl.
    + destruct IH as (rest & E & Hn & Hni). exists rest. split; [by f_equal|]. split; [lia|].
      by apply not_elem_of_cons.
    + by apply not_elem_of_cons.
Qed.

Lemma split_none sep s acc : sep ∉ s → split sep s acc = match acc ++ s with [] => [] | _ => [acc ++ s] end.
Proof.
  revert acc. induction s as [|c s IH]; intros acc Hs; simpl; [by rewrite app_nil_r|].
  apply not_elem_of_cons in Hs as [Hc Hs]. rewrite decide_False by done. rewrite IH by done.
  by rewrite <- (assoc_L (++)).
Qed.

Lemma split_some sep s1 s2 acc : sep ∉ s1 → split sep (s1 ++ sep :: s2) acc = (acc ++ s1) :: split sep s2 [].
Proof.
  revert acc. induction s1 as [|c s1 IH]; intros acc Hs; simpl; [rewrite decide_True by done; by rewrite app_nil_r|].
  apply not_elem_of_cons in Hs as [Hc Hs]. rewrite decide_False by done. rewrite IH by done.
  by rewrite <- (assoc_L (++)).
Qed.

(** The length of the first substring. *)
Definition next (view : str) (c : ascii) : nat := match find view c with Some n => n | None => length view end.

Lemma FindNextSeperator_spec view start sep :
  start <= length view →
  FindNextSeperator view start sep = Ret (start + next (drop start view) sep).
Proof.
  intros Hs. unfold FindNextSeperator, remove_prefix. rewrite (proj2 (Nat.leb_le _ _)) by done. simpl.
  unfold next. by destruct (find _ _).
Qed.

(** The iterator at a position. *)
Definition at_ (v : LazySplitStringView) (start : nat) : Iterator :=
  {| start_index_ := start;
     seperator_index_ := start + next (drop start (source_ v)) (seperator_ v) |}.

Lemma make_iterator_spec v start : start <= length (source_ v) → make_iterator v start = Ret (at_ v start).
Proof.
  intros Hs. unfold make_iterator. rewrite FindNextSeperator_spec by done. simpl.
  by rewrite (proj2 (Nat.leb_le _ _)) by lia.
Qed.

Lemma separator_le v start :
  start <= length (source_ v) → seperator_index_ (at_ v start) <= length (source_ v).
Proof.
  intros Hs. simpl. unfold next. pose proof (find_spec (drop start (source_ v)) (seperator_ v)) as H.
  destruct (find _ _) as [n|]; simpl; [destruct H as (_ & _ & Hn & _)|]; rewrite length_drop in *; lia.
Qed.

Lemma increment_spec v start :
  start <= length (source_ v) →
  increment v (at_ v start) = Ret (at_ v (Nat.min (length (source_ v)) (seperator_index_ (at_ v start) + 1))).
Proof.
  intros Hs. unfold increment. rewrite FindNextSeperator_spec by lia. cbn [mbind outcome_bind].
  rewrite (proj2 (Nat.leb_le _ _)) by lia. done.
Qed.

Lemma deref_spec v start :
  start <= length (source_ v) →
  deref v (at_ v start) = Ret (take (seperator_index_ (at_ v start) - start) (drop start (source_ v))).
Proof.
  intros Hs. pose proof (separator_le v start Hs) as Hle. unfold deref.
  rewrite (proj2 (Nat.leb_le (start_index_ (at_ v start)) _)) by (simpl; lia).
  unfold remove_suffix, remove_prefix. set (e := seperator_index_ (at_ v start)) in *.
  assert (start <= e) by (unfold e; simpl; lia).
  rewrite (proj2 (Nat.leb_le _ _)) by lia. cbn [mbind outcome_bind].
  replace (length (source_ v) - (length (source_ v) - e)) with e by lia.
  rewrite length_take, (proj2 (Nat.leb_le _ _)) by (simpl; lia).
  cbn [start_index_ at_]. by rewrite skipn_firstn_comm.
Qed.

Lemma split_loop_spec fuel v start :
  start <= length (source_ v) → length (source_ v) - start < fuel →
  loop fuel v (at_ v start) (at_ v (length (source_ v)))
  = Ret (split (seperator_ v) (drop start (source_ v)) []).
Proof.
  revert start. induction fuel as [|fuel IH]; intros start Hs Hf; [lia|]. cbn [loop]. unfold it_eq.
  cbn [start_index_ at_]. destruct (Nat.eqb_spec start (length (source_ v))) as [->|Hne].
  { by rewrite drop_all. }
  rewrite deref_spec, increment_spec by done. cbn [mbind outcome_bind].
  pose proof (separator_le v start Hs) as Hle. cbn [seperator_index_ at_] in *.
  pose proof (find_spec (drop start (source_ v)) (seperator_ v)) as Hfind.
  pose proof (length_drop (source_ v) start) as Hld. unfold next in *.
  destruct (find (drop start (source_ v)) (seperator_ v)) as [n|].
  - destruct Hfind as (rest & E & Hn & Hni).
    rewrite Nat.min_r, IH by lia. cbn [mbind outcome_bind].
    replace (start + n - start) with n by lia.
    assert (drop (start + n + 1) (source_ v) = rest) as ->.
    { replace (start + n + 1) with (start + (n + 1)) by lia. rewrite <- drop_drop, E.
      rewrite drop_app_ge by (rewrite length_take; lia). rewrite length_take.
      by replace (n + 1 - Nat.min n (length (drop start (source_ v)))) with 1 by lia. }
    rewrite E at 2. by rewrite split_some.
  - rewrite Nat.min_l, IH by lia. cbn [mbind outcome_bind]. rewrite drop_all. cbn [split]. rewrite split_none by done.
    rewrite (take_ge (drop _ _)) by lia. 
    assert (drop start (source_ v) ≠ []) as Hnil by (intros E; rewrite E in Hld; simpl in Hld; lia).
    by destruct (drop start (source_ v)).
Qed.

(** A segment is what was between two separators: putting separators between
    the segments, and one at the end if the text has one, gives the text. *)
Fixpoint join (sep : ascii) (l : list str) : str :=
  match l with
  | [] => []
  | [s] => s
  | s :: l => s ++ sep :: join sep l
  end.

Lemma split_ne sep s acc : acc ≠ [] → split sep s acc ≠ [].
Proof.
  revert acc. induction s as [|c s IH]; intros acc Ha; simpl; [by destruct acc|].
  case_decide; [done|]. apply IH. by destruct acc.
Qed.

Lemma split_join sep s acc :
  join sep (split sep s acc) = acc ++ s ∨ join sep (split sep s acc) ++ [sep] = acc ++ s.
Proof.
  revert acc. induction s as [|c s IH]; intros acc; simpl.
  { left. rewrite app_nil_r. by destruct acc. }
  case_decide as Hc.
  - subst c. destruct s as [|c s]; [by right|].
    assert (split sep (c :: s) [] ≠ []) as Hne.
    { simpl. case_decide; [done|]. by apply split_ne. }
    assert (join sep (acc :: split sep (c :: s) []) = acc ++ sep :: join sep (split sep (c :: s) [])) as ->.
    { by destruct (split sep (c :: s) []). }
    destruct (IH []) as [E|E]; rewrite app_nil_l in E; [left; by rewrite E|right].
    rewrite <- (assoc_L (++)). cbn [app]. by rewrite E.
  - destruct (IH (acc ++ [c])) as [E|E]; [left|right]; rewrite E; by rewrite <- (assoc_L (++)).
Qed.

Lemma split_no_sep sep s acc : sep ∉ acc → Forall (λ t, sep ∉ t) (split sep s acc).
Proof.
  revert acc. induction s as [|c s IH]; intros acc Ha; simpl; [destruct acc; by repeat constructor|].
  case_decide as Hc.
  - constructor; [done|]. apply IH, not_elem_of_nil.
  - apply IH. rewrite not_elem_of_app, list_elem_of_singleton. split; [done|congruence].
Qed.

Lemma segments_spec v : segments v = Ret (split (seperator_ v) (source_ v) []).
Proof.
  unfold segments, cbegin, cend. rewrite !make_iterator_spec by lia. cbn [mbind outcome_bind].
  rewrite split_loop_spec by lia. by rewrite drop_0.
Qed.

(** A loop over a split view ends, and visits exactly the substrings that
    the reference definition gives: none contains the separator, and put
    together with separators they are the text, without a separator at its
    end. *)
Theorem split_spec (source : str) (sep : ascii) :
  ∃ l, segments {| source_ := source; seperator_ := sep |} = Ret l
  ∧ l = split sep source [] ∧ Forall (λ t, sep ∉ t) l
  ∧ (join sep l = source ∨ join sep l ++ [sep] = source).
Proof.
  exists (split sep source []). rewrite segments_spec. split; [done|]. split; [done|].
  split; [apply split_no_sep, not_elem_of_nil|]. apply (split_join sep source []).
Qed.

Example split_examples :
  (segments {| source_ := s! "kFile|kConsole"; seperator_ := "|"%char |} = Ret [s! "kFile"; s! "kConsole"])
  ∧ (segments {| source_ := s! "|a||b|"; seperator_ := "|"%char |} = Ret [[]; s! "a"; []; s! "b"])
  ∧ (segments {| source_ := []; seperator_ := "|"%char |} = Ret []).
Proof. vm_compute. done. Qed.

End SplitStringView.
