(* ===== verification/LogPayload.v ===== *)
(** * The payload of a log message: mw/log/detail/verbose_payload.cpp

    A [ByteVector] has its contents and its capacity.  [VerbosePayload] appends
    to it through a reservation: the vector is grown to the reserved size, a
    callback fills the reserved bytes (the span), and the vector is cut to what
    the callback says it has used.  A callback gets the bytes of the span and
    returns them as it leaves them; writing outside of the span is [Undefined].

    Sizes are [std::size_t] and wrap at 64 bits; helper_functions.h clamps. *)

From S2P Require Import Prelude CppInt CppString.

Local Open Scope Z_scope.

Definition NUL : ascii := "000"%char.

Module LogPayload.

Record ByteVector := { content : str; capacity_ : Z }.

Definition size (v : ByteVector) : Z := Z.of_nat (length (content v)).
Definition capacity (v : ByteVector) : Z := capacity_ v.

(** [resize]: new elements are zero; growing beyond the capacity reallocates. *)
Definition resize (n : Z) (v : ByteVector) : ByteVector :=
  {| content := take (Z.to_nat n) (content v) ++ replicate (Z.to_nat n - length (content v)) NUL;
     capacity_ := Z.max (capacity_ v) n |}.

Definition reserve (n : Z) (v : ByteVector) : ByteVector :=
  {| content := content v; capacity_ := Z.max (capacity_ v) n |}.

(** ** helper_functions.h *)

(** [ClampTo<Target>(value)] for an unsigned 64-bit value. *)
Definition ClampTo (target : int_type) (value : Z) : Z :=
  if static_cast uint64_t (max target) <? static_cast uint64_t value then max target
  else static_cast target value.

(** [HandleAddOverflow] for an unsigned type. *)
Definition HandleAddOverflow (t : int_type) (left right : Z) : Z :=
  if static_cast t (max t - right) <? left then max t else static_cast t (left + right).

(** ** ReservedData *)

Record ReservedData := { buffer_ : ByteVector; old_size_ : Z; total_used_ : Z; reserved_ : Z }.

Definition make_ReservedData (buffer : ByteVector) (reserve_size : Z) : ReservedData :=
  let old_size := size buffer in
  let max_possible_length_to_copy :=
    if old_size <? capacity buffer then u64 (capacity buffer - old_size) else 0 in
  let reserved :=
    if (reserve_size =? 0) || (max_possible_length_to_copy <? reserve_size)
    then max_possible_length_to_copy else reserve_size in
  let kMaxSignedTypeSize := static_cast uint64_t (max int32_t) in
  let reserved := Z.min kMaxSignedTypeSize reserved in
  let new_size := HandleAddOverflow uint64_t reserved old_size in
  {| buffer_ := resize new_size buffer; old_size_ := old_size; total_used_ := 0;
     reserved_ := reserved |}.

(** The destructor leaves the buffer with what was used. *)
Definition destroy_ReservedData (r : ReservedData) : ByteVector :=
  let new_size := HandleAddOverflow uint64_t (total_used_ r) (old_size_ r) in
  resize new_size (buffer_ r).

Definition IncreaseUsed (n : Z) (r : ReservedData) : ReservedData :=
  let capacity := capacity (buffer_ r) in
  let space_left :=
    if (old_size_ r <? capacity) && (total_used_ r <? u64 (capacity - old_size_ r))
    then u64 (capacity - u64 (total_used_ r + old_size_ r)) else 0 in
  let use_size := Z.min n space_left in
  {| buffer_ := buffer_ r; old_size_ := old_size_ r;
     total_used_ := HandleAddOverflow uint64_t (total_used_ r) use_size; reserved_ := reserved_ r |}.

(** The reserved bytes as position and size; the empty span has no position. *)
Definition GetData (r : ReservedData) : option (nat * nat) :=
  let buffer_index := u64 (old_size_ r + total_used_ r) in
  if (buffer_index <? size (buffer_ r)) && (total_used_ r <? reserved_ r) then
    let diff := ClampTo int32_t (u64 (reserved_ r - total_used_ r)) in
    Some (Z.to_nat buffer_index, Z.to_nat (static_cast uint64_t diff))
  else None.

(** ** VerbosePayload *)

(** A callback receives the bytes of a span and returns the bytes it leaves
    there and the number it reports as used. *)
Abbreviation ReserveCallback := (str → outcome (str * Z)).

Definition make_VerbosePayload (max_size : Z) (buffer : ByteVector) : ByteVector :=
  reserve max_size buffer.

Definition set_content (c : str) (v : ByteVector) : ByteVector :=
  {| content := c; capacity_ := capacity_ v |}.

(** Runs a callback on a span of the buffer; the empty span stays empty, and a
    callback that changes the length of its span is no callback. *)
Definition call (callback : ReserveCallback) (span : option (nat * nat)) (v : ByteVector) :
    outcome (ByteVector * Z) :=
  match span with
  | Some (pos, n) =>
      let region := take n (drop pos (content v)) in
      if (length region =? n)%nat then
        '(region', used) ← callback region;
        if (length region' =? n)%nat
        then Ret (set_content (take pos (content v) ++ region' ++ drop (pos + n) (content v)) v, used)
        else Undefined
      else Undefined
  | None => '(region', used) ← callback []; if (length region' =? 0)%nat then Ret (v, used) else Undefined
  end.

Definition Put (callback : ReserveCallback) (reserve_size : Z) (buffer : ByteVector) :
    outcome (ByteVector * Z) :=
  let reserved_data := make_ReservedData buffer reserve_size in
  let data := GetData reserved_data in
  '(b, new_written_data_size) ← call callback data (buffer_ reserved_data);
  let reserved_data := IncreaseUsed new_written_data_size
    {| buffer_ := b; old_size_ := old_size_ reserved_data; total_used_ := total_used_ reserved_data;
       reserved_ := reserved_ reserved_data |} in
  Ret (destroy_ReservedData reserved_data, new_written_data_size).

(** [Put(data, length)]: copies as much as there is space for.  A null pointer
    is [None]; the source must have [length] bytes. *)
Definition PutData (data : option str) (len : Z) (buffer : ByteVector) : outcome ByteVector :=
  if len =? 0 then Ret buffer
  else match data with
       | None => Ret buffer
       | Some data =>
           '(b, _) ← Put (λ dst_data,
               if (length dst_data <=? length data)%nat
               then Ret (take (length dst_data) data, Z.of_nat (length dst_data))
               else Undefined) len buffer;
           Ret b
       end.

(** [GetSpan] views the contents. *)
Definition GetSpan (buffer : ByteVector) : str :=
  take (Z.to_nat (Z.min (static_cast uint64_t (max uint64_t)) (size buffer))) (content buffer).

Definition Reset (buffer : ByteVector) : ByteVector := resize 0 buffer.

Definition RemainingCapacity (buffer : ByteVector) : Z := u64 (capacity buffer - size buffer).

Definition WillOverflow (len : Z) (buffer : ByteVector) : bool := RemainingCapacity buffer <? len.

(** ** Lemmas *)

(** The sizes of a payload: the contents fit the capacity, and the capacity
    the sizes of spans. *)
Definition payload_ok (v : ByteVector) : Prop := size v <= capacity v <= max int32_t.

Definition free (v : ByteVector) : nat := Z.to_nat (capacity v - size v).

Lemma max_int32 : max int32_t = 2147483647.
Proof. done. Qed.

Lemma HandleAddOverflow_small a b :
  0 <= a < 2 ^ 62 → 0 <= b < 2 ^ 62 → HandleAddOverflow uint64_t a b = a + b.
Proof.
  intros Ha Hb. unfold HandleAddOverflow. change (max uint64_t) with (2 ^ 64 - 1).
  change (static_cast uint64_t) with u64. rewrite !u64_id by lia.
  by rewrite (proj2 (Z.ltb_ge _ _)) by lia.
Qed.

Lemma ClampTo_small n : 0 <= n <= max int32_t → ClampTo int32_t n = n.
Proof.
  rewrite max_int32. intros Hn. unfold ClampTo. rewrite max_int32.
  change (static_cast uint64_t) with u64. rewrite !u64_id by lia.
  rewrite (proj2 (Z.ltb_ge _ _)) by lia. apply static_cast_id. unfold in_range. rewrite max_int32.
  cbv [lowest is_signed bits]. lia.
Qed.

Lemma resize_grow v n :
  size v <= n → content (resize n v) = content v ++ replicate (Z.to_nat n - length (content v)) NUL.
Proof. intros Hn. simpl. rewrite take_ge; [done|]. unfold size in Hn. lia. Qed.

(** How many bytes a call of [Put] reserves. *)
Definition granted (v : ByteVector) (reserve_size : Z) : nat :=
  if (reserve_size =? 0) then free v else Nat.min (Z.to_nat reserve_size) (free v).

Lemma granted_le v reserve_size : (granted v reserve_size <= free v)%nat.
Proof. unfold granted. case_match; lia. Qed.

(** The vector after the reservation. *)
Lemma make_ReservedData_spec v reserve_size :
  payload_ok v → 0 <= reserve_size →
  let n := granted v reserve_size in
  let r := make_ReservedData v reserve_size in
  content (buffer_ r) = content v ++ replicate n NUL ∧ capacity_ (buffer_ r) = capacity_ v
  ∧ old_size_ r = size v ∧ total_used_ r = 0 ∧ reserved_ r = Z.of_nat n.
Proof.
  intros [Hs Hc] Hr n r. rewrite max_int32 in Hc. assert (0 <= size v) as H0 by (unfold size; lia).
  assert (reserved_ r = Z.of_nat n) as En.
  { unfold r, n, make_ReservedData, granted, free. cbn [reserved_]. rewrite max_int32.
    change (static_cast uint64_t) with u64. rewrite !u64_id by lia.
    destruct (Z.ltb_spec (size v) (capacity v)); destruct (Z.eqb_spec reserve_size 0); cbn [orb];
      repeat case_match; reflect_bool; lia. }
  assert (buffer_ r = resize (HandleAddOverflow uint64_t (reserved_ r) (size v)) v) as Eb by done.
  pose proof (granted_le v reserve_size) as Hg. fold n in Hg. unfold free in Hg.
  rewrite Eb, En, HandleAddOverflow_small by lia.
  split; [|split; [|done]].
  - rewrite resize_grow by lia. f_equal. f_equal. unfold size in *. lia.
  - simpl. unfold capacity in *. lia.
Qed.

(** The callback gets the reserved bytes, which are zero. *)
Lemma call_reserved callback v reserve_size :
  payload_ok v → 0 <= reserve_size →
  let n := granted v reserve_size in
  let r := make_ReservedData v reserve_size in
  call callback (GetData r) (buffer_ r)
  = '(region, used) ← callback (replicate n NUL);
    if (length region =? n)%nat
    then Ret ({| content := content v ++ region; capacity_ := capacity_ v |}, used) else Undefined.
Proof.
  intros Hok Hr n r. pose proof Hok as [Hs Hc]. rewrite max_int32 in Hc.
  assert (0 <= size v) as H0 by (unfold size; lia).
  destruct (make_ReservedData_spec v reserve_size Hok Hr) as (Ec & Ek & Eo & Et & Er). fold n r in Ec, Ek, Eo, Et, Er.
  pose proof (granted_le v reserve_size) as Hg. fold n in Hg. unfold free in Hg.
  assert (size (buffer_ r) = size v + Z.of_nat n) as Esz.
  { unfold size. rewrite Ec, length_app, length_replicate. lia. }
  unfold GetData. rewrite Eo, Et, Er, Esz, Z.add_0_r, Z.sub_0_r. rewrite !u64_id by lia.
  destruct (decide (n = 0%nat)) as [En|En].
  - rewrite (proj2 (Z.ltb_ge _ _)) by lia. cbn [andb call]. rewrite En. cbn [replicate].
    destruct (callback []) as [[region used]| |]; [|done..]. cbn [mbind outcome_bind].
    destruct region; [|done]. cbn [length Nat.eqb]. do 2 f_equal.
    destruct (buffer_ r) as [c k]. simpl in *. subst c k. by rewrite En, !app_nil_r.
  - rewrite (proj2 (Z.ltb_lt _ _)), (proj2 (Z.ltb_lt _ _)) by lia. cbn [andb].
    rewrite (u64_id (Z.of_nat n)), ClampTo_small by (rewrite ?max_int32; lia). change (static_cast uint64_t) with u64.
    rewrite u64_id, Nat2Z.id by lia. unfold call, size. rewrite Nat2Z.id, Ec.
    rewrite drop_app_length, take_ge, length_replicate, Nat.eqb_refl by by rewrite length_replicate.
    destruct (callback (replicate n NUL)) as [[region used]| |]; [|done..]. cbn [mbind outcome_bind].
    rewrite take_app_length, drop_ge by (rewrite length_app, length_replicate; lia).
    unfold set_content. by rewrite Ek, app_nil_r.
Qed.

Lemma Put_undefined callback v reserve_size :
  payload_ok v → 0 <= reserve_size → callback (replicate (granted v reserve_size) NUL) = Undefined →
  Put callback reserve_size v = Undefined.
Proof. intros Hok Hr Hcb. unfold Put. by rewrite call_reserved, Hcb. Qed.

(** What [Put] does for a callback that keeps within its span. *)
Lemma Put_spec callback v reserve_size region used :
  payload_ok v → 0 <= reserve_size → 0 <= used →
  let n := granted v reserve_size in
  callback (replicate n NUL) = Ret (region, used) → length region = n →
  let t := Nat.min (Z.to_nat used) (free v) in
  Put callback reserve_size v
  = Ret ({| content := content v ++ take t region ++ replicate (t - n) NUL; capacity_ := capacity_ v |}, used).
Proof.
  intros Hok Hr Hu n Hcb Hreg t. pose proof Hok as [Hs Hc]. rewrite max_int32 in Hc.
  assert (0 <= size v) as H0 by (unfold size; lia).
  destruct (make_ReservedData_spec v reserve_size Hok Hr) as (_ & _ & Eo & Et & _).
  unfold Put. rewrite call_reserved by done. fold n. rewrite Hcb. cbn [mbind outcome_bind].
  rewrite (proj2 (Nat.eqb_eq _ _) Hreg).
  cbn [mbind outcome_bind]. unfold IncreaseUsed. cbn [buffer_ old_size_ total_used_ reserved_ capacity capacity_].
  rewrite Eo, Et. unfold capacity in *.
  rewrite Z.add_0_l, (u64_id (size v)), (u64_id (capacity_ v - size v)) by lia.
  do 2 f_equal. unfold destroy_ReservedData. cbn [buffer_ old_size_ total_used_].
  assert (Z.min used (if (size v <? capacity_ v) && (0 <? capacity_ v - size v)
    then capacity_ v - size v else 0) = Z.of_nat t) as ->.
  { unfold t, free, capacity. destruct (Z.ltb_spec (size v) (capacity_ v)); cbn [andb];
      [rewrite (proj2 (Z.ltb_lt _ _)) by lia|]; lia. }
  assert (Z.of_nat t <= capacity_ v - size v) by (unfold t, free, capacity; lia).
  rewrite (HandleAddOverflow_small 0), Z.add_0_l, HandleAddOverflow_small by lia.
  unfold resize. cbn [content capacity_]. f_equal; [|lia].
  replace (Z.to_nat (Z.of_nat t + size v)) with (length (content v) + t)%nat by (unfold size; lia).
  rewrite take_app_add, length_app, Hreg, <- (assoc_L (++)). do 3 f_equal. lia.
Qed.

Lemma payload_ok_app v t : payload_ok v → (length t <= free v)%nat →
  payload_ok {| content := content v ++ t; capacity_ := capacity_ v |}.
Proof.
  unfold payload_ok, free, size, capacity. intros [Hs Hc] Ht. simpl. rewrite length_app. lia.
Qed.

End LogPayload.
