(* ===== verification/LogFormat.v ===== *)
(** * The texts of log messages: mw/log/detail/text_recorder/text_format.h, .cpp

    The overloads of [TextFormat::Log] append the text of a value and a space to
    a payload (LogPayload.v), as far as it has space.  Template arguments are
    arguments of the definitions; the text of a floating-point number and that
    of a point in time, which [std::snprintf] and [std::put_time] compute from
    the locale, are parameters.

    [fit] is the reference definition: what is appended for a text.  All
    overloads but one refine it.  The exception is the text of a raw buffer,
    which is written beyond the end of the payload in some cases. *)

From S2P Require Import Prelude CppInt CppString LogPayload.
Import LogPayload.

Local Open Scope Z_scope.

Module LogFormat.

Inductive IntegerRepresentation := kDecimal | kOctal | kHex | kBinary.

(** ** Formatted numbers *)

Definition hex_chars : str := s! "0123456789abcdef".
Definition digit_char (d : Z) : ascii := nth (Z.to_nat d) hex_chars "0"%char.

(** The digits of a number that is not negative; 22 digits hold 64 bits in
    every base from eight on. *)
Fixpoint digits_text (fuel : nat) (base n : Z) (acc : str) : str :=
  match fuel with
  | O => acc
  | S fuel =>
      let acc := digit_char (n mod base) :: acc in
      if n / base =? 0 then acc else digits_text fuel base (n / base) acc
  end.

(** The conversions that [GetFormatSpecifier] has for integers. *)
Definition number_text (i : IntegerRepresentation) (v : Z) : str :=
  match i with
  | kHex => digits_text 22 16 v []
  | kOctal => digits_text 22 8 v []
  | _ => if v <? 0 then "-"%char :: digits_text 22 10 (- v) [] else digits_text 22 10 v []
  end.

(** [std::snprintf(buffer, size, ...)] for a text: it writes what fits, then a
    terminating zero, and returns the length of the whole text. *)
Definition snprintf (buffer text : str) : str * Z :=
  match buffer with
  | [] => ([], Z.of_nat (length text))
  | _ =>
      let n := Nat.min (length text) (length buffer - 1) in
      (take n text ++ NUL :: drop (S n) buffer, Z.of_nat (length text))
  end.

Definition FormattingFunctionReturnCast (i : Z) : Z := if 0 <? i then u64 i else 0.

(** The callback of [PutFormattedNumber]; [text] is what the format gives. *)
Definition format_number (text : str) : ReserveCallback := λ buffer,
  if negb (length buffer =? 0)%nat then
    let '(buffer, n) := snprintf buffer (text ++ [" "%char]) in
    let written := FormattingFunctionReturnCast n in
    let num_written := Z.min written (u64 (Z.of_nat (length buffer) - 1)) in
    let count := u64 (num_written + 1) in
    if (0 <? count) && (count <=? Z.of_nat (length buffer))
    then Ret (<[Z.to_nat (count - 1) := " "%char]> buffer, written)
    else Undefined
  else Ret (buffer, 0).

Definition PutFormattedText (text : str) (payload : ByteVector) : outcome ByteVector :=
  fst <$> Put (format_number text) 0 payload.

Definition PutFormattedNumber (i : IntegerRepresentation) (v : Z) (payload : ByteVector) :
    outcome ByteVector :=
  PutFormattedText (number_text i v) payload.

(** ** Binary numbers *)

Definition kReserveSpaceForSpace : Z := 1.

(** The while loop: the bits from the most significant one, as far as there
    is space. *)
Fixpoint write_bits (bits : Z) (v : Z) (max_possible : nat) (buffer_index : nat) (fuel : nat)
    (buffer : str) : outcome (str * nat) :=
  match fuel with
  | O => Undefined
  | S fuel =>
      if (buffer_index <? max_possible)%nat then
        let bit := Z.testbit v (bits - 1 - Z.of_nat buffer_index) in
        if (buffer_index <? length buffer)%nat
        then write_bits bits v max_possible (S buffer_index) fuel
               (<[buffer_index := if bit then "1"%char else "0"%char]> buffer)
        else Undefined
      else Ret (buffer, buffer_index)
  end.

Definition format_binary (t : int_type) (v : Z) : ReserveCallback := λ buffer,
  let buffer_space := length buffer in
  if (1 <? buffer_space)%nat then
    let kNumberOfBits := bits t in
    let max_possible := Nat.min (Z.to_nat kNumberOfBits) buffer_space in
    '(buffer, buffer_index) ← write_bits kNumberOfBits v max_possible 0 (S max_possible) buffer;
    let last_index := (buffer_space - 1)%nat in
    Ret (<[last_index := " "%char]> buffer, Z.of_nat buffer_index + kReserveSpaceForSpace)
  else Ret (buffer, 0).

Definition PutBinaryFormattedNumber (t : int_type) (v : Z) (payload : ByteVector) : outcome ByteVector :=
  if is_signed t then Ret payload
  else fst <$> Put (format_binary t v) (bits t + kReserveSpaceForSpace) payload.

Definition PutOctalFormattedNumber (t : int_type) (v : Z) (payload : ByteVector) : outcome ByteVector :=
  if is_signed t then Ret payload else PutFormattedNumber kOctal v payload.

Definition PutHexFormattedNumber (t : int_type) (v : Z) (payload : ByteVector) : outcome ByteVector :=
  if is_signed t then Ret payload else PutFormattedNumber kHex v payload.

Definition LogData (t : int_type) (v : Z) (i : IntegerRepresentation) (payload : ByteVector) :
    outcome ByteVector :=
  match i with
  | kHex => PutHexFormattedNumber t v payload
  | kBinary => PutBinaryFormattedNumber t v payload
  | kOctal => PutOctalFormattedNumber t v payload
  | kDecimal => PutFormattedNumber kDecimal v payload
  end.

(** ** Strings *)

Definition PutLogStringViewData (data : str) : ReserveCallback := λ buffer,
  let len := Nat.min (length data) (length buffer) in
  if (0 <? len)%nat then
    let buffer := take len data ++ drop len buffer in
    if negb (len =? length buffer)%nat
    then Ret (<[len := " "%char]> buffer, Z.of_nat len + 1)
    else Ret (<[(len - 1)%nat := " "%char]> buffer, Z.of_nat len)
  else Ret (buffer, 0).

Definition Log_string (data : str) (payload : ByteVector) : outcome ByteVector :=
  if negb (length data =? 0)%nat then
    let data_length := u64 (Z.of_nat (length data) + kReserveSpaceForSpace) in
    fst <$> Put (PutLogStringViewData data) data_length payload
  else Ret payload.

Definition Log_bool (data : bool) (payload : ByteVector) : outcome ByteVector :=
  Log_string (if data then s! "True" else s! "False") payload.

(** ** Raw buffers *)

(** ["%02hhx"] of a byte. *)
Definition hex_byte (c : ascii) : str :=
  let v := Z.of_N (N_of_ascii c) in [digit_char (v / 16); digit_char (v mod 16)].

(** The for_each loop: [copy_n] of two characters at the iterator, which is the
    position [it] in the span. *)
Fixpoint write_hex (data : str) (it : nat) (buffer : str) : outcome (str * nat) :=
  match data with
  | [] => Ret (buffer, it)
  | input :: data =>
      if negb (it =? length buffer)%nat then
        if (it + 2 <=? length buffer)%nat
        then write_hex data (it + 2) (take it buffer ++ hex_byte input ++ drop (it + 2) buffer)
        else Undefined
      else write_hex data it buffer
  end.

Definition PutLogRawBufferData (data : str) : ReserveCallback := λ buffer,
  if (length buffer =? 0)%nat then Ret (buffer, 0)
  else
    '(buffer, it) ← write_hex data 0 buffer;
    if negb (it =? length buffer)%nat
    then Ret (<[it := " "%char]> buffer, Z.of_nat (it + 1))
    else Ret (buffer, Z.of_nat it).

Definition Log_raw (data : str) (payload : ByteVector) : outcome ByteVector :=
  let max_string_len := u64 (2 * Z.of_nat (length data)) in
  if 0 <? max_string_len then
    fst <$> Put (PutLogRawBufferData data) (u64 (max_string_len + kReserveSpaceForSpace)) payload
  else Ret payload.

(** ** End of the message and time *)

Definition newline : ascii := "010"%char.
Definition TerminateLog (payload : ByteVector) : outcome ByteVector :=
  PutData (Some [newline]) kReserveSpaceForSpace payload.

(** [time_str] is the formatted time, or nothing if it cannot be computed. *)
Definition PutFormattedTimeData (time_str : option str) : ReserveCallback := λ buffer,
  match time_str with
  | Some time_str =>
      if (length time_str <? length buffer)%nat
      then Ret (time_str ++ drop (length time_str) buffer, Z.of_nat (length time_str))
      else Ret (buffer, 0)
  | None => Ret (buffer, 0)
  end.

Definition PutFormattedTime (time_str : option str) (milliseconds : Z) (payload : ByteVector) :
    outcome ByteVector :=
  payload ← fst <$> Put (PutFormattedTimeData time_str) 0 payload;
  let time_elapsed := Z.rem milliseconds 10000000 in
  PutFormattedNumber kDecimal (static_cast uint32_t time_elapsed) payload.

(** ** The overloads of [Log] *)

(** A value that can be logged.  Integers have their type and representation;
    of a floating-point number there is the text of ["%f"]. *)
Inductive argument :=
  | LogBool (data : bool)
  | LogInteger (t : int_type) (data : Z) (i : IntegerRepresentation)
  | LogHex (t : int_type) (value : Z)
  | LogBin (t : int_type) (value : Z)
  | LogFloat (text : str)
  | LogString (data : str)
  | LogRawBuffer (data : str).

Definition Log (a : argument) (payload : ByteVector) : outcome ByteVector :=
  match a with
  | LogBool data => Log_bool data payload
  | LogInteger t data i => LogData t data i payload
  | LogHex t value => LogData t value kHex payload
  | LogBin t value => LogData t value kBinary payload
  | LogFloat text => PutFormattedText text payload
  | LogString data => Log_string data payload
  | LogRawBuffer data => Log_raw data payload
  end.

Fixpoint LogAll (l : list argument) (payload : ByteVector) : outcome ByteVector :=
  match l with
  | [] => Ret payload
  | a :: l => payload ← Log a payload; LogAll l payload
  end.

(** ** Reference definition *)

(** What is appended for a text if [n] bytes are free: the text and a space, or
    the first [n - 1] characters and a space. *)
Definition fit (n : nat) (text : str) : str :=
  match n with O => [] | S n => take n text ++ [" "%char] end.

Definition append (v : ByteVector) (text : str) : ByteVector :=
  {| content := content v ++ text; capacity_ := capacity_ v |}.

(** The bits of a number, the most significant one first. *)
Definition binary_text (bits v : Z) : str :=
  (λ i, if Z.testbit v (bits - 1 - Z.of_nat i) then "1"%char else "0"%char) <$> seq 0 (Z.to_nat bits).

Definition hex_text (data : str) : str := data ≫= hex_byte.

(** The text of an integer; a signed integer has no text in a base other than
    ten, and a binary text needs space for a digit. *)
Definition shown_integer (n : nat) (t : int_type) (v : Z) (i : IntegerRepresentation) : str :=
  match i with
  | kDecimal => fit n (number_text kDecimal v)
  | kHex | kOctal => if is_signed t then [] else fit n (number_text i v)
  | kBinary => if is_signed t || (n <=? 1)%nat then [] else fit n (binary_text (bits t) v)
  end.

Definition shown_string (n : nat) (data : str) : str := match data with [] => [] | _ => fit n data end.

(** What [Log] appends if [n] bytes are free; nothing is said of the cases in
    which the text of a raw buffer leaves the payload. *)
Definition shown (n : nat) (a : argument) : option str :=
  match a with
  | LogBool data => Some (shown_string n (if data then s! "True" else s! "False"))
  | LogInteger t data i => Some (shown_integer n t data i)
  | LogHex t value => Some (shown_integer n t value kHex)
  | LogBin t value => Some (shown_integer n t value kBinary)
  | LogFloat text => Some (fit n text)
  | LogString data => Some (shown_string n data)
  | LogRawBuffer data =>
      let len := (2 * length data)%nat in
      if (len =? 0)%nat then Some []
      else if (len <? n)%nat then Some (hex_text data ++ [" "%char])
      else if Nat.even n then Some (take n (hex_text data))
      else None
  end.

(** Lengths are below the limits of [int], which [std::snprintf] returns. *)
Definition argument_ok (a : argument) : bool :=
  match a with
  | LogInteger t _ _ | LogHex t _ | LogBin t _ => true
  | LogFloat s | LogString s | LogRawBuffer s => Z.of_nat (length s) <? 2 ^ 31 - 1
  | LogBool _ => true
  end.

(** ** Lemmas *)

Lemma fit_length n text : (length (fit n text) <= n)%nat.
Proof. destruct n; simpl; [lia|]. rewrite length_app, length_take. simpl. lia. Qed.

Lemma digits_text_length fuel base n acc :
  (length (digits_text fuel base n acc) <= fuel + length acc)%nat.
Proof.
  revert n acc. induction fuel as [|fuel IH]; intros n acc; simpl; [lia|].
  case_match; simpl; [lia|]. rewrite IH. simpl. lia.
Qed.

Lemma number_text_length i v : (length (number_text i v) <= 23)%nat.
Proof.
  assert (∀ base n, (length (digits_text 22 base n []) <= 22)%nat) as H.
  { intros base n. pose proof (digits_text_length 22 base n []) as Hl. cbn [length] in Hl. lia. }
  pose proof (H 8 v). pose proof (H 16 v). pose proof (H 10 v). pose proof (H 10 (- v)).
  unfold number_text. destruct i; try case_match; cbn [length]; lia.
Qed.

Lemma Put_append callback v reserve_size region used text :
  payload_ok v → 0 <= reserve_size → 0 <= used →
  let n := granted v reserve_size in
  callback (replicate n NUL) = Ret (region, used) → length region = n →
  (used <= Z.of_nat n ∨ n = free v) → take (Z.to_nat used) region = text →
  fst <$> Put callback reserve_size v = Ret (append v text).
Proof.
  intros Hok Hr Hu n Hcb Hl Hn Ht. pose proof (granted_le v reserve_size) as Hg. fold n in Hg.
  rewrite (Put_spec _ _ _ region used Hok Hr Hu Hcb Hl). fold n. simpl. unfold append. do 3 f_equal.
  rewrite (proj2 (Nat.sub_0_le _ _)) by lia. simpl. rewrite app_nil_r, <- Ht.
  destruct (decide (Z.to_nat used <= free v)%nat); [by rewrite Nat.min_l by lia|].
  rewrite !take_ge by lia. done.
Qed.

(** An update behind a prefix. *)
Lemma insert_after (l1 l2 : str) x y : <[length l1 := x]> (l1 ++ y :: l2) = l1 ++ x :: l2.
Proof. rewrite insert_app_r_alt by lia. by rewrite Nat.sub_diag. Qed.

Lemma format_number_spec text buffer :
  Z.of_nat (length text) < 2 ^ 31 - 1 → Z.of_nat (length buffer) < 2 ^ 32 →
  ∃ region used, format_number text buffer = Ret (region, used) ∧ length region = length buffer
    ∧ 0 <= used ∧ take (Z.to_nat used) region = fit (length buffer) text.
Proof.
  intros Ht Hb. unfold format_number. destruct (length buffer) as [|k] eqn:Hk; cbn [Nat.eqb negb].
  { exists buffer, 0. rewrite Hk. by repeat split. }
  set (w := text ++ [" "%char]). assert (length w = S (length text)) as Hw.
  { unfold w. rewrite length_app. simpl. lia. }
  set (m := Nat.min (length w) k).
  assert (snprintf buffer w = (take m w ++ NUL :: drop (S m) buffer, Z.of_nat (length w))) as ->.
  { unfold snprintf, m. destruct buffer; [done|]. simpl in Hk |- *.
    by replace (length buffer - 0)%nat with k by lia. }
  assert (length (take m w) = m) as Hm by (rewrite length_take; unfold m; lia).
  assert (length (take m w ++ NUL :: drop (S m) buffer) = S k) as Hl.
  { rewrite length_app. cbn [length]. rewrite length_drop, Hm. unfold m. lia. }
  cbv beta iota zeta. rewrite Hl. unfold FormattingFunctionReturnCast.
  rewrite (proj2 (Z.ltb_lt 0 (Z.of_nat (length w)))) by lia.
  rewrite (u64_id (Z.of_nat (length w))), (u64_id (Z.of_nat (S k) - 1)), u64_id by lia.
  replace (Z.min (Z.of_nat (length w)) (Z.of_nat (S k) - 1) + 1) with (Z.of_nat m + 1) by (unfold m; lia).
  rewrite (proj2 (Z.ltb_lt _ _)), (proj2 (Z.leb_le _ _)) by (unfold m; lia). cbn [andb].
  eexists _, _. split; [done|]. split; [by rewrite length_insert|]. split; [lia|].
  replace (Z.to_nat (Z.of_nat m + 1 - 1)) with (length (take m w)) by lia.
  rewrite insert_after, Nat2Z.id. cbn [fit]. unfold m in *.
  destruct (decide (length w <= k)%nat).
  - rewrite Nat.min_l, (take_ge w) by lia. rewrite take_app_length. unfold w.
    by rewrite (take_ge text) by lia.
  - rewrite Nat.min_r by lia. rewrite Nat.min_r in Hm by lia. rewrite take_app, Hm.
    rewrite (take_ge (take k w)) by lia.
    destruct (length w - k)%nat eqn:E; [lia|].
    assert (take k w = take k text) as -> by (unfold w; rewrite take_app_le by lia; done).
    simpl. by rewrite drop_ge, take_nil by lia.
Qed.

Lemma payload_ok_free v : payload_ok v → Z.of_nat (free v) < 2 ^ 31.
Proof. unfold payload_ok, free. rewrite max_int32. intros ?. assert (0 <= size v) by (unfold size; lia). lia. Qed.

Lemma PutFormattedText_spec text v :
  payload_ok v → Z.of_nat (length text) < 2 ^ 31 - 1 →
  PutFormattedText text v = Ret (append v (fit (free v) text)).
Proof.
  intros Hok Ht. pose proof (payload_ok_free v Hok) as Hf.
  destruct (format_number_spec text (replicate (free v) NUL)) as (region & used & E & Hl & Hu & Htk);
    [lia|rewrite length_replicate; lia|].
  rewrite length_replicate in Hl, Htk. eapply Put_append; eauto; lia || by right.
Qed.

Lemma write_bits_spec bits v m index fuel buffer done_ :
  length done_ = index → (index <= m)%nat → (m <= length buffer)%nat → (m - index < fuel)%nat →
  take index buffer = done_ →
  let bit i := if Z.testbit v (bits - 1 - Z.of_nat i) then "1"%char else "0"%char in
  write_bits bits v m index fuel buffer
  = Ret (done_ ++ (bit <$> seq index (m - index)) ++ drop m buffer, m).
Proof.
  revert index buffer done_. induction fuel as [|fuel IH]; intros index buffer done_ Hi Hm Hb Hfuel Hd bit; [lia|].
  cbn [write_bits]. destruct (Nat.ltb_spec index m).
  - rewrite (proj2 (Nat.ltb_lt _ _)) by lia.
    rewrite (IH _ _ (done_ ++ [bit index])); rewrite ?length_insert, ?length_app; simpl; try lia.
    + replace (m - index)%nat with (S (m - S index)) by lia. cbn [seq fmap list_fmap].
      rewrite <- (assoc_L (++)). cbn [app]. rewrite drop_insert_lt by lia. done.
    + erewrite take_S_r; [|apply list_lookup_insert_eq; lia]. by rewrite take_insert_ge, Hd by lia.
  - assert (index = m) as -> by lia. rewrite Nat.sub_diag. simpl. by rewrite <- Hd, take_drop.
Qed.

Lemma binary_text_take b v m : (m <= Z.to_nat b)%nat →
  (λ i, if Z.testbit v (b - 1 - Z.of_nat i) then "1"%char else "0"%char) <$> seq 0 m = take m (binary_text b v).
Proof. intros Hm. unfold binary_text. rewrite <- fmap_take, take_seq. by rewrite Nat.min_l by lia. Qed.

Lemma bits_small t : 8 <= bits t <= 64.
Proof. destruct t; done. Qed.

(** An update of the last character. *)
Lemma insert_last (l : str) n x : length l = S n → <[n := x]> l = take n l ++ [x].
Proof. intros Hl. rewrite insert_take_drop, (drop_ge l) by lia. done. Qed.

Lemma granted_pos v r : 0 < r → granted v r = Nat.min (Z.to_nat r) (free v).
Proof. intros Hr. unfold granted. by rewrite (proj2 (Z.eqb_neq _ _)) by lia. Qed.

Lemma PutBinaryFormattedNumber_spec t x v :
  payload_ok v → is_signed t = false →
  PutBinaryFormattedNumber t x v
  = Ret (append v (if (free v <=? 1)%nat then [] else fit (free v) (binary_text (bits t) x))).
Proof.
  intros Hok Ht. unfold PutBinaryFormattedNumber, kReserveSpaceForSpace. rewrite Ht.
  pose proof (bits_small t) as Hb. set (b := bits t) in *. set (bt := binary_text b x).
  assert (length bt = Z.to_nat b) as Hbt by (unfold bt, binary_text; by rewrite length_fmap, length_seq).
  pose proof (granted_pos v (b + 1) ltac:(lia)) as Hg. set (n := granted v (b + 1)) in *.
  destruct (Nat.leb_spec (free v) 1) as [Hf|Hf].
  { apply (Put_append _ _ _ (replicate n NUL) 0); rewrite ?length_replicate; try lia; try done.
    fold n. unfold format_binary. rewrite length_replicate. by rewrite (proj2 (Nat.ltb_ge _ _)) by lia. }
  assert (format_binary t x (replicate n NUL)
    = Ret (take (n - 1) bt ++ [" "%char], Z.of_nat (Nat.min (Z.to_nat b) n) + 1)) as E.
  { unfold format_binary. rewrite length_replicate. rewrite (proj2 (Nat.ltb_lt _ _)) by lia. fold b.
    set (m := Nat.min (Z.to_nat b) n). assert (m = Nat.min (Z.to_nat b) n) as Em by done.
    rewrite (write_bits_spec _ _ _ _ _ _ []); try done; try lia; [|rewrite length_replicate; lia].
    rewrite Nat.sub_0_r, binary_text_take by lia. fold bt. cbn [app mbind outcome_bind].
    rewrite (insert_last _ (n - 1))
      by (rewrite length_app, length_take, length_drop, length_replicate; lia).
    assert (take (n - 1) (take m bt ++ drop m (replicate n NUL)) = take (n - 1) bt) as ->; [|done].
    destruct (decide (n <= Z.to_nat b)%nat).
    - rewrite drop_ge, app_nil_r by (rewrite length_replicate; lia).
      rewrite take_take. f_equal. lia.
    - rewrite (take_ge bt m) by lia. rewrite take_app_le by lia. done. }
  refine (Put_append _ _ _ _ _ _ Hok _ _ E _ _ _); [lia|lia|..].
  - rewrite length_app, length_take. simpl. fold n. lia.
  - fold n. lia.
  - rewrite take_ge by (rewrite length_app, length_take; simpl; lia).
    destruct (free v) as [|f]; [lia|]. cbn [fit]. f_equal.
    destruct (decide (n <= Z.to_nat b)%nat); [f_equal; lia|]. by rewrite !take_ge by lia.
Qed.

Lemma Log_string_spec data v :
  payload_ok v → Z.of_nat (length data) < 2 ^ 31 - 1 →
  Log_string data v = Ret (append v (shown_string (free v) data)).
Proof.
  intros Hok Hd. unfold Log_string, shown_string, kReserveSpaceForSpace.
  destruct data as [|c data']; [cbn [length Nat.eqb negb]; unfold append; rewrite app_nil_r; by destruct v|].
  set (data := c :: data') in *. assert (length data ≠ 0)%nat as Hne by done. clearbody data.
  rewrite (proj2 (Nat.eqb_neq _ _)) by done. cbn [negb]. rewrite u64_id by lia.
  pose proof (granted_pos v (Z.of_nat (length data) + 1) ltac:(lia)) as Hg.
  set (n := granted v (Z.of_nat (length data) + 1)) in *.
  destruct (decide (n = 0)%nat) as [Hn|Hn].
  { replace (free v) with 0%nat by lia.
    apply (Put_append _ _ _ [] 0); fold n; rewrite ?Hn; try done; try lia.
    unfold PutLogStringViewData. cbn [replicate length]. by rewrite Nat.min_0_r. }
  assert (PutLogStringViewData data (replicate n NUL)
    = Ret (take (n - 1) data ++ [" "%char], Z.of_nat n)) as E.
  { unfold PutLogStringViewData. rewrite length_replicate. set (m := Nat.min (length data) n).
    assert (m = Nat.min (length data) n) as Em by done.
    rewrite (proj2 (Nat.ltb_lt _ _)) by lia.
    assert (length (take m data ++ drop m (replicate n NUL)) = S (n - 1)) as Hl.
    { rewrite length_app, length_take, length_drop, length_replicate. lia. }
    rewrite Hl. destruct (decide (n <= length data)%nat).
    - rewrite (proj2 (Nat.eqb_eq m (S (n - 1)))) by lia. cbn [negb].
      replace (m - 1)%nat with (n - 1)%nat by lia. rewrite (insert_last _ _ _ Hl).
      rewrite drop_ge, app_nil_r, take_take by (rewrite length_replicate; lia).
      rewrite (Nat.min_l (n - 1)) by lia. by replace m with n by lia.
    - rewrite (proj2 (Nat.eqb_neq m (S (n - 1)))) by lia. cbn [negb].
      replace m with (n - 1)%nat in Hl |- * by lia. rewrite (insert_last _ _ _ Hl).
      rewrite take_app_le, take_take, Nat.min_id by (rewrite length_take; lia).
      do 2 f_equal. lia. }
  refine (Put_append _ _ _ _ _ _ Hok _ _ E _ _ _); [lia|lia|..].
  - rewrite length_app, length_take. simpl. fold n. lia.
  - fold n. lia.
  - rewrite take_ge by (rewrite length_app, length_take; simpl; lia).
    destruct (free v) as [|f]; [lia|]. cbn [fit]. f_equal.
    destruct (decide (n <= length data)%nat); [f_equal; lia|]. by rewrite !take_ge by lia.
Qed.

Lemma hex_text_length data : length (hex_text data) = (2 * length data)%nat.
Proof. induction data as [|c data IH]; [done|]. cbn [hex_text mbind list_bind] in *. rewrite length_app. simpl in *. unfold hex_text in IH. lia. Qed.

Lemma write_hex_spec data it buffer :
  (it <= length buffer)%nat →
  write_hex data it buffer
  = if (it + 2 * length data <=? length buffer)%nat
    then Ret (take it buffer ++ hex_text data ++ drop (it + 2 * length data) buffer, (it + 2 * length data)%nat)
    else if Nat.even (length buffer - it)
    then Ret (take it buffer ++ take (length buffer - it) (hex_text data), length buffer)
    else Undefined.
Proof.
  revert it buffer. induction data as [|c data IH]; intros it buffer Hit.
  { cbn [write_hex length hex_text mbind list_bind]. rewrite Nat.mul_0_r, Nat.add_0_r.
    rewrite (proj2 (Nat.leb_le _ _)) by done. cbn [app]. by rewrite take_drop. }
  cbn [write_hex]. destruct (Nat.eqb_spec it (length buffer)) as [He|He]; cbn [negb].
  - rewrite IH by done. subst it. rewrite Nat.sub_diag. rewrite firstn_all.
    rewrite (proj2 (Nat.leb_gt (length buffer + 2 * length (c :: data)) _)) by (simpl; lia). cbn [Nat.even].
    rewrite !take_0, !app_nil_r. case_match eqn:E; [|done]. apply Nat.leb_le in E. destruct data; [|simpl in E; lia].
    cbn [length hex_text mbind list_bind app]. rewrite Nat.mul_0_r, Nat.add_0_r, drop_ge, app_nil_r by lia. done.
  - destruct (Nat.leb_spec (it + 2) (length buffer)) as [H2|H2].
    + set (b := take it buffer ++ hex_byte c ++ drop (it + 2) buffer).
      assert (length b = length buffer) as Hb.
      { unfold b. rewrite !length_app, length_take, length_drop. simpl. lia. }
      assert (take (it + 2) b = take it buffer ++ hex_byte c) as Htk.
      { unfold b. rewrite (assoc_L (++)), take_app_le by (rewrite length_app, length_take; simpl; lia).
        rewrite take_ge; [done|]. rewrite length_app, length_take. simpl. lia. }
      assert (∀ k, drop (it + 2 + k) b = drop (it + 2 + k) buffer) as Hdr.
      { intros k. unfold b. rewrite (assoc_L (++)), drop_app_ge by (rewrite length_app, length_take; simpl; lia).
        rewrite drop_drop. f_equal. rewrite length_app, length_take. simpl. lia. }
      rewrite IH by lia. rewrite Hb, Htk, Hdr.
      replace (it + 2 * length (c :: data))%nat with (it + 2 + 2 * length data)%nat by (simpl; lia).
      replace (length buffer - it)%nat with (S (S (length buffer - (it + 2)))) by lia.
      change (Nat.even (S (S ?n))) with (Nat.even n).
      repeat case_match; try done; do 2 f_equal; by rewrite <- (assoc_L (++)).
    + rewrite (proj2 (Nat.leb_gt _ _)) by (simpl; lia).
      by replace (length buffer - it)%nat with 1%nat by lia.
Qed.

(** The callback on a buffer of at most one byte more than the text. *)
Lemma PutLogRawBufferData_spec data n :
  (n <= S (2 * length data))%nat → (0 < length data)%nat →
  PutLogRawBufferData data (replicate n NUL)
  = if (n =? 0)%nat then Ret ([], 0)
    else if (2 * length data <? n)%nat then Ret (hex_text data ++ [" "%char], Z.of_nat (S (2 * length data)))
    else if Nat.even n then Ret (take n (hex_text data), Z.of_nat n) else Undefined.
Proof.
  intros Hn0 Hl. pose proof (hex_text_length data) as Hh.
  pose proof (write_hex_spec data 0 (replicate n NUL) ltac:(lia)) as Hw.
  set (len := (2 * length data)%nat) in *.
  rewrite length_replicate, Nat.sub_0_r in Hw. fold len in Hw. rewrite take_0 in Hw. cbn [app Nat.add] in Hw.
  unfold PutLogRawBufferData. rewrite length_replicate, Hw.
  destruct (Nat.eqb_spec n 0) as [->|Hn]; [done|].
  destruct (Nat.ltb_spec len n) as [Hln|Hln].
  - rewrite (proj2 (Nat.leb_le _ _)) by lia. cbn [mbind outcome_bind].
    replace n with (S len) by lia. rewrite drop_replicate, Nat.sub_succ_l, Nat.sub_diag by lia.
    cbn [replicate]. rewrite length_app. rewrite Hh. cbn [length].
    rewrite (proj2 (Nat.eqb_neq _ _)) by lia. cbn [negb].
    rewrite <- Hh at 1. rewrite insert_after. do 2 f_equal. lia.
  - destruct (Nat.leb_spec len n) as [Hle|Hle].
    + assert (n = len) as Hnl by lia. rewrite Hnl. rewrite drop_ge, app_nil_r by (rewrite length_replicate; lia).
      cbn [mbind outcome_bind]. rewrite Hh, Nat.eqb_refl. cbn [negb].
      assert (Nat.even len = true) as -> by (unfold len; by rewrite Nat.even_mul).
      by rewrite take_ge by lia.
    + destruct (Nat.even n); [|done]. cbn [mbind outcome_bind].
      rewrite length_take, Hh, Nat.min_l, Nat.eqb_refl by lia. done.
Qed.

Lemma Log_raw_spec data v :
  payload_ok v → Z.of_nat (length data) < 2 ^ 31 - 1 →
  Log_raw data v
  = match shown (free v) (LogRawBuffer data) with Some text => Ret (append v text) | None => Undefined end.
Proof.
  intros Hok Hd. unfold Log_raw, kReserveSpaceForSpace, shown. cbv zeta.
  pose proof (hex_text_length data) as Hh. set (len := (2 * length data)%nat) in *.
  rewrite (u64_id (2 * Z.of_nat (length data))) by lia.
  replace (2 * Z.of_nat (length data)) with (Z.of_nat len) by lia.
  destruct (Nat.eqb_spec len 0) as [Hl|Hl].
  { rewrite Hl. unfold append. simpl. rewrite app_nil_r. by destruct v. }
  rewrite (proj2 (Z.ltb_lt _ _)), u64_id by lia.
  pose proof (granted_pos v (Z.of_nat len + 1) ltac:(lia)) as Hg.
  set (n := granted v (Z.of_nat len + 1)) in *.
  pose proof (PutLogRawBufferData_spec data n ltac:(lia) ltac:(lia)) as E. fold len in E.
  revert E. destruct (Nat.eqb_spec n 0) as [Hn|Hn]; [|destruct (Nat.ltb_spec len n) as [Hln|Hln]]; intros E.
  { replace (free v) with 0%nat by lia.
    refine (Put_append _ _ _ _ _ _ Hok _ _ E _ _ _); fold n; rewrite ?Hn; done || lia. }
  { rewrite (proj2 (Nat.ltb_lt _ _)) by lia.
    refine (Put_append _ _ _ _ _ _ Hok _ _ E _ _ _); [lia|lia|..]; fold n.
    - rewrite length_app, Hh. simpl. lia.
    - lia.
    - rewrite take_ge; [done|]. rewrite length_app, Hh. simpl. lia. }
  rewrite (proj2 (Nat.ltb_ge _ _)) by lia. replace (free v) with n by lia.
  destruct (Nat.even n) eqn:Hev.
  - refine (Put_append _ _ _ _ _ _ Hok _ _ E _ _ _); [lia|lia|..]; fold n.
    + rewrite length_take. lia.
    + lia.
    + rewrite take_take. f_equal. lia.
  - by rewrite (Put_undefined _ _ (Z.of_nat len + 1) Hok ltac:(lia) E).
Qed.

#[local] Opaque digits_text.

Lemma LogData_spec t x i v :
  payload_ok v → LogData t x i v = Ret (append v (shown_integer (free v) t x i)).
Proof.
  intros Hok. assert (append v [] = v) as Hnil by (unfold append; rewrite app_nil_r; by destruct v).
  assert (∀ i, PutFormattedNumber i x v = Ret (append v (fit (free v) (number_text i x)))) as Hnum.
  { intros i'. apply PutFormattedText_spec; [done|]. pose proof (number_text_length i' x). lia. }
  unfold shown_integer. destruct i; cbn [LogData];
    unfold PutOctalFormattedNumber, PutHexFormattedNumber; rewrite ?Hnum;
    try (by destruct (is_signed t); rewrite ?Hnil); [].
  destruct (is_signed t) eqn:Et; cbn [orb]; [unfold PutBinaryFormattedNumber; by rewrite Et, Hnil|].
  by rewrite PutBinaryFormattedNumber_spec.
Qed.

Lemma shown_length n a text : shown n a = Some text → (length text <= n)%nat.
Proof.
  assert (∀ t x i, (length (shown_integer n t x i) <= n)%nat) as Hint.
  { intros t x i. unfold shown_integer. destruct i; try case_match; simpl; try apply fit_length; lia. }
  assert (∀ data, (length (shown_string n data) <= n)%nat) as Hstr.
  { intros [|c data]; simpl; [lia|apply fit_length]. }
  destruct a as [d|t x i|t x|t x|s|s|s]; cbn [shown]; intros H;
    try (apply (inj Some) in H; subst text; by auto using fit_length).
  pose proof (hex_text_length s). repeat case_match; simplify_eq; reflect_bool; simpl; [lia| |].
  - rewrite length_app. simpl. lia.
  - rewrite length_take. lia.
Qed.

Lemma Log_refines a v :
  payload_ok v → argument_ok a = true →
  Log a v = match shown (free v) a with Some text => Ret (append v text) | None => Undefined end.
Proof.
  intros Hok Ha. destruct a as [d|t x i|t x|t x|s|s|s]; cbn [Log shown argument_ok] in *; reflect_bool;
    eauto using LogData_spec, Log_string_spec, PutFormattedText_spec.
  - unfold Log_bool. apply Log_string_spec; [done|]. by destruct d.
  - by apply Log_raw_spec.
Qed.

Lemma TerminateLog_refines v :
  payload_ok v → TerminateLog v = Ret (append v (if (free v =? 0)%nat then [] else [newline])).
Proof.
  intros Hok. unfold TerminateLog, PutData, kReserveSpaceForSpace. cbn [Z.eqb].
  pose proof (granted_pos v 1 ltac:(lia)) as Hg. change (Z.to_nat 1) with 1%nat in Hg.
  set (n := granted v 1) in *.
  assert (take n [newline] = if (free v =? 0)%nat then [] else [newline]) as Et.
  { destruct (Nat.eqb_spec (free v) 0); [by replace n with 0%nat by lia|by replace n with 1%nat by lia]. }
  assert (∀ c, fst <$> Put c 1 v = Ret (append v (take n [newline])) →
    ('(b, _) ← Put c 1 v; Ret b) = Ret (append v (take n [newline]))) as Hfst.
  { intros c. by destruct (Put c 1 v) as [[]| |]. }
  rewrite <- Et. apply Hfst.
  refine (Put_append _ _ _ (take n [newline]) (Z.of_nat n) _ Hok _ _ _ _ _ _); fold n; try lia.
  - rewrite length_replicate. by rewrite (proj2 (Nat.leb_le _ _)) by (simpl; lia).
  - rewrite length_take. simpl. lia.
  - by rewrite Nat2Z.id, take_take, Nat.min_id.
Qed.

(** C32: An overload of [Log] appends exactly what the reference definition
    says: the text of the value and a space, cut to the free bytes of the
    payload with the space kept; it never stores beyond the capacity, except
    that a raw buffer that does not fit is written past the end when an odd
    number of bytes is free. *)
Theorem log_spec (a : argument) (v : ByteVector) :
  payload_ok v → argument_ok a = true →
  match shown (free v) a with
  | Some text => Log a v = Ret (append v text) ∧ (length text <= free v)%nat
  | None => Log a v = Undefined
  end.
Proof.
  intros Hok Ha. rewrite Log_refines by done. destruct (shown (free v) a) eqn:E; [|done].
  split; [done|]. by eapply shown_length.
Qed.

Lemma log_spec_witness :
  match shown 4 (LogString (s! "start")) with
  | Some text =>
      Log (LogString (s! "start")) {| content := s! "1 "; capacity_ := 6 |}
      = Ret (append {| content := s! "1 "; capacity_ := 6 |} text) ∧ (length text <= 4)%nat
  | None => False
  end.
Proof.
  exact (log_spec (LogString (s! "start")) {| content := s! "1 "; capacity_ := 6 |}
    ltac:(unfold payload_ok; vm_compute; split; discriminate) eq_refl).
Defined.

Definition is_raw (a : argument) : bool := match a with LogRawBuffer _ => true | _ => false end.

(** The texts of the values of a message with [n] free bytes; [None] if a raw
    buffer is written past the end. *)
Fixpoint texts (n : nat) (l : list argument) : option (list ascii) :=
  match l with
  | [] => Some []
  | a :: l => text ← shown n a; (text ++.) <$> texts (n - length text) l
  end.

Lemma free_append v text : free (append v text) = (free v - length text)%nat.
Proof. unfold free, size, capacity, append. cbn [content capacity_]. rewrite length_app. lia. Qed.

Lemma texts_no_raw l : ∀ n, existsb is_raw l = false → is_Some (texts n l).
Proof.
  induction l as [|a l IH]; intros n Hr; [by eexists|]. simpl in Hr. apply orb_false_iff in Hr as [Ha Hl].
  destruct (shown n a) as [text|] eqn:E; [|by destruct a]. simpl. rewrite E. cbn [mbind option_bind].
  destruct (IH (n - length text)%nat Hl) as [t ->]. by eexists.
Qed.

Lemma LogAll_refines l : ∀ v,
  payload_ok v → forallb argument_ok l = true →
  match texts (free v) l with
  | Some text => LogAll l v = Ret (append v text) ∧ (length text <= free v)%nat
  | None => LogAll l v = Undefined
  end.
Proof.
  induction l as [|a l IH]; intros v Hok Ha; cbn [LogAll texts].
  { unfold append. rewrite app_nil_r. destruct v. split; [done|simpl; lia]. }
  cbn [forallb] in Ha. apply andb_prop in Ha as [Ha Hal]. rewrite Log_refines by done.
  destruct (shown (free v) a) as [text|] eqn:E; [|done]. cbn [mbind option_bind outcome_bind].
  pose proof (shown_length _ _ _ E) as Hl. specialize (IH (append v text)). rewrite free_append in IH.
  destruct (texts (free v - length text) l) as [t|]; [|by apply IH; [apply payload_ok_app|]].
  destruct IH as [-> Ht]; [by apply payload_ok_app|done|]. cbn [fmap option_fmap option_map].
  split; [|rewrite length_app; lia]. unfold append. cbn [content capacity_]. by rewrite (assoc_L (++)).
Qed.

(** C40: A message, any number of values and the end of the message, keeps
    within the capacity of its payload and only appends: the payload is extended
    by the [texts] of the values and a newline while there is space for one,
    and the capacity never changes, so no memory is allocated.  The exception
    is a message with a raw buffer that is written past the end, as [shown]
    says, so that there are no [texts]: its behaviour is undefined.  Texts and
    buffers are shorter than [INT_MAX]. *)
Theorem log_message_bounds (l : list argument) (v : ByteVector) :
  payload_ok v → forallb argument_ok l = true →
  match texts (free v) l with
  | Some text =>
      ∃ e, (payload ← LogAll l v; TerminateLog payload) = Ret (append v (text ++ e))
      ∧ payload_ok (append v (text ++ e)) ∧ (e = [newline] ∨ e = [] ∧ length text = free v)
  | None => existsb is_raw l = true ∧ (payload ← LogAll l v; TerminateLog payload) = Undefined
  end.
Proof.
  intros Hok Ha. pose proof (LogAll_refines l v Hok Ha) as H.
  destruct (texts (free v) l) as [text|] eqn:E.
  - destruct H as [-> Hl]. cbn [mbind outcome_bind].
    rewrite TerminateLog_refines by (by apply payload_ok_app). rewrite free_append.
    exists (if (free v - length text =? 0)%nat then [] else [newline]).
    unfold append. cbn [content capacity_]. rewrite (assoc_L (++)). split; [done|].
    rewrite <- (assoc_L (++)).
    destruct (Nat.eqb_spec (free v - length text) 0) as [Hf|Hf]; (split; [|by auto with lia]);
      apply (payload_ok_app _ _ Hok); rewrite length_app; simpl; lia.
  - split; [|by rewrite H]. destruct (existsb is_raw l) eqn:Hr; [done|].
    destruct (texts_no_raw l (free v) Hr) as [? ?]. congruence.
Qed.

Lemma log_message_bounds_witness :
  (∃ e, (payload ← LogAll [LogInteger int8_t (-5) kDecimal; LogRawBuffer (s! "ab"); LogBin uint8_t 6]
           {| content := []; capacity_ := 16 |}; TerminateLog payload)
        = Ret (append {| content := []; capacity_ := 16 |} (s! "-5 6162 0000011 " ++ e))
    ∧ payload_ok (append {| content := []; capacity_ := 16 |} (s! "-5 6162 0000011 " ++ e))
    ∧ (e = [newline] ∨ e = [] ∧ 16%nat = 16%nat))
  ∧ (payload ← LogAll [LogInteger int8_t (-5) kDecimal; LogRawBuffer (s! "abc")]
       {| content := []; capacity_ := 8 |}; TerminateLog payload) = Undefined.
Proof.
  split.
  - exact (log_message_bounds [LogInteger int8_t (-5) kDecimal; LogRawBuffer (s! "ab"); LogBin uint8_t 6]
      {| content := []; capacity_ := 16 |} ltac:(unfold payload_ok; vm_compute; split; discriminate) eq_refl).
  - exact (proj2 (log_message_bounds [LogInteger int8_t (-5) kDecimal; LogRawBuffer (s! "abc")]
      {| content := []; capacity_ := 8 |} ltac:(unfold payload_ok; vm_compute; split; discriminate) eq_refl)).
Defined.

Example log_message_example :
  (payload ← LogAll [LogInteger int8_t (-5) kDecimal; LogBin uint8_t 6; LogHex uint16_t 4779; LogBool true]
     {| content := []; capacity_ := 32 |}; TerminateLog payload)
  = Ret {| content := s! "-5 00000110 12ab True " ++ [newline]; capacity_ := 32 |}.
Proof. vm_compute. reflexivity. Qed.

End LogFormat.
