(* ===== verification/SlotHandle.v ===== *)
(** * Slot handles: mw/log/slot_handle.cpp

    A [SlotHandle] names a slot for each of up to four recorders; one of them is
    selected.  An array has four elements whatever the calls, and the slot of a
    recorder is that of the last call of [SetSlot] for it. *)

From S2P Require Import Prelude CppInt CppString.

Local Open Scope Z_scope.

Module SlotHandle.

Definition kMaxRecorders : Z := 4.

Record SlotHandle := {
  recorder_to_slot_ : list Z;
  recorder_slot_available_ : list bool;
  selected_recorder_ : Z;
}.

(** [SlotHandle() = default]. *)
Definition default_ : SlotHandle :=
  {| recorder_to_slot_ := replicate 4 0; recorder_slot_available_ := replicate 4 false;
     selected_recorder_ := 0 |}.

Definition IsRecorderValid (recorder : Z) : bool := recorder <? kMaxRecorders.

(** An access to an array. *)
Definition access {A} (l : list A) (i : Z) : outcome A :=
  match l !! Z.to_nat i with Some x => Ret x | None => Undefined end.

Definition GetSlotOfSelectedRecorder (h : SlotHandle) : outcome Z :=
  access (recorder_to_slot_ h) (selected_recorder_ h).

Definition GetSlot (recorder : Z) (h : SlotHandle) : outcome Z :=
  if negb (IsRecorderValid recorder) then Ret 0 else access (recorder_to_slot_ h) recorder.

Definition SetSlot (slot recorder : Z) (h : SlotHandle) : SlotHandle :=
  if negb (IsRecorderValid recorder) then h
  else {| recorder_to_slot_ := <[Z.to_nat recorder := slot]> (recorder_to_slot_ h);
          recorder_slot_available_ := <[Z.to_nat recorder := true]> (recorder_slot_available_ h);
          selected_recorder_ := selected_recorder_ h |}.

(** [SlotHandle(slot)]. *)
Definition make (slot : Z) : SlotHandle := SetSlot slot 0 default_.

Definition GetSelectedRecorder (h : SlotHandle) : Z := selected_recorder_ h.

Definition SetSelectedRecorder (recorder : Z) (h : SlotHandle) : SlotHandle :=
  if negb (IsRecorderValid recorder) then h
  else {| recorder_to_slot_ := recorder_to_slot_ h;
          recorder_slot_available_ := recorder_slot_available_ h; selected_recorder_ := recorder |}.

Definition IsRecorderActive (recorder : Z) (h : SlotHandle) : outcome bool :=
  if negb (IsRecorderValid recorder) then Ret false else access (recorder_slot_available_ h) recorder.

Definition operator_eq (l r : SlotHandle) : bool :=
  (selected_recorder_ l =? selected_recorder_ r)
  && bool_decide (recorder_to_slot_ l = recorder_to_slot_ r).

(** ** Invariant *)

Record handle_ok (h : SlotHandle) : Prop := {
  ok_slots : length (recorder_to_slot_ h) = 4%nat;
  ok_available : length (recorder_slot_available_ h) = 4%nat;
  ok_selected : 0 <= selected_recorder_ h < kMaxRecorders;
}.

Lemma default_ok : handle_ok default_.
Proof. by split. Qed.

Lemma SetSlot_ok slot r h : handle_ok h → handle_ok (SetSlot slot r h).
Proof. intros []. unfold SetSlot. case_match; [done|]. split; simpl; rewrite ?length_insert; done. Qed.

Lemma SetSelectedRecorder_ok r h : 0 <= r → handle_ok h → handle_ok (SetSelectedRecorder r h).
Proof.
  intros Hr []. unfold SetSelectedRecorder, IsRecorderValid. destruct (Z.ltb_spec r kMaxRecorders); [|done].
  by split.
Qed.

(** The operations that change a handle. *)
Inductive operation := OpSetSlot (slot recorder : Z) | OpSelect (recorder : Z).

Definition apply (o : operation) (h : SlotHandle) : SlotHandle :=
  match o with
  | OpSetSlot slot recorder => SetSlot slot recorder h
  | OpSelect recorder => SetSelectedRecorder recorder h
  end.

Definition operation_ok (o : operation) : bool :=
  match o with OpSetSlot _ r | OpSelect r => 0 <=? r end.

Lemma run_ok os h : forallb operation_ok os = true → handle_ok h → handle_ok (foldl (flip apply) h os).
Proof.
  revert h. induction os as [|o os IH]; intros h Hos Hh; [done|]. cbn [forallb] in Hos.
  apply andb_prop in Hos as [Ho Hos]. cbn [foldl]. apply IH; [done|].
  destruct o; simpl in *; reflect_bool; [by apply SetSlot_ok|by apply SetSelectedRecorder_ok].
Qed.

(** The slot a list of operations leaves for a recorder: that of the last call
    of [SetSlot], if there is one. *)
Fixpoint last_slot (recorder : Z) (os : list operation) (acc : option Z) : option Z :=
  match os with
  | [] => acc
  | OpSetSlot slot r :: os => last_slot recorder os (if r =? recorder then Some slot else acc)
  | OpSelect _ :: os => last_slot recorder os acc
  end.

Lemma access_lt {A} (l : list A) i x : l !! Z.to_nat i = Some x → access l i = Ret x.
Proof. unfold access. by intros ->. Qed.

Lemma GetSlot_SetSlot slot r r' h :
  handle_ok h → 0 <= r → 0 <= r' < kMaxRecorders →
  GetSlot r' (SetSlot slot r h) = (if r =? r' then Ret slot else GetSlot r' h)
  ∧ IsRecorderActive r' (SetSlot slot r h) = (if r =? r' then Ret true else IsRecorderActive r' h).
Proof.
  intros [] Hr Hr'. unfold kMaxRecorders in *. unfold GetSlot, IsRecorderActive, SetSlot, IsRecorderValid.
  rewrite (proj2 (Z.ltb_lt r' _)) by (unfold kMaxRecorders; lia). cbn [negb].
  destruct (Z.ltb_spec r kMaxRecorders) as [Hlt|Hge]; unfold kMaxRecorders in *; cbn [negb].
  - cbn [recorder_to_slot_ recorder_slot_available_]. unfold access.
    destruct (Z.eqb_spec r r') as [->|Hne]; [rewrite !list_lookup_insert_eq by lia; done|].
    rewrite !list_lookup_insert_ne by lia. done.
  - by rewrite (proj2 (Z.eqb_neq _ _)) by lia.
Qed.

Lemma run_last_slot recorder os h acc :
  handle_ok h → forallb operation_ok os = true → 0 <= recorder < kMaxRecorders →
  GetSlot recorder h = Ret (default 0 acc) →
  IsRecorderActive recorder h = Ret (bool_decide (is_Some acc)) →
  let h' := foldl (flip apply) h os in
  GetSlot recorder h' = Ret (default 0 (last_slot recorder os acc))
  ∧ IsRecorderActive recorder h' = Ret (bool_decide (is_Some (last_slot recorder os acc))).
Proof.
  revert h acc. induction os as [|o os IH]; intros h acc Hh Hos Hr Hs Ha; [done|].
  cbn [forallb] in Hos. apply andb_prop in Hos as [Ho Hos]. cbn [foldl flip apply].
  destruct o as [slot r|r]; cbn [operation_ok] in Ho; apply Z.leb_le in Ho; cbn [last_slot flip apply].
  - destruct (GetSlot_SetSlot slot r recorder h Hh Ho Hr) as [Hs' Ha'].
    apply IH; [by apply SetSlot_ok|done|done| |].
    + rewrite Hs'. by case_match.
    + rewrite Ha'. by case_match.
  - apply IH; [by apply SetSelectedRecorder_ok|done|done| |].
    + unfold SetSelectedRecorder. by destruct (negb _).
    + unfold SetSelectedRecorder. by destruct (negb _).
Qed.

(** ** Properties *)

(** A handle is well-formed whatever the calls, those with an identifier
    of no recorder included: its arrays have an element for each recorder and
    the selected one exists, so no access is out of bounds.  A recorder is
    active exactly if a slot was set for it, and its slot is the last one; the
    selected recorder decides what [GetSlotOfSelectedRecorder] returns. *)
Theorem slot_handle_invariant (os : list operation) (recorder : Z) :
  forallb operation_ok os = true → 0 <= recorder < kMaxRecorders →
  let h := foldl (flip apply) default_ os in
  handle_ok h
  ∧ GetSlot recorder h = Ret (default 0 (last_slot recorder os None))
  ∧ IsRecorderActive recorder h = Ret (bool_decide (is_Some (last_slot recorder os None)))
  ∧ GetSlotOfSelectedRecorder h = Ret (default 0 (last_slot (GetSelectedRecorder h) os None)).
Proof.
  intros Hos Hr h. pose proof (run_ok os default_ Hos default_ok) as Hok. fold h in Hok.
  assert (∀ r, 0 <= r < kMaxRecorders → GetSlot r default_ = Ret 0 ∧ IsRecorderActive r default_ = Ret false) as H0.
  { intros r Hr'. unfold kMaxRecorders in Hr'. assert (r = 0 ∨ r = 1 ∨ r = 2 ∨ r = 3) as Hc by lia.
    by destruct Hc as [->|[->|[->| ->]]]. }
  split; [done|]. destruct (H0 recorder Hr) as [Hs Ha].
  destruct (run_last_slot recorder os default_ None default_ok Hos Hr Hs Ha) as [E1 E2].
  split; [exact E1|]. split; [exact E2|]. pose proof (ok_selected _ Hok) as Hsel.
  destruct (H0 _ Hsel) as [Hs' Ha'].
  destruct (run_last_slot (selected_recorder_ h) os default_ None default_ok Hos Hsel Hs' Ha') as [E3 _].
  fold h in E3. unfold GetSlot, IsRecorderValid in E3. by rewrite (proj2 (Z.ltb_lt _ _)) in E3 by lia.
Qed.

Lemma slot_handle_invariant_witness :
  let h := foldl (flip apply) default_ [OpSetSlot 7 2; OpSetSlot 9 4; OpSelect 2; OpSelect 200; OpSetSlot 8 2] in
  GetSlot 2 h = Ret 8 ∧ IsRecorderActive 2 h = Ret true ∧ GetSlotOfSelectedRecorder h = Ret 8.
Proof.
  apply (slot_handle_invariant [OpSetSlot 7 2; OpSetSlot 9 4; OpSelect 2; OpSelect 200; OpSetSlot 8 2] 2);
    [reflexivity|unfold kMaxRecorders; lia].
Defined.

End SlotHandle.
