(* ===== verification/LogRecord.v ===== *)
(** * Records of the log: mw/log/detail/log_record.cpp and its parts

    [LogLevel] (log_level.cpp), [LoggingIdentifier] (logging_identifier.cpp),
    [LogEntry] (log_entry.h), [LogRecord] (log_record.cpp), and the functions
    that add an argument to a record: [DltArgumentCounter] and the [GenericLog]
    of text_recorder.cpp.

    The [VerbosePayload] of a record is a reference to a buffer.  The model has
    the address of the record whose buffer it is, because copying a record must
    set it anew. *)

From S2P Require Import Prelude CppInt CppString LogPayload LogFormat.
Import LogPayload LogFormat.

Local Open Scope Z_scope.

Module LogRecord.

(** ** Log levels *)

(** An enumeration over [std::uint8_t], which also has values without a name. *)
Abbreviation LogLevel := Z (only parsing).
Definition kOff : LogLevel := 0.
Definition kFatal : LogLevel := 1.
Definition kError : LogLevel := 2.
Definition kWarn : LogLevel := 3.
Definition kInfo : LogLevel := 4.
Definition kDebug : LogLevel := 5.
Definition kVerbose : LogLevel := 6.

Definition GetMaxLogLevelValue : LogLevel :=
  foldr Z.max kVerbose [kInfo; kWarn; kError; kFatal; kDebug; kOff].

Definition GetLogLevelFromU8 (candidate : Z) : LogLevel :=
  if candidate <=? GetMaxLogLevelValue then candidate else kOff.

Definition TryGetLogLevelFromU8 (candidate : Z) : option LogLevel :=
  if candidate <=? GetMaxLogLevelValue then Some candidate else None.

(** ** Identifiers *)

Definition kMaxLength : nat := 4.

(** The array of four characters. *)
Record LoggingIdentifier := { data : str }.

Definition make_identifier (identifier : str) : LoggingIdentifier :=
  let filled := replicate kMaxLength NUL in
  let n := Nat.min (length identifier) kMaxLength in
  {| data := take n identifier ++ drop n filled |}.

Fixpoint strnlen (s : str) (n : nat) : nat :=
  match s, n with
  | c :: s, S n => if decide (c = NUL) then O else S (strnlen s n)
  | _, _ => O
  end.

Definition GetStringView (i : LoggingIdentifier) : str := take (strnlen (data i) kMaxLength) (data i).

Definition identifier_eq (l r : LoggingIdentifier) : bool := bool_decide (data l = data r).

(** ** Entries and records *)

Record LogEntry := {
  app_id : LoggingIdentifier;
  ctx_id : LoggingIdentifier;
  payload : ByteVector;
  timestamp_steady_nsec : Z;
  timestamp_system_nsec : Z;
  num_of_args : Z;
  header_buffer : ByteVector;
  log_level : LogLevel;
}.

Definition empty_vector : ByteVector := {| content := []; capacity_ := 0 |}.

Definition default_entry : LogEntry :=
  {| app_id := make_identifier []; ctx_id := make_identifier []; payload := empty_vector;
     timestamp_steady_nsec := 0; timestamp_system_nsec := 0; num_of_args := 0;
     header_buffer := empty_vector; log_level := kOff |}.

Definition set_payload (v : ByteVector) (e : LogEntry) : LogEntry :=
  {| app_id := app_id e; ctx_id := ctx_id e; payload := v;
     timestamp_steady_nsec := timestamp_steady_nsec e; timestamp_system_nsec := timestamp_system_nsec e;
     num_of_args := num_of_args e; header_buffer := header_buffer e; log_level := log_level e |}.

Definition set_num_of_args (n : Z) (e : LogEntry) : LogEntry :=
  {| app_id := app_id e; ctx_id := ctx_id e; payload := payload e;
     timestamp_steady_nsec := timestamp_steady_nsec e; timestamp_system_nsec := timestamp_system_nsec e;
     num_of_args := n; header_buffer := header_buffer e; log_level := log_level e |}.

(** [verbose_payload_] refers to the payload of the record at an address. *)
Record LogRecord := { log_entry_ : LogEntry; verbose_payload_ : positive }.

Definition make_record (this : positive) (max_payload_size_bytes : Z) : LogRecord :=
  {| log_entry_ := set_payload (make_VerbosePayload max_payload_size_bytes (payload default_entry)) default_entry;
     verbose_payload_ := this |}.

(** [std::vector]: a copy has no spare capacity, an assignment keeps the
    capacity of the target if it is large enough, a move takes the memory of
    its source, and [shrink_to_fit] gives spare capacity back. *)
Definition vector_copy (src : ByteVector) : ByteVector := {| content := content src; capacity_ := size src |}.
Definition vector_assign (dst src : ByteVector) : ByteVector :=
  {| content := content src; capacity_ := Z.max (capacity_ dst) (size src) |}.
Definition shrink_to_fit (v : ByteVector) : ByteVector := vector_copy v.

Definition entry_copy (src : LogEntry) : LogEntry :=
  {| app_id := app_id src; ctx_id := ctx_id src; payload := vector_copy (payload src);
     timestamp_steady_nsec := timestamp_steady_nsec src; timestamp_system_nsec := timestamp_system_nsec src;
     num_of_args := num_of_args src; header_buffer := vector_copy (header_buffer src);
     log_level := log_level src |}.
Definition entry_assign (dst src : LogEntry) : LogEntry :=
  {| app_id := app_id src; ctx_id := ctx_id src; payload := vector_assign (payload dst) (payload src);
     timestamp_steady_nsec := timestamp_steady_nsec src; timestamp_system_nsec := timestamp_system_nsec src;
     num_of_args := num_of_args src; header_buffer := vector_assign (header_buffer dst) (header_buffer src);
     log_level := log_level src |}.

(** What moving from an entry leaves behind. *)
Definition entry_moved_from (src : LogEntry) : LogEntry :=
  {| app_id := app_id src; ctx_id := ctx_id src; payload := empty_vector;
     timestamp_steady_nsec := timestamp_steady_nsec src; timestamp_system_nsec := timestamp_system_nsec src;
     num_of_args := num_of_args src; header_buffer := empty_vector; log_level := log_level src |}.

Definition SetupBuffer (this : positive) (dst : LogRecord) (capacity : Z) : LogRecord :=
  {| log_entry_ := set_payload (reserve capacity (shrink_to_fit (payload (log_entry_ dst)))) (log_entry_ dst);
     verbose_payload_ := this |}.

Definition MoveConstruct (this : positive) (dst src : LogRecord) : LogRecord * LogRecord :=
  let capacity := capacity (payload (log_entry_ src)) in
  let dst := {| log_entry_ := log_entry_ dst; verbose_payload_ := verbose_payload_ src |} in
  let dst := {| log_entry_ := log_entry_ src; verbose_payload_ := verbose_payload_ dst |} in
  let src := {| log_entry_ := entry_moved_from (log_entry_ src); verbose_payload_ := verbose_payload_ src |} in
  (SetupBuffer this dst capacity, src).

Definition CopyConstruct (this : positive) (dst src : LogRecord) : LogRecord :=
  let dst := {| log_entry_ := log_entry_ dst; verbose_payload_ := verbose_payload_ src |} in
  let dst := {| log_entry_ := entry_assign (log_entry_ dst) (log_entry_ src);
                verbose_payload_ := verbose_payload_ dst |} in
  SetupBuffer this dst (capacity (payload (log_entry_ src))).

Definition copy_construct (this : positive) (other : LogRecord) : LogRecord :=
  CopyConstruct this {| log_entry_ := entry_copy (log_entry_ other);
                        verbose_payload_ := verbose_payload_ other |} other.
Definition move_construct (this : positive) (other : LogRecord) : LogRecord * LogRecord :=
  MoveConstruct this {| log_entry_ := default_entry; verbose_payload_ := verbose_payload_ other |} other.

(** The assignments to another record. *)
Definition copy_assign (this : positive) (dst other : LogRecord) : LogRecord := CopyConstruct this dst other.
Definition move_assign (this : positive) (dst other : LogRecord) : LogRecord * LogRecord :=
  MoveConstruct this dst other.

(** ** Arguments *)

Inductive AddArgumentResult := kNotAdded | kAdded.

Definition TryAddArgument {S : Type} (callback : S → outcome (S * AddArgumentResult)) (counter : Z) (s : S) :
    outcome (S * Z * AddArgumentResult) :=
  let kMaxCounter := max uint8_t in
  if counter =? kMaxCounter then Ret (s, counter, kNotAdded)
  else
    '(s, result) ← callback s;
    match result with
    | kAdded => Ret (s, static_cast uint8_t (counter + 1), result)
    | kNotAdded => Ret (s, counter, result)
    end.

(** [GenericLog] on the record of the slot. *)
Definition GenericLog (data : argument) (e : LogEntry) : outcome LogEntry :=
  '(v, n, _) ← TryAddArgument (λ v,
      if 0 <? RemainingCapacity v then v ← Log data v; Ret (v, kAdded)
      else Ret (v, kNotAdded)) (num_of_args e) (payload e);
  Ret (set_num_of_args n (set_payload v e)).

(** ** Lemmas *)

Lemma identifier_length s : length (data (make_identifier s)) = 4%nat.
Proof.
  simpl. rewrite length_app, length_take, length_drop. simpl. unfold kMaxLength. lia.
Qed.

Lemma strnlen_app s t n :
  NUL ∉ s → (length s <= n)%nat → strnlen (s ++ t) n = (length s + strnlen t (n - length s))%nat.
Proof.
  revert n. induction s as [|c s IH]; intros n Hs Hn; simpl in *; [by rewrite Nat.sub_0_r|].
  destruct n as [|n]; [lia|]. apply not_elem_of_cons in Hs as [Hc Hs].
  rewrite decide_False by done. simpl. rewrite IH by (done || lia). done.
Qed.

Lemma identifier_view s : NUL ∉ s → GetStringView (make_identifier s) = take 4 s.
Proof.
  intros Hs. unfold GetStringView, make_identifier, kMaxLength. cbn [data].
  set (n := Nat.min (length s) 4). assert (NUL ∉ take n s) as Hn.
  { intros H. apply Hs. by eapply elem_of_take in H as (i & ? & ?); apply list_elem_of_lookup_2 in H. }
  assert (length (take n s) = n) as Hl by (rewrite length_take; lia).
  rewrite strnlen_app by (done || rewrite Hl; lia). rewrite Hl.
  assert (∀ k m, strnlen (drop k (replicate 4 NUL)) m = 0%nat) as ->.
  { intros k m. do 5 (destruct k; [by destruct m|]). by destruct m. }
  rewrite Nat.add_0_r, <- Hl at 1. rewrite take_app_length. unfold n.
  destruct (decide (length s <= 4)%nat); [by rewrite !take_ge by lia|by rewrite Nat.min_r by lia].
Qed.

(** Every way of transferring a record gives a record that refers to its own
    payload, with contents, counters and capacity of the source. *)
Lemma transfer_spec this that dst src :
  verbose_payload_ src = that → payload_ok (payload (log_entry_ src)) →
  let same r := verbose_payload_ r = this ∧ payload (log_entry_ r) = payload (log_entry_ src)
    ∧ num_of_args (log_entry_ r) = num_of_args (log_entry_ src)
    ∧ log_level (log_entry_ r) = log_level (log_entry_ src) in
  same (copy_construct this src) ∧ same (copy_assign this dst src)
  ∧ same (fst (move_construct this src)) ∧ same (fst (move_assign this dst src)).
Proof.
  intros Hsrc [Hs _]. destruct src as [e p]. simpl in *. destruct (payload e) as [c k] eqn:Ep.
  unfold capacity, size in Hs. simpl in Hs.
  unfold copy_construct, copy_assign, move_construct, move_assign, CopyConstruct, MoveConstruct, SetupBuffer, reserve,
    shrink_to_fit, vector_copy, vector_assign, capacity, size. simpl. rewrite ?Ep. simpl.
  rewrite Z.max_r by lia. done.
Qed.

Lemma RemainingCapacity_free v : payload_ok v → RemainingCapacity v = Z.of_nat (free v).
Proof.
  intros [Hs Hc]. rewrite max_int32 in Hc. unfold RemainingCapacity, free.
  assert (0 <= size v) by (unfold size; lia). rewrite u64_id by lia. lia.
Qed.

(** What [GenericLog] does: nothing if the counter or the payload is full, and
    otherwise it appends the text and counts the argument. *)
Definition generic_text (e : LogEntry) (a : argument) : option str :=
  if (num_of_args e =? 255) || (free (payload e) =? 0)%nat then Some [] else shown (free (payload e)) a.

Lemma GenericLog_spec a e :
  payload_ok (payload e) → argument_ok a = true → 0 <= num_of_args e <= 255 →
  GenericLog a e
  = match generic_text e a with
    | Some text =>
        Ret (set_num_of_args
          (if (num_of_args e =? 255) || (free (payload e) =? 0)%nat then num_of_args e else num_of_args e + 1)
          (set_payload (append (payload e) text) e))
    | None => Undefined
    end.
Proof.
  intros Hok Ha Hn. unfold GenericLog, TryAddArgument, generic_text. change (max uint8_t) with 255.
  assert (append (payload e) [] = payload e) as Hnil.
  { unfold append. rewrite app_nil_r. by destruct (payload e). }
  destruct (Z.eqb_spec (num_of_args e) 255) as [E|E]; cbn [orb].
  { cbn [mbind outcome_bind]. by rewrite Hnil. }
  rewrite RemainingCapacity_free by done.
  destruct (Nat.eqb_spec (free (payload e)) 0) as [E0|E0].
  { rewrite E0. cbn [Z.of_nat Z.ltb Z.compare mbind outcome_bind]. by rewrite Hnil. }
  rewrite (proj2 (Z.ltb_lt _ _)) by lia. rewrite Log_refines by done.
  destruct (shown (free (payload e)) a); [|done]. cbn [mbind outcome_bind].
  do 2 f_equal. rewrite static_cast_id; [done|]. unfold in_range. change (max uint8_t) with 255.
  cbv [lowest is_signed bits]. lia.
Qed.

End LogRecord.
