(* ===== verification/LogConfiguration.v ===== *)
(** * The configuration of the logging library: mw/log/configuration

    [Configuration] with its setters and [IsLogLevelEnabled]
    (configuration.cpp), [ConfigurationFileDiscoverer] and
    [TargetConfigReader], which reads the files it finds one after the other.
    Files are parsed by the model of score::json, and the modes of the log are
    split by that of [LazySplitStringView].

    The operating system is a parameter: which files exist, their contents, the
    environment and the path of the executable.  What
    [ReportInitializationError] prints is the list of reports. *)

From S2P Require Import Prelude CppInt CppString JsonModel JsonParser JsonTree JsonFinite SplitStringView LogPayload LogFormat LogRecord.
Import JsonModel LogRecord.

Local Open Scope Z_scope.

Module LogConfiguration.

Inductive LogMode := kRemote | kFile | kConsole | kSystem | kCustom | kInvalid.

#[export] Instance LogMode_eq_dec : EqDecision LogMode.
Proof. solve_decision. Defined.

(** [std::unordered_map] with identifiers as keys: each key occurs once. *)
Abbreviation ContextLogLevelMap := (list (str * LogLevel)) (only parsing).

Fixpoint context_find (key : str) (m : ContextLogLevelMap) : option LogLevel :=
  match m with
  | [] => None
  | (k, v) :: m => if decide (k = key) then Some v else context_find key m
  end.

(** [map\[key\] = value]. *)
Fixpoint context_assign (key : str) (value : LogLevel) (m : ContextLogLevelMap) : ContextLogLevelMap :=
  match m with
  | [] => [(key, value)]
  | (k, v) :: m => if decide (k = key) then (k, value) :: m else (k, v) :: context_assign key value m
  end.

Record Configuration := {
  ecu_id_ : LoggingIdentifier;
  app_id_ : LoggingIdentifier;
  app_description_ : str;
  log_mode_ : list LogMode;
  log_file_path_ : str;
  default_log_level_ : LogLevel;
  default_console_log_level_ : LogLevel;
  context_log_level_ : ContextLogLevelMap;
  stack_buffer_size_ : Z;
  ring_buffer_size_ : Z;
  ring_buffer_overwrite_on_full_ : bool;
  number_of_slots_ : Z;
  slot_size_bytes_ : Z;
  data_router_uid_ : Z;
  dynamic_datarouter_identifiers_ : bool;
}.

Definition default_configuration : Configuration := {|
  ecu_id_ := make_identifier (s! "ECU1");
  app_id_ := make_identifier (s! "NONE");
  app_description_ := [];
  log_mode_ := [kRemote];
  log_file_path_ := s! "/tmp";
  default_log_level_ := kWarn;
  default_console_log_level_ := kWarn;
  context_log_level_ := [];
  stack_buffer_size_ := 65536;
  ring_buffer_size_ := 2097152;
  ring_buffer_overwrite_on_full_ := true;
  number_of_slots_ := 8;
  slot_size_bytes_ := 2048;
  data_router_uid_ := 1038;
  dynamic_datarouter_identifiers_ := false;
|}.

(** ** Getters and setters *)

Definition GetEcuId (c : Configuration) : str := GetStringView (ecu_id_ c).
Definition GetAppId (c : Configuration) : str := GetStringView (app_id_ c).
Definition GetContextLogLevel (c : Configuration) : ContextLogLevelMap := context_log_level_ c.
Definition GetNumberOfSlots (c : Configuration) : Z := number_of_slots_ c.
Definition GetSlotSizeInBytes (c : Configuration) : Z := slot_size_bytes_ c.

Definition SetEcuId (v : str) (c : Configuration) : Configuration :=
  let '(Build_Configuration _ b d e f g h i j k l m n o p) := c in
  Build_Configuration (make_identifier v) b d e f g h i j k l m n o p.
Definition SetAppId (v : str) (c : Configuration) : Configuration :=
  let '(Build_Configuration a _ d e f g h i j k l m n o p) := c in
  Build_Configuration a (make_identifier v) d e f g h i j k l m n o p.
Definition SetAppDescription (v : str) (c : Configuration) : Configuration :=
  let '(Build_Configuration a b _ e f g h i j k l m n o p) := c in
  Build_Configuration a b v e f g h i j k l m n o p.
Definition SetLogMode (v : list LogMode) (c : Configuration) : Configuration :=
  let '(Build_Configuration a b d _ f g h i j k l m n o p) := c in
  Build_Configuration a b d v f g h i j k l m n o p.
Definition SetLogFilePath (v : str) (c : Configuration) : Configuration :=
  let '(Build_Configuration a b d e _ g h i j k l m n o p) := c in
  Build_Configuration a b d e v g h i j k l m n o p.
Definition SetDefaultLogLevel (v : LogLevel) (c : Configuration) : Configuration :=
  let '(Build_Configuration a b d e f _ h i j k l m n o p) := c in
  Build_Configuration a b d e f v h i j k l m n o p.
Definition SetDefaultConsoleLogLevel (v : LogLevel) (c : Configuration) : Configuration :=
  let '(Build_Configuration a b d e f g _ i j k l m n o p) := c in
  Build_Configuration a b d e f g v i j k l m n o p.
Definition SetContextLogLevel (v : ContextLogLevelMap) (c : Configuration) : Configuration :=
  let '(Build_Configuration a b d e f g h _ j k l m n o p) := c in
  Build_Configuration a b d e f g h v j k l m n o p.
Definition SetStackBufferSize (v : Z) (c : Configuration) : Configuration :=
  let '(Build_Configuration a b d e f g h i _ k l m n o p) := c in
  Build_Configuration a b d e f g h i v k l m n o p.
Definition SetRingBufferSize (v : Z) (c : Configuration) : Configuration :=
  let '(Build_Configuration a b d e f g h i j _ l m n o p) := c in
  Build_Configuration a b d e f g h i j v l m n o p.
Definition SetRingBufferOverwriteOnFull (v : bool) (c : Configuration) : Configuration :=
  let '(Build_Configuration a b d e f g h i j k _ m n o p) := c in
  Build_Configuration a b d e f g h i j k v m n o p.
Definition SetNumberOfSlots (v : Z) (c : Configuration) : Configuration :=
  let '(Build_Configuration a b d e f g h i j k l _ n o p) := c in
  Build_Configuration a b d e f g h i j k l v n o p.
Definition SetSlotSizeInBytes (v : Z) (c : Configuration) : Configuration :=
  let '(Build_Configuration a b d e f g h i j k l m _ o p) := c in
  Build_Configuration a b d e f g h i j k l m v o p.
Definition SetDataRouterUid (v : Z) (c : Configuration) : Configuration :=
  let '(Build_Configuration a b d e f g h i j k l m n _ p) := c in
  Build_Configuration a b d e f g h i j k l m n v p.
Definition SetDynamicDatarouterIdentifiers (v : bool) (c : Configuration) : Configuration :=
  let '(Build_Configuration a b d e f g h i j k l m n o _) := c in
  Build_Configuration a b d e f g h i j k l m n o v.

Definition IsLogLevelEnabled (log_level : LogLevel) (context : str) (check_for_console : bool)
    (c : Configuration) : bool :=
  let max_log_level :=
    match context_find (data (make_identifier context)) (context_log_level_ c) with
    | Some l => l
    | None => if negb check_for_console then default_log_level_ c else default_console_log_level_ c
    end in
  log_level <=? max_log_level.

(** ** Errors and reports *)

Inductive ConfigError :=
| kInvalidLogLevelString
| kInvalidLogModeString
| kConfigurationFilesNotFound
| kConfigurationOptionalJsonKeyNotFound
| JsonError (e : ModelError).

Abbreviation Result A := (expected ConfigError A).
Abbreviation reports := (list (ConfigError * str)).

Definition kVerboseReporting : bool := false.

Definition IsErrorVerbose (error : ConfigError) : bool :=
  match error with kConfigurationOptionalJsonKeyNotFound => true | _ => false end.

Definition ReportInitializationError (error : ConfigError) (context_info : str) (r : reports) : reports :=
  if negb kVerboseReporting && IsErrorVerbose error then r else r ++ [(error, context_info)].

Definition ReportOnError {T} (result : Result T) (file_name : str) (r : reports) : reports :=
  match result with
  | Value _ => r
  | Unexpected e => ReportInitializationError e file_name r
  end.

(** ** TargetConfigReader *)

Abbreviation Object := (list (str * Any)).

Definition kStringToLogLevel : list (str * LogLevel) :=
  [(s! "kOff", kOff); (s! "kFatal", kFatal); (s! "kError", kError); (s! "kWarn", kWarn);
   (s! "kWarning", kWarn); (s! "kInfo", kInfo); (s! "kDebug", kDebug); (s! "kVerbose", kVerbose)].

Definition kStringToLogMode : list (str * LogMode) :=
  [(s! "kRemote", kRemote); (s! "kConsole", kConsole); (s! "kFile", kFile);
   (s! "kSystem", kSystem); (s! "kCustom", kCustom)].

Fixpoint table_find {A} (key : str) (m : list (str * A)) : option A :=
  match m with
  | [] => None
  | (k, v) :: m => if decide (k = key) then Some v else table_find key m
  end.

(** [As<T>()] with the errors of the reader. *)
Definition from_json {T} (r : MResult T) : Result T :=
  match r with Value v => Value v | Unexpected e => Unexpected (JsonError e) end.

Definition GetElementAs {T} (As : Any → outcome (MResult T)) (obj : Object) (key : str) : outcome (Result T) :=
  match map_find key obj with
  | None => Ret (Unexpected kConfigurationOptionalJsonKeyNotFound)
  | Some v => from_json <$> As v
  end.

Definition GetElementAndThen {T} (As : Any → outcome (MResult T)) (obj : Object) (key : str)
    (update : T → Configuration → outcome Configuration) (config : Configuration) :
    outcome (Result () * Configuration) :=
  parser_result ← GetElementAs As obj key;
  match parser_result with
  | Unexpected e => Ret (Unexpected e, config)
  | Value v => config ← update v config; Ret (Value (), config)
  end.

(** The conversions to [std::string_view], [std::size_t] and [bool]. *)
Definition as_text (a : Any) : outcome (MResult str) := Ret (As_string a).
Definition as_size (a : Any) : outcome (MResult Z) := Any_As_int uint64_t a.
Definition as_bool (a : Any) : outcome (MResult bool) := Ret (Any_As_bool a).

Definition ParseEcuId (root : Object) : Configuration → outcome (Result () * Configuration) :=
  GetElementAndThen as_text root (s! "ecuId") (λ v c, Ret (SetEcuId v c)).
Definition ParseAppId (root : Object) : Configuration → outcome (Result () * Configuration) :=
  GetElementAndThen as_text root (s! "appId") (λ v c, Ret (SetAppId v c)).
Definition ParseAppDescription (root : Object) : Configuration → outcome (Result () * Configuration) :=
  GetElementAndThen as_text root (s! "appDesc") (λ v c, Ret (SetAppDescription v c)).
Definition ParseLogFilePath (root : Object) : Configuration → outcome (Result () * Configuration) :=
  GetElementAndThen as_text root (s! "logFilePath") (λ v c, Ret (SetLogFilePath v c)).

Definition LogModeFromString (s : str) : Result LogMode :=
  match table_find s kStringToLogMode with
  | Some m => Value m
  | None => Unexpected kInvalidLogModeString
  end.

(** The loop over the segments; [emplace] adds a mode that is not yet there. *)
Fixpoint collect_modes (segments : list str) (result : list LogMode) : Result (list LogMode) :=
  match segments with
  | [] => Value result
  | segment :: segments =>
      match LogModeFromString segment with
      | Unexpected _ => Unexpected kInvalidLogModeString
      | Value m => collect_modes segments (if bool_decide (m ∈ result) then result else result ++ [m])
      end
  end.

Definition LogModesFromString (s : str) : outcome (Result (list LogMode)) :=
  segments ← SplitStringView.segments
    {| SplitStringView.source_ := s; SplitStringView.seperator_ := "|"%char |};
  Ret (collect_modes segments []).

Definition ParseLogMode (root : Object) : Configuration → outcome (Result () * Configuration) :=
  GetElementAndThen as_text root (s! "logMode") (λ v c,
    log_mode_result ← LogModesFromString v;
    Ret (match log_mode_result with Value m => SetLogMode m c | Unexpected _ => c end)).

Definition LogLevelFromString (s : str) : Result LogLevel :=
  match table_find s kStringToLogLevel with
  | Some l => Value l
  | None => Unexpected kInvalidLogLevelString
  end.

(** [GetElementAs<LogLevel>]. *)
Definition GetElementAs_LogLevel (obj : Object) (key : str) : outcome (Result LogLevel) :=
  string_result ← GetElementAs as_text obj key;
  Ret (match string_result with
       | Unexpected e => Unexpected e
       | Value s => LogLevelFromString s
       end).

Definition ParseLogLevel (root : Object) : Configuration → outcome (Result () * Configuration) :=
  GetElementAndThen as_text root (s! "logLevel") (λ v c,
    Ret (match LogLevelFromString v with Value l => SetDefaultLogLevel l c | Unexpected _ => c end)).
Definition ParseLogLevelConsole (root : Object) : Configuration → outcome (Result () * Configuration) :=
  GetElementAndThen as_text root (s! "logLevelThresholdConsole") (λ v c,
    Ret (match LogLevelFromString v with Value l => SetDefaultConsoleLogLevel l c | Unexpected _ => c end)).

(** One round of the loop over the contexts.  If the level is missing or
    invalid, the call reports the result of the name, which is no error. *)
Definition parse_context (path : str) (item : Any) (m : ContextLogLevelMap) (r : reports) :
    outcome (ContextLogLevelMap * reports) :=
  match from_json (As_Object item) with
  | Unexpected e => Ret (m, ReportOnError (T := Object) (Unexpected e) path r)
  | Value context_obj =>
      context_name_result ← GetElementAs as_text context_obj (s! "name");
      match context_name_result with
      | Unexpected e => Ret (m, ReportOnError (T := str) (Unexpected e) path r)
      | Value name =>
          context_log_level_result ← GetElementAs_LogLevel context_obj (s! "logLevel");
          match context_log_level_result with
          | Unexpected _ => Ret (m, ReportOnError context_name_result path r)
          | Value l => Ret (context_assign (data (make_identifier name)) l m, r)
          end
      end
  end.

Fixpoint parse_contexts (path : str) (items : list Any) (m : ContextLogLevelMap) (r : reports) :
    outcome (ContextLogLevelMap * reports) :=
  match items with
  | [] => Ret (m, r)
  | item :: items => '(m, r) ← parse_context path item m r; parse_contexts path items m r
  end.

Definition ParseContextLogLevel (root : Object) (path : str) (config : Configuration) (r : reports) :
    outcome (Result () * Configuration * reports) :=
  context_config ← GetElementAs (λ a, Ret (As_List a)) root (s! "contextConfigs");
  match context_config with
  | Unexpected e => Ret (Unexpected e, config, r)
  | Value items =>
      '(m, r) ← parse_contexts path items (GetContextLogLevel config) r;
      Ret (Value (), SetContextLogLevel m config, r)
  end.

Definition ParseStackBufferSize (root : Object) : Configuration → outcome (Result () * Configuration) :=
  GetElementAndThen as_size root (s! "stackBufferSize") (λ v c, Ret (SetStackBufferSize v c)).
Definition ParseRingBufferSize (root : Object) : Configuration → outcome (Result () * Configuration) :=
  GetElementAndThen as_size root (s! "ringBufferSize") (λ v c, Ret (SetRingBufferSize v c)).
Definition ParseOverwriteOnFull (root : Object) : Configuration → outcome (Result () * Configuration) :=
  GetElementAndThen as_bool root (s! "overwriteOnFull") (λ v c, Ret (SetRingBufferOverwriteOnFull v c)).
Definition ParseNumberOfSlots (root : Object) : Configuration → outcome (Result () * Configuration) :=
  GetElementAndThen as_size root (s! "numberOfSlots") (λ v c, Ret (SetNumberOfSlots v c)).
Definition ParseSlotSizeBytes (root : Object) : Configuration → outcome (Result () * Configuration) :=
  GetElementAndThen as_size root (s! "slotSizeBytes") (λ v c, Ret (SetSlotSizeInBytes v c)).
Definition ParseDatarouterUid (root : Object) : Configuration → outcome (Result () * Configuration) :=
  GetElementAndThen as_size root (s! "datarouterUid") (λ v c, Ret (SetDataRouterUid v c)).
Definition ParseDynamicDatarouterIdentifiers (root : Object) :
    Configuration → outcome (Result () * Configuration) :=
  GetElementAndThen as_size root (s! "dynamicDatarouterIdentifiers")
    (λ v c, Ret (SetDynamicDatarouterIdentifiers (negb (v =? 0)) c)).

(** [ReportOnError(parse(root, config), path)]. *)
Definition reporting (parse : Configuration → outcome (Result () * Configuration)) (path : str)
    (s : Configuration * reports) : outcome (Configuration * reports) :=
  '(result, config) ← parse (fst s);
  Ret (config, ReportOnError result path (snd s)).

Definition reporting_context (root : Object) (path : str) (s : Configuration * reports) :
    outcome (Configuration * reports) :=
  '(result, config, r) ← ParseContextLogLevel root path (fst s) (snd s);
  Ret (config, ReportOnError result path r).

Definition ParseConfigurationElements (root : Object) (path : str) (s : Configuration * reports) :
    outcome (Configuration * reports) :=
  s ← reporting (ParseEcuId root) path s;
  s ← reporting (ParseAppId root) path s;
  s ← reporting (ParseAppDescription root) path s;
  s ← reporting (ParseLogFilePath root) path s;
  s ← reporting (ParseLogMode root) path s;
  s ← reporting (ParseLogLevel root) path s;
  s ← reporting (ParseLogLevelConsole root) path s;
  s ← reporting_context root path s;
  s ← reporting (ParseStackBufferSize root) path s;
  s ← reporting (ParseRingBufferSize root) path s;
  s ← reporting (ParseOverwriteOnFull root) path s;
  s ← reporting (ParseNumberOfSlots root) path s;
  s ← reporting (ParseSlotSizeBytes root) path s;
  s ← reporting (ParseDatarouterUid root) path s;
  reporting (ParseDynamicDatarouterIdentifiers root) path s.

Section System.
Variable (read_file : str → option str).

Definition ParseAndUpdateConfiguration (path : str) (config : Configuration) (r : reports) :
    outcome (Result Configuration * reports) :=
  json_result ← JsonParser.FromFile read_file path;
  match json_result with
  | Unexpected e => Ret (Unexpected (JsonError e), r)
  | Value json =>
      match As_Object json with
      | Unexpected e => Ret (Unexpected (JsonError e), r)
      | Value root => '(config, r) ← ParseConfigurationElements root path (config, r); Ret (Value config, r)
      end
  end.

Fixpoint read_files (config_files : list str) (config : Configuration) (r : reports) :
    outcome (Configuration * reports) :=
  match config_files with
  | [] => Ret (config, r)
  | config_file :: config_files =>
      '(result, r) ← ParseAndUpdateConfiguration config_file config r;
      match result with
      | Unexpected _ => read_files config_files config (ReportOnError result config_file r)
      | Value config => read_files config_files config r
      end
  end.

Definition ReadConfig (config_files : list str) (r : reports) : outcome (Result Configuration * reports) :=
  match config_files with
  | [] => Ret (Unexpected kConfigurationFilesNotFound, r)
  | _ => '(config, r) ← read_files config_files default_configuration r; Ret (Value config, r)
  end.

(** ** ConfigurationFileDiscoverer *)

Variables (exists_ : str → bool) (getenv : str → option str) (get_exec_path : option str)
  (get_parent_dir : str → str).

Definition kGlobalConfigPath : str := s! "/etc/ecu_logging_config.json".
Definition kLocalEtcConfigPath : str := s! "etc/logging.json".
Definition kCwdConfigPath : str := s! "logging.json".
Definition kEnvironmentVariableConfig : str := s! "MW_LOG_CONFIG_FILE".

Definition FileExists (path : str) : bool := exists_ path.

Definition GetGlobalConfigFile : option str :=
  if FileExists kGlobalConfigPath then Some kGlobalConfigPath else None.

Definition GetConfigFileByExecutableLocation : option str :=
  match get_exec_path with
  | Some exec_path =>
      let bin_path := get_parent_dir exec_path in
      let app_path := get_parent_dir bin_path in
      Some (app_path ++ s! "/" ++ kLocalEtcConfigPath)
  | None => None
  end.

(** [std::find_if] for the first candidate that exists. *)
Fixpoint find_candidate (candidates : list (option str)) : option str :=
  match candidates with
  | [] => None
  | candidate :: candidates =>
      if match candidate with Some c => FileExists c | None => false end then candidate
      else find_candidate candidates
  end.

Definition FindLocalConfigFile : option str :=
  find_candidate [GetConfigFileByExecutableLocation; Some kLocalEtcConfigPath; Some kCwdConfigPath].

Definition FindEnvironmentConfigFile : option str :=
  match getenv kEnvironmentVariableConfig with
  | Some path => if FileExists path then Some path else None
  | None => None
  end.

Definition FindConfigurationFiles : list str :=
  let global_file := match GetGlobalConfigFile with Some f => [f] | None => [] end in
  match FindEnvironmentConfigFile with
  | Some env_file => global_file ++ [env_file]
  | None => global_file ++ match FindLocalConfigFile with Some f => [f] | None => [] end
  end.

End System.

(** ** Reference *)

Definition text_at (root : Object) (key : str) : option str :=
  match map_find key root with Some (String s) => Some s | _ => None end.
Definition size_at (root : Object) (key : str) : option Z :=
  match map_find key root with
  | Some v => match Any_As_int uint64_t v with Ret (Value n) => Some n | _ => None end
  | None => None
  end.
Definition bool_at (root : Object) (key : str) : option bool :=
  match map_find key root with
  | Some v => match Any_As_bool v with Value b => Some b | Unexpected _ => None end
  | None => None
  end.
Definition level_at (root : Object) (key : str) : option LogLevel :=
  text_at root key ≫= λ s, table_find s kStringToLogLevel.

(** All segments name a mode; each mode counts once. *)
Definition modes_at (root : Object) (key : str) : option (list LogMode) :=
  text_at root key ≫= λ s,
  foldl (λ acc m, if bool_decide (m ∈ acc) then acc else acc ++ [m]) []
    <$> mapM (λ t, table_find t kStringToLogMode) (SplitStringView.split "|"%char s []).

(** The context and the level that an item of the list sets. *)
Definition context_of (item : Any) : option (str * LogLevel) :=
  match item with
  | JsonModel.Object o =>
      match text_at o (s! "name"), level_at o (s! "logLevel") with
      | Some n, Some l => Some (data (make_identifier n), l)
      | _, _ => None
      end
  | _ => None
  end.

Definition contexts_at (root : Object) (m : ContextLogLevelMap) : ContextLogLevelMap :=
  match map_find (s! "contextConfigs") root with
  | Some (List items) =>
      foldl (λ m item, match context_of item with Some (k, l) => context_assign k l m | None => m end) m items
  | _ => m
  end.

(** What a file with the members [root] makes of a configuration: it replaces
    exactly the fields for which it has a valid value. *)
Definition updated (root : Object) (c : Configuration) : Configuration := {|
  ecu_id_ := from_option make_identifier (ecu_id_ c) (text_at root (s! "ecuId"));
  app_id_ := from_option make_identifier (app_id_ c) (text_at root (s! "appId"));
  app_description_ := default (app_description_ c) (text_at root (s! "appDesc"));
  log_mode_ := default (log_mode_ c) (modes_at root (s! "logMode"));
  log_file_path_ := default (log_file_path_ c) (text_at root (s! "logFilePath"));
  default_log_level_ := default (default_log_level_ c) (level_at root (s! "logLevel"));
  default_console_log_level_ :=
    default (default_console_log_level_ c) (level_at root (s! "logLevelThresholdConsole"));
  context_log_level_ := contexts_at root (context_log_level_ c);
  stack_buffer_size_ := default (stack_buffer_size_ c) (size_at root (s! "stackBufferSize"));
  ring_buffer_size_ := default (ring_buffer_size_ c) (size_at root (s! "ringBufferSize"));
  ring_buffer_overwrite_on_full_ :=
    default (ring_buffer_overwrite_on_full_ c) (bool_at root (s! "overwriteOnFull"));
  number_of_slots_ := default (number_of_slots_ c) (size_at root (s! "numberOfSlots"));
  slot_size_bytes_ := default (slot_size_bytes_ c) (size_at root (s! "slotSizeBytes"));
  data_router_uid_ := default (data_router_uid_ c) (size_at root (s! "datarouterUid"));
  dynamic_datarouter_identifiers_ :=
    from_option (λ n, negb (n =? 0)) (dynamic_datarouter_identifiers_ c)
      (size_at root (s! "dynamicDatarouterIdentifiers"));
|}.

(** ** Lemmas *)

Lemma context_find_assign k l m k' :
  context_find k' (context_assign k l m) = if decide (k' = k) then Some l else context_find k' m.
Proof.
  induction m as [|[k1 l1] m IH]; simpl.
  - repeat case_decide; congruence.
  - destruct (decide (k1 = k)) as [->|Hk]; simpl; [repeat case_decide; congruence|].
    rewrite IH. repeat case_decide; congruence.
Qed.

(** A parsing step: how it changes the configuration; reports are only added. *)
Definition updates (f : Configuration * reports → outcome (Configuration * reports))
    (g : Configuration → Configuration) : Prop :=
  ∀ c r, ∃ r', f (c, r) = Ret (g c, r ++ r').

Lemma updates_bind f f' g g' :
  updates f g → updates f' g' → updates (λ s, s ← f s; f' s) (λ c, g' (g c)).
Proof.
  intros Hf Hf' c r. destruct (Hf c r) as (r1 & ->). destruct (Hf' (g c) (r ++ r1)) as (r2 & E).
  exists (r1 ++ r2). cbn [mbind outcome_bind]. by rewrite E, (assoc_L (++)).
Qed.

Lemma report_app {T} (res : Result T) path r : ∃ r', ReportOnError res path r = r ++ r'.
Proof.
  destruct res as [|e]; simpl; [exists []; by rewrite app_nil_r|]. unfold ReportInitializationError.
  destruct (_ && _); [exists []; by rewrite app_nil_r|by eexists].
Qed.

Lemma reporting_updates parse path g :
  (∀ c, ∃ res, parse c = Ret (res, g c)) → updates (reporting parse path) g.
Proof.
  intros Hp c r. unfold reporting. cbn [fst snd]. destruct (Hp c) as (res & ->). cbn [mbind outcome_bind].
  destruct (report_app res path r) as (r' & ->). by exists r'.
Qed.

(** [GetElementAndThen] for a conversion that returns. *)
Lemma GetElementAndThen_spec {T} (As : Any → outcome (MResult T)) root key update (value : option T)
    (g : T → Configuration → Configuration) :
  match map_find key root with
  | Some v => ∃ r, As v = Ret r ∧ value = match r with Value x => Some x | Unexpected _ => None end
  | None => value = None
  end →
  (∀ x c, update x c = Ret (g x c)) →
  ∀ c, ∃ res, GetElementAndThen As root key update c
    = Ret (res, match value with Some x => g x c | None => c end).
Proof.
  intros Hv Hu c. unfold GetElementAndThen, GetElementAs. destruct (map_find key root) as [v|].
  - destruct Hv as (r & -> & ->). destruct r as [x|e]; simpl; [rewrite Hu|]; by eexists.
  - subst value. simpl. by eexists.
Qed.

Lemma text_updates root key path update g :
  (∀ x c, update x c = Ret (g x c)) →
  updates (reporting (GetElementAndThen as_text root key update) path)
    (λ c, match text_at root key with Some x => g x c | None => c end).
Proof.
  intros Hu. apply reporting_updates, GetElementAndThen_spec; [|done]. unfold text_at, as_text.
  destruct (map_find key root) as [[]|]; eauto.
Qed.

Lemma size_updates root key path update g :
  JsonFinite.finite (JsonModel.Object root) → (∀ x c, update x c = Ret (g x c)) →
  updates (reporting (GetElementAndThen as_size root key update) path)
    (λ c, match size_at root key with Some x => g x c | None => c end).
Proof.
  intros Hs Hu. apply reporting_updates, GetElementAndThen_spec; [|done]. unfold size_at, as_size.
  destruct (map_find key root) as [v|] eqn:E; [|done]. apply JsonFinite.finite_Object in Hs.
  destruct (JsonFinite.finite_As_int uint64_t v) as (r & ->); [by eapply (JsonTree.map_find_Forall JsonFinite.finite)|].
  exists r. by destruct r.
Qed.

Lemma bool_updates root key path update g :
  (∀ x c, update x c = Ret (g x c)) →
  updates (reporting (GetElementAndThen as_bool root key update) path)
    (λ c, match bool_at root key with Some x => g x c | None => c end).
Proof.
  intros Hu. apply reporting_updates, GetElementAndThen_spec; [|done]. unfold bool_at, as_bool.
  destruct (map_find key root) as [v|]; [|done]. eexists. split; [done|]. by destruct (Any_As_bool v).
Qed.

Lemma collect_modes_spec segments acc :
  match mapM (λ t, table_find t kStringToLogMode) segments with
  | Some l => collect_modes segments acc
      = Value (foldl (λ acc m, if bool_decide (m ∈ acc) then acc else acc ++ [m]) acc l)
  | None => ∃ e, collect_modes segments acc = Unexpected e
  end.
Proof.
  revert acc. induction segments as [|t segments IH]; intros acc; [done|].
  cbn [mapM collect_modes]. unfold LogModeFromString.
  destruct (table_find t kStringToLogMode) as [m|]; [|by eexists]. cbn [mbind option_bind].
  specialize (IH (if bool_decide (m ∈ acc) then acc else acc ++ [m])).
  by destruct (mapM (λ t, table_find t kStringToLogMode) segments).
Qed.

Lemma parse_context_spec path item m r :
  ∃ r', parse_context path item m r
    = Ret (match context_of item with Some (k, l) => context_assign k l m | None => m end, r ++ r').
Proof.
  unfold parse_context, context_of.
  destruct item as [| | | |o|]; cbn [As_Object from_json];
    try (destruct (report_app (T := Object) (Unexpected (JsonError kWrongType)) path r) as (r' & ->); by exists r').
  unfold GetElementAs_LogLevel, GetElementAs, text_at, level_at, text_at, as_text.
  destruct (map_find (s! "name") o) as [v|]; cbn [fmap outcome_fmap mbind outcome_bind].
  2: { destruct (report_app (T := str) (Unexpected kConfigurationOptionalJsonKeyNotFound) path r) as (r' & ->). by exists r'. }
  destruct v as [| |n| | |]; cbn [As_string from_json];
    try (destruct (report_app (T := str) (Unexpected (JsonError kWrongType)) path r) as (r' & ->); by exists r').
  destruct (map_find (s! "logLevel") o) as [v|]; cbn [fmap outcome_fmap mbind outcome_bind option_bind];
    [|exists []; by rewrite app_nil_r].
  destruct v as [| |l| | |]; cbn [As_string from_json mbind option_bind]; try (exists []; by rewrite app_nil_r).
  unfold LogLevelFromString. destruct (table_find l kStringToLogLevel); exists []; by rewrite app_nil_r.
Qed.

Lemma parse_contexts_spec path items m r :
  ∃ r', parse_contexts path items m r
    = Ret (foldl (λ m item, match context_of item with Some (k, l) => context_assign k l m | None => m end) m items,
           r ++ r').
Proof.
  revert m r. induction items as [|item items IH]; intros m r; [exists []; by rewrite app_nil_r|].
  cbn [parse_contexts foldl]. destruct (parse_context_spec path item m r) as (r1 & ->). cbn [mbind outcome_bind].
  destruct (IH (match context_of item with Some (k, l) => context_assign k l m | None => m end) (r ++ r1)) as (r2 & ->).
  exists (r1 ++ r2). by rewrite (assoc_L (++)).
Qed.

Lemma contexts_updates root path :
  updates (reporting_context root path) (λ c, SetContextLogLevel (contexts_at root (context_log_level_ c)) c).
Proof.
  intros c r. unfold reporting_context, ParseContextLogLevel, contexts_at, GetElementAs. cbn [fst snd].
  assert (SetContextLogLevel (context_log_level_ c) c = c) as Hid by by destruct c.
  destruct (map_find (s! "contextConfigs") root) as [v|]; cbn [fmap outcome_fmap mbind outcome_bind].
  2: { rewrite Hid. destruct (report_app (T := ()) (Unexpected kConfigurationOptionalJsonKeyNotFound) path r) as (r' & ->).
       by exists r'. }
  destruct v as [| | | | |items]; cbn [As_List from_json mbind outcome_bind];
    try (rewrite Hid; destruct (report_app (T := ()) (Unexpected (JsonError kWrongType)) path r) as (r' & ->); by exists r').
  destruct (parse_contexts_spec path items (GetContextLogLevel c) r) as (r' & ->). cbn [mbind outcome_bind].
  by exists r'.
Qed.

(** ** The configuration as a whole *)

(** Sets a field for which there is a value. *)
Definition put {T} (v : option T) (f : T → Configuration → Configuration) (c : Configuration) : Configuration :=
  match v with Some x => f x c | None => c end.

Lemma put_SetEcuId v a b d e f g h i j k l m n o p :
  put v SetEcuId (Build_Configuration a b d e f g h i j k l m n o p)
  = Build_Configuration (from_option make_identifier a v) b d e f g h i j k l m n o p.
Proof. by destruct v. Qed.

Lemma put_SetAppId v a b d e f g h i j k l m n o p :
  put v SetAppId (Build_Configuration a b d e f g h i j k l m n o p)
  = Build_Configuration a (from_option make_identifier b v) d e f g h i j k l m n o p.
Proof. by destruct v. Qed.

Lemma put_SetAppDescription v a b d e f g h i j k l m n o p :
  put v SetAppDescription (Build_Configuration a b d e f g h i j k l m n o p)
  = Build_Configuration a b (default d v) e f g h i j k l m n o p.
Proof. by destruct v. Qed.

Lemma put_SetLogMode v a b d e f g h i j k l m n o p :
  put v SetLogMode (Build_Configuration a b d e f g h i j k l m n o p)
  = Build_Configuration a b d (default e v) f g h i j k l m n o p.
Proof. by destruct v. Qed.

Lemma put_SetLogFilePath v a b d e f g h i j k l m n o p :
  put v SetLogFilePath (Build_Configuration a b d e f g h i j k l m n o p)
  = Build_Configuration a b d e (default f v) g h i j k l m n o p.
Proof. by destruct v. Qed.

Lemma put_SetDefaultLogLevel v a b d e f g h i j k l m n o p :
  put v SetDefaultLogLevel (Build_Configuration a b d e f g h i j k l m n o p)
  = Build_Configuration a b d e f (default g v) h i j k l m n o p.
Proof. by destruct v. Qed.

Lemma put_SetDefaultConsoleLogLevel v a b d e f g h i j k l m n o p :
  put v SetDefaultConsoleLogLevel (Build_Configuration a b d e f g h i j k l m n o p)
  = Build_Configuration a b d e f g (default h v) i j k l m n o p.
Proof. by destruct v. Qed.

Lemma put_SetStackBufferSize v a b d e f g h i j k l m n o p :
  put v SetStackBufferSize (Build_Configuration a b d e f g h i j k l m n o p)
  = Build_Configuration a b d e f g h i (default j v) k l m n o p.
Proof. by destruct v. Qed.

Lemma put_SetRingBufferSize v a b d e f g h i j k l m n o p :
  put v SetRingBufferSize (Build_Configuration a b d e f g h i j k l m n o p)
  = Build_Configuration a b d e f g h i j (default k v) l m n o p.
Proof. by destruct v. Qed.

Lemma put_SetRingBufferOverwriteOnFull v a b d e f g h i j k l m n o p :
  put v SetRingBufferOverwriteOnFull (Build_Configuration a b d e f g h i j k l m n o p)
  = Build_Configuration a b d e f g h i j k (default l v) m n o p.
Proof. by destruct v. Qed.

Lemma put_SetNumberOfSlots v a b d e f g h i j k l m n o p :
  put v SetNumberOfSlots (Build_Configuration a b d e f g h i j k l m n o p)
  = Build_Configuration a b d e f g h i j k l (default m v) n o p.
Proof. by destruct v. Qed.

Lemma put_SetSlotSizeInBytes v a b d e f g h i j k l m n o p :
  put v SetSlotSizeInBytes (Build_Configuration a b d e f g h i j k l m n o p)
  = Build_Configuration a b d e f g h i j k l m (default n v) o p.
Proof. by destruct v. Qed.

Lemma put_SetDataRouterUid v a b d e f g h i j k l m n o p :
  put v SetDataRouterUid (Build_Configuration a b d e f g h i j k l m n o p)
  = Build_Configuration a b d e f g h i j k l m n (default o v) p.
Proof. by destruct v. Qed.

Lemma put_dynamic v a b d e f g h i j k l m n o p :
  put v (λ x, SetDynamicDatarouterIdentifiers (negb (x =? 0))) (Build_Configuration a b d e f g h i j k l m n o p)
  = Build_Configuration a b d e f g h i j k l m n o (from_option (λ x, negb (x =? 0)) p v).
Proof. by destruct v. Qed.

Definition put_contexts (root : Object) (c : Configuration) : Configuration :=
  SetContextLogLevel (contexts_at root (context_log_level_ c)) c.

Lemma updated_composition root c :
  updated root c
  = put (size_at root (s! "dynamicDatarouterIdentifiers")) (λ x, SetDynamicDatarouterIdentifiers (negb (x =? 0)))
    (put (size_at root (s! "datarouterUid")) SetDataRouterUid
    (put (size_at root (s! "slotSizeBytes")) SetSlotSizeInBytes
    (put (size_at root (s! "numberOfSlots")) SetNumberOfSlots
    (put (bool_at root (s! "overwriteOnFull")) SetRingBufferOverwriteOnFull
    (put (size_at root (s! "ringBufferSize")) SetRingBufferSize
    (put (size_at root (s! "stackBufferSize")) SetStackBufferSize
    (put_contexts root
    (put (level_at root (s! "logLevelThresholdConsole")) SetDefaultConsoleLogLevel
    (put (level_at root (s! "logLevel")) SetDefaultLogLevel
    (put (modes_at root (s! "logMode")) SetLogMode
    (put (text_at root (s! "logFilePath")) SetLogFilePath
    (put (text_at root (s! "appDesc")) SetAppDescription
    (put (text_at root (s! "appId")) SetAppId
    (put (text_at root (s! "ecuId")) SetEcuId c)))))))))))))).
Proof.
  destruct c as [a b d e f g h i j k l m n o p].
  rewrite put_SetEcuId, put_SetAppId, put_SetAppDescription, put_SetLogFilePath, put_SetLogMode,
    put_SetDefaultLogLevel, put_SetDefaultConsoleLogLevel. unfold put_contexts.
  cbn [SetContextLogLevel context_log_level_].
  rewrite put_SetStackBufferSize, put_SetRingBufferSize, put_SetRingBufferOverwriteOnFull, put_SetNumberOfSlots,
    put_SetSlotSizeInBytes, put_SetDataRouterUid, put_dynamic. done.
Qed.

Lemma updates_ext f g g' : (∀ c, g c = g' c) → updates f g → updates f g'.
Proof. intros Hg Hf c r. rewrite <- Hg. apply Hf. Qed.

Lemma level_updates root key path set :
  updates (reporting (GetElementAndThen as_text root key (λ v c,
    Ret (match LogLevelFromString v with Value l => set l c | Unexpected _ => c end))) path)
    (put (level_at root key) set).
Proof.
  eapply updates_ext; [|by apply (text_updates _ _ _ _ (λ v c,
    match LogLevelFromString v with Value l => set l c | Unexpected _ => c end))].
  intros c. unfold level_at, LogLevelFromString. destruct (text_at root key) as [s|]; [|done]. cbn [mbind option_bind].
  by destruct (table_find s kStringToLogLevel).
Qed.

Lemma modes_updates root path :
  updates (reporting (ParseLogMode root) path) (put (modes_at root (s! "logMode")) SetLogMode).
Proof.
  eapply updates_ext; [|apply (text_updates _ _ _ _ (λ v c,
    match collect_modes (SplitStringView.split "|"%char v []) [] with Value l => SetLogMode l c | Unexpected _ => c end))].
  - intros c. unfold modes_at. destruct (text_at root (s! "logMode")) as [s|]; [|done]. cbn [mbind option_bind].
    pose proof (collect_modes_spec (SplitStringView.split "|"%char s []) []) as H.
    destruct (mapM (λ t, table_find t kStringToLogMode) _) as [l|]; [by rewrite H|]. by destruct H as [e ->].
  - intros v c. unfold LogModesFromString. rewrite SplitStringView.segments_spec. done.
Qed.

Lemma elements_updates root path :
  JsonFinite.finite (JsonModel.Object root) → updates (ParseConfigurationElements root path) (updated root).
Proof.
  intros Hs. eapply updates_ext; cycle 1.
  - unfold ParseConfigurationElements.
    do 4 (eapply updates_bind; [apply text_updates; reflexivity|]).
    eapply updates_bind; [apply modes_updates|].
    do 2 (eapply updates_bind; [apply level_updates|]).
    eapply updates_bind; [apply contexts_updates|].
    do 2 (eapply updates_bind; [apply size_updates; [done|reflexivity]|]).
    eapply updates_bind; [apply bool_updates; reflexivity|].
    do 3 (eapply updates_bind; [apply size_updates; [done|reflexivity]|]).
    apply (size_updates _ _ _ _ (λ x, SetDynamicDatarouterIdentifiers (negb (x =? 0)))); done.
  - intros c. by rewrite updated_composition.
Qed.

(** ** Files *)

(** The members of the object in a file. *)
Definition root_of (read_file : str → option str) (path : str) : option Object :=
  match JsonParser.FromFile read_file path with Ret (Value (JsonModel.Object root)) => Some root | _ => None end.

Definition apply_file (read_file : str → option str) (c : Configuration) (path : str) : Configuration :=
  match root_of read_file path with Some root => updated root c | None => c end.

Lemma FromFile_returns read_file path :
  ∃ r, JsonParser.FromFile read_file path = Ret r
  ∧ match r with Value a => JsonFinite.finite a | Unexpected _ => True end.
Proof.
  unfold JsonParser.FromFile. destruct (read_file path) as [content|]; [|by eexists].
  destruct (JsonTree.FromBuffer_returns content) as (r & E & _). exists r. split; [done|].
  destruct r; [by eapply JsonFinite.FromBuffer_finite|done].
Qed.

Lemma parse_file read_file path config r :
  ∃ result r', ParseAndUpdateConfiguration read_file path config r = Ret (result, r ++ r')
  ∧ apply_file read_file config path = match result with Value c => c | Unexpected _ => config end.
Proof.
  unfold ParseAndUpdateConfiguration, apply_file, root_of.
  destruct (FromFile_returns read_file path) as (res & E & Hs). rewrite E. cbn [mbind outcome_bind].
  destruct res as [[| | | |root|]|e]; cbn [As_Object];
    try (eexists _, []; by rewrite app_nil_r).
  destruct (elements_updates root path Hs config r) as (r' & ->). cbn [mbind outcome_bind].
  by eexists _, r'.
Qed.

Lemma read_files_spec read_file files : ∀ config r,
  ∃ r', read_files read_file files config r = Ret (foldl (apply_file read_file) config files, r ++ r').
Proof.
  induction files as [|path files IH]; intros config r; [exists []; by rewrite app_nil_r|].
  cbn [read_files foldl].
  destruct (parse_file read_file path config r) as (result & r1 & -> & E).
  cbn [mbind outcome_bind]. rewrite E.
  destruct result as [c|e].
  - destruct (IH c (r ++ r1)) as (r2 & ->). exists (r1 ++ r2). by rewrite (assoc_L (++)).
  - destruct (report_app (T := Configuration) (Unexpected e) path (r ++ r1)) as (r2 & ->).
    destruct (IH config ((r ++ r1) ++ r2)) as (r3 & ->). exists (r1 ++ r2 ++ r3). by rewrite !(assoc_L (++)).
Qed.

(** The level that a list of items leaves for a context. *)
Definition last_level (key : str) (items : list Any) (before : option LogLevel) : option LogLevel :=
  foldl (λ acc item,
    match context_of item with
    | Some (k, l) => if decide (key = k) then Some l else acc
    | None => acc
    end) before items.

Lemma contexts_lookup key items m :
  context_find key
    (foldl (λ m item, match context_of item with Some (k, l) => context_assign k l m | None => m end) m items)
  = last_level key items (context_find key m).
Proof.
  unfold last_level. revert m. induction items as [|item items IH]; intros m; [done|]. cbn [foldl]. rewrite IH. f_equal.
  destruct (context_of item) as [[k l]|]; [|done]. apply context_find_assign.
Qed.

(** ** Properties *)

(** C36: [ReadConfig] fails exactly if there is no file.  Otherwise it applies
    the files one after the other to the defaults, whatever they contain.  What
    a file does is [updated]: a text, size or flag is replaced if the file has a
    value under its key that converts to its type, a level if the value is the name of a
    level, and the modes of the log if all the names are those of modes; the
    levels of contexts are merged, entry by entry, into those there are, and
    invalid entries are skipped.  A file that cannot be read or parsed, or
    whose root is not an object, changes nothing, and reading goes on with the
    next one.  Reports are only added. *)
Theorem read_config_spec (read_file : str → option str) (files : list str) (r : reports) :
  ∃ r', ReadConfig read_file files r
    = Ret (match files with
           | [] => Unexpected kConfigurationFilesNotFound
           | _ => Value (foldl (apply_file read_file) default_configuration files)
           end, r ++ r').
Proof.
  unfold ReadConfig. destruct files as [|path files]; [exists []; by rewrite app_nil_r|].
  destruct (read_files_spec read_file (path :: files) default_configuration r) as (r' & ->). by exists r'.
Qed.

(** Three files: one that sets fields of all kinds, one that is no object, and
    one with a size that is no integer, an unknown level and another context. *)
Definition quoted (s : str) : str := map (λ c, if decide (c = "'"%char) then "034"%char else c) s.

Definition example_files (path : str) : option str :=
  if decide (path = s! "a.json") then
    Some (quoted (s! "{'appId': 'APP7', 'logMode': 'kRemote|kConsole', 'logLevel': 'kDebug', 'numberOfSlots': 3, 'contextConfigs': [{'name': 'MAIN', 'logLevel': 'kInfo'}]}"))
  else if decide (path = s! "b.json") then Some (s! "[7]")
  else if decide (path = s! "c.json") then
    Some (quoted (s! "{'numberOfSlots': 2.5, 'logLevel': 'loud', 'slotSizeBytes': 6.4e1, 'contextConfigs': [{'name': 'AUX', 'logLevel': 'kWarn'}]}"))
  else None.

Lemma read_config_example :
  ∃ c r', ReadConfig example_files [s! "a.json"; s! "b.json"; s! "c.json"; s! "d.json"] [] = Ret (Value c, r')
  ∧ GetAppId c = s! "APP7" ∧ log_mode_ c = [kRemote; kConsole] ∧ default_log_level_ c = kDebug
  ∧ GetNumberOfSlots c = 3 ∧ GetSlotSizeInBytes c = 64
  ∧ map snd (context_log_level_ c) = [kInfo; kWarn].
Proof. eexists _, _. split; [vm_compute; reflexivity|]. vm_compute. repeat split. Qed.

(** Whether a level is enabled is decided by the last valid entry that a
    file has for the context, of whose name the first four characters count;
    without an entry the thresholds of the earlier files remain, and without
    any the default for the kind of recorder. *)
Theorem context_level_enabled (root : Object) (items : list Any) (c : Configuration)
    (level : LogLevel) (context : str) (console : bool) :
  map_find (s! "contextConfigs") root = Some (List items) →
  let key := data (make_identifier context) in
  IsLogLevelEnabled level context console (updated root c)
  = (level <=?
      match last_level key items (context_find key (context_log_level_ c)) with
      | Some l => l
      | None =>
          if console then default (default_console_log_level_ c) (level_at root (s! "logLevelThresholdConsole"))
          else default (default_log_level_ c) (level_at root (s! "logLevel"))
      end).
Proof.
  intros Hi key. unfold IsLogLevelEnabled, updated. cbn [context_log_level_ default_log_level_ default_console_log_level_].
  unfold contexts_at. rewrite Hi, contexts_lookup. fold key. by destruct (last_level key items _), console.
Qed.

Lemma context_level_enabled_witness :
  let root := [(s! "contextConfigs", List [JsonModel.Object [(s! "logLevel", String (s! "kInfo")); (s! "name", String (s! "MAIN"))]])] in
  IsLogLevelEnabled kInfo (s! "MAINTENANCE") false (updated root default_configuration) = true
  ∧ IsLogLevelEnabled kInfo (s! "OTHR") false (updated root default_configuration) = false.
Proof.
  split; rewrite (context_level_enabled _ [JsonModel.Object [(s! "logLevel", String (s! "kInfo")); (s! "name", String (s! "MAIN"))]]);
    vm_compute; reflexivity.
Defined.

(** An entry for a context with a name but a missing or unknown level is
    ignored without a report. *)
Theorem invalid_context_unreported (path : str) (o : Object) (m : ContextLogLevelMap) (r : reports) (name : str) :
  text_at o (s! "name") = Some name → level_at o (s! "logLevel") = None →
  parse_context path (JsonModel.Object o) m r = Ret (m, r).
Proof.
  intros Hn Hl. unfold parse_context. cbn [As_Object from_json].
  unfold GetElementAs_LogLevel, GetElementAs, text_at, level_at, text_at, as_text in *.
  destruct (map_find (s! "name") o) as [[]|]; try done. cbn [fmap outcome_fmap mbind outcome_bind As_string from_json].
  destruct (map_find (s! "logLevel") o) as [[| |l| | |]|]; cbn [fmap outcome_fmap mbind outcome_bind As_string from_json]; try done.
  cbn [mbind option_bind] in Hl. unfold LogLevelFromString. by rewrite Hl.
Qed.

Lemma invalid_context_unreported_witness :
  parse_context (s! "c.json")
    (JsonModel.Object [(s! "logLevel", String (s! "info")); (s! "name", String (s! "MAIN"))]) [] [] = Ret ([], []).
Proof. by apply (invalid_context_unreported _ _ _ _ (s! "MAIN")). Defined.

End LogConfiguration.
