(* ===== verification/LogDrainer.v ===== *)
(** * Writing the log: mw/log/detail/text_recorder

    [NonBlockingWriter], [TextMessageBuilder] and [SlotDrainer], which write
    the records of finished log messages to a file descriptor.

    The components share memory and the model keeps the references: a span of
    the writer is a part of the header buffer of the builder or of the payload
    of a slot, and is read when the system call is made; the current slot of
    the drainer is a reference to an element that was already removed from the
    circular buffer.  A [SlotHandle] has no destructor of its own, so that its
    bytes remain until the buffer stores another element in their place.

    The system call [write] and the clocks are parameters: the [k]-th call of
    [write] for [n] bytes gives [write_result k n], the number of bytes or an
    error, and the [k]-th message sees the readings [clock k]. *)

From S2P Require Import Prelude CppInt CppString CircularBuffer CircularBufferSpec CircularAllocator.
From S2P Require Import LogPayload LogFormat SlotHandle LogRecord.
Import LogPayload LogFormat LogRecord.

Local Open Scope Z_scope.

Module LogDrainer.

(** ** The queue of slots *)

Definition kMaxCircularBufferSize : Z := 1024.

(** The circular buffer and the bytes of its storage. *)
Record queue := {
  elements : CircularBuffer.circular_buffer SlotHandle.SlotHandle;
  bytes : list SlotHandle.SlotHandle;
}.

(** What the storage holds: the live objects, and elsewhere what was there. *)
Definition overlay (a : list (option SlotHandle.SlotHandle)) (old : list SlotHandle.SlotHandle) :
    list SlotHandle.SlotHandle :=
  zip_with (λ o x, default x o) a old.

Definition with_elements (b : CircularBuffer.circular_buffer SlotHandle.SlotHandle) (q : queue) : queue :=
  {| elements := b; bytes := overlay (CircularBuffer.array_ b) (bytes q) |}.

(** ** The environment *)

Record clock_reading := { time_str : option str; milliseconds : Z; timestamp : Z }.

(** What was written so far, and how often the environment was asked. *)
Record world := { file : str; write_calls : nat; clock_calls : nat }.

Inductive span := NoSpan | HeaderSpan (n : Z) | PayloadSpan (slot : nat) (n : Z).

Definition span_size (s : span) : Z :=
  match s with NoSpan => 0 | HeaderSpan n | PayloadSpan _ n => n end.

Inductive Result := kWouldBlock | kDone.

Record NonBlockingWriter := {
  number_of_flushed_bytes_ : Z;
  buffer_ : span;
  buffer_flushed_ : Result;
  max_chunk_size_ : Z;
}.

Inductive ParsingPhase := kHeader | kPayload | kReinitialize.

(** [log_record_] is a reference to the record of a slot. *)
Record TextMessageBuilder := {
  log_record_ : option nat;
  header_payload_ : ByteVector;
  parsing_phase_ : ParsingPhase;
  ecu_id_ : LoggingIdentifier;
}.

(** [current_slot_] is a reference into the storage of the queue. *)
Record SlotDrainer := {
  allocator_ : CircularAllocator.allocator LogEntry;
  message_builder_ : TextMessageBuilder;
  circular_buffer_ : queue;
  current_slot_ : option nat;
  non_blocking_writer_ : NonBlockingWriter;
  limit_slots_in_one_cycle_ : Z;
  world_ : world;
}.

Definition with_allocator a d := {| allocator_ := a; message_builder_ := message_builder_ d;
  circular_buffer_ := circular_buffer_ d; current_slot_ := current_slot_ d;
  non_blocking_writer_ := non_blocking_writer_ d;
  limit_slots_in_one_cycle_ := limit_slots_in_one_cycle_ d; world_ := world_ d |}.
Definition with_builder m d := {| allocator_ := allocator_ d; message_builder_ := m;
  circular_buffer_ := circular_buffer_ d; current_slot_ := current_slot_ d;
  non_blocking_writer_ := non_blocking_writer_ d;
  limit_slots_in_one_cycle_ := limit_slots_in_one_cycle_ d; world_ := world_ d |}.
Definition with_queue q d := {| allocator_ := allocator_ d; message_builder_ := message_builder_ d;
  circular_buffer_ := q; current_slot_ := current_slot_ d;
  non_blocking_writer_ := non_blocking_writer_ d;
  limit_slots_in_one_cycle_ := limit_slots_in_one_cycle_ d; world_ := world_ d |}.
Definition with_current c d := {| allocator_ := allocator_ d; message_builder_ := message_builder_ d;
  circular_buffer_ := circular_buffer_ d; current_slot_ := c;
  non_blocking_writer_ := non_blocking_writer_ d;
  limit_slots_in_one_cycle_ := limit_slots_in_one_cycle_ d; world_ := world_ d |}.
Definition with_writer w d := {| allocator_ := allocator_ d; message_builder_ := message_builder_ d;
  circular_buffer_ := circular_buffer_ d; current_slot_ := current_slot_ d;
  non_blocking_writer_ := w;
  limit_slots_in_one_cycle_ := limit_slots_in_one_cycle_ d; world_ := world_ d |}.
Definition with_world o d := {| allocator_ := allocator_ d; message_builder_ := message_builder_ d;
  circular_buffer_ := circular_buffer_ d; current_slot_ := current_slot_ d;
  non_blocking_writer_ := non_blocking_writer_ d;
  limit_slots_in_one_cycle_ := limit_slots_in_one_cycle_ d; world_ := o |}.

Definition set_phase (p : ParsingPhase) (m : TextMessageBuilder) : TextMessageBuilder :=
  {| log_record_ := log_record_ m; header_payload_ := header_payload_ m; parsing_phase_ := p;
     ecu_id_ := ecu_id_ m |}.

(** ** NonBlockingWriter *)

(** [SSIZE_MAX]. *)
Definition GetMaxChunkSize : Z := 2 ^ 63 - 1.

Definition make_NonBlockingWriter (max_chunk_size : Z) : NonBlockingWriter :=
  {| number_of_flushed_bytes_ := 0; buffer_ := NoSpan; buffer_flushed_ := kWouldBlock;
     max_chunk_size_ := Z.min max_chunk_size GetMaxChunkSize |}.

Definition SetSpan (buffer : span) (w : NonBlockingWriter) : NonBlockingWriter :=
  {| number_of_flushed_bytes_ := 0; buffer_ := buffer; buffer_flushed_ := kWouldBlock;
     max_chunk_size_ := max_chunk_size_ w |}.

(** The bytes of a span; a span beyond its buffer cannot be read. *)
Definition span_bytes (d : SlotDrainer) : outcome str :=
  let checked n s := if Z.of_nat (length s) <? n then Undefined else Ret (take (Z.to_nat n) s) in
  match buffer_ (non_blocking_writer_ d) with
  | NoSpan => Ret []
  | HeaderSpan n => checked n (content (header_payload_ (message_builder_ d)))
  | PayloadSpan slot n =>
      e ← CircularAllocator.GetUnderlyingBufferFor (allocator_ d) slot;
      checked n (content (payload e))
  end.

Section Environment.
Variables (write_result : nat → Z → option Z) (clock : nat → clock_reading).
(** The assertion level and the address of the circular buffer. *)
Variables (level : assert_level) (this : positive).

(** [unistd_->write(file_handle_, data, size)]. *)
Definition write (data : str) (o : world) : world * option Z :=
  let r := write_result (write_calls o) (Z.of_nat (length data)) in
  ({| file := file o ++ match r with Some n => take (Z.to_nat n) data | None => [] end;
      write_calls := S (write_calls o); clock_calls := clock_calls o |}, r).

(** An error is [None]. *)
Definition InternalFlush (size_to_flush : Z) (d : SlotDrainer) : outcome (SlotDrainer * option Z) :=
  let w := non_blocking_writer_ d in
  let buffer_size := span_size (buffer_ w) in
  if number_of_flushed_bytes_ w <? buffer_size then
    b ← span_bytes d;
    let '(o, num_of_bytes_written) :=
      write (take (Z.to_nat size_to_flush) (drop (Z.to_nat (number_of_flushed_bytes_ w)) b)) (world_ d) in
    let d := with_world o d in
    match num_of_bytes_written with
    | None => Ret (d, None)
    | Some n =>
        let flushed := u64 (number_of_flushed_bytes_ w + u64 n) in
        Ret (with_writer {| number_of_flushed_bytes_ := flushed; buffer_ := buffer_ w;
                            buffer_flushed_ := buffer_flushed_ w; max_chunk_size_ := max_chunk_size_ w |} d,
             Some flushed)
    end
  else Ret (d, Some (number_of_flushed_bytes_ w)).

Definition FlushIntoFile (d : SlotDrainer) : outcome (SlotDrainer * option Result) :=
  let w := non_blocking_writer_ d in
  let buffer_size := span_size (buffer_ w) in
  let left_over := u64 (buffer_size - number_of_flushed_bytes_ w) in
  let bytes_to_write := if max_chunk_size_ w <=? left_over then max_chunk_size_ w else left_over in
  '(d, flush_output) ← InternalFlush bytes_to_write d;
  match flush_output with
  | None => Ret (d, None)
  | Some _ =>
      let w := non_blocking_writer_ d in
      let flushed := if number_of_flushed_bytes_ w =? buffer_size then kDone else buffer_flushed_ w in
      Ret (with_writer {| number_of_flushed_bytes_ := number_of_flushed_bytes_ w; buffer_ := buffer_ w;
                          buffer_flushed_ := flushed; max_chunk_size_ := max_chunk_size_ w |} d,
           Some flushed)
  end.

(** ** TextMessageBuilder *)

Definition kMaxHeaderSize : Z := 512.

Definition make_TextMessageBuilder (ecu_id : str) : TextMessageBuilder :=
  {| log_record_ := None; header_payload_ := make_VerbosePayload kMaxHeaderSize empty_vector;
     parsing_phase_ := kHeader; ecu_id_ := make_identifier ecu_id |}.

Definition level_name (l : LogLevel) : str :=
  if l =? kOff then s! "off" else if l =? kFatal then s! "fatal" else if l =? kError then s! "error"
  else if l =? kWarn then s! "warn" else if l =? kInfo then s! "info" else if l =? kDebug then s! "debug"
  else if l =? kVerbose then s! "verbose" else s! "undefined".

Definition LogLevelToString (l : LogLevel) (v : ByteVector) : outcome ByteVector := Log_string (level_name l) v.

(** The header of a message, appended to [header_payload_]. *)
Definition put_header (ecu_id : LoggingIdentifier) (r : clock_reading) (e : LogEntry) (v : ByteVector) :
    outcome ByteVector :=
  v ← PutFormattedTime (time_str r) (milliseconds r) v;
  v ← Log (LogInteger uint32_t (timestamp r) kDecimal) v;
  v ← Log (LogString (s! "000")) v;
  v ← Log (LogString (GetStringView ecu_id)) v;
  v ← Log (LogString (GetStringView (app_id e))) v;
  v ← Log (LogString (GetStringView (ctx_id e))) v;
  v ← Log (LogString (s! "log")) v;
  v ← LogLevelToString (log_level e) v;
  v ← Log (LogString (s! "verbose")) v;
  Log (LogInteger uint8_t (num_of_args e) kDecimal) v.

Definition SetNextMessage (slot : nat) (d : SlotDrainer) : outcome SlotDrainer :=
  let m := message_builder_ d in
  let o := world_ d in
  e ← CircularAllocator.GetUnderlyingBufferFor (allocator_ d) slot;
  v ← put_header (ecu_id_ m) (clock (clock_calls o)) e (header_payload_ m);
  let d := with_world {| file := file o; write_calls := write_calls o; clock_calls := S (clock_calls o) |} d in
  Ret (with_builder {| log_record_ := Some slot; header_payload_ := v; parsing_phase_ := kHeader;
                       ecu_id_ := ecu_id_ m |} d).

Definition write_payload (slot : nat) (v : ByteVector) (e : LogEntry) (d : SlotDrainer) : outcome SlotDrainer :=
  a ← CircularAllocator.WriteUnderlyingBuffer (allocator_ d) slot (set_payload v e);
  Ret (with_allocator a d).

Definition GetNextSpan (d : SlotDrainer) : outcome (SlotDrainer * option span) :=
  let m := message_builder_ d in
  match log_record_ m with
  | None => Ret (d, None)
  | Some slot =>
      e ← CircularAllocator.GetUnderlyingBufferFor (allocator_ d) slot;
      match parsing_phase_ m with
      | kHeader =>
          let d := with_builder (set_phase kPayload m) d in
          Ret (d, Some (HeaderSpan (Z.of_nat (length (GetSpan (header_payload_ m))))))
      | kPayload =>
          let d := with_builder (set_phase kReinitialize m) d in
          v ← TerminateLog (payload e);
          d ← write_payload slot v e d;
          Ret (d, Some (PayloadSpan slot (Z.of_nat (length (GetSpan v)))))
      | kReinitialize =>
          let d := with_builder {| log_record_ := None; header_payload_ := Reset (header_payload_ m);
                                   parsing_phase_ := kHeader; ecu_id_ := ecu_id_ m |} d in
          d ← write_payload slot (Reset (payload e)) e d;
          Ret (d, None)
      end
  end.

(** ** SlotDrainer *)

Inductive FlushResult := kAllDataProcessed | kPartiallyProcessed | kNumberOfProcessedSlotsExceeded.

Definition MoreSpansAvailableAndLoaded (d : SlotDrainer) : outcome (SlotDrainer * bool) :=
  '(d, s) ← GetNextSpan d;
  match s with
  | Some s => Ret (with_writer (SetSpan s (non_blocking_writer_ d)) d, true)
  | None => Ret (d, false)
  end.

(** The do-while loop; an error is [None]. *)
Fixpoint TryFlushSpans (fuel : nat) (d : SlotDrainer) : outcome (SlotDrainer * option FlushResult) :=
  match fuel with
  | O => Undefined
  | S fuel =>
      '(d, status) ← FlushIntoFile d;
      match status with
      | Some kDone =>
          '(d, more) ← MoreSpansAvailableAndLoaded d;
          if more : bool then TryFlushSpans fuel d else Ret (d, Some kAllDataProcessed)
      | Some kWouldBlock => Ret (d, Some kPartiallyProcessed)
      | None => Ret (d, None)
      end
  end.

(** The slot that a reference into the queue names. *)
Definition referenced_slot (pos : nat) (q : queue) : outcome nat :=
  match bytes q !! pos with
  | Some h => Z.to_nat <$> SlotHandle.GetSlotOfSelectedRecorder h
  | None => Undefined
  end.

Definition MoreSlotsAvailableAndLoaded (d : SlotDrainer) : outcome (SlotDrainer * bool) :=
  let q := circular_buffer_ d in
  if CircularBuffer.empty (elements q) then Ret (d, false)
  else
    reference_to_slot ← CircularBuffer.front kMaxCircularBufferSize level this (elements q);
    b ← CircularBuffer.pop_front kMaxCircularBufferSize level this (elements q);
    let q := with_elements b q in
    let d := with_current (Some reference_to_slot) (with_queue q d) in
    slot ← referenced_slot reference_to_slot q;
    d ← SetNextMessage slot d;
    Ret (d, true).

(** No message has more than three rounds: the rest of a span, the header and
    the payload. *)
Definition span_rounds : nat := 4.

Definition release_current (d : SlotDrainer) : outcome SlotDrainer :=
  match current_slot_ d with
  | Some pos =>
      slot ← referenced_slot pos (circular_buffer_ d);
      a ← CircularAllocator.ReleaseSlot (allocator_ d) slot;
      Ret (with_current None (with_allocator a d))
  | None => Ret d
  end.

Fixpoint TryFlushSlots_loop (fuel : nat) (number_of_processed_slots : Z) (d : SlotDrainer) :
    outcome (SlotDrainer * option FlushResult) :=
  match fuel with
  | O => Undefined
  | S fuel =>
      '(d, status) ← TryFlushSpans span_rounds d;
      match status with
      | None | Some kPartiallyProcessed => Ret (d, status)
      | _ =>
          d ← release_current d;
          if limit_slots_in_one_cycle_ d <? number_of_processed_slots
          then Ret (d, Some kNumberOfProcessedSlotsExceeded)
          else
            let number_of_processed_slots := u64 (number_of_processed_slots + 1) in
            '(d, more) ← MoreSlotsAvailableAndLoaded d;
            if more : bool then TryFlushSlots_loop fuel number_of_processed_slots d
            else Ret (d, Some kAllDataProcessed)
      end
  end.

(** The limit bounds the number of rounds. *)
Definition TryFlushSlots (d : SlotDrainer) : outcome (SlotDrainer * option FlushResult) :=
  TryFlushSlots_loop (Z.to_nat (limit_slots_in_one_cycle_ d) + 3) 0 d.

(** The two public functions hold the mutex. *)
Definition PushBack (slot : SlotHandle.SlotHandle) (d : SlotDrainer) : outcome SlotDrainer :=
  let q := circular_buffer_ d in
  b ← CircularBuffer.push_back kMaxCircularBufferSize level this (elements q) (CircularBuffer.Outside slot);
  Ret (with_queue (with_elements b q) d).

Definition Flush (d : SlotDrainer) : outcome SlotDrainer := fst <$> TryFlushSlots d.

(** [~SlotDrainer]. *)
Definition destroy_SlotDrainer (d : SlotDrainer) : outcome SlotDrainer := Flush d.

Definition make_SlotDrainer (m : TextMessageBuilder) (a : CircularAllocator.allocator LogEntry)
    (limit_slots_in_one_cycle : Z) : SlotDrainer :=
  {| allocator_ := a; message_builder_ := m;
     circular_buffer_ := {| elements := CircularBuffer.destructor_base kMaxCircularBufferSize;
                            bytes := replicate (Z.to_nat kMaxCircularBufferSize) SlotHandle.default_ |};
     current_slot_ := None; non_blocking_writer_ := make_NonBlockingWriter GetMaxChunkSize;
     limit_slots_in_one_cycle_ := limit_slots_in_one_cycle;
     world_ := {| file := []; write_calls := 0; clock_calls := 0 |} |}.

End Environment.
End LogDrainer.
