(* ===== verification/LogDrainerSpec.v ===== *)
(** * What the drainer writes

    The bytes that were written and those that are pending make up the
    messages: writing in parts, errors of the system call and the limit on the
    slots of one cycle neither lose, repeat nor reorder a byte.  The lemmas
    follow the calls from [FlushIntoFile] up to [Flush]. *)

From S2P Require Import Prelude CppInt CppString CircularBuffer CircularBufferSpec CircularAllocator.
From S2P Require Import LogPayload LogFormat SlotHandle LogRecord LogDrainer.
Import LogPayload LogFormat LogRecord LogDrainer.

Local Open Scope Z_scope.

#[local] Opaque digits_text number_text.

Module LogDrainerSpec.

(** ** The queue *)

Abbreviation slot_of := (CircularBufferSpec.slot kMaxCircularBufferSize).
Abbreviation queue_head q := (CircularBuffer.head_ (elements q)).

Lemma HMax : 0 < kMaxCircularBufferSize < 2 ^ 63.
Proof. done. Qed.

(** The queue holds the handles [hs]. *)
Record queue_rep (q : queue) (hs : list SlotHandle.SlotHandle) : Prop := {
  rep_elements : CircularBufferSpec.represents kMaxCircularBufferSize (elements q) hs;
  rep_length : length (bytes q) = Z.to_nat kMaxCircularBufferSize;
  rep_bytes : ∀ i h, CircularBuffer.array_ (elements q) !! i = Some (Some h) → bytes q !! i = Some h;
}.

(** A reference to the last handle that was removed. *)
Definition held (q : queue) (pos : nat) (h : SlotHandle.SlotHandle) : Prop :=
  bytes q !! pos = Some h ∧ pos = slot_of (queue_head q) 1023.

Lemma overlay_lookup a old i o x :
  a !! i = Some o → old !! i = Some x → overlay a old !! i = Some (default x o).
Proof. intros Ha Ho. unfold overlay. by rewrite lookup_zip_with, Ha, Ho. Qed.

Lemma with_elements_rep b q hs :
  CircularBufferSpec.represents kMaxCircularBufferSize b hs →
  length (bytes q) = Z.to_nat kMaxCircularBufferSize → queue_rep (with_elements b q) hs.
Proof.
  intros Hb Hl. pose proof (CircularBufferSpec.rep_holds _ _ _ Hb) as [Ha _]. split; simpl.
  - done.
  - unfold overlay. rewrite length_zip_with. lia.
  - intros i h Hi. destruct (lookup_lt_is_Some_2 (bytes q) i) as [x Hx].
    { rewrite Hl, <- Ha. by eapply lookup_lt_Some. }
    by rewrite (overlay_lookup _ _ _ _ _ Hi Hx).
Qed.

Section Queue.
Variables (level : assert_level) (this : positive).

Lemma queue_push q hs h :
  queue_rep q hs → Z.of_nat (length hs) < kMaxCircularBufferSize →
  ∃ b, CircularBuffer.push_back kMaxCircularBufferSize level this (elements q) (CircularBuffer.Outside h) = Ret b
  ∧ queue_rep (with_elements b q) (hs ++ [h])
  ∧ (∀ pos h', held q pos h' → Z.of_nat (length hs) < 1023 → held (with_elements b q) pos h').
Proof.
  intros [Hr Hl Hb] Hlt. unfold CircularBuffer.push_back, CircularBuffer.emplace_back.
  rewrite (CircularBufferSpec.full_spec _ HMax _ _ Hr), bool_decide_eq_false_2 by lia.
  cbn [mbind outcome_bind CircularBuffer.load].
  pose proof Hr as [Ha Hh Hs Hbound Ht].
  destruct (CircularBufferSpec.construct_back _ HMax _ _ h Hr Hlt) as (b & E & Hrep). rewrite E.
  cbn [mbind outcome_bind]. eexists. split; [done|]. split; [by apply with_elements_rep|].
  assert (Z.to_nat (CircularBuffer.tail_ (elements q)) = slot_of (queue_head q) (length hs)) as Et.
  { unfold CircularBufferSpec.slot. by rewrite Ht, Hs. }
  rewrite Et, (CircularBufferSpec.construct_slot _ HMax _ _ _ _ Ha Hlt) in E. injection E as <-.
  intros pos h' [Hp Epos] Hlen. split; [|done]. cbn [with_elements bytes].
  destruct Ha as [Hal Ha].
  assert (CircularBuffer.array_ (elements q) !! pos = Some (hs !! 1023%nat)) as Hcell.
  { rewrite Epos. apply Ha. unfold kMaxCircularBufferSize. lia. }
  rewrite (overlay_lookup _ _ _ (hs !! 1023%nat) h'); [|cbn|done].
  - by rewrite (proj2 (lookup_ge_None _ _)) by lia.
  - rewrite list_lookup_insert_ne; [done|]. intros E. rewrite Epos in E.
    apply (CircularBufferSpec.slot_inj _ HMax) in E; unfold kMaxCircularBufferSize in *; lia.
Qed.

Lemma queue_pop q h hs :
  queue_rep q (h :: hs) →
  ∃ pos b, CircularBuffer.front kMaxCircularBufferSize level this (elements q) = Ret pos
  ∧ CircularBuffer.pop_front kMaxCircularBufferSize level this (elements q) = Ret b
  ∧ queue_rep (with_elements b q) hs ∧ held (with_elements b q) pos h.
Proof.
  intros [Hr Hl Hb]. pose proof Hr as [[Hal Ha] Hh Hs Hbound Ht].
  assert (CircularBuffer.array_ (elements q) !! slot_of (queue_head q) 0 = Some (Some h)) as H0.
  { rewrite Ha; [done|unfold kMaxCircularBufferSize; lia]. }
  destruct (CircularBufferSpec.pop_front_cons _ level HMax _ this _ _ Hr) as (b & E & Hr' & Earr).
  exists (slot_of (queue_head q) 0), b. split; [by eapply CircularBufferSpec.front_slot|]. split; [done|].
  split; [by apply with_elements_rep|]. split.
  - cbn [with_elements bytes]. rewrite (overlay_lookup _ _ _ None h); [done| |by apply Hb].
    rewrite Earr, list_lookup_insert_eq; [done|]. by eapply lookup_lt_Some.
  - cbn [with_elements elements].
    assert (CircularBuffer.head_ b = (queue_head q + 1) mod kMaxCircularBufferSize) as ->.
    { unfold CircularBuffer.pop_front in E.
      rewrite (CircularBufferSpec.empty_spec _ HMax _ _ Hr), bool_decide_eq_false_2 in E by done. cbn [negb] in E.
      rewrite (CircularBufferSpec.front_slot _ _ HMax _ _ _ _ Hr) in E. cbn [mbind outcome_bind] in E.
      unfold CircularBuffer.destroy_at in E. rewrite H0 in E. injection E as <-.
      cbn [CircularBuffer.set_size CircularBuffer.set_head CircularBuffer.set_array CircularBuffer.head_].
      unfold CircularBuffer.capacity, kMaxCircularBufferSize in *. by rewrite u64_id by lia. }
    rewrite (CircularBufferSpec.slot_next _ HMax) by lia. unfold CircularBufferSpec.slot, kMaxCircularBufferSize.
    f_equal. change (Z.of_nat 1024) with (1 * 1024). by rewrite Z.mod_add, Z.add_0_r by lia.
Qed.

End Queue.

(** ** The header of a message *)

Definition word (s : str) : str := match s with [] => [] | _ => s ++ [" "%char] end.
Definition number (v : Z) : str := number_text kDecimal v ++ [" "%char].

(** The text of a header; it always fits its buffer. *)
Definition header_text (ecu_id : LoggingIdentifier) (r : clock_reading) (e : LogEntry) : str :=
  default [] (time_str r) ++ number (static_cast uint32_t (Z.rem (milliseconds r) 10000000))
  ++ number (timestamp r) ++ word (s! "000") ++ word (GetStringView ecu_id) ++ word (GetStringView (app_id e))
  ++ word (GetStringView (ctx_id e)) ++ word (s! "log") ++ word (level_name (log_level e))
  ++ word (s! "verbose") ++ number (num_of_args e).

(** The format of the time has 20 characters; more would fit. *)
Definition clock_ok (r : clock_reading) : Prop := (length (default [] (time_str r)) <= 64)%nat.

(** At least [n] bytes are free. *)
Definition room (n : nat) (v : ByteVector) : Prop := payload_ok v ∧ (n <= free v)%nat.

Lemma append_room n v text : room (length text + n) v → room n (append v text).
Proof.
  intros [Hok Hf]. split; [apply payload_ok_app; [done|lia]|].
  unfold free, size, capacity, append in *. simpl. rewrite length_app. lia.
Qed.

Lemma room_weaken n m v : (m <= n)%nat → room n v → room m v.
Proof. intros Hm [Hok Hn]. split; [done|lia]. Qed.

Lemma append_append v a b : append (append v a) b = append v (a ++ b).
Proof. unfold append. simpl. by rewrite (assoc_L (++)). Qed.

Lemma fit_all n text : (length text < n)%nat → fit n text = text ++ [" "%char].
Proof. intros Hn. destruct n; [lia|]. simpl. by rewrite take_ge by lia. Qed.

(** One step of a sequence of writers that all have the room they need. *)
Lemma then_append (f g : ByteVector → outcome ByteVector) v n m text rest :
  room (n + m) v → (length text <= n)%nat →
  (room n v → f v = Ret (append v text)) →
  (∀ v', room m v' → g v' = Ret (append v' rest)) →
  (v' ← f v; g v') = Ret (append v (text ++ rest)).
Proof.
  intros Hv Ht Hf Hg. rewrite Hf by (by eapply room_weaken; [|done]; lia). cbn [mbind outcome_bind].
  rewrite Hg, append_append; [done|]. apply append_room. eapply room_weaken; [|done]. lia.
Qed.

Lemma log_word_spec s v : Z.of_nat (length s) < 2 ^ 31 - 1 → room (S (length s)) v → Log_string s v = Ret (append v (word s)).
Proof.
  intros Hs [Hok Hf]. rewrite Log_string_spec by done. unfold shown_string, word. destruct s; [done|].
  by rewrite fit_all by lia.
Qed.

Lemma word_length s : (length (word s) <= S (length s))%nat.
Proof. destruct s; simpl; [lia|]. rewrite length_app. simpl. lia. Qed.

Lemma number_length v : (length (number v) <= 24)%nat.
Proof. unfold number. rewrite length_app. pose proof (number_text_length kDecimal v). simpl. lia. Qed.

Lemma put_number_spec x v : room 24 v → PutFormattedNumber kDecimal x v = Ret (append v (number x)).
Proof.
  intros [Hok Hf]. pose proof (number_text_length kDecimal x) as Hl. unfold PutFormattedNumber.
  rewrite PutFormattedText_spec by (done || lia). by rewrite fit_all by lia.
Qed.

Lemma put_time_spec t v :
  room 65 v → (length (default [] t) <= 64)%nat →
  fst <$> Put (PutFormattedTimeData t) 0 v = Ret (append v (default [] t)).
Proof.
  intros [Hok Hf] Ht. change (granted v 0) with (free v).
  assert (PutFormattedTimeData t (replicate (free v) NUL)
    = Ret (default [] t ++ drop (length (default [] t)) (replicate (free v) NUL), Z.of_nat (length (default [] t)))) as E.
  { unfold PutFormattedTimeData. destruct t as [t|]; [|done]. change (default [] (Some t)) with t in *.
    rewrite length_replicate. by rewrite (proj2 (Nat.ltb_lt _ _)) by lia. }
  refine (Put_append _ _ _ _ _ _ Hok _ _ E _ _ _); change (granted v 0) with (free v); try lia.
  - rewrite length_app, length_drop, length_replicate. lia.
  - by rewrite Nat2Z.id, take_app_length.
Qed.

Lemma view_length i : (length (GetStringView i) <= 4)%nat.
Proof.
  assert (∀ s n, (strnlen s n <= n)%nat) as H.
  { induction s as [|c s IH]; intros [|n]; simpl; try lia. case_decide; [lia|]. specialize (IH n). lia. }
  unfold GetStringView. rewrite length_take. specialize (H (data i) kMaxLength). unfold kMaxLength in *. lia.
Qed.

Lemma level_name_length l : (length (level_name l) <= 9)%nat.
Proof. unfold level_name. repeat case_match; simpl; lia. Qed.

Lemma put_header_spec ecu r e v :
  room 250 v → clock_ok r → put_header ecu r e v = Ret (append v (header_text ecu r e)).
Proof.
  intros Hv Hr. unfold clock_ok in Hr.
  assert (∀ s k, (length s <= k)%nat → (k < 20)%nat → ∀ v, room (S k) v →
    Log_string s v = Ret (append v (word s))) as Hw.
  { intros s k Hs Hk v' Hv'. apply log_word_spec; [lia|]. eapply room_weaken; [|done]. lia. }
  assert (∀ x t v, room 24 v → Log (LogInteger t x kDecimal) v = Ret (append v (number x))) as Hn.
  { intros. by apply put_number_spec. }
  assert (∀ s k, (length s <= k)%nat → (length (word s) <= S k)%nat) as Hwl.
  { intros s k Hs. pose proof (word_length s). lia. }
  pose proof (view_length ecu). pose proof (view_length (app_id e)). pose proof (view_length (ctx_id e)).
  pose proof (level_name_length (log_level e)).
  unfold put_header, header_text. rewrite (assoc_L (++) (default [] (time_str r))).
  refine (then_append _ _ v 89 161 _ _ Hv _ _ _); [| |intros v1 Hv1].
  { rewrite length_app. pose proof (number_length (static_cast uint32_t (Z.rem (milliseconds r) 10000000))). lia. }
  { intros Hv0. unfold PutFormattedTime. apply (then_append (λ v, fst <$> Put (PutFormattedTimeData (time_str r)) 0 v) _ v 65 24); [done|lia| |].
    - intros ?. by apply put_time_spec.
    - intros v' Hv'. by apply put_number_spec. }
  refine (then_append _ _ v1 24 137 _ _ Hv1 (number_length _) (Hn _ _ v1) _); intros v2 Hv2.
  refine (then_append _ _ v2 4 133 _ _ Hv2 (Hwl _ 3%nat _) (Hw _ 3%nat _ _ v2) _); [done|done|lia|intros v3 Hv3].
  refine (then_append _ _ v3 5 128 _ _ Hv3 (Hwl _ 4%nat _) (Hw _ 4%nat _ _ v3) _); [done|done|lia|intros v4 Hv4].
  refine (then_append _ _ v4 5 123 _ _ Hv4 (Hwl _ 4%nat _) (Hw _ 4%nat _ _ v4) _); [done|done|lia|intros v5 Hv5].
  refine (then_append _ _ v5 5 118 _ _ Hv5 (Hwl _ 4%nat _) (Hw _ 4%nat _ _ v5) _); [done|done|lia|intros v6 Hv6].
  refine (then_append _ _ v6 4 114 _ _ Hv6 (Hwl _ 3%nat _) (Hw _ 3%nat _ _ v6) _); [done|done|lia|intros v7 Hv7].
  refine (then_append _ _ v7 10 104 _ _ Hv7 (Hwl _ 9%nat _) (Hw _ 9%nat _ _ v7) _); [done|done|lia|intros v8 Hv8].
  refine (then_append _ _ v8 8 96 _ _ Hv8 (Hwl _ 7%nat _) (Hw _ 7%nat _ _ v8) _); [done|done|lia|intros v9 Hv9].
  apply Hn. eapply room_weaken; [|done]. lia.
Qed.

Lemma header_text_length ecu r e : clock_ok r → (length (header_text ecu r e) <= 250)%nat.
Proof.
  unfold clock_ok, header_text. intros Hr. rewrite !length_app.
  repeat match goal with
  | |- context [length (number ?x)] => pose proof (number_length x); generalize dependent (length (number x)); intros
  | |- context [length (word ?x)] => pose proof (word_length x); generalize dependent (length (word x)); intros
  end.
  pose proof (view_length ecu). pose proof (view_length (app_id e)). pose proof (view_length (ctx_id e)).
  pose proof (level_name_length (log_level e)). simpl in *. lia.
Qed.

(** ** The state of a message *)

Definition entry_at (a : CircularAllocator.allocator LogEntry) (i : nat) : option LogEntry :=
  CircularAllocator.data_ <$> CircularAllocator.buffer_ a !! i.
Definition used_at (a : CircularAllocator.allocator LogEntry) (i : nat) : option bool :=
  CircularAllocator.in_use_ <$> CircularAllocator.buffer_ a !! i.

Definition entry_ok (e : LogEntry) : Prop := payload_ok (payload e) ∧ 0 <= num_of_args e <= 255.

Definition terminated (v : ByteVector) : ByteVector :=
  append v (if (free v =? 0)%nat then [] else [newline]).

Abbreviation flushed d := (number_of_flushed_bytes_ (non_blocking_writer_ d)).
Abbreviation to_flush d := (span_size (buffer_ (non_blocking_writer_ d))).
Abbreviation record d := (log_record_ (message_builder_ d)).
Abbreviation header d := (header_payload_ (message_builder_ d)).

(** What is left of the current message. *)
Definition pending (d : SlotDrainer) : str :=
  match record d with
  | None => []
  | Some slot =>
      match entry_at (allocator_ d) slot with
      | None => []
      | Some e =>
          match parsing_phase_ (message_builder_ d) with
          | kHeader => content (header d) ++ content (terminated (payload e))
          | kPayload => drop (Z.to_nat (flushed d)) (content (header d)) ++ content (terminated (payload e))
          | kReinitialize => drop (Z.to_nat (flushed d)) (content (payload e))
          end
      end
  end.

(** Where the writer is, by the phase of the builder. *)
Definition message_ok (d : SlotDrainer) : Prop :=
  match record d with
  | None => content (header d) = [] ∧ flushed d = to_flush d
  | Some slot =>
      ∃ e, entry_at (allocator_ d) slot = Some e ∧
      match parsing_phase_ (message_builder_ d) with
      | kHeader => flushed d = to_flush d
      | kPayload => buffer_ (non_blocking_writer_ d) = HeaderSpan (size (header d))
      | kReinitialize => buffer_ (non_blocking_writer_ d) = PayloadSpan slot (size (payload e))
      end
  end.

Record drainer_ok (d : SlotDrainer) : Prop := {
  ok_header : payload_ok (header d) ∧ capacity (header d) = kMaxHeaderSize;
  ok_entries : ∀ i e, entry_at (allocator_ d) i = Some e → entry_ok e;
  ok_chunk : 0 <= max_chunk_size_ (non_blocking_writer_ d) < 2 ^ 64;
  ok_flushed : 0 <= flushed d <= to_flush d ∧ to_flush d < 2 ^ 31;
  ok_done : buffer_flushed_ (non_blocking_writer_ d) = kDone → flushed d = to_flush d;
  ok_message : message_ok d;
}.

(** What the functions below [TryFlushSpans] leave alone. *)
Record frame (d d' : SlotDrainer) : Prop := {
  frame_queue : circular_buffer_ d' = circular_buffer_ d;
  frame_current : current_slot_ d' = current_slot_ d;
  frame_limit : limit_slots_in_one_cycle_ d' = limit_slots_in_one_cycle_ d;
  frame_ecu : ecu_id_ (message_builder_ d') = ecu_id_ (message_builder_ d);
  frame_clock : clock_calls (world_ d') = clock_calls (world_ d);
  frame_chunk : max_chunk_size_ (non_blocking_writer_ d') = max_chunk_size_ (non_blocking_writer_ d);
  frame_length : length (CircularAllocator.buffer_ (allocator_ d')) = length (CircularAllocator.buffer_ (allocator_ d));
  frame_sequence : CircularAllocator.claimed_sequence_ (allocator_ d') = CircularAllocator.claimed_sequence_ (allocator_ d);
  frame_used : ∀ i, used_at (allocator_ d') i = used_at (allocator_ d) i;
  frame_entries : ∀ i, record d ≠ Some i → entry_at (allocator_ d') i = entry_at (allocator_ d) i;
  frame_record : record d' = record d ∨ record d' = None;
}.

Lemma frame_refl d : frame d d.
Proof. by split; try left. Qed.

Lemma frame_trans d1 d2 d3 : frame d1 d2 → frame d2 d3 → frame d1 d3.
Proof.
  intros [] []. split; try congruence.
  - intros i Hi. rewrite frame_entries1; [by apply frame_entries0|]. destruct frame_record0 as [->| ->]; congruence.
  - destruct frame_record1 as [->| ->]; auto.
Qed.

Lemma frame_world d w o : max_chunk_size_ w = max_chunk_size_ (non_blocking_writer_ d) →
  clock_calls o = clock_calls (world_ d) → frame d (with_writer w (with_world o d)).
Proof. intros Hw Ho. split; try done. by left. Qed.

(** ** Payloads and slots *)

Lemma GetSpan_all v : payload_ok v → GetSpan v = content v.
Proof.
  intros [Hs Hc]. rewrite max_int32 in Hc. unfold GetSpan. change (static_cast uint64_t (max uint64_t)) with (2 ^ 64 - 1).
  rewrite Z.min_r by lia. unfold size. by rewrite Nat2Z.id, firstn_all.
Qed.

Lemma payload_small v : payload_ok v → (0 <= 0 <= Z.of_nat (length (content v))) ∧ Z.of_nat (length (content v)) < 2 ^ 31.
Proof. intros [Hs Hc]. rewrite max_int32 in Hc. unfold size in Hs. lia. Qed.

Lemma terminated_ok v : payload_ok v → payload_ok (terminated v).
Proof.
  intros Hv. apply payload_ok_app; [done|]. destruct (Nat.eqb_spec (free v) 0); simpl; lia.
Qed.

Lemma Reset_spec v : payload_ok v → Reset v = {| content := []; capacity_ := capacity_ v |}.
Proof.
  intros [Hs _]. unfold Reset, resize. cbn [Z.to_nat Nat.sub replicate take].
  assert (0 <= capacity_ v) by (unfold size, capacity in *; lia). by rewrite take_0, Z.max_l by lia.
Qed.

Lemma Reset_ok v : payload_ok v → payload_ok (Reset v).
Proof. intros Hv. rewrite Reset_spec by done. destruct Hv. unfold payload_ok, size, capacity in *. simpl. lia. Qed.

Lemma entry_read a slot e :
  entry_at a slot = Some e → CircularAllocator.GetUnderlyingBufferFor a slot = Ret e.
Proof.
  unfold entry_at, CircularAllocator.GetUnderlyingBufferFor, CircularAllocator.at_.
  destruct (CircularAllocator.buffer_ a !! slot); [|done]. by intros [= <-].
Qed.

(** A change of one slot. *)
Lemma set_slot_spec a i s s' :
  CircularAllocator.buffer_ a !! i = Some s →
  let a' := CircularAllocator.set_slot a i s' in
  (∀ j, entry_at a' j = if decide (j = i) then Some (CircularAllocator.data_ s') else entry_at a j)
  ∧ (∀ j, used_at a' j = if decide (j = i) then Some (CircularAllocator.in_use_ s') else used_at a j)
  ∧ length (CircularAllocator.buffer_ a') = length (CircularAllocator.buffer_ a).
Proof.
  intros Hi. unfold entry_at, used_at. simpl. rewrite length_insert.
  assert (i < length (CircularAllocator.buffer_ a))%nat by by eapply lookup_lt_Some.
  split; [|split; [|done]]; intros j; case_decide; subst; by rewrite ?list_lookup_insert_eq, ?list_lookup_insert_ne.
Qed.

Lemma entry_write a slot e e' :
  entry_at a slot = Some e →
  ∃ a', CircularAllocator.WriteUnderlyingBuffer a slot e' = Ret a'
  ∧ (∀ i, entry_at a' i = if decide (i = slot) then Some e' else entry_at a i)
  ∧ (∀ i, used_at a' i = used_at a i)
  ∧ length (CircularAllocator.buffer_ a') = length (CircularAllocator.buffer_ a)
  ∧ CircularAllocator.claimed_sequence_ a' = CircularAllocator.claimed_sequence_ a.
Proof.
  unfold entry_at at 1. destruct (CircularAllocator.buffer_ a !! slot) as [s|] eqn:Hs; [|done]. intros _.
  unfold CircularAllocator.WriteUnderlyingBuffer, CircularAllocator.at_. rewrite Hs. cbn [mbind outcome_bind].
  eexists. split; [done|]. destruct (set_slot_spec a slot s (CircularAllocator.SetData e' s) Hs) as (He & Hu & Hl).
  split; [done|]. split; [|done]. intros i. rewrite Hu. case_decide; [|done]. subst. unfold used_at. by rewrite Hs.
Qed.

(** ** FlushIntoFile *)

(** The span that is being written, and what follows it. *)
Lemma span_spec d :
  drainer_ok d → flushed d < to_flush d →
  ∃ b rest, span_bytes d = Ret b ∧ Z.of_nat (length b) = to_flush d
  ∧ ∀ w o, buffer_ w = buffer_ (non_blocking_writer_ d) →
    pending (with_writer w (with_world o d)) = drop (Z.to_nat (number_of_flushed_bytes_ w)) b ++ rest
    ∧ message_ok (with_writer w (with_world o d)).
Proof.
  intros [Hh He Hc Hf _ Hm] Hlt. unfold message_ok in Hm.
  destruct (record d) as [slot|] eqn:Er; [|destruct Hm; lia]. destruct Hm as (e & Ee & Hm).
  unfold span_bytes, pending, message_ok. cbn [message_builder_ allocator_ non_blocking_writer_ with_writer with_world].
  rewrite Er, Ee. destruct (parsing_phase_ (message_builder_ d)) eqn:Ep; [lia|..]; rewrite Hm.
  - exists (content (header d)), (content (terminated (payload e))).
    cbn [span_size]. unfold size. rewrite Z.ltb_irrefl, Nat2Z.id, firstn_all. split; [done|]. split; [done|].
    intros w o Hw. split; [done|]. exists e. split; [done|]. by rewrite Hw.
  - exists (content (payload e)), []. unfold entry_at in Ee.
    destruct (CircularAllocator.buffer_ (allocator_ d) !! slot) as [s|] eqn:Es; [|done]. simplify_eq/=.
    unfold CircularAllocator.GetUnderlyingBufferFor, CircularAllocator.at_. rewrite Es. simpl.
    unfold size. rewrite Z.ltb_irrefl, Nat2Z.id, firstn_all. split; [done|]. split; [done|].
    intros w o Hw. split; [by rewrite app_nil_r|]. eexists. split; [done|]. by rewrite Hw.
Qed.

Section Environment.
Variables (write_result : nat → Z → option Z) (clock : nat → clock_reading).
Variables (level : assert_level) (this : positive).

(** [write] reports at most as many bytes as it was given. *)
Hypothesis Hwrite : ∀ k n m, 0 <= n → write_result k n = Some m → 0 <= m <= n.
Hypothesis Hclock : ∀ k, clock_ok (clock k).

Abbreviation FlushIntoFile := (FlushIntoFile write_result).
Abbreviation TryFlushSpans := (TryFlushSpans write_result).

(** The call succeeds for a system call that takes all it is given. *)
Definition writes_all (d : SlotDrainer) : Prop :=
  (∀ k n, 0 <= n → write_result k n = Some n) ∧ 2 ^ 31 <= max_chunk_size_ (non_blocking_writer_ d).

(** All bytes of the span are written: there is nothing to do. *)
Lemma done_spec d :
  drainer_ok d → to_flush d <= flushed d →
  ∃ d' r, FlushIntoFile d = Ret (d', r) ∧ drainer_ok d' ∧ frame d d'
  ∧ file (world_ d') ++ pending d' = file (world_ d) ++ pending d
  ∧ (r = Some kDone → flushed d' = to_flush d')
  ∧ message_builder_ d' = message_builder_ d
  ∧ (writes_all d → r = Some kDone).
Proof.
  intros Hok Hge. pose proof Hok as [Hh He Hc Hf Hd Hm]. unfold LogDrainer.FlushIntoFile, InternalFlush.
  rewrite (proj2 (Z.ltb_ge _ _)) by lia.
  cbn [mbind outcome_bind]. rewrite (proj2 (Z.eqb_eq _ _)) by lia.
  set (w := {| number_of_flushed_bytes_ := _; buffer_ := _; buffer_flushed_ := _; max_chunk_size_ := _ |}).
  exists (with_writer w (with_world (world_ d) d)), (Some kDone). split; [by destruct d|].
  split; [split; try done; cbn; lia|]. split; [by apply frame_world|].
  split; [done|]. split; [intros _; cbn; lia|done].
Qed.

Lemma FlushIntoFile_spec d :
  drainer_ok d →
  ∃ d' r, FlushIntoFile d = Ret (d', r) ∧ drainer_ok d' ∧ frame d d'
  ∧ file (world_ d') ++ pending d' = file (world_ d) ++ pending d
  ∧ (r = Some kDone → flushed d' = to_flush d')
  ∧ message_builder_ d' = message_builder_ d
  ∧ (writes_all d → r = Some kDone).
Proof using Hwrite.
  intros Hok. destruct (Z.ltb_spec (flushed d) (to_flush d)) as [Hlt|Hge]; [|by apply done_spec].
  pose proof Hok as [Hh He Hc Hf Hd Hm]. unfold LogDrainer.FlushIntoFile, InternalFlush.
  rewrite (u64_id (to_flush d - flushed d)) by lia. rewrite (proj2 (Z.ltb_lt _ _)) by done.
  destruct (span_spec d Hok Hlt) as (b & rest & -> & Hb & Hp). cbn [mbind outcome_bind].
  set (n := if max_chunk_size_ (non_blocking_writer_ d) <=? to_flush d - flushed d
    then max_chunk_size_ (non_blocking_writer_ d) else to_flush d - flushed d).
  assert (0 <= n <= to_flush d - flushed d) as Hn by (unfold n; case_match; reflect_bool; lia).
  set (data := take (Z.to_nat n) (drop (Z.to_nat (flushed d)) b)).
  assert (Z.of_nat (length data) = n) as Hdata.
  { unfold data. rewrite length_take, length_drop. lia. }
  assert (pending d = drop (Z.to_nat (flushed d)) b ++ rest) as Hpend.
  { destruct (Hp (non_blocking_writer_ d) (world_ d) eq_refl) as [<- _]. by destruct d. }
  unfold write. rewrite Hdata.
  destruct (write_result (write_calls (world_ d)) n) as [m|] eqn:Er.
  - apply Hwrite in Er as Hm'; [|lia]. rewrite (u64_id m), u64_id by lia.
    cbn [mbind outcome_bind non_blocking_writer_ with_writer with_world number_of_flushed_bytes_ buffer_
      buffer_flushed_ max_chunk_size_].
    set (f := if flushed d + m =? to_flush d then kDone else buffer_flushed_ (non_blocking_writer_ d)).
    assert (f = kDone → flushed d + m = to_flush d) as Hdone.
    { unfold f. destruct (Z.eqb_spec (flushed d + m) (to_flush d)); [done|]. intros Hd'%Hd. lia. }
    set (w := {| number_of_flushed_bytes_ := flushed d + m; buffer_ := buffer_ (non_blocking_writer_ d);
      buffer_flushed_ := f; max_chunk_size_ := max_chunk_size_ (non_blocking_writer_ d) |}).
    set (o := {| file := _; write_calls := _; clock_calls := _ |}).
    destruct (Hp w o eq_refl) as [Hp1 Hp2]. exists (with_writer w (with_world o d)), (Some f).
    split; [done|]. split; [split; try done; cbn; lia|]. split; [by apply frame_world|].
    split; [|split; [intros [= E]; by apply Hdone|split; [done|]]].
    + rewrite Hp1, Hpend. cbn [world_ with_writer with_world file o].
      rewrite <- !(assoc_L (++)). f_equal. rewrite (assoc_L (++)). f_equal.
      cbn [w number_of_flushed_bytes_]. unfold data. rewrite take_take, Nat.min_l by lia.
      rewrite Z2Nat.inj_add, <- drop_drop by lia. apply take_drop.
    + intros [Hall Hchunk]. rewrite Hall in Er by lia. injection Er as <-. unfold f.
      rewrite (proj2 (Z.eqb_eq _ _)); [done|]. unfold n. rewrite (proj2 (Z.leb_gt _ _)) by lia. lia.
  - cbn [mbind outcome_bind]. set (o := {| file := _; write_calls := _; clock_calls := _ |}).
    destruct (Hp (non_blocking_writer_ d) o eq_refl) as [Hp1 Hp2].
    exists (with_writer (non_blocking_writer_ d) (with_world o d)), None. split; [done|].
    split; [by split|]. split; [by apply frame_world|]. split; [|split; [done|split; [done|]]].
    + rewrite Hp1, Hpend. cbn [world_ with_writer with_world file o]. by rewrite app_nil_r.
    + intros [Hall _]. rewrite Hall in Er by lia. done.
Qed.

(** ** The next span *)

(** How many more spans the builder can give. *)
Definition rounds (d : SlotDrainer) : nat :=
  match record d with
  | None => 0
  | Some _ => match parsing_phase_ (message_builder_ d) with kHeader => 3 | kPayload => 2 | kReinitialize => 1 end
  end.

Lemma MoreSpans_spec d :
  drainer_ok d → flushed d = to_flush d →
  ∃ d' more, MoreSpansAvailableAndLoaded d = Ret (d', more) ∧ drainer_ok d' ∧ frame d d'
  ∧ world_ d' = world_ d ∧ pending d' = pending d
  ∧ (if more : bool then (rounds d' < rounds d)%nat else record d' = None).
Proof.
  intros [Hh He Hc Hf Hd Hm] Hfl. pose proof Hm as Hm0.
  unfold message_ok in Hm. unfold MoreSpansAvailableAndLoaded, GetNextSpan, pending, rounds.
  destruct (record d) as [slot|] eqn:Er.
  2: { cbn [mbind outcome_bind]. exists d, false. rewrite Er. split; [done|].
       split; [by split|]. split; [apply frame_refl|]. done. }
  destruct Hm as (e & Ee & Hm). rewrite (entry_read _ _ _ Ee), Ee. cbn [mbind outcome_bind].
  destruct (He _ _ Ee) as [Hpay Hargs]. pose proof Hh as [Hhok Hhcap].
  destruct (parsing_phase_ (message_builder_ d)) eqn:Ep.
  - cbn [mbind outcome_bind]. rewrite GetSpan_all by done. eexists _, true. split; [done|].
    split; [|split; [split; try done; by left|]].
    + split; try done.
      * exact (payload_small _ Hhok).
      * unfold message_ok. cbn. rewrite Er. by exists e.
    + cbn. rewrite Er, Ee. split; [done|]. split; [by rewrite drop_0|lia].
  - rewrite TerminateLog_refines by done. fold (terminated (payload e)). cbn [mbind outcome_bind].
    unfold write_payload. cbn [allocator_ with_builder].
    destruct (entry_write (allocator_ d) slot e (set_payload (terminated (payload e)) e) Ee)
      as (a' & -> & Ha & Hu & Hl & Hq). cbn [mbind outcome_bind].
    pose proof (terminated_ok _ Hpay) as Htok. rewrite GetSpan_all by done.
    assert (entry_at a' slot = Some (set_payload (terminated (payload e)) e)) as Ea by by rewrite Ha, decide_True.
    eexists _, true. split; [done|]. split; [|split].
    + split; try done.
      * intros i e' Hi. cbn in Hi. rewrite Ha in Hi. case_decide; [|by eapply He]. by simplify_eq.
      * exact (payload_small _ Htok).
      * unfold message_ok. cbn. rewrite Er. eexists. split; [done|]. done.
    + split; try done; [|by left]. intros i Hi. cbn. rewrite Ha, decide_False; [done|congruence].
    + cbn. rewrite Er, Ea. split; [done|]. split; [|lia].
      rewrite drop_0. rewrite Hfl, Hm. cbn [span_size]. unfold size. rewrite Nat2Z.id, drop_all. done.
  - unfold write_payload. cbn [allocator_ with_builder].
    destruct (entry_write (allocator_ d) slot e (set_payload (Reset (payload e)) e) Ee)
      as (a' & -> & Ha & Hu & Hl & Hq). cbn [mbind outcome_bind].
    eexists _, false. split; [done|]. split; [|split].
    + split; try done.
      * split; [by apply Reset_ok|]. change (capacity (Reset (header d)) = kMaxHeaderSize). by rewrite Reset_spec.
      * intros i e' Hi. cbn in Hi. rewrite Ha in Hi. case_decide; [|by eapply He]. simplify_eq.
        split; [by apply Reset_ok|done].
    + split; try done; [|by right]. intros i Hi. cbn. rewrite Ha, decide_False; [done|congruence].
    + cbn. split; [done|]. split; [|done]. rewrite Hfl, Hm. cbn [span_size]. unfold size. by rewrite Nat2Z.id, drop_all.
Qed.

Lemma rounds_bound d : (rounds d <= 3)%nat.
Proof. unfold rounds. destruct (record d); [|lia]. case_match; lia. Qed.

Lemma TryFlushSpans_spec fuel d :
  drainer_ok d → (rounds d < fuel)%nat →
  ∃ d' r, TryFlushSpans fuel d = Ret (d', r) ∧ drainer_ok d' ∧ frame d d'
  ∧ file (world_ d') ++ pending d' = file (world_ d) ++ pending d
  ∧ (r = Some kAllDataProcessed ∧ record d' = None ∨ r = Some kPartiallyProcessed ∨ r = None)
  ∧ (writes_all d → r = Some kAllDataProcessed).
Proof using Hwrite.
  revert d. induction fuel as [|fuel IH]; intros d Hok Hr; [lia|]. cbn [LogDrainer.TryFlushSpans].
  destruct (FlushIntoFile_spec d Hok) as (d1 & r1 & -> & Hok1 & Hf1 & Hp1 & Hd1 & Hb1 & Hall). cbn [mbind outcome_bind].
  destruct r1 as [[|]|].
  - exists d1, (Some kPartiallyProcessed). repeat split_and; try done; auto. intros H%Hall. done.
  - destruct (MoreSpans_spec d1 Hok1 (Hd1 eq_refl)) as (d2 & more & -> & Hok2 & Hf2 & Hw2 & Hp2 & Hm2).
    cbn [mbind outcome_bind]. pose proof (frame_trans _ _ _ Hf1 Hf2) as Hf.
    assert (file (world_ d2) ++ pending d2 = file (world_ d) ++ pending d) as Hp by by rewrite Hw2, Hp2.
    destruct more.
    + destruct (IH d2 Hok2) as (d3 & r3 & E & Hok3 & Hf3 & Hp3 & Hr3 & Hall3).
      { unfold rounds in Hm2, Hr |- *. rewrite Hb1 in Hm2. lia. }
      exists d3, r3. split; [done|]. split; [done|]. split; [by eapply frame_trans|]. split; [by rewrite Hp3|].
      split; [done|]. intros [Hw Hc]. apply Hall3. split; [done|]. by rewrite (frame_chunk _ _ Hf).
    + exists d2, (Some kAllDataProcessed). repeat split_and; try done; auto.
  - exists d1, None. repeat split_and; try done; auto. intros H%Hall. done.
Qed.

(** ** Slots and messages *)

(** A slot of the file descriptor's recorder. *)
Definition handle (i : nat) : SlotHandle.SlotHandle := SlotHandle.make (Z.of_nat i).

(** The slots that are in use: the one being written ([cur]), the queued ones
    ([qs]) and those of messages that are not finished ([open]). *)
Record backend_inv (d : SlotDrainer) (cur : option nat) (qs open : list nat) : Prop := {
  inv_ok : drainer_ok d;
  inv_queue : queue_rep (circular_buffer_ d) (handle <$> qs);
  inv_current :
    match current_slot_ d, cur with
    | Some pos, Some i => held (circular_buffer_ d) pos (handle i)
    | None, None => True
    | _, _ => False
    end;
  inv_record : record d = None ∨ record d = cur;
  inv_nodup : NoDup (option_list cur ++ qs ++ open);
  inv_used : ∀ i, used_at (allocator_ d) i = Some true ↔ i ∈ option_list cur ++ qs ++ open;
  inv_size : (0 < length (CircularAllocator.buffer_ (allocator_ d)) <= 1024)%nat;
  inv_sequence : 0 <= CircularAllocator.claimed_sequence_ (allocator_ d) < 2 ^ 64;
  inv_limit : 0 <= limit_slots_in_one_cycle_ d < 2 ^ 32;
}.

(** The text of a message, and of messages in the order of their slots. *)
Definition message (ecu_id : LoggingIdentifier) (r : clock_reading) (e : LogEntry) : str :=
  header_text ecu_id r e ++ content (terminated (payload e)).

Fixpoint messages (ecu_id : LoggingIdentifier) (k : nat) (es : list LogEntry) : str :=
  match es with
  | [] => []
  | e :: es => message ecu_id (clock k) e ++ messages ecu_id (S k) es
  end.

Abbreviation ecu d := (ecu_id_ (message_builder_ d)).
Abbreviation clocks d := (clock_calls (world_ d)).

Definition entries (d : SlotDrainer) (qs : list nat) (es : list LogEntry) : Prop :=
  Forall2 (λ i e, entry_at (allocator_ d) i = Some e) qs es.

Lemma messages_app ecu_id k es es' :
  messages ecu_id k (es ++ es') = messages ecu_id k es ++ messages ecu_id (k + length es) es'.
Proof.
  revert k. induction es as [|e es IH]; intros k; simpl; [by rewrite Nat.add_0_r|].
  by rewrite IH, (assoc_L (++)), <- Nat.add_succ_comm.
Qed.

Lemma referenced_handle q pos i : held q pos (handle i) → referenced_slot pos q = Ret i.
Proof.
  intros [Hp _]. unfold referenced_slot. rewrite Hp. unfold handle.
  change (SlotHandle.GetSlotOfSelectedRecorder (SlotHandle.make (Z.of_nat i))) with (Ret (Z.of_nat i)).
  cbn [fmap outcome_fmap]. by rewrite Nat2Z.id.
Qed.

(** There are at most as many slots in use as there are slots. *)
Lemma used_length d cur qs open :
  backend_inv d cur qs open → (length (option_list cur ++ qs ++ open) <= 1024)%nat.
Proof.
  intros []. etrans; [|apply inv_size0].
  rewrite <- (length_seq (length (CircularAllocator.buffer_ (allocator_ d))) 0).
  apply submseteq_length, NoDup_submseteq; [done|]. intros i Hi. apply inv_used0 in Hi.
  apply elem_of_seq. unfold used_at in Hi. destruct (CircularAllocator.buffer_ _ !! i) eqn:E; [|done].
  apply lookup_lt_Some in E. lia.
Qed.

Lemma backend_inv_frame d d' cur qs open :
  backend_inv d cur qs open → drainer_ok d' → frame d d' → backend_inv d' cur qs open.
Proof.
  intros [] Hok []. split; try done.
  - by rewrite frame_queue0.
  - by rewrite frame_current0, frame_queue0.
  - destruct frame_record0 as [->| ->]; auto.
  - intros i. by rewrite frame_used0.
  - by rewrite frame_length0.
  - by rewrite frame_sequence0.
  - by rewrite frame_limit0.
Qed.

Lemma entries_impl d d' qs es :
  (∀ i, i ∈ qs → entry_at (allocator_ d') i = entry_at (allocator_ d) i) → entries d qs es → entries d' qs es.
Proof.
  intros Hq He. unfold entries in *. induction He as [|i e qs es Hi He IH]; constructor.
  - rewrite Hq; [done|left].
  - apply IH. intros j Hj. apply Hq. by right.
Qed.

Lemma pending_none d : record d = None → pending d = [].
Proof. unfold pending. by intros ->. Qed.

Lemma release_current_spec d cur qs open :
  backend_inv d cur qs open → record d = None →
  ∃ d', release_current d = Ret d' ∧ backend_inv d' None qs open ∧ record d' = None
  ∧ world_ d' = world_ d ∧ ecu d' = ecu d ∧ limit_slots_in_one_cycle_ d' = limit_slots_in_one_cycle_ d
  ∧ non_blocking_writer_ d' = non_blocking_writer_ d
  ∧ (∀ i, entry_at (allocator_ d') i = entry_at (allocator_ d) i).
Proof.
  clear Hwrite write_result. intros Hinv Hr. pose proof Hinv as []. unfold release_current.
  destruct (current_slot_ d) as [pos|] eqn:Ec; destruct cur as [i|]; try done.
  2: { exists d. by repeat split_and. }
  rewrite (referenced_handle _ _ _ inv_current0). cbn [mbind outcome_bind].
  assert (used_at (allocator_ d) i = Some true) as Hi by (apply inv_used0; simpl; left).
  unfold used_at in Hi. destruct (CircularAllocator.buffer_ (allocator_ d) !! i) as [s|] eqn:Es; [|done].
  unfold CircularAllocator.ReleaseSlot, CircularAllocator.at_. rewrite Es. cbn [mbind outcome_bind].
  destruct (set_slot_spec (allocator_ d) i s (CircularAllocator.Release s) Es) as (He & Hu & Hl).
  assert (∀ j, entry_at (CircularAllocator.set_slot (allocator_ d) i (CircularAllocator.Release s)) j
    = entry_at (allocator_ d) j) as He'.
  { intros j. rewrite He. case_decide; [|done]. subst. unfold entry_at. by rewrite Es. }
  simpl in inv_nodup0. apply NoDup_cons in inv_nodup0 as [Hni Hnd].
  eexists. split; [done|]. split; [|by repeat split_and]. destruct inv_ok0. split; try done.
  - split; try done.
    + intros j e Hj. cbn in Hj. rewrite He' in Hj. by eapply ok_entries0.
    + unfold message_ok in *. cbn. rewrite Hr in *. done.
  - by left.
  - intros j. cbn [allocator_ with_current with_allocator]. rewrite Hu. simpl. case_decide as Hj.
    + subst j. simpl. split; [done|]. by intros H%Hni.
    + rewrite inv_used0. simpl. rewrite elem_of_cons. naive_solver.
  - cbn [allocator_ with_current with_allocator]. by rewrite Hl.
Qed.

Lemma MoreSlots_spec d qs open es :
  backend_inv d None qs open → record d = None → entries d qs es →
  ∃ d', MoreSlotsAvailableAndLoaded clock level this d = Ret (d', bool_decide (qs ≠ []))
  ∧ backend_inv d' (head qs) (tail qs) open
  ∧ file (world_ d') = file (world_ d) ∧ pending d' = messages (ecu d) (clocks d) (take 1 es)
  ∧ clocks d' = (clocks d + length (take 1 es))%nat ∧ ecu d' = ecu d
  ∧ limit_slots_in_one_cycle_ d' = limit_slots_in_one_cycle_ d
  ∧ non_blocking_writer_ d' = non_blocking_writer_ d
  ∧ (∀ i, entry_at (allocator_ d') i = entry_at (allocator_ d) i).
Proof using Hclock.
  intros Hinv Hr Hes. pose proof Hinv as []. unfold MoreSlotsAvailableAndLoaded.
  rewrite (CircularBufferSpec.empty_spec _ HMax _ _ (rep_elements _ _ inv_queue0)).
  destruct Hes as [|i e qs es Hi Hes].
  { rewrite bool_decide_eq_true_2 by done. exists d. rewrite pending_none by done. simpl.
    rewrite Nat.add_0_r. by repeat split_and. }
  rewrite bool_decide_eq_false_2 by done.
  destruct (queue_pop level this _ _ _ inv_queue0) as (pos & b & -> & -> & Hq & Hheld). cbn [mbind outcome_bind].
  rewrite (referenced_handle _ _ _ Hheld). cbn [mbind outcome_bind]. unfold SetNextMessage.
  cbn [allocator_ message_builder_ world_ with_current with_queue]. rewrite (entry_read _ _ _ Hi). cbn [mbind outcome_bind].
  destruct inv_ok0. destruct ok_header0 as [Hh Hcap].
  assert (content (header d) = [] ∧ flushed d = to_flush d) as [Hempty Hfl].
  { unfold message_ok in ok_message0. by rewrite Hr in ok_message0. }
  assert (room 512 (header d)) as Hroom.
  { split; [done|]. unfold free, size. rewrite Hcap, Hempty. done. }
  rewrite put_header_spec; [|by eapply room_weaken; [|done]; lia|done]. cbn [mbind outcome_bind].
  assert (length (header_text (ecu d) (clock (clocks d)) e) <= 250)%nat as Hlen.
  { by apply header_text_length. }
  eexists. split; [by rewrite bool_decide_eq_true_2|]. split; [|repeat split_and; try done].
  - split; try done.
    + split; try done.
      * cbn. split; [|done]. apply payload_ok_app; [done|]. destruct Hroom. lia.
      * cbn. by exists e.
    + by right.
  - unfold pending. cbn [with_builder with_world with_current with_queue message_builder_ log_record_ allocator_
      parsing_phase_ header_payload_]. rewrite Hi. cbn [append content]. rewrite Hempty, firstn_cons, take_0.
    cbn [messages app]. by rewrite app_nil_r.
  - rewrite firstn_cons, take_0. cbn. lia.
Qed.

(** ** Flush *)

(** The slots of the queue and of open messages are not touched by the writer. *)
Lemma frame_untouched d d' cur qs open i :
  backend_inv d cur qs open → frame d d' → i ∈ qs ++ open →
  entry_at (allocator_ d') i = entry_at (allocator_ d) i.
Proof.
  clear Hwrite Hclock. intros [] Hf Hi. apply (frame_entries _ _ Hf). intros Hr.
  destruct inv_record0 as [E|E]; [congruence|]. assert (cur = Some i) as -> by congruence.
  simpl in inv_nodup0. apply NoDup_cons in inv_nodup0 as [Hni _]. done.
Qed.

(** What a call of the loop of [TryFlushSlots] achieves: [m] slots were taken
    from the queue. *)
Record drained (d : SlotDrainer) (qs open : list nat) (es : list LogEntry)
    (d' : SlotDrainer) (cur' : option nat) (m : nat) : Prop := {
  drained_inv : backend_inv d' cur' (drop m qs) open;
  drained_bytes :
    file (world_ d') ++ pending d' = file (world_ d) ++ pending d ++ messages (ecu d) (clocks d) (take m es);
  drained_clocks : clocks d' = (clocks d + length (take m es))%nat;
  drained_ecu : ecu d' = ecu d;
  drained_limit : limit_slots_in_one_cycle_ d' = limit_slots_in_one_cycle_ d;
  drained_chunk : max_chunk_size_ (non_blocking_writer_ d') = max_chunk_size_ (non_blocking_writer_ d);
  drained_entries : ∀ i, i ∈ drop m qs ++ open → entry_at (allocator_ d') i = entry_at (allocator_ d) i;
}.

Lemma drained_trans d cur qs open es d1 cur1 d2 cur2 n m :
  drained d qs open es d1 cur n → drained d1 (drop n qs) open (drop n es) d2 cur1 m → (n <= length es)%nat →
  cur1 = cur2 → drained d qs open es d2 cur2 (n + m).
Proof.
  clear Hwrite Hclock. intros [] [] Hn <-.
  assert (take (n + m) es = take n es ++ take m (drop n es)) as Et.
  { by rewrite take_take_drop. }
  rewrite drop_drop in *. split; try congruence.
  - rewrite drained_bytes1, drained_ecu0, drained_clocks0, Et, messages_app, length_take.
    rewrite (assoc_L (++)), drained_bytes0, Nat.min_l by done. by rewrite <- !(assoc_L (++)).
  - rewrite drained_clocks1, drained_clocks0, Et, length_app. lia.
  - intros i Hi. rewrite drained_entries1 by done. apply drained_entries0.
    apply elem_of_app in Hi as [Hi|Hi]; apply elem_of_app; [left|by right].
    apply list_elem_of_lookup in Hi as [j Hj]. rewrite <- drop_drop, lookup_drop in Hj.
    by eapply list_elem_of_lookup_2.
Qed.

Definition idle (d' : SlotDrainer) (cur' : option nat) (qs : list nat) (m : nat) : Prop :=
  record d' = None ∧ cur' = None ∧ drop m qs = [].

(** The spans of the current message do not touch the queue. *)
Lemma drained_frame d cur qs open es d1 :
  backend_inv d cur qs open → drainer_ok d1 → frame d d1 →
  file (world_ d1) ++ pending d1 = file (world_ d) ++ pending d →
  drained d qs open es d1 cur 0.
Proof.
  intros Hinv Hok Hf Hp. pose proof (backend_inv_frame _ _ _ _ _ Hinv Hok Hf) as Hinv1.
  pose proof (λ i, frame_untouched d d1 cur qs open i Hinv Hf) as Hun.
  destruct Hf. split; rewrite ?take_0, ?drop_0; simpl; try done; [by rewrite app_nil_r|lia].
Qed.

Lemma loop_spec fuel : ∀ k d cur qs open es,
  backend_inv d cur qs open → entries d qs es →
  0 <= k <= limit_slots_in_one_cycle_ d + 1 →
  (Z.to_nat (limit_slots_in_one_cycle_ d + 1 - k) < fuel)%nat →
  ∃ d' r cur' m, TryFlushSlots_loop write_result clock level this fuel k d = Ret (d', r)
  ∧ drained d qs open es d' cur' m
  ∧ (r = Some kAllDataProcessed → idle d' cur' qs m)
  ∧ (writes_all d → Z.of_nat (length qs) <= limit_slots_in_one_cycle_ d + 1 - k → idle d' cur' qs m).
Proof using Hwrite Hclock.
  induction fuel as [|fuel IH]; intros k d cur qs open es Hinv Hes Hk Hfuel; [lia|]. cbn [TryFlushSlots_loop].
  destruct (TryFlushSpans_spec span_rounds d (inv_ok _ _ _ _ Hinv)) as (d1 & r1 & -> & Hok1 & Hf1 & Hp1 & Hr1 & Hall1).
  { pose proof (rounds_bound d). unfold span_rounds. lia. }
  cbn [mbind outcome_bind]. pose proof (backend_inv_frame _ _ _ _ _ Hinv Hok1 Hf1) as Hinv1.
  pose proof (λ i, frame_untouched d d1 cur qs open i Hinv Hf1) as Hun.
  pose proof (drained_frame d cur qs open es d1 Hinv Hok1 Hf1 Hp1) as Hdr1.
  destruct Hr1 as [[-> Hrec1]|[-> | ->]];
    [|exists d1, (Some kPartiallyProcessed), cur, 0%nat|exists d1, None, cur, 0%nat];
    try (split; [done|]; split; [done|]; split; [done|]; intros H%Hall1; done).
  destruct (release_current_spec d1 cur qs open Hinv1 Hrec1) as (d2 & -> & Hinv2 & Hrec2 & Hw2 & Hecu2 & Hl2 & Hnw2 & He2).
  cbn [mbind outcome_bind]. rewrite Hl2, (frame_limit _ _ Hf1).
  assert (drained d qs open es d2 None 0) as Hdr2.
  { destruct Hdr1. split; rewrite ?drop_0 in *; try done; try congruence.
    - rewrite (pending_none d2), Hw2 by done. rewrite (pending_none d1) in drained_bytes0 by done. done.
    - intros i Hi. rewrite He2. by apply drained_entries0. }
  destruct (Z.ltb_spec (limit_slots_in_one_cycle_ d) k) as [Hlim|Hlim].
  { exists d2, (Some kNumberOfProcessedSlotsExceeded), None, 0%nat. split; [done|]. split; [done|]. split; [done|].
    intros _ Hq. split; [done|]. split; [done|]. destruct qs; [done|simpl in Hq; lia]. }
  assert (entries d2 qs es) as Hes2.
  { eapply entries_impl; [|done]. intros i Hi. rewrite He2. apply Hun. apply elem_of_app. by left. }
  destruct (MoreSlots_spec d2 qs open es Hinv2 Hrec2 Hes2)
    as (d3 & -> & Hinv3 & Hw3 & Hp3 & Hc3 & Hecu3 & Hl3 & Hnw3 & He3).
  cbn [mbind outcome_bind]. pose proof (inv_limit _ _ _ _ Hinv) as Hlimit. rewrite u64_id by lia.
  assert (drained d2 qs open es d3 (hd_error qs) 1) as Hdr3.
  { split; try done; try congruence.
    - rewrite Hw3, Hp3, (pending_none d2) by done. done. }
  assert (drained d qs open es d3 (hd_error qs) 1) as Hdr.
  { refine (drained_trans d None qs open es d2 _ d3 _ 0 1 Hdr2 _ _ eq_refl); rewrite ?drop_0; [done|lia]. }
  destruct Hes as [|i e qs es Hi Hes]; [rewrite bool_decide_eq_false_2 by (intros H; by apply H)|rewrite bool_decide_eq_true_2 by done].
  { exists d3, (Some kAllDataProcessed), None, 1%nat. split; [done|]. split; [done|].
    assert (record d3 = None) by (by destruct (inv_record _ _ _ _ Hinv3)). done. }
  destruct (IH (k + 1) d3 (Some i) qs open es) as (d' & r & cur' & m & E & Hd' & Hr' & Hall').
  - done.
  - apply Forall2_cons in Hes2 as [_ Hes2]. eapply entries_impl; [|done]. done.
  - rewrite Hl3, Hl2, (frame_limit _ _ Hf1). lia.
  - rewrite Hl3, Hl2, (frame_limit _ _ Hf1). lia.
  - exists d', r, cur', (S m). split; [done|].
    split; [refine (drained_trans d _ _ _ _ d3 _ d' _ 1 m Hdr _ _ eq_refl); [done|simpl; lia]|].
    split; [done|]. intros [Hw Hc] Hq. apply Hall'; [split; [done|]|].
    + by rewrite Hnw3, Hnw2, (frame_chunk _ _ Hf1).
    + rewrite Hl3, Hl2, (frame_limit _ _ Hf1). simpl in Hq. lia.
Qed.

Lemma Flush_spec d cur qs open es :
  backend_inv d cur qs open → entries d qs es →
  ∃ d' cur' m, Flush write_result clock level this d = Ret d' ∧ drained d qs open es d' cur' m
  ∧ (writes_all d → Z.of_nat (length qs) <= limit_slots_in_one_cycle_ d + 1 → idle d' cur' qs m).
Proof using Hwrite Hclock.
  intros Hinv Hes. pose proof (inv_limit _ _ _ _ Hinv) as Hl. unfold Flush, TryFlushSlots.
  destruct (loop_spec (Z.to_nat (limit_slots_in_one_cycle_ d) + 3) 0 d cur qs open es Hinv Hes)
    as (d' & r & cur' & m & -> & Hd & _ & Hall); [lia|lia|].
  exists d', cur', m. split; [done|]. split; [done|]. intros Hw Hq. apply Hall; [done|lia].
Qed.

(** The slot of a finished message moves to the queue. *)
Lemma PushBack_spec d cur qs open1 i open2 :
  backend_inv d cur qs (open1 ++ i :: open2) →
  ∃ d', PushBack level this (handle i) d = Ret d' ∧ backend_inv d' cur (qs ++ [i]) (open1 ++ open2)
  ∧ allocator_ d' = allocator_ d ∧ message_builder_ d' = message_builder_ d
  ∧ non_blocking_writer_ d' = non_blocking_writer_ d ∧ world_ d' = world_ d
  ∧ limit_slots_in_one_cycle_ d' = limit_slots_in_one_cycle_ d.
Proof.
  clear Hwrite Hclock. intros Hinv. pose proof (used_length _ _ _ _ Hinv) as Hlen. pose proof Hinv as [].
  rewrite !length_app in Hlen. simpl in Hlen.
  destruct (queue_push level this _ _ (handle i) inv_queue0) as (b & E & Hq & Hheld).
  { rewrite length_fmap. unfold kMaxCircularBufferSize. lia. }
  unfold PushBack. rewrite E. cbn [mbind outcome_bind]. eexists. split; [done|]. split; [|done].
  assert (option_list cur ++ qs ++ open1 ++ i :: open2 ≡ₚ option_list cur ++ (qs ++ [i]) ++ open1 ++ open2) as Hperm.
  { rewrite <- Permutation_middle, <- !(assoc_L (++)). simpl. rewrite !Permutation_middle. done. }
  destruct inv_ok0. split; try done.
  - cbn [circular_buffer_ with_queue]. by rewrite fmap_app.
  - cbn [current_slot_ circular_buffer_ with_queue]. destruct (current_slot_ d) as [pos|], cur as [j|]; try done.
    simpl in Hlen. apply Hheld; [done|]. rewrite length_fmap. lia.
  - by rewrite <- Hperm.
  - intros j. by rewrite <- Hperm.
Qed.

End Environment.

End LogDrainerSpec.
