(* ===== verification/TextRecorder.v ===== *)
(** * The text recorder: mw/log/detail/text_recorder/text_recorder.cpp

    [FileOutputBackend] and [TextRecorder] on top of the drainer, the allocator
    and the configuration, and the console recorder that the factory builds.

    The calls of several threads are serialised where they share state: the
    drainer by its mutex, the slots by their owners (CircularAllocator.v).  A
    run is therefore a sequence of calls, in any order, for any number of
    messages that are open at the same time. *)

From S2P Require Import Prelude CppInt CppString CircularBuffer CircularBufferSpec CircularAllocator LogPayload LogFormat.
From S2P Require Import SlotHandle LogRecord LogConfiguration LogDrainer LogDrainerSpec.
Import LogPayload LogFormat LogRecord LogDrainer LogDrainerSpec.

Local Open Scope Z_scope.

Module TextRecorder.

Record TextRecorder := {
  backend_ : SlotDrainer;
  config_ : LogConfiguration.Configuration;
  check_log_level_for_console_ : bool;
}.

Definition with_backend (d : SlotDrainer) (t : TextRecorder) : TextRecorder :=
  {| backend_ := d; config_ := config_ t; check_log_level_for_console_ := check_log_level_for_console_ t |}.

(** ** Construction *)

(** The default argument of the constructor of [SlotDrainer]. *)
Definition limit_slots_in_one_cycle : Z := 32.

(** [CreateConsoleLoggingBackend]: the slots are copies of a record with the
    configured capacity (see [LogRecord.transfer_spec]). *)
Definition CreateConsoleLoggingBackend (config : LogConfiguration.Configuration) : SlotDrainer :=
  make_SlotDrainer (make_TextMessageBuilder (LogConfiguration.GetEcuId config))
    (CircularAllocator.make (Z.to_nat (LogConfiguration.GetNumberOfSlots config))
       (log_entry_ (make_record 1 (LogConfiguration.GetSlotSizeInBytes config))))
    limit_slots_in_one_cycle.

Definition CreateConcreteLogRecorder (config : LogConfiguration.Configuration) : TextRecorder :=
  {| backend_ := CreateConsoleLoggingBackend config; config_ := config; check_log_level_for_console_ := true |}.

Section Environment.
Variables (write_result : nat → Z → option Z) (clock : nat → clock_reading).
Variables (level : assert_level) (this : positive).

(** ** FileOutputBackend *)

Definition ReserveSlot (d : SlotDrainer) : outcome (SlotDrainer * option SlotHandle.SlotHandle) :=
  d ← Flush write_result clock level this d;
  '(a, th) ← CircularAllocator.AcquireSlotToWrite (allocator_ d);
  match th with
  | CircularAllocator.Returned slot =>
      Ret (with_allocator a d,
           match slot with
           | Some slot => Some (SlotHandle.make (static_cast uint16_t (Z.of_nat slot)))
           | None => None
           end)
  | _ => Undefined
  end.

Definition FlushSlot (slot : SlotHandle.SlotHandle) (d : SlotDrainer) : outcome SlotDrainer :=
  d ← PushBack level this slot d;
  Flush write_result clock level this d.

Definition GetLogRecord (slot : SlotHandle.SlotHandle) (d : SlotDrainer) : outcome (nat * LogEntry) :=
  i ← SlotHandle.GetSlotOfSelectedRecorder slot;
  e ← CircularAllocator.GetUnderlyingBufferFor (allocator_ d) (Z.to_nat i);
  Ret (Z.to_nat i, e).

(** A change of a record through the reference. *)
Definition update_record (i : nat) (e : LogEntry) (d : SlotDrainer) : outcome SlotDrainer :=
  a ← CircularAllocator.WriteUnderlyingBuffer (allocator_ d) i e;
  Ret (with_allocator a d).

(** ** TextRecorder *)

Definition IsLogEnabled (log_level : LogLevel) (context : str) (t : TextRecorder) : bool :=
  LogConfiguration.IsLogLevelEnabled log_level context (check_log_level_for_console_ t) (config_ t).

Definition StartRecord (context_id : str) (log_level : LogLevel) (t : TextRecorder) :
    outcome (TextRecorder * option SlotHandle.SlotHandle) :=
  if negb (IsLogEnabled log_level context_id t) then Ret (t, None)
  else
    '(d, slot_handle) ← ReserveSlot (backend_ t);
    match slot_handle with
    | Some h =>
        '(i, e) ← GetLogRecord h d;
        let e := {| app_id := make_identifier (LogConfiguration.GetAppId (config_ t));
                    ctx_id := make_identifier context_id; payload := Reset (payload e);
                    timestamp_steady_nsec := timestamp_steady_nsec e;
                    timestamp_system_nsec := timestamp_system_nsec e; num_of_args := 0;
                    header_buffer := header_buffer e; log_level := log_level |} in
        d ← update_record i e d;
        Ret (with_backend d t, slot_handle)
    | None => Ret (with_backend d t, slot_handle)
    end.

Definition StopRecord (slot : SlotHandle.SlotHandle) (t : TextRecorder) : outcome TextRecorder :=
  d ← FlushSlot slot (backend_ t);
  Ret (with_backend d t).

(** The overloads of [Log] call [GenericLog]. *)
Definition Log (slot : SlotHandle.SlotHandle) (a : argument) (t : TextRecorder) : outcome TextRecorder :=
  '(i, e) ← GetLogRecord slot (backend_ t);
  e ← GenericLog a e;
  d ← update_record i e (backend_ t);
  Ret (with_backend d t).

(** ** Runs *)

(** The messages that are started and not yet stopped, by their slots, and the
    records of the stopped ones in the order of the calls. *)
Record system := { recorder : TextRecorder; open : list nat; stopped : list LogEntry }.

Definition initial (config : LogConfiguration.Configuration) : system :=
  {| recorder := CreateConcreteLogRecorder config; open := []; stopped := [] |}.

(** The calls of clients; [k] is the position of an open message. *)
Inductive operation :=
| Start (context : str) (log_level : LogLevel)
| Write (k : nat) (a : argument)
| Stop (k : nat).

Definition exec (o : operation) (σ : system) : outcome system :=
  match o with
  | Start context log_level =>
      '(t, h) ← StartRecord context log_level (recorder σ);
      match h with
      | Some h =>
          i ← SlotHandle.GetSlotOfSelectedRecorder h;
          Ret {| recorder := t; open := open σ ++ [Z.to_nat i]; stopped := stopped σ |}
      | None => Ret {| recorder := t; open := open σ; stopped := stopped σ |}
      end
  | Write k a =>
      match open σ !! k with
      | Some i =>
          t ← Log (handle i) a (recorder σ);
          Ret {| recorder := t; open := open σ; stopped := stopped σ |}
      | None => Ret σ
      end
  | Stop k =>
      match open σ !! k with
      | Some i =>
          '(_, e) ← GetLogRecord (handle i) (backend_ (recorder σ));
          t ← StopRecord (handle i) (recorder σ);
          Ret {| recorder := t; open := delete k (open σ); stopped := stopped σ ++ [e] |}
      | None => Ret σ
      end
  end.

Fixpoint run (os : list operation) (σ : system) : outcome system :=
  match os with
  | [] => Ret σ
  | o :: os => σ ← exec o σ; run os σ
  end.

(** ** Invariant *)

Hypothesis Hwrite : ∀ k n m, 0 <= n → write_result k n = Some m → 0 <= m <= n.
Hypothesis Hclock : ∀ k, clock_ok (clock k).

(** A system call that always takes all it is given. *)
Definition all_written : Prop := ∀ k n, 0 <= n → write_result k n = Some n.

(** The stream of messages: those that were taken from the queue ([sent]) are
    written or pending, the others ([es]) are still in their slots. *)
Record stream (ecu_id : LoggingIdentifier) (d : SlotDrainer) (op : list nat) (st : list LogEntry)
    (cur : option nat) (qs : list nat) (es sent : list LogEntry) : Prop := {
  stream_inv : backend_inv d cur qs op;
  stream_entries : entries d qs es;
  stream_ecu : ecu_id_ (message_builder_ d) = ecu_id;
  stream_limit : limit_slots_in_one_cycle_ d = limit_slots_in_one_cycle;
  stream_chunk : max_chunk_size_ (non_blocking_writer_ d) = GetMaxChunkSize;
  stream_stopped : st = sent ++ es;
  stream_clocks : clock_calls (world_ d) = length sent;
  stream_bytes : file (world_ d) ++ pending d = messages clock ecu_id 0 sent;
}.

Definition quiet (d : SlotDrainer) (cur : option nat) (qs : list nat) : Prop :=
  log_record_ (message_builder_ d) = None ∧ cur = None ∧ qs = [].

Lemma flush_stream ecu_id d op st cur qs es sent :
  stream ecu_id d op st cur qs es sent → (all_written → (length qs <= 33)%nat) →
  ∃ d' cur' qs' es' sent', Flush write_result clock level this d = Ret d'
  ∧ stream ecu_id d' op st cur' qs' es' sent'
  ∧ (∀ i, i ∈ op → entry_at (allocator_ d') i = entry_at (allocator_ d) i)
  ∧ (all_written → quiet d' cur' qs').
Proof using Hwrite Hclock.
  intros [] Hq.
  destruct (Flush_spec write_result clock level this Hwrite Hclock d cur qs op es stream_inv0 stream_entries0)
    as (d' & cur' & m & E & Hd & Hidle). destruct Hd.
  exists d', cur', (drop m qs), (drop m es), (sent ++ take m es). split; [done|]. split; [|split].
  - split; try congruence.
    + unfold entries. eapply entries_impl; [|by apply Forall2_drop]. intros i Hi. apply drained_entries0.
      apply elem_of_app. by left.
    + by rewrite <- (assoc_L (++)), take_drop.
    + rewrite drained_clocks0, length_app. lia.
    + rewrite drained_bytes0, messages_app, (assoc_L (++)), stream_bytes0, stream_ecu0, stream_clocks0. done.
  - intros i Hi. apply drained_entries0. apply elem_of_app. by right.
  - intros Hall. specialize (Hq Hall). apply Hidle; [|rewrite stream_limit0; unfold limit_slots_in_one_cycle; lia].
    split; [done|]. rewrite stream_chunk0. by vm_compute.
Qed.

(** Another allocator that agrees on the slots of the drainer. *)
Lemma with_allocator_inv d cur qs op op' a :
  backend_inv d cur qs op →
  length (CircularAllocator.buffer_ a) = length (CircularAllocator.buffer_ (allocator_ d)) →
  0 <= CircularAllocator.claimed_sequence_ a < 2 ^ 64 →
  (∀ i, used_at a i = Some true ↔ i ∈ option_list cur ++ qs ++ op') →
  NoDup (option_list cur ++ qs ++ op') →
  (∀ i, i ∈ option_list cur ++ qs → entry_at a i = entry_at (allocator_ d) i) →
  (∀ i e, entry_at a i = Some e → entry_ok e) →
  backend_inv (with_allocator a d) cur qs op' ∧ pending (with_allocator a d) = pending d.
Proof.
  clear Hwrite Hclock. intros Hinv Hl Hs Hu Hnd He Hok. pose proof Hinv as [].
  assert (∀ slot, log_record_ (message_builder_ d) = Some slot →
    entry_at a slot = entry_at (allocator_ d) slot) as Hrec.
  { intros slot Hr. apply He. destruct inv_record0 as [E|E]; [congruence|].
    assert (cur = Some slot) as -> by congruence. simpl. left. }
  split.
  - destruct inv_ok0. split; try done; [|cbn; by rewrite Hl]. split; try done.
    unfold message_ok in *. cbn. destruct (log_record_ (message_builder_ d)) as [slot|]; [|done].
    by rewrite Hrec.
  - unfold pending. cbn. destruct (log_record_ (message_builder_ d)) as [slot|]; [|done]. by rewrite Hrec.
Qed.

(** A record of an open message is changed. *)
Lemma update_stream ecu_id d op st cur qs es sent i e e' :
  stream ecu_id d op st cur qs es sent → i ∈ op → entry_at (allocator_ d) i = Some e → entry_ok e' →
  ∃ d', update_record i e' d = Ret d' ∧ stream ecu_id d' op st cur qs es sent
  ∧ message_builder_ d' = message_builder_ d.
Proof.
  clear Hwrite Hclock. intros [] Hi He Hok. destruct (entry_write (allocator_ d) i e e' He) as (a & E & Ha & Hu & Hl & Hq).
  unfold update_record. rewrite E. cbn [mbind outcome_bind]. exists (with_allocator a d). split; [done|].
  pose proof stream_inv0 as [].
  assert (∀ j, j ∈ option_list cur ++ qs → j ≠ i) as Hne.
  { intros j Hj ->. rewrite (assoc_L (++)) in inv_nodup0. apply NoDup_app in inv_nodup0 as (_ & Hdis & _). by eapply Hdis. }
  destruct (with_allocator_inv d cur qs op op a stream_inv0) as [Hinv Hp]; try done.
  - by rewrite Hq.
  - intros j. by rewrite Hu.
  - intros j Hj. rewrite Ha, decide_False; [done|by apply Hne].
  - intros j e0 Hj. rewrite Ha in Hj. case_decide; [by simplify_eq|]. by eapply (ok_entries _ inv_ok0).
  - split; [|done]. split; try done; [|by rewrite Hp].
    eapply entries_impl; [|done]. intros j Hj. cbn. rewrite Ha, decide_False; [done|]. apply Hne.
    apply elem_of_app. by right.
Qed.

Definition run_inv (ecu_id : LoggingIdentifier) (σ : system) : Prop :=
  ∃ cur qs es sent, stream ecu_id (backend_ (recorder σ)) (open σ) (stopped σ) cur qs es sent
  ∧ (all_written → quiet (backend_ (recorder σ)) cur qs).

Lemma handle_slot i d e :
  entry_at (allocator_ d) i = Some e → GetLogRecord (handle i) d = Ret (i, e).
Proof.
  clear Hwrite Hclock. intros He. unfold GetLogRecord, handle.
  change (SlotHandle.GetSlotOfSelectedRecorder (SlotHandle.make (Z.of_nat i))) with (Ret (Z.of_nat i)).
  cbn [mbind outcome_bind]. rewrite Nat2Z.id. by rewrite (entry_read _ _ _ He).
Qed.

(** A slot in use has a record. *)
Lemma open_entry d cur qs op i : backend_inv d cur qs op → i ∈ op → ∃ e, entry_at (allocator_ d) i = Some e ∧ entry_ok e.
Proof.
  clear Hwrite Hclock. intros [] Hi. assert (used_at (allocator_ d) i = Some true) as Hu.
  { apply inv_used0. rewrite !elem_of_app. auto. }
  unfold used_at in Hu. destruct (CircularAllocator.buffer_ (allocator_ d) !! i) as [s|] eqn:Es; [|done].
  exists (CircularAllocator.data_ s). assert (entry_at (allocator_ d) i = Some (CircularAllocator.data_ s)) as He.
  { unfold entry_at. by rewrite Es. }
  split; [done|]. by eapply ok_entries.
Qed.

Lemma reserve_stream ecu_id d op st cur qs es sent :
  stream ecu_id d op st cur qs es sent → (all_written → (length qs <= 33)%nat) →
  ∃ d' slot cur' qs' es' sent',
    ReserveSlot d = Ret (d', handle <$> slot)
    ∧ stream ecu_id d' (op ++ option_list slot) st cur' qs' es' sent'
    ∧ (all_written → quiet d' cur' qs').
Proof using Hwrite Hclock.
  intros Hs Hq. destruct (flush_stream _ _ _ _ _ _ _ _ Hs Hq) as (d1 & cur' & qs' & es' & sent' & E & Hs1 & _ & Hq1).
  unfold ReserveSlot. rewrite E. cbn [mbind outcome_bind]. pose proof Hs1 as []. pose proof stream_inv0 as [].
  destruct (CircularAllocator.acquire_safe (allocator_ d1)) as (a & r & -> & Hseq & Hr); [lia|lia|done|].
  cbn [mbind outcome_bind]. exists (with_allocator a d1), r, cur', qs', es', sent'. destruct r as [i|].
  - destruct Hr as (s & Hi & Hfree & Ea). pose proof (lookup_lt_Some _ _ _ Hi) as Hlt.
    split.
    { rewrite static_cast_id; [done|]. unfold in_range. cbv [lowest max digits is_signed bits]. lia. }
    destruct (set_slot_spec (allocator_ d1) i s {| CircularAllocator.data_ := CircularAllocator.data_ s;
      CircularAllocator.in_use_ := true |} Hi) as (He & Hu & Hl).
    assert (∀ j, entry_at a j = entry_at (allocator_ d1) j) as He'.
    { intros j. unfold entry_at in *. rewrite Ea. specialize (He j). simpl in He. rewrite He.
      case_decide; [subst; by rewrite Hi|done]. }
    assert (∀ j, used_at a j = if decide (j = i) then Some true else used_at (allocator_ d1) j) as Hu'.
    { intros j. unfold used_at in *. rewrite Ea. apply Hu. }
    assert (i ∉ option_list cur' ++ qs' ++ op) as Hni.
    { intros H%inv_used0. unfold used_at in H. rewrite Hi in H. simpl in H. congruence. }
    destruct (with_allocator_inv d1 cur' qs' op (op ++ [i]) a stream_inv0) as [Hinv Hp]; try done.
    + by rewrite Ea, length_insert.
    + intros j. rewrite Hu'. rewrite !(assoc_L (++)), elem_of_app, list_elem_of_singleton, <- !(assoc_L (++)).
      case_decide; [subst; naive_solver|]. rewrite inv_used0. naive_solver.
    + rewrite !(assoc_L (++)). apply NoDup_app. rewrite <- !(assoc_L (++)). split; [done|].
      split; [|apply NoDup_singleton]. intros j Hj ->%list_elem_of_singleton. done.
    + intros j e Hj. rewrite He' in Hj. by eapply (ok_entries _ inv_ok0).
    + split; [|done]. split; try done; [|by rewrite Hp]. eapply entries_impl; [|done]. intros j _. apply He'.
  - split; [done|]. simpl. rewrite app_nil_r.
    destruct (with_allocator_inv d1 cur' qs' op op a stream_inv0) as [Hinv Hp]; try done.
    + by rewrite Hr.
    + intros j. rewrite <- inv_used0. unfold used_at. by rewrite Hr.
    + intros j _. unfold entry_at. by rewrite Hr.
    + intros j e. unfold entry_at. rewrite Hr. apply (ok_entries _ inv_ok0).
    + split; [|done]. split; try done; [|by rewrite Hp]. eapply entries_impl; [|done]. intros j _.
      unfold entry_at. cbn. by rewrite Hr.
Qed.

Lemma exec_start ecu_id context l σ :
  run_inv ecu_id σ → ∃ σ', exec (Start context l) σ = Ret σ' ∧ run_inv ecu_id σ'.
Proof using Hwrite Hclock.
  intros (cur & qs & es & sent & Hs & Hq). cbn [exec]. unfold StartRecord.
  destruct (IsLogEnabled l context (recorder σ)); cbn [negb].
  2: { cbn [mbind outcome_bind]. eexists. split; [done|]. by exists cur, qs, es, sent. }
  destruct (reserve_stream _ _ _ _ _ _ _ _ Hs) as (d & slot & cur' & qs' & es' & sent' & -> & Hs' & Hq').
  { intros Hall. destruct (Hq Hall) as (_ & _ & ->). simpl. lia. }
  cbn [mbind outcome_bind]. destruct slot as [i|]; cbn [fmap option_fmap option_map].
  - assert (i ∈ open σ ++ [i]) as Hi by (apply elem_of_app; right; by apply list_elem_of_singleton).
    destruct (open_entry _ _ _ _ _ (stream_inv _ _ _ _ _ _ _ _ Hs') Hi) as (e & He & [Hpay _]).
    rewrite (handle_slot _ _ _ He). cbn [mbind outcome_bind].
    set (e' := {| app_id := _; ctx_id := _; payload := _; timestamp_steady_nsec := _; timestamp_system_nsec := _;
      num_of_args := _; header_buffer := _; log_level := _ |}).
    destruct (update_stream _ _ _ _ _ _ _ _ i e e' Hs' Hi He) as (d' & -> & Hs'' & Hb).
    { split; [by apply Reset_ok|done]. }
    cbn [mbind outcome_bind]. change (SlotHandle.GetSlotOfSelectedRecorder (handle i)) with (Ret (Z.of_nat i)).
    cbn [mbind outcome_bind]. rewrite Nat2Z.id. eexists. split; [done|]. exists cur', qs', es', sent'.
    split; [done|]. intros Hall. destruct (Hq' Hall) as (Hr & -> & ->). split; [|done]. cbn. by rewrite Hb.
  - cbn [mbind outcome_bind]. eexists. split; [done|]. exists cur', qs', es', sent'.
    cbn [recorder open stopped]. simpl in Hs'. rewrite app_nil_r in Hs'. done.
Qed.

Lemma exec_write ecu_id k a σ :
  argument_ok a = true → run_inv ecu_id σ →
  (∃ σ', exec (Write k a) σ = Ret σ' ∧ run_inv ecu_id σ')
  ∨ is_raw a = true ∧ exec (Write k a) σ = Undefined.
Proof.
  clear Hwrite Hclock. intros Ha (cur & qs & es & sent & Hs & Hq). cbn [exec].
  destruct (open σ !! k) as [i|] eqn:Hk; [|left; eexists; split; [done|]; by exists cur, qs, es, sent].
  apply list_elem_of_lookup_2 in Hk as Hi.
  destruct (open_entry _ _ _ _ _ (stream_inv _ _ _ _ _ _ _ _ Hs) Hi) as (e & He & [Hpay Hn]).
  unfold Log. rewrite (handle_slot _ _ _ He). cbn [mbind outcome_bind].
  rewrite GenericLog_spec by done.
  assert ((∃ text, generic_text e a = Some text ∧ (length text <= free (payload e))%nat)
    ∨ is_raw a = true ∧ generic_text e a = None) as [(text & -> & Hlen)|[? ->]]; [|left|by right].
  { unfold generic_text. case_match; [left; exists []; split; [done|simpl; lia]|].
    destruct (shown (free (payload e)) a) as [text|] eqn:E; [|by right; destruct a]. left. exists text.
    split; [done|]. by eapply shown_length. }
  cbn [mbind outcome_bind].
  match goal with |- context [update_record i ?e' _] => destruct (update_stream _ _ _ _ _ _ _ _ i e e' Hs Hi He) as (d' & -> & Hs'' & Hb) end.
  { split; [by apply payload_ok_app|]. cbn. case_match; [done|]. reflect_bool. lia. }
  cbn [mbind outcome_bind]. eexists. split; [done|]. exists cur, qs, es, sent. split; [done|].
  intros Hall. destruct (Hq Hall) as (Hr & -> & ->). split; [|done]. cbn. by rewrite Hb.
Qed.

Lemma exec_stop ecu_id k σ :
  run_inv ecu_id σ → ∃ σ', exec (Stop k) σ = Ret σ' ∧ run_inv ecu_id σ'.
Proof using Hwrite Hclock.
  intros (cur & qs & es & sent & Hs & Hq). cbn [exec].
  destruct (open σ !! k) as [i|] eqn:Hk; [|eexists; split; [done|]; by exists cur, qs, es, sent].
  apply list_elem_of_lookup_2 in Hk as Hi.
  destruct (open_entry _ _ _ _ _ (stream_inv _ _ _ _ _ _ _ _ Hs) Hi) as (e & He & Hok).
  rewrite (handle_slot _ _ _ He). cbn [mbind outcome_bind]. unfold StopRecord, FlushSlot.
  destruct Hs. rewrite <- (take_drop_middle _ _ _ Hk) in stream_inv0.
  destruct (PushBack_spec level this _ _ _ _ _ _ stream_inv0) as (d1 & -> & Hinv1 & Ha & Hb & Hw & Ho & Hl).
  cbn [mbind outcome_bind]. rewrite <- delete_take_drop in Hinv1.
  destruct (flush_stream ecu_id d1 (delete k (open σ)) (stopped σ ++ [e]) cur (qs ++ [i]) (es ++ [e]) sent)
    as (d2 & cur' & qs' & es' & sent' & -> & Hs2 & _ & Hq2).
  - split; try congruence.
    + unfold entries in *. rewrite Ha. apply Forall2_app; [done|]. by constructor.
    + by rewrite stream_stopped0, (assoc_L (++)).
    + rewrite Ho. rewrite <- stream_bytes0. f_equal. unfold pending. by rewrite Hb, Ha, Hw.
  - intros Hall. destruct (Hq Hall) as (_ & _ & ->). simpl. lia.
  - cbn [mbind outcome_bind]. eexists. split; [done|]. by exists cur', qs', es', sent'.
Qed.

Definition operation_ok (o : operation) : bool :=
  match o with Write _ a => argument_ok a | _ => true end.

Definition writes_raw (o : operation) : bool :=
  match o with Write _ a => is_raw a | _ => false end.

Lemma run_keeps ecu_id os : ∀ σ,
  forallb operation_ok os = true → run_inv ecu_id σ →
  (∃ σ', run os σ = Ret σ' ∧ run_inv ecu_id σ') ∨ existsb writes_raw os = true ∧ run os σ = Undefined.
Proof using Hwrite Hclock.
  induction os as [|o os IH]; intros σ Hos Hσ; [left; by exists σ|].
  cbn [forallb] in Hos. apply andb_prop in Hos as [Ho Hos]. cbn [run existsb].
  assert ((∃ σ1, exec o σ = Ret σ1 ∧ run_inv ecu_id σ1) ∨ writes_raw o = true ∧ exec o σ = Undefined)
    as [(σ1 & -> & H1)|[-> ->]]; [|cbn [mbind outcome_bind]|by right].
  { destruct o as [context l|k a|k]; [left; by apply exec_start|by apply exec_write|left; by apply exec_stop]. }
  destruct (IH σ1 Hos H1) as [?|[-> ?]]; [by left|right]. by rewrite orb_true_r.
Qed.

(** The numbers of a configuration that the recorder can work with. *)
Definition config_ok (config : LogConfiguration.Configuration) : Prop :=
  1 <= LogConfiguration.GetNumberOfSlots config <= 1024
  ∧ 0 <= LogConfiguration.GetSlotSizeInBytes config <= max int32_t.

Lemma recorder_initial_inv config :
  config_ok config → run_inv (make_identifier (LogConfiguration.GetEcuId config)) (initial config).
Proof.
  clear Hwrite Hclock. intros [Hn Hs]. exists None, [], [], []. split; [|done].
  set (n := Z.to_nat (LogConfiguration.GetNumberOfSlots config)). assert (1 <= n <= 1024)%nat as Hn' by lia.
  assert (∀ i, used_at (allocator_ (backend_ (recorder (initial config)))) i ≠ Some true) as Hu.
  { intros i. unfold used_at. cbn [initial recorder CreateConcreteLogRecorder backend_ CreateConsoleLoggingBackend
      make_SlotDrainer allocator_ CircularAllocator.make CircularAllocator.buffer_].
    destruct (replicate _ _ !! i) as [s|] eqn:E; [|done]. apply lookup_replicate in E as [-> _]. done. }
  assert (∀ i e, entry_at (allocator_ (backend_ (recorder (initial config)))) i = Some e → entry_ok e) as He.
  { intros i e. unfold entry_at. cbn [initial recorder CreateConcreteLogRecorder backend_ CreateConsoleLoggingBackend
      make_SlotDrainer allocator_ CircularAllocator.make CircularAllocator.buffer_].
    destruct (replicate _ _ !! i) as [s|] eqn:E; [|done].
    apply lookup_replicate in E as [-> _]. intros [= <-]. split; [|done].
    unfold payload_ok, size, capacity. cbn. rewrite max_int32 in *. lia. }
  split; [|constructor|done..]. split.
  - split; [|done| | |done|done].
    + split; [split; vm_compute; discriminate|reflexivity].
    + vm_compute. split; [discriminate|reflexivity].
    + vm_compute. repeat split; discriminate.
  - split; [apply CircularBufferSpec.empty_represents, HMax|apply length_replicate|].
    intros i h Hi. apply lookup_replicate in Hi as [Hi _]. done.
  - done.
  - by left.
  - constructor.
  - intros i. split; [by intros H%Hu|by intros H%elem_of_nil].
  - cbn [initial recorder CreateConcreteLogRecorder backend_ CreateConsoleLoggingBackend
      make_SlotDrainer allocator_ CircularAllocator.make CircularAllocator.buffer_]. rewrite length_replicate. lia.
  - done.
  - done.
Qed.

End Environment.

(** ** Properties *)

(** C1: the console log is exact.  Assumed are a [write] that takes a part of
    what it is given, nothing, or fails, a clock whose text has at most 64
    bytes, a configuration with 1 to 1024 slots ([slot_of_queued_message_released]
    shows what happens with 1025) of at most [INT_MAX] bytes, and values whose
    text is shorter than that.  For every sequence of calls and any
    number of open messages the calls return, unless one of them logs a raw
    buffer that is written past the end of its message ([log_spec] says when,
    and the behaviour is then undefined).  What was written is a prefix of
    the messages in the order in which they were stopped: nothing is lost,
    repeated, reordered or mixed.  What is missing of the messages that left the
    queue is pending.  Open messages have slots of their own.  If [write] takes
    all it is given, every stopped message is written when the call returns,
    and only open messages hold slots. *)
Theorem console_log_exact (write_result : nat → Z → option Z) (clock : nat → clock_reading)
    (level : assert_level) (this : positive) (config : LogConfiguration.Configuration) (os : list operation) :
  (∀ k n m, 0 <= n → write_result k n = Some m → 0 <= m <= n) → (∀ k, clock_ok (clock k)) →
  config_ok config → forallb operation_ok os = true →
  let ecu_id := make_identifier (LogConfiguration.GetEcuId config) in
  (existsb writes_raw os = true ∧ run write_result clock level this os (initial config) = Undefined)
  ∨ ∃ σ, run write_result clock level this os (initial config) = Ret σ
  ∧ let d := backend_ (recorder σ) in
    file (world_ d) `prefix_of` messages clock ecu_id 0 (stopped σ)
    ∧ file (world_ d) ++ pending d = messages clock ecu_id 0 (take (clock_calls (world_ d)) (stopped σ))
    ∧ NoDup (open σ)
    ∧ ((∀ k n, 0 <= n → write_result k n = Some n) →
       file (world_ d) = messages clock ecu_id 0 (stopped σ)
       ∧ ∀ i, used_at (allocator_ d) i = Some true → i ∈ open σ).
Proof.
  intros Hw Hc Hconfig Hos ecu_id.
  destruct (run_keeps write_result clock level this Hw Hc ecu_id os (initial config) Hos)
    as [(σ & E & cur & qs & es & sent & Hs & Hq)|?]; [by apply recorder_initial_inv|right|by left].
  exists σ. split; [done|]. destruct Hs as [Hinv Hes Hecu _ _ Hst Hcl Hb]. pose proof (inv_nodup _ _ _ _ Hinv) as Hnd.
  assert (messages clock ecu_id 0 (stopped σ) = messages clock ecu_id 0 sent ++ messages clock ecu_id (length sent) es) as Em.
  { by rewrite Hst, messages_app. }
  cbv zeta. split; [|split; [|split]].
  - rewrite Em, <- Hb, <- (assoc_L (++)). by eexists.
  - by rewrite Hcl, Hst, take_app_length.
  - rewrite (assoc_L (++)) in Hnd. by apply NoDup_app in Hnd as (_ & _ & ?).
  - intros Hall. destruct (Hq Hall) as (Hr & -> & ->). apply Forall2_nil_inv_l in Hes as ->.
    rewrite (pending_none _ Hr), app_nil_r in Hb. split; [by rewrite Em, Hb, app_nil_r|].
    intros i Hi. by apply (inv_used _ _ _ _ Hinv) in Hi.
Qed.

(** Two messages that overlap, and a [write] that takes at most 20 bytes. *)
Definition example_write (k : nat) (n : Z) : option Z := Some (Z.min 20 n).
Definition example_clock (k : nat) : clock_reading :=
  {| time_str := Some (s! "2026/01/02 03:04:05."); milliseconds := 1767323045006; timestamp := 12345 |}.
Definition example_operations : list operation :=
  [Start (s! "MAIN") kError; Start (s! "AUX") kWarn; Write 0 (LogString (s! "speed")); Write 1 (LogBool true);
   Write 0 (LogRawBuffer (s! "ab")); Write 0 (LogInteger int16_t (-7) kDecimal); Start (s! "AUX") kInfo; Stop 1; Stop 0].

Lemma console_log_exact_witness :
  ∃ σ, run example_write example_clock ASSERT_LEVEL_DEFAULT 1 example_operations
         (initial LogConfiguration.default_configuration) = Ret σ
  ∧ length (stopped σ) = 2%nat ∧ file (world_ (backend_ (recorder σ))) = s! "2026/01/02 03:04:05.3045006 12345 000 EC"
  ∧ file (world_ (backend_ (recorder σ)))
      `prefix_of` messages example_clock (make_identifier (s! "ECU1")) 0 (stopped σ).
Proof.
  destruct (console_log_exact example_write example_clock ASSERT_LEVEL_DEFAULT 1 LogConfiguration.default_configuration
    example_operations) as [[_ E]|(σ & E & Hp & _)].
  - intros k n m Hn [= <-]. lia.
  - intros k. vm_compute. lia.
  - vm_compute. repeat split; discriminate.
  - reflexivity.
  - vm_compute in E. discriminate E.
  - exists σ. split; [exact E|]. vm_compute in E. injection E as <-. split; [reflexivity|]. split; [reflexivity|exact Hp].
Defined.

(** The bound on the number of slots is needed: with 1025 slots and a file
    descriptor that blocks, the queue stores a slot where the reference to the
    current slot points.  When the current message is written, the slot of
    another message, which is still in the queue, is released, and its own slot
    stays in use although no message is open. *)
Definition blocking_write (k : nat) (n : Z) : option Z := if (k <? 1025)%nat then None else Some n.

Definition many_slots : LogConfiguration.Configuration :=
  LogConfiguration.SetSlotSizeInBytes 16 (LogConfiguration.SetNumberOfSlots 1025 LogConfiguration.default_configuration).

Definition many_operations : list operation :=
  replicate 1025 (Start (s! "MAIN") kError) ++ replicate 1025 (Stop 0) ++ [Start (s! "MAIN") kError].

Definition slots_after (o : outcome system) : option (list nat * option bool * option bool * nat) :=
  match o with
  | Ret σ =>
      let d := backend_ (recorder σ) in
      Some (open σ, used_at (allocator_ d) 0, used_at (allocator_ d) 1024, clock_calls (world_ d))
  | _ => None
  end.

Theorem slot_of_queued_message_released :
  slots_after (run blocking_write example_clock ASSERT_LEVEL_DEFAULT 1 many_operations (initial many_slots))
  = Some ([1%nat], Some true, Some false, 34%nat).
Proof. vm_compute. reflexivity. Qed.

End TextRecorder.
