(* ===== verification/CompositeRecorder.v ===== *)
(** * Several recorders: mw/log/recorder.h, detail/composite_recorder.cpp

    [Recorder] is the interface of recorders; TextRecorder.v implements it, and
    so does [CompositeRecorder], which forwards every call to the recorders it
    holds.  A [SlotHandle] names a slot for each of up to four recorders.

    A composite leaves its recorders as if each of them had logged the message
    itself, with a handle of its own, but for the values that it forwards in
    another form: numbers in hexadecimal or binary, and slog2 messages. *)

From S2P Require Import Prelude CppInt CppString CircularBuffer CircularAllocator LogFormat SlotHandle LogRecord LogConfiguration LogDrainer TextRecorder.
Import LogFormat LogRecord SlotHandle.

Local Open Scope Z_scope.

Module CompositeRecorder.

(** The values that have an overload of [Recorder::Log]. *)
Inductive log_value := Plain (a : argument) | LogSlog2Message (code : Z) (message : str).

(** The virtual functions. *)
Class Recorder (R : Type) := {
  StartRecord : str → LogLevel → R → outcome (R * option SlotHandle);
  StopRecord : SlotHandle → R → outcome R;
  Log : SlotHandle → log_value → R → outcome R;
  IsLogEnabled : LogLevel → str → R → bool;
}.

(** [SlogGenericLog] outside QNX: the code of a message is not stored. *)
Definition SlogGenericLog (v : log_value) : argument :=
  match v with Plain a => a | LogSlog2Message _ message => LogString message end.

#[export] Instance TextRecorder_Recorder (write_result : nat → Z → option Z)
    (clock : nat → LogDrainer.clock_reading) (level : assert_level) (this : positive) :
    Recorder TextRecorder.TextRecorder := {|
  StartRecord := TextRecorder.StartRecord write_result clock level this;
  StopRecord := TextRecorder.StopRecord write_result clock level this;
  Log := λ slot v, TextRecorder.Log slot (SlogGenericLog v);
  IsLogEnabled := TextRecorder.IsLogEnabled;
|}.

Section Composite.
Context {R : Type} `{!Recorder R}.

(** [ForEachRecorder]; the callback has the index of the recorder and may
    change the recorder and what it has captured. *)
Fixpoint ForEachRecorder_from {S : Type} (callback : R → Z → S → outcome (R * S)) (index : Z) (recorders : list R)
    (s : S) : outcome (list R * S) :=
  match recorders with
  | [] => Ret ([], s)
  | r :: recorders =>
      '(r, s) ← callback r index s;
      '(recorders, s) ← ForEachRecorder_from callback (index + 1) recorders s;
      Ret (r :: recorders, s)
  end.

Definition ForEachRecorder {S : Type} (callback : R → Z → S → outcome (R * S)) (recorders : list R) (s : S) :
    outcome (list R * S) := ForEachRecorder_from callback 0 recorders s.

(** The callback of [ForEachActiveSlot]; it captures [slot_for_recorder]. *)
Definition call_active (callback : R → SlotHandle → outcome R) (composite_slot : SlotHandle) (recorder : R)
    (recorder_id : Z) (slot_for_recorder : SlotHandle) : outcome (R * SlotHandle) :=
  active ← IsRecorderActive recorder_id composite_slot;
  if active : bool then
    slot ← GetSlot recorder_id composite_slot;
    let slot_for_recorder := SetSlot slot 0 slot_for_recorder in
    recorder ← callback recorder slot_for_recorder;
    Ret (recorder, slot_for_recorder)
  else Ret (recorder, slot_for_recorder).

Definition ForEachActiveSlot (callback : R → SlotHandle → outcome R) (composite_slot : SlotHandle)
    (recorders : list R) : outcome (list R) :=
  '(recorders, _) ← ForEachRecorder (call_active callback composite_slot) recorders default_;
  Ret recorders.

Definition LogForEachActiveSlot (arg : log_value) (composite_slot : SlotHandle) (recorders : list R) :
    outcome (list R) :=
  ForEachActiveSlot (λ recorder slot, Log slot arg recorder) composite_slot recorders.

(** The constructor; the flag says whether it reports
    [kMaximumNumberOfRecordersExceeded]. *)
Definition make_CompositeRecorder (recorders : list R) : list R * bool :=
  if (Z.to_nat kMaxRecorders <? length recorders)%nat then (take (Z.to_nat kMaxRecorders) recorders, true)
  else (recorders, false).

(** The callback of [StartRecord]; it captures [composite_slot]. *)
Definition start_recorder (context_id : str) (log_level : LogLevel) (recorder : R) (recorder_id : Z)
    (composite_slot : SlotHandle) : outcome (R * SlotHandle) :=
  '(recorder, result) ← StartRecord context_id log_level recorder;
  match result with
  | Some h => slot ← GetSlotOfSelectedRecorder h; Ret (recorder, SetSlot slot recorder_id composite_slot)
  | None => Ret (recorder, composite_slot)
  end.

Definition composite_StartRecord (context_id : str) (log_level : LogLevel) (recorders : list R) :
    outcome (list R * option SlotHandle) :=
  '(recorders, composite_slot) ← ForEachRecorder (start_recorder context_id log_level) recorders default_;
  Ret (recorders, Some composite_slot).

Definition composite_StopRecord (slot : SlotHandle) (recorders : list R) : outcome (list R) :=
  ForEachActiveSlot (λ recorder composite_slot, StopRecord composite_slot recorder) slot recorders.

(** The overloads of [Log]: those for [LogHex] and [LogBin] pass the number,
    that for a slog2 message its text. *)
Definition forwarded (v : log_value) : log_value :=
  match v with
  | Plain (LogHex t value) | Plain (LogBin t value) => Plain (LogInteger t value kDecimal)
  | Plain a => Plain a
  | LogSlog2Message _ message => Plain (LogString message)
  end.

Definition composite_Log (composite_slot : SlotHandle) (v : log_value) (recorders : list R) : outcome (list R) :=
  LogForEachActiveSlot (forwarded v) composite_slot recorders.

Definition composite_IsLogEnabled (log_level : LogLevel) (context : str) (recorders : list R) : bool :=
  foldl (λ is_log_enabled recorder, is_log_enabled || IsLogEnabled log_level context recorder) false recorders.

#[export] Instance CompositeRecorder_Recorder : Recorder (list R) := {|
  StartRecord := composite_StartRecord;
  StopRecord := composite_StopRecord;
  Log := composite_Log;
  IsLogEnabled := composite_IsLogEnabled;
|}.

End Composite.

(** ** A message *)

Section Message.
Context {R : Type} `{!Recorder R}.

Fixpoint log_all (h : SlotHandle) (vs : list log_value) (r : R) : outcome R :=
  match vs with
  | [] => Ret r
  | v :: vs => r ← Log h v r; log_all h vs r
  end.

(** A whole message: start, values, stop. *)
Definition log_message (context : str) (l : LogLevel) (vs : list log_value) (r : R) : outcome R :=
  '(r, h) ← StartRecord context l r;
  match h with
  | None => Ret r
  | Some h => r ← log_all h vs r; StopRecord h r
  end.

End Message.

(** A recorder that holds no others names one slot in its handles, as its own. *)
Class SingleSlot (R : Type) `{!Recorder R} : Prop :=
  single_slot context l r r' h : StartRecord context l r = Ret (r', Some h) → ∃ slot, h = SlotHandle.make slot.

#[export] Instance TextRecorder_SingleSlot write_result clock level this :
  @SingleSlot _ (TextRecorder_Recorder write_result clock level this).
Proof.
  intros context l r r' h. cbn [StartRecord TextRecorder_Recorder]. unfold TextRecorder.StartRecord, TextRecorder.ReserveSlot.
  destruct (TextRecorder.IsLogEnabled l context r); [|done]. cbn [negb].
  destruct (LogDrainer.Flush _ _ _ _ _) as [d| |]; [|done..]. cbn [mbind outcome_bind].
  destruct (CircularAllocator.AcquireSlotToWrite _) as [[a th]| |]; [|done..]. cbn [mbind outcome_bind].
  destruct th as [| | |slot]; try done. cbn [mbind outcome_bind]. destruct slot as [slot|]; [|done].
  destruct (TextRecorder.GetLogRecord _ _) as [[i e]| |]; [|done..]. cbn [mbind outcome_bind].
  destruct (TextRecorder.update_record _ _ _) as [d'| |]; [|done..]. intros [= _ <-]. by eexists.
Qed.

(** The values that have the same overload in the composite and in a recorder. *)
Definition passed_on (v : log_value) : bool :=
  match v with Plain (LogHex _ _) | Plain (LogBin _ _) | LogSlog2Message _ _ => false | _ => true end.

Section Equivalence.
Context {R : Type} `{!Recorder R}.

(** A handle that names the slots [slots] of the first recorders. *)
Definition names (h : SlotHandle) (slots : list (option Z)) : Prop :=
  handle_ok h ∧
  ∀ i, (i < 4)%nat →
    IsRecorderActive (Z.of_nat i) h = Ret (bool_decide (is_Some (mjoin (slots !! i))))
    ∧ GetSlot (Z.of_nat i) h = Ret (default 0 (mjoin (slots !! i))).

Lemma names_default : names default_ [].
Proof.
  split; [apply default_ok|]. intros i Hi. do 4 (destruct i as [|i]; [done|]). lia.
Qed.

Lemma names_none h slots : names h slots → names h (slots ++ [None]).
Proof.
  intros [Hok Hn]. split; [done|]. intros i Hi. destruct (Hn i Hi) as [-> ->].
  assert (mjoin ((slots ++ [None]) !! i) = mjoin (slots !! i)) as ->; [|done].
  destruct (decide (i < length slots)%nat); [by rewrite lookup_app_l|].
  rewrite lookup_app_r, (lookup_ge_None_2 slots) by lia. by destruct (i - length slots)%nat.
Qed.

Lemma names_some h slots slot :
  names h slots → (length slots < 4)%nat →
  names (SetSlot slot (Z.of_nat (length slots)) h) (slots ++ [Some slot]).
Proof.
  intros [Hok Hn] Hl. split; [by apply SetSlot_ok|]. intros i Hi.
  destruct (GetSlot_SetSlot slot (Z.of_nat (length slots)) (Z.of_nat i) h Hok) as [-> ->];
    [lia|unfold kMaxRecorders; lia|].
  destruct (Z.eqb_spec (Z.of_nat (length slots)) (Z.of_nat i)) as [E|E].
  - apply Nat2Z.inj in E as <-. by rewrite list_lookup_middle.
  - destruct (Hn i Hi) as [-> ->].
    assert (mjoin ((slots ++ [Some slot]) !! i) = mjoin (slots !! i)) as ->; [|done].
    destruct (decide (i < length slots)%nat); [by rewrite lookup_app_l|].
    rewrite lookup_app_r, (lookup_ge_None_2 slots) by lia.
    destruct (i - length slots)%nat eqn:Ei; [lia|done].
Qed.

(** The slot a recorder reports when it is started. *)
Definition started (context : str) (l : LogLevel) (r : R) (p : R * option Z) : Prop :=
  ∃ h, StartRecord context l r = Ret (fst p, h)
  ∧ match h with
    | Some h => ∃ slot, GetSlotOfSelectedRecorder h = Ret slot ∧ snd p = Some slot
    | None => snd p = None
    end.

Lemma start_one context l r p slots h :
  started context l r p → names h slots → (length slots < 4)%nat →
  ∃ h', start_recorder context l r (Z.of_nat (length slots)) h = Ret (fst p, h') ∧ names h' (slots ++ [snd p]).
Proof.
  intros (hr & E & Hp) Hn Hl. unfold start_recorder. rewrite E. cbn [mbind outcome_bind]. destruct hr as [h0|].
  - destruct Hp as (slot & -> & ->). eexists. split; [done|by apply names_some].
  - rewrite Hp. exists h. split; [done|by apply names_none].
Qed.

Lemma length_snoc_Z {A} (l : list A) x : Z.of_nat (length (l ++ [x])) = Z.of_nat (length l) + 1.
Proof. rewrite length_app. simpl. lia. Qed.

Lemma start_from context l rs ps : ∀ slots h,
  Forall2 (started context l) rs ps → names h slots → (length slots + length rs <= 4)%nat →
  ∃ h', ForEachRecorder_from (start_recorder context l) (Z.of_nat (length slots)) rs h = Ret (fst <$> ps, h')
  ∧ names h' (slots ++ (snd <$> ps)).
Proof.
  intros slots h Hps. revert slots h. induction Hps as [|r p rs ps Hp Hps IH]; intros slots h Hn Hl.
  { exists h. split; [done|]. by rewrite app_nil_r. }
  cbn [ForEachRecorder_from]. simpl in Hl.
  destruct (start_one context l r p slots h Hp Hn) as (h1 & -> & Hn1); [lia|]. cbn [mbind outcome_bind].
  rewrite <- (length_snoc_Z slots (snd p)).
  destruct (IH (slots ++ [snd p]) h1 Hn1) as (h' & -> & Hn'); [rewrite length_app; simpl; lia|].
  exists h'. split; [done|]. by rewrite <- (assoc_L (++)) in Hn'.
Qed.

(** A call for every recorder with a slot. *)
Definition called (f : R → SlotHandle → outcome R) (p : R * option Z) (r' : R) : Prop :=
  match snd p with Some slot => f (fst p) (SlotHandle.make slot) = Ret r' | None => r' = fst p end.

Lemma SetSlot_make slot h : h = default_ ∨ (∃ s, h = SlotHandle.make s) → SetSlot slot 0 h = SlotHandle.make slot.
Proof. by intros [->|[s ->]]. Qed.

(** The handle that is passed on is reused from recorder to recorder. *)
Definition own (s : SlotHandle) : Prop := s = default_ ∨ ∃ x, s = SlotHandle.make x.

Lemma call_one f h p r' before slots s :
  called f p r' → names h (before ++ snd p :: slots) → (length before < 4)%nat → own s →
  ∃ s', call_active f h (fst p) (Z.of_nat (length before)) s = Ret (r', s') ∧ own s'.
Proof.
  intros Hp [_ Hi] Hl Hs. unfold call_active.
  destruct (Hi (length before) Hl) as [-> ->]. rewrite list_lookup_middle by done. unfold called in Hp.
  destruct (snd p) as [slot|]; cbn -[SetSlot SlotHandle.make].
  - rewrite (SetSlot_make slot s Hs), Hp. cbn -[SlotHandle.make]. eexists. split; [done|by right; eexists].
  - subst r'. by exists s.
Qed.

Lemma active_from f h ps rs' : ∀ before s,
  Forall2 (called f) ps rs' → names h (before ++ (snd <$> ps)) → (length before + length ps <= 4)%nat → own s →
  ∃ s', ForEachRecorder_from (call_active f h) (Z.of_nat (length before)) (fst <$> ps) s = Ret (rs', s').
Proof.
  intros before s Hps. revert before s.
  induction Hps as [|p r' ps rs' Hp Hps IH]; intros before s Hn Hl Hs; [by exists s|].
  rewrite fmap_cons in Hn. rewrite fmap_cons. cbn [ForEachRecorder_from]. simpl in Hl.
  destruct (call_one f h p r' before (snd <$> ps) s Hp Hn) as (s1 & -> & Hs1); [lia|done|]. cbn [mbind outcome_bind].
  rewrite <- (length_snoc_Z before (snd p)).
  destruct (IH (before ++ [snd p]) s1) as (s' & ->); [|rewrite length_app; simpl; lia|done|by exists s'].
  by rewrite <- (assoc_L (++)).
Qed.

Lemma ForEachActiveSlot_spec f h ps rs' :
  Forall2 (called f) ps rs' → names h (snd <$> ps) → (length ps <= 4)%nat →
  ForEachActiveSlot f h (fst <$> ps) = Ret rs'.
Proof.
  intros Hps Hn Hl. unfold ForEachActiveSlot, ForEachRecorder.
  destruct (active_from f h ps rs' [] default_ Hps Hn Hl) as (s' & E); [by left|].
  change 0 with (Z.of_nat (length (@nil (option Z)))). by rewrite E.
Qed.

(** The values of a message, for every recorder with a slot. *)
Lemma log_all_spec h vs : ∀ ps rs',
  Forall2 (called (λ r h, log_all h (forwarded <$> vs) r)) ps rs' → names h (snd <$> ps) → (length ps <= 4)%nat →
  log_all (R := list R) h vs (fst <$> ps) = Ret rs'.
Proof.
  induction vs as [|v vs IH]; intros ps rs' Hps Hn Hl.
  - cbn. f_equal. clear Hn Hl. induction Hps as [|p r' ps rs' Hp Hps IH]; [done|]. cbn. f_equal; [|done].
    unfold called in Hp. destruct (snd p); cbn in Hp; congruence.
  - cbn [log_all].
    assert (∃ ps1, snd <$> ps1 = snd <$> ps ∧ Forall2 (called (λ r h, Log h (forwarded v) r)) ps (fst <$> ps1)
      ∧ Forall2 (called (λ r h, log_all h (forwarded <$> vs) r)) ps1 rs') as (ps1 & Hs1 & H1 & H2).
    { clear Hn Hl IH. induction Hps as [|p r' ps rs' Hp Hps IH]; [by exists []|].
      destruct IH as (ps1 & Hs1 & H1 & H2). unfold called in Hp. destruct (snd p) as [slot|] eqn:Es.
      - cbn [fmap list_fmap log_all] in Hp.
        destruct (Log (SlotHandle.make slot) (forwarded v) (fst p)) as [r1| |] eqn:El; [|done..].
        exists ((r1, Some slot) :: ps1). split; [cbn; by rewrite Es, Hs1|]. split; constructor; try done.
        unfold called. by rewrite Es.
      - exists ((fst p, None) :: ps1). split; [cbn; by rewrite Es, Hs1|]. split; constructor; try done.
        unfold called. by rewrite Es. }
    change (Log (R := list R) h v (fst <$> ps)) with (ForEachActiveSlot (λ r h, Log h (forwarded v) r) h (fst <$> ps)).
    rewrite (ForEachActiveSlot_spec _ h ps (fst <$> ps1) H1 Hn Hl). cbn [mbind outcome_bind].
    apply IH; [done|by rewrite Hs1|]. apply (f_equal length) in Hs1. rewrite !length_fmap in Hs1. lia.
Qed.

(** A message is enabled if at least one recorder has it enabled. *)
Lemma composite_enabled l context rs :
  IsLogEnabled (R := list R) l context rs = true ↔ ∃ r, r ∈ rs ∧ IsLogEnabled l context r = true.
Proof.
  cbn [IsLogEnabled CompositeRecorder_Recorder]. unfold composite_IsLogEnabled.
  assert (∀ b, foldl (λ b r, b || IsLogEnabled l context r) b rs = true
    ↔ b = true ∨ ∃ r, r ∈ rs ∧ IsLogEnabled l context r = true) as H.
  { induction rs as [|r rs IH]; intros b; simpl; [set_solver|]. rewrite IH, orb_true_iff. set_solver. }
  rewrite H. naive_solver.
Qed.

(** A message with the handle that the composite makes for a recorder. *)
Definition log_message_own (context : str) (l : LogLevel) (vs : list log_value) (r : R) : outcome R :=
  '(r, h) ← StartRecord context l r;
  match h with
  | None => Ret r
  | Some h =>
      slot ← GetSlotOfSelectedRecorder h;
      r ← log_all (SlotHandle.make slot) vs r;
      StopRecord (SlotHandle.make slot) r
  end.

Lemma log_message_own_handle `{!SingleSlot R} context l vs r r' :
  log_message context l vs r = Ret r' → log_message_own context l vs r = Ret r'.
Proof.
  unfold log_message, log_message_own. destruct (StartRecord context l r) as [[r1 [h|]]| |] eqn:E; [|done..].
  cbn [mbind outcome_bind]. by destruct (single_slot _ _ _ _ _ E) as [slot ->].
Qed.

Lemma composite_message context l vs rs rs' :
  (length rs <= 4)%nat →
  Forall2 (λ r r', log_message_own context l (forwarded <$> vs) r = Ret r') rs rs' →
  log_message (R := list R) context l vs rs = Ret rs'.
Proof.
  intros Hl H.
  assert (∃ ps ps2, Forall2 (started context l) rs ps ∧ snd <$> ps2 = snd <$> ps
    ∧ Forall2 (called (λ r h, log_all h (forwarded <$> vs) r)) ps (fst <$> ps2)
    ∧ Forall2 (called (λ r h, StopRecord h r)) ps2 rs') as (ps & ps2 & H0 & Hs & H1 & H2).
  { clear Hl. induction H as [|r r' rs rs' Hr H IH]; [by exists [], []|].
    destruct IH as (ps & ps2 & H0 & Hs & H1 & H2). unfold log_message_own in Hr.
    destruct (StartRecord context l r) as [[r1 [h|]]| |] eqn:E; [..|done|done]; cbn [mbind outcome_bind] in Hr.
    - destruct (GetSlotOfSelectedRecorder h) as [slot| |] eqn:Eh; [|done..]. cbn [mbind outcome_bind] in Hr.
      destruct (log_all (SlotHandle.make slot) (forwarded <$> vs) r1) as [r2| |] eqn:El; [|done..].
      exists ((r1, Some slot) :: ps), ((r2, Some slot) :: ps2).
      split; [constructor; [|done]; eexists; split; [done|]; by eexists|]. split; [cbn; by rewrite Hs|].
      split; by constructor.
    - injection Hr as ->. exists ((r', None) :: ps), ((r', None) :: ps2).
      split; [constructor; [|done]; by eexists|]. split; [cbn; by rewrite Hs|]. split; by constructor. }
  unfold log_message. cbn [StartRecord CompositeRecorder_Recorder]. unfold composite_StartRecord, ForEachRecorder.
  destruct (start_from context l rs ps [] default_ H0 names_default) as (h & E & Hn); [simpl; lia|].
  setoid_rewrite E. cbn [mbind outcome_bind]. pose proof (Forall2_length _ _ _ H0) as Hlen.
  rewrite (log_all_spec h vs ps (fst <$> ps2)) by (done || lia). cbn [mbind outcome_bind].
  apply (f_equal length) in Hs as Hl2. rewrite !length_fmap in Hl2.
  apply (ForEachActiveSlot_spec _ h ps2 rs' H2); [by rewrite Hs|lia].
Qed.

End Equivalence.

(** ** Properties *)

(** What a composite does with a value of another overload: the message that is
    logged has another value in its place. *)
Lemma log_message_forwarded {R : Type} `{!Recorder R} context l vs vs' (rs : list R) :
  forwarded <$> vs = forwarded <$> vs' →
  log_message (R := list R) context l vs rs = log_message (R := list R) context l vs' rs.
Proof.
  intros E. unfold log_message. destruct (StartRecord context l rs) as [[rs1 [h|]]| |]; [|done..].
  cbn [mbind outcome_bind]. assert (∀ rs2 : list R, log_all h vs rs2 = log_all h vs' rs2) as H; [|by rewrite H].
  revert vs' E. induction vs as [|v vs IH]; intros [|v' vs'] E rs2; [done..|]. injection E as Ev E.
  cbn [log_all Log CompositeRecorder_Recorder]. unfold composite_Log. rewrite Ev.
  destruct (LogForEachActiveSlot _ h rs2); [|done..]. by apply IH.
Qed.

Lemma passed_on_forwarded vs : forallb passed_on vs = true → forwarded <$> vs = vs.
Proof.
  induction vs as [|v vs IH]; [done|]. cbn. intros [Hv Hvs]%andb_true_iff. f_equal; [|by apply IH].
  by destruct v as [[]|].
Qed.

(** C33: a message of booleans, integers in decimal, floating-point numbers,
    strings and raw buffers, logged through a composite of up to four recorders,
    leaves every recorder as if it had logged the message without the composite:
    recorders that have no slot for the message or filter it do not disturb the
    others, and no recorder sees a slot of another one.  A number to be written
    in hexadecimal or binary is logged as if in decimal, and a slog2 message as
    its text. *)
Theorem composite_equivalent {R : Type} `{!Recorder R, !SingleSlot R} (context : str) (l : LogLevel)
    (vs before after : list log_value) (rs rs' : list R) (t : int_type) (n code : Z) (message : str) :
  (length rs <= 4)%nat →
  let composite vs := log_message (R := list R) context l vs rs in
  (forallb passed_on vs = true →
   Forall2 (λ r r', log_message context l vs r = Ret r') rs rs' →
   composite vs = Ret rs') ∧
  composite (before ++ Plain (LogHex t n) :: after) = composite (before ++ Plain (LogInteger t n kDecimal) :: after) ∧
  composite (before ++ Plain (LogBin t n) :: after) = composite (before ++ Plain (LogInteger t n kDecimal) :: after) ∧
  composite (before ++ LogSlog2Message code message :: after) = composite (before ++ Plain (LogString message) :: after).
Proof.
  intros Hl composite. split_and!; [|by apply log_message_forwarded; rewrite !fmap_app..].
  intros Hvs H. apply composite_message; [done|]. rewrite passed_on_forwarded by done.
  eapply Forall2_impl; [exact H|]. intros r r' Hr. by apply log_message_own_handle.
Qed.

(** A recorder for all messages and one that is off. *)
Definition example_write (k : nat) (n : Z) : option Z := Some n.
Definition example_clock (k : nat) : LogDrainer.clock_reading :=
  {| LogDrainer.time_str := Some (s! "2026/01/02 03:04:05."); LogDrainer.milliseconds := 1767323045006;
     LogDrainer.timestamp := 12345 |}.

#[local] Instance example_recorder : Recorder TextRecorder.TextRecorder :=
  TextRecorder_Recorder example_write example_clock ASSERT_LEVEL_DEFAULT 1.

Definition example_text_recorder (l : LogLevel) : TextRecorder.TextRecorder :=
  TextRecorder.CreateConcreteLogRecorder (LogConfiguration.SetNumberOfSlots 2 (LogConfiguration.SetSlotSizeInBytes 64
    (LogConfiguration.SetDefaultConsoleLogLevel l LogConfiguration.default_configuration))).

Definition example_recorders : list TextRecorder.TextRecorder :=
  [example_text_recorder kOff; example_text_recorder kWarn].

Definition example_values : list log_value := [Plain (LogString (s! "mask")); Plain (LogHex uint8_t 255)].

(** What the recorders have written. *)
Definition written (o : outcome (list TextRecorder.TextRecorder)) : option (list str) :=
  match o with
  | Ret rs => Some ((λ r, LogDrainer.file (LogDrainer.world_ (TextRecorder.backend_ r))) <$> rs)
  | _ => None
  end.

Definition example_line : str := s! "2026/01/02 03:04:05.3045006 12345 000 ECU1 NONE MAIN log error verbose 2 mask 255 ".

(** A message all values of which are passed on. *)
Definition plain_values : list log_value := [Plain (LogString (s! "mask")); Plain (LogInteger uint8_t 255 kDecimal)].

(** A recorder after the message, alone. *)
Definition example_alone (r : TextRecorder.TextRecorder) : TextRecorder.TextRecorder :=
  match log_message (s! "MAIN") kError plain_values r with Ret r' => r' | _ => r end.

Definition example_after : list TextRecorder.TextRecorder :=
  [example_alone (example_text_recorder kOff); example_alone (example_text_recorder kWarn)].

Lemma composite_equivalent_witness :
  log_message (s! "MAIN") kError plain_values example_recorders = Ret example_after
  ∧ written (Ret example_after) = Some [s! ""; example_line ++ ["010"%char]]
  ∧ log_message (s! "MAIN") kError example_values example_recorders = Ret example_after.
Proof.
  destruct (composite_equivalent (s! "MAIN") kError plain_values [Plain (LogString (s! "mask"))] []
    example_recorders example_after uint8_t 255 0 []) as (H & Hhex & _); [vm_compute; lia|].
  assert (log_message (s! "MAIN") kError plain_values example_recorders = Ret example_after) as E.
  { apply H; [reflexivity|]. apply Forall2_cons_2; [vm_compute; reflexivity|].
    apply Forall2_cons_2; [vm_compute; reflexivity|apply Forall2_nil_2]. }
  split; [exact E|]. split; [vm_compute; reflexivity|]. exact (eq_trans Hhex E).
Defined.

(** The same value, logged by the second recorder without a composite, is
    written in hexadecimal. *)
Theorem composite_loses_representation :
  written (log_message (s! "MAIN") kError example_values example_recorders)
  = Some [s! ""; example_line ++ ["010"%char]]
  ∧ written (r ← log_message (s! "MAIN") kError example_values (example_text_recorder kWarn); Ret [r])
    = Some [s! "2026/01/02 03:04:05.3045006 12345 000 ECU1 NONE MAIN log error verbose 2 mask ff " ++ ["010"%char]].
Proof. vm_compute. split; reflexivity. Qed.

End CompositeRecorder.
